(* ===== verification/_CoqProject ===== *)
-Q . S2P
Prelude.v
AssocList.v
OrderedMap.v
OrderedMapRep.v
OrderedMapProps.v
Object.v
Value.v
ValueProps.v
Heap.v
HeapSpec.v
HeapProps.v
Display.v
Collections.v
Bytes.v
BytesProps.v
Scalars.v
Str.v
Lts.v
Sync.v
SyncProps.v
Locks.v
LocksProps.v
LocksExcl.v
Pool.v
StdErrors.v
StdErrorsProps.v
Float64.v
Random.v
ValueTable.v
Math.v
Utf8.v
Coverage.v
Env.v
DynValue.v
Stream.v
StreamInv.v
StreamSafe.v
StreamProps.v
Log.v
Process.v
ProcessProps.v
Csv.v
NetTable.v
WebSocket.v
WebSocketProps.v
Http.v
HttpProps.v
HttpReadProps.v
Router.v
RouterProps.v
Path.v
HttpServe.v
Url.v
Regex.v
Poller.v
Io.v
NetTypes.v
Uuid.v
DateTypes.v
DateProps.v
Datetime.v
Sse.v
Cli.v
CliProps.v
CliSound.v
Json.v
JsonParse.v
JsonValue.v
JsonParseProps.v
JsonRoundTrip.v
JsonValueProps.v
SqlText.v
SqlPieces.v
SqlTextProps.v
SqlRewrite.v
SqlPool.v
SqlSession.v
SqlConnect.v
SqlSessionProps.v
SqlMigrate.v
