(* ===== verification/Prelude.v ===== *)
(** * Verification of the Mux runtime (mux-runtime)

    The runtime is the Rust library that compiled Mux programs link against: a
    universal [Value], reference-counted blocks that hold values, the collections and
    scalars of the language, and a standard library of services.  Compiled code calls
    it through C functions ([mux_*]); it keeps global state in a type registry, in
    reference counts, and in tables of handles.  The library verifies the core of
    it, layer by layer, each file modelling source files of the same topic.

    ** Layers

    - [Prelude]: machine integers (a w-bit integer is a [Z] with its range and
      wrap-around written out), Rust's [Result], the laws of [Eq] and [Ord] on the
      elements of a predicate, and the tactics and hints shared by all files.
    - [AssocList]: the abstract insertion-ordered map, a list of entries, with
      equality up to order, sorting by key and lexicographic comparison.
    - [OrderedMap] (src/src/ordered.rs): the slab with its order chain and free list
      and the external hash table.  The table is an interface, [HashTable], with its
      documented behaviour as [HashTableLaws]; keys are the interface [Key].
      [OrderedMapRep] relates a slab to its entry list; [OrderedMapProps] holds the
      refinement theorem for arbitrary traces of calls, the bound on the slab, and the
      laws of iteration, equality, hash and order.
    - [Object] (src/src/object.rs, the keying part of lib.rs): the type registry,
      registration, and how an object is compared and hashed through the functions
      its class registered.  Those functions are compiled Mux code: the interface
      [Callbacks], with the contract the runtime documents as [CallbackLaws].
    - [Value] (src/src/lib.rs): the value type with [PartialEq], [Ord] and [Hash].
      The same file and [ValueProps] prove that they are an equivalence, a total order
      and a consistent hash on well-formed values, hence that values can key maps: the
      instance of [OrderedMap] at values refines the abstract map.
    - [Heap] (src/src/refcount.rs, object.rs, closure.rs, the clone and drop glue of
      lib.rs): blocks, object handles, buffers, capture cells and closures as an
      explicit state, with operations in a state and error monad.  It states
      the invariant (counts equal references, buffers belong to handles, the live
      counter is the number of blocks), [HeapSpec] proves a specification for each
      operation, [HeapProps] composes them: safety of every reachable heap, exactness
      of the leak check, and the last-reference behaviour of objects, cells and
      closures.
    - [Display] (the [Display] instances of src/src/lib.rs, list.rs, map.rs, set.rs,
      optional.rs, result.rs, tuple.rs and float.rs): the text of a value; the digits of
      a float are an interface.
    - [Collections] (src/src/list.rs, map.rs, set.rs): the collection operations on top
      of the heap; well-formedness, memory safety, and positions.  What a mutation replaces
      is dropped in the middle of the update, as in the source; destructors may use the
      runtime but not the collection being mutated.
    - [Bytes] (src/src/byte.rs, bytes.rs): octet arithmetic, byte sequences, binary
      encodings and cursors; [BytesProps]: round trips, bounds, cursor invariant.
    - [Scalars] (src/src/int.rs, bool.rs, panic.rs, optional.rs, result.rs, tuple.rs):
      definitions and properties together.
    - [Str] (src/src/string.rs): texts as code points and their UTF-8 bytes;
      operations on bytes answer in characters, splitting, printing.
    - [Lts]: interleavings of threads as a step function on labels, reachability,
      invariants, counting threads.  [Sync] (src/src/sync_primitives.rs): handle tables
      ([Handles]), atomics and cancellation tokens ([Atomic]), [Semaphore], [Once] and
      [Channel]; [Pool] the worker pool of the same file.  A step is a critical section
      or an atomic operation; labels resolve the scheduler, the clock and the
      condition variables, spurious wake-ups included.  [SyncProps] and [Pool]:
      conservation, order and absence of lost wake-ups in every reachable
      configuration, and two schedules in which the plain close of a pool leaves
      threads asleep.
    - [Locks] (src/src/sync.rs): mutexes, read-write locks, condition variables and
      threads: registries of shared entries, the lists of locks each thread holds, scoped
      callbacks, waits, and what a thread that ends with locks held does.  The native
      primitives are modelled as their documentation describes them, with a flag that
      records any use it leaves undefined, waiting on one condition variable with two
      mutexes included; the guard of a registry is a lock that a thread keeps while it
      makes a handle.  It states the invariant (arcs, holds,
      owners and waiters agree), [LocksProps] proves that every step keeps it, hence that
      the flag is never raised while callers keep the documented contract of waiting,
      [LocksExcl] that locks exclude, and that a failed allocation of a handle leaves its
      thread waiting for a guard it has itself.
    - [StdErrors] (src/src/std.rs, typed errors): the categories and the
      twenty error classes as instances of one package, as the source's macros make them;
      [StdErrorsProps]: the table of errors refines a map of immutable entries.
    - [Env] and [DynValue] (src/src/std.rs): environment variables, and the functions by
      which compiled code builds, compares, slices and prints values.
    - [Stream] (src/src/stream.rs): readers, writers, tees and erased streams
      over memory, files and sockets; the operating system is an interface.
      [StreamInv]: names are counted exactly; [StreamSafe]: every operation keeps that;
      [StreamProps]: no call panics (slices are fallible), nothing is left registered, what
      copying moves and what reading lines answers.
    - [Utf8]: the UTF-8 decoder that the protocol code applies to received octets, with
      the round trip against the encoder of [Str]; [NetTable] (src/src/net.rs, the handle
      tables of messages, headers and frames): an interface of tables with fresh positive
      handles, instantiated by every table of the file.
    - [WebSocket] (src/src/net.rs, frames and messages): the frame codec, fragment
      reassembly, and the session loop that answers pings and closes; [WebSocketProps]:
      codec round trips, that a decoded frame is canonical, reassembly, and that a session
      returns the message sent whatever frames and segments carry it.
    - [Http] (src/src/net.rs, HTTP/1 messages): header fields, request parsing from a
      stream that delivers octets in arbitrary segments, chunked bodies with trailers,
      and response writing; [HttpProps] the framing of responses and the laws of header
      collections, [HttpReadProps] the reader: independence of segmentation, chunked
      decoding, and termination on every stream.
    - [Router] (src/src/net.rs, the HTTP router): route patterns, specificity, selection,
      registration with its ambiguity check, basic and bearer authentication, and
      dispatch; [RouterProps]: the selected route is the most specific one, routes match
      exactly the instances of their pattern, and no handler runs unauthenticated.
    - [Sse] (src/src/net.rs, server-sent events): the encoder against a reference client.
    - [Cli] (src/src/cli.rs): the table of parsers, declarations and help text;
      response files and the parse itself; [CliProps] and [CliSound]: option
      spellings, termination, soundness of the answer against the declarations, response
      file round trip, and what closing a copied parser does to its subcommands.
    - [Json] (src/src/json.rs): JSON pointers, patch and merge patch; their
      laws.  [JsonParse]: rendering, the number scanner, the token limit,
      the visitor, duplicate policies, exact numbers and the token scanner; the
      deserializer of serde_json is the interface [Serde], a tree of the calls it makes.
      [JsonValue]: the table of exact numbers, conversions to and from
      runtime values, lines, accessors, canonical text, token readers.  The
      reference is documents with their spellings and repeated members, the texts that
      spell them, and what a policy makes of them; [JsonParseProps], [JsonRoundTrip] and
      [JsonValueProps] prove that parsing gives it, that what is written reads back, that
      tokens are exact, and that canonical text and values depend on the document only.
      Floats need not survive serde_json's parser; parsing keeps as floats only those
      that do, and the others as their spelling.
    - [SqlText] (src/src/sql.rs, placeholders, scripts and parameters): the scanner that
      skips literals, comments and dollar bodies; its termination; [SqlPieces]
      texts assembled from pieces, [SqlTextProps] and [SqlRewrite] what rewriting and
      splitting make of them.  [SqlPool]: the connection pool under every
      interleaving.  [SqlMigrate]: migrations against a driver with
      laws: the history table, validation, locking, and for every way a migration ends what
      ran and what it leaves.
      [SqlSession]: the tables of a thread with connections, transactions, result sets,
      rows, prepared statements and errors, the leases that open result sets hold, and the
      calls on them; [SqlConnect]: connection URIs, the choice of a driver, and the values
      of rows.  [SqlSessionProps]: the leases are exactly the open result sets after every
      call and every drop, and two runs in which they do not protect the connection.
    - [ValueTable]: the tables by which src/src/uuid.rs, net_types.rs, datetime_types.rs and
      path.rs keep immutable values behind counted handles, with the refinement theorem
      those files share.  [Uuid] (src/src/uuid.rs): text, version and variant bits,
      generators.  [NetTypes] (src/src/net_types.rs): the text of addresses, and
      addresses, socket addresses, CIDR blocks and endpoints.  [Path]
      (src/src/path.rs): the paths of the Rust library on Unix, and path objects.
      [DateTypes] (src/src/datetime_types.rs), [DateProps], [Datetime]
      (src/src/datetime.rs): dates, times, instants, durations, periods and zones over the
      interface [Chrono] with its laws.
    - [Float64]: IEEE binary64 from the specification floats of the Standard Library.
      [Math] (src/src/math.rs): integer mathematics against reference
      functions, selections, and the functions on floats that the file computes itself.
      [Random] (src/src/random.rs): the generator, ranges by rejection, which are the
      first accepted draw, and shuffles.
    - [Log] (src/src/log.rs): loggers over the streams.  [Coverage]
      (src/src/coverage.rs).  [Csv] (src/src/data.rs): tables, and
      readers and writers over the streams; the csv crate is the interface [CsvCrate].
    - [Process], [ProcessProps] (src/src/process.rs): commands, children and captured
      output; the operating system is the interface [ProcessOs], with a small machine that
      satisfies its laws.  A wait that fails collects nothing; dropping a child ignores it.
    - [HttpServe] (src/src/net.rs): cross-origin rules against the check that browsers
      apply, static files, and the response around a handler.
    - [Url] (src/src/url.rs), [Regex] (src/src/regex.rs) and [Poller] (src/src/poller.rs):
      the objects and their tables over the interfaces of the url, idna and regex crates
      and of the event queue.  [Io] (src/src/io.rs): files, directories, temporary files
      and the console over an interface of the file system, with the limits on what is
      read.

    ** Conventions

    Definitions carry the names of the functions they translate.  A nullable pointer
    is an [option]; an error result is [Err].  Undefined behaviour, self-deadlock and
    abort are faults of the heap monad; a theorem that an operation is safe says
    that it returns, in a state that satisfies the invariant.  A message with a value
    spliced into it keeps its format string and the value, so that errors stay
    distinct where the source's are.

    ** Fuel

    [value_eqb] and [value_cmp] recurse on the depth of the two values, and
    [value_eqb_unfold], [value_cmp_unfold] show that the equations of the source hold at every
    level.  Iteration of a map takes the length of the slab, an upper bound of the
    number of entries; [map_iteration] shows that it ends after exactly [len] items.
    A variable-width integer has at most ten octets, a 64-bit number at most twenty
    decimal digits, and splitting a text consumes a separator in every round.  A round
    of a WebSocket session consumes at least two octets of the stream, a line or chunk
    of a request at least one, so the octets left bound the rounds; the theorems on
    these readers state that they answer.  Parsing a command line descends through
    subcommands, whose identifiers grow, so the distance to the next identifier bounds
    the depth; response files nest at most the eight levels the source allows.  Scanning
    JSON text consumes a character in every round, scanning SQL an octet, lossy decoding
    of a C string an octet.  A round of a stream loop takes an octet of the limit it was
    given; reading a line takes at most the limit of a line and two rounds more.  A power
    takes 64 rounds, a divisor 130 and a square root 33; a draw from a range takes at most
    2^64, the period of the generator.  Waiting for a process with a time limit polls at
    most half as often as there are milliseconds, and twice more; a wait without one that has
    not ended after the polls it was given is still waiting.  Reading a file or a line of
    the console stops at its limit of octets.  Dropping the last reference to a SQL object
    removes it, so the number of objects bounds how far drops go on; reading the rows of a
    result set that has not ended after the rounds it was given still has rows.

    ** What is not modelled

    Memory orderings weaker than sequential consistency; case mapping tables; the digits of a
    float (the interface [FloatText]; elsewhere than in [Math] and [Random] a float is its bit
    pattern with the comparison of [OrderedFloat] as the interface [Floats]); the grammars
    of JSON and CSV, the calendar of chrono and the operating system, which are interfaces.
    Of the router, handlers that register routes while a request is dispatched and the
    OpenID Connect discovery; of SQL, the cursors and value conversions of the database
    drivers and the handles of migrators; of the locks, the Windows back end; of streams,
    loggers and processes, concurrent use of one object, and the pool of processes.  Left out
    whole, because what they do is what the operating system or a third-party crate does:
    sockets, HTTP clients and server threads, TLS and cryptography. *)

From stdpp Require Export prelude gmap list strings pretty sorting.
From Stdlib Require Export ZArith Lia.

#[global] Open Scope Z_scope.
#[global] Open Scope list_scope.

(** ** Hint database of the development *)

Create HintDb mux discriminated.

(** ** Machine integers

    A w-bit Rust integer is a [Z] with its range written out.  [as] casts wrap,
    [checked_*] return [None] on overflow, [saturating_*] clamp. *)

Definition i64_min : Z := - 2 ^ 63.
Definition i64_max : Z := 2 ^ 63 - 1.
Definition u64_max : Z := 2 ^ 64 - 1.
Definition usize_max : Z := 2 ^ 64 - 1.
Definition is_i64 (z : Z) : Prop := i64_min <= z <= i64_max.
Definition is_u64 (z : Z) : Prop := 0 <= z <= u64_max.
Definition is_u8 (z : Z) : Prop := 0 <= z < 256.

(** [z as u8], [z as u64], [z as i64]. *)
Definition as_u8 (z : Z) : Z := z mod 2 ^ 8.
Definition as_u64 (z : Z) : Z := z mod 2 ^ 64.
Definition as_i64 (z : Z) : Z := (z + 2 ^ 63) mod 2 ^ 64 - 2 ^ 63.

(** The test behind [T::try_from], [checked_*] and [contains]. *)
Definition in_range (lo hi z : Z) : bool := (lo <=? z) && (z <=? hi).
Definition try_from_range (lo hi z : Z) : option Z :=
  if in_range lo hi z then Some z else None.

(** [i64::clamp] and the saturating operations. *)
Definition clamp (lo hi z : Z) : Z := Z.max lo (Z.min z hi).
Definition saturate_i64 (z : Z) : Z := clamp i64_min i64_max z.

(** ** Rust's [Result] *)

Inductive result (A E : Type) : Type :=
| Ok (a : A)
| Err (e : E).
Arguments Ok {A E} _.
Arguments Err {A E} _.

Definition result_bind {A B E} (r : result A E) (f : A -> result B E) : result B E :=
  match r with Ok a => f a | Err e => Err e end.

Declare Scope mux_scope.
Delimit Scope mux_scope with mux.
#[global] Open Scope mux_scope.

(** The [?] operator of Rust. *)
Notation "'let?' x := e 'in' k" := (result_bind e (fun x => k))
  (at level 10, x pattern, e at level 100, k at level 200)
  : mux_scope.

Lemma Ok_inj {A E} (a b : A) : @Ok A E a = Ok b -> a = b.
Proof. congruence. Qed.

(** ** Shared tactics *)

(** Split every boolean conjunction and comparison of the context into Props. *)
Ltac bool_to_prop :=
  repeat match goal with
  | H : _ && _ = true |- _ => apply andb_true_iff in H as [? ?]
  | H : negb _ = true |- _ => apply negb_true_iff in H
  | H : negb _ = false |- _ => apply negb_false_iff in H
  | H : (_ <=? _) = true |- _ => apply Z.leb_le in H
  | H : (_ <=? _) = false |- _ => apply Z.leb_gt in H
  | H : (_ <? _) = true |- _ => apply Z.ltb_lt in H
  | H : (_ <? _) = false |- _ => apply Z.ltb_ge in H
  | H : (_ =? _) = true |- _ => apply Z.eqb_eq in H
  | H : (_ =? _) = false |- _ => apply Z.eqb_neq in H
  end.

(** Unfold the width constants and finish by [lia]. *)
Ltac width := unfold is_i64, is_u64, is_u8, i64_min, i64_max, u64_max, usize_max in *; lia.

(** ** Generic lemmas on integers *)

Lemma in_range_true lo hi z : in_range lo hi z = true <-> lo <= z <= hi.
Proof. unfold in_range. rewrite andb_true_iff, !Z.leb_le. tauto. Qed.

Lemma in_range_false lo hi z : in_range lo hi z = false <-> z < lo \/ hi < z.
Proof. unfold in_range. rewrite andb_false_iff, !Z.leb_gt. tauto. Qed.

Lemma as_u8_range z : is_u8 (as_u8 z).
Proof. unfold is_u8, as_u8. apply Z.mod_pos_bound. lia. Qed.

Lemma as_u8_small z : is_u8 z -> as_u8 z = z.
Proof. intros H. apply Z.mod_small. exact H. Qed.

Lemma as_u64_small z : is_u64 z -> as_u64 z = z.
Proof. intros H. apply Z.mod_small. width. Qed.

Lemma as_i64_small z : is_i64 z -> as_i64 z = z.
Proof. intros H. unfold as_i64. rewrite Z.mod_small; width. Qed.

Lemma as_i64_range z : is_i64 (as_i64 z).
Proof.
  unfold as_i64. pose proof (Z.mod_pos_bound (z + 2 ^ 63) (2 ^ 64) ltac:(lia)). width.
Qed.

Lemma clamp_range lo hi z : lo <= hi -> lo <= clamp lo hi z <= hi.
Proof. unfold clamp. lia. Qed.

Lemma clamp_id lo hi z : lo <= z <= hi -> clamp lo hi z = z.
Proof. unfold clamp. lia. Qed.

#[export] Hint Resolve as_u8_range as_i64_range clamp_range : mux.

(** ** Equivalences and orders on the elements of a predicate

    Rust's [Eq] and [Ord] contracts, for comparison functions that are only
    lawful on well-formed elements. *)

Record equiv_on {A} (P : A -> Prop) (eqb : A -> A -> bool) : Prop := {
  eqv_refl a : P a -> eqb a a = true;
  eqv_sym a b : P a -> P b -> eqb a b = true -> eqb b a = true;
  eqv_trans a b c : P a -> P b -> P c -> eqb a b = true -> eqb b c = true -> eqb a c = true;
}.

Record ord_on {A} (P : A -> Prop) (cmp : A -> A -> comparison) : Prop := {
  ord_refl a : P a -> cmp a a = Eq;
  ord_opp a b : P a -> P b -> cmp b a = CompOpp (cmp a b);
  ord_eq_l a b c : P a -> P b -> P c -> cmp a b = Eq -> cmp a c = cmp b c;
  ord_lt_trans a b c : P a -> P b -> P c -> cmp a b = Lt -> cmp b c = Lt -> cmp a c = Lt;
}.

Lemma eqv_sym_eq {A} P (eqb : A -> A -> bool) a b :
  equiv_on P eqb -> P a -> P b -> eqb a b = eqb b a.
Proof.
  intros He Ha Hb. destruct (eqb a b) eqn:E1, (eqb b a) eqn:E2; try done.
  - rewrite (eqv_sym _ _ He a b) in E2; done.
  - rewrite (eqv_sym _ _ He b a) in E1; done.
Qed.

(** Equal elements are interchangeable. *)
Lemma eqv_compat_l {A} P (eqb : A -> A -> bool) a b c :
  equiv_on P eqb -> P a -> P b -> P c -> eqb a b = true -> eqb a c = eqb b c.
Proof.
  intros He Ha Hb Hc E. destruct (eqb a c) eqn:E1, (eqb b c) eqn:E2; try done.
  - rewrite (eqv_trans _ _ He b a c) in E2; try done. by apply (eqv_sym _ _ He).
  - rewrite (eqv_trans _ _ He a b c) in E1; done.
Qed.

Lemma ord_eq_r {A} P (cmp : A -> A -> comparison) a b c :
  ord_on P cmp -> P a -> P b -> P c -> cmp b c = Eq -> cmp a b = cmp a c.
Proof.
  intros Ho Ha Hb Hc E. rewrite (ord_opp _ _ Ho b a), (ord_opp _ _ Ho c a) by done.
  f_equal. by apply (ord_eq_l _ _ Ho).
Qed.

Lemma ord_gt_lt {A} P (cmp : A -> A -> comparison) a b :
  ord_on P cmp -> P a -> P b -> cmp a b = Gt <-> cmp b a = Lt.
Proof.
  intros Ho Ha Hb. rewrite (ord_opp _ _ Ho a b) by done. by destruct (cmp a b).
Qed.

(** A weaker predicate has the same laws. *)
Lemma equiv_on_impl {A} (P Q : A -> Prop) eqb :
  (forall a, Q a -> P a) -> equiv_on P eqb -> equiv_on Q eqb.
Proof. intros HQ [Hr Hs Ht]. split; eauto. Qed.

Lemma ord_on_impl {A} (P Q : A -> Prop) cmp :
  (forall a, Q a -> P a) -> ord_on P cmp -> ord_on Q cmp.
Proof. intros HQ [Hr Hs He Ht]. split; eauto. Qed.

(** ** Generic lemmas on lists *)

Lemma forallb_ext {A} (f g : A -> bool) l : (forall a, f a = g a) -> forallb f l = forallb g l.
Proof. intros Hfg. induction l as [|a l IH]; simpl; [done|]. by rewrite Hfg, IH. Qed.

(** Reordering the left list of a pointwise relation reorders the right one. *)
Lemma Forall2_perm_l {A B} (R : A -> B -> Prop) l1 l1' l2 :
  l1 ≡ₚ l1' -> Forall2 R l1 l2 -> exists l2', l2 ≡ₚ l2' /\ Forall2 R l1' l2'.
Proof.
  intros Hp. revert l2. induction Hp as [|x l1 l1' Hp IH|x y l|]; intros l2 HR.
  - inversion HR; subst. by exists [].
  - inversion HR as [|? b ? r ? HR']; subst. destruct (IH _ HR') as (r' & ? & ?).
    exists (b :: r'). split; [by constructor|by constructor].
  - inversion HR as [|? b ? r ? HR']; subst. inversion HR' as [|? c ? r' ? ?]; subst.
    exists (c :: b :: r'). split; [constructor|]. by repeat constructor.
  - destruct (IHHp1 _ HR) as (r1 & ? & HR1). destruct (IHHp2 _ HR1) as (r2 & ? & ?).
    exists r2. split; [by etrans|done].
Qed.

(** Laws carried along a constructor: every element of [P] is [C x], and the
    comparison of two images is the comparison of the arguments. *)
Lemma equiv_on_ctor {A B} (C : B -> A) (PB : B -> Prop) (P : A -> Prop) eqA eqB :
  equiv_on PB eqB -> (forall x y, eqA (C x) (C y) = eqB x y) ->
  (forall a, P a -> exists x, a = C x /\ PB x) -> equiv_on P eqA.
Proof.
  intros [Hr Hs Ht] HC HP. split.
  - intros a (x & -> & ?)%HP. rewrite HC. auto.
  - intros a b (x & -> & ?)%HP (y & -> & ?)%HP. rewrite !HC. auto.
  - intros a b c (x & -> & ?)%HP (y & -> & ?)%HP (z & -> & ?)%HP. rewrite !HC. eauto.
Qed.

Lemma ord_on_ctor {A B} (C : B -> A) (PB : B -> Prop) (P : A -> Prop) cmpA cmpB :
  ord_on PB cmpB -> (forall x y, cmpA (C x) (C y) = cmpB x y) ->
  (forall a, P a -> exists x, a = C x /\ PB x) -> ord_on P cmpA.
Proof.
  intros [Hr Hs He Ht] HC HP. split.
  - intros a (x & -> & ?)%HP. rewrite HC. auto.
  - intros a b (x & -> & ?)%HP (y & -> & ?)%HP. rewrite !HC. auto.
  - intros a b c (x & -> & ?)%HP (y & -> & ?)%HP (z & -> & ?)%HP. rewrite !HC. auto.
  - intros a b c (x & -> & ?)%HP (y & -> & ?)%HP (z & -> & ?)%HP. rewrite !HC. eauto.
Qed.

(** Laws of a comparison that separates classes first, by a numeric key. *)
Lemma equiv_on_by_class {A} (key : A -> Z) (P : A -> Prop) eqb :
  (forall a b, eqb a b = true -> key a = key b) ->
  (forall w, P w -> equiv_on (fun a => P a /\ key a = key w) eqb) -> equiv_on P eqb.
Proof.
  intros Hk Hc. split.
  - intros a Ha. by apply (eqv_refl _ _ (Hc a Ha)).
  - intros a b Ha Hb E. pose proof (Hk _ _ E). by apply (eqv_sym _ _ (Hc a Ha)).
  - intros a b c Ha Hb Hc' E1 E2. pose proof (Hk _ _ E1). pose proof (Hk _ _ E2).
    apply (eqv_trans _ _ (Hc a Ha) a b c); try done; split; congruence.
Qed.

Lemma ord_on_by_class {A} (key : A -> Z) (P : A -> Prop) cmp :
  (forall a b, key a <> key b -> cmp a b = (key a ?= key b)) ->
  (forall w, P w -> ord_on (fun a => P a /\ key a = key w) cmp) -> ord_on P cmp.
Proof.
  intros Hk Hc. split.
  - intros a Ha. by apply (ord_refl _ _ (Hc a Ha)).
  - intros a b Ha Hb. destruct (decide (key a = key b)) as [E|E].
    + by apply (ord_opp _ _ (Hc a Ha)).
    + rewrite !Hk by congruence. apply Z.compare_antisym.
  - intros a b c Ha Hb Hc' E.
    assert (key a = key b) as Ek.
    { destruct (decide (key a = key b)) as [|Hne]; [done|]. rewrite Hk in E by done.
      by apply Z.compare_eq in E. }
    destruct (decide (key b = key c)) as [E2|E2].
    + apply (ord_eq_l _ _ (Hc a Ha)); try done; split; congruence.
    + by rewrite !Hk, Ek by congruence.
  - intros a b c Ha Hb Hc' E1 E2.
    assert (forall x y, P x -> P y -> cmp x y = Lt -> key x <= key y) as Hle.
    { intros x y Hx Hy E. destruct (decide (key x = key y)) as [->|Hne]; [lia|].
      rewrite Hk, Z.compare_lt_iff in E by done. lia. }
    pose proof (Hle a b Ha Hb E1). pose proof (Hle b c Hb Hc' E2).
    destruct (decide (key a = key c)) as [Eac|Eac].
    + apply (ord_lt_trans _ _ (Hc a Ha) a b c); try done; split; try done; lia.
    + rewrite Hk by done. apply Z.compare_lt_iff. lia.
Qed.
