(* ===== verification/AssocList.v ===== *)
(** * Association lists in insertion order

    The abstract view of Mux's maps and sets: the list of entries in the order
    they were inserted, with the operations a map offers on it.  The slab of
    [OrderedMap] is proved to implement these operations, and the runtime values
    of [Value] carry maps and sets in this form.  The file also holds what the
    comparison of two maps needs: equality of entry lists up to reordering,
    stable sorting by key, and lexicographic comparison. *)

From S2P Require Import Prelude.

#[local] Open Scope nat_scope.

(** ** The abstract map: entries in insertion order *)

Section AbstractMap.
Context {K V : Type} (eqb : K -> K -> bool).

Fixpoint al_get (k : K) (l : list (K * V)) : option V :=
  match l with
  | [] => None
  | (k', v) :: r => if eqb k' k then Some v else al_get k r
  end.

(** An existing key keeps its place and its stored key; a new one goes last. *)
Fixpoint al_insert (k : K) (v : V) (l : list (K * V)) : list (K * V) :=
  match l with
  | [] => [(k, v)]
  | (k', v') :: r => if eqb k' k then (k', v) :: r else (k', v') :: al_insert k v r
  end.

Fixpoint al_remove (k : K) (l : list (K * V)) : list (K * V) :=
  match l with
  | [] => []
  | (k', v') :: r => if eqb k' k then r else (k', v') :: al_remove k r
  end.

Fixpoint keys_distinct (l : list (K * V)) : Prop :=
  match l with
  | [] => True
  | (k, _) :: r => Forall (fun e => eqb k e.1 = false) r /\ keys_distinct r
  end.

Lemma al_get_none k l : al_get k l = None <-> Forall (fun e => eqb e.1 k = false) l.
Proof.
  induction l as [|[k' v'] r IH]; simpl; [by split|].
  destruct (eqb k' k) eqn:E; split; intros Hr; simplify_eq; [|by constructor; [|apply IH]|].
  - inversion Hr; subst. simpl in *. congruence.
  - inversion Hr; subst. by apply IH.
Qed.

Lemma al_insert_absent k v l : al_get k l = None -> al_insert k v l = l ++ [(k, v)].
Proof.
  induction l as [|[k' v'] r IH]; simpl; [done|].
  destruct (eqb k' k); [done|]. intros Hr. by rewrite IH.
Qed.

Lemma al_split k l v :
  al_get k l = Some v ->
  exists l1 k' l2, l = l1 ++ (k', v) :: l2 /\ eqb k' k = true /\ al_get k l1 = None.
Proof.
  induction l as [|[k' v'] r IH]; simpl; [done|].
  destruct (eqb k' k) eqn:E; intros Hr; simplify_eq.
  - by exists [], k', r.
  - destruct (IH Hr) as (l1 & k2 & l2 & -> & ? & ?).
    exists ((k', v') :: l1), k2, l2. simpl. by rewrite E.
Qed.

Lemma al_get_app_absent k l1 l2 : al_get k l1 = None -> al_get k (l1 ++ l2) = al_get k l2.
Proof.
  induction l1 as [|[k' v'] r IH]; simpl; [done|]. by destruct (eqb k' k).
Qed.

Lemma al_insert_app_absent k v l1 l2 :
  al_get k l1 = None -> al_insert k v (l1 ++ l2) = l1 ++ al_insert k v l2.
Proof.
  induction l1 as [|[k' v'] r IH]; simpl; [done|]. destruct (eqb k' k); [done|].
  intros Hr. by rewrite IH.
Qed.

Lemma al_remove_app_absent k l1 l2 :
  al_get k l1 = None -> al_remove k (l1 ++ l2) = l1 ++ al_remove k l2.
Proof.
  induction l1 as [|[k' v'] r IH]; simpl; [done|]. destruct (eqb k' k); [done|].
  intros Hr. by rewrite IH.
Qed.

Lemma al_remove_absent k l : al_get k l = None -> al_remove k l = l.
Proof.
  intros Hr. pose proof (al_remove_app_absent k l [] Hr) as E.
  simpl in E. by rewrite !app_nil_r in E.
Qed.

Lemma keys_distinct_app l1 l2 :
  keys_distinct (l1 ++ l2) <->
  keys_distinct l1 /\ keys_distinct l2 /\
  Forall (fun e1 => Forall (fun e2 => eqb e1.1 e2.1 = false) l2) l1.
Proof.
  induction l1 as [|[k v] r IH]; simpl.
  - split; [intros; repeat split; auto|tauto].
  - rewrite IH, Forall_app, Forall_cons. simpl. tauto.
Qed.

Lemma al_get_in k v l : al_get k l = Some v -> exists k', (k', v) ∈ l /\ eqb k' k = true.
Proof. intros (l1 & k' & l2 & -> & ? & _)%al_split. exists k'. split; [set_solver|done]. Qed.

End AbstractMap.

(** ** Equality of entry lists up to reordering *)

Section PermEq.
Context {K V : Type} (PK : K -> Prop) (PV : V -> Prop).
Context (keq : K -> K -> bool) (veq : V -> V -> bool).
Context (Hk : equiv_on PK keq) (Hv : equiv_on PV veq).
Implicit Types (l : list (K * V)).

(** Every key and value of [l] satisfies the predicates. *)
Definition entries_in l : Prop := Forall (fun e => PK e.1 /\ PV e.2) l.

(** The loop of [PartialEq for OrderedMap], on entry lists. *)
Definition al_eqb l1 l2 : bool :=
  (length l1 =? length l2) &&
  forallb (fun '(k, v) => match al_get keq k l2 with Some ov => veq ov v | None => false end) l1.

(** Two entries with equal keys and equal values. *)
Definition entry_eq (e1 e2 : K * V) : Prop := keq e1.1 e2.1 = true /\ veq e1.2 e2.2 = true.

Definition perm_eq l1 l2 : Prop := exists l, l1 ≡ₚ l /\ Forall2 entry_eq l l2.

Lemma entries_in_perm l1 l2 : l1 ≡ₚ l2 -> entries_in l1 -> entries_in l2.
Proof. unfold entries_in. by intros ->. Qed.

Lemma keys_distinct_spec l1 e1 l2 e2 l3 :
  keys_distinct keq (l1 ++ e1 :: l2 ++ e2 :: l3) -> keq e1.1 e2.1 = false.
Proof.
  rewrite keys_distinct_app. simpl. destruct e1 as [k1 v1]. intros (_ & [Hf _] & _).
  by apply Forall_app in Hf as [_ [? _]%Forall_cons].
Qed.

Lemma keys_distinct_perm l1 l2 :
  entries_in l1 -> l1 ≡ₚ l2 -> keys_distinct keq l1 -> keys_distinct keq l2.
Proof.
  intros Hin Hp. induction Hp as [|[k v] l1 l2 Hp IH|[k1 v1] [k2 v2] l|]; simpl.
  - done.
  - inversion Hin; subst. intros [Hf Hd]. split; [by rewrite <- Hp|by apply IH].
  - inversion Hin as [|? ? [Hp1 _] Hin']; subst. inversion Hin' as [|? ? [Hp2 _] _]; subst.
    rewrite !Forall_cons. simpl in *. intros [[E Hf1] [Hf2 Hd]].
    rewrite (eqv_sym_eq PK keq k1 k2) by done. tauto.
  - intros. apply IHHp2; [by eapply entries_in_perm|]. by apply IHHp1.
Qed.

Lemma al_get_skip k l1 k' v' l2 :
  keq k' k = false -> al_get keq k (l1 ++ (k', v') :: l2) = al_get keq k (l1 ++ l2).
Proof.
  intros E. induction l1 as [|[k1 v1] r IH]; simpl; [by rewrite E|].
  destruct (keq k1 k); [done|]. apply IH.
Qed.

(** Looking up a key whose entry is in the list. *)
Lemma al_get_elem k k' v l :
  entries_in l -> PK k -> keys_distinct keq l -> (k', v) ∈ l -> keq k' k = true ->
  al_get keq k l = Some v.
Proof.
  intros Hin Hpk Hd Hel E. apply list_elem_of_split in Hel as (l1 & l2 & ->).
  unfold entries_in in Hin. rewrite Forall_app, Forall_cons in Hin.
  destruct Hin as (Hin1 & [Hpk' _] & _). simpl in Hpk'.
  rewrite al_get_app_absent; [simpl; by rewrite E|].
  apply al_get_none. apply keys_distinct_app in Hd as (_ & _ & Hd).
  apply Forall_forall. intros [k1 v1] Hel1.
  pose proof (proj1 (Forall_forall _ _) Hd _ Hel1) as Hf.
  pose proof (proj1 (Forall_forall _ _) Hin1 _ Hel1) as [Hpk1 _]. simpl in *.
  inversion Hf as [|? ? Hne _]; subst. simpl in Hne.
  destruct (keq k1 k) eqn:E1; [|done].
  rewrite (eqv_trans _ _ Hk k1 k k') in Hne; try done. by apply (eqv_sym _ _ Hk).
Qed.

(** Equality of maps is equality of their entries up to reordering. *)
Lemma al_eqb_perm l1 l2 :
  entries_in l1 -> entries_in l2 -> keys_distinct keq l1 -> keys_distinct keq l2 ->
  al_eqb l1 l2 = true -> perm_eq l1 l2.
Proof.
  unfold al_eqb. intros Hin1 Hin2 Hd1 Hd2 [Hlen%Nat.eqb_eq Hall]%andb_true_iff.
  revert l2 Hin2 Hd2 Hlen Hall.
  induction l1 as [|[k v] r IH]; intros l2 Hin2 Hd2 Hlen Hall.
  { destruct l2; [|done]. by exists []. }
  simpl in Hall. apply andb_true_iff in Hall as [Hkv Hall].
  destruct (al_get keq k l2) as [ov|] eqn:Eg; [|done].
  apply al_split in Eg as (a & k' & b & -> & Ek & _).
  inversion Hin1 as [|? ? [HPk HPv] Hin1']; subst. destruct Hd1 as [Hf Hd1]. simpl in HPk, HPv.
  pose proof Hin2 as Hin2c. unfold entries_in in Hin2. rewrite Forall_app, Forall_cons in Hin2.
  destruct Hin2 as (HinA & [HPk' HPov] & HinB). simpl in HPk', HPov.
  destruct (IH Hin1' Hd1 (a ++ b)) as (l & Hp & Hall2).
  - by apply Forall_app.
  - apply (keys_distinct_perm _ ((k', ov) :: a ++ b)) in Hd2; [by destruct Hd2|done|].
    by rewrite Permutation_middle.
  - rewrite length_app in *. simpl in *. lia.
  - apply forallb_forall. intros [k1 v1] Hel. rewrite forallb_forall in Hall.
    specialize (Hall _ Hel). simpl in Hall.
    apply list_elem_of_In in Hel.
    pose proof (proj1 (Forall_forall _ _) Hf _ Hel) as Hne. simpl in Hne.
    pose proof (proj1 (Forall_forall _ _) Hin1' _ Hel) as [HPk1 _]. simpl in HPk1.
    rewrite al_get_skip in Hall; [done|].
    destruct (keq k' k1) eqn:E1; [|done].
    rewrite (eqv_trans _ _ Hk k k' k1) in Hne; try done. by apply (eqv_sym _ _ Hk).
  - apply Forall2_app_inv_r in Hall2 as (la & lb & HA & HB & ->).
    exists (la ++ (k, v) :: lb). split; [by rewrite Hp, Permutation_middle|].
    apply Forall2_app; [done|]. constructor; [|done]. split; simpl.
    + by apply (eqv_sym _ _ Hk).
    + by apply (eqv_sym _ _ Hv).
Qed.

Lemma perm_eq_al_eqb l1 l2 :
  entries_in l1 -> entries_in l2 -> keys_distinct keq l2 -> perm_eq l1 l2 -> al_eqb l1 l2 = true.
Proof.
  intros Hin1 Hin2 Hd2 (l & Hp & Hall). unfold al_eqb. apply andb_true_iff. split.
  - apply Nat.eqb_eq. by rewrite Hp, (Forall2_length _ _ _ Hall).
  - apply forallb_forall. intros [k v] Hel%list_elem_of_In.
    pose proof (proj1 (Forall_forall _ _) Hin1 _ Hel) as [HPk HPv]. simpl in HPk, HPv.
    rewrite Hp in Hel. apply list_elem_of_lookup in Hel as [i Hi].
    destruct (Forall2_lookup_l _ _ _ _ _ Hall Hi) as ([k' v'] & Hi' & [E1 E2]). simpl in *.
    apply list_elem_of_lookup_2 in Hi'.
    pose proof (proj1 (Forall_forall _ _) Hin2 _ Hi') as [HPk' HPv']. simpl in *.
    rewrite (al_get_elem k k' v' l2); try done; first [by apply (eqv_sym _ _ Hk)|by apply (eqv_sym _ _ Hv)].
Qed.

Lemma entry_eq_sym e1 e2 :
  PK e1.1 -> PK e2.1 -> PV e1.2 -> PV e2.2 -> entry_eq e1 e2 -> entry_eq e2 e1.
Proof. intros ???? [??]. split; first [by apply (eqv_sym _ _ Hk)|by apply (eqv_sym _ _ Hv)]. Qed.

Lemma Forall2_entry_sym l1 l2 :
  entries_in l1 -> entries_in l2 -> Forall2 entry_eq l1 l2 -> Forall2 entry_eq l2 l1.
Proof.
  intros Hin1 Hin2 Hall. induction Hall as [|e1 e2 l1 l2 E Hall IH]; [done|].
  inversion Hin1 as [|? ? [??] ?]; subst. inversion Hin2 as [|? ? [??] ?]; subst.
  constructor; [by apply entry_eq_sym|by apply IH].
Qed.

Lemma perm_eq_sym l1 l2 : entries_in l1 -> entries_in l2 -> perm_eq l1 l2 -> perm_eq l2 l1.
Proof.
  intros Hin1 Hin2 (l & Hp & Hall).
  apply Forall2_entry_sym in Hall; [|by eapply entries_in_perm|done].
  symmetry in Hp. apply Forall2_flip in Hall.
  destruct (Forall2_perm_l _ _ _ _ Hp Hall) as (l2' & Hp2 & Hall2).
  exists l2'. split; [done|]. by apply Forall2_flip.
Qed.

Lemma Forall2_entry_trans l1 l2 l3 :
  entries_in l1 -> entries_in l2 -> entries_in l3 ->
  Forall2 entry_eq l1 l2 -> Forall2 entry_eq l2 l3 -> Forall2 entry_eq l1 l3.
Proof.
  intros Hin1 Hin2 Hin3 H12. revert l3 Hin3.
  induction H12 as [|e1 e2 l1 l2 [E1 E2] Hall IH]; intros l3 Hin3 H23.
  { by inversion H23. }
  inversion H23 as [|? e3 ? l3' [E3 E4] H23']; subst.
  inversion Hin1 as [|? ? [??] ?]; subst. inversion Hin2 as [|? ? [??] ?]; subst.
  inversion Hin3 as [|? ? [??] ?]; subst. constructor; [|by apply IH].
  split.
  - by eapply (eqv_trans _ _ Hk); [..|exact E1|exact E3].
  - by eapply (eqv_trans _ _ Hv); [..|exact E2|exact E4].
Qed.

Lemma perm_eq_trans l1 l2 l3 :
  entries_in l1 -> entries_in l2 -> entries_in l3 ->
  perm_eq l1 l2 -> perm_eq l2 l3 -> perm_eq l1 l3.
Proof.
  intros Hin1 Hin2 Hin3 (a & Hpa & Ha) (b & Hpb & Hb).
  apply Forall2_flip in Ha. destruct (Forall2_perm_l _ _ _ _ Hpb Ha) as (a' & Hpa' & Ha').
  exists a'. split; [by etrans|]. apply Forall2_flip in Ha'.
  eapply Forall2_entry_trans; [| | |exact Ha'|exact Hb]; [| |done].
  - apply (entries_in_perm l1); [by etrans|done].
  - by apply (entries_in_perm l2).
Qed.

Lemma perm_eq_refl l : entries_in l -> perm_eq l l.
Proof.
  intros Hin. exists l. split; [done|]. induction Hin as [|e l [??] Hin IH]; [done|].
  constructor; [|done]. split; first [by apply (eqv_refl _ _ Hk)|by apply (eqv_refl _ _ Hv)].
Qed.

(** Map equality is an equivalence on well-formed maps. *)
Lemma al_eqb_equiv :
  equiv_on (fun l => entries_in l /\ keys_distinct keq l) al_eqb.
Proof.
  split.
  - intros l [??]. apply perm_eq_al_eqb; try done. by apply perm_eq_refl.
  - intros l1 l2 [??] [??] E. apply perm_eq_al_eqb; try done.
    apply perm_eq_sym; try done. by apply al_eqb_perm.
  - intros l1 l2 l3 [??] [??] [??] E1 E2. apply perm_eq_al_eqb; try done.
    apply (perm_eq_trans l1 l2 l3); try done; by apply al_eqb_perm.
Qed.

End PermEq.

(** ** Sorting and lexicographic comparison *)

(** [slice::sort_by] is a stable sort; this is one, by insertion. *)
Fixpoint insert_by {A} (cmp : A -> A -> comparison) (x : A) (l : list A) : list A :=
  match l with
  | [] => [x]
  | y :: r => match cmp x y with Gt => y :: insert_by cmp x r | _ => x :: y :: r end
  end.

Fixpoint sort_by {A} (cmp : A -> A -> comparison) (l : list A) : list A :=
  match l with [] => [] | x :: r => insert_by cmp x (sort_by cmp r) end.

(** [Ord] of slices and of pairs. *)
Fixpoint lex_cmp {A} (cmp : A -> A -> comparison) (l1 l2 : list A) : comparison :=
  match l1, l2 with
  | [], [] => Eq
  | [], _ :: _ => Lt
  | _ :: _, [] => Gt
  | x :: r1, y :: r2 => match cmp x y with Eq => lex_cmp cmp r1 r2 | c => c end
  end.

Definition pair_cmp {A B} (ca : A -> A -> comparison) (cb : B -> B -> comparison)
    (e1 e2 : A * B) : comparison :=
  match ca e1.1 e2.1 with Eq => cb e1.2 e2.2 | c => c end.

(** [Ord for OrderedMap]: sort both entry lists by key, then compare them. *)
Definition al_cmp {K V} (kc : K -> K -> comparison) (vc : V -> V -> comparison)
    (l1 l2 : list (K * V)) : comparison :=
  let by_key := fun e1 e2 : K * V => kc e1.1 e2.1 in
  lex_cmp (pair_cmp kc vc) (sort_by by_key l1) (sort_by by_key l2).

(** [Eq] and [Ord] agree. *)
Definition agree_on {A} (P : A -> Prop) (eqb : A -> A -> bool) (cmp : A -> A -> comparison) : Prop :=
  forall a b, P a -> P b -> eqb a b = true <-> cmp a b = Eq.

Section Sorting.
Context {A : Type} (P : A -> Prop) (cmp : A -> A -> comparison) (Ho : ord_on P cmp).

Lemma insert_by_perm x l : insert_by cmp x l ≡ₚ x :: l.
Proof.
  induction l as [|y r IH]; simpl; [done|]. destruct (cmp x y); try done.
  rewrite IH. constructor.
Qed.

Lemma sort_by_perm l : sort_by cmp l ≡ₚ l.
Proof. induction l as [|x r IH]; simpl; [done|]. by rewrite insert_by_perm, IH. Qed.

Lemma sort_by_Forall (Q : A -> Prop) l : Forall Q l -> Forall Q (sort_by cmp l).
Proof. by rewrite sort_by_perm. Qed.

Definition le_by (a b : A) : Prop := cmp a b <> Gt.

Lemma le_by_trans a b c : P a -> P b -> P c -> le_by a b -> le_by b c -> le_by a c.
Proof.
  unfold le_by. intros Ha Hb Hc Hab Hbc. destruct (cmp a b) eqn:E1; [| |done].
  - by rewrite (ord_eq_l _ _ Ho a b c).
  - destruct (cmp b c) eqn:E2; [| |done].
    + by rewrite <- (ord_eq_r _ _ a b c Ho), E1.
    + by rewrite (ord_lt_trans _ _ Ho a b c).
Qed.

Lemma insert_by_sorted x l :
  P x -> Forall P l -> StronglySorted le_by l -> StronglySorted le_by (insert_by cmp x l).
Proof.
  intros Hx Hl Hs. induction Hs as [|y r Hs IH Hf]; simpl; [by repeat constructor|].
  inversion Hl as [|? ? Hy Hr]; subst.
  assert (le_by x y -> StronglySorted le_by (x :: y :: r)) as Hle.
  { intros Hxy. constructor; [by constructor|]. constructor; [done|].
    apply Forall_forall. intros z Hz. rewrite Forall_forall in Hf, Hr.
    apply (le_by_trans x y z); auto. }
  destruct (cmp x y) eqn:E; [apply Hle; by unfold le_by; rewrite E..|].
  constructor; [by apply IH|]. rewrite insert_by_perm. constructor; [|done].
  unfold le_by. by rewrite (ord_opp _ _ Ho x y), E.
Qed.

Lemma sort_by_sorted l : Forall P l -> StronglySorted le_by (sort_by cmp l).
Proof.
  induction 1 as [|x r Hx Hr IH]; simpl; [constructor|].
  apply insert_by_sorted; [done|by apply sort_by_Forall|done].
Qed.

Lemma lex_cmp_eq l1 l2 : lex_cmp cmp l1 l2 = Eq <-> Forall2 (fun a b => cmp a b = Eq) l1 l2.
Proof.
  revert l2; induction l1 as [|x r IH]; intros [|y s]; simpl; split; intros Hc; try done;
    try by inversion Hc.
  - destruct (cmp x y) eqn:E; try done. constructor; [done|]. by apply IH.
  - inversion Hc as [|? ? ? ? E Hr]; subst. rewrite E. by apply IH.
Qed.

Lemma lex_cmp_ord : ord_on (Forall P) (lex_cmp cmp).
Proof.
  split.
  - intros l Hl. apply lex_cmp_eq. induction Hl; constructor; [by apply (ord_refl _ _ Ho)|done].
  - intros l1 l2 H1. revert l2. induction H1 as [|x r Hx Hr IH]; intros [|y s] H2; simpl; try done.
    inversion H2; subst. rewrite (ord_opp _ _ Ho x y) by done.
    destruct (cmp x y); simpl; [by apply IH|done|done].
  - intros l1 l2 l3 H1. revert l2 l3. induction H1 as [|x r Hx Hr IH];
      intros [|y s] [|z t] H2 H3 E; simpl in *; try done.
    inversion H2; subst. inversion H3; subst. destruct (cmp x y) eqn:Exy; try done.
    rewrite (ord_eq_l _ _ Ho x y z) by done. destruct (cmp y z); [|done|done]. by apply IH.
  - intros l1 l2 l3 H1. revert l2 l3. induction H1 as [|x r Hx Hr IH];
      intros [|y s] [|z t] H2 H3 E1 E2; simpl in *; try done.
    inversion H2; subst. inversion H3; subst. destruct (cmp x y) eqn:Exy; try done.
    + rewrite (ord_eq_l _ _ Ho x y z) by done. destruct (cmp y z); [|done|done]. by apply (IH s).
    + destruct (cmp y z) eqn:Eyz; try done.
      * by rewrite <- (ord_eq_r _ _ x y z Ho), Exy.
      * by rewrite (ord_lt_trans _ _ Ho x y z).
Qed.

End Sorting.

Lemma pair_cmp_ord {A B} (PA : A -> Prop) (PB : B -> Prop) ca cb :
  ord_on PA ca -> ord_on PB cb -> ord_on (fun e => PA e.1 /\ PB e.2) (pair_cmp ca cb).
Proof.
  intros Ha Hb. unfold pair_cmp. split.
  - intros [a b] [??]. simpl in *. by rewrite (ord_refl _ _ Ha), (ord_refl _ _ Hb).
  - intros [a1 b1] [a2 b2] [??] [??]. simpl in *. rewrite (ord_opp _ _ Ha a1 a2) by done.
    destruct (ca a1 a2); simpl; [by apply (ord_opp _ _ Hb)|done|done].
  - intros [a1 b1] [a2 b2] [a3 b3] [??] [??] [??] E. simpl in *.
    destruct (ca a1 a2) eqn:E1; try done. rewrite (ord_eq_l _ _ Ha a1 a2 a3) by done.
    destruct (ca a2 a3); [|done|done]. by apply (ord_eq_l _ _ Hb).
  - intros [a1 b1] [a2 b2] [a3 b3] [??] [??] [??] E1 E2. simpl in *.
    destruct (ca a1 a2) eqn:Ea; try done.
    + rewrite (ord_eq_l _ _ Ha a1 a2 a3) by done. destruct (ca a2 a3); [|done|done].
      by apply (ord_lt_trans _ _ Hb b1 b2 b3).
    + destruct (ca a2 a3) eqn:Eb; try done.
      * by rewrite <- (ord_eq_r _ _ a1 a2 a3 Ha), Ea.
      * by rewrite (ord_lt_trans _ _ Ha a1 a2 a3).
Qed.

(** Comparing by a projection. *)
Lemma ord_on_proj {A B} (f : A -> B) (P : B -> Prop) cmp :
  ord_on P cmp -> ord_on (fun a => P (f a)) (fun a b => cmp (f a) (f b)).
Proof. intros [Hr Hs He Ht]. split; intros; eauto. Qed.

(** ** Comparison of maps *)

Section MapOrder.
Context {K V : Type} (PK : K -> Prop) (PV : V -> Prop).
Context (keq : K -> K -> bool) (veq : V -> V -> bool).
Context (kc : K -> K -> comparison) (vc : V -> V -> comparison).
Context (Hk : equiv_on PK keq) (Hv : equiv_on PV veq).
Context (Hkc : ord_on PK kc) (Hvc : ord_on PV vc).
Context (Hka : agree_on PK keq kc) (Hva : agree_on PV veq vc).
Implicit Types (l : list (K * V)).

Let by_key (e1 e2 : K * V) : comparison := kc e1.1 e2.1.

Lemma by_key_ord : ord_on (fun e => PK e.1 /\ PV e.2) by_key.
Proof.
  apply (ord_on_impl (fun e => PK e.1)); [by intros ? [? _]|].
  by apply (ord_on_proj fst).
Qed.

Lemma al_cmp_ord : ord_on (entries_in PK PV) (al_cmp kc vc).
Proof.
  unfold al_cmp. apply (ord_on_impl (fun l => Forall (fun e => PK e.1 /\ PV e.2) (sort_by by_key l))).
  { intros l. apply sort_by_Forall. }
  apply (ord_on_proj (sort_by by_key)). apply lex_cmp_ord. by apply pair_cmp_ord.
Qed.

(** Sorting a map with distinct keys gives a strictly increasing key sequence. *)
Definition strictly_sorted l : Prop := StronglySorted (fun e1 e2 => kc e1.1 e2.1 = Lt) l.

Lemma sort_by_strict l :
  entries_in PK PV l -> keys_distinct keq l -> strictly_sorted (sort_by by_key l).
Proof.
  intros Hin Hd. pose proof (sort_by_sorted _ _ by_key_ord l Hin) as Hs.
  apply (keys_distinct_perm PK PV keq Hk l (sort_by by_key l)) in Hd; [|done|by rewrite sort_by_perm].
  assert (entries_in PK PV (sort_by by_key l)) as Hin' by (by apply sort_by_Forall).
  induction Hs as [|[k v] r Hs IH Hf]; [constructor|].
  inversion Hin' as [|? ? [HPk _] Hin'']; subst. destruct Hd as [Hne Hd]. constructor; [by apply IH|].
  apply Forall_forall. intros [k' v'] Hel. rewrite Forall_forall in Hf, Hne.
  specialize (Hf _ Hel). specialize (Hne _ Hel). unfold le_by, by_key in Hf. simpl in *.
  pose proof (proj1 (Forall_forall _ _) Hin'' _ Hel) as [HPk' _]. simpl in HPk'.
  destruct (kc k k') eqn:E; [|done|done].
  apply Hka in E; try done. congruence.
Qed.

(** The head of a strictly sorted list precedes every key the rest holds. *)
Lemma strict_head_lt k0 v0 r k v :
  entries_in PK PV ((k0, v0) :: r) -> PK k -> strictly_sorted ((k0, v0) :: r) ->
  al_get keq k r = Some v -> kc k0 k = Lt.
Proof.
  intros Hin Hpk Hs Hg. apply al_get_in in Hg as (k' & Hel & E).
  inversion Hs as [|? ? _ Hf]; subst. inversion Hin as [|? ? [HPk0 _] Hin']; subst.
  rewrite Forall_forall in Hf. specialize (Hf _ Hel). simpl in *.
  pose proof (proj1 (Forall_forall _ _) Hin' _ Hel) as [HPk' _]. simpl in HPk'.
  apply Hka in E; try done. by rewrite <- (ord_eq_r _ _ k0 k' k Hkc).
Qed.

Lemma al_eqb_tail k1 v1 r1 k2 v2 r2 :
  entries_in PK PV ((k1, v1) :: r1) -> entries_in PK PV ((k2, v2) :: r2) ->
  keys_distinct keq ((k1, v1) :: r1) -> keq k2 k1 = true ->
  al_eqb keq veq ((k1, v1) :: r1) ((k2, v2) :: r2) = true -> al_eqb keq veq r1 r2 = true.
Proof.
  unfold al_eqb. intros Hin1 Hin2 [Hf _] E [Hlen Hall]%andb_true_iff. simpl in Hall.
  apply andb_true_iff in Hall as [_ Hall]. apply andb_true_iff. split; [done|].
  rewrite forallb_forall in Hall |- *. intros [k v] Hel. specialize (Hall _ Hel). simpl in Hall.
  apply list_elem_of_In in Hel. rewrite Forall_forall in Hf. specialize (Hf _ Hel). simpl in Hf.
  inversion Hin1 as [|? ? [??] Hin1']; subst. inversion Hin2 as [|? ? [??] _]; subst. simpl in *.
  pose proof (proj1 (Forall_forall _ _) Hin1' _ Hel) as [HPk _]. simpl in HPk.
  by rewrite (eqv_compat_l _ _ k2 k1 k Hk), Hf in Hall.
Qed.

Lemma strict_eqb_Forall2 l1 l2 :
  entries_in PK PV l1 -> entries_in PK PV l2 -> keys_distinct keq l1 -> keys_distinct keq l2 ->
  strictly_sorted l1 -> strictly_sorted l2 -> al_eqb keq veq l1 l2 = true ->
  Forall2 (fun a b => pair_cmp kc vc a b = Eq) l1 l2.
Proof.
  revert l2. induction l1 as [|[k1 v1] r1 IH]; intros l2 Hin1 Hin2 Hd1 Hd2 Hs1 Hs2 E.
  { unfold al_eqb in E. destruct l2; [constructor|done]. }
  destruct l2 as [|[k2 v2] r2]; [by unfold al_eqb in E|].
  assert (al_eqb keq veq ((k2, v2) :: r2) ((k1, v1) :: r1) = true) as E'.
  { by apply (eqv_sym _ _ (al_eqb_equiv PK PV keq veq Hk Hv)). }
  pose proof Hin1 as Hin1c. pose proof Hin2 as Hin2c.
  inversion Hin1c as [|? ? [HPk1 HPv1] Hin1']; subst.
  inversion Hin2c as [|? ? [HPk2 HPv2] Hin2']; subst. simpl in *.
  assert (keq k2 k1 = true /\ veq v2 v1 = true) as [Ek Ev].
  { unfold al_eqb in E, E'. simpl in E, E'.
    apply andb_true_iff in E as [_ [E _]%andb_true_iff].
    apply andb_true_iff in E' as [_ [E' _]%andb_true_iff].
    rewrite (eqv_sym_eq _ _ k1 k2 Hk) in E' by done.
    destruct (keq k2 k1); [done|]. exfalso.
    destruct (al_get keq k1 r2) eqn:G2; [|done]. destruct (al_get keq k2 r1) eqn:G1; [|done].
    apply (strict_head_lt k2 v2) in G2; try done. apply (strict_head_lt k1 v1) in G1; try done.
    by rewrite (ord_opp _ _ Hkc k1 k2), G1 in G2. }
  constructor.
  - unfold pair_cmp. simpl. apply (eqv_sym _ _ Hk) in Ek; try done. apply (eqv_sym _ _ Hv) in Ev; try done.
    apply Hka in Ek; try done. apply Hva in Ev; try done. by rewrite Ek.
  - apply IH; try done; [by destruct Hd1|by destruct Hd2|by inversion Hs1|by inversion Hs2|].
    by apply (al_eqb_tail k1 v1 r1 k2 v2 r2).
Qed.

(** [Ord] and [Eq] of maps agree: neither depends on insertion order. *)
Lemma al_cmp_eqb :
  agree_on (fun l => entries_in PK PV l /\ keys_distinct keq l) (al_eqb keq veq) (al_cmp kc vc).
Proof.
  intros l1 l2 [Hin1 Hd1] [Hin2 Hd2]. unfold al_cmp.
  change (fun e1 e2 : K * V => kc e1.1 e2.1) with by_key. rewrite lex_cmp_eq.
  assert (Hp1 : sort_by by_key l1 ≡ₚ l1) by apply sort_by_perm.
  assert (Hp2 : sort_by by_key l2 ≡ₚ l2) by apply sort_by_perm.
  assert (Hi1 : entries_in PK PV (sort_by by_key l1)) by (by apply sort_by_Forall).
  assert (Hi2 : entries_in PK PV (sort_by by_key l2)) by (by apply sort_by_Forall).
  pose proof (al_eqb_perm PK PV keq veq Hk Hv) as Hto.
  pose proof (perm_eq_al_eqb PK PV keq veq Hk Hv) as Hfrom.
  split.
  - intros E. apply strict_eqb_Forall2; try done;
      try by (eapply (keys_distinct_perm PK PV); [..|symmetry; eassumption|]; eassumption).
    + by apply sort_by_strict.
    + by apply sort_by_strict.
    + apply Hfrom; try done.
      { by apply (keys_distinct_perm PK PV keq Hk l2). }
      destruct (Hto l1 l2) as (l & Hp & Hall); try done.
      apply Forall2_flip in Hall. symmetry in Hp2.
      destruct (Forall2_perm_l _ _ _ _ Hp2 Hall) as (l' & Hp' & Hall').
      exists l'. split; [by rewrite Hp1, Hp, Hp'|]. by apply Forall2_flip.
  - intros Hall. apply Hfrom; try done.
    assert (Forall2 (entry_eq keq veq) (sort_by by_key l1) (sort_by by_key l2)) as Hall'.
    { clear -Hall Hi1 Hi2 Hka Hva. induction Hall as [|[k1 v1] [k2 v2] s1 s2 E Hall IH]; [done|].
      inversion Hi1 as [|? ? [??] ?]; subst. inversion Hi2 as [|? ? [??] ?]; subst.
      unfold pair_cmp in E. simpl in *. destruct (kc k1 k2) eqn:E1; try done.
      constructor; [|by apply IH]. split; simpl; [by apply Hka|by apply Hva]. }
    apply Forall2_flip in Hall'. destruct (Forall2_perm_l _ _ _ _ Hp2 Hall') as (l' & Hp' & HF).
    exists l'. split; [by rewrite <- Hp', Hp1|]. by apply Forall2_flip.
Qed.

End MapOrder.
