(* ===== verification/OrderedMap.v ===== *)
(** * Insertion-ordered hash map and set ([src/src/ordered.rs])

    The slab, the two chains threaded through it (entry order and free list) and
    the external hash table of slab indices, operation by operation.  The
    abstract view of a map is its list of entries in insertion order; the
    refinement lemmas show that every operation of the slab implements the
    corresponding operation on that list.

    [hashbrown::HashTable] is third-party code: it is the class [HashTable], with
    the documented behaviour of the operations the source calls as
    [HashTableLaws].  The hasher ([BuildHasher]) and the key's [Hash]/[Eq]
    implementations are the class [Key], with Rust's contract as [KeyLaws].
    Indices and lengths ([usize]) are [nat]: the slab lives in memory, so they
    stay far below the machine bound. *)

From S2P Require Import Prelude AssocList.

#[local] Open Scope nat_scope.

(** ** Interfaces *)

(** What the source calls of [hashbrown::HashTable<usize>].  [ht_remove t h p] is
    [t.find_entry(h, p).ok().map(OccupiedEntry::remove)]. *)
Class HashTable (T : Type) := {
  ht_new : T;
  ht_find : T -> Z -> (nat -> bool) -> option nat;
  ht_insert_unique : T -> Z -> nat -> (nat -> Z) -> T;
  ht_remove : T -> Z -> (nat -> bool) -> T;
  ht_clear : T -> T;
}.

(** Its documented behaviour, over the multiset of (hash, element) pairs the table
    holds.  [insert_unique] may grow the table, which rehashes every element with
    the closure it is given: the contents survive only when the closure gives each
    element the hash it was stored under. *)
Class HashTableLaws (T : Type) `{HashTable T} := {
  ht_elems : T -> list (Z * nat);
  ht_elems_new : ht_elems ht_new = [];
  ht_elems_clear t : ht_elems (ht_clear t) = [];
  ht_find_some t h p i :
    ht_find t h p = Some i -> (h, i) ∈ ht_elems t /\ p i = true;
  ht_find_none t h p i :
    ht_find t h p = None -> (h, i) ∈ ht_elems t -> p i = false;
  ht_elems_insert t h i rehash :
    (forall h' j, (h', j) ∈ ht_elems t -> rehash j = h') ->
    ht_elems (ht_insert_unique t h i rehash) ≡ₚ (h, i) :: ht_elems t;
  ht_elems_remove t h p i :
    (h, i) ∈ ht_elems t -> (forall j, p j = true <-> j = i) ->
    (h, i) :: ht_elems (ht_remove t h p) ≡ₚ ht_elems t;
}.

(** A key type with its hasher: [Eq] and [BuildHasher::hash_one]. *)
Class Key (K S : Type) := {
  key_eqb : K -> K -> bool;
  hash_one : S -> K -> Z;
}.

(** The contract of Rust's [Eq] and [Hash]. *)
Class KeyLaws (K S : Type) `{Key K S} := {
  key_eqb_refl k : key_eqb k k = true;
  key_eqb_sym k1 k2 : key_eqb k1 k2 = key_eqb k2 k1;
  key_eqb_trans k1 k2 k3 : key_eqb k1 k2 = true -> key_eqb k2 k3 = true -> key_eqb k1 k3 = true;
  key_hash_eq s k1 k2 : key_eqb k1 k2 = true -> hash_one s k1 = hash_one s k2;
}.

(** ** Data *)

Inductive Slot (K V : Type) : Type :=
| Occupied (key : K) (value : V) (prev next : option nat)
| Free (next_free : option nat).
Arguments Occupied {K V} _ _ _ _.
Arguments Free {K V} _.

Record OrderedMap (T K V S : Type) : Type := mk_map {
  table : T;
  slab : list (Slot K V);
  head : option nat;
  tail : option nat;
  free_head : option nat;
  len : nat;
  hasher : S;
}.
Arguments mk_map {T K V S} _ _ _ _ _ _ _.
Arguments table {T K V S} _.
Arguments slab {T K V S} _.
Arguments head {T K V S} _.
Arguments tail {T K V S} _.
Arguments free_head {T K V S} _.
Arguments len {T K V S} _.
Arguments hasher {T K V S} _.

(** ** Operations *)

Section Operations.
Context {T K V S : Type} `{HashTable T} `{Key K S}.
Implicit Types (m : OrderedMap T K V S) (k : K) (v : V).

(** [OrderedMap::new]; the random hasher state is an argument. *)
Definition new (s : S) : OrderedMap T K V S := mk_map ht_new [] None None None 0 s.

Definition hash_of m k : Z := hash_one (hasher m) k.

Definition entry_at m (index : nat) : option (K * V * option nat) :=
  match slab m !! index with
  | Some (Occupied k v _ next) => Some (k, v, next)
  | _ => None
  end.

Definition key_at m (index : nat) : option K :=
  match entry_at m index with Some (k, _, _) => Some k | None => None end.

Definition is_empty m : bool := len m =? 0.

(** The closure handed to [HashTable::find]: the slot is live and its key matches. *)
Definition key_matches m k (i : nat) : bool :=
  match key_at m i with Some k' => key_eqb k' k | None => false end.

Definition index_of_hashed m (hash : Z) k : option nat :=
  ht_find (table m) hash (key_matches m k).

Definition index_of m k : option nat := index_of_hashed m (hash_of m k) k.

Definition get m k : option V :=
  match index_of m k with
  | Some index => match entry_at m index with Some (_, v, _) => Some v | None => None end
  | None => None
  end.

(** [get_mut], with the write through the returned reference as [f]. *)
Definition get_mut m k (f : V -> V) : option V * OrderedMap T K V S :=
  match index_of m k with
  | Some index =>
      match slab m !! index with
      | Some (Occupied k' v p n) =>
          (Some v, mk_map (table m) (<[index := Occupied k' (f v) p n]> (slab m))
                     (head m) (tail m) (free_head m) (len m) (hasher m))
      | _ => (None, m)
      end
  | None => (None, m)
  end.

Definition contains_key m k : bool :=
  match index_of m k with Some _ => true | None => false end.

Definition is_free (s : option (Slot K V)) : bool :=
  match s with Some (Free _) => true | _ => false end.

Definition is_occupied (s : option (Slot K V)) : bool :=
  match s with Some (Occupied _ _ _ _) => true | _ => false end.

(** [alloc_slot]: pop the free list, or push; a free list that names a live slot is
    abandoned. *)
Definition alloc_slot m (s : Slot K V) : nat * OrderedMap T K V S :=
  match free_head m with
  | Some index =>
      if negb (is_free (slab m !! index)) then
        (length (slab m),
         mk_map (table m) (slab m ++ [s]) (head m) (tail m) None (len m) (hasher m))
      else
        let next_free := match slab m !! index with Some (Free nf) => nf | _ => None end in
        (index,
         mk_map (table m) (<[index := s]> (slab m)) (head m) (tail m) next_free (len m) (hasher m))
  | None =>
      (length (slab m),
       mk_map (table m) (slab m ++ [s]) (head m) (tail m) None (len m) (hasher m))
  end.

(** [if let Some(Slot::Occupied { next, .. }) = slab.get_mut(i) { *next = x }] and
    the same for [prev]. *)
Definition set_next (sl : list (Slot K V)) (i : nat) (x : option nat) : list (Slot K V) :=
  match sl !! i with
  | Some (Occupied k v p _) => <[i := Occupied k v p x]> sl
  | _ => sl
  end.

Definition set_prev (sl : list (Slot K V)) (i : nat) (x : option nat) : list (Slot K V) :=
  match sl !! i with
  | Some (Occupied k v _ n) => <[i := Occupied k v x n]> sl
  | _ => sl
  end.

(** The closure handed to [insert_unique]. *)
Definition rehash (sl : list (Slot K V)) (s : S) (i : nat) : Z :=
  match sl !! i with Some (Occupied k _ _ _) => hash_one s k | _ => 0%Z end.

(** The tail of [insert] once the key is known to be absent. *)
Definition insert_new m (hash : Z) k v : OrderedMap T K V S :=
  let '(index, m1) := alloc_slot m (Occupied k v (tail m) None) in
  let sl := match tail m1 with
            | Some previous => set_next (slab m1) previous (Some index)
            | None => slab m1
            end in
  let hd := match tail m1 with Some _ => head m1 | None => Some index end in
  mk_map (ht_insert_unique (table m1) hash index (rehash sl (hasher m1)))
    sl hd (Some index) (free_head m1) (len m1 + 1) (hasher m1).

Definition insert m k v : option V * OrderedMap T K V S :=
  let hash := hash_of m k in
  match index_of_hashed m hash k with
  | Some index =>
      match slab m !! index with
      | Some (Occupied k' old p n) =>
          (Some old,
           mk_map (table m) (<[index := Occupied k' v p n]> (slab m))
             (head m) (tail m) (free_head m) (len m) (hasher m))
      | _ => (None, insert_new m hash k v)
      end
  | None => (None, insert_new m hash k v)
  end.

Definition remove m k : option V * OrderedMap T K V S :=
  let hash := hash_of m k in
  match ht_find (table m) hash (key_matches m k) with
  | None => (None, m)
  | Some index =>
      let tb := ht_remove (table m) hash (fun i => i =? index) in
      match slab m !! index with
      | Some (Occupied _ v prev next) =>
          let sl1 := <[index := Free (free_head m)]> (slab m) in
          let sl2 := match prev with Some p => set_next sl1 p next | None => sl1 end in
          let hd := match prev with Some _ => head m | None => next end in
          let sl3 := match next with Some n => set_prev sl2 n prev | None => sl2 end in
          let tl := match next with Some _ => tail m | None => prev end in
          (Some v, mk_map tb sl3 hd tl (Some index) (len m - 1) (hasher m))
      | _ =>
          (None, mk_map tb (slab m) (head m) (tail m) (free_head m) (len m) (hasher m))
      end
  end.

Definition clear m : OrderedMap T K V S :=
  mk_map (ht_clear (table m)) [] None None None 0 (hasher m).

(** [Iter] and [IntoIter]: the slab is borrowed by the first, owned by the second. *)
Record Iter : Type := mk_iter { it_slab : list (Slot K V); it_next : option nat; remaining : nat }.

Definition iter m : Iter := mk_iter (slab m) (head m) (len m).

Definition iter_next (it : Iter) : option (K * V) * Iter :=
  match it_next it with
  | None => (None, it)
  | Some index =>
      match it_slab it !! index with
      | Some (Occupied k v _ next) =>
          (Some (k, v), mk_iter (it_slab it) next (remaining it - 1))
      | _ => (None, mk_iter (it_slab it) None 0)
      end
  end.

Definition into_iter_next (it : Iter) : option (K * V) * Iter :=
  match it_next it with
  | None => (None, it)
  | Some index =>
      let taken := match it_slab it !! index with Some s => s | None => Free None end in
      let sl := <[index := Free None]> (it_slab it) in
      match taken with
      | Occupied k v _ following => (Some (k, v), mk_iter sl following (remaining it - 1))
      | Free _ => (None, mk_iter sl None 0)
      end
  end.

Definition size_hint (it : Iter) : nat * option nat := (remaining it, Some (remaining it)).

(** Drive an iterator for at most [fuel] items. *)
Fixpoint collect (next : Iter -> option (K * V) * Iter) (fuel : nat) (it : Iter) : list (K * V) :=
  match fuel with
  | 0 => []
  | Datatypes.S fuel =>
      match next it with
      | (Some e, it') => e :: collect next fuel it'
      | (None, _) => []
      end
  end.

(** A chain visits a slab position at most once, so [length (slab m)] items are
    all of them (lemma [collect_iter]). *)
Definition entries m : list (K * V) := collect iter_next (length (slab m)) (iter m).
Definition into_entries m : list (K * V) := collect into_iter_next (length (slab m)) (iter m).
Definition keys m : list K := (entries m).*1.
Definition values m : list V := (entries m).*2.

Definition extend m (l : list (K * V)) : OrderedMap T K V S :=
  foldl (fun m '(k, v) => (insert m k v).2) m l.

Definition from_iter (s : S) (l : list (K * V)) : OrderedMap T K V S := extend (new s) l.

(** [PartialEq]: same length, and every pair of the left map is in the right one. *)
Definition map_eqb (veqb : V -> V -> bool) m1 m2 : bool :=
  (len m1 =? len m2) &&
  forallb (fun '(k, v) => match get m2 k with Some ov => veqb ov v | None => false end)
    (entries m1).

(** [Hash]: [entry_hash k v] is what [DefaultHasher] (fixed keys) answers for the
    pair; the two words written to the outer hasher are returned. *)
Definition map_hash (entry_hash : K -> V -> Z) m : list Z :=
  let combined :=
    foldl (fun acc '(k, v) => ((acc + entry_hash k v) mod 2 ^ 64)%Z) 0%Z (entries m) in
  [Z.of_nat (len m); combined].

(** [Ord]: sort the entries of both maps by key, then compare them in order. *)
Definition map_cmp (kc : K -> K -> comparison) (vc : V -> V -> comparison) m1 m2 : comparison :=
  al_cmp kc vc (entries m1) (entries m2).

End Operations.
Arguments Iter : clear implicits.

(** ** The set: a map to unit *)

Record OrderedSet (T A S : Type) : Type := mk_set { set_map : OrderedMap T A unit S }.
Arguments mk_set {T A S} _.
Arguments set_map {T A S} _.

Section SetOperations.
Context {T A S : Type} `{HashTable T} `{Key A S}.
Implicit Types (s : OrderedSet T A S) (a : A).

Definition set_new (seed : S) : OrderedSet T A S := mk_set (new seed).
Definition set_len s : nat := len (set_map s).
Definition set_is_empty s : bool := is_empty (set_map s).

Definition set_insert s a : bool * OrderedSet T A S :=
  let '(old, m) := insert (set_map s) a tt in
  (match old with None => true | Some _ => false end, mk_set m).

Definition set_contains s a : bool := contains_key (set_map s) a.

Definition set_remove s a : bool * OrderedSet T A S :=
  let '(old, m) := remove (set_map s) a in
  (match old with None => false | Some _ => true end, mk_set m).

Definition set_clear s : OrderedSet T A S := mk_set (clear (set_map s)).

(** [SetIter]/[SetIntoIter] project the key of each map entry. *)
Definition set_iter_next (it : Iter A unit) : option A * Iter A unit :=
  let '(e, it') := iter_next it in
  (match e with Some (a, _) => Some a | None => None end, it').

Definition set_elems s : list A := (entries (set_map s)).*1.
Definition set_into_elems s : list A := (into_entries (set_map s)).*1.

Definition set_extend s (l : list A) : OrderedSet T A S :=
  foldl (fun s a => (set_insert s a).2) s l.

Definition set_from_iter (seed : S) (l : list A) : OrderedSet T A S := set_extend (set_new seed) l.

Definition set_eqb s1 s2 : bool :=
  (set_len s1 =? set_len s2) && forallb (set_contains s2) (set_elems s1).

Definition set_cmp (c : A -> A -> comparison) s1 s2 : comparison :=
  lex_cmp c (sort_by c (set_elems s1)) (sort_by c (set_elems s2)).

Definition set_hash (entry_hash : A -> unit -> Z) s : list Z := map_hash entry_hash (set_map s).

End SetOperations.
