(* ===== verification/OrderedMapRep.v ===== *)
(** * Representation invariant and refinement of the ordered map

    [rep m es] says that the map [m] represents the list [es] of (slab index,
    entry) pairs in insertion order: the doubly-linked chain visits exactly these
    slots in this order, the free list chains exactly the remaining slots of the
    slab, the hash table holds exactly the live indices under the hash of their
    keys, and no two live keys are equal.  Every operation preserves it and acts
    on [es.*2] as the list operation of the abstract map ([al_get], [al_insert],
    [al_remove]). *)

From S2P Require Import Prelude AssocList OrderedMap.

#[local] Open Scope nat_scope.

(** ** Chains in a slab *)

Section Chains.
Context {K V : Type}.
Implicit Types (sl : list (Slot K V)) (es : list (nat * (K * V))) (fs : list nat).

(** The index an entry list starts at, or [n] when it is empty; the index it ends
    at, or [p]. *)
Definition first_ix es (n : option nat) : option nat :=
  match es with [] => n | (i, _) :: _ => Some i end.

Definition last_ix (p : option nat) es : option nat :=
  match last es with Some (i, _) => Some i | None => p end.

(** [seg sl p es n]: a doubly-linked segment holding [es], entered from [p] and
    left towards [n]. *)
Fixpoint seg sl (p : option nat) es (n : option nat) : Prop :=
  match es with
  | [] => True
  | (i, (k, v)) :: r => sl !! i = Some (Occupied k v p (first_ix r n)) /\ seg sl (Some i) r n
  end.

(** [fseg sl fs]: the free list. *)
Fixpoint fseg sl fs : Prop :=
  match fs with
  | [] => True
  | i :: r => sl !! i = Some (Free (hd_error r)) /\ fseg sl r
  end.

Lemma last_ix_cons p i e r : last_ix p ((i, e) :: r) = last_ix (Some i) r.
Proof.
  unfold last_ix. destruct r as [|a r]; [done|]. rewrite last_cons_cons.
  destruct (last (a :: r)) eqn:E; [done|]. by apply last_None in E.
Qed.

Lemma last_ix_app p es1 es2 : last_ix p (es1 ++ es2) = last_ix (last_ix p es1) es2.
Proof.
  revert p; induction es1 as [|[i e] r IH]; intros p; [done|].
  simpl app. by rewrite !last_ix_cons, IH.
Qed.

Lemma first_ix_app es1 es2 n : first_ix (es1 ++ es2) n = first_ix es1 (first_ix es2 n).
Proof. by destruct es1 as [|[??]?]. Qed.

Lemma last_ix_elem p es i : last_ix p es = Some i -> es <> [] -> i ∈ es.*1.
Proof.
  unfold last_ix. destruct (last es) as [[j e]|] eqn:E.
  - intros [= ->] _. apply last_Some in E as [l ->].
    rewrite fmap_app. set_solver.
  - apply last_None in E. done.
Qed.

(** The update of [head] when an entry is linked at the end. *)
Lemma link_first es i :
  match last_ix None es with Some _ => first_ix es None | None => Some i end = first_ix es (Some i).
Proof.
  destruct es as [|[j e] r]; [done|]. rewrite last_ix_cons. unfold last_ix.
  by destruct (last r) as [[??]|].
Qed.

(** The updates of [head] and [tail] when an entry is unlinked. *)
Lemma unlink_first es1 i e es2 :
  match last_ix None es1 with
  | Some _ => first_ix (es1 ++ (i, e) :: es2) None
  | None => first_ix es2 None
  end = first_ix (es1 ++ es2) None.
Proof.
  destruct es1 as [|[j e1] r]; [done|]. rewrite last_ix_cons. unfold last_ix.
  by destruct (last r) as [[??]|].
Qed.

Lemma unlink_last es1 i e es2 :
  match first_ix es2 None with
  | Some _ => last_ix None (es1 ++ (i, e) :: es2)
  | None => last_ix None es1
  end = last_ix None (es1 ++ es2).
Proof.
  rewrite !last_ix_app, last_ix_cons. destruct es2 as [|[j e2] r]; [done|].
  by rewrite !last_ix_cons.
Qed.

Lemma seg_app sl p es1 es2 n :
  seg sl p (es1 ++ es2) n <-> seg sl p es1 (first_ix es2 n) /\ seg sl (last_ix p es1) es2 n.
Proof.
  revert p; induction es1 as [|[i [k v]] r IH]; intros p; simpl; [tauto|].
  rewrite IH, first_ix_app, last_ix_cons. tauto.
Qed.

(** Writing a slot outside a segment does not change it. *)
Lemma seg_insert_ne sl p es n i s :
  i ∉ es.*1 -> seg sl p es n -> seg (<[i := s]> sl) p es n.
Proof.
  revert p; induction es as [|[j [k v]] r IH]; intros p; simpl; [done|].
  intros Hi [Hj Hr]. rewrite list_lookup_insert_ne by set_solver.
  split; [done|]. apply IH; set_solver.
Qed.

Lemma fseg_insert_ne sl fs i s : i ∉ fs -> fseg sl fs -> fseg (<[i := s]> sl) fs.
Proof.
  induction fs as [|j r IH]; simpl; [done|].
  intros Hi [Hj Hr]. rewrite list_lookup_insert_ne by set_solver.
  split; [done|]. apply IH; set_solver.
Qed.

Lemma seg_snoc_slab sl s p es n : seg sl p es n -> seg (sl ++ [s]) p es n.
Proof.
  revert p; induction es as [|[j [k v]] r IH]; intros p; simpl; [done|].
  intros [Hj Hr]. split; [|by apply IH]. by apply lookup_app_l_Some.
Qed.

Lemma fseg_snoc_slab sl s fs : fseg sl fs -> fseg (sl ++ [s]) fs.
Proof.
  induction fs as [|j r IH]; simpl; [done|].
  intros [Hj Hr]. split; [|by apply IH]. by apply lookup_app_l_Some.
Qed.

Lemma set_next_ne sl i x j : i <> j -> set_next sl i x !! j = sl !! j.
Proof.
  intros Hne. unfold set_next. repeat case_match; try done. by rewrite list_lookup_insert_ne.
Qed.

Lemma set_prev_ne sl i x j : i <> j -> set_prev sl i x !! j = sl !! j.
Proof.
  intros Hne. unfold set_prev. repeat case_match; try done. by rewrite list_lookup_insert_ne.
Qed.

Lemma length_set_next sl i x : length (set_next sl i x) = length sl.
Proof. unfold set_next. repeat case_match; try done. by rewrite length_insert. Qed.

Lemma length_set_prev sl i x : length (set_prev sl i x) = length sl.
Proof. unfold set_prev. repeat case_match; try done. by rewrite length_insert. Qed.

(** A segment only depends on its own slots. *)
Lemma seg_ext sl sl' p es n :
  (forall i, i ∈ es.*1 -> sl' !! i = sl !! i) -> seg sl p es n -> seg sl' p es n.
Proof.
  revert p; induction es as [|[j [k v]] r IH]; intros p Hext; simpl; [done|].
  intros [Hj Hr]. rewrite (Hext j) by set_solver. split; [done|].
  apply IH; [|done]. intros i Hi. apply Hext. set_solver.
Qed.

Lemma fseg_ext sl sl' fs :
  (forall i, i ∈ fs -> sl' !! i = sl !! i) -> fseg sl fs -> fseg sl' fs.
Proof.
  induction fs as [|j r IH]; simpl; [done|]. intros Hext [Hj Hr].
  rewrite (Hext j) by set_solver. split; [done|].
  apply IH; [|done]. intros i Hi. apply Hext. set_solver.
Qed.

(** Redirecting the exit of a segment: the write to the last slot's [next]. *)
Lemma seg_set_exit sl p es n n' :
  NoDup es.*1 -> seg sl p es n ->
  seg (match last_ix None es with Some i => set_next sl i n' | None => sl end) p es n'.
Proof.
  intros Hnd Hseg. destruct es as [|[i [k v]] es0 _] using rev_ind; [done|].
  rewrite last_ix_app. simpl. change (last_ix ?q [(i, (k, v))]) with (Some i). simpl.
  rewrite fmap_app in Hnd. apply NoDup_app in Hnd as (Hnd1 & Hdis & _).
  apply seg_app in Hseg as [H1 H2]. simpl in H2. destruct H2 as [Hi _].
  apply seg_app. split; simpl.
  - eapply seg_ext; [|exact H1]. intros j Hj. apply set_next_ne.
    intros <-. apply (Hdis i Hj). simpl. set_solver.
  - split; [|done]. unfold set_next. rewrite Hi.
    apply list_lookup_insert_eq. by eapply lookup_lt_Some.
Qed.

(** Redirecting the entry of a segment: the write to the first slot's [prev]. *)
Lemma seg_set_entry sl p p' es n :
  NoDup es.*1 -> seg sl p es n ->
  seg (match first_ix es None with Some i => set_prev sl i p' | None => sl end) p' es n.
Proof.
  destruct es as [|[i [k v]] r]; [done|]. simpl. rewrite NoDup_cons. intros [Hi Hnd] [H1 H2].
  split.
  - unfold set_prev. rewrite H1. apply list_lookup_insert_eq. by eapply lookup_lt_Some.
  - eapply seg_ext; [|exact H2]. intros j Hj. apply set_prev_ne. by intros <-.
Qed.

(** Every entry of a segment is a live slot holding that entry. *)
Lemma seg_lookup sl p es n i e :
  seg sl p es n -> (i, e) ∈ es -> exists q x, sl !! i = Some (Occupied e.1 e.2 q x).
Proof.
  revert p; induction es as [|[j [k v]] r IH]; intros p; simpl; [by rewrite list_elem_of_In|].
  intros [Hj Hr] [Heq|Hin]%elem_of_cons; [|by eapply IH].
  injection Heq as -> ->. simpl. eauto.
Qed.

End Chains.

(** Replacing the value of one entry of a segment. *)
Lemma seg_set_value {K V} (sl : list (Slot K V)) p es1 i k v v' es2 n :
  NoDup (es1 ++ (i, (k, v)) :: es2).*1 -> seg sl p (es1 ++ (i, (k, v)) :: es2) n ->
  exists q x, sl !! i = Some (Occupied k v q x) /\
    seg (<[i := Occupied k v' q x]> sl) p (es1 ++ (i, (k, v')) :: es2) n.
Proof.
  rewrite fmap_app, NoDup_app. simpl. rewrite NoDup_cons.
  intros (_ & Hdis & Hi2 & _) [H1 [Hi H2]]%seg_app.
  eexists _, _. split; [exact Hi|]. apply seg_app. split; [|split].
  - apply seg_insert_ne; [|done]. intros Hi1. apply (Hdis i Hi1). set_solver.
  - apply list_lookup_insert_eq. by eapply lookup_lt_Some.
  - by apply seg_insert_ne.
Qed.

(** ** The representation invariant *)

Section Rep.
Context {T K V S : Type} `{HashTableLaws T} `{KeyLaws K S}.
Implicit Types (m : OrderedMap T K V S) (es : list (nat * (K * V))) (fs : list nat).

(** What the table stores for an entry. *)
Definition index_hash (s : S) (e : nat * (K * V)) : Z * nat := (hash_one s e.2.1, e.1).

Record rep m es fs : Prop := {
  rep_head : head m = first_ix es None;
  rep_tail : tail m = last_ix None es;
  rep_seg : seg (slab m) None es None;
  rep_free_head : free_head m = hd_error fs;
  rep_fseg : fseg (slab m) fs;
  rep_slots : es.*1 ++ fs ≡ₚ seq 0 (length (slab m));
  rep_len : len m = length es;
  rep_table : ht_elems (table m) ≡ₚ (index_hash (hasher m) <$> es);
  rep_keys : keys_distinct key_eqb es.*2;
}.

(** A well-formed map, and the list it stands for. *)
Definition represents m (l : list (K * V)) : Prop := exists es fs, rep m es fs /\ l = es.*2.

Lemma rep_nodup m es fs : rep m es fs -> NoDup (es.*1 ++ fs).
Proof. intros Hr. rewrite (rep_slots _ _ _ Hr). apply NoDup_seq. Qed.

Lemma rep_nodup_es m es fs : rep m es fs -> NoDup es.*1.
Proof. intros Hr%rep_nodup. by apply NoDup_app in Hr as (? & _). Qed.

Lemma rep_disjoint m es fs i : rep m es fs -> i ∈ es.*1 -> i ∈ fs -> False.
Proof. intros Hr%rep_nodup. apply NoDup_app in Hr as (_ & Hd & _). apply Hd. Qed.

Lemma rep_key_matches m es fs k i k' v :
  rep m es fs -> (i, (k', v)) ∈ es -> key_matches m k i = key_eqb k' k.
Proof.
  intros Hr Hin. destruct (seg_lookup _ _ _ _ _ _ (rep_seg _ _ _ Hr) Hin) as (q & x & E).
  unfold key_matches, key_at, entry_at. by rewrite E.
Qed.

(** Equal keys find the same entry: the one stored under their common hash. *)
Lemma keys_distinct_absent l1 l2 k k' v :
  keys_distinct key_eqb (l1 ++ (k', v) :: l2) -> key_eqb k' k = true ->
  al_get key_eqb k l1 = None (A := V).
Proof.
  intros (_ & _ & Hf)%keys_distinct_app Hk. apply al_get_none.
  eapply Forall_impl; [exact Hf|]. intros [k1 v1] Hf1. simpl in *.
  inversion Hf1 as [|? ? Hne _]; subst. simpl in Hne.
  destruct (key_eqb k1 k) eqn:E; [|done].
  rewrite (key_eqb_trans k1 k k') in Hne; [done|done|by rewrite key_eqb_sym].
Qed.

Lemma rep_find m es fs k :
  rep m es fs ->
  match index_of_hashed m (hash_of m k) k with
  | Some i => exists es1 k' v es2, es = es1 ++ (i, (k', v)) :: es2 /\ key_eqb k' k = true /\
                al_get key_eqb k es1.*2 = None
  | None => al_get key_eqb k es.*2 = None
  end.
Proof.
  intros Hr. unfold index_of_hashed.
  destruct (ht_find (table m) (hash_of m k) (key_matches m k)) as [i|] eqn:E.
  - apply ht_find_some in E as [Hin Hm]. rewrite (rep_table _ _ _ Hr) in Hin.
    apply list_elem_of_fmap in Hin as ([j [k' v]] & Heq & Hin).
    unfold index_hash in Heq. simpl in Heq. injection Heq as _ ->.
    rewrite (rep_key_matches _ _ _ _ _ _ _ Hr Hin) in Hm.
    apply list_elem_of_split in Hin as (es1 & es2 & ->).
    exists es1, k', v, es2. split; [done|]. split; [done|].
    pose proof (rep_keys _ _ _ Hr) as Hk. rewrite fmap_app in Hk. simpl in Hk.
    by eapply keys_distinct_absent.
  - apply al_get_none, Forall_forall. intros [k' v] Hin. simpl.
    apply list_elem_of_fmap in Hin as ([i [k1 v1]] & Heq & Hin). simpl in Heq.
    injection Heq as <- <-. destruct (key_eqb k' k) eqn:Ek; [|done].
    rewrite <- (rep_key_matches _ _ _ _ _ _ _ Hr Hin) in Ek.
    rewrite <- Ek. eapply ht_find_none; [exact E|].
    rewrite (rep_table _ _ _ Hr). apply list_elem_of_fmap.
    exists (i, (k', v)). split; [|done]. unfold index_hash, hash_of. simpl. f_equal.
    rewrite (rep_key_matches _ _ _ _ _ _ _ Hr Hin) in Ek.
    symmetry. by apply key_hash_eq.
Qed.

Lemma rep_new s : rep (new s) [] [].
Proof.
  constructor; simpl; try done. by rewrite ht_elems_new.
Qed.

Lemma rep_clear m : rep (clear m) [] [].
Proof. constructor; simpl; try done. by rewrite ht_elems_clear. Qed.

Lemma rep_get m es fs k : rep m es fs -> get m k = al_get key_eqb k es.*2.
Proof.
  intros Hr. pose proof (rep_find m es fs k Hr) as Hf. unfold get, index_of.
  destruct (index_of_hashed m (hash_of m k) k) as [i|]; [|done].
  destruct Hf as (es1 & k' & v & es2 & -> & Hk & Ha).
  destruct (seg_lookup _ _ _ _ i (k', v) (rep_seg _ _ _ Hr)) as (q & x & E); [set_solver|].
  unfold entry_at. rewrite E, fmap_app, al_get_app_absent by done. simpl. by rewrite Hk.
Qed.

Lemma rep_contains_key m es fs k :
  rep m es fs -> contains_key m k = bool_decide (is_Some (al_get key_eqb k es.*2)).
Proof.
  intros Hr. pose proof (rep_find m es fs k Hr) as Hf. unfold contains_key, index_of.
  destruct (index_of_hashed m (hash_of m k) k) as [i|].
  - destruct Hf as (es1 & k' & v & es2 & -> & Hk & Ha).
    rewrite fmap_app, al_get_app_absent by done. simpl. rewrite Hk. by rewrite bool_decide_true.
  - rewrite Hf. rewrite bool_decide_false; [done|]. by intros [? ?].
Qed.

(** Overwriting the value of a live entry in place. *)
Lemma rep_set_value m es1 i k v v' es2 fs :
  rep m (es1 ++ (i, (k, v)) :: es2) fs ->
  exists q x, slab m !! i = Some (Occupied k v q x) /\
    rep (mk_map (table m) (<[i := Occupied k v' q x]> (slab m)) (head m) (tail m)
           (free_head m) (len m) (hasher m))
      (es1 ++ (i, (k, v')) :: es2) fs.
Proof.
  intros Hr. destruct (seg_set_value (slab m) None es1 i k v v' es2 None) as (q & x & E & Hs).
  { by eapply rep_nodup_es. } { apply Hr. }
  exists q, x. split; [done|]. destruct Hr as [Hh Ht Hsg Hfh Hfs Hsl Hl Htb Hk].
  assert (i ∈ (es1 ++ (i, (k, v)) :: es2).*1) as Hi by (rewrite fmap_app; set_solver).
  assert (NoDup ((es1 ++ (i, (k, v)) :: es2).*1 ++ fs)) as Hnd by (rewrite Hsl; apply NoDup_seq).
  constructor; simpl.
  - rewrite Hh, !first_ix_app. done.
  - rewrite Ht, !last_ix_app, !last_ix_cons. done.
  - done.
  - done.
  - apply fseg_insert_ne; [|done]. apply NoDup_app in Hnd as (_ & Hd & _). by apply Hd.
  - rewrite length_insert, <- Hsl, !fmap_app. done.
  - rewrite Hl, !length_app. done.
  - rewrite Htb, !fmap_app. done.
  - rewrite fmap_app in Hk |- *. simpl in *.
    apply keys_distinct_app in Hk as (? & [Hk2 ?] & Hk3). apply keys_distinct_app.
    split; [done|]. split; [done|]. eapply Forall_impl; [exact Hk3|].
    intros [k1 v1] Hf. inversion Hf; subst. by constructor.
Qed.

Lemma rep_slab_length m es fs : rep m es fs -> length (slab m) = length es + length fs.
Proof.
  intros Hr. pose proof (rep_slots _ _ _ Hr) as Hp. apply Permutation_length in Hp.
  rewrite length_seq, length_app, length_fmap in Hp. done.
Qed.

(** [alloc_slot] hands out a position outside the chain and keeps both chains. *)
Lemma rep_alloc m es fs s i m1 :
  rep m es fs -> alloc_slot m s = (i, m1) ->
  exists fs1,
    slab m1 !! i = Some s /\ (i ∉ es.*1) /\ (i ∉ fs1) /\
    seg (slab m1) None es None /\ fseg (slab m1) fs1 /\ free_head m1 = hd_error fs1 /\
    ((es.*1 ++ [i]) ++ fs1) ≡ₚ seq 0 (length (slab m1)) /\
    length (slab m1) = Nat.max (length (slab m)) (length es + 1) /\
    table m1 = table m /\ head m1 = head m /\ tail m1 = tail m /\ len m1 = len m /\
    hasher m1 = hasher m.
Proof.
  intros Hr. pose proof (rep_nodup _ _ _ Hr) as Hnd. pose proof (rep_slab_length _ _ _ Hr) as Hll.
  destruct Hr as [Hh Ht Hsg Hfh Hfs Hsl Hl Htb Hk].
  unfold alloc_slot. rewrite Hfh. destruct fs as [|j fs]; simpl in *.
  - intros [= <- <-]. exists []. simpl. rewrite app_nil_r in Hsl |- *.
    assert (length (slab m) ∉ es.*1) as Hi.
    { rewrite Hsl. intros Hin%elem_of_seq. lia. }
    split_and!; try done.
    + by rewrite lookup_app_r, Nat.sub_diag by lia.
    + apply not_elem_of_nil.
    + by apply seg_snoc_slab.
    + by rewrite length_app, seq_app, <- Hsl.
    + rewrite length_app. simpl in *. lia.
  - destruct Hfs as [Hj Hfs]. rewrite Hj. simpl. intros [= <- <-]. exists fs. simpl.
    apply NoDup_app in Hnd as (_ & Hd & [Hjf _]%NoDup_cons).
    assert (j ∉ es.*1) as Hi by (intros Hin; apply (Hd j Hin); set_solver).
    split_and!; try done.
    + apply list_lookup_insert_eq. by eapply lookup_lt_Some.
    + by apply seg_insert_ne.
    + by apply fseg_insert_ne.
    + rewrite length_insert, <- Hsl, <- app_assoc. done.
    + rewrite length_insert. simpl in *. lia.
Qed.

Lemma rep_insert_new m es fs k v :
  rep m es fs -> al_get key_eqb k es.*2 = None ->
  exists i fs1, rep (insert_new m (hash_of m k) k v) (es ++ [(i, (k, v))]) fs1 /\
    length (slab (insert_new m (hash_of m k) k v)) = Nat.max (length (slab m)) (length es + 1).
Proof.
  intros Hr Habs. pose proof (rep_nodup_es _ _ _ Hr) as Hnd. unfold insert_new.
  destruct (alloc_slot m (Occupied k v (tail m) None)) as [i m1] eqn:Ea.
  destruct (rep_alloc _ _ _ _ _ _ Hr Ea)
    as (fs1 & Hi & Hie & Hif & Hsg1 & Hfs1 & Hfh1 & Hsl1 & Hgrow & Etb & Ehd & Etl & Eln & Ehs).
  destruct Hr as [Hh Ht Hsg Hfh Hfs Hsl Hl Htb Hk].
  rewrite Etb, Ehd, Etl, Eln, Ehs. rewrite Ht in Hi |- *. rewrite Hh, Hl.
  set (sl := match last_ix None es with Some p => set_next (slab m1) p (Some i) | None => slab m1 end).
  assert (Hfr : forall j, Some j <> last_ix None es -> sl !! j = slab m1 !! j).
  { intros j Hj. subst sl. destruct (last_ix None es) as [p|]; [|done].
    apply set_next_ne. congruence. }
  assert (Hlast : forall j, last_ix None es = Some j -> j ∈ es.*1).
  { intros j Hj. eapply last_ix_elem; [exact Hj|]. by intros ->. }
  assert (Hlen : length sl = length (slab m1)).
  { subst sl. destruct (last_ix None es); [apply length_set_next|done]. }
  assert (Hes : seg sl None es (Some i)) by (by eapply seg_set_exit).
  assert (Hsi : sl !! i = Some (Occupied k v (last_ix None es) None)).
  { rewrite Hfr, Hi; [done|]. intros Heq. by apply Hie, Hlast. }
  assert (Hseg : seg sl None (es ++ [(i, (k, v))]) None) by (apply seg_app; by simpl).
  exists i, fs1. split; [|simpl; by rewrite Hlen]. constructor; simpl.
  - rewrite first_ix_app. simpl. by rewrite link_first.
  - by rewrite last_ix_app.
  - done.
  - done.
  - eapply fseg_ext; [|exact Hfs1]. intros j Hj. apply Hfr. intros Heq.
    assert (NoDup ((es.*1 ++ [i]) ++ fs1)) as Hn by (rewrite Hsl1; apply NoDup_seq).
    apply NoDup_app in Hn as (_ & Hd & _). apply (Hd j); [|done]. symmetry in Heq. set_solver.
  - by rewrite Hlen, fmap_app.
  - by rewrite length_app.
  - rewrite fmap_app, Permutation_app_comm. simpl. rewrite <- Htb.
    apply ht_elems_insert. intros h j Hj. rewrite Htb in Hj.
    apply list_elem_of_fmap in Hj as ([j' [k' v']] & [= -> ->] & Hin).
    destruct (seg_lookup _ _ _ _ j' (k', v') Hseg) as (q & x & E); [set_solver|].
    unfold rehash. by rewrite E.
  - rewrite fmap_app. apply keys_distinct_app. split; [done|]. split; [by split|].
    apply al_get_none in Habs. eapply Forall_impl; [exact Habs|]. intros [k1 v1] ?. by constructor.
Qed.

(** [insert] acts as [al_insert] and answers the value it replaced. *)
Lemma rep_insert m es fs k v :
  rep m es fs ->
  (insert m k v).1 = al_get key_eqb k es.*2 /\
  exists es' fs', rep (insert m k v).2 es' fs' /\ es'.*2 = al_insert key_eqb k v es.*2 /\
    length (slab (insert m k v).2) = Nat.max (length (slab m)) (length es').
Proof.
  intros Hr. pose proof (rep_find m es fs k Hr) as Hf. unfold insert.
  destruct (index_of_hashed m (hash_of m k) k) as [i|].
  - destruct Hf as (es1 & k' & v0 & es2 & -> & Hk & Ha).
    destruct (rep_set_value m es1 i k' v0 v es2 fs Hr) as (q & x & E & Hr').
    rewrite E. simpl. rewrite fmap_app. simpl. split.
    { rewrite al_get_app_absent by done. simpl. by rewrite Hk. }
    eexists _, fs. split; [exact Hr'|]. split.
    { rewrite fmap_app, al_insert_app_absent by done. simpl. by rewrite Hk. }
    rewrite (rep_slab_length _ _ _ Hr). simpl. rewrite length_insert, (rep_slab_length _ _ _ Hr).
    rewrite !length_app. simpl. lia.
  - simpl. split; [done|]. destruct (rep_insert_new m es fs k v Hr Hf) as (i & fs1 & Hr' & Hg).
    exists (es ++ [(i, (k, v))]), fs1. split; [done|]. split.
    { by rewrite fmap_app, al_insert_absent by done. }
    rewrite Hg, length_app. done.
Qed.

(** Unlinking an entry: the two neighbour writes of [remove] join the segments
    around it, and its slot becomes the head of the free list. *)
Lemma seg_unlink (sl : list (Slot K V)) es1 i e es2 fh :
  NoDup (es1 ++ (i, e) :: es2).*1 -> seg sl None (es1 ++ (i, e) :: es2) None ->
  let prev := last_ix None es1 in
  let next := first_ix es2 None in
  let sl1 := <[i := Free fh]> sl in
  let sl2 := match prev with Some p => set_next sl1 p next | None => sl1 end in
  let sl3 := match next with Some n => set_prev sl2 n prev | None => sl2 end in
  seg sl3 None (es1 ++ es2) None /\ sl3 !! i = Some (Free fh) /\ length sl3 = length sl /\
  (forall j, j ∉ (es1 ++ (i, e) :: es2).*1 -> sl3 !! j = sl !! j).
Proof.
  intros Hnd Hseg prev next sl1 sl2 sl3.
  rewrite fmap_app in Hnd. simpl in Hnd. apply NoDup_app in Hnd as (Hn1 & Hd & Hn2).
  apply NoDup_cons in Hn2 as [Hi2 Hn2].
  assert (i ∉ es1.*1) as Hi1 by (intros Hin; apply (Hd i Hin); set_solver).
  destruct e as [k v]. apply seg_app in Hseg as [Hg1 [Hi Hg2]]. simpl in Hi.
  assert (Hp : forall p, prev = Some p -> p ∈ es1.*1).
  { intros p Hp. eapply last_ix_elem; [exact Hp|]. by intros ->. }
  assert (Hx : forall n, next = Some n -> n ∈ es2.*1).
  { subst next. destruct es2 as [|[??]?]; simpl; [done|]. intros ? [= ->]. set_solver. }
  assert (Hf2 : forall j, prev <> Some j -> sl2 !! j = sl1 !! j).
  { intros j Hj. subst sl2. destruct prev; [|done]. apply set_next_ne. congruence. }
  assert (Hf3 : forall j, next <> Some j -> sl3 !! j = sl2 !! j).
  { intros j Hj. subst sl3. destruct next; [|done]. apply set_prev_ne. congruence. }
  assert (Hs1 : seg sl2 None es1 next).
  { apply (seg_set_exit sl1 None es1 (Some i) next); [done|]. by apply seg_insert_ne. }
  assert (Hs2 : seg sl2 (Some i) es2 None).
  { apply seg_ext with sl1; [|by apply seg_insert_ne]. intros j Hj. apply Hf2.
    intros ?%Hp. apply (Hd j); [done|]. set_solver. }
  split_and!.
  - apply seg_app. split.
    + apply seg_ext with sl2; [|done]. intros j Hj. apply Hf3. intros ?%Hx.
      apply (Hd j Hj). set_solver.
    + by apply (seg_set_entry sl2 (Some i) prev es2 None).
  - rewrite Hf3, Hf2 by naive_solver. apply list_lookup_insert_eq. by eapply lookup_lt_Some.
  - subst sl3 sl2 sl1. destruct next, prev; rewrite ?length_set_prev, ?length_set_next, length_insert; done.
  - intros j. rewrite fmap_app, not_elem_of_app. simpl. rewrite not_elem_of_cons.
    intros (? & ? & ?). rewrite Hf3, Hf2 by naive_solver. by apply list_lookup_insert_ne.
Qed.

(** [remove] acts as [al_remove] and answers the removed value. *)
Lemma rep_remove m es fs k :
  rep m es fs ->
  (remove m k).1 = al_get key_eqb k es.*2 /\
  exists es' fs', rep (remove m k).2 es' fs' /\ es'.*2 = al_remove key_eqb k es.*2 /\
    length (slab (remove m k).2) = length (slab m).
Proof.
  intros Hr. pose proof (rep_find m es fs k Hr) as Hf. unfold remove.
  change (ht_find (table m) (hash_of m k) (key_matches m k))
    with (index_of_hashed m (hash_of m k) k).
  destruct (index_of_hashed m (hash_of m k) k) as [i|].
  2: { simpl. split; [done|]. exists es, fs. by rewrite al_remove_absent. }
  destruct Hf as (es1 & k' & v & es2 & -> & Hk & Ha).
  pose proof (rep_nodup _ _ _ Hr) as Hnd. pose proof (rep_nodup_es _ _ _ Hr) as Hnde.
  destruct Hr as [Hh Ht Hsg Hfh Hfs Hsl Hl Htb Hkd].
  destruct (seg_unlink (slab m) es1 i (k', v) es2 (free_head m) Hnde Hsg) as (Hseg & Hi & Hlen & Hfr).
  pose proof Hsg as [_ [Ei _]]%seg_app. rewrite Ei. simpl. rewrite fmap_app. simpl.
  split. { rewrite al_get_app_absent by done. simpl. by rewrite Hk. }
  exists (es1 ++ es2), (i :: fs). split.
  2: { rewrite fmap_app, al_remove_app_absent by done. simpl. by rewrite Hk. }
  constructor; simpl.
  - rewrite Hh. apply unlink_first.
  - rewrite Ht. apply unlink_last.
  - done.
  - done.
  - split; [by rewrite <- Hfh|]. eapply fseg_ext; [|exact Hfs]. intros j Hj. apply Hfr.
    intros Hin. apply NoDup_app in Hnd as (_ & Hd & _). by apply (Hd j).
  - rewrite Hlen, <- Hsl, !fmap_app, <- !app_assoc. simpl. solve_Permutation.
  - rewrite Hl, !length_app. simpl. lia.
  - apply (Permutation_cons_inv (a := index_hash (hasher m) (i, (k', v)))).
    rewrite fmap_app in Htb |- *. simpl in Htb.
    rewrite Permutation_middle, <- Htb.
    replace (hash_of m k) with (hash_one (hasher m) k') by (by apply key_hash_eq).
    apply ht_elems_remove; [rewrite Htb; set_solver|]. intros j. apply Nat.eqb_eq.
  - rewrite fmap_app in Hkd |- *. apply keys_distinct_app in Hkd as (? & [??] & Hf).
    apply keys_distinct_app. split; [done|]. split; [done|].
    eapply Forall_impl; [exact Hf|]. intros [k1 v1] Hf1. by inversion Hf1.
Qed.

(** ** Iteration *)

(** An iterator positioned before the entries [es] of its slab. *)
Record it_rep (it : Iter K V) es : Prop := {
  ir_next : it_next it = first_ix es None;
  ir_remaining : remaining it = length es;
  ir_nodup : NoDup es.*1;
  ir_seg : exists p, seg (it_slab it) p es None;
}.

Lemma it_rep_iter m es fs : rep m es fs -> it_rep (iter m) es.
Proof.
  intros Hr. split; simpl; [apply Hr|apply Hr|by eapply rep_nodup_es|]. exists None. apply Hr.
Qed.

(** One step of the borrowing and of the consuming iterator. *)
Lemma iter_next_spec it es :
  it_rep it es ->
  match es with
  | [] => (iter_next it).1 = None
  | (_, e) :: r => (iter_next it).1 = Some e /\ it_rep (iter_next it).2 r
  end.
Proof.
  intros [Hn Hrem Hnd [p Hs]]. unfold iter_next. rewrite Hn.
  destruct es as [|[i [k v]] r]; simpl; [done|]. destruct Hs as [Hi Hs]. rewrite Hi. simpl.
  split; [done|]. split; simpl; [done|rewrite Hrem; simpl; lia|by inversion Hnd|by eexists].
Qed.

Lemma into_iter_next_spec it es :
  it_rep it es ->
  match es with
  | [] => (into_iter_next it).1 = None
  | (_, e) :: r => (into_iter_next it).1 = Some e /\ it_rep (into_iter_next it).2 r
  end.
Proof.
  intros [Hn Hrem Hnd [p Hs]]. unfold into_iter_next. rewrite Hn.
  destruct es as [|[i [k v]] r]; simpl; [done|]. destruct Hs as [Hi Hs]. rewrite Hi. simpl.
  apply NoDup_cons in Hnd as [Hir Hnd]. simpl in Hir.
  split; [done|]. split; simpl; [done|rewrite Hrem; simpl; lia|done|]. eexists.
  by apply seg_insert_ne.
Qed.

(** Any step function with that specification enumerates the entries in order. *)
Lemma collect_spec (next : Iter K V -> option (K * V) * Iter K V) fuel it es :
  (forall it es, it_rep it es ->
    match es with
    | [] => (next it).1 = None
    | (_, e) :: r => (next it).1 = Some e /\ it_rep (next it).2 r
    end) ->
  it_rep it es -> length es <= fuel -> collect next fuel it = es.*2.
Proof.
  intros Hnext. revert it es. induction fuel as [|fuel IH]; intros it es Hit Hl; simpl.
  { destruct es; [done|simpl in Hl; lia]. }
  specialize (Hnext it es Hit). destruct (next it) as [o it'] eqn:E.
  destruct es as [|[i e] r]; simpl in *; [by subst o|].
  destruct Hnext as [-> Hit']. f_equal. apply IH; [done|lia].
Qed.

Lemma rep_entries m es fs : rep m es fs -> entries m = es.*2.
Proof.
  intros Hr. apply collect_spec; [apply iter_next_spec|by eapply it_rep_iter|].
  rewrite (rep_slab_length _ _ _ Hr). lia.
Qed.

Lemma rep_into_entries m es fs : rep m es fs -> into_entries m = es.*2.
Proof.
  intros Hr. apply collect_spec; [apply into_iter_next_spec|by eapply it_rep_iter|].
  rewrite (rep_slab_length _ _ _ Hr). lia.
Qed.

(** ** The abstract view *)

Lemma represents_entries m l : represents m l -> entries m = l /\ into_entries m = l /\ len m = length l.
Proof.
  intros (es & fs & Hr & ->). split_and!; [by eapply rep_entries|by eapply rep_into_entries|].
  by rewrite length_fmap, (rep_len _ _ _ Hr).
Qed.

Lemma represents_get m l k : represents m l -> get m k = al_get key_eqb k l.
Proof. intros (es & fs & Hr & ->). by eapply rep_get. Qed.

Lemma represents_distinct m l : represents m l -> keys_distinct key_eqb l.
Proof. intros (es & fs & Hr & ->). apply Hr. Qed.

Lemma represents_insert m l k v :
  represents m l ->
  (insert m k v).1 = al_get key_eqb k l /\ represents (insert m k v).2 (al_insert key_eqb k v l).
Proof.
  intros (es & fs & Hr & ->). destruct (rep_insert m es fs k v Hr) as [? (es' & fs' & ? & <- & _)].
  split; [done|]. by exists es', fs'.
Qed.

Lemma represents_remove m l k :
  represents m l ->
  (remove m k).1 = al_get key_eqb k l /\ represents (remove m k).2 (al_remove key_eqb k l).
Proof.
  intros (es & fs & Hr & ->). destruct (rep_remove m es fs k Hr) as [? (es' & fs' & ? & <- & _)].
  split; [done|]. by exists es', fs'.
Qed.

Lemma represents_extend m l new_entries :
  represents m l ->
  represents (extend m new_entries) (foldl (fun l '(k, v) => al_insert key_eqb k v l) l new_entries).
Proof.
  revert m l. induction new_entries as [|[k v] r IH]; intros m l Hr; [done|]. simpl.
  apply IH. by apply represents_insert.
Qed.

Lemma key_equiv : equiv_on (fun _ : K => True) key_eqb.
Proof.
  split; intros *; rewrite ?key_eqb_refl; try done.
  - by rewrite key_eqb_sym.
  - intros _ _ _. apply key_eqb_trans.
Qed.

Lemma represents_eqb veqb m1 m2 l1 l2 :
  represents m1 l1 -> represents m2 l2 -> map_eqb veqb m1 m2 = al_eqb key_eqb veqb l1 l2.
Proof.
  intros Hr1 Hr2. unfold map_eqb, al_eqb.
  destruct (represents_entries _ _ Hr1) as (-> & _ & ->).
  destruct (represents_entries _ _ Hr2) as (_ & _ & ->). f_equal.
  apply forallb_ext. intros [k v]. by rewrite (represents_get m2 l2).
Qed.

End Rep.
