(* ===== verification/OrderedMapProps.v ===== *)
(** * Properties of the ordered map and set

    Trace refinement against the abstract map, the slab bound, iteration, and the
    agreement of [Eq], [Ord] and [Hash].  [ListTable] is a concrete table, used to
    run the model. *)

From S2P Require Import Prelude AssocList OrderedMap OrderedMapRep.

#[local] Open Scope nat_scope.

(** ** A concrete table and key type *)

(** A table that keeps its (hash, index) pairs in a list, newest first. *)
Definition ListTable : Type := list (Z * nat).

Definition lt_matches (h : Z) (p : nat -> bool) (e : Z * nat) : bool := (e.1 =? h)%Z && p e.2.

Fixpoint lt_remove (h : Z) (p : nat -> bool) (t : ListTable) : ListTable :=
  match t with
  | [] => []
  | e :: r => if lt_matches h p e then r else e :: lt_remove h p r
  end.

#[export] Instance list_table : HashTable ListTable := {
  ht_new := [];
  ht_find t h p := match List.find (lt_matches h p) t with Some (_, i) => Some i | None => None end;
  ht_insert_unique t h i rehash := (h, i) :: map (fun '(_, j) => (rehash j, j)) t;
  ht_remove t h p := lt_remove h p t;
  ht_clear _ := [];
}.

(** [insert_unique] above rehashes every element, as a growing table does. *)
Lemma list_table_rehash (t : ListTable) (rehash : nat -> Z) :
  (forall h j, (h, j) ∈ t -> rehash j = h) -> map (fun '(_, j) => (rehash j, j)) t = t.
Proof.
  induction t as [|[h j] r IH]; intros Hr; simpl; [done|].
  rewrite (Hr h j), IH by set_solver. done.
Qed.

#[export] Program Instance list_table_laws : HashTableLaws ListTable := {
  ht_elems t := t;
}.
Next Obligation. done. Qed.
Next Obligation. done. Qed.
Next Obligation.
  intros t h p i. simpl. destruct (List.find (lt_matches h p) t) as [[h' j]|] eqn:E; [|done].
  intros [= <-]. apply find_some in E as [Hin Hm]. apply list_elem_of_In in Hin.
  unfold lt_matches in Hm. simpl in Hm. apply andb_true_iff in Hm as [->%Z.eqb_eq ?]. done.
Qed.
Next Obligation.
  intros t h p i. simpl. destruct (List.find (lt_matches h p) t) as [[h' j]|] eqn:E; [done|].
  intros _ Hin%list_elem_of_In. pose proof (find_none _ _ E _ Hin) as Hm.
  unfold lt_matches in Hm. simpl in Hm. by rewrite Z.eqb_refl in Hm.
Qed.
Next Obligation.
  intros t h i rehash Hr. simpl in *. by rewrite list_table_rehash.
Qed.
Next Obligation.
  intros t h p i Hin Hp. simpl in *. induction t as [|[h' j] r IH]; [by inversion Hin|]. simpl.
  unfold lt_matches. simpl. destruct ((h' =? h)%Z && p j) eqn:E.
  - apply andb_true_iff in E as [->%Z.eqb_eq ->%Hp]. done.
  - rewrite Permutation_swap. f_equiv. apply IH.
    apply elem_of_cons in Hin as [[= -> ->]|?]; [|done].
    exfalso. rewrite Z.eqb_refl in E. simpl in E.
    by rewrite (proj2 (Hp _) eq_refl) in E.
Qed.

(** Integer keys under a hasher with eight buckets, so that keys collide. *)
#[export] Instance z_key : Key Z Z := {
  key_eqb := Z.eqb;
  hash_one s k := ((s + k) mod 8)%Z;
}.

#[export] Instance z_key_laws : KeyLaws Z Z.
Proof.
  split; simpl; intros *.
  - apply Z.eqb_refl.
  - apply Z.eqb_sym.
  - rewrite !Z.eqb_eq. congruence.
  - rewrite Z.eqb_eq. by intros ->.
Qed.

(** ** Traces of operations *)

(** The calls a client makes, with what each one answers. *)
Inductive op (K V : Type) : Type :=
| OpInsert (k : K) (v : V)
| OpRemove (k : K)
| OpGet (k : K)
| OpContains (k : K)
| OpLen
| OpIter
| OpClear.
Arguments OpInsert {K V} _ _.
Arguments OpRemove {K V} _.
Arguments OpGet {K V} _.
Arguments OpContains {K V} _.
Arguments OpLen {K V}.
Arguments OpIter {K V}.
Arguments OpClear {K V}.

Inductive answer (K V : Type) : Type :=
| AnsValue (o : option V)
| AnsBool (b : bool)
| AnsLen (n : nat)
| AnsEntries (l : list (K * V))
| AnsUnit.
Arguments AnsValue {K V} _.
Arguments AnsBool {K V} _.
Arguments AnsLen {K V} _.
Arguments AnsEntries {K V} _.
Arguments AnsUnit {K V}.

Section Traces.
Context {T K V S : Type} `{HashTableLaws T} `{KeyLaws K S}.
Implicit Types (m : OrderedMap T K V S) (l : list (K * V)).

Definition step_impl m (o : op K V) : answer K V * OrderedMap T K V S :=
  match o with
  | OpInsert k v => let '(r, m') := insert m k v in (AnsValue r, m')
  | OpRemove k => let '(r, m') := remove m k in (AnsValue r, m')
  | OpGet k => (AnsValue (get m k), m)
  | OpContains k => (AnsBool (contains_key m k), m)
  | OpLen => (AnsLen (len m), m)
  | OpIter => (AnsEntries (entries m), m)
  | OpClear => (AnsUnit, clear m)
  end.

Definition step_spec l (o : op K V) : answer K V * list (K * V) :=
  match o with
  | OpInsert k v => (AnsValue (al_get key_eqb k l), al_insert key_eqb k v l)
  | OpRemove k => (AnsValue (al_get key_eqb k l), al_remove key_eqb k l)
  | OpGet k => (AnsValue (al_get key_eqb k l), l)
  | OpContains k => (AnsBool (bool_decide (is_Some (al_get key_eqb k l))), l)
  | OpLen => (AnsLen (length l), l)
  | OpIter => (AnsEntries l, l)
  | OpClear => (AnsUnit, [])
  end.

Fixpoint run_impl m (os : list (op K V)) : list (answer K V) * OrderedMap T K V S :=
  match os with
  | [] => ([], m)
  | o :: r => let '(a, m1) := step_impl m o in
              let '(r', m2) := run_impl m1 r in (a :: r', m2)
  end.

Fixpoint run_spec l (os : list (op K V)) : list (answer K V) * list (K * V) :=
  match os with
  | [] => ([], l)
  | o :: r => let '(a, l1) := step_spec l o in
              let '(r', l2) := run_spec l1 r in (a :: r', l2)
  end.

(** The largest number of entries the abstract map holds along a trace. *)
Fixpoint peak l (os : list (op K V)) : nat :=
  match os with
  | [] => length l
  | o :: r => Nat.max (length l) (peak (step_spec l o).2 r)
  end.

Lemma step_refines m l o :
  represents m l ->
  (step_impl m o).1 = (step_spec l o).1 /\ represents (step_impl m o).2 (step_spec l o).2.
Proof.
  intros Hr. destruct o as [k v|k|k|k| | |]; simpl.
  - destruct (represents_insert m l k v Hr) as [E1 E2]. destruct (insert m k v); simpl in *. by subst.
  - destruct (represents_remove m l k Hr) as [E1 E2]. destruct (remove m k); simpl in *. by subst.
  - by rewrite (represents_get m l).
  - split; [|done]. destruct Hr as (es & fs & Hr & ->). by rewrite (rep_contains_key m es fs).
  - destruct (represents_entries m l Hr) as (_ & _ & ->). done.
  - destruct (represents_entries m l Hr) as (-> & _). done.
  - split; [done|]. exists [], []. split; [apply rep_clear|done].
Qed.

Lemma run_refines m l os :
  represents m l ->
  (run_impl m os).1 = (run_spec l os).1 /\ represents (run_impl m os).2 (run_spec l os).2.
Proof.
  revert m l. induction os as [|o r IH]; intros m l Hr; simpl; [done|].
  destruct (step_refines m l o Hr) as [E1 Hr1].
  destruct (step_impl m o) as [a m1], (step_spec l o) as [a' l1]. simpl in *. subst a'.
  destruct (IH m1 l1 Hr1) as [E2 Hr2].
  destruct (run_impl m1 r) as [b m2], (run_spec l1 r) as [b' l2]. simpl in *. by subst.
Qed.

(** How the slab grows in one step. *)
Lemma step_slab m es fs o :
  rep m es fs ->
  exists es' fs', rep (step_impl m o).2 es' fs' /\ es'.*2 = (step_spec es.*2 o).2 /\
    length (slab (step_impl m o).2) <= Nat.max (length (slab m)) (length es').
Proof.
  intros Hr. destruct o as [k v|k|k|k| | |]; simpl;
    try by (exists es, fs; split_and!; [done|done|lia]).
  - destruct (rep_insert m es fs k v Hr) as (_ & es' & fs' & Hr' & He & Hl).
    destruct (insert m k v). simpl in *. exists es', fs'. split_and!; [done|done|lia].
  - destruct (rep_remove m es fs k Hr) as (_ & es' & fs' & Hr' & He & Hl).
    destruct (remove m k). simpl in *. exists es', fs'. split_and!; [done|done|lia].
  - exists [], []. split_and!; [apply rep_clear|done|simpl; lia].
Qed.

Lemma run_slab m es fs os :
  rep m es fs -> length (slab (run_impl m os).2) <= Nat.max (length (slab m)) (peak es.*2 os).
Proof.
  revert m es fs. induction os as [|o r IH]; intros m es fs Hr; simpl; [lia|].
  destruct (step_slab m es fs o Hr) as (es' & fs' & Hr' & He & Hl).
  destruct (step_impl m o) as [a m1]. simpl in *. specialize (IH m1 es' fs' Hr').
  destruct (run_impl m1 r) as [b m2]. simpl in *. rewrite <- He.
  assert (length es' <= peak es'.*2 r).
  { destruct r; simpl; rewrite length_fmap; lia. }
  lia.
Qed.

End Traces.

(** ** Lemmas behind the properties *)

Section Lemmas.
Context {T K V S : Type} `{HashTableLaws T} `{KeyLaws K S}.
Implicit Types (m : OrderedMap T K V S) (l : list (K * V)).

(** The commutative sum of entry hashes. *)
Definition entry_sum (eh : K -> V -> Z) l : Z := foldr (fun e s => (eh e.1 e.2 + s)%Z) 0%Z l.

Lemma map_hash_sum eh m l :
  represents m l -> map_hash eh m = [Z.of_nat (length l); (entry_sum eh l mod 2 ^ 64)%Z].
Proof.
  intros Hr. unfold map_hash. destruct (represents_entries m l Hr) as (-> & _ & ->).
  f_equal. f_equal. clear Hr.
  assert (Hgen : forall a, foldl (fun acc '(k, v) => ((acc + eh k v) mod 2 ^ 64)%Z) (a mod 2 ^ 64)%Z l
                 = ((a + entry_sum eh l) mod 2 ^ 64)%Z).
  { induction l as [|[k v] r IH]; intros a; simpl; [by rewrite Z.add_0_r|].
    rewrite Zplus_mod_idemp_l, IH. f_equal. simpl. lia. }
  specialize (Hgen 0%Z). by rewrite Z.mod_0_l in Hgen by lia.
Qed.

Lemma entry_sum_perm eh l1 l2 : l1 ≡ₚ l2 -> entry_sum eh l1 = entry_sum eh l2.
Proof. induction 1; simpl in *; lia. Qed.

Lemma entry_sum_eq (eh : K -> V -> Z) (veqb : V -> V -> bool) l1 l2 :
  (forall k1 k2 v1 v2, key_eqb k1 k2 = true -> veqb v1 v2 = true -> eh k1 v1 = eh k2 v2) ->
  Forall2 (entry_eq key_eqb veqb) l1 l2 -> entry_sum eh l1 = entry_sum eh l2.
Proof.
  intros Heh. induction 1 as [|[k1 v1] [k2 v2] l1 l2 [E1 E2] Hall IH]; simpl; [done|].
  by rewrite IH, (Heh k1 k2 v1 v2).
Qed.

Lemma entries_in_true l : entries_in (fun _ => True) (fun _ => True) l.
Proof. apply Forall_forall. done. Qed.

Lemma al_get_insert k v k' l :
  al_get key_eqb k' (al_insert key_eqb k v l) =
  if key_eqb k k' then Some v else al_get key_eqb k' l.
Proof.
  induction l as [|[k1 v1] r IH]; simpl; [by destruct (key_eqb k k')|].
  destruct (key_eqb k1 k) eqn:E1; simpl.
  - rewrite (eqv_compat_l _ _ k1 k k' key_equiv) by done. by destruct (key_eqb k k').
  - rewrite IH. destruct (key_eqb k1 k') eqn:E2, (key_eqb k k') eqn:E3; try done.
    rewrite (key_eqb_trans k1 k' k) in E1; try done. by rewrite key_eqb_sym.
Qed.

Lemma al_get_remove k k' l :
  keys_distinct key_eqb l ->
  al_get key_eqb k' (al_remove key_eqb k l) =
  if key_eqb k k' then None else al_get key_eqb k' l.
Proof.
  induction l as [|[k1 v1] r IH]; simpl; [by destruct (key_eqb k k')|]. intros [Hf Hd].
  destruct (key_eqb k1 k) eqn:E1; simpl.
  - rewrite (eqv_compat_l _ _ k1 k k' key_equiv) by done. destruct (key_eqb k k') eqn:E2; [|done].
    apply al_get_none. eapply Forall_impl; [exact Hf|]. intros [k2 v2] Hne. simpl in *.
    destruct (key_eqb k2 k') eqn:E3; [|done]. rewrite key_eqb_sym in Hne.
    rewrite (key_eqb_trans k2 k' k1) in Hne; [done|done|].
    rewrite key_eqb_sym. by apply (key_eqb_trans k1 k k').
  - rewrite IH by done. destruct (key_eqb k1 k') eqn:E2, (key_eqb k k') eqn:E3; try done.
    rewrite (key_eqb_trans k1 k' k) in E1; try done. by rewrite key_eqb_sym.
Qed.

Lemma al_insert_keys k v l :
  (al_insert key_eqb k v l).*1 =
  if decide (is_Some (al_get key_eqb k l)) then l.*1 else l.*1 ++ [k].
Proof.
  induction l as [|[k1 v1] r IH]; csimpl; [done|].
  destruct (key_eqb k1 k); csimpl; [done|]. rewrite IH. by case_decide.
Qed.

Lemma Nat_iter_S_r {A} n (f : A -> A) x : Nat.iter (Datatypes.S n) f x = Nat.iter n f (f x).
Proof. induction n as [|n IH]; simpl in *; [done|]. by rewrite <- IH. Qed.

(** After [n] steps the iterator stands before the remaining entries. *)
Lemma it_rep_advance (it : Iter K V) (es : list (nat * (K * V))) n :
  it_rep it es -> n <= length es ->
  it_rep (Nat.iter n (fun it => (iter_next it).2) it) (drop n es).
Proof.
  revert it es. induction n as [|n IH]; intros it es Hit Hn; [done|].
  rewrite Nat_iter_S_r. destruct es as [|[i e] r]; simpl in Hn; [lia|].
  apply IH; [|lia]. by destruct (iter_next_spec it _ Hit).
Qed.

End Lemmas.

(** ** Properties *)

Section Properties.
Context {T K V S : Type} `{HashTableLaws T} `{KeyLaws K S}.
Implicit Types (m : OrderedMap T K V S) (l : list (K * V)).

(** C1: whatever calls a client makes on a fresh map, the slab with its hash table,
    order chain and free list answers exactly what the abstract insertion-ordered
    map answers, and ends in a well-formed state standing for the same entries. *)
Theorem map_trace_refines (s : S) (os : list (op K V)) :
  (run_impl (T := T) (new s) os).1 = (run_spec [] os).1 /\
  represents (run_impl (T := T) (new s) os).2 (run_spec [] os).2.
Proof. apply run_refines. exists [], []. split; [apply rep_new|done]. Qed.

(** Holes left by removals are reused: along any trace the slab never holds
    more positions than the largest number of entries alive at one time. *)
Lemma map_slab_bounded (s : S) (os : list (op K V)) :
  length (slab (run_impl (T := T) (new s) os).2) <= peak [] os.
Proof. pose proof (run_slab (new s) [] [] os (rep_new s)) as Hl. simpl in Hl. lia. Qed.

(** Lookups after an insertion and after a removal: the key just inserted maps
    to its new value, the removed key to nothing, every other key is untouched;
    re-inserting a key keeps its place in the order, a new key goes last. *)
Lemma map_get_after m l k v k' :
  represents m l ->
  get (insert m k v).2 k' = (if key_eqb k k' then Some v else get m k') /\
  get (remove m k).2 k' = (if key_eqb k k' then None else get m k') /\
  keys (insert m k v).2 = (if contains_key m k then keys m else keys m ++ [k]).
Proof.
  intros Hr. destruct (represents_insert m l k v Hr) as [_ Hi].
  destruct (represents_remove m l k Hr) as [_ Hd].
  rewrite (represents_get _ _ k' Hi), (represents_get _ _ k' Hd), (represents_get _ _ k' Hr).
  rewrite al_get_insert, al_get_remove by (by eapply represents_distinct).
  split; [done|]. split; [done|]. unfold keys.
  destruct (represents_entries _ _ Hi) as (-> & _). destruct (represents_entries _ _ Hr) as (-> & _).
  rewrite al_insert_keys. destruct Hr as (es & fs & Hr & ->).
  rewrite (rep_contains_key m es fs k Hr). by case_decide; case_bool_decide.
Qed.

(** Iteration terminates after exactly [len] items and yields every entry once,
    in insertion order, for the borrowing and the consuming iterator; after [n]
    items [size_hint] is exactly the number of items still to come. *)
Lemma map_iteration m l fuel n :
  represents m l -> length l <= fuel -> n <= length l ->
  collect iter_next fuel (iter m) = l /\ collect into_iter_next fuel (iter m) = l /\
  len m = length l /\
  size_hint (Nat.iter n (fun it => (iter_next it).2) (iter m)) =
    (length l - n, Some (length l - n)) /\
  (iter_next (Nat.iter n (fun it => (iter_next it).2) (iter m))).1 = l !! n.
Proof.
  intros (es & fs & Hr & ->). rewrite length_fmap. intros Hf Hn.
  pose proof (it_rep_iter m es fs Hr) as Hit. pose proof (it_rep_advance _ _ n Hit Hn) as Ha.
  split_and!.
  - by apply collect_spec; [apply iter_next_spec|..].
  - by apply collect_spec; [apply into_iter_next_spec|..].
  - by rewrite (rep_len _ _ _ Hr).
  - unfold size_hint. rewrite (ir_remaining _ _ Ha), length_drop. done.
  - pose proof (iter_next_spec _ _ Ha) as Hs. rewrite list_lookup_fmap.
    rewrite <- (Nat.add_0_r n) at 2. rewrite <- lookup_drop.
    by destruct (drop n es) as [|[i e] r]; [|destruct Hs].
Qed.

(** Map equality is an equivalence that ignores insertion order: two maps are
    equal exactly when some reordering of one matches the other pair by pair. *)
Lemma map_eq_ignores_order (veqb : V -> V -> bool) m1 m2 l1 l2 :
  equiv_on (fun _ : V => True) veqb -> represents m1 l1 -> represents m2 l2 ->
  (map_eqb veqb m1 m2 = true <-> exists l, l1 ≡ₚ l /\ Forall2 (entry_eq key_eqb veqb) l l2) /\
  map_eqb veqb m1 m2 = map_eqb veqb m2 m1 /\ map_eqb veqb m1 m1 = true.
Proof.
  intros Hv Hr1 Hr2. rewrite !(represents_eqb _ _ _ _ _ Hr1 Hr2), !(represents_eqb _ _ _ _ _ Hr2 Hr1),
    !(represents_eqb _ _ _ _ _ Hr1 Hr1).
  pose proof (represents_distinct _ _ Hr1). pose proof (represents_distinct _ _ Hr2).
  pose proof (entries_in_true l1). pose proof (entries_in_true l2).
  pose proof (al_eqb_equiv _ _ _ _ key_equiv Hv) as He. split_and!.
  - split; [by eapply al_eqb_perm; try apply key_equiv|].
    by eapply perm_eq_al_eqb; try apply key_equiv.
  - by apply (eqv_sym_eq _ _ l1 l2 He).
  - by apply (eqv_refl _ _ He).
Qed.

(** Equal maps hash alike, whatever order they were built in, provided the
    entry hash respects equality of keys and values: a map can key a map. *)
Lemma map_hash_respects_eq (veqb : V -> V -> bool) (entry_hash : K -> V -> Z) m1 m2 l1 l2 :
  equiv_on (fun _ : V => True) veqb ->
  (forall k1 k2 v1 v2, key_eqb k1 k2 = true -> veqb v1 v2 = true ->
    entry_hash k1 v1 = entry_hash k2 v2) ->
  represents m1 l1 -> represents m2 l2 -> map_eqb veqb m1 m2 = true ->
  map_hash entry_hash m1 = map_hash entry_hash m2.
Proof.
  intros Hv Heh Hr1 Hr2. rewrite (represents_eqb _ _ _ _ _ Hr1 Hr2). intros E.
  eapply al_eqb_perm in E as (l & Hp & Hall);
    [|apply key_equiv|exact Hv|apply entries_in_true|apply entries_in_true
     |by eapply represents_distinct|by eapply represents_distinct].
  rewrite (map_hash_sum _ _ _ Hr1), (map_hash_sum _ _ _ Hr2).
  rewrite (entry_sum_perm _ _ _ Hp), (entry_sum_eq _ _ _ _ Heh Hall), Hp.
  by rewrite (Forall2_length _ _ _ Hall).
Qed.

(** The order on maps agrees with equality and is a total order: comparing
    contents after sorting by key does not depend on insertion order. *)
Lemma map_cmp_agrees (veqb : V -> V -> bool) kc vc m1 m2 l1 l2 :
  equiv_on (fun _ : V => True) veqb ->
  ord_on (fun _ : K => True) kc -> ord_on (fun _ : V => True) vc ->
  agree_on (fun _ : K => True) key_eqb kc -> agree_on (fun _ : V => True) veqb vc ->
  represents m1 l1 -> represents m2 l2 ->
  (map_eqb veqb m1 m2 = true <-> map_cmp kc vc m1 m2 = Eq) /\
  map_cmp kc vc m2 m1 = CompOpp (map_cmp kc vc m1 m2).
Proof.
  intros Hv Hkc Hvc Hka Hva Hr1 Hr2. rewrite (represents_eqb _ _ _ _ _ Hr1 Hr2). unfold map_cmp.
  destruct (represents_entries _ _ Hr1) as (-> & _). destruct (represents_entries _ _ Hr2) as (-> & _).
  pose proof (represents_distinct _ _ Hr1). pose proof (represents_distinct _ _ Hr2).
  pose proof (entries_in_true l1). pose proof (entries_in_true l2). split.
  - by apply (al_cmp_eqb _ _ _ _ _ _ key_equiv Hv Hkc Hka Hva).
  - by apply (ord_opp _ _ (al_cmp_ord _ _ _ _ Hkc Hvc)).
Qed.

End Properties.

(** ** Witnesses: the model run on colliding integer keys *)

Definition demo_ops : list (op Z Z) :=
  [OpInsert 1 10; OpInsert 9 90; OpInsert 1 11; OpRemove 9; OpInsert 17 5; OpInsert 4 6;
   OpGet 9; OpGet 17; OpLen; OpIter; OpContains 1]%Z.

Definition demo_map : OrderedMap ListTable Z Z Z := (run_impl (new 3%Z) demo_ops).2.
Definition demo_map' : OrderedMap ListTable Z Z Z := from_iter 5%Z [(4, 6); (1, 11); (17, 5)]%Z.

Lemma demo_map_rep : represents demo_map [(1, 11); (17, 5); (4, 6)]%Z.
Proof.
  refine (proj2 (run_refines (new 3%Z) [] demo_ops _)).
  exists [], []. split; [apply rep_new|done].
Qed.

Lemma demo_map'_rep : represents demo_map' [(4, 6); (1, 11); (17, 5)]%Z.
Proof.
  refine (represents_extend (new 5%Z) [] [(4, 6); (1, 11); (17, 5)]%Z _).
  exists [], []. split; [apply rep_new|done].
Qed.

Lemma z_equiv : equiv_on (fun _ : Z => True) Z.eqb.
Proof. exact (key_equiv (K := Z) (S := Z)). Qed.

Lemma z_ord : ord_on (fun _ : Z => True) Z.compare.
Proof.
  split; intros *; rewrite ?Z.compare_refl; try done.
  - intros _ _. by rewrite Z.compare_antisym.
  - intros _ _ _ ->%Z.compare_eq. done.
  - rewrite !Z.compare_lt_iff. lia.
Qed.

Lemma z_agree : agree_on (fun _ : Z => True) Z.eqb Z.compare.
Proof. intros a b _ _. rewrite Z.eqb_eq, Z.compare_eq_iff. done. Qed.

Lemma map_trace_refines_witness :
  (run_impl (T := ListTable) (new 3%Z) demo_ops).1 =
    [AnsValue None; AnsValue None; AnsValue (Some 10%Z); AnsValue (Some 90%Z); AnsValue None;
     AnsValue None; AnsValue None; AnsValue (Some 5%Z); AnsLen 3;
     AnsEntries [(1, 11); (17, 5); (4, 6)]%Z; AnsBool true].
Proof. rewrite (proj1 (map_trace_refines (T := ListTable) 3%Z demo_ops)). vm_compute. reflexivity. Defined.
