(* ===== verification/Object.v ===== *)
(** * Object types and their registry ([src/src/object.rs], [ObjectRef] of [src/src/lib.rs])

    Classes of the compiled program register a type, then callbacks for it.  The
    registry is a map from type identifier to [ObjectType]; function pointers are
    their addresses ([Z]), and what compiled code behind them does is the class
    [Callbacks]. *)

From S2P Require Import Prelude AssocList.

(** ** Registered types *)

Definition TypeId : Type := Z.
Definition fnptr : Type := Z.

Record ObjectType : Type := mk_type {
  ot_id : TypeId;
  ot_name : string;
  ot_size : Z;
  ot_destructor : option fnptr;
  ot_copy : option fnptr;
  ot_shared : bool;
  ot_equals : option fnptr;
  ot_compare : option fnptr;
  ot_hash : option fnptr;
}.

(** [TYPE_REGISTRY] and [NEXT_TYPE_ID]. *)
Record Registry : Type := mk_registry {
  types : gmap TypeId ObjectType;
  next_type_id : TypeId;
}.

Definition empty_registry : Registry := mk_registry ∅ 1.

(** [*next_id += 1] on a [u32], as the release build computes it. *)
Definition u32_succ (z : Z) : Z := (z + 1) mod 2 ^ 32.

(** [ObjectType::new]: takes the next identifier. *)
Definition ObjectType_new (r : Registry) (name : string) (size : Z)
    (destructor copy : option fnptr) : ObjectType * Registry :=
  let id := next_type_id r in
  (mk_type id name size destructor copy false None None None,
   mk_registry (types r) (u32_succ id)).

Definition register_object_type_with_copy (r : Registry) (name : string) (size : Z)
    (destructor copy : option fnptr) : TypeId * Registry :=
  let '(t, r1) := ObjectType_new r name size destructor copy in
  (ot_id t, mk_registry (<[ot_id t := t]> (types r1)) (next_type_id r1)).

Definition register_object_type (r : Registry) (name : string) (size : Z)
    (destructor : option fnptr) : TypeId * Registry :=
  register_object_type_with_copy r name size destructor None.

Definition set_shared (t : ObjectType) : ObjectType :=
  mk_type (ot_id t) (ot_name t) (ot_size t) (ot_destructor t) (ot_copy t) true
    (ot_equals t) (ot_compare t) (ot_hash t).

Definition register_shared_object_type (r : Registry) (name : string) (size : Z)
    (destructor : option fnptr) : TypeId * Registry :=
  let '(t, r1) := ObjectType_new r name size destructor None in
  let t := set_shared t in
  (ot_id t, mk_registry (<[ot_id t := t]> (types r1)) (next_type_id r1)).

(** [if let Some(obj_type) = registry.get_mut(&type_id) { ... }]. *)
Definition update_type (r : Registry) (id : TypeId) (f : ObjectType -> ObjectType) : Registry :=
  match types r !! id with
  | Some t => mk_registry (<[id := f t]> (types r)) (next_type_id r)
  | None => r
  end.

Definition mux_register_object_copy (r : Registry) (id : TypeId) (f : fnptr) : Registry :=
  update_type r id (fun t =>
    mk_type (ot_id t) (ot_name t) (ot_size t) (ot_destructor t) (Some f) (ot_shared t)
      (ot_equals t) (ot_compare t) (ot_hash t)).

Definition mux_register_object_destructor (r : Registry) (id : TypeId) (f : fnptr) : Registry :=
  update_type r id (fun t =>
    mk_type (ot_id t) (ot_name t) (ot_size t) (Some f) (ot_copy t) (ot_shared t)
      (ot_equals t) (ot_compare t) (ot_hash t)).

Definition mux_register_object_equals (r : Registry) (id : TypeId) (f : fnptr) : Registry :=
  update_type r id (fun t =>
    mk_type (ot_id t) (ot_name t) (ot_size t) (ot_destructor t) (ot_copy t) (ot_shared t)
      (Some f) (ot_compare t) (ot_hash t)).

Definition mux_register_object_compare (r : Registry) (id : TypeId) (f : fnptr) : Registry :=
  update_type r id (fun t =>
    mk_type (ot_id t) (ot_name t) (ot_size t) (ot_destructor t) (ot_copy t) (ot_shared t)
      (ot_equals t) (Some f) (ot_hash t)).

Definition mux_register_object_hash (r : Registry) (id : TypeId) (f : fnptr) : Registry :=
  update_type r id (fun t =>
    mk_type (ot_id t) (ot_name t) (ot_size t) (ot_destructor t) (ot_copy t) (ot_shared t)
      (ot_equals t) (ot_compare t) (Some f)).

(** ** Keying callbacks *)

Record ObjectCallbacks : Type := mk_callbacks {
  cb_equals : option fnptr;
  cb_compare : option fnptr;
  cb_hash : option fnptr;
  can_snapshot : bool;
}.

Definition default_callbacks : ObjectCallbacks := mk_callbacks None None None false.

Definition is_some {A} (o : option A) : bool := match o with Some _ => true | None => false end.

Definition object_callbacks (r : Registry) (id : TypeId) : ObjectCallbacks :=
  match types r !! id with
  | Some t => mk_callbacks (ot_equals t) (ot_compare t) (ot_hash t) (is_some (ot_copy t))
  | None => default_callbacks
  end.

(** A handle on an object: the shared [Rc<ObjectData>] by its identity, with the
    fields of [ObjectData] that never change. *)
Record ObjectRef : Type := mk_object {
  obj_rc : positive;
  obj_ptr : Z;
  obj_type : TypeId;
  obj_size : Z;
}.

(** What compiled code answers when the runtime calls it: the class methods
    registered for a type, and the glue of payload-carrying enums (on their
    inline bytes).  [call_with_boxed] and [call_with_boxed_pair] box the operands
    and release the boxes again, so only the answer remains. *)
Class Callbacks := {
  run_equals : fnptr -> ObjectRef -> ObjectRef -> bool;
  run_compare : fnptr -> ObjectRef -> ObjectRef -> Z;
  run_hash : fnptr -> ObjectRef -> Z;
  run_cmp_glue : fnptr -> list Z -> list Z -> Z;
  run_hash_glue : fnptr -> list Z -> Z;
  hash_glue_of : fnptr -> fnptr; (* the hash glue emitted with a comparison glue *)
}.

Section Keying.
Context `{Callbacks} (r : Registry).
Implicit Types (a b : ObjectRef).

(** [ObjectRef::keying]: content-based keying needs a copy callback and an
    equality; a type missing either is keyed by identity. *)
Definition keying a : ObjectCallbacks :=
  let cb := object_callbacks r (obj_type a) in
  let has_equality := is_some (cb_equals cb) || is_some (cb_compare cb) in
  if can_snapshot cb && has_equality then cb else default_callbacks.

Definition structural_key a : Z :=
  let cb := keying a in
  match cb_hash cb with
  | Some f => run_hash f a
  | None =>
      if is_some (cb_equals cb) || is_some (cb_compare cb) then 0 else as_u64 (obj_ptr a)
  end.

Definition structural_eq a b : option bool :=
  if negb (obj_type a =? obj_type b) then None
  else
    let cb := keying a in
    match cb_equals cb with
    | Some f => Some (run_equals f a b)
    | None => match cb_compare cb with Some f => Some (run_compare f a b =? 0) | None => None end
    end.

Definition structural_cmp a b : option comparison :=
  if negb (obj_type a =? obj_type b) then None
  else match cb_compare (keying a) with Some f => Some (run_compare f a b ?= 0) | None => None end.

(** The [Object] arms of [PartialEq] and [Ord] for [Value]. *)
Definition object_eqb a b : bool :=
  match structural_eq a b with
  | Some equal => equal
  | None => (obj_ptr a =? obj_ptr b) && (obj_type a =? obj_type b)
  end.

Definition object_cmp a b : comparison :=
  match structural_cmp a b with
  | Some ordering => ordering
  | None =>
      match obj_type a ?= obj_type b with
      | Eq => structural_key a ?= structural_key b
      | c => c
      end
  end.

End Keying.

(** ** Laws *)

(** The contract of compiled code, as [object.rs] and [lib.rs] document it: an
    equality is an equivalence, a comparison a total order, both agree, and the
    hash agrees with them. *)
Class CallbackLaws `{Callbacks} (reg : Registry) : Prop := {
  cl_equals id t f : types reg !! id = Some t -> ot_equals t = Some f ->
    equiv_on (fun o => obj_type o = id) (run_equals f);
  cl_compare id t f : types reg !! id = Some t -> ot_compare t = Some f ->
    ord_on (fun o => obj_type o = id) (fun a b => run_compare f a b ?= 0);
  cl_equals_compare t f g a b : types reg !! obj_type a = Some t -> obj_type a = obj_type b ->
    ot_equals t = Some f -> ot_compare t = Some g ->
    run_equals f a b = true <-> run_compare g a b = 0;
  cl_hash_equals t f h a b : types reg !! obj_type a = Some t -> obj_type a = obj_type b ->
    ot_equals t = Some f -> ot_hash t = Some h -> run_equals f a b = true ->
    run_hash h a = run_hash h b;
  cl_hash_compare t f h a b : types reg !! obj_type a = Some t -> obj_type a = obj_type b ->
    ot_compare t = Some f -> ot_hash t = Some h -> run_compare f a b = 0 ->
    run_hash h a = run_hash h b;
  cl_glue g : ord_on (fun _ => True) (fun x y => run_cmp_glue g x y ?= 0);
  cl_glue_hash g x y : run_cmp_glue g x y = 0 ->
    run_hash_glue (hash_glue_of g) x = run_hash_glue (hash_glue_of g) y;
}.

Section ObjectLaws.
Context `{CallbackLaws reg}.
Implicit Types (a b c : ObjectRef).

Lemma keying_type a b : obj_type a = obj_type b -> keying reg a = keying reg b.
Proof. unfold keying. by intros ->. Qed.

(** A type is keyed by identity, or by an equality or comparison it registered. *)
Lemma keying_cases a :
  keying reg a = default_callbacks \/
  exists t, types reg !! obj_type a = Some t /\
    keying reg a = mk_callbacks (ot_equals t) (ot_compare t) (ot_hash t) true /\
    (is_Some (ot_equals t) \/ is_Some (ot_compare t)).
Proof.
  unfold keying, object_callbacks. destruct (types reg !! obj_type a) as [t|] eqn:E; simpl; [|by left].
  destruct (is_some (ot_copy t)); simpl; [|by left].
  destruct (ot_equals t) eqn:E1, (ot_compare t) eqn:E2; simpl; [right..|by left];
    exists t; rewrite E1, E2; eauto.
Qed.

(** Equality of two objects of one type. *)
Lemma object_eqb_same a b :
  obj_type a = obj_type b ->
  object_eqb reg a b =
  match cb_equals (keying reg a), cb_compare (keying reg a) with
  | Some f, _ => run_equals f a b
  | None, Some f => run_compare f a b =? 0
  | None, None => obj_ptr a =? obj_ptr b
  end.
Proof.
  intros E. unfold object_eqb, structural_eq. rewrite E, Z.eqb_refl. simpl.
  destruct (cb_equals _); [done|]. destruct (cb_compare _); [done|]. by rewrite andb_true_r.
Qed.

Lemma object_eqb_diff a b : obj_type a <> obj_type b -> object_eqb reg a b = false.
Proof.
  intros E%Z.eqb_neq. unfold object_eqb, structural_eq. rewrite E. simpl. apply andb_false_r.
Qed.

Lemma object_eqb_type a b : object_eqb reg a b = true -> obj_type a = obj_type b.
Proof. intros E. destruct (decide (obj_type a = obj_type b)); [done|]. by rewrite object_eqb_diff in E. Qed.

(** The equality a type is keyed by, as an equivalence on its instances. *)
Lemma object_eqb_equiv_type id : equiv_on (fun o => obj_type o = id) (object_eqb reg).
Proof.
  assert (Hptr : equiv_on (fun o => obj_type o = id) (fun a b => obj_ptr a =? obj_ptr b)).
  { split; intros *; rewrite ?Z.eqb_eq; congruence. }
  assert (Hcmp : forall f, ord_on (fun o => obj_type o = id) (fun a b => run_compare f a b ?= 0) ->
    equiv_on (fun o => obj_type o = id) (fun a b => run_compare f a b =? 0)).
  { intros f Ho. assert (forall x, (x =? 0) = true <-> (x ?= 0) = Eq) as Hz.
    { intros x. by rewrite Z.eqb_eq, Z.compare_eq_iff. }
    split; intros a *; rewrite ?Hz.
    - intros Ha. by apply (ord_refl _ _ Ho).
    - intros Ha Hb E. rewrite (ord_opp _ _ Ho a b) by done. by rewrite E.
    - intros Ha Hb Hc E1 E2. by rewrite (ord_eq_l _ _ Ho a b c). }
  assert (Hk : forall o, obj_type o = id -> exists eqb, equiv_on (fun o => obj_type o = id) eqb /\
    forall a b, obj_type a = id -> obj_type b = id -> object_eqb reg a b = eqb a b).
  { intros o Ho. destruct (keying_cases o) as [E|(t & Ht & E & Hs)].
    - eexists. split; [exact Hptr|]. intros a b Ha Hb. rewrite object_eqb_same by congruence.
      rewrite (keying_type a o) by congruence. by rewrite E.
    - rewrite Ho in Ht. destruct (ot_equals t) as [f|] eqn:Ee.
      + exists (run_equals f). split; [by eapply cl_equals|]. intros a b Ha Hb.
        rewrite object_eqb_same by congruence. rewrite (keying_type a o) by congruence. by rewrite E.
      + destruct Hs as [[? ?]|[f Ef]]; [done|].
        exists (fun a b => run_compare f a b =? 0). split; [by eapply Hcmp, cl_compare|].
        intros a b Ha Hb. rewrite object_eqb_same by congruence.
        rewrite (keying_type a o) by congruence. by rewrite E, Ef. }
  split; intros a *.
  - intros Ha. destruct (Hk a Ha) as (eqb & He & Hq). rewrite Hq by done. by apply (eqv_refl _ _ He).
  - intros Ha Hb. destruct (Hk a Ha) as (eqb & He & Hq). rewrite !Hq by done. by apply (eqv_sym _ _ He).
  - intros Ha Hb Hc. destruct (Hk a Ha) as (eqb & He & Hq). rewrite !Hq by done.
    by apply (eqv_trans _ _ He).
Qed.

Lemma object_eqb_equiv : equiv_on (fun _ => True) (object_eqb reg).
Proof.
  apply (equiv_on_by_class obj_type); [apply object_eqb_type|]. intros w _.
  eapply equiv_on_impl; [|apply (object_eqb_equiv_type (obj_type w))]. by intros a [_ ?].
Qed.

(** Order of two objects. *)
Lemma object_cmp_same a b :
  obj_type a = obj_type b ->
  object_cmp reg a b =
  match cb_compare (keying reg a) with
  | Some f => run_compare f a b ?= 0
  | None => structural_key reg a ?= structural_key reg b
  end.
Proof.
  intros E. unfold object_cmp, structural_cmp. rewrite E, Z.eqb_refl, Z.compare_refl. simpl.
  by destruct (cb_compare _).
Qed.

Lemma object_cmp_diff a b :
  obj_type a <> obj_type b -> object_cmp reg a b = (obj_type a ?= obj_type b).
Proof.
  intros E. unfold object_cmp, structural_cmp. apply Z.eqb_neq in E as E'. rewrite E'. simpl.
  destruct (obj_type a ?= obj_type b) eqn:Ec; try done. by apply Z.compare_eq in Ec.
Qed.

Lemma object_cmp_ord_type id : ord_on (fun o => obj_type o = id) (object_cmp reg).
Proof.
  assert (Hkey : ord_on (fun o => obj_type o = id)
            (fun a b => structural_key reg a ?= structural_key reg b)).
  { split; intros *.
    - intros _. apply Z.compare_refl.
    - intros _ _. apply Z.compare_antisym.
    - intros _ _ _ ->%Z.compare_eq. done.
    - rewrite !Z.compare_lt_iff. lia. }
  assert (Hk : forall o, obj_type o = id -> exists cmp, ord_on (fun o => obj_type o = id) cmp /\
    forall a b, obj_type a = id -> obj_type b = id -> object_cmp reg a b = cmp a b).
  { intros o Ho. destruct (keying_cases o) as [E|(t & Ht & E & Hs)].
    - eexists. split; [exact Hkey|]. intros a b Ha Hb. rewrite object_cmp_same by congruence.
      rewrite (keying_type a o) by congruence. by rewrite E.
    - rewrite Ho in Ht. destruct (ot_compare t) as [f|] eqn:Ee.
      + exists (fun a b => run_compare f a b ?= 0). split; [by eapply cl_compare|]. intros a b Ha Hb.
        rewrite object_cmp_same by congruence. rewrite (keying_type a o) by congruence. by rewrite E.
      + eexists. split; [exact Hkey|]. intros a b Ha Hb. rewrite object_cmp_same by congruence.
        rewrite (keying_type a o) by congruence. by rewrite E. }
  split; intros a *.
  - intros Ha. destruct (Hk a Ha) as (cmp & He & Hq). rewrite Hq by done. by apply (ord_refl _ _ He).
  - intros Ha Hb. destruct (Hk a Ha) as (cmp & He & Hq). rewrite !Hq by done. by apply (ord_opp _ _ He).
  - intros Ha Hb Hc. destruct (Hk a Ha) as (cmp & He & Hq). rewrite !Hq by done. by apply (ord_eq_l _ _ He).
  - intros Ha Hb Hc. destruct (Hk a Ha) as (cmp & He & Hq). rewrite !Hq by done.
    by apply (ord_lt_trans _ _ He).
Qed.

Lemma object_cmp_ord : ord_on (fun _ => True) (object_cmp reg).
Proof.
  apply (ord_on_by_class obj_type); [apply object_cmp_diff|]. intros w _.
  eapply ord_on_impl; [|apply (object_cmp_ord_type (obj_type w))]. by intros a [_ ?].
Qed.

(** Whether the order of an object's type can tell its instances apart: the type
    is keyed by identity, or it registered a comparison. *)
Definition orderable a : Prop :=
  cb_equals (keying reg a) = None \/ is_Some (cb_compare (keying reg a)).

Lemma object_agree :
  agree_on (fun o => orderable o /\ is_u64 (obj_ptr o)) (object_eqb reg) (object_cmp reg).
Proof.
  intros a b [Ha Hpa] [Hb Hpb]. destruct (decide (obj_type a = obj_type b)) as [E|E].
  2: { rewrite object_eqb_diff, object_cmp_diff by done. split; [done|]. by intros ?%Z.compare_eq. }
  rewrite object_eqb_same, object_cmp_same by done. unfold orderable in Ha.
  destruct (keying_cases a) as [Ek|(t & Ht & Ek & Hs)]; rewrite Ek in *; simpl in *.
  - rewrite Z.eqb_eq. unfold structural_key. rewrite <- (keying_type a b E), Ek. simpl.
    rewrite !as_u64_small, Z.compare_eq_iff by done. done.
  - destruct (ot_equals t) as [f|] eqn:Ee.
    + destruct Ha as [?|[g Eg]]; [done|]. rewrite Eg, Z.compare_eq_iff.
      by eapply cl_equals_compare.
    + destruct Hs as [[? ?]|[g Eg]]; [done|]. rewrite Eg, Z.eqb_eq, Z.compare_eq_iff. done.
Qed.

(** Equal objects hash alike. *)
Lemma object_key_eq a b :
  object_eqb reg a b = true ->
  obj_type a = obj_type b /\ structural_key reg a = structural_key reg b.
Proof.
  intros E. pose proof (object_eqb_type _ _ E) as Et. split; [done|].
  rewrite object_eqb_same in E by done. unfold structural_key. rewrite <- (keying_type a b Et).
  destruct (keying_cases a) as [Ek|(t & Ht & Ek & Hs)]; rewrite Ek in *; simpl in *.
  - apply Z.eqb_eq in E. by rewrite E.
  - destruct (ot_hash t) as [h|] eqn:Eh.
    + destruct (ot_equals t) as [f|] eqn:Ee; [by eapply cl_hash_equals|].
      destruct (ot_compare t) as [f|] eqn:Ec; [|by destruct Hs as [[? ?]|[? ?]]].
      apply Z.eqb_eq in E. by eapply cl_hash_compare.
    + by destruct (ot_equals t), (ot_compare t); destruct Hs as [[? ?]|[? ?]].
Qed.

End ObjectLaws.
