(* ===== verification/Value.v ===== *)
(** * Runtime values ([src/src/lib.rs])

    The [Value] enum with its [PartialEq], [Ord] and [Hash].  A map or set is
    carried by its entries in insertion order, the abstract state the slab of
    [OrderedMap] is proved to implement; its equality, order and hash below are
    the ones of [src/src/ordered.rs] on that list.

    A string is its UTF-8 bytes ([string]), a byte vector a list of [Z], an [f64]
    its bit pattern.  [ordered_float::OrderedFloat] is third-party code, so its
    comparison and hash are the class [OrderedFloat]; [DefaultHasher] is part of
    the same class of hashing parameters.

    Comparison of nested values is defined on fuel, with the nesting depth as the
    fuel of the public functions; [Value] proves that it is enough. *)

From S2P Require Import Prelude AssocList Object.

Definition f64 : Type := Z.

(** [OrderedFloat<f64>]'s [Eq], [Ord] and [Hash] (the words it writes), and what
    [DefaultHasher] answers for a sequence of writes. *)
Inductive hwrite : Type :=
| WDiscriminant (n : Z)
| WBool (b : bool)
| WI64 (z : Z)
| WU64 (z : Z)
| WU32 (z : Z)
| WLen (n : Z)
| WStr (s : string)
| WBytes (bs : list Z).

Class Floats := {
  of_eqb : f64 -> f64 -> bool;
  of_cmp : f64 -> f64 -> comparison;
  of_hash : f64 -> list hwrite;
  default_hasher : list hwrite -> Z;
}.

(** [BoxedEnum]: the inline bytes of the enum and the compiler's glue. *)
Record BoxedEnum : Type := mk_enum {
  be_bytes : list Z;
  clone_glue : fnptr;
  drop_glue : fnptr;
  cmp_glue : fnptr;
  hash_glue : fnptr;
}.

Inductive value : Type :=
| VUnit
| VBool (b : bool)
| VInt (i : Z)
| VFloat (f : f64)
| VString (s : string)
| VList (l : list value)
| VBytes (bs : list Z)
| VMap (m : list (value * value))
| VSet (s : list value)
| VTuple (a b : value)
| VOptional (o : option value)
| VResult (r : result value value)
| VObject (o : ObjectRef)
| VOpaque (bs : list Z)
| VBoxedEnum (e : BoxedEnum).

Definition variant_order (v : value) : Z :=
  match v with
  | VUnit => 0 | VBool _ => 1 | VInt _ => 2 | VFloat _ => 3 | VString _ => 4
  | VList _ => 5 | VBytes _ => 6 | VMap _ => 7 | VSet _ => 8 | VTuple _ _ => 9
  | VOptional _ => 10 | VResult _ => 11 | VObject _ => 12 | VOpaque _ => 13
  | VBoxedEnum _ => 14
  end.

Definition TAG_BY_ORDER : list Z := [11; 0; 1; 2; 3; 4; 13; 5; 6; 10; 7; 8; 9; 12; 12].

(** [TAG_BY_ORDER[self.variant_order() as usize]], [None] for the panic of an
    index out of bounds. *)
Definition type_tag (v : value) : option Z := TAG_BY_ORDER !! Z.to_nat (variant_order v).

(** Nesting depth. *)
Fixpoint depth (v : value) : nat :=
  match v with
  | VList l => S (foldr (fun x n => Nat.max (depth x) n) 0%nat l)
  | VSet l => S (foldr (fun x n => Nat.max (depth x) n) 0%nat l)
  | VMap m => S (foldr (fun e n => Nat.max (Nat.max (depth e.1) (depth e.2)) n) 0%nat m)
  | VTuple a b => S (Nat.max (depth a) (depth b))
  | VOptional (Some a) => S (depth a)
  | VResult (Ok a) => S (depth a)
  | VResult (Err a) => S (depth a)
  | _ => 1%nat
  end.

(** ** Equality, order and hash *)

Fixpoint list_eqb {A} (eqb : A -> A -> bool) (l1 l2 : list A) : bool :=
  match l1, l2 with
  | [], [] => true
  | x :: r1, y :: r2 => eqb x y && list_eqb eqb r1 r2
  | _, _ => false
  end.

(** [PartialEq for OrderedSet], on element lists. *)
Definition elems_eqb {A} (eqb : A -> A -> bool) (s1 s2 : list A) : bool :=
  (length s1 =? length s2)%nat && forallb (fun x => existsb (fun y => eqb y x) s2) s1.

(** [Ord for OrderedSet], on element lists. *)
Definition elems_cmp {A} (cmp : A -> A -> comparison) (s1 s2 : list A) : comparison :=
  lex_cmp cmp (sort_by cmp s1) (sort_by cmp s2).

Definition bool_cmp (a b : bool) : comparison :=
  match a, b with false, true => Lt | true, false => Gt | _, _ => Eq end.

Section Compare.
Context `{Callbacks} `{Floats} (reg : Registry).

(** [BoxedEnum::compare]: the shared glue decides, else the glue addresses. *)
Definition enum_cmp (a b : BoxedEnum) : comparison :=
  if cmp_glue a =? cmp_glue b then run_cmp_glue (cmp_glue a) (be_bytes a) (be_bytes b) ?= 0
  else cmp_glue a ?= cmp_glue b.

(** One level of [PartialEq for Value], with [rec] for the nested values. *)
Definition eqb_body (rec : value -> value -> bool) (a b : value) : bool :=
  match a, b with
  | VUnit, VUnit => true
  | VBool a, VBool b => Bool.eqb a b
  | VInt a, VInt b => a =? b
  | VFloat a, VFloat b => of_eqb a b
  | VString a, VString b => String.eqb a b
  | VList a, VList b => list_eqb rec a b
  | VBytes a, VBytes b => list_eqb Z.eqb a b
  | VMap a, VMap b => al_eqb rec rec a b
  | VSet a, VSet b => elems_eqb rec a b
  | VTuple a1 a2, VTuple b1 b2 => rec a1 b1 && rec a2 b2
  | VOptional (Some a), VOptional (Some b) => rec a b
  | VOptional None, VOptional None => true
  | VResult (Ok a), VResult (Ok b) => rec a b
  | VResult (Err a), VResult (Err b) => rec a b
  | VObject a, VObject b => object_eqb reg a b
  | VOpaque a, VOpaque b => list_eqb Z.eqb a b
  | VBoxedEnum a, VBoxedEnum b => match enum_cmp a b with Eq => true | _ => false end
  | _, _ => false
  end.

Fixpoint eqb_n (n : nat) (a b : value) : bool :=
  match n with O => false | S n => eqb_body (eqb_n n) a b end.

Definition value_eqb (a b : value) : bool := eqb_n (Nat.max (depth a) (depth b)) a b.

(** One level of [Ord for Value]. *)
Definition cmp_body (rec : value -> value -> comparison) (a b : value) : comparison :=
  match a, b with
  | VUnit, VUnit => Eq
  | VBool a, VBool b => bool_cmp a b
  | VInt a, VInt b => a ?= b
  | VFloat a, VFloat b => of_cmp a b
  | VString a, VString b => String.compare a b
  | VList a, VList b => lex_cmp rec a b
  | VBytes a, VBytes b => lex_cmp Z.compare a b
  | VMap a, VMap b => al_cmp rec rec a b
  | VSet a, VSet b => elems_cmp rec a b
  | VTuple a1 a2, VTuple b1 b2 => match rec a1 b1 with Eq => rec a2 b2 | c => c end
  | VOptional None, VOptional None => Eq
  | VOptional None, VOptional (Some _) => Lt
  | VOptional (Some _), VOptional None => Gt
  | VOptional (Some a), VOptional (Some b) => rec a b
  | VResult (Ok a), VResult (Ok b) => rec a b
  | VResult (Ok _), VResult (Err _) => Lt
  | VResult (Err _), VResult (Ok _) => Gt
  | VResult (Err a), VResult (Err b) => rec a b
  | VObject a, VObject b => object_cmp reg a b
  | VOpaque a, VOpaque b => lex_cmp Z.compare a b
  | VBoxedEnum a, VBoxedEnum b => enum_cmp a b
  | _, _ => variant_order a ?= variant_order b
  end.

Fixpoint cmp_n (n : nat) (a b : value) : comparison :=
  match n with O => Eq | S n => cmp_body (cmp_n n) a b end.

Definition value_cmp (a b : value) : comparison := cmp_n (Nat.max (depth a) (depth b)) a b.

(** [Hash for OrderedMap]: entry hashes from [DefaultHasher], added modulo 2^64. *)
Definition entries_hash {A} (entry_writes : A -> list hwrite) (l : list A) : list hwrite :=
  let combined :=
    foldl (fun acc e => (acc + default_hasher (entry_writes e)) mod 2 ^ 64) 0 l in
  [WLen (Z.of_nat (length l)); WU64 combined].

(** [Hash for Value]: the sequence of writes to the hasher. *)
Fixpoint hash_writes (v : value) : list hwrite :=
  WDiscriminant (variant_order v) ::
  match v with
  | VUnit => []
  | VBool b => [WBool b]
  | VInt i => [WI64 i]
  | VFloat f => of_hash f
  | VString s => [WStr s]
  | VList l => WLen (Z.of_nat (length l)) :: flat_map hash_writes l
  | VBytes bs => [WBytes bs]
  | VMap m => entries_hash (fun e => hash_writes e.1 ++ hash_writes e.2) m
  | VSet s => entries_hash hash_writes s
  | VTuple a b => hash_writes a ++ hash_writes b
  | VOptional None => [WDiscriminant 0]
  | VOptional (Some a) => WDiscriminant 1 :: hash_writes a
  | VResult (Ok a) => WDiscriminant 0 :: hash_writes a
  | VResult (Err a) => WDiscriminant 1 :: hash_writes a
  | VObject o => [WU32 (obj_type o); WU64 (structural_key reg o)]
  | VOpaque bs => [WBytes bs]
  | VBoxedEnum e => [WU64 (run_hash_glue (hash_glue e) (be_bytes e))]
  end.

End Compare.

(** * Laws of value equality, order and hash

    The nesting depth is enough fuel ([value_eqb_unfold], [value_cmp_unfold]); then,
    by induction on the depth, equality is an equivalence on well-formed values,
    the order is total, both agree where every class supplies an order, and equal
    values write the same words to a hasher. *)

(** ** Immediate components *)

Definition children (v : value) : list value :=
  match v with
  | VList l => l
  | VSet l => l
  | VMap m => m.*1 ++ m.*2
  | VTuple a b => [a; b]
  | VOptional (Some a) => [a]
  | VResult (Ok a) => [a]
  | VResult (Err a) => [a]
  | _ => []
  end.

Lemma foldr_max_elem {A} (f : A -> nat) x l :
  x ∈ l -> (f x <= foldr (fun y n => Nat.max (f y) n) 0 l)%nat.
Proof.
  induction l as [|y r IH]; [by rewrite list_elem_of_In|]. simpl.
  intros [->|Hin]%elem_of_cons; [lia|]. specialize (IH Hin). lia.
Qed.

Lemma depth_child v x : x ∈ children v -> (depth x < depth v)%nat.
Proof.
  destruct v as [| | | | |l| |m|l|a b|[a|]|[a|a]| | |]; simpl;
    try (by rewrite list_elem_of_In); try (intros ->%list_elem_of_singleton; lia).
  - intros Hin. pose proof (foldr_max_elem depth x l Hin). lia.
  - pose proof (foldr_max_elem (fun e : value * value => Nat.max (depth e.1) (depth e.2))) as Hm.
    rewrite elem_of_app, !list_elem_of_fmap.
    intros [(e & -> & Hin)|(e & -> & Hin)]; specialize (Hm e m Hin); simpl in Hm; lia.
  - intros Hin. pose proof (foldr_max_elem depth x l Hin). lia.
  - rewrite elem_of_cons, list_elem_of_singleton. intros [->| ->]; lia.
Qed.

Lemma depth_pos v : (1 <= depth v)%nat.
Proof. destruct v as [| | | | | | | | | |[?|]|[?|?]| | |]; simpl; lia. Qed.

Lemma map_children_l k v m : (k, v) ∈ m -> k ∈ children (VMap m).
Proof. intros Hin. apply elem_of_app. left. apply list_elem_of_fmap. by exists (k, v). Qed.

Lemma map_children_r k v m : (k, v) ∈ m -> v ∈ children (VMap m).
Proof. intros Hin. apply elem_of_app. right. apply list_elem_of_fmap. by exists (k, v). Qed.

(** ** Extensionality of the comparison combinators *)

Lemma list_eqb_ext {A} (f g : A -> A -> bool) l1 l2 :
  (forall x y, x ∈ l1 -> y ∈ l2 -> f x y = g x y) -> list_eqb f l1 l2 = list_eqb g l1 l2.
Proof.
  revert l2. induction l1 as [|x r IH]; intros [|y s] Hfg; simpl; try done.
  rewrite Hfg by set_solver. f_equal. apply IH. set_solver.
Qed.

Lemma lex_cmp_ext {A} (f g : A -> A -> comparison) l1 l2 :
  (forall x y, x ∈ l1 -> y ∈ l2 -> f x y = g x y) -> lex_cmp f l1 l2 = lex_cmp g l1 l2.
Proof.
  revert l2. induction l1 as [|x r IH]; intros [|y s] Hfg; simpl; try done.
  rewrite Hfg by set_solver. destruct (g x y); try done. apply IH. set_solver.
Qed.

Lemma insert_by_ext {A} (f g : A -> A -> comparison) x l :
  (forall y, y ∈ l -> f x y = g x y) -> insert_by f x l = insert_by g x l.
Proof.
  induction l as [|y r IH]; intros Hfg; simpl; [done|].
  rewrite Hfg by set_solver. rewrite IH by set_solver. done.
Qed.

Lemma sort_by_ext {A} (f g : A -> A -> comparison) l :
  (forall x y, x ∈ l -> y ∈ l -> f x y = g x y) -> sort_by f l = sort_by g l.
Proof.
  induction l as [|x r IH]; intros Hfg; simpl; [done|].
  rewrite IH by set_solver. apply insert_by_ext.
  intros y Hy. rewrite sort_by_perm in Hy. apply Hfg; set_solver.
Qed.

Lemma elems_cmp_ext {A} (f g : A -> A -> comparison) s1 s2 :
  (forall x y, (x ∈ s1 \/ x ∈ s2) -> (y ∈ s1 \/ y ∈ s2) -> f x y = g x y) ->
  elems_cmp f s1 s2 = elems_cmp g s1 s2.
Proof.
  intros Hfg. unfold elems_cmp.
  rewrite (sort_by_ext f g s1), (sort_by_ext f g s2) by (intros; apply Hfg; auto).
  apply lex_cmp_ext. intros x y Hx Hy. rewrite sort_by_perm in Hx, Hy. apply Hfg; auto.
Qed.

Lemma al_cmp_ext {K V} (f g : K -> K -> comparison) (f' g' : V -> V -> comparison) m1 m2 :
  (forall x y, (x ∈ m1 \/ x ∈ m2) -> (y ∈ m1 \/ y ∈ m2) ->
    f x.1 y.1 = g x.1 y.1 /\ f' x.2 y.2 = g' x.2 y.2) ->
  al_cmp f f' m1 m2 = al_cmp g g' m1 m2.
Proof.
  intros Hfg. unfold al_cmp.
  rewrite (sort_by_ext (fun a b => f a.1 b.1) (fun a b => g a.1 b.1) m1),
    (sort_by_ext (fun a b => f a.1 b.1) (fun a b => g a.1 b.1) m2) by (intros; apply Hfg; auto).
  apply lex_cmp_ext. intros x y Hx Hy. rewrite sort_by_perm in Hx, Hy.
  unfold pair_cmp. destruct (Hfg x y) as [-> ->]; auto.
Qed.

Lemma forallb_ext_in {A} (f g : A -> bool) l :
  (forall a, a ∈ l -> f a = g a) -> forallb f l = forallb g l.
Proof.
  induction l as [|a l IH]; intros Hfg; simpl; [done|]. rewrite Hfg, IH by set_solver. done.
Qed.

Lemma existsb_ext_in {A} (f g : A -> bool) l :
  (forall a, a ∈ l -> f a = g a) -> existsb f l = existsb g l.
Proof.
  induction l as [|a l IH]; intros Hfg; simpl; [done|]. rewrite Hfg, IH by set_solver. done.
Qed.

Lemma elems_eqb_ext {A} (f g : A -> A -> bool) s1 s2 :
  (forall x y, x ∈ s1 -> y ∈ s2 -> f y x = g y x) -> elems_eqb f s1 s2 = elems_eqb g s1 s2.
Proof.
  intros Hfg. unfold elems_eqb. f_equal. apply forallb_ext_in. intros x Hx.
  apply existsb_ext_in. intros y Hy. by apply Hfg.
Qed.

Lemma al_get_ext {K V} (f g : K -> K -> bool) k (l : list (K * V)) :
  (forall e, e ∈ l -> f e.1 k = g e.1 k) -> al_get f k l = al_get g k l.
Proof.
  induction l as [|[k' v'] r IH]; intros Hfg; simpl; [done|].
  pose proof (Hfg (k', v') ltac:(set_solver)) as E. simpl in E. rewrite E, IH by set_solver. done.
Qed.

Lemma al_eqb_ext {K V} (f g : K -> K -> bool) (f' g' : V -> V -> bool) m1 m2 :
  (forall x y, x ∈ m1 -> y ∈ m2 -> f y.1 x.1 = g y.1 x.1 /\ f' y.2 x.2 = g' y.2 x.2) ->
  al_eqb f f' m1 m2 = al_eqb g g' m1 m2.
Proof.
  intros Hfg. unfold al_eqb. f_equal. apply forallb_ext_in. intros [k v] Hx.
  rewrite (al_get_ext f g k m2) by (intros e He; by apply (Hfg (k, v))).
  destruct (al_get g k m2) as [ov|] eqn:E; [|done].
  apply al_get_in in E as (k' & Hin & _). by apply (Hfg (k, v) (k', ov)).
Qed.

(** ** Fuel *)

Section Fuel.
Context `{Callbacks} `{Floats} (reg : Registry).

Definition near (a b x : value) : Prop := x ∈ children a \/ x ∈ children b.

Lemma eqb_body_ext rec1 rec2 a b :
  (forall x y, near a b x -> near a b y -> rec1 x y = rec2 x y) ->
  eqb_body reg rec1 a b = eqb_body reg rec2 a b.
Proof.
  unfold near. intros Hr.
  destruct a as [| | | | |l1| |m1|s1|a1 a2|[a1|]|[a1|a1]| | |],
    b as [| | | | |l2| |m2|s2|b1 b2|[b1|]|[b1|b1]| | |]; simpl; try done;
    try (apply Hr; set_solver).
  - apply list_eqb_ext. intros x y Hx Hy. apply Hr; auto.
  - apply al_eqb_ext. intros [k v] [k' v'] Hx Hy. simpl.
    pose proof (map_children_l _ _ _ Hx). pose proof (map_children_r _ _ _ Hx).
    pose proof (map_children_l _ _ _ Hy). pose proof (map_children_r _ _ _ Hy).
    split; apply Hr; auto.
  - apply elems_eqb_ext. intros x y Hx Hy. apply Hr; auto.
  - rewrite !Hr by set_solver. done.
Qed.

Lemma cmp_body_ext rec1 rec2 a b :
  (forall x y, near a b x -> near a b y -> rec1 x y = rec2 x y) ->
  cmp_body reg rec1 a b = cmp_body reg rec2 a b.
Proof.
  unfold near. intros Hr.
  destruct a as [| | | | |l1| |m1|s1|a1 a2|[a1|]|[a1|a1]| | |],
    b as [| | | | |l2| |m2|s2|b1 b2|[b1|]|[b1|b1]| | |]; simpl; try done;
    try (apply Hr; set_solver).
  - apply lex_cmp_ext. intros x y Hx Hy. apply Hr; auto.
  - apply al_cmp_ext. intros [k v] [k' v'] Hx Hy. simpl.
    assert (forall k v, (k, v) ∈ m1 \/ (k, v) ∈ m2 ->
      (k ∈ children (VMap m1) \/ k ∈ children (VMap m2)) /\
      (v ∈ children (VMap m1) \/ v ∈ children (VMap m2))) as Hc.
    { intros k0 v0 [Hin|Hin]; pose proof (map_children_l _ _ _ Hin);
        pose proof (map_children_r _ _ _ Hin); auto. }
    apply Hc in Hx as [??]. apply Hc in Hy as [??]. split; apply Hr; auto.
  - apply elems_cmp_ext. intros x y Hx Hy. apply Hr; auto.
  - rewrite !Hr by set_solver. done.
Qed.

Lemma near_depth a b x n :
  near a b x -> (depth a <= S n)%nat -> (depth b <= S n)%nat -> (depth x <= n)%nat.
Proof. intros [Hx|Hx]; apply depth_child in Hx; lia. Qed.

(** Past the depth of both operands, more fuel changes nothing. *)
Lemma eqb_n_enough n k a b :
  (depth a <= n)%nat -> (depth b <= n)%nat -> (n <= k)%nat -> eqb_n reg k a b = eqb_n reg n a b.
Proof.
  revert k a b. induction n as [|n IH]; intros k a b Ha Hb Hk.
  { pose proof (depth_pos a). lia. }
  destruct k as [|k]; [lia|]. simpl. apply eqb_body_ext. intros x y Hx Hy.
  apply IH; [by eapply near_depth|by eapply near_depth|lia].
Qed.

Lemma cmp_n_enough n k a b :
  (depth a <= n)%nat -> (depth b <= n)%nat -> (n <= k)%nat -> cmp_n reg k a b = cmp_n reg n a b.
Proof.
  revert k a b. induction n as [|n IH]; intros k a b Ha Hb Hk.
  { pose proof (depth_pos a). lia. }
  destruct k as [|k]; [lia|]. simpl. apply cmp_body_ext. intros x y Hx Hy.
  apply IH; [by eapply near_depth|by eapply near_depth|lia].
Qed.

(** The public functions satisfy the equations of the source. *)
Lemma value_eqb_unfold a b : value_eqb reg a b = eqb_body reg (value_eqb reg) a b.
Proof.
  unfold value_eqb at 1. destruct (Nat.max (depth a) (depth b)) as [|n] eqn:E.
  { pose proof (depth_pos a). lia. }
  simpl. apply eqb_body_ext. intros x y Hx Hy. unfold value_eqb.
  assert (depth x <= n)%nat by (eapply near_depth; [done|lia..]).
  assert (depth y <= n)%nat by (eapply near_depth; [done|lia..]).
  apply eqb_n_enough; lia.
Qed.

Lemma value_cmp_unfold a b : value_cmp reg a b = cmp_body reg (value_cmp reg) a b.
Proof.
  unfold value_cmp at 1. destruct (Nat.max (depth a) (depth b)) as [|n] eqn:E.
  { pose proof (depth_pos a). lia. }
  simpl. apply cmp_body_ext. intros x y Hx Hy. unfold value_cmp.
  assert (depth x <= n)%nat by (eapply near_depth; [done|lia..]).
  assert (depth y <= n)%nat by (eapply near_depth; [done|lia..]).
  apply cmp_n_enough; lia.
Qed.

End Fuel.

(** ** Laws of the combinators *)

Lemma list_eqb_equiv {A} (P : A -> Prop) f : equiv_on P f -> equiv_on (Forall P) (list_eqb f).
Proof.
  intros Hf. split.
  - induction 1; simpl; [done|]. by rewrite (eqv_refl _ _ Hf).
  - intros l1 l2 H1. revert l2. induction H1 as [|x r Hx Hr IH]; intros [|y s] H2; simpl; try done.
    inversion H2; subst. intros [E1 E2]%andb_true_iff. apply andb_true_iff.
    split; [by apply (eqv_sym _ _ Hf)|by apply IH].
  - intros l1 l2 l3 H1. revert l2 l3. induction H1 as [|x r Hx Hr IH];
      intros [|y s] [|z t] H2 H3; simpl; try done.
    inversion H2; subst. inversion H3; subst.
    intros [E1 E2]%andb_true_iff [E3 E4]%andb_true_iff. apply andb_true_iff.
    split; [by apply (eqv_trans _ _ Hf x y z)|by apply (IH s t)].
Qed.

Lemma list_eqb_agree {A} (P : A -> Prop) f c :
  agree_on P f c -> agree_on (Forall P) (list_eqb f) (lex_cmp c).
Proof.
  intros Hfc l1 l2 H1. revert l2. induction H1 as [|x r Hx Hr IH]; intros [|y s] H2; simpl; try done.
  inversion H2; subst. rewrite andb_true_iff, IH, (Hfc x y) by done.
  split; [by intros [-> ?]|]. by destruct (c x y).
Qed.

Definition as_map {A} (l : list A) : list (A * unit) := (fun x => (x, tt)) <$> l.

Lemma al_get_as_map {A} (f : A -> A -> bool) x l :
  al_get f x (as_map l) = if existsb (fun y => f y x) l then Some tt else None.
Proof. induction l as [|y r IH]; simpl; [done|]. by destruct (f y x). Qed.

Lemma elems_eqb_al {A} (f : A -> A -> bool) s1 s2 :
  elems_eqb f s1 s2 = al_eqb f (fun _ _ => true) (as_map s1) (as_map s2).
Proof.
  unfold elems_eqb, al_eqb, as_map. rewrite !length_fmap. f_equal.
  induction s1 as [|x r IH]; csimpl; [done|]. rewrite <- IH. f_equal.
  change ((fun x => (x, tt)) <$> s2) with (as_map s2). rewrite al_get_as_map.
  by destruct (existsb _ s2).
Qed.

Lemma insert_by_as_map {A} (c : A -> A -> comparison) x l :
  insert_by (fun a b : A * unit => c a.1 b.1) (x, tt) (as_map l) = as_map (insert_by c x l).
Proof. induction l as [|y r IH]; csimpl; [done|]. destruct (c x y); csimpl; [done..|]. by rewrite <- IH. Qed.

Lemma sort_by_as_map {A} (c : A -> A -> comparison) l :
  sort_by (fun a b : A * unit => c a.1 b.1) (as_map l) = as_map (sort_by c l).
Proof. induction l as [|x r IH]; csimpl; [done|]. by rewrite <- insert_by_as_map, <- IH. Qed.

Lemma elems_cmp_al {A} (c : A -> A -> comparison) s1 s2 :
  elems_cmp c s1 s2 = al_cmp c (fun _ _ => Eq) (as_map s1) (as_map s2).
Proof.
  unfold elems_cmp, al_cmp. rewrite !sort_by_as_map.
  generalize (sort_by c s1) (sort_by c s2). intros l1.
  induction l1 as [|x r IH]; intros [|y s]; csimpl; try done.
  unfold pair_cmp. simpl. destruct (c x y); done.
Qed.

Lemma as_map_in {A} (P : A -> Prop) l :
  entries_in P (fun _ : unit => True) (as_map l) <-> Forall P l.
Proof.
  unfold entries_in, as_map. rewrite Forall_fmap. apply Forall_iff. simpl. intuition.
Qed.

Lemma unit_equiv : equiv_on (fun _ : unit => True) (fun _ _ => true).
Proof. by split. Qed.

Lemma unit_ord : ord_on (fun _ : unit => True) (fun _ _ => Eq).
Proof. by split. Qed.

Lemma unit_agree : agree_on (fun _ : unit => True) (fun _ _ => true) (fun _ _ => Eq).
Proof. by intros [] []. Qed.

Lemma Zeqb_equiv : equiv_on (fun _ : Z => True) Z.eqb.
Proof. split; intros *; rewrite ?Z.eqb_eq; congruence. Qed.

Lemma Zcompare_ord : ord_on (fun _ : Z => True) Z.compare.
Proof.
  split; intros *.
  - intros _. apply Z.compare_refl.
  - intros _ _. apply Z.compare_antisym.
  - intros _ _ _ ->%Z.compare_eq. done.
  - rewrite !Z.compare_lt_iff. lia.
Qed.

Lemma Zcompare_agree : agree_on (fun _ : Z => True) Z.eqb Z.compare.
Proof. intros a b _ _. by rewrite Z.eqb_eq, Z.compare_eq_iff. Qed.

Lemma Forall_true {A} (l : list A) : Forall (fun _ => True) l.
Proof. by apply Forall_forall. Qed.

(** ** Strings *)

Lemma ascii_compare_N a b : Ascii.compare a b = N.compare (Ascii.N_of_ascii a) (Ascii.N_of_ascii b).
Proof. reflexivity. Qed.

Lemma string_compare_refl s : String.compare s s = Eq.
Proof. induction s as [|x s IH]; simpl; [done|]. by rewrite ascii_compare_N, N.compare_refl. Qed.

Lemma string_ord : ord_on (fun _ : string => True) String.compare.
Proof.
  split.
  - intros s _. apply string_compare_refl.
  - intros a b _ _. rewrite (String.compare_antisym a b). by destruct (String.compare b a).
  - intros a b c _ _ _ ->%String.compare_eq_iff. done.
  - intros a. induction a as [|x a IH]; intros [|y b] [|z c] _ _ _; simpl; try done.
    rewrite !ascii_compare_N.
    destruct (N.compare_spec (Ascii.N_of_ascii x) (Ascii.N_of_ascii y)) as [E1|E1|E1]; try done;
      destruct (N.compare_spec (Ascii.N_of_ascii y) (Ascii.N_of_ascii z)) as [E2|E2|E2]; try done; intros.
    + rewrite E1, E2, N.compare_refl. by apply (IH b c).
    + rewrite E1. by apply N.compare_lt_iff in E2 as ->.
    + rewrite <- E2. by apply N.compare_lt_iff in E1 as ->.
    + assert (Ascii.N_of_ascii x < Ascii.N_of_ascii z)%N as ->%N.compare_lt_iff by lia. done.
Qed.

Lemma string_equiv : equiv_on (fun _ : string => True) String.eqb.
Proof. split; intros *; rewrite ?String.eqb_eq; congruence. Qed.

Lemma bool_equiv : equiv_on (fun _ : bool => True) Bool.eqb.
Proof. split; intros *; rewrite ?Bool.eqb_true_iff; congruence. Qed.

Lemma bool_ord : ord_on (fun _ : bool => True) bool_cmp.
Proof. split; intros a *; repeat match goal with b : bool |- _ => destruct b end; done. Qed.

Lemma string_agree : agree_on (fun _ : string => True) String.eqb String.compare.
Proof.
  intros a b _ _. rewrite String.eqb_eq. split; [|apply String.compare_eq_iff].
  intros ->. apply string_compare_refl.
Qed.

(** ** Laws of optional, result, tuple and enum payloads *)

Lemma Forall2_flat_map {A B C} (R : A -> B -> Prop) (f : A -> list C) (g : B -> list C) l1 l2 :
  (forall x y, R x y -> f x = g y) -> Forall2 R l1 l2 -> flat_map f l1 = flat_map g l2.
Proof. intros HR. induction 1 as [|x y r s E _ IH]; simpl; [done|]. by rewrite (HR x y E), IH. Qed.

Section Payloads.
Context {A : Type} (Q : A -> Prop) (eqb : A -> A -> bool) (cmp : A -> A -> comparison).
Context (He : equiv_on Q eqb) (Ho : ord_on Q cmp).

Definition option_ok (o : option A) : Prop := match o with Some a => Q a | None => True end.
Definition result_ok (r : result A A) : Prop := match r with Ok a => Q a | Err a => Q a end.

Definition option_eqb (o1 o2 : option A) : bool :=
  match o1, o2 with Some a, Some b => eqb a b | None, None => true | _, _ => false end.

Definition option_cmp (o1 o2 : option A) : comparison :=
  match o1, o2 with
  | None, None => Eq | None, Some _ => Lt | Some _, None => Gt | Some a, Some b => cmp a b
  end.

Definition result_eqb (r1 r2 : result A A) : bool :=
  match r1, r2 with Ok a, Ok b => eqb a b | Err a, Err b => eqb a b | _, _ => false end.

Definition result_cmp (r1 r2 : result A A) : comparison :=
  match r1, r2 with
  | Ok a, Ok b => cmp a b | Ok _, Err _ => Lt | Err _, Ok _ => Gt | Err a, Err b => cmp a b
  end.

Lemma option_eqb_equiv : equiv_on option_ok option_eqb.
Proof.
  destruct He as [Hr Hs Ht]. split.
  - intros [a|]; simpl; auto.
  - intros [a|] [b|]; simpl; auto.
  - intros [a|] [b|] [c|]; simpl; eauto; done.
Qed.

Lemma option_cmp_ord : ord_on option_ok option_cmp.
Proof.
  destruct Ho as [Hr Hs Hl Ht]. split.
  - intros [a|]; simpl; auto.
  - intros [a|] [b|]; simpl; auto.
  - intros [a|] [b|] [c|]; simpl; eauto; done.
  - intros [a|] [b|] [c|]; simpl; eauto; done.
Qed.

Lemma result_eqb_equiv : equiv_on result_ok result_eqb.
Proof.
  destruct He as [Hr Hs Ht]. split.
  - intros [a|a]; simpl; auto.
  - intros [a|a] [b|b]; simpl; auto; done.
  - intros [a|a] [b|b] [c|c]; simpl; eauto; done.
Qed.

Lemma result_cmp_ord : ord_on result_ok result_cmp.
Proof.
  destruct Ho as [Hr Hs Hl Ht]. split.
  - intros [a|a]; simpl; auto.
  - intros [a|a] [b|b]; simpl; auto.
  - intros [a|a] [b|b] [c|c]; simpl; eauto; done.
  - intros [a|a] [b|b] [c|c]; simpl; eauto; done.
Qed.

Lemma pair_eqb_equiv :
  equiv_on (fun p => Q p.1 /\ Q p.2) (fun p q : A * A => eqb p.1 q.1 && eqb p.2 q.2).
Proof.
  destruct He as [Hr Hs Ht]. split.
  - intros [a b] [??]. apply andb_true_iff. auto.
  - intros [a b] [c d] [??] [??] [??]%andb_true_iff. apply andb_true_iff. auto.
  - intros [a b] [c d] [e f] [??] [??] [??] [??]%andb_true_iff [??]%andb_true_iff.
    apply andb_true_iff. simpl in *. eauto.
Qed.

End Payloads.

Section EnumLaws.
Context `{CallbackLaws reg}.

Lemma enum_cmp_ord : ord_on (fun _ => True) enum_cmp.
Proof.
  apply (ord_on_by_class cmp_glue).
  { intros a b E%Z.eqb_neq. unfold enum_cmp. by rewrite E. }
  intros w _. eapply (ord_on_impl (fun a => True /\ cmp_glue a = cmp_glue w)); [done|].
  pose proof (cl_glue (cmp_glue w)) as Hg.
  assert (Hw : forall a b, cmp_glue a = cmp_glue w -> cmp_glue b = cmp_glue w ->
    enum_cmp a b = (run_cmp_glue (cmp_glue w) (be_bytes a) (be_bytes b) ?= 0)).
  { intros a b Ha Hb. unfold enum_cmp. by rewrite Ha, Hb, Z.eqb_refl. }
  destruct Hg as [Hr Hs Hl Ht]. split; intros a *; intros; destruct_and?; rewrite !Hw in * by done;
    eauto.
Qed.

Definition enum_eqb (a b : BoxedEnum) : bool := match enum_cmp a b with Eq => true | _ => false end.

Lemma enum_eqb_equiv : equiv_on (fun _ => True) enum_eqb.
Proof.
  pose proof enum_cmp_ord as Ho.
  assert (Hiff : forall a b, enum_eqb a b = true <-> enum_cmp a b = Eq).
  { intros a b. unfold enum_eqb. by destruct (enum_cmp a b). }
  split; intros a *; rewrite ?Hiff.
  - intros _. by apply (ord_refl _ _ Ho).
  - intros _ _ E. by rewrite (ord_opp _ _ Ho a b), E.
  - intros _ _ _ E1 E2. by rewrite (ord_eq_l _ _ Ho a b c).
Qed.

Lemma enum_cmp_glue a b : enum_cmp a b = Eq ->
  cmp_glue a = cmp_glue b /\ run_cmp_glue (cmp_glue a) (be_bytes a) (be_bytes b) = 0.
Proof.
  unfold enum_cmp. destruct (cmp_glue a =? cmp_glue b) eqn:E.
  - apply Z.eqb_eq in E. by intros ?%Z.compare_eq.
  - apply Z.eqb_neq in E. by intros ?%Z.compare_eq.
Qed.

End EnumLaws.
