(* ===== verification/ValueProps.v ===== *)
(** * Properties of value equality, order and hash

    Well-formed values, and by induction on the nesting depth: equality is an
    equivalence, the order is total, the two agree where classes supply an order,
    and equal values hash alike.  Together these are the contract [OrderedMap]
    asks of its keys, discharged here as the instance [value_key_laws]: a map
    keyed by values is the abstract map of [OrderedMapProps]. *)

From S2P Require Import Prelude AssocList OrderedMap OrderedMapRep OrderedMapProps Object Value.

(** [OrderedFloat] orders floats totally (all NaNs equal), with [Eq] and [Hash] to
    match. *)
Class FloatLaws `{Floats} : Prop := {
  of_equiv : equiv_on (fun _ => True) of_eqb;
  of_ord : ord_on (fun _ => True) of_cmp;
  of_agree : agree_on (fun _ => True) of_eqb of_cmp;
  of_hash_eq a b : of_eqb a b = true -> of_hash a = of_hash b;
}.

Section Wf.
Context `{Callbacks} `{Floats} (reg : Registry).

(** The invariants of one node: containers hold distinct keys, a payload pointer is
    an address, and an enum's hash glue is the one emitted with its comparison. *)
Definition node_ok (v : value) : Prop :=
  match v with
  | VMap m => keys_distinct (value_eqb reg) m
  | VSet s => keys_distinct (value_eqb reg) (as_map s)
  | VObject o => is_u64 (obj_ptr o)
  | VBoxedEnum e => hash_glue e = hash_glue_of (cmp_glue e)
  | _ => True
  end.

Inductive wf : value -> Prop :=
| wf_intro v : node_ok v -> (forall x, x ∈ children v -> wf x) -> wf v.

(** Both, as a check that runs. *)
Fixpoint distinctb {V} (l : list (value * V)) : bool :=
  match l with
  | [] => true
  | (k, _) :: r => forallb (fun e => negb (value_eqb reg k e.1)) r && distinctb r
  end.

Definition node_okb (v : value) : bool :=
  match v with
  | VMap m => distinctb m
  | VSet s => distinctb (as_map s)
  | VObject o => in_range 0 u64_max (obj_ptr o)
  | VBoxedEnum e => hash_glue e =? hash_glue_of (cmp_glue e)
  | _ => true
  end.

Fixpoint wfb (n : nat) (v : value) : bool :=
  match n with O => false | S n => node_okb v && forallb (wfb n) (children v) end.

Lemma distinctb_sound {V} (l : list (value * V)) : distinctb l = true -> keys_distinct (value_eqb reg) l.
Proof.
  induction l as [|[k v] r IH]; simpl; [done|]. intros [Hf Hr]%andb_true_iff. split; [|by apply IH].
  apply Forall_forall. intros e He. rewrite forallb_forall in Hf.
  by apply list_elem_of_In, Hf, negb_true_iff in He.
Qed.

Lemma wfb_sound n v : wfb n v = true -> wf v.
Proof.
  revert v. induction n as [|n IH]; intros v; simpl; [done|]. intros [Hn Hc]%andb_true_iff.
  rewrite forallb_forall in Hc. constructor.
  - destruct v; simpl in *; try done; try by apply distinctb_sound.
    + by apply in_range_true.
    + by apply Z.eqb_eq.
  - intros x Hx%list_elem_of_In. auto.
Qed.

(** Every object inside belongs to a type whose order separates its instances. *)
Inductive all_orderable : value -> Prop :=
| ao_intro v :
    match v with VObject o => orderable (reg := reg) o | _ => True end ->
    (forall x, x ∈ children v -> all_orderable x) -> all_orderable v.

Fixpoint orderableb (n : nat) (v : value) : bool :=
  match n with
  | O => false
  | S n =>
      match v with
      | VObject o => negb (is_some (cb_equals (keying reg o))) || is_some (cb_compare (keying reg o))
      | _ => true
      end && forallb (orderableb n) (children v)
  end.

Lemma orderableb_sound n v : orderableb n v = true -> all_orderable v.
Proof.
  revert v. induction n as [|n IH]; intros v; simpl; [done|]. intros [Hn Hc]%andb_true_iff.
  rewrite forallb_forall in Hc. constructor.
  - destruct v; try done. unfold orderable.
    destruct (cb_equals _), (cb_compare _); simpl in Hn; eauto; done.
  - intros x Hx%list_elem_of_In. auto.
Qed.

(** A well-formed node over children in [Q]. *)
Definition node_in (Q : value -> Prop) (v : value) : Prop := node_ok v /\ Forall Q (children v).

Lemma wf_node_in n v :
  wf v -> (depth v <= S n)%nat -> node_in (fun x => wf x /\ (depth x <= n)%nat) v.
Proof.
  intros [v' Hn Hc] Hd. split; [done|]. apply Forall_forall. intros x Hx.
  split; [by apply Hc|]. apply depth_child in Hx. lia.
Qed.

Lemma node_in_map Q m :
  node_in Q (VMap m) -> entries_in Q Q m /\ keys_distinct (value_eqb reg) m.
Proof.
  intros [Hd Hc]. split; [|done]. simpl in Hc. apply Forall_app in Hc as [H1 H2].
  rewrite Forall_fmap in H1, H2. apply Forall_and. by split.
Qed.

Lemma node_in_set Q s :
  node_in Q (VSet s) ->
  entries_in Q (fun _ => True) (as_map s) /\ keys_distinct (value_eqb reg) (as_map s).
Proof. intros [Hd Hc]. split; [by apply as_map_in|done]. Qed.

End Wf.

(** ** Laws, one level at a time *)

Section Laws.
Context `{CallbackLaws reg} `{FloatLaws}.
Implicit Types (Q : value -> Prop).

Lemma eqb_body_variant rec a b :
  eqb_body reg rec a b = true -> variant_order a = variant_order b.
Proof. destruct a, b; simpl; try done; repeat case_match; done. Qed.

Lemma cmp_body_variant rec a b :
  variant_order a <> variant_order b ->
  cmp_body reg rec a b = (variant_order a ?= variant_order b).
Proof. destruct a, b; simpl; try done; repeat case_match; done. Qed.

(** Split a class of values by its constructor. *)
Ltac by_ctor :=
  let v := fresh "v" in let Hn := fresh "Hn" in let Hk := fresh "Hk" in
  intros v [Hn Hk]; destruct v; simpl in Hk; try discriminate Hk.

Lemma set_eqb_equiv Q :
  equiv_on Q (value_eqb reg) ->
  equiv_on (fun s => node_in reg Q (VSet s)) (elems_eqb (value_eqb reg)).
Proof.
  intros He.
  pose proof (al_eqb_equiv _ _ _ _ He unit_equiv) as [Hr Hs Ht].
  split; intros s *; rewrite !elems_eqb_al.
  - intros ?%node_in_set. by apply Hr.
  - intros ?%node_in_set ?%node_in_set. by apply Hs.
  - intros ?%node_in_set ?%node_in_set ?%node_in_set. by apply Ht.
Qed.

Lemma node_in_option Q o : node_in reg Q (VOptional o) -> option_ok Q o.
Proof. intros [_ Hc]. destruct o; [|done]. by inversion Hc. Qed.

Lemma node_in_result Q r : node_in reg Q (VResult r) -> result_ok Q r.
Proof. intros [_ Hc]. by destruct r; inversion Hc. Qed.

Lemma node_in_tuple Q a b : node_in reg Q (VTuple a b) -> Q a /\ Q b.
Proof. intros [_ Hc]. inversion Hc as [|? ? ? Hc2]; subst. by inversion Hc2. Qed.

Lemma node_in_list Q l : node_in reg Q (VList l) -> Forall Q l.
Proof. by intros [_ Hc]. Qed.

Hint Resolve node_in_option node_in_result node_in_tuple node_in_list node_in_map node_in_set
  Forall_true : mux.

Lemma eqb_body_equiv Q :
  equiv_on Q (value_eqb reg) -> equiv_on (node_in reg Q) (eqb_body reg (value_eqb reg)).
Proof.
  intros He. apply (equiv_on_by_class variant_order); [apply eqb_body_variant|]. intros w Hw.
  pose proof (list_eqb_equiv (fun _ => True) _ Zeqb_equiv) as Hbytes.
  destruct w.
  - apply (equiv_on_ctor (fun _ => VUnit) (fun _ => True) _ _ _ unit_equiv); [done|by_ctor].
    by exists tt.
  - apply (equiv_on_ctor VBool (fun _ => True) _ _ _ bool_equiv); [done|by_ctor; eauto].
  - apply (equiv_on_ctor VInt (fun _ => True) _ _ _ Zeqb_equiv); [done|by_ctor; eauto].
  - apply (equiv_on_ctor VFloat (fun _ => True) _ _ _ of_equiv); [done|by_ctor; eauto].
  - apply (equiv_on_ctor VString (fun _ => True) _ _ _ string_equiv); [done|by_ctor; eauto].
  - apply (equiv_on_ctor VList _ _ _ _ (list_eqb_equiv _ _ He)); [done|by_ctor; eauto with mux].
  - apply (equiv_on_ctor VBytes _ _ _ _ Hbytes); [done|by_ctor; eauto with mux].
  - apply (equiv_on_ctor VMap _ _ _ _ (al_eqb_equiv _ _ _ _ He He)); [done|by_ctor; eauto with mux].
  - apply (equiv_on_ctor VSet _ _ _ _ (set_eqb_equiv Q He)); [done|by_ctor; eauto with mux].
  - apply (equiv_on_ctor (fun p => VTuple p.1 p.2) _ _ _ _ (pair_eqb_equiv Q _ He)); [done|by_ctor].
    eexists (_, _). eauto with mux.
  - apply (equiv_on_ctor VOptional _ _ _ _ (option_eqb_equiv Q _ He)); [|by_ctor; eauto with mux].
    by intros [?|] [?|].
  - apply (equiv_on_ctor VResult _ _ _ _ (result_eqb_equiv Q _ He)); [|by_ctor; eauto with mux].
    by intros [?|?] [?|?].
  - apply (equiv_on_ctor VObject _ _ _ _ object_eqb_equiv); [done|by_ctor; eauto].
  - apply (equiv_on_ctor VOpaque _ _ _ _ Hbytes); [done|by_ctor; eauto with mux].
  - apply (equiv_on_ctor VBoxedEnum _ _ _ _ enum_eqb_equiv); [done|by_ctor; eauto].
Qed.

Lemma value_eqb_equiv : equiv_on (wf reg) (value_eqb reg).
Proof.
  assert (Hn : forall n, equiv_on (fun v => wf reg v /\ (depth v <= n)%nat) (value_eqb reg)).
  { induction n as [|n IH].
    - split; intros a *; intros [_ Ha]; pose proof (depth_pos a); lia.
    - apply eqb_body_equiv in IH.
      eapply (equiv_on_ctor (fun v => v)); [exact IH|apply value_eqb_unfold|].
      intros a [Ha Hd]. exists a. split; [done|]. by apply wf_node_in. }
  split; intros a *.
  - intros Ha. by apply (eqv_refl _ _ (Hn (depth a))).
  - intros Ha Hb. apply (eqv_sym _ _ (Hn (Nat.max (depth a) (depth b)))); split; try done; lia.
  - intros Ha Hb Hc.
    apply (eqv_trans _ _ (Hn (Nat.max (depth a) (Nat.max (depth b) (depth c))))); split; try done; lia.
Qed.

(** ** Order *)

Lemma cmp_body_ord Q :
  ord_on Q (value_cmp reg) -> ord_on (node_in reg Q) (cmp_body reg (value_cmp reg)).
Proof.
  intros Ho. apply (ord_on_by_class variant_order); [apply cmp_body_variant|]. intros w Hw.
  pose proof (lex_cmp_ord (fun _ => True) _ Zcompare_ord) as Hbytes.
  pose proof (al_cmp_ord _ _ _ _ Ho Ho) as Hmap.
  assert (Hset : ord_on (Forall Q) (elems_cmp (value_cmp reg))).
  { apply lex_cmp_ord in Ho as Hl. apply (ord_on_proj (sort_by (value_cmp reg))) in Hl.
    eapply ord_on_impl; [|exact Hl]. intros s Hs. by apply sort_by_Forall. }
  destruct w.
  - apply (ord_on_ctor (fun _ => VUnit) (fun _ => True) _ _ _ unit_ord); [done|by_ctor].
    by exists tt.
  - apply (ord_on_ctor VBool (fun _ => True) _ _ _ bool_ord); [done|by_ctor; eauto].
  - apply (ord_on_ctor VInt (fun _ => True) _ _ _ Zcompare_ord); [done|by_ctor; eauto].
  - apply (ord_on_ctor VFloat (fun _ => True) _ _ _ of_ord); [done|by_ctor; eauto].
  - apply (ord_on_ctor VString (fun _ => True) _ _ _ string_ord); [done|by_ctor; eauto].
  - apply (ord_on_ctor VList _ _ _ _ (lex_cmp_ord _ _ Ho)); [done|by_ctor; eauto with mux].
  - apply (ord_on_ctor VBytes _ _ _ _ Hbytes); [done|by_ctor; eauto with mux].
  - apply (ord_on_ctor VMap _ _ _ _ Hmap); [done|by_ctor; eexists; split; [done|]].
    by apply node_in_map in Hn as [? _].
  - apply (ord_on_ctor VSet _ _ _ _ Hset); [done|by_ctor; eexists; split; [done|]]. apply Hn.
  - apply (ord_on_ctor (fun p => VTuple p.1 p.2) _ _ _ _ (pair_cmp_ord _ _ _ _ Ho Ho));
      [done|by_ctor]. eexists (_, _). eauto with mux.
  - apply (ord_on_ctor VOptional _ _ _ _ (option_cmp_ord Q _ Ho)); [|by_ctor; eauto with mux].
    by intros [?|] [?|].
  - apply (ord_on_ctor VResult _ _ _ _ (result_cmp_ord Q _ Ho)); [|by_ctor; eauto with mux].
    by intros [?|?] [?|?].
  - apply (ord_on_ctor VObject _ _ _ _ object_cmp_ord); [done|by_ctor; eauto].
  - apply (ord_on_ctor VOpaque _ _ _ _ Hbytes); [done|by_ctor; eauto with mux].
  - apply (ord_on_ctor VBoxedEnum _ _ _ _ enum_cmp_ord); [done|by_ctor; eauto].
Qed.

Lemma value_cmp_ord : ord_on (wf reg) (value_cmp reg).
Proof.
  assert (Hn : forall n, ord_on (fun v => wf reg v /\ (depth v <= n)%nat) (value_cmp reg)).
  { induction n as [|n IH].
    - split; intros a *; intros [_ Ha]; pose proof (depth_pos a); lia.
    - apply cmp_body_ord in IH.
      eapply (ord_on_ctor (fun v => v)); [exact IH|apply value_cmp_unfold|].
      intros a [Ha Hd]. exists a. split; [done|]. by apply wf_node_in. }
  split; intros a *.
  - intros Ha. by apply (ord_refl _ _ (Hn (depth a))).
  - intros Ha Hb. apply (ord_opp _ _ (Hn (Nat.max (depth a) (depth b)))); split; try done; lia.
  - intros Ha Hb Hc.
    apply (ord_eq_l _ _ (Hn (Nat.max (depth a) (Nat.max (depth b) (depth c))))); split; try done; lia.
  - intros Ha Hb Hc.
    apply (ord_lt_trans _ _ (Hn (Nat.max (depth a) (Nat.max (depth b) (depth c))))); split; try done; lia.
Qed.

(** ** Equality agrees with the order *)

Definition object_orderable (v : value) : Prop :=
  match v with VObject o => orderable (reg := reg) o | _ => True end.

Lemma agree_body Q :
  equiv_on Q (value_eqb reg) -> ord_on Q (value_cmp reg) ->
  agree_on Q (value_eqb reg) (value_cmp reg) ->
  agree_on (fun v => node_in reg Q v /\ object_orderable v)
    (eqb_body reg (value_eqb reg)) (cmp_body reg (value_cmp reg)).
Proof.
  intros He Ho Ha a b [Hna Hoa] [Hnb Hob].
  destruct (decide (variant_order a = variant_order b)) as [E|E].
  2: { rewrite cmp_body_variant by done. split; [by intros ?%eqb_body_variant|].
       by intros ?%Z.compare_eq. }
  destruct a, b; simpl in E; try discriminate E; clear E; simpl eqb_body; simpl cmp_body.
  - done.
  - by destruct b, b0.
  - by apply Zcompare_agree.
  - by apply of_agree.
  - by apply string_agree.
  - apply (list_eqb_agree Q); eauto with mux.
  - apply (list_eqb_agree (fun _ => True) _ _ Zcompare_agree); apply Forall_true.
  - apply (al_cmp_eqb _ _ _ _ _ _ He He Ho Ha Ha); eauto with mux.
  - rewrite elems_eqb_al, elems_cmp_al.
    apply (al_cmp_eqb _ _ _ _ _ _ He unit_equiv Ho Ha unit_agree); eauto with mux.
  - apply node_in_tuple in Hna as [??], Hnb as [??]. rewrite andb_true_iff, !(Ha _ _) by done.
    destruct (value_cmp reg a1 b1); naive_solver.
  - apply node_in_option in Hna, Hnb. destruct o, o0; simpl in *; try done. by apply Ha.
  - apply node_in_result in Hna, Hnb. destruct r, r0; simpl in *; try done; by apply Ha.
  - apply object_agree; split; try done; [apply Hna|apply Hnb].
  - apply (list_eqb_agree (fun _ => True) _ _ Zcompare_agree); apply Forall_true.
  - by destruct (enum_cmp e e0).
Qed.

Lemma value_agree :
  agree_on (fun v => wf reg v /\ all_orderable reg v) (value_eqb reg) (value_cmp reg).
Proof.
  pose proof value_eqb_equiv as He. pose proof value_cmp_ord as Ho.
  assert (Hn : forall n, agree_on (fun v => wf reg v /\ all_orderable reg v /\ (depth v <= n)%nat)
                 (value_eqb reg) (value_cmp reg)).
  { induction n as [|n IH].
    - intros a b (_ & _ & Hd). pose proof (depth_pos a). lia.
    - intros a b Ha Hb. rewrite value_eqb_unfold, value_cmp_unfold.
      assert (Hnode : forall v, wf reg v /\ all_orderable reg v /\ (depth v <= S n)%nat ->
        node_in reg (fun v => wf reg v /\ all_orderable reg v /\ (depth v <= n)%nat) v /\
        object_orderable v).
      { intros v (Hw & Hao & Hd). destruct Hw as [v Hn Hc].
        inversion Hao as [v' Hobj Hc']; subst v'. split; [|done]. split; [done|].
        apply Forall_forall. intros x Hx. split_and!; [by apply Hc|by apply Hc'|].
        apply depth_child in Hx. lia. }
      eapply agree_body; [| |exact IH|by apply Hnode|by apply Hnode].
      + eapply equiv_on_impl; [|exact He]. tauto.
      + eapply ord_on_impl; [|exact Ho]. tauto. }
  intros a b [??] [??]. apply (Hn (Nat.max (depth a) (depth b))); split_and!; try done; lia.
Qed.

(** ** Equal values hash alike *)

Definition hash_sum {A} (w : A -> list hwrite) (l : list A) : Z :=
  foldr (fun e acc => default_hasher (w e) + acc) 0 l.

Lemma entries_hash_sum {A} (w : A -> list hwrite) l :
  entries_hash w l = [WLen (Z.of_nat (length l)); WU64 (hash_sum w l mod 2 ^ 64)].
Proof.
  unfold entries_hash. do 3 f_equal.
  assert (Hs : forall acc, foldl (fun acc e => (acc + default_hasher (w e)) mod 2 ^ 64) acc l mod 2 ^ 64
    = (acc + hash_sum w l) mod 2 ^ 64).
  { induction l as [|x l IH]; intros acc; simpl; [by rewrite Z.add_0_r|].
    rewrite IH, Zplus_mod_idemp_l. f_equal. lia. }
  rewrite <- (Z.add_0_l (hash_sum w l)), <- Hs. symmetry. destruct l as [|x l] using rev_ind; [done|].
  rewrite foldl_app. simpl. by rewrite Zmod_mod.
Qed.

Lemma hash_sum_perm {A} (w : A -> list hwrite) l1 l2 : l1 ≡ₚ l2 -> hash_sum w l1 = hash_sum w l2.
Proof. induction 1; simpl; lia. Qed.

Lemma hash_sum_Forall2 {A} (R : A -> A -> Prop) (w : A -> list hwrite) l1 l2 :
  (forall x y, x ∈ l1 -> y ∈ l2 -> R x y -> w x = w y) -> Forall2 R l1 l2 ->
  hash_sum w l1 = hash_sum w l2.
Proof.
  intros HR. induction 1 as [|x y r s E HF IH]; simpl; [done|].
  rewrite (HR x y) by set_solver. rewrite IH by set_solver. done.
Qed.

(** Entry lists equal up to order and equality of keys hash alike. *)
Lemma entries_hash_eq {K V} PK PV keq veq (w : K * V -> list hwrite) m1 m2 :
  equiv_on PK keq -> equiv_on PV veq ->
  entries_in PK PV m1 -> entries_in PK PV m2 -> keys_distinct keq m1 -> keys_distinct keq m2 ->
  (forall x y, x ∈ m1 -> y ∈ m2 -> entry_eq keq veq x y -> w x = w y) ->
  al_eqb keq veq m1 m2 = true -> entries_hash w m1 = entries_hash w m2.
Proof.
  intros Hk Hv Hi1 Hi2 Hd1 Hd2 Hw E.
  destruct (al_eqb_perm PK PV keq veq Hk Hv m1 m2) as (l & Hp & HF); try done.
  rewrite !entries_hash_sum, (hash_sum_perm w _ _ Hp), Hp, (Forall2_length _ _ _ HF).
  rewrite (hash_sum_Forall2 (entry_eq keq veq) w l m2); [done| |done].
  intros x y Hx Hy. apply Hw; [by rewrite Hp|done].
Qed.

Lemma list_eqb_hash (l1 l2 : list value) :
  (forall x y, x ∈ l1 -> y ∈ l2 -> value_eqb reg x y = true -> hash_writes reg x = hash_writes reg y) ->
  list_eqb (value_eqb reg) l1 l2 = true ->
  length l1 = length l2 /\ flat_map (hash_writes reg) l1 = flat_map (hash_writes reg) l2.
Proof.
  revert l2. induction l1 as [|x r IH]; intros [|y s] Hh; simpl; try done.
  intros [E1 E2]%andb_true_iff. destruct (IH s) as [-> ->]; [set_solver|done|].
  rewrite (Hh x y) by set_solver. done.
Qed.

Lemma list_Zeqb_eq l1 l2 : list_eqb Z.eqb l1 l2 = true -> l1 = l2.
Proof.
  revert l2. induction l1 as [|x r IH]; intros [|y s]; simpl; try done.
  intros [->%Z.eqb_eq ->%IH]%andb_true_iff. done.
Qed.

Lemma entries_hash_as_map {A} (w : A -> list hwrite) l :
  entries_hash (fun e : A * unit => w e.1) (as_map l) = entries_hash w l.
Proof.
  unfold entries_hash, as_map. rewrite length_fmap. do 3 f_equal. generalize 0.
  induction l as [|x l IH]; intros z; csimpl; [done|]. apply IH.
Qed.

Lemma hash_body Q a b :
  equiv_on Q (value_eqb reg) ->
  (forall x y, Q x -> Q y -> value_eqb reg x y = true -> hash_writes reg x = hash_writes reg y) ->
  node_in reg Q a -> node_in reg Q b -> eqb_body reg (value_eqb reg) a b = true ->
  hash_writes reg a = hash_writes reg b.
Proof.
  intros He Hh Hna Hnb E. pose proof (eqb_body_variant _ _ _ E) as Ev.
  destruct a, b; simpl in Ev; try discriminate Ev; clear Ev; simpl in E |- *; f_equal.
  - by apply Bool.eqb_true_iff in E as ->.
  - by apply Z.eqb_eq in E as ->.
  - by apply of_hash_eq.
  - by apply String.eqb_eq in E as ->.
  - apply node_in_list in Hna, Hnb. rewrite Forall_forall in Hna, Hnb.
    apply list_eqb_hash in E as [-> ->]; [done|]. eauto.
  - by apply list_Zeqb_eq in E as ->.
  - apply node_in_map in Hna as [Hi1 Hd1], Hnb as [Hi2 Hd2].
    apply (entries_hash_eq Q Q _ _ _ _ _ He He); try done.
    intros x y Hx Hy [??]. unfold entries_in in Hi1, Hi2. rewrite Forall_forall in Hi1, Hi2.
    destruct (Hi1 x Hx), (Hi2 y Hy). f_equal; auto.
  - rewrite elems_eqb_al in E. rewrite <- (entries_hash_as_map _ s), <- (entries_hash_as_map _ s0).
    apply node_in_set in Hna as [Hi1 Hd1], Hnb as [Hi2 Hd2].
    eapply (entries_hash_eq Q _ _ _ _ _ _ He unit_equiv); try done.
    intros x y Hx Hy [??]. unfold entries_in in Hi1, Hi2. rewrite Forall_forall in Hi1, Hi2.
    destruct (Hi1 x Hx), (Hi2 y Hy). auto.
  - apply node_in_tuple in Hna as [??], Hnb as [??]. apply andb_true_iff in E as [??]. f_equal; auto.
  - apply node_in_option in Hna, Hnb. destruct o, o0; try done. f_equal. auto.
  - apply node_in_result in Hna, Hnb. destruct r, r0; try done; f_equal; auto.
  - by apply object_key_eq in E as [-> ->].
  - by apply list_Zeqb_eq in E as ->.
  - destruct Hna as [Hg1 _], Hnb as [Hg2 _]. simpl in Hg1, Hg2.
    destruct (enum_cmp e e0) eqn:Ec; try done. apply enum_cmp_glue in Ec as [Eg Er].
    rewrite Hg1, Hg2, <- Eg. do 2 f_equal. by apply cl_glue_hash.
Qed.

Lemma value_hash_eq a b :
  wf reg a -> wf reg b -> value_eqb reg a b = true -> hash_writes reg a = hash_writes reg b.
Proof.
  assert (Hn : forall n a b, wf reg a -> wf reg b -> (depth a <= n)%nat -> (depth b <= n)%nat ->
    value_eqb reg a b = true -> hash_writes reg a = hash_writes reg b).
  { induction n as [|n IH]; intros a' b' Ha Hb Hda Hdb; [pose proof (depth_pos a'); lia|].
    rewrite value_eqb_unfold. apply (hash_body (fun v => wf reg v /\ (depth v <= n)%nat)).
    - eapply equiv_on_impl; [|apply value_eqb_equiv]. tauto.
    - intros x y [??] [??]. auto.
    - by apply wf_node_in.
    - by apply wf_node_in. }
  intros Ha Hb. apply (Hn (Nat.max (depth a) (depth b))); try done; lia.
Qed.

End Laws.

(** ** Values as map keys *)

Section ValueKeys.
Context `{CallbackLaws reg} `{FloatLaws} {St : Type} (finish : St -> list hwrite -> Z).

(** A well-formed value, the key type of a Mux map; [finish] is the [RandomState]
    hasher of the map, applied to the words a key writes. *)
Definition vkey : Type := { v : value | wf reg v }.

#[local] Instance value_key : Key vkey St := {
  key_eqb a b := value_eqb reg (`a) (`b);
  hash_one s a := finish s (hash_writes reg (`a));
}.

#[local] Instance value_key_laws : KeyLaws vkey St.
Proof.
  pose proof value_eqb_equiv as He. split.
  - intros [a Ha]. by apply (eqv_refl _ _ He).
  - intros [a Ha] [b Hb]. by apply (eqv_sym_eq _ _ _ _ He).
  - intros [a Ha] [b Hb] [c Hc]. by apply (eqv_trans _ _ He).
  - intros s [a Ha] [b Hb] E. simpl in *. f_equal. by apply value_hash_eq.
Qed.

(** C3: a runtime map keyed by arbitrary well-formed values (nested containers,
    floats, objects keyed by their class's callbacks) refines the abstract
    insertion-ordered map over value equality, on every sequence of calls. *)
Theorem value_map_refines {T V : Type} `{HashTableLaws T} (s : St) (os : list (op vkey V)) :
  (run_impl (T := T) (new s) os).1 = (run_spec [] os).1 /\
  represents (run_impl (T := T) (new s) os).2 (run_spec [] os).2.
Proof. apply run_refines. exists [], []. split; [apply rep_new|done]. Qed.

End ValueKeys.

(** ** Properties *)

Section ValueProperties.
Context `{CallbackLaws reg} `{FloatLaws}.
Implicit Types (a b c : value).

(** C10: [PartialEq for Value] is an equivalence on well-formed values, however
    deeply they nest, and it satisfies the equation of the source at every level
    (the recursion bound never shows). *)
Theorem value_eq_equivalence a b c :
  wf reg a -> wf reg b -> wf reg c ->
  value_eqb reg a a = true /\ value_eqb reg a b = value_eqb reg b a /\
  (value_eqb reg a b = true -> value_eqb reg b c = true -> value_eqb reg a c = true) /\
  value_eqb reg a b = eqb_body reg (value_eqb reg) a b.
Proof.
  pose proof value_eqb_equiv as He. intros Ha Hb Hc. split_and!.
  - by apply (eqv_refl _ _ He).
  - by apply (eqv_sym_eq _ _ _ _ He).
  - by apply (eqv_trans _ _ He).
  - apply value_eqb_unfold.
Qed.

(** C11: [Ord for Value] is a total order up to its own equality on well-formed
    values: antisymmetric, transitive, and compatible with values it calls equal. *)
Theorem value_order_total a b c :
  wf reg a -> wf reg b -> wf reg c ->
  value_cmp reg a a = Eq /\ value_cmp reg b a = CompOpp (value_cmp reg a b) /\
  (value_cmp reg a b = Eq -> value_cmp reg a c = value_cmp reg b c) /\
  (value_cmp reg a b = Lt -> value_cmp reg b c = Lt -> value_cmp reg a c = Lt) /\
  value_cmp reg a b = cmp_body reg (value_cmp reg) a b.
Proof.
  pose proof value_cmp_ord as Ho. intros Ha Hb Hc. split_and!.
  - by apply (ord_refl _ _ Ho).
  - by apply (ord_opp _ _ Ho).
  - by apply (ord_eq_l _ _ Ho).
  - by apply (ord_lt_trans _ _ Ho).
  - apply value_cmp_unfold.
Qed.

(** [Eq] and [Ord] agree on values whose objects belong to types keyed by
    identity or registering a comparison. *)
Lemma value_eq_cmp_agree a b :
  wf reg a -> wf reg b -> all_orderable reg a -> all_orderable reg b ->
  value_eqb reg a b = true <-> value_cmp reg a b = Eq.
Proof. intros. by apply value_agree. Qed.

(** C12: equal values write the same words to any hasher, whatever the insertion
    order of the maps and sets inside them. *)
Theorem value_hash_consistent a b :
  wf reg a -> wf reg b -> value_eqb reg a b = true -> hash_writes reg a = hash_writes reg b.
Proof. apply value_hash_eq. Qed.

End ValueProperties.

(** Every value has a type tag (the table lookup never panics), and the tag
    tells the variants apart, but for the two that wrap inline enum bytes. *)
Lemma type_tag_separates a b :
  is_Some (type_tag a) /\
  (type_tag a = type_tag b <->
   variant_order a = variant_order b \/
   (13 <= variant_order a <= 14 /\ 13 <= variant_order b <= 14)).
Proof.
  split; [destruct a; vm_compute; eauto|].
  destruct a, b; cbn; (split; [intros [=]; lia|intros; f_equal; lia]).
Qed.

(** ** Witnesses: a class keyed by content, floats with signed zero and NaN *)

(** The IEEE order of [OrderedFloat] on bit patterns: both zeros alike, NaN last. *)
Definition float_key (bits : f64) : Z :=
  let magnitude := bits mod 2 ^ 63 in
  if 9218868437227405312 <? magnitude then 2 ^ 63
  else if bits <? 2 ^ 63 then magnitude else - magnitude.

#[local] Instance demo_floats : Floats := {
  of_eqb a b := float_key a =? float_key b;
  of_cmp a b := float_key a ?= float_key b;
  of_hash a := [WU64 (as_u64 (float_key a))];
  default_hasher ws := Z.of_nat (length ws);
}.

#[local] Instance demo_float_laws : FloatLaws.
Proof.
  split; simpl.
  - split; intros *; rewrite ?Z.eqb_eq; congruence.
  - eapply ord_on_impl; [|apply (ord_on_proj float_key _ _ Zcompare_ord)]. done.
  - intros a b _ _. by rewrite Z.eqb_eq, Z.compare_eq_iff.
  - intros a b ->%Z.eqb_eq. done.
Qed.

(** Objects compare by the tens of their payload address, enums by length. *)
#[local] Instance demo_callbacks : Callbacks := {
  run_equals _ a b := obj_ptr a / 10 =? obj_ptr b / 10;
  run_compare _ a b := obj_ptr a / 10 - obj_ptr b / 10;
  run_hash _ a := obj_ptr a / 10;
  run_cmp_glue _ x y := Z.of_nat (length x) - Z.of_nat (length y);
  run_hash_glue _ x := Z.of_nat (length x);
  hash_glue_of g := g + 1;
}.

Lemma sub_ord {A} (f : A -> Z) P : ord_on P (fun a b => f a - f b ?= 0).
Proof.
  split; intros *; rewrite ?Z.compare_eq_iff, ?Z.compare_lt_iff; try lia.
  - intros _ _. destruct (Z.compare_spec (f a - f b) 0), (Z.compare_spec (f b - f a) 0); simpl;
      try done; lia.
  - intros _ _ _ E. f_equal. lia.
Qed.

Definition demo_registry : Registry :=
  let '(id, r) := register_object_type_with_copy empty_registry "Point" 16 None (Some 100) in
  let r := mux_register_object_equals r id 101 in
  let r := mux_register_object_compare r id 102 in
  mux_register_object_hash r id 103.

#[local] Instance demo_callback_laws : CallbackLaws demo_registry.
Proof.
  split; intros *; simpl.
  - intros _ _. split; intros *; rewrite ?Z.eqb_eq; congruence.
  - intros _ _. apply sub_ord.
  - intros _ _ _ _. rewrite Z.eqb_eq. lia.
  - intros _ _ _ _. rewrite Z.eqb_eq. done.
  - intros _ _ _ _. lia.
  - apply sub_ord.
  - lia.
Qed.

Definition demo_obj (rc : positive) (ptr : Z) : value := VObject (mk_object rc ptr 1 16).

(** Two values that differ in insertion order, in the sign of a zero and in the
    address of an equal object. *)
Definition demo_a : value :=
  VMap [(VInt 1, VList [VFloat 0; VString "a"]); (demo_obj 1 4000, VSet [VInt 2; VBool true])].
Definition demo_b : value :=
  VMap [(demo_obj 2 4007, VSet [VBool true; VInt 2]); (VInt 1, VList [VFloat (2 ^ 63); VString "a"])].
Definition demo_c : value := VOptional (Some demo_a).

Lemma demo_a_wf : wf demo_registry demo_a.
Proof. apply (wfb_sound _ 3). vm_compute. reflexivity. Qed.

Lemma demo_b_wf : wf demo_registry demo_b.
Proof. apply (wfb_sound _ 3). vm_compute. reflexivity. Qed.

Lemma demo_c_wf : wf demo_registry demo_c.
Proof. apply (wfb_sound _ 4). vm_compute. reflexivity. Qed.

Lemma demo_a_orderable : all_orderable demo_registry demo_a.
Proof. apply (orderableb_sound _ 3). vm_compute. reflexivity. Qed.

Lemma demo_b_orderable : all_orderable demo_registry demo_b.
Proof. apply (orderableb_sound _ 3). vm_compute. reflexivity. Qed.

Lemma value_eq_equivalence_witness : value_eqb demo_registry demo_b demo_a = true.
Proof.
  rewrite <- (proj1 (proj2 (value_eq_equivalence demo_a demo_b demo_c demo_a_wf demo_b_wf demo_c_wf))).
  vm_compute. reflexivity.
Defined.

Lemma value_order_total_witness : value_cmp demo_registry demo_b demo_c = Lt.
Proof.
  rewrite <- (proj1 (proj2 (proj2 (value_order_total demo_a demo_b demo_c demo_a_wf demo_b_wf demo_c_wf))));
    vm_compute; reflexivity.
Defined.

Lemma value_hash_consistent_witness :
  hash_writes demo_registry demo_a = hash_writes demo_registry demo_b.
Proof.
  refine (value_hash_consistent demo_a demo_b demo_a_wf demo_b_wf _). vm_compute. reflexivity.
Defined.

Definition demo_finish (seed : Z) (ws : list hwrite) : Z := seed + Z.of_nat (length ws).

Definition demo_key_a : vkey (reg := demo_registry) := exist _ demo_a demo_a_wf.
Definition demo_key_b : vkey (reg := demo_registry) := exist _ demo_b demo_b_wf.

Definition demo_answer {K} (a : answer K Z) : option Z :=
  match a with AnsValue o => o | AnsLen n => Some (Z.of_nat n) | _ => None end.

Lemma value_map_refines_witness :
  map demo_answer (run_impl (T := ListTable) (H1 := value_key demo_finish) (new 7)
     [OpInsert demo_key_a 1; OpInsert demo_key_b 2; OpLen]).1
  = [None; Some 1; Some 1].
Proof.
  rewrite (proj1 (value_map_refines (T := ListTable) (V := Z) demo_finish 7
             [OpInsert demo_key_a 1; OpInsert demo_key_b 2; OpLen])).
  vm_compute. reflexivity.
Defined.
