(* ===== verification/Heap.v ===== *)
(** * The reference-counted heap ([src/src/refcount.rs], [object.rs], [closure.rs])

    The runtime's memory as an explicit state: the blocks of [mux_rc_alloc] with
    their count, the strong counts of the [Rc<ObjectData>] behind object handles,
    the object buffers, the capture cells and closures, the type registry with its
    lock, and the live-block counter of the [rc-leak-check] feature.  Operations
    run in a state and error monad; a fault is undefined behaviour (access to freed
    memory, a zero-sized allocation), a self-deadlock on the registry lock, or an
    abort.

    The allocator and the compiled code behind registered function pointers are
    parameters ([Allocator], [Foreign]): the latter may do anything to the heap.
    Rust's moves and drops are explicit: [clone_value] and [drop_value] are the
    derived [Clone] and drop glue of [Value]. *)

From S2P Require Import Prelude AssocList Object Value.

(** ** State *)

Definition loc : Type := positive.
Definition ptr : Type := option loc.        (* [None] is the null pointer *)

(** [RefHeader] and the payload it prefixes. *)
Record Block : Type := mk_block { ref_count : Z; payload : value }.

(** A capture cell: its count and the value reference it owns. *)
Record Cell : Type := mk_cell { cell_count : Z; cell_value : ptr }.

(** A closure struct: its count, the capture array ([None] for a null
    [captures_ptr]) and the [capture_count] field. *)
Record Closure : Type := mk_closure {
  clo_count : Z;
  captures : option (list ptr);
  capture_count : Z;
}.

Record Heap : Type := mk_heap {
  h_registry : Registry;
  h_locked : bool;                 (* [TYPE_REGISTRY] is held *)
  h_blocks : gmap loc Block;
  h_strong : gmap positive Z;      (* strong counts of [Rc<ObjectData>] *)
  h_buffers : gmap Z Z;            (* object buffers: address to size *)
  h_cells : gmap loc Cell;
  h_closures : gmap loc Closure;
  h_live : Z;                      (* [LIVE_RC_BLOCKS] *)
}.

Inductive fault : Type := Undefined | Deadlock | Aborted.

Definition M (A : Type) : Type := Heap -> result (A * Heap) fault.

Definition ret {A} (a : A) : M A := fun h => Ok (a, h).
Definition bind {A B} (m : M A) (f : A -> M B) : M B :=
  fun h => match m h with Ok (a, h') => f a h' | Err e => Err e end.
Definition raise {A} (e : fault) : M A := fun _ => Err e.
Definition gets {A} (f : Heap -> A) : M A := fun h => Ok (f h, h).
Definition modify (f : Heap -> Heap) : M unit := fun h => Ok (tt, f h).

Notation "'let!' x := e 'in' k" := (bind e (fun x => k))
  (at level 10, x pattern, e at level 100, k at level 200) : mux_scope.
Notation "e ;! k" := (bind e (fun _ => k)) (at level 100, k at level 200, right associativity) : mux_scope.

Definition set_locked (b : bool) (h : Heap) : Heap :=
  mk_heap (h_registry h) b (h_blocks h) (h_strong h) (h_buffers h) (h_cells h) (h_closures h) (h_live h).
Definition set_blocks (f : gmap loc Block -> gmap loc Block) (h : Heap) : Heap :=
  mk_heap (h_registry h) (h_locked h) (f (h_blocks h)) (h_strong h) (h_buffers h) (h_cells h)
    (h_closures h) (h_live h).
Definition set_strong (f : gmap positive Z -> gmap positive Z) (h : Heap) : Heap :=
  mk_heap (h_registry h) (h_locked h) (h_blocks h) (f (h_strong h)) (h_buffers h) (h_cells h)
    (h_closures h) (h_live h).
Definition set_buffers (f : gmap Z Z -> gmap Z Z) (h : Heap) : Heap :=
  mk_heap (h_registry h) (h_locked h) (h_blocks h) (h_strong h) (f (h_buffers h)) (h_cells h)
    (h_closures h) (h_live h).
Definition set_cells (f : gmap loc Cell -> gmap loc Cell) (h : Heap) : Heap :=
  mk_heap (h_registry h) (h_locked h) (h_blocks h) (h_strong h) (h_buffers h) (f (h_cells h))
    (h_closures h) (h_live h).
Definition set_closures (f : gmap loc Closure -> gmap loc Closure) (h : Heap) : Heap :=
  mk_heap (h_registry h) (h_locked h) (h_blocks h) (h_strong h) (h_buffers h) (h_cells h)
    (f (h_closures h)) (h_live h).
Definition set_live (f : Z -> Z) (h : Heap) : Heap :=
  mk_heap (h_registry h) (h_locked h) (h_blocks h) (h_strong h) (h_buffers h) (h_cells h)
    (h_closures h) (f (h_live h)).

(** ** Parameters *)

(** The system allocator: a fresh place, or nothing when memory is exhausted. *)
Class Allocator := {
  new_block : Heap -> option loc;
  new_cell : Heap -> option loc;
  new_buffer : Heap -> Z -> option Z;
  new_rc : Heap -> positive;        (* [Rc::new] does not return on exhaustion *)
}.

Class AllocatorLaws `{Allocator} : Prop := {
  new_block_fresh h l : new_block h = Some l -> h_blocks h !! l = None;
  new_cell_fresh h l : new_cell h = Some l -> h_cells h !! l = None;
  new_buffer_fresh h size p : new_buffer h size = Some p -> h_buffers h !! p = None /\ p <> 0;
  new_rc_fresh h : h_strong h !! new_rc h = None;
}.

(** Compiled code called back by the runtime; it may use the whole runtime. *)
Class Foreign := {
  call_destructor : fnptr -> Z -> M unit;
  call_copy : fnptr -> Z -> Z -> M unit;
  call_clone_glue : fnptr -> list Z -> M (list Z);
  call_drop_glue : fnptr -> list Z -> M unit;
}.

Section Heap.
Context `{Allocator} `{Foreign} `{Callbacks} `{Floats}.

(** [TYPE_REGISTRY.lock()]: a second lock by the same thread never returns. *)
Definition lock_registry : M unit :=
  let! b := gets h_locked in
  if b then raise Deadlock else modify (set_locked true).
Definition unlock_registry : M unit := modify (set_locked false).

(** A registry read under the lock. *)
Definition with_registry {A} (f : Registry -> A) : M A :=
  lock_registry ;!
  let! a := gets (fun h => f (h_registry h)) in
  unlock_registry ;! ret a.

(** [object::call_object_destructor]. *)
Definition call_object_destructor (id : TypeId) (p : Z) : M unit :=
  if p =? 0 then ret tt
  else
    let! d := with_registry (fun r => t ← types r !! id; ot_destructor t) in
    match d with Some f => call_destructor f p | None => ret tt end.

(** [std::alloc::dealloc]: the buffer must be live, with the size it was allocated. *)
Definition dealloc_buffer (p size : Z) : M unit :=
  let! b := gets (fun h => h_buffers h !! p) in
  match b with
  | Some s => if s =? size then modify (set_buffers (delete p)) else raise Undefined
  | None => raise Undefined
  end.

(** [Drop for ObjectData]. *)
Definition drop_object_data (o : ObjectRef) : M unit :=
  if negb (obj_ptr o =? 0) && (0 <? obj_size o) then
    call_object_destructor (obj_type o) (obj_ptr o) ;!
    dealloc_buffer (obj_ptr o) (obj_size o)
  else ret tt.

(** [Rc::clone] and the drop of an [Rc]. *)
Definition clone_object (o : ObjectRef) : M ObjectRef :=
  let! n := gets (fun h => h_strong h !! obj_rc o) in
  match n with
  | Some n =>
      if n =? 0 then raise Undefined
      else if n =? usize_max then raise Aborted
      else modify (set_strong (insert (obj_rc o) (n + 1))) ;! ret o
  | None => raise Undefined
  end.

Definition drop_object (o : ObjectRef) : M unit :=
  let! n := gets (fun h => h_strong h !! obj_rc o) in
  match n with
  | Some n =>
      if n =? 0 then raise Undefined
      else
        modify (set_strong (insert (obj_rc o) (n - 1))) ;!
        if n =? 1 then drop_object_data o ;! modify (set_strong (delete (obj_rc o))) else ret tt
  | None => raise Undefined
  end.

(** Sequencing over the components of a container. *)
Fixpoint traverse {A B} (f : A -> M B) (l : list A) : M (list B) :=
  match l with
  | [] => ret []
  | x :: r => let! y := f x in let! ys := traverse f r in ret (y :: ys)
  end.

Fixpoint visit {A} (f : A -> M unit) (l : list A) : M unit :=
  match l with [] => ret tt | x :: r => f x ;! visit f r end.

(** [Clone for BoxedEnum] and [Drop for BoxedEnum]. *)
Definition clone_enum (e : BoxedEnum) : M BoxedEnum :=
  let! bs := call_clone_glue (clone_glue e) (be_bytes e) in
  ret (mk_enum bs (clone_glue e) (drop_glue e) (cmp_glue e) (hash_glue e)).

Definition drop_enum (e : BoxedEnum) : M unit := call_drop_glue (drop_glue e) (be_bytes e).

(** The derived [Clone] of [Value]: handles are shared, everything else copied. *)
Fixpoint clone_value (v : value) : M value :=
  match v with
  | VList l => let! l' := traverse clone_value l in ret (VList l')
  | VMap m =>
      let! m' := traverse (fun e => let! k := clone_value e.1 in
                                    let! x := clone_value e.2 in ret (k, x)) m in
      ret (VMap m')
  | VSet s => let! s' := traverse clone_value s in ret (VSet s')
  | VTuple a b => let! a' := clone_value a in let! b' := clone_value b in ret (VTuple a' b')
  | VOptional (Some a) => let! a' := clone_value a in ret (VOptional (Some a'))
  | VResult (Ok a) => let! a' := clone_value a in ret (VResult (Ok a'))
  | VResult (Err a) => let! a' := clone_value a in ret (VResult (Err a'))
  | VObject o => let! o' := clone_object o in ret (VObject o')
  | VBoxedEnum e => let! e' := clone_enum e in ret (VBoxedEnum e')
  | _ => ret v
  end.

(** The drop glue of [Value]. *)
Fixpoint drop_value (v : value) : M unit :=
  match v with
  | VList l => visit drop_value l
  | VMap m => visit (fun e => drop_value e.1 ;! drop_value e.2) m
  | VSet s => visit drop_value s
  | VTuple a b => drop_value a ;! drop_value b
  | VOptional (Some a) => drop_value a
  | VResult (Ok a) => drop_value a
  | VResult (Err a) => drop_value a
  | VObject o => drop_object o
  | VBoxedEnum e => drop_enum e
  | _ => ret tt
  end.

(** ** [refcount.rs] *)

Definition RefHeader_new : Z := 1.

(** On exhaustion the value is dropped where the function returns null. *)
Definition mux_rc_alloc (v : value) : M ptr :=
  let! p := gets new_block in
  match p with
  | None => drop_value v ;! ret None
  | Some l =>
      modify (set_blocks (insert l (mk_block RefHeader_new v))) ;!
      modify (set_live (fun n => n + 1)) ;!
      ret (Some l)
  end.

Definition get_block (l : loc) : M Block :=
  let! b := gets (fun h => h_blocks h !! l) in
  match b with Some b => ret b | None => raise Undefined end.

Definition deref (l : loc) : M value := let! b := get_block l in ret (payload b).

(** [fetch_add] and [fetch_sub] wrap. *)
Definition mux_rc_inc (p : ptr) : M unit :=
  match p with
  | None => ret tt
  | Some l =>
      let! b := get_block l in
      modify (set_blocks (insert l (mk_block (as_u64 (ref_count b + 1)) (payload b))))
  end.

Definition mux_rc_dec (p : ptr) : M bool :=
  match p with
  | None => ret false
  | Some l =>
      let! b := get_block l in
      modify (set_blocks (insert l (mk_block (as_u64 (ref_count b - 1)) (payload b)))) ;!
      if ref_count b =? 1 then
        drop_value (payload b) ;!
        modify (set_blocks (delete l)) ;!
        modify (set_live (fun n => n - 1)) ;!
        ret true
      else ret false
  end.

Definition mux_rc_count (p : ptr) : M Z :=
  match p with None => ret 0 | Some l => let! b := get_block l in ret (ref_count b) end.

Definition mux_rc_clone (p : ptr) : M ptr :=
  match p with None => ret p | Some _ => mux_rc_inc p ;! ret p end.

(** [rc_leak_message]: whether the exit-time check reports a leak. *)
Definition rc_leak_message (live : Z) : option Z := if live =? 0 then None else Some live.

(** ** [object.rs] *)

Definition isize_max : Z := 2 ^ 63 - 1.

(** [ObjectRef::new]. *)
Definition ObjectRef_new (p : Z) (id : TypeId) (size : Z) : M ObjectRef :=
  let! r := gets new_rc in
  modify (set_strong (insert r 1)) ;! ret (mk_object r p id size).

(** [std::alloc::alloc] with alignment 1; a zero-sized layout is not allowed. *)
Definition alloc_buffer (size : Z) : M Z :=
  if size =? 0 then raise Undefined
  else
    let! p := gets (fun h => new_buffer h size) in
    match p with
    | Some p => modify (set_buffers (insert p size)) ;! ret p
    | None => ret 0
    end.

(** [alloc_object]: the registry stays locked until the function returns. *)
Definition alloc_object (id : TypeId) : M ptr :=
  lock_registry ;!
  let! t := gets (fun h => types (h_registry h) !! id) in
  let! result :=
    match t with
    | None => ret None
    | Some t =>
        if isize_max <? ot_size t then ret None
        else
          let! p := alloc_buffer (ot_size t) in
          if p =? 0 then ret None
          else let! o := ObjectRef_new p id (ot_size t) in mux_rc_alloc (VObject o)
    end in
  unlock_registry ;! ret result.

Definition free_object (p : ptr) : M unit := mux_rc_dec p ;! ret tt.

(** [get_object_ptr] and [get_object_type_id], on the value a pointer refers to. *)
Definition get_object_ptr (v : option value) : Z :=
  match v with Some (VObject o) => obj_ptr o | _ => 0 end.
Definition get_object_type_id (v : option value) : TypeId :=
  match v with Some (VObject o) => obj_type o | _ => 0 end.

(** A pointer argument, read. *)
Definition read_ptr (p : ptr) : M (option value) :=
  match p with None => ret None | Some l => let! v := deref l in ret (Some v) end.

Definition copy_object (src : option value) : M ptr :=
  match src with
  | None => ret None
  | Some v =>
      let id := get_object_type_id src in
      let! t := with_registry (fun r => types r !! id) in
      match t with
      | None => ret None
      | Some t =>
          if ot_shared t then let! v' := clone_value v in mux_rc_alloc v'
          else
            match ot_copy t with
            | None => ret None
            | Some f =>
                let! dest := alloc_object id in
                match dest with
                | None => ret None
                | Some l =>
                    let! d := deref l in
                    call_copy f (get_object_ptr src) (get_object_ptr (Some d)) ;! ret dest
                end
            end
      end
  end.

Definition mux_alloc_object (id : TypeId) : M ptr := alloc_object id.
Definition mux_free_object (p : ptr) : M unit := free_object p.
Definition mux_get_object_ptr (p : ptr) : M Z := let! v := read_ptr p in ret (get_object_ptr v).
Definition mux_get_object_type_id (p : ptr) : M TypeId :=
  let! v := read_ptr p in ret (get_object_type_id v).
Definition mux_copy_object (p : ptr) : M ptr := let! v := read_ptr p in copy_object v.

(** ** Deep copies ([refcount.rs]) *)

(** [OrderedMap::insert] and [OrderedSet::insert] of owned values: a key already
    present keeps its first copy, and the new key and the old value are dropped. *)
Definition insert_owned (m : list (value * value)) (k v : value) : M (list (value * value)) :=
  let! reg := gets h_registry in
  match al_get (value_eqb reg) k m with
  | None => ret (al_insert (value_eqb reg) k v m)
  | Some old => drop_value k ;! drop_value old ;! ret (al_insert (value_eqb reg) k v m)
  end.

Definition set_insert_owned (s : list value) (k : value) : M (list value) :=
  let! reg := gets h_registry in
  if existsb (fun x => value_eqb reg x k) s then drop_value k ;! ret s else ret (s ++ [k]).

Definition deep_clone_object (o : ObjectRef) : M value :=
  let! temp := clone_object o in
  let! copied := copy_object (Some (VObject temp)) in
  match copied with
  | None => let! o' := clone_object o in drop_object temp ;! ret (VObject o')
  | Some l =>
      let! v := deref l in
      let! res := clone_value v in
      free_object copied ;! drop_object temp ;! ret res
  end.

Section Deep.
(** The loops of the container arms, with [rec] for the nested calls. *)
Context (rec : value -> M value).

Fixpoint deep_entries (m out : list (value * value)) : M (list (value * value)) :=
  match m with
  | [] => ret out
  | e :: r =>
      let! k := rec e.1 in
      let! x := rec e.2 in
      let! out' := insert_owned out k x in
      deep_entries r out'
  end.

Fixpoint deep_elems (s out : list value) : M (list value) :=
  match s with
  | [] => ret out
  | x :: r => let! k := rec x in let! out' := set_insert_owned out k in deep_elems r out'
  end.
End Deep.

Fixpoint deep_clone_value (v : value) : M value :=
  match v with
  | VList l => let! l' := traverse deep_clone_value l in ret (VList l')
  | VMap m => let! m' := deep_entries deep_clone_value m [] in ret (VMap m')
  | VSet s => let! s' := deep_elems deep_clone_value s [] in ret (VSet s')
  | VTuple a b =>
      let! a' := deep_clone_value a in let! b' := deep_clone_value b in ret (VTuple a' b')
  | VOptional (Some a) => let! a' := deep_clone_value a in ret (VOptional (Some a'))
  | VResult (Ok a) => let! a' := deep_clone_value a in ret (VResult (Ok a'))
  | VResult (Err a) => let! a' := deep_clone_value a in ret (VResult (Err a'))
  | VObject o => deep_clone_object o
  | VBoxedEnum e => let! e' := clone_enum e in ret (VBoxedEnum e')
  | _ => ret v
  end.

Definition snapshot_key (v : value) : M value := deep_clone_value v.

Definition mux_value_deep_clone (p : ptr) : M ptr :=
  match p with
  | None => ret None
  | Some l =>
      let! v := deref l in
      match v with
      | VObject _ => copy_object (Some v)
      | _ => let! cloned := deep_clone_value v in mux_rc_alloc cloned
      end
  end.

(** ** [closure.rs] *)

Definition mux_cell_alloc (initial : ptr) : M ptr :=
  let! p := gets new_cell in
  match p with
  | None => ret None
  | Some l => modify (set_cells (insert l (mk_cell 1 initial))) ;! ret (Some l)
  end.

Definition get_cell (l : loc) : M Cell :=
  let! c := gets (fun h => h_cells h !! l) in
  match c with Some c => ret c | None => raise Undefined end.

Definition mux_cell_retain (p : ptr) : M unit :=
  match p with
  | None => ret tt
  | Some l =>
      let! c := get_cell l in
      modify (set_cells (insert l (mk_cell (as_i64 (cell_count c + 1)) (cell_value c))))
  end.

Definition mux_cell_release (p : ptr) : M unit :=
  match p with
  | None => ret tt
  | Some l =>
      let! c := get_cell l in
      modify (set_cells (insert l (mk_cell (as_i64 (cell_count c - 1)) (cell_value c)))) ;!
      if 1 <? cell_count c then ret tt
      else mux_rc_dec (cell_value c) ;! modify (set_cells (delete l))
  end.

Definition get_closure (l : loc) : M Closure :=
  let! c := gets (fun h => h_closures h !! l) in
  match c with Some c => ret c | None => raise Undefined end.

Definition mux_closure_retain (p : ptr) : M unit :=
  match p with
  | None => ret tt
  | Some l =>
      let! c := get_closure l in
      modify (set_closures (insert l
        (mk_closure (as_i64 (clo_count c + 1)) (captures c) (capture_count c))))
  end.

(** The slots read by the release loop; a slot past the array is out of bounds. *)
Definition read_slots (slots : list ptr) (n : nat) : M (list ptr) :=
  if (length slots <? n)%nat then raise Undefined else ret (take n slots).

Definition mux_closure_release (p : ptr) : M unit :=
  match p with
  | None => ret tt
  | Some l =>
      let! c := get_closure l in
      modify (set_closures (insert l
        (mk_closure (as_i64 (clo_count c - 1)) (captures c) (capture_count c)))) ;!
      if 1 <? clo_count c then ret tt
      else
        match captures c with
        | None => ret tt
        | Some slots =>
            let! cells := read_slots slots (Z.to_nat (Z.max (capture_count c) 0)) in
            visit mux_cell_release cells
        end ;!
        modify (set_closures (delete l))
  end.

End Heap.

(** * Ownership in the heap: weakest preconditions and the heap invariant

    [wp m post h]: running [m] from [h] does not reach undefined behaviour, and if
    it returns, [post] holds.  [inv st h] ties the counts to the references that
    exist: every strong count is the number of handles in live values and on the
    Rust stack [st], buffers belong to exactly one object, and every reference the
    stack owns is backed by its block's count. *)

(** ** Weakest preconditions *)

Definition wp {A} (m : M A) (post : A -> Heap -> Prop) (h : Heap) : Prop :=
  match m h with
  | Ok (a, h') => post a h'
  | Err Undefined => False
  | Err _ => True
  end.

Lemma wp_ret {A} (a : A) post h : post a h -> wp (ret a) post h.
Proof. done. Qed.

Lemma wp_bind {A B} (m : M A) (f : A -> M B) post h :
  wp m (fun a => wp (f a) post) h -> wp (bind m f) post h.
Proof. unfold wp, bind. by destruct (m h) as [[a h']|[| |]]. Qed.

Lemma wp_mono {A} (m : M A) (P Q : A -> Heap -> Prop) h :
  (forall a h', P a h' -> Q a h') -> wp m P h -> wp m Q h.
Proof. unfold wp. destruct (m h) as [[a h']|[| |]]; auto. Qed.

Lemma wp_gets {A} (f : Heap -> A) post h : post (f h) h -> wp (gets f) post h.
Proof. done. Qed.

Lemma wp_modify f post h : post tt (f h) -> wp (modify f) post h.
Proof. done. Qed.

(** Use a specification, then continue from its postcondition. *)
Lemma wp_use {A B} (m : M A) (f : A -> M B) (P : A -> Heap -> Prop) post h :
  wp m P h -> (forall a h', P a h' -> wp (f a) post h') -> wp (bind m f) post h.
Proof. intros Hm Hf. apply wp_bind. by eapply wp_mono. Qed.

Ltac wp_step :=
  match goal with
  | |- wp (bind (gets _) _) _ _ => apply wp_bind, wp_gets
  | |- wp (bind (modify _) _) _ _ => apply wp_bind, wp_modify
  | |- wp (bind (ret _) _) _ _ => apply wp_bind, wp_ret
  | |- wp (bind (bind _ _) _) _ _ => apply wp_bind
  | |- wp (ret _) _ _ => apply wp_ret
  | |- wp (gets _) _ _ => apply wp_gets
  | |- wp (modify _) _ _ => apply wp_modify
  end.
Ltac wp_steps := repeat (wp_step; cbv beta).

(** ** Handles inside values *)

Fixpoint objs (v : value) : list ObjectRef :=
  match v with
  | VList l => flat_map objs l
  | VSet l => flat_map objs l
  | VMap m => flat_map (fun e => objs e.1 ++ objs e.2) m
  | VTuple a b => objs a ++ objs b
  | VOptional (Some a) => objs a
  | VResult (Ok a) => objs a
  | VResult (Err a) => objs a
  | VObject o => [o]
  | _ => []
  end.

(** The number of handles on the object [r]. *)
Definition handles (r : positive) (os : list ObjectRef) : Z :=
  Z.of_nat (length (filter (fun o => obj_rc o = r) os)).

Lemma handles_cons r o os :
  handles r (o :: os) = (if decide (obj_rc o = r) then 1 else 0) + handles r os.
Proof. unfold handles. rewrite filter_cons. case_decide; simpl; lia. Qed.

Lemma handles_app r os1 os2 : handles r (os1 ++ os2) = handles r os1 + handles r os2.
Proof. unfold handles. rewrite filter_app, length_app. lia. Qed.

Lemma handles_perm r os1 os2 : os1 ≡ₚ os2 -> handles r os1 = handles r os2.
Proof. intros Hp. unfold handles. by rewrite Hp. Qed.

Lemma handles_pos r os : 0 <= handles r os.
Proof. unfold handles. lia. Qed.

Lemma handles_elem o os : o ∈ os -> 1 <= handles (obj_rc o) os.
Proof.
  induction os as [|x os IH]; [by inversion 1|]. rewrite handles_cons.
  intros [->|Hin]%elem_of_cons; pose proof (handles_pos (obj_rc x) os).
  - rewrite decide_True by done. lia.
  - apply IH in Hin. case_decide; lia.
Qed.

Lemma handles_zero r os o : handles r os = 0 -> o ∈ os -> obj_rc o <> r.
Proof. intros Hz Hin <-. apply handles_elem in Hin. lia. Qed.

(** Handles held by the live blocks. *)
Definition block_objs (e : loc * Block) : list ObjectRef :=
  if ref_count e.2 =? 0 then [] else objs (payload e.2).
Definition heap_objs (m : gmap loc Block) : list ObjectRef := flat_map block_objs (map_to_list m).

Lemma flat_map_perm {A B} (f : A -> list B) l1 l2 : l1 ≡ₚ l2 -> flat_map f l1 ≡ₚ flat_map f l2.
Proof.
  induction 1; simpl; [done|by f_equiv| |by etrans].
  rewrite !app_assoc. f_equiv. apply Permutation_app_comm.
Qed.

Lemma heap_objs_insert m l b :
  m !! l = None -> heap_objs (<[l := b]> m) ≡ₚ block_objs (l, b) ++ heap_objs m.
Proof.
  intros Hn. unfold heap_objs. by rewrite (flat_map_perm _ _ _ (map_to_list_insert m l b Hn)).
Qed.

Lemma heap_objs_delete m l b :
  m !! l = Some b -> heap_objs m ≡ₚ block_objs (l, b) ++ heap_objs (delete l m).
Proof.
  intros Hl. rewrite <- heap_objs_insert by apply lookup_delete_eq. by rewrite insert_delete_id.
Qed.

Lemma heap_objs_update m l b b' :
  m !! l = Some b -> block_objs (l, b) ++ heap_objs (<[l := b']> m) ≡ₚ block_objs (l, b') ++ heap_objs m.
Proof.
  intros Hl. rewrite (heap_objs_delete m l b Hl), <- insert_delete_eq.
  rewrite heap_objs_insert by apply lookup_delete_eq. rewrite !app_assoc. f_equiv.
  apply Permutation_app_comm.
Qed.

(** ** The invariant *)

(** What the Rust stack owns: object handles, objects being destroyed, block
    references, blocks being destroyed, and borrowed block contents. *)
Record stack : Type := mk_stack {
  s_objs : list ObjectRef;
  s_dying : list ObjectRef;
  s_refs : list loc;
  s_dead : list loc;
  s_borrow : list (loc * value);
}.

Definition has_buffer (o : ObjectRef) : bool := negb (obj_ptr o =? 0) && (0 <? obj_size o).

Definition all_objs (st : stack) (h : Heap) : list ObjectRef := heap_objs (h_blocks h) ++ s_objs st.

(** References to [l] on the stack. *)
Definition refs_to (l : loc) (ls : list loc) : Z := Z.of_nat (length (filter (eq l) ls)).

Lemma refs_to_cons l l' ls :
  refs_to l (l' :: ls) = (if decide (l = l') then 1 else 0) + refs_to l ls.
Proof. unfold refs_to. rewrite filter_cons. case_decide; simpl; lia. Qed.

Lemma refs_to_pos l ls : 0 <= refs_to l ls.
Proof. unfold refs_to. lia. Qed.

Lemma refs_to_elem l ls : l ∈ ls <-> 1 <= refs_to l ls.
Proof.
  induction ls as [|x ls IH]; [split; [by inversion 1|done]|].
  rewrite refs_to_cons, elem_of_cons, IH. pose proof (refs_to_pos l ls).
  case_decide; split; try lia; intuition lia.
Qed.

(** Objects that exist: same handle, same object; different objects, different
    buffers; every buffer allocated with the object's size. *)
Record coherent (os : list ObjectRef) (bufs : gmap Z Z) : Prop := {
  coh_same o1 o2 : o1 ∈ os -> o2 ∈ os -> obj_rc o1 = obj_rc o2 -> o1 = o2;
  coh_sep o1 o2 : o1 ∈ os -> o2 ∈ os -> has_buffer o1 = true -> has_buffer o2 = true ->
    obj_ptr o1 = obj_ptr o2 -> obj_rc o1 = obj_rc o2;
  coh_buf o : o ∈ os -> has_buffer o = true -> bufs !! obj_ptr o = Some (obj_size o);
}.

Record inv (st : stack) (h : Heap) : Prop := {
  inv_strong r : default 0 (h_strong h !! r) = handles r (all_objs st h);
  inv_dying o : o ∈ s_dying st -> h_strong h !! obj_rc o = Some 0;
  inv_dying_nodup : NoDup (obj_rc <$> s_dying st);
  inv_coh : coherent (all_objs st h ++ s_dying st) (h_buffers h);
  inv_refs l : l ∈ s_refs st -> exists b, h_blocks h !! l = Some b /\
    refs_to l (s_refs st) <= ref_count b <= u64_max;
  inv_dead l : l ∈ s_dead st -> exists b, h_blocks h !! l = Some b /\ ref_count b = 0;
  inv_dead_nodup : NoDup (s_dead st);
  inv_borrow l v : (l, v) ∈ s_borrow st -> exists b, h_blocks h !! l = Some b /\
    payload b = v /\ ref_count b <> 0;
  inv_live : h_live h = Z.of_nat (size (h_blocks h));
  inv_sizes id t : types (h_registry h) !! id = Some t -> 0 < ot_size t;
}.

Definition own (os : list ObjectRef) (st : stack) : stack :=
  mk_stack (os ++ s_objs st) (s_dying st) (s_refs st) (s_dead st) (s_borrow st).
Definition dying (o : ObjectRef) (st : stack) : stack :=
  mk_stack (s_objs st) (o :: s_dying st) (s_refs st) (s_dead st) (s_borrow st).
Definition ref (l : loc) (st : stack) : stack :=
  mk_stack (s_objs st) (s_dying st) (l :: s_refs st) (s_dead st) (s_borrow st).
Definition dead (l : loc) (st : stack) : stack :=
  mk_stack (s_objs st) (s_dying st) (s_refs st) (l :: s_dead st) (s_borrow st).
Definition borrow (l : loc) (v : value) (st : stack) : stack :=
  mk_stack (s_objs st) (s_dying st) (s_refs st) (s_dead st) ((l, v) :: s_borrow st).

(** A handle the stack owns or borrows: it stays valid whatever runs meanwhile. *)
Definition kept (st : stack) (o : ObjectRef) : Prop :=
  o ∈ s_objs st \/ exists l v, (l, v) ∈ s_borrow st /\ o ∈ objs v.

Lemma elem_of_flat_map {A B} (f : A -> list B) l y :
  y ∈ flat_map f l <-> exists x, x ∈ l /\ y ∈ f x.
Proof.
  rewrite list_elem_of_In, in_flat_map. split; intros (x & Hx & Hy);
    exists x; split; by apply list_elem_of_In.
Qed.

Lemma heap_objs_elem m l b o :
  m !! l = Some b -> ref_count b <> 0 -> o ∈ objs (payload b) -> o ∈ heap_objs m.
Proof.
  intros Hl Hc Ho. apply elem_of_flat_map. exists (l, b). split; [by apply elem_of_map_to_list|].
  unfold block_objs. simpl. apply Z.eqb_neq in Hc. by rewrite Hc.
Qed.

Lemma kept_present st h o : inv st h -> kept st o -> o ∈ all_objs st h.
Proof.
  intros Hi [Hin|(l & v & Hb & Ho)]; apply elem_of_app; [by right|left].
  destruct (inv_borrow _ _ Hi l v Hb) as (b & Hl & <- & Hc). by eapply heap_objs_elem.
Qed.

Lemma coherent_sub os1 os2 bufs : (forall o, o ∈ os1 -> o ∈ os2) -> coherent os2 bufs -> coherent os1 bufs.
Proof. intros Hs [H1 H2 H3]. split; eauto. Qed.

(** The invariant only sees the handles of blocks and stack up to order. *)
Lemma inv_objs_perm st st' h :
  s_objs st ≡ₚ s_objs st' -> s_dying st = s_dying st' -> s_refs st = s_refs st' ->
  s_dead st = s_dead st' -> s_borrow st = s_borrow st' -> inv st h -> inv st' h.
Proof.
  intros Hp Ed Er Ez Eb [H1 H2 H3 H4 H5 H6 H7 H8 H9 H10].
  assert (Hpa : all_objs st h ≡ₚ all_objs st' h) by (unfold all_objs; by rewrite Hp).
  rewrite Ed in *. rewrite Er in *. rewrite Ez in *. rewrite Eb in *. split; auto.
  - intros r. rewrite H1. by apply handles_perm.
  - eapply coherent_sub; [|exact H4]. intros o. by rewrite Hpa.
Qed.
