(* ===== verification/HeapSpec.v ===== *)
(** * Specifications of the heap operations

    Each operation run from a heap that satisfies the invariant stays clear of
    undefined behaviour and re-establishes it, with the ownership it takes and
    gives written in the stack. *)

From S2P Require Import Prelude AssocList Object Value Heap.

(** What the runtime relies on of compiled code: called from a sound heap it leaves
    a sound heap, touching nothing the caller owns or borrows. *)
Class ForeignLaws `{Foreign} : Prop := {
  destructor_ok f p st h : inv st h -> wp (call_destructor f p) (fun _ => inv st) h;
  copy_ok f p q st h : inv st h -> wp (call_copy f p q) (fun _ => inv st) h;
  clone_glue_ok f bs st h : inv st h -> wp (call_clone_glue f bs) (fun _ => inv st) h;
  drop_glue_ok f bs st h : inv st h -> wp (call_drop_glue f bs) (fun _ => inv st) h;
}.

(** A reading of a heap that differs from it in the contents of blocks only.  The drops below are
    specified for every such reading: the plain one, and [holding], in which a block that is being
    changed is read with its new contents while memory still has the old ones. *)
Class Cover (g : Heap -> Heap) : Prop := {
  cover_strong h : h_strong (g h) = h_strong h;
  cover_buffers h : h_buffers (g h) = h_buffers h;
  cover_set_strong f h : g (set_strong f h) = set_strong f (g h);
  cover_set_buffers f h : g (set_buffers f h) = set_buffers f (g h);
  cover_set_locked b h : g (set_locked b h) = set_locked b (g h);
}.

Class ForeignAt (g : Heap -> Heap) `{Foreign} : Prop := {
  destructor_at f p st h : inv st (g h) -> wp (call_destructor f p) (fun _ h' => inv st (g h')) h;
  drop_glue_at f bs st h : inv st (g h) -> wp (call_drop_glue f bs) (fun _ h' => inv st (g h')) h;
}.

#[export] Instance cover_id : Cover (fun h => h).
Proof. by split. Qed.

#[export] Instance foreign_at_id `{ForeignLaws} : ForeignAt (fun h => h).
Proof. split; intros; [by apply destructor_ok|by apply drop_glue_ok]. Qed.

(** The contents of [l] read as [v]. *)
Definition holding (l : loc) (v : value) (h : Heap) : Heap := set_blocks (alter (fun b => mk_block (ref_count b) v) l) h.

#[export] Instance cover_holding l v : Cover (holding l v).
Proof. by split. Qed.

(** A mutation site owns its collection uniquely: the destructors that run while an element is being
    replaced or taken out do not look at the collection, so they keep a heap sound in which its
    contents are those to come. *)
Class ForeignExclusive `{Foreign} : Prop := foreign_exclusive l v :: ForeignAt (holding l v).

(** Membership in lists built from [++] and [::]. *)
Ltac elem :=
  intros; unfold all_objs in *; simpl in *;
  rewrite ?elem_of_app, ?elem_of_cons, ?elem_of_nil in *; intuition (subst; tauto).

Section Specs.
Context `{AllocatorLaws} `{ForeignLaws} `{Callbacks} `{Floats}.
Implicit Types (st : stack) (h : Heap) (o : ObjectRef) (v : value) (l : loc).

(** ** The registry lock *)

Lemma inv_set_locked b st h : inv st h -> inv st (set_locked b h).
Proof. intros []. by split. Qed.

Lemma wp_with_registry_at {A} g `{!Cover g} (f : Registry -> A) st h :
  inv st (g h) -> wp (with_registry f) (fun _ h' => inv st (g h')) h.
Proof.
  intros Hi. unfold with_registry, lock_registry, unlock_registry. wp_steps.
  destruct (h_locked h); [exact I|]. wp_steps. rewrite !cover_set_locked. by do 2 apply inv_set_locked.
Qed.

Lemma wp_with_registry {A} (f : Registry -> A) st h :
  inv st h -> wp (with_registry f) (fun _ => inv st) h.
Proof. apply (wp_with_registry_at (fun h => h)). Qed.

(** ** Object handles *)

Lemma inv_own_clone st h o n :
  inv st h -> o ∈ all_objs st h -> h_strong h !! obj_rc o = Some n ->
  inv (own [o] st) (set_strong (insert (obj_rc o) (n + 1)) h).
Proof.
  intros Hi Ho Hn. pose proof (inv_strong _ _ Hi (obj_rc o)) as Hs. rewrite Hn in Hs. simpl in Hs.
  pose proof (handles_elem _ _ Ho).
  destruct Hi as [I1 I2 I3 I4 I5 I6 I7 I8 I9 I10]. split; simpl; try done.
  - intros r. unfold all_objs. simpl. rewrite handles_app, handles_cons.
    specialize (I1 r). unfold all_objs in *. rewrite handles_app in *. destruct (decide (obj_rc o = r)) as [<-|Hne].
    + rewrite lookup_insert_eq. simpl. lia.
    + rewrite lookup_insert_ne by done. lia.
  - intros o' Ho'. rewrite lookup_insert_ne; [by apply I2|].
    intros E. apply I2 in Ho'. rewrite <- E in Ho'. simplify_eq. lia.
  - eapply coherent_sub; [|exact I4]. elem.
Qed.

Lemma wp_clone_object st h o :
  inv st h -> kept st o -> wp (clone_object o) (fun o' h' => o' = o /\ inv (own [o] st) h') h.
Proof.
  intros Hi Hk. apply (kept_present _ _ _ Hi) in Hk.
  pose proof (inv_strong _ _ Hi (obj_rc o)) as Hs. pose proof (handles_elem _ _ Hk).
  unfold clone_object. wp_steps. destruct (h_strong h !! obj_rc o) as [n|] eqn:En; simpl in Hs; [|lia].
  destruct (n =? 0) eqn:E0; bool_to_prop; [lia|].
  destruct (n =? usize_max); [exact I|]. wp_steps. split; [done|]. by apply inv_own_clone.
Qed.

(** The last handle goes: the object starts dying. *)
Lemma inv_start_dying st h o :
  inv (own [o] st) h -> h_strong h !! obj_rc o = Some 1 ->
  inv (dying o st) (set_strong (insert (obj_rc o) 0) h).
Proof.
  intros Hi Hn. pose proof (inv_strong _ _ Hi (obj_rc o)) as Hs. rewrite Hn in Hs.
  unfold all_objs in Hs. simpl in Hs. rewrite handles_app, handles_cons, decide_True in Hs by done.
  destruct Hi as [I1 I2 I3 I4 I5 I6 I7 I8 I9 I10]. split; simpl in *; try done.
  - intros r. specialize (I1 r). unfold all_objs in *. simpl in *. rewrite handles_app, ?handles_cons in *.
    destruct (decide (obj_rc o = r)) as [<-|Hne].
    + rewrite lookup_insert_eq. simpl. lia.
    + rewrite lookup_insert_ne by done. lia.
  - intros o' [->|Ho']%elem_of_cons; [by rewrite lookup_insert_eq|].
    destruct (decide (obj_rc o = obj_rc o')) as [<-|Hne]; [by rewrite lookup_insert_eq|].
    rewrite lookup_insert_ne by done. by apply I2.
  - constructor; [|done]. rewrite list_elem_of_fmap. intros (o' & E & Ho').
    apply I2 in Ho'. rewrite <- E in Ho'. congruence.
  - eapply coherent_sub; [|exact I4]. elem.
Qed.

Lemma inv_drop_handle st h o n :
  inv (own [o] st) h -> h_strong h !! obj_rc o = Some n -> n <> 1 ->
  inv st (set_strong (insert (obj_rc o) (n - 1)) h).
Proof.
  intros Hi Hn Hne. pose proof (inv_strong _ _ Hi (obj_rc o)) as Hs. rewrite Hn in Hs.
  unfold all_objs in Hs. simpl in Hs. rewrite handles_app, handles_cons, decide_True in Hs by done.
  pose proof (handles_pos (obj_rc o) (heap_objs (h_blocks h))).
  pose proof (handles_pos (obj_rc o) (s_objs st)).
  destruct Hi as [I1 I2 I3 I4 I5 I6 I7 I8 I9 I10]. split; simpl in *; try done.
  - intros r. specialize (I1 r). unfold all_objs in *. simpl in *. rewrite handles_app, ?handles_cons in *.
    destruct (decide (obj_rc o = r)) as [<-|Hner].
    + rewrite lookup_insert_eq. simpl. lia.
    + rewrite lookup_insert_ne by done. lia.
  - intros o' Ho'. rewrite lookup_insert_ne; [by apply I2|].
    intros E. apply I2 in Ho'. rewrite <- E in Ho'. simplify_eq. lia.
  - eapply coherent_sub; [|exact I4]. elem.
Qed.

(** A dead object gives up its buffer, then its handle block. *)
Lemma inv_free_buffer st h o :
  inv (dying o st) h -> has_buffer o = true ->
  inv (dying (mk_object (obj_rc o) 0 (obj_type o) 0) st) (set_buffers (delete (obj_ptr o)) h).
Proof.
  intros Hi Hb. destruct Hi as [I1 I2 I3 I4 I5 I6 I7 I8 I9 I10]. split; simpl in *; try done.
  - intros o' [->|Ho']%elem_of_cons; [apply (I2 o); elem|apply I2; elem].
  - apply NoDup_cons in I3 as [Hnin _].
    assert (Hz : handles (obj_rc o) (all_objs (dying o st) h) = 0).
    { rewrite <- I1, (I2 o) by elem. done. }
    assert (Hother : forall o', o' ∈ all_objs (dying o st) h ++ s_dying st -> obj_rc o' <> obj_rc o).
    { intros o' [Ho'|Ho']%elem_of_app; [by eapply handles_zero|].
      intros E. apply Hnin. rewrite <- E. by apply list_elem_of_fmap_2. }
    destruct I4 as [C1 C2 C3]. set (o0 := mk_object _ 0 _ 0) in *.
    assert (Hnew : forall o', o' ∈ all_objs (dying o0 st) h ++ o0 :: s_dying st ->
      o' = o0 \/ (o' ∈ all_objs (dying o st) h ++ s_dying st /\
                  o' ∈ all_objs (dying o st) h ++ o :: s_dying st)).
    { intros o'. unfold all_objs. simpl. rewrite !elem_of_app, !elem_of_cons. tauto. }
    assert (Ho : o ∈ all_objs (dying o st) h ++ o :: s_dying st) by elem.
    assert (Hno : has_buffer o0 = false) by done.
    split.
    + intros o1 o2 [->|[? ?]]%Hnew [->|[? ?]]%Hnew E; try done; [| |by apply C1];
        exfalso; by eapply Hother.
    + intros o1 o2 [->|[? ?]]%Hnew [->|[? ?]]%Hnew Hb1 Hb2 E; try congruence. by apply C2.
    + intros o1 [->|[Ho1 Ho1']]%Hnew Hb1; [congruence|].
      rewrite lookup_delete_ne; [by apply C3|]. intros E.
      apply (Hother o1); [done|]. by apply C2.
Qed.

Lemma inv_end_dying st h o :
  inv (dying o st) h -> inv st (set_strong (delete (obj_rc o)) h).
Proof.
  intros Hi. destruct Hi as [I1 I2 I3 I4 I5 I6 I7 I8 I9 I10]. split; simpl in *; try done.
  - intros r. destruct (decide (obj_rc o = r)) as [<-|Hne].
    + rewrite lookup_delete_eq. simpl. pose proof (I1 (obj_rc o)) as Hs.
      rewrite (I2 o) in Hs by elem. exact Hs.
    + rewrite lookup_delete_ne by done. apply I1.
  - intros o' Ho'. apply NoDup_cons in I3 as [Hnin _]. rewrite lookup_delete_ne; [apply I2; elem|].
    intros E. apply Hnin. rewrite E. by apply list_elem_of_fmap_2.
  - by apply NoDup_cons in I3 as [_ ?].
  - eapply coherent_sub; [|exact I4]. elem.
Qed.

Section Dropping.
Context (g : Heap -> Heap) `{!Cover g} `{!ForeignAt g}.

Lemma wp_call_object_destructor st h id p :
  inv st (g h) -> wp (call_object_destructor id p) (fun _ h' => inv st (g h')) h.
Proof.
  intros Hi. unfold call_object_destructor. destruct (p =? 0); [done|].
  eapply wp_use; [by apply (wp_with_registry_at g)|]. intros [f|] h' Hi'; [by apply destructor_at|done].
Qed.

Lemma wp_drop_object_data st h o :
  inv (dying o st) (g h) ->
  wp (drop_object_data o)
    (fun _ h' => inv st (g (set_strong (delete (obj_rc o)) h'))) h.
Proof.
  intros Hi. unfold drop_object_data. destruct (negb _ && _) eqn:Eb.
  2: { wp_steps. rewrite cover_set_strong. by apply inv_end_dying. }
  eapply wp_use; [by apply wp_call_object_destructor|]. intros [] h' Hi'; cbv beta in Hi'.
  unfold dealloc_buffer. wp_steps.
  rewrite <- (cover_buffers h'), (coh_buf _ _ (inv_coh _ _ Hi') o) by (done || (apply elem_of_app; right; left)).
  rewrite Z.eqb_refl. wp_steps. pose proof (inv_free_buffer _ _ _ Hi' Eb) as Hf.
  rewrite cover_set_strong, cover_set_buffers. apply inv_end_dying in Hf. exact Hf.
Qed.

Lemma wp_drop_object_at st h o : inv (own [o] st) (g h) -> wp (drop_object o) (fun _ h' => inv st (g h')) h.
Proof.
  intros Hi. pose proof (inv_strong _ _ Hi (obj_rc o)) as Hs.
  pose proof (handles_elem o (all_objs (own [o] st) (g h))) as He. rewrite cover_strong in Hs.
  unfold drop_object. wp_steps. destruct (h_strong h !! obj_rc o) as [n|] eqn:En; simpl in Hs.
  2: { specialize (He ltac:(apply elem_of_app; right; left)). lia. }
  destruct (n =? 0) eqn:E0; bool_to_prop.
  { specialize (He ltac:(apply elem_of_app; right; left)). lia. }
  rewrite <- (cover_strong h) in En.
  wp_steps. destruct (n =? 1) eqn:E1; bool_to_prop.
  - clear Hs He. subst n. eapply wp_use; [apply wp_drop_object_data; rewrite cover_set_strong; by apply inv_start_dying|].
    intros [] h' Hi'; cbv beta in Hi'. by wp_steps.
  - wp_steps. rewrite cover_set_strong. by apply inv_drop_handle.
Qed.

End Dropping.

Lemma wp_drop_object st h o : inv (own [o] st) h -> wp (drop_object o) (fun _ => inv st) h.
Proof. apply (wp_drop_object_at (fun h => h)). Qed.

(** ** Clone and drop of values *)

Lemma own_nil st : own [] st = st.
Proof. by destruct st. Qed.

Lemma inv_own_app os1 os2 st h : inv (own os1 (own os2 st)) h <-> inv (own (os1 ++ os2) st) h.
Proof. unfold own. simpl. by rewrite app_assoc. Qed.

Lemma inv_own_perm os1 os2 st h : os1 ≡ₚ os2 -> inv (own os1 st) h -> inv (own os2 st) h.
Proof. intros Hp. apply inv_objs_perm; simpl; try done. by rewrite Hp. Qed.

Lemma kept_own os st o : kept st o -> kept (own os st) o.
Proof. intros [?|?]; [left; elem|by right]. Qed.

Lemma visit_own {A} (g : Heap -> Heap) (f : A -> M unit) (os : A -> list ObjectRef) :
  forall (l : list A) st h,
  (forall x, x ∈ l -> forall st h, inv (own (os x) st) (g h) -> wp (f x) (fun _ h' => inv st (g h')) h) ->
  inv (own (flat_map os l) st) (g h) -> wp (visit f l) (fun _ h' => inv st (g h')) h.
Proof.
  induction l as [|x r IH]; intros st h Hf Hi; simpl in *.
  { rewrite own_nil in Hi. by wp_steps. }
  apply inv_own_app in Hi. eapply wp_use; [apply Hf; [left|exact Hi]|].
  intros [] h' Hi'. apply IH; [|done]. intros y Hy. apply Hf. by right.
Qed.

(** What producing one owned value from a kept one means. *)
Definition copies {A} (f : A -> M A) (os : A -> list ObjectRef) (x : A) : Prop :=
  forall st h, inv st h -> (forall o, o ∈ os x -> kept st o) ->
  wp (f x) (fun y => inv (own (os y) st)) h.

Lemma traverse_copies {A} (f : A -> M A) (os : A -> list ObjectRef) (l : list A) :
  (forall x, x ∈ l -> copies f os x) -> copies (traverse f) (flat_map os) l.
Proof.
  intros Hf st h Hi Hk. revert st h Hi Hk. induction l as [|x r IH]; intros st h Hi Hk; simpl in *.
  { wp_steps. simpl. by rewrite own_nil. }
  eapply wp_use.
  { apply Hf; [left|exact Hi|]. intros o Ho. apply Hk. apply elem_of_app. by left. }
  intros y h1 Hi1; cbv beta in Hi1. eapply wp_use.
  { apply IH; [intros z Hz; apply Hf; by right|exact Hi1|].
    intros o Ho. apply kept_own, Hk, elem_of_app. by right. }
  intros ys h2 Hi2; cbv beta in Hi2. wp_steps. simpl. apply inv_own_app in Hi2.
  eapply inv_own_perm; [|exact Hi2]. apply Permutation_app_comm.
Qed.

Lemma pair_copies {A B} (f : A -> M A) (g : B -> M B) (oa : A -> list ObjectRef) (ob : B -> list ObjectRef) x y :
  copies f oa x -> copies g ob y ->
  copies (fun e => let! a := f e.1 in let! b := g e.2 in ret (a, b)) (fun e => oa e.1 ++ ob e.2) (x, y).
Proof.
  intros Hf Hg st h Hi Hk. simpl in *. eapply wp_use.
  { apply Hf; [exact Hi|]. intros o Ho. apply Hk. apply elem_of_app. by left. }
  intros a h1 Hi1; cbv beta in Hi1. eapply wp_use.
  { apply Hg; [exact Hi1|]. intros o Ho. apply kept_own, Hk, elem_of_app. by right. }
  intros b h2 Hi2; cbv beta in Hi2. wp_steps. simpl. apply inv_own_app in Hi2.
  eapply inv_own_perm; [|exact Hi2]. apply Permutation_app_comm.
Qed.

Lemma wp_clone_enum st h e :
  inv st h -> wp (clone_enum e) (fun e' => inv (own (objs (VBoxedEnum e')) st)) h.
Proof.
  intros Hi. unfold clone_enum. eapply wp_use; [by apply clone_glue_ok|].
  intros bs h' Hi'; cbv beta in Hi'. wp_steps. simpl. by rewrite own_nil.
Qed.

(** Induction on values through their containers. *)
Lemma value_ind' (P : value -> Prop) :
  (forall v, (forall x, x ∈ children v -> P x) -> P v) -> forall v, P v.
Proof.
  intros Hs v. remember (depth v) as n eqn:En.
  assert (Hd : (depth v <= n)%nat) by lia. clear En. revert v Hd.
  induction n as [|n IH]; intros v Hd; [pose proof (depth_pos v); lia|].
  apply Hs. intros x Hx%depth_child. apply IH. lia.
Qed.

(** Lift a copy through a constructor with the same handles. *)
Lemma copies_map {A B} (f : A -> M A) (oa : A -> list ObjectRef) (C : A -> B) (ob : B -> list ObjectRef) st h x :
  (forall y, ob (C y) = oa y) -> copies f oa x -> inv st h -> (forall o, o ∈ oa x -> kept st o) ->
  wp (let! y := f x in ret (C y)) (fun z => inv (own (ob z) st)) h.
Proof.
  intros HC Hf Hi Hk. eapply wp_use; [by apply Hf|]. intros y h' Hi'; cbv beta in Hi'.
  wp_steps. by rewrite HC.
Qed.

Lemma wp_ret_own {A} (os : A -> list ObjectRef) x st h :
  os x = [] -> inv st h -> wp (ret x) (fun y => inv (own (os y) st)) h.
Proof. intros E Hi. wp_steps. by rewrite E, own_nil. Qed.

Lemma map_copies (f : value -> M value) m :
  (forall x, x ∈ children (VMap m) -> copies f objs x) ->
  copies (traverse (fun e => let! k := f e.1 in let! x := f e.2 in ret (k, x)))
    (flat_map (fun e => objs e.1 ++ objs e.2)) m.
Proof.
  intros Hf. apply traverse_copies. intros [k x] Hin.
  apply (pair_copies f f objs objs); apply Hf; [by eapply map_children_l|by eapply map_children_r].
Qed.

Lemma tuple_copies (f : value -> M value) st h a b :
  copies f objs a -> copies f objs b -> inv st h -> (forall o, o ∈ objs a ++ objs b -> kept st o) ->
  wp (let! a' := f a in let! b' := f b in ret (VTuple a' b')) (fun z => inv (own (objs z) st)) h.
Proof.
  intros Ha Hb Hi Hk. eapply wp_use; [apply Ha; [exact Hi|]|].
  { intros o Ho. apply Hk, elem_of_app. by left. }
  intros a' h1 Hi1; cbv beta in Hi1. eapply wp_use; [apply Hb; [exact Hi1|]|].
  { intros o Ho. apply kept_own, Hk, elem_of_app. by right. }
  intros b' h2 Hi2; cbv beta in Hi2. wp_steps. simpl. apply inv_own_app in Hi2.
  eapply inv_own_perm; [|exact Hi2]. apply Permutation_app_comm.
Qed.

Lemma clone_value_copies v : copies clone_value objs v.
Proof.
  induction v as [v IH] using value_ind'. intros st h Hi Hk.
  destruct v as [| | | | |l| |m|s|a b|[a|]|[a|a]|o| |e]; simpl in *; try by apply wp_ret_own.
  - eapply (copies_map (traverse clone_value)); [done|by apply traverse_copies|done..].
  - eapply copies_map; [|by apply map_copies|done..]. done.
  - eapply (copies_map (traverse clone_value)); [done|by apply traverse_copies|done..].
  - apply tuple_copies; try done; apply IH; elem.
  - eapply copies_map; [|apply IH; elem|done..]. done.
  - eapply copies_map; [|apply IH; elem|done..]. done.
  - eapply copies_map; [|apply IH; elem|done..]. done.
  - eapply wp_use; [apply wp_clone_object; [exact Hi|apply Hk; elem]|].
    intros o' h' [-> Hi']. by wp_steps.
  - eapply wp_use; [by apply wp_clone_enum|]. intros e' h' Hi'. by wp_steps.
Qed.

Lemma wp_drop_value_at g `{!Cover g} `{!ForeignAt g} v st h : inv (own (objs v) st) (g h) -> wp (drop_value v) (fun _ h' => inv st (g h')) h.
Proof.
  revert st h. induction v as [v IH] using value_ind'. intros st h Hi.
  destruct v as [| | | | |l| |m|s|a b|[a|]|[a|a]|o| |e]; simpl in *;
    try (rewrite own_nil in Hi; by wp_steps).
  - by apply (visit_own g _ objs).
  - apply (visit_own g _ (fun e => objs e.1 ++ objs e.2)); [|done]. intros [k x] Hin st' h' Hi'. simpl in *.
    apply inv_own_app in Hi'. eapply wp_use; [apply IH; [by eapply map_children_l|exact Hi']|].
    intros [] h2 Hi2. apply IH; [by eapply map_children_r|exact Hi2].
  - by apply (visit_own g _ objs).
  - apply inv_own_app in Hi. eapply wp_use; [apply IH; [elem|exact Hi]|].
    intros [] h2 Hi2. apply IH; [elem|exact Hi2].
  - apply IH; [elem|done].
  - apply IH; [elem|done].
  - apply IH; [elem|done].
  - by apply wp_drop_object_at.
  - rewrite own_nil in Hi. by apply drop_glue_at.
Qed.

Lemma wp_drop_value v st h : inv (own (objs v) st) h -> wp (drop_value v) (fun _ => inv st) h.
Proof. apply (wp_drop_value_at (fun h => h)). Qed.

Lemma wp_drop_all_at g `{!Cover g} `{!ForeignAt g} vs st h :
  inv (own (flat_map objs vs) st) (g h) -> wp (visit drop_value vs) (fun _ h' => inv st (g h')) h.
Proof. apply visit_own. intros v _ st' h'. by apply wp_drop_value_at. Qed.

(** ** Blocks *)

Lemma inv_new_block st h l v :
  inv (own (objs v) st) h -> h_blocks h !! l = None ->
  inv (ref l st) (set_live (fun n => n + 1) (set_blocks (insert l (mk_block 1 v)) h)).
Proof.
  intros [I1 I2 I3 I4 I5 I6 I7 I8 I9 I10] Hl.
  assert (Hp : all_objs (ref l st) (set_live (fun n => n + 1) (set_blocks (insert l (mk_block 1 v)) h))
    ≡ₚ all_objs (own (objs v) st) h).
  { unfold all_objs. simpl. rewrite heap_objs_insert by done. unfold block_objs. simpl.
    rewrite !app_assoc. f_equiv. apply Permutation_app_comm. }
  assert (Hne : forall l' b, h_blocks h !! l' = Some b -> l' <> l) by congruence.
  split; simpl in *; try done.
  - intros r. rewrite (handles_perm _ _ _ Hp). apply I1.
  - eapply coherent_sub; [|exact I4]. intros o. by rewrite Hp.
  - intros l' Hl'. destruct (decide (l' = l)) as [->|Hn].
    + exists (mk_block 1 v). rewrite lookup_insert_eq. split; [done|].
      rewrite refs_to_cons, decide_True by done. pose proof (refs_to_pos l (s_refs st)).
      destruct (decide (1 <= refs_to l (s_refs st))) as [Hin%refs_to_elem|]; [|simpl; width].
      destruct (I5 l Hin) as (b & ? & ?). congruence.
    + apply elem_of_cons in Hl' as [->|Hin]; [done|]. destruct (I5 l' Hin) as (b & Hb & Hc).
      exists b. rewrite lookup_insert_ne, refs_to_cons, decide_False by done. done.
  - intros l' Hin. destruct (I6 l' Hin) as (b & Hb & Hc). exists b.
    rewrite lookup_insert_ne by (symmetry; by eapply Hne). done.
  - intros l' w Hin. destruct (I8 l' w Hin) as (b & Hb & Hc). exists b.
    rewrite lookup_insert_ne by (symmetry; by eapply Hne). done.
  - rewrite map_size_insert_None by done. rewrite I9. lia.
Qed.

Lemma wp_mux_rc_alloc v st h :
  inv (own (objs v) st) h ->
  wp (mux_rc_alloc v) (fun p h' =>
    match p with
    | None => inv st h'
    | Some l => inv (ref l st) h' /\ h_blocks h' !! l = Some (mk_block 1 v) /\
        forall w, (l, w) ∉ s_borrow st
    end) h.
Proof.
  intros Hi. unfold mux_rc_alloc. wp_steps. destruct (new_block h) as [l|] eqn:El.
  - apply new_block_fresh in El as Hfresh. wp_steps. split_and!; [|apply lookup_insert_eq|].
    + by apply inv_new_block.
    + intros w Hw. destruct (inv_borrow _ _ Hi l w Hw) as (b & Hb & _). congruence.
  - eapply wp_use; [by apply wp_drop_value|]. intros [] h' Hi'. by wp_steps.
Qed.

(** A count moves between nonzero values. *)
Lemma inv_recount st R h l b c :
  inv st h -> h_blocks h !! l = Some b -> ref_count b <> 0 -> c <> 0 ->
  (forall l', l' ∈ R -> l' <> l -> l' ∈ s_refs st /\ refs_to l' R = refs_to l' (s_refs st)) ->
  (l ∈ R -> refs_to l R <= c <= u64_max) ->
  inv (mk_stack (s_objs st) (s_dying st) R (s_dead st) (s_borrow st))
    (set_blocks (insert l (mk_block c (payload b))) h).
Proof.
  intros [I1 I2 I3 I4 I5 I6 I7 I8 I9 I10] Hl Hb Hc HR HlR.
  set (h' := set_blocks _ h). set (st' := mk_stack _ _ R _ _).
  assert (Hp : all_objs st' h' ≡ₚ all_objs st h).
  { unfold all_objs. simpl. f_equiv. apply (Permutation_app_inv_l (objs (payload b))).
    pose proof (heap_objs_update _ _ _ (mk_block c (payload b)) Hl) as Hu.
    unfold block_objs in Hu. simpl in Hu. apply Z.eqb_neq in Hb, Hc. by rewrite Hb, Hc in Hu. }
  split; simpl in *; try done.
  - intros r. rewrite (handles_perm _ _ _ Hp). apply I1.
  - eapply coherent_sub; [|exact I4]. intros o. by rewrite Hp.
  - intros l' Hin. destruct (decide (l' = l)) as [->|Hn].
    + rewrite lookup_insert_eq. eexists. split; [done|]. by apply HlR.
    + rewrite lookup_insert_ne by done. destruct (HR l' Hin Hn) as [Hin' ->]. by apply I5.
  - intros l' Hin. destruct (I6 l' Hin) as (b' & Hb' & E). exists b'.
    rewrite lookup_insert_ne; [done|]. intros ->. congruence.
  - intros l' w Hin. destruct (I8 l' w Hin) as (b' & Hb' & E1 & E2). destruct (decide (l' = l)) as [->|Hn].
    + rewrite lookup_insert_eq. simplify_eq. eexists. by split_and!.
    + rewrite lookup_insert_ne by done. by exists b'.
  - rewrite map_size_insert_Some by done. done.
Qed.

Lemma wp_mux_rc_inc st h l b :
  inv st h -> l ∈ s_refs st -> h_blocks h !! l = Some b -> ref_count b < u64_max ->
  wp (mux_rc_inc (Some l)) (fun _ => inv (ref l st)) h.
Proof.
  intros Hi Hin Hb Hc. destruct (inv_refs _ _ Hi l Hin) as (b' & Hb' & Hr).
  rewrite Hb' in Hb. injection Hb as ->.
  apply refs_to_elem in Hin as Hin'. unfold mux_rc_inc, get_block. wp_steps. rewrite Hb'. wp_steps.
  rewrite as_u64_small by width.
  apply (inv_recount st (l :: s_refs st)); try done; try lia.
  - intros l' [->|Hl']%elem_of_cons Hn; [done|]. by rewrite refs_to_cons, decide_False.
  - intros _. rewrite refs_to_cons, decide_True by done. width.
Qed.

(** The count drops to zero: the payload passes to the stack. *)
Lemma inv_last_ref st h l b :
  inv (ref l st) h -> (forall v, (l, v) ∉ s_borrow st) ->
  h_blocks h !! l = Some b -> ref_count b = 1 ->
  inv (dead l (own (objs (payload b)) st)) (set_blocks (insert l (mk_block 0 (payload b))) h).
Proof.
  intros [I1 I2 I3 I4 I5 I6 I7 I8 I9 I10] Hbor Hl Hc.
  set (h' := set_blocks _ h). set (st' := dead _ _).
  assert (Hp : all_objs st' h' ≡ₚ all_objs st h).
  { unfold all_objs. simpl. pose proof (heap_objs_update _ _ _ (mk_block 0 (payload b)) Hl) as Hu.
    unfold block_objs in Hu. simpl in Hu. rewrite Hc in Hu. simpl in Hu. rewrite <- Hu.
    rewrite !app_assoc. f_equiv. apply Permutation_app_comm. }
  assert (Hnr : l ∉ s_refs st).
  { intros Hin%refs_to_elem. destruct (I5 l) as (b' & Hb' & Hr); [by left|]. simpl in Hr.
    rewrite refs_to_cons, decide_True in Hr by done. simplify_eq. lia. }
  split; simpl in *; try done.
  - intros r. rewrite (handles_perm _ _ _ Hp). apply I1.
  - eapply coherent_sub; [|exact I4]. intros o. by rewrite Hp.
  - intros l' Hin. assert (l' <> l) as Hn by congruence. rewrite lookup_insert_ne by done.
    destruct (I5 l') as (b' & Hb' & Hr); [by right|]. rewrite refs_to_cons, decide_False in Hr by done. eauto.
  - intros l' [->|Hin]%elem_of_cons; [rewrite lookup_insert_eq; eauto|].
    destruct (I6 l' Hin) as (b' & Hb' & E). exists b'. rewrite lookup_insert_ne; [done|]. intros ->. congruence.
  - constructor; [|done]. intros Hin. destruct (I6 l Hin) as (b' & Hb' & E). congruence.
  - intros l' w Hin. destruct (I8 l' w Hin) as (b' & Hb' & E1 & E2). exists b'.
    rewrite lookup_insert_ne; [done|]. intros ->. by apply (Hbor w).
  - by rewrite map_size_insert_Some.
Qed.

Lemma inv_free_block st h l :
  inv (dead l st) h -> inv st (set_live (fun n => n - 1) (set_blocks (delete l) h)).
Proof.
  intros [I1 I2 I3 I4 I5 I6 I7 I8 I9 I10]. destruct (I6 l) as (b & Hb & Hc); [by left|].
  set (h' := set_live _ _).
  assert (Hp : all_objs st h' ≡ₚ all_objs (dead l st) h).
  { unfold all_objs. simpl. rewrite (heap_objs_delete _ _ _ Hb). unfold block_objs. simpl. by rewrite Hc. }
  simpl in *. apply NoDup_cons in I7 as [Hnin Hnd].
  split; simpl in *; try done.
  - intros r. rewrite (handles_perm _ _ _ Hp). apply I1.
  - eapply coherent_sub; [|exact I4]. intros o. by rewrite Hp.
  - intros l' Hin. destruct (I5 l' Hin) as (b' & Hb' & Hr). exists b'. rewrite lookup_delete_ne; [done|].
    intros ->. apply refs_to_elem in Hin. simplify_eq. lia.
  - intros l' Hin. rewrite lookup_delete_ne by congruence. apply I6. by right.
  - intros l' w Hin. destruct (I8 l' w Hin) as (b' & Hb' & E1 & E2). exists b'.
    rewrite lookup_delete_ne; [done|]. intros ->. congruence.
  - rewrite I9, map_size_delete_Some by (by eexists).
    assert (size (h_blocks h) <> 0%nat); [|lia]. apply map_size_non_empty_iff. intros E. by rewrite E in Hb.
Qed.

Lemma wp_mux_rc_dec st h l :
  inv (ref l st) h -> (forall v, (l, v) ∉ s_borrow st) ->
  wp (mux_rc_dec (Some l)) (fun _ => inv st) h.
Proof.
  intros Hi Hbor. destruct (inv_refs _ _ Hi l) as (b & Hb & Hr); [by left|]. simpl in Hr.
  rewrite refs_to_cons, decide_True in Hr by done. pose proof (refs_to_pos l (s_refs st)).
  unfold mux_rc_dec, get_block. wp_steps. rewrite Hb. wp_steps. rewrite as_u64_small by width.
  destruct (ref_count b =? 1) eqn:E1; bool_to_prop.
  - rewrite E1. eapply wp_use; [apply (wp_drop_value _ (dead l st)); by apply (inv_last_ref st h l b)|].
    intros [] h' Hi'; cbv beta in Hi'. wp_steps. by apply inv_free_block.
  - wp_steps. pose proof (inv_recount (ref l st) (s_refs st) h l b (ref_count b - 1) Hi Hb) as Hrec.
    assert (st = mk_stack (s_objs (ref l st)) (s_dying (ref l st)) (s_refs st) (s_dead (ref l st))
      (s_borrow (ref l st))) as -> by (by destruct st).
    apply Hrec; [lia|lia| |].
    + intros l' Hin Hn. simpl. rewrite refs_to_cons, decide_False by done. split; [by right|done].
    + intros _. lia.
Qed.

(** ** Objects *)

Lemma inv_new_object st h r p id size :
  inv st h -> h_strong h !! r = None -> h_buffers h !! p = None -> p <> 0 ->
  inv (own [mk_object r p id size] st)
    (set_strong (insert r 1) (set_buffers (insert p size) h)).
Proof.
  intros [I1 I2 I3 [C1 C2 C3] I5 I6 I7 I8 I9 I10] Hr Hp Hp0.
  set (o := mk_object _ _ _ _). set (h' := set_strong _ _).
  assert (Hz : handles r (all_objs st h) = 0) by (by rewrite <- I1, Hr).
  assert (Hother : forall o', o' ∈ all_objs st h ++ s_dying st -> obj_rc o' <> r).
  { intros o' [Ho'|Ho']%elem_of_app; [by eapply handles_zero|]. intros E. apply I2 in Ho'. congruence. }
  assert (Hbuf : forall o', o' ∈ all_objs st h ++ s_dying st -> has_buffer o' = true -> obj_ptr o' <> p).
  { intros o' Ho' Hb E. rewrite <- E in Hp. by rewrite (C3 o') in Hp. }
  assert (Hcase : forall o', o' ∈ all_objs (own [o] st) h' ++ s_dying (own [o] st) ->
    o' = o \/ o' ∈ all_objs st h ++ s_dying st) by elem.
  split; simpl in *; try done.
  - intros r'. unfold all_objs in *. simpl. rewrite handles_app, handles_cons in *. specialize (I1 r').
    rewrite handles_app in I1. simpl. destruct (decide (r = r')) as [<-|Hne].
    + rewrite lookup_insert_eq. simpl. lia.
    + rewrite lookup_insert_ne by done. lia.
  - intros o' Ho'. rewrite lookup_insert_ne; [by apply I2|]. intros E. apply (Hother o'); [elem|done].
  - split.
    + intros o1 o2 [->|?]%Hcase [->|?]%Hcase E; try done; [| |by apply C1]; exfalso; by eapply Hother.
    + intros o1 o2 [->|?]%Hcase [->|?]%Hcase Hb1 Hb2 E; try done; [| |by apply C2]; exfalso; by eapply Hbuf.
    + intros o1 [->|?]%Hcase Hb1; [apply lookup_insert_eq|].
      rewrite lookup_insert_ne; [by apply C3|]. intros E. by apply (Hbuf o1).
Qed.

(** A block reference handed to the caller, not borrowed by anyone. *)
Definition gives (st : stack) (p : ptr) (h : Heap) : Prop :=
  match p with
  | None => inv st h
  | Some l => inv (ref l st) h /\ (forall w, (l, w) ∉ s_borrow st) /\ is_Some (h_blocks h !! l)
  end.

Lemma gives_locked st p b h : gives st p h -> gives st p (set_locked b h).
Proof. destruct p; simpl; [|apply inv_set_locked]. intros (?&?&?). split_and!; try done. by apply inv_set_locked. Qed.

Lemma wp_alloc_object st h id : inv st h -> wp (alloc_object id) (gives st) h.
Proof.
  intros Hi. unfold alloc_object, lock_registry. wp_steps. destruct (h_locked h); [exact I|]. wp_steps.
  apply (inv_set_locked true) in Hi. simpl. set (h1 := set_locked true h) in *.
  change (types (h_registry h)) with (types (h_registry h1)).
  assert (Hend : forall m : M ptr, wp m (gives st) h1 ->
    wp (let! result := m in unlock_registry ;! ret result) (gives st) h1).
  { intros m Hm. eapply wp_use; [exact Hm|]. intros p h' Hp; cbv beta in Hp.
    unfold unlock_registry. wp_steps. by apply gives_locked. }
  apply Hend. destruct (types (h_registry h1) !! id) as [t|] eqn:Et; [|done].
  destruct (isize_max <? ot_size t); [done|].
  pose proof (inv_sizes _ _ Hi id t Et) as Hsz.
  unfold alloc_buffer. destruct (ot_size t =? 0) eqn:E0; bool_to_prop; [lia|]. wp_steps.
  destruct (new_buffer h1 (ot_size t)) as [p|] eqn:Ep; [|by wp_steps].
  apply new_buffer_fresh in Ep as [Hf Hp0]. wp_steps. apply Z.eqb_neq in Hp0 as Ep0. rewrite Ep0.
  unfold ObjectRef_new. wp_steps.
  eapply wp_mono; [|apply wp_mux_rc_alloc; apply inv_new_object; [done|exact (new_rc_fresh (set_buffers _ h1))|done..]].
  intros [l|] h' Hpost; [|done]. destruct Hpost as (? & Hb & ?). split_and!; first [done|by rewrite Hb].
Qed.

Lemma inv_borrow_intro st h l b :
  inv st h -> h_blocks h !! l = Some b -> ref_count b <> 0 -> inv (borrow l (payload b) st) h.
Proof.
  intros [I1 I2 I3 I4 I5 I6 I7 I8 I9 I10] Hl Hc. split; try done. simpl.
  intros l' v [[= -> ->]|Hin]%elem_of_cons; [by exists b|by apply I8].
Qed.

Lemma inv_unborrow st h l v : inv (borrow l v st) h -> inv st h.
Proof.
  intros [I1 I2 I3 I4 I5 I6 I7 I8 I9 I10]. split; try done. intros l' w Hin. apply I8. by right.
Qed.

(** A reference the stack owns can be read and its contents borrowed. *)
Lemma inv_ref_block st h l : inv (ref l st) h ->
  exists b, h_blocks h !! l = Some b /\ ref_count b <> 0 /\ inv (borrow l (payload b) (ref l st)) h.
Proof.
  intros Hi. destruct (inv_refs _ _ Hi l) as (b & Hb & Hr); [by left|]. simpl in Hr.
  rewrite refs_to_cons, decide_True in Hr by done. pose proof (refs_to_pos l (s_refs st)).
  exists b. split_and!; [done|lia|]. apply inv_borrow_intro; [done|done|lia].
Qed.

Lemma wp_copy_object st h v :
  inv st h -> (forall o, o ∈ objs v -> kept st o) -> wp (copy_object (Some v)) (gives st) h.
Proof.
  intros Hi Hk. unfold copy_object. eapply wp_use; [by apply wp_with_registry|].
  intros [t|] h1 Hi1; cbv beta in Hi1; [|done]. destruct (ot_shared t).
  - eapply wp_use; [by apply clone_value_copies|]. intros v' h2 Hi2; cbv beta in Hi2.
    eapply wp_mono; [|by apply wp_mux_rc_alloc].
    intros [l|] h3 Hpost; [|done]. destruct Hpost as (? & Hb & ?). split_and!; first [done|by rewrite Hb].
  - destruct (ot_copy t) as [f|]; [|done]. eapply wp_use; [by apply wp_alloc_object|].
    intros [l|] h2 Hg; cbv beta in Hg; [|done]. destruct Hg as (Hi2 & Hnb & _).
    destruct (inv_ref_block _ _ _ Hi2) as (b & Hb & Hc & Hi2').
    unfold deref, get_block. wp_steps. rewrite Hb. wp_steps.
    eapply wp_use; [by apply copy_ok|]. intros [] h3 Hi3; cbv beta in Hi3. wp_steps.
    destruct (inv_borrow _ _ Hi3 l (payload b)) as (b' & Hb' & _); [by left|].
    split_and!; [by eapply inv_unborrow|done|by rewrite Hb'].
Qed.

(** ** Deep copies *)

Lemma wp_deep_clone_object o st h :
  inv st h -> kept st o -> wp (deep_clone_object o) (fun v => inv (own (objs v) st)) h.
Proof.
  intros Hi Hk. unfold deep_clone_object. eapply wp_use; [by apply wp_clone_object|].
  intros temp h1 [-> Hi1]. eapply wp_use.
  { apply wp_copy_object; [exact Hi1|]. simpl. intros o' ->%list_elem_of_singleton. left. elem. }
  intros [l|] h2 Hg; cbv beta in Hg; simpl in Hg.
  - destruct Hg as (Hi2 & Hnb & _).
    destruct (inv_ref_block _ _ _ Hi2) as (b & Hb & Hc & Hi2').
    unfold deref, get_block. wp_steps. rewrite Hb. wp_steps.
    eapply wp_use; [apply clone_value_copies; [exact Hi2'|]|].
    { intros o' Ho'. right. exists l, (payload b). split; [left|done]. }
    intros res h3 Hi3; cbv beta in Hi3. unfold free_object. wp_steps.
    apply (inv_unborrow (own (objs res) (ref l (own [o] st))) _ l (payload b)) in Hi3.
    eapply wp_use; [apply (wp_mux_rc_dec (own (objs res) (own [o] st))); done|].
    intros done_ h4 Hi4; cbv beta in Hi4. wp_steps.
    eapply wp_use; [apply (wp_drop_object (own (objs res) st))|].
    { apply inv_own_app in Hi4. apply inv_own_app. eapply inv_own_perm; [|exact Hi4].
      apply Permutation_app_comm. }
    intros [] h5 Hi5. by wp_steps.
  - eapply wp_use; [apply (wp_clone_object _ _ o Hg); left; elem|].
    intros o' h3 [-> Hi3]. eapply wp_use; [by apply (wp_drop_object (own [o] st))|].
    intros [] h4 Hi4. by wp_steps.
Qed.

Definition entry_objs (e : value * value) : list ObjectRef := objs e.1 ++ objs e.2.

Lemma wp_insert_owned m k v st h :
  inv (own (flat_map entry_objs m ++ objs k ++ objs v) st) h ->
  wp (insert_owned m k v) (fun m' => inv (own (flat_map entry_objs m') st)) h.
Proof.
  intros Hi. unfold insert_owned. wp_steps. set (eqb := value_eqb (h_registry h)).
  destruct (al_get eqb k m) as [old|] eqn:E.
  - destruct (al_split eqb k m old E) as (m1 & k' & m2 & -> & Ek & E1).
    rewrite al_insert_app_absent by done. simpl. rewrite Ek.
    assert (inv (own (objs k) (own (objs old) (own (flat_map entry_objs (m1 ++ (k', v) :: m2)) st))) h) as Hi'.
    { rewrite !inv_own_app. eapply inv_own_perm; [|exact Hi]. rewrite !flat_map_app. simpl.
      unfold entry_objs. simpl. rewrite <- !app_assoc. solve_Permutation. }
    eapply wp_use; [apply wp_drop_value; exact Hi'|]. intros [] h1 Hi1; cbv beta in Hi1.
    eapply wp_use; [apply wp_drop_value; exact Hi1|]. intros [] h2 Hi2; cbv beta in Hi2. by wp_steps.
  - wp_steps. rewrite al_insert_absent by done. rewrite flat_map_app. simpl. rewrite app_nil_r. done.
Qed.

Lemma wp_set_insert_owned s k st h :
  inv (own (flat_map objs s ++ objs k) st) h ->
  wp (set_insert_owned s k) (fun s' => inv (own (flat_map objs s') st)) h.
Proof.
  intros Hi. unfold set_insert_owned. wp_steps. destruct (existsb _ s).
  - eapply wp_use; [apply (wp_drop_value k (own (flat_map objs s) st))|].
    { apply inv_own_app. eapply inv_own_perm; [|exact Hi]. apply Permutation_app_comm. }
    intros [] h1 Hi1; cbv beta in Hi1. by wp_steps.
  - wp_steps. rewrite flat_map_app. simpl. by rewrite app_nil_r.
Qed.

Lemma deep_entries_ok f m :
  (forall x, x ∈ children (VMap m) -> copies f objs x) ->
  forall out st h, inv (own (flat_map entry_objs out) st) h ->
  (forall o, o ∈ flat_map entry_objs m -> kept st o) ->
  wp (deep_entries f m out) (fun m' => inv (own (flat_map entry_objs m') st)) h.
Proof.
  induction m as [|[k x] r IH]; intros Hf out st h Hi Hk; simpl; [by wp_steps|].
  assert (forall o, o ∈ objs k -> kept st o) as Hkk.
  { intros o Ho. apply Hk. simpl. apply elem_of_app. left. apply elem_of_app. by left. }
  assert (forall o, o ∈ objs x -> kept st o) as Hkx.
  { intros o Ho. apply Hk. simpl. apply elem_of_app. left. apply elem_of_app. by right. }
  eapply wp_use; [apply Hf; [by eapply map_children_l, list_elem_of_here|exact Hi|]|].
  { intros o Ho. by apply kept_own, Hkk. }
  intros k' h1 Hi1; cbv beta in Hi1.
  eapply wp_use; [apply Hf; [by eapply map_children_r, list_elem_of_here|exact Hi1|]|].
  { intros o Ho. by apply kept_own, kept_own, Hkx. }
  intros x' h2 Hi2; cbv beta in Hi2. eapply wp_use.
  { apply (wp_insert_owned out k' x' st). rewrite !inv_own_app in Hi2.
    eapply inv_own_perm; [|exact Hi2]. solve_Permutation. }
  intros out' h3 Hi3; cbv beta in Hi3. apply IH; [|done|].
  - intros y Hy. apply Hf.
    apply elem_of_app in Hy as [Hy|Hy]; apply elem_of_app; [left|right]; by right.
  - intros o Ho. apply Hk. simpl. apply elem_of_app. by right.
Qed.

Lemma deep_elems_ok f s :
  (forall x, x ∈ s -> copies f objs x) ->
  forall out st h, inv (own (flat_map objs out) st) h ->
  (forall o, o ∈ flat_map objs s -> kept st o) ->
  wp (deep_elems f s out) (fun s' => inv (own (flat_map objs s') st)) h.
Proof.
  induction s as [|x r IH]; intros Hf out st h Hi Hk; simpl; [by wp_steps|].
  eapply wp_use; [apply Hf; [left|exact Hi|]|].
  { intros o Ho. apply kept_own, Hk. simpl. apply elem_of_app. by left. }
  intros k h1 Hi1; cbv beta in Hi1. eapply wp_use.
  { apply (wp_set_insert_owned out k st). apply inv_own_app in Hi1.
    eapply inv_own_perm; [|exact Hi1]. apply Permutation_app_comm. }
  intros out' h2 Hi2; cbv beta in Hi2. apply IH; [|done|].
  - intros y Hy. apply Hf. by right.
  - intros o Ho. apply Hk. simpl. apply elem_of_app. by right.
Qed.

Lemma deep_clone_value_copies v : copies deep_clone_value objs v.
Proof.
  induction v as [v IH] using value_ind'. intros st h Hi Hk.
  destruct v as [| | | | |l| |m|s|a b|[a|]|[a|a]|o| |e]; simpl in *; try by apply wp_ret_own.
  - eapply (copies_map (traverse deep_clone_value)); [done|by apply traverse_copies|done..].
  - eapply wp_use; [apply (deep_entries_ok deep_clone_value m IH []); [by rewrite own_nil|exact Hk]|].
    intros m' h' Hi'. by wp_steps.
  - eapply wp_use; [apply (deep_elems_ok deep_clone_value s IH []); [by rewrite own_nil|exact Hk]|].
    intros s' h' Hi'. by wp_steps.
  - apply tuple_copies; try done; apply IH; elem.
  - eapply copies_map; [|apply IH; elem|done..]. done.
  - eapply copies_map; [|apply IH; elem|done..]. done.
  - eapply copies_map; [|apply IH; elem|done..]. done.
  - apply wp_deep_clone_object; [done|]. apply Hk. elem.
  - eapply wp_use; [by apply wp_clone_enum|]. intros e' h' Hi'. by wp_steps.
Qed.

Lemma wp_mux_value_deep_clone st h l :
  inv st h -> l ∈ s_refs st -> wp (mux_value_deep_clone (Some l)) (gives st) h.
Proof.
  intros Hi Hin. destruct (inv_refs _ _ Hi l Hin) as (b & Hb & Hr). apply refs_to_elem in Hin.
  unfold mux_value_deep_clone, deref, get_block. wp_steps. rewrite Hb. wp_steps.
  assert (inv (borrow l (payload b) st) h) as Hi' by (apply inv_borrow_intro; [done|done|lia]).
  assert (Hk : forall o, o ∈ objs (payload b) -> kept (borrow l (payload b) st) o).
  { intros o Ho. right. exists l, (payload b). split; [left|done]. }
  assert (Hg : forall p h', gives (borrow l (payload b) st) p h' -> gives st p h').
  { intros [l'|] h'; simpl; [|apply inv_unborrow]. intros (Hi1 & Hnb & ?). split_and!; [|set_solver|done].
    by apply (inv_unborrow (ref l' st) _ l (payload b)). }
  assert (Hgen : wp (let! cloned := deep_clone_value (payload b) in mux_rc_alloc cloned) (gives st) h).
  { eapply wp_use; [by apply deep_clone_value_copies|]. intros v' h1 Hi1; cbv beta in Hi1.
    eapply wp_mono; [|by apply wp_mux_rc_alloc]. intros p h2 Hpost. apply Hg.
    destruct p; [|done]. destruct Hpost as (? & Hb2 & ?). split_and!; first [done|by rewrite Hb2]. }
  destruct (payload b) eqn:Ev; try exact Hgen.
  eapply wp_mono; [|by apply wp_copy_object]. intros p h'. apply Hg.
Qed.

End Specs.
