(* ===== verification/HeapProps.v ===== *)
(** * Properties of the heap

    Safety of every reachable heap, exact accounting of releases, the timing of
    destructors, and the two faults the allocation path of objects can run into. *)

From S2P Require Import Prelude AssocList Object Value Heap HeapSpec.

(** ** A client of the runtime *)

Section Client.
Context `{Allocator} `{Foreign} `{Callbacks} `{Floats}.

(** A state of compiled code: the references it owns, and the heap. *)
Definition client : Type := list loc * Heap.

(** The calls compiled code makes on references it owns. *)
Inductive call : Type :=
| CAlloc (v : value)       (* box a value that holds no object *)
| CObject (id : TypeId)
| CClone (l : loc)
| CRelease (l : loc)
| CCopy (l : loc)
| CDeepClone (l : loc)
| CSnapshot (l : loc).     (* take a deep copy and drop it again *)

(** When the runtime's contract allows a call. *)
Definition allowed (c : call) (s : client) : Prop :=
  match c with
  | CAlloc v => objs v = []
  | CObject _ => True
  | CClone l => l ∈ s.1 /\ forall b, h_blocks s.2 !! l = Some b -> ref_count b < u64_max
  | CRelease l | CCopy l | CDeepClone l | CSnapshot l => l ∈ s.1
  end.

Definition keep (R : list loc) (p : ptr) : list loc := match p with Some l => l :: R | None => R end.

Fixpoint remove_one (l : loc) (R : list loc) : list loc :=
  match R with [] => [] | x :: r => if decide (x = l) then r else x :: remove_one l r end.

(** Run one call; the new references follow the pointer it returns. *)
Definition run_call (c : call) (R : list loc) : M (list loc) :=
  match c with
  | CAlloc v => let! p := mux_rc_alloc v in ret (keep R p)
  | CObject id => let! p := mux_alloc_object id in ret (keep R p)
  | CClone l => let! p := mux_rc_clone (Some l) in ret (keep R p)
  | CRelease l => mux_rc_dec (Some l) ;! ret (remove_one l R)
  | CCopy l => let! p := mux_copy_object (Some l) in ret (keep R p)
  | CDeepClone l => let! p := mux_value_deep_clone (Some l) in ret (keep R p)
  | CSnapshot l => let! v := deref l in let! k := snapshot_key v in drop_value k ;! ret R
  end.

(** States reached from a heap with no blocks by allowed calls. *)
Inductive reaches (h0 : Heap) : client -> Prop :=
| reaches_start : reaches h0 ([], h0)
| reaches_call c R h R' h' :
    reaches h0 (R, h) -> allowed c (R, h) -> run_call c R h = Ok (R', h') -> reaches h0 (R', h').

End Client.

Definition start_heap (reg : Registry) : Heap := mk_heap reg false ∅ ∅ ∅ ∅ ∅ 0.

Section Lemmas.
Context `{AllocatorLaws} `{ForeignLaws} `{Callbacks} `{Floats}.
Implicit Types (h : Heap) (l : loc) (R : list loc).

Definition owned R : stack := mk_stack [] [] R [] [].

Lemma inv_start reg : (forall id t, types reg !! id = Some t -> 0 < ot_size t) -> inv (owned []) (start_heap reg).
Proof.
  intros Hs. split; simpl; try done; try (by inversion 1); try by constructor.
  all: intros *; unfold all_objs, heap_objs; simpl; rewrite map_to_list_empty; simpl; try done.
  split; by inversion 1.
Qed.

Lemma remove_one_perm l R : l ∈ R -> R ≡ₚ l :: remove_one l R.
Proof.
  induction R as [|x r IH]; [by inversion 1|]. simpl. case_decide as E; [by subst|].
  intros [->|Hin]%elem_of_cons; [done|]. rewrite Permutation_swap. f_equiv. by apply IH.
Qed.

Lemma refs_to_perm l R R' : R ≡ₚ R' -> refs_to l R = refs_to l R'.
Proof. intros Hp. unfold refs_to. by rewrite Hp. Qed.

Lemma inv_refs_perm R R' h : R ≡ₚ R' -> inv (owned R) h -> inv (owned R') h.
Proof.
  intros Hp [I1 I2 I3 I4 I5 I6 I7 I8 I9 I10]. split; try done. simpl in *. intros l Hin.
  rewrite <- Hp in Hin. destruct (I5 l Hin) as (b & Hb & Hr). exists b. split; [done|].
  by rewrite <- (refs_to_perm l _ _ Hp).
Qed.

Lemma gives_keep R p h : gives (owned R) p h -> inv (owned (keep R p)) h.
Proof. destruct p; simpl; [by intros (? & _)|done]. Qed.

Lemma owned_block R h l : inv (owned R) h -> l ∈ R ->
  exists b, h_blocks h !! l = Some b /\ ref_count b <> 0 /\ inv (borrow l (payload b) (owned R)) h.
Proof.
  intros Hi Hin. destruct (inv_refs _ _ Hi l Hin) as (b & Hb & Hr). apply refs_to_elem in Hin. simpl in Hr.
  exists b. split_and!; [done|lia|]. apply inv_borrow_intro; [done|done|lia].
Qed.

Lemma borrow_kept l v st o : o ∈ objs v -> kept (borrow l v st) o.
Proof. intros Ho. right. exists l, v. split; [left|done]. Qed.

Lemma with_registry_unlocked {A} (f : Registry -> A) h :
  h_locked h = false -> with_registry f h = Ok (f (h_registry h), h).
Proof.
  intros Hl. unfold with_registry, lock_registry, unlock_registry, bind, gets, modify, ret.
  rewrite Hl. destruct h; simpl in *. by rewrite Hl.
Qed.

(** Every allowed call is safe and keeps the invariant. *)
Lemma run_call_safe c R h :
  inv (owned R) h -> allowed c (R, h) -> wp (run_call c R) (fun R' => inv (owned R')) h.
Proof.
  intros Hi Ha. destruct c as [v|id|l|l|l|l|l]; simpl in Ha; unfold run_call.
  - eapply wp_use; [apply (wp_mux_rc_alloc v (owned R)); by rewrite Ha, own_nil|].
    intros [l|] h' Hp; wp_steps; [by destruct Hp|done].
  - eapply wp_use; [by apply wp_alloc_object|]. intros p h' Hp. wp_steps. by apply gives_keep.
  - destruct Ha as [Hin Hc]. destruct (owned_block _ _ _ Hi Hin) as (b & Hb & _).
    unfold mux_rc_clone. wp_steps. eapply wp_use; [by apply (wp_mux_rc_inc (owned R) _ _ b); auto|].
    intros [] h' Hp. by wp_steps.
  - eapply wp_use; [apply (wp_mux_rc_dec (owned (remove_one l R)))|].
    + apply (inv_refs_perm R); [by apply remove_one_perm|done].
    + simpl. intros v. by apply not_elem_of_nil.
    + intros b h' Hp. by wp_steps.
  - destruct (owned_block _ _ _ Hi Ha) as (b & Hb & _ & Hbor).
    unfold mux_copy_object, read_ptr, deref, get_block. wp_steps. rewrite Hb. wp_steps.
    eapply wp_mono; [|apply wp_copy_object; [exact Hbor|]; intros o Ho; by apply borrow_kept].
    intros [l'|] h' Hp; cbv beta in Hp; simpl in Hp; wp_steps; simpl.
    + destruct Hp as (Hp & _). by apply (inv_unborrow (owned (l' :: R)) _ l (payload b)).
    + by eapply inv_unborrow.
  - eapply wp_use; [by apply wp_mux_value_deep_clone|]. intros p h' Hp. wp_steps. by apply gives_keep.
  - destruct (owned_block _ _ _ Hi Ha) as (b & Hb & _ & Hbor).
    unfold deref, get_block. wp_steps. rewrite Hb. wp_steps.
    eapply wp_use; [apply deep_clone_value_copies; [exact Hbor|]; intros o Ho; by apply borrow_kept|].
    intros k h1 Hi1; cbv beta in Hi1. eapply wp_use; [by apply wp_drop_value|].
    intros [] h2 Hi2; cbv beta in Hi2. wp_steps. by eapply inv_unborrow.
Qed.

Lemma reaches_inv reg R h :
  (forall id t, types reg !! id = Some t -> 0 < ot_size t) ->
  reaches (start_heap reg) (R, h) -> inv (owned R) h.
Proof.
  intros Hs. remember (R, h) as s eqn:Es. intros Hr. revert R h Es.
  induction Hr as [|c R0 h0 R1 h1 Hr IH Ha Hrun]; intros R h Es; simplify_eq.
  - by apply inv_start.
  - pose proof (run_call_safe c R0 h0 (IH _ _ eq_refl) Ha) as Hw. unfold wp in Hw. by rewrite Hrun in Hw.
Qed.

End Lemmas.

(** ** Properties *)

Section HeapProperties.
Context `{AllocatorLaws} `{ForeignLaws} `{Callbacks} `{Floats}.
Implicit Types (h : Heap) (l : loc) (R : list loc) (o : ObjectRef).


(** The exit-time leak check is exact: it stays silent precisely when no block
    is left, and then no object handle is left either. *)
Lemma leak_check_exact reg R h :
  (forall id t, types reg !! id = Some t -> 0 < ot_size t) ->
  reaches (start_heap reg) (R, h) ->
  (rc_leak_message (h_live h) = None <-> h_blocks h = ∅) /\
  (rc_leak_message (h_live h) = None -> forall r, default 0 (h_strong h !! r) = 0).
Proof.
  intros Hs Hr. pose proof (reaches_inv reg R h Hs Hr) as Hi.
  assert (Hl : rc_leak_message (h_live h) = None <-> h_blocks h = ∅).
  { unfold rc_leak_message. rewrite (inv_live _ _ Hi), <- map_size_empty_iff.
    destruct (_ =? 0) eqn:E; bool_to_prop; split; (done || lia). }
  split; [done|]. intros E%Hl r. rewrite (inv_strong _ _ Hi). unfold all_objs. simpl.
  by rewrite E.
Qed.

(** Dropping a handle destroys the object exactly when it is the last one: with
    others left only the strong count moves; for the last one the class destructor
    runs on the buffer, then the buffer and the handle block are freed. *)
Lemma destructor_at_last_handle o st h t d :
  inv (own [o] st) h -> h_locked h = false -> has_buffer o = true ->
  types (h_registry h) !! obj_type o = Some t -> ot_destructor t = Some d ->
  (1 <= handles (obj_rc o) (all_objs st h) ->
   drop_object o h =
     Ok (tt, set_strong (insert (obj_rc o) (handles (obj_rc o) (all_objs st h))) h)) /\
  (handles (obj_rc o) (all_objs st h) = 0 ->
   drop_object o h =
     (call_destructor d (obj_ptr o) ;! dealloc_buffer (obj_ptr o) (obj_size o) ;!
      modify (set_strong (delete (obj_rc o)))) (set_strong (insert (obj_rc o) 0) h)).
Proof.
  intros Hi Hl Hb Ht Hd. pose proof (inv_strong _ _ Hi (obj_rc o)) as Hs.
  assert (handles (obj_rc o) (all_objs (own [o] st) h) = 1 + handles (obj_rc o) (all_objs st h)) as Hc.
  { unfold all_objs. simpl. rewrite !handles_app, handles_cons, decide_True by done. lia. }
  rewrite Hc in Hs. pose proof (handles_pos (obj_rc o) (all_objs st h)).
  destruct (h_strong h !! obj_rc o) as [n|] eqn:En; simpl in Hs; [|lia].
  unfold drop_object, bind, gets, modify, ret. rewrite En, Hs. split; intros Hn.
  - destruct (_ =? 0) eqn:E0; bool_to_prop; [lia|]. destruct (_ =? 1) eqn:E1; bool_to_prop; [lia|].
    do 3 f_equal. f_equal. lia.
  - rewrite Hn. simpl. unfold drop_object_data. fold (has_buffer o). rewrite Hb.
    unfold call_object_destructor. unfold has_buffer in Hb. apply andb_true_iff in Hb as [Hp _].
    apply negb_true_iff in Hp. rewrite Hp. unfold bind, modify.
    rewrite with_registry_unlocked by done. simpl. rewrite Ht. simpl. rewrite Hd.
    destruct (call_destructor d (obj_ptr o) _) as [[[] h1]|e]; [|done].
    destruct (dealloc_buffer _ _ h1) as [[[] h2]|e]; done.
Qed.

End HeapProperties.

Section CountProperties.
Context `{Allocator} `{Foreign} `{Callbacks} `{Floats}.
Implicit Types (h : Heap) (l : loc).

(** [n] calls in a row, with what they return. *)
Fixpoint repeat_m {A} (n : nat) (m : M A) : M (list A) :=
  match n with O => ret [] | S n => let! a := m in let! r := repeat_m n m in ret (a :: r) end.

Definition with_count l (v : value) (c : Z) (h : Heap) : Heap :=
  set_blocks (insert l (mk_block c v)) h.

Lemma with_count_again l v c c' h : with_count l v c (with_count l v c' h) = with_count l v c h.
Proof. unfold with_count, set_blocks. simpl. f_equal. apply insert_insert_eq. Qed.

Lemma with_count_lookup l v c h : h_blocks (with_count l v c h) !! l = Some (mk_block c v).
Proof. apply lookup_insert_eq. Qed.

Lemma inc_step l v c h : 0 <= c < u64_max ->
  mux_rc_clone (Some l) (with_count l v c h) = Ok (Some l, with_count l v (c + 1) h).
Proof.
  intros Hc. unfold mux_rc_clone, mux_rc_inc, get_block, bind, gets, modify, ret.
  rewrite with_count_lookup. simpl. rewrite as_u64_small by width.
  do 2 f_equal. apply with_count_again.
Qed.

Lemma dec_step l v c h : 1 < c <= u64_max ->
  mux_rc_dec (Some l) (with_count l v c h) = Ok (false, with_count l v (c - 1) h).
Proof.
  intros Hc. unfold mux_rc_dec, get_block, bind, gets, modify, ret. rewrite with_count_lookup. simpl.
  rewrite as_u64_small by width. destruct (c =? 1) eqn:E; bool_to_prop; [lia|].
  do 2 f_equal. apply with_count_again.
Qed.

Lemma inc_steps n l v c h : 0 <= c -> c + Z.of_nat n <= u64_max ->
  repeat_m n (mux_rc_clone (Some l)) (with_count l v c h) =
  Ok (repeat (Some l) n, with_count l v (c + Z.of_nat n) h).
Proof.
  revert c. induction n as [|n IH]; intros c Hc Hn; cbn [repeat_m repeat].
  - by rewrite Z.add_0_r.
  - unfold bind at 1. rewrite inc_step by lia. unfold bind. rewrite IH by lia. unfold ret.
    do 3 f_equal. lia.
Qed.

Lemma dec_steps n l v c h : 1 <= c -> c + Z.of_nat n <= u64_max ->
  repeat_m n (mux_rc_dec (Some l)) (with_count l v (c + Z.of_nat n) h) =
  Ok (repeat false n, with_count l v c h).
Proof.
  revert c. induction n as [|n IH]; intros c Hc Hn; cbn [repeat_m repeat].
  - by rewrite Z.add_0_r.
  - unfold bind at 1. rewrite dec_step by lia.
    replace (c + Z.of_nat (S n) - 1) with (c + Z.of_nat n) by lia. unfold bind. rewrite IH by lia. done.
Qed.

(** Sharing and releasing balance exactly: [n] clones of a block raise its count
    by [n]; the [n] matching releases all report "not freed" and restore the heap;
    one more release of a block with a single owner drops the payload, frees the
    block and reports true. *)
Lemma rc_clone_release_balance n l v c h :
  1 <= c -> c + Z.of_nat n <= u64_max ->
  repeat_m n (mux_rc_clone (Some l)) (with_count l v c h) =
    Ok (repeat (Some l) n, with_count l v (c + Z.of_nat n) h) /\
  repeat_m n (mux_rc_dec (Some l)) (with_count l v (c + Z.of_nat n) h) =
    Ok (repeat false n, with_count l v c h) /\
  mux_rc_dec (Some l) (with_count l v 1 h) =
    (drop_value v ;! modify (set_blocks (delete l)) ;! modify (set_live (fun n => n - 1)) ;! ret true)
      (with_count l v 0 h).
Proof.
  intros Hc Hn. split_and!; [apply inc_steps; lia|by apply dec_steps|].
  unfold mux_rc_dec, get_block, bind, gets, modify, ret. rewrite with_count_lookup. simpl.
  by rewrite <- (with_count_again l v 0 1 h).
Qed.

(** Cells, the same way. *)
Definition with_cell l (v : ptr) (c : Z) (h : Heap) : Heap := set_cells (insert l (mk_cell c v)) h.

Lemma with_cell_again l v c c' h : with_cell l v c (with_cell l v c' h) = with_cell l v c h.
Proof. unfold with_cell, set_cells. simpl. f_equal. apply insert_insert_eq. Qed.

Lemma cell_release_step l v c h : 1 < c <= i64_max ->
  mux_cell_release (Some l) (with_cell l v c h) = Ok (tt, with_cell l v (c - 1) h).
Proof.
  intros Hc. unfold mux_cell_release, get_cell, bind, gets, modify, ret. unfold with_cell at 1. simpl.
  rewrite lookup_insert_eq. simpl. rewrite as_i64_small by width.
  destruct (1 <? c) eqn:E; bool_to_prop; [|lia]. do 2 f_equal. apply with_cell_again.
Qed.

Lemma cell_release_steps n l v c h : 1 <= c -> c + Z.of_nat n <= i64_max ->
  repeat_m n (mux_cell_release (Some l)) (with_cell l v (c + Z.of_nat n) h) =
  Ok (repeat tt n, with_cell l v c h).
Proof.
  revert c. induction n as [|n IH]; intros c Hc Hn; cbn [repeat_m repeat].
  - by rewrite Z.add_0_r.
  - unfold bind at 1. rewrite cell_release_step by lia.
    replace (c + Z.of_nat (S n) - 1) with (c + Z.of_nat n) by lia. unfold bind. rewrite IH by lia. done.
Qed.

(** A capture cell shared by a variable and [n] closures keeps its value through
    the first [n] releases; the last release gives up the value's reference once
    and frees the cell. *)
Lemma cell_released_once n l v h :
  1 + Z.of_nat n <= i64_max ->
  repeat_m n (mux_cell_release (Some l)) (with_cell l v (1 + Z.of_nat n) h) =
    Ok (repeat tt n, with_cell l v 1 h) /\
  mux_cell_release (Some l) (with_cell l v 1 h) =
    (mux_rc_dec v ;! modify (set_cells (delete l))) (with_cell l v 0 h).
Proof.
  intros Hn. split; [apply cell_release_steps; lia|].
  unfold mux_cell_release, get_cell, bind, gets, modify, ret. unfold with_cell at 1. simpl.
  rewrite lookup_insert_eq. simpl. rewrite as_i64_small by width.
  by rewrite <- (with_cell_again l v 0 1 h).
Qed.

(** Releasing a closure that is still shared only lowers its count; the last
    release gives up each captured cell, in capture order, and then frees the
    closure; a null capture array is skipped, whatever the stored count says. *)
Lemma closure_release_behaviour l c slots h :
  h_closures h !! l = Some c -> is_i64 (clo_count c) -> clo_count c <> i64_min ->
  (1 < clo_count c ->
   mux_closure_release (Some l) h =
     Ok (tt, set_closures (insert l (mk_closure (clo_count c - 1) (captures c) (capture_count c))) h)) /\
  (clo_count c <= 1 -> captures c = Some slots ->
   Z.max (capture_count c) 0 = Z.of_nat (length slots) ->
   mux_closure_release (Some l) h =
     (visit mux_cell_release slots ;! modify (set_closures (delete l)))
       (set_closures (insert l (mk_closure (clo_count c - 1) (captures c) (capture_count c))) h)) /\
  (clo_count c <= 1 -> captures c = None ->
   mux_closure_release (Some l) h = Ok (tt, set_closures (delete l) h)).
Proof.
  intros Hl Hc Hm. unfold mux_closure_release, get_closure, bind, gets, modify, ret. rewrite Hl. simpl.
  assert (as_i64 (clo_count c - 1) = clo_count c - 1) as -> by (apply as_i64_small; width).
  destruct (1 <? clo_count c) eqn:E; bool_to_prop; split_and!; intros; try lia; try done.
  - rewrite H4. unfold read_slots, ret. rewrite H5, Nat2Z.id, Nat.ltb_irrefl.
    by rewrite take_ge by lia.
  - rewrite H4. simpl. do 2 f_equal. unfold set_closures. simpl. f_equal. apply delete_insert_eq.
Qed.

(** A zero-sized object type reaches the allocator with a zero-sized layout,
    which is undefined behaviour: [alloc_object] has no guard against it. *)
Lemma alloc_object_zero_size id t h :
  h_locked h = false -> types (h_registry h) !! id = Some t -> ot_size t = 0 ->
  alloc_object id h = Err Undefined.
Proof.
  intros Hl Ht Hs. unfold alloc_object, lock_registry, bind, gets, modify, ret. rewrite Hl. simpl.
  rewrite Ht, Hs. done.
Qed.

(** When the block of a new object cannot be allocated, [mux_rc_alloc] drops
    the object while [alloc_object] still holds the registry lock, and the
    destructor lookup waits for that lock forever. *)
Lemma alloc_object_exhausted_deadlock id t h :
  h_locked h = false -> types (h_registry h) !! id = Some t -> 0 < ot_size t <= isize_max ->
  (forall h', is_Some (new_buffer h' (ot_size t))) -> (forall h' n p, new_buffer h' n = Some p -> p <> 0) ->
  (forall h', new_block h' = None) ->
  alloc_object id h = Err Deadlock.
Proof.
  intros Hl Ht Hs Hbuf Hp Hblk. unfold alloc_object, lock_registry, bind, gets, modify, ret. rewrite Hl. simpl.
  rewrite Ht. destruct (isize_max <? ot_size t) eqn:E1; bool_to_prop; [lia|].
  unfold alloc_buffer. destruct (ot_size t =? 0) eqn:E2; bool_to_prop; [lia|].
  unfold bind, gets. destruct (Hbuf (set_locked true h)) as [p Ep]. rewrite Ep.
  apply Hp in Ep as Hp0. apply Z.eqb_neq in Hp0. unfold modify, ret. rewrite Hp0.
  unfold ObjectRef_new, mux_rc_alloc, bind, gets, modify, ret. rewrite Hblk. simpl.
  unfold drop_object, bind, gets. simpl. rewrite lookup_insert_eq. simpl.
  unfold drop_object_data. simpl. rewrite Hp0. assert ((0 <? ot_size t) = true) as -> by (apply Z.ltb_lt; lia).
  simpl. unfold call_object_destructor, bind. rewrite Hp0. done.
Qed.

End CountProperties.

(** ** Witnesses: an allocator that picks fresh names, compiled code that does
    nothing to the heap *)

#[local] Instance demo_allocator : Allocator := {
  new_block h := Some (fresh (dom (h_blocks h)));
  new_cell h := Some (fresh (dom (h_cells h)));
  new_buffer h _ := Some (fresh ({[0]} ∪ dom (h_buffers h)));
  new_rc h := fresh (dom (h_strong h));
}.

#[local] Instance demo_allocator_laws : AllocatorLaws.
Proof.
  split; simpl.
  - intros h l [= <-]. apply not_elem_of_dom, is_fresh.
  - intros h l [= <-]. apply not_elem_of_dom, is_fresh.
  - intros h _ p [= <-]. pose proof (is_fresh ({[0]} ∪ dom (h_buffers h))) as Hf. split.
    + apply not_elem_of_dom. set_solver.
    + intros E. rewrite E in Hf. set_solver.
  - intros h. apply not_elem_of_dom, is_fresh.
Qed.

#[local] Instance demo_foreign : Foreign := {
  call_destructor _ _ := ret tt;
  call_copy _ _ _ := ret tt;
  call_clone_glue _ bs := ret bs;
  call_drop_glue _ _ := ret tt;
}.

#[local] Instance demo_foreign_laws : ForeignLaws.
Proof. by split. Qed.

#[local] Instance heap_callbacks : Callbacks := {
  run_equals _ a b := obj_ptr a =? obj_ptr b;
  run_compare _ a b := obj_ptr a - obj_ptr b;
  run_hash _ a := obj_ptr a;
  run_cmp_glue _ _ _ := 0;
  run_hash_glue _ _ := 0;
  hash_glue_of g := g;
}.

#[local] Instance heap_floats : Floats := {
  of_eqb := Z.eqb; of_cmp := Z.compare; of_hash f := [WU64 f]; default_hasher _ := 0;
}.

Definition point_registry : Registry :=
  (register_object_type_with_copy empty_registry "Point" 16 (Some 200) (Some 100)).2.

Definition point_type : ObjectType := mk_type 1 "Point" 16 (Some 200) (Some 100) false None None None.

Lemma point_sizes id t : types point_registry !! id = Some t -> 0 < ot_size t.
Proof.
  change (types point_registry) with ({[ 1 := point_type ]} : gmap TypeId ObjectType).
  intros [_ <-]%lookup_singleton_Some. simpl. lia.
Qed.

(** The state after one [mux_alloc_object]. *)
Definition one_object : client :=
  match run_call (CObject 1) [] (start_heap point_registry) with
  | Ok s => s
  | Err _ => ([], start_heap point_registry)
  end.

Lemma one_object_reached : reaches (start_heap point_registry) one_object.
Proof.
  unfold one_object. destruct (run_call (CObject 1) [] (start_heap point_registry)) as [[R h]|] eqn:E.
  - by apply (reaches_call _ (CObject 1) [] (start_heap point_registry)); [constructor|..].
  - constructor.
Qed.


Definition demo_point : ObjectRef := mk_object 1 1 1 16.

(** The handle on the stack, no block left: the state in which the last handle goes. *)
Definition last_handle : Heap :=
  mk_heap point_registry false ∅ {[ 1%positive := 1 ]} {[ 1 := 16 ]} ∅ ∅ 0.

Lemma last_handle_inv : inv (own [demo_point] (mk_stack [] [] [] [] [])) last_handle.
Proof.
  split; simpl; try done; try (by inversion 1); try by constructor.
  - intros r. unfold all_objs, heap_objs. simpl. rewrite map_to_list_empty. simpl.
    rewrite handles_cons. unfold handles. simpl. destruct (decide (1%positive = r)) as [<-|Hn].
    + by rewrite lookup_singleton_eq.
    + by rewrite lookup_singleton_ne.
  - unfold all_objs, heap_objs. simpl. rewrite map_to_list_empty. simpl. split.
    + intros o1 o2 ->%list_elem_of_singleton ->%list_elem_of_singleton. done.
    + intros o1 o2 ->%list_elem_of_singleton ->%list_elem_of_singleton. done.
    + intros o1 ->%list_elem_of_singleton _. reflexivity.
  - apply point_sizes.
Qed.

Definition demo_closure_heap : Heap :=
  set_closures (insert 1%positive (mk_closure 2 (Some [None]) 1)) (start_heap point_registry).

Definition empty_class_registry : Registry := (register_object_type empty_registry "Empty" 0 None).2.

(** Buffers can still be had, blocks no longer. *)
Definition exhausted_allocator : Allocator := {|
  new_block _ := None; new_cell _ := None; new_buffer _ _ := Some 4096; new_rc h := fresh (dom (h_strong h));
|}.
