(* ===== verification/Display.v ===== *)
(** * Text forms of values ([Display] of src/src/lib.rs, float.rs, list.rs, map.rs, set.rs, tuple.rs, optional.rs)

    Every collection prints its elements through [Display for Value].  The spelling
    of a float is the standard library's, the interface [FloatText]; which of its two
    forms is used is [format_float]. *)

From S2P Require Import Prelude AssocList Object Value.

(** [f.fract() == 0.0], and the formats with one decimal and with as many as needed. *)
Class FloatText := {
  whole : f64 -> bool;
  format_tenths : f64 -> string;
  format_shortest : f64 -> string;
}.

Section Display.
Context `{FloatText}.

Definition format_float (f : f64) : string := if whole f then format_tenths f else format_shortest f.

Definition text_of_octet (b : Z) : string := String (Ascii.ascii_of_nat (Z.to_nat b)) EmptyString.

Definition hex_digit_text (d : Z) : string := text_of_octet (if d <? 10 then 48 + d else 87 + d).

(** [{byte:02x}]. *)
Definition hex2 (b : Z) : string := hex_digit_text (b / 16) +:+ hex_digit_text (b mod 16).

(** The digits of [{:p}]; [fuel] octets are enough for an address of that many digits. *)
Fixpoint hex_text (fuel : nat) (n : Z) : string :=
  match fuel with
  | O => ""
  | S fuel => if n <? 16 then hex_digit_text n else hex_text fuel (n / 16) +:+ hex_digit_text (n mod 16)
  end.

Definition escape_octet (b : Z) : string :=
  if b =? 92 then text_of_octet 92 +:+ text_of_octet 92
  else if b =? 34 then text_of_octet 92 +:+ text_of_octet 34
  else if in_range 32 126 b then text_of_octet b
  else text_of_octet 92 +:+ "x" +:+ hex2 b.

Definition display_bytes (bs : list Z) : string :=
  "b" +:+ text_of_octet 34 +:+ fold_right (fun b s => escape_octet b +:+ s) (text_of_octet 34) bs.

Definition bool_text (b : bool) : string := if b then "true" else "false".

(** [write_delimited]: the items between the delimiters, separated by a comma and a space. *)
Fixpoint joined (items : list string) : string :=
  match items with
  | [] => ""
  | [s] => s
  | s :: items => s +:+ ", " +:+ joined items
  end.
Definition write_delimited (open close : string) (items : list string) : string := open +:+ joined items +:+ close.

Fixpoint display (v : value) : string :=
  match v with
  | VUnit => "()"
  | VBool b => bool_text b
  | VInt i => pretty i
  | VFloat f => format_float f
  | VString s => s
  | VList l => write_delimited "[" "]" (map display l)
  | VBytes bs => display_bytes bs
  | VMap m => write_delimited "{" "}" (map (fun '(k, v) => display k +:+ ": " +:+ display v) m)
  | VSet s => write_delimited "{" "}" (map display s)
  | VTuple a b => "(" +:+ display a +:+ ", " +:+ display b +:+ ")"
  | VOptional (Some v) => "Some(" +:+ display v +:+ ")"
  | VOptional None => "None"
  | VResult (Ok v) => "Ok(" +:+ display v +:+ ")"
  | VResult (Err v) => "Err(" +:+ display v +:+ ")"
  | VObject o => "<Object at 0x" +:+ hex_text 16 (obj_ptr o) +:+ " type_id=" +:+ pretty (obj_type o) +:+ ">"
  | VOpaque bs => "<Opaque " +:+ pretty (Z.of_nat (length bs)) +:+ " bytes>"
  | VBoxedEnum e => "<enum " +:+ pretty (Z.of_nat (length (be_bytes e))) +:+ " bytes>"
  end.

(** [Display for List], [Map], [Set], [Tuple] and [Optional]. *)
Definition List_display (l : list value) : string := "[" +:+ joined (map display l) +:+ "]".
Definition Map_display (m : list (value * value)) : string :=
  "{" +:+ joined (map (fun '(k, v) => display k +:+ ": " +:+ display v) m) +:+ "}".
Definition Set_display (s : list value) : string := "{" +:+ joined (map display s) +:+ "}".
Definition Tuple_display (a b : value) : string := "(" +:+ display a +:+ ", " +:+ display b +:+ ")".
Definition Optional_display (o : option value) : string :=
  match o with Some v => "Some(" +:+ display v +:+ ")" | None => "None" end.

(** [CString::new]: a NUL inside the text is refused, and the caller gets a null pointer. *)
Definition cstring (s : string) : option string :=
  if existsb (fun c => bool_decide (c = Ascii.zero)) (String.list_ascii_of_string s) then None else Some s.

Definition mux_value_to_string (v : value) : option string := cstring (display v).
Definition mux_list_to_string (l : list value) : option string := cstring (List_display l).
Definition mux_map_to_string (m : list (value * value)) : option string := cstring (Map_display m).
Definition mux_set_to_string (s : list value) : option string := cstring (Set_display s).
Definition mux_tuple_to_string (a b : value) : option string := cstring (Tuple_display a b).
Definition mux_optional_to_string (v : option value) : option string :=
  cstring match v with
          | None => "null"
          | Some (VOptional (Some v)) => "Some(" +:+ display v +:+ ")"
          | Some (VOptional None) => "None"
          | Some v => display v
          end.
Definition mux_float_to_string (f : f64) : option string := cstring (format_float f).

End Display.

(** The struct wrappers print what the values they hold print. *)
Lemma display_wrappers `{FloatText} :
  (forall l, mux_list_to_string l = mux_value_to_string (VList l)) /\
  (forall m, mux_map_to_string m = mux_value_to_string (VMap m)) /\
  (forall s, mux_set_to_string s = mux_value_to_string (VSet s)) /\
  (forall a b, mux_tuple_to_string a b = mux_value_to_string (VTuple a b)) /\
  (forall v, mux_optional_to_string (Some v) = mux_value_to_string v).
Proof. split_and!; try reflexivity. intros v. by destruct v as [| | | | | | | | | |[]| | | |]. Qed.
