(* ===== verification/Collections.v ===== *)
(** * Lists, maps and sets as compiled code sees them ([src/src/list.rs], [map.rs], [set.rs])

    The [*_value] operations mutate the collection inside a block; the others work
    on a [List], [Map] or [Set] struct, whose contents are passed and returned.
    Keys go in as snapshots ([snapshot_key]), everything else as clones.

    While a mutator runs it borrows the collection exclusively.  An element that an
    assignment replaces, and the stored key of an entry that is removed, are dropped in the
    middle of the update, when memory still has the old contents; what an insertion gives
    back is dropped after it.  A [Map] or [Set] is its entry list; [OrderedMapProps] proves
    the slab implements it. *)

From S2P Require Import Prelude AssocList Object Value Heap ValueProps HeapSpec HeapProps.

Section Collections.
Context `{Allocator} `{Foreign} `{Callbacks} `{Floats}.

(** Overwrite the value of a block, through a [&mut Value]. *)
Definition write_payload (l : loc) (v : value) : M unit :=
  let! b := get_block l in modify (set_blocks (insert l (mk_block (ref_count b) v))).

(** A mutation: its result, the new contents, what it drops before they are in place, and what it
    drops after. *)
Definition mutation (C R : Type) : Type := C -> R * C * list value * list value.

(** [with_list_mut], [with_map_mut], [with_set_mut]: [captured] is what the closure
    owns, dropped with it when it is not called. *)
Definition with_payload_mut {C R} (view : value -> option C) (wrap : C -> value)
    (p : ptr) (captured : list value) (f : mutation C R) : M (option R) :=
  match p with
  | None => visit drop_value captured ;! ret None
  | Some l =>
      let! v := deref l in
      match view v with
      | Some c =>
          let '(r, c', replaced, discarded) := f c in
          visit drop_value replaced ;! write_payload l (wrap c') ;! visit drop_value discarded ;! ret (Some r)
      | None => visit drop_value captured ;! ret None
      end
  end.

Definition as_list (v : value) : option (list value) := match v with VList l => Some l | _ => None end.
Definition as_entries (v : value) : option (list (value * value)) :=
  match v with VMap m => Some m | _ => None end.
Definition as_elems (v : value) : option (list value) := match v with VSet s => Some s | _ => None end.

Definition with_list_mut {R} : ptr -> list value -> mutation (list value) R -> M (option R) :=
  with_payload_mut as_list VList.
Definition with_map_mut {R} : ptr -> list value -> mutation (list (value * value)) R -> M (option R) :=
  with_payload_mut as_entries VMap.
Definition with_set_mut {R} : ptr -> list value -> mutation (list value) R -> M (option R) :=
  with_payload_mut as_elems VSet.

(** [clone()] of a pointer the contract requires to be non-null. *)
Definition clone_arg (p : ptr) : M value :=
  match p with Some l => let! v := deref l in clone_value v | None => raise Undefined end.
Definition snapshot_arg (p : ptr) : M value :=
  match p with Some l => let! v := deref l in snapshot_key v | None => raise Undefined end.

Definition alloc_optional (o : option value) : M ptr := mux_rc_alloc (VOptional o).

(** ** [list.rs] *)

Definition list_length (xs : list value) : Z := as_i64 (Z.of_nat (length xs)).

Definition push_back (v : value) : mutation (list value) unit := fun xs => (tt, xs ++ [v], [], []).
Definition push_front (v : value) : mutation (list value) unit := fun xs => (tt, v :: xs, [], []).

Definition pop_back : mutation (list value) (option value) :=
  fun xs => (last xs, take (length xs - 1) xs, [], []).
Definition pop_front : mutation (list value) (option value) :=
  fun xs => match xs with [] => (None, [], [], []) | x :: r => (Some x, r, [], []) end.

Definition mux_list_push_back (xs : list value) (p : ptr) : M (list value) :=
  let! v := clone_arg p in ret (xs ++ [v]).
Definition mux_list_push (xs : list value) (p : ptr) : M (list value) :=
  let! v := clone_arg p in ret (xs ++ [v]).

Definition mux_list_pop_back (xs : list value) : M (ptr * list value) :=
  let '(o, xs', _, _) := pop_back xs in let! p := alloc_optional o in ret (p, xs').
Definition mux_list_pop (xs : list value) : M (ptr * list value) :=
  let '(o, xs', _, _) := pop_front xs in let! p := alloc_optional o in ret (p, xs').

Definition mux_list_is_empty (list : option (list value)) : bool :=
  match list with None => false | Some xs => list_length xs =? 0 end.
Definition mux_list_length (xs : list value) : Z := list_length xs.

Definition mux_list_push_back_value (list_val val : ptr) : M unit :=
  let! v := clone_arg val in with_list_mut list_val [v] (push_back v) ;! ret tt.
Definition mux_list_push_value (list_val val : ptr) : M unit :=
  let! v := clone_arg val in with_list_mut list_val [v] (push_front v) ;! ret tt.

Definition flatten {A} (o : option (option A)) : option A := match o with Some x => x | None => None end.

Definition mux_list_pop_back_value (list_val : ptr) : M ptr :=
  let! o := with_list_mut list_val [] pop_back in alloc_optional (flatten o).
Definition mux_list_pop_value (list_val : ptr) : M ptr :=
  let! o := with_list_mut list_val [] pop_front in alloc_optional (flatten o).

(** An index within bounds, as [index < 0 || index >= len] tests it. *)
Definition item_at (xs : list value) (index : Z) : option value :=
  if (index <? 0) || (list_length xs <=? index) then None else xs !! Z.to_nat index.

Definition mux_list_get (xs : list value) (index : Z) : M ptr :=
  match item_at xs index with
  | None => alloc_optional None
  | Some x => let! v := clone_value x in alloc_optional (Some v)
  end.
Definition mux_list_get_value (list : option (list value)) (index : Z) : M ptr :=
  match list with
  | None => ret None
  | Some xs =>
      match item_at xs index with
      | None => ret None
      | Some x => let! v := clone_value x in mux_rc_alloc v
      end
  end.

Definition mux_list_set (xs : list value) (index : Z) (val : ptr) : M (list value) :=
  let! v := clone_arg val in
  match item_at xs index with
  | Some old => drop_value old ;! ret (<[Z.to_nat index := v]> xs)
  | None => drop_value v ;! ret xs
  end.

Definition normalized_index (index : Z) (len : nat) : option nat :=
  let len_i64 := as_i64 (Z.of_nat len) in
  let wrapped := if index <? 0 then as_i64 (len_i64 + index) else index in
  if 0 <=? wrapped then Some (Z.to_nat wrapped) else None.

Definition default_fill_value (xs : list value) : value :=
  match xs with
  | VFloat _ :: _ => VFloat 0
  | VString _ :: _ => VString ""
  | VBool _ :: _ => VBool false
  | _ => VInt 0
  end.

(** [while list.len() <= target { push }]. *)
Definition extend_to_index (xs : list value) (target : nat) : list value :=
  xs ++ replicate (S target - length xs) (default_fill_value xs).

Definition set_item (index : Z) (v : value) : mutation (list value) unit := fun xs =>
  match normalized_index index (length xs) with
  | None => (tt, xs, [], [v])
  | Some i =>
      let xs1 := if (length xs <=? i)%nat then extend_to_index xs i else xs in
      (tt, <[i := v]> xs1, option_list (xs1 !! i), [])
  end.

Definition mux_list_set_value (list_val : ptr) (index : Z) (val : ptr) : M unit :=
  match list_val, val with
  | Some _, Some _ =>
      let! v := clone_arg val in with_list_mut list_val [v] (set_item index v) ;! ret tt
  | _, _ => ret tt
  end.

(** [Vec::insert]. *)
Definition insert_at (i : nat) (v : value) (xs : list value) : list value := take i xs ++ v :: drop i xs.

Definition insert_index (index : Z) (len : nat) : nat :=
  if index <? 0 then 0%nat
  else if Z.of_nat len <? index then len
  else Z.to_nat index.

Definition mux_list_insert (xs : list value) (index : Z) (val : ptr) : M (list value) :=
  let! v := clone_arg val in ret (insert_at (insert_index index (length xs)) v xs).

Definition mux_list_concat (a b : option (list value)) : M (option (list value)) :=
  match a, b with
  | Some xs, Some ys =>
      let! xs' := traverse clone_value xs in
      let! ys' := traverse clone_value ys in ret (Some (xs' ++ ys'))
  | _, _ => ret None
  end.

Definition mux_list_contains (reg : Registry) (xs : list value) (v : value) : bool :=
  existsb (fun item => value_eqb reg item v) xs.

(** [resolve] of [mux_list_slice_value]. *)
Definition resolve_bound (count i : Z) : Z :=
  let wrapped := if i <? 0 then as_i64 (count + i) else i in clamp 0 count wrapped.

Definition slice_items (xs : list value) (start stop : Z) : list value :=
  let count := as_i64 (Z.of_nat (length xs)) in
  let from := resolve_bound count start in
  let to := resolve_bound count stop in
  if to <=? from then [] else take (Z.to_nat (to - from)) (drop (Z.to_nat from) xs).

Definition mux_list_slice_value (list_val : ptr) (start stop : Z) : M ptr :=
  let! v := read_ptr list_val in
  match v with
  | Some (VList items) =>
      let! items' := traverse clone_value (slice_items items start stop) in
      mux_rc_alloc (VList items')
  | _ => mux_rc_alloc (VList [])
  end.

(** ** [map.rs] *)

Definition map_insert (reg : Registry) (k v : value) : mutation (list (value * value)) unit := fun m =>
  (tt, al_insert (value_eqb reg) k v m, [],
   match al_get (value_eqb reg) k m with Some old => [k; old] | None => [] end).

(** The key the map stored for [k]. *)
Definition stored_key (reg : Registry) (k : value) (m : list (value * value)) : list value :=
  match List.find (fun e => value_eqb reg e.1 k) m with Some (k', _) => [k'] | None => [] end.

Definition map_remove (reg : Registry) (k : value) : mutation (list (value * value)) (option value) :=
  fun m => (al_get (value_eqb reg) k m, al_remove (value_eqb reg) k m, stored_key reg k m, []).

Definition mux_map_value (m : list (value * value)) : M ptr := mux_rc_alloc (VMap m).

Definition clone_found (o : option value) : M (option value) :=
  match o with None => ret None | Some v => let! v' := clone_value v in ret (Some v') end.

Definition mux_map_get (m : list (value * value)) (key : value) : M ptr :=
  let! reg := gets h_registry in
  let! o := clone_found (al_get (value_eqb reg) key m) in alloc_optional o.

Definition mux_map_put (m : list (value * value)) (key val : ptr) : M (list (value * value)) :=
  let! k := snapshot_arg key in
  let! v := clone_arg val in
  insert_owned m k v.

Definition mux_map_put_value (map_val key val : ptr) : M unit :=
  match map_val, key, val with
  | Some _, Some _, Some _ =>
      let! k := snapshot_arg key in
      let! v := clone_arg val in
      let! reg := gets h_registry in
      with_map_mut map_val [k; v] (map_insert reg k v) ;! ret tt
  | _, _, _ => ret tt
  end.

Definition mux_map_remove (m : list (value * value)) (key : value) : M (ptr * list (value * value)) :=
  let! reg := gets h_registry in
  let '(o, m', replaced, _) := map_remove reg key m in
  visit drop_value replaced ;! let! p := alloc_optional o in ret (p, m').

(** The cloned key outlives the call that allocates the result. *)
Definition mux_map_remove_value (map_val key : ptr) : M ptr :=
  let! k := clone_arg key in
  let! reg := gets h_registry in
  let! o := with_map_mut map_val [] (map_remove reg k) in
  let! p := alloc_optional (flatten o) in
  drop_value k ;! ret p.

Definition mux_map_contains (reg : Registry) (m : option (list (value * value))) (key : option value) : bool :=
  match m, key with
  | Some m, Some k => is_some (al_get (value_eqb reg) k m)
  | _, _ => false
  end.
Definition mux_map_size (m : list (value * value)) : Z := as_i64 (Z.of_nat (length m)).
Definition mux_map_is_empty (m : list (value * value)) : bool := (length m =? 0)%nat.

Definition map_list (m : option (list (value * value))) (f : list (value * value) -> M (list value)) : M ptr :=
  match m with
  | None => mux_rc_alloc (VList [])
  | Some m => let! l := f m in mux_rc_alloc (VList l)
  end.
Definition mux_map_keys (m : option (list (value * value))) : M ptr :=
  map_list m (fun m => traverse clone_value m.*1).
Definition mux_map_values (m : option (list (value * value))) : M ptr :=
  map_list m (fun m => traverse clone_value m.*2).
Definition mux_map_pairs (m : option (list (value * value))) : M ptr :=
  map_list m (traverse (fun e => let! k := clone_value e.1 in
                                 let! v := clone_value e.2 in ret (VTuple k v)) : _ -> M _).

Fixpoint extend_owned (m : list (value * value)) (l : list (value * value)) : M (list (value * value)) :=
  match l with
  | [] => ret m
  | e :: r => let! m' := insert_owned m e.1 e.2 in extend_owned m' r
  end.

Definition clone_entries (m : list (value * value)) : M (list (value * value)) :=
  traverse (fun e => let! k := clone_value e.1 in let! v := clone_value e.2 in ret (k, v)) m.

Definition mux_map_merge (a b : option (list (value * value))) : M (option (list (value * value))) :=
  match a, b with
  | Some m1, Some m2 =>
      let! r := clone_entries m1 in
      let! s := clone_entries m2 in
      let! res := extend_owned r s in ret (Some res)
  | _, _ => ret None
  end.

(** ** [set.rs] *)

Definition elem_insert (reg : Registry) (k : value) : mutation (list value) bool := fun s =>
  if existsb (fun x => value_eqb reg x k) s then (false, s, [], [k]) else (true, s ++ [k], [], []).

Fixpoint elem_delete (reg : Registry) (k : value) (s : list value) : list value :=
  match s with [] => [] | x :: r => if value_eqb reg x k then r else x :: elem_delete reg k r end.

Definition elem_remove (reg : Registry) (k : value) : mutation (list value) bool := fun s =>
  (existsb (fun x => value_eqb reg x k) s, elem_delete reg k s,
   match List.find (fun x => value_eqb reg x k) s with Some x => [x] | None => [] end, []).

Definition mux_set_value (s : list value) : M ptr := mux_rc_alloc (VSet s).

Definition mux_set_add (s : list value) (val : ptr) : M (list value) :=
  let! k := snapshot_arg val in set_insert_owned s k.

Definition mux_set_add_value (set_val val : ptr) : M unit :=
  let! k := snapshot_arg val in
  let! reg := gets h_registry in
  with_set_mut set_val [k] (elem_insert reg k) ;! ret tt.

Definition mux_set_contains (reg : Registry) (s : list value) (v : value) : bool :=
  existsb (fun x => value_eqb reg x v) s.

Definition mux_set_remove (s : list value) (val : ptr) : M (bool * list value) :=
  let! k := clone_arg val in
  let! reg := gets h_registry in
  let '(b, s', replaced, _) := elem_remove reg k s in
  visit drop_value replaced ;! drop_value k ;! ret (b, s').

Definition mux_set_remove_value (set_val val : ptr) : M bool :=
  let! k := clone_arg val in
  let! reg := gets h_registry in
  let! o := with_set_mut set_val [] (elem_remove reg k) in
  drop_value k ;! ret (match o with Some b => b | None => false end).

Definition mux_set_size (s : list value) : Z := as_i64 (Z.of_nat (length s)).
Definition mux_set_is_empty (s : list value) : bool := (length s =? 0)%nat.

Definition mux_set_to_list (s : option (list value)) : M ptr :=
  match s with
  | None => mux_rc_alloc (VList [])
  | Some s => let! l := traverse clone_value s in mux_rc_alloc (VList l)
  end.

Fixpoint extend_elems (s l : list value) : M (list value) :=
  match l with [] => ret s | x :: r => let! s' := set_insert_owned s x in extend_elems s' r end.

Definition mux_set_union (a b : option (list value)) : M (option (list value)) :=
  match a, b with
  | Some s1, Some s2 =>
      let! r := traverse clone_value s1 in
      let! s := traverse clone_value s2 in
      let! res := extend_elems r s in ret (Some res)
  | _, _ => ret None
  end.

End Collections.

(** * Properties of lists, maps and sets

    Index arithmetic of lists (negative indices, extension, slices), the container
    invariants under mutation, and heap safety of the in-place mutators. *)

(** ** Index arithmetic *)

(** A bound the way Python reads it: negative from the end, clamped. *)
Definition py_bound (count i : Z) : Z := Z.max 0 (Z.min count (if i <? 0 then count + i else i)).

Lemma resolve_bound_py count i :
  0 <= count <= i64_max -> is_i64 i -> resolve_bound count i = py_bound count i.
Proof.
  intros Hc Hi. unfold resolve_bound, py_bound, clamp. destruct (i <? 0) eqn:E; bool_to_prop.
  - rewrite as_i64_small by width. lia.
  - lia.
Qed.

Lemma py_bound_range count i : 0 <= count -> 0 <= py_bound count i <= count.
Proof. unfold py_bound. lia. Qed.

Lemma slice_items_eq xs start stop :
  Z.of_nat (length xs) <= i64_max -> is_i64 start -> is_i64 stop ->
  let from := py_bound (Z.of_nat (length xs)) start in
  let to := py_bound (Z.of_nat (length xs)) stop in
  slice_items xs start stop = take (Z.to_nat (to - from)) (drop (Z.to_nat from) xs).
Proof.
  intros Hl Hs He from to. unfold slice_items. rewrite as_i64_small by width.
  rewrite !resolve_bound_py by (done || lia). fold from to.
  destruct (to <=? from) eqn:E; bool_to_prop; [|done].
  replace (Z.to_nat (to - from)) with 0%nat by lia. done.
Qed.

Lemma lookup_take_drop {A} (xs : list A) i n k :
  take n (drop k xs) !! i = if (i <? n)%nat then xs !! (k + i)%nat else None.
Proof.
  destruct (i <? n)%nat eqn:E.
  - apply Nat.ltb_lt in E. by rewrite lookup_take_lt, lookup_drop by done.
  - apply Nat.ltb_ge in E. apply lookup_take_ge. done.
Qed.

(** ** Writing an item *)

Lemma normalized_index_neg index len :
  Z.of_nat len <= i64_max -> is_i64 index -> index < 0 ->
  normalized_index index len =
  if 0 <=? Z.of_nat len + index then Some (Z.to_nat (Z.of_nat len + index)) else None.
Proof.
  intros Hl Hi Hn. unfold normalized_index. rewrite (as_i64_small (Z.of_nat len)) by width.
  destruct (index <? 0) eqn:E; bool_to_prop; [|lia]. by rewrite as_i64_small by width.
Qed.

Lemma normalized_index_pos index len : 0 <= index -> normalized_index index len = Some (Z.to_nat index).
Proof.
  intros Hi. unfold normalized_index. destruct (index <? 0) eqn:E; bool_to_prop; [lia|].
  by rewrite (proj2 (Z.leb_le 0 index)).
Qed.

(** The list [set_item] writes into. *)
Definition padded (xs : list value) (i : nat) : list value :=
  if (length xs <=? i)%nat then extend_to_index xs i else xs.

Lemma padded_length xs i : length (padded xs i) = Nat.max (length xs) (S i).
Proof.
  unfold padded, extend_to_index. destruct (length xs <=? i)%nat eqn:E.
  - apply Nat.leb_le in E. rewrite length_app, length_replicate. lia.
  - apply Nat.leb_gt in E. lia.
Qed.

Lemma padded_lookup xs i j :
  padded xs i !! j =
  if (j <? length xs)%nat then xs !! j
  else if (j <? S i)%nat then Some (default_fill_value xs) else None.
Proof.
  unfold padded, extend_to_index.
  destruct (length xs <=? i)%nat eqn:E; [apply Nat.leb_le in E|apply Nat.leb_gt in E];
  destruct (j <? length xs)%nat eqn:E1; [apply Nat.ltb_lt in E1|apply Nat.ltb_ge in E1|apply Nat.ltb_lt in E1|apply Nat.ltb_ge in E1].
  - by apply lookup_app_l.
  - rewrite lookup_app_r by done. destruct (j <? S i)%nat eqn:E2.
    + apply Nat.ltb_lt in E2. apply lookup_replicate_2. lia.
    + apply Nat.ltb_ge in E2. apply lookup_ge_None_2. rewrite length_replicate. lia.
  - done.
  - rewrite lookup_ge_None_2 by done. destruct (j <? S i)%nat eqn:E2; [|done].
    apply Nat.ltb_lt in E2. lia.
Qed.

(** ** Heap safety of the mutators *)

Section Safety.
Context `{AllocatorLaws} `{ForeignLaws} `{!ForeignExclusive} `{Callbacks} `{Floats}.
Implicit Types (st : stack) (h : Heap) (l : loc).

(** New contents for a block: handles move between it and the stack. *)
Lemma inv_write st os gs h l b v :
  inv (own os st) h -> h_blocks h !! l = Some b -> ref_count b <> 0 ->
  (forall w, (l, w) ∉ s_borrow st) -> objs v ++ gs ≡ₚ objs (payload b) ++ os ->
  inv (own gs st) (set_blocks (insert l (mk_block (ref_count b) v)) h).
Proof.
  intros [I1 I2 I3 I4 I5 I6 I7 I8 I9 I10] Hl Hc Hbor Hperm.
  set (h' := set_blocks _ h).
  assert (Hp : all_objs (own gs st) h' ≡ₚ all_objs (own os st) h).
  { unfold all_objs. simpl. apply (Permutation_app_inv_l (objs (payload b))).
    pose proof (heap_objs_update _ _ _ (mk_block (ref_count b) v) Hl) as Hu.
    unfold block_objs in Hu. simpl in Hu. apply Z.eqb_neq in Hc. rewrite Hc in Hu.
    rewrite !app_assoc, Hu, <- (app_assoc _ (heap_objs _) gs), (Permutation_app_comm (heap_objs _) gs).
    rewrite !app_assoc, Hperm, <- (app_assoc _ os (heap_objs _)), (Permutation_app_comm os).
    rewrite !app_assoc. done. }
  split; simpl in *; try done.
  - intros r. rewrite (handles_perm _ _ _ Hp). apply I1.
  - eapply coherent_sub; [|exact I4]. intros o. by rewrite Hp.
  - intros l' Hin. destruct (I5 l' Hin) as (b' & Hb' & Hr). destruct (decide (l' = l)) as [->|Hn].
    + rewrite lookup_insert_eq. eexists. split; [done|]. simpl. rewrite Hl in Hb'. by injection Hb' as ->.
    + rewrite lookup_insert_ne by done. eauto.
  - intros l' Hin. destruct (I6 l' Hin) as (b' & Hb' & E). exists b'.
    rewrite lookup_insert_ne; [done|]. intros ->. congruence.
  - intros l' w Hin. destruct (I8 l' w Hin) as (b' & Hb' & E). exists b'.
    rewrite lookup_insert_ne; [done|]. intros ->. by apply (Hbor w).
  - by rewrite map_size_insert_Some.
Qed.

(** A mutation neither invents nor loses a handle. *)
Definition balanced {C R} (wrap : C -> value) (robjs : R -> list ObjectRef)
    (captured : list value) (f : mutation C R) : Prop :=
  forall c, let '(r, c', g1, g2) := f c in
    objs (wrap c') ++ robjs r ++ flat_map objs (g1 ++ g2) ≡ₚ objs (wrap c) ++ flat_map objs captured.

Definition opt_objs {R} (robjs : R -> list ObjectRef) (o : option R) : list ObjectRef :=
  match o with Some r => robjs r | None => [] end.

Lemma wp_drop_all vs st h : inv (own (flat_map objs vs) st) h -> wp (visit drop_value vs) (fun _ => inv st) h.
Proof. apply (wp_drop_all_at (fun h => h)). Qed.

(** Reading a block as [v] and writing [v] into it are the same. *)
Lemma holding_insert h l b v : h_blocks h !! l = Some b -> holding l v h = set_blocks (insert l (mk_block (ref_count b) v)) h.
Proof. intros Hb. unfold holding, set_blocks. f_equal. apply map_eq. intros k. destruct (decide (k = l)) as [->|Hn];
  [by rewrite lookup_alter_eq, lookup_insert_eq, Hb|by rewrite lookup_alter_ne, lookup_insert_ne]. Qed.

Lemma wp_with_payload_mut {C R} (view : value -> option C) wrap (robjs : R -> list ObjectRef) captured f st h l :
  (forall v c, view v = Some c -> v = wrap c) -> balanced wrap robjs captured f ->
  inv (own (flat_map objs captured) st) h -> l ∈ s_refs st -> s_borrow st = [] ->
  wp (with_payload_mut view wrap (Some l) captured f) (fun o => inv (own (opt_objs robjs o) st)) h.
Proof.
  intros Hview Hf Hi Hin Hbor. destruct (inv_refs _ _ Hi l Hin) as (b & Hb & Hr).
  pose proof Hin as Hone. apply refs_to_elem in Hone. simpl in Hr.
  unfold with_payload_mut, deref, get_block. wp_steps. rewrite Hb. wp_steps.
  destruct (view (payload b)) as [c|] eqn:Ev.
  - specialize (Hf c). destruct (f c) as [[[r c'] g1] g2].
    eapply wp_use; [apply (wp_drop_all_at (holding l (wrap c')) g1 (own (flat_map objs g2) (own (robjs r) st)))|].
    + rewrite (holding_insert h l b) by done. rewrite !inv_own_app.
      eapply inv_write; try done; try lia.
      * rewrite Hbor. intros w. apply not_elem_of_nil.
      * rewrite (Hview _ _ Ev), <- Hf, flat_map_app. solve_Permutation.
    + intros [] h1 Hi1; cbv beta in Hi1. destruct (inv_refs _ _ Hi1 l Hin) as (b1 & Hb1 & _).
      simpl in Hb1. rewrite lookup_alter_eq in Hb1. destruct (h_blocks h1 !! l) as [b2|] eqn:Hb2; [|done].
      rewrite (holding_insert h1 l b2) in Hi1 by done.
      unfold write_payload, get_block. wp_steps. rewrite Hb2. wp_steps.
      eapply wp_use; [by apply (wp_drop_all g2 (own (robjs r) st))|]. intros [] h2 Hi2; cbv beta in Hi2. by wp_steps.
  - eapply wp_use; [by apply wp_drop_all|]. intros [] h' Hi'; cbv beta in Hi'. wp_steps. simpl.
    by rewrite own_nil.
Qed.

(** Arguments are copied out of blocks the caller owns. *)
Lemma wp_arg f st h l :
  (forall v, copies f objs v) -> inv st h -> l ∈ s_refs st ->
  wp (let! v := deref l in f v) (fun v => inv (own (objs v) st)) h.
Proof.
  intros Hf Hi Hin. destruct (inv_refs _ _ Hi l Hin) as (b & Hb & Hr). apply refs_to_elem in Hin.
  unfold deref, get_block. wp_steps. rewrite Hb. wp_steps.
  eapply wp_mono; [|apply (Hf (payload b) (borrow l (payload b) st))].
  - intros v h' Hi'; cbv beta in Hi'. by apply (inv_unborrow (own (objs v) st) _ l (payload b)).
  - apply inv_borrow_intro; [done|done|lia].
  - intros o Ho. right. exists l, (payload b). split; [left|done].
Qed.

Lemma wp_clone_arg st h l :
  inv st h -> l ∈ s_refs st -> wp (clone_arg (Some l)) (fun v => inv (own (objs v) st)) h.
Proof. intros. apply wp_arg; try done. apply clone_value_copies. Qed.

Lemma wp_snapshot_arg st h l :
  inv st h -> l ∈ s_refs st -> wp (snapshot_arg (Some l)) (fun v => inv (own (objs v) st)) h.
Proof. intros. apply wp_arg; try done. apply deep_clone_value_copies. Qed.

(** ** Each mutation is balanced *)

Definition no_objs {R} (_ : R) : list ObjectRef := [].
Definition option_objs (o : option value) : list ObjectRef := opt_objs objs o.

Lemma push_back_balanced v : balanced VList no_objs [v] (push_back v).
Proof. intros xs. simpl. rewrite flat_map_app. simpl. by rewrite !app_nil_r. Qed.

Lemma push_front_balanced v : balanced VList no_objs [v] (push_front v).
Proof. intros xs. simpl. rewrite !app_nil_r. apply Permutation_app_comm. Qed.

Lemma pop_back_balanced : balanced VList option_objs [] pop_back.
Proof.
  intros xs. simpl. rewrite !app_nil_r. destruct xs as [|x xs _] using rev_ind; [done|].
  rewrite last_snoc, length_app. simpl. replace (length xs + 1 - 1)%nat with (length xs) by lia.
  rewrite take_app_length, flat_map_app. simpl. by rewrite app_nil_r.
Qed.

Lemma pop_front_balanced : balanced VList option_objs [] pop_front.
Proof. intros [|x xs]; simpl; [done|]. rewrite !app_nil_r. apply Permutation_app_comm. Qed.

Lemma flat_map_insert xs i v old :
  xs !! i = Some old -> flat_map objs (<[i := v]> xs) ++ objs old ≡ₚ flat_map objs xs ++ objs v.
Proof.
  intros Hi. apply list_elem_of_split_length in Hi as (l1 & l2 & -> & ->).
  rewrite insert_app_r_alt by lia. rewrite Nat.sub_diag. simpl. rewrite !flat_map_app. simpl.
  solve_Permutation.
Qed.

Lemma default_fill_objs xs : objs (default_fill_value xs) = [].
Proof. by destruct xs as [|[] ?]. Qed.

Lemma padded_objs xs i : flat_map objs (padded xs i) = flat_map objs xs.
Proof.
  unfold padded, extend_to_index. destruct (_ <=? i)%nat; [|done]. rewrite flat_map_app.
  replace (flat_map objs (replicate _ _)) with (@nil ObjectRef); [by rewrite app_nil_r|].
  induction (S i - length xs)%nat as [|n IH]; simpl; [done|]. by rewrite default_fill_objs.
Qed.

Lemma set_item_balanced index v : balanced VList no_objs [v] (set_item index v).
Proof.
  intros xs. unfold set_item. destruct (normalized_index index (length xs)) as [i|]; simpl; [|done].
  change (if (length xs <=? i)%nat then extend_to_index xs i else xs) with (padded xs i).
  destruct (padded xs i !! i) as [old|] eqn:E.
  - simpl. rewrite !app_nil_r, (flat_map_insert _ _ v _ E). by rewrite padded_objs.
  - apply lookup_ge_None in E. rewrite padded_length in E. lia.
Qed.

Lemma map_insert_balanced reg k v : balanced VMap no_objs [k; v] (map_insert reg k v).
Proof.
  intros m. unfold map_insert. simpl. rewrite app_nil_r.
  destruct (al_get (value_eqb reg) k m) as [old|] eqn:E; simpl.
  - destruct (al_split _ k m old E) as (m1 & k' & m2 & -> & Ek & E1).
    rewrite al_insert_app_absent by done. simpl. rewrite Ek, !flat_map_app. simpl. solve_Permutation.
  - rewrite al_insert_absent by done. rewrite flat_map_app. simpl. by rewrite !app_nil_r.
Qed.

Lemma map_remove_balanced reg k : balanced VMap option_objs [] (map_remove reg k).
Proof.
  intros m. unfold map_remove, stored_key. simpl. rewrite !app_nil_r.
  induction m as [|[k' v'] r IH]; simpl; [done|]. destruct (value_eqb reg k' k); simpl.
  - rewrite app_nil_r. solve_Permutation.
  - rewrite <- IH. solve_Permutation.
Qed.

Lemma elem_insert_balanced reg k : balanced VSet no_objs [k] (elem_insert reg k).
Proof.
  intros s. unfold elem_insert. destruct (existsb _ s); simpl; [done|].
  rewrite flat_map_app. simpl. by rewrite !app_nil_r.
Qed.

Lemma elem_remove_balanced reg k : balanced VSet no_objs [] (elem_remove reg k).
Proof.
  intros s. unfold elem_remove. simpl. rewrite !app_nil_r.
  induction s as [|x r IH]; simpl; [done|]. destruct (value_eqb reg x k); simpl.
  - rewrite app_nil_r. solve_Permutation.
  - rewrite <- IH. solve_Permutation.
Qed.

Lemma as_list_wrap v c : as_list v = Some c -> v = VList c.
Proof. destruct v; simpl; congruence. Qed.
Lemma as_entries_wrap v c : as_entries v = Some c -> v = VMap c.
Proof. destruct v; simpl; congruence. Qed.
Lemma as_elems_wrap v c : as_elems v = Some c -> v = VSet c.
Proof. destruct v; simpl; congruence. Qed.

(** One argument is cloned in, nothing comes back. *)
Lemma wp_clone_in f st h l p :
  (forall v, balanced VList no_objs [v] (f v)) ->
  inv st h -> l ∈ s_refs st -> p ∈ s_refs st -> s_borrow st = [] ->
  wp (let! v := clone_arg (Some p) in with_list_mut (R := unit) (Some l) [v] (f v) ;! ret tt)
    (fun _ => inv st) h.
Proof.
  intros Hf Hi Hl Hp Hb. eapply wp_use; [by apply wp_clone_arg|]. intros v h1 Hi1; cbv beta in Hi1.
  eapply wp_use; [eapply (wp_with_payload_mut as_list VList no_objs [v]);
    [apply as_list_wrap|apply Hf|simpl; by rewrite app_nil_r|done..]|].
  intros o h2 Hi2; cbv beta in Hi2. wp_steps. destruct o; simpl in Hi2; by rewrite own_nil in Hi2.
Qed.

Lemma wp_pop f st h l :
  balanced VList option_objs [] f -> inv st h -> l ∈ s_refs st -> s_borrow st = [] ->
  wp (let! o := with_list_mut (Some l) [] f in alloc_optional (flatten o)) (gives st) h.
Proof.
  intros Hf Hi Hl Hb. eapply wp_use; [eapply (wp_with_payload_mut as_list VList option_objs []);
    [apply as_list_wrap|exact Hf|simpl; by rewrite own_nil|done..]|].
  intros o h1 Hi1; cbv beta in Hi1. unfold alloc_optional.
  eapply wp_mono; [|apply (wp_mux_rc_alloc _ st)].
  - intros [l'|] h2 Hp; [|done]. destruct Hp as (? & E & ?). split_and!; first [done|by rewrite E].
  - by destruct o as [[v|]|].
Qed.

Lemma wp_map_put_value st h l k v :
  inv st h -> l ∈ s_refs st -> k ∈ s_refs st -> v ∈ s_refs st -> s_borrow st = [] ->
  wp (mux_map_put_value (Some l) (Some k) (Some v)) (fun _ => inv st) h.
Proof.
  intros Hi Hl Hk Hv Hb. unfold mux_map_put_value.
  eapply wp_use; [by apply wp_snapshot_arg|]. intros kv h1 Hi1; cbv beta in Hi1.
  eapply wp_use; [by apply wp_clone_arg|]. intros vv h2 Hi2; cbv beta in Hi2. wp_steps.
  eapply wp_use; [eapply (wp_with_payload_mut as_entries VMap no_objs [kv; vv]);
    [apply as_entries_wrap|apply map_insert_balanced| |done..]|].
  { simpl. rewrite app_nil_r. apply inv_own_app in Hi2.
    eapply inv_own_perm; [apply Permutation_app_comm|exact Hi2]. }
  intros o h3 Hi3; cbv beta in Hi3. wp_steps. destruct o; simpl in Hi3; by rewrite own_nil in Hi3.
Qed.

Lemma wp_map_remove_value st h l k :
  inv st h -> l ∈ s_refs st -> k ∈ s_refs st -> s_borrow st = [] ->
  wp (mux_map_remove_value (Some l) (Some k)) (gives st) h.
Proof.
  intros Hi Hl Hk Hb. unfold mux_map_remove_value.
  eapply wp_use; [by apply wp_clone_arg|]. intros kv h1 Hi1; cbv beta in Hi1. wp_steps.
  eapply wp_use; [eapply (wp_with_payload_mut as_entries VMap option_objs [] _ (own (objs kv) st));
    [apply as_entries_wrap|apply map_remove_balanced|simpl; by rewrite own_nil|done..]|].
  intros o h2 Hi2; cbv beta in Hi2. unfold alloc_optional. eapply wp_use.
  { apply (wp_mux_rc_alloc _ (own (objs kv) st)). by destruct o as [[v|]|]. }
  intros [l'|] h3 Hp; cbv beta in Hp.
  - destruct Hp as (Hi3 & Hb3 & Hnb). destruct (inv_ref_block _ _ _ Hi3) as (b & Hb' & _ & Hbor).
    eapply wp_use; [apply (wp_drop_value kv (borrow l' (payload b) (ref l' st))); exact Hbor|].
    intros [] h4 Hi4; cbv beta in Hi4. wp_steps.
    destruct (inv_borrow _ _ Hi4 l' (payload b)) as (b4 & Hb4 & _); [left|].
    split_and!; [by eapply inv_unborrow|done|by rewrite Hb4].
  - eapply wp_use; [apply (wp_drop_value kv st); exact Hp|]. intros [] h4 Hi4. by wp_steps.
Qed.

Lemma wp_set_add_value st h l k :
  inv st h -> l ∈ s_refs st -> k ∈ s_refs st -> s_borrow st = [] ->
  wp (mux_set_add_value (Some l) (Some k)) (fun _ => inv st) h.
Proof.
  intros Hi Hl Hk Hb. unfold mux_set_add_value.
  eapply wp_use; [by apply wp_snapshot_arg|]. intros kv h1 Hi1; cbv beta in Hi1. wp_steps.
  eapply wp_use; [eapply (wp_with_payload_mut as_elems VSet no_objs [kv]);
    [apply as_elems_wrap|apply elem_insert_balanced|simpl; by rewrite app_nil_r|done..]|].
  intros o h3 Hi3; cbv beta in Hi3. wp_steps. destruct o; simpl in Hi3; by rewrite own_nil in Hi3.
Qed.

Lemma wp_set_remove_value st h l k :
  inv st h -> l ∈ s_refs st -> k ∈ s_refs st -> s_borrow st = [] ->
  wp (mux_set_remove_value (Some l) (Some k)) (fun _ => inv st) h.
Proof.
  intros Hi Hl Hk Hb. unfold mux_set_remove_value.
  eapply wp_use; [by apply wp_clone_arg|]. intros kv h1 Hi1; cbv beta in Hi1. wp_steps.
  eapply wp_use; [eapply (wp_with_payload_mut as_elems VSet no_objs [] _ (own (objs kv) st));
    [apply as_elems_wrap|apply elem_remove_balanced|simpl; by rewrite own_nil|done..]|].
  intros o h2 Hi2; cbv beta in Hi2. eapply wp_use; [apply (wp_drop_value kv st)|].
  { destruct o; simpl in Hi2; by rewrite own_nil in Hi2. }
  intros [] h3 Hi3. by wp_steps.
Qed.

End Safety.

(** ** Well-formedness under mutation *)

Section WellFormed.
Context `{CallbackLaws reg} `{FloatLaws}.
Implicit Types (m : list (value * value)) (s : list value) (k v : value).

Lemma wf_map m : wf reg (VMap m) <-> keys_distinct (value_eqb reg) m /\ Forall (fun e => wf reg e.1 /\ wf reg e.2) m.
Proof.
  split.
  - inversion 1 as [x Hd Hc]; subst. split; [done|]. apply Forall_forall. intros [k v] Hin.
    split; apply Hc; [by eapply map_children_l|by eapply map_children_r].
  - intros [Hd Hf]. constructor; [done|]. intros x Hx. rewrite Forall_forall in Hf.
    apply elem_of_app in Hx as [Hx|Hx]; apply list_elem_of_fmap in Hx as (e & -> & Hin); by apply Hf.
Qed.

Lemma wf_set s : wf reg (VSet s) <-> keys_distinct (value_eqb reg) (as_map s) /\ Forall (wf reg) s.
Proof.
  split.
  - inversion 1 as [x Hd Hc]; subst. split; [done|]. by apply Forall_forall.
  - intros [Hd Hf]. constructor; [done|]. intros x Hx. rewrite Forall_forall in Hf. auto.
Qed.

Lemma keys_distinct_insert m k v :
  Forall (fun e => wf reg e.1 /\ wf reg e.2) m -> wf reg k ->
  keys_distinct (value_eqb reg) m -> keys_distinct (value_eqb reg) (al_insert (value_eqb reg) k v m).
Proof.
  intros Hw Hk. induction m as [|[k' v'] r IH]; simpl; [by repeat constructor|].
  inversion Hw as [|? ? [Hwk' _] Hwr]; subst. intros [Hf Hd]. simpl in *.
  destruct (value_eqb reg k' k) eqn:E; simpl; [done|]. split; [|by apply IH].
  clear -Hf E Hwk' Hk. induction r as [|[k2 v2] r IH]; simpl in *.
  - by constructor.
  - inversion Hf; subst. destruct (value_eqb reg k2 k); constructor; try done. by apply IH.
Qed.

Lemma al_insert_Forall (P : value -> Prop) m k v :
  Forall (fun e => P e.1 /\ P e.2) m -> P k -> P v ->
  Forall (fun e => P e.1 /\ P e.2) (al_insert (value_eqb reg) k v m).
Proof.
  intros Hm Hk Hv. induction Hm as [|[k' v'] r [Hk' Hv'] Hr IH]; simpl; [by repeat constructor|].
  simpl in *. destruct (value_eqb reg k' k); by constructor.
Qed.

Lemma keys_distinct_remove {V} (m : list (value * V)) k :
  keys_distinct (value_eqb reg) m -> keys_distinct (value_eqb reg) (al_remove (value_eqb reg) k m).
Proof.
  induction m as [|[k' v'] r IH]; simpl; [done|]. intros [Hf Hd]. destruct (value_eqb reg k' k); [done|].
  simpl. split; [|by apply IH]. clear -Hf. induction r as [|[k2 v2] r IH]; simpl; [done|].
  inversion Hf; subst. destruct (value_eqb reg k2 k); [done|]. constructor; [done|]. by apply IH.
Qed.

Lemma al_remove_Forall {V} (P : value * V -> Prop) (m : list (value * V)) k :
  Forall P m -> Forall P (al_remove (value_eqb reg) k m).
Proof.
  intros Hm. induction Hm as [|[k' v'] r Hk' Hr IH]; simpl; [done|].
  destruct (value_eqb reg k' k); [done|]. by constructor.
Qed.

Lemma elem_delete_as_map s k : as_map (elem_delete reg k s) = al_remove (value_eqb reg) k (as_map s).
Proof. induction s as [|x r IH]; csimpl; [done|]. destruct (value_eqb reg x k); csimpl; [done|]. by rewrite IH. Qed.

Lemma keys_distinct_snoc s k :
  existsb (fun x => value_eqb reg x k) s = false -> keys_distinct (value_eqb reg) (as_map s) ->
  keys_distinct (value_eqb reg) (as_map (s ++ [k])).
Proof.
  unfold as_map. induction s as [|x r IH]; csimpl; [by repeat constructor|].
  intros [E1 E2]%orb_false_iff [Hf Hd]. split; [|by apply IH]. rewrite fmap_app, Forall_app. split; [done|].
  by repeat constructor.
Qed.

(** The in-place mutators of maps and sets keep values well formed: keys stay
    pairwise distinct whatever is inserted or removed, so equality, order and hash
    of the collection stay lawful. *)
Lemma mutators_preserve_wf m s k v :
  wf reg (VMap m) -> wf reg (VSet s) -> wf reg k -> wf reg v ->
  wf reg (VMap (map_insert reg k v m).1.1.2) /\ wf reg (VMap (map_remove reg k m).1.1.2) /\
  wf reg (VSet (elem_insert reg k s).1.1.2) /\ wf reg (VSet (elem_remove reg k s).1.1.2).
Proof.
  intros [Hd Hf]%wf_map [Hds Hfs]%wf_set Hk Hv. split_and!.
  - apply wf_map. split; [by apply keys_distinct_insert|by apply al_insert_Forall].
  - apply wf_map. split; [by apply keys_distinct_remove|by apply al_remove_Forall].
  - apply wf_set. unfold elem_insert. destruct (existsb _ s) eqn:E; simpl; [done|].
    split; [by apply keys_distinct_snoc|]. rewrite Forall_app. by rewrite Forall_singleton.
  - apply wf_set. simpl. rewrite elem_delete_as_map. split; [by apply keys_distinct_remove|].
    clear -Hfs. induction Hfs as [|x r Hx Hr IH]; simpl; [done|].
    destruct (value_eqb reg x k); [done|]. by constructor.
Qed.

End WellFormed.

(** ** Properties of lists *)

(** A list slice follows Python's rules with no overflow: negative bounds count
    from the end, bounds clamp, the result holds exactly the items between them in
    order, and splitting a list anywhere with two slices loses nothing. *)
Lemma list_slice_python xs start stop i :
  Z.of_nat (length xs) <= i64_max -> is_i64 start -> is_i64 stop ->
  let from := py_bound (Z.of_nat (length xs)) start in
  let to := py_bound (Z.of_nat (length xs)) stop in
  Z.of_nat (length (slice_items xs start stop)) = Z.max 0 (to - from) /\
  slice_items xs start stop !! i =
    (if Z.of_nat i <? to - from then xs !! (Z.to_nat from + i)%nat else None) /\
  slice_items xs 0 start ++ slice_items xs start (Z.of_nat (length xs)) = xs.
Proof.
  intros Hl Hs He from to.
  pose proof (py_bound_range (Z.of_nat (length xs)) start ltac:(lia)) as Hf. fold from in Hf.
  pose proof (py_bound_range (Z.of_nat (length xs)) stop ltac:(lia)) as Ht. fold to in Ht.
  assert (py_bound (Z.of_nat (length xs)) 0 = 0) as E0 by (unfold py_bound; simpl; lia).
  assert (py_bound (Z.of_nat (length xs)) (Z.of_nat (length xs)) = Z.of_nat (length xs)) as E1.
  { unfold py_bound. destruct (_ <? 0) eqn:E; bool_to_prop; lia. }
  rewrite !slice_items_eq by (done || width). rewrite E0, E1. fold from to. split_and!.
  - rewrite length_take, length_drop. lia.
  - rewrite lookup_take_drop. destruct (Z.of_nat i <? to - from) eqn:E; bool_to_prop.
    + by rewrite (proj2 (Nat.ltb_lt i _)) by lia.
    + by rewrite (proj2 (Nat.ltb_ge i _)) by lia.
  - rewrite Z.sub_0_r, drop_0, (take_ge (drop _ xs)) by (rewrite length_drop; lia). apply take_drop.
Qed.

(** Writing an item: index [-k] counts from the end, an index past the end
    extends the list with the default of its first item's type, every other item is
    kept, and an index before the start changes nothing and discards the value. *)
Lemma list_set_item index v xs j :
  Z.of_nat (length xs) <= i64_max -> is_i64 index ->
  let '(_, ys, replaced, discarded) := set_item index v xs in
  let target := if index <? 0 then Z.of_nat (length xs) + index else index in
  if target <? 0 then ys = xs /\ replaced = [] /\ discarded = [v]
  else
    length ys = Nat.max (length xs) (S (Z.to_nat target)) /\
    ys !! j =
      (if Z.of_nat j =? target then Some v
       else if (j <? length xs)%nat then xs !! j
       else if Z.of_nat j <? target then Some (default_fill_value xs) else None).
Proof.
  intros Hl Hi. unfold set_item.
  set (target := if index <? 0 then Z.of_nat (length xs) + index else index).
  assert (normalized_index index (length xs) =
    if 0 <=? target then Some (Z.to_nat target) else None) as ->.
  { unfold target. destruct (index <? 0) eqn:E; bool_to_prop.
    - by apply normalized_index_neg.
    - rewrite normalized_index_pos by done. by rewrite (proj2 (Z.leb_le 0 index)). }
  destruct (0 <=? target) eqn:E; bool_to_prop; fold target.
  2: { by rewrite (proj2 (Z.ltb_lt target 0)). }
  rewrite (proj2 (Z.ltb_ge target 0)) by done.
  change (if (length xs <=? Z.to_nat target)%nat then _ else xs) with (padded xs (Z.to_nat target)).
  rewrite length_insert, padded_length. split; [done|].
  destruct (Z.of_nat j =? target) eqn:Ej; bool_to_prop.
  - rewrite <- Ej, Nat2Z.id. apply list_lookup_insert_eq. rewrite padded_length. lia.
  - rewrite list_lookup_insert_ne, padded_lookup by lia.
    destruct (j <? length xs)%nat; [done|].
    destruct (j <? S (Z.to_nat target))%nat eqn:E1, (Z.of_nat j <? target) eqn:E2; bool_to_prop; try done;
      [apply Nat.ltb_lt in E1|apply Nat.ltb_ge in E1]; lia.
Qed.

(** Inserting clamps the position to the list and shifts what follows it. *)
Lemma list_insert_position index v xs j :
  let i := insert_index index (length xs) in
  (i <= length xs)%nat /\
  (0 <= index <= Z.of_nat (length xs) -> Z.of_nat i = index) /\
  insert_at i v xs !! j =
    (if (j <? i)%nat then xs !! j else if (j =? i)%nat then Some v else xs !! (j - 1)%nat).
Proof.
  intros i. assert (Hi : (i <= length xs)%nat).
  { unfold i, insert_index. destruct (index <? 0) eqn:E1; [lia|].
    destruct (_ <? index) eqn:E2; bool_to_prop; lia. }
  split_and!; [done| |].
  - intros Hr. unfold i, insert_index. destruct (index <? 0) eqn:E1; bool_to_prop; [lia|].
    destruct (_ <? index) eqn:E2; bool_to_prop; lia.
  - unfold insert_at. destruct (j <? i)%nat eqn:E1; [apply Nat.ltb_lt in E1|apply Nat.ltb_ge in E1].
    + rewrite lookup_app_l by (rewrite length_take; lia). by apply lookup_take_lt.
    + rewrite lookup_app_r by (rewrite length_take; lia). rewrite length_take, Nat.min_l by lia.
      destruct (j =? i)%nat eqn:E2; [apply Nat.eqb_eq in E2|apply Nat.eqb_neq in E2].
      * by replace (j - i)%nat with 0%nat by lia.
      * replace (j - i)%nat with (S (j - i - 1)) by lia. simpl. rewrite lookup_drop. f_equal. lia.
Qed.

Section SafetyProperties.
Context `{AllocatorLaws} `{ForeignLaws} `{!ForeignExclusive} `{Callbacks} `{Floats}.


End SafetyProperties.

(** ** Witnesses *)

#[local] Existing Instances demo_floats demo_float_laws demo_callbacks demo_callback_laws.
#[local] Existing Instances demo_allocator demo_allocator_laws demo_foreign demo_foreign_laws.

Lemma demo_set_wf : wf demo_registry (VSet [VInt 1; VBool true]).
Proof. apply (wfb_sound _ 2). vm_compute. reflexivity. Qed.

(** A heap with one list block, referenced twice. *)
Definition list_heap : Heap :=
  mk_heap point_registry false {[ 1%positive := mk_block 2 (VList [VInt 7]) ]} ∅ ∅ ∅ ∅ 1.

Lemma list_heap_inv : inv (mk_stack [] [] [1%positive; 1%positive] [] []) list_heap.
Proof.
  assert (heap_objs (h_blocks list_heap) = []) as E by (vm_compute; reflexivity).
  split.
  - intros r. unfold all_objs. by rewrite E.
  - by inversion 1.
  - constructor.
  - unfold all_objs. rewrite E. split; by inversion 1.
  - intros l Hl. assert (l = 1%positive) as -> by set_solver. eexists. split; [reflexivity|].
    vm_compute. split; discriminate.
  - by inversion 1.
  - constructor.
  - by inversion 1.
  - vm_compute. reflexivity.
  - apply point_sizes.
Qed.

#[local] Instance demo_foreign_exclusive : ForeignExclusive.
Proof. intros l v. by split. Qed.

