(* ===== verification/Bytes.v ===== *)
(** * The byte scalar and byte sequences ([src/src/byte.rs], [src/src/bytes.rs])

    An octet is a [Z] below 256.  The operations act on the contents of a value:
    [option value] is a pointer argument ([None] for null), a mutator returns the
    new contents, and the value an operation boxes is returned as such.  An [Err]
    carries the detail text of the typed error the runtime builds.  The host is
    little-endian, so [to_ne_bytes] is the little-endian encoding. *)

From S2P Require Import Prelude Value.

(** ** [byte.rs] *)

Definition checked (v : Z) : result Z string :=
  if in_range 0 255 v then Ok v
  else Err ("Byte value " +:+ pretty v +:+ " is outside the range 0..255").

Definition checked_pair (left right : Z) : result (Z * Z) string :=
  let? a := checked left in let? b := checked right in Ok (a, b).

Definition mux_byte_checked_add (left right : Z) : result Z string :=
  let? (a, b) := checked_pair left right in
  let sum := a + b in if sum <=? 255 then Ok sum else Err "Byte addition overflowed".

Definition mux_byte_checked_sub (left right : Z) : result Z string :=
  let? (a, b) := checked_pair left right in
  let d := a - b in if 0 <=? d then Ok d else Err "Byte subtraction underflowed".

Definition mux_byte_checked_mul (left right : Z) : result Z string :=
  let? (a, b) := checked_pair left right in
  let p := a * b in if p <=? 255 then Ok p else Err "Byte multiplication overflowed".

Definition mux_byte_checked_div (left right : Z) : result Z string :=
  let? (a, b) := checked_pair left right in
  if b =? 0 then Err "Byte division by zero" else Ok (a / b).

Definition mux_byte_checked_rem (left right : Z) : result Z string :=
  let? (a, b) := checked_pair left right in
  if b =? 0 then Err "Byte modulo by zero" else Ok (a mod b).

Definition mux_byte_wrapping_add (left right : Z) : Z := (left mod 256 + right mod 256) mod 256.
Definition mux_byte_wrapping_sub (left right : Z) : Z := (left mod 256 - right mod 256) mod 256.
Definition mux_byte_wrapping_mul (left right : Z) : Z := (left mod 256 * (right mod 256)) mod 256.

Definition mux_byte_saturating_add (left right : Z) : Z :=
  Z.min (saturate_i64 (clamp 0 255 left + clamp 0 255 right)) 255.
Definition mux_byte_saturating_sub (left right : Z) : Z :=
  Z.max (saturate_i64 (clamp 0 255 left - clamp 0 255 right)) 0.
Definition mux_byte_saturating_mul (left right : Z) : Z :=
  Z.min (saturate_i64 (clamp 0 255 left * clamp 0 255 right)) 255.

Definition mux_byte_bit_and (left right : Z) : Z := Z.land (as_u8 left) (as_u8 right).
Definition mux_byte_bit_or (left right : Z) : Z := Z.lor (as_u8 left) (as_u8 right).
Definition mux_byte_bit_xor (left right : Z) : Z := Z.lxor (as_u8 left) (as_u8 right).
Definition mux_byte_bit_not (v : Z) : Z := as_u8 (Z.lnot v).

(** [u8::rotate_left] and [rotate_right], for an amount below 8. *)
Definition rotate_left8 (b n : Z) : Z := Z.lor (as_u8 (Z.shiftl b n)) (Z.shiftr b (8 - n)).
Definition rotate_right8 (b n : Z) : Z := Z.lor (Z.shiftr b n) (as_u8 (Z.shiftl b (8 - n))).

Definition mux_byte_rotate_left (v shift : Z) : Z := rotate_left8 (as_u8 v) (shift mod 8).
Definition mux_byte_rotate_right (v shift : Z) : Z := rotate_right8 (as_u8 v) (shift mod 8).

Definition shift_range_error : string := "Byte shift amount must be in the range 0..7".
Definition mux_byte_shift_left (v shift : Z) : result Z string :=
  if in_range 0 7 shift then Ok (as_u8 (Z.shiftl (as_u8 v) shift)) else Err shift_range_error.
Definition mux_byte_shift_right (v shift : Z) : result Z string :=
  if in_range 0 7 shift then Ok (Z.shiftr (as_u8 v) shift) else Err shift_range_error.

(** ** Byte sequences: arguments *)

Definition byte_value (v : option value) : result Z string :=
  match v with
  | None => Err "null byte value"
  | Some (VInt n) => if in_range 0 255 n then Ok (as_u8 n) else Err "expected a byte value"
  | Some _ => Err "expected a byte value"
  end.

Definition bytes_ref (v : option value) : option (list Z) :=
  match v with Some (VBytes bs) => Some bs | _ => None end.

(** [if let Some(bytes) = bytes_mut(value) { ... }]. *)
Definition bytes_mut (v : option value) (f : list Z -> list Z) : option value :=
  match v with Some (VBytes bs) => Some (VBytes (f bs)) | _ => v end.

(** [let Ok(byte) = byte_value(byte) else { return }]. *)
Definition with_byte (byte : option value) (v : option value) (f : Z -> list Z -> list Z) : option value :=
  match byte_value byte with Ok b => bytes_mut v (f b) | Err _ => v end.

Definition byte_option (o : option Z) : value := VOptional (VInt <$> o).

Definition blen (bs : list Z) : Z := as_i64 (Z.of_nat (length bs)).

(** [if index < 0 { len + index } else { index }]. *)
Definition wrap_index (len index : Z) : Z := if index <? 0 then as_i64 (len + index) else index.

(** ** Construction and conversion *)

Definition mux_bytes_new : value := VBytes [].

Definition mux_bytes_from_data (data : option (list Z)) (length : Z) : value :=
  match data with
  | Some d => if length <=? 0 then VBytes [] else VBytes (take (Z.to_nat length) d)
  | None => VBytes []
  end.

Fixpoint octets (l : list value) : option (list Z) :=
  match l with
  | [] => Some []
  | VInt n :: r =>
      if in_range 0 255 n then match octets r with Some bs => Some (as_u8 n :: bs) | None => None end
      else None
  | _ => None
  end.

Definition mux_bytes_from_list (list : option value) : result value string :=
  match list with
  | Some (VList values) =>
      match octets values with
      | Some bs => Ok (VBytes bs)
      | None => Err "list contains a value outside byte range 0..255"
      end
  | _ => Err "expected a list of integer octets"
  end.

Definition mux_bytes_to_list (v : option value) : value :=
  match bytes_ref v with None => VList [] | Some bs => VList (VInt <$> bs) end.

Definition mux_bytes_length (v : option value) : Z := match bytes_ref v with None => 0 | Some bs => blen bs end.
Definition mux_bytes_is_empty (v : option value) : bool :=
  match bytes_ref v with None => true | Some bs => (length bs =? 0)%nat end.

(** ** Items *)

Definition mux_bytes_get (v : option value) (index : Z) : value :=
  match bytes_ref v with
  | None => VOptional None
  | Some bs =>
      let normalized := wrap_index (blen bs) index in
      byte_option (if in_range 0 (blen bs - 1) normalized then bs !! Z.to_nat normalized else None)
  end.

Definition mux_bytes_push_back (v byte : option value) : option value :=
  with_byte byte v (fun b bs => bs ++ [b]).
Definition mux_bytes_push_front (v byte : option value) : option value :=
  with_byte byte v (fun b bs => b :: bs).

Definition mux_bytes_pop_back (v : option value) : value * option value :=
  (byte_option (match bytes_ref v with Some bs => last bs | None => None end),
   bytes_mut v (fun bs => take (length bs - 1) bs)).
Definition mux_bytes_pop_front (v : option value) : value * option value :=
  (byte_option (match bytes_ref v with Some bs => head bs | None => None end),
   bytes_mut v (fun bs => tail bs)).

Definition mux_bytes_clear (v : option value) : option value := bytes_mut v (fun _ => []).
Definition mux_bytes_truncate (v : option value) (length : Z) : option value :=
  bytes_mut v (take (Z.to_nat (Z.max length 0))).

(** [Vec::resize]. *)
Definition resize (n : nat) (b : Z) (bs : list Z) : list Z := take n bs ++ replicate (n - length bs) b.

(** [reserved] tells whether [try_reserve] finds the memory to grow. *)
Definition mux_bytes_resize (reserved : bool) (v : option value) (length : Z) (fill : option value) : option value :=
  if length <? 0 then v
  else with_byte fill v (fun b bs =>
         if (Z.of_nat (List.length bs) <? length) && negb reserved then bs else resize (Z.to_nat length) b bs).

Definition mux_bytes_fill (v fill : option value) : option value :=
  with_byte fill v (fun b bs => replicate (length bs) b).

Definition mux_bytes_extend (v other : option value) : option value :=
  match bytes_ref other with Some o => bytes_mut v (fun bs => bs ++ o) | None => v end.

Definition mux_bytes_insert (v : option value) (index : Z) (byte : option value) : option value :=
  with_byte byte v (fun b bs =>
    let i := Z.to_nat (clamp 0 (blen bs) (wrap_index (blen bs) index)) in take i bs ++ b :: drop i bs).

Definition mux_bytes_remove (v : option value) (index : Z) : value * option value :=
  match bytes_ref v with
  | None => (VOptional None, v)
  | Some bs =>
      let i := wrap_index (blen bs) index in
      if (0 <=? i) && (i <? blen bs) then
        (byte_option (bs !! Z.to_nat i), Some (VBytes (take (Z.to_nat i) bs ++ drop (S (Z.to_nat i)) bs)))
      else (VOptional None, v)
  end.

(** [slice::copy_within]. *)
Definition copy_within (src count dst : nat) (bs : list Z) : list Z :=
  take dst bs ++ take count (drop src bs) ++ drop (dst + count) bs.

Definition mux_bytes_copy_within (v : option value) (destination source length : Z) : option value :=
  bytes_mut v (fun bs =>
    if length <=? 0 then bs
    else
      let len := blen bs in
      let source := clamp 0 len (wrap_index len source) in
      let destination := clamp 0 len (wrap_index len destination) in
      let count := Z.max (Z.min (Z.min length (len - source)) (len - destination)) 0 in
      if count =? 0 then bs
      else copy_within (Z.to_nat source) (Z.to_nat count) (Z.to_nat destination) bs).

(** [i64::MAX] stands for an omitted bound. *)
Definition mux_bytes_slice (v : option value) (start stop : Z) : value :=
  match bytes_ref v with
  | None => VBytes []
  | Some bs =>
      let len := blen bs in
      let normalize (index default : Z) :=
        clamp 0 len (wrap_index len (if index =? i64_max then default else index)) in
      let start := normalize start 0 in
      let stop := normalize stop len in
      VBytes (if start <=? stop then take (Z.to_nat (stop - start)) (drop (Z.to_nat start) bs) else [])
  end.

Definition mux_bytes_contains (v byte : option value) : bool :=
  match byte_value byte with
  | Ok b => match bytes_ref v with Some bs => existsb (Z.eqb b) bs | None => false end
  | Err _ => false
  end.

Fixpoint position (b : Z) (bs : list Z) : option Z :=
  match bs with
  | [] => None
  | x :: r => if x =? b then Some 0 else match position b r with Some i => Some (i + 1) | None => None end
  end.

Definition mux_bytes_find (v byte : option value) : value :=
  match byte_value byte with
  | Ok b => byte_option (match bytes_ref v with Some bs => position b bs | None => None end)
  | Err _ => VOptional None
  end.

(** ** Fixed-width integers *)

Definition checked_range (len : nat) (offset : Z) (width : nat) : result (nat * nat) string :=
  if offset <? 0 then Err "offset must not be negative"
  else
    let stop := offset + Z.of_nat width in
    if usize_max <? stop then Err "offset is too large"
    else if Z.of_nat len <? stop then Err "not enough bytes for requested value"
    else Ok (Z.to_nat offset, Z.to_nat stop).

Definition check_width (width : Z) : result nat string :=
  if width <? 0 then Err "width must be positive"
  else if in_range 1 8 width then Ok (Z.to_nat width)
  else Err "integer width must be between 1 and 8 bytes".

(** The shift of octet [p] of a [width]-octet integer. *)
Definition shift_of (little_endian : bool) (width p : nat) : Z :=
  Z.of_nat (if little_endian then p else width - p - 1) * 8.

(** [for (position, byte) in bytes.iter().enumerate() { value |= byte << shift }]. *)
Fixpoint decode_loop (le : bool) (width p : nat) (bs : list Z) (acc : Z) : Z :=
  match bs with
  | [] => acc
  | b :: r => decode_loop le width (S p) r (Z.lor acc (Z.shiftl b (shift_of le width p)))
  end.

Definition decode_uint (le : bool) (width : nat) (bs : list Z) : result Z string :=
  let v := decode_loop le width 0 bs 0 in
  if v <=? i64_max then Ok v else Err "decoded unsigned integer does not fit in int".

Definition encode_uint (le : bool) (width : nat) (v : Z) : list Z :=
  map (fun p => as_u8 (Z.shiftr v (shift_of le width p))) (seq 0 width).

Definition read_uint (bs : list Z) (offset width : Z) (le : bool) : result Z string :=
  let? w := check_width width in
  let? (start, stop) := checked_range (length bs) offset w in
  decode_uint le w (take (stop - start) (drop start bs)).

(** The value checks of [write_uint] and [cursor_write_uint]. *)
Definition check_uint (v width : Z) : result nat string :=
  if v <? 0 then Err "unsigned integer value must not be negative"
  else
    let? w := check_width width in
    if (width <? 8) && (2 ^ (8 * width) <=? v) then Err "integer value does not fit requested width"
    else Ok w.

(** Octets written over a range. *)
Definition splice (bs : list Z) (start : nat) (new : list Z) : list Z :=
  take start bs ++ new ++ drop (start + length new) bs.

Definition write_uint (bs : list Z) (offset v width : Z) (le : bool) : result (list Z) string :=
  let? w := check_uint v width in
  let? (start, _) := checked_range (length bs) offset w in
  Ok (splice bs start (encode_uint le w v)).

Definition mux_bytes_read_uint (v : option value) (offset width : Z) (le : bool) : result value string :=
  match bytes_ref v with
  | None => Err "expected bytes"
  | Some bs => let? n := read_uint bs offset width le in Ok (VInt n)
  end.

Definition mux_bytes_write_uint (v : option value) (offset number width : Z) (le : bool)
    : result value string * option value :=
  match bytes_ref v with
  | None => (Err "expected bytes", v)
  | Some bs =>
      match write_uint bs offset number width le with
      | Ok bs' => (Ok VUnit, Some (VBytes bs'))
      | Err m => (Err m, v)
      end
  end.

(** ** Floats, by their bits *)

Definition float_octets (le : bool) (bits : f64) : list Z :=
  let raw := encode_uint true 8 bits in if le then raw else rev raw.
Definition octets_float (le : bool) (raw : list Z) : f64 :=
  decode_loop true 8 0 (if le then raw else rev raw) 0.

Definition mux_bytes_read_float (v : option value) (offset : Z) (le : bool) : result value string :=
  match bytes_ref v with
  | None => Err "expected bytes"
  | Some bs =>
      match checked_range (length bs) offset 8 with
      | Err _ => Err "not enough bytes for an 8-byte float"
      | Ok (start, stop) => Ok (VFloat (octets_float le (take (stop - start) (drop start bs))))
      end
  end.

Definition mux_bytes_write_float (v : option value) (offset : Z) (number : option value) (le : bool)
    : result value string * option value :=
  match number with
  | Some (VFloat bits) =>
      match bytes_ref v with
      | None => (Err "expected bytes", v)
      | Some bs =>
          match checked_range (length bs) offset 8 with
          | Err _ => (Err "not enough bytes for an 8-byte float", v)
          | Ok (start, _) => (Ok VUnit, Some (VBytes (splice bs start (float_octets le bits))))
          end
      end
  | _ => (Err "expected float", v)
  end.

(** ** Variable-width integers *)

Fixpoint varint_loop (bs : list Z) (shift acc : Z) : result Z string :=
  match bs with
  | [] => Err "truncated varint"
  | byte :: r =>
      if 64 <=? shift then Err "varint is too large"
      else
        let payload := Z.land byte 127 in
        if (shift =? 63) && ((1 <? payload) || negb (Z.land byte 128 =? 0)) then Err "varint is too large"
        else
          let acc := Z.lor acc (as_u64 (Z.shiftl payload shift)) in
          if Z.land byte 128 =? 0 then
            if acc <=? i64_max then Ok acc else Err "decoded varint does not fit in int"
          else varint_loop r (shift + 7) acc
  end.

Definition read_varint (bs : list Z) (offset : Z) : result Z string :=
  if offset <? 0 then Err "offset must not be negative"
  else if Z.of_nat (length bs) <=? offset then Err "offset is outside the byte sequence"
  else varint_loop (drop (Z.to_nat offset) bs) 0 0.

(** The encoding loop; a [u64] takes at most ten rounds ([varint_enough]). *)
Fixpoint encode_varint (fuel : nat) (number : Z) : list Z :=
  match fuel with
  | O => []
  | S fuel =>
      let byte := Z.land number 127 in
      let number := Z.shiftr number 7 in
      if number =? 0 then [byte] else Z.lor byte 128 :: encode_varint fuel number
  end.

Definition varint_fuel : nat := 10.

Definition write_varint (bs : list Z) (offset number : Z) : result (list Z * Z) string :=
  if offset <? 0 then Err "offset must not be negative"
  else
    let encoded := encode_varint varint_fuel number in
    let stop := offset + Z.of_nat (length encoded) in
    if usize_max <? stop then Err "offset is too large"
    else if Z.of_nat (length bs) <? stop then Err "not enough space for encoded varint"
    else Ok (splice bs (Z.to_nat offset) encoded, Z.of_nat (length encoded)).

Definition mux_bytes_read_varint (v : option value) (offset : Z) : result value string :=
  match bytes_ref v with
  | None => Err "expected bytes"
  | Some bs => let? n := read_varint bs offset in Ok (VInt n)
  end.

Definition mux_bytes_write_varint (v : option value) (offset number : Z)
    : result value string * option value :=
  if number <? 0 then (Err "varint value must not be negative", v)
  else
    match bytes_ref v with
    | None => (Err "expected bytes", v)
    | Some bs =>
        match write_varint bs offset number with
        | Ok (bs', n) => (Ok (VInt n), Some (VBytes bs'))
        | Err m => (Err m, v)
        end
    end.

(** ** Formatting *)

(** [n] in base [radix], most significant digit first, at least [width] digits. *)
Fixpoint digits (radix : Z) (width : nat) (n : Z) : list Z :=
  match width with
  | O => []
  | S w => digits radix w (n / radix) ++ [n mod radix]
  end.

Definition digit_char (d : Z) : Ascii.ascii :=
  Ascii.ascii_of_nat (if d <? 10 then Z.to_nat (48 + d) else Z.to_nat (87 + d)).

Definition format_params (radix : Z) : option Z :=
  if radix =? 2 then Some 8 else if radix =? 8 then Some 3
  else if radix =? 10 then Some 3 else if radix =? 16 then Some 2 else None.

Definition string_of (l : list Ascii.ascii) : string := String.string_of_list_ascii l.

(** An octet has no more digits than the smallest width allowed, so zero padding
    to [width] is all the formatter adds. *)
Definition format_bytes (bs : list Z) (radix width : Z) : result (list Ascii.ascii) string :=
  match format_params radix with
  | None => Err "radix must be one of 2, 8, 10, or 16"
  | Some minimum_width =>
      let width := if width =? 0 then minimum_width else width in
      if width <? minimum_width then
        Err ("width must be at least " +:+ pretty minimum_width +:+ " for radix " +:+ pretty radix)
      else if 64 <? width then Err "width must not exceed 64 characters"
      else if usize_max <? Z.of_nat (length bs) * width then Err "formatted output is too large"
      else Ok (flat_map (fun b => digit_char <$> digits radix (Z.to_nat width) b) bs)
  end.

Definition mux_bytes_format (v : option value) (radix width : Z) : result value string :=
  match bytes_ref v with
  | None => Err "expected bytes"
  | Some bs => let? text := format_bytes bs radix width in Ok (VString (string_of text))
  end.

(** ** Cursors *)

Record CursorEntry : Type := mk_cursor { cur_bytes : list Z; cur_position : Z; cur_names : Z }.

(** [CURSORS] and [NEXT_CURSOR]. *)
Record Cursors : Type := mk_cursors { cursors : gmap Z CursorEntry; next_id : Z }.

Definition next_cursor (c : Cursors) : Z * Cursors :=
  let id := next_id c in
  (id, mk_cursors (cursors c) (if id =? i64_max then 1 else id + 1)).

Definition set_entry (id : Z) (e : CursorEntry) (c : Cursors) : Cursors :=
  mk_cursors (<[id := e]> (cursors c)) (next_id c).

(** [drop_cursor]: one name fewer, removed with the last. *)
Definition release_cursor (id : Z) (c : Cursors) : Cursors :=
  match cursors c !! id with
  | None => c
  | Some e =>
      let names := Z.max (cur_names e - 1) 0 in
      if names =? 0 then mk_cursors (delete id (cursors c)) (next_id c)
      else set_entry id (mk_cursor (cur_bytes e) (cur_position e) names) c
  end.

(** [copy_cursor]: the copy names the same entry; the id it stores is 0 when the
    entry is gone. *)
Definition copy_cursor (id : Z) (c : Cursors) : Z * Cursors :=
  match cursors c !! id with
  | None => (0, c)
  | Some e => (id, set_entry id (mk_cursor (cur_bytes e) (cur_position e) (cur_names e + 1)) c)
  end.

Definition cursor_range (e : CursorEntry) (width : Z) : result (Z * Z) string :=
  let stop := cur_position e + width in
  if usize_max <? stop then Err "cursor position is too large"
  else if Z.of_nat (length (cur_bytes e)) <? stop then Err "not enough bytes remaining"
  else Ok (cur_position e, stop).

Definition read_range (e : CursorEntry) (start stop : Z) : list Z :=
  take (Z.to_nat (stop - start)) (drop (Z.to_nat start) (cur_bytes e)).

Definition move_to (e : CursorEntry) (p : Z) : CursorEntry := mk_cursor (cur_bytes e) p (cur_names e).

Definition cursor_read_uint (e : CursorEntry) (width : Z) (le : bool) : result (Z * CursorEntry) string :=
  let? w := check_width width in
  let? (start, stop) := cursor_range e (Z.of_nat w) in
  let? v := decode_uint le w (read_range e start stop) in
  Ok (v, move_to e stop).

(** Write octets at the position, growing the buffer with zeros, and advance. *)
Definition cursor_put (e : CursorEntry) (new : list Z) : result CursorEntry string :=
  let stop := cur_position e + Z.of_nat (length new) in
  if usize_max <? stop then Err "cursor position is too large"
  else
    let bs := if Z.of_nat (length (cur_bytes e)) <? stop then resize (Z.to_nat stop) 0 (cur_bytes e)
              else cur_bytes e in
    Ok (mk_cursor (splice bs (Z.to_nat (cur_position e)) new) stop (cur_names e)).

Definition cursor_write_uint (e : CursorEntry) (number width : Z) (le : bool) : result CursorEntry string :=
  let? w := check_uint number width in cursor_put e (encode_uint le w number).

Definition cursor_read_bytes (e : CursorEntry) (length : Z) : result (list Z * CursorEntry) string :=
  if length <? 0 then Err "length must not be negative"
  else
    let? (start, stop) := cursor_range e length in
    Ok (read_range e start stop, move_to e stop).

Definition cursor_read_float (e : CursorEntry) (le : bool) : result (f64 * CursorEntry) string :=
  let? (start, stop) := cursor_range e 8 in
  Ok (octets_float le (read_range e start stop), move_to e stop).

Definition cursor_write_float (e : CursorEntry) (bits : f64) (le : bool) : result CursorEntry string :=
  cursor_put e (float_octets le bits).

(** The operations on the table, by cursor id; [None] for an id without entry. *)
Definition cursor_entry (id : Z) (c : Cursors) : result CursorEntry string :=
  match cursors c !! id with Some e => Ok e | None => Err "invalid bytes cursor" end.

(** [mux_bytes_cursor_new], once the object holding the id is allocated. *)
Definition cursor_new (v : option value) (c : Cursors) : result Z string * Cursors :=
  match bytes_ref v with
  | None => (Err "expected bytes", c)
  | Some bs => let '(id, c1) := next_cursor c in (Ok id, set_entry id (mk_cursor bs 0 1) c1)
  end.

Definition mux_bytes_cursor_position (id : Z) (c : Cursors) : result value string :=
  let? e := cursor_entry id c in Ok (VInt (as_i64 (cur_position e))).

Definition mux_bytes_cursor_remaining (id : Z) (c : Cursors) : result value string :=
  let? e := cursor_entry id c in
  Ok (VInt (as_i64 (as_u64 (Z.of_nat (length (cur_bytes e)) - cur_position e)))).

(** Run an entry operation that returns a value, and store the entry it leaves. *)
Definition update_cursor {A} (wrap : A -> value) (id : Z) (c : Cursors)
    (f : CursorEntry -> result (A * CursorEntry) string) : result value string * Cursors :=
  match cursor_entry id c with
  | Err m => (Err m, c)
  | Ok e => match f e with Ok (a, e') => (Ok (wrap a), set_entry id e' c) | Err m => (Err m, c) end
  end.

Definition unit_result (r : result CursorEntry string) : result (unit * CursorEntry) string :=
  let? e := r in Ok (tt, e).

Definition mux_bytes_cursor_read_bytes (id length : Z) (c : Cursors) : result value string * Cursors :=
  if length <? 0 then (Err "length must not be negative", c)
  else update_cursor VBytes id c (fun e => cursor_read_bytes e length).
Definition mux_bytes_cursor_read_uint (id width : Z) (le : bool) (c : Cursors) : result value string * Cursors :=
  update_cursor VInt id c (fun e => cursor_read_uint e width le).
Definition mux_bytes_cursor_write_uint (id number width : Z) (le : bool) (c : Cursors)
    : result value string * Cursors :=
  update_cursor (fun _ => VUnit) id c (fun e => unit_result (cursor_write_uint e number width le)).
Definition mux_bytes_cursor_read_float (id : Z) (le : bool) (c : Cursors) : result value string * Cursors :=
  update_cursor VFloat id c (fun e => cursor_read_float e le).
Definition mux_bytes_cursor_write_float (id : Z) (number : option value) (le : bool) (c : Cursors)
    : result value string * Cursors :=
  match number with
  | Some (VFloat bits) => update_cursor (fun _ => VUnit) id c (fun e => unit_result (cursor_write_float e bits le))
  | _ => (Err "expected float", c)
  end.

(** The whole buffer, read or not. *)
Definition mux_bytes_cursor_into_bytes (id : Z) (c : Cursors) : result value string :=
  let? e := cursor_entry id c in Ok (VBytes (cur_bytes e)).
