(* ===== verification/BytesProps.v ===== *)
(** * Properties of the byte scalar and byte sequences

    Round trips of the fixed-width, float and variable-width encodings and of the
    text formats, exactness of the scalar operations, and the cursor invariant. *)

From S2P Require Import Prelude Value Bytes.

(** ** Bits of octets *)

Lemma as_u8_testbit v j : 0 <= j -> Z.testbit (as_u8 v) j = (j <? 8) && Z.testbit v j.
Proof.
  intros Hj. unfold as_u8. destruct (j <? 8) eqn:E; bool_to_prop; simpl.
  - by apply Z.mod_pow2_bits_low.
  - apply Z.mod_pow2_bits_high. lia.
Qed.

Lemma u8_testbit_true b j : is_u8 b -> Z.testbit b j = true -> 0 <= j < 8.
Proof.
  intros Hb Ht. destruct (decide (0 <= j)) as [Hj|Hj].
  - rewrite <- (as_u8_small b Hb), as_u8_testbit in Ht by done.
    apply andb_true_iff in Ht as [?%Z.ltb_lt _]. lia.
  - by rewrite Z.testbit_neg_r in Ht by lia.
Qed.

Lemma bits_bound v n : 0 <= v -> 0 <= n -> (forall k, n <= k -> Z.testbit v k = false) -> v < 2 ^ n.
Proof.
  intros Hv Hn Hk. assert (v = v mod 2 ^ n) as ->; [|apply Z.mod_pos_bound; lia].
  apply Z.bits_inj'. intros k Hk0. destruct (decide (k < n)).
  - by rewrite Z.mod_pow2_bits_low by lia.
  - rewrite Z.mod_pow2_bits_high by lia. apply Hk. lia.
Qed.

Lemma testbit_small v n k : 0 <= v < 2 ^ n -> 0 <= n -> Z.testbit v k = true -> 0 <= k < n.
Proof.
  intros Hv Hn Ht. destruct (decide (0 <= k)); [|by rewrite Z.testbit_neg_r in Ht by lia].
  split; [done|]. destruct (decide (k < n)); [done|].
  rewrite <- (Z.mod_small v (2 ^ n)) in Ht by done. by rewrite Z.mod_pow2_bits_high in Ht by lia.
Qed.

(** ** Fixed-width integers *)

Lemma shift_of_spec le w p : (p < w)%nat ->
  shift_of le w p = 8 * Z.of_nat (if le then p else w - p - 1) /\ 0 <= shift_of le w p < 8 * Z.of_nat w.
Proof. intros Hp. unfold shift_of. destruct le; lia. Qed.

Lemma shift_of_inj le w p q : (p < w)%nat -> (q < w)%nat ->
  -8 < shift_of le w p - shift_of le w q < 8 -> p = q.
Proof. intros Hp Hq. unfold shift_of. destruct le; lia. Qed.

Lemma decode_loop_testbit le w bs : forall p acc k, 0 <= k -> (p + length bs <= w)%nat ->
  Z.testbit (decode_loop le w p bs acc) k = true <->
  Z.testbit acc k = true \/
  exists i b, bs !! i = Some b /\ Z.testbit b (k - shift_of le w (p + i)) = true.
Proof.
  induction bs as [|b r IH]; intros p acc k Hk Hp; simpl in *.
  - split; [by left|]. intros [?|(i & b & Hi & _)]; [done|]. by destruct i.
  - rewrite IH by lia. rewrite Z.lor_spec, Z.shiftl_spec, orb_true_iff by done. split.
    + intros [[?|?]|(i & b' & Hi & Ht)]; [by left| |].
      * right. exists 0%nat, b. split; [done|]. by rewrite Nat.add_0_r.
      * right. exists (S i), b'. split; [done|]. by replace (p + S i)%nat with (S p + i)%nat by lia.
    + intros [?|([|i] & b' & Hi & Ht)]; [by left; left| |].
      * injection Hi as ->. rewrite Nat.add_0_r in Ht. by left; right.
      * right. exists i, b'. split; [done|]. by replace (S p + i)%nat with (p + S i)%nat by lia.
Qed.

Lemma decode_loop_nonneg le w bs : forall p acc, 0 <= acc -> Forall is_u8 bs -> 0 <= decode_loop le w p bs acc.
Proof.
  induction bs as [|b r IH]; intros p acc Ha Hb; simpl; [done|]. inversion Hb as [|? ? [? ?] ?]; subst.
  apply IH; [|done]. apply Z.lor_nonneg. split; [done|]. by apply Z.shiftl_nonneg.
Qed.

Lemma encode_uint_length le w v : length (encode_uint le w v) = w.
Proof. unfold encode_uint. by rewrite length_map, length_seq. Qed.

Lemma encode_uint_lookup le w v i b :
  encode_uint le w v !! i = Some b <-> (i < w)%nat /\ b = as_u8 (Z.shiftr v (shift_of le w i)).
Proof.
  unfold encode_uint. rewrite list_lookup_fmap. destruct (decide (i < w)%nat) as [Hi|Hi].
  - rewrite lookup_seq_lt by done. simpl. split; [intros [= <-]; done|intros [_ ->]; done].
  - rewrite lookup_seq_ge by lia. simpl. split; [done|lia].
Qed.

Lemma encode_uint_u8 le w v : Forall is_u8 (encode_uint le w v).
Proof. apply Forall_forall. intros b (i & [_ ->]%encode_uint_lookup)%list_elem_of_lookup. auto with mux. Qed.

Lemma decode_encode le w v : 0 <= v < 2 ^ (8 * Z.of_nat w) -> decode_loop le w 0 (encode_uint le w v) 0 = v.
Proof.
  intros Hv. apply Z.bits_inj'. intros k Hk. apply eq_true_iff_eq.
  rewrite decode_loop_testbit by (rewrite ?encode_uint_length; lia). rewrite Z.bits_0. split.
  - intros [?|(i & b & [Hi ->]%encode_uint_lookup & Ht)]; [done|]. simpl in Ht.
    destruct (shift_of_spec le w i Hi) as [_ Hs].
    destruct (decide (0 <= k - shift_of le w i)); [|by rewrite Z.testbit_neg_r in Ht by lia].
    rewrite as_u8_testbit in Ht by done. apply andb_true_iff in Ht as [_ Ht].
    rewrite Z.shiftr_spec in Ht by done. by replace (k - shift_of le w i + shift_of le w i) with k in Ht by lia.
  - intros Ht. right. pose proof (testbit_small v _ k Hv ltac:(lia) Ht) as Hkw.
    set (q := Z.to_nat (k / 8)). set (i := (if le then q else w - q - 1)%nat).
    assert (Hq : (q < w)%nat) by (unfold q; pose proof (Z.div_lt_upper_bound k 8 (Z.of_nat w)); lia).
    assert (Hi : (i < w)%nat) by (unfold i; destruct le; lia).
    assert (Hs : shift_of le w i = 8 * (k / 8)).
    { unfold shift_of, i, q. pose proof (Z.div_pos k 8). destruct le; lia. }
    pose proof (Z.div_mod k 8). pose proof (Z.mod_pos_bound k 8).
    exists i, (as_u8 (Z.shiftr v (shift_of le w i))). split; [by apply encode_uint_lookup|].
    simpl. rewrite Hs, as_u8_testbit by lia. apply andb_true_iff. split; [apply Z.ltb_lt; lia|].
    rewrite Z.shiftr_spec by lia. by replace (k - 8 * (k / 8) + 8 * (k / 8)) with k by lia.
Qed.

Lemma encode_decode le w bs : length bs = w -> Forall is_u8 bs ->
  encode_uint le w (decode_loop le w 0 bs 0) = bs.
Proof.
  intros Hl Hb. apply list_eq. intros i. destruct (bs !! i) as [b|] eqn:Eb.
  2: { apply lookup_ge_None in Eb. apply lookup_ge_None. rewrite encode_uint_length. lia. }
  apply lookup_lt_Some in Eb as Hi. apply encode_uint_lookup. split; [lia|].
  assert (is_u8 b) as Hu by (eapply Forall_lookup_1; eauto).
  destruct (shift_of_spec le w i ltac:(lia)) as [_ Hs].
  apply Z.bits_inj'. intros j Hj. apply eq_true_iff_eq.
  rewrite as_u8_testbit, andb_true_iff, Z.ltb_lt, Z.shiftr_spec by done.
  rewrite decode_loop_testbit by lia. rewrite Z.bits_0. simpl. split.
  - intros Ht. pose proof (u8_testbit_true b j Hu Ht). split; [lia|]. right. exists i, b. split; [done|].
    by replace (j + shift_of le w i - shift_of le w i) with j by lia.
  - intros [Hj8 [?|(i' & b' & Hi' & Ht)]]; [done|]. apply lookup_lt_Some in Hi' as Hlt.
    assert (is_u8 b') as Hu' by (eapply Forall_lookup_1; eauto).
    pose proof (u8_testbit_true _ _ Hu' Ht).
    assert (i = i') as <- by (apply (shift_of_inj le w); lia).
    rewrite Eb in Hi'. injection Hi' as <-.
    by replace (j + shift_of le w i - shift_of le w i) with j in Ht by lia.
Qed.

Lemma decode_loop_bound le w bs : length bs = w -> Forall is_u8 bs ->
  0 <= decode_loop le w 0 bs 0 < 2 ^ (8 * Z.of_nat w).
Proof.
  intros Hl Hb. pose proof (decode_loop_nonneg le w bs 0 0 ltac:(lia) Hb). split; [done|].
  apply bits_bound; [done|lia|]. intros k Hk.
  destruct (Z.testbit (decode_loop le w 0 bs 0) k) eqn:Et; [|done].
  apply decode_loop_testbit in Et as [Et|(i & b & Hi & Ht)]; [|..|lia|lia].
  - by rewrite Z.bits_0 in Et.
  - apply lookup_lt_Some in Hi as Hlt. simpl in Ht. destruct (shift_of_spec le w i ltac:(lia)) as [Hs1 Hs2].
    assert (is_u8 b) as Hu by (eapply Forall_lookup_1; eauto).
    pose proof (u8_testbit_true _ _ Hu Ht). destruct le; lia.
Qed.

(** ** Ranges *)

Lemma splice_length bs start new : (start + length new <= length bs)%nat -> length (splice bs start new) = length bs.
Proof. intros Hl. unfold splice. rewrite !length_app, length_take, length_drop. lia. Qed.

Lemma splice_read bs start new : (start + length new <= length bs)%nat ->
  take (length new) (drop start (splice bs start new)) = new.
Proof.
  intros Hl. unfold splice. rewrite drop_app_length' by (rewrite length_take; lia).
  by rewrite take_app_length.
Qed.

Lemma splice_other bs start new j : (start + length new <= length bs)%nat ->
  (j < start)%nat \/ (start + length new <= j)%nat -> splice bs start new !! j = bs !! j.
Proof.
  intros Hl Hj. unfold splice. destruct Hj as [Hj|Hj].
  - rewrite lookup_app_l by (rewrite length_take; lia). by apply lookup_take_lt.
  - rewrite lookup_app_r by (rewrite length_take; lia). rewrite length_take, Nat.min_l by lia.
    rewrite lookup_app_r by lia. rewrite lookup_drop. f_equal. lia.
Qed.

Lemma splice_same bs start n : (start + n <= length bs)%nat -> splice bs start (take n (drop start bs)) = bs.
Proof.
  intros Hl. unfold splice. rewrite length_take, length_drop, Nat.min_l by lia.
  rewrite <- (drop_drop bs). rewrite take_drop. apply take_drop.
Qed.

Lemma checked_range_ok len offset w start stop :
  checked_range len offset w = Ok (start, stop) ->
  0 <= offset /\ Z.of_nat start = offset /\ (stop = start + w)%nat /\ (stop <= len)%nat.
Proof.
  unfold checked_range. destruct (offset <? 0) eqn:E1; bool_to_prop; [done|].
  destruct (usize_max <? offset + Z.of_nat w) eqn:E2; [done|].
  destruct (Z.of_nat len <? offset + Z.of_nat w) eqn:E3; bool_to_prop; [done|].
  intros [= <- <-]. lia.
Qed.

Lemma check_width_ok width w : check_width width = Ok w -> Z.of_nat w = width /\ 1 <= width <= 8.
Proof.
  unfold check_width. destruct (width <? 0) eqn:E1; [done|].
  destruct (in_range 1 8 width) eqn:E2; [|done]. apply in_range_true in E2. intros [= <-]. lia.
Qed.

Lemma check_uint_ok v width w : is_i64 v -> check_uint v width = Ok w ->
  check_width width = Ok w /\ 0 <= v < 2 ^ (8 * Z.of_nat w).
Proof.
  intros Hv. unfold check_uint. destruct (v <? 0) eqn:E1; bool_to_prop; [done|].
  destruct (check_width width) as [w'|] eqn:Ew; simpl; [|done]. destruct (check_width_ok _ _ Ew) as [Hw Hr].
  destruct (width <? 8) eqn:E2; bool_to_prop; simpl.
  - destruct (_ <=? v) eqn:E3; bool_to_prop; [done|]. intros [= <-]. by rewrite Hw.
  - intros [= <-]. split; [done|]. assert (8 * Z.of_nat w' = 64) as -> by lia. width.
Qed.

(** ** Variable-width integers *)

(** A property of all octets below [n], checked one by one. *)
Lemma range_check (P : Z -> bool) (n : nat) :
  forallb P (map Z.of_nat (seq 0 n)) = true -> forall z, 0 <= z < Z.of_nat n -> P z = true.
Proof.
  intros Hf z Hz. rewrite forallb_forall in Hf. apply Hf, in_map_iff. exists (Z.to_nat z).
  split; [lia|]. apply in_seq. lia.
Qed.

Definition septet_ok (b : Z) : bool :=
  (Z.land b 127 =? b) && (Z.land b 128 =? 0) && (Z.land (Z.lor b 128) 127 =? b) &&
  negb (Z.land (Z.lor b 128) 128 =? 0) && (0 <=? Z.lor b 128) && (Z.lor b 128 <? 256).

Lemma septet b : 0 <= b < 128 ->
  Z.land b 127 = b /\ Z.land b 128 = 0 /\ Z.land (Z.lor b 128) 127 = b /\
  (Z.land (Z.lor b 128) 128 =? 0) = false /\ is_u8 (Z.lor b 128).
Proof.
  intros Hb. assert (septet_ok b = true) as E.
  { apply (range_check septet_ok 128); [vm_compute; reflexivity|done]. }
  unfold septet_ok in E. bool_to_prop. split_and!; try done. apply Z.eqb_neq. done.
Qed.

Lemma lor_disjoint acc n s : 0 <= acc < 2 ^ s -> 0 <= s -> Z.lor acc (Z.shiftl n s) = acc + n * 2 ^ s.
Proof.
  intros Ha Hs. rewrite <- Z.shiftl_mul_pow2 by done.
  assert (Z.land acc (Z.shiftl n s) = 0) as Hl.
  { apply Z.bits_inj'. intros k Hk. rewrite Z.land_spec, Z.bits_0, Z.shiftl_spec by done.
    destruct (Z.testbit acc k) eqn:E; [|done]. pose proof (testbit_small acc s k Ha Hs E).
    rewrite Z.testbit_neg_r by lia. done. }
  pose proof (Z.add_lor_land acc (Z.shiftl n s)). lia.
Qed.

Lemma land_127 n : Z.land n 127 = n mod 128.
Proof. change 127 with (Z.ones 7). by rewrite Z.land_ones. Qed.

Lemma varint_loop_encode fuel : forall n shift acc rest,
  0 <= n < 2 ^ (7 * Z.of_nat fuel) -> 0 <= shift < 63 -> 0 <= acc < 2 ^ shift ->
  acc + n * 2 ^ shift < 2 ^ 63 -> (1 <= fuel)%nat ->
  varint_loop (encode_varint fuel n ++ rest) shift acc = Ok (acc + n * 2 ^ shift).
Proof.
  induction fuel as [|fuel IH]; intros n shift acc rest Hn Hs Ha Hb Hf; [lia|].
  cbn [encode_varint]. set (b := Z.land n 127).
  assert (Hbm : b = n mod 128) by apply land_127. clearbody b.
  assert (Hbr : 0 <= b < 128) by (rewrite Hbm; apply Z.mod_pos_bound; lia).
  destruct (septet b Hbr) as (S1 & S2 & S3 & S4 & S5).
  assert (Hd : Z.shiftr n 7 = n / 128) by (rewrite Z.shiftr_div_pow2 by lia; done).
  pose proof (Z.div_mod n 128 ltac:(lia)) as Hdm.
  assert (H2 : 0 < 2 ^ shift) by lia.
  assert (Hacc : Z.lor acc (as_u64 (Z.shiftl b shift)) = acc + b * 2 ^ shift).
  { rewrite as_u64_small, lor_disjoint; try done; try lia.
    rewrite Z.shiftl_mul_pow2 by lia. pose proof (Z.div_pos n 128 ltac:(lia) ltac:(lia)).
    assert (0 <= b * 2 ^ shift <= n * 2 ^ shift) by nia. width. }
  destruct (Z.shiftr n 7 =? 0) eqn:E0; bool_to_prop.
  - assert (n = b) as -> by lia. cbn [app varint_loop]. rewrite S1, S2.
    rewrite (proj2 (Z.leb_gt 64 shift)), (proj2 (Z.eqb_neq shift 63)) by lia. cbn.
    rewrite Hacc, (proj2 (Z.leb_le _ i64_max)) by width. done.
  - apply Z.eqb_neq in S4. cbn [app varint_loop]. rewrite S3, S4.
    rewrite (proj2 (Z.leb_gt 64 shift)), (proj2 (Z.eqb_neq shift 63)) by lia. cbn [andb orb negb].
    rewrite Hacc.
    assert (Hq : 1 <= n / 128) by (rewrite Hd in E0; pose proof (Z.div_pos n 128); lia).
    assert (Hp : 2 ^ (shift + 7) = 2 ^ shift * 128) by (by rewrite Z.pow_add_r by lia).
    assert (Hs7 : shift + 7 < 63).
    { apply (Z.pow_lt_mono_r_iff 2); [lia|lia|]. rewrite Hp. nia. }
    rewrite Hd, IH; [| |lia|split; [nia|rewrite Hp; nia]|rewrite Hp; nia|].
    + f_equal. rewrite Hp. nia.
    + split; [lia|]. apply Z.div_lt_upper_bound; [lia|].
      replace (7 * Z.of_nat (S fuel)) with (7 + 7 * Z.of_nat fuel) in Hn by lia.
      rewrite Z.pow_add_r in Hn by lia. change (2 ^ 7) with 128 in Hn. lia.
    + destruct fuel; [|lia]. change (2 ^ (7 * Z.of_nat 1)) with 128 in Hn. lia.
Qed.

Lemma encode_varint_length k : forall fuel n, (k <= fuel)%nat -> (1 <= k)%nat ->
  0 <= n < 2 ^ (7 * Z.of_nat k) -> (1 <= length (encode_varint fuel n) <= k)%nat.
Proof.
  induction k as [|k IH]; intros fuel n Hk H1 Hn; [lia|]. destruct fuel as [|fuel]; [lia|].
  cbn [encode_varint]. destruct (Z.shiftr n 7 =? 0) eqn:E; bool_to_prop; [simpl; lia|].
  rewrite Z.shiftr_div_pow2 in * by lia. change (2 ^ 7) with 128 in *.
  pose proof (Z.div_pos n 128 ltac:(lia) ltac:(lia)). destruct k as [|k].
  - change (2 ^ (7 * Z.of_nat 1)) with 128 in Hn. rewrite Z.div_small in E by lia. lia.
  - cbn [length]. specialize (IH fuel (n / 128) ltac:(lia) ltac:(lia)).
    assert (0 <= n / 128 < 2 ^ (7 * Z.of_nat (S k))) as Hd.
    { split; [lia|]. apply Z.div_lt_upper_bound; [lia|].
      replace (7 * Z.of_nat (S (S k))) with (7 + 7 * Z.of_nat (S k)) in Hn by lia.
      rewrite Z.pow_add_r in Hn by lia. change (2 ^ 7) with 128 in Hn. lia. }
    specialize (IH Hd). lia.
Qed.

Lemma varint_loop_range bs : forall shift acc v, 0 <= acc -> varint_loop bs shift acc = Ok v -> 0 <= v <= i64_max.
Proof.
  induction bs as [|b r IH]; intros shift acc v Ha; simpl; [done|].
  destruct (64 <=? shift); [done|]. destruct (_ && _); [done|].
  set (acc' := Z.lor acc _).
  assert (0 <= acc') as Hacc.
  { apply Z.lor_nonneg. split; [done|]. unfold as_u64. apply Z.mod_pos_bound. lia. }
  destruct (Z.land b 128 =? 0); [|by apply IH].
  destruct (acc' <=? i64_max) eqn:E; bool_to_prop; [|done]. intros [= <-]. lia.
Qed.

(** ** Formatting *)

Definition undigits (radix : Z) (ds : list Z) : Z := foldl (fun acc d => acc * radix + d) 0 ds.

Lemma digits_length radix w n : length (digits radix w n) = w.
Proof. revert n. induction w as [|w IH]; intros n; simpl; [done|]. rewrite length_app, IH. simpl. lia. Qed.

Lemma digits_range radix w n : 0 < radix -> Forall (fun d => 0 <= d < radix) (digits radix w n).
Proof.
  intros Hr. revert n. induction w as [|w IH]; intros n; simpl; [done|]. rewrite Forall_app. split; [done|].
  rewrite Forall_singleton. by apply Z.mod_pos_bound.
Qed.

Lemma undigits_digits radix w n : 1 < radix -> 0 <= n < radix ^ Z.of_nat w -> undigits radix (digits radix w n) = n.
Proof.
  intros Hr. revert n. induction w as [|w IH]; intros n Hn.
  - simpl in *. unfold undigits. simpl. lia.
  - simpl. unfold undigits in *. rewrite foldl_app. simpl. rewrite IH.
    + pose proof (Z.div_mod n radix). lia.
    + rewrite Nat2Z.inj_succ, Z.pow_succ_r in Hn by lia.
      split; [apply Z.div_pos; lia|]. apply Z.div_lt_upper_bound; lia.
Qed.

(** The digit a character stands for. *)
Definition char_digit (c : Ascii.ascii) : Z :=
  let n := Z.of_nat (Ascii.nat_of_ascii c) in if n <? 58 then n - 48 else n - 87.

Lemma char_digit_char d : 0 <= d < 16 -> char_digit (digit_char d) = d.
Proof.
  intros Hd. apply Z.eqb_eq. revert d Hd.
  apply (range_check (fun d => char_digit (digit_char d) =? d) 16). vm_compute. reflexivity.
Qed.

(** Read [n] octets back from a text of [width] characters each. *)
Fixpoint parse_octets (radix : Z) (width n : nat) (text : list Ascii.ascii) : list Z :=
  match n with
  | O => []
  | S n => undigits radix (char_digit <$> take width text) :: parse_octets radix width n (drop width text)
  end.

Lemma char_digit_chars ds : Forall (fun d => 0 <= d < 16) ds -> char_digit <$> (digit_char <$> ds) = ds.
Proof.
  induction 1 as [|d ds Hd _ IH]; simpl; [done|]. f_equal; [by apply char_digit_char|exact IH].
Qed.

Lemma parse_octets_format radix w bs :
  1 < radix <= 16 -> 256 <= radix ^ Z.of_nat w -> Forall is_u8 bs ->
  let text := flat_map (fun b => digit_char <$> digits radix w b) bs in
  length text = (length bs * w)%nat /\ parse_octets radix w (length bs) text = bs.
Proof.
  intros Hr Hw. induction 1 as [|b bs Hb Hbs [IH1 IH2]]; [done|]. unfold is_u8 in Hb. simpl.
  assert (Hl : length (digit_char <$> digits radix w b) = w) by (rewrite length_fmap; apply digits_length).
  split; [rewrite length_app, Hl; simpl in *; lia|].
  rewrite take_app_length', drop_app_length' by done. f_equal; [|done].
  rewrite char_digit_chars; [by apply undigits_digits; lia|].
  eapply Forall_impl; [apply digits_range; lia|]. simpl. lia.
Qed.

(** ** Cursors *)

(** The position stays within the buffer. *)
Definition cursor_ok (e : CursorEntry) : Prop :=
  0 <= cur_position e <= Z.of_nat (length (cur_bytes e)) /\
  Z.of_nat (length (cur_bytes e)) <= i64_max /\ Forall is_u8 (cur_bytes e).

Lemma resize_app n b bs : (length bs <= n)%nat -> resize n b bs = bs ++ replicate (n - length bs) b.
Proof. intros Hn. unfold resize. by rewrite take_ge. Qed.

Lemma resize_length n b bs : length (resize n b bs) = n.
Proof. unfold resize. rewrite length_app, length_take, length_replicate. lia. Qed.

Lemma splice_u8 bs start new : Forall is_u8 bs -> Forall is_u8 new -> Forall is_u8 (splice bs start new).
Proof.
  intros Hb Hn. unfold splice. rewrite !Forall_app. split_and!; [by apply Forall_take|done|by apply Forall_drop].
Qed.

Lemma cursor_range_ok e w start stop : cursor_range e w = Ok (start, stop) ->
  start = cur_position e /\ stop = cur_position e + w /\ stop <= Z.of_nat (length (cur_bytes e)).
Proof.
  unfold cursor_range. destruct (usize_max <? cur_position e + w) eqn:E1; [done|].
  destruct (Z.of_nat (length (cur_bytes e)) <? cur_position e + w) eqn:E2; bool_to_prop; [done|].
  by intros [= <- <-].
Qed.

Lemma move_to_ok e p : cursor_ok e -> cur_position e <= p <= Z.of_nat (length (cur_bytes e)) -> cursor_ok (move_to e p).
Proof. intros (H1 & H2 & H3) Hp. unfold cursor_ok, move_to. simpl. split_and!; try done; lia. Qed.

Lemma cursor_put_spec e new e' : cursor_ok e -> Forall is_u8 new ->
  cur_position e + Z.of_nat (length new) <= i64_max -> cursor_put e new = Ok e' ->
  cursor_ok e' /\ cur_position e' = cur_position e + Z.of_nat (length new) /\
  read_range e' (cur_position e) (cur_position e') = new /\
  (cur_position e = Z.of_nat (length (cur_bytes e)) -> cur_bytes e' = cur_bytes e ++ new).
Proof.
  intros (Hp & Hm & Hu) Hn Hb. unfold cursor_put. set (stop := cur_position e + Z.of_nat (length new)) in *.
  destruct (usize_max <? stop) eqn:E1; [done|].
  set (bs := if Z.of_nat (length (cur_bytes e)) <? stop then _ else _). intros [= <-].
  assert (Hlen : Z.of_nat (length bs) = Z.max (Z.of_nat (length (cur_bytes e))) stop).
  { unfold bs. destruct (Z.of_nat (length (cur_bytes e)) <? stop) eqn:E2; bool_to_prop; [rewrite resize_length|]; lia. }
  assert (Hubs : Forall is_u8 bs).
  { unfold bs. destruct (Z.of_nat (length (cur_bytes e)) <? stop) eqn:E2; [|done]. unfold resize. rewrite Forall_app.
    split; [by apply Forall_take|]. apply Forall_replicate. split; [lia|done]. }
  assert (Hfit : (Z.to_nat (cur_position e) + length new <= length bs)%nat) by lia.
  unfold cursor_ok, read_range. simpl. rewrite (splice_length bs _ new Hfit). split_and!; try lia.
  - by apply splice_u8.
  - unfold stop. replace (Z.to_nat _) with (length new) at 1 by lia. by apply splice_read.
  - intros Hend. unfold splice.
    assert (bs = cur_bytes e ++ replicate (length new) 0) as ->.
    { unfold bs. destruct (Z.of_nat (length (cur_bytes e)) <? stop) eqn:E2; bool_to_prop.
      - rewrite resize_app by lia. do 2 f_equal. lia.
      - assert (length new = 0%nat) as -> by lia. by rewrite app_nil_r. }
    rewrite Hend, Nat2Z.id, take_app_length, drop_ge by (rewrite length_app, length_replicate; lia).
    by rewrite app_nil_r.
Qed.

(** One integer of a stream: its value, width and byte order. *)
Definition item : Type := Z * Z * bool.

Fixpoint write_items (e : CursorEntry) (l : list item) : result CursorEntry string :=
  match l with
  | [] => Ok e
  | (v, w, le) :: r => let? e' := cursor_write_uint e v w le in write_items e' r
  end.

Fixpoint read_items (e : CursorEntry) (l : list item) : result (list Z) string :=
  match l with
  | [] => Ok []
  | (_, w, le) :: r =>
      let? (v, e') := cursor_read_uint e w le in let? vs := read_items e' r in Ok (v :: vs)
  end.

Definition item_fits (i : item) : Prop :=
  let '(v, w, _) := i in 0 <= v <= i64_max /\ 1 <= w <= 8 /\ v < 2 ^ (8 * w).

Definition items_size (l : list item) : Z := foldr (fun '(_, w, _) n => w + n) 0 l.

Definition item_octets (i : item) : list Z := let '(v, w, le) := i in encode_uint le (Z.to_nat w) v.

Lemma check_uint_fits v w le : item_fits (v, w, le) -> check_uint v w = Ok (Z.to_nat w).
Proof.
  intros (Hv & Hw & Hf). unfold check_uint, check_width.
  rewrite (proj2 (Z.ltb_ge v 0)), (proj2 (Z.ltb_ge w 0)), (proj2 (in_range_true 1 8 w)) by lia. simpl.
  by rewrite (proj2 (Z.leb_gt _ _)), andb_false_r.
Qed.

Lemma write_items_spec l : forall e, cursor_ok e -> cur_position e = Z.of_nat (length (cur_bytes e)) ->
  Forall item_fits l -> cur_position e + items_size l <= i64_max ->
  exists e', write_items e l = Ok e' /\ cursor_ok e' /\
    cur_bytes e' = cur_bytes e ++ flat_map item_octets l.
Proof.
  induction l as [|[[v w] le] r IH]; intros e Hok Hend Hl Hs; simpl.
  { exists e. by rewrite app_nil_r. }
  inversion Hl as [|? ? Hi Hr]; subst. pose proof Hi as (Hv & Hw & Hf).
  unfold cursor_write_uint. rewrite (check_uint_fits v w le) by done. simpl.
  simpl in Hs. assert (0 <= items_size r) as Hpos.
  { clear -Hr. induction Hr as [|[[v w] le] r (?&?&?) _ IH]; simpl; lia. }
  set (new := encode_uint le (Z.to_nat w) v).
  assert (Hnl : Z.of_nat (length new) = w) by (unfold new; rewrite encode_uint_length; lia).
  destruct (cursor_put e new) as [e1|m] eqn:Ep.
  2: { unfold cursor_put in Ep. destruct (usize_max <? cur_position e + Z.of_nat (length new)) eqn:E1; bool_to_prop; [|done]. width. }
  simpl. destruct (cursor_put_spec e new e1 Hok (encode_uint_u8 _ _ _) ltac:(lia) Ep) as (Hok1 & Hp1 & _ & Hb1).
  specialize (Hb1 Hend). destruct (IH e1) as (e2 & He2 & Hok2 & Hb2); try done.
  - rewrite Hb1, length_app. lia.
  - lia.
  - exists e2. split_and!; try done. by rewrite Hb2, Hb1, <- app_assoc.
Qed.

Lemma read_items_spec l : forall pre e,
  cur_bytes e = pre ++ flat_map item_octets l -> cur_position e = Z.of_nat (length pre) ->
  Z.of_nat (length (cur_bytes e)) <= i64_max -> Forall item_fits l ->
  read_items e l = Ok (fst ∘ fst <$> l).
Proof.
  induction l as [|[[v w] le] r IH]; intros pre e Hb Hp Hm Hl; [done|]. simpl in *.
  inversion Hl as [|? ? Hi Hr]; subst. destruct Hi as (Hv & Hw & Hf).
  set (new := encode_uint le (Z.to_nat w) v) in *.
  assert (Hnl : length new = Z.to_nat w) by apply encode_uint_length.
  assert (Hlen : Z.of_nat (length (cur_bytes e)) = Z.of_nat (length pre) + w + Z.of_nat (length (flat_map item_octets r))).
  { rewrite Hb, !length_app. lia. }
  unfold cursor_read_uint, check_width.
  rewrite (proj2 (Z.ltb_ge w 0)), (proj2 (in_range_true 1 8 w)) by lia. simpl.
  unfold cursor_range. rewrite Z2Nat.id by lia.
  rewrite (proj2 (Z.ltb_ge usize_max _)), (proj2 (Z.ltb_ge (Z.of_nat _) _)) by width. simpl.
  assert (read_range e (cur_position e) (cur_position e + w) = new) as ->.
  { unfold read_range. rewrite Hb, Hp, Nat2Z.id, drop_app_length.
    replace (Z.to_nat _) with (length new) by lia. by rewrite take_app_length. }
  unfold decode_uint, new. rewrite decode_encode by (rewrite Z2Nat.id by lia; lia).
  rewrite (proj2 (Z.leb_le v i64_max)) by lia. simpl.
  rewrite (IH (pre ++ new)); [done| | | |done]; simpl.
  - by rewrite Hb, app_assoc.
  - rewrite length_app. lia.
  - done.
Qed.

(** ** Properties *)

(** Fixed-width integers round-trip in both byte orders: reading what was
    written gives the number back, no octet outside the range changes, and writing
    back what was read changes nothing at all. *)
Lemma uint_roundtrip bs offset v width le :
  Forall is_u8 bs -> is_i64 v ->
  (forall bs', write_uint bs offset v width le = Ok bs' ->
     read_uint bs' offset width le = Ok v /\ length bs' = length bs /\ Forall is_u8 bs' /\
     forall j, Z.of_nat j < offset \/ offset + width <= Z.of_nat j -> bs' !! j = bs !! j) /\
  (forall n, read_uint bs offset width le = Ok n -> is_i64 n /\ write_uint bs offset n width le = Ok bs).
Proof.
  intros Hu Hv. split.
  - intros bs' Hw. unfold write_uint in Hw.
    destruct (check_uint v width) as [w|] eqn:Ec; simpl in Hw; [|done].
    destruct (check_uint_ok _ _ _ Hv Ec) as [Ew Hr]. destruct (check_width_ok _ _ Ew) as [Hw1 Hw2].
    destruct (checked_range (length bs) offset w) as [[start stop]|] eqn:Er; simpl in Hw; [|done].
    injection Hw as <-. destruct (checked_range_ok _ _ _ _ _ Er) as (Ho & Hs & -> & Hl).
    set (new := encode_uint le w v).
    assert (Hn : length new = w) by apply encode_uint_length.
    assert (Hfit : (start + length new <= length bs)%nat) by lia.
    pose proof (splice_length bs start new Hfit) as Hlen. split_and!; [|done| |].
    + unfold read_uint. rewrite Ew. simpl. rewrite Hlen, Er. simpl.
      replace (start + w - start)%nat with (length new) by lia. rewrite splice_read by done.
      unfold decode_uint, new. rewrite decode_encode by done.
      by rewrite (proj2 (Z.leb_le v i64_max)) by width.
    + apply splice_u8; [done|apply encode_uint_u8].
    + intros j Hj. apply splice_other; [done|]. lia.
  - intros n Hr. unfold read_uint in Hr. destruct (check_width width) as [w|] eqn:Ew; simpl in Hr; [|done].
    destruct (check_width_ok _ _ Ew) as [Hw1 Hw2].
    destruct (checked_range (length bs) offset w) as [[start stop]|] eqn:Er; simpl in Hr; [|done].
    destruct (checked_range_ok _ _ _ _ _ Er) as (Ho & Hs & -> & Hl).
    replace (start + w - start)%nat with w in Hr by lia. set (old := take w (drop start bs)) in *.
    assert (Hol : length old = w) by (unfold old; rewrite length_take, length_drop; lia).
    assert (Hou : Forall is_u8 old) by (by apply Forall_take, Forall_drop).
    unfold decode_uint in Hr. destruct (_ <=? i64_max) eqn:E1; bool_to_prop; [|done]. injection Hr as <-.
    pose proof (decode_loop_bound le w old Hol Hou) as Hd. split; [width|].
    unfold write_uint, check_uint. rewrite (proj2 (Z.ltb_ge _ 0)) by lia. rewrite Ew. simpl.
    rewrite (proj2 (Z.leb_gt (2 ^ (8 * width)) _)) by (rewrite <- Hw1; lia). rewrite andb_false_r. simpl.
    rewrite Er. simpl. f_equal. rewrite encode_decode by done. by apply splice_same.
Qed.

(** Variable-width integers round-trip: whenever a non-negative [int] is
    written, reading at the same offset gives it back, the reported length is the
    number of octets changed (at most nine), and octets outside are kept. *)
Lemma varint_roundtrip bs offset number bs' n :
  0 <= number <= i64_max -> write_varint bs offset number = Ok (bs', n) ->
  read_varint bs' offset = Ok number /\ 1 <= n <= 9 /\ length bs' = length bs /\
  forall j, Z.of_nat j < offset \/ offset + n <= Z.of_nat j -> bs' !! j = bs !! j.
Proof.
  intros Hn. unfold write_varint. destruct (offset <? 0) eqn:E0; bool_to_prop; [done|].
  set (enc := encode_varint varint_fuel number).
  assert (Hlen : (1 <= length enc <= 9)%nat).
  { apply encode_varint_length; [unfold varint_fuel; lia|lia|]. change (7 * Z.of_nat 9) with 63. width. }
  destruct (usize_max <? offset + Z.of_nat (length enc)) eqn:E1; [done|].
  destruct (Z.of_nat (length bs) <? offset + Z.of_nat (length enc)) eqn:E2; bool_to_prop; [done|].
  intros [= <- <-]. assert (Hfit : (Z.to_nat offset + length enc <= length bs)%nat) by lia.
  pose proof (splice_length bs (Z.to_nat offset) enc Hfit) as Hsl. split_and!; try lia.
  - unfold read_varint. rewrite (proj2 (Z.ltb_ge offset 0)), Hsl by done.
    rewrite (proj2 (Z.leb_gt _ offset)) by lia. unfold splice at 1.
    rewrite drop_app_length' by (rewrite length_take; lia). unfold enc.
    rewrite varint_loop_encode; [f_equal; lia| |lia|lia| |unfold varint_fuel; lia].
    + change (7 * Z.of_nat varint_fuel) with 70. width.
    + change (2 ^ 0) with 1. width.
  - intros j Hj. apply splice_other; [done|]. lia.
Qed.

(** Decoding a variable-width integer never overflows or runs on: any result is
    a non-negative [int], and no encoding longer than ten octets is accepted. *)
Lemma varint_decode_bounded bs offset v :
  read_varint bs offset = Ok v ->
  0 <= v <= i64_max /\ 0 <= offset < Z.of_nat (length bs) /\
  varint_loop (take 10 (drop (Z.to_nat offset) bs)) 0 0 = Ok v.
Proof.
  unfold read_varint. destruct (offset <? 0) eqn:E0; bool_to_prop; [done|].
  destruct (Z.of_nat (length bs) <=? offset) eqn:E1; bool_to_prop; [done|]. intros Hv.
  pose proof (varint_loop_range _ 0 0 v ltac:(lia) Hv). split_and!; try lia.
  - revert Hv. generalize (drop (Z.to_nat offset) bs). intros l.
    assert (Hgen : forall k l shift acc, shift = 70 - 7 * Z.of_nat k -> (k <= 10)%nat ->
      varint_loop l shift acc = Ok v -> varint_loop (take k l) shift acc = Ok v).
    { clear. induction k as [|k IH]; intros l shift acc Hs Hk; (destruct l as [|b l]; simpl; [done|]).
      - rewrite (proj2 (Z.leb_le 64 shift)) by lia. done.
      - destruct (64 <=? shift); [done|]. destruct (_ && _); [done|].
        destruct (Z.land b 128 =? 0); [done|]. apply IH; lia. }
    apply Hgen; lia.
Qed.

(** Floats round-trip by their bits in both byte orders. *)
Lemma float_roundtrip bs offset bits le bs' :
  is_u64 bits -> mux_bytes_write_float (Some (VBytes bs)) offset (Some (VFloat bits)) le = (Ok VUnit, Some (VBytes bs')) ->
  mux_bytes_read_float (Some (VBytes bs')) offset le = Ok (VFloat bits) /\ length bs' = length bs.
Proof.
  intros Hb. unfold mux_bytes_write_float, mux_bytes_read_float. simpl.
  destruct (checked_range (length bs) offset 8) as [[start stop]|] eqn:Er; [|done].
  destruct (checked_range_ok _ _ _ _ _ Er) as (Ho & Hs & -> & Hl). intros [= <-].
  set (new := float_octets le bits).
  assert (Hn : length new = 8%nat).
  { unfold new, float_octets. destruct le; rewrite ?length_rev; apply encode_uint_length. }
  assert (Hfit : (start + length new <= length bs)%nat) by lia.
  pose proof (splice_length bs start new Hfit) as Hlen. split; [|done]. rewrite Hlen, Er.
  do 2 f_equal. replace (start + 8 - start)%nat with (length new) by lia. rewrite splice_read by done.
  unfold octets_float, new, float_octets.
  destruct le; rewrite ?rev_involutive; apply decode_encode; change (8 * Z.of_nat 8) with 64; width.
Qed.

(** A stream of integers of mixed widths and byte orders written through a
    cursor on an empty buffer is read back, in order, by a cursor on the result. *)
Lemma cursor_stream_roundtrip (l : list item) (names : Z) :
  Forall item_fits l -> items_size l <= i64_max ->
  exists e, write_items (mk_cursor [] 0 names) l = Ok e /\
    read_items (mk_cursor (cur_bytes e) 0 names) l = Ok (fst ∘ fst <$> l).
Proof.
  intros Hl Hs. assert (cursor_ok (mk_cursor [] 0 names)) as Hok.
  { split; [simpl; lia|]. split; [simpl; width|constructor]. }
  destruct (write_items_spec l (mk_cursor [] 0 names) Hok eq_refl Hl Hs) as (e & He & (_ & Hm & _) & Hb).
  exists e. split; [done|]. by apply (read_items_spec l []).
Qed.

(** A cursor's position never leaves its buffer, so "remaining" cannot wrap:
    reads and writes keep the invariant, and the count of unread octets is exact. *)
Lemma cursor_invariant id c e width le number length :
  cursors c !! id = Some e -> cursor_ok e ->
  mux_bytes_cursor_remaining id c = Ok (VInt (Z.of_nat (List.length (cur_bytes e)) - cur_position e)) /\
  (forall v e', cursor_read_uint e width le = Ok (v, e') -> cursor_ok e') /\
  (forall bs e', 0 <= length -> cursor_read_bytes e length = Ok (bs, e') ->
     cursor_ok e' /\ Z.of_nat (List.length bs) = length) /\
  (forall e', is_i64 number -> cur_position e + 8 <= i64_max -> cursor_write_uint e number width le = Ok e' ->
     cursor_ok e').
Proof.
  intros Hid Hok. pose proof Hok as (Hp & Hm & Hu). split_and!.
  - unfold mux_bytes_cursor_remaining, cursor_entry. rewrite Hid. simpl.
    rewrite as_u64_small, as_i64_small by width. done.
  - intros v e'. unfold cursor_read_uint. destruct (check_width width) as [w|] eqn:Ew; simpl; [|done].
    destruct (cursor_range e (Z.of_nat w)) as [[start stop]|] eqn:Er; simpl; [|done].
    destruct (cursor_range_ok _ _ _ _ Er) as (-> & -> & Hl).
    destruct (decode_uint _ _ _); simpl; [|done]. intros [= _ <-]. apply move_to_ok; [done|lia].
  - intros bs e' H0. unfold cursor_read_bytes. rewrite (proj2 (Z.ltb_ge length 0)) by done.
    destruct (cursor_range e length) as [[start stop]|] eqn:Er; simpl; [|done].
    destruct (cursor_range_ok _ _ _ _ Er) as (-> & -> & Hl). intros [= <- <-].
    split; [apply move_to_ok; [done|lia]|]. unfold read_range. rewrite length_take, length_drop. lia.
  - intros e' Hi Hb. unfold cursor_write_uint. destruct (check_uint number width) as [w|] eqn:Ec; simpl; [|done].
    destruct (check_uint_ok _ _ _ Hi Ec) as [Ew _]. destruct (check_width_ok _ _ Ew) as [Hw1 Hw2]. intros He.
    apply (cursor_put_spec e (encode_uint le w number) e'); try done; [apply encode_uint_u8|].
    rewrite encode_uint_length. lia.
Qed.

(** The text form of a byte sequence is fixed-width and loses nothing: for every
    radix and width the runtime accepts, each octet takes exactly [width]
    characters and parsing them back gives the octets. *)
Lemma format_roundtrip bs radix width text :
  Forall is_u8 bs -> format_bytes bs radix width = Ok text ->
  exists w, (width = 0 \/ Z.of_nat w = width) /\
    length text = (length bs * w)%nat /\ parse_octets radix w (length bs) text = bs.
Proof.
  intros Hu. unfold format_bytes. destruct (format_params radix) as [m|] eqn:Em; [|done].
  set (width' := if width =? 0 then m else width).
  destruct (width' <? m) eqn:E1; bool_to_prop; [done|]. destruct (64 <? width') eqn:E2; bool_to_prop; [done|].
  destruct (usize_max <? _) eqn:E3; [done|]. intros [= <-].
  assert (Hm : 1 < radix <= 16 /\ 2 <= m /\ 256 <= radix ^ m).
  { unfold format_params in Em.
    destruct (radix =? 2) eqn:R2; bool_to_prop; [injection Em as <-; subst; split_and!; done|].
    destruct (radix =? 8) eqn:R8; bool_to_prop; [injection Em as <-; subst; split_and!; done|].
    destruct (radix =? 10) eqn:R10; bool_to_prop; [injection Em as <-; subst; split_and!; done|].
    destruct (radix =? 16) eqn:R16; bool_to_prop; [injection Em as <-; subst; split_and!; done|done]. }
  destruct Hm as (Hr & Hm2 & Hpow). exists (Z.to_nat width'). split.
  - unfold width' in *. clear E3. destruct (width =? 0) eqn:E4; bool_to_prop; [by left|right; lia].
  - apply parse_octets_format; [done| |done]. rewrite Z2Nat.id by lia.
    etrans; [exact Hpow|]. apply Z.pow_le_mono_r; lia.
Qed.

(** The checked operations of [byte] succeed exactly when both operands are
    octets and the mathematical result is one, and return it; the wrapping ones
    compute modulo 256, the saturating ones clamp. *)
Lemma byte_arithmetic_exact a b z :
  (mux_byte_checked_add a b = Ok z <-> is_u8 a /\ is_u8 b /\ is_u8 (a + b) /\ z = a + b) /\
  (mux_byte_checked_sub a b = Ok z <-> is_u8 a /\ is_u8 b /\ is_u8 (a - b) /\ z = a - b) /\
  (mux_byte_checked_mul a b = Ok z <-> is_u8 a /\ is_u8 b /\ is_u8 (a * b) /\ z = a * b) /\
  (mux_byte_checked_div a b = Ok z <-> is_u8 a /\ is_u8 b /\ b <> 0 /\ z = a / b) /\
  mux_byte_wrapping_add a b = (a + b) mod 256 /\ mux_byte_wrapping_sub a b = (a - b) mod 256 /\
  mux_byte_wrapping_mul a b = (a * b) mod 256 /\
  (is_u8 a -> is_u8 b -> mux_byte_saturating_add a b = clamp 0 255 (a + b) /\
     mux_byte_saturating_sub a b = clamp 0 255 (a - b) /\ mux_byte_saturating_mul a b = clamp 0 255 (a * b)).
Proof.
  assert (Hc : forall v, checked v = Ok v /\ is_u8 v \/ (exists m, checked v = Err m) /\ ~ is_u8 v).
  { intros v. unfold checked. destruct (in_range 0 255 v) eqn:E.
    - apply in_range_true in E. left. split; [done|]. unfold is_u8. lia.
    - apply in_range_false in E. right. split; [eauto|]. unfold is_u8. lia. }
  unfold mux_byte_checked_add, mux_byte_checked_sub, mux_byte_checked_mul, mux_byte_checked_div, checked_pair.
  split_and!.
  1-4: destruct (Hc a) as [[-> Ha]|[[m ->] Ha]]; simpl; [|split; [done|tauto]];
       destruct (Hc b) as [[-> Hb]|[[m ->] Hb]]; simpl; [|split; [done|tauto]].
  - destruct (a + b <=? 255) eqn:E; bool_to_prop; unfold is_u8 in *; (split; [intros [= <-]; lia|intros (_ & _ & ? & ->); done || lia]).
  - destruct (0 <=? a - b) eqn:E; bool_to_prop; unfold is_u8 in *; (split; [intros [= <-]; lia|intros (_ & _ & ? & ->); done || lia]).
  - assert (0 <= a * b) by (unfold is_u8 in *; nia).
    destruct (a * b <=? 255) eqn:E; bool_to_prop; unfold is_u8 in *; (split; [intros [= <-]; lia|intros (_ & _ & ? & ->); done || lia]).
  - destruct (b =? 0) eqn:E; bool_to_prop; split; try done; [intros (_ & _ & ? & _); done| |].
    + by intros [= <-].
    + by intros (_ & _ & _ & ->).
  - unfold mux_byte_wrapping_add. by rewrite <- Z.add_mod.
  - unfold mux_byte_wrapping_sub. by rewrite <- Zminus_mod.
  - unfold mux_byte_wrapping_mul. by rewrite <- Z.mul_mod.
  - intros Ha Hb. unfold mux_byte_saturating_add, mux_byte_saturating_sub, mux_byte_saturating_mul, is_u8 in *.
    rewrite !(clamp_id 0 255 a), !(clamp_id 0 255 b) by lia. assert (0 <= a * b <= 255 * 255) by nia.
    unfold saturate_i64, clamp. split_and!; width.
Qed.

(** Rotations by any amount are inverse to each other, shifts are exact within
    eight bits, and complement is an involution. *)
Lemma byte_bits_exact v s :
  mux_byte_rotate_right (mux_byte_rotate_left v s) s = as_u8 v /\
  mux_byte_rotate_left (mux_byte_rotate_right v s) s = as_u8 v /\
  mux_byte_bit_not (mux_byte_bit_not v) = as_u8 v /\
  (0 <= s <= 7 -> mux_byte_shift_left v s = Ok ((v * 2 ^ s) mod 256)) /\
  (0 <= s <= 7 -> mux_byte_shift_right v s = Ok ((v mod 256) / 2 ^ s)).
Proof.
  assert (Hrot : forall b n, 0 <= b < 256 -> 0 <= n < 8 ->
    rotate_right8 (as_u8 (rotate_left8 b n)) n = b /\ rotate_left8 (as_u8 (rotate_right8 b n)) n = b).
  { intros b n Hb Hn.
    pose (check := fun b => forallb (fun n => (rotate_right8 (as_u8 (rotate_left8 b n)) n =? b) &&
      (rotate_left8 (as_u8 (rotate_right8 b n)) n =? b)) (map Z.of_nat (seq 0 8))).
    assert (check b = true) as Hchk.
    { apply (range_check check 256); [vm_compute; reflexivity|done]. }
    unfold check in Hchk. pose proof (range_check _ 8 Hchk n Hn) as Hn'.
    apply andb_true_iff in Hn' as [?%Z.eqb_eq ?%Z.eqb_eq]. done. }
  pose proof (as_u8_range v) as Hu. pose proof (Z.mod_pos_bound s 8 ltac:(lia)) as Hs.
  destruct (Hrot (as_u8 v) (s mod 8) Hu Hs) as [H1 H2]. split_and!; [done|done| | |].
  - assert (Hn : forall x, Z.lnot x = -1 - x) by (intros x; pose proof (Z.add_lnot_diag x); lia).
    unfold mux_byte_bit_not, as_u8. rewrite !Hn, Zminus_mod_idemp_r. f_equal. lia.
  - intros H7. unfold mux_byte_shift_left. rewrite (proj2 (in_range_true 0 7 s)) by lia. f_equal.
    rewrite Z.shiftl_mul_pow2 by lia. unfold as_u8. by rewrite Zmult_mod_idemp_l.
  - intros H7. unfold mux_byte_shift_right. rewrite (proj2 (in_range_true 0 7 s)) by lia. f_equal.
    by rewrite Z.shiftr_div_pow2 by lia.
Qed.

(** ** Witnesses *)

Definition demo_bytes : list Z := [1; 2; 3; 4; 5].

Lemma demo_bytes_u8 : Forall is_u8 demo_bytes.
Proof. repeat constructor; vm_compute; (discriminate || reflexivity). Qed.

Definition demo_cursors : Cursors := mk_cursors {[ 1 := mk_cursor demo_bytes 2 1 ]} 2.
