(* ===== verification/Scalars.v ===== *)
(** * Scalars, optionals, results, tuples and panic codes
    ([src/src/int.rs], [bool.rs], [optional.rs], [result.rs], [tuple.rs], [panic.rs])

    Integer arithmetic is the release build's: [+], [-] and [*] wrap, while [/] and
    [%] panic on the one quotient that does not fit, in every build; [None] is that
    panic, which ends the process.  Optionals, results and tuples are built from deep
    copies, so their operations run in the heap monad. *)

From S2P Require Import Prelude AssocList Object Value Heap.

(** ** [int.rs] *)

Definition Int_add (a b : Z) : Z := as_i64 (a + b).
Definition Int_sub (a b : Z) : Z := as_i64 (a - b).
Definition Int_mul (a b : Z) : Z := as_i64 (a * b).

(** Rust's [/] and [%] truncate towards zero and panic on overflow. *)
Definition i64_div (a b : Z) : option Z :=
  if (a =? i64_min) && (b =? -1) then None else Some (Z.quot a b).
Definition i64_rem (a b : Z) : option Z :=
  if (a =? i64_min) && (b =? -1) then None else Some (Z.rem a b).

Definition Int_div (a b : Z) : option (result Z string) :=
  if b =? 0 then Some (Err "Division by zero") else Ok <$> i64_div a b.
Definition Int_rem (a b : Z) : option (result Z string) :=
  if b =? 0 then Some (Err "Modulo by zero") else Ok <$> i64_rem a b.
Definition Int_lt (a b : Z) : bool := a <? b.

Definition mux_int_add (a b : Z) : Z := Int_add a b.
Definition mux_int_sub (a b : Z) : Z := Int_sub a b.
Definition mux_int_mul (a b : Z) : Z := Int_mul a b.
Definition mux_int_div (a b : Z) : option value :=
  match Int_div a b with
  | Some (Ok i) => Some (VResult (Ok (VInt i)))
  | Some (Err e) => Some (VResult (Err (VString e)))
  | None => None
  end.
Definition mux_int_rem (a b : Z) : option Z :=
  match Int_rem a b with Some (Ok i) => Some i | Some (Err _) => Some 0 | None => None end.
Definition mux_int_eq (a b : Z) : bool := a =? b.
Definition mux_int_lt (a b : Z) : bool := Int_lt a b.

Definition mux_int_to_byte (i : Z) : result value string :=
  if in_range 0 255 i then Ok (VInt i)
  else Err ("Byte value " +:+ pretty i +:+ " is outside the range 0..255").

Definition mux_int_from_value (v : option value) : Z := match v with Some (VInt i) => i | _ => 0 end.

(** ** [bool.rs] *)

Definition Bool_to_int (b : bool) : Z := if b then 1 else 0.
Definition mux_bool_to_string (b : Z) : string := if b =? 0 then "false" else "true".
Definition mux_bool_from_value (v : value) : Z := match v with VBool b => Bool_to_int b | _ => 0 end.
Definition mux_bool_to_int (v : option value) : option value :=
  match v with Some (VBool b) => Some (VInt (Bool_to_int b)) | _ => None end.

(** ** [panic.rs] *)

Inductive RuntimeErrorCode : Type :=
| IndexOutOfBounds | KeyNotFound | DivisionByZero | AssertionFailed
| WhereConstraintViolation | IntegerOverflow | InternalRuntime.

#[export] Instance runtime_error_code_eq_dec : EqDecision RuntimeErrorCode.
Proof. solve_decision. Defined.

(** The discriminants of the enum. *)
Definition code_value (c : RuntimeErrorCode) : Z :=
  match c with
  | IndexOutOfBounds => 600 | KeyNotFound => 601 | DivisionByZero => 602 | AssertionFailed => 603
  | WhereConstraintViolation => 604 | IntegerOverflow => 605 | InternalRuntime => 699
  end.

Definition code_as_str (c : RuntimeErrorCode) : string :=
  match c with
  | IndexOutOfBounds => "E0600" | KeyNotFound => "E0601" | DivisionByZero => "E0602"
  | AssertionFailed => "E0603" | WhereConstraintViolation => "E0604" | IntegerOverflow => "E0605"
  | InternalRuntime => "E0699"
  end.

Definition all_codes : list RuntimeErrorCode :=
  [IndexOutOfBounds; KeyNotFound; DivisionByZero; AssertionFailed; WhereConstraintViolation;
   IntegerOverflow; InternalRuntime].

Definition from_ffi (v : Z) : RuntimeErrorCode :=
  if v =? 600 then IndexOutOfBounds else if v =? 601 then KeyNotFound
  else if v =? 602 then DivisionByZero else if v =? 603 then AssertionFailed
  else if v =? 604 then WhereConstraintViolation else if v =? 605 then IntegerOverflow
  else InternalRuntime.

(** The lines [emit_panic] writes to stderr before it exits with status 1. *)
Definition emit_panic (code : RuntimeErrorCode) (message : string) (loc : option string) : list string * Z :=
  (("panic[" +:+ code_as_str code +:+ "]: " +:+ message) ::
   match loc with Some l => ["--> " +:+ l] | None => [] end, 1).

Definition mux_panic_cstr_code (code : Z) (msg loc : option string) : list string * Z :=
  emit_panic (from_ffi code) (match msg with Some m => m | None => "(no message)" end) loc.

Definition mux_panic_index_oob (index length : Z) (loc : option string) : list string * Z :=
  emit_panic IndexOutOfBounds
    ("list index out of bounds: index " +:+ pretty index +:+ ", length " +:+ pretty length) loc.

(** ** [optional.rs], [result.rs], [tuple.rs] *)

Definition mux_optional_is_some (v : option value) : bool :=
  match v with Some (VOptional (Some _)) => true | _ => false end.
Definition mux_optional_is_none (v : option value) : bool :=
  match v with Some (VOptional None) => true | _ => false end.
Definition mux_value_optional_discriminant (v : option value) : Z :=
  match v with Some (VOptional (Some _)) => 0 | Some (VOptional None) => 1 | _ => -1 end.

Definition mux_result_is_ok (v : option value) : bool :=
  match v with Some (VResult (Ok _)) => true | _ => false end.
Definition mux_result_is_err (v : option value) : bool :=
  match v with Some (VResult (Err _)) => true | _ => false end.
Definition mux_value_result_discriminant (v : option value) : Z :=
  match v with Some (VResult (Ok _)) => 0 | Some (VResult (Err _)) => 1 | _ => -1 end.

Section Wrappers.
Context `{Allocator} `{Foreign} `{Callbacks} `{Floats}.

(** A deep copy of what a pointer refers to, wrapped and boxed. *)
Definition wrap_copy (wrap : value -> value) (v : value) : M ptr :=
  let! v' := deep_clone_value v in mux_rc_alloc (wrap v').

Definition mux_optional_none : M ptr := mux_rc_alloc (VOptional None).
Definition mux_optional_some_int (i : Z) : M ptr := mux_rc_alloc (VOptional (Some (VInt i))).
Definition mux_optional_some_float (f : f64) : M ptr := mux_rc_alloc (VOptional (Some (VFloat f))).
Definition mux_optional_some_bool (b : Z) : M ptr :=
  mux_rc_alloc (VOptional (Some (VBool (negb (b =? 0))))).
Definition mux_optional_some_value (v : option value) : M ptr :=
  match v with
  | None => mux_rc_alloc (VOptional None)
  | Some v => wrap_copy (fun v => VOptional (Some v)) v
  end.
Definition mux_optional_get_value (v : option value) : M ptr :=
  match v with Some (VOptional (Some x)) => wrap_copy (fun v => v) x | _ => ret None end.

Definition mux_result_ok_int (i : Z) : M ptr := mux_rc_alloc (VResult (Ok (VInt i))).
Definition mux_result_ok_bool (b : Z) : M ptr := mux_rc_alloc (VResult (Ok (VBool (negb (b =? 0))))).
Definition mux_result_ok_unit : M ptr := mux_rc_alloc (VResult (Ok VUnit)).
Definition mux_result_ok_value (v : option value) : M ptr :=
  match v with None => ret None | Some v => wrap_copy (fun v => VResult (Ok v)) v end.
Definition mux_result_err_value (v : option value) : M ptr :=
  match v with None => ret None | Some v => wrap_copy (fun v => VResult (Err v)) v end.
Definition mux_result_err_str (msg : string) : M ptr := mux_rc_alloc (VResult (Err (VString msg))).
Definition mux_result_data (v : option value) : M ptr :=
  match v with
  | Some (VResult (Ok x)) => wrap_copy (fun v => v) x
  | Some (VResult (Err x)) => wrap_copy (fun v => v) x
  | _ => ret None
  end.

Definition mux_new_tuple (left right : value) : M (value * value) :=
  let! l := clone_value left in let! r := clone_value right in ret (l, r).
Definition mux_tuple_value (t : value * value) : M ptr := mux_rc_alloc (VTuple t.1 t.2).
Definition mux_tuple_left (t : value * value) : M ptr := let! v := clone_value t.1 in mux_rc_alloc v.
Definition mux_tuple_right (t : value * value) : M ptr := let! v := clone_value t.2 in mux_rc_alloc v.
Definition mux_tuple_eq (reg : Registry) (a b : option (value * value)) : bool :=
  match a, b with
  | Some (a1, a2), Some (b1, b2) => value_eqb reg a1 b1 && value_eqb reg a2 b2
  | _, _ => false
  end.

End Wrappers.

(** ** Properties *)

(** Integer arithmetic is two's-complement, and division and remainder of
    in-range operands satisfy the division identity with the dividend's sign,
    unless the divisor is zero or the quotient overflows. *)
Lemma int_arithmetic a b :
  is_i64 a -> is_i64 b ->
  is_i64 (mux_int_add a b) /\ (mux_int_add a b - (a + b)) mod 2 ^ 64 = 0 /\
  is_i64 (mux_int_mul a b) /\ (mux_int_mul a b - a * b) mod 2 ^ 64 = 0 /\
  mux_int_sub (mux_int_add a b) b = a /\
  (b <> 0 -> ~ (a = i64_min /\ b = -1) ->
   exists q r, mux_int_div a b = Some (VResult (Ok (VInt q))) /\ mux_int_rem a b = Some r /\
     a = b * q + r /\ Z.abs r < Z.abs b /\ 0 <= r * a /\ is_i64 q /\ is_i64 r).
Proof.
  intros Ha Hb.
  assert (Hw : forall z, (as_i64 z - z) mod 2 ^ 64 = 0).
  { intros z. unfold as_i64. pose proof (Z.div_mod (z + 2 ^ 63) (2 ^ 64) ltac:(lia)) as E.
    replace ((z + 2 ^ 63) mod 2 ^ 64 - 2 ^ 63 - z) with ((- ((z + 2 ^ 63) / 2 ^ 64)) * 2 ^ 64) by lia.
    apply Z.mod_mul. lia. }
  split; [apply as_i64_range|]. split; [apply Hw|]. split; [apply as_i64_range|].
  split; [apply Hw|]. split.
  - unfold mux_int_sub, Int_sub, mux_int_add, Int_add, as_i64.
    replace ((a + b + 2 ^ 63) mod 2 ^ 64 - 2 ^ 63 - b + 2 ^ 63) with ((a + b + 2 ^ 63) mod 2 ^ 64 - b) by lia.
    rewrite Zminus_mod_idemp_l. replace (a + b + 2 ^ 63 - b) with (a + 2 ^ 63) by lia.
    rewrite Z.mod_small by width. lia.
  - intros Hb0 Hov. exists (Z.quot a b), (Z.rem a b).
    assert ((a =? i64_min) && (b =? -1) = false) as Eo.
    { apply andb_false_iff. destruct (decide (a = i64_min)), (decide (b = -1));
        rewrite ?Z.eqb_neq; tauto. }
    unfold mux_int_div, Int_div, mux_int_rem, Int_rem, i64_div, i64_rem.
    rewrite (proj2 (Z.eqb_neq b 0) Hb0), Eo. simpl.
    pose proof (Z.quot_rem' a b) as Hqr. pose proof (Z.rem_bound_abs a b Hb0) as Hr.
    pose proof (Z.rem_sign_mul a b Hb0) as Hsg.
    assert (Z.abs (Z.quot a b) <= Z.abs a) as Hq.
    { rewrite <- Z.quot_abs by done. destruct (decide (Z.abs b = 1)) as [->|]; [rewrite Z.quot_1_r; lia|].
      destruct (decide (a = 0)) as [->|]; [done|]. pose proof (Z.quot_lt (Z.abs a) (Z.abs b)). lia. }
    split_and!; try done; try width.
Qed.

(** The quotient of the smallest [int] by [-1] panics instead of returning an
    error result: division and remainder check the divisor for zero only. *)
Lemma int_div_overflow_panics a b :
  is_i64 a -> is_i64 b -> (mux_int_div a b = None <-> a = i64_min /\ b = -1) /\
  (mux_int_rem a b = None <-> a = i64_min /\ b = -1) /\
  (b = 0 -> mux_int_div a b = Some (VResult (Err (VString "Division by zero"))) /\ mux_int_rem a b = Some 0).
Proof.
  intros Ha Hb. unfold mux_int_div, Int_div, mux_int_rem, Int_rem, i64_div, i64_rem.
  destruct (b =? 0) eqn:E0; bool_to_prop.
  - split_and!; try done; split; try done; intros [_ ->]; done.
  - split_and!; try done.
    all: destruct (a =? i64_min) eqn:E1, (b =? -1) eqn:E2; bool_to_prop; simpl; split; try done; tauto.
Qed.

(** Panic codes are stable: every code survives the trip through the FFI
    number, prints its own number, and any number that is not a code becomes the
    internal-error code. *)
Lemma panic_codes_stable v c :
  from_ffi (code_value c) = c /\
  code_as_str c = "E0" +:+ pretty (code_value c) /\ c ∈ all_codes /\
  (v ∉ (code_value <$> all_codes) -> from_ffi v = InternalRuntime).
Proof.
  split; [by destruct c|]. split; [by destruct c; vm_compute|]. split.
  - unfold all_codes. destruct c; set_solver.
  - intros Hv. unfold from_ffi.
    repeat match goal with |- context [v =? ?n] => destruct (v =? n) eqn:?; bool_to_prop end; try done;
      exfalso; apply Hv; subst; vm_compute; set_solver.
Qed.
