(* ===== verification/Str.v ===== *)
(** * Strings ([src/src/string.rs])

    A text is its list of Unicode scalar values; [utf8] is its encoding, the bytes a
    [String] holds.  C strings in valid UTF-8 pass [to_string_lossy] unchanged, so
    the operations take texts ([option] where null is accepted).  Operations that
    Rust's [str] performs on bytes ([cmp], [find]) are defined on bytes here, and
    the theorems relate them to characters.  Case mapping tables are not modelled. *)

From S2P Require Import Prelude AssocList Value.

Definition text : Type := list Z.

(** ** UTF-8 *)

Definition is_scalar (c : Z) : bool := in_range 0 55295 c || in_range 57344 1114111 c.

Definition utf8_char (c : Z) : list Z :=
  if c <? 128 then [c]
  else if c <? 2048 then [192 + c / 64; 128 + c mod 64]
  else if c <? 65536 then [224 + c / 4096; 128 + c / 64 mod 64; 128 + c mod 64]
  else [240 + c / 262144; 128 + c / 4096 mod 64; 128 + c / 64 mod 64; 128 + c mod 64].

Definition utf8 (s : text) : list Z := flat_map utf8_char s.

(** ** Characters *)

Definition char_from_int (v : Z) : option Z :=
  if in_range 0 (2 ^ 32 - 1) v && is_scalar v then Some v else None.

Definition mux_char_to_int (c : Z) : result Z string :=
  match char_from_int c with
  | Some ch => if in_range 48 57 ch then Ok (ch - 48) else Err "Character is not a digit (0-9)"
  | None => Err "Invalid character"
  end.

Definition mux_char_to_codepoint (c : Z) : Z := match char_from_int c with Some _ => c | None => -1 end.

(** A C string cannot hold a NUL: the result is empty instead. *)
Definition owned_cstr (s : text) : text := if existsb (Z.eqb 0) s then [] else s.

(** [mux_char_to_string]: null for the NUL character. *)
Definition mux_char_to_string (c : Z) : option text :=
  match char_from_int c with
  | Some ch => if ch =? 0 then None else Some [ch]
  | None => Some []
  end.

Definition mux_string_to_char (s : text) : result Z string :=
  match s with [c] => Ok c | _ => Err "String must be exactly one character" end.

Definition borrowed_str (s : option text) : text := match s with Some t => t | None => [] end.

(** ** Length, comparison, concatenation *)

Definition mux_string_length (s : text) : Z := as_i64 (Z.of_nat (length s)).

Definition mux_string_concat (a b : text) : text := a ++ b.

(** [str::cmp] compares bytes. *)
Definition MuxString_compare (a b : text) : Z :=
  match lex_cmp Z.compare (utf8 a) (utf8 b) with Lt => -1 | Eq => 0 | Gt => 1 end.

Definition mux_string_compare (a b : option text) : Z :=
  match a, b with
  | None, None => 0
  | None, Some _ => -1
  | Some _, None => 1
  | Some a, Some b => MuxString_compare a b
  end.

Definition mux_string_equal (a b : option text) : Z :=
  match a, b with
  | Some a, Some b => if list_eqb Z.eqb (utf8 a) (utf8 b) then 1 else 0
  | None, None => 1
  | _, _ => 0
  end.
Definition mux_string_not_equal (a b : option text) : Z := if mux_string_equal a b =? 1 then 0 else 1.

(** ** Positions *)

Definition normalized_char_index (index : Z) (count : nat) : option nat :=
  let index :=
    if index <? 0 then (let i := Z.of_nat count - Z.abs index in if i <? 0 then None else Some i)
    else Some index in
  match index with
  | Some i => if i <? Z.of_nat count then Some (Z.to_nat i) else None
  | None => None
  end.

Definition char_at_index (s : text) (index : Z) : option Z :=
  match normalized_char_index index (length s) with Some i => s !! i | None => None end.

Definition mux_string_char_at (s : option text) (index : Z) : value :=
  match s with None => VOptional None | Some s => VOptional (VInt <$> char_at_index s index) end.

Definition slice_bounds (count : nat) (start stop : Z) : nat * nat :=
  let resolve (index : Z) : Z :=
    if index <? 0 then Z.max (Z.of_nat count - Z.abs index) 0 else Z.min index (Z.of_nat count) in
  let from := resolve start in
  let to := resolve stop in
  (Z.to_nat from, Z.to_nat (Z.max to from)).

Definition slice_text (s : text) (start stop : Z) : text :=
  let '(from, to) := slice_bounds (length s) start stop in take (to - from) (drop from s).

Definition mux_string_slice (s : option text) (start stop : Z) : text :=
  owned_cstr (slice_text (borrowed_str s) start stop).

Definition mux_string_to_list (s : option text) : value := VList (VInt <$> borrowed_str s).

(** ** Searching *)

Fixpoint is_prefix (p s : list Z) : bool :=
  match p, s with
  | [], _ => true
  | x :: p, y :: s => (x =? y) && is_prefix p s
  | _, [] => false
  end.

(** First position at which [p] occurs in [s]. *)
Fixpoint find_sub (p s : list Z) : option nat :=
  if is_prefix p s then Some 0%nat
  else match s with
       | [] => None
       | _ :: r => match find_sub p r with Some i => Some (S i) | None => None end
       end.

(** [str::find] answers a byte offset. *)
Definition str_find (s needle : text) : option nat := find_sub (utf8 needle) (utf8 s).

(** [text[..offset].chars().count()]: the characters encoded in the first bytes. *)
Fixpoint chars_before (s : text) (offset : nat) : nat :=
  match s with
  | [] => 0%nat
  | c :: r =>
      let n := length (utf8_char c) in
      if (offset <? n)%nat then 0%nat else S (chars_before r (offset - n))
  end.

Definition mux_string_index_of (s needle : option text) : Z :=
  match str_find (borrowed_str s) (borrowed_str needle) with
  | Some offset => Z.of_nat (chars_before (borrowed_str s) offset)
  | None => -1
  end.

Definition mux_string_contains (s needle : text) : bool :=
  match str_find s needle with Some _ => true | None => false end.
Definition mux_string_contains_char (s : text) (needle : Z) : bool :=
  match char_from_int needle with Some ch => existsb (Z.eqb ch) s | None => false end.
Definition mux_string_starts_with (s prefix : option text) : bool :=
  is_prefix (utf8 (borrowed_str prefix)) (utf8 (borrowed_str s)).
Definition mux_string_ends_with (s suffix : option text) : bool :=
  is_prefix (rev (utf8 (borrowed_str suffix))) (rev (utf8 (borrowed_str s))).

(** ** Splitting and replacing *)

(** [str::split] with a non-empty separator: leftmost matches, not overlapping.
    Each round consumes the separator, so the length of the text is enough fuel. *)
Fixpoint split_on (fuel : nat) (sep s : text) : list text :=
  match fuel with
  | O => [s]
  | S fuel =>
      match find_sub sep s with
      | None => [s]
      | Some i => take i s :: split_on fuel sep (drop (i + length sep) s)
      end
  end.

Definition split_text (s sep : text) : list text :=
  match sep with [] => (fun c => [c]) <$> s | _ => split_on (S (length s)) sep s end.

Definition mux_string_split (s sep : option text) : list text :=
  split_text (borrowed_str s) (borrowed_str sep).

(** [str::replace]: copy up to each match, then the replacement. *)
Fixpoint replace_on (fuel : nat) (from to s : text) : text :=
  match fuel with
  | O => s
  | S fuel =>
      match find_sub from s with
      | None => s
      | Some i => take i s ++ to ++ replace_on fuel from to (drop (i + length from) s)
      end
  end.

Definition mux_string_replace (s from to : option text) : text :=
  let t := borrowed_str s in
  match borrowed_str from with
  | [] => owned_cstr t
  | needle => owned_cstr (replace_on (S (length t)) needle (borrowed_str to) t)
  end.

(** ** Parsing *)

(** [char::is_whitespace]. *)
Definition is_whitespace (c : Z) : bool :=
  in_range 9 13 c || (c =? 32) || (c =? 133) || (c =? 160) || (c =? 5760) || in_range 8192 8202 c ||
  (c =? 8232) || (c =? 8233) || (c =? 8239) || (c =? 8287) || (c =? 12288).

Fixpoint trim_start (s : text) : text :=
  match s with c :: r => if is_whitespace c then trim_start r else s | [] => [] end.
Definition trim (s : text) : text := rev (trim_start (rev (trim_start s))).
Definition mux_string_trim (s : option text) : text := owned_cstr (trim (borrowed_str s)).

Definition to_ascii_lowercase (c : Z) : Z := if in_range 65 90 c then c + 32 else c.

Definition to_bool (s : text) : result bool string :=
  let t := to_ascii_lowercase <$> trim s in
  if list_eqb Z.eqb t [116; 114; 117; 101] then Ok true
  else if list_eqb Z.eqb t [102; 97; 108; 115; 101] then Ok false
  else Err "Invalid bool: expected true or false".

Definition mux_string_to_bool (s : option text) : value :=
  match s with
  | None => VResult (Err (VString "null input"))
  | Some t => VResult (match to_bool t with Ok b => Ok (VBool b) | Err e => Err (VString e) end)
  end.

(** [char::to_digit]. *)
Definition to_digit (radix c : Z) : option Z :=
  let d := if in_range 48 57 c then c - 48
           else if in_range 97 122 c then c - 87
           else if in_range 65 90 c then c - 55 else 99 in
  if d <? radix then Some d else None.

(** The digit loop of [i64::from_str_radix]: checked on every step, downwards for a
    negative number. *)
Fixpoint parse_digits (radix sign : Z) (s : text) (acc : Z) : option Z :=
  match s with
  | [] => Some acc
  | c :: r =>
      match to_digit radix c with
      | None => None
      | Some d =>
          let m := acc * radix in
          if in_range i64_min i64_max m && in_range i64_min i64_max (m + sign * d)
          then parse_digits radix sign r (m + sign * d) else None
      end
  end.

Definition from_str_radix (radix : Z) (s : text) : option Z :=
  match s with
  | [] => None
  | c :: r =>
      if c =? 45 then (match r with [] => None | _ => parse_digits radix (-1) r 0 end)
      else if c =? 43 then (match r with [] => None | _ => parse_digits radix 1 r 0 end)
      else parse_digits radix 1 s 0
  end.

Definition to_int (s : text) : result Z string :=
  match from_str_radix 10 s with Some i => Ok i | None => Err "Invalid integer" end.

Definition mux_string_to_int (s : text) : value :=
  VResult (match to_int s with Ok i => Ok (VInt i) | Err e => Err (VString e) end).

Definition strip_radix (s : text) : text * Z :=
  match s with
  | 48 :: 98 :: r => (r, 2)
  | 48 :: 111 :: r => (r, 8)
  | 48 :: 120 :: r => (r, 16)
  | _ => (s, 10)
  end.

Inductive byte_error : Type := NullInput | OutOfRange (v : Z) | InvalidLiteral (digits : text).

Definition mux_string_to_byte (s : option text) : result Z byte_error :=
  match s with
  | None => Err NullInput
  | Some s =>
      let trimmed := trim s in
      let '(digits, radix) := strip_radix trimmed in
      match from_str_radix radix digits with
      | Some v => if in_range 0 255 v then Ok v else Err (OutOfRange v)
      | None => Err (InvalidLiteral trimmed)
      end
  end.

(** ** [int.rs]: printing *)

(** Decimal digits of a non-negative number; twenty rounds are enough for 64 bits. *)
Fixpoint decimal (fuel : nat) (n : Z) : text :=
  match fuel with
  | O => []
  | S fuel => if n <? 10 then [48 + n] else decimal fuel (n / 10) ++ [48 + n mod 10]
  end.

Definition mux_int_to_string (i : Z) : text :=
  if i <? 0 then 45 :: decimal 20 (- i) else decimal 20 i.

(** * Properties of strings

    UTF-8 is a self-synchronising prefix code whose byte order is the code-point
    order; hence comparison and searching, which [str] performs on bytes, answer in
    characters.  Splitting and joining are inverse, replacing is splitting and
    joining, and every 64-bit integer survives printing and parsing. *)

Definition scalar (c : Z) : Prop := is_scalar c = true.

(** Continuation bytes. *)
Definition cont (b : Z) : Prop := 128 <= b < 192.

(** ** UTF-8 *)

Lemma scalar_range c : scalar c -> 0 <= c <= 1114111.
Proof. unfold scalar, is_scalar. rewrite orb_true_iff, !in_range_true. lia. Qed.

(** A lead byte and its continuation bytes. *)
Lemma utf8_char_shape c : scalar c ->
  exists b t, utf8_char c = b :: t /\ ~ cont b /\ Forall cont t.
Proof.
  intros Hc%scalar_range. unfold utf8_char, cont.
  repeat case_match; bool_to_prop; eexists _, _; (split; [reflexivity|split]);
    repeat constructor; Z.to_euclidean_division_equations; lia.
Qed.

Lemma lex_cmp_app_same (p x y : list Z) : lex_cmp Z.compare (p ++ x) (p ++ y) = lex_cmp Z.compare x y.
Proof. induction p as [|a p IH]; simpl; [done|]. by rewrite Z.compare_refl. Qed.

Lemma lex_cmp_head b c (x y : list Z) : b < c -> lex_cmp Z.compare (b :: x) (c :: y) = Lt.
Proof. intros H. simpl. by rewrite (proj2 (Z.compare_lt_iff b c) H). Qed.

Lemma lex_cmp_next b c (x y : list Z) :
  b = c -> lex_cmp Z.compare (b :: x) (c :: y) = lex_cmp Z.compare x y.
Proof. intros ->. simpl. by rewrite Z.compare_refl. Qed.

(** Byte order is code-point order, whatever follows. *)
Lemma utf8_char_lt c d x y : scalar c -> scalar d -> c < d ->
  lex_cmp Z.compare (utf8_char c ++ x) (utf8_char d ++ y) = Lt.
Proof.
  intros Hc%scalar_range Hd%scalar_range Hlt. unfold utf8_char.
  repeat case_match; bool_to_prop; cbn [app]; try lia;
    repeat match goal with
    | |- lex_cmp _ (?b :: _) (?c :: _) = Lt =>
        destruct (Z.lt_trichotomy b c) as [?|[?|?]];
        [by apply lex_cmp_head|rewrite lex_cmp_next by done
        |exfalso; Z.to_euclidean_division_equations; lia]
    end; exfalso; Z.to_euclidean_division_equations; lia.
Qed.

Lemma Zlex_ord : ord_on (Forall (fun _ => True)) (lex_cmp Z.compare).
Proof.
  apply lex_cmp_ord. split.
  - intros. apply Z.compare_refl.
  - intros. apply Z.compare_antisym.
  - intros a b c _ _ _ ->%Z.compare_eq. done.
  - intros a b c _ _ _. rewrite !Z.compare_lt_iff. lia.
Qed.

Lemma Forall_any {A} (l : list A) : Forall (fun _ => True) l.
Proof. by apply Forall_true. Qed.

(** The order of two encoded texts is the order of their characters. *)
Lemma utf8_lex s t : Forall scalar s -> Forall scalar t ->
  lex_cmp Z.compare (utf8 s) (utf8 t) = lex_cmp Z.compare s t.
Proof.
  intros Hs. revert t. induction Hs as [|c s Hc Hs IH]; intros t Ht.
  - destruct Ht as [|d t Hd _]; [done|]. destruct (utf8_char_shape d Hd) as (b & u & E & _).
    simpl. by rewrite E.
  - destruct Ht as [|d t Hd Ht].
    + destruct (utf8_char_shape c Hc) as (b & u & E & _). simpl. by rewrite E.
    + cbn [utf8 flat_map lex_cmp]. destruct (Z.compare_spec c d) as [->|Hlt|Hlt].
      * rewrite lex_cmp_app_same. by apply IH.
      * by apply utf8_char_lt.
      * apply (ord_gt_lt _ _ _ _ Zlex_ord); [apply Forall_any..|]. by apply utf8_char_lt.
Qed.

Lemma utf8_app s t : utf8 (s ++ t) = utf8 s ++ utf8 t.
Proof. apply flat_map_app. Qed.

(** Prefix code: equal encodings begin with the same character. *)
Lemma utf8_char_prefix c d x y : scalar c -> scalar d ->
  utf8_char c ++ x = utf8_char d ++ y -> c = d /\ x = y.
Proof.
  intros Hc Hd E. destruct (Z.lt_trichotomy c d) as [Hlt|[->|Hlt]].
  - pose proof (utf8_char_lt c d x y Hc Hd Hlt) as H. rewrite E in H.
    by rewrite (ord_refl _ _ Zlex_ord) in H by apply Forall_any.
  - split; [done|]. by apply app_inv_head in E.
  - pose proof (utf8_char_lt d c y x Hd Hc Hlt) as H. rewrite E in H.
    by rewrite (ord_refl _ _ Zlex_ord) in H by apply Forall_any.
Qed.

Lemma utf8_prefix p s v : Forall scalar p -> Forall scalar s ->
  utf8 s = utf8 p ++ v -> exists post, s = p ++ post /\ v = utf8 post.
Proof.
  intros Hp. revert s. induction Hp as [|c p Hc Hp IH]; intros s Hs E.
  { by exists s. }
  destruct Hs as [|d s Hd Hs].
  - destruct (utf8_char_shape c Hc) as (b & u & E' & _). simpl in E. by rewrite E' in E.
  - cbn [utf8 flat_map] in E. rewrite <- app_assoc in E.
    apply utf8_char_prefix in E as [-> E]; [|done..].
    destruct (IH s Hs E) as (post & -> & ->). by exists post.
Qed.

(** Self-synchronisation: an encoded text occurs in another only at character
    boundaries. *)
Lemma utf8_boundary p s w v : Forall scalar p -> Forall scalar s -> p <> [] ->
  utf8 s = w ++ utf8 p ++ v ->
  exists pre post, s = pre ++ p ++ post /\ w = utf8 pre /\ v = utf8 post.
Proof.
  intros Hp Hs Hne. revert w. induction Hs as [|d s Hd Hs IH]; intros w E.
  - destruct Hp as [|c p Hc _]; [done|]. destruct (utf8_char_shape c Hc) as (b & u & E' & _).
    simpl in E. rewrite E' in E. by destruct w.
  - destruct w as [|b w].
    + destruct (utf8_prefix p (d :: s) v Hp ltac:(by constructor) E) as (post & Es & Ev).
      by exists [], post.
    + cbn [utf8 flat_map] in E. destruct (app_eq_inv _ _ _ _ E) as [(r & Er & E2)|(r & Er & E2)].
      * destruct r as [|x r].
        { destruct (IH [] (eq_sym E2)) as (pre & post & -> & Hn & ->).
          exists (d :: pre), post. split; [done|]. change (utf8 (d :: pre)) with (utf8_char d ++ utf8 pre).
          by rewrite <- Hn, Er, !app_nil_r. }
        exfalso. destruct Hp as [|c p Hc _]; [done|].
        destruct (utf8_char_shape c Hc) as (b1 & u & E1 & Hb & _).
        destruct (utf8_char_shape d Hd) as (b2 & u2 & Ed & _ & Hu).
        simpl in E2. rewrite E1 in E2. simplify_eq/=. rewrite Ed in Er. simplify_eq/=.
        apply Forall_app in Hu as [_ Hu]. by inversion Hu.
      * destruct (IH _ E2) as (pre & post & -> & -> & ->).
        exists (d :: pre), post. split; [done|].
        change (utf8 (d :: pre)) with (utf8_char d ++ utf8 pre). by rewrite Er.
Qed.

(** ** Occurrences *)

Lemma is_prefix_spec p s : is_prefix p s = true <-> exists post, s = p ++ post.
Proof.
  revert s. induction p as [|x p IH]; intros s; [by split; eauto|].
  destruct s as [|y s]; simpl; [split; [done|]; by intros []|].
  rewrite andb_true_iff, Z.eqb_eq, IH. split.
  - intros [-> [post ->]]. by exists post.
  - intros [post [= -> ->]]. eauto.
Qed.

(** Every occurrence of [p] in [s] begins at [k] or later, and one begins at [k]. *)
Definition first_at (p s : list Z) (k : nat) : Prop :=
  (exists pre post, s = pre ++ p ++ post /\ length pre = k) /\
  forall pre post, s = pre ++ p ++ post -> (k <= length pre)%nat.

Definition absent (p s : list Z) : Prop := forall pre post, s <> pre ++ p ++ post.

Lemma find_sub_spec p s :
  match find_sub p s with Some k => first_at p s k | None => absent p s end.
Proof.
  induction s as [|a s IH]; cbn [find_sub].
  - destruct (is_prefix p []) eqn:E.
    + apply is_prefix_spec in E as [post E]. split; [by exists [], post|lia].
    + intros [|] post E'; [|done].
      rewrite (proj2 (is_prefix_spec p [])) in E; [done|by exists post].
  - destruct (is_prefix p (a :: s)) eqn:E.
    + apply is_prefix_spec in E as [post E]. split; [by exists [], post|lia].
    + assert (forall post, a :: s <> p ++ post) as Hno.
      { intros post Ep. rewrite (proj2 (is_prefix_spec p _)) in E; [done|by exists post]. }
      destruct (find_sub p s) as [k|].
      * destruct IH as [(pre & post & -> & <-) Hmin]. split; [by exists (a :: pre), post|].
        intros [|x pre'] post' E'; [by apply Hno in E'|]. simplify_eq/=.
        apply le_n_S. by eapply Hmin.
      * intros [|x pre'] post' E'; [by apply Hno in E'|]. simplify_eq/=. by eapply IH.
Qed.

(** A prefix with fewer bytes has fewer characters. *)
Lemma utf8_prefix_length s pre1 post1 pre2 post2 : Forall scalar s ->
  s = pre1 ++ post1 -> s = pre2 ++ post2 ->
  (length (utf8 pre1) <= length (utf8 pre2))%nat -> (length pre1 <= length pre2)%nat.
Proof.
  intros Hs -> E Hle. destruct (app_eq_inv _ _ _ _ E) as [(r & -> & _)|(r & -> & _)].
  - destruct r as [|c r]; [by rewrite app_nil_r|]. exfalso.
    rewrite Forall_app in Hs. destruct Hs as [Hs _].
    apply Forall_app in Hs as [_ Hs]. inversion Hs as [|? ? Hc _]; subst.
    destruct (utf8_char_shape c Hc) as (b & u & Ec & _).
    rewrite utf8_app, length_app in Hle. simpl in Hle. rewrite Ec in Hle. simpl in Hle. lia.
  - rewrite length_app. lia.
Qed.

Lemma chars_before_prefix pre post : Forall scalar pre ->
  chars_before (pre ++ post) (length (utf8 pre)) = length pre.
Proof.
  induction 1 as [|c pre Hc Hp IH]; simpl.
  - destruct post as [|d post]; simpl; [done|].
    destruct (length (utf8_char d)) eqn:E; [|done].
    exfalso. revert E. unfold utf8_char. by repeat case_match.
  - rewrite length_app. rewrite (proj2 (Nat.ltb_ge _ _)) by lia.
    f_equal. rewrite <- IH. f_equal. lia.
Qed.

Lemma char_occurrence pre p post : utf8 (pre ++ p ++ post) = utf8 pre ++ utf8 p ++ utf8 post.
Proof. by rewrite !utf8_app. Qed.

(** The byte search finds exactly the first occurrence in characters. *)
Lemma str_find_spec s p : Forall scalar s -> Forall scalar p ->
  match str_find s p with
  | Some o => first_at p s (chars_before s o)
  | None => absent p s
  end.
Proof.
  intros Hs Hp. unfold str_find. destruct p as [|c p].
  { assert (find_sub (utf8 []) (utf8 s) = Some 0%nat) as -> by (by destruct (utf8 s)).
    change (chars_before s 0) with (chars_before ([] ++ s) (length (utf8 []))).
    rewrite chars_before_prefix by constructor.
    split; [by exists [], s|simpl; lia]. }
  pose proof (find_sub_spec (utf8 (c :: p)) (utf8 s)) as Hf.
  destruct (find_sub _ _) as [o|].
  - destruct Hf as [(w & v & E & <-) Hmin].
    destruct (utf8_boundary (c :: p) s w v Hp Hs ltac:(done) E) as (pre & post & -> & -> & ->).
    assert (Forall scalar pre) as Hpre by (by apply Forall_app in Hs as [? _]).
    rewrite chars_before_prefix by done. split; [by exists pre, post|].
    intros pre' post' E'. eapply (utf8_prefix_length _ _ _ _ _ Hs eq_refl E').
    eapply Hmin. rewrite E'. apply char_occurrence.
  - intros pre post ->. by apply (Hf (utf8 pre) (utf8 post)), char_occurrence.
Qed.

(** ** Splitting and joining *)

Fixpoint join (sep : text) (parts : list text) : text :=
  match parts with
  | [] => []
  | [p] => p
  | p :: r => p ++ sep ++ join sep r
  end.

Lemma join_cons sep p r : r <> [] -> join sep (p :: r) = p ++ sep ++ join sep r.
Proof. by destruct r. Qed.

Lemma split_on_nonempty fuel sep s : split_on fuel sep s <> [].
Proof. destruct fuel; simpl; [done|]. by destruct (find_sub sep s). Qed.

(** What the first match leaves on both sides. *)
Lemma first_at_cut sep s k : sep <> [] -> first_at sep s k ->
  s = take k s ++ sep ++ drop (k + length sep) s /\ absent sep (take k s) /\
  (length (drop (k + length sep) s) < length s)%nat.
Proof.
  intros Hne [(pre & post & -> & <-) Hmin].
  assert (take (length pre) (pre ++ sep ++ post) = pre) as Et by apply take_app_length.
  assert (drop (length pre + length sep) (pre ++ sep ++ post) = post) as Ed
    by (rewrite app_assoc, <- length_app; apply drop_app_length).
  rewrite Et, Ed. split; [done|]. split.
  - intros p q ->. specialize (Hmin p (q ++ sep ++ post) ltac:(by rewrite <- !app_assoc)).
    rewrite !length_app in Hmin. destruct sep; [done|]. simpl in Hmin. lia.
  - rewrite !length_app. destruct sep; [done|]. simpl. lia.
Qed.

Lemma split_on_spec sep fuel s : sep <> [] -> (length s < fuel)%nat ->
  join sep (split_on fuel sep s) = s /\ Forall (absent sep) (split_on fuel sep s) /\
  forall to, replace_on fuel sep to s = join to (split_on fuel sep s).
Proof.
  intros Hne. revert s. induction fuel as [|fuel IH]; intros s Hl; [lia|]. simpl.
  pose proof (find_sub_spec sep s) as Hf. destruct (find_sub sep s) as [k|].
  - destruct (first_at_cut sep s k Hne Hf) as (Es & Ha & Hlt).
    destruct (IH (drop (k + length sep) s) ltac:(lia)) as (Hj & Hall & Hr).
    split_and!; [|by constructor|].
    + rewrite join_cons by apply split_on_nonempty. by rewrite Hj.
    + intros to. rewrite join_cons by apply split_on_nonempty. by rewrite Hr.
  - split_and!; [done|by repeat constructor|done].
Qed.

(** ** Printing and parsing integers *)

Lemma parse_digits_app radix sign a b acc :
  parse_digits radix sign (a ++ b) acc =
  match parse_digits radix sign a acc with Some x => parse_digits radix sign b x | None => None end.
Proof.
  revert acc. induction a as [|c a IH]; intros acc; simpl; [done|].
  destruct (to_digit radix c) as [d|]; [|done]. by destruct (_ && _).
Qed.

Lemma to_digit_decimal d : 0 <= d < 10 -> to_digit 10 (48 + d) = Some d.
Proof.
  intros Hd. unfold to_digit. rewrite (proj2 (in_range_true 48 57 _)) by lia.
  replace (48 + d - 48) with d by lia. by rewrite (proj2 (Z.ltb_lt d 10)) by lia.
Qed.

Lemma parse_one_digit sign acc d : 0 <= d < 10 -> is_i64 (acc * 10) -> is_i64 (acc * 10 + sign * d) ->
  parse_digits 10 sign [48 + d] acc = Some (acc * 10 + sign * d).
Proof.
  intros Hd H1 H2. cbn [parse_digits]. rewrite to_digit_decimal by done.
  rewrite !(proj2 (in_range_true i64_min i64_max _)) by done. done.
Qed.

Lemma parse_decimal fuel sign n : (sign = 1 \/ sign = -1) -> 0 <= n < 10 ^ Z.of_nat fuel ->
  is_i64 (sign * n) -> parse_digits 10 sign (decimal fuel n) 0 = Some (sign * n).
Proof.
  intros Hs. revert n. induction fuel as [|fuel IH]; intros n Hn Hi.
  { simpl in *. f_equal. lia. }
  cbn [decimal]. destruct (n <? 10) eqn:E; bool_to_prop.
  - rewrite parse_one_digit; [f_equal; lia|lia|width|by rewrite Z.add_0_l].
  - rewrite Nat2Z.inj_succ, Z.pow_succ_r in Hn by lia.
    pose proof (Z.div_mod n 10 ltac:(lia)) as Hdm.
    pose proof (Z.mod_pos_bound n 10 ltac:(lia)) as Hm.
    rewrite parse_digits_app, IH; [|lia|destruct Hs; subst; width].
    rewrite parse_one_digit; [f_equal; destruct Hs; subst; lia|done|destruct Hs; subst; width|].
    replace (_ + _) with (sign * n) by (destruct Hs; subst; lia). done.
Qed.

Lemma decimal_head fuel n : 0 <= n -> exists c r, decimal (S fuel) n = c :: r /\ 48 <= c <= 57.
Proof.
  revert n. induction fuel as [|fuel IH]; intros n Hn.
  - cbn [decimal]. destruct (n <? 10) eqn:E; bool_to_prop; eexists _, _; (split; [done|]);
      Z.to_euclidean_division_equations; lia.
  - change (decimal (S (S fuel)) n)
      with (if n <? 10 then [48 + n] else decimal (S fuel) (n / 10) ++ [48 + n mod 10]).
    destruct (n <? 10) eqn:E; bool_to_prop; [eexists _, _; split; [done|lia]|].
    destruct (IH (n / 10)) as (c & r & -> & Hc); [Z.to_euclidean_division_equations; lia|].
    eexists _, _. split; [done|lia].
Qed.

(** Prefixes and suffixes are those of the characters. *)
Lemma string_affixes (s p : text) :
  Forall scalar s -> Forall scalar p ->
  (mux_string_starts_with (Some s) (Some p) = true <-> exists post, s = p ++ post) /\
  (mux_string_ends_with (Some s) (Some p) = true <-> exists pre, s = pre ++ p).
Proof.
  intros Hs Hp. unfold mux_string_starts_with, mux_string_ends_with, borrowed_str.
  rewrite !is_prefix_spec. split; split.
  - intros [v E]. destruct (utf8_prefix p s v Hp Hs E) as (post & -> & _). by exists post.
  - intros [post ->]. exists (utf8 post). by rewrite utf8_app.
  - intros [v E]. apply (f_equal (@rev Z)) in E. rewrite rev_app_distr, !rev_involutive in E.
    destruct (decide (p = [])) as [->|Hne]; [exists s; by rewrite app_nil_r|].
    rewrite <- (app_nil_r (utf8 p)) in E.
    destruct (utf8_boundary p s _ _ Hp Hs Hne E) as (pre & post & -> & _ & Hn).
    destruct post as [|c post]; [exists pre; by rewrite app_nil_r|]. exfalso.
    rewrite !Forall_app in Hs. destruct Hs as (_ & _ & Hs). inversion Hs as [|? ? Hc _]; subst.
    destruct (utf8_char_shape c Hc) as (b & u & Ec & _). simpl in Hn. by rewrite Ec in Hn.
  - intros [pre ->]. exists (rev (utf8 pre)). by rewrite utf8_app, rev_app_distr.
Qed.

(** ** The properties *)

(** String comparison, which compares UTF-8 bytes, orders texts by their code
    points, null before any text; it is a total order, and equality of strings is
    its zero. *)
Lemma string_compare_codepoints (s t : text) :
  Forall scalar s -> Forall scalar t ->
  mux_string_compare (Some s) (Some t) =
    match lex_cmp Z.compare s t with Lt => -1 | Eq => 0 | Gt => 1 end /\
  mux_string_compare (Some t) (Some s) = - mux_string_compare (Some s) (Some t) /\
  (mux_string_compare (Some s) (Some t) = 0 <-> s = t) /\
  (mux_string_equal (Some s) (Some t) = 1 <-> s = t) /\
  mux_string_compare None (Some s) = -1.
Proof.
  intros Hs Ht.
  assert (forall a b : text, lex_cmp Z.compare a b = Eq <-> a = b) as Heq.
  { intros a b. rewrite lex_cmp_eq. split.
    - induction 1 as [|x y a' b' E _ IH]; [done|]. apply Z.compare_eq in E. by subst.
    - intros ->. induction b; constructor; [apply Z.compare_refl|done]. }
  unfold mux_string_compare, MuxString_compare, mux_string_equal. rewrite !utf8_lex by done.
  rewrite (ord_opp _ _ Zlex_ord s t) by apply Forall_any.
  split_and!; [done|by destruct (lex_cmp _ s t)| | |done].
  - rewrite <- (Heq s t). by destruct (lex_cmp _ s t).
  - assert (list_eqb Z.eqb (utf8 s) (utf8 t) = true <-> s = t) as Hb.
    { rewrite <- (Heq s t), <- utf8_lex, Heq by done. generalize (utf8 s), (utf8 t). clear.
      intros a. induction a as [|x a IH]; intros [|y b]; simpl; try done.
      rewrite andb_true_iff, Z.eqb_eq, IH. split; [by intros [-> ->]|by intros [= -> ->]]. }
    rewrite <- Hb. by destruct (list_eqb _ _ _).
Qed.

(** Searching, done on UTF-8 bytes, answers in characters: [index_of] is the
    index of the first character at which the needle occurs and -1 exactly when it
    does not occur; [contains], [starts_with] and [ends_with] hold exactly for
    sub-texts, prefixes and suffixes of the text. *)
Lemma string_search_characters (s p : text) :
  Forall scalar s -> Forall scalar p ->
  ((exists k, mux_string_index_of (Some s) (Some p) = Z.of_nat k /\ first_at p s k /\
              mux_string_contains s p = true) \/
   (mux_string_index_of (Some s) (Some p) = -1 /\ absent p s /\ mux_string_contains s p = false)) /\
  (mux_string_starts_with (Some s) (Some p) = true <-> exists post, s = p ++ post) /\
  (mux_string_ends_with (Some s) (Some p) = true <-> exists pre, s = pre ++ p).
Proof.
  intros Hs Hp. split; [|by apply string_affixes]. unfold mux_string_index_of, mux_string_contains, borrowed_str.
  pose proof (str_find_spec s p Hs Hp) as Hf. destruct (str_find s p) as [o|]; [left; eauto|by right].
Qed.

(** Splitting on a non-empty separator cuts at its leftmost non-overlapping
    occurrences: joining the pieces with the separator gives back the text and no
    piece contains it; replacing is splitting on the pattern and joining with the
    replacement.  An empty separator splits into characters, and an empty pattern
    replaces nothing. *)
Lemma string_split_join (s sep to : text) :
  sep <> [] -> existsb (Z.eqb 0) (join to (mux_string_split (Some s) (Some sep))) = false ->
  join sep (mux_string_split (Some s) (Some sep)) = s /\
  Forall (absent sep) (mux_string_split (Some s) (Some sep)) /\
  mux_string_replace (Some s) (Some sep) (Some to) = join to (mux_string_split (Some s) (Some sep)) /\
  concat (mux_string_split (Some s) None) = s /\
  mux_string_replace (Some s) None (Some to) = owned_cstr s.
Proof.
  intros Hne Hnul. unfold mux_string_split, mux_string_replace, split_text, borrowed_str in *.
  destruct sep as [|c sep]; [done|].
  destruct (split_on_spec (c :: sep) (S (length s)) s Hne ltac:(lia)) as (Hj & Hall & Hr).
  split_and!; [done|done| | |done].
  - rewrite Hr. unfold owned_cstr. by rewrite Hnul.
  - clear. induction s as [|c s IH]; csimpl; [done|]. by rewrite IH.
Qed.

(** Every 64-bit integer, the smallest one included, survives printing and
    parsing; the printed text is what [to_int] accepts back. *)
Lemma int_print_parse (i : Z) : is_i64 i -> to_int (mux_int_to_string i) = Ok i.
Proof.
  intros Hi. unfold to_int, mux_int_to_string.
  assert (10 ^ Z.of_nat 20 = 100000000000000000000) as Hp by reflexivity.
  destruct (i <? 0) eqn:E; bool_to_prop; unfold from_str_radix.
  - assert (0 <= - i < 10 ^ Z.of_nat 20) as Hr by (rewrite Hp; width).
    destruct (decimal_head 19 (- i) ltac:(lia)) as (c & r & Ed & _). rewrite Z.eqb_refl, Ed.
    rewrite <- Ed, parse_decimal; [|by right|done|width]. repeat f_equal. lia.
  - assert (0 <= i < 10 ^ Z.of_nat 20) as Hr by (rewrite Hp; width).
    destruct (decimal_head 19 i ltac:(lia)) as (c & r & Ed & Hc). rewrite Ed.
    rewrite (proj2 (Z.eqb_neq c 45)), (proj2 (Z.eqb_neq c 43)) by lia.
    rewrite <- Ed, parse_decimal; [|by left|done|width]. repeat f_equal. lia.
Qed.
