(* ===== verification/Lts.v ===== *)
(** * Interleavings

    A concurrent component is a configuration and a partial step function on labels:
    a label names the thread that runs one atomic section and resolves what the
    scheduler, the clock or the condition variable decides.  [reachable] closes the
    initial configuration under steps.  Also here: counting the threads of a
    configuration that satisfy a test. *)

From S2P Require Import Prelude.

Definition tid : Type := nat.

Section Lts.
Context {C L : Type} (step : L -> C -> option C).

Inductive reachable (c0 : C) : C -> Prop :=
| reach_start : reachable c0 c0
| reach_step c l c' : reachable c0 c -> step l c = Some c' -> reachable c0 c'.

(** A given schedule. *)
Fixpoint run (ls : list L) (c : C) : option C :=
  match ls with
  | [] => Some c
  | l :: r => match step l c with Some c' => run r c' | None => None end
  end.

(** No label outside [ignored] is enabled. *)
Definition stuck (ignored : L -> Prop) (c : C) : Prop :=
  forall l c', step l c = Some c' -> ignored l.

Lemma reachable_trans a b c : reachable a b -> reachable b c -> reachable a c.
Proof. intros Hab. induction 1; [done|]. by eapply reach_step. Qed.

Lemma run_reachable ls c c' : run ls c = Some c' -> reachable c c'.
Proof.
  revert c. induction ls as [|l ls IH]; intros c E; simpl in E.
  - simplify_eq. constructor.
  - destruct (step l c) as [c1|] eqn:E1; [|done].
    eapply reachable_trans; [|by apply IH]. by eapply reach_step; [constructor|].
Qed.

(** Invariants. *)
Lemma reachable_inv (I : C -> Prop) c0 :
  I c0 -> (forall l c c', I c -> step l c = Some c' -> I c') -> forall c, reachable c0 c -> I c.
Proof. intros H0 Hs c. induction 1; eauto. Qed.

End Lts.

(** ** Threads *)

Section Threads.
Context {T : Type} `{Countable T} {P : Type}.

(** How many threads are at a program point satisfying [p]. *)
Definition count (p : P -> bool) (m : gmap T P) : Z :=
  Z.of_nat (size (filter (fun e : T * P => p e.2 = true) m)).

Lemma count_nonneg p m : 0 <= count p m.
Proof. unfold count. lia. Qed.

Lemma count_add p m t x : m !! t = None -> count p (<[t := x]> m) = count p m + Z.b2z (p x).
Proof.
  intros Hn. unfold count. destruct (p x) eqn:E; simpl.
  - rewrite map_filter_insert_True by done. rewrite map_size_insert_None; [lia|]. by apply map_lookup_filter_None_2; left.
  - rewrite map_filter_insert_False by (simpl; congruence). rewrite delete_id by done. lia.
Qed.

Lemma count_delete p m t x : m !! t = Some x -> count p (delete t m) = count p m - Z.b2z (p x).
Proof.
  intros Hx. rewrite <- (insert_delete_id m t x Hx) at 2. rewrite count_add by apply lookup_delete_eq. lia.
Qed.

Lemma count_insert p m t old x : m !! t = Some old ->
  count p (<[t := x]> m) = count p m - Z.b2z (p old) + Z.b2z (p x).
Proof.
  intros Ht. rewrite <- (insert_delete_eq m t x), count_add by apply lookup_delete_eq. by erewrite count_delete.
Qed.

Lemma count_size p m : count p m <= Z.of_nat (size m).
Proof. unfold count. apply Nat2Z.inj_le, map_subseteq_size, map_filter_subseteq. Qed.

Lemma count_pos p m : 0 < count p m <-> exists t x, m !! t = Some x /\ p x = true.
Proof.
  unfold count. split.
  - intros Hp. destruct (map_choose (filter (fun e : T * P => p e.2 = true) m)) as (t & x & Hx).
    { intros E. rewrite E, map_size_empty in Hp. lia. }
    apply map_lookup_filter_Some in Hx as [? ?]. eauto.
  - intros (t & x & Hx & Hpx).
    destruct (size (filter (fun e : T * P => p e.2 = true) m)) eqn:E; [|lia].
    apply map_size_empty_inv in E.
    assert (filter (fun e : T * P => p e.2 = true) m !! t = Some x) as Hf
      by by apply map_lookup_filter_Some.
    by rewrite E, lookup_empty in Hf.
Qed.

Lemma count_zero p m : count p m = 0 <-> forall t x, m !! t = Some x -> p x = false.
Proof.
  pose proof (count_nonneg p m). split.
  - intros E t x Hx. destruct (p x) eqn:Ep; [|done].
    assert (0 < count p m) by (apply count_pos; eauto). lia.
  - intros Hn. destruct (decide (0 < count p m)) as [Hp|]; [|lia].
    apply count_pos in Hp as (t & x & Hx & Ep). rewrite (Hn t x Hx) in Ep. done.
Qed.

Lemma count_zero_insert p m t x : count p m = 0 -> p x = false -> count p (<[t := x]> m) = 0.
Proof.
  rewrite !count_zero. intros Hm Hx t' y. destruct (decide (t' = t)) as [->|Hne].
  - rewrite lookup_insert_eq. by intros [= <-].
  - rewrite lookup_insert_ne by done. apply Hm.
Qed.

Lemma count_pos_insert p m t x : 0 < count p (<[t := x]> m) -> p x = true \/ 0 < count p m.
Proof.
  rewrite !count_pos. intros (t' & y & Hy & Hp). destruct (decide (t' = t)) as [->|Hne].
  - rewrite lookup_insert_eq in Hy. simplify_eq. by left.
  - rewrite lookup_insert_ne in Hy by done. right. eauto.
Qed.

Lemma count_replicate p (ts : list T) x : p x = false ->
  count p (list_to_map ((fun t => (t, x)) <$> ts)) = 0.
Proof.
  intros Hx. apply count_zero. intros t y Hy. apply elem_of_list_to_map_2 in Hy.
  apply list_elem_of_fmap in Hy as (t' & [= -> ->] & _). done.
Qed.

End Threads.

(** [Condvar::notify_all]: every thread the test selects moves. *)
Lemma count_fmap {T} `{Countable T} {P Q} (p : Q -> bool) (f : P -> Q) (m : gmap T P) : count p (f <$> m) = count (fun x => p (f x)) m.
Proof.
  induction m as [|t x m Hn IH] using map_ind; [done|].
  rewrite fmap_insert. unfold count in *.
  destruct (p (f x)) eqn:E.
  - rewrite !map_filter_insert_True by done. rewrite !map_size_insert_None; [lia|..].
    + by apply map_lookup_filter_None_2; left.
    + apply map_lookup_filter_None_2; left. by rewrite lookup_fmap, Hn.
  - rewrite !map_filter_insert_False by (simpl; congruence).
    rewrite !delete_id; [done|done|]. by rewrite lookup_fmap, Hn.
Qed.

Lemma count_ext {T} `{Countable T} {P} (p q : P -> bool) (m : gmap T P) : (forall x, p x = q x) -> count p m = count q m.
Proof. intros E. unfold count. do 2 f_equal. apply map_filter_ext. intros t x _. cbn. by rewrite E. Qed.

#[export] Hint Resolve count_nonneg : mux.

(** ** Sums over threads *)

Section Totals.
Context {T : Type} `{Countable T} {P : Type}.
Implicit Types (f g : P -> Z) (m : gmap T P).

Definition total f m : Z := map_fold (fun _ x acc => f x + acc) 0 m.

Lemma total_add f m t x : m !! t = None -> total f (<[t := x]> m) = f x + total f m.
Proof. intros Hn. unfold total. rewrite map_fold_insert_L; [done| |done]. intros. lia. Qed.

Lemma total_delete f m t x : m !! t = Some x -> total f (delete t m) = total f m - f x.
Proof. intros Hx. rewrite <- (insert_delete_id m t x Hx) at 2. rewrite total_add by apply lookup_delete_eq. lia. Qed.

Lemma total_set f m t x y : m !! t = Some x -> total f (<[t := y]> m) = total f m - f x + f y.
Proof. intros Hx. rewrite <- (insert_delete_eq m t y), total_add by apply lookup_delete_eq. erewrite total_delete by done. lia. Qed.

Lemma total_nonneg f m : (forall t x, m !! t = Some x -> 0 <= f x) -> 0 <= total f m.
Proof.
  induction m as [|t x m Hn IH] using map_ind; intros Hf; [done|]. rewrite total_add by done.
  assert (0 <= f x) by (apply (Hf t); apply lookup_insert_eq).
  assert (0 <= total f m); [|lia]. apply IH. intros t' x' Hx. apply (Hf t'). rewrite lookup_insert_ne; [done|congruence].
Qed.

Lemma total_le f g m : (forall t x, m !! t = Some x -> f x <= g x) -> total f m <= total g m.
Proof.
  induction m as [|t x m Hn IH] using map_ind; intros Hf; [done|]. rewrite !total_add by done.
  assert (f x <= g x) by (apply (Hf t); apply lookup_insert_eq).
  assert (total f m <= total g m); [|lia]. apply IH. intros t' x' Hx. apply (Hf t'). rewrite lookup_insert_ne; [done|congruence].
Qed.

Lemma total_ge f m t x : (forall y, 0 <= f y) -> m !! t = Some x -> f x <= total f m.
Proof.
  intros Hf Hx. rewrite <- (insert_delete_id m t x Hx), total_add by apply lookup_delete_eq.
  pose proof (total_nonneg f (delete t m) (fun _ y _ => Hf y)). lia.
Qed.
End Totals.

(** ** Occurrences in a list *)

Section Occurrences.
Context {A : Type} `{EqDecision A}.
Implicit Types (x y : A) (l : list A).

Definition same x y : bool := bool_decide (x = y).
Definition occ x l : Z := Z.of_nat (length (filter (fun y => x = y) l)).

Lemma occ_nil x : occ x [] = 0.
Proof. done. Qed.

Lemma occ_cons x y l : occ x (y :: l) = Z.b2z (same x y) + occ x l.
Proof. unfold occ, same. rewrite filter_cons. repeat case_decide; case_bool_decide; try done; cbn [length Z.b2z]; lia. Qed.

Lemma occ_app x l l' : occ x (l ++ l') = occ x l + occ x l'.
Proof. unfold occ. rewrite filter_app, length_app. lia. Qed.

Lemma occ_nonneg x l : 0 <= occ x l.
Proof. unfold occ. lia. Qed.

Lemma occ_length x l : occ x l <= Z.of_nat (length l).
Proof. unfold occ. pose proof (length_filter (fun y => x = y) l). lia. Qed.

Lemma occ_elem x l : 0 < occ x l <-> x ∈ l.
Proof.
  induction l as [|y l IH]; [by split; [unfold occ; cbn; lia|intros ?%not_elem_of_nil]|].
  rewrite occ_cons, elem_of_cons. unfold same. pose proof (occ_nonneg x l). case_bool_decide as E; cbn [Z.b2z].
  - split; [tauto|lia].
  - rewrite <- IH. split; [intros; right; lia|]. intros [?|?]; [done|lia].
Qed.

Lemma occ_nodup x l : NoDup l -> occ x l = Z.b2z (bool_decide (x ∈ l)).
Proof.
  induction 1 as [|y l Hy _ IH]; [done|]. rewrite occ_cons, IH. unfold same. destruct (decide (x = y)) as [->|Hne].
  - rewrite (bool_decide_true (y = y)), (bool_decide_false (y ∈ l)), (bool_decide_true (y ∈ y :: l)); [done|left|done|done].
  - rewrite (bool_decide_false (x = y)) by done. cbn [Z.b2z]. rewrite Z.add_0_l. f_equal. apply bool_decide_ext.
    rewrite elem_of_cons. naive_solver.
Qed.
End Occurrences.

Lemma b2z_nonneg b : 0 <= Z.b2z b.
Proof. destruct b; cbn; lia. Qed.

(** Take apart a successful step: every branch of the step function. *)
Ltac step_inv H :=
  repeat match type of H with
  | context [match ?x with _ => _ end] => destruct x eqn:?; try discriminate H
  | context [if ?x then _ else _] => destruct x eqn:?; try discriminate H
  end; simplify_eq/=.
