(* ===== verification/Sync.v ===== *)
(** * Shared handles and blocking primitives ([src/src/sync_primitives.rs])

    Each primitive is a transition system of threads.  A step is one critical section
    of the source: what runs between taking a mutex and releasing it, or one atomic
    operation.  Labels resolve what the source leaves open: which waiter
    [notify_one] wakes, spurious wake-ups, whether a deadline has passed.  Fields of
    a configuration marked as history are not in the source; they record what
    happened, for the theorems.

    [Handles] is the table behind a kind of handle ([ATOMIC_INTS], [SEMAPHORES],
    ...); the operations of the primitives start by looking an entry up in it. *)

From S2P Require Import Prelude AssocList Object Value Lts.

(** ** Counted handles *)

Module Handles.
Section Handles.
Context {A : Type}.

(** [Arc<T>] entries with their [names] counter, and [NEXT_ID]. *)
Record table : Type := mk_table { rows : gmap Z (A * Z); next_id : Z }.

Definition empty : table := mk_table ∅ 1.

(** [new_raw_counted] and [new_counted]; [allocated] is false when the handle object
    cannot be allocated: the entry is taken back out. *)
Definition new_counted (entry : A) (allocated : bool) (tb : table) : option Z * table :=
  let id := next_id tb in
  let next := as_i64 (id + 1) in
  if allocated then (Some id, mk_table (<[id := (entry, 1)]> (rows tb)) next)
  else (None, mk_table (delete id (<[id := (entry, 1)]> (rows tb))) next).

(** [copy_map]: the id the copy stores, 0 when the entry is gone. *)
Definition copy_map (id : Z) (tb : table) : Z * table :=
  match rows tb !! id with
  | Some (entry, names) => (id, mk_table (<[id := (entry, as_u64 (names + 1))]> (rows tb)) (next_id tb))
  | None => (0, tb)
  end.

(** [drop_counted]: [fetch_sub] answers the previous count. *)
Definition drop_counted (id : Z) (tb : table) : table :=
  match rows tb !! id with
  | Some (entry, names) =>
      let m := <[id := (entry, as_u64 (names - 1))]> (rows tb) in
      mk_table (if names <=? 1 then delete id m else m) (next_id tb)
  | None => tb
  end.

(** [id] and the lookup that follows it. *)
Definition entry_of (name : string) (handle : option Z) (tb : table) : result A string :=
  match handle with
  | None => Err (name +:+ " handle is null")
  | Some id =>
      if 0 <? id then
        match rows tb !! id with
        | Some (entry, _) => Ok entry
        | None => Err (name +:+ " handle is closed")
        end
      else Err ("invalid " +:+ name +:+ " handle")
  end.

(** A program's use of the table; [live] is the history: the ids its handles hold. *)
Record config : Type := mk_config { tbl : table; live : list Z }.

Inductive label : Type :=
| New (entry : A) (allocated : bool)
| Copy (handle : nat)
| Drop (handle : nat).

Definition step (l : label) (c : config) : option config :=
  match l with
  | New entry allocated =>
      let '(id, tb) := new_counted entry allocated (tbl c) in
      Some (mk_config tb (live c ++ option_list id))
  | Copy h =>
      match live c !! h with
      | Some id => let '(id', tb) := copy_map id (tbl c) in Some (mk_config tb (live c ++ [id']))
      | None => None
      end
  | Drop h =>
      match live c !! h with
      | Some id => Some (mk_config (drop_counted id (tbl c)) (delete h (live c)))
      | None => None
      end
  end.

End Handles.
Arguments table : clear implicits.
Arguments config : clear implicits.
Arguments label : clear implicits.
End Handles.

(** ** Atomics and cancellation tokens

    The operations are sequentially consistent, so each is one step on the entry that
    the handle names. *)

Module Atomic.
Import Handles.

(** Look the entry up and apply one atomic operation to its value. *)
Definition atomically {A} (name : string) (handle : option Z) (f : A -> value * A) (tb : table A)
    : result value string * table A :=
  match entry_of name handle tb, handle with
  | Ok v, Some id =>
      let '(answer, v') := f v in
      (Ok answer, mk_table (alter (fun e => (v', e.2)) id (rows tb)) (next_id tb))
  | Ok _, None => (Err (name +:+ " handle is null"), tb)
  | Err e, _ => (Err e, tb)
  end.

Definition mux_atomic_int_new (allocated : bool) : table Z -> option Z * table Z := new_counted 0 allocated.
Definition mux_atomic_int_with_value (v : Z) (allocated : bool) : table Z -> option Z * table Z :=
  new_counted v allocated.
Definition mux_atomic_int_load (h : option Z) : table Z -> result value string * table Z :=
  atomically "AtomicInt" h (fun v => (VInt v, v)).
Definition mux_atomic_int_store (h : option Z) (x : Z) : table Z -> result value string * table Z :=
  atomically "AtomicInt" h (fun _ => (VUnit, x)).
(** [fetch_add] answers the previous value and wraps. *)
Definition mux_atomic_int_add (h : option Z) (delta : Z) : table Z -> result value string * table Z :=
  atomically "AtomicInt" h (fun v => (VInt v, as_i64 (v + delta))).
Definition mux_atomic_int_swap (h : option Z) (x : Z) : table Z -> result value string * table Z :=
  atomically "AtomicInt" h (fun v => (VInt v, x)).
Definition mux_atomic_int_compare_exchange (h : option Z) (expected replacement : Z)
    : table Z -> result value string * table Z :=
  atomically "AtomicInt" h (fun v => (VInt v, if v =? expected then replacement else v)).

Definition mux_atomic_bool_new (allocated : bool) : table bool -> option Z * table bool :=
  new_counted false allocated.
Definition mux_atomic_bool_with_value (v : bool) (allocated : bool) : table bool -> option Z * table bool :=
  new_counted v allocated.
Definition mux_atomic_bool_load (h : option Z) : table bool -> result value string * table bool :=
  atomically "AtomicBool" h (fun v => (VBool v, v)).
Definition mux_atomic_bool_store (h : option Z) (x : bool) : table bool -> result value string * table bool :=
  atomically "AtomicBool" h (fun _ => (VUnit, x)).
Definition mux_atomic_bool_swap (h : option Z) (x : bool) : table bool -> result value string * table bool :=
  atomically "AtomicBool" h (fun v => (VBool v, x)).
Definition mux_atomic_bool_compare_exchange (h : option Z) (expected replacement : bool)
    : table bool -> result value string * table bool :=
  atomically "AtomicBool" h (fun v => (VBool v, if Bool.eqb v expected then replacement else v)).

Definition mux_cancellation_new (allocated : bool) : table bool -> option Z * table bool :=
  new_counted false allocated.
Definition mux_cancellation_cancel (h : option Z) : table bool -> result value string * table bool :=
  atomically "CancellationToken" h (fun _ => (VUnit, true)).
Definition mux_cancellation_is_cancelled (h : option Z) : table bool -> result value string * table bool :=
  atomically "CancellationToken" h (fun v => (VBool v, v)).
(** [cancellation_requested], for the operations that poll a token. *)
Definition cancellation_requested (h : option Z) (tb : table bool) : result bool string :=
  entry_of "CancellationToken" h tb.

End Atomic.

(** ** Timeouts *)

Definition MAX_SYNC_TIMEOUT_MS : Z := 2 ^ 32 - 1.

(** [timeout_duration]. *)
Definition timeout_duration (timeout_ms : Z) (operation : string) : result Z string :=
  if MAX_SYNC_TIMEOUT_MS <? timeout_ms then Err (operation +:+ " timeout is too large")
  else Ok (as_u64 timeout_ms).

(** ** Semaphore *)

Module Semaphore.

(** [SemaphoreState] and the [max] of its entry. *)
Record state : Type := mk_state { permits : Z; max : Z }.

Definition with_permits (n : Z) : result state string :=
  if n <? 0 then Err "semaphore permits must not be negative" else Ok (mk_state n n).

(** [state.permits -= 1]. *)
Definition take (s : state) : state := mk_state (permits s - 1) (max s).

Definition try_acquire (s : state) : bool * state :=
  if 0 <? permits s then (true, take s) else (false, s).

Definition release (s : state) : result state string :=
  if permits s =? max s then Err "semaphore release would exceed its permit count"
  else Ok (mk_state (permits s + 1) (max s)).

(** Outside the operations, asleep on [wake], or woken and about to take the lock
    again; the flag tells [acquire_timeout] from [acquire]. *)
Inductive pc : Type := Idle | Waiting (timed : bool) | Woken (timed : bool).

Record config : Type := mk_config {
  st : state;
  threads : gmap tid pc;
  held : Z;                        (* history: acquisitions less releases *)
}.

Definition set_thread (t : tid) (p : pc) (c : config) : config :=
  mk_config (st c) (<[t := p]> (threads c)) (held c).

(** The head of the waiting loop, with the lock held. *)
Definition attempt (t : tid) (timed expired : bool) (c : config) : config :=
  if permits (st c) =? 0 then
    if timed && expired then set_thread t Idle c else set_thread t (Waiting timed) c
  else mk_config (take (st c)) (<[t := Idle]> (threads c)) (held c + 1).

Definition is_waiting (p : pc) : bool := match p with Waiting _ => true | _ => false end.
Definition is_woken (p : pc) : bool := match p with Woken _ => true | _ => false end.

(** [notify_one]: wakes the waiter the label names, and nobody only when there is
    nobody to wake. *)
Definition notify_one (w : option tid) (m : gmap tid pc) : option (gmap tid pc) :=
  match w with
  | Some t => match m !! t with Some (Waiting b) => Some (<[t := Woken b]> m) | _ => None end
  | None => if count is_waiting m =? 0 then Some m else None
  end.

Inductive label : Type :=
| Acquire (t : tid)
| AcquireTimeout (t : tid) (expired : bool)
| TryAcquire (t : tid)
| Release (t : tid) (wakes : option tid)
| Wake (t : tid)                                 (* a spurious wake-up or the deadline *)
| Recheck (t : tid) (expired : bool).

Definition step (l : label) (c : config) : option config :=
  match l with
  | Acquire t => match threads c !! t with Some Idle => Some (attempt t false false c) | _ => None end
  | AcquireTimeout t e => match threads c !! t with Some Idle => Some (attempt t true e c) | _ => None end
  | TryAcquire t =>
      match threads c !! t with
      | Some Idle =>
          let '(b, s) := try_acquire (st c) in Some (mk_config s (threads c) (held c + Z.b2z b))
      | _ => None
      end
  | Release t w =>
      match threads c !! t with
      | Some Idle =>
          match release (st c) with
          | Err _ => Some c
          | Ok s =>
              match notify_one w (threads c) with
              | Some m => Some (mk_config s m (held c - 1))
              | None => None
              end
          end
      | _ => None
      end
  | Wake t => match threads c !! t with Some (Waiting b) => Some (set_thread t (Woken b) c) | _ => None end
  | Recheck t e => match threads c !! t with Some (Woken b) => Some (attempt t b e c) | _ => None end
  end.

Definition init (s : state) (ts : list tid) : config :=
  mk_config s (list_to_map ((fun t => (t, Idle)) <$> ts)) 0.

End Semaphore.

(** ** Once *)

Module Once.

Inductive OnceStatus : Type := Pending | Running | Complete.

Inductive pc : Type := Idle | Waiting | Woken | InCallback.

Record config : Type := mk_config {
  status : OnceStatus;
  threads : gmap tid pc;
  successes : Z;                   (* history: callbacks that ran to completion *)
  refused : Z;                     (* history: callbacks that failed *)
}.

(** The loop of [mux_once_call] at its head, with the lock held. *)
Definition enter (t : tid) (c : config) : config :=
  match status c with
  | Complete => mk_config Complete (<[t := Idle]> (threads c)) (successes c) (refused c)
  | Pending => mk_config Running (<[t := InCallback]> (threads c)) (successes c) (refused c)
  | Running => mk_config Running (<[t := Waiting]> (threads c)) (successes c) (refused c)
  end.

(** [notify_all]. *)
Definition wake (p : pc) : pc := match p with Waiting => Woken | p => p end.

Inductive label : Type :=
| Call (t : tid)
| Wake (t : tid)
| Recheck (t : tid)
| Finish (t : tid) (ok : bool).

Definition step (l : label) (c : config) : option config :=
  match l with
  | Call t => match threads c !! t with Some Idle => Some (enter t c) | _ => None end
  | Wake t =>
      match threads c !! t with
      | Some Waiting => Some (mk_config (status c) (<[t := Woken]> (threads c)) (successes c) (refused c))
      | _ => None
      end
  | Recheck t => match threads c !! t with Some Woken => Some (enter t c) | _ => None end
  | Finish t ok =>
      match threads c !! t with
      | Some InCallback =>
          Some (mk_config (if ok then Complete else Pending) (wake <$> <[t := Idle]> (threads c))
                  (successes c + Z.b2z ok) (refused c + Z.b2z (negb ok)))
      | _ => None
      end
  end.

Definition init (ts : list tid) : config :=
  mk_config Pending (list_to_map ((fun t => (t, Idle)) <$> ts)) 0 0.

End Once.

(** ** Channels *)

Module Channel.

(** [channel_payload_is_send]; [output] is [OUTPUT_TYPE_ID] of [process.rs]. *)
Fixpoint channel_payload_is_send (output : TypeId) (v : value) : bool :=
  match v with
  | VUnit | VBool _ | VInt _ | VFloat _ | VString _ | VBytes _ => true
  | VList l => forallb (channel_payload_is_send output) l
  | VMap m => forallb (fun e => channel_payload_is_send output e.1 && channel_payload_is_send output e.2) m
  | VSet s => forallb (channel_payload_is_send output) s
  | VTuple a b => channel_payload_is_send output a && channel_payload_is_send output b
  | VOptional None => true
  | VOptional (Some v) => channel_payload_is_send output v
  | VResult (Ok v) | VResult (Err v) => channel_payload_is_send output v
  | VObject o => obj_type o =? output
  | VOpaque _ | VBoxedEnum _ => false
  end.

Definition MAX_CHANNEL_CAPACITY : Z := 16 * 1024 * 1024.

(** [ChannelEntry].  The queue and the sender clones held by sends in progress are
    the state of the [mpsc] channel it wraps. *)
Record config : Type := mk_config {
  sender : bool;                   (* the entry still holds its sender *)
  inflight : gmap tid value;       (* sends that cloned the sender *)
  queue : list value;
  capacity : option nat;
  closed : bool;
  closing : gset tid;              (* closes between their two statements *)
  receiver : option tid;           (* who holds the receiver's lock *)
  sent : list value;               (* history *)
  received : list value;           (* history *)
}.

Definition new_unbounded : config := mk_config true ∅ [] None false ∅ None [] [].

Definition new_bounded (n : Z) : result config string :=
  if in_range 1 MAX_CHANNEL_CAPACITY n
  then Ok (mk_config true ∅ [] (Some (Z.to_nat n)) false ∅ None [] [])
  else Err "channel capacity must be between 1 and 16777216".

Definition has_room (c : config) : bool :=
  match capacity c with None => true | Some n => (length (queue c) <? n)%nat end.

(** [mpsc] reports disconnection when no sender is left. *)
Definition disconnected (c : config) : bool := negb (sender c) && (size (inflight c) =? 0)%nat.

Inductive response : Type :=
| RUnit
| RBool (b : bool)
| RReceived (v : option value)
| RErr (message : string)
| RPending.                        (* the call goes on *)

Definition set_inflight (m : gmap tid value) (c : config) : config :=
  mk_config (sender c) m (queue c) (capacity c) (closed c) (closing c) (receiver c) (sent c) (received c).
Definition set_receiver (r : option tid) (c : config) : config :=
  mk_config (sender c) (inflight c) (queue c) (capacity c) (closed c) (closing c) r (sent c) (received c).
Definition set_closed (c : config) : config :=
  mk_config (sender c) (inflight c) (queue c) (capacity c) true (closing c) (receiver c) (sent c) (received c).

Inductive label : Type :=
| SendStart (t : tid) (v : option value)   (* [channel_value], [channel_sender] *)
| SendCommit (t : tid)                     (* the value enters the queue *)
| SendFull (t : tid)                       (* [try_send] or the deadline gives up *)
| SendRefused (t : tid)                    (* the timeout argument is too large *)
| RecvLock (t : tid)
| RecvCommit (t : tid)                     (* a value, or disconnection *)
| RecvEmpty (t : tid)                      (* [try_recv] or the timeout gives up *)
| RecvRefused (t : tid)                    (* the timeout argument is too large *)
| CloseFlag (t : tid)
| CloseTake (t : tid).

Section Steps.
Context (output : TypeId).

Definition send_start (t : tid) (v : option value) (c : config) : config * response :=
  match v with
  | None => (c, RErr "channel value is null")
  | Some v =>
      if negb (channel_payload_is_send output v) then
        (c, RErr "channel payload contains a non-sendable resource handle")
      else if negb (sender c) then (c, RErr "channel is closed")
      else (set_inflight (<[t := v]> (inflight c)) c, RPending)
  end.

Definition push (t : tid) (v : value) (c : config) : config :=
  mk_config (sender c) (delete t (inflight c)) (queue c ++ [v]) (capacity c) (closed c) (closing c)
    (receiver c) (sent c ++ [v]) (received c).

(** The outcome of a receive that does not block. *)
Definition try_recv (c : config) : option (config * response) :=
  match queue c with
  | v :: q =>
      Some (mk_config (sender c) (inflight c) q (capacity c) (closed c) (closing c) None
              (sent c) (received c ++ [v]), RReceived (Some v))
  | [] => if disconnected c then Some (set_receiver None (set_closed c), RReceived None) else None
  end.

Definition holds_receiver (t : tid) (c : config) : bool :=
  match receiver c with Some t' => (t' =? t)%nat | None => false end.

Definition respond (l : label) (c : config) : option (config * response) :=
  match l with
  | SendStart t v => match inflight c !! t with None => Some (send_start t v c) | Some _ => None end
  | SendCommit t =>
      match inflight c !! t with
      | Some v => if has_room c then Some (push t v c, RBool true) else None
      | None => None
      end
  | SendFull t =>
      match inflight c !! t with
      | Some _ =>
          if has_room c then None else Some (set_inflight (delete t (inflight c)) c, RBool false)
      | None => None
      end
  | SendRefused t =>
      match inflight c !! t with
      | Some _ =>
          Some (set_inflight (delete t (inflight c)) c, RErr "channel send timeout is too large")
      | None => None
      end
  | RecvLock t =>
      match receiver c with None => Some (set_receiver (Some t) c, RPending) | Some _ => None end
  | RecvCommit t => if holds_receiver t c then try_recv c else None
  | RecvEmpty t =>
      if holds_receiver t c then
        match try_recv c with None => Some (set_receiver None c, RReceived None) | Some _ => None end
      else None
  | RecvRefused t =>
      if holds_receiver t c
      then Some (set_receiver None c, RErr "channel receive timeout is too large") else None
  | CloseFlag t =>
      Some (mk_config (sender c) (inflight c) (queue c) (capacity c) true ({[t]} ∪ closing c)
              (receiver c) (sent c) (received c), RPending)
  | CloseTake t =>
      if bool_decide (t ∈ closing c) then
        Some (mk_config false (inflight c) (queue c) (capacity c) (closed c) (closing c ∖ {[t]})
                (receiver c) (sent c) (received c), RUnit)
      else None
  end.

Definition step (l : label) (c : config) : option config := fst <$> respond l c.

(** The steps a call may take, one list per outcome; a call stops at the first step that
    answers, and blocks while its next step is not enabled. *)
Definition calls : Type := result (list (list label)) string.

Definition mux_channel_send (t : tid) (v : option value) : calls :=
  Ok [[SendStart t v; SendCommit t]].

Definition mux_channel_try_send (t : tid) (v : option value) : calls :=
  Ok [[SendStart t v; SendCommit t]; [SendStart t v; SendFull t]].

(** The deadline is computed for bounded channels only. *)
Definition mux_channel_send_timeout (bounded : bool) (t : tid) (v : option value) (timeout_ms : Z) : calls :=
  if timeout_ms <? 0 then Err "channel timeout must not be negative"
  else if bounded then
    match timeout_duration timeout_ms "channel send" with
    | Err _ => Ok [[SendStart t v; SendRefused t]]
    | Ok _ => mux_channel_try_send t v
    end
  else mux_channel_send t v.

(** [n] polls that found the channel full, then the outcome: the token is read before
    each poll, and a cancelled one ends the call. *)
Definition mux_channel_send_cancelled (n : nat) (cancelled : bool) (t : tid) (v : option value) : calls :=
  let polls := concat (replicate n [SendStart t v; SendFull t]) in
  if cancelled then Ok [polls] else Ok [polls ++ [SendStart t v; SendCommit t]].

Definition mux_channel_recv (t : tid) : calls := Ok [[RecvLock t; RecvCommit t]].

Definition mux_channel_try_recv (t : tid) : calls :=
  Ok [[RecvLock t; RecvCommit t]; [RecvLock t; RecvEmpty t]].

Definition mux_channel_recv_timeout (t : tid) (timeout_ms : Z) : calls :=
  if timeout_ms <? 0 then Err "channel timeout must not be negative"
  else
    match timeout_duration timeout_ms "channel receive" with
    | Err _ => Ok [[RecvLock t; RecvRefused t]]
    | Ok _ => mux_channel_try_recv t
    end.

Definition mux_channel_close (t : tid) : calls := Ok [[CloseFlag t; CloseTake t]].

Definition mux_channel_is_closed (c : config) : value := VBool (closed c).
Definition mux_channel_capacity (c : config) : value :=
  VOptional ((fun n => VInt (as_i64 (Z.of_nat n))) <$> capacity c).

(** One pass of [mux_channel_select] over the channels, no receiver lock being held:
    the channel found ready with its value, and whether any was open. *)
Fixpoint select_scan (index : nat) (cs : list config) : option (nat * value) * bool * list config :=
  match cs with
  | [] => (None, false, [])
  | c :: r =>
      if closed c then
        let '(found, open, r') := select_scan (S index) r in (found, open, c :: r')
      else
        match try_recv c with
        | Some (c', RReceived (Some v)) => (Some (index, v), true, c' :: r)
        | Some (c', _) => let '(found, _, r') := select_scan (S index) r in (found, true, c' :: r')
        | None => let '(found, _, r') := select_scan (S index) r in (found, true, c :: r')
        end
  end.

End Steps.
End Channel.
