(* ===== verification/SyncProps.v ===== *)
(** * Properties of shared handles and blocking primitives

    Every configuration the threads can reach, whatever the interleaving. *)

From S2P Require Import Prelude AssocList Object Value Heap HeapSpec Lts Sync.

(** ** Handles *)

Module HandleLemmas.
Import Handles.

Definition occ (id : Z) (l : list Z) : Z := Z.of_nat (length (filter (eq id) l)).

Lemma occ_concat id l1 l2 : occ id (l1 ++ l2) = occ id l1 + occ id l2.
Proof. unfold occ. rewrite filter_app, length_app. lia. Qed.

Lemma occ_one id x : occ id [x] = if id =? x then 1 else 0.
Proof.
  unfold occ. rewrite filter_cons, filter_nil. destruct (Z.eqb_spec id x) as [->|Hne].
  - by rewrite decide_True.
  - by rewrite decide_False.
Qed.

Lemma occ_delete id l h x : l !! h = Some x -> occ id l = occ id [x] + occ id (delete h l).
Proof.
  intros Hx. rewrite <- occ_concat. unfold occ. f_equal. apply Permutation_length.
  apply filter_Permutation. by apply delete_Permutation.
Qed.

Lemma occ_pos id l : 0 < occ id l <-> id ∈ l.
Proof.
  unfold occ. split.
  - intros Hp. destruct (filter (eq id) l) as [|x r] eqn:E; [simpl in Hp; lia|].
    assert (x ∈ filter (eq id) l) as Hx by (rewrite E; left).
    by apply list_elem_of_filter in Hx as [-> ?].
  - intros Hin. assert (id ∈ filter (eq id) l) as Hf by by apply list_elem_of_filter.
    destruct (filter (eq id) l); [by inversion Hf|simpl; lia].
Qed.

Lemma occ_bound id l : 0 <= occ id l <= Z.of_nat (length l).
Proof. unfold occ. pose proof (length_filter (eq id) l). lia. Qed.

Section Inv.
Context {A : Type}.
Implicit Types (c : config A).

(** After [k] steps: ids are fresh, counts are exact. *)
Record inv (k : Z) c : Prop := {
  inv_next : 1 <= next_id (tbl c) <= 1 + k;
  inv_live : Z.of_nat (length (live c)) <= k;
  inv_ids id : id ∈ live c -> 0 <= id < next_id (tbl c);
  inv_row id e n : rows (tbl c) !! id = Some (e, n) -> 0 < id < next_id (tbl c) /\ n = occ id (live c) /\ 0 < n;
  inv_none id : rows (tbl c) !! id = None -> id <> 0 -> occ id (live c) = 0;
}.

Lemma handle_inv_start : inv 0 (mk_config (empty : table A) []).
Proof. split; simpl; try lia; try done; intros; by set_solver. Qed.

Lemma handle_inv_new k c e b c' : inv k c -> k < 2 ^ 62 -> step (New e b) c = Some c' -> inv (k + 1) c'.
Proof.
  intros [Hn Hl Hi Hr Hz] Hk E. unfold step, new_counted in E.
  assert (as_i64 (next_id (tbl c) + 1) = next_id (tbl c) + 1) as Hs by (apply as_i64_small; width).
  assert (occ (next_id (tbl c)) (live c) = 0) as Hfresh.
  { destruct (decide (0 < occ (next_id (tbl c)) (live c))) as [Hp|];
      [apply occ_pos, Hi in Hp; lia|]. pose proof (occ_bound (next_id (tbl c)) (live c)). lia. }
  destruct b; simplify_eq/=; rewrite Hs; split; simpl; rewrite ?app_nil_r, ?length_app; simpl;
    try lia; intros id.
  - intros [Hin| ->%list_elem_of_singleton]%elem_of_app; [apply Hi in Hin; lia|lia].
  - intros e' n. destruct (decide (id = next_id (tbl c))) as [->|Hne].
    + rewrite lookup_insert_eq. intros [= <- <-]. rewrite occ_concat, occ_one, Z.eqb_refl. lia.
    + rewrite lookup_insert_ne by done. intros Hrow. apply Hr in Hrow.
      rewrite occ_concat, occ_one, (proj2 (Z.eqb_neq _ _)) by done. lia.
  - destruct (decide (id = next_id (tbl c))) as [->|Hne]; [by rewrite lookup_insert_eq|].
    rewrite lookup_insert_ne by done. intros Hrow H0.
    rewrite occ_concat, occ_one, (proj2 (Z.eqb_neq _ _)), Hz by done. lia.
  - intros Hin. apply Hi in Hin. lia.
  - intros e' n. destruct (decide (id = next_id (tbl c))) as [->|Hne]; [by rewrite lookup_delete_eq|].
    rewrite lookup_delete_ne, lookup_insert_ne by done. intros Hrow. apply Hr in Hrow. lia.
  - destruct (decide (id = next_id (tbl c))) as [->|Hne]; [done|].
    rewrite lookup_delete_ne, lookup_insert_ne by done. apply Hz.
Qed.

Lemma handle_inv_copy k c h c' : inv k c -> k < 2 ^ 62 -> step (Copy h) c = Some c' -> inv (k + 1) c'.
Proof.
  intros [Hn Hl Hi Hr Hz] Hk E. unfold step, copy_map in E.
  destruct (live c !! h) as [x|] eqn:Ex; [|done].
  assert (x ∈ live c) as Hx by by eapply list_elem_of_lookup_2.
  destruct (rows (tbl c) !! x) as [[e n]|] eqn:Erow; simplify_eq/=.
  - destruct (Hr _ _ _ Erow) as (Hid & En & Hpos). pose proof (occ_bound x (live c)).
    rewrite as_u64_small by (subst n; width).
    split; simpl; rewrite ?length_app; simpl; try lia; intros id.
    + intros [Hin| ->%list_elem_of_singleton]%elem_of_app; [by apply Hi|lia].
    + intros e' n'. rewrite occ_concat, occ_one. destruct (Z.eqb_spec id x) as [->|Hne].
      * rewrite lookup_insert_eq. intros [= <- <-]. lia.
      * rewrite lookup_insert_ne by done. intros Hrow. apply Hr in Hrow. lia.
    + rewrite occ_concat, occ_one. destruct (Z.eqb_spec id x) as [->|Hne]; [by rewrite lookup_insert_eq|].
      rewrite lookup_insert_ne by done. intros Hrow H0. rewrite Hz by done. lia.
  - split; simpl; rewrite ?length_app; simpl; try lia; intros id.
    + intros [Hin| ->%list_elem_of_singleton]%elem_of_app; [by apply Hi|lia].
    + intros e' n' Hrow. rewrite occ_concat, occ_one. apply Hr in Hrow.
      rewrite (proj2 (Z.eqb_neq id 0)) by lia. lia.
    + intros Hrow H0. rewrite occ_concat, occ_one, (proj2 (Z.eqb_neq id 0)), Hz by done. lia.
Qed.

Lemma handle_inv_drop k c h c' : inv k c -> k < 2 ^ 62 -> step (Drop h) c = Some c' -> inv (k + 1) c'.
Proof.
  intros [Hn Hl Hi Hr Hz] Hk E. unfold step, drop_counted in E.
  destruct (live c !! h) as [x|] eqn:Ex; [|done]. simplify_eq/=.
  assert (x ∈ live c) as Hx by by eapply list_elem_of_lookup_2.
  assert (forall i, occ i (live c) = (if i =? x then 1 else 0) + occ i (delete h (live c))) as Hocc.
  { intros i. rewrite <- occ_one. by apply occ_delete. }
  assert (forall i, i ∈ delete h (live c) -> 0 <= i < next_id (tbl c)) as Hi'.
  { intros i Hin. apply Hi. apply occ_pos in Hin. apply occ_pos. rewrite Hocc.
    destruct (i =? x); lia. }
  assert (Z.of_nat (length (delete h (live c))) <= k) as Hl'.
  { apply lookup_lt_Some in Ex as ?. rewrite length_delete by done. lia. }
  destruct (rows (tbl c) !! x) as [[e n]|] eqn:Erow.
  - destruct (Hr _ _ _ Erow) as (Hid & En & Hpos). pose proof (occ_bound x (live c)).
    rewrite as_u64_small by (subst n; width). rewrite (Hocc x), Z.eqb_refl in En.
    split; simpl; try lia; [done|intros i..].
    + intros e' n'. specialize (Hocc i). destruct (Z.eqb_spec i x) as [Ei|Hne]; [subst i|].
      * destruct (n <=? 1) eqn:En1; bool_to_prop; [by rewrite lookup_delete_eq|].
        rewrite lookup_insert_eq. intros [= <- <-]. lia.
      * assert ((if n <=? 1 then delete x (<[x:=(e, n - 1)]> (rows (tbl c)))
                 else <[x:=(e, n - 1)]> (rows (tbl c))) !! i = rows (tbl c) !! i) as ->.
        { destruct (n <=? 1); rewrite ?lookup_delete_ne, lookup_insert_ne by done; done. }
        intros Hrow. apply Hr in Hrow. lia.
    + specialize (Hocc i). destruct (Z.eqb_spec i x) as [Ei|Hne]; [subst i|].
      * destruct (n <=? 1) eqn:En1; bool_to_prop; [|by rewrite lookup_insert_eq]. intros _ _. lia.
      * assert ((if n <=? 1 then delete x (<[x:=(e, n - 1)]> (rows (tbl c)))
                 else <[x:=(e, n - 1)]> (rows (tbl c))) !! i = rows (tbl c) !! i) as ->.
        { destruct (n <=? 1); rewrite ?lookup_delete_ne, lookup_insert_ne by done; done. }
        intros Hrow H0. apply Hz in Hrow; [lia|done].
  - split; simpl; try lia; [done|intros i..].
    + intros e' n' Hrow. apply Hr in Hrow as (? & -> & ?). specialize (Hocc i).
      destruct (Z.eqb_spec i x) as [Ei|Hne]; [subst i|lia].
      destruct (decide (x = 0)) as [->|Hx0]; [lia|]. apply Hz in Erow; [lia|done].
    + intros Hrow H0. apply Hz in Hrow; [|done]. specialize (Hocc i).
      pose proof (occ_bound i (delete h (live c))). destruct (i =? x); lia.
Qed.

Lemma handle_inv_run ls k c c' : inv k c -> k + Z.of_nat (length ls) < 2 ^ 62 ->
  run step ls c = Some c' -> inv (k + Z.of_nat (length ls)) c'.
Proof.
  revert k c. induction ls as [|l ls IH]; intros k c Hi Hk E.
  - simpl in E. simplify_eq. by rewrite Z.add_0_r.
  - cbn [run] in E. destruct (step l c) as [c1|] eqn:E1; [|done].
    cbn [length] in *. rewrite Nat2Z.inj_succ in *.
    replace (k + Z.succ (Z.of_nat (length ls))) with (k + 1 + Z.of_nat (length ls)) by lia.
    eapply IH; [|lia|done].
    destruct l; [eapply handle_inv_new|eapply handle_inv_copy|eapply handle_inv_drop]; try done; lia.
Qed.

End Inv.
End HandleLemmas.

(** ** Semaphore *)

Module SemaphoreLemmas.
Import Semaphore.

Record inv (n : Z) (c : config) : Prop := {
  inv_max : max (st c) = n;
  inv_permits : 0 <= permits (st c) <= n;
  inv_held : permits (st c) + held c = n;
  inv_wake : 0 < count is_waiting (threads c) -> permits (st c) <= count is_woken (threads c);
}.

Lemma sem_inv_init n ts : 0 <= n -> inv n (init (mk_state n n) ts).
Proof.
  intros Hn. split; simpl; try lia. rewrite count_replicate by done. lia.
Qed.

(** A thread that is not asleep runs the head of the loop. *)
Lemma sem_inv_attempt n t p timed e c :
  inv n c -> threads c !! t = Some p -> is_waiting p = false -> inv n (attempt t timed e c).
Proof.
  intros [Hm Hp Hh Hw] Ht Hnw. unfold attempt. pose proof (count_nonneg is_woken (threads c)).
  assert (0 <= Z.b2z (is_woken p) <= 1) by (destruct (is_woken p); simpl; lia).
  destruct (permits (st c) =? 0) eqn:E0; bool_to_prop; [destruct (timed && e)|];
    (split; simpl; try lia); rewrite !(count_insert _ _ _ _ _ Ht), Hnw; simpl.
  - pose proof (count_nonneg is_woken (<[t := Idle]> (threads c))) as Hc.
    rewrite (count_insert _ _ _ _ _ Ht) in Hc. simpl in Hc. lia.
  - pose proof (count_nonneg is_woken (<[t := Waiting timed]> (threads c))) as Hc.
    rewrite (count_insert _ _ _ _ _ Ht) in Hc. simpl in Hc. lia.
  - intros Hpos. lia.
Qed.

Lemma sem_inv_step n l c c' : inv n c -> step l c = Some c' -> inv n c'.
Proof.
  intros Hi E. pose proof Hi as [Hm Hp Hh Hw].
  destruct l as [t|t e|t|t w|t|t e]; cbn [step] in E;
    destruct (threads c !! t) as [p|] eqn:Ht; try done; destruct p as [|b|b]; try done.
  - simplify_eq. eapply sem_inv_attempt; eauto.
  - simplify_eq. eapply sem_inv_attempt; eauto.
  - unfold try_acquire in E. destruct (0 <? permits (st c)) eqn:E0; bool_to_prop; simplify_eq/=;
      split; simpl; try lia; intros; lia.
  - unfold release in E. destruct (permits (st c) =? max (st c)) eqn:E0; bool_to_prop;
      [by simplify_eq|]. destruct (notify_one w (threads c)) as [m|] eqn:En; [|done]. simplify_eq/=.
    split; simpl; try lia. unfold notify_one in En. destruct w as [t'|].
    + destruct (threads c !! t') as [[|b|b]|] eqn:Ht'; try done. simplify_eq/=.
      rewrite !(count_insert _ _ _ _ _ Ht'). simpl. intros Hpos. lia.
    + destruct (count is_waiting (threads c) =? 0) eqn:Ec; bool_to_prop; simplify_eq/=. lia.
  - simplify_eq/=. split; simpl; try lia. rewrite !(count_insert _ _ _ _ _ Ht). simpl. intros Hpos. lia.
  - simplify_eq. eapply sem_inv_attempt; eauto.
Qed.

Lemma sem_inv_reachable n ts c : 0 <= n -> reachable step (init (mk_state n n) ts) c -> inv n c.
Proof.
  intros Hn. apply reachable_inv; [by apply sem_inv_init|]. intros l a b. apply sem_inv_step.
Qed.

End SemaphoreLemmas.

(** ** Once *)

Module OnceLemmas.
Import Once.

Definition in_callback (p : pc) : bool := match p with InCallback => true | _ => false end.
Definition is_waiting (p : pc) : bool := match p with Waiting => true | _ => false end.

Record inv (c : config) : Prop := {
  inv_running : count in_callback (threads c) = match status c with Running => 1 | _ => 0 end;
  inv_asleep : status c <> Running -> count is_waiting (threads c) = 0;
  inv_done : successes c = match status c with Complete => 1 | _ => 0 end;
}.

Lemma once_inv_init ts : inv (init ts).
Proof. split; simpl; rewrite ?count_replicate by done; done. Qed.

Lemma once_inv_enter t p c : inv c -> threads c !! t = Some p -> in_callback p = false ->
  is_waiting p = false -> inv (enter t c).
Proof.
  intros [Hr Ha Hd] Ht Hc Hw. unfold enter.
  destruct (status c) eqn:Es; split; simpl; try done; rewrite ?(count_insert _ _ _ _ _ Ht), ?Hc, ?Hw;
    simpl; try lia; intros; rewrite ?Ha by done; lia.
Qed.

Lemma once_inv_step l c c' : inv c -> step l c = Some c' -> inv c'.
Proof.
  intros Hi E. pose proof Hi as [Hr Ha Hd].
  destruct l as [t|t|t|t ok]; cbn [step] in E;
    destruct (threads c !! t) as [p|] eqn:Ht; try done; destruct p; try done; simplify_eq/=.
  - by eapply once_inv_enter.
  - split; simpl; [rewrite (count_insert _ _ _ _ _ Ht); simpl; lia| |done].
    intros Hs. by pose proof (proj1 (count_zero _ _) (Ha Hs) _ _ Ht).
  - by eapply once_inv_enter.
  - assert (status c = Running) as Es.
    { destruct (status c) eqn:Es; try done; by pose proof (proj1 (count_zero _ _) Hr _ _ Ht). }
    rewrite Es in *. split; simpl.
    + rewrite count_fmap. rewrite (count_insert _ _ _ _ _ Ht).
      assert (count (fun x => in_callback (wake x)) (threads c) = count in_callback (threads c)) as ->.
      { unfold count. do 2 f_equal. apply map_filter_ext. intros ? x _. simpl. by destruct x. }
      simpl. destruct ok; lia.
    + intros _. rewrite count_fmap. apply count_zero. intros ? x _. by destruct x.
    + destruct ok; simpl; lia.
Qed.

Lemma once_inv_reachable ts c : reachable step (init ts) c -> inv c.
Proof. apply reachable_inv; [apply once_inv_init|]. intros l a b. apply once_inv_step. Qed.

End OnceLemmas.

(** ** Channels *)

Module ChannelLemmas.
Import Channel.

(** What a program can create. *)
Definition fresh (c : config) : Prop :=
  c = new_unbounded \/ exists n, new_bounded n = Ok c.

(** No sender is left and nothing is buffered. *)
Definition drained (c : config) : Prop := sender c = false /\ inflight c = ∅ /\ queue c = [].

Section Lemmas.
Context (output : TypeId).

Definition sendable (v : value) : Prop := channel_payload_is_send output v = true.

(** Data that a thread owns by itself: not a resource, not a boxed compiler value, no object but the
    output of a process. *)
Definition own_data (v : value) : Prop :=
  match v with VOpaque _ | VBoxedEnum _ => False | VObject o => obj_type o = output | _ => True end.

(** [y] is [x] or stands somewhere inside it. *)
Inductive part : value -> value -> Prop :=
| part_self v : part v v
| part_inside v x y : x ∈ children v -> part x y -> part v y.

Lemma sendable_children v : sendable v <-> own_data v /\ forall x, x ∈ children v -> sendable x.
Proof.
  unfold sendable. destruct v as [| | | | |l| |m|s|a b|[a|]|[a|a]|o'| |]; simpl; try (split; [intros _; split; [done|by inversion 1]|done]).
  - rewrite forallb_forall. setoid_rewrite list_elem_of_In. naive_solver.
  - rewrite forallb_forall. split.
    + intros Hm. split; [done|]. intros x [Hx|Hx]%elem_of_app; apply list_elem_of_fmap in Hx as ([k w] & -> & Hin%list_elem_of_In);
        specialize (Hm _ Hin); by apply andb_true_iff in Hm as [??].
    + intros [_ Hc] [k w] Hin%list_elem_of_In. apply andb_true_iff. split; apply Hc; [by eapply map_children_l|by eapply map_children_r].
  - rewrite forallb_forall. setoid_rewrite list_elem_of_In. naive_solver.
  - rewrite andb_true_iff. split; [intros [??]; split; [done|]; set_solver|intros [_ Hc]; split; apply Hc; set_solver].
  - split; [intros ?; split; [done|]; set_solver|intros [_ Hc]; apply Hc; set_solver].
  - split; [intros ?; split; [done|]; set_solver|intros [_ Hc]; apply Hc; set_solver].
  - split; [intros ?; split; [done|]; set_solver|intros [_ Hc]; apply Hc; set_solver].
  - rewrite Z.eqb_eq. split; [intros ?; split; [done|by inversion 1]|by intros [? _]].
  - split; [done|by intros []].
  - split; [done|by intros []].
Qed.

(** The check accepts exactly the values all of whose parts are such data. *)
Lemma sendable_parts v : sendable v <-> forall x, part v x -> own_data x.
Proof.
  induction v as [v IH] using value_ind'. rewrite sendable_children. split.
  - intros [Ho Hc] x Hx. inversion Hx as [|? y ? Hy Hp]; subst; [done|]. by apply (IH y Hy); [apply Hc|].
  - intros Hp. split; [apply Hp; constructor|]. intros x Hx. apply (IH x Hx). intros y Hy. apply Hp. by econstructor.
Qed.

Record inv (cap : option nat) (c : config) : Prop := {
  inv_fifo : sent c = received c ++ queue c;
  inv_cap : capacity c = cap;
  inv_bound : match cap with Some n => (length (queue c) <= n)%nat | None => True end;
  inv_sent : Forall sendable (sent c);
  inv_flight : map_Forall (fun _ => sendable) (inflight c);
}.

Lemma chan_inv_fresh c : fresh c -> inv (capacity c) c.
Proof.
  intros [->|(n & E)]; [by split|]. unfold new_bounded in E. destruct (in_range _ _ _); simplify_eq.
  split; simpl; try done. lia.
Qed.

Lemma chan_inv_try_recv cap c c' r : inv cap c -> try_recv c = Some (c', r) -> inv cap c'.
Proof.
  intros [Hf Hc Hb Hs Hi] E. unfold try_recv in E. destruct (queue c) as [|v q] eqn:Eq.
  - destruct (disconnected c); simplify_eq/=. split; simpl; rewrite ?Eq; try done.
  - simplify_eq/=. split; simpl; try done.
    + by rewrite Hf, <- app_assoc.
    + destruct (capacity c); [|done]. simpl in Hb. lia.
Qed.

Lemma chan_inv_respond cap l c c' r : inv cap c -> respond output l c = Some (c', r) -> inv cap c'.
Proof.
  intros Hi E. pose proof Hi as [Hf Hc Hb Hs Hfl]. destruct l as [t v|t|t|t|t|t|t|t|t|t]; cbn [respond] in E.
  - destruct (inflight c !! t); [done|]. unfold send_start in E. simplify_eq/=.
    destruct v as [v|]; [|by simplify_eq].
    destruct (channel_payload_is_send output v) eqn:Ev; simplify_eq/=; [|done].
    destruct (sender c); simplify_eq/=; [|done]. split; simpl; try done. by apply map_Forall_insert_2.
  - destruct (inflight c !! t) as [v|] eqn:Ev; [|done]. destruct (has_room c) eqn:Er; [|done]. simplify_eq/=.
    split; simpl; try done.
    + by rewrite Hf, <- app_assoc.
    + unfold has_room in Er. destruct (capacity c); [|done].
      rewrite length_app. simpl. apply Nat.ltb_lt in Er. lia.
    + apply Forall_app. split; [done|]. apply Forall_singleton. by apply (Hfl t).
    + by apply map_Forall_delete.
  - destruct (inflight c !! t); [|done]. destruct (has_room c); [done|]. simplify_eq/=.
    split; simpl; try done. by apply map_Forall_delete.
  - destruct (inflight c !! t); simplify_eq/=. split; simpl; try done. by apply map_Forall_delete.
  - destruct (receiver c); simplify_eq/=. by split.
  - destruct (holds_receiver t c); [|done]. by eapply chan_inv_try_recv.
  - destruct (holds_receiver t c); [|done]. destruct (try_recv c); simplify_eq/=. by split.
  - destruct (holds_receiver t c); simplify_eq/=. by split.
  - simplify_eq/=. by split.
  - destruct (bool_decide _); simplify_eq/=. by split.
Qed.

Lemma chan_inv_reachable c0 c : fresh c0 -> reachable (step output) c0 c -> inv (capacity c0) c.
Proof.
  intros Hf. apply reachable_inv; [by apply chan_inv_fresh|]. intros l a b Ha E. unfold step in E.
  destruct (respond output l a) as [[c' r]|] eqn:Er; simplify_eq/=. by eapply chan_inv_respond.
Qed.

Lemma drained_step l c c' : drained c -> step output l c = Some c' -> drained c' /\ sent c' = sent c.
Proof.
  intros (Hs & Hi & Hq) E. unfold step in E.
  destruct (respond output l c) as [[c1 r]|] eqn:Er; simplify_eq/=. unfold drained.
  destruct l as [t v|t|t|t|t|t|t|t|t|t]; cbn [respond] in Er; rewrite ?Hi, ?lookup_empty in Er; try done.
  - unfold send_start in Er. rewrite Hs in Er. simplify_eq/=.
    destruct v as [v|]; [|by simplify_eq]. destruct (channel_payload_is_send output v); by simplify_eq/=.
  - destruct (receiver c); by simplify_eq/=.
  - destruct (holds_receiver t c); [|done]. unfold try_recv in Er. rewrite Hq in Er.
    destruct (disconnected c); simplify_eq/=. done.
  - destruct (holds_receiver t c); [|done]. destruct (try_recv c); by simplify_eq/=.
  - destruct (holds_receiver t c); by simplify_eq/=.
  - by simplify_eq/=.
  - destruct (bool_decide _); by simplify_eq/=.
Qed.

Lemma drained_reachable c c' : drained c -> reachable (step output) c c' -> drained c' /\ sent c' = sent c.
Proof.
  intros Hd. induction 1 as [|a l b _ [Ha Hs] E]; [done|].
  destruct (drained_step _ _ _ Ha E) as [? ->]. done.
Qed.

End Lemmas.

(** A channel [select] passes over: closed, or nothing buffered. *)
Definition passed_over (c : config) : Prop := closed c = true \/ queue c = [].

Lemma select_scan_spec index cs : let '(found, _, cs') := select_scan index cs in
  match found with
  | Some (k, v) => exists pre c post q, cs = pre ++ c :: post /\ k = (index + length pre)%nat /\
      Forall passed_over pre /\ closed c = false /\ queue c = v :: q
  | None => Forall passed_over cs
  end /\ queue <$> cs' = queue <$> match found with
    | Some (k, _) => alter (fun c => match try_recv c with Some (c', _) => c' | None => c end) (k - index)%nat cs
    | None => cs end.
Proof.
  revert index. induction cs as [|c cs IH]; intros index; simpl; [done|].
  specialize (IH (S index)). destruct (select_scan (S index) cs) as [[found open] r'].
  assert (passed_over c -> forall c1, queue c1 = queue c ->
    match found with
    | Some (k, v) => exists pre c0 post q, c :: cs = pre ++ c0 :: post /\ k = (index + length pre)%nat /\
        Forall passed_over pre /\ closed c0 = false /\ queue c0 = v :: q
    | None => Forall passed_over (c :: cs)
    end /\ queue <$> c1 :: r' = queue <$> match found with
      | Some (k, _) => alter (fun c => match try_recv c with Some (c', _) => c' | None => c end) (k - index)%nat (c :: cs)
      | None => c :: cs end) as Hskip.
  { intros Hp c1 Eq1. destruct IH as [IH1 IH2]. destruct found as [[k v]|].
    - destruct IH1 as (pre & c0 & post & q & -> & -> & Hall & ? & ?). split.
      + exists (c :: pre), c0, post, q. simpl. split_and!; first [done|lia|by constructor].
      + replace (S index + length pre - index)%nat with (S (length pre)) by lia. csimpl.
        replace (S index + length pre - S index)%nat with (length pre) in IH2 by lia. by rewrite Eq1, IH2.
    - split; [by constructor|]. csimpl. by rewrite Eq1, IH2. }
  destruct (closed c) eqn:Ec; [apply Hskip; [by left|done]|].
  unfold try_recv at 1. destruct (queue c) as [|v q] eqn:Eq.
  - destruct (disconnected c); apply Hskip; try done; by right.
  - split.
    + exists [], c, cs, q. simpl. split_and!; first [done|lia].
    + rewrite Nat.sub_diag. csimpl. unfold try_recv. by rewrite Eq.
Qed.

End ChannelLemmas.

(** ** The properties *)

(** The entry behind a shared handle lives exactly as long as some handle names it:
    whatever handles a program creates, copies and drops, every table row counts the
    live handles with its id, and a live id other than 0 has its row.  The bound keeps
    the id counter below its wrap-around. *)
Lemma handle_names_exact {A} (ls : list (Handles.label A)) (c : Handles.config A) :
  Z.of_nat (length ls) < 2 ^ 62 ->
  run Handles.step ls (Handles.mk_config Handles.empty []) = Some c ->
  (forall id entry names, Handles.rows (Handles.tbl c) !! id = Some (entry, names) ->
     names = HandleLemmas.occ id (Handles.live c) /\ id ∈ Handles.live c) /\
  (forall id, id ∈ Handles.live c -> id <> 0 -> exists entry,
     Handles.entry_of "handle" (Some id) (Handles.tbl c) = Ok entry).
Proof.
  intros Hl E. pose proof (HandleLemmas.handle_inv_run ls 0 _ _ HandleLemmas.handle_inv_start Hl E) as [_ _ Hi Hr Hz].
  split.
  - intros id e n Hrow. destruct (Hr _ _ _ Hrow) as (_ & -> & ?). split; [done|].
    by apply HandleLemmas.occ_pos.
  - intros id Hin Hid. unfold Handles.entry_of. pose proof (Hi _ Hin).
    rewrite (proj2 (Z.ltb_lt 0 id)) by lia.
    destruct (Handles.rows (Handles.tbl c) !! id) as [[e n]|] eqn:Erow; [by exists e|].
    apply HandleLemmas.occ_pos in Hin. rewrite (Hz _ Erow Hid) in Hin. lia.
Qed.

Definition demo_handles : list (Handles.label string) :=
  [Handles.New "a" true; Handles.Copy 0%nat; Handles.New "b" true; Handles.Drop 0%nat; Handles.Drop 1%nat].
Definition demo_handles_end : Handles.config string :=
  match run Handles.step demo_handles (Handles.mk_config Handles.empty []) with
  | Some c => c | None => Handles.mk_config Handles.empty [] end.

(** C13: a semaphore never hands out more permits than it was created with, and never
    loses a wake-up: in every reachable configuration permits in stock plus permits
    held are the initial number, a release beyond it is refused, and whenever a permit
    is in stock while a thread sleeps, some woken thread is on its way and its next
    step takes a permit. *)
Theorem semaphore_sound n ts c :
  0 <= n -> reachable Semaphore.step (Semaphore.init (Semaphore.mk_state n n) ts) c ->
  0 <= Semaphore.permits (Semaphore.st c) <= n /\
  Semaphore.permits (Semaphore.st c) + Semaphore.held c = n /\
  (Semaphore.held c = 0 -> exists message, Semaphore.release (Semaphore.st c) = Err message) /\
  (forall t b, 0 < Semaphore.permits (Semaphore.st c) ->
     Semaphore.threads c !! t = Some (Semaphore.Waiting b) ->
     exists t' b', Semaphore.threads c !! t' = Some (Semaphore.Woken b') /\
       forall e, exists c', Semaphore.step (Semaphore.Recheck t' e) c = Some c' /\
         Semaphore.held c' = Semaphore.held c + 1 /\
         Semaphore.threads c' !! t' = Some Semaphore.Idle).
Proof.
  intros Hn Hr. destruct (SemaphoreLemmas.sem_inv_reachable _ _ _ Hn Hr) as [Hm Hp Hh Hw].
  split_and!; [lia..| |].
  - intros H0. unfold Semaphore.release. rewrite (proj2 (Z.eqb_eq _ _)) by lia. eauto.
  - intros t b Hpos Ht. assert (0 < count Semaphore.is_woken (Semaphore.threads c)) as Hc.
    { assert (0 < count Semaphore.is_waiting (Semaphore.threads c)) by (apply count_pos; eauto). lia. }
    apply count_pos in Hc as (t' & [|b'|b'] & Ht' & Hb); try done.
    exists t', b'. split; [done|]. intros e. cbn [Semaphore.step]. rewrite Ht'.
    unfold Semaphore.attempt. rewrite (proj2 (Z.eqb_neq _ _)) by lia.
    eexists. split; [done|]. split; [done|]. apply lookup_insert_eq.
Qed.

(** One permit, a holder and a sleeper, then the release. *)
Definition demo_semaphore : Semaphore.config :=
  match run Semaphore.step
    [Semaphore.Acquire 1%nat; Semaphore.Acquire 2%nat; Semaphore.Acquire 3%nat; Semaphore.Release 1%nat (Some 3%nat)]
    (Semaphore.init (Semaphore.mk_state 1 1) [1; 2; 3]%nat) with
  | Some c => c | None => Semaphore.init (Semaphore.mk_state 1 1) [] end.

Lemma semaphore_sound_witness :
  Semaphore.threads demo_semaphore !! 2%nat = Some (Semaphore.Waiting false) /\
  exists t' b', Semaphore.threads demo_semaphore !! t' = Some (Semaphore.Woken b').
Proof.
  split; [reflexivity|].
  destruct (semaphore_sound 1 [1; 2; 3]%nat demo_semaphore) as (_ & _ & _ & H); [lia| |].
  - eapply (run_reachable _ [Semaphore.Acquire 1%nat; Semaphore.Acquire 2%nat; Semaphore.Acquire 3%nat;
      Semaphore.Release 1%nat (Some 3%nat)]). reflexivity.
  - destruct (H 2%nat false) as (t' & b' & Ht & _); [reflexivity|reflexivity|]. eauto.
Defined.

(** A [Once] runs its callback to completion at most once, under any interleaving:
    at most one thread is inside a callback, it is complete exactly when one callback
    succeeded, a failed callback leaves it free for the next caller, and no caller
    sleeps unless a callback is running, so completion and failure wake everyone. *)
Lemma once_exactly_once ts c :
  reachable Once.step (Once.init ts) c ->
  Once.successes c <= 1 /\ (Once.successes c = 1 <-> Once.status c = Once.Complete) /\
  count OnceLemmas.in_callback (Once.threads c) <= 1 /\
  (Once.status c = Once.Running <-> count OnceLemmas.in_callback (Once.threads c) = 1) /\
  (forall t, Once.threads c !! t = Some Once.Waiting -> Once.status c = Once.Running).
Proof.
  intros Hr. destruct (OnceLemmas.once_inv_reachable _ _ Hr) as [Hc Ha Hd].
  split_and!.
  - destruct (Once.status c); lia.
  - destruct (Once.status c); split; intros; first [done|lia].
  - destruct (Once.status c); lia.
  - destruct (Once.status c); split; intros; first [done|lia].
  - intros t Ht. destruct (Once.status c) eqn:Es; try done; exfalso;
      pose proof (Ha ltac:(done)) as Hz; rewrite count_zero in Hz; by pose proof (Hz _ _ Ht).
Qed.

Definition demo_once_steps : list Once.label :=
  [Once.Call 1; Once.Call 2; Once.Finish 1 false; Once.Recheck 2; Once.Call 1; Once.Finish 2 true; Once.Recheck 1]%nat.
Definition demo_once : Once.config :=
  match run Once.step demo_once_steps (Once.init [1; 2]%nat) with Some c => c | None => Once.init [] end.

(** Closing loses nothing: a receive reports the end of a channel only when every
    value whose send succeeded has been received, and from then on, whatever the
    threads do, no further send succeeds and every attempt is told so. *)
Lemma channel_close_drains output c0 c t c' :
  ChannelLemmas.fresh c0 -> reachable (Channel.step output) c0 c ->
  Channel.respond output (Channel.RecvCommit t) c = Some (c', Channel.RReceived None) ->
  Channel.received c' = Channel.sent c' /\ Channel.closed c' = true /\
  forall c2, reachable (Channel.step output) c' c2 ->
    Channel.sent c2 = Channel.sent c' /\
    forall u v, exists message,
      Channel.respond output (Channel.SendStart u v) c2 = Some (c2, Channel.RErr message).
Proof.
  intros Hf Hr E. pose proof (ChannelLemmas.chan_inv_reachable _ _ _ Hf Hr) as Hi.
  pose proof (ChannelLemmas.chan_inv_respond _ _ _ _ _ _ Hi E) as [Hs _ _ _ _].
  cbn [Channel.respond] in E. destruct (Channel.holds_receiver t c); [|done].
  unfold Channel.try_recv in E. destruct (Channel.queue c) as [|v q] eqn:Eq; [|done].
  destruct (Channel.disconnected c) eqn:Ed; [|done]. simplify_eq/=. rewrite Eq, app_nil_r in Hs.
  split; [done|]. split; [done|]. intros c2 Hr2.
  apply andb_true_iff in Ed as [Hsend Hfl]. apply negb_true_iff in Hsend. apply Nat.eqb_eq in Hfl.
  apply map_size_empty_inv in Hfl.
  destruct (ChannelLemmas.drained_reachable output _ c2
    (conj Hsend (conj Hfl Eq) : ChannelLemmas.drained (Channel.set_receiver None (Channel.set_closed c))) Hr2)
    as [(Hs2 & Hf2 & _) ->].
  split; [done|]. intros u v. cbn [Channel.respond]. rewrite Hf2, lookup_empty.
  unfold Channel.send_start. rewrite Hs2.
  destruct v as [v|]; [|eauto]. destruct (Channel.channel_payload_is_send output v); simpl; eauto.
Qed.

(** How a channel comes to be: [None] asks for no bound. *)
Definition channel_created (request : option Z) (c : Channel.config) : Prop :=
  match request with None => c = Channel.new_unbounded | Some n => Channel.new_bounded n = Ok c end.

(** C15: a channel delivers what it accepts.  In every reachable configuration of a channel that was
    asked for: what was received is a prefix of what was sent, and no more values wait than the
    capacity that was asked for, which is from 1 to 16777216; a send is accepted on an open channel
    exactly when no part of the value is a resource, a boxed compiler value or an object other than a
    process output, so everything delivered is such data; and when a receive reports the end, the
    channel is closed, every value whose send succeeded has been received, and whatever the threads do
    from then on no send succeeds and each is told so. *)
Theorem channel_delivers output request c0 c :
  channel_created request c0 -> reachable (Channel.step output) c0 c ->
  Channel.sent c = Channel.received c ++ Channel.queue c /\
  match request with Some n => 1 <= n <= 16777216 /\ Z.of_nat (length (Channel.queue c)) <= n | None => True end /\
  Forall (fun v => forall x, ChannelLemmas.part v x -> ChannelLemmas.own_data output x) (Channel.sent c) /\
  (forall t v, Channel.inflight c !! t = None -> Channel.sender c = true ->
    ((exists c', Channel.respond output (Channel.SendStart t (Some v)) c = Some (c', Channel.RPending)) <->
     forall x, ChannelLemmas.part v x -> ChannelLemmas.own_data output x)) /\
  forall t c', Channel.respond output (Channel.RecvCommit t) c = Some (c', Channel.RReceived None) ->
    Channel.received c' = Channel.sent c' /\ Channel.closed c' = true /\
    forall c2, reachable (Channel.step output) c' c2 ->
      Channel.sent c2 = Channel.sent c' /\
      forall u v, exists message, Channel.respond output (Channel.SendStart u v) c2 = Some (c2, Channel.RErr message).
Proof.
  intros Hnew Hr. assert (Hf : ChannelLemmas.fresh c0) by (destruct request as [n|]; [right; by exists n|by left]).
  destruct (ChannelLemmas.chan_inv_reachable _ _ _ Hf Hr) as [Hs Hc Hb Hall _].
  split_and!; [done| | | |].
  - destruct request as [n|]; [|done]. cbn in Hnew. unfold Channel.new_bounded, Channel.MAX_CHANNEL_CAPACITY in Hnew.
    destruct (in_range 1 _ n) eqn:E; [|done]. apply in_range_true in E. injection Hnew as <-. cbn in Hb. lia.
  - eapply Forall_impl; [exact Hall|]. intros v. apply ChannelLemmas.sendable_parts.
  - intros t v Hi Hsend. rewrite <- ChannelLemmas.sendable_parts. cbn [Channel.respond]. rewrite Hi. unfold Channel.send_start, ChannelLemmas.sendable.
    rewrite Hsend. destruct (Channel.channel_payload_is_send output v); cbn [negb]; naive_solver.
  - intros t c' E. by apply (channel_close_drains output c0 c t c').
Qed.

(** Capacity 1: the second send waits for the receiver. *)
Definition demo_channel_steps : list Channel.label :=
  [Channel.SendStart 1 (Some (VInt 7)); Channel.SendStart 2 (Some (VInt 8)); Channel.SendCommit 1;
   Channel.RecvLock 3; Channel.RecvCommit 3; Channel.SendCommit 2; Channel.CloseFlag 1; Channel.CloseTake 1;
   Channel.RecvLock 3; Channel.RecvCommit 3; Channel.RecvLock 3]%nat.
Definition demo_channel_start : Channel.config :=
  match Channel.new_bounded 1 with Ok c => c | Err _ => Channel.new_unbounded end.
Definition demo_channel : Channel.config :=
  match run (Channel.step 5) demo_channel_steps demo_channel_start with
  | Some c => c | None => Channel.new_unbounded end.

Lemma channel_delivers_witness :
  Channel.received demo_channel = [VInt 7; VInt 8] /\
  Channel.sent demo_channel = Channel.received demo_channel ++ Channel.queue demo_channel.
Proof.
  split; [vm_compute; reflexivity|]. apply (channel_delivers 5 (Some 1) demo_channel_start demo_channel).
  - reflexivity.
  - apply (run_reachable _ demo_channel_steps). vm_compute. reflexivity.
Defined.

(** [select] takes from the first channel, in the order given, that is open and has
    a value; it finds nothing exactly when every channel is closed or empty, and no
    channel but the chosen one loses a value. *)
Lemma channel_select_first index cs :
  let '(found, _, cs') := Channel.select_scan index cs in
  match found with
  | Some (k, v) => exists pre c post q, cs = pre ++ c :: post /\ k = (index + length pre)%nat /\
      Forall ChannelLemmas.passed_over pre /\ Channel.closed c = false /\ Channel.queue c = v :: q /\
      Channel.queue <$> cs' = (Channel.queue <$> pre) ++ q :: (Channel.queue <$> post)
  | None => Forall ChannelLemmas.passed_over cs /\ Channel.queue <$> cs' = Channel.queue <$> cs
  end.
Proof.
  pose proof (ChannelLemmas.select_scan_spec index cs) as Hs.
  destruct (Channel.select_scan index cs) as [[found open] cs']. destruct Hs as [Hs Hq].
  destruct found as [[k v]|]; [|done].
  destruct Hs as (pre & c & post & q & -> & -> & Hall & Hc & Hv).
  exists pre, c, post, q. split_and!; try done. rewrite Hq.
  replace (index + length pre - index)%nat with (length pre + 0)%nat by lia.
  rewrite alter_app_r. csimpl. rewrite fmap_app. csimpl. unfold Channel.try_recv. by rewrite Hv.
Qed.
