(* ===== verification/Locks.v ===== *)
(** * Threads, mutexes, read-write locks and condition variables ([src/src/sync.rs])

    A transition system of threads.  An entry wraps a native lock and is shared by
    [Arc]s: the registry has one while the handle lives, every acquisition has one in
    the thread-local list of held locks, and every running call has its own.  The native
    primitives are those of pthreads: calls that POSIX leaves undefined (using or
    destroying a lock after its end, locking a mutex twice, unlocking a lock that the
    caller does not hold, waiting on one condition variable with two mutexes) set [bad].
    A native call may fail whenever it likes, a waiter may wake up at any time, and labels
    resolve both. *)

From S2P Require Import Prelude AssocList Object Value Lts.

Inductive kind : Type := KMutex | KRwLock | KCondVar.
#[export] Instance kind_eq_dec : EqDecision kind.
Proof. solve_decision. Defined.
#[export] Instance kind_countable : Countable kind.
Proof.
  refine (inj_countable' (fun k => match k with KMutex => 0%nat | KRwLock => 1%nat | KCondVar => 2%nat end)
    (fun n => match n with 0%nat => KMutex | 1%nat => KRwLock | _ => KCondVar end) _).
  by intros [].
Defined.

(** The registry an id belongs to, and the id. *)
Abbreviation key := (kind * Z)%type.

(** [MutexEntry], [RwLockEntry], [CondVarEntry]: the native object (the threads that hold
    it, with [true] for a write lock, or that wait on it), [active_holds], the strong
    count of the [Arc], and whether the native object was destroyed. *)
Record entry : Type := mk_entry { owners : list (tid * bool); active_holds : Z; arcs : Z; freed : bool }.

(** Where a thread is: in the program, in [lock_mutex] or the like (for a [with] call or
    not), between the two lookups of a [with] call, in [condvar_wait] (waiting, or woken
    and taking the mutex again), in [join], in a constructor that has registered its entry
    and allocates the object of the handle, or undoes the registration because it could
    not, or in the teardown of its thread-locals. *)
Inductive point : Type :=
| Running
| Locking (k : key) (exclusive framed : bool)
| Entering (k : key) (exclusive : bool)
| Waiting (c m : key) (timed : bool)
| Reacquiring (c m : key) (timed timed_out : bool)
| Joining (target : tid)
| Making (k : key)
| Undoing (k : key) (message : string)
| Exiting
| Done.
#[export] Instance point_eq_dec : EqDecision point.
Proof. solve_decision. Defined.

(** [held] is [HELD_MUTEXES] and [HELD_RWLOCKS], [pins] the [Arc]s in local variables,
    [frames] the callbacks that are running, [slot] the [ThreadResult], [answer] what the
    last call answered. *)
Record thread : Type := mk_thread {
  pc : point; held : list key; pins : list key; frames : list key; slot : option value; answer : result value string }.

(** [MUTEXES], [RWLOCKS] and [CONDVARS], the id counters, [THREADS] and its counter, and
    whether an undefined call was made. *)
Record config : Type := mk_config {
  entries : gmap key entry; registry : gset key; next_ids : kind -> Z;
  threads : gmap tid thread; jobs : gmap Z tid; next_thread : Z; bad : bool }.

Definition set_thread (t : tid) (x : thread) (c : config) : config :=
  mk_config (entries c) (registry c) (next_ids c) (<[t := x]> (threads c)) (jobs c) (next_thread c) (bad c).
Definition set_entry (k : key) (e : entry) (c : config) : config :=
  mk_config (<[k := e]> (entries c)) (registry c) (next_ids c) (threads c) (jobs c) (next_thread c) (bad c).
Definition set_registry (r : gset key) (c : config) : config :=
  mk_config (entries c) r (next_ids c) (threads c) (jobs c) (next_thread c) (bad c).
Definition set_jobs (m : gmap Z tid) (n : Z) (c : config) : config :=
  mk_config (entries c) (registry c) (next_ids c) (threads c) m n (bad c).
Definition set_bad (b : bool) (c : config) : config :=
  mk_config (entries c) (registry c) (next_ids c) (threads c) (jobs c) (next_thread c) (bad c || b).

Definition set_pc (p : point) (x : thread) : thread := mk_thread p (held x) (pins x) (frames x) (slot x) (answer x).
Definition set_held (l : list key) (x : thread) : thread := mk_thread (pc x) l (pins x) (frames x) (slot x) (answer x).
Definition set_pins (l : list key) (x : thread) : thread := mk_thread (pc x) (held x) l (frames x) (slot x) (answer x).
Definition set_frames (l : list key) (x : thread) : thread := mk_thread (pc x) (held x) (pins x) l (slot x) (answer x).
Definition set_slot (v : option value) (x : thread) : thread := mk_thread (pc x) (held x) (pins x) (frames x) v (answer x).
Definition reply (r : result value string) (x : thread) : thread := mk_thread (pc x) (held x) (pins x) (frames x) (slot x) r.

(** One occurrence less. *)
Fixpoint without {A} `{EqDecision A} (a : A) (l : list A) : list A :=
  match l with
  | [] => []
  | b :: l => if decide (a = b) then l else b :: without a l
  end.

(** The first ownership of [t] is given back. *)
Fixpoint disown (t : tid) (l : list (tid * bool)) : list (tid * bool) :=
  match l with
  | [] => []
  | x :: l => if decide (t = x.1) then l else x :: disown t l
  end.

Definition kind_name (kd : kind) : string := match kd with KMutex => "Mutex" | KRwLock => "RwLock" | KCondVar => "CondVar" end.
Definition id_text (id : Z) : string := pretty id.
Definition not_found (k : key) : string := kind_name k.1 +:+ " handle " +:+ id_text k.2 +:+ " not found".
Definition not_locked (k : key) : string := kind_name k.1 +:+ " handle " +:+ id_text k.2 +:+ " is not locked by this thread".
Definition failed (f : string) (rc : Z) : string := f +:+ " failed with error code " +:+ id_text rc.

(** ** The native primitives *)

Definition owns (t : tid) (e : entry) : bool := bool_decide (t ∈ (owners e).*1).

(** Undefined: a lock that was destroyed, and a mutex the caller has. *)
Definition lock_undefined (t : tid) (k : key) (e : entry) : bool := freed e || (bool_decide (k.1 = KMutex) && owns t e).
(** Undefined: a lock that was destroyed or that the caller does not hold. *)
Definition unlock_undefined (t : tid) (e : entry) : bool := freed e || negb (owns t e).
(** A lock is granted when no holder is in the way. *)
Definition grantable (exclusive : bool) (e : entry) : bool :=
  if exclusive then bool_decide (owners e = []) else forallb (fun o => negb o.2) (owners e).

Definition own (t : tid) (exclusive : bool) (e : entry) : entry := mk_entry ((t, exclusive) :: owners e) (active_holds e) (arcs e) (freed e).
Definition release (t : tid) (e : entry) : entry := mk_entry (disown t (owners e)) (active_holds e) (arcs e) (freed e).
Definition add_hold (n : Z) (e : entry) : entry := mk_entry (owners e) (active_holds e + n) (arcs e) (freed e).
Definition add_arc (n : Z) (e : entry) : entry := mk_entry (owners e) (active_holds e) (arcs e + n) (freed e).

(** An [Arc] goes; [Drop for MutexEntry], [RwLockEntry] and [CondVarEntry] with the last one.
    Destroying a lock that is held or waited on is undefined. *)
Definition drop_arc (k : key) (c : config) : config :=
  match entries c !! k with
  | None => c
  | Some e =>
      let e := add_arc (-1) e in
      if arcs e =? 0 then
        if negb (bool_decide (k.1 = KCondVar)) && negb (active_holds e =? 0) then set_entry k e c
        else set_bad (freed e || negb (bool_decide (owners e = [])))
               (set_entry k (mk_entry (owners e) (active_holds e) (arcs e) true) c)
      else set_entry k e c
  end.

(** Local variables go out of scope, as the thread moves on by [f]. *)
Definition drop_locals (t : tid) (ks : list key) (f : thread -> thread) (c : config) : config :=
  match threads c !! t with
  | Some x =>
      foldl (fun c k => drop_arc k c) (set_thread t (f (set_pins (foldl (fun l k => without k l) (pins x) ks) x)) c) ks
  | None => c
  end.

(** ** Calls *)

(** A handle argument: null, a value that is not a handle of this module, or a handle. *)
Inductive arg : Type := Null | NotHandle | Handle (kd : kind) (id : Z).

Definition extract_handle_id (h : arg) (kd : kind) : result Z string :=
  match h with
  | Null => Err "handle is null"
  | NotHandle => Err ("expected " +:+ kind_name kd +:+ " handle")
  | Handle kd' id => if decide (kd' = kd) then Ok id else Err ("expected " +:+ kind_name kd +:+ " handle")
  end.

Definition registered (k : key) (c : config) : bool := bool_decide (k ∈ registry c).
(** The registries are behind [std] mutexes.  A lookup, an insertion and a removal take and
    release theirs in one step; the guard of a constructor is a local variable that lives to
    the end of its block, over the allocation of the object and the clean-up after it. *)
Definition guard_of (p : point) : option kind :=
  match p with Making k | Undoing k _ => Some k.1 | _ => None end.
(** Nobody has the guard; locking a [std] mutex again from the thread that has it does not
    return either. *)
Definition available (kd : kind) (c : config) : bool :=
  bool_decide (map_Forall (fun _ x => guard_of (pc x) <> Some kd) (threads c)).
Definition says (t : tid) (r : result value string) (c : config) : config :=
  match threads c !! t with Some x => set_thread t (reply r x) c | None => c end.
Definition goes (t : tid) (p : point) (c : config) : config :=
  match threads c !! t with Some x => set_thread t (set_pc p x) c | None => c end.

(** [make_mutex_handle], [make_rwlock_handle] and [mux_condvar_new] up to the allocation of
    the object: the checks that answer at once (a condition variable has no payload), or the
    entry in its registry, whose guard the thread keeps. *)
Definition refuse_handle (kd : kind) (payload_null : bool) (init_error : option string) : option string :=
  if payload_null && negb (bool_decide (kd = KCondVar)) then Some (kind_name kd +:+ " payload is null")
  else match init_error with
       | Some e => Some ("Failed to initialize " +:+ kind_name kd +:+ ": " +:+ e)
       | None => None
       end.
Definition make_handle (t : tid) (kd : kind) (c : config) : config :=
  let id := next_ids c kd in
  goes t (Making (kd, id))
    (mk_config (<[(kd, id) := mk_entry [] 0 1 false]> (entries c)) ({[(kd, id)]} ∪ registry c)
      (fun kd' => if decide (kd' = kd) then id + 1 else next_ids c kd')
      (threads c) (jobs c) (next_thread c) (bad c)).

(** The object of the handle: allocated, or null, or with null data. *)
Inductive allocation : Type := Allocated | NoObject | NoData.
Definition finish_handle (t : tid) (k : key) (a : allocation) (c : config) : config :=
  match a with
  | Allocated => says t (Ok (VInt k.2)) (goes t Running c)
  | NoObject => goes t (Undoing k ("could not allocate " +:+ kind_name k.1 +:+ " handle")) c
  | NoData => goes t (Undoing k ("could not initialize " +:+ kind_name k.1 +:+ " handle")) c
  end.

(** The destructors of the handle objects. *)
Definition destroy_object (k : key) (c : config) : config :=
  if registered k c then drop_arc k (set_registry (registry c ∖ {[k]}) c) else c.

(** The clean-up of a constructor, once it has locked the registry again. *)
Definition undo_handle (t : tid) (k : key) (message : string) (c : config) : config :=
  says t (Err message) (goes t Running (destroy_object k c)).

Definition holds (t : tid) (k : key) (c : config) : bool :=
  match threads c !! t with Some x => bool_decide (k ∈ held x) | None => false end.
Definition already_locked (t : tid) (k : key) (c : config) : bool := bool_decide (k.1 = KMutex) && holds t k c.

(** [mux_mutex_lock], [mux_rwlock_read_lock] and [mux_rwlock_write_lock] up to the native call:
    a mutex is not taken twice by a thread, and the lookup pins the entry. *)
Definition start_lock (t : tid) (k : key) (exclusive framed : bool) (c : config) : result config string :=
  match threads c !! t with
  | None => Ok c
  | Some x =>
      if already_locked t k c then
        Err ("Mutex handle " +:+ id_text k.2 +:+ " is already locked by this thread")
      else if negb (registered k c) then Err (not_found k)
      else
        match entries c !! k with
        | None => Ok c
        | Some e =>
            Ok (set_bad (lock_undefined t k e)
              (set_thread t (set_pc (Locking k exclusive framed) (set_pins (k :: pins x) x)) (set_entry k (add_arc 1 e) c)))
        end
  end.

Definition lock_name (k : key) (exclusive : bool) : string :=
  match k.1 with KMutex => "mux_mutex_lock" | _ => if exclusive then "mux_rwlock_write_lock" else "mux_rwlock_read_lock" end.
Definition unlock_name (k : key) : string := match k.1 with KMutex => "mux_mutex_unlock" | _ => "mux_rwlock_unlock" end.

(** The native call returns: the pin becomes the thread's hold, or the call fails. *)
Definition granted (t : tid) (x : thread) (k : key) (exclusive framed : bool) (e : entry) (c : config) : config :=
  set_thread t (mk_thread Running (k :: held x) (without k (pins x)) (if framed then k :: frames x else frames x) (slot x) (Ok VUnit))
    (set_entry k (add_hold 1 (own t exclusive e)) c).
Definition refused (t : tid) (k : key) (exclusive framed : bool) (rc : Z) (c : config) : config :=
  says t (Err (failed (lock_name k exclusive) rc)) (drop_locals t (k :: if framed then [k] else []) (set_pc Running) c).

(** [mux_mutex_unlock] and [mux_rwlock_unlock]; the lock stays in the list when the native call fails. *)
Definition unlock (t : tid) (k : key) (rc : Z) (c : config) : config :=
  match threads c !! t, entries c !! k with
  | Some x, Some e =>
      if negb (holds t k c) then says t (Err (not_locked k)) c
      else
        let c := set_bad (unlock_undefined t e) c in
        if rc =? 0 then
          drop_arc k (set_thread t (reply (Ok VUnit) (set_held (without k (held x)) x)) (set_entry k (add_hold (-1) (release t e)) c))
        else says t (Err (failed (unlock_name k) rc)) c
  | _, _ => says t (Err (not_locked k)) c
  end.

(** [mux_mutex_with_lock], [mux_rwlock_with_read] and [mux_rwlock_with_write] up to the second lookup. *)
Definition start_with (t : tid) (k : key) (exclusive : bool) (c : config) : config :=
  match threads c !! t, entries c !! k with
  | Some x, Some e =>
      if registered k c then set_thread t (set_pc (Entering k exclusive) (set_pins (k :: pins x) x)) (set_entry k (add_arc 1 e) c)
      else says t (Err (not_found k)) c
  | _, _ => says t (Err (not_found k)) c
  end.

(** The second half of a [with] call: the callback has returned, or was null. *)
Definition end_with (t : tid) (k : key) (fs : list key) (rc : Z) (error : option string) (c : config) : config :=
  let c := drop_locals t [k] (set_frames fs) (unlock t k rc c) in
  match error with Some m => says t (Err m) c | None => c end.

Definition MAX_SYNC_TIMEOUT_MS : Z := 4294967295.

(** Every thread that is blocked on the condition variable gave it this mutex: POSIX binds
    a condition variable to one mutex as long as a thread is blocked on it. *)
Definition associated (cd m : key) (c : config) : Prop :=
  map_Forall (fun _ x => match pc x with Waiting cd' m' _ => cd' = cd -> m' = m | _ => True end) (threads c).
#[export] Instance associated_dec cd m c : Decision (associated cd m c).
Proof. apply map_Forall_dec. intros _ x. destruct (pc x); apply _. Defined.

Definition wait_name (timeout : option Z) : string := match timeout with None => "mux_condvar_wait" | Some _ => "mux_condvar_wait_timeout" end.

(** [mux_condvar_wait] and [mux_condvar_wait_timeout] up to the native wait, which gives the mutex
    back; [rc] is what the native call answers when it does not wait. *)
Definition start_wait (t : tid) (cd m : key) (timeout : option Z) (rc : Z) (c : config) : config :=
  match threads c !! t with
  | None => c
  | Some x =>
      if negb (holds t m c) then
        says t (Err ("CondVar wait requires Mutex handle " +:+ id_text m.2 +:+ " to be locked by this thread")) c
      else if negb (registered cd c) then says t (Err (not_found cd)) c
      else if negb (registered m c) then says t (Err (not_found m)) c
      else
        match entries c !! cd, entries c !! m with
        | Some ec, Some em =>
            let c := set_bad (freed ec || unlock_undefined t em || negb (bool_decide (associated cd m c))) c in
            if rc =? 0 then
              set_thread t (set_pc (Waiting cd m (bool_decide (is_Some timeout))) (set_pins (cd :: m :: pins x) x))
                (set_entry m (add_arc 1 (release t em)) (set_entry cd (add_arc 1 (own t false ec)) c))
            else says t (Err (failed (wait_name timeout) rc)) c
        | _, _ => c
        end
  end.
Definition bad_timeout (timeout : option Z) : option string :=
  match timeout with
  | None => None
  | Some ms =>
      if ms <? 0 then Some "CondVar timeout must not be negative"
      else if MAX_SYNC_TIMEOUT_MS <? ms then Some "CondVar timeout is too large"
      else None
  end.

(** The waiter leaves the condition variable, and the native wait returns with the mutex. *)
Definition woken (t : tid) (x : thread) (cd m : key) (timed timed_out : bool) (ec : entry) (c : config) : config :=
  set_thread t (set_pc (Reacquiring cd m timed timed_out) x) (set_entry cd (release t ec) c).
Definition reacquired (t : tid) (cd m : key) (timed timed_out : bool) (em : entry) (c : config) : config :=
  drop_locals t [cd; m] (fun x => reply (Ok (if timed then VBool (negb timed_out) else VUnit)) (set_pc Running x))
    (set_entry m (own t true em) c).

(** [mux_condvar_signal] and [mux_condvar_broadcast]; a waiter may wake without them. *)
Definition notify (t : tid) (all : bool) (cd : key) (rc : Z) (c : config) : config :=
  match entries c !! cd with
  | Some ec =>
      if registered cd c then
        set_bad (freed ec) (says t (if rc =? 0 then Ok VUnit else Err (failed (if all then "mux_condvar_broadcast" else "mux_condvar_signal") rc)) c)
      else says t (Err (not_found cd)) c
  | None => says t (Err (not_found cd)) c
  end.

(** ** Threads *)

(** [mux_sync_spawn]: the new thread runs whether or not its handle can be allocated. *)
Definition spawn (t t' : tid) (start_error : option string) (allocated : bool) (c : config) : config :=
  match start_error with
  | Some e => says t (Err ("Failed to spawn thread: " +:+ e)) c
  | None =>
      let id := next_thread c in
      let c := set_thread t' (mk_thread Running [] [] [] None (Ok VUnit)) c in
      if allocated then says t (Ok (VInt id)) (set_jobs (<[id := t']> (jobs c)) (id + 1) c)
      else says t (Err "could not allocate Thread handle") (set_jobs (jobs c) (id + 1) c)
  end.

Definition thread_not_found (id : Z) : string := "Thread handle " +:+ id_text id +:+ " not found".
Definition mux_thread_join (t : tid) (id : Z) (c : config) : config :=
  match jobs c !! id with
  | Some t' => goes t (Joining t') (set_jobs (delete id (jobs c)) (next_thread c) c)
  | None => says t (Err (thread_not_found id)) c
  end.
Definition mux_thread_detach (t : tid) (id : Z) (c : config) : config :=
  match jobs c !! id with
  | Some _ => says t (Ok VUnit) (set_jobs (delete id (jobs c)) (next_thread c) c)
  | None => says t (Err (thread_not_found id)) c
  end.
Definition destroy_thread_object (id : Z) (c : config) : config := set_jobs (delete id (jobs c)) (next_thread c) c.

(** [handle.join()] returns once the thread is gone, its thread-locals with it. *)
Definition joined (t t' : tid) (x' : thread) (c : config) : config :=
  let c := goes t Running (set_thread t' (set_slot None x') c) in
  says t (match slot x' with Some v => Ok v | None => Err "Thread completed without a result" end) c.

(** [Drop for HeldMutex] and [HeldRwLock], when the thread-locals go. *)
Definition teardown (t : tid) (x : thread) (k : key) (rc : Z) (c : config) : config :=
  match entries c !! k with
  | Some e =>
      let c := set_bad (unlock_undefined t e) c in
      drop_arc k (set_thread t (set_held (without k (held x)) x) (if rc =? 0 then set_entry k (add_hold (-1) (release t e)) c else c))
  | None => c
  end.

(** ** Steps *)

Inductive label : Type :=
| New (t : tid) (kd : kind) (payload_null : bool) (init_error : option string)
| Made (t : tid) (a : allocation)
| Undo (t : tid)
| DropHandle (t : tid) (k : key)
| Lock (t : tid) (kd : kind) (h : arg) (exclusive : bool)
| Grant (t : tid) (rc : Z)
| Unlock (t : tid) (kd : kind) (h : arg) (rc : Z)
| With (t : tid) (kd : kind) (h : arg) (exclusive : bool)
| Enter (t : tid)
| Return (t : tid) (rc : Z) (error : option string)
| Wait (t : tid) (cond mutex : arg) (timeout : option Z) (rc : Z)
| Wake (t : tid) (timed_out : bool)
| Reacquire (t : tid)
| Notify (t : tid) (all : bool) (cond : arg) (rc : Z)
| Spawn (t t' : tid) (start_error : option string) (allocated : bool)
| Join (t : tid) (id : Z)
| Joined (t : tid)
| Detach (t : tid) (id : Z)
| DropThread (t : tid) (id : Z)
| Finish (t : tid) (v : value)
| Teardown (t : tid) (rc : Z).

(** A call of a running thread on a handle. *)
Definition on_handle (t : tid) (kd : kind) (h : arg) (f : key -> option config) (c : config) : option config :=
  match threads c !! t with
  | Some x =>
      if decide (pc x = Running) then
        match extract_handle_id h kd with
        | Err e => Some (says t (Err e) c)
        | Ok id => f (kd, id)
        end
      else None
  | None => None
  end.

(** A step of a running thread. *)
Definition while_running (t : tid) (f : thread -> option config) (c : config) : option config :=
  match threads c !! t with Some x => if decide (pc x = Running) then f x else None | None => None end.

Definition lockable (kd : kind) (exclusive : bool) : bool :=
  match kd with KMutex => exclusive | KRwLock => true | KCondVar => false end.

Definition step (l : label) (c : config) : option config :=
  match l with
  | New t kd payload_null init_error =>
      while_running t (fun _ =>
        match refuse_handle kd payload_null init_error with
        | Some e => Some (says t (Err e) c)
        | None => if available kd c && (next_ids c kd <? i64_max) then Some (make_handle t kd c) else None
        end) c
  | Made t a =>
      match threads c !! t with
      | Some x => match pc x with Making k => Some (finish_handle t k a c) | _ => None end
      | None => None
      end
  | Undo t =>
      match threads c !! t with
      | Some x =>
          match pc x with
          | Undoing k message => if available k.1 c then Some (undo_handle t k message c) else None
          | _ => None
          end
      | None => None
      end
  | DropHandle t k => while_running t (fun _ => if available k.1 c then Some (destroy_object k c) else None) c
  | Lock t kd h exclusive =>
      if lockable kd exclusive then
        on_handle t kd h (fun k =>
          if already_locked t k c || available kd c then
            Some (match start_lock t k exclusive false c with Ok c => c | Err e => says t (Err e) c end)
          else None) c
      else None
  | Grant t rc =>
      match threads c !! t with
      | Some x =>
          match pc x with
          | Locking k exclusive framed =>
              match entries c !! k with
              | Some e =>
                  if rc =? 0 then if grantable exclusive e then Some (granted t x k exclusive framed e c) else None
                  else Some (refused t k exclusive framed rc c)
              | None => None
              end
          | _ => None
          end
      | None => None
      end
  | Unlock t kd h rc => if lockable kd true then on_handle t kd h (fun k => Some (unlock t k rc c)) c else None
  | With t kd h exclusive => if lockable kd exclusive then on_handle t kd h (fun k => if available kd c then Some (start_with t k exclusive c) else None) c else None
  | Enter t =>
      match threads c !! t with
      | Some x =>
          match pc x with
          | Entering k exclusive =>
              if already_locked t k c || available k.1 c then
                Some (match start_lock t k exclusive true c with
                      | Ok c => c
                      | Err e => says t (Err e) (drop_locals t [k] (set_pc Running) c)
                      end)
              else None
          | _ => None
          end
      | None => None
      end
  | Return t rc error => while_running t (fun x => match frames x with k :: fs => Some (end_with t k fs rc error c) | [] => None end) c
  | Wait t cond mutex timeout rc =>
      while_running t (fun _ =>
        match bad_timeout timeout with
        | Some e => Some (says t (Err e) c)
        | None =>
            match extract_handle_id cond KCondVar, extract_handle_id mutex KMutex with
            | Err e, _ => Some (says t (Err e) c)
            | _, Err e => Some (says t (Err e) c)
            | Ok cd, Ok m => if negb (holds t (KMutex, m) c) || (available KCondVar c && available KMutex c) then Some (start_wait t (KCondVar, cd) (KMutex, m) timeout rc c) else None
            end
        end) c
  | Wake t timed_out =>
      match threads c !! t with
      | Some x =>
          match pc x with
          | Waiting cd m timed =>
              match entries c !! cd with
              | Some ec => if timed || negb timed_out then Some (woken t x cd m timed timed_out ec c) else None
              | None => None
              end
          | _ => None
          end
      | None => None
      end
  | Reacquire t =>
      match threads c !! t with
      | Some x =>
          match pc x with
          | Reacquiring cd m timed timed_out =>
              match entries c !! m with
              | Some em => if grantable true em then Some (reacquired t cd m timed timed_out em c) else None
              | None => None
              end
          | _ => None
          end
      | None => None
      end
  | Notify t all cond rc => on_handle t KCondVar cond (fun k => if available KCondVar c then Some (notify t all k rc c) else None) c
  | Spawn t t' start_error allocated =>
      while_running t (fun _ => if bool_decide (threads c !! t' = None) then Some (spawn t t' start_error allocated c) else None) c
  | Join t id => while_running t (fun _ => Some (mux_thread_join t id c)) c
  | Joined t =>
      match threads c !! t with
      | Some x =>
          match pc x with
          | Joining t' =>
              match threads c !! t' with
              | Some x' => if decide (pc x' = Done) then Some (joined t t' x' c) else None
              | None => None
              end
          | _ => None
          end
      | None => None
      end
  | Detach t id => while_running t (fun _ => Some (mux_thread_detach t id c)) c
  | DropThread t id => while_running t (fun _ => Some (destroy_thread_object id c)) c
  | Finish t v =>
      while_running t (fun x => match frames x with [] => Some (set_thread t (set_pc Exiting (set_slot (Some v) x)) c) | _ => None end) c
  | Teardown t rc =>
      match threads c !! t with
      | Some x =>
          if decide (pc x = Exiting) then
            match held x with
            | k :: _ => Some (teardown t x k rc c)
            | [] => Some (set_thread t (set_pc Done x) c)
            end
          else None
      | None => None
      end
  end.

(** ** The calls

    The steps of each function; a call stops at the first step that answers, and blocks
    while its next step is not enabled.  [rc] is what a native call answers. *)

Definition make_mutex_handle (t : tid) (payload_null : bool) (init_error : option string) (a : allocation) : list label :=
  [New t KMutex payload_null init_error; Made t a; Undo t].
Definition make_rwlock_handle (t : tid) (payload_null : bool) (init_error : option string) (a : allocation) : list label :=
  [New t KRwLock payload_null init_error; Made t a; Undo t].
Definition mux_condvar_new (t : tid) (init_error : option string) (a : allocation) : list label :=
  [New t KCondVar false init_error; Made t a; Undo t].
Definition destroy_mutex_object (t : tid) (id : Z) : list label := [DropHandle t (KMutex, id)].
Definition destroy_rwlock_object (t : tid) (id : Z) : list label := [DropHandle t (KRwLock, id)].
Definition destroy_condvar_object (t : tid) (id : Z) : list label := [DropHandle t (KCondVar, id)].

Definition mux_mutex_lock (t : tid) (mutex : arg) (rc : Z) : list label := [Lock t KMutex mutex true; Grant t rc].
Definition mux_rwlock_read_lock (t : tid) (rwlock : arg) (rc : Z) : list label := [Lock t KRwLock rwlock false; Grant t rc].
Definition mux_rwlock_write_lock (t : tid) (rwlock : arg) (rc : Z) : list label := [Lock t KRwLock rwlock true; Grant t rc].
Definition mux_mutex_unlock (t : tid) (mutex : arg) (rc : Z) : list label := [Unlock t KMutex mutex rc].
Definition mux_rwlock_unlock (t : tid) (rwlock : arg) (rc : Z) : list label := [Unlock t KRwLock rwlock rc].

(** [callback] is what the callback does, [error] why it could not be called, [rc'] what the
    native unlock answers. *)
Definition with_call (t : tid) (kd : kind) (h : arg) (exclusive : bool) (rc : Z) (callback : list label) (error : option string) (rc' : Z) : list label :=
  [With t kd h exclusive; Enter t; Grant t rc] ++ (if error then [] else callback) ++ [Return t rc' error].
Definition mux_mutex_with_lock (t : tid) (mutex : arg) := with_call t KMutex mutex true.
Definition mux_rwlock_with_read (t : tid) (rwlock : arg) := with_call t KRwLock rwlock false.
Definition mux_rwlock_with_write (t : tid) (rwlock : arg) := with_call t KRwLock rwlock true.

(** [invoke_payload_callback]: why a callback is not called. *)
Definition callback_error (callback_null payload_null function_null : bool) : option string :=
  if callback_null then Some "callback is null"
  else if payload_null then Some "lock payload is null"
  else if function_null then Some "callback function is null" else None.

Definition mux_condvar_wait (t : tid) (condvar mutex : arg) (rc : Z) : list label := [Wait t condvar mutex None rc; Wake t false; Reacquire t].
Definition mux_condvar_wait_timeout (t : tid) (condvar mutex : arg) (timeout_ms rc : Z) (timed_out : bool) : list label :=
  [Wait t condvar mutex (Some timeout_ms) rc; Wake t timed_out; Reacquire t].
Definition mux_condvar_signal (t : tid) (condvar : arg) (rc : Z) : list label := [Notify t false condvar rc].
Definition mux_condvar_broadcast (t : tid) (condvar : arg) (rc : Z) : list label := [Notify t true condvar rc].

Definition mux_sync_spawn (t t' : tid) (start_error : option string) (allocated : bool) : list label := [Spawn t t' start_error allocated].
(** The body of a thread, and the end of its thread-locals. *)
Definition thread_body (t : tid) (body : list label) (v : value) (rcs : list Z) : list label := body ++ [Finish t v] ++ (Teardown t <$> rcs).

Definition start : config := mk_config ∅ ∅ (fun _ => 1) {[ 0%nat := mk_thread Running [] [] [] None (Ok VUnit) ]} ∅ 1 false.

(** * The invariant of the locks

    [inv d c]: every [Arc] of an entry is accounted for by the registry, a held lock, a
    local variable of a thread or the list [d] of a step in progress; what a thread thinks
    it holds is what the native locks say; no undefined native call was made. *)

Implicit Types (c : config) (x : thread) (k : key) (e : entry) (t : tid) (d : list key).

Lemma occ_without {A} `{EqDecision A} (a b : A) l : a ∈ l -> occ b (without a l) = occ b l - Z.b2z (same b a).
Proof.
  induction l as [|y l IH]; [by intros ?%not_elem_of_nil|]. intros Ha. cbn [without]. rewrite occ_cons.
  case_decide as E; [subst y; lia|]. rewrite occ_cons, IH; [lia|]. apply elem_of_cons in Ha as [?|?]; [done|done].
Qed.

(** The ownerships of a thread. *)
Definition own_count t e : Z := occ t (owners e).*1.

Lemma disown_count t t' l : t ∈ l.*1 -> occ t' (disown t l).*1 = occ t' l.*1 - Z.b2z (same t' t).
Proof.
  induction l as [|[u b] l IH]; [by intros ?%not_elem_of_nil|]. intros Ht. cbn [disown fmap list_fmap fst]. rewrite occ_cons.
  case_decide as E; [subst u; lia|]. cbn [fmap list_fmap fst]. rewrite occ_cons, IH; [lia|].
  cbn in Ht. apply elem_of_cons in Ht as [?|?]; [done|done].
Qed.

Lemma disown_length t l : t ∈ l.*1 -> Z.of_nat (length (disown t l)) = Z.of_nat (length l) - 1.
Proof.
  induction l as [|[u b] l IH]; [by intros ?%not_elem_of_nil|]. intros Ht. cbn [disown fst].
  case_decide as E; [cbn; lia|]. cbn [length]. rewrite !Nat2Z.inj_succ, IH; [lia|].
  cbn in Ht. apply elem_of_cons in Ht as [?|?]; [done|done].
Qed.

Definition refs k x : Z := occ k (held x) + occ k (pins x).
Definition waits k x : Z := match pc x with Waiting _ m _ | Reacquiring _ m _ _ => Z.b2z (same k m) | _ => 0 end.
Definition waits_on k x : Z := match pc x with Waiting cd _ _ => Z.b2z (same k cd) | _ => 0 end.
Definition leaving x : bool := match pc x with Exiting | Done => true | _ => false end.

(** The [Arc]s a thread has in local variables. *)
Definition point_pins (p : point) : list key :=
  match p with
  | Locking k _ framed => k :: (if framed then [k] else [])
  | Entering k _ => [k]
  | Waiting cd m _ | Reacquiring cd m _ _ => [cd; m]
  | _ => []
  end.

(** What the thread-locals say about [k] against the [n] ownerships of the native lock. *)
Definition agrees x k (n : Z) : Prop :=
  if leaving x then occ k (held x) <= n else occ k (held x) + waits_on k x = n + waits k x.

Definition point_ok x : Prop :=
  match pc x with
  | Locking k exclusive _ | Entering k exclusive => lockable k.1 exclusive = true
  | Waiting cd m _ | Reacquiring cd m _ _ => cd.1 = KCondVar /\ m.1 = KMutex /\ m ∈ held x
  | _ => True
  end.

Definition thread_ok x : Prop :=
  point_ok x /\ Forall (fun k => k.1 <> KCondVar) (held x ++ frames x) /\
  forall k, occ k (pins x) = occ k (point_pins (pc x)) + occ k (frames x).

Record entry_ok d c k e : Prop := {
  e_arcs : arcs e = Z.b2z (registered k c) + total (refs k) (threads c) + occ k d;
  e_active : k.1 <> KCondVar -> active_holds e = Z.of_nat (length (owners e)) + total (waits k) (threads c);
  e_waiters : k.1 = KCondVar -> Z.of_nat (length (owners e)) = total (waits_on k) (threads c);
  e_freed : freed e = true -> arcs e = 0;
  e_owners t : threads c !! t = None -> own_count t e = 0;
}.

Record inv d c : Prop := {
  i_bad : bad c = false;
  i_entry k e : entries c !! k = Some e -> entry_ok d c k e;
  i_thread t x : threads c !! t = Some x -> thread_ok x;
  i_agree t x k e : threads c !! t = Some x -> entries c !! k = Some e -> agrees x k (own_count t e);
  i_known k : 0 < Z.b2z (registered k c) + total (refs k) (threads c) + occ k d -> is_Some (entries c !! k);
  i_next kd id : next_ids c kd <= id -> entries c !! (kd, id) = None;
}.

Lemma refs_nonneg k x : 0 <= refs k x.
Proof. unfold refs. pose proof (occ_nonneg k (held x)). pose proof (occ_nonneg k (pins x)). lia. Qed.
Lemma waits_nonneg k x : 0 <= waits k x.
Proof. unfold waits. destruct (pc x); try done; apply b2z_nonneg. Qed.
Lemma waits_on_nonneg k x : 0 <= waits_on k x.
Proof. unfold waits_on. destruct (pc x); try done. apply b2z_nonneg. Qed.
#[export] Hint Resolve refs_nonneg waits_nonneg waits_on_nonneg : mux.

(** Somebody who refers to the entry keeps it alive. *)
Lemma ref_alive d c k e t x : inv d c -> entries c !! k = Some e -> threads c !! t = Some x -> 0 < refs k x -> freed e = false.
Proof.
  intros I He Hx Hr. destruct (freed e) eqn:Ef; [|done]. destruct (i_entry _ _ I k e He) as [Ha _ _ Hf _].
  specialize (Hf Ef). pose proof (total_ge (refs k) (threads c) t x (refs_nonneg k) Hx). pose proof (occ_nonneg k d).
  pose proof (b2z_nonneg (registered k c)). lia.
Qed.

Lemma registered_alive d c k e : inv d c -> entries c !! k = Some e -> registered k c = true -> freed e = false.
Proof.
  intros I He Hr. destruct (freed e) eqn:Ef; [|done]. destruct (i_entry _ _ I k e He) as [Ha _ _ Hf _]. specialize (Hf Ef).
  pose proof (total_nonneg (refs k) (threads c) (fun _ y _ => refs_nonneg k y)). pose proof (occ_nonneg k d). rewrite Hr in Ha. cbn in Ha. lia.
Qed.

(** ** Updates *)

(** Thread [t] and entry [k] change together; [d'] makes up for the [Arc]s. *)
Lemma inv_upd d d' c t x x' k e e' : inv d c -> threads c !! t = Some x -> entries c !! k = Some e ->
  thread_ok x' -> freed e' = freed e -> freed e = false ->
  (forall k', refs k' x' + occ k' d' + (if same k' k then arcs e - arcs e' else 0) = refs k' x + occ k' d) ->
  (forall k', k' <> k -> waits k' x' = waits k' x /\ waits_on k' x' = waits_on k' x) ->
  (k.1 <> KCondVar -> active_holds e' - Z.of_nat (length (owners e')) - waits k x' = active_holds e - Z.of_nat (length (owners e)) - waits k x) ->
  (k.1 = KCondVar -> Z.of_nat (length (owners e')) - waits_on k x' = Z.of_nat (length (owners e)) - waits_on k x) ->
  (forall t', t' <> t -> own_count t' e' = own_count t' e) ->
  agrees x' k (own_count t e') -> (forall k' n, k' <> k -> agrees x k' n -> agrees x' k' n) ->
  inv d' (set_thread t x' (set_entry k e' c)).
Proof.
  intros I Hx He Hok Hf Hal Hrefs Hother Hact Hwait Hown Hagree Hagree'. destruct I as [I1 I2 I3 I4 I5 I6].
  assert (forall k', total (refs k') (<[t := x']> (threads c)) + occ k' d' + (if same k' k then arcs e - arcs e' else 0) =
    total (refs k') (threads c) + occ k' d) as Hsum.
  { intros k'. rewrite (total_set _ _ _ _ _ Hx). specialize (Hrefs k'). lia. }
  split; cbn [bad entries threads registry next_ids set_thread set_entry].
  - done.
  - intros k' e2 Hk'. destruct (decide (k' = k)) as [->|Hne].
    + rewrite lookup_insert_eq in Hk'. injection Hk' as <-. destruct (I2 k e He) as [A1 A2 A3 A4 A5].
      specialize (Hsum k). unfold same in Hsum. rewrite bool_decide_true in Hsum by done.
      split; cbn [threads set_thread set_entry].
      * change (registered k _) with (registered k c). lia.
      * intros Hk. rewrite (total_set _ _ _ _ _ Hx). specialize (A2 Hk). specialize (Hact Hk). lia.
      * intros Hk. rewrite (total_set _ _ _ _ _ Hx). specialize (A3 Hk). specialize (Hwait Hk). lia.
      * rewrite Hf, Hal. done.
      * intros t' Ht'. destruct (decide (t' = t)) as [->|Hnt]; [by rewrite lookup_insert_eq in Ht'|].
        rewrite lookup_insert_ne in Ht' by done. rewrite Hown by done. by apply A5.
    + rewrite lookup_insert_ne in Hk' by done. destruct (I2 k' e2 Hk') as [A1 A2 A3 A4 A5]. destruct (Hother k' Hne) as [O1 O2].
      specialize (Hsum k'). unfold same in Hsum. rewrite bool_decide_false in Hsum by done.
      split; cbn [threads set_thread set_entry]; try done.
      * change (registered k' _) with (registered k' c). lia.
      * intros Hk. rewrite (total_set _ _ _ _ _ Hx), O1. specialize (A2 Hk). lia.
      * intros Hk. rewrite (total_set _ _ _ _ _ Hx), O2. specialize (A3 Hk). lia.
      * intros t' Ht'. destruct (decide (t' = t)) as [->|Hnt]; [by rewrite lookup_insert_eq in Ht'|].
        rewrite lookup_insert_ne in Ht' by done. by apply A5.
  - intros t' y Hy. destruct (decide (t' = t)) as [->|Hnt]; [rewrite lookup_insert_eq in Hy; by injection Hy as <-|].
    rewrite lookup_insert_ne in Hy by done. by eapply I3.
  - intros t' y k' e2 Hy Hk'. destruct (decide (t' = t)) as [->|Hnt].
    + rewrite lookup_insert_eq in Hy. injection Hy as <-. destruct (decide (k' = k)) as [->|Hne].
      * rewrite lookup_insert_eq in Hk'. by injection Hk' as <-.
      * rewrite lookup_insert_ne in Hk' by done. apply Hagree'; [done|]. by eapply I4.
    + rewrite lookup_insert_ne in Hy by done. destruct (decide (k' = k)) as [->|Hne].
      * rewrite lookup_insert_eq in Hk'. injection Hk' as <-. rewrite Hown by done. by eapply I4.
      * rewrite lookup_insert_ne in Hk' by done. by eapply I4.
  - intros k' Hp. destruct (decide (k' = k)) as [->|Hne]; [by rewrite lookup_insert_eq|].
    rewrite lookup_insert_ne by done. apply I5. specialize (Hsum k'). unfold same in Hsum. rewrite bool_decide_false in Hsum by done.
    change (registered k' _) with (registered k' c) in Hp. lia.
  - intros kd id Hid. specialize (I6 kd id Hid). rewrite lookup_insert_ne; [done|]. congruence.
Qed.

(** Only the thread changes. *)
Lemma inv_thread d d' c t x x' : inv d c -> threads c !! t = Some x -> thread_ok x' ->
  (forall k, refs k x' + occ k d' = refs k x + occ k d) -> (forall k, waits k x' = waits k x /\ waits_on k x' = waits_on k x) ->
  (forall k n, agrees x k n -> agrees x' k n) -> inv d' (set_thread t x' c).
Proof.
  intros [I1 I2 I3 I4 I5 I6] Hx Hok Hrefs Hw Hagree.
  assert (forall k, total (refs k) (<[t := x']> (threads c)) + occ k d' = total (refs k) (threads c) + occ k d) as Hsum.
  { intros k. rewrite (total_set _ _ _ _ _ Hx). specialize (Hrefs k). lia. }
  split; cbn [bad entries threads registry next_ids set_thread]; try done.
  - intros k e Hk. destruct (I2 k e Hk) as [A1 A2 A3 A4 A5]. destruct (Hw k) as [O1 O2]. specialize (Hsum k).
    split; cbn [threads set_thread]; try done.
    + change (registered k _) with (registered k c). lia.
    + intros Hc. rewrite (total_set _ _ _ _ _ Hx), O1. specialize (A2 Hc). lia.
    + intros Hc. rewrite (total_set _ _ _ _ _ Hx), O2. specialize (A3 Hc). lia.
    + intros t' Ht'. apply A5. destruct (decide (t' = t)) as [->|Hnt]; [by rewrite lookup_insert_eq in Ht'|].
      by rewrite lookup_insert_ne in Ht'.
  - intros t' y Hy. destruct (decide (t' = t)) as [->|Hnt]; [rewrite lookup_insert_eq in Hy; by injection Hy as <-|].
    rewrite lookup_insert_ne in Hy by done. by eapply I3.
  - intros t' y k e Hy Hk. destruct (decide (t' = t)) as [->|Hnt].
    + rewrite lookup_insert_eq in Hy. injection Hy as <-. apply Hagree. by eapply I4.
    + rewrite lookup_insert_ne in Hy by done. by eapply I4.
  - intros k Hp. apply I5. specialize (Hsum k). change (registered k _) with (registered k c) in Hp. lia.
Qed.

(** Answers and result slots are not in the invariant. *)
Lemma inv_reply d c t x x' : inv d c -> threads c !! t = Some x -> pc x' = pc x -> held x' = held x -> pins x' = pins x -> frames x' = frames x ->
  inv d (set_thread t x' c).
Proof.
  intros I Hx E1 E2 E3 E4. eapply inv_thread; [done|done| | | |].
  - pose proof (i_thread _ _ I t x Hx) as Hok. unfold thread_ok, point_ok in *. by rewrite E1, E2, E3, E4.
  - intros k. unfold refs. by rewrite E2, E3.
  - intros k. unfold waits, waits_on. by rewrite E1.
  - intros k n. unfold agrees, leaving, waits, waits_on. by rewrite E1, E2.
Qed.

Lemma inv_says d c t r : inv d c -> inv d (says t r c).
Proof. intros I. unfold says. destruct (threads c !! t) as [x|] eqn:Hx; [|done]. by eapply inv_reply. Qed.

Lemma inv_good d c b : inv d c -> b = false -> inv d (set_bad b c).
Proof. intros [I1 I2 I3 I4 I5 I6] ->. split; try done; [cbn; by rewrite I1|]. intros k e Hk. destruct (I2 k e Hk). by split. Qed.

(** ** The last [Arc] *)

(** Only the entry changes: an [Arc] less, and perhaps the native object with it. *)
Lemma inv_arc d c k e (f : bool) : inv (k :: d) c -> entries c !! k = Some e -> (f = true -> arcs e = 1) ->
  inv d (set_entry k (mk_entry (owners e) (active_holds e) (arcs e + -1) (freed e || f)) c).
Proof.
  intros [I1 I2 I3 I4 I5 I6] He Hf. pose proof (I2 k e He) as [A1 A2 A3 A4 A5].
  assert (0 < arcs e) as Hpos.
  { rewrite A1, occ_cons. unfold same. rewrite bool_decide_true by done. cbn [Z.b2z]. pose proof (occ_nonneg k d).
    pose proof (b2z_nonneg (registered k c)). pose proof (total_nonneg (refs k) (threads c) (fun _ y _ => refs_nonneg k y)). lia. }
  assert (freed e = false) as Hal by (destruct (freed e); [specialize (A4 eq_refl); lia|done]).
  assert (forall k', k' <> k -> occ k' (k :: d) = occ k' d) as Hocc.
  { intros k' Hne. rewrite occ_cons. unfold same. by rewrite bool_decide_false. }
  split; cbn [bad entries threads registry next_ids set_entry]; try done.
  - intros k' e2 Hk'. destruct (decide (k' = k)) as [->|Hne].
    + rewrite lookup_insert_eq in Hk'. injection Hk' as <-. split; cbn; try done.
      * change (registered k _) with (registered k c). rewrite A1, occ_cons. unfold same. rewrite bool_decide_true by done. cbn [Z.b2z]. lia.
      * rewrite Hal. cbn. intros E. specialize (Hf E). lia.
    + rewrite lookup_insert_ne in Hk' by done. destruct (I2 k' e2 Hk') as [B1 B2 B3 B4 B5]. split; cbn; try done.
      change (registered k' _) with (registered k' c). rewrite B1, Hocc by done. done.
  - intros t x k' e2 Hx Hk'. destruct (decide (k' = k)) as [->|Hne].
    + rewrite lookup_insert_eq in Hk'. injection Hk' as <-. by eapply (I4 t x k e).
    + rewrite lookup_insert_ne in Hk' by done. by eapply I4.
  - intros k' Hp. destruct (decide (k' = k)) as [->|Hne]; [by rewrite lookup_insert_eq|]. rewrite lookup_insert_ne by done.
    apply I5. rewrite Hocc by done. done.
  - intros kd id Hid. specialize (I6 kd id Hid). rewrite lookup_insert_ne; [done|]. congruence.
Qed.

(** A waiter keeps its condition variable. *)
Lemma waits_on_refs k x : thread_ok x -> waits_on k x <= refs k x.
Proof.
  intros (_ & _ & Hp). unfold refs. rewrite Hp. unfold waits_on, point_pins. pose proof (occ_nonneg k (held x)).
  pose proof (occ_nonneg k (frames x)). destruct (pc x) as [|k1 b1 b2|k1 b1|cd m b1|cd m b1 b2| | | | |]; try (unfold occ in *; cbn in *; lia).
  rewrite !occ_cons. pose proof (b2z_nonneg (same k m)). pose proof (occ_nonneg k []). lia.
Qed.

(** When the last [Arc] goes the native object is free. *)
Lemma last_free d c k e : inv (k :: d) c -> entries c !! k = Some e -> arcs e = 1 -> (k.1 = KCondVar \/ active_holds e = 0) -> owners e = [].
Proof.
  intros I He Ha Hk. destruct (i_entry _ _ I k e He) as [A1 A2 A3 A4 A5].
  assert (Z.of_nat (length (owners e)) = 0); [|destruct (owners e); [done|cbn in *; lia]].
  destruct (decide (k.1 = KCondVar)) as [Hc|Hc].
  - rewrite (A3 Hc). rewrite Ha, occ_cons in A1. unfold same in A1. rewrite bool_decide_true in A1 by done. cbn [Z.b2z] in A1.
    pose proof (occ_nonneg k d). pose proof (b2z_nonneg (registered k c)).
    pose proof (total_le (waits_on k) (refs k) (threads c) (fun t y Hy => waits_on_refs k y (i_thread _ _ I t y Hy))).
    pose proof (total_nonneg (waits_on k) (threads c) (fun _ y _ => waits_on_nonneg k y)).
    pose proof (total_nonneg (refs k) (threads c) (fun _ y _ => refs_nonneg k y)). lia.
  - destruct Hk as [?|Hk]; [done|]. specialize (A2 Hc). pose proof (total_nonneg (waits k) (threads c) (fun _ y _ => waits_nonneg k y)). lia.
Qed.

Lemma drop_arc_ok d c k : inv (k :: d) c -> inv d (drop_arc k c).
Proof.
  intros I. unfold drop_arc. assert (0 < occ k (k :: d)) as Hk by (apply occ_elem; left).
  destruct (entries c !! k) as [e|] eqn:He.
  2: { destruct (i_known _ _ I k) as [e He']; [|congruence]. pose proof (b2z_nonneg (registered k c)).
       pose proof (total_nonneg (refs k) (threads c) (fun _ y _ => refs_nonneg k y)). lia. }
  destruct (Z.eqb_spec (arcs (add_arc (-1) e)) 0) as [Hz|Hz]; cbn [arcs add_arc] in Hz.
  - destruct (_ && _) eqn:Eb.
    + pose proof (inv_arc d c k e false I He ltac:(done)) as I'. by rewrite orb_false_r in I'.
    + apply inv_good.
      * pose proof (inv_arc d c k e true I He ltac:(lia)) as I'. by rewrite orb_true_r in I'.
      * cbn. assert (freed e = false) as ->.
        { destruct (freed e) eqn:Ef; [|done]. pose proof (e_freed _ _ _ _ (i_entry _ _ I k e He) Ef). lia. }
        cbn. rewrite bool_decide_true; [done|]. eapply last_free; [done|done|lia|].
        apply andb_false_iff in Eb as [Eb|Eb]; [left|right].
        { apply negb_false_iff, bool_decide_eq_true in Eb. done. }
        { apply negb_false_iff in Eb. cbn in Eb. lia. }
  - pose proof (inv_arc d c k e false I He ltac:(done)) as I'. by rewrite orb_false_r in I'.
Qed.
