(* ===== verification/LocksProps.v ===== *)
(** * What the locks promise

    No interleaving of threads, failures of the native calls and wake-ups makes an
    undefined native call, and the native locks exclude what they should. *)

From S2P Require Import Prelude AssocList Object Value Lts Locks.

Implicit Types (c : config) (x : thread) (k : key) (e : entry) (t : tid) (d : list key).

Lemma lockable_kind k b : lockable k.1 b = true -> k.1 <> KCondVar.
Proof. by destruct k as [[] z]. Qed.

Lemma running_agrees x k n : pc x = Running -> agrees x k n <-> occ k (held x) = n.
Proof. intros E. unfold agrees, leaving, waits, waits_on. rewrite E. lia. Qed.

Lemma owns_spec t e : owns t e = true <-> 0 < own_count t e.
Proof. unfold owns, own_count. rewrite bool_decide_eq_true. symmetry. apply occ_elem. Qed.

Lemma holds_spec t k c x : threads c !! t = Some x -> holds t k c = bool_decide (k ∈ held x).
Proof. intros Hx. unfold holds. by rewrite Hx. Qed.

Lemma not_held_zero k x : k ∉ held x -> occ k (held x) = 0.
Proof. intros Hk. pose proof (occ_nonneg k (held x)). destruct (decide (0 < occ k (held x))) as [Hp|]; [|lia]. by apply occ_elem in Hp. Qed.

Ltac occs := unfold refs in *; cbn [held pins set_pc set_pins set_held set_frames set_slot reply arcs add_arc add_hold own release owners active_holds] in *;
  rewrite ?occ_cons in *; unfold same in *; repeat case_bool_decide; simplify_eq; cbn [Z.b2z] in *; try lia.

(** A call that is about to enter the native lock. *)
Lemma start_lock_ok c t x k (exclusive framed : bool) : inv [] c -> threads c !! t = Some x -> lockable k.1 exclusive = true ->
  pc x = (if framed then Entering k exclusive else Running) ->
  match start_lock t k exclusive framed c with Ok c' => inv [] c' | Err _ => True end.
Proof.
  intros I Hx Hk Hpc. unfold start_lock. rewrite Hx. destruct (already_locked t k c) eqn:Ea; [done|].
  destruct (registered k c) eqn:Er; [|done]. cbn [negb]. destruct (entries c !! k) as [e|] eqn:He; [|done].
  pose proof (registered_alive _ _ _ _ I He Er) as Hal. pose proof (i_thread _ _ I t x Hx) as (Hpo & Hkinds & Hpins).
  pose proof (i_agree _ _ I t x k e Hx He) as Hag. apply lockable_kind in Hk as Hk'.
  assert (agrees x k (own_count t e) -> occ k (held x) = own_count t e) as Hrun.
  { unfold agrees, leaving, waits, waits_on. rewrite Hpc. destruct framed; lia. }
  apply inv_good.
  - eapply inv_upd; [done|done|done| |done|done| | | | |done| |].
    + split_and!; [done|done|]. intros k'. cbn [pins set_pins set_pc frames pc]. rewrite occ_cons, Hpins, Hpc. destruct framed; cbn [point_pins]; rewrite ?occ_cons; lia.
    + intros k'. occs.
    + intros k' _. unfold waits, waits_on. cbn. rewrite Hpc. by destruct framed.
    + intros _. unfold waits. cbn. rewrite Hpc. by destruct framed.
    + done.
    + specialize (Hrun Hag). unfold agrees, leaving, waits, waits_on. cbn. unfold own_count in *. cbn. lia.
    + intros k' n _. unfold agrees, leaving, waits, waits_on. cbn. rewrite Hpc. by destruct framed.
  - unfold lock_undefined. rewrite Hal. cbn. unfold already_locked in Ea. rewrite (holds_spec t k c x Hx) in Ea.
    destruct (bool_decide (k.1 = KMutex)); [|done]. cbn in *. apply bool_decide_eq_false in Ea. apply not_held_zero in Ea.
    specialize (Hrun Hag). destruct (owns t e) eqn:Eo; [|done]. apply owns_spec in Eo. lia.
Qed.

Lemma granted_ok c t x k (exclusive framed : bool) e : inv [] c -> threads c !! t = Some x -> pc x = Locking k exclusive framed ->
  entries c !! k = Some e -> inv [] (granted t x k exclusive framed e c).
Proof.
  intros I Hx Hpc He. pose proof (i_thread _ _ I t x Hx) as (Hpo & Hkinds & Hpins). unfold point_ok in Hpo. rewrite Hpc in Hpo.
  apply lockable_kind in Hpo as Hk. pose proof (i_agree _ _ I t x k e Hx He) as Hag.
  assert (0 < occ k (pins x)) as Hin.
  { rewrite Hpins, Hpc. cbn [point_pins]. rewrite occ_cons. unfold same. rewrite bool_decide_true by done. cbn [Z.b2z].
    pose proof (occ_nonneg k (if framed then [k] else [])). pose proof (occ_nonneg k (frames x)). lia. }
  assert (freed e = false) as Hal by (eapply ref_alive; [done|done|done|unfold refs; pose proof (occ_nonneg k (held x)); lia]).
  apply occ_elem in Hin. eapply inv_upd; [done|done|done| |done|done| | | | | | |].
  - split_and!; [done| |].
    + rewrite Forall_app in Hkinds |- *. destruct Hkinds as [H1 H2]. cbn. split; [by constructor|]. destruct framed; [by constructor|done].
    + intros k'. cbn [pins frames pc point_pins]. rewrite occ_without by done. rewrite Hpins, Hpc. cbn [point_pins].
      destruct framed; rewrite ?occ_cons, ?occ_nil; lia.
  - intros k'. unfold refs. cbn [held pins arcs add_hold own]. rewrite occ_without, occ_cons by done. destruct (same k' k); cbn [Z.b2z]; lia.
  - intros k' _. unfold waits, waits_on. cbn. by rewrite Hpc.
  - intros _. unfold waits. cbn [pc owners add_hold own active_holds length]. rewrite Hpc. lia.
  - done.
  - intros t' Ht. unfold own_count. cbn [owners add_hold own fmap list_fmap fst]. rewrite occ_cons. unfold same. by rewrite bool_decide_false.
  - apply running_agrees; [done|]. unfold agrees, leaving, waits, waits_on in Hag. rewrite Hpc in Hag. unfold own_count in *.
    cbn [held owners add_hold own fmap list_fmap fst]. rewrite !occ_cons. unfold same. rewrite !bool_decide_true by done. lia.
  - intros k' n Hne. unfold agrees, leaving, waits, waits_on. cbn. rewrite Hpc. rewrite occ_cons. unfold same. by rewrite bool_decide_false.
Qed.

(** ** Local variables *)

Lemma drops_ok ks d c : inv (ks ++ d) c -> inv d (foldl (fun c k => drop_arc k c) c ks).
Proof. revert c. induction ks as [|k ks IH]; intros c I; [done|]. cbn. apply IH. by apply drop_arc_ok. Qed.

Lemma foldl_without (ks l : list key) k : (forall k', occ k' ks <= occ k' l) ->
  occ k (foldl (fun l k => without k l) l ks) = occ k l - occ k ks.
Proof.
  revert l. induction ks as [|k1 ks IH]; intros l Hl; cbn [foldl]; [rewrite occ_nil; lia|].
  assert (k1 ∈ l) as Hk1.
  { apply occ_elem. specialize (Hl k1). rewrite occ_cons in Hl. unfold same in Hl. rewrite bool_decide_true in Hl by done.
    pose proof (occ_nonneg k1 ks). cbn [Z.b2z] in Hl. lia. }
  rewrite IH.
  - rewrite occ_without, occ_cons by done. lia.
  - intros k'. rewrite occ_without by done. specialize (Hl k'). rewrite occ_cons in Hl. lia.
Qed.

Lemma point_pins_le x k : thread_ok x -> occ k (point_pins (pc x)) <= occ k (pins x).
Proof. intros (_ & _ & Hp). rewrite Hp. pose proof (occ_nonneg k (frames x)). lia. Qed.

(** A call gives back its [Arc]s and returns to the program; [r] may set the answer. *)
Lemma return_ok c t x (f : thread -> thread) : inv [] c -> threads c !! t = Some x -> leaving x = false ->
  (forall k, waits k x = 0 /\ waits_on k x = 0) ->
  (forall y, pc (f y) = Running /\ held (f y) = held y /\ pins (f y) = pins y /\ frames (f y) = frames y) ->
  inv [] (drop_locals t (point_pins (pc x)) f c).
Proof.
  intros I Hx Hl Hw Hf. unfold drop_locals. rewrite Hx. apply drops_ok. rewrite app_nil_r.
  pose proof (i_thread _ _ I t x Hx) as Hok. pose proof (point_pins_le x) as Hle.
  set (x' := f _). destruct (Hf (set_pins (foldl (fun l k => without k l) (pins x) (point_pins (pc x))) x)) as (F1 & F2 & F3 & F4).
  fold x' in F1, F2, F3, F4. cbn in F2, F3, F4.
  assert (forall k, occ k (pins x') = occ k (pins x) - occ k (point_pins (pc x))) as Hp.
  { intros k. rewrite F3. apply foldl_without. intros k'. by apply Hle. }
  destruct Hok as (Hpo & Hkinds & Hpins). eapply inv_thread; [done|done| | | |].
  - split_and!; [unfold point_ok; by rewrite F1|by rewrite F2, F4|]. intros k. rewrite Hp, F1, F4, Hpins. cbn [point_pins]. rewrite occ_nil. lia.
  - intros k. unfold refs. rewrite F2, Hp, occ_nil. lia.
  - intros k. destruct (Hw k) as [-> ->]. unfold waits, waits_on. by rewrite F1.
  - intros k n. unfold agrees. rewrite Hl. destruct (Hw k) as [-> ->]. unfold leaving, waits, waits_on. rewrite F1, F2. lia.
Qed.

Lemma refused_ok c t x k (exclusive framed : bool) rc : inv [] c -> threads c !! t = Some x -> pc x = Locking k exclusive framed ->
  inv [] (refused t k exclusive framed rc c).
Proof.
  intros I Hx Hpc. unfold refused. apply inv_says. replace (k :: _) with (point_pins (pc x)) by (by rewrite Hpc).
  apply return_ok; try done; [unfold leaving; by rewrite Hpc|]. intros k'. unfold waits, waits_on. by rewrite Hpc.
Qed.

Lemma enter_failed_ok c t x k exclusive : inv [] c -> threads c !! t = Some x -> pc x = Entering k exclusive ->
  inv [] (drop_locals t [k] (set_pc Running) c).
Proof.
  intros I Hx Hpc. replace [k] with (point_pins (pc x)) by (by rewrite Hpc).
  apply return_ok; try done; [unfold leaving; by rewrite Hpc|]. intros k'. unfold waits, waits_on. by rewrite Hpc.
Qed.

Lemma start_with_ok c t x k exclusive : inv [] c -> threads c !! t = Some x -> pc x = Running -> lockable k.1 exclusive = true ->
  inv [] (start_with t k exclusive c).
Proof.
  intros I Hx Hpc Hk. unfold start_with. rewrite Hx. destruct (entries c !! k) as [e|] eqn:He; [|by apply inv_says].
  destruct (registered k c) eqn:Er; [|by apply inv_says]. pose proof (registered_alive _ _ _ _ I He Er) as Hal.
  pose proof (i_thread _ _ I t x Hx) as (Hpo & Hkinds & Hpins). pose proof (i_agree _ _ I t x k e Hx He) as Hag. apply running_agrees in Hag; [|done].
  eapply inv_upd; [done|done|done| |done|done| | | | |done| |].
  - split_and!; [done|done|]. intros k'. cbn [pins set_pins set_pc frames pc]. rewrite occ_cons, Hpins, Hpc. cbn [point_pins]. rewrite !occ_cons. lia.
  - intros k'. occs.
  - intros k' _. unfold waits, waits_on. cbn. by rewrite Hpc.
  - intros _. unfold waits. cbn. by rewrite Hpc.
  - intros _. unfold waits_on. cbn. by rewrite Hpc.
  - unfold agrees, leaving, waits, waits_on. cbn. unfold own_count in *. cbn. lia.
  - intros k' n _. rewrite running_agrees by done. unfold agrees, leaving, waits, waits_on. cbn. lia.
Qed.

(** ** Unlocking *)

Lemma occ_held k x : k ∈ held x -> 0 < refs k x.
Proof. intros Hk. apply occ_elem in Hk. unfold refs. pose proof (occ_nonneg k (pins x)). lia. Qed.

(** The thread owns what its list says it holds. *)
Lemma held_owned d c t x k e : inv d c -> threads c !! t = Some x -> entries c !! k = Some e -> k ∈ held x ->
  (forall k, waits k x = 0) -> 0 < own_count t e /\ unlock_undefined t e = false.
Proof.
  intros I Hx He Hk Hw. pose proof (i_agree _ _ I t x k e Hx He) as Hag. apply occ_elem in Hk as Hk'.
  assert (0 < own_count t e) as Ho.
  { unfold agrees in Hag. rewrite Hw in Hag. pose proof (waits_on_nonneg k x). destruct (leaving x); lia. }
  split; [done|]. unfold unlock_undefined. rewrite (ref_alive d c k e t x I He Hx) by (by apply occ_held). cbn.
  apply owns_spec in Ho. by rewrite Ho.
Qed.

(** A hold goes, with its native ownership, and its [Arc] is left to drop. *)
Lemma give_back_ok c t x x' k e : inv [] c -> threads c !! t = Some x -> entries c !! k = Some e -> k ∈ held x -> k.1 <> KCondVar ->
  (forall k, waits k x = 0 /\ waits_on k x = 0) -> point_pins (pc x) = [] ->
  pc x' = pc x -> held x' = without k (held x) -> pins x' = pins x -> frames x' = frames x ->
  inv [k] (set_thread t x' (set_entry k (add_hold (-1) (release t e)) c)).
Proof.
  intros I Hx He Hk Hkind Hw Hpp E1 E2 E3 E4. destruct (held_owned _ _ _ _ _ _ I Hx He Hk) as [Ho Hu]; [intros k'; apply Hw|].
  pose proof (i_thread _ _ I t x Hx) as (Hpo & Hkinds & Hpins). pose proof (i_agree _ _ I t x k e Hx He) as Hag.
  assert (t ∈ (owners e).*1) as Ht by (apply occ_elem; exact Ho).
  assert (forall k', waits k' x' = 0 /\ waits_on k' x' = 0) as Hw' by (intros k'; unfold waits, waits_on in *; rewrite E1; apply Hw).
  eapply inv_upd; [done|done|done| |done| | | | | | | |].
  - split_and!.
    + unfold point_ok in *. rewrite E1. destruct (pc x); try done; cbn in Hpp; discriminate.
    + rewrite E2, E4. rewrite Forall_app in Hkinds |- *. destruct Hkinds as [H1 H2]. split; [|done].
      rewrite Forall_forall in H1 |- *. intros k' Hk'. apply H1. apply occ_elem. apply occ_elem in Hk'. rewrite occ_without in Hk' by done.
      pose proof (b2z_nonneg (same k' k)). lia.
    + intros k'. rewrite E1, E3, E4. apply Hpins.
  - by eapply ref_alive, occ_held.
  - intros k'. unfold refs. rewrite E2, E3, occ_without by done. cbn [arcs add_hold release]. rewrite occ_cons, occ_nil. destruct (same k' k); cbn [Z.b2z]; lia.
  - intros k' _. destruct (Hw k') as [-> ->], (Hw' k') as [-> ->]. done.
  - intros _. destruct (Hw k) as [-> _], (Hw' k) as [-> _]. cbn [active_holds owners add_hold release]. rewrite disown_length by done. lia.
  - intros ?. done.
  - intros t' Ht'. unfold own_count. cbn [owners add_hold release]. rewrite disown_count by done. unfold same. rewrite bool_decide_false by done. cbn. lia.
  - unfold agrees, own_count in *. destruct (Hw k) as [W1 W2], (Hw' k) as [-> ->]. rewrite W1, W2 in Hag.
    assert (leaving x' = leaving x) as -> by (unfold leaving; by rewrite E1). cbn [owners add_hold release]. rewrite E2, occ_without, disown_count by done.
    unfold same. rewrite !bool_decide_true by done. cbn [Z.b2z]. destruct (leaving x); lia.
  - intros k' n Hne. unfold agrees. destruct (Hw k') as [-> ->], (Hw' k') as [-> ->].
    assert (leaving x' = leaving x) as -> by (unfold leaving; by rewrite E1). rewrite E2, occ_without by done. unfold same. rewrite bool_decide_false by done.
    cbn [Z.b2z]. destruct (leaving x); lia.
Qed.

Lemma held_kind d c t x k : inv d c -> threads c !! t = Some x -> k ∈ held x -> k.1 <> KCondVar.
Proof.
  intros I Hx Hk. destruct (i_thread _ _ I t x Hx) as (_ & Hf & _). rewrite Forall_forall in Hf. apply Hf, elem_of_app. by left.
Qed.

Lemma running_idle x : pc x = Running -> (forall k, waits k x = 0 /\ waits_on k x = 0) /\ point_pins (pc x) = [].
Proof. intros E. unfold waits, waits_on. by rewrite E. Qed.

Lemma drop_arc_threads k c : threads (drop_arc k c) = threads c.
Proof. unfold drop_arc. destruct (entries c !! k); [|done]. by repeat case_match. Qed.

(** What unlocking does to the thread. *)
Lemma unlock_ok c t x k rc : inv [] c -> threads c !! t = Some x -> pc x = Running ->
  inv [] (unlock t k rc c) /\ exists x', threads (unlock t k rc c) !! t = Some x' /\ pc x' = Running /\ pins x' = pins x /\ frames x' = frames x.
Proof.
  intros I Hx Hpc.
  assert (forall c' r, inv [] c' -> threads c' !! t = Some x -> inv [] (says t r c') /\
    exists x', threads (says t r c') !! t = Some x' /\ pc x' = Running /\ pins x' = pins x /\ frames x' = frames x) as Hsays.
  { intros c' r I' Hx'. split; [by apply inv_says|]. unfold says. rewrite Hx'. eexists. split; [apply lookup_insert_eq|done]. }
  unfold unlock. rewrite Hx. destruct (entries c !! k) as [e|] eqn:He; [|by apply Hsays].
  rewrite (holds_spec t k c x Hx). case_bool_decide as Hk; cbn [negb]; [|by apply Hsays].
  destruct (running_idle x Hpc) as [Hw Hpp]. destruct (held_owned _ _ _ _ _ _ I Hx He Hk (fun k => proj1 (Hw k))) as [_ Hu].
  assert (inv [] (set_bad (unlock_undefined t e) c)) as I' by (by apply inv_good).
  destruct (rc =? 0); [|by apply Hsays]. split.
  - apply drop_arc_ok. eapply give_back_ok; try done. by eapply held_kind.
  - rewrite drop_arc_threads. eexists. split; [apply lookup_insert_eq|done].
Qed.

(** The end of a callback. *)
Lemma end_with_ok c t x k fs rc error : inv [] c -> threads c !! t = Some x -> pc x = Running -> frames x = k :: fs ->
  inv [] (end_with t k fs rc error c).
Proof.
  intros I Hx Hpc Hfs. destruct (unlock_ok c t x k rc I Hx Hpc) as (I1 & x1 & Hx1 & Hpc1 & Hpins1 & Hfs1).
  assert (inv [] (drop_locals t [k] (set_frames fs) (unlock t k rc c))) as I2.
  { unfold drop_locals. rewrite Hx1. apply (drops_ok [k] []). cbn [app foldl].
    pose proof (i_thread _ _ I1 t x1 Hx1) as (Hpo & Hkinds & Hpins). destruct (running_idle x1 Hpc1) as [Hw Hpp].
    assert (k ∈ pins x1) as Hin.
    { apply occ_elem. rewrite Hpins, Hpp, Hfs1, Hfs, occ_cons, occ_nil. unfold same. rewrite bool_decide_true by done.
      cbn [Z.b2z]. pose proof (occ_nonneg k fs). lia. }
    eapply inv_thread; [done|done| | | |].
    - split_and!; [unfold point_ok; cbn; by rewrite Hpc1| |].
      + cbn. rewrite Hfs1, Hfs in Hkinds. rewrite Forall_app in Hkinds |- *. destruct Hkinds as [H1 H2]. inversion H2. done.
      + intros k'. cbn [pins set_frames set_pins pc frames]. rewrite occ_without by done. rewrite Hpins, Hpp, Hfs1, Hfs, occ_cons. lia.
    - intros k'. unfold refs. cbn [held pins set_frames set_pins]. rewrite occ_without by done. rewrite occ_cons, occ_nil. lia.
    - done.
    - intros k' n. by rewrite !running_agrees. }
  unfold end_with. destruct error; [by apply inv_says|done].
Qed.

(** ** Condition variables *)

(** The mutex is given back: the first half of the native wait. *)
Lemma wait_releases c t x cd m timed em : inv [] c -> threads c !! t = Some x -> pc x = Running -> entries c !! m = Some em ->
  cd.1 = KCondVar -> m.1 = KMutex -> m ∈ held x -> registered cd c = true -> is_Some (entries c !! cd) ->
  inv [] (set_thread t (set_pc (Reacquiring cd m timed false) (set_pins (cd :: m :: pins x) x))
    (set_entry m (add_arc 1 (release t em)) (set_entry cd (add_arc 1 (default (mk_entry [] 0 0 false) (entries c !! cd))) c))).
Proof.
  intros I Hx Hpc Hm Hcd Hmk Hh Hr [ec Hec]. rewrite Hec. cbn [default].
  assert (cd <> m) as Hne by (intros ->; congruence).
  destruct (running_idle x Hpc) as [Hw Hpp]. destruct (held_owned _ _ _ _ _ _ I Hx Hm Hh (fun k => proj1 (Hw k))) as [Ho Hu].
  assert (t ∈ (owners em).*1) as Ht by (apply occ_elem; exact Ho).
  pose proof (i_thread _ _ I t x Hx) as (Hpo & Hkinds & Hpins).
  (* the pin of the condition variable first *)
  assert (inv [cd] (set_thread t x (set_entry cd (add_arc 1 ec) c))) as I1.
  { eapply inv_upd; [done|done|done|by eapply i_thread|done|by eapply registered_alive| |done|done|done|done|exact (i_agree _ _ I t x cd ec Hx Hec)|done].
    intros k'. cbn [arcs add_arc]. rewrite occ_cons, occ_nil. destruct (same k' cd); cbn [Z.b2z]; lia. }
  assert (set_thread t x (set_entry cd (add_arc 1 ec) c) = set_entry cd (add_arc 1 ec) c) as E1.
  { unfold set_thread, set_entry. cbn. by rewrite (insert_id (threads c)). }
  rewrite E1 in I1. eapply inv_upd with (d := [cd]); [exact I1|exact Hx|cbn; rewrite lookup_insert_ne by done; exact Hm| |done| | | | | | | |].
  - split_and!; [by split_and!|done|]. intros k'. cbn [pins set_pins set_pc frames pc point_pins]. rewrite !occ_cons, Hpins, Hpp, occ_nil. lia.
  - exact (ref_alive _ _ _ _ _ _ I Hm Hx (occ_held _ _ Hh)).
  - intros k'. unfold refs. cbn [held pins set_pins set_pc arcs add_arc release]. rewrite !occ_cons, !occ_nil. destruct (same k' m); cbn [Z.b2z]; lia.
  - intros k' Hk'. destruct (Hw k') as [-> ->]. unfold waits, waits_on. cbn. unfold same. by rewrite bool_decide_false.
  - intros _. destruct (Hw m) as [-> _]. unfold waits. cbn [pc set_pc active_holds owners add_arc release]. unfold same. rewrite bool_decide_true by done.
    rewrite disown_length by done. cbn [Z.b2z]. lia.
  - intros Hc. congruence.
  - intros t' Ht'. unfold own_count. cbn [owners add_arc release]. rewrite disown_count by done. unfold same. rewrite bool_decide_false by done. cbn. lia.
  - pose proof (i_agree _ _ I t x m em Hx Hm) as Hag. apply running_agrees in Hag; [|done]. unfold agrees, leaving, waits, waits_on. cbn [pc set_pc held set_pins].
    unfold own_count in *. cbn [owners add_arc release]. rewrite disown_count by done. unfold same. rewrite !bool_decide_true by done. cbn [Z.b2z]. lia.
  - intros k' n Hk' Hag. apply running_agrees in Hag; [|done]. unfold agrees, leaving, waits, waits_on. cbn. unfold same. rewrite bool_decide_false by done. cbn. lia.
Qed.

(** The thread enters or leaves the wait set of a condition variable. *)
Lemma enter_wait_ok c t x cd m timed ec : inv [] c -> threads c !! t = Some x -> pc x = Reacquiring cd m timed false -> entries c !! cd = Some ec ->
  inv [] (set_thread t (set_pc (Waiting cd m timed) x) (set_entry cd (own t false ec) c)).
Proof.
  intros I Hx Hpc Hcd. pose proof (i_thread _ _ I t x Hx) as (Hpo & Hkinds & Hpins). unfold point_ok in Hpo. rewrite Hpc in Hpo.
  assert (0 < refs cd x) as Hr.
  { unfold refs. rewrite Hpins, Hpc. cbn [point_pins]. rewrite occ_cons. unfold same. rewrite bool_decide_true by done. cbn [Z.b2z].
    pose proof (occ_nonneg cd (held x)). pose proof (occ_nonneg cd [m]). pose proof (occ_nonneg cd (frames x)). lia. }
  eapply inv_upd; [done|done|done| |done|by eapply ref_alive| | | | | | |].
  - split_and!; [done|done|]. intros k'. cbn [pins set_pc frames pc point_pins]. rewrite Hpins, Hpc. done.
  - intros k'. unfold refs. cbn [held pins set_pc arcs own]. destruct (same k' cd); lia.
  - intros k' Hne. unfold waits, waits_on. cbn. rewrite Hpc. unfold same. by rewrite (bool_decide_false (k' = cd)).
  - intros Hc. by destruct Hpo.
  - intros _. unfold waits_on. cbn [pc set_pc owners own length]. rewrite Hpc. unfold same. rewrite bool_decide_true by done. cbn [Z.b2z]. lia.
  - intros t' Ht'. unfold own_count. cbn [owners own fmap list_fmap fst]. rewrite occ_cons. unfold same. by rewrite bool_decide_false.
  - pose proof (i_agree _ _ I t x cd ec Hx Hcd) as Hag. unfold agrees, leaving, waits, waits_on in *. rewrite Hpc in Hag. cbn [pc set_pc held].
    unfold own_count in *. cbn [owners own fmap list_fmap fst]. rewrite occ_cons. unfold same in *. rewrite (bool_decide_true (cd = cd)), (bool_decide_true (t = t)) by done. cbn [Z.b2z] in *. lia.
  - intros k' n Hne Hag. unfold agrees, leaving, waits, waits_on in *. rewrite Hpc in Hag. cbn. unfold same in *. rewrite (bool_decide_false (k' = cd)) by done. cbn. lia.
Qed.

Lemma woken_ok c t x cd m timed timed_out ec : inv [] c -> threads c !! t = Some x -> pc x = Waiting cd m timed -> entries c !! cd = Some ec ->
  inv [] (woken t x cd m timed timed_out ec c).
Proof.
  intros I Hx Hpc Hcd. pose proof (i_thread _ _ I t x Hx) as (Hpo & Hkinds & Hpins). unfold point_ok in Hpo. rewrite Hpc in Hpo.
  pose proof (i_agree _ _ I t x cd ec Hx Hcd) as Hag. unfold agrees, leaving, waits, waits_on in Hag. rewrite Hpc in Hag.
  unfold same in Hag. rewrite (bool_decide_true (cd = cd)) in Hag by done. cbn [Z.b2z] in Hag.
  assert (occ cd (held x) = 0 /\ same cd m = false) as [Hh Hs].
  { destruct Hpo as (H1 & H2 & H3). split; [|unfold same; apply bool_decide_false; congruence].
    apply not_held_zero. intros Hc. by apply (held_kind _ _ _ _ _ I Hx) in Hc. }
  unfold same in Hs. rewrite Hs in Hag. cbn [Z.b2z] in Hag. assert (t ∈ (owners ec).*1) as Ht by (apply occ_elem; unfold own_count in Hag; lia).
  assert (0 < refs cd x) as Hr.
  { unfold refs. rewrite Hpins, Hpc. cbn [point_pins]. rewrite occ_cons. unfold same. rewrite bool_decide_true by done. cbn [Z.b2z].
    pose proof (occ_nonneg cd [m]). pose proof (occ_nonneg cd (frames x)). lia. }
  eapply inv_upd; [done|done|done| |done|by eapply ref_alive| | | | | | |].
  - split_and!; [done|done|]. intros k'. cbn [pins set_pc frames pc point_pins]. rewrite Hpins, Hpc. done.
  - intros k'. unfold refs. cbn [held pins set_pc arcs release]. destruct (same k' cd); lia.
  - intros k' Hne. unfold waits, waits_on. cbn. rewrite Hpc. unfold same. by rewrite (bool_decide_false (k' = cd)).
  - intros Hc. by destruct Hpo.
  - intros _. unfold waits_on. cbn [pc set_pc owners release]. rewrite Hpc. unfold same. rewrite bool_decide_true by done.
    rewrite disown_length by done. cbn [Z.b2z]. lia.
  - intros t' Ht'. unfold own_count. cbn [owners release]. rewrite disown_count by done. unfold same. rewrite bool_decide_false by done. cbn. lia.
  - unfold agrees, leaving, waits, waits_on. cbn [pc set_pc held]. unfold own_count in *. cbn [owners release]. rewrite disown_count by done.
    unfold same. rewrite Hs, bool_decide_true by done. cbn [Z.b2z]. lia.
  - intros k' n Hne Hag'. unfold agrees, leaving, waits, waits_on in *. rewrite Hpc in Hag'. cbn. unfold same in *. rewrite (bool_decide_false (k' = cd)) in Hag' by done. cbn in Hag'. lia.
Qed.

Lemma reacquired_ok c t x cd m timed timed_out em : inv [] c -> threads c !! t = Some x -> pc x = Reacquiring cd m timed timed_out -> entries c !! m = Some em ->
  inv [] (reacquired t cd m timed timed_out em c).
Proof.
  intros I Hx Hpc Hm. pose proof (i_thread _ _ I t x Hx) as Hok. pose proof Hok as (Hpo & Hkinds & Hpins). unfold point_ok in Hpo. rewrite Hpc in Hpo.
  destruct Hpo as (Hcd & Hmk & Hin).
  unfold reacquired, drop_locals. cbn [threads set_entry]. rewrite Hx. apply drops_ok. rewrite app_nil_r.
  assert (forall k, occ k (foldl (fun l k => without k l) (pins x) [cd; m]) = occ k (pins x) - occ k [cd; m]) as Hp.
  { intros k. apply foldl_without. intros k'. pose proof (point_pins_le x k' Hok) as Hle. by rewrite Hpc in Hle. }
  pose proof (i_agree _ _ I t x m em Hx Hm) as Hag. unfold agrees, leaving, waits, waits_on in Hag. rewrite Hpc in Hag.
  unfold same in Hag. rewrite bool_decide_true in Hag by done. cbn [Z.b2z] in Hag.
  eapply inv_upd; [done|done|done| |done|by eapply ref_alive, occ_held| | | | | | |].
  - split_and!; [done|done|]. intros k'. cbn [pins set_pc set_pins reply frames pc point_pins]. rewrite Hp, Hpins, Hpc, occ_nil. cbn [point_pins]. lia.
  - intros k'. unfold refs. cbn [held pins set_pc set_pins reply arcs own]. rewrite Hp, occ_nil. destruct (same k' m); lia.
  - intros k' Hne. unfold waits, waits_on. cbn. rewrite Hpc. unfold same. by rewrite bool_decide_false.
  - intros _. unfold waits. cbn [pc set_pc set_pins reply owners active_holds own length]. rewrite Hpc. unfold same. rewrite bool_decide_true by done. cbn [Z.b2z]. lia.
  - intros Hc. congruence.
  - intros t' Ht'. unfold own_count. cbn [owners own fmap list_fmap fst]. rewrite occ_cons. unfold same. by rewrite bool_decide_false.
  - apply running_agrees; [done|]. cbn [held reply set_pc set_pins]. unfold own_count in *. cbn [owners own fmap list_fmap fst]. rewrite occ_cons. unfold same. rewrite bool_decide_true by done. cbn [Z.b2z]. lia.
  - intros k' n Hne Hag'. unfold agrees, leaving, waits, waits_on in *. rewrite Hpc in Hag'. cbn. unfold same in Hag'. rewrite bool_decide_false in Hag' by done. cbn in Hag'. lia.
Qed.

Lemma start_wait_ok c t x cd m timeout rc : inv [] c -> threads c !! t = Some x -> pc x = Running -> cd.1 = KCondVar -> m.1 = KMutex ->
  associated cd m c -> inv [] (start_wait t cd m timeout rc c).
Proof.
  intros I Hx Hpc Hcd Hm Has. unfold start_wait. rewrite Hx, (holds_spec t m c x Hx). case_bool_decide as Hh; cbn [negb]; [|by apply inv_says].
  destruct (registered cd c) eqn:Er; [|by apply inv_says]. destruct (registered m c) eqn:Er2; [|by apply inv_says]. cbn [negb].
  destruct (entries c !! cd) as [ec|] eqn:Ec; [|done]. destruct (entries c !! m) as [em|] eqn:Em; [|done].
  destruct (running_idle x Hpc) as [Hw Hpp]. destruct (held_owned _ _ _ _ _ _ I Hx Em Hh (fun k => proj1 (Hw k))) as [Ho Hu].
  assert (inv [] (set_bad (freed ec || unlock_undefined t em || negb (bool_decide (associated cd m c))) c)) as I0.
  { apply inv_good; [done|]. by rewrite (registered_alive _ _ _ _ I Ec Er), Hu, bool_decide_true. }
  destruct (rc =? 0); [|by apply inv_says]. set (c0 := set_bad _ c) in *.
  pose proof (wait_releases c0 t x cd m (bool_decide (is_Some timeout)) em I0 Hx Hpc Em Hcd Hm Hh Er) as I1. cbn [entries c0 set_bad] in I1. rewrite Ec in I1.
  specialize (I1 ltac:(eauto)). cbn [default] in I1. eapply enter_wait_ok in I1; [|apply lookup_insert_eq|done|].
  2: { cbn. assert (cd <> m) as Hne by (intros ->; congruence). rewrite lookup_insert_ne by done. apply lookup_insert_eq. }
  assert (cd <> m) as Hne by (intros ->; congruence).
  revert I1. unfold set_thread, set_entry. cbn. rewrite !insert_insert_eq. rewrite (insert_insert_ne _ cd m), insert_insert_eq by done. done.
Qed.

Lemma notify_ok c t all cd rc : inv [] c -> inv [] (notify t all cd rc c).
Proof.
  intros I. unfold notify. destruct (entries c !! cd) as [ec|] eqn:Ec; [|by apply inv_says].
  destruct (registered cd c) eqn:Er; [|by apply inv_says]. apply inv_good; [by apply inv_says|by eapply registered_alive].
Qed.

(** ** Handles *)

(** The registry takes or gives back an [Arc]. *)
Lemma inv_registry c k : inv [] c -> registered k c = true -> inv [k] (set_registry (registry c ∖ {[k]}) c).
Proof.
  intros [I1 I2 I3 I4 I5 I6] Hr.
  assert (forall k', Z.b2z (registered k' (set_registry (registry c ∖ {[k]}) c)) + occ k' [k] = Z.b2z (registered k' c)) as Hreg.
  { intros k'. rewrite occ_cons, occ_nil. unfold registered, same in *. cbn. apply bool_decide_eq_true in Hr. destruct (decide (k' = k)) as [->|Hne].
    - rewrite (bool_decide_true (k = k)), (bool_decide_true (k ∈ registry c)), bool_decide_false by set_solver. done.
    - rewrite (bool_decide_false (k' = k)) by done. cbn. rewrite Z.add_0_r. f_equal. apply bool_decide_ext. set_solver. }
  split; try done.
  - intros k' e He. destruct (I2 k' e He) as [A1 A2 A3 A4 A5]. split; try done. rewrite A1. specialize (Hreg k'). cbn [threads set_registry]. rewrite occ_nil. lia.
  - intros k' Hp. apply I5. specialize (Hreg k'). cbn [threads set_registry] in Hp. rewrite occ_nil. lia.
Qed.

Lemma destroy_object_ok c k : inv [] c -> inv [] (destroy_object k c).
Proof.
  intros I. unfold destroy_object. destruct (registered k c) eqn:E; [|done]. apply drop_arc_ok. by apply inv_registry.
Qed.

Lemma total_fresh d c k f : inv d c -> entries c !! k = None -> (forall x, 0 <= f x) -> (forall x, thread_ok x -> f x <= refs k x) -> total f (threads c) = 0.
Proof.
  intros I He Hf Hle. assert (~ 0 < total (refs k) (threads c)) as Hz.
  { intros Hp. destruct (i_known _ _ I k) as [e' He']; [|congruence]. pose proof (b2z_nonneg (registered k c)). pose proof (occ_nonneg k d). lia. }
  pose proof (total_nonneg f (threads c) (fun _ y _ => Hf y)).
  pose proof (total_le f (refs k) (threads c) (fun t y Hy => Hle y (i_thread _ _ I t y Hy))). lia.
Qed.

Lemma waits_refs k x : thread_ok x -> waits k x <= refs k x.
Proof.
  intros (Hpo & _ & Hp). unfold refs, waits. unfold point_ok in Hpo. pose proof (occ_nonneg k (pins x)). pose proof (occ_nonneg k (held x)).
  destruct (pc x) as [|k1 b1 b2|k1 b1|cd m b1|cd m b1 b2| | | | |]; try lia; destruct Hpo as (_ & _ & Hm); apply occ_elem in Hm;
    unfold same; case_bool_decide; subst; cbn [Z.b2z]; lia.
Qed.

(** A new entry, registered under the next id. *)
Lemma inv_new c kd : inv [] c -> let k := (kd, next_ids c kd) in
  inv [] (mk_config (<[k := mk_entry [] 0 1 false]> (entries c)) ({[k]} ∪ registry c)
        (fun kd' => if decide (kd' = kd) then next_ids c kd + 1 else next_ids c kd') (threads c) (jobs c) (next_thread c) (bad c)).
Proof.
  intros I k. pose proof (i_next _ _ I kd (next_ids c kd) ltac:(lia)) as Hnone. fold k in Hnone.
  assert (forall f, (forall x, 0 <= f x) -> (forall x, thread_ok x -> f x <= refs k x) -> total f (threads c) = 0) as Hz by (intros; by eapply total_fresh).
  assert (registered k c = false) as Hreg.
  { destruct (registered k c) eqn:E; [|done]. destruct (i_known _ _ I k) as [e' He']; [|congruence]. rewrite E.
    pose proof (total_nonneg (refs k) (threads c) (fun _ y _ => refs_nonneg k y)). cbn. rewrite ?occ_nil. lia. }
  assert (forall k', k' <> k -> forall c', registry c' = {[k]} ∪ registry c -> registered k' c' = registered k' c) as Hother.
  { intros k' Hne c' Hc'. unfold registered. rewrite Hc'. apply bool_decide_ext. set_solver. }
  destruct I as [I1 I2 I3 I4 I5 I6]. split; cbn [bad entries threads registry next_ids]; try done.
  - intros k' e Hk'. destruct (decide (k' = k)) as [->|Hne].
    + rewrite lookup_insert_eq in Hk'. injection Hk' as <-. split; cbn [threads arcs active_holds owners freed length]; try done.
      * rewrite (Hz (refs k)) by (done || apply refs_nonneg). unfold registered. cbn. rewrite bool_decide_true by set_solver. done.
      * intros _. rewrite (Hz (waits k)); [done|apply waits_nonneg|apply waits_refs].
      * intros _. rewrite (Hz (waits_on k)); [done|apply waits_on_nonneg|apply waits_on_refs].
    + rewrite lookup_insert_ne in Hk' by done. destruct (I2 k' e Hk') as [A1 A2 A3 A4 A5]. split; try done.
      rewrite (Hother k' Hne) by done. done.
  - intros t x k' e Hx Hk'. destruct (decide (k' = k)) as [->|Hne]; [|rewrite lookup_insert_ne in Hk' by done; by eapply I4].
    rewrite lookup_insert_eq in Hk'. injection Hk' as <-. unfold own_count. cbn.
    assert (refs k x = 0) as Hr.
    { pose proof (total_ge (refs k) (threads c) t x (refs_nonneg k) Hx) as Hge. pose proof (Hz (refs k) (refs_nonneg k) ltac:(done)) as Hz0. pose proof (refs_nonneg k x). lia. }
    pose proof (waits_refs k x (I3 t x Hx)). pose proof (waits_on_refs k x (I3 t x Hx)). pose proof (waits_nonneg k x). pose proof (waits_on_nonneg k x).
    unfold refs in *. pose proof (occ_nonneg k (held x)). pose proof (occ_nonneg k (pins x)). unfold agrees. rewrite occ_nil. destruct (leaving x); lia.
  - intros k' Hp. destruct (decide (k' = k)) as [->|Hne]; [by rewrite lookup_insert_eq|]. rewrite lookup_insert_ne by done. apply I5.
    rewrite (Hother k' Hne) in Hp by done. done.
  - intros kd' id Hid. rewrite lookup_insert_ne; [apply I6; case_decide; subst; lia|]. unfold k. intros [= E1 E2]. subst. rewrite decide_True in Hid by done. lia.
Qed.

(** The thread moves between points where it has no local [Arc]s. *)
Definition quiet (p : point) : bool := match p with Running | Making _ | Undoing _ _ | Joining _ => true | _ => false end.

Lemma goes_ok c t p : inv [] c -> (forall x, threads c !! t = Some x -> quiet (pc x) = true) -> quiet p = true -> inv [] (goes t p c).
Proof.
  intros I Hpc Hp. unfold goes. destruct (threads c !! t) as [x|] eqn:Hx; [|done]. specialize (Hpc x eq_refl).
  pose proof (i_thread _ _ I t x Hx) as (Hpo & Hkinds & Hpins). eapply inv_thread; [done|done| |done| |].
  - split_and!; [unfold point_ok; cbn; by destruct p|done|]. intros k. cbn. rewrite Hpins. by destruct p, (pc x).
  - intros k. unfold waits, waits_on. cbn. by destruct p, (pc x).
  - intros k n. unfold agrees, leaving, waits, waits_on. cbn. by destruct p, (pc x).
Qed.

Lemma make_handle_ok c t x kd : inv [] c -> threads c !! t = Some x -> pc x = Running -> inv [] (make_handle t kd c).
Proof.
  intros I Hx Hpc. unfold make_handle. apply goes_ok; [by apply inv_new| |done]. intros y Hy. cbn in Hy. rewrite Hx in Hy.
  injection Hy as <-. by rewrite Hpc.
Qed.

Lemma finish_handle_ok c t x k a : inv [] c -> threads c !! t = Some x -> pc x = Making k -> inv [] (finish_handle t k a c).
Proof.
  intros I Hx Hpc. assert (forall p, quiet p = true -> inv [] (goes t p c)) as Hg.
  { intros p Hp. apply goes_ok; [done| |done]. intros y Hy. rewrite Hx in Hy. injection Hy as <-. by rewrite Hpc. }
  unfold finish_handle. destruct a; [by apply inv_says, Hg|by apply Hg..].
Qed.

(** Nobody can take the registry while a thread has its guard, the thread itself included. *)
Lemma guarded_unavailable c t x kd : threads c !! t = Some x -> guard_of (pc x) = Some kd -> available kd c = false.
Proof. intros Hx Hg. unfold available. apply bool_decide_false. intros H. by apply (H t x Hx). Qed.

(** ** Threads *)

Lemma inv_jobs c m n : inv [] c -> inv [] (set_jobs m n c).
Proof. intros [I1 I2 I3 I4 I5 I6]. split; try done. intros k e He. destruct (I2 k e He). by split. Qed.

Lemma inv_spawn c t : inv [] c -> threads c !! t = None -> inv [] (set_thread t (mk_thread Running [] [] [] None (Ok VUnit)) c).
Proof.
  intros [I1 I2 I3 I4 I5 I6] Hn. set (x := mk_thread _ _ _ _ _ _).
  assert (forall f : thread -> Z, f x = 0 -> total f (<[t := x]> (threads c)) = total f (threads c)) as Ht by (intros f Hf; rewrite total_add, Hf by done; lia).
  split; cbn [bad entries threads registry next_ids set_thread]; try done.
  - intros k e He. destruct (I2 k e He) as [A1 A2 A3 A4 A5]. split; cbn [threads set_thread]; rewrite ?Ht by done; try done.
    intros t' Ht'. apply A5. destruct (decide (t' = t)) as [->|Hne]; [done|]. by rewrite lookup_insert_ne in Ht'.
  - intros t' y Hy. destruct (decide (t' = t)) as [->|Hne]; [|rewrite lookup_insert_ne in Hy by done; by eapply I3].
    rewrite lookup_insert_eq in Hy. injection Hy as <-. split_and!; [done|constructor|done].
  - intros t' y k e Hy He. destruct (decide (t' = t)) as [->|Hne]; [|rewrite lookup_insert_ne in Hy by done; by eapply I4].
    rewrite lookup_insert_eq in Hy. injection Hy as <-. apply running_agrees; [done|]. cbn. destruct (I2 k e He) as [_ _ _ _ A5]. by rewrite A5.
  - intros k Hp. apply I5. rewrite Ht in Hp by done. done.
Qed.

Lemma spawn_ok c t t' start_error allocated : inv [] c -> threads c !! t' = None -> inv [] (spawn t t' start_error allocated c).
Proof.
  intros I Hn. unfold spawn. destruct start_error; [by apply inv_says|].
  destruct allocated; apply inv_says, inv_jobs; by apply inv_spawn.
Qed.

Lemma joined_ok c t t' x x' : inv [] c -> threads c !! t = Some x -> pc x = Joining t' -> threads c !! t' = Some x' -> pc x' = Done -> inv [] (joined t t' x' c).
Proof.
  intros I Hx Hpc Hx' Hd. unfold joined. apply inv_says. assert (t <> t') as Hne by (intros ->; congruence).
  assert (inv [] (set_thread t' (set_slot None x') c)) as I1 by (by eapply inv_reply).
  unfold goes. cbn [threads set_thread]. rewrite lookup_insert_ne, Hx by done.
  pose proof (i_thread _ _ I t x Hx) as (Hpo & Hkinds & Hpins). eapply inv_thread; [done|cbn; by rewrite lookup_insert_ne| |done| |].
  - split_and!; [done|done|]. intros k. cbn. rewrite Hpins, Hpc. done.
  - intros k. unfold waits, waits_on. cbn. by rewrite Hpc.
  - intros k n. unfold agrees, leaving, waits, waits_on. cbn. by rewrite Hpc.
Qed.

Lemma finish_ok c t x v : inv [] c -> threads c !! t = Some x -> pc x = Running -> frames x = [] ->
  inv [] (set_thread t (set_pc Exiting (set_slot (Some v) x)) c).
Proof.
  intros I Hx Hpc Hf. pose proof (i_thread _ _ I t x Hx) as (Hpo & Hkinds & Hpins). eapply inv_thread; [done|done| |done| |].
  - split_and!; [done|done|]. intros k. cbn. rewrite Hpins, Hpc. done.
  - intros k. unfold waits, waits_on. cbn. by rewrite Hpc.
  - intros k n Hag. apply running_agrees in Hag; [|done]. unfold agrees, leaving. cbn. lia.
Qed.

Lemma teardown_ok c t x k rc : inv [] c -> threads c !! t = Some x -> pc x = Exiting -> k ∈ held x -> inv [] (teardown t x k rc c).
Proof.
  intros I Hx Hpc Hk. unfold teardown. destruct (entries c !! k) as [e|] eqn:He; [|done].
  assert ((forall k, waits k x = 0 /\ waits_on k x = 0) /\ point_pins (pc x) = []) as [Hw Hpp] by (unfold waits, waits_on; by rewrite Hpc).
  destruct (held_owned _ _ _ _ _ _ I Hx He Hk (fun k => proj1 (Hw k))) as [_ Hu].
  assert (inv [] (set_bad (unlock_undefined t e) c)) as I' by (by apply inv_good). apply drop_arc_ok. destruct (rc =? 0).
  - eapply give_back_ok; try done. by eapply held_kind.
  - pose proof (i_thread _ _ I t x Hx) as (Hpo & Hkinds & Hpins). eapply inv_thread; [done|done| | |done|].
    + split_and!; [unfold point_ok; cbn; by rewrite Hpc| |done]. cbn. rewrite Forall_app in Hkinds |- *. destruct Hkinds as [H1 H2]. split; [|done].
      rewrite Forall_forall in H1 |- *. intros k' Hk'. apply H1, occ_elem. apply occ_elem in Hk'. rewrite occ_without in Hk' by done.
      pose proof (b2z_nonneg (same k' k)). lia.
    + intros k'. unfold refs. cbn [held pins set_held]. rewrite occ_without by done. rewrite occ_cons, occ_nil. lia.
    + intros k' n. unfold agrees, leaving. cbn. rewrite Hpc, occ_without by done. pose proof (b2z_nonneg (same k' k)). lia.
Qed.

Lemma gone_ok c t x : inv [] c -> threads c !! t = Some x -> pc x = Exiting -> inv [] (set_thread t (set_pc Done x) c).
Proof.
  intros I Hx Hpc. pose proof (i_thread _ _ I t x Hx) as (Hpo & Hkinds & Hpins). eapply inv_thread; [done|done| |done| |].
  - split_and!; [done|done|]. intros k. cbn. rewrite Hpins, Hpc. done.
  - intros k. unfold waits, waits_on. cbn. by rewrite Hpc.
  - intros k n. unfold agrees, leaving. cbn. by rewrite Hpc.
Qed.

(** ** Every step *)

Lemma on_handle_inv t kd h f c c' : on_handle t kd h f c = Some c' ->
  exists x, threads c !! t = Some x /\ pc x = Running /\ ((exists m : string, c' = says t (Err m) c) \/ exists id, f (kd, id) = Some c').
Proof.
  unfold on_handle. destruct (threads c !! t) as [x|] eqn:Hx; [|done]. destruct (decide (pc x = Running)) as [Hpc|]; [|done].
  destruct (extract_handle_id h kd); intros E; exists x; split_and!; try done; [right; eauto|left]. injection E as <-. eauto.
Qed.

Lemma while_running_inv t f c c' : while_running t f c = Some c' -> exists x, threads c !! t = Some x /\ pc x = Running /\ f x = Some c'.
Proof. unfold while_running. destruct (threads c !! t) as [x|] eqn:Hx; [|done]. destruct (decide (pc x = Running)); [|done]. eauto. Qed.

(** The contract of the functions that wait: the mutex is the one associated with the
    condition variable, as long as somebody waits on it. *)
Definition keeps_contract (l : label) c : Prop :=
  match l with
  | Wait _ (Handle KCondVar cd) (Handle KMutex m) _ _ => associated (KCondVar, cd) (KMutex, m) c
  | _ => True
  end.
#[export] Instance keeps_contract_dec l c : Decision (keeps_contract l c).
Proof. destruct l as [| | | | | | | | | |? [| |[] ?] [| |[] ?] ? ?| | | | | | | | | |]; apply _. Defined.

Definition contract_step (l : label) c : option config := if decide (keeps_contract l c) then step l c else None.

Lemma contract_step_inv l c c' : contract_step l c = Some c' -> keeps_contract l c /\ step l c = Some c'.
Proof. unfold contract_step. by case_decide. Qed.

Lemma step_keeps l c c' : inv [] c -> keeps_contract l c -> step l c = Some c' -> inv [] c'.
Proof.
  intros I Hc. destruct l; cbn [step]; intros E.
  - apply while_running_inv in E as (x & Hx & Hpc & E). destruct (refuse_handle _ _ _); [injection E as <-; by apply inv_says|].
    case_match; [|done]. injection E as <-. by eapply make_handle_ok.
  - destruct (threads c !! t) as [x|] eqn:Hx; [|done]. destruct (pc x) eqn:Hpc; try done. injection E as <-. by eapply finish_handle_ok.
  - destruct (threads c !! t) as [x|] eqn:Hx; [|done]. destruct (pc x) eqn:Hpc; try done.
    rewrite (guarded_unavailable c t x k.1 Hx) in E; [done|by rewrite Hpc].
  - apply while_running_inv in E as (x & Hx & Hpc & E). case_match; [|done]. injection E as <-. by apply destroy_object_ok.
  - case_match eqn:El; [|done]. apply on_handle_inv in E as (x & Hx & Hpc & [[e ->]|[id E]]); [by apply inv_says|].
    case_match; [|done]. injection E as <-. pose proof (start_lock_ok c t x (kd, id) exclusive false I Hx El Hpc) as Hs.
    destruct (start_lock _ _ _ _ _); [done|by apply inv_says].
  - destruct (threads c !! t) as [x|] eqn:Hx; [|done]. destruct (pc x) as [|k b1 b2|k b1|cd m b1|cd m b1 b2| | | | |] eqn:Hpc; try done.
    destruct (entries c !! k) as [e|] eqn:He; [|done]. destruct (rc =? 0).
    + case_match; [|done]. injection E as <-. by eapply granted_ok.
    + injection E as <-. by eapply refused_ok.
  - case_match; [|done]. apply on_handle_inv in E as (x & Hx & Hpc & [[e ->]|[id E]]); [by apply inv_says|].
    injection E as <-. by eapply unlock_ok.
  - case_match eqn:El; [|done]. apply on_handle_inv in E as (x & Hx & Hpc & [[e ->]|[id E]]); [by apply inv_says|].
    case_match; [|done]. injection E as <-. by eapply start_with_ok.
  - destruct (threads c !! t) as [x|] eqn:Hx; [|done]. destruct (pc x) as [|k b1 b2|k b1|cd m b1|cd m b1 b2| | | | |] eqn:Hpc; try done.
    case_match; [|done]. injection E as <-. pose proof (i_thread _ _ I t x Hx) as (Hpo & _ & _). unfold point_ok in Hpo. rewrite Hpc in Hpo.
    pose proof (start_lock_ok c t x k b1 true I Hx Hpo Hpc) as Hs. destruct (start_lock _ _ _ _ _); [done|]. by eapply inv_says, enter_failed_ok.
  - apply while_running_inv in E as (x & Hx & Hpc & E). destruct (frames x) eqn:Hf; [done|]. injection E as <-. by eapply end_with_ok.
  - apply while_running_inv in E as (x & Hx & Hpc & E). destruct (bad_timeout timeout); [injection E as <-; by apply inv_says|].
    destruct cond as [| |kd1 cd]; try (injection E as <-; by apply inv_says). cbn [extract_handle_id] in E.
    case_decide; subst; [|injection E as <-; by apply inv_says].
    destruct mutex as [| |kd2 m]; try (injection E as <-; by apply inv_says). cbn [extract_handle_id] in E.
    case_decide; subst; [|injection E as <-; by apply inv_says].
    case_match; [|done]. injection E as <-. by eapply start_wait_ok.
  - destruct (threads c !! t) as [x|] eqn:Hx; [|done]. destruct (pc x) as [|k b1 b2|k b1|cd m b1|cd m b1 b2| | | | |] eqn:Hpc; try done.
    destruct (entries c !! cd) eqn:He; [|done]. case_match; [|done]. injection E as <-. by eapply woken_ok.
  - destruct (threads c !! t) as [x|] eqn:Hx; [|done]. destruct (pc x) as [|k b1 b2|k b1|cd m b1|cd m b1 b2| | | | |] eqn:Hpc; try done.
    destruct (entries c !! m) eqn:He; [|done]. case_match; [|done]. injection E as <-. by eapply reacquired_ok.
  - apply on_handle_inv in E as (x & Hx & Hpc & [[e ->]|[id E]]); [by apply inv_says|]. case_match; [|done]. injection E as <-. by apply notify_ok.
  - apply while_running_inv in E as (x & Hx & Hpc & E). case_bool_decide; [|done]. injection E as <-. by apply spawn_ok.
  - apply while_running_inv in E as (x & Hx & Hpc & E). injection E as <-. unfold mux_thread_join. case_match; [|by apply inv_says].
    apply goes_ok; [by apply inv_jobs| |done]. intros y Hy. cbn in Hy. rewrite Hx in Hy. injection Hy as <-. by rewrite Hpc.
  - destruct (threads c !! t) as [x|] eqn:Hx; [|done]. destruct (pc x) as [|k b1 b2|k b1|cd m b1|cd m b1 b2|t'| | | |] eqn:Hpc; try done.
    destruct (threads c !! t') as [x'|] eqn:Hx'; [|done]. case_decide; [|done]. injection E as <-. by eapply joined_ok.
  - apply while_running_inv in E as (x & Hx & Hpc & E). injection E as <-. unfold mux_thread_detach. case_match; apply inv_says; [by apply inv_jobs|done].
  - apply while_running_inv in E as (x & Hx & Hpc & E). injection E as <-. by apply inv_jobs.
  - apply while_running_inv in E as (x & Hx & Hpc & E). destruct (frames x) eqn:Hf; [|done]. injection E as <-. by eapply finish_ok.
  - destruct (threads c !! t) as [x|] eqn:Hx; [|done]. case_decide; [|done]. destruct (held x) as [|k ks] eqn:Hh; injection E as <-; [by eapply gone_ok|].
    eapply teardown_ok; try done. rewrite Hh. by left.
Qed.

Lemma start_inv : inv [] start.
Proof.
  split; cbn; try done.
  - intros t x Hx. apply lookup_singleton_Some in Hx as [_ <-]. split_and!; [done|constructor|done].
Qed.

Lemma reachable_ok c : reachable contract_step start c -> inv [] c.
Proof. apply reachable_inv; [apply start_inv|]. intros l c1 c2 I [Hc E]%contract_step_inv. by eapply step_keeps. Qed.

(** C23: The native primitives are never misused by programs that keep the contract of
    waiting.  For any number of threads, any interleaving of their calls, any failures of
    the native calls and allocations and any wake-ups: as long as no call waits on a
    condition variable with another mutex than the threads blocked on it (the documented
    requirement, which the runtime does not check), no thread locks a mutex it has, unlocks
    or waits with a lock it does not hold, uses a lock after its destruction, or destroys
    a lock that is held or waited on, though handles may be dropped at any moment and
    threads may end with locks held. *)
Theorem locks_never_undefined c : reachable contract_step start c -> bad c = false.
Proof. intros Hc. apply i_bad with (d := []). by apply reachable_ok. Qed.

(** ** Runs *)

Definition main : tid := 0%nat.
Definition worker : tid := 1%nat.

(** A constructor that succeeds. *)
Definition new_lock (kd : kind) : list label := [New main kd false None; Made main Allocated].

(** Two threads and a mutex: the first locks it and drops the handle, the second can no longer find it. *)
Definition demo_run : list label :=
  new_lock KMutex ++ mux_sync_spawn main worker None true ++ mux_mutex_lock main (Handle KMutex 1) 0 ++
  destroy_mutex_object main 1 ++ [Lock worker KMutex (Handle KMutex 1) true].
Definition demo_locked : config := default start (run contract_step demo_run start).

Lemma demo_locked_reachable : reachable contract_step start demo_locked.
Proof. apply (run_reachable contract_step demo_run). vm_compute. reflexivity. Qed.

Lemma locks_never_undefined_witness : held <$> threads demo_locked !! main = Some [(KMutex, 1)] /\ bad demo_locked = false.
Proof. split; [vm_compute; reflexivity|]. apply (locks_never_undefined demo_locked), demo_locked_reachable. Defined.

(** The contract is needed: the runtime accepts a second waiter with another mutex, and the
    native wait is then undefined. *)
Definition mixed_run : list label :=
  new_lock KMutex ++ new_lock KMutex ++ new_lock KCondVar ++ mux_sync_spawn main worker None true ++
  mux_mutex_lock main (Handle KMutex 1) 0 ++ mux_mutex_lock worker (Handle KMutex 2) 0 ++
  [Wait main (Handle KCondVar 1) (Handle KMutex 1) None 0; Wait worker (Handle KCondVar 1) (Handle KMutex 2) None 0].

Lemma two_mutexes_undefined : bad <$> run step mixed_run start = Some true /\ run contract_step mixed_run start = None.
Proof. split; vm_compute; reflexivity. Qed.
