(* ===== verification/LocksExcl.v ===== *)
(** * Exclusion, and the registry that stays locked

    Which locks exclude each other, and what a failed allocation of a handle does. *)

From S2P Require Import Prelude AssocList Object Value Lts Locks LocksProps.

Implicit Types (c : config) (x : thread) (k : key) (e : entry) (t : tid) (d : list key).

Definition owners_of k c : option (list (tid * bool)) := owners <$> entries c !! k.
Definition point_of t c : option point := pc <$> threads c !! t.

(** A piece of a step of [t]: the ownerships of locks other than [ks] and the points of
    other threads stay. *)
Record frame t (ks : list key) c c' : Prop := {
  f_owners k : k ∉ ks -> owners_of k c' = owners_of k c;
  f_points t' : t' <> t -> point_of t' c <> None -> point_of t' c' = point_of t' c;
}.

Lemma frame_refl t ks c : frame t ks c c.
Proof. by split. Qed.

Lemma frame_trans t ks ks' c1 c2 c3 : frame t ks c1 c2 -> frame t ks' c2 c3 -> frame t (ks ++ ks') c1 c3.
Proof.
  intros [A1 A2] [B1 B2]. split.
  - intros k Hk. rewrite elem_of_app in Hk. rewrite B1, A1 by tauto. done.
  - intros t' Ht Hn. rewrite B2, A2 by (done || by rewrite A2). done.
Qed.

Lemma frame_trans_nil t ks c1 c2 c3 : frame t ks c1 c2 -> frame t [] c2 c3 -> frame t ks c1 c3.
Proof. intros A B. rewrite <- (app_nil_r ks). by eapply frame_trans. Qed.

Lemma frame_thread t x c : frame t [] c (set_thread t x c).
Proof. split; try done. intros t' Hne _. unfold point_of. cbn. by rewrite lookup_insert_ne. Qed.

Lemma frame_entry t k e c : frame t [k] c (set_entry k e c).
Proof. split; try done. intros k' Hk. unfold owners_of. cbn. rewrite lookup_insert_ne; [done|set_solver]. Qed.

(** The entry changes, its owners do not. *)
Lemma frame_same t k e e' c : entries c !! k = Some e -> owners e' = owners e -> frame t [] c (set_entry k e' c).
Proof.
  intros He Ho. split; try done. intros k' _. unfold owners_of. cbn. destruct (decide (k' = k)) as [->|Hne].
  - rewrite lookup_insert_eq, He. cbn. by rewrite Ho.
  - by rewrite lookup_insert_ne.
Qed.

Lemma frame_bad t b c : frame t [] c (set_bad b c).
Proof. by split. Qed.
Lemma frame_jobs t m n c : frame t [] c (set_jobs m n c).
Proof. by split. Qed.
Lemma frame_registry t r c : frame t [] c (set_registry r c).
Proof. by split. Qed.

Lemma frame_says t r c : frame t [] c (says t r c).
Proof. unfold says. destruct (threads c !! t); [apply frame_thread|apply frame_refl]. Qed.
Lemma frame_goes t p c : frame t [] c (goes t p c).
Proof. unfold goes. destruct (threads c !! t); [apply frame_thread|apply frame_refl]. Qed.

Lemma frame_drop t k c : frame t [] c (drop_arc k c).
Proof.
  unfold drop_arc. destruct (entries c !! k) as [e|] eqn:He; [|apply frame_refl]. repeat case_match.
  - by eapply frame_same.
  - eapply frame_trans_nil; [|apply frame_bad]. by eapply frame_same.
  - by eapply frame_same.
Qed.

Lemma frame_drops t ks c : frame t [] c (foldl (fun c k => drop_arc k c) c ks).
Proof.
  revert c. induction ks as [|k ks IH]; intros c; [apply frame_refl|]. cbn. eapply frame_trans_nil; [|apply IH]. apply frame_drop.
Qed.

Lemma frame_locals t ks f c : frame t [] c (drop_locals t ks f c).
Proof.
  unfold drop_locals. destruct (threads c !! t) as [x|]; [|apply frame_refl].
  eapply frame_trans_nil; [|apply frame_drops]. apply frame_thread.
Qed.

Create HintDb locks.
#[export] Hint Resolve frame_refl frame_thread frame_bad frame_jobs frame_registry frame_says frame_goes frame_drop frame_locals frame_same : locks.

(** Follow a composition of such pieces. *)
Ltac frames := repeat first [solve [eauto 2 with locks] | eapply frame_trans_nil; [|solve [eauto 2 with locks]]].

Lemma frame_start_lock t k b1 b2 c : match start_lock t k b1 b2 c with Ok c' => frame t [] c c' | Err _ => True end.
Proof.
  unfold start_lock. destruct (threads c !! t); [|frames]. destruct (already_locked t k c); [done|]. destruct (registered k c); [|done]. cbn [negb].
  destruct (entries c !! k) as [e|] eqn:He; [|frames]. frames.
Qed.

(** ** Exclusion *)

(** A write lock is alone, and a mutex is locked exclusively. *)
Definition exclusive_ok k (l : list (tid * bool)) : Prop :=
  (forall o, o ∈ l -> o.2 = true -> l = [o]) /\ (k.1 = KMutex -> forall o, o ∈ l -> o.2 = true).

Definition excludes c : Prop := forall k l, owners_of k c = Some l -> k.1 <> KCondVar -> exclusive_ok k l.

Lemma excludes_frame t ks c c' : excludes c -> frame t ks c c' ->
  (forall k l, k ∈ ks -> owners_of k c' = Some l -> k.1 <> KCondVar -> exclusive_ok k l) -> excludes c'.
Proof.
  intros Hc [F _] Hks k l Hl Hk. destruct (decide (k ∈ ks)) as [Hin|Hin]; [by eapply Hks|].
  apply Hc; [|done]. by rewrite <- F.
Qed.

Lemma excludes_quiet t c c' : excludes c -> frame t [] c c' -> excludes c'.
Proof. intros Hc F. eapply excludes_frame; [done|done|]. intros k l Hk. by apply not_elem_of_nil in Hk. Qed.

Lemma exclusive_own k t b e : lockable k.1 b = true -> grantable b e = true -> exclusive_ok k (owners (own t b e)).
Proof.
  intros Hk Hg. cbn. destruct b; cbn in Hg.
  - apply bool_decide_eq_true in Hg. rewrite Hg. split; [by intros o ->%list_elem_of_singleton|]. by intros _ o ->%list_elem_of_singleton.
  - rewrite forallb_forall in Hg. split.
    + intros o [->|Ho]%elem_of_cons; [done|]. apply list_elem_of_In, Hg in Ho. by destruct o as [? []].
    + destruct k as [[] ?]; done.
Qed.

Lemma disown_subset t l o : o ∈ disown t l -> o ∈ l.
Proof.
  induction l as [|a l IH]; [done|]. cbn. case_decide; [by right|]. intros [->|Ho]%elem_of_cons; [left|right; auto].
Qed.

Lemma exclusive_disown k t l : exclusive_ok k l -> exclusive_ok k (disown t l).
Proof.
  intros [H1 H2]. split.
  - intros o Ho Hb. pose proof (disown_subset t l o Ho) as Hl. specialize (H1 o Hl Hb). subst l. cbn in *. case_decide; [|done]. by apply not_elem_of_nil in Ho.
  - intros Hk o Ho. by eapply H2, disown_subset.
Qed.

(** An ownership goes. *)
Lemma excludes_release t k e c c' : excludes c -> entries c !! k = Some e -> frame t [k] c c' -> owners_of k c' = Some (disown t (owners e)) -> excludes c'.
Proof.
  intros Hc He F Ho. eapply excludes_frame; [done|done|]. intros k' l ->%list_elem_of_singleton Hl Hk. rewrite Ho in Hl. injection Hl as <-.
  apply exclusive_disown. apply Hc; [|done]. unfold owners_of. by rewrite He.
Qed.

Lemma excludes_grant t k b e c c' : excludes c -> lockable k.1 b = true -> grantable b e = true -> frame t [k] c c' ->
  owners_of k c' = Some ((t, b) :: owners e) -> excludes c'.
Proof.
  intros Hc Hk Hg F Ho. eapply excludes_frame; [done|done|]. intros k' l ->%list_elem_of_singleton Hl _. rewrite Ho in Hl. injection Hl as <-.
  by apply (exclusive_own k t b e).
Qed.

(** ** Steps *)

(** What a piece of a step does to the ownerships: nothing, one more that was granted, one
    less, or something about a condition variable or a new lock. *)
Inductive change t c c' : Prop :=
| ch_quiet : frame t [] c c' -> change t c c'
| ch_grant k b e : lockable k.1 b = true -> grantable b e = true -> frame t [k] c c' -> owners_of k c' = Some ((t, b) :: owners e) -> change t c c'
| ch_release k e : entries c !! k = Some e -> frame t [k] c c' -> owners_of k c' = Some (disown t (owners e)) -> change t c c'
| ch_new k : frame t [k] c c' -> owners_of k c' = Some [] -> change t c c'
| ch_wait cd m e : entries c !! m = Some e -> cd.1 = KCondVar -> frame t [cd; m] c c' -> owners_of m c' = Some (disown t (owners e)) -> change t c c'
| ch_cond cd : cd.1 = KCondVar -> frame t [cd] c c' -> change t c c'.

Lemma change_frame t c c' : change t c c' -> exists ks, frame t ks c c'.
Proof. by destruct 1; eauto. Qed.

Lemma change_quiet t c1 c2 c3 : change t c1 c2 -> frame t [] c2 c3 -> change t c1 c3.
Proof.
  intros Hc F. assert (forall k, owners_of k c3 = owners_of k c2) as E by (intros k; apply (f_owners _ _ _ _ F), not_elem_of_nil).
  assert (forall ks, frame t ks c1 c2 -> frame t ks c1 c3) as T by (intros ks Hf; by eapply frame_trans_nil).
  destruct Hc; [apply ch_quiet|eapply ch_grant|eapply ch_release|eapply ch_new|eapply ch_wait|eapply ch_cond]; rewrite ?E; eauto.
Qed.

Lemma change_excludes t c c' : excludes c -> change t c c' -> excludes c'.
Proof.
  intros Hc [F|k b e Hk Hg F Ho|k e He F Ho|k F Ho|cd m e He Hcd F Ho|cd Hcd F].
  - by eapply excludes_quiet.
  - by eapply excludes_grant.
  - by eapply excludes_release.
  - eapply excludes_frame; [done|done|]. intros k' l ->%list_elem_of_singleton Hl _. rewrite Ho in Hl. injection Hl as <-.
    split; [by intros o ?%not_elem_of_nil|]. by intros _ o ?%not_elem_of_nil.
  - eapply excludes_frame; [done|done|]. intros k' l Hin Hl Hk. apply elem_of_cons in Hin as [->|Hin]; [done|].
    apply list_elem_of_singleton in Hin as ->. rewrite Ho in Hl. injection Hl as <-.
    apply exclusive_disown, Hc; [|done]. unfold owners_of. by rewrite He.
  - eapply excludes_frame; [done|done|]. by intros k' l ->%list_elem_of_singleton.
Qed.

Lemma owners_set k e c : owners_of k (set_entry k e c) = Some (owners e).
Proof. unfold owners_of. cbn. by rewrite lookup_insert_eq. Qed.

Lemma change_unlock t k rc c : change t c (unlock t k rc c).
Proof.
  unfold unlock. destruct (threads c !! t) as [x|]; [|apply ch_quiet; frames]. destruct (entries c !! k) as [e|] eqn:He; [|apply ch_quiet; frames].
  destruct (holds t k c); cbn [negb]; [|apply ch_quiet; frames]. destruct (rc =? 0); [|apply ch_quiet; frames].
  eapply change_quiet; [|apply frame_drop]. eapply change_quiet; [|apply frame_thread].
  eapply (ch_release t _ _ k e He); [|apply owners_set]. eapply (frame_trans t [] [k]); [apply frame_bad|apply frame_entry].
Qed.

Definition actor (l : label) : tid :=
  match l with
  | New t _ _ _ | Made t _ | Undo t | DropHandle t _ | Lock t _ _ _ | Grant t _ | Unlock t _ _ _ | With t _ _ _ | Enter t | Return t _ _ | Wait t _ _ _ _
  | Wake t _ | Reacquire t | Notify t _ _ _ | Spawn t _ _ _ | Join t _ | Joined t | Detach t _ | DropThread t _ | Finish t _ | Teardown t _ => t
  end.

Lemma change_make t kd c : change t c (make_handle t kd c).
Proof.
  unfold make_handle. eapply change_quiet; [|apply frame_goes].
  apply (ch_new t c _ (kd, next_ids c kd)); [|unfold owners_of; cbn; by rewrite lookup_insert_eq]. split; [|done].
  intros k Hk. unfold owners_of. cbn. rewrite lookup_insert_ne; [done|set_solver].
Qed.

Lemma change_wait t cd m timeout rc c : cd.1 = KCondVar -> m.1 = KMutex -> change t c (start_wait t cd m timeout rc c).
Proof.
  intros Hcd Hm. unfold start_wait. destruct (threads c !! t) as [x|]; [|apply ch_quiet; frames].
  destruct (holds t m c); cbn [negb]; [|apply ch_quiet; frames]. destruct (registered cd c); cbn [negb]; [|apply ch_quiet; frames].
  destruct (registered m c); cbn [negb]; [|apply ch_quiet; frames]. destruct (entries c !! cd) as [ec|] eqn:Ec; [|apply ch_quiet; frames].
  destruct (entries c !! m) as [em|] eqn:Em; [|apply ch_quiet; frames]. destruct (rc =? 0); [|apply ch_quiet; frames].
  eapply change_quiet; [|apply frame_thread]. eapply (ch_wait t _ _ cd m em Em Hcd); [|by rewrite owners_set].
  eapply (frame_trans t [cd] [m]); [|apply frame_entry]. eapply (frame_trans t [] [cd]); [apply frame_bad|apply frame_entry].
Qed.

Lemma change_notify t all cd rc c : change t c (notify t all cd rc c).
Proof. apply ch_quiet. unfold notify. destruct (entries c !! cd); [|frames]. destruct (registered cd c); frames. Qed.

Lemma change_teardown t x k rc c : change t c (teardown t x k rc c).
Proof.
  unfold teardown. destruct (entries c !! k) as [e|] eqn:He; [|apply ch_quiet; frames]. eapply change_quiet; [|apply frame_drop].
  eapply change_quiet; [|apply frame_thread]. destruct (rc =? 0); [|apply ch_quiet; frames].
  eapply (ch_release t _ _ k e He); [|apply owners_set]. eapply (frame_trans t [] [k]); [apply frame_bad|apply frame_entry].
Qed.

Lemma frame_spawn t t' se a c : threads c !! t' = None -> frame t [] c (spawn t t' se a c).
Proof.
  intros Hn. unfold spawn. destruct se; [frames|].
  assert (frame t [] c (set_thread t' (mk_thread Running [] [] [] None (Ok VUnit)) c)) as F.
  { split; try done. intros u Hu Hp. unfold point_of in *. cbn. rewrite lookup_insert_ne; [done|]. intros ->. by rewrite Hn in Hp. }
  destruct a; (eapply frame_trans_nil; [|apply frame_says]; eapply frame_trans_nil; [exact F|apply frame_jobs]).
Qed.

Lemma frame_joined t t' x' c : threads c !! t' = Some x' -> frame t [] c (joined t t' x' c).
Proof.
  intros Hx. unfold joined. eapply frame_trans_nil; [|apply frame_says]. eapply frame_trans_nil; [|apply frame_goes].
  split; try done. intros u Hu _. unfold point_of. cbn. destruct (decide (u = t')) as [->|Hne]; [by rewrite lookup_insert_eq, Hx|by rewrite lookup_insert_ne].
Qed.

Lemma frame_start_with t k b c : frame t [] c (start_with t k b c).
Proof.
  unfold start_with. destruct (threads c !! t) as [x|]; [|frames]. destruct (entries c !! k) as [e|] eqn:He; [|frames].
  destruct (registered k c); frames.
Qed.

Lemma step_change l c c' : inv [] c -> step l c = Some c' -> change (actor l) c c'.
Proof.
  intros I. destruct l; cbn [step actor]; intros E.
  - apply while_running_inv in E as (x & Hx & Hpc & E). destruct (refuse_handle _ _ _); [injection E as <-; apply ch_quiet; frames|].
    case_match; [|done]. injection E as <-. apply change_make.
  - destruct (threads c !! t) as [x|] eqn:Hx; [|done]. destruct (pc x) eqn:Hpc; try done. injection E as <-. apply ch_quiet.
    unfold finish_handle. destruct a; frames.
  - destruct (threads c !! t) as [x|] eqn:Hx; [|done]. destruct (pc x) eqn:Hpc; try done.
    rewrite (guarded_unavailable c t x k.1 Hx) in E; [done|by rewrite Hpc].
  - apply while_running_inv in E as (x & Hx & Hpc & E). case_match; [|done]. injection E as <-. apply ch_quiet. unfold destroy_object. case_match; frames.
  - case_match; [|done]. apply on_handle_inv in E as (x & Hx & Hpc & [[e ->]|[id E]]); [apply ch_quiet; frames|].
    case_match; [|done]. injection E as <-. apply ch_quiet. pose proof (frame_start_lock t (kd, id) exclusive false c).
    destruct (start_lock _ _ _ _ _); [done|frames].
  - destruct (threads c !! t) as [x|] eqn:Hx; [|done]. destruct (pc x) as [|k b1 b2|k b1|cd m b1|cd m b1 b2| | | | |] eqn:Hpc; try done.
    destruct (entries c !! k) as [e|] eqn:He; [|done]. destruct (rc =? 0).
    + destruct (grantable b1 e) eqn:Hg; [|done]. injection E as <-. pose proof (i_thread _ _ I t x Hx) as (Hpo & _ & _). unfold point_ok in Hpo. rewrite Hpc in Hpo.
      unfold granted. eapply change_quiet; [|apply frame_thread]. eapply (ch_grant t _ _ k b1 e Hpo Hg); [apply frame_entry|by rewrite owners_set].
    + injection E as <-. apply ch_quiet. unfold refused. frames.
  - case_match; [|done]. apply on_handle_inv in E as (x & Hx & Hpc & [[e ->]|[id E]]); [apply ch_quiet; frames|].
    injection E as <-. apply change_unlock.
  - case_match; [|done]. apply on_handle_inv in E as (x & Hx & Hpc & [[e ->]|[id E]]); [apply ch_quiet; frames|].
    case_match; [|done]. injection E as <-. apply ch_quiet, frame_start_with.
  - destruct (threads c !! t) as [x|] eqn:Hx; [|done]. destruct (pc x) as [|k b1 b2|k b1|cd m b1|cd m b1 b2| | | | |] eqn:Hpc; try done.
    case_match; [|done]. injection E as <-. apply ch_quiet. pose proof (frame_start_lock t k b1 true c).
    destruct (start_lock _ _ _ _ _); [done|frames].
  - apply while_running_inv in E as (x & Hx & Hpc & E). destruct (frames x) as [|k fs] eqn:Hf; [done|]. injection E as <-.
    unfold end_with. destruct error; (eapply change_quiet; [apply change_unlock|frames]).
  - apply while_running_inv in E as (x & Hx & Hpc & E). destruct (bad_timeout timeout); [injection E as <-; apply ch_quiet; frames|].
    destruct (extract_handle_id cond KCondVar), (extract_handle_id mutex KMutex); try (injection E as <-; apply ch_quiet; frames).
    case_match; [|done]. injection E as <-. by apply change_wait.
  - destruct (threads c !! t) as [x|] eqn:Hx; [|done]. destruct (pc x) as [|k b1 b2|k b1|cd m b1|cd m b1 b2| | | | |] eqn:Hpc; try done.
    destruct (entries c !! cd) eqn:He; [|done]. case_match; [|done]. injection E as <-. pose proof (i_thread _ _ I t x Hx) as (Hpo & _ & _).
    unfold point_ok in Hpo. rewrite Hpc in Hpo. unfold woken. eapply change_quiet; [|apply frame_thread]. eapply (ch_cond _ _ _ cd); [by destruct Hpo|apply frame_entry].
  - destruct (threads c !! t) as [x|] eqn:Hx; [|done]. destruct (pc x) as [|k b1 b2|k b1|cd m b1|cd m b1 b2| | | | |] eqn:Hpc; try done.
    destruct (entries c !! m) as [em|] eqn:He; [|done]. destruct (grantable true em) eqn:Hg; [|done]. injection E as <-. pose proof (i_thread _ _ I t x Hx) as (Hpo & _ & _).
    unfold point_ok in Hpo. rewrite Hpc in Hpo. unfold reacquired. eapply change_quiet; [|apply frame_locals].
    eapply (ch_grant t _ _ m true em); [by destruct Hpo as (_ & -> & _)|done|apply frame_entry|by rewrite owners_set].
  - apply on_handle_inv in E as (x & Hx & Hpc & [[e ->]|[id E]]); [apply ch_quiet; frames|]. case_match; [|done]. injection E as <-. apply change_notify.
  - apply while_running_inv in E as (x & Hx & Hpc & E). case_bool_decide; [|done]. injection E as <-. by apply ch_quiet, frame_spawn.
  - apply while_running_inv in E as (x & Hx & Hpc & E). injection E as <-. apply ch_quiet. unfold mux_thread_join. case_match; frames.
  - destruct (threads c !! t) as [x|] eqn:Hx; [|done]. destruct (pc x) as [|k b1 b2|k b1|cd m b1|cd m b1 b2|t'| | | |] eqn:Hpc; try done.
    destruct (threads c !! t') as [x'|] eqn:Hx'; [|done]. case_decide; [|done]. injection E as <-. by apply ch_quiet, frame_joined.
  - apply while_running_inv in E as (x & Hx & Hpc & E). injection E as <-. apply ch_quiet. unfold mux_thread_detach. case_match; frames.
  - apply while_running_inv in E as (x & Hx & Hpc & E). injection E as <-. apply ch_quiet. unfold destroy_thread_object. frames.
  - apply while_running_inv in E as (x & Hx & Hpc & E). destruct (frames x); [|done]. injection E as <-. apply ch_quiet. frames.
  - destruct (threads c !! t) as [x|] eqn:Hx; [|done]. case_decide; [|done]. destruct (held x) as [|k ks] eqn:Hh; injection E as <-; [apply ch_quiet; frames|].
    apply change_teardown.
Qed.

Lemma start_excludes : excludes start.
Proof. intros k l Hl. done. Qed.

Lemma reachable_excludes c : reachable contract_step start c -> inv [] c /\ excludes c.
Proof.
  apply (reachable_inv contract_step (fun c => inv [] c /\ excludes c)); [split; [apply start_inv|apply start_excludes]|].
  intros l c1 c2 [I Hc] [Hk E]%contract_step_inv. split; [by eapply step_keeps|].
  eapply change_excludes; [done|by eapply step_change].
Qed.

(** Locks exclude.  In every reachable configuration, two threads that both have a lock
    in their lists of held locks, and are not inside a wait that gave it back, are the same
    thread if the lock is a mutex or one of them took it for writing. *)
Lemma locks_exclusive c k e t1 t2 x1 x2 : reachable contract_step start c -> entries c !! k = Some e ->
  threads c !! t1 = Some x1 -> threads c !! t2 = Some x2 -> k ∈ held x1 -> k ∈ held x2 -> waits k x1 = 0 -> waits k x2 = 0 ->
  k.1 = KMutex \/ (t1, true) ∈ owners e -> t1 = t2.
Proof.
  intros Hr He Hx1 Hx2 Hk1 Hk2 Hw1 Hw2 Hex. destruct (reachable_excludes c Hr) as [I Hexc].
  assert (forall t x, threads c !! t = Some x -> k ∈ held x -> waits k x = 0 -> t ∈ (owners e).*1) as Hown.
  { intros t x Hx Hk Hw. pose proof (i_agree _ _ I t x k e Hx He) as Hag. apply occ_elem in Hk. apply occ_elem. unfold agrees in Hag. rewrite Hw in Hag.
    unfold own_count in Hag. pose proof (waits_on_nonneg k x). destruct (leaving x); lia. }
  pose proof (held_kind _ _ _ _ _ I Hx1 Hk1) as Hkind. pose proof (Hexc k (owners e)) as [He1 He2]; [unfold owners_of; by rewrite He|done|].
  assert ((t1, true) ∈ owners e) as Hin.
  { destruct Hex as [Hm|]; [|done]. pose proof (Hown t1 x1 Hx1 Hk1 Hw1) as Ho. apply list_elem_of_fmap in Ho as ([t b] & -> & Ho).
    pose proof (He2 Hm _ Ho) as Hb. cbn in Hb. by subst b. }
  pose proof (Hown t2 x2 Hx2 Hk2 Hw2) as H2. rewrite (He1 _ Hin eq_refl) in H2. cbn in H2. by apply list_elem_of_singleton in H2.
Qed.

(** ** A failed allocation *)

(** A thread that undoes its registration waits for the guard it has. *)
Lemma undoing_stuck l c k m : point_of (actor l) c = Some (Undoing k m) -> step l c = None.
Proof.
  unfold point_of. intros Hp. assert (exists x, threads c !! actor l = Some x /\ pc x = Undoing k m) as (x & Hx & Hpc).
  { destruct (threads c !! actor l) as [x|]; [|done]. injection Hp as Hp. eauto. }
  assert (pc x <> Running) as Hnr by congruence.
  assert (available k.1 c = false) as Hav by (eapply guarded_unavailable; [done|by rewrite Hpc]).
  destruct l; cbn [actor step] in *; unfold while_running, on_handle; rewrite ?Hx, ?Hpc, ?Hav, ?decide_False by (done || congruence);
    repeat case_match; done || congruence.
Qed.

Lemma undoing_stays t k m l c c' : inv [] c /\ point_of t c = Some (Undoing k m) -> contract_step l c = Some c' ->
  inv [] c' /\ point_of t c' = Some (Undoing k m).
Proof.
  intros [I Hp] [Hk E]%contract_step_inv. split; [by eapply step_keeps|]. assert (t <> actor l) as Hne.
  { intros ->. by rewrite (undoing_stuck l c k m Hp) in E. }
  destruct (change_frame _ _ _ (step_change l c c' I E)) as [ks [_ F2]]. rewrite F2; [done|done|by rewrite Hp].
Qed.

(** C24: A handle that cannot be allocated blocks the program.  The constructors of mutexes,
    read-write locks and condition variables undo the registration of the entry by locking
    the registry while the guard of their own insertion is still in scope.  So once the
    object of a handle, or its data, is null, that thread never takes another step and
    never gives the guard back, and from then on no thread can create, look up, lock,
    notify or destroy a handle of that kind. *)
Theorem handle_failure_wedges c t k a c' c2 : reachable contract_step start c -> point_of t c = Some (Making k) -> a <> Allocated ->
  step (Made t a) c = Some c' -> reachable contract_step c' c2 ->
  (forall l, actor l = t -> step l c2 = None) /\
  (forall t2 null ie, refuse_handle k.1 null ie = None -> step (New t2 k.1 null ie) c2 = None) /\
  (forall t2 id, step (DropHandle t2 (k.1, id)) c2 = None) /\
  (forall t2 id b, holds t2 (k.1, id) c2 = false -> step (Lock t2 k.1 (Handle k.1 id) b) c2 = None) /\
  (forall t2 id b, step (With t2 k.1 (Handle k.1 id) b) c2 = None) /\
  (forall t2 id all rc, k.1 = KCondVar -> step (Notify t2 all (Handle KCondVar id) rc) c2 = None).
Proof.
  intros Hr Hp Ha E Hr2. destruct (reachable_excludes c Hr) as [I _].
  assert (exists m, point_of t c' = Some (Undoing k m)) as [m Hp'].
  { unfold point_of in Hp. cbn [step] in E. destruct (threads c !! t) as [x|] eqn:Hx; [|done]. injection Hp as Hpc. rewrite Hpc in E.
    injection E as <-. unfold finish_handle, goes, point_of. destruct a; [done|..]; rewrite Hx; cbn; rewrite lookup_insert_eq; eauto. }
  assert (inv [] c' /\ point_of t c' = Some (Undoing k m)) as Hw by (split; [by eapply (step_keeps (Made t a))|done]).
  assert (point_of t c2 = Some (Undoing k m)) as Hp2.
  { revert c2 Hr2. intros c2 Hr2. eapply (reachable_inv contract_step (fun c => inv [] c /\ point_of t c = Some (Undoing k m))); [exact Hw| |exact Hr2].
    intros l c1 c3. apply undoing_stays. }
  assert (available k.1 c2 = false) as Hav.
  { unfold point_of in Hp2. destruct (threads c2 !! t) as [x|] eqn:Hx; [|done]. injection Hp2 as Hpc.
    eapply guarded_unavailable; [done|by rewrite Hpc]. }
  split_and!.
  - intros l <-. by eapply undoing_stuck.
  - intros t2 null ie Hn. cbn [step]. unfold while_running. rewrite Hn, Hav. by repeat case_match.
  - intros t2 id. cbn [step fst]. unfold while_running. rewrite Hav. by repeat case_match.
  - intros t2 id b Hh. cbn [step]. case_match; [|done]. unfold on_handle. cbn [extract_handle_id]. rewrite decide_True by done.
    unfold already_locked. rewrite Hh, Hav, andb_false_r. by repeat case_match.
  - intros t2 id b. cbn [step]. case_match; [|done]. unfold on_handle. cbn [extract_handle_id]. rewrite decide_True by done. rewrite Hav. by repeat case_match.
  - intros t2 id all rc Hk. rewrite Hk in Hav. cbn [step]. unfold on_handle. cbn [extract_handle_id]. rewrite decide_True, Hav by done. by repeat case_match.
Qed.

(** ** A run: the object of a second lock cannot be allocated *)

Definition demo_making : config := default start (contract_step (New main KRwLock false None) demo_locked).

Lemma handle_failure_wedges_witness :
  let c' := default start (step (Made main NoObject) demo_making) in
  step (Made main NoObject) demo_making = Some c' /\ step (New worker KRwLock false None) c' = None /\ step (Undo main) c' = None.
Proof.
  split; [vm_compute; reflexivity|].
  destruct (handle_failure_wedges demo_making main (KRwLock, 1) NoObject (default start (step (Made main NoObject) demo_making))
    (default start (step (Made main NoObject) demo_making))) as (H1 & H2 & _).
  - apply (reach_step contract_step start demo_locked (New main KRwLock false None)); [apply demo_locked_reachable|]. vm_compute. reflexivity.
  - vm_compute. reflexivity.
  - done.
  - vm_compute. reflexivity.
  - constructor.
  - split; [by apply (H2 worker)|by apply H1].
Defined.
