(* ===== verification/Pool.v ===== *)
(** * Worker pool ([src/src/sync_primitives.rs], [PoolState] and its users)

    Workers, submitting threads and closing threads share a bounded queue guarded by
    a mutex, two condition variables ([wake] for workers, [space] for submitters) and
    the atomic flag [closed], which is written without the mutex.  A step is a
    critical section, split where [closed] is read before the section goes on: a
    thread between the two parts holds the mutex.  A task stands for the closure and
    the result channel of the source. *)

From S2P Require Import Prelude Lts Sync.

Definition task : Type := Z.

(** [mux_pool_submit], [mux_pool_try_submit], [mux_pool_submit_timeout]. *)
Inductive mode : Type := Blocking | Try | Timed.

Inductive pc : Type :=
| WReady                           (* a worker about to lock the queue *)
| WParking                         (* holds the lock; found nothing, pool open *)
| WAsleep                          (* waits on [wake] *)
| WRunning (x : task)
| WExited
| CIdle                            (* a client outside the pool *)
| SReady (x : task) (m : mode)     (* a submitter about to lock the queue *)
| SHolding (x : task) (m : mode)   (* holds the lock; saw the pool open *)
| SAsleep (x : task) (m : mode)    (* waits on [space] *)
| KDrain                           (* closing: [closed] is set, drain next *)
| KNotify                          (* closing: [wake.notify_all] next *)
| KJoin (ws : list tid).           (* closing: joins the workers *)

Record config : Type := mk_config {
  capacity : nat;
  queue : list task;
  closed : bool;
  lock : option tid;               (* who holds the queue's mutex between steps *)
  threads : gmap tid pc;
  handles : list tid;              (* join handles not yet taken *)
  accepted : list task;            (* history *)
  started : list task;             (* history *)
  finished : list task;            (* history *)
  cancelled : list task;           (* history *)
  drained : bool;                  (* history: a cancelling close has drained *)
  announced : bool;                (* history: and has then notified the workers *)
}.

(** ** Limits checked by [create_pool] *)

Definition MAX_POOL_WORKERS : Z := 256.
Definition MAX_POOL_QUEUE_CAPACITY : Z := 65536.
Definition DEFAULT_POOL_QUEUE_CAPACITY : Z := 64.

Definition create_pool (workers queue_capacity : Z) (clients : list tid) : result config string :=
  if negb (in_range 1 MAX_POOL_WORKERS workers) then
    Err "WorkerPool worker count must be between 1 and 256"
  else if negb (in_range 1 MAX_POOL_QUEUE_CAPACITY queue_capacity) then
    Err "WorkerPool queue capacity must be between 1 and 65536"
  else
    let ws := seq 0 (Z.to_nat workers) in
    Ok (mk_config (Z.to_nat queue_capacity) [] false None
          (list_to_map ((fun t => (t, WReady)) <$> ws) ∪ list_to_map ((fun t => (t, CIdle)) <$> clients))
          ws [] [] [] [] false false).

(** [mux_pool_with_size]. *)
Definition mux_pool_with_size (workers : Z) (clients : list tid) : result config string :=
  create_pool workers (saturate_i64 (workers * DEFAULT_POOL_QUEUE_CAPACITY)) clients.

(** ** Field updates *)

Definition set_threads (m : gmap tid pc) (c : config) : config :=
  mk_config (capacity c) (queue c) (closed c) (lock c) m (handles c)
    (accepted c) (started c) (finished c) (cancelled c) (drained c) (announced c).
Definition set_thread (t : tid) (p : pc) (c : config) : config := set_threads (<[t := p]> (threads c)) c.
Definition set_lock (o : option tid) (c : config) : config :=
  mk_config (capacity c) (queue c) (closed c) o (threads c) (handles c)
    (accepted c) (started c) (finished c) (cancelled c) (drained c) (announced c).

(** ** Condition variables *)

Definition worker_asleep (p : pc) : bool := match p with WAsleep => true | _ => false end.
Definition submitter_asleep (p : pc) : bool := match p with SAsleep _ _ => true | _ => false end.

(** Where a woken thread goes. *)
Definition wake_worker (p : pc) : pc := match p with WAsleep => WReady | p => p end.
Definition wake_submitter (p : pc) : pc := match p with SAsleep x m => SReady x m | p => p end.

Definition notify_one (asleep : pc -> bool) (wake : pc -> pc) (w : option tid) (m : gmap tid pc)
    : option (gmap tid pc) :=
  match w with
  | Some t =>
      match m !! t with Some p => if asleep p then Some (<[t := wake p]> m) else None | None => None end
  | None => if count asleep m =? 0 then Some m else None
  end.

(** ** Steps *)

Inductive label : Type :=
| WorkerStep (t : tid) (w : option tid)          (* [w]: the submitter [space] wakes *)
| Park (t : tid)
| FinishTask (t : tid)
| Submit (t : tid) (x : task) (m : mode)
| SubmitCheck (t : tid)
| SubmitCommit (t : tid) (w : option tid) (expired : bool)   (* [w]: the worker [wake] wakes *)
| Spurious (t : tid)                             (* a wake-up without notification *)
| Close (t : tid) (cancel_pending : bool)
| Drain (t : tid)
| NotifyAll (t : tid)
| Join (t : tid)
| CancelPending (t : tid).

Definition unlocked (c : config) : bool := match lock c with None => true | Some _ => false end.

(** The loop of [pool_worker] with the lock just taken. *)
Definition worker_step (t : tid) (w : option tid) (c : config) : option config :=
  match queue c with
  | x :: q =>
      match notify_one submitter_asleep wake_submitter w (threads c) with
      | Some m =>
          Some (mk_config (capacity c) q (closed c) None (<[t := WRunning x]> m) (handles c)
                  (accepted c) (started c ++ [x]) (finished c) (cancelled c) (drained c) (announced c))
      | None => None
      end
  | [] =>
      if closed c then Some (set_thread t WExited c)
      else Some (set_lock (Some t) (set_thread t WParking c))
  end.

(** [pool_enqueue] after the read of [closed], with the lock held. *)
Definition submit_commit (t : tid) (x : task) (m : mode) (w : option tid) (expired : bool) (c : config)
    : option config :=
  if (length (queue c) <? capacity c)%nat then
    match notify_one worker_asleep wake_worker w (threads c) with
    | Some ths =>
        Some (mk_config (capacity c) (queue c ++ [x]) (closed c) None (<[t := CIdle]> ths) (handles c)
                (accepted c ++ [x]) (started c) (finished c) (cancelled c) (drained c) (announced c))
    | None => None
    end
  else
    let c' := set_lock None c in
    match m with
    | Try => Some (set_thread t CIdle c')
    | Timed => Some (set_thread t (if expired then CIdle else SAsleep x m) c')
    | Blocking => Some (set_thread t (SAsleep x m) c')
    end.

(** Draining the queue, shared by [close_pool] and [mux_pool_cancel_pending]. *)
Definition drain (p : pc) (closing : bool) (t : tid) (c : config) : config :=
  mk_config (capacity c) [] (closed c) (lock c) (<[t := p]> (wake_submitter <$> threads c)) (handles c)
    (accepted c) (started c) (finished c) (cancelled c ++ queue c) (drained c || closing) (announced c).

Definition is_exited (p : option pc) : bool := match p with Some WExited => true | _ => false end.

Definition step (l : label) (c : config) : option config :=
  match l with
  | WorkerStep t w =>
      match threads c !! t with
      | Some WReady => if unlocked c then worker_step t w c else None
      | _ => None
      end
  | Park t =>
      match threads c !! t with
      | Some WParking => Some (set_lock None (set_thread t WAsleep c))
      | _ => None
      end
  | FinishTask t =>
      match threads c !! t with
      | Some (WRunning x) =>
          Some (mk_config (capacity c) (queue c) (closed c) (lock c) (<[t := WReady]> (threads c)) (handles c)
                  (accepted c) (started c) (finished c ++ [x]) (cancelled c) (drained c) (announced c))
      | _ => None
      end
  | Submit t x m => match threads c !! t with Some CIdle => Some (set_thread t (SReady x m) c) | _ => None end
  | SubmitCheck t =>
      match threads c !! t with
      | Some (SReady x m) =>
          if unlocked c then
            if closed c then Some (set_thread t CIdle c)
            else Some (set_lock (Some t) (set_thread t (SHolding x m) c))
          else None
      | _ => None
      end
  | SubmitCommit t w e =>
      match threads c !! t with Some (SHolding x m) => submit_commit t x m w e c | _ => None end
  | Spurious t =>
      match threads c !! t with
      | Some p =>
          if worker_asleep p || submitter_asleep p
          then Some (set_thread t (wake_worker (wake_submitter p)) c) else None
      | None => None
      end
  | Close t cancel_pending =>
      match threads c !! t with
      | Some CIdle =>
          Some (mk_config (capacity c) (queue c) true (lock c)
                  (<[t := if cancel_pending then KDrain else KNotify]> (threads c)) (handles c)
                  (accepted c) (started c) (finished c) (cancelled c) (drained c) (announced c))
      | _ => None
      end
  | Drain t =>
      match threads c !! t with
      | Some KDrain => if unlocked c then Some (drain KNotify true t c) else None
      | _ => None
      end
  | NotifyAll t =>
      match threads c !! t with
      | Some KNotify =>
          Some (mk_config (capacity c) (queue c) (closed c) (lock c)
                  (<[t := KJoin (handles c)]> (wake_worker <$> threads c)) []
                  (accepted c) (started c) (finished c) (cancelled c) (drained c)
                  (announced c || drained c))
      | _ => None
      end
  | Join t =>
      match threads c !! t with
      | Some (KJoin ws) =>
          if forallb (fun w => is_exited (threads c !! w)) ws then Some (set_thread t CIdle c) else None
      | _ => None
      end
  | CancelPending t =>
      match threads c !! t with
      | Some CIdle => if unlocked c then Some (drain CIdle false t c) else None
      | _ => None
      end
  end.

(** ** Calls *)

(** How a call enters [pool_enqueue]: its timeout argument checked first. *)
Definition submit_mode (timeout_ms : option Z) : result mode string :=
  match timeout_ms with
  | None => Ok Blocking
  | Some ms =>
      if ms <? 0 then Err "pool timeout must not be negative"
      else
        match timeout_duration ms "pool" with
        | Err e => Err e
        | Ok _ => Ok (if ms =? 0 then Try else Timed)
        end
  end.

Definition submit_with (timeout_ms : option Z) (t : tid) (x : task) : result label string :=
  let? m := submit_mode timeout_ms in Ok (Submit t x m).

Definition mux_pool_submit : tid -> task -> result label string := submit_with None.
Definition mux_pool_try_submit : tid -> task -> result label string := submit_with (Some 0).
Definition mux_pool_submit_timeout (timeout_ms : Z) : tid -> task -> result label string :=
  submit_with (Some timeout_ms).

(** [close_pool]: the order of its parts. *)
Definition close_pool (t : tid) (cancel_pending : bool) : list label :=
  Close t cancel_pending :: (if cancel_pending then [Drain t] else []) ++ [NotifyAll t; Join t].

Definition mux_pool_close (t : tid) : list label := close_pool t false.

(** [drop_pool], for the last name. *)
Definition drop_pool (t : tid) : list label := close_pool t true.

Definition mux_pool_cancel_pending (t : tid) : list label := [CancelPending t].

(** * Properties of the worker pool

    Over every interleaving of workers, submitters and closers: no task is lost or run
    twice, a cancelling close always gets its workers to exit, and two ways in which
    the plain close can leave threads asleep for ever. *)

(** ** Waking threads *)

(** Some threads have been woken. *)
Definition woken (m m' : gmap tid pc) : Prop :=
  forall t, option_relation (fun p p' => p' = p \/ p' = wake_worker p \/ p' = wake_submitter p)
    (fun _ => False) (fun _ => False) (m !! t) (m' !! t).

(** Tests that waking a thread does not change. *)
Definition stable (f : pc -> bool) : Prop :=
  forall p, f (wake_worker p) = f p /\ f (wake_submitter p) = f p.

Lemma woken_refl m : woken m m.
Proof. intros t. destruct (m !! t); simpl; auto. Qed.

Lemma woken_notify_submitter w m m' :
  notify_one submitter_asleep wake_submitter w m = Some m' -> woken m m'.
Proof.
  unfold notify_one. destruct w as [t|]; [|destruct (_ =? _); intros; simplify_eq; apply woken_refl].
  destruct (m !! t) as [p|] eqn:Ht; [|done]. destruct (submitter_asleep p); [|done]. intros [= <-] t'.
  destruct (decide (t = t')) as [<-|Hne]; [rewrite Ht, lookup_insert_eq; simpl; auto|].
  rewrite lookup_insert_ne by done. apply woken_refl.
Qed.

Lemma woken_notify_worker w m m' :
  notify_one worker_asleep wake_worker w m = Some m' -> woken m m'.
Proof.
  unfold notify_one. destruct w as [t|]; [|destruct (_ =? _); intros; simplify_eq; apply woken_refl].
  destruct (m !! t) as [p|] eqn:Ht; [|done]. destruct (worker_asleep p); [|done]. intros [= <-] t'.
  destruct (decide (t = t')) as [<-|Hne]; [rewrite Ht, lookup_insert_eq; simpl; auto|].
  rewrite lookup_insert_ne by done. apply woken_refl.
Qed.

Lemma woken_all_workers m : woken m (wake_worker <$> m).
Proof. intros t. rewrite lookup_fmap. destruct (m !! t); simpl; auto. Qed.

Lemma woken_all_submitters m : woken m (wake_submitter <$> m).
Proof. intros t. rewrite lookup_fmap. destruct (m !! t); simpl; auto. Qed.

#[local] Hint Resolve woken_refl woken_notify_submitter woken_notify_worker
  woken_all_workers woken_all_submitters : mux.

(** A thread after the wake-up, traced back. *)
Lemma woken_back m m' t p' : woken m m' -> m' !! t = Some p' ->
  exists p, m !! t = Some p /\ (p' = p \/ p' = wake_worker p \/ p' = wake_submitter p).
Proof. intros Hw Ht. specialize (Hw t). rewrite Ht in Hw. destruct (m !! t); simpl in Hw; [eauto|done]. Qed.

Lemma woken_test f m m' t p' : stable f -> woken m m' -> m' !! t = Some p' -> f p' = true ->
  exists p, m !! t = Some p /\ f p = true.
Proof.
  intros Hf Hw Ht E. destruct (woken_back _ _ _ _ Hw Ht) as (p & Hp & Hor). exists p. split; [done|].
  destruct (Hf p) as [E1 E2]. destruct Hor as [->|[->| ->]]; congruence.
Qed.

Lemma woken_count f m m' : stable f -> woken m m' -> count f m' = count f m.
Proof.
  intros Hf Hw. pose proof (count_fmap (fun b => b) f m) as E1. pose proof (count_fmap (fun b => b) f m') as E2.
  cbv beta in E1, E2. etrans; [symmetry; exact E2|]. etrans; [|exact E1]. clear E1 E2.
  f_equal. apply map_eq. intros t. rewrite !lookup_fmap. specialize (Hw t).
  destruct (m !! t) as [p|], (m' !! t) as [p'|]; simpl in *; try done. f_equal.
  destruct (Hf p) as [E1 E2]. destruct Hw as [->|[->| ->]]; congruence.
Qed.

(** ** Tests on program points *)

Definition holds (p : pc) : bool := match p with WParking | SHolding _ _ => true | _ => false end.
Definition parking (p : pc) : bool := match p with WParking => true | _ => false end.
Definition submitting (p : pc) : bool := match p with SHolding _ _ => true | _ => false end.
Definition running (p : pc) : bool := match p with WRunning _ => true | _ => false end.
Definition exited (p : pc) : bool := match p with WExited => true | _ => false end.
Definition closing (p : pc) : bool := match p with KDrain | KNotify | KJoin _ => true | _ => false end.

Lemma holds_stable : stable holds. Proof. by intros []. Qed.
Lemma running_stable : stable running. Proof. by intros []. Qed.
Lemma exited_stable : stable exited. Proof. by intros []. Qed.
Lemma closing_stable : stable closing. Proof. by intros []. Qed.
Lemma parking_stable : stable parking. Proof. by intros []. Qed.
Lemma submitting_stable : stable submitting. Proof. by intros []. Qed.

#[local] Hint Resolve holds_stable running_stable exited_stable closing_stable parking_stable submitting_stable : mux.

(** ** The shape of a step *)

Definition actor (l : label) : tid :=
  match l with
  | WorkerStep t _ | Park t | FinishTask t | Submit t _ _ | SubmitCheck t | SubmitCommit t _ _
  | Spurious t | Close t _ | Drain t | NotifyAll t | Join t | CancelPending t => t
  end.

(** A step moves its actor and wakes some others. *)
Lemma step_shape l c c' : step l c = Some c' ->
  exists m p p', threads c !! actor l = Some p /\ threads c' = <[actor l := p']> m /\ woken (threads c) m.
Proof.
  intros E. destruct l as [t w|t|t|t x md|t|t w e|t|t b|t|t|t|t]; cbn [step actor] in *;
    destruct (threads c !! t) as [p|] eqn:Ht; try done; destruct p; try done; simplify_eq/=;
    try (eexists _, _, _; split; [reflexivity|]; split; [reflexivity|]; by eauto with mux).
  - destruct (unlocked c); [|done]. unfold worker_step in E.
    destruct (queue c); [destruct (closed c)|destruct (notify_one _ _ _ _) eqn:En; [|done]];
      simplify_eq/=; eexists _, _, _; split_and!; eauto with mux.
  - destruct (unlocked c); [|done]. destruct (closed c); simplify_eq/=; eexists _, _, _; split_and!; eauto with mux.
  - unfold submit_commit in E. destruct (_ <? _)%nat; [destruct (notify_one _ _ _ _) eqn:En; [|done]|destruct m];
      simplify_eq/=; eexists _, _, _; split_and!; eauto with mux.
  - destruct (unlocked c); [|done]. simplify_eq/=. eexists _, _, _; split_and!; eauto with mux.
  - destruct (forallb _ _); simplify_eq/=. eexists _, _, _; split_and!; eauto with mux.
  - destruct (unlocked c); [|done]. simplify_eq/=. eexists _, _, _; split_and!; eauto with mux.
Qed.

(** ** Tasks *)

Record tasks_inv (c : config) : Prop := {
  ti_bound : (length (queue c) <= capacity c)%nat;
  ti_perm : accepted c ≡ₚ started c ++ cancelled c ++ queue c;
  ti_order : cancelled c = [] -> accepted c = started c ++ queue c;
}.

Lemma tasks_same c c' : queue c' = queue c -> capacity c' = capacity c -> accepted c' = accepted c ->
  started c' = started c -> cancelled c' = cancelled c -> tasks_inv c -> tasks_inv c'.
Proof. intros E1 E2 E3 E4 E5 [Hb Hp Ho]. split; by rewrite ?E1, ?E2, ?E3, ?E4, ?E5. Qed.

Lemma tasks_pop x q c c' : queue c = x :: q -> queue c' = q -> capacity c' = capacity c ->
  accepted c' = accepted c -> started c' = started c ++ [x] -> cancelled c' = cancelled c ->
  tasks_inv c -> tasks_inv c'.
Proof.
  intros E0 E1 E2 E3 E4 E5 [Hb Hp Ho]. rewrite E0 in *. split; rewrite ?E1, ?E2, ?E3, ?E4, ?E5.
  - simpl in Hb. lia.
  - rewrite Hp. solve_Permutation.
  - intros Hc. rewrite Ho by done. by rewrite <- app_assoc.
Qed.

Lemma tasks_push x c c' : (length (queue c) < capacity c)%nat -> queue c' = queue c ++ [x] ->
  capacity c' = capacity c -> accepted c' = accepted c ++ [x] -> started c' = started c ->
  cancelled c' = cancelled c -> tasks_inv c -> tasks_inv c'.
Proof.
  intros Hl E1 E2 E3 E4 E5 [Hb Hp Ho]. split; rewrite ?E1, ?E2, ?E3, ?E4, ?E5.
  - rewrite length_app. simpl. lia.
  - rewrite Hp. by rewrite <- !app_assoc.
  - intros Hc. rewrite Ho by done. by rewrite <- app_assoc.
Qed.

Lemma tasks_drain p b t c : tasks_inv c -> tasks_inv (drain p b t c).
Proof.
  intros [Hb Hp Ho]. split; simpl.
  - lia.
  - rewrite Hp, app_nil_r. done.
  - intros [Hc Hq]%app_eq_nil. rewrite Ho, Hq by done. done.
Qed.

Lemma tasks_step l c c' : tasks_inv c -> step l c = Some c' -> tasks_inv c'.
Proof.
  intros Hi E. destruct l as [t w|t|t|t x md|t|t w e|t|t b|t|t|t|t]; cbn [step] in E;
    destruct (threads c !! t) as [p|] eqn:Ht; try done; destruct p; try done; simplify_eq/=;
    try (by apply (tasks_same c)).
  - destruct (unlocked c); [|done]. unfold worker_step in E. destruct (queue c) eqn:Eq.
    + destruct (closed c); simplify_eq/=; by apply (tasks_same c).
    + destruct (notify_one _ _ _ _); simplify_eq/=. by eapply tasks_pop.
  - destruct (unlocked c); [|done]. destruct (closed c); simplify_eq/=; by apply (tasks_same c).
  - unfold submit_commit in E. destruct (length (queue c) <? capacity c)%nat eqn:El.
    + destruct (notify_one _ _ _ _); simplify_eq/=. apply Nat.ltb_lt in El. by eapply tasks_push.
    + destruct m; simplify_eq/=; by apply (tasks_same c).
  - destruct (unlocked c); simplify_eq/=. by apply tasks_drain.
  - destruct (forallb _ _); simplify_eq/=. by apply (tasks_same c).
  - destruct (unlocked c); simplify_eq/=. by apply tasks_drain.
Qed.

(** ** The mutex, running workers and the phases of closing *)

Record threads_inv (c : config) : Prop := {
  hi_lock t p : threads c !! t = Some p -> holds p = true -> lock c = Some t;
  hi_holder t : lock c = Some t -> exists p, threads c !! t = Some p /\ holds p = true;
  hi_running : Z.of_nat (length (started c)) =
               Z.of_nat (length (finished c)) + count running (threads c);
  hi_closing t p : threads c !! t = Some p -> closing p = true -> closed c = true;
  hi_drained : drained c = true -> closed c = true /\ count parking (threads c) = 0;
  hi_announced : announced c = true -> drained c = true /\ count worker_asleep (threads c) = 0;
  hi_exited : 0 < count exited (threads c) ->
    closed c = true /\ queue c = [] /\ count submitting (threads c) = 0;
}.

(** With the mutex free, nobody is in the middle of a critical section. *)
Lemma unlocked_none c f : threads_inv c -> unlocked c = true -> (forall p, f p = true -> holds p = true) ->
  count f (threads c) = 0.
Proof.
  intros Hi Hu Hf. unfold unlocked in Hu. apply count_zero. intros t p Ht.
  destruct (f p) eqn:E; [|done]. pose proof (hi_lock _ Hi t p Ht (Hf p E)) as Hl. by rewrite Hl in Hu.
Qed.

(** Mutex ownership after a step of [t] that also wakes others. *)
Lemma lock_step c m t p p' o :
  threads_inv c -> woken (threads c) m -> threads c !! t = Some p ->
  (holds p = true \/ lock c = None \/ (o = lock c /\ holds p' = false /\ holds p = false)) ->
  (holds p' = true -> o = Some t) -> (holds p = true \/ lock c = None -> o = Some t -> holds p' = true) ->
  (holds p = true \/ lock c = None -> o = None \/ o = Some t) ->
  (forall t' q, <[t := p']> m !! t' = Some q -> holds q = true -> o = Some t') /\
  (forall t', o = Some t' -> exists q, <[t := p']> m !! t' = Some q /\ holds q = true).
Proof.
  intros Hi Hw Ht Hcase Hp' Ho Hor. split.
  - intros t' q. destruct (decide (t' = t)) as [->|Hne].
    + rewrite lookup_insert_eq. intros [= <-] Hq. auto.
    + rewrite lookup_insert_ne by done. intros Hq Hh.
      destruct (woken_test _ _ _ _ _ holds_stable Hw Hq Hh) as (q0 & Hq0 & Hh0).
      pose proof (hi_lock _ Hi _ _ Hq0 Hh0) as Hl. destruct Hcase as [H1|[H1|(H1 & _)]].
      * pose proof (hi_lock _ Hi _ _ Ht H1). congruence.
      * congruence.
      * by rewrite H1.
  - intros t' Ho'. destruct (decide (t' = t)) as [->|Hne].
    + exists p'. split; [apply lookup_insert_eq|]. destruct Hcase as [H1|[H1|(H1 & H2 & H3)]]; auto.
      rewrite H1 in Ho'. destruct (hi_holder _ Hi _ Ho') as (q & Hq & Hh). congruence.
    + rewrite lookup_insert_ne by done. destruct Hcase as [H1|[H1|(H1 & H2 & H3)]].
      * destruct (Hor (or_introl H1)); congruence.
      * destruct (Hor (or_intror H1)); congruence.
      * rewrite H1 in Ho'. destruct (hi_holder _ Hi _ Ho') as (q & Hq & Hh).
        specialize (Hw t'). rewrite Hq in Hw. destruct (m !! t') as [q'|] eqn:Em; simpl in Hw; [|done].
        exists q'. split; [done|]. destruct (holds_stable q) as [E1 E2].
        destruct Hw as [->|[->| ->]]; congruence.
Qed.

Lemma woken_no_worker_asleep m m' : woken m m' -> count worker_asleep m = 0 -> count worker_asleep m' = 0.
Proof.
  rewrite !count_zero. intros Hw Hm t p' Ht. destruct (woken_back _ _ _ _ Hw Ht) as (p & Hp & Hor).
  specialize (Hm _ _ Hp). destruct Hor as [->|[->| ->]]; [done|by destruct p|by destruct p].
Qed.

(** The invariant after [t] moves from [p] to [p'] and others are woken. *)
Lemma threads_move c c' m t p p' :
  threads_inv c -> threads c !! t = Some p -> threads c' = <[t := p']> m -> woken (threads c) m ->
  (holds p = true \/ lock c = None \/ (lock c' = lock c /\ holds p' = false /\ holds p = false)) ->
  (holds p = true \/ lock c = None -> lock c' = if holds p' then Some t else None) ->
  Z.of_nat (length (started c')) - Z.of_nat (length (finished c')) =
    Z.of_nat (length (started c)) - Z.of_nat (length (finished c)) - Z.b2z (running p) + Z.b2z (running p') ->
  (closed c = true -> closed c' = true) -> (closing p' = true -> closed c' = true) ->
  (drained c' = true -> closed c' = true /\ (drained c = true \/ count parking (threads c) = 0) /\
     parking p' = false) ->
  (announced c' = true -> drained c' = true /\ worker_asleep p' = false /\
     (announced c = true \/ count worker_asleep m = 0)) ->
  (0 < count exited (threads c) -> queue c' = [] /\ submitting p' = false) ->
  (exited p' = true -> closed c' = true /\ queue c' = [] /\ lock c = None) ->
  threads_inv c'.
Proof.
  intros Hi Ht Em Hw Hlk Hlk' Hrun Hcl Hcl' Hdr Han Hex Hex'.
  destruct (lock_step c m t p p' (lock c')) as [HA HB]; try done.
  { intros E. destruct Hlk as [H1|[H1|(_ & H1 & _)]]; [| |congruence]; rewrite Hlk', E by auto; done. }
  { intros H1 E. rewrite Hlk' in E by done. by destruct (holds p'). }
  { intros H1. rewrite Hlk' by done. destruct (holds p'); auto. }
  assert (exists q, m !! t = Some q /\ running q = running p) as (q & Hq & Erq).
  { specialize (Hw t). rewrite Ht in Hw. destruct (m !! t) as [q|]; simpl in Hw; [|done].
    exists q. split; [done|]. destruct (running_stable p). destruct Hw as [->|[->| ->]]; congruence. }
  split; rewrite ?Em; try done.
  - rewrite (count_insert _ _ _ _ _ Hq), Erq, (woken_count _ _ _ running_stable Hw).
    pose proof (hi_running _ Hi). lia.
  - intros t' x. destruct (decide (t' = t)) as [->|Hne].
    + rewrite lookup_insert_eq. intros [= <-]. auto.
    + rewrite lookup_insert_ne by done. intros Hx Hc.
      destruct (woken_test _ _ _ _ _ closing_stable Hw Hx Hc) as (y & Hy & Hcy).
      apply Hcl. by eapply (hi_closing _ Hi).
  - intros Hd. destruct (Hdr Hd) as (H1 & H2 & H3). split; [done|]. apply count_zero_insert; [|done].
    rewrite (woken_count _ _ _ parking_stable Hw). destruct H2 as [H2|]; [|done].
    by destruct (hi_drained _ Hi H2).
  - intros Ha. destruct (Han Ha) as (H1 & H2 & H3). split; [done|]. apply count_zero_insert; [|done].
    destruct H3 as [H3|]; [|done]. eapply woken_no_worker_asleep; [exact Hw|]. by destruct (hi_announced _ Hi H3).
  - intros [E|E]%count_pos_insert.
    + destruct (Hex' E) as (H1 & H2 & H3). split_and!; [done|done|]. apply count_zero_insert; [|by destruct p'].
      rewrite (woken_count _ _ _ submitting_stable Hw). apply unlocked_none; [done| |by intros []].
      unfold unlocked. by rewrite H3.
    + rewrite (woken_count _ _ _ exited_stable Hw) in E. destruct (hi_exited _ Hi E) as (H1 & _ & H2).
      destruct (Hex E). split_and!; [auto|done|]. apply count_zero_insert; [|done].
      by rewrite (woken_count _ _ _ submitting_stable Hw).
Qed.

Lemma unlocked_lock c : unlocked c = true -> lock c = None.
Proof. unfold unlocked. by destruct (lock c). Qed.

(** Discharge the side conditions of [threads_move] that a step does not touch. *)
Ltac move_tac Hi :=
  simpl; rewrite ?length_app; simpl;
  first
  [ done | lia | by auto | by (intros [?|?]; congruence)
  | by (intros ?; destruct (hi_drained _ Hi ltac:(eassumption)); auto)
  | by (intros ?; destruct (hi_announced _ Hi ltac:(eassumption)); auto)
  | by (intros ?; destruct (hi_exited _ Hi ltac:(eassumption)) as (? & ? & ?); split; congruence)
  | by (intros ?; destruct (hi_exited _ Hi ltac:(eassumption)) as (? & ? & ?); congruence)
  | idtac ].

Ltac by_move Hi Ht :=
  eapply (threads_move _ _ _ _ _ _ Hi Ht); [reflexivity|..]; [by eauto with mux|..]; move_tac Hi.

Lemma worker_step_inv t w c c' : threads_inv c -> threads c !! t = Some WReady -> unlocked c = true ->
  worker_step t w c = Some c' -> threads_inv c'.
Proof.
  intros Hi Ht Hu%unlocked_lock E. unfold worker_step in E. destruct (queue c) as [|x q] eqn:Eq.
  - destruct (closed c) eqn:Ec; simplify_eq/=;
      by_move Hi Ht.
    intros Hd. destruct (hi_drained _ Hi Hd). congruence.
  - destruct (notify_one _ _ _ _) as [m|] eqn:En; simplify_eq/=.
    by_move Hi Ht.
Qed.

Lemma submit_commit_inv t x md w e c c' : threads_inv c -> threads c !! t = Some (SHolding x md) ->
  submit_commit t x md w e c = Some c' -> threads_inv c'.
Proof.
  intros Hi Ht E. unfold submit_commit in E. pose proof (hi_lock _ Hi _ _ Ht eq_refl) as Hl.
  assert (0 < count exited (threads c) -> False) as Hno.
  { intros He. destruct (hi_exited _ Hi He) as (_ & _ & Hz).
    by pose proof (proj1 (count_zero _ _) Hz _ _ Ht). }
  destruct (_ <? _)%nat.
  - destruct (notify_one _ _ _ _) as [m|] eqn:En; simplify_eq/=. by_move Hi Ht.
  - destruct md; [|by simplify_eq/=; by_move Hi Ht|destruct e; [by simplify_eq/=; by_move Hi Ht|]];
      simplify_eq/=; by_move Hi Ht.
Qed.

Lemma drain_inv p p' b t c : threads_inv c -> unlocked c = true -> threads c !! t = Some p ->
  (b = true -> closed c = true) -> (p' = CIdle \/ p' = KNotify /\ closed c = true) ->
  holds p = false -> running p = false -> threads_inv (drain p' b t c).
Proof.
  intros Hi Hu Ht Hb Hp' Hh Hr. pose proof (unlocked_lock _ Hu) as Hl.
  assert (holds p' = false /\ running p' = false /\ parking p' = false /\ worker_asleep p' = false /\
    exited p' = false /\ submitting p' = false) as (E1 & E2 & E3 & E4 & E5 & E6)
    by (destruct Hp' as [->|[-> _]]; done).
  by_move Hi Ht; rewrite ?E1, ?E2, ?E3, ?E4, ?E5, ?E6, ?Hr; simpl; try done; try lia.
  - intros Hc. destruct Hp' as [->|[_ ?]]; done.
  - intros [Hd|Hb']%orb_true_iff.
    + destruct (hi_drained _ Hi Hd). auto.
    + split_and!; [auto| |done]. right. apply unlocked_none; [done|done|by intros []].
  - intros Ha. destruct (hi_announced _ Hi Ha) as [-> ?]. auto.
Qed.

Lemma notify_all_inv t c : threads_inv c -> threads c !! t = Some KNotify ->
  threads_inv (mk_config (capacity c) (queue c) (closed c) (lock c)
                 (<[t := KJoin (handles c)]> (wake_worker <$> threads c)) []
                 (accepted c) (started c) (finished c) (cancelled c) (drained c) (announced c || drained c)).
Proof.
  intros Hi Ht. pose proof (hi_closing _ Hi _ _ Ht eq_refl) as Hc. by_move Hi Ht.
  intros Ha. assert (drained c = true) as Hd.
  { apply orb_true_iff in Ha as [Ha|]; [|done]. by destruct (hi_announced _ Hi Ha). }
  split_and!; [done|done|]. right. apply count_zero. intros t' p.
  rewrite lookup_fmap. destruct (threads c !! t') as [[]|]; simpl; intros; by simplify_eq.
Qed.

Lemma threads_step l c c' : threads_inv c -> step l c = Some c' -> threads_inv c'.
Proof.
  intros Hi E. destruct l as [t w|t|t|t x md|t|t w e|t|t b|t|t|t|t]; cbn [step] in E;
    destruct (threads c !! t) as [p|] eqn:Ht; try done; destruct p; try done; simplify_eq/=;
    try (by_move Hi Ht; fail).
  - destruct (unlocked c) eqn:Hu; [|done]. by eapply worker_step_inv.
  - pose proof (hi_lock _ Hi _ _ Ht eq_refl) as Hl. by_move Hi Ht.
    intros Ha. destruct (hi_announced _ Hi Ha) as [Hd _]. destruct (hi_drained _ Hi Hd) as [_ Hz].
    by pose proof (proj1 (count_zero _ _) Hz _ _ Ht).
  - destruct (unlocked c) eqn:Hu; [|done]. apply unlocked_lock in Hu.
    destruct (closed c) eqn:Ec; simplify_eq/=; by_move Hi Ht.
  - by eapply submit_commit_inv.
  - destruct b; by_move Hi Ht.
  - destruct (unlocked c) eqn:Hu; simplify_eq/=. pose proof (hi_closing _ Hi _ _ Ht eq_refl).
    eapply drain_inv; eauto.
  - by apply notify_all_inv.
  - destruct (forallb _ _); simplify_eq/=. by_move Hi Ht.
  - destruct (unlocked c) eqn:Hu; simplify_eq/=. eapply drain_inv; eauto. done.
Qed.

(** ** From the start *)

Lemma create_pool_inv ws q cl c : create_pool ws q cl = Ok c -> tasks_inv c /\ threads_inv c.
Proof.
  unfold create_pool. destruct (in_range _ _ ws); [|done]. destruct (in_range _ _ q); [|done].
  simpl. intros [= <-].
  assert (forall t p, threads (mk_config (Z.to_nat q) [] false None
    (list_to_map ((fun t => (t, WReady)) <$> seq 0 (Z.to_nat ws)) ∪ list_to_map ((fun t => (t, CIdle)) <$> cl))
    (seq 0 (Z.to_nat ws)) [] [] [] [] false false) !! t = Some p -> p = WReady \/ p = CIdle) as Hp.
  { simpl. intros t p [Hp|[_ Hp]]%lookup_union_Some_raw; apply elem_of_list_to_map_2 in Hp;
      apply list_elem_of_fmap in Hp as (? & [= _ ->] & _); auto. }
  split; split; simpl; try done; try lia.
  - intros t p [-> | ->]%Hp; done.
  - symmetry. apply count_zero. intros t p [-> | ->]%Hp; done.
  - intros t p [-> | ->]%Hp; done.
  - intros (t & p & [-> | ->]%Hp & E)%count_pos; done.
Qed.

Lemma reachable_invs ws q cl c0 c : create_pool ws q cl = Ok c0 -> reachable step c0 c ->
  tasks_inv c /\ threads_inv c.
Proof.
  intros E0. apply (reachable_inv step (fun c => tasks_inv c /\ threads_inv c)); [by eapply create_pool_inv|].
  intros l a b [Ht Hh] E. split; [by eapply tasks_step|by eapply threads_step].
Qed.

Lemma notify_one_total a wk m : exists w m', notify_one a wk w m = Some m'.
Proof.
  destruct (Z.eq_dec (count a m) 0) as [E|E].
  - exists None, m. unfold notify_one. by rewrite E.
  - assert (0 < count a m) as Hp by (pose proof (count_nonneg a m); lia).
    apply count_pos in Hp as (t & p & Ht & Ha). exists (Some t), (<[t := wk p]> m).
    unfold notify_one. by rewrite Ht, Ha.
Qed.

(** Whoever holds the mutex can go on. *)
Lemma holder_goes_on c t p : threads c !! t = Some p -> holds p = true ->
  exists l c', step l c = Some c' /\ (forall u, l <> Spurious u).
Proof.
  intros Ht Hh. destruct p as [| | | | | | |x md| | | |]; try done.
  - exists (Park t). cbn [step]. rewrite Ht. by eauto.
  - destruct (notify_one_total worker_asleep wake_worker (threads c)) as (w & m & Em).
    exists (SubmitCommit t w true). cbn [step]. rewrite Ht. unfold submit_commit. rewrite Em.
    destruct (_ <? _)%nat; [by eauto|]. destruct md; by eauto.
Qed.

(** ** The properties *)

(** C14: no task is lost, duplicated or reordered: under every interleaving of any
    number of workers, submitters and closers the queue stays within its capacity, the
    accepted tasks are exactly those started, cancelled or still queued, in submission
    order as long as nothing is cancelled, every started task is running or finished,
    and once a worker has exited nothing is queued and nothing will be accepted. *)
Theorem pool_tasks_accounted ws q cl c0 c :
  create_pool ws q cl = Ok c0 -> reachable step c0 c ->
  (length (queue c) <= capacity c)%nat /\
  accepted c ≡ₚ started c ++ cancelled c ++ queue c /\
  (cancelled c = [] -> accepted c = started c ++ queue c) /\
  Z.of_nat (length (started c)) = Z.of_nat (length (finished c)) + count running (threads c) /\
  (forall t, threads c !! t = Some WExited -> closed c = true /\ accepted c ≡ₚ started c ++ cancelled c).
Proof.
  intros E0 Hr. destruct (reachable_invs _ _ _ _ _ E0 Hr) as [[Hb Hp Ho] Hh].
  split_and!; [done..|by apply hi_running|]. intros t Ht.
  destruct (hi_exited _ Hh) as (Hc & Hq & _); [apply count_pos; eauto|].
  split; [done|]. by rewrite Hp, Hq, app_nil_r.
Qed.

Definition pool1 (cap : Z) (cl : list tid) : config :=
  match create_pool 1 cap cl with Ok c => c | Err _ => mk_config 0 [] false None ∅ [] [] [] [] [] false false end.
Definition after (ls : list label) (c : config) : config :=
  match run step ls c with Some c' => c' | None => c end.

Definition demo_accounted_steps : list label :=
  [Submit 1 7%Z Blocking; SubmitCheck 1; SubmitCommit 1 None false; WorkerStep 0 None; FinishTask 0;
   Submit 1 8%Z Try; SubmitCheck 1; SubmitCommit 1 None false; Close 2 true; Drain 2; NotifyAll 2;
   WorkerStep 0 None; Join 2]%nat.

Lemma pool_tasks_accounted_witness :
  finished (after demo_accounted_steps (pool1 1 [1; 2]%nat)) = [7] /\
  accepted (after demo_accounted_steps (pool1 1 [1; 2]%nat)) ≡ₚ [7] ++ [8] ++ [].
Proof.
  split; [vm_compute; reflexivity|].
  destruct (pool_tasks_accounted 1 1 [1; 2]%nat (pool1 1 [1; 2]%nat)
    (after demo_accounted_steps (pool1 1 [1; 2]%nat))) as (_ & Hp & _); [reflexivity| |exact Hp].
  apply (run_reachable step demo_accounted_steps). vm_compute. reflexivity.
Defined.

(** A cancelling close always gets its workers to exit: once it has drained the
    queue and notified, no worker is asleep or about to fall asleep, and as long as one
    has not exited some thread can move without a spurious wake-up. *)
Lemma pool_cancelling_close_progress ws q cl c0 c t p :
  create_pool ws q cl = Ok c0 -> reachable step c0 c -> announced c = true ->
  threads c !! t = Some p ->
  p <> WAsleep /\ p <> WParking /\
  (p = WReady \/ running p = true -> exists l c', step l c = Some c' /\ forall u, l <> Spurious u).
Proof.
  intros E0 Hr Ha Ht. destruct (reachable_invs _ _ _ _ _ E0 Hr) as [_ Hh].
  destruct (hi_announced _ Hh Ha) as [Hd Hz]. destruct (hi_drained _ Hh Hd) as [Hc Hpk].
  pose proof (proj1 (count_zero _ _) Hz _ _ Ht). pose proof (proj1 (count_zero _ _) Hpk _ _ Ht).
  split; [by intros ->|]. split; [by intros ->|]. intros [-> | Hrun].
  - destruct (lock c) as [h|] eqn:El.
    + destruct (hi_holder _ Hh _ El) as (ph & Hph & Hhold). by eapply holder_goes_on.
    + destruct (notify_one_total submitter_asleep wake_submitter (threads c)) as (w & m & Em).
      exists (WorkerStep t w). cbn [step]. rewrite Ht. unfold unlocked, worker_step. rewrite El, Em, Hc.
      destruct (queue c); by eauto.
  - destruct p; try done. exists (FinishTask t). cbn [step]. rewrite Ht. by eauto.
Qed.

(** The worker is about to sleep when a cancelling close begins. *)
Definition demo_cancelling_steps : list label :=
  [WorkerStep 0 None; Close 1 true; Park 0; Drain 1; NotifyAll 1]%nat.

(** The plain close: its store and its notification fall between the worker's read of
    [closed] and its wait. *)
Definition lost_wakeup_steps : list label :=
  [WorkerStep 0 None; Close 1 false; NotifyAll 1; Park 0]%nat.

(** The plain close can lose its wake-up and hang: [mux_pool_close] stores the flag
    and notifies without the mutex, so a worker that read the flag before the store and
    sleeps after the notification is never woken, while the closing thread joins it:
    from a pool with one idle worker and one closing thread, a configuration is
    reachable in which no thread can move but for a spurious wake-up. *)
Lemma pool_close_lost_wakeup :
  exists c0 c, create_pool 1 1 [1%nat] = Ok c0 /\ run step lost_wakeup_steps c0 = Some c /\
    mux_pool_close 1%nat = filter (fun l => actor l = 1%nat) lost_wakeup_steps ++ [Join 1%nat] /\
    closed c = true /\ threads c !! 0%nat = Some WAsleep /\ threads c !! 1%nat = Some (KJoin [0%nat]) /\
    stuck step (fun l => exists u, l = Spurious u) c.
Proof.
  exists (pool1 1 [1%nat]), (after lost_wakeup_steps (pool1 1 [1%nat])).
  assert (threads (after lost_wakeup_steps (pool1 1 [1%nat])) =
    <[0%nat := WAsleep]> (<[1%nat := KJoin [0%nat]]> ∅)) as Em by (vm_compute; reflexivity).
  split_and!; try (vm_compute; reflexivity).
  assert (forall u pu, threads (after lost_wakeup_steps (pool1 1 [1%nat])) !! u = Some pu ->
    pu = WAsleep \/ pu = KJoin [0%nat]) as Hall.
  { rewrite Em. intros u pu [[_ <-]|[_ [[_ <-]|[_ Hn]]%lookup_insert_Some]]%lookup_insert_Some; auto.
    by rewrite lookup_empty in Hn. }
  intros l c' E. destruct l; cbn [step] in E;
    destruct (threads (after lost_wakeup_steps (pool1 1 [1%nat])) !! t) as [pu|] eqn:Hu; try done;
    apply Hall in Hu as [-> | ->]; first [done|by eauto].
Qed.

(** Two submitters wait for space when the pool is closed; the one queued task makes
    room once. *)
Definition stranding_steps : list label :=
  [Submit 1 7%Z Blocking; SubmitCheck 1; SubmitCommit 1 None false; WorkerStep 0 None;
   Submit 1 8%Z Blocking; SubmitCheck 1; SubmitCommit 1 None false;
   Submit 2 9%Z Blocking; SubmitCheck 2; SubmitCommit 2 None false;
   Submit 3 10%Z Blocking; SubmitCheck 3; SubmitCommit 3 None false;
   Close 4 false; NotifyAll 4; FinishTask 0; WorkerStep 0 (Some 2); SubmitCheck 2;
   FinishTask 0; WorkerStep 0 None; Join 4]%nat.

(** Steps other than closing again, cancelling, or a spurious wake-up. *)
Definition quiet_step (l : label) (c : config) : option config :=
  match l with
  | Spurious _ | Close _ _ | Drain _ | NotifyAll _ | CancelPending _ => None
  | _ => step l c
  end.

(** The plain close can leave submitters asleep for ever: it never notifies [space],
    and each queued task makes the workers notify it once, so with more blocked
    submitters than queued tasks the rest stay asleep after the close has returned and
    the workers have exited, whatever the program then does short of closing or
    cancelling again. *)
Lemma pool_close_strands_submitter :
  exists c0 c, create_pool 1 1 [1; 2; 3; 4]%nat = Ok c0 /\ run step stranding_steps c0 = Some c /\
    closed c = true /\ threads c !! 0%nat = Some WExited /\ threads c !! 4%nat = Some CIdle /\
    forall c', reachable quiet_step c c' -> threads c' !! 3%nat = Some (SAsleep 10 Blocking).
Proof.
  exists (pool1 1 [1; 2; 3; 4]%nat), (after stranding_steps (pool1 1 [1; 2; 3; 4]%nat)).
  split_and!; try (vm_compute; reflexivity).
  intros c' Hr.
  apply (reachable_inv quiet_step (fun c => closed c = true /\ threads c !! 3%nat = Some (SAsleep 10 Blocking) /\
    forall u pu, threads c !! u = Some pu ->
      pu = WExited \/ pu = CIdle \/ (exists x m, pu = SReady x m) \/ pu = SAsleep 10 Blocking)) in Hr;
    [by destruct Hr as (_ & ? & _)|..].
  - split_and!; try (vm_compute; reflexivity).
    assert (threads (after stranding_steps (pool1 1 [1; 2; 3; 4]%nat)) =
      <[0 := WExited]> (<[1 := CIdle]> (<[2 := CIdle]> (<[3 := SAsleep 10%Z Blocking]> (<[4 := CIdle]> ∅)))))%nat
      as -> by (vm_compute; reflexivity).
    intros u pu Hu. repeat (apply lookup_insert_Some in Hu as [[_ <-]|[_ Hu]]; [by eauto|]).
    by rewrite lookup_empty in Hu.
  - intros l a b (Hc & H3 & Hall) E. destruct l as [t w|t|t|t x md|t|t w e|t|t k|t|t|t|t]; cbn [quiet_step step] in E;
      try done; destruct (threads a !! t) as [pu|] eqn:Hu; try done;
      destruct (Hall _ _ Hu) as [->|[->|[(y & m & ->)| ->]]]; try done;
      [|destruct (unlocked a); [|done]; rewrite Hc in E]; simplify_eq/=;
      (split; [done|]); (assert (t <> 3%nat) by (intros ->; discriminate (eq_trans (eq_sym Hu) H3)));
      (split; [by rewrite lookup_insert_ne|]);
      intros u pu [[_ <-]|[_ Hu']]%lookup_insert_Some; eauto 6.
Qed.
