(* ===== verification/StdErrors.v ===== *)
(** * Categories of errors, then the typed errors of the packages ([src/src/std.rs])

    The category of a failure is chosen by the operation that fails, from one list
    shared by the runtime ([StdErrorKind]); each package narrows it to the categories
    it documents.  A category crosses to compiled code as the four octets of its
    discriminant. *)

From S2P Require Import Prelude AssocList Object Value Heap Display.

Inductive StdErrorKind : Type :=
| Invalid | Parse | Io | Os | Timeout | Unsupported | NotFound | Permission | Resolve | Overflow | Range | Protocol | Certificate | Handshake | Capture | Authentication | State | Logger | Status | Transport | Callback | Config | NotUnicode | Spawn | Closed | Domain | Match.

#[export] Instance StdErrorKind_eq_dec : EqDecision StdErrorKind.
Proof. solve_decision. Defined.

(** What a package makes of the categories: its own, their names and numbers. *)
Class ErrorKind (K : Type) : Type := {
  from_std_kind : StdErrorKind -> K;
  as_str : K -> string;
  discriminant : K -> Z;
  all_kinds : list K;
}.

(** [(kind as i32).to_ne_bytes()], on a little-endian machine. *)
Definition ne_bytes (n : Z) : list Z :=
  map (fun i => Z.shiftr (n mod 2 ^ 32) (8 * i) mod 256) [0; 1; 2; 3].

Definition kind_value {K} `{ErrorKind K} (k : K) : value := VOpaque (ne_bytes (discriminant k)).


(** ** Json *)

Inductive JsonErrorKind : Type := json_Invalid | json_Parse | json_Type | json_Missing | json_Duplicate | json_Limit | json_Io.

Definition json_from_std_kind (kind : StdErrorKind) : JsonErrorKind :=
  match kind with | Invalid => json_Invalid | Range | Overflow => json_Limit | Io | Os => json_Io | NotUnicode => json_Parse | _ => json_Parse end.
Definition json_as_str (k : JsonErrorKind) : string :=
  match k with | json_Invalid => "invalid" | json_Parse => "parse" | json_Type => "type" | json_Missing => "missing" | json_Duplicate => "duplicate" | json_Limit => "limit" | json_Io => "io" end.
Definition json_discriminant (k : JsonErrorKind) : Z :=
  match k with | json_Invalid => 0 | json_Parse => 1 | json_Type => 2 | json_Missing => 3 | json_Duplicate => 4 | json_Limit => 5 | json_Io => 6 end.
#[export] Instance json_error_kind : ErrorKind JsonErrorKind :=
  {| from_std_kind := json_from_std_kind; as_str := json_as_str; discriminant := json_discriminant;
     all_kinds := [json_Invalid; json_Parse; json_Type; json_Missing; json_Duplicate; json_Limit; json_Io] |}.

(** ** Csv *)

Inductive CsvErrorKind : Type := csv_Invalid | csv_Parse | csv_Type | csv_Limit | csv_Io.

Definition csv_from_std_kind (kind : StdErrorKind) : CsvErrorKind :=
  match kind with | Invalid => csv_Invalid | Range | Overflow => csv_Limit | Io | Os => csv_Io | NotUnicode => csv_Parse | _ => csv_Parse end.
Definition csv_as_str (k : CsvErrorKind) : string :=
  match k with | csv_Invalid => "invalid" | csv_Parse => "parse" | csv_Type => "type" | csv_Limit => "limit" | csv_Io => "io" end.
Definition csv_discriminant (k : CsvErrorKind) : Z :=
  match k with | csv_Invalid => 0 | csv_Parse => 1 | csv_Type => 2 | csv_Limit => 3 | csv_Io => 4 end.
#[export] Instance csv_error_kind : ErrorKind CsvErrorKind :=
  {| from_std_kind := csv_from_std_kind; as_str := csv_as_str; discriminant := csv_discriminant;
     all_kinds := [csv_Invalid; csv_Parse; csv_Type; csv_Limit; csv_Io] |}.

(** ** Byte *)

Inductive ByteErrorKind : Type := byte_Invalid | byte_Parse | byte_Range | byte_Overflow | byte_DivideByZero | byte_Shift | byte_Io.

Definition byte_from_std_kind (kind : StdErrorKind) : ByteErrorKind :=
  match kind with | Invalid => byte_Invalid | Range | Overflow => byte_Range | Io | Os => byte_Io | NotUnicode => byte_Parse | _ => byte_Parse end.
Definition byte_as_str (k : ByteErrorKind) : string :=
  match k with | byte_Invalid => "invalid" | byte_Parse => "parse" | byte_Range => "range" | byte_Overflow => "overflow" | byte_DivideByZero => "divide_by_zero" | byte_Shift => "shift" | byte_Io => "io" end.
Definition byte_discriminant (k : ByteErrorKind) : Z :=
  match k with | byte_Invalid => 0 | byte_Parse => 1 | byte_Range => 2 | byte_Overflow => 3 | byte_DivideByZero => 4 | byte_Shift => 5 | byte_Io => 6 end.
#[export] Instance byte_error_kind : ErrorKind ByteErrorKind :=
  {| from_std_kind := byte_from_std_kind; as_str := byte_as_str; discriminant := byte_discriminant;
     all_kinds := [byte_Invalid; byte_Parse; byte_Range; byte_Overflow; byte_DivideByZero; byte_Shift; byte_Io] |}.

(** ** Bytes *)

Inductive BytesErrorKind : Type := bytes_Invalid | bytes_Parse | bytes_Range | bytes_Overflow | bytes_Bounds | bytes_Utf8 | bytes_Io.

Definition bytes_from_std_kind (kind : StdErrorKind) : BytesErrorKind :=
  match kind with | Invalid => bytes_Invalid | Range | Overflow => bytes_Range | Io | Os => bytes_Io | NotUnicode => bytes_Utf8 | _ => bytes_Parse end.
Definition bytes_as_str (k : BytesErrorKind) : string :=
  match k with | bytes_Invalid => "invalid" | bytes_Parse => "parse" | bytes_Range => "range" | bytes_Overflow => "overflow" | bytes_Bounds => "bounds" | bytes_Utf8 => "utf8" | bytes_Io => "io" end.
Definition bytes_discriminant (k : BytesErrorKind) : Z :=
  match k with | bytes_Invalid => 0 | bytes_Parse => 1 | bytes_Range => 2 | bytes_Overflow => 3 | bytes_Bounds => 4 | bytes_Utf8 => 5 | bytes_Io => 6 end.
#[export] Instance bytes_error_kind : ErrorKind BytesErrorKind :=
  {| from_std_kind := bytes_from_std_kind; as_str := bytes_as_str; discriminant := bytes_discriminant;
     all_kinds := [bytes_Invalid; bytes_Parse; bytes_Range; bytes_Overflow; bytes_Bounds; bytes_Utf8; bytes_Io] |}.

(** ** Env *)

Inductive EnvErrorKind : Type := env_Invalid | env_NotUnicode | env_Os.

Definition env_from_std_kind (kind : StdErrorKind) : EnvErrorKind :=
  match kind with | Invalid => env_Invalid | NotUnicode => env_NotUnicode | _ => env_Os end.
Definition env_as_str (k : EnvErrorKind) : string :=
  match k with | env_Invalid => "invalid" | env_NotUnicode => "not_unicode" | env_Os => "os" end.
Definition env_discriminant (k : EnvErrorKind) : Z :=
  match k with | env_Invalid => 0 | env_NotUnicode => 1 | env_Os => 2 end.
#[export] Instance env_error_kind : ErrorKind EnvErrorKind :=
  {| from_std_kind := env_from_std_kind; as_str := env_as_str; discriminant := env_discriminant;
     all_kinds := [env_Invalid; env_NotUnicode; env_Os] |}.

(** ** Fs *)

Inductive FsErrorKind : Type := fs_Invalid | fs_Io | fs_NotFound | fs_Permission | fs_NotUnicode | fs_Os.

Definition fs_from_std_kind (kind : StdErrorKind) : FsErrorKind :=
  match kind with | Invalid => fs_Invalid | NotFound => fs_NotFound | Permission => fs_Permission | NotUnicode => fs_NotUnicode | Io => fs_Io | _ => fs_Os end.
Definition fs_as_str (k : FsErrorKind) : string :=
  match k with | fs_Invalid => "invalid" | fs_Io => "io" | fs_NotFound => "not_found" | fs_Permission => "permission" | fs_NotUnicode => "not_unicode" | fs_Os => "os" end.
Definition fs_discriminant (k : FsErrorKind) : Z :=
  match k with | fs_Invalid => 0 | fs_Io => 1 | fs_NotFound => 2 | fs_Permission => 3 | fs_NotUnicode => 4 | fs_Os => 5 end.
#[export] Instance fs_error_kind : ErrorKind FsErrorKind :=
  {| from_std_kind := fs_from_std_kind; as_str := fs_as_str; discriminant := fs_discriminant;
     all_kinds := [fs_Invalid; fs_Io; fs_NotFound; fs_Permission; fs_NotUnicode; fs_Os] |}.

(** ** Io *)

Inductive IoErrorKind : Type := io_Invalid | io_Io | io_NotFound | io_Permission | io_NotUnicode | io_Closed | io_Os.

Definition io_from_std_kind (kind : StdErrorKind) : IoErrorKind :=
  match kind with | Invalid => io_Invalid | NotFound => io_NotFound | Permission => io_Permission | NotUnicode => io_NotUnicode | Closed => io_Closed | Io => io_Io | _ => io_Os end.
Definition io_as_str (k : IoErrorKind) : string :=
  match k with | io_Invalid => "invalid" | io_Io => "io" | io_NotFound => "not_found" | io_Permission => "permission" | io_NotUnicode => "not_unicode" | io_Closed => "closed" | io_Os => "os" end.
Definition io_discriminant (k : IoErrorKind) : Z :=
  match k with | io_Invalid => 0 | io_Io => 1 | io_NotFound => 2 | io_Permission => 3 | io_NotUnicode => 4 | io_Closed => 5 | io_Os => 6 end.
#[export] Instance io_error_kind : ErrorKind IoErrorKind :=
  {| from_std_kind := io_from_std_kind; as_str := io_as_str; discriminant := io_discriminant;
     all_kinds := [io_Invalid; io_Io; io_NotFound; io_Permission; io_NotUnicode; io_Closed; io_Os] |}.

(** ** Net *)

Inductive NetErrorKind : Type := net_Invalid | net_Timeout | net_Resolve | net_Unsupported | net_Io.

Definition net_from_std_kind (kind : StdErrorKind) : NetErrorKind :=
  match kind with | Invalid | Parse | Range | Overflow => net_Invalid | Timeout => net_Timeout | Resolve => net_Resolve | Unsupported => net_Unsupported | _ => net_Io end.
Definition net_as_str (k : NetErrorKind) : string :=
  match k with | net_Invalid => "invalid" | net_Timeout => "timeout" | net_Resolve => "resolve" | net_Unsupported => "unsupported" | net_Io => "io" end.
Definition net_discriminant (k : NetErrorKind) : Z :=
  match k with | net_Invalid => 0 | net_Timeout => 1 | net_Resolve => 2 | net_Unsupported => 3 | net_Io => 4 end.
#[export] Instance net_error_kind : ErrorKind NetErrorKind :=
  {| from_std_kind := net_from_std_kind; as_str := net_as_str; discriminant := net_discriminant;
     all_kinds := [net_Invalid; net_Timeout; net_Resolve; net_Unsupported; net_Io] |}.

(** ** Url *)

Inductive UrlErrorKind : Type := url_Invalid | url_Unsupported | url_Parse.

Definition url_from_std_kind (kind : StdErrorKind) : UrlErrorKind :=
  match kind with | Unsupported => url_Unsupported | Parse | NotUnicode => url_Parse | _ => url_Invalid end.
Definition url_as_str (k : UrlErrorKind) : string :=
  match k with | url_Invalid => "invalid" | url_Unsupported => "unsupported" | url_Parse => "parse" end.
Definition url_discriminant (k : UrlErrorKind) : Z :=
  match k with | url_Invalid => 0 | url_Unsupported => 1 | url_Parse => 2 end.
#[export] Instance url_error_kind : ErrorKind UrlErrorKind :=
  {| from_std_kind := url_from_std_kind; as_str := url_as_str; discriminant := url_discriminant;
     all_kinds := [url_Invalid; url_Unsupported; url_Parse] |}.

(** ** Uuid *)

Inductive UuidErrorKind : Type := uuid_Invalid | uuid_Parse | uuid_NotUnicode.

Definition uuid_from_std_kind (kind : StdErrorKind) : UuidErrorKind :=
  match kind with | NotUnicode => uuid_NotUnicode | Parse => uuid_Parse | _ => uuid_Invalid end.
Definition uuid_as_str (k : UuidErrorKind) : string :=
  match k with | uuid_Invalid => "invalid" | uuid_Parse => "parse" | uuid_NotUnicode => "not_unicode" end.
Definition uuid_discriminant (k : UuidErrorKind) : Z :=
  match k with | uuid_Invalid => 0 | uuid_Parse => 1 | uuid_NotUnicode => 2 end.
#[export] Instance uuid_error_kind : ErrorKind UuidErrorKind :=
  {| from_std_kind := uuid_from_std_kind; as_str := uuid_as_str; discriminant := uuid_discriminant;
     all_kinds := [uuid_Invalid; uuid_Parse; uuid_NotUnicode] |}.

(** ** Math *)

Inductive MathErrorKind : Type := math_Invalid | math_Range | math_Overflow | math_Domain.

Definition math_from_std_kind (kind : StdErrorKind) : MathErrorKind :=
  match kind with | Range => math_Range | Overflow => math_Overflow | Domain => math_Domain | _ => math_Invalid end.
Definition math_as_str (k : MathErrorKind) : string :=
  match k with | math_Invalid => "invalid" | math_Range => "range" | math_Overflow => "overflow" | math_Domain => "domain" end.
Definition math_discriminant (k : MathErrorKind) : Z :=
  match k with | math_Invalid => 0 | math_Range => 1 | math_Overflow => 2 | math_Domain => 3 end.
#[export] Instance math_error_kind : ErrorKind MathErrorKind :=
  {| from_std_kind := math_from_std_kind; as_str := math_as_str; discriminant := math_discriminant;
     all_kinds := [math_Invalid; math_Range; math_Overflow; math_Domain] |}.

(** ** Process *)

Inductive ProcessErrorKind : Type := process_Invalid | process_Io | process_Spawn | process_Timeout | process_State | process_NotFound.

Definition process_from_std_kind (kind : StdErrorKind) : ProcessErrorKind :=
  match kind with | Invalid => process_Invalid | Spawn => process_Spawn | Timeout => process_Timeout | NotFound => process_NotFound | Io | Os => process_Io | _ => process_State end.
Definition process_as_str (k : ProcessErrorKind) : string :=
  match k with | process_Invalid => "invalid" | process_Io => "io" | process_Spawn => "spawn" | process_Timeout => "timeout" | process_State => "state" | process_NotFound => "not_found" end.
Definition process_discriminant (k : ProcessErrorKind) : Z :=
  match k with | process_Invalid => 0 | process_Io => 1 | process_Spawn => 2 | process_Timeout => 3 | process_State => 4 | process_NotFound => 5 end.
#[export] Instance process_error_kind : ErrorKind ProcessErrorKind :=
  {| from_std_kind := process_from_std_kind; as_str := process_as_str; discriminant := process_discriminant;
     all_kinds := [process_Invalid; process_Io; process_Spawn; process_Timeout; process_State; process_NotFound] |}.

(** ** Tls *)

Inductive TlsErrorKind : Type := tls_Invalid | tls_Io | tls_Timeout | tls_Handshake | tls_Certificate | tls_Unsupported | tls_Protocol.

Definition tls_from_std_kind (kind : StdErrorKind) : TlsErrorKind :=
  match kind with | Timeout => tls_Timeout | Handshake => tls_Handshake | Certificate => tls_Certificate | Unsupported => tls_Unsupported | Protocol => tls_Protocol | Io | Os => tls_Io | _ => tls_Invalid end.
Definition tls_as_str (k : TlsErrorKind) : string :=
  match k with | tls_Invalid => "invalid" | tls_Io => "io" | tls_Timeout => "timeout" | tls_Handshake => "handshake" | tls_Certificate => "certificate" | tls_Unsupported => "unsupported" | tls_Protocol => "protocol" end.
Definition tls_discriminant (k : TlsErrorKind) : Z :=
  match k with | tls_Invalid => 0 | tls_Io => 1 | tls_Timeout => 2 | tls_Handshake => 3 | tls_Certificate => 4 | tls_Unsupported => 5 | tls_Protocol => 6 end.
#[export] Instance tls_error_kind : ErrorKind TlsErrorKind :=
  {| from_std_kind := tls_from_std_kind; as_str := tls_as_str; discriminant := tls_discriminant;
     all_kinds := [tls_Invalid; tls_Io; tls_Timeout; tls_Handshake; tls_Certificate; tls_Unsupported; tls_Protocol] |}.

(** ** DateTime *)

Inductive DateTimeErrorKind : Type := datetime_Invalid | datetime_Parse | datetime_Range | datetime_Format | datetime_System.

Definition datetime_from_std_kind (kind : StdErrorKind) : DateTimeErrorKind :=
  match kind with | Invalid => datetime_Invalid | Range | Overflow => datetime_Range | Parse => datetime_Parse | Io | Os => datetime_System | _ => datetime_Format end.
Definition datetime_as_str (k : DateTimeErrorKind) : string :=
  match k with | datetime_Invalid => "invalid" | datetime_Parse => "parse" | datetime_Range => "range" | datetime_Format => "format" | datetime_System => "system" end.
Definition datetime_discriminant (k : DateTimeErrorKind) : Z :=
  match k with | datetime_Invalid => 0 | datetime_Parse => 1 | datetime_Range => 2 | datetime_Format => 3 | datetime_System => 4 end.
#[export] Instance datetime_error_kind : ErrorKind DateTimeErrorKind :=
  {| from_std_kind := datetime_from_std_kind; as_str := datetime_as_str; discriminant := datetime_discriminant;
     all_kinds := [datetime_Invalid; datetime_Parse; datetime_Range; datetime_Format; datetime_System] |}.

(** ** Cli *)

Inductive CliErrorKind : Type := cli_Invalid | cli_Parse | cli_Io.

Definition cli_from_std_kind (kind : StdErrorKind) : CliErrorKind :=
  match kind with | Io | Os => cli_Io | Invalid | Parse => cli_Parse | _ => cli_Invalid end.
Definition cli_as_str (k : CliErrorKind) : string :=
  match k with | cli_Invalid => "invalid" | cli_Parse => "parse" | cli_Io => "io" end.
Definition cli_discriminant (k : CliErrorKind) : Z :=
  match k with | cli_Invalid => 0 | cli_Parse => 1 | cli_Io => 2 end.
#[export] Instance cli_error_kind : ErrorKind CliErrorKind :=
  {| from_std_kind := cli_from_std_kind; as_str := cli_as_str; discriminant := cli_discriminant;
     all_kinds := [cli_Invalid; cli_Parse; cli_Io] |}.

(** ** Crypto *)

Inductive CryptoErrorKind : Type := crypto_Invalid | crypto_Unsupported | crypto_Authentication | crypto_Io.

Definition crypto_from_std_kind (kind : StdErrorKind) : CryptoErrorKind :=
  match kind with | Io | Os => crypto_Io | Unsupported => crypto_Unsupported | Authentication => crypto_Authentication | _ => crypto_Invalid end.
Definition crypto_as_str (k : CryptoErrorKind) : string :=
  match k with | crypto_Invalid => "invalid" | crypto_Unsupported => "unsupported" | crypto_Authentication => "authentication" | crypto_Io => "io" end.
Definition crypto_discriminant (k : CryptoErrorKind) : Z :=
  match k with | crypto_Invalid => 0 | crypto_Unsupported => 1 | crypto_Authentication => 2 | crypto_Io => 3 end.
#[export] Instance crypto_error_kind : ErrorKind CryptoErrorKind :=
  {| from_std_kind := crypto_from_std_kind; as_str := crypto_as_str; discriminant := crypto_discriminant;
     all_kinds := [crypto_Invalid; crypto_Unsupported; crypto_Authentication; crypto_Io] |}.

(** ** Regex *)

Inductive RegexErrorKind : Type := regex_Invalid | regex_Parse | regex_Match | regex_Capture.

Definition regex_from_std_kind (kind : StdErrorKind) : RegexErrorKind :=
  match kind with | Parse => regex_Parse | Match => regex_Match | Capture => regex_Capture | _ => regex_Invalid end.
Definition regex_as_str (k : RegexErrorKind) : string :=
  match k with | regex_Invalid => "invalid" | regex_Parse => "parse" | regex_Match => "match" | regex_Capture => "capture" end.
Definition regex_discriminant (k : RegexErrorKind) : Z :=
  match k with | regex_Invalid => 0 | regex_Parse => 1 | regex_Match => 2 | regex_Capture => 3 end.
#[export] Instance regex_error_kind : ErrorKind RegexErrorKind :=
  {| from_std_kind := regex_from_std_kind; as_str := regex_as_str; discriminant := regex_discriminant;
     all_kinds := [regex_Invalid; regex_Parse; regex_Match; regex_Capture] |}.

(** ** Random *)

Inductive RandomErrorKind : Type := random_Invalid | random_Range | random_Unsupported | random_Io.

Definition random_from_std_kind (kind : StdErrorKind) : RandomErrorKind :=
  match kind with | Range | Overflow => random_Range | Unsupported => random_Unsupported | Io | Os => random_Io | _ => random_Invalid end.
Definition random_as_str (k : RandomErrorKind) : string :=
  match k with | random_Invalid => "invalid" | random_Range => "range" | random_Unsupported => "unsupported" | random_Io => "io" end.
Definition random_discriminant (k : RandomErrorKind) : Z :=
  match k with | random_Invalid => 0 | random_Range => 1 | random_Unsupported => 2 | random_Io => 3 end.
#[export] Instance random_error_kind : ErrorKind RandomErrorKind :=
  {| from_std_kind := random_from_std_kind; as_str := random_as_str; discriminant := random_discriminant;
     all_kinds := [random_Invalid; random_Range; random_Unsupported; random_Io] |}.

(** ** Log *)

Inductive LogErrorKind : Type := log_Invalid | log_Io | log_Config | log_State.

Definition log_from_std_kind (kind : StdErrorKind) : LogErrorKind :=
  match kind with | Io | Os => log_Io | Config => log_Config | State => log_State | _ => log_Invalid end.
Definition log_as_str (k : LogErrorKind) : string :=
  match k with | log_Invalid => "invalid" | log_Io => "io" | log_Config => "config" | log_State => "state" end.
Definition log_discriminant (k : LogErrorKind) : Z :=
  match k with | log_Invalid => 0 | log_Io => 1 | log_Config => 2 | log_State => 3 end.
#[export] Instance log_error_kind : ErrorKind LogErrorKind :=
  {| from_std_kind := log_from_std_kind; as_str := log_as_str; discriminant := log_discriminant;
     all_kinds := [log_Invalid; log_Io; log_Config; log_State] |}.

(** ** Sync *)

Inductive SyncErrorKind : Type := sync_Invalid | sync_State | sync_Timeout | sync_Closed | sync_Callback | sync_Spawn | sync_Io.

Definition sync_from_std_kind (kind : StdErrorKind) : SyncErrorKind :=
  match kind with | Invalid => sync_Invalid | Timeout => sync_Timeout | Closed => sync_Closed | Callback => sync_Callback | Spawn => sync_Spawn | Io | Os => sync_Io | _ => sync_State end.
Definition sync_as_str (k : SyncErrorKind) : string :=
  match k with | sync_Invalid => "invalid" | sync_State => "state" | sync_Timeout => "timeout" | sync_Closed => "closed" | sync_Callback => "callback" | sync_Spawn => "spawn" | sync_Io => "io" end.
Definition sync_discriminant (k : SyncErrorKind) : Z :=
  match k with | sync_Invalid => 0 | sync_State => 1 | sync_Timeout => 2 | sync_Closed => 3 | sync_Callback => 4 | sync_Spawn => 5 | sync_Io => 6 end.
#[export] Instance sync_error_kind : ErrorKind SyncErrorKind :=
  {| from_std_kind := sync_from_std_kind; as_str := sync_as_str; discriminant := sync_discriminant;
     all_kinds := [sync_Invalid; sync_State; sync_Timeout; sync_Closed; sync_Callback; sync_Spawn; sync_Io] |}.

(** * Typed errors ([src/src/std.rs])

    Every package of the standard library reports failures as objects of a class of
    its own.  The object holds an [i64] handle into a table of entries (category,
    detail, and for some packages a key, path, operation, address or URL); the class
    is shared, so copies of the value are further references to the one object, and
    the destructor removes the entry with the last reference.

    The twenty packages repeat the same code.  The operations are written once over a
    [package] (its texts) and an [ErrorKind], and instantiated under the names of the
    source below.  [world] is what the operations of one package touch: its table, its
    counter, and the objects of its class. *)

(** [FsErrorEntry] and the like; [X] is the type of the extra field, [unit] without one. *)
Record entry (K X : Type) : Type := mk_entry { e_kind : K; e_detail : string; e_extra : X }.
Arguments mk_entry {K X}. Arguments e_kind {K X}. Arguments e_detail {K X}. Arguments e_extra {K X}.

(** The class name and the texts of a package. *)
Record package (K X : Type) : Type := mk_package {
  type_name : string;
  could_not_allocate : string;
  invalid_handle : string;
  invalid_detail : string;
}.
Arguments mk_package {K X}. Arguments type_name {K X}. Arguments could_not_allocate {K X}.
Arguments invalid_handle {K X}. Arguments invalid_detail {K X}.

(** The table with its counter; by address, the handle stored in each live object and
    the number of references to it. *)
Record world (K X : Type) : Type := mk_world {
  errors : gmap Z (entry K X);
  next_handle : Z;
  memory : gmap Z Z;
  strong : gmap Z Z;
}.
Arguments mk_world {K X}. Arguments errors {K X}. Arguments next_handle {K X}.
Arguments memory {K X}. Arguments strong {K X}.

Definition empty_world {K X} : world K X := mk_world ∅ 1 ∅ ∅.

(** What [alloc_object] answers: a null pointer, or an object handle. *)
Definition alloc_answer : Type := option ObjectRef.

Section Operations.
Context {K X : Type} `{ErrorKind K}.
Implicit Types w : world K X.

Definition set_errors (m : gmap Z (entry K X)) w : world K X := mk_world m (next_handle w) (memory w) (strong w).

(** The destructor, on the address of the object. *)
Definition drop_error (p : Z) w : world K X :=
  if p =? 0 then w
  else match memory w !! p with
       | Some handle => if handle =? 0 then w else set_errors (delete handle (errors w)) w
       | None => w
       end.

(** Dropping a reference to the object at [p]: the last one runs the destructor and
    frees the object. *)
Definition release_object (p : Z) w : world K X :=
  match strong w !! p with
  | Some n =>
      if n =? 1 then
        let w := drop_error p w in mk_world (errors w) (next_handle w) (delete p (memory w)) (delete p (strong w))
      else mk_world (errors w) (next_handle w) (memory w) (<[p := n - 1]> (strong w))
  | None => w
  end.

(** Cloning the value: one more reference. *)
Definition retain_object (p : Z) w : world K X :=
  match strong w !! p with
  | Some n => mk_world (errors w) (next_handle w) (memory w) (<[p := n + 1]> (strong w))
  | None => w
  end.

(** [*_error_value]: number the entry, store it, allocate the object and write the
    handle into it; the entry goes back out when there is no object.  The value that
    is answered is a clone of the block's, which is released. *)
Definition error_value (pk : package K X) (kind : K) (detail : string) (extra : X) (a : alloc_answer) w : value * world K X :=
  let handle := next_handle w in
  let w := mk_world (<[handle := mk_entry kind detail extra]> (errors w)) (as_i64 (handle + 1)) (memory w) (strong w) in
  match a with
  | None => (VString (could_not_allocate pk), set_errors (delete handle (errors w)) w)
  | Some o =>
      if obj_ptr o =? 0 then (VString (could_not_allocate pk), set_errors (delete handle (errors w)) w)
      else
        let w := mk_world (errors w) (next_handle w) (<[obj_ptr o := handle]> (memory w)) (<[obj_ptr o := 1]> (strong w)) in
        (VObject o, release_object (obj_ptr o) (retain_object (obj_ptr o) w))
  end.

(** [*_error_handle]: [None] outside for a read of freed memory. *)
Definition error_handle (expected : TypeId) (error : option value) w : option (option Z) :=
  match error with
  | None => Some None
  | Some _ =>
      if negb (get_object_type_id error =? expected) then Some None
      else if get_object_ptr error =? 0 then Some None
      else Some <$> memory w !! get_object_ptr error
  end.

Definition lookup_entry (expected : TypeId) (error : option value) w : option (option (entry K X)) :=
  (fun h => h ≫= fun h => errors w !! h) <$> error_handle expected error w.

(** [*_error_field_value]. *)
Definition error_field_value (pk : package K X) (expected : TypeId) (error : option value) (get : entry K X -> value) w : option value :=
  from_option get (VString (invalid_handle pk)) <$> lookup_entry expected error w.

(** [*_error_text]. *)
Definition error_text (pk : package K X) (expected : TypeId) (error : option value) (decorated : bool) w : option string :=
  (fun e => match e with
            | None => invalid_handle pk
            | Some e => if decorated then as_str (e_kind e) +:+ ": " +:+ e_detail e else e_detail e
            end) <$> lookup_entry expected error w.

(** [message.as_ref().map_or_else(.., ToString::to_string)]. *)
Definition message_detail `{FloatText} (pk : package K X) (message : option value) : string :=
  match message with None => invalid_detail pk | Some v => display v end.

(** [Value::Result(Err(Box::new(..)))], the payload of the block that is answered. *)
Definition err_result (r : value * world K X) : value * world K X := (VResult (Err r.1), r.2).

End Operations.

(** * The packages

    [*_type] is the type number the package registers its error class under. *)

Section Packages.
Context (json_type csv_type byte_type bytes_type env_type fs_type io_type net_type url_type uuid_type math_type process_type tls_type datetime_type cli_type crypto_type regex_type random_type log_type sync_type : TypeId).

(** ** Json *)

Definition json_errors : package JsonErrorKind unit :=
  mk_package "JsonError" "could not allocate JsonError" "invalid JsonError handle" "invalid JSON error detail".
Definition json_error_value (kind : StdErrorKind) (detail : string) : alloc_answer -> world JsonErrorKind unit -> value * world JsonErrorKind unit :=
  error_value json_errors (from_std_kind kind) detail tt.
Definition json_result_err (detail : string) (a : alloc_answer) (w : world JsonErrorKind unit) : value * world JsonErrorKind unit :=
  err_result (json_error_value Parse detail a w).
Definition mux_json_error_from_message `{FloatText} (message : option value) : alloc_answer -> world JsonErrorKind unit -> value * world JsonErrorKind unit :=
  json_error_value Parse (message_detail json_errors message).
Definition mux_json_error_kind (error : option value) : world JsonErrorKind unit -> option value := error_field_value json_errors json_type error (fun e => kind_value (e_kind e)).
Definition mux_json_error_detail (error : option value) : world JsonErrorKind unit -> option value := error_field_value json_errors json_type error (fun e => VString (e_detail e)).
Definition mux_json_error_message (error : option value) (w : world JsonErrorKind unit) : option value := VString <$> error_text json_errors json_type error false w.
Definition mux_json_error_to_string (error : option value) (w : world JsonErrorKind unit) : option value := VString <$> error_text json_errors json_type error true w.

(** ** Csv *)

Definition csv_errors : package CsvErrorKind unit :=
  mk_package "CsvError" "could not allocate CsvError" "invalid CsvError handle" "invalid CSV error detail".
Definition csv_error_value (kind : StdErrorKind) (detail : string) : alloc_answer -> world CsvErrorKind unit -> value * world CsvErrorKind unit :=
  error_value csv_errors (from_std_kind kind) detail tt.
Definition csv_result_err (detail : string) (a : alloc_answer) (w : world CsvErrorKind unit) : value * world CsvErrorKind unit :=
  err_result (csv_error_value Parse detail a w).
Definition mux_csv_error_from_message `{FloatText} (message : option value) : alloc_answer -> world CsvErrorKind unit -> value * world CsvErrorKind unit :=
  csv_error_value Parse (message_detail csv_errors message).
Definition mux_csv_error_kind (error : option value) : world CsvErrorKind unit -> option value := error_field_value csv_errors csv_type error (fun e => kind_value (e_kind e)).
Definition mux_csv_error_detail (error : option value) : world CsvErrorKind unit -> option value := error_field_value csv_errors csv_type error (fun e => VString (e_detail e)).
Definition mux_csv_error_message (error : option value) (w : world CsvErrorKind unit) : option value := VString <$> error_text csv_errors csv_type error false w.
Definition mux_csv_error_to_string (error : option value) (w : world CsvErrorKind unit) : option value := VString <$> error_text csv_errors csv_type error true w.

(** ** Byte *)

Definition byte_errors : package ByteErrorKind unit :=
  mk_package "ByteError" "could not allocate ByteError" "invalid ByteError handle" "invalid byte error detail".
Definition byte_error_value (kind : StdErrorKind) (detail : string) : alloc_answer -> world ByteErrorKind unit -> value * world ByteErrorKind unit :=
  error_value byte_errors (from_std_kind kind) detail tt.
Definition byte_result_err (detail : string) (a : alloc_answer) (w : world ByteErrorKind unit) : value * world ByteErrorKind unit :=
  err_result (byte_error_value Parse detail a w).
Definition mux_byte_error_from_message `{FloatText} (message : option value) : alloc_answer -> world ByteErrorKind unit -> value * world ByteErrorKind unit :=
  byte_error_value Parse (message_detail byte_errors message).
Definition mux_byte_error_kind (error : option value) : world ByteErrorKind unit -> option value := error_field_value byte_errors byte_type error (fun e => kind_value (e_kind e)).
Definition mux_byte_error_detail (error : option value) : world ByteErrorKind unit -> option value := error_field_value byte_errors byte_type error (fun e => VString (e_detail e)).
Definition mux_byte_error_message (error : option value) (w : world ByteErrorKind unit) : option value := VString <$> error_text byte_errors byte_type error false w.
Definition mux_byte_error_to_string (error : option value) (w : world ByteErrorKind unit) : option value := VString <$> error_text byte_errors byte_type error true w.

(** ** Bytes *)

Definition bytes_errors : package BytesErrorKind unit :=
  mk_package "BytesError" "could not allocate BytesError" "invalid BytesError handle" "invalid bytes error detail".
Definition bytes_error_value (kind : StdErrorKind) (detail : string) : alloc_answer -> world BytesErrorKind unit -> value * world BytesErrorKind unit :=
  error_value bytes_errors (from_std_kind kind) detail tt.
Definition bytes_result_err (detail : string) (a : alloc_answer) (w : world BytesErrorKind unit) : value * world BytesErrorKind unit :=
  err_result (bytes_error_value Parse detail a w).
Definition mux_bytes_error_from_message `{FloatText} (message : option value) : alloc_answer -> world BytesErrorKind unit -> value * world BytesErrorKind unit :=
  bytes_error_value Parse (message_detail bytes_errors message).
Definition mux_bytes_error_kind (error : option value) : world BytesErrorKind unit -> option value := error_field_value bytes_errors bytes_type error (fun e => kind_value (e_kind e)).
Definition mux_bytes_error_detail (error : option value) : world BytesErrorKind unit -> option value := error_field_value bytes_errors bytes_type error (fun e => VString (e_detail e)).
Definition mux_bytes_error_message (error : option value) (w : world BytesErrorKind unit) : option value := VString <$> error_text bytes_errors bytes_type error false w.
Definition mux_bytes_error_to_string (error : option value) (w : world BytesErrorKind unit) : option value := VString <$> error_text bytes_errors bytes_type error true w.

(** ** Env *)

Definition env_errors : package EnvErrorKind string :=
  mk_package "EnvError" "could not allocate environment error" "invalid EnvError handle" "invalid environment error detail".
Definition env_error_value (kind : EnvErrorKind) (message key : string) : alloc_answer -> world EnvErrorKind string -> value * world EnvErrorKind string :=
  error_value env_errors kind message key.
Definition drop_env_error : Z -> world EnvErrorKind string -> world EnvErrorKind string := drop_error.
Definition env_error_handle : option value -> world EnvErrorKind string -> option (option Z) := error_handle env_type.
Definition env_error_field_value : option value -> (entry EnvErrorKind string -> value) -> world EnvErrorKind string -> option value :=
  error_field_value env_errors env_type.
Definition env_error_text : option value -> bool -> world EnvErrorKind string -> option string := error_text env_errors env_type.
Definition env_result_err_kind_for_key (kind : StdErrorKind) (message key : string) (a : alloc_answer) (w : world EnvErrorKind string) : value * world EnvErrorKind string :=
  err_result (env_error_value (from_std_kind kind) message key a w).
Definition env_result_err_kind (kind : StdErrorKind) (message : string) : alloc_answer -> world EnvErrorKind string -> value * world EnvErrorKind string :=
  env_result_err_kind_for_key kind message "".
Definition mux_env_error_from_message `{FloatText} (message : option value) : alloc_answer -> world EnvErrorKind string -> value * world EnvErrorKind string :=
  env_error_value env_Os (message_detail env_errors message) "".
Definition mux_env_error_kind (error : option value) : world EnvErrorKind string -> option value := env_error_field_value error (fun e => kind_value (e_kind e)).
Definition mux_env_error_detail (error : option value) : world EnvErrorKind string -> option value := env_error_field_value error (fun e => VString (e_detail e)).
Definition mux_env_error_key (error : option value) : world EnvErrorKind string -> option value := env_error_field_value error (fun e => VString (e_extra e)).
Definition mux_env_error_message (error : option value) (w : world EnvErrorKind string) : option value := VString <$> env_error_text error false w.
Definition mux_env_error_to_string (error : option value) (w : world EnvErrorKind string) : option value := VString <$> env_error_text error true w.

(** ** Fs *)

Definition fs_errors : package FsErrorKind string :=
  mk_package "FsError" "could not allocate filesystem error" "invalid FsError handle" "invalid filesystem error detail".
Definition fs_error_value (kind : StdErrorKind) (detail : string) (path : string) : alloc_answer -> world FsErrorKind string -> value * world FsErrorKind string :=
  error_value fs_errors (from_std_kind kind) detail path.
Definition drop_fs_error : Z -> world FsErrorKind string -> world FsErrorKind string := drop_error.
Definition fs_error_handle : option value -> world FsErrorKind string -> option (option Z) := error_handle fs_type.
Definition fs_error_field_value : option value -> (entry FsErrorKind string -> value) -> world FsErrorKind string -> option value :=
  error_field_value fs_errors fs_type.
Definition fs_error_text : option value -> bool -> world FsErrorKind string -> option string := error_text fs_errors fs_type.
Definition fs_result_err_kind_path (kind : StdErrorKind) (detail : string) (path : string) (a : alloc_answer) (w : world FsErrorKind string) : value * world FsErrorKind string :=
  err_result (fs_error_value kind detail path a w).
Definition fs_result_err_kind (kind : StdErrorKind) (detail : string) : alloc_answer -> world FsErrorKind string -> value * world FsErrorKind string := fs_result_err_kind_path kind detail "".
Definition fs_result_err (detail : string) : alloc_answer -> world FsErrorKind string -> value * world FsErrorKind string := fs_result_err_kind Io detail.
Definition mux_fs_error_from_message `{FloatText} (message : option value) : alloc_answer -> world FsErrorKind string -> value * world FsErrorKind string :=
  fs_error_value Io (message_detail fs_errors message) "".
Definition mux_fs_error_kind (error : option value) : world FsErrorKind string -> option value := fs_error_field_value error (fun e => kind_value (e_kind e)).
Definition mux_fs_error_detail (error : option value) : world FsErrorKind string -> option value := fs_error_field_value error (fun e => VString (e_detail e)).
Definition mux_fs_error_path (error : option value) : world FsErrorKind string -> option value := fs_error_field_value error (fun e => VString (e_extra e)).
Definition mux_fs_error_message (error : option value) (w : world FsErrorKind string) : option value := VString <$> fs_error_text error false w.
Definition mux_fs_error_to_string (error : option value) (w : world FsErrorKind string) : option value := VString <$> fs_error_text error true w.

(** ** Io *)

Definition io_errors : package IoErrorKind string :=
  mk_package "IoError" "could not allocate I/O error" "invalid IoError handle" "invalid I/O error detail".
Definition io_error_value (kind : StdErrorKind) (detail : string) (operation : string) : alloc_answer -> world IoErrorKind string -> value * world IoErrorKind string :=
  error_value io_errors (from_std_kind kind) detail operation.
Definition drop_io_error : Z -> world IoErrorKind string -> world IoErrorKind string := drop_error.
Definition io_error_handle : option value -> world IoErrorKind string -> option (option Z) := error_handle io_type.
Definition io_error_field_value : option value -> (entry IoErrorKind string -> value) -> world IoErrorKind string -> option value :=
  error_field_value io_errors io_type.
Definition io_error_text : option value -> bool -> world IoErrorKind string -> option string := error_text io_errors io_type.
Definition io_result_err_kind (kind : StdErrorKind) (detail : string) (operation : string) (a : alloc_answer) (w : world IoErrorKind string) : value * world IoErrorKind string :=
  err_result (io_error_value kind detail operation a w).
Definition io_result_err (detail : string) : alloc_answer -> world IoErrorKind string -> value * world IoErrorKind string := io_result_err_kind Io detail "".
Definition mux_io_error_from_message `{FloatText} (message : option value) : alloc_answer -> world IoErrorKind string -> value * world IoErrorKind string :=
  io_error_value Io (message_detail io_errors message) "".
Definition mux_io_error_kind (error : option value) : world IoErrorKind string -> option value := io_error_field_value error (fun e => kind_value (e_kind e)).
Definition mux_io_error_detail (error : option value) : world IoErrorKind string -> option value := io_error_field_value error (fun e => VString (e_detail e)).
Definition mux_io_error_operation (error : option value) : world IoErrorKind string -> option value := io_error_field_value error (fun e => VString (e_extra e)).
Definition mux_io_error_message (error : option value) (w : world IoErrorKind string) : option value := VString <$> io_error_text error false w.
Definition mux_io_error_to_string (error : option value) (w : world IoErrorKind string) : option value := VString <$> io_error_text error true w.

(** ** Net *)

Definition net_errors : package NetErrorKind string :=
  mk_package "NetError" "could not allocate network error" "invalid NetError handle" "invalid network error detail".
Definition net_error_value (kind : StdErrorKind) (detail : string) (address : string) : alloc_answer -> world NetErrorKind string -> value * world NetErrorKind string :=
  error_value net_errors (from_std_kind kind) detail address.
Definition drop_net_error : Z -> world NetErrorKind string -> world NetErrorKind string := drop_error.
Definition net_error_handle : option value -> world NetErrorKind string -> option (option Z) := error_handle net_type.
Definition net_error_field_value : option value -> (entry NetErrorKind string -> value) -> world NetErrorKind string -> option value :=
  error_field_value net_errors net_type.
Definition net_error_text : option value -> bool -> world NetErrorKind string -> option string := error_text net_errors net_type.
Definition net_result_err_kind_address (kind : StdErrorKind) (detail : string) (address : string) (a : alloc_answer) (w : world NetErrorKind string) : value * world NetErrorKind string :=
  err_result (net_error_value kind detail address a w).
Definition net_result_err_kind (kind : StdErrorKind) (detail : string) : alloc_answer -> world NetErrorKind string -> value * world NetErrorKind string := net_result_err_kind_address kind detail "".
Definition net_result_err (detail : string) : alloc_answer -> world NetErrorKind string -> value * world NetErrorKind string := net_result_err_kind Io detail.
Definition mux_net_error_from_message `{FloatText} (message : option value) : alloc_answer -> world NetErrorKind string -> value * world NetErrorKind string :=
  net_error_value Io (message_detail net_errors message) "".
Definition mux_net_error_kind (error : option value) : world NetErrorKind string -> option value := net_error_field_value error (fun e => kind_value (e_kind e)).
Definition mux_net_error_detail (error : option value) : world NetErrorKind string -> option value := net_error_field_value error (fun e => VString (e_detail e)).
Definition mux_net_error_address (error : option value) : world NetErrorKind string -> option value := net_error_field_value error (fun e => VString (e_extra e)).
Definition mux_net_error_message (error : option value) (w : world NetErrorKind string) : option value := VString <$> net_error_text error false w.
Definition mux_net_error_to_string (error : option value) (w : world NetErrorKind string) : option value := VString <$> net_error_text error true w.

(** ** Url *)

Definition url_errors : package UrlErrorKind string :=
  mk_package "UrlError" "could not allocate URL error" "invalid UrlError handle" "invalid URL error detail".
Definition url_error_value (kind : StdErrorKind) (detail : string) (url : string) : alloc_answer -> world UrlErrorKind string -> value * world UrlErrorKind string :=
  error_value url_errors (from_std_kind kind) detail url.
Definition drop_url_error : Z -> world UrlErrorKind string -> world UrlErrorKind string := drop_error.
Definition url_error_handle : option value -> world UrlErrorKind string -> option (option Z) := error_handle url_type.
Definition url_error_field_value : option value -> (entry UrlErrorKind string -> value) -> world UrlErrorKind string -> option value :=
  error_field_value url_errors url_type.
Definition url_error_text : option value -> bool -> world UrlErrorKind string -> option string := error_text url_errors url_type.
Definition url_result_err_kind_url (kind : StdErrorKind) (detail : string) (url : string) (a : alloc_answer) (w : world UrlErrorKind string) : value * world UrlErrorKind string :=
  err_result (url_error_value kind detail url a w).
Definition url_result_err_kind (kind : StdErrorKind) (detail : string) : alloc_answer -> world UrlErrorKind string -> value * world UrlErrorKind string := url_result_err_kind_url kind detail "".
Definition url_result_err (detail : string) : alloc_answer -> world UrlErrorKind string -> value * world UrlErrorKind string := url_result_err_kind Parse detail.
Definition mux_url_error_from_message `{FloatText} (message : option value) : alloc_answer -> world UrlErrorKind string -> value * world UrlErrorKind string :=
  url_error_value Parse (message_detail url_errors message) "".
Definition mux_url_error_kind (error : option value) : world UrlErrorKind string -> option value := url_error_field_value error (fun e => kind_value (e_kind e)).
Definition mux_url_error_detail (error : option value) : world UrlErrorKind string -> option value := url_error_field_value error (fun e => VString (e_detail e)).
Definition mux_url_error_url (error : option value) : world UrlErrorKind string -> option value := url_error_field_value error (fun e => VString (e_extra e)).
Definition mux_url_error_message (error : option value) (w : world UrlErrorKind string) : option value := VString <$> url_error_text error false w.
Definition mux_url_error_to_string (error : option value) (w : world UrlErrorKind string) : option value := VString <$> url_error_text error true w.

(** ** Uuid *)

Definition uuid_errors : package UuidErrorKind unit :=
  mk_package "UuidError" "could not allocate UUID error" "invalid UuidError handle" "invalid UUID error detail".
Definition uuid_error_value (kind : StdErrorKind) (detail : string) : alloc_answer -> world UuidErrorKind unit -> value * world UuidErrorKind unit :=
  error_value uuid_errors (from_std_kind kind) detail tt.
Definition drop_uuid_error : Z -> world UuidErrorKind unit -> world UuidErrorKind unit := drop_error.
Definition uuid_error_handle : option value -> world UuidErrorKind unit -> option (option Z) := error_handle uuid_type.
Definition uuid_error_field_value : option value -> (entry UuidErrorKind unit -> value) -> world UuidErrorKind unit -> option value :=
  error_field_value uuid_errors uuid_type.
Definition uuid_error_text : option value -> bool -> world UuidErrorKind unit -> option string := error_text uuid_errors uuid_type.
Definition uuid_result_err_kind (kind : StdErrorKind) (detail : string) (a : alloc_answer) (w : world UuidErrorKind unit) : value * world UuidErrorKind unit :=
  err_result (uuid_error_value kind detail a w).
Definition uuid_result_err (detail : string) : alloc_answer -> world UuidErrorKind unit -> value * world UuidErrorKind unit := uuid_result_err_kind Parse detail.
Definition mux_uuid_error_from_message `{FloatText} (message : option value) : alloc_answer -> world UuidErrorKind unit -> value * world UuidErrorKind unit :=
  uuid_error_value Parse (message_detail uuid_errors message).
Definition mux_uuid_error_kind (error : option value) : world UuidErrorKind unit -> option value := uuid_error_field_value error (fun e => kind_value (e_kind e)).
Definition mux_uuid_error_detail (error : option value) : world UuidErrorKind unit -> option value := uuid_error_field_value error (fun e => VString (e_detail e)).
Definition mux_uuid_error_message (error : option value) (w : world UuidErrorKind unit) : option value := VString <$> uuid_error_text error false w.
Definition mux_uuid_error_to_string (error : option value) (w : world UuidErrorKind unit) : option value := VString <$> uuid_error_text error true w.

(** ** Math *)

Definition math_errors : package MathErrorKind unit :=
  mk_package "MathError" "could not allocate math error" "invalid MathError handle" "invalid math error detail".
Definition math_error_value (kind : StdErrorKind) (detail : string) : alloc_answer -> world MathErrorKind unit -> value * world MathErrorKind unit :=
  error_value math_errors (from_std_kind kind) detail tt.
Definition drop_math_error : Z -> world MathErrorKind unit -> world MathErrorKind unit := drop_error.
Definition math_error_handle : option value -> world MathErrorKind unit -> option (option Z) := error_handle math_type.
Definition math_error_field_value : option value -> (entry MathErrorKind unit -> value) -> world MathErrorKind unit -> option value :=
  error_field_value math_errors math_type.
Definition math_error_text : option value -> bool -> world MathErrorKind unit -> option string := error_text math_errors math_type.
Definition math_result_err_kind (kind : StdErrorKind) (detail : string) (a : alloc_answer) (w : world MathErrorKind unit) : value * world MathErrorKind unit :=
  err_result (math_error_value kind detail a w).
Definition math_result_err (detail : string) : alloc_answer -> world MathErrorKind unit -> value * world MathErrorKind unit := math_result_err_kind Invalid detail.
Definition mux_math_error_from_message `{FloatText} (message : option value) : alloc_answer -> world MathErrorKind unit -> value * world MathErrorKind unit :=
  math_error_value Invalid (message_detail math_errors message).
Definition mux_math_error_kind (error : option value) : world MathErrorKind unit -> option value := math_error_field_value error (fun e => kind_value (e_kind e)).
Definition mux_math_error_detail (error : option value) : world MathErrorKind unit -> option value := math_error_field_value error (fun e => VString (e_detail e)).
Definition mux_math_error_message (error : option value) (w : world MathErrorKind unit) : option value := VString <$> math_error_text error false w.
Definition mux_math_error_to_string (error : option value) (w : world MathErrorKind unit) : option value := VString <$> math_error_text error true w.

(** ** Process *)

Definition process_errors : package ProcessErrorKind unit :=
  mk_package "ProcessError" "could not allocate process error" "invalid ProcessError handle" "invalid process error detail".
Definition process_error_value (kind : StdErrorKind) (detail : string) : alloc_answer -> world ProcessErrorKind unit -> value * world ProcessErrorKind unit :=
  error_value process_errors (from_std_kind kind) detail tt.
Definition drop_process_error : Z -> world ProcessErrorKind unit -> world ProcessErrorKind unit := drop_error.
Definition process_error_handle : option value -> world ProcessErrorKind unit -> option (option Z) := error_handle process_type.
Definition process_error_field_value : option value -> (entry ProcessErrorKind unit -> value) -> world ProcessErrorKind unit -> option value :=
  error_field_value process_errors process_type.
Definition process_error_text : option value -> bool -> world ProcessErrorKind unit -> option string := error_text process_errors process_type.
Definition process_result_err_kind (kind : StdErrorKind) (detail : string) (a : alloc_answer) (w : world ProcessErrorKind unit) : value * world ProcessErrorKind unit :=
  err_result (process_error_value kind detail a w).
Definition process_result_err (detail : string) : alloc_answer -> world ProcessErrorKind unit -> value * world ProcessErrorKind unit := process_result_err_kind Io detail.
Definition mux_process_error_from_message `{FloatText} (message : option value) : alloc_answer -> world ProcessErrorKind unit -> value * world ProcessErrorKind unit :=
  process_error_value Io (message_detail process_errors message).
Definition mux_process_error_kind (error : option value) : world ProcessErrorKind unit -> option value := process_error_field_value error (fun e => kind_value (e_kind e)).
Definition mux_process_error_detail (error : option value) : world ProcessErrorKind unit -> option value := process_error_field_value error (fun e => VString (e_detail e)).
Definition mux_process_error_message (error : option value) (w : world ProcessErrorKind unit) : option value := VString <$> process_error_text error false w.
Definition mux_process_error_to_string (error : option value) (w : world ProcessErrorKind unit) : option value := VString <$> process_error_text error true w.

(** ** Tls *)

Definition tls_errors : package TlsErrorKind unit :=
  mk_package "TlsError" "could not allocate TLS error" "invalid TlsError handle" "invalid TLS error detail".
Definition tls_error_value (kind : StdErrorKind) (detail : string) : alloc_answer -> world TlsErrorKind unit -> value * world TlsErrorKind unit :=
  error_value tls_errors (from_std_kind kind) detail tt.
Definition drop_tls_error : Z -> world TlsErrorKind unit -> world TlsErrorKind unit := drop_error.
Definition tls_error_handle : option value -> world TlsErrorKind unit -> option (option Z) := error_handle tls_type.
Definition tls_error_field_value : option value -> (entry TlsErrorKind unit -> value) -> world TlsErrorKind unit -> option value :=
  error_field_value tls_errors tls_type.
Definition tls_error_text : option value -> bool -> world TlsErrorKind unit -> option string := error_text tls_errors tls_type.
Definition tls_result_err_kind (kind : StdErrorKind) (detail : string) (a : alloc_answer) (w : world TlsErrorKind unit) : value * world TlsErrorKind unit :=
  err_result (tls_error_value kind detail a w).
Definition tls_result_err (detail : string) : alloc_answer -> world TlsErrorKind unit -> value * world TlsErrorKind unit := tls_result_err_kind Io detail.
Definition mux_tls_error_from_message `{FloatText} (message : option value) : alloc_answer -> world TlsErrorKind unit -> value * world TlsErrorKind unit :=
  tls_error_value Io (message_detail tls_errors message).
Definition mux_tls_error_kind (error : option value) : world TlsErrorKind unit -> option value := tls_error_field_value error (fun e => kind_value (e_kind e)).
Definition mux_tls_error_detail (error : option value) : world TlsErrorKind unit -> option value := tls_error_field_value error (fun e => VString (e_detail e)).
Definition mux_tls_error_message (error : option value) (w : world TlsErrorKind unit) : option value := VString <$> tls_error_text error false w.
Definition mux_tls_error_to_string (error : option value) (w : world TlsErrorKind unit) : option value := VString <$> tls_error_text error true w.

(** ** DateTime *)

Definition datetime_errors : package DateTimeErrorKind unit :=
  mk_package "DateTimeError" "could not allocate datetime error" "invalid DateTimeError handle" "invalid datetime error detail".
Definition datetime_error_value (kind : StdErrorKind) (detail : string) : alloc_answer -> world DateTimeErrorKind unit -> value * world DateTimeErrorKind unit :=
  error_value datetime_errors (from_std_kind kind) detail tt.
Definition drop_datetime_error : Z -> world DateTimeErrorKind unit -> world DateTimeErrorKind unit := drop_error.
Definition datetime_error_handle : option value -> world DateTimeErrorKind unit -> option (option Z) := error_handle datetime_type.
Definition datetime_error_field_value : option value -> (entry DateTimeErrorKind unit -> value) -> world DateTimeErrorKind unit -> option value :=
  error_field_value datetime_errors datetime_type.
Definition datetime_error_text : option value -> bool -> world DateTimeErrorKind unit -> option string := error_text datetime_errors datetime_type.
Definition datetime_result_err_kind (kind : StdErrorKind) (detail : string) (a : alloc_answer) (w : world DateTimeErrorKind unit) : value * world DateTimeErrorKind unit :=
  err_result (datetime_error_value kind detail a w).
Definition datetime_result_err (detail : string) : alloc_answer -> world DateTimeErrorKind unit -> value * world DateTimeErrorKind unit := datetime_result_err_kind Parse detail.
Definition mux_datetime_error_from_message `{FloatText} (message : option value) : alloc_answer -> world DateTimeErrorKind unit -> value * world DateTimeErrorKind unit :=
  datetime_error_value Parse (message_detail datetime_errors message).
Definition mux_datetime_error_kind (error : option value) : world DateTimeErrorKind unit -> option value := datetime_error_field_value error (fun e => kind_value (e_kind e)).
Definition mux_datetime_error_detail (error : option value) : world DateTimeErrorKind unit -> option value := datetime_error_field_value error (fun e => VString (e_detail e)).
Definition mux_datetime_error_message (error : option value) (w : world DateTimeErrorKind unit) : option value := VString <$> datetime_error_text error false w.
Definition mux_datetime_error_to_string (error : option value) (w : world DateTimeErrorKind unit) : option value := VString <$> datetime_error_text error true w.

(** ** Cli *)

Definition cli_errors : package CliErrorKind unit :=
  mk_package "CliError" "could not allocate CLI error" "invalid CliError handle" "invalid CLI error detail".
Definition cli_error_value (kind : StdErrorKind) (detail : string) : alloc_answer -> world CliErrorKind unit -> value * world CliErrorKind unit :=
  error_value cli_errors (from_std_kind kind) detail tt.
Definition drop_cli_error : Z -> world CliErrorKind unit -> world CliErrorKind unit := drop_error.
Definition cli_error_handle : option value -> world CliErrorKind unit -> option (option Z) := error_handle cli_type.
Definition cli_error_field_value : option value -> (entry CliErrorKind unit -> value) -> world CliErrorKind unit -> option value :=
  error_field_value cli_errors cli_type.
Definition cli_error_text : option value -> bool -> world CliErrorKind unit -> option string := error_text cli_errors cli_type.
Definition cli_result_err_kind (kind : StdErrorKind) (detail : string) (a : alloc_answer) (w : world CliErrorKind unit) : value * world CliErrorKind unit :=
  err_result (cli_error_value kind detail a w).
Definition cli_result_err (detail : string) : alloc_answer -> world CliErrorKind unit -> value * world CliErrorKind unit := cli_result_err_kind Parse detail.
Definition mux_cli_error_from_message `{FloatText} (message : option value) : alloc_answer -> world CliErrorKind unit -> value * world CliErrorKind unit :=
  cli_error_value Parse (message_detail cli_errors message).
Definition mux_cli_error_kind (error : option value) : world CliErrorKind unit -> option value := cli_error_field_value error (fun e => kind_value (e_kind e)).
Definition mux_cli_error_detail (error : option value) : world CliErrorKind unit -> option value := cli_error_field_value error (fun e => VString (e_detail e)).
Definition mux_cli_error_message (error : option value) (w : world CliErrorKind unit) : option value := VString <$> cli_error_text error false w.
Definition mux_cli_error_to_string (error : option value) (w : world CliErrorKind unit) : option value := VString <$> cli_error_text error true w.

(** ** Crypto *)

Definition crypto_errors : package CryptoErrorKind unit :=
  mk_package "CryptoError" "could not allocate crypto error" "invalid CryptoError handle" "invalid crypto error detail".
Definition crypto_error_value (kind : StdErrorKind) (detail : string) : alloc_answer -> world CryptoErrorKind unit -> value * world CryptoErrorKind unit :=
  error_value crypto_errors (from_std_kind kind) detail tt.
Definition drop_crypto_error : Z -> world CryptoErrorKind unit -> world CryptoErrorKind unit := drop_error.
Definition crypto_error_handle : option value -> world CryptoErrorKind unit -> option (option Z) := error_handle crypto_type.
Definition crypto_error_field_value : option value -> (entry CryptoErrorKind unit -> value) -> world CryptoErrorKind unit -> option value :=
  error_field_value crypto_errors crypto_type.
Definition crypto_error_text : option value -> bool -> world CryptoErrorKind unit -> option string := error_text crypto_errors crypto_type.
Definition crypto_result_err_kind (kind : StdErrorKind) (detail : string) (a : alloc_answer) (w : world CryptoErrorKind unit) : value * world CryptoErrorKind unit :=
  err_result (crypto_error_value kind detail a w).
Definition crypto_result_err (detail : string) : alloc_answer -> world CryptoErrorKind unit -> value * world CryptoErrorKind unit := crypto_result_err_kind Invalid detail.
Definition mux_crypto_error_from_message `{FloatText} (message : option value) : alloc_answer -> world CryptoErrorKind unit -> value * world CryptoErrorKind unit :=
  crypto_error_value Invalid (message_detail crypto_errors message).
Definition mux_crypto_error_kind (error : option value) : world CryptoErrorKind unit -> option value := crypto_error_field_value error (fun e => kind_value (e_kind e)).
Definition mux_crypto_error_detail (error : option value) : world CryptoErrorKind unit -> option value := crypto_error_field_value error (fun e => VString (e_detail e)).
Definition mux_crypto_error_message (error : option value) (w : world CryptoErrorKind unit) : option value := VString <$> crypto_error_text error false w.
Definition mux_crypto_error_to_string (error : option value) (w : world CryptoErrorKind unit) : option value := VString <$> crypto_error_text error true w.

(** ** Regex *)

Definition regex_errors : package RegexErrorKind unit :=
  mk_package "RegexError" "could not allocate regex error" "invalid RegexError handle" "invalid regex error detail".
Definition regex_error_value (kind : StdErrorKind) (detail : string) : alloc_answer -> world RegexErrorKind unit -> value * world RegexErrorKind unit :=
  error_value regex_errors (from_std_kind kind) detail tt.
Definition drop_regex_error : Z -> world RegexErrorKind unit -> world RegexErrorKind unit := drop_error.
Definition regex_error_handle : option value -> world RegexErrorKind unit -> option (option Z) := error_handle regex_type.
Definition regex_error_field_value : option value -> (entry RegexErrorKind unit -> value) -> world RegexErrorKind unit -> option value :=
  error_field_value regex_errors regex_type.
Definition regex_error_text : option value -> bool -> world RegexErrorKind unit -> option string := error_text regex_errors regex_type.
Definition regex_result_err_kind (kind : StdErrorKind) (detail : string) (a : alloc_answer) (w : world RegexErrorKind unit) : value * world RegexErrorKind unit :=
  err_result (regex_error_value kind detail a w).
Definition regex_result_err (detail : string) : alloc_answer -> world RegexErrorKind unit -> value * world RegexErrorKind unit := regex_result_err_kind Invalid detail.
Definition mux_regex_error_from_message `{FloatText} (message : option value) : alloc_answer -> world RegexErrorKind unit -> value * world RegexErrorKind unit :=
  regex_error_value Invalid (message_detail regex_errors message).
Definition mux_regex_error_kind (error : option value) : world RegexErrorKind unit -> option value := regex_error_field_value error (fun e => kind_value (e_kind e)).
Definition mux_regex_error_detail (error : option value) : world RegexErrorKind unit -> option value := regex_error_field_value error (fun e => VString (e_detail e)).
Definition mux_regex_error_message (error : option value) (w : world RegexErrorKind unit) : option value := VString <$> regex_error_text error false w.
Definition mux_regex_error_to_string (error : option value) (w : world RegexErrorKind unit) : option value := VString <$> regex_error_text error true w.

(** ** Random *)

Definition random_errors : package RandomErrorKind unit :=
  mk_package "RandomError" "could not allocate random error" "invalid RandomError handle" "invalid random error detail".
Definition random_error_value (kind : StdErrorKind) (detail : string) : alloc_answer -> world RandomErrorKind unit -> value * world RandomErrorKind unit :=
  error_value random_errors (from_std_kind kind) detail tt.
Definition drop_random_error : Z -> world RandomErrorKind unit -> world RandomErrorKind unit := drop_error.
Definition random_error_handle : option value -> world RandomErrorKind unit -> option (option Z) := error_handle random_type.
Definition random_error_field_value : option value -> (entry RandomErrorKind unit -> value) -> world RandomErrorKind unit -> option value :=
  error_field_value random_errors random_type.
Definition random_error_text : option value -> bool -> world RandomErrorKind unit -> option string := error_text random_errors random_type.
Definition random_result_err_kind (kind : StdErrorKind) (detail : string) (a : alloc_answer) (w : world RandomErrorKind unit) : value * world RandomErrorKind unit :=
  err_result (random_error_value kind detail a w).
Definition random_result_err (detail : string) : alloc_answer -> world RandomErrorKind unit -> value * world RandomErrorKind unit := random_result_err_kind Invalid detail.
Definition mux_random_error_from_message `{FloatText} (message : option value) : alloc_answer -> world RandomErrorKind unit -> value * world RandomErrorKind unit :=
  random_error_value Invalid (message_detail random_errors message).
Definition mux_random_error_kind (error : option value) : world RandomErrorKind unit -> option value := random_error_field_value error (fun e => kind_value (e_kind e)).
Definition mux_random_error_detail (error : option value) : world RandomErrorKind unit -> option value := random_error_field_value error (fun e => VString (e_detail e)).
Definition mux_random_error_message (error : option value) (w : world RandomErrorKind unit) : option value := VString <$> random_error_text error false w.
Definition mux_random_error_to_string (error : option value) (w : world RandomErrorKind unit) : option value := VString <$> random_error_text error true w.

(** ** Log *)

Definition log_errors : package LogErrorKind unit :=
  mk_package "LogError" "could not allocate log error" "invalid LogError handle" "invalid log error detail".
Definition log_error_value (kind : StdErrorKind) (detail : string) : alloc_answer -> world LogErrorKind unit -> value * world LogErrorKind unit :=
  error_value log_errors (from_std_kind kind) detail tt.
Definition drop_log_error : Z -> world LogErrorKind unit -> world LogErrorKind unit := drop_error.
Definition log_error_handle : option value -> world LogErrorKind unit -> option (option Z) := error_handle log_type.
Definition log_error_field_value : option value -> (entry LogErrorKind unit -> value) -> world LogErrorKind unit -> option value :=
  error_field_value log_errors log_type.
Definition log_error_text : option value -> bool -> world LogErrorKind unit -> option string := error_text log_errors log_type.
Definition log_result_err_kind (kind : StdErrorKind) (detail : string) (a : alloc_answer) (w : world LogErrorKind unit) : value * world LogErrorKind unit :=
  err_result (log_error_value kind detail a w).
Definition log_result_err (detail : string) : alloc_answer -> world LogErrorKind unit -> value * world LogErrorKind unit := log_result_err_kind Logger detail.
Definition mux_log_error_from_message `{FloatText} (message : option value) : alloc_answer -> world LogErrorKind unit -> value * world LogErrorKind unit :=
  log_error_value Logger (message_detail log_errors message).
Definition mux_log_error_kind (error : option value) : world LogErrorKind unit -> option value := log_error_field_value error (fun e => kind_value (e_kind e)).
Definition mux_log_error_detail (error : option value) : world LogErrorKind unit -> option value := log_error_field_value error (fun e => VString (e_detail e)).
Definition mux_log_error_message (error : option value) (w : world LogErrorKind unit) : option value := VString <$> log_error_text error false w.
Definition mux_log_error_to_string (error : option value) (w : world LogErrorKind unit) : option value := VString <$> log_error_text error true w.

(** ** Sync *)

Definition sync_errors : package SyncErrorKind unit :=
  mk_package "SyncError" "could not allocate sync error" "invalid SyncError handle" "invalid synchronization error detail".
Definition sync_error_value (kind : StdErrorKind) (detail : string) : alloc_answer -> world SyncErrorKind unit -> value * world SyncErrorKind unit :=
  error_value sync_errors (from_std_kind kind) detail tt.
Definition drop_sync_error : Z -> world SyncErrorKind unit -> world SyncErrorKind unit := drop_error.
Definition sync_error_handle : option value -> world SyncErrorKind unit -> option (option Z) := error_handle sync_type.
Definition sync_error_field_value : option value -> (entry SyncErrorKind unit -> value) -> world SyncErrorKind unit -> option value :=
  error_field_value sync_errors sync_type.
Definition sync_error_text : option value -> bool -> world SyncErrorKind unit -> option string := error_text sync_errors sync_type.
Definition sync_result_err (detail : string) (a : alloc_answer) (w : world SyncErrorKind unit) : value * world SyncErrorKind unit :=
  err_result (sync_error_value State detail a w).
Definition mux_sync_error_from_message `{FloatText} (message : option value) : alloc_answer -> world SyncErrorKind unit -> value * world SyncErrorKind unit :=
  sync_error_value State (message_detail sync_errors message).
Definition mux_sync_error_kind (error : option value) : world SyncErrorKind unit -> option value := sync_error_field_value error (fun e => kind_value (e_kind e)).
Definition mux_sync_error_detail (error : option value) : world SyncErrorKind unit -> option value := sync_error_field_value error (fun e => VString (e_detail e)).
Definition mux_sync_error_message (error : option value) (w : world SyncErrorKind unit) : option value := VString <$> sync_error_text error false w.
Definition mux_sync_error_to_string (error : option value) (w : world SyncErrorKind unit) : option value := VString <$> sync_error_text error true w.

End Packages.
