(* ===== verification/StdErrorsProps.v ===== *)
(** * Properties of typed errors

    A package's table with its objects refines a map from live objects to immutable
    entries with a count of references; and categories survive the crossing to
    compiled code. *)

From S2P Require Import Prelude AssocList Object Value Heap Display StdErrors.

(** ** Sequences of calls *)

Inductive call (K X : Type) : Type :=
| Create (kind : K) (detail : string) (extra : X) (a : alloc_answer)
| Retain (p : Z)
| Release (p : Z).
Arguments Create {K X}. Arguments Retain {K X}. Arguments Release {K X}.

Section Refinement.
Context {K X : Type} `{ErrorKind K} (pk : package K X) (expected : TypeId).
Implicit Types w : world K X.

(** The address of the object an allocation answers. *)
Definition address (a : alloc_answer) : option Z :=
  match a with Some o => if obj_ptr o =? 0 then None else Some (obj_ptr o) | None => None end.

(** Only live objects are copied and dropped, and the allocator does not hand out an
    address that is in use. *)
Definition error_step (c : call K X) w : option (world K X) :=
  match c with
  | Create kind detail extra a =>
      match address a ≫= fun p => strong w !! p with
      | Some _ => None
      | None => Some (error_value pk kind detail extra a w).2
      end
  | Retain p => match strong w !! p with Some _ => Some (retain_object p w) | None => None end
  | Release p => match strong w !! p with Some _ => Some (release_object p w) | None => None end
  end.

(** The specification: live objects with their entry and the references to them. *)
Abbreviation live_errors := (gmap Z (entry K X * Z)).

Definition spec_step (c : call K X) (s : live_errors) : option live_errors :=
  match c with
  | Create kind detail extra a =>
      match address a with
      | None => Some s
      | Some p => match s !! p with Some _ => None | None => Some (<[p := (mk_entry kind detail extra, 1)]> s) end
      end
  | Retain p => match s !! p with Some (e, n) => Some (<[p := (e, n + 1)]> s) | None => None end
  | Release p =>
      match s !! p with
      | Some (e, n) => Some (if n =? 1 then delete p s else <[p := (e, n - 1)]> s)
      | None => None
      end
  end.

Fixpoint error_run (cs : list (call K X)) w : option (world K X) :=
  match cs with [] => Some w | c :: cs => error_step c w ≫= error_run cs end.
Fixpoint spec_run (cs : list (call K X)) (s : live_errors) : option live_errors :=
  match cs with [] => Some s | c :: cs => spec_step c s ≫= spec_run cs end.

(** ** The relation *)

Record related w (s : live_errors) : Prop := {
  rel_strong p : strong w !! p = snd <$> s !! p;
  rel_entry p : (memory w !! p ≫= fun h => errors w !! h) = fst <$> s !! p;
  rel_dead p : s !! p = None -> memory w !! p = None;
  rel_inj p q h : memory w !! p = Some h -> memory w !! q = Some h -> p = q;
  rel_range p h : memory w !! p = Some h -> 0 < h < next_handle w;
  rel_fresh h e : errors w !! h = Some e -> h < next_handle w;
  rel_next : 0 < next_handle w;
  rel_count p e n : s !! p = Some (e, n) -> 0 < n /\ p <> 0;
  rel_size : size (errors w) = size s;
}.

Lemma related_empty : related empty_world ∅.
Proof. split; cbn; intros; rewrite ?lookup_empty in *; try done. Qed.

(** Where a live object's entry is. *)
Lemma related_live w s p e n : related w s -> s !! p = Some (e, n) ->
  exists h, memory w !! p = Some h /\ errors w !! h = Some e /\ 0 < h.
Proof.
  intros R Hp. pose proof (rel_entry w s R p) as E. rewrite Hp in E. cbn in E.
  destruct (memory w !! p) as [h|] eqn:Em; [|done]. exists h. pose proof (rel_range w s R p h Em). split_and!; [done|done|lia].
Qed.

Lemma related_strong_none w s p : related w s -> (strong w !! p = None <-> s !! p = None).
Proof. intros R. rewrite (rel_strong w s R). apply fmap_None. Qed.

Lemma related_put w s p e n n' : related w s -> s !! p = Some (e, n) -> 0 < n' ->
  related (mk_world (errors w) (next_handle w) (memory w) (<[p := n']> (strong w))) (<[p := (e, n')]> s).
Proof.
  intros R Hp Hn. destruct R as [R1 R2 R3 R4 R5 R6 R7 R8 R9]. split; cbn; try done.
  - intros q. destruct (decide (q = p)) as [->|]; [by rewrite !lookup_insert_eq|]. rewrite !lookup_insert_ne by done. apply R1.
  - intros q. rewrite R2. destruct (decide (q = p)) as [->|]; [by rewrite Hp, lookup_insert_eq|]. by rewrite lookup_insert_ne.
  - intros q. destruct (decide (q = p)) as [->|]; [by rewrite lookup_insert_eq|]. rewrite lookup_insert_ne by done. apply R3.
  - intros q e' n''. destruct (decide (q = p)) as [->|].
    + rewrite lookup_insert_eq. intros [= <- <-]. split; [done|]. by apply (R8 p e n).
    + rewrite lookup_insert_ne by done. apply R8.
  - rewrite R9. symmetry. apply map_size_insert_Some. by eexists.
Qed.

Lemma related_retain w s p e n : related w s -> s !! p = Some (e, n) -> related (retain_object p w) (<[p := (e, n + 1)]> s).
Proof.
  intros R Hp. unfold retain_object. rewrite (rel_strong w s R p), Hp. cbn.
  eapply related_put; [done|done|]. apply (rel_count w s R) in Hp. lia.
Qed.

Lemma related_release w s p e n : related w s -> s !! p = Some (e, n) ->
  related (release_object p w) (if n =? 1 then delete p s else <[p := (e, n - 1)]> s).
Proof.
  intros R Hp. pose proof (rel_count w s R p e n Hp) as [Hn Hp0]. unfold release_object.
  rewrite (rel_strong w s R p), Hp. cbn. destruct (n =? 1) eqn:En; bool_to_prop; [|eapply related_put; [done|done|lia]].
  destruct (related_live w s p e n R Hp) as (h & Em & Ee & Hh). unfold drop_error.
  rewrite (proj2 (Z.eqb_neq p 0)), Em, (proj2 (Z.eqb_neq h 0)) by lia. cbn.
  destruct R as [R1 R2 R3 R4 R5 R6 R7 R8 R9]. split; cbn; try done.
  - intros q. destruct (decide (q = p)) as [->|]; [by rewrite !lookup_delete_eq|]. rewrite !lookup_delete_ne by done. apply R1.
  - intros q. destruct (decide (q = p)) as [->|]; [by rewrite !lookup_delete_eq|]. rewrite !lookup_delete_ne by done.
    rewrite <- R2. destruct (memory w !! q) as [h'|] eqn:Eq; [|done]. cbn. rewrite lookup_delete_ne; [done|]. intros <-.
    by pose proof (R4 p q h Em Eq).
  - intros q. destruct (decide (q = p)) as [->|]; [by rewrite !lookup_delete_eq|]. rewrite !lookup_delete_ne by done. apply R3.
  - intros q r h' [_ Hq]%lookup_delete_Some [_ Hr]%lookup_delete_Some. by eapply R4.
  - intros q h' [_ Hq]%lookup_delete_Some. by eapply R5.
  - intros h' e' [_ Hq]%lookup_delete_Some. by eapply R6.
  - intros q e' n' [_ Hq]%lookup_delete_Some. by eapply R8.
  - rewrite !map_size_delete, Ee, Hp. cbn. by rewrite R9.
Qed.

(** A failed allocation only uses up a number. *)
Lemma related_skip w s e : related w s -> next_handle w < i64_max ->
  related (set_errors (delete (next_handle w) (<[next_handle w := e]> (errors w)))
    (mk_world (<[next_handle w := e]> (errors w)) (as_i64 (next_handle w + 1)) (memory w) (strong w))) s.
Proof.
  intros R Hb. pose proof (rel_next w s R). rewrite as_i64_small by width.
  assert (errors w !! next_handle w = None) as Hf.
  { destruct (errors w !! next_handle w) eqn:E; [|done]. apply (rel_fresh w s R) in E. lia. }
  unfold set_errors. cbn. rewrite delete_insert_id by done. destruct R as [R1 R2 R3 R4 R5 R6 R7 R8 R9]. split; cbn; try done.
  - intros q h Hq. apply R5 in Hq. lia.
  - intros h e' Hh. apply R6 in Hh. lia.
  - lia.
Qed.

Lemma related_add w s p e : related w s -> next_handle w < i64_max -> s !! p = None -> p <> 0 ->
  related (mk_world (<[next_handle w := e]> (errors w)) (as_i64 (next_handle w + 1)) (<[p := next_handle w]> (memory w))
    (<[p := 1]> (strong w))) (<[p := (e, 1)]> s).
Proof.
  intros R Hb Hp Hp0. pose proof (rel_next w s R). rewrite as_i64_small by width.
  destruct R as [R1 R2 R3 R4 R5 R6 R7 R8 R9]. split; cbn.
  - intros q. destruct (decide (q = p)) as [->|]; [by rewrite !lookup_insert_eq|]. rewrite !lookup_insert_ne by done. apply R1.
  - intros q. destruct (decide (q = p)) as [->|]; [rewrite !lookup_insert_eq; cbn; by rewrite lookup_insert_eq|].
    rewrite !lookup_insert_ne by done. rewrite <- R2. destruct (memory w !! q) as [h'|] eqn:Eq; [|done]. cbn.
    rewrite lookup_insert_ne; [done|]. apply R5 in Eq. lia.
  - intros q. destruct (decide (q = p)) as [->|]; [by rewrite lookup_insert_eq|]. rewrite !lookup_insert_ne by done. apply R3.
  - intros q r h [[<- <-]|[? Hq]]%lookup_insert_Some [[<- Hr]|[? Hr]]%lookup_insert_Some; try done.
    + apply R5 in Hr. lia.
    + subst. apply R5 in Hq. lia.
    + by eapply R4.
  - intros q h [[<- <-]|[? Hq]]%lookup_insert_Some; [lia|]. apply R5 in Hq. lia.
  - intros h e' [[<- <-]|[? Hq]]%lookup_insert_Some; [lia|]. apply R6 in Hq. lia.
  - lia.
  - intros q e' n [[<- [= <- <-]]|[? Hq]]%lookup_insert_Some; [lia|]. by eapply R8.
  - rewrite !map_size_insert_None; [by rewrite R9|done|].
    destruct (errors w !! next_handle w) eqn:E; [|done]. apply R6 in E. lia.
Qed.

(** The clone that is answered and the block that is released leave one reference. *)
Lemma release_retain w p : strong w !! p = Some 1 -> release_object p (retain_object p w) = w.
Proof.
  intros E. destruct w as [m nh me st]. cbn [strong] in E. unfold retain_object. cbn [strong]. rewrite E.
  unfold release_object. cbn [strong]. rewrite lookup_insert_eq. change (1 + 1 =? 1) with false. cbn.
  rewrite insert_insert_eq, insert_id by done. reflexivity.
Qed.

Lemma related_create w s kind detail extra a : related w s -> next_handle w < i64_max ->
  (forall p, address a = Some p -> s !! p = None) ->
  related (error_value pk kind detail extra a w).2
    (match address a with Some p => <[p := (mk_entry kind detail extra, 1)]> s | None => s end).
Proof.
  intros R Hb Ha. unfold error_value, address in *. destruct a as [o|]; [|by apply related_skip].
  destruct (obj_ptr o =? 0) eqn:E0; [by apply related_skip|]. cbn [snd]. bool_to_prop.
  rewrite release_retain by (cbn; by rewrite lookup_insert_eq). cbn. by apply related_add; [| |apply Ha|].
Qed.

Lemma related_step w s c : related w s -> next_handle w < i64_max ->
  match error_step c w, spec_step c s with
  | Some w', Some s' => related w' s' /\ next_handle w' <= next_handle w + 1
  | None, None => True
  | _, _ => False
  end.
Proof.
  intros R Hb. destruct c as [kind detail extra a|p|p]; cbn.
  - assert (next_handle (error_value pk kind detail extra a w).2 = next_handle w + 1) as Hn.
    { pose proof (rel_next w s R). unfold error_value. destruct a as [o|]; [destruct (obj_ptr o =? 0)|]; cbn [snd set_errors next_handle].
      2: rewrite release_retain by (cbn; by rewrite lookup_insert_eq). all: cbn; by apply as_i64_small; width. }
    destruct (address a) as [p|] eqn:Ea; cbn.
    + rewrite (rel_strong w s R p). destruct (s !! p) eqn:Ep; cbn; [done|]. rewrite Hn. split; [|lia].
      pose proof (related_create w s kind detail extra a R Hb) as Hc. rewrite Ea in Hc. apply Hc. by intros q [= ->].
    + rewrite Hn. split; [|lia]. pose proof (related_create w s kind detail extra a R Hb) as Hc. rewrite Ea in Hc. by apply Hc.
  - rewrite (rel_strong w s R p). destruct (s !! p) as [[e n]|] eqn:Ep; cbn; [|done]. split; [by apply related_retain|].
    unfold retain_object. case_match; cbn; lia.
  - rewrite (rel_strong w s R p). destruct (s !! p) as [[e n]|] eqn:Ep; cbn; [|done]. split; [by eapply related_release|].
    unfold release_object, drop_error, set_errors. repeat case_match; cbn; lia.
Qed.

Lemma related_run cs w s : related w s -> next_handle w + Z.of_nat (length cs) <= i64_max ->
  match error_run cs w, spec_run cs s with
  | Some w', Some s' => related w' s'
  | None, None => True
  | _, _ => False
  end.
Proof.
  revert w s. induction cs as [|c cs IH]; intros w s R Hb; cbn [error_run spec_run]; [done|]. cbn [length] in Hb.
  pose proof (related_step w s c R ltac:(lia)) as Hs.
  destruct (error_step c w), (spec_step c s); cbn; try done. destruct Hs as [Hs1 Hs2]. apply IH; [done|lia].
Qed.

(** ** Reading *)

(** The text of an entry. *)
Definition entry_text (decorated : bool) (e : entry K X) : string :=
  if decorated then as_str (e_kind e) +:+ ": " +:+ e_detail e else e_detail e.

Lemma read_live w s o e n get decorated : related w s -> s !! obj_ptr o = Some (e, n) -> obj_type o = expected ->
  error_field_value pk expected (Some (VObject o)) get w = Some (get e) /\
  error_text pk expected (Some (VObject o)) decorated w = Some (entry_text decorated e).
Proof.
  intros R Ho Ht. destruct (related_live w s _ e n R Ho) as (h & Em & Ee & _). pose proof (rel_count w s R _ _ _ Ho) as [_ H0].
  unfold error_field_value, error_text, lookup_entry, error_handle. cbn. rewrite Ht, Z.eqb_refl. cbn.
  rewrite (proj2 (Z.eqb_neq _ _)), Em by done. cbn. by rewrite Ee.
Qed.

(** A value of another class is no error of this package. *)
Lemma read_other w v get decorated : get_object_type_id v <> expected ->
  error_field_value pk expected v get w = Some (VString (invalid_handle pk)) /\
  error_text pk expected v decorated w = Some (invalid_handle pk).
Proof.
  intros Hv. unfold error_field_value, error_text, lookup_entry, error_handle. destruct v as [v|]; [|done].
  by rewrite (proj2 (Z.eqb_neq _ _)).
Qed.

End Refinement.


(** C37: A typed error is a shared immutable record.  Whatever errors a package creates,
    copies and drops, in any order and with any allocation failing, its table with its
    objects answers like a map from live objects to the entry they were created with:
    every accessor reads that entry until the last copy is dropped, and the table holds
    exactly one entry per live object, so none is lost and none is left behind. *)
Theorem std_errors_refine {K X : Type} `{ErrorKind K} (pk : package K X) (expected : TypeId) (cs : list (call K X)) :
  Z.of_nat (length cs) < i64_max ->
  match error_run pk cs empty_world, spec_run cs ∅ with
  | Some w, Some live =>
      size (errors w) = size live /\
      forall o e n get decorated, live !! obj_ptr o = Some (e, n) -> obj_type o = expected ->
        error_field_value pk expected (Some (VObject o)) get w = Some (get e) /\
        error_text pk expected (Some (VObject o)) decorated w = Some (entry_text decorated e)
  | None, None => True
  | _, _ => False
  end.
Proof.
  intros Hl. pose proof (related_run pk cs empty_world ∅ related_empty ltac:(cbn; lia)) as R.
  destruct (error_run pk cs empty_world) as [w|], (spec_run cs ∅) as [s|]; try done.
  split; [by apply rel_size|]. intros. by eapply read_live.
Qed.

(** Two errors, one of them copied; after three drops one reference to the first is left. *)
Definition demo_error (p : Z) : ObjectRef := mk_object 1 p 7 8.
Definition demo_calls : list (call FsErrorKind string) :=
  [Create fs_NotFound "no such file" "/a" (Some (demo_error 64)); Retain 64; Create fs_Io "again" "" None;
   Create fs_Os "busy" "/b" (Some (demo_error 96)); Release 64; Release 96].

Lemma std_errors_refine_witness :
  from_option (mux_fs_error_path 7 (Some (VObject (demo_error 64)))) None (error_run fs_errors demo_calls empty_world) =
    Some (VString "/a") /\
  from_option (mux_fs_error_to_string 7 (Some (VObject (demo_error 64)))) None (error_run fs_errors demo_calls empty_world) =
    Some (VString "not_found: no such file").
Proof.
  pose proof (std_errors_refine fs_errors 7 demo_calls ltac:(vm_compute; done)) as R.
  destruct (error_run fs_errors demo_calls empty_world) as [w|] eqn:Ew; [|by vm_compute in Ew].
  destruct (spec_run demo_calls ∅) as [s|] eqn:Es; [|done]. destruct R as [_ R].
  assert (s !! 64 = Some (mk_entry fs_NotFound "no such file" "/a", 1)) as Hs.
  { vm_compute in Es. injection Es as <-. by vm_compute. }
  destruct (R (demo_error 64) _ 1 (fun e => VString (e_extra e)) true Hs eq_refl) as [H1 H2]. split.
  - exact H1.
  - cbn [from_option]. unfold mux_fs_error_to_string, fs_error_text. rewrite H2. reflexivity.
Defined.

(** ** Categories *)

(** Discriminants number the categories of a package in order, and names are distinct. *)
Class ErrorKindLaws (K : Type) `{ErrorKind K} : Prop := {
  discriminant_index k : all_kinds !! Z.to_nat (discriminant k) = Some k;
  discriminant_small k : 0 <= discriminant k < 256;
  names_distinct : NoDup (as_str <$> (all_kinds : list K));
}.

Ltac kind_laws := split; [by intros []|by intros []; vm_compute|by apply (bool_decide_unpack _); vm_compute].

#[export] Instance json_kind_laws : ErrorKindLaws JsonErrorKind. Proof. kind_laws. Qed.
#[export] Instance csv_kind_laws : ErrorKindLaws CsvErrorKind. Proof. kind_laws. Qed.
#[export] Instance byte_kind_laws : ErrorKindLaws ByteErrorKind. Proof. kind_laws. Qed.
#[export] Instance bytes_kind_laws : ErrorKindLaws BytesErrorKind. Proof. kind_laws. Qed.
#[export] Instance env_kind_laws : ErrorKindLaws EnvErrorKind. Proof. kind_laws. Qed.
#[export] Instance fs_kind_laws : ErrorKindLaws FsErrorKind. Proof. kind_laws. Qed.
#[export] Instance io_kind_laws : ErrorKindLaws IoErrorKind. Proof. kind_laws. Qed.
#[export] Instance net_kind_laws : ErrorKindLaws NetErrorKind. Proof. kind_laws. Qed.
#[export] Instance url_kind_laws : ErrorKindLaws UrlErrorKind. Proof. kind_laws. Qed.
#[export] Instance uuid_kind_laws : ErrorKindLaws UuidErrorKind. Proof. kind_laws. Qed.
#[export] Instance math_kind_laws : ErrorKindLaws MathErrorKind. Proof. kind_laws. Qed.
#[export] Instance process_kind_laws : ErrorKindLaws ProcessErrorKind. Proof. kind_laws. Qed.
#[export] Instance tls_kind_laws : ErrorKindLaws TlsErrorKind. Proof. kind_laws. Qed.
#[export] Instance datetime_kind_laws : ErrorKindLaws DateTimeErrorKind. Proof. kind_laws. Qed.
#[export] Instance cli_kind_laws : ErrorKindLaws CliErrorKind. Proof. kind_laws. Qed.
#[export] Instance crypto_kind_laws : ErrorKindLaws CryptoErrorKind. Proof. kind_laws. Qed.
#[export] Instance regex_kind_laws : ErrorKindLaws RegexErrorKind. Proof. kind_laws. Qed.
#[export] Instance random_kind_laws : ErrorKindLaws RandomErrorKind. Proof. kind_laws. Qed.
#[export] Instance log_kind_laws : ErrorKindLaws LogErrorKind. Proof. kind_laws. Qed.
#[export] Instance sync_kind_laws : ErrorKindLaws SyncErrorKind. Proof. kind_laws. Qed.

(** Compiled code reads a payload-less enum as a little-endian [i32]. *)
Definition kind_of_octets {K} `{ErrorKind K} (v : value) : option K :=
  match v with
  | VOpaque [a; b; c; d] => all_kinds !! Z.to_nat (a + 256 * b + 65536 * c + 16777216 * d)
  | _ => None
  end.

Lemma kind_crosses {K} `{ErrorKindLaws K} (k : K) : kind_of_octets (kind_value k) = Some k.
Proof.
  pose proof (discriminant_small k) as Hk. unfold kind_value, ne_bytes. cbn [map kind_of_octets].
  rewrite (Z.mod_small _ (2 ^ 32)) by lia. rewrite !Z.shiftr_div_pow2 by lia.
  rewrite (Z.div_small _ (2 ^ (8 * 1))), (Z.div_small _ (2 ^ (8 * 2))), (Z.div_small _ (2 ^ (8 * 3))) by lia.
  rewrite Z.div_1_r, (Z.mod_small (discriminant k)) by lia.
  rewrite !Zmod_0_l, !Z.mul_0_r, !Z.add_0_r. apply discriminant_index.
Qed.
