(* ===== verification/Float64.v ===== *)
(** * IEEE 754 binary64 arithmetic on bit patterns

    The operators of Rust's [f64] that the mathematics and random packages use, on the bit
    patterns by which [Value] carries floats.  The rounding is that of the Standard Library's
    specification of binary64 ([SpecFloat]), to nearest, ties to even.  A not-a-number is
    written with the quiet pattern, its payload is not specified by the language.

    The functions of the platform's mathematical library are the class [Libm]. *)

From S2P Require Import Prelude Object Value.
From Stdlib Require Import Floats.SpecFloat.

Definition of_bits (b : f64) : spec_float :=
  let s := Z.testbit b 63 in
  let e := Z.shiftr b 52 mod 2 ^ 11 in
  let m := b mod 2 ^ 52 in
  if e =? 0 then match m with Zpos p => S754_finite s p (-1074) | _ => S754_zero s end
  else if e =? 2047 then match m with Zpos _ => S754_nan | _ => S754_infinity s end
  else match m + 2 ^ 52 with Zpos p => S754_finite s p (e - 1075) | _ => S754_nan end.

Definition sign_bit (s : bool) : Z := if s then 2 ^ 63 else 0.

Definition to_bits (x : spec_float) : f64 :=
  match x with
  | S754_zero s => sign_bit s
  | S754_infinity s => sign_bit s + 2047 * 2 ^ 52
  | S754_nan => 4095 * 2 ^ 51
  | S754_finite s m e =>
      sign_bit s + (if Zpos m <? 2 ^ 52 then Zpos m else (e + 1075) * 2 ^ 52 + (Zpos m - 2 ^ 52))
  end.

(** [mul_add]: the product and the sum are exact, one rounding at the end. *)
Definition SFfma (x y z : spec_float) : spec_float :=
  match x, y, z with
  | S754_nan, _, _ | _, S754_nan, _ | _, _, S754_nan => S754_nan
  | S754_finite sx mx ex, S754_finite sy my ey, S754_finite sz mz ez =>
      let e := Z.min (ex + ey) ez in
      binary_normalize 53 1024
        (cond_Zopp (xorb sx sy) (Z.shiftl (Zpos mx * Zpos my) (ex + ey - e)) + cond_Zopp sz (Z.shiftl (Zpos mz) (ez - e))) e false
  | S754_finite _ _ _, S754_finite _ _ _, S754_infinity _ => z
  | _, _, _ => SFadd 53 1024 (SFmul 53 1024 x y) z
  end.

Definition fadd (a b : f64) : f64 := to_bits (SFadd 53 1024 (of_bits a) (of_bits b)).
Definition fsub (a b : f64) : f64 := to_bits (SFsub 53 1024 (of_bits a) (of_bits b)).
Definition fmul (a b : f64) : f64 := to_bits (SFmul 53 1024 (of_bits a) (of_bits b)).
Definition fdiv (a b : f64) : f64 := to_bits (SFdiv 53 1024 (of_bits a) (of_bits b)).
Definition fsqrt (a : f64) : f64 := to_bits (SFsqrt 53 1024 (of_bits a)).
Definition fneg (a : f64) : f64 := to_bits (SFopp (of_bits a)).
Definition fabs (a : f64) : f64 := to_bits (SFabs (of_bits a)).
Definition mul_add (a b c : f64) : f64 := to_bits (SFfma (of_bits a) (of_bits b) (of_bits c)).

(** [==], [<], [<=] and their mirror images; all false on a not-a-number. *)
Definition feqb (a b : f64) : bool := SFeqb (of_bits a) (of_bits b).
Definition fltb (a b : f64) : bool := SFltb (of_bits a) (of_bits b).
Definition fleb (a b : f64) : bool := SFleb (of_bits a) (of_bits b).

Definition is_nan (a : f64) : bool := match of_bits a with S754_nan => true | _ => false end.
Definition is_infinite (a : f64) : bool := match of_bits a with S754_infinity _ => true | _ => false end.
Definition is_finite (a : f64) : bool := negb (is_nan a) && negb (is_infinite a).

(** [f64::max] and [f64::min]: a not-a-number yields to the other argument. *)
Definition fmax (a b : f64) : f64 := if is_nan a then b else if is_nan b then a else if fltb a b then b else a.
Definition fmin (a b : f64) : f64 := if is_nan a then b else if is_nan b then a else if fltb b a then b else a.

(** [f64::signum]. *)
Definition one : f64 := 0x3ff0000000000000.
Definition fzero : f64 := 0.
Definition signum (a : f64) : f64 := if is_nan a then a else if Z.testbit a 63 then fneg one else one.

(** [z as f64]. *)
Definition f64_of_int (z : Z) : f64 := to_bits (binary_normalize 53 1024 z 0 false).

Class Libm := {
  libm_exp : f64 -> f64;
  libm_ln : f64 -> f64;
  libm_cos : f64 -> f64;
}.

(** ** The comparison *)

Lemma SFcompare_swap x y : SFcompare y x = CompOpp <$> SFcompare x y.
Proof.
  assert (forall m n, Pos.compare_cont Eq n m = CompOpp (Pos.compare_cont Eq m n)) as Hp.
  { intros m n. change (Pos.compare n m = CompOpp (Pos.compare m n)). apply Pos.compare_antisym. }
  destruct x as [[]|[]| |[] mx ex], y as [[]|[]| |[] my ey]; try done; cbn;
    rewrite (Z.compare_antisym ex ey); destruct (ex ?= ey) eqn:E; try done; cbn; by rewrite Hp.
Qed.

Lemma SFcompare_nan x y : SFcompare x y = None <-> x = S754_nan \/ y = S754_nan.
Proof. destruct x as [[]|[]| |[] ? ?], y as [[]|[]| |[] ? ?]; cbn; naive_solver. Qed.

Lemma is_nan_true a : is_nan a = true <-> of_bits a = S754_nan.
Proof. unfold is_nan. by destruct (of_bits a). Qed.

Lemma is_nan_false a : is_nan a = false <-> of_bits a <> S754_nan.
Proof. unfold is_nan. by destruct (of_bits a). Qed.

(** Numbers are totally ordered. *)
Lemma fltb_fleb a b : is_nan a = false -> is_nan b = false -> fltb a b = negb (fleb b a).
Proof.
  rewrite !is_nan_false. intros Ha Hb. unfold fltb, fleb, SFltb, SFleb.
  rewrite (SFcompare_swap (of_bits a)). pose proof (SFcompare_nan (of_bits a) (of_bits b)) as Hn.
  destruct (SFcompare (of_bits a) (of_bits b)) as [[]|] eqn:E; try done.
  by destruct (proj1 Hn eq_refl).
Qed.

Lemma fleb_refl a : is_nan a = false -> fleb a a = true.
Proof.
  rewrite is_nan_false. intros Ha. unfold fleb, SFleb.
  pose proof (SFcompare_swap (of_bits a) (of_bits a)) as Hs. pose proof (SFcompare_nan (of_bits a) (of_bits a)) as Hn.
  destruct (SFcompare (of_bits a) (of_bits a)) as [[]|] eqn:E; try done. by destruct (proj1 Hn eq_refl).
Qed.

Lemma fltb_nan a b : fltb a b = true -> is_nan a = false /\ is_nan b = false.
Proof.
  unfold fltb, SFltb, is_nan. destruct (of_bits a) as [[]|[]| |[] ? ?], (of_bits b) as [[]|[]| |[] ? ?]; done.
Qed.

(** The larger of two numbers is at least both. *)
Lemma fmax_spec a b : is_nan b = false ->
  is_nan (fmax a b) = false /\ fleb b (fmax a b) = true /\ (fmax a b = a \/ fmax a b = b) /\
  (is_nan a = false -> fleb b a = true -> fmax a b = a).
Proof.
  intros Hb. unfold fmax. destruct (is_nan a) eqn:Ha.
  - split_and!; [done|by apply fleb_refl|by right|done].
  - rewrite Hb, fltb_fleb by done. destruct (fleb b a) eqn:E; cbn.
    + split_and!; [done..|by left|done].
    + split_and!; [done|by apply fleb_refl|by right|done].
Qed.

Lemma fmin_spec a b : is_nan a = false -> is_nan b = false ->
  is_nan (fmin a b) = false /\ fleb (fmin a b) b = true /\ (fmin a b = a \/ fmin a b = b) /\
  (fleb a b = true -> fmin a b = a).
Proof.
  intros Ha Hb. unfold fmin. rewrite Ha, Hb, fltb_fleb by done.
  destruct (fleb a b) eqn:E; cbn.
  - split_and!; [done..|by left|done].
  - split_and!; [done|by apply fleb_refl|by right|done].
Qed.
