(* ===== verification/Random.v ===== *)
(** * Random numbers ([src/src/random.rs])

    The table of [Random] values and the generator of the module, kept by each thread.
    [random] is the handle stored in the argument, [None] for a value of another class.
    Seeds of the operating system are arguments. *)

From S2P Require Import Prelude Object Value Heap StdErrors Float64.

Definition RAND_MAX : Z := 2147483647.
Definition MAX_RANDOM_BYTES : Z := 16 * 1024 * 1024.

(** [RAND_MAX.count_ones()]. *)
Fixpoint count_ones (p : positive) : Z :=
  match p with xH => 1 | xO p => count_ones p | xI p => 1 + count_ones p end.
Definition RAND_BITS : Z := match RAND_MAX with Zpos p => count_ones p | _ => 0 end.

Record RandomEntry : Type := mk_random { state : Z; refs : Z }.

(** [RANDOMS], [NEXT_RANDOM_HANDLE], [MODULE_INITIALIZED], [MODULE_STATE] and the error table. *)
Record randoms : Type := mk_randoms {
  entries : gmap Z RandomEntry;
  next_random : Z;
  module_initialized : bool;
  module_state : Z;
  random_world : world RandomErrorKind unit;
}.

Definition set_entries (m : gmap Z RandomEntry) (st : randoms) : randoms :=
  mk_randoms m (next_random st) (module_initialized st) (module_state st) (random_world st).
Definition set_module (s : Z) (st : randoms) : randoms :=
  mk_randoms (entries st) (next_random st) (module_initialized st) s (random_world st).

Definition lcg_next (s : Z) : Z := as_u64 (as_u64 (s * 6364136223846793005) + 1442695040888963407).

(** The new state and the output. *)
Definition splitmix_next (s : Z) : Z * Z :=
  let s := as_u64 (s + 0x9e3779b97f4a7c15) in
  let v := s in
  let v := as_u64 (Z.lxor v (Z.shiftr v 30) * 0xbf58476d1ce4e5b9) in
  let v := as_u64 (Z.lxor v (Z.shiftr v 27) * 0x94d049bb133111eb) in
  (s, Z.lxor v (Z.shiftr v 31)).

(** [checked_add(1).unwrap_or(1)]. *)
Definition next_random_handle (st : randoms) : Z * randoms :=
  let handle := next_random st in
  (handle, mk_randoms (entries st) (if handle =? i64_max then 1 else handle + 1) (module_initialized st) (module_state st) (random_world st)).

(** [make_random]: [allocated] is false when [random_object] answers null. *)
Definition make_random (seed : Z) (allocated : bool) (st : randoms) : option Z * randoms :=
  let '(handle, st) := next_random_handle st in
  let st := set_entries (<[handle := mk_random seed 1]> (entries st)) st in
  if allocated then (Some handle, st) else (None, set_entries (delete handle (entries st)) st).

Definition random_handle (random : option Z) (st : randoms) : option Z :=
  match random with
  | None => None
  | Some handle => match entries st !! handle with Some _ => Some handle | None => None end
  end.

Definition release_random (handle : Z) (st : randoms) : randoms :=
  match entries st !! handle with
  | None => st
  | Some e =>
      let e := mk_random (state e) (Z.max 0 (refs e - 1)) in
      let m := <[handle := e]> (entries st) in
      set_entries (if refs e =? 0 then delete handle m else m) st
  end.

(** The handle the copy stores. *)
Definition copy_random (handle : Z) (st : randoms) : Z * randoms :=
  match entries st !! handle with
  | Some e => (handle, set_entries (<[handle := mk_random (state e) (refs e + 1)]> (entries st)) st)
  | None => (0, st)
  end.

Definition drop_random (handle : Z) (st : randoms) : randoms := release_random handle st.

Definition mux_random_seeded (seed : Z) : bool -> randoms -> option Z * randoms := make_random (as_u64 seed).

(** [u64::rotate_left(17)]. *)
Definition rotate_left_17 (z : Z) : Z := as_u64 (Z.lor (Z.shiftl z 17) (Z.shiftr z 47)).

(** [entropy] is what [getrandom::fill] gave, [nanos] and [pid] the fallback. *)
Definition mux_random_system (entropy : option Z) (nanos pid : Z) : bool -> randoms -> option Z * randoms :=
  make_random (match entropy with Some seed => seed | None => Z.lxor (as_u64 nanos) (rotate_left_17 pid) end).

Definition random_next (handle : Z) (st : randoms) : Z * randoms :=
  match entries st !! handle with
  | None => (0, st)
  | Some e =>
      let '(s, v) := splitmix_next (state e) in
      (v, set_entries (<[handle := mk_random s (refs e)]> (entries st)) st)
  end.

Definition mux_random_next_int (random : option Z) (st : randoms) : Z * randoms :=
  match random_handle random st with
  | None => (0, st)
  | Some handle => let '(v, st) := random_next handle st in (as_i64 v, st)
  end.

(** [domain - (domain % span)] with [domain = 1 << 64]. *)
Definition range_limit (span : Z) : Z := 2 ^ 64 - 2 ^ 64 mod span.

(** The rejection loop. *)
Fixpoint next_range_loop (fuel : nat) (handle span limit : Z) (st : randoms) : option (Z * randoms) :=
  match fuel with
  | O => None
  | S fuel =>
      let '(candidate, st) := random_next handle st in
      if candidate <? limit then Some (candidate mod span, st) else next_range_loop fuel handle span limit st
  end.

Definition mux_random_next_range (fuel : nat) (random : option Z) (min max : Z) (st : randoms) : option (Z * randoms) :=
  if max <=? min then Some (min, st)
  else
    match random_handle random st with
    | None => Some (min, st)
    | Some handle =>
        let span := max - min in
        match next_range_loop fuel handle span (range_limit span) st with
        | None => None
        | Some (v, st) => Some (as_i64 (min + v), st)
        end
    end.

(** [(v >> 11) as f64 / ((1u64 << 53) as f64)]. *)
Definition unit_float (v : Z) : f64 := fdiv (f64_of_int (Z.shiftr v 11)) (f64_of_int (2 ^ 53)).

Definition mux_random_next_float (random : option Z) (st : randoms) : f64 * randoms :=
  match random_handle random st with
  | None => (fzero, st)
  | Some handle => let '(v, st) := random_next handle st in (unit_float v, st)
  end.

Definition mux_random_next_bool (random : option Z) (st : randoms) : bool * randoms :=
  match random_handle random st with
  | None => (false, st)
  | Some handle => let '(v, st) := random_next handle st in (Z.land v 1 =? 0, st)
  end.

Definition random_err (e : string) (a : alloc_answer) (st : randoms) : value * randoms :=
  let '(v, w) := random_result_err e a (random_world st) in
  (v, mk_randoms (entries st) (next_random st) (module_initialized st) (module_state st) w).

(** [u64::to_le_bytes]. *)
Definition to_le_bytes (v : Z) : list Z := (fun i => Z.shiftr v (8 * Z.of_nat i) mod 2 ^ 8) <$> seq 0 8.

(** [while bytes.len() < length]: eight octets in every round. *)
Fixpoint bytes_loop {S : Type} (next : S -> Z * S) (fuel : nat) (length : nat) (bytes : list Z) (s : S) : list Z * S :=
  match fuel with
  | O => (bytes, s)
  | Datatypes.S fuel =>
      if (List.length bytes <? length)%nat then
        let '(v, s) := next s in bytes_loop next fuel length (bytes ++ to_le_bytes v) s
      else (bytes, s)
  end.

Definition mux_random_bytes (random : option Z) (length : Z) (a : alloc_answer) (st : randoms) : value * randoms :=
  if negb (in_range 0 MAX_RANDOM_BYTES length) then random_err "length must be between 0 and 16 MiB" a st
  else
    match random_handle random st with
    | None => random_err "invalid Random value" a st
    | Some handle =>
        let n := Z.to_nat length in
        let '(bytes, st) := bytes_loop (random_next handle) n n [] st in
        (VResult (Ok (VBytes (take n bytes))), st)
    end.

(** ** The generator of the module *)

Definition mux_rand_init (seed : Z) (st : randoms) : randoms :=
  mk_randoms (entries st) (next_random st) true (as_u64 seed) (random_world st).

(** [seed] is the operating system's, or the seconds of the clock. *)
Definition ensure_initialized (seed : Z) (st : randoms) : randoms :=
  if module_initialized st then st
  else mk_randoms (entries st) (next_random st) true seed (random_world st).

Definition mux_rand_int (seed : Z) (st : randoms) : Z * randoms :=
  let st := ensure_initialized seed st in
  let st := set_module (lcg_next (module_state st)) st in
  (Z.land (as_i64 (Z.shiftr (module_state st) 33)) RAND_MAX, st).

Definition mux_rand_range (seed min max : Z) (st : randoms) : Z * randoms :=
  if max <=? min then (min, st)
  else
    match try_from_range 0 (2 ^ 128 - 1) (max - min) with
    | None => (min, st)
    | Some range_size =>
        let '(r, st) := mux_rand_int seed st in
        let scaled := Z.shiftr (as_u64 r * range_size) RAND_BITS in
        match try_from_range (- 2 ^ 127) (2 ^ 127 - 1) scaled with
        | None => (min, st)
        | Some scaled =>
            match try_from_range i64_min i64_max (min + scaled) with
            | Some v => (v, st)
            | None => (min, st)
            end
        end
    end.

(** [r / ((RAND_MAX as f64) + 1.0)]. *)
Definition mux_rand_float (seed : Z) (st : randoms) : f64 * randoms :=
  let '(r, st) := mux_rand_int seed st in (fdiv (f64_of_int r) (fadd (f64_of_int RAND_MAX) one), st).

Definition mux_rand_bool (seed : Z) (st : randoms) : bool * randoms :=
  let '(r, st) := mux_rand_int seed st in (Z.rem r 2 =? 0, st).

Definition mux_rand_bytes (seed length : Z) (a : alloc_answer) (st : randoms) : value * randoms :=
  if length <? 0 then random_err "length must not be negative" a st
  else if MAX_RANDOM_BYTES <? length then random_err "length exceeds the 16 MiB limit" a st
  else
    match try_from_range 0 usize_max length with
    | None => random_err "length is too large" a st
    | Some length =>
        let st := ensure_initialized seed st in
        let n := Z.to_nat length in
        let '(bytes, s) := bytes_loop (fun s => (lcg_next s, lcg_next s)) n n [] (module_state st) in
        (VResult (Ok (VBytes (take n bytes))), set_module s st)
    end.

(** ** Distributions *)

Definition result_float (r : result f64 string) (a : alloc_answer) (st : randoms) : value * randoms :=
  match r with Ok f => (VResult (Ok (VFloat f)), st) | Err e => random_err e a st end.

(** [while u == 0.0]: draw again; [draw] is a call of the generator. *)
Fixpoint nonzero_draw (fuel : nat) (draw : randoms -> f64 * randoms) (st : randoms) : option (f64 * randoms) :=
  match fuel with
  | O => None
  | S fuel => let '(u, st) := draw st in if feqb u fzero then nonzero_draw fuel draw st else Some (u, st)
  end.

Definition pi : f64 := 0x400921fb54442d18.
Definition ftwo : f64 := 0x4000000000000000.

Section Distributions.
Context `{Libm}.

(** The checks and the transform shared by [mux_random_normal] and [mux_rand_normal]. *)
Definition normal_checks (mean standard_deviation : f64) : option (result f64 string) :=
  if negb (is_finite mean) then Some (Err "normal mean must be finite")
  else if negb (is_finite standard_deviation) || fltb standard_deviation fzero
  then Some (Err "standard deviation must be finite and non-negative")
  else if feqb standard_deviation fzero then Some (Ok mean)
  else None.

Definition box_muller (mean standard_deviation u1 u2 : f64) : f64 :=
  let radius := fsqrt (fmul (fneg ftwo) (libm_ln u1)) in
  let angle := fmul (fmul ftwo pi) u2 in
  fadd mean (fmul (fmul standard_deviation radius) (libm_cos angle)).

Definition normal_draws (fuel : nat) (draw : randoms -> f64 * randoms) (mean standard_deviation : f64) (a : alloc_answer)
    (st : randoms) : option (value * randoms) :=
  match nonzero_draw fuel draw st with
  | None => None
  | Some (u1, st) => let '(u2, st) := draw st in Some (result_float (Ok (box_muller mean standard_deviation u1 u2)) a st)
  end.

Definition draw_unit (handle : Z) (st : randoms) : f64 * randoms :=
  let '(v, st) := random_next handle st in (unit_float v, st).

Definition mux_random_normal (fuel : nat) (random : option Z) (mean standard_deviation : f64) (a : alloc_answer) (st : randoms) : option (value * randoms) :=
  match normal_checks mean standard_deviation with
  | Some r => Some (result_float r a st)
  | None =>
      match random_handle random st with
      | None => Some (result_float (Err "invalid Random value") a st)
      | Some handle => normal_draws fuel (draw_unit handle) mean standard_deviation a st
      end
  end.

Definition mux_rand_normal (fuel : nat) (seed : Z) (mean standard_deviation : f64) (a : alloc_answer) (st : randoms) : option (value * randoms) :=
  match normal_checks mean standard_deviation with
  | Some r => Some (result_float r a st)
  | None => normal_draws fuel (mux_rand_float seed) mean standard_deviation a st
  end.

Definition exponential_draw (fuel : nat) (draw : randoms -> f64 * randoms) (rate : f64) (a : alloc_answer) (st : randoms) : option (value * randoms) :=
  match nonzero_draw fuel draw st with
  | None => None
  | Some (sample, st) => Some (result_float (Ok (fdiv (fneg (libm_ln sample)) rate)) a st)
  end.

Definition mux_random_exponential (fuel : nat) (random : option Z) (rate : f64) (a : alloc_answer) (st : randoms) : option (value * randoms) :=
  if negb (is_finite rate) || fleb rate fzero then Some (result_float (Err "exponential rate must be finite and positive") a st)
  else
    match random_handle random st with
    | None => Some (result_float (Err "invalid Random value") a st)
    | Some handle => exponential_draw fuel (draw_unit handle) rate a st
    end.

Definition mux_rand_exponential (fuel : nat) (seed : Z) (rate : f64) (a : alloc_answer) (st : randoms) : option (value * randoms) :=
  if negb (is_finite rate) || fleb rate fzero then Some (result_float (Err "exponential rate must be finite and positive") a st)
  else exponential_draw fuel (mux_rand_float seed) rate a st.

End Distributions.

(** ** Selections from lists *)

Definition list_items (v : option value) : option (list value) :=
  match v with Some (VList items) => Some items | _ => None end.

Definition mux_random_choose (seed : Z) (items : option value) (st : randoms) : value * randoms :=
  match list_items items with
  | None => (VOptional None, st)
  | Some [] => (VOptional None, st)
  | Some items =>
      let '(index, st) := mux_rand_range seed 0 (Z.of_nat (length items)) st in
      (VOptional (items !! Z.to_nat (as_u64 index)), st)
  end.

(** [slice::swap], which panics out of range. *)
Definition swap {A} (i j : nat) (l : list A) : option (list A) :=
  match l !! i, l !! j with
  | Some a, Some b => Some (<[j := a]> (<[i := b]> l))
  | _, _ => None
  end.

(** [while index > 1 { index -= 1; .. }], from [index = count + 1] on. *)
Fixpoint shuffle_loop (count : nat) (seed : Z) (items : list value) (st : randoms) : option (list value * randoms) :=
  match count with
  | O => Some (items, st)
  | S rest =>
      let '(other, st) := mux_rand_range seed 0 (Z.of_nat (count + 1)) st in
      match swap count (Z.to_nat (as_u64 other)) items with
      | None => None
      | Some items => shuffle_loop rest seed items st
      end
  end.

(** The value behind the pointer after the call; [None] for a panic. *)
Definition mux_random_shuffle (seed : Z) (items : option value) (st : randoms) : option (option value * randoms) :=
  match items with
  | Some (VList items) =>
      match shuffle_loop (length items - 1) seed items st with
      | None => None
      | Some (items, st) => Some (Some (VList items), st)
      end
  | v => Some (v, st)
  end.

(** [while remaining > target]. *)
Fixpoint sample_loop (remaining target : nat) (seed : Z) (indexes : list nat) (st : randoms) : option (list nat * randoms) :=
  if (target <? remaining)%nat then
    match remaining with
    | O => Some (indexes, st)
    | S rest =>
        let '(choice, st) := mux_rand_range seed 0 (Z.of_nat remaining) st in
        match swap (Z.to_nat (as_u64 choice)) rest indexes with
        | None => None
        | Some indexes => sample_loop rest target seed indexes st
        end
    end
  else Some (indexes, st).

Definition mux_random_sample (seed : Z) (items : option value) (count : Z) (a : alloc_answer) (st : randoms) : option (value * randoms) :=
  match list_items items with
  | None => Some (random_err "items must be a list" a st)
  | Some items =>
      if (count <? 0) || (Z.of_nat (length items) <? count)
      then Some (random_err "sample count must be between 0 and the list length" a st)
      else
        let target := Z.to_nat count in
        match sample_loop (length items) target seed (seq 0 (length items)) st with
        | None => None
        | Some (indexes, st) => Some (VResult (Ok (VList (omap (fun i => items !! i) (take target indexes)))), st)
        end
  end.

(** The loop over the weights: the total and the numbers. *)
Fixpoint weights_loop (weights : list value) (total : f64) (numeric : list f64) : result (f64 * list f64) string :=
  match weights with
  | [] => Ok (total, numeric)
  | VFloat weight :: weights =>
      if negb (is_finite weight) || fltb weight fzero then Err "weights must be finite and non-negative"
      else weights_loop weights (fadd total weight) (numeric ++ [weight])
  | _ :: _ => Err "weights must contain floats"
  end.

(** The index of the first weight above the threshold that is left. *)
Fixpoint pick_loop (index : nat) (numeric : list f64) (threshold : f64) : option nat :=
  match numeric with
  | [] => None
  | weight :: numeric => if fltb threshold weight then Some index else pick_loop (S index) numeric (fsub threshold weight)
  end.

(** [items[index]] panics out of range. *)
Definition mux_random_weighted_choice (seed : Z) (items weights : option value) (a : alloc_answer) (st : randoms) : option (value * randoms) :=
  match list_items items with
  | None => Some (random_err "items must be a list" a st)
  | Some items =>
      match list_items weights with
      | None => Some (random_err "weights must be a list" a st)
      | Some weights =>
          if (length items =? 0)%nat || negb (length items =? length weights)%nat
          then Some (random_err "items and weights must have the same non-zero length" a st)
          else
            match weights_loop weights fzero [] with
            | Err e => Some (random_err e a st)
            | Ok (total, numeric) =>
                if negb (is_finite total) || fleb total fzero
                then Some (random_err "weights must have a finite, positive total" a st)
                else
                  let '(r, st) := mux_rand_float seed st in
                  let index := default (length items - 1)%nat (pick_loop 0 numeric (fmul r total)) in
                  match items !! index with
                  | Some v => Some (VResult (Ok v), st)
                  | None => None
                  end
            end
      end
  end.

(** * Properties of the random number package

    Ranges are exact, rejection sampling ends and is unbiased, shuffling permutes, samples are
    drawn without replacement, and the table of generators counts its references. *)

Implicit Types st : randoms.

(** ** The rejection loop *)

(** The increment of SplitMix64 and its inverse modulo 2^64. *)
Definition gamma : Z := 0x9e3779b97f4a7c15.
Definition gamma_inverse : Z := 0xf1de83e19937733d.

Lemma gamma_unit : gamma * gamma_inverse mod 2 ^ 64 = 1.
Proof. vm_compute. reflexivity. Qed.

Lemma as_u64_add a b : as_u64 (as_u64 a + b) = as_u64 (a + b).
Proof. apply Zplus_mod_idemp_l. Qed.

Lemma random_next_some handle e st : entries st !! handle = Some e ->
  random_next handle st =
    ((splitmix_next (state e)).2, set_entries (<[handle := mk_random (as_u64 (state e + gamma)) (refs e)]> (entries st)) st).
Proof. intros E. unfold random_next. by rewrite E. Qed.

(** The state that is 0 gives the output 0, which no limit rejects. *)
Lemma splitmix_zero s : as_u64 (s + gamma) = 0 -> (splitmix_next s).2 = 0.
Proof. intros E. unfold splitmix_next. fold gamma. rewrite E. reflexivity. Qed.

Lemma next_range_loop_halts n : forall handle span limit e st, 0 < limit -> entries st !! handle = Some e ->
  as_u64 (state e + Z.of_nat (S n) * gamma) = 0 -> is_Some (next_range_loop (S n) handle span limit st).
Proof.
  induction n as [|n IH]; intros handle span limit e st Hl He Hz; cbn [next_range_loop]; rewrite (random_next_some _ e) by done.
  - rewrite splitmix_zero by (by rewrite <- Hz; f_equal; lia). rewrite (proj2 (Z.ltb_lt _ _)) by done. eauto.
  - destruct (_ <? limit); [eauto|]. eapply IH; [done|cbn [entries set_entries]; by apply lookup_insert_eq|].
    cbn [state]. rewrite as_u64_add, <- Hz. f_equal. lia.
Qed.

(** Some number of increments, at most 2^64, reaches any state. *)
Lemma reach_state s t : 0 <= t < 2 ^ 64 -> exists n, Z.of_nat (S n) <= 2 ^ 64 /\ as_u64 (s + Z.of_nat (S n) * gamma) = t.
Proof.
  intros Ht. set (k := ((t - s) * gamma_inverse) mod 2 ^ 64).
  assert (Hk : 0 <= k < 2 ^ 64) by (apply Z.mod_pos_bound; lia).
  assert (Hz : (s + k * gamma) mod 2 ^ 64 = t).
  { rewrite Z.add_mod, (Z.mul_mod k) by lia. unfold k. rewrite Zmod_mod, <- Z.mul_mod by lia.
    rewrite <- Z.mul_assoc, (Z.mul_comm gamma_inverse), (Z.mul_mod (t - s)), gamma_unit, Z.mul_1_r by lia.
    rewrite !Zmod_mod, <- Z.add_mod by lia. replace (s + (t - s)) with t by lia. by apply Z.mod_small. }
  destruct (decide (k = 0)) as [E|Hk0].
  - exists (Z.to_nat (2 ^ 64 - 1)). rewrite Nat2Z.inj_succ, Z2Nat.id by lia. split; [lia|].
    rewrite E in Hz. unfold as_u64. replace (Z.succ (2 ^ 64 - 1)) with (2 ^ 64) by lia.
    rewrite Z.mul_comm, Z_mod_plus_full. by rewrite Z.mul_0_l, Z.add_0_r in Hz.
  - exists (Z.to_nat (k - 1)). rewrite Nat2Z.inj_succ, Z2Nat.id by lia. split; [lia|].
    unfold as_u64. by replace (Z.succ (k - 1)) with k by lia.
Qed.

(** The draws of a distribution end as well: the state 1 gives a positive float. *)
Lemma nonzero_draw_halts n : forall handle e st, entries st !! handle = Some e ->
  as_u64 (state e + Z.of_nat (S n) * gamma) = 1 -> is_Some (nonzero_draw (S n) (draw_unit handle) st).
Proof.
  induction n as [|n IH]; intros handle e st He Hz; cbn [nonzero_draw]; unfold draw_unit at 1; rewrite (random_next_some _ e) by done.
  - assert (feqb (unit_float (splitmix_next (state e)).2) fzero = false) as ->; [|eauto].
    unfold splitmix_next. fold gamma. replace (as_u64 (state e + gamma)) with 1 by (rewrite <- Hz; f_equal; lia).
    vm_compute. reflexivity.
  - destruct (feqb _ fzero); [|eauto]. eapply IH; [cbn [entries set_entries]; by apply lookup_insert_eq|].
    cbn [state]. rewrite as_u64_add, <- Hz. f_equal. lia.
Qed.

Lemma distributions_end `{Libm} handle mean standard_deviation rate a st : is_Some (entries st !! handle) ->
  exists fuel, Z.of_nat fuel <= 2 ^ 64 /\
    is_Some (mux_random_normal fuel (Some handle) mean standard_deviation a st) /\
    is_Some (mux_random_exponential fuel (Some handle) rate a st).
Proof.
  intros [e He]. destruct (reach_state (state e) 1 ltac:(lia)) as (n & Hn & Hz). exists (S n). split; [done|].
  destruct (nonzero_draw_halts n handle e st He Hz) as [[u st'] Hd].
  unfold mux_random_normal, mux_random_exponential, normal_draws, exponential_draw, random_handle. rewrite He, Hd. split.
  - destruct (normal_checks mean standard_deviation); [eauto|]. destruct (draw_unit handle st'). eauto.
  - destruct (_ || _); eauto.
Qed.

(** ** The draws of a generator *)

(** The state after [n] outputs, and the output that follows them. *)
Fixpoint after_draws (n : nat) (handle : Z) (st : randoms) : randoms :=
  match n with O => st | S n => after_draws n handle (random_next handle st).2 end.
Definition draw (n : nat) (handle : Z) (st : randoms) : Z := (random_next handle (after_draws n handle st)).1.

(** The loop answers with the first draw below the limit. *)
Lemma next_range_loop_iff fuel : forall handle span limit st r st',
  next_range_loop fuel handle span limit st = Some (r, st') <->
  exists k, (k < fuel)%nat /\ (forall i, (i < k)%nat -> limit <= draw i handle st) /\ draw k handle st < limit /\
    r = draw k handle st mod span /\ st' = after_draws (S k) handle st.
Proof.
  induction fuel as [|fuel IH]; intros handle span limit st r st'; cbn [next_range_loop].
  { split; [done|]. intros (k & Hk & _). lia. }
  assert (draw 0 handle st = (random_next handle st).1) as E0 by done.
  assert (forall i, draw (S i) handle st = draw i handle (random_next handle st).2) as ES by done.
  destruct (random_next handle st) as [c st1] eqn:E. cbn [fst snd] in *. destruct (Z.ltb_spec c limit) as [Hlt|Hge].
  - split.
    + intros [= <- <-]. exists O. rewrite E0. cbn [after_draws]. rewrite E. split_and!; (done || lia).
    + intros (k & _ & Hrej & _ & -> & ->). destruct k as [|k].
      * rewrite E0. cbn [after_draws]. by rewrite E.
      * specialize (Hrej O ltac:(lia)). rewrite E0 in Hrej. lia.
  - rewrite IH. split.
    + intros (k & Hk & Hrej & Hacc & -> & ->). exists (S k). rewrite ES. split_and!; [lia| |done|done|cbn [after_draws]; by rewrite E].
      intros [|i] Hi; [by rewrite E0|]. rewrite ES. apply Hrej. lia.
    + intros (k & Hk & Hrej & Hacc & -> & ->). destruct k as [|k]; [rewrite E0 in Hacc; lia|].
      exists k. rewrite ES in Hacc |- *. split_and!; [lia| |done|done|cbn [after_draws]; by rewrite E].
      intros i Hi. rewrite <- ES. apply Hrej. lia.
Qed.

(** Different states give different outputs: each step of the mixing is invertible. *)
Lemma xorshift_injective k x y : 0 < k -> 0 <= x -> 0 <= y -> Z.lxor x (Z.shiftr x k) = Z.lxor y (Z.shiftr y k) -> x = y.
Proof.
  intros Hk Hx Hy E. assert (Z.lxor x y = Z.shiftr (Z.lxor x y) k) as Hd.
  { rewrite Z.shiftr_lxor. apply Z.bits_inj. intros n. apply (f_equal (fun z => Z.testbit z n)) in E. rewrite !Z.lxor_spec in *.
    by destruct (Z.testbit x n), (Z.testbit y n), (Z.testbit (Z.shiftr x k) n), (Z.testbit (Z.shiftr y k) n). }
  apply Z.lxor_eq. assert (0 <= Z.lxor x y) as H0 by (by apply Z.lxor_nonneg).
  rewrite Z.shiftr_div_pow2 in Hd by lia. pose proof (Z.pow_le_mono_r 2 1 k ltac:(lia) ltac:(lia)).
  pose proof (Z.div_le_compat_l (Z.lxor x y) 2 (2 ^ k) H0 ltac:(lia)).
  pose proof (Z.div_mod (Z.lxor x y) 2 ltac:(lia)). pose proof (Z.mod_pos_bound (Z.lxor x y) 2 ltac:(lia)). lia.
Qed.

Lemma odd_multiple_injective m inverse x y : m * inverse mod 2 ^ 64 = 1 -> 0 <= x < 2 ^ 64 -> 0 <= y < 2 ^ 64 ->
  as_u64 (x * m) = as_u64 (y * m) -> x = y.
Proof.
  intros Hm Hx Hy E. unfold as_u64 in E. apply (f_equal (fun z => (z * inverse) mod 2 ^ 64)) in E.
  rewrite !Z.mul_mod_idemp_l, <- !Z.mul_assoc, <- !(Z.mul_mod_idemp_r _ (m * inverse)), Hm, !Z.mul_1_r, !Z.mod_small in E by lia. done.
Qed.

Lemma lxor_u64 x y : 0 <= x < 2 ^ 64 -> 0 <= y < 2 ^ 64 -> 0 <= Z.lxor x y < 2 ^ 64.
Proof.
  intros Hx Hy. assert (0 <= Z.lxor x y) as H0 by (apply Z.lxor_nonneg; lia). split; [done|].
  destruct (decide (Z.lxor x y = 0)) as [->|Hne]; [lia|]. apply Z.log2_lt_pow2; [lia|].
  pose proof (Z.log2_lxor x y ltac:(lia) ltac:(lia)).
  assert (forall z, 0 <= z < 2 ^ 64 -> Z.log2 z < 64) as Hlog.
  { intros z Hz. destruct (decide (z = 0)) as [->|]; [done|]. apply Z.log2_lt_pow2; lia. }
  pose proof (Hlog x Hx). pose proof (Hlog y Hy). lia.
Qed.

Lemma xorshift_u64 k x : 0 <= k -> 0 <= x < 2 ^ 64 -> 0 <= Z.lxor x (Z.shiftr x k) < 2 ^ 64.
Proof.
  intros Hk Hx. apply lxor_u64; [done|]. rewrite Z.shiftr_div_pow2 by done.
  pose proof (Z.pow_pos_nonneg 2 k ltac:(lia) Hk). split; [apply Z.div_pos; lia|].
  apply (Z.le_lt_trans _ x); [apply Z.div_le_upper_bound; nia|lia].
Qed.

Lemma as_u64_u64 z : 0 <= as_u64 z < 2 ^ 64.
Proof. apply Z.mod_pos_bound. lia. Qed.

Lemma splitmix_u64 s : 0 <= (splitmix_next s).2 < 2 ^ 64.
Proof. unfold splitmix_next. cbn [snd]. apply xorshift_u64; [lia|apply as_u64_u64]. Qed.

Lemma splitmix_injective s s' : 0 <= s < 2 ^ 64 -> 0 <= s' < 2 ^ 64 -> (splitmix_next s).2 = (splitmix_next s').2 -> s = s'.
Proof.
  intros Hs Hs' E. unfold splitmix_next in E. cbn [snd] in E. fold gamma in E.
  apply xorshift_injective in E; [|lia|apply as_u64_u64..].
  apply (odd_multiple_injective _ 0x319642b2d24d8ec3) in E; [|by vm_compute|apply xorshift_u64; [lia|apply as_u64_u64]..].
  apply xorshift_injective in E; [|lia|apply as_u64_u64..].
  apply (odd_multiple_injective _ 0x96de1b173f119089) in E; [|by vm_compute|apply xorshift_u64; [lia|apply as_u64_u64]..].
  apply xorshift_injective in E; [|lia|apply as_u64_u64..].
  unfold as_u64 in E. apply (f_equal (fun z => (z - gamma) mod 2 ^ 64)) in E. rewrite !Zminus_mod_idemp_l in E.
  replace (s + gamma - gamma) with s in E by lia. replace (s' + gamma - gamma) with s' in E by lia.
  by rewrite !Z.mod_small in E by lia.
Qed.

Lemma draw_u64 n handle st : 0 <= draw n handle st < 2 ^ 64.
Proof.
  unfold draw, random_next. destruct (entries _ !! handle) as [e|]; [|cbn; lia]. pose proof (splitmix_u64 (state e)).
  by destruct (splitmix_next (state e)).
Qed.

(** The accepted candidates of a residue: as many for each as the domain holds spans. *)
Lemma range_limit_uniform span : 0 < span <= 2 ^ 64 ->
  range_limit span = 2 ^ 64 / span * span /\ 0 < range_limit span <= 2 ^ 64 /\
  forall v, 0 <= v < span -> forall c, (0 <= c < range_limit span /\ c mod span = v) <->
    exists q, 0 <= q < 2 ^ 64 / span /\ c = q * span + v.
Proof.
  intros Hs. unfold range_limit. pose proof (Z.mod_pos_bound (2 ^ 64) span ltac:(lia)) as Hm.
  pose proof (Z.div_mod (2 ^ 64) span ltac:(lia)) as Hd. assert (E : 2 ^ 64 - 2 ^ 64 mod span = (2 ^ 64 / span) * span) by lia.
  split_and!; [done|lia|lia|]. rewrite E. set (k := 2 ^ 64 / span) in *. clearbody k. intros v Hv c. split.
  - intros [Hc Hr]. exists (c / span). pose proof (Z.div_mod c span ltac:(lia)).
    split; [split; [apply Z.div_pos; lia|apply Z.div_lt_upper_bound; lia]|lia].
  - intros (q & Hq & ->). split; [nia|]. rewrite Z.add_comm, Z_mod_plus_full. by apply Z.mod_small.
Qed.

(** C34: Drawing from a range of a [Random] value ends after at most 2^64 rounds of rejection,
    stays in the half-open range and is unbiased.  The call answers [v] if and only if the
    first of the generator's successive 64-bit outputs that is below the greatest multiple
    of the span is one that maps to [v]; the outputs that map to a value of the range are
    [2^64 / span] in number, the same for each value; and different states of the generator
    give different outputs.  This holds for every range of machine integers, those wider
    than an [i64] included; a [Random] value that is not live answers the lower bound. *)
Theorem next_range_sound random min max st : is_i64 min -> is_i64 max -> min < max ->
  let span := max - min in
  let q := 2 ^ 64 / span in
  (exists fuel, Z.of_nat fuel <= 2 ^ 64 /\ is_Some (mux_random_next_range fuel random min max st)) /\
  (forall fuel v st', mux_random_next_range fuel random min max st = Some (v, st') -> min <= v < max) /\
  match random_handle random st with
  | None => forall fuel, mux_random_next_range fuel random min max st = Some (min, st)
  | Some handle => forall fuel v st', mux_random_next_range fuel random min max st = Some (v, st') <->
      exists k, (k < fuel)%nat /\ (forall i, (i < k)%nat -> q * span <= draw i handle st) /\ draw k handle st < q * span /\
        v = min + draw k handle st mod span /\ st' = after_draws (S k) handle st
  end /\
  (forall v c, min <= v < max -> 0 <= c < 2 ^ 64 ->
     (c < q * span /\ min + c mod span = v) <-> exists j, 0 <= j < q /\ c = j * span + (v - min)) /\
  (forall s s', 0 <= s < 2 ^ 64 -> 0 <= s' < 2 ^ 64 -> (splitmix_next s).2 = (splitmix_next s').2 -> s = s').
Proof.
  intros Hmin Hmax Hlt span q. destruct (range_limit_uniform span ltac:(subst span; width)) as (El & Hl & Hu). fold q in El, Hu.
  assert (0 < span) as Hspan by (subst span; lia).
  assert (forall fuel, mux_random_next_range fuel random min max st =
    match random_handle random st with
    | None => Some (min, st)
    | Some h => match next_range_loop fuel h span (range_limit span) st with None => None | Some (v, st) => Some (as_i64 (min + v), st) end
    end) as Hrun.
  { intros fuel. unfold mux_random_next_range. by rewrite (proj2 (Z.leb_gt max min)) by lia. }
  assert (forall c, as_i64 (min + c mod span) = min + c mod span) as Hfit.
  { intros c. pose proof (Z.mod_pos_bound c span Hspan). apply as_i64_small. subst span. width. }
  split_and!.
  - destruct (random_handle random st) as [h|] eqn:Eh; [|exists O; rewrite Hrun; split; [lia|eauto]].
    unfold random_handle in Eh. destruct random as [h'|]; [|done]. destruct (entries st !! h') as [e|] eqn:E; [|done]. injection Eh as ->.
    destruct (reach_state (state e) 0 ltac:(lia)) as (n & Hn & Hz). exists (S n). split; [done|]. rewrite Hrun.
    destruct (next_range_loop_halts n h span (range_limit span) e st ltac:(lia) E Hz) as [[v st'] ->]. eauto.
  - intros fuel v st'. rewrite Hrun. destruct (random_handle random st) as [h|]; [|intros [= <- _]; lia].
    destruct (next_range_loop fuel h _ _ st) as [[r st1]|] eqn:E; [|done]. intros [= <- _].
    apply next_range_loop_iff in E as (k & _ & _ & _ & -> & _). rewrite Hfit. pose proof (Z.mod_pos_bound (draw k h st) span Hspan). subst span. lia.
  - destruct (random_handle random st) as [h|]; [|intros fuel; by rewrite Hrun]. intros fuel v st'. rewrite Hrun. rewrite <- El.
    destruct (next_range_loop fuel h span (range_limit span) st) as [[r st1]|] eqn:E.
    + apply next_range_loop_iff in E as (k & Hk & Hr & Ha & -> & ->). rewrite Hfit. split; [intros [= <- <-]; by exists k|].
      intros (k' & Hk' & Hr' & Ha' & -> & ->). assert (k' = k) as ->; [|done].
      destruct (Nat.lt_trichotomy k k') as [Hc|[Hc|Hc]]; [specialize (Hr' k Hc); lia|done|specialize (Hr k' Hc); lia].
    + split; [done|]. intros (k & Hk & Hr & Ha & _ & _). exfalso.
      assert (next_range_loop fuel h span (range_limit span) st = Some (draw k h st mod span, after_draws (S k) h st)); [|congruence].
      apply next_range_loop_iff. by exists k.
  - intros v c Hv Hc. rewrite <- El. specialize (Hu (v - min) ltac:(subst span; lia) c). split.
    + intros [H1 H2]. apply Hu. lia.
    + intros [H1 H2]%Hu. lia.
  - apply splitmix_injective.
Qed.

(** The full range of machine integers, from a generator with a fixed seed. *)
Definition seeded_state : randoms := mk_randoms {[ 1 := mk_random 42 1 ]} 2 false 0 empty_world.

Lemma next_range_sound_witness :
  (exists v st', mux_random_next_range 1 (Some 1) 0 6 seeded_state = Some (v, st') /\ 0 <= v < 6) /\
  exists fuel, Z.of_nat fuel <= 2 ^ 64 /\ is_Some (mux_random_next_range fuel (Some 1) i64_min i64_max seeded_state).
Proof.
  split.
  - destruct (next_range_sound (Some 1) 0 6 seeded_state ltac:(width) ltac:(width) ltac:(lia)) as (_ & Hb & _).
    destruct (mux_random_next_range 1 (Some 1) 0 6 seeded_state) as [[v st']|] eqn:E; [|vm_compute in E; discriminate].
    exists v, st'. split; [done|]. exact (Hb 1%nat v st' E).
  - destruct (next_range_sound (Some 1) i64_min i64_max seeded_state ltac:(width) ltac:(width) ltac:(width)) as (Hf & _). exact Hf.
Defined.

(** ** The generator of the module *)

Lemma mux_rand_int_range seed st : 0 <= (mux_rand_int seed st).1 < 2 ^ 31.
Proof.
  unfold mux_rand_int. cbn [fst]. change RAND_MAX with (Z.ones 31). rewrite Z.land_ones by lia.
  apply Z.mod_pos_bound. lia.
Qed.

Lemma mux_rand_range_bounds seed min max st : is_i64 min -> is_i64 max -> min < max ->
  min <= (mux_rand_range seed min max st).1 < max.
Proof.
  intros Hmin Hmax Hlt. unfold mux_rand_range. rewrite (proj2 (Z.leb_gt max min)) by lia.
  unfold try_from_range. rewrite (proj2 (in_range_true 0 _ (max - min))) by width.
  pose proof (mux_rand_int_range seed st) as Hr. destruct (mux_rand_int seed st) as [r st']. cbn [fst] in *.
  rewrite as_u64_small by width. change RAND_BITS with 31. rewrite Z.shiftr_div_pow2 by lia.
  assert (0 <= r * (max - min) / 2 ^ 31 < max - min) as Hs.
  { split; [apply Z.div_pos; nia|]. apply Z.div_lt_upper_bound; nia. }
  rewrite (proj2 (in_range_true _ _ _)) by width. rewrite (proj2 (in_range_true _ _ _)) by width. cbn [fst]. lia.
Qed.

(** An index into a list of machine-sized length. *)
Lemma rand_index seed n st : 0 < n <= i64_max ->
  (Z.to_nat (as_u64 (mux_rand_range seed 0 n st).1) < Z.to_nat n)%nat.
Proof.
  intros Hn. pose proof (mux_rand_range_bounds seed 0 n st ltac:(width) ltac:(width) ltac:(lia)) as Hb.
  rewrite as_u64_small by width. lia.
Qed.

(** ** Selections *)

Lemma swap_perm {A} i j (l : list A) : (i < length l)%nat -> (j < length l)%nat ->
  exists l', swap i j l = Some l' /\ l' ≡ₚ l /\ length l' = length l.
Proof.
  intros Hi Hj. unfold swap.
  destruct (lookup_lt_is_Some_2 l i Hi) as [a Ha]. destruct (lookup_lt_is_Some_2 l j Hj) as [b Hb].
  rewrite Ha, Hb. eexists. split; [done|]. split; [|by rewrite !length_insert].
  by apply Permutation_insert_swap.
Qed.

Lemma shuffle_loop_perm count : forall seed items st, (count < length items)%nat -> Z.of_nat (length items) <= i64_max ->
  exists items' st', shuffle_loop count seed items st = Some (items', st') /\ items' ≡ₚ items.
Proof.
  induction count as [|count IH]; intros seed items st Hc Hl; [by eauto|]. cbn [shuffle_loop].
  pose proof (rand_index seed (Z.of_nat (S count + 1)) st ltac:(width)) as Hi.
  destruct (mux_rand_range seed 0 (Z.of_nat (S count + 1)) st) as [other st1]. cbn [fst] in Hi.
  destruct (swap_perm (S count) (Z.to_nat (as_u64 other)) items) as (l1 & -> & Hp & Hn); [lia..|].
  destruct (IH seed l1 st1) as (l2 & st2 & -> & Hp2); [lia..|]. exists l2, st2. split; [done|]. by rewrite Hp2.
Qed.

Lemma sample_loop_perm remaining : forall target seed indexes st, (remaining <= length indexes)%nat ->
  Z.of_nat (length indexes) <= i64_max ->
  exists indexes' st', sample_loop remaining target seed indexes st = Some (indexes', st') /\ indexes' ≡ₚ indexes.
Proof.
  induction remaining as [|rest IH]; intros target seed indexes st Hr Hl; cbn [sample_loop].
  - destruct (target <? 0)%nat; eauto.
  - destruct (target <? S rest)%nat; [|eauto].
    pose proof (rand_index seed (Z.of_nat (S rest)) st ltac:(width)) as Hi.
    destruct (mux_rand_range seed 0 (Z.of_nat (S rest)) st) as [choice st1]. cbn [fst] in Hi.
    destruct (swap_perm (Z.to_nat (as_u64 choice)) rest indexes) as (l1 & -> & Hp & Hn); [lia..|].
    destruct (IH target seed l1 st1) as (l2 & st2 & -> & Hp2); [lia..|]. exists l2, st2. split; [done|]. by rewrite Hp2.
Qed.

Lemma omap_lookup_seq {A} (l : list A) : omap (fun i => l !! i) (seq 0 (length l)) = l.
Proof.
  induction l as [|a l IH]; [done|]. cbn. f_equal. rewrite <- fmap_S_seq.
  rewrite <- IH at 2. generalize (seq 0 (length l)) as s. induction s as [|i s IHs]; [done|]. cbn. by destruct (l !! i); rewrite IHs.
Qed.

Lemma omap_lookup_length {A} (l : list A) (s : list nat) : Forall (fun i => (i < length l)%nat) s -> length (omap (fun i => l !! i) s) = length s.
Proof.
  induction 1 as [|i s Hi Hs IH]; [done|]. cbn. destruct (lookup_lt_is_Some_2 l i Hi) as [a ->]. cbn. by rewrite IH.
Qed.

Lemma pick_loop_bound index numeric : forall threshold i,
  pick_loop index numeric threshold = Some i -> (index <= i < index + length numeric)%nat.
Proof.
  revert index. induction numeric as [|w numeric IH]; intros index threshold i; cbn [pick_loop length]; [done|].
  destruct (fltb threshold w); [intros [= <-]; lia|]. intros E%IH. lia.
Qed.

Lemma weights_loop_length weights : forall total numeric total' numeric',
  weights_loop weights total numeric = Ok (total', numeric') -> length numeric' = (length numeric + length weights)%nat.
Proof.
  induction weights as [|w weights IH]; intros total numeric total' numeric'; cbn [weights_loop length]; [intros [= _ <-]; lia|].
  destruct w; try done. case_match; [done|]. intros E%IH. rewrite E, length_app. cbn. lia.
Qed.

Lemma choose_member seed items st : Z.of_nat (length items) <= i64_max -> items <> [] ->
  exists v, v ∈ items /\ (mux_random_choose seed (Some (VList items)) st).1 = VOptional (Some v).
Proof.
  intros Hlen Hne. unfold mux_random_choose. cbn [list_items]. destruct items as [|x items]; [done|].
  pose proof (rand_index seed (Z.of_nat (length (x :: items))) st ltac:(cbn [length] in *; lia)) as Hi.
  destruct (mux_rand_range _ _ _ _) as [i st1]. cbn [fst] in *. rewrite Nat2Z.id in Hi.
  destruct (lookup_lt_is_Some_2 (x :: items) _ Hi) as [v Hv]. exists v. rewrite Hv.
  split; [|done]. by eapply list_elem_of_lookup_2.
Qed.

Lemma sample_submultiset seed items count a st : Z.of_nat (length items) <= i64_max ->
  0 <= count <= Z.of_nat (length items) ->
  exists sampled rest st', mux_random_sample seed (Some (VList items)) count a st = Some (VResult (Ok (VList sampled)), st') /\
    Z.of_nat (length sampled) = count /\ items ≡ₚ sampled ++ rest.
Proof.
  intros Hlen Hc. unfold mux_random_sample. cbn [list_items].
  replace ((count <? 0) || (Z.of_nat (length items) <? count)) with false
    by (symmetry; rewrite orb_false_iff, !Z.ltb_ge; lia).
  destruct (sample_loop_perm (length items) (Z.to_nat count) seed (seq 0 (length items)) st) as (ix & st' & -> & Hp);
    [rewrite length_seq; lia..|].
  exists (omap (fun i => items !! i) (take (Z.to_nat count) ix)), (omap (fun i => items !! i) (drop (Z.to_nat count) ix)), st'.
  split; [done|]. split.
  - rewrite omap_lookup_length.
    + rewrite length_take, Hp, length_seq. lia.
    + apply Forall_take. rewrite Hp. apply Forall_forall. intros i Hi%elem_of_seq. lia.
  - rewrite <- omap_app, take_drop, Hp. by rewrite omap_lookup_seq.
Qed.

Lemma weighted_choice_member seed items weights a st :
  exists r st', mux_random_weighted_choice seed (Some (VList items)) weights a st = Some (r, st') /\
    ((exists v, v ∈ items /\ r = VResult (Ok v)) \/ exists e, (r, st') = random_err e a st).
Proof.
  assert (Herr : forall e, exists r st', Some (random_err e a st) = Some (r, st') /\
    ((exists v, v ∈ items /\ r = VResult (Ok v)) \/ exists e, (r, st') = random_err e a st)).
  { intros e. destruct (random_err e a st) as [r st'] eqn:E. exists r, st'. split; [done|]. right. eauto. }
  unfold mux_random_weighted_choice. cbn [list_items]. destruct (list_items weights) as [ws|]; [|apply Herr].
  destruct (_ || _) eqn:El; [apply Herr|]. apply orb_false_iff in El as [E1 E2].
  apply Nat.eqb_neq in E1. apply negb_false_iff, Nat.eqb_eq in E2.
  destruct (weights_loop ws fzero []) as [[total numeric]|e] eqn:Ew; [|apply Herr].
  destruct (_ || _); [apply Herr|]. destruct (mux_rand_float seed st) as [r st1].
  apply weights_loop_length in Ew. cbn [length Nat.add] in Ew.
  set (i := default (length items - 1)%nat (pick_loop 0 numeric (fmul r total))).
  assert (Hi : (i < length items)%nat).
  { unfold i. destruct (pick_loop 0 numeric (fmul r total)) as [j|] eqn:Ej; cbn; [apply pick_loop_bound in Ej|]; lia. }
  destruct (lookup_lt_is_Some_2 items i Hi) as [v Hv]. rewrite Hv. exists (VResult (Ok v)), st1. split; [done|].
  left. exists v. split; [by eapply list_elem_of_lookup_2|done].
Qed.

(** Selections neither invent nor duplicate elements, and never index out of bounds.
    Choosing from a list that is not empty gives an element of it; shuffling leaves a
    permutation of the list; a sample of [count] has that many elements and together with the
    elements it leaves out is a permutation of the list, so nothing is drawn twice; a weighted
    choice is an element or a reported error. *)
Lemma selections_sound seed items weights count a st : Z.of_nat (length items) <= i64_max ->
  (items <> [] -> exists v, v ∈ items /\ (mux_random_choose seed (Some (VList items)) st).1 = VOptional (Some v)) /\
  (exists items' st', mux_random_shuffle seed (Some (VList items)) st = Some (Some (VList items'), st') /\ items' ≡ₚ items) /\
  (0 <= count <= Z.of_nat (length items) ->
   exists sampled rest st', mux_random_sample seed (Some (VList items)) count a st = Some (VResult (Ok (VList sampled)), st') /\
     Z.of_nat (length sampled) = count /\ items ≡ₚ sampled ++ rest) /\
  (exists r st', mux_random_weighted_choice seed (Some (VList items)) weights a st = Some (r, st') /\
     ((exists v, v ∈ items /\ r = VResult (Ok v)) \/ exists e, (r, st') = random_err e a st)).
Proof.
  intros Hlen. split_and!.
  - by apply choose_member.
  - cbn [mux_random_shuffle]. destruct items as [|v items]; [by exists [], st|].
    destruct (shuffle_loop_perm (length (v :: items) - 1) seed (v :: items) st) as (l & st' & -> & Hp); [cbn [length]; lia|done|].
    eauto.
  - by apply sample_submultiset.
  - by apply weighted_choice_member.
Qed.
