(* ===== verification/ValueTable.v ===== *)
(** * Tables of immutable values (src/src/datetime_types.rs, net_types.rs, uuid.rs, path.rs)

    The value classes of the standard library (dates, addresses, UUIDs, paths) keep the value
    behind a handle: a global table of entries counted by [names] (or [refs]), numbered by a
    counter.  The four files repeat the same functions; they are written once here, over the
    type of the stored values.  A handle that is copied names the same entry; the entry goes
    with its last name. *)

From S2P Require Import Prelude SyncProps.
Import HandleLemmas.

Section ValueTable.
Context {V : Type}.

Record Entry : Type := mk_entry { stored : V; names : Z }.

(** [VALUES] and [NEXT_ID]. *)
Record values : Type := mk_values { table : gmap Z Entry; next : Z }.

Definition no_values : values := mk_values ∅ 1.

(** [checked_add(1).unwrap_or(1)]. *)
Definition next_id (vs : values) : Z * values :=
  let id := next vs in (id, mk_values (table vs) (if id =? i64_max then 1 else id + 1)).

(** [object]: the entry is stored before the object is allocated, and taken out again when
    the allocation fails ([allocated] is false). *)
Definition object (v : V) (allocated : bool) (vs : values) : option Z * values :=
  let '(id, vs) := next_id vs in
  let vs := mk_values (<[id := mk_entry v 1]> (table vs)) (next vs) in
  if allocated then (Some id, vs) else (None, mk_values (delete id (table vs)) (next vs)).

(** The handle the copy stores: 0 when the entry is gone. *)
Definition copy_value (id : Z) (vs : values) : Z * values :=
  match table vs !! id with
  | Some e => (id, mk_values (<[id := mk_entry (stored e) (names e + 1)]> (table vs)) (next vs))
  | None => (0, vs)
  end.

Definition drop_value (id : Z) (vs : values) : values :=
  match table vs !! id with
  | Some e =>
      let e := mk_entry (stored e) (Z.max 0 (names e - 1)) in
      let m := <[id := e]> (table vs) in
      mk_values (if names e =? 0 then delete id m else m) (next vs)
  | None => vs
  end.

(** [VALUES.get(&id).map(|entry| entry.value.clone())]. *)
Definition get_value (id : Z) (vs : values) : option V := stored <$> table vs !! id.

(** ** Clients

    A client holds names: the handles of its objects, each with the value it was made of. *)

Inductive op : Type :=
| New (v : V) (allocated : bool)
| Copy (i : nat)
| Drop (i : nat).

Definition client : Type := list (Z * V) * values.

Definition step (c : client) (o : op) : client :=
  let '(live, vs) := c in
  match o with
  | New v allocated =>
      match object v allocated vs with
      | (Some id, vs) => (live ++ [(id, v)], vs)
      | (None, vs) => (live, vs)
      end
  | Copy i =>
      match live !! i with
      | Some (id, v) => let '(id', vs) := copy_value id vs in (live ++ [(id', v)], vs)
      | None => c
      end
  | Drop i =>
      match live !! i with
      | Some (id, _) => (delete i live, drop_value id vs)
      | None => c
      end
  end.

Definition run (ops : list op) : client := foldl step ([], no_values) ops.

(** After [k] operations: handles are fresh, names are live, counts are exact. *)
Record table_inv (k : Z) (c : client) : Prop := {
  ti_next : 1 <= next c.2 <= 1 + k;
  ti_live id v : (id, v) ∈ c.1 -> 0 < id < next c.2 /\ get_value id c.2 = Some v;
  ti_names id e : table c.2 !! id = Some e -> 0 < id < next c.2 /\ names e = occ id c.1.*1 /\ 0 < names e;
}.

Lemma fresh_occ k c : table_inv k c -> occ (next c.2) c.1.*1 = 0.
Proof.
  intros [Hn Hl _]. pose proof (occ_bound (next c.2) c.1.*1).
  destruct (decide (0 < occ (next c.2) c.1.*1)) as [Hp|]; [|lia].
  apply occ_pos, list_elem_of_fmap in Hp as ([id v] & E & Hin). cbn in E. subst. apply Hl in Hin. lia.
Qed.

Lemma step_new_inv k c v allocated : table_inv k c -> k < 2 ^ 62 -> table_inv (k + 1) (step c (New v allocated)).
Proof.
  intros Hi Hk. pose proof (fresh_occ k c Hi) as Hf. destruct c as [live vs], Hi as [Hn Hl Hm]. cbn [fst snd] in *.
  cbn [step]. unfold object, next_id. cbv beta iota zeta. cbn [table next].
  rewrite (proj2 (Z.eqb_neq (next vs) i64_max)) by width.
  destruct allocated; split; cbn [fst snd table next]; try lia.
  - intros id v' [Hin|Hin]%elem_of_app.
    + apply Hl in Hin as [? Hg]. split; [lia|]. unfold get_value in *. cbn [table]. by rewrite lookup_insert_ne by lia.
    + apply list_elem_of_singleton in Hin as [= -> ->]. split; [lia|]. unfold get_value. cbn [table]. by rewrite lookup_insert_eq.
  - intros id e. rewrite fmap_app, occ_concat. cbn [fmap list_fmap fst]. rewrite occ_one.
    destruct (decide (id = next vs)) as [->|Hne].
    + rewrite lookup_insert_eq, Z.eqb_refl. intros [= <-]. cbn. lia.
    + rewrite lookup_insert_ne, (proj2 (Z.eqb_neq _ _)) by done. intros ?%Hm. lia.
  - intros id v' Hin. apply Hl in Hin as [? Hg]. split; [lia|]. unfold get_value in *. cbn [table].
    by rewrite lookup_delete_ne, lookup_insert_ne by lia.
  - intros id e. destruct (decide (id = next vs)) as [->|Hne]; [by rewrite lookup_delete_eq|].
    rewrite lookup_delete_ne, lookup_insert_ne by done. intros ?%Hm. lia.
Qed.

Lemma step_copy_inv k c i : table_inv k c -> table_inv (k + 1) (step c (Copy i)).
Proof.
  intros [Hn Hl Hm]. destruct c as [live vs]. cbn [step fst snd] in *.
  destruct (live !! i) as [[id v]|] eqn:Ei.
  2: { split; cbn [fst snd]; [lia|done..]. }
  assert (Hin : (id, v) ∈ live) by by eapply list_elem_of_lookup_2.
  destruct (Hl _ _ Hin) as [Hid Hg]. unfold get_value in Hg. unfold copy_value.
  destruct (table vs !! id) as [e|] eqn:Ee; [|done]. injection Hg as Hv. destruct (Hm _ _ Ee) as (_ & Ho & Hp).
  split; cbn [fst snd table next]; [lia| |].
  - intros id' v' [Hin'|Hin']%elem_of_app.
    + destruct (Hl _ _ Hin') as [? Hg']. split; [done|]. unfold get_value in *. cbn [table].
      destruct (decide (id' = id)) as [->|]; [|by rewrite lookup_insert_ne by done].
      rewrite lookup_insert_eq. rewrite Ee in Hg'. done.
    + apply list_elem_of_singleton in Hin' as [= -> ->]. split; [done|]. unfold get_value. cbn [table].
      rewrite lookup_insert_eq. cbn. by rewrite Hv.
  - intros id' e'. rewrite fmap_app, occ_concat. cbn [fmap list_fmap fst]. rewrite occ_one.
    destruct (decide (id' = id)) as [->|Hne].
    + rewrite lookup_insert_eq, Z.eqb_refl. intros [= <-]. cbn. lia.
    + rewrite lookup_insert_ne, (proj2 (Z.eqb_neq _ _)) by done. intros ?%Hm. lia.
Qed.

Lemma step_drop_inv k c i : table_inv k c -> table_inv (k + 1) (step c (Drop i)).
Proof.
  intros [Hn Hl Hm]. destruct c as [live vs]. cbn [step fst snd] in *.
  destruct (live !! i) as [[id v]|] eqn:Ei.
  2: { split; cbn [fst snd]; [lia|done..]. }
  assert (Hin : (id, v) ∈ live) by by eapply list_elem_of_lookup_2.
  assert (Hocc : forall x, occ x live.*1 = (if x =? id then 1 else 0) + occ x (delete i live).*1).
  { intros x. rewrite <- (occ_one x id), <- occ_concat. unfold occ. f_equal. apply Permutation_length, filter_Permutation.
    change ([id] ++ (delete i live).*1) with (((id, v) :: delete i live).*1). by apply fmap_Permutation, delete_Permutation. }
  destruct (Hl _ _ Hin) as [Hid Hg]. unfold get_value in Hg. unfold drop_value.
  destruct (table vs !! id) as [e|] eqn:Ee; [|done]. destruct (Hm _ _ Ee) as (_ & Ho & Hp). cbn [names].
  assert (Hsub : forall id' v', (id', v') ∈ delete i live -> (id', v') ∈ live /\ 0 < occ id' (delete i live).*1).
  { intros id' v' Hd. split; [by apply (sublist_subseteq _ _ (sublist_delete live i))|].
    apply occ_pos, list_elem_of_fmap. by exists (id', v'). }
  split; cbn [fst snd table next]; [lia| |].
  - intros id' v' Hd. destruct (Hsub _ _ Hd) as [Hd' Hpos]. destruct (Hl _ _ Hd') as [? Hg']. split; [done|].
    unfold get_value in *. cbn [table]. pose proof (Hocc id') as Hx.
    destruct (decide (id' = id)) as [->|Hne].
    + rewrite Z.eqb_refl in Hx. rewrite (proj2 (Z.eqb_neq _ _)) by lia. rewrite lookup_insert_eq. by rewrite Ee in Hg'.
    + destruct (_ =? 0); [rewrite lookup_delete_ne by done|]; by rewrite lookup_insert_ne by done.
  - intros id' e' He'. pose proof (Hocc id') as Hx. destruct (decide (id' = id)) as [->|Hne].
    + rewrite Z.eqb_refl in Hx. destruct (Z.eqb_spec (Z.max 0 (names e - 1)) 0); [by rewrite lookup_delete_eq in He'|].
      rewrite lookup_insert_eq in He'. injection He' as <-. cbn [names]. lia.
    + rewrite (proj2 (Z.eqb_neq _ _)) in Hx by done. assert (table vs !! id' = Some e') as He2.
      { destruct (_ =? 0); [rewrite lookup_delete_ne in He' by done|]; by rewrite lookup_insert_ne in He' by done. }
      apply Hm in He2. lia.
Qed.

Lemma run_inv ops : Z.of_nat (length ops) < 2 ^ 62 -> table_inv (Z.of_nat (length ops)) (run ops).
Proof.
  unfold run. induction ops as [|o ops IH] using rev_ind; intros Hl.
  - split; cbn; [lia| |]; intros *; [by rewrite elem_of_nil|by rewrite lookup_empty].
  - rewrite length_app in *. cbn [length] in *. rewrite foldl_app. cbn [foldl].
    replace (Z.of_nat (length ops + 1)) with (Z.of_nat (length ops) + 1) in * by lia.
    specialize (IH ltac:(lia)).
    destruct o; [by apply step_new_inv; [|lia]|by apply step_copy_inv|by apply step_drop_inv].
Qed.

End ValueTable.
Arguments Entry : clear implicits.
Arguments values : clear implicits.
Arguments op : clear implicits.

(** C31: Value objects behave as immutable values.  Whatever values a program makes, copies and
    drops, in any order and with allocations that fail, each name it still holds reads exactly
    the value it was made of, every entry of the table belongs to a name that is held and
    counts those names exactly, and once the last name is gone the table is empty. *)
Theorem value_table_refines (V : Type) (ops : list (op V)) : Z.of_nat (length ops) < 2 ^ 62 ->
  let c := run ops in
  (forall id v, (id, v) ∈ c.1 -> get_value id c.2 = Some v) /\
  (forall id e, table c.2 !! id = Some e -> names e = occ id c.1.*1 /\ (id, stored e) ∈ c.1) /\
  (c.1 = [] -> table c.2 = ∅).
Proof.
  intros Hl. destruct (run_inv ops Hl) as [_ Hv Hm]. cbv zeta. set (c := run ops) in *. clearbody c.
  split_and!.
  - intros id v Hin. by apply Hv.
  - intros id e He. destruct (Hm _ _ He) as (_ & Ho & Hp). split; [done|]. rewrite Ho in Hp.
    apply occ_pos, list_elem_of_fmap in Hp as ([id' v] & -> & Hin). cbn [fst] in *.
    destruct (Hv _ _ Hin) as [_ Hg]. unfold get_value in Hg. rewrite He in Hg. by injection Hg as ->.
  - intros E. apply map_eq. intros id. rewrite lookup_empty. destruct (table c.2 !! id) as [e|] eqn:He; [|done].
    destruct (Hm _ _ He) as (_ & Ho & Hp). rewrite E in Ho. change (occ id ([] : list (Z * V)).*1) with 0 in Ho. lia.
Qed.

Lemma value_table_refines_witness :
  let c := run [New 10 true; New 20 false; Copy 0; Drop 0; New 30 true] in
  c.1 = [(1, 10); (3, 30)] /\ (forall id v, (id, v) ∈ c.1 -> get_value id c.2 = Some v).
Proof.
  split; [vm_compute; reflexivity|].
  apply (value_table_refines Z [New 10 true; New 20 false; Copy 0; Drop 0; New 30 true]). cbn. lia.
Defined.
