(* ===== verification/Math.v ===== *)
(** * Integer mathematics ([src/src/math.rs])

    The functions of the mathematics package on integers.  A loop carries fuel; the
    lemmas show that the fuel of the public function is enough and what it computes.
    [checks] says whether the build traps arithmetic overflow; [None] is that panic.

    An error message is answered as [Err]; the exported wrappers turn it into a value of
    class [MathError]. *)

From S2P Require Import Prelude Object Value Heap StdErrors Float64.

Definition u128_max : Z := 2 ^ 128 - 1.

(** [-z] and [a + b] on [i64]: the panic of a checked build, the wrapped result otherwise. *)
Definition checked_i64 (checks : bool) (z : Z) : option Z :=
  if in_range i64_min i64_max z then Some z else if checks then None else Some (as_i64 z).

(** [i64::wrapping_mul]. *)
Definition wrapping_mul (a b : Z) : Z := as_i64 (a * b).

(** ** Powers *)

(** The loop of [mux_int_pow]: [e & 1] and [e >>= 1]. *)
Fixpoint pow_loop (fuel : nat) (result b e : Z) : option Z :=
  match fuel with
  | O => None
  | S fuel =>
      if 0 <? e then
        let result := if Z.land e 1 =? 1 then wrapping_mul result b else result in
        pow_loop fuel result (wrapping_mul b b) (Z.shiftr e 1)
      else Some result
  end.

(** [(-exp) % 2 == 0] keeps the sign of the dividend, which is positive or [i64::MIN]. *)
Definition mux_int_pow (checks : bool) (base exp : Z) : option Z :=
  if exp <? 0 then
    if base =? 1 then Some 1
    else if base =? -1 then
      match checked_i64 checks (- exp) with
      | None => None
      | Some n => Some (if Z.rem n 2 =? 0 then 1 else -1)
      end
    else Some 0
  else pow_loop 64 1 base exp.

(** ** Divisors *)

Fixpoint gcd_loop (fuel : nat) (a b : Z) : option Z :=
  match fuel with
  | O => None
  | S fuel => if b =? 0 then Some a else gcd_loop fuel b (a mod b)
  end.

(** Two rounds halve the second argument. *)
Definition gcd_unsigned (a b : Z) : option Z := gcd_loop 130 a b.

Definition mux_math_gcd (a b : Z) : option Z :=
  match gcd_unsigned (Z.abs a) (Z.abs b) with
  | None => None
  | Some ua => if i64_max <? ua then Some i64_max else Some ua
  end.

Definition mux_math_lcm (a b : Z) : option Z :=
  if (a =? 0) || (b =? 0) then Some 0
  else
    match gcd_unsigned (Z.abs a) (Z.abs b) with
    | None => None
    | Some gcd =>
        let product := Z.abs a / gcd * Z.abs b in
        Some (default i64_max (try_from_range i64_min i64_max product))
    end.

(** ** Square root *)

Fixpoint isqrt_loop (fuel : nat) (value low high answer : Z) : option Z :=
  match fuel with
  | O => None
  | S fuel =>
      if low <=? high then
        let middle := low + (high - low) / 2 in
        if middle <=? value / middle then isqrt_loop fuel value (middle + 1) high middle
        else isqrt_loop fuel value low (middle - 1) answer
      else Some answer
  end.

Definition mux_math_isqrt (value : Z) : option Z :=
  if value <=? 0 then Some 0 else isqrt_loop 33 value 1 (Z.min value 3037000499) 0.

(** ** Counting *)

(** [i64::try_from(value).map_err(|_| format!("{operation} result overflowed int"))]. *)
Definition checked_combinatoric (value : Z) (operation : string) : result Z string :=
  match try_from_range i64_min i64_max value with
  | Some v => Ok v
  | None => Err (operation +:+ " result overflowed int")
  end.

(** [for factor in from..from + count]. *)
Fixpoint factorial_loop (count : nat) (factor result : Z) : Z :=
  match count with
  | O => result
  | S count => factorial_loop count (factor + 1) (Z.min u128_max (result * factor))
  end.

Definition factorial (value : Z) : result Z string :=
  if value <? 0 then Err "factorial is undefined for negative integers"
  else checked_combinatoric (factorial_loop (Z.to_nat (value - 1)) 2 1) "factorial".

(** The loop of [combinations], from [index] on; [base] is [n - k]. *)
Fixpoint combinations_loop (count : nat) (base index result : Z) : Prelude.result Z string :=
  match count with
  | O => Ok result
  | S count =>
      let numerator := result * (base + index) in
      if u128_max <? numerator then Err "combinations result overflowed internal range"
      else combinations_loop count base (index + 1) (numerator / index)
  end.

Definition combinations (n k : Z) : result Z string :=
  if (n <? 0) || (k <? 0) || (n <? k) then Err "combinations require 0 <= k <= n"
  else
    let k := Z.min k (n - k) in
    let? result := combinations_loop (Z.to_nat k) (n - k) 1 1 in
    checked_combinatoric result "combinations".

Fixpoint permutations_loop (count : nat) (value result : Z) : Prelude.result Z string :=
  match count with
  | O => Ok result
  | S count =>
      if u128_max <? result * value then Err "permutations result overflowed internal range"
      else permutations_loop count (value + 1) (result * value)
  end.

(** [for value in (n - k + 1) as u128..=n as u128]; a negative bound is sign-extended, which
    makes the range empty. *)
Definition permutations (checks : bool) (n k : Z) : option (result Z string) :=
  if (n <? 0) || (k <? 0) || (n <? k) then Some (Err "permutations require 0 <= k <= n")
  else
    match checked_i64 checks (n - k + 1) with
    | None => None
    | Some from =>
        let from := from mod 2 ^ 128 in
        Some (let? result := permutations_loop (Z.to_nat (n - from + 1)) from 1 in
              checked_combinatoric result "permutations")
    end.

(** ** The exported functions that report errors *)

(** The wrappers: a result value, or a [MathError] entered in the table of the package. *)
Definition math_wrap (r : result Z string) (a : alloc_answer) (w : world MathErrorKind unit) : value * world MathErrorKind unit :=
  match r with
  | Ok v => (VResult (Ok (VInt v)), w)
  | Err e => math_result_err e a w
  end.

Definition mux_math_factorial (v : Z) : alloc_answer -> world MathErrorKind unit -> value * world MathErrorKind unit :=
  math_wrap (factorial v).
Definition mux_math_combinations (n k : Z) : alloc_answer -> world MathErrorKind unit -> value * world MathErrorKind unit :=
  math_wrap (combinations n k).
Definition mux_math_permutations (checks : bool) (n k : Z) (a : alloc_answer) (w : world MathErrorKind unit) : option (value * world MathErrorKind unit) :=
  (fun r => math_wrap r a w) <$> permutations checks n k.

(** ** Wrapping arithmetic is arithmetic modulo 2^64 *)

Lemma as_i64_eqm a b : a mod 2 ^ 64 = b mod 2 ^ 64 <-> as_i64 a = as_i64 b.
Proof.
  unfold as_i64. split; intros E.
  - rewrite (Z.add_mod a), (Z.add_mod b), E by lia. done.
  - apply Z.add_cancel_r in E. replace a with (a + 2 ^ 63 - 2 ^ 63) by lia.
    replace b with (b + 2 ^ 63 - 2 ^ 63) by lia. rewrite (Zminus_mod (a + _)), (Zminus_mod (b + _)).
    by rewrite E.
Qed.

Lemma as_i64_mod a : as_i64 a mod 2 ^ 64 = a mod 2 ^ 64.
Proof.
  unfold as_i64. rewrite Zminus_mod, Zmod_mod, <- Zminus_mod. f_equal. lia.
Qed.

Lemma wrapping_mul_as a b : wrapping_mul (as_i64 a) (as_i64 b) = as_i64 (a * b).
Proof.
  apply as_i64_eqm. by rewrite Z.mul_mod, !as_i64_mod, <- Z.mul_mod by lia.
Qed.

Lemma land_1_odd e : (Z.land e 1 =? 1) = Z.odd e.
Proof.
  change 1 with (Z.ones 1). rewrite Z.land_ones by lia. change (2 ^ 1) with 2.
  rewrite Zmod_odd. by destruct (Z.odd e).
Qed.

Lemma pow_loop_S fuel result b e : pow_loop (S fuel) result b e =
  if 0 <? e then pow_loop fuel (if Z.odd e then wrapping_mul result b else result) (wrapping_mul b b) (Z.shiftr e 1)
  else Some result.
Proof. cbn. by rewrite land_1_odd. Qed.

Lemma pow_loop_spec fuel : forall result b e, 0 <= e < 2 ^ Z.of_nat fuel ->
  pow_loop (S fuel) (as_i64 result) (as_i64 b) e = Some (as_i64 (result * b ^ e)).
Proof.
  induction fuel as [|fuel IH]; intros result b e He.
  - assert (e = 0) as -> by (cbn in He; lia). cbn. do 2 f_equal. lia.
  - rewrite pow_loop_S. destruct (Z.ltb_spec 0 e) as [Hp|Hp].
    2: { assert (e = 0) as -> by lia. do 2 f_equal. rewrite Z.pow_0_r. lia. }
    rewrite Nat2Z.inj_succ, Z.pow_succ_r in He by lia.
    assert (Hh : 0 <= Z.shiftr e 1 < 2 ^ Z.of_nat fuel).
    { rewrite Z.shiftr_div_pow2 by lia. change (2 ^ 1) with 2. split; [apply Z.div_pos; lia|].
      apply Z.div_lt_upper_bound; lia. }
    assert (He2 : e = 2 * Z.shiftr e 1 + (if Z.odd e then 1 else 0)).
    { rewrite Z.shiftr_div_pow2 by lia. change (2 ^ 1) with 2.
      rewrite <- Zmod_odd. apply Z.div_mod. lia. }
    rewrite !wrapping_mul_as. set (h := Z.shiftr e 1) in *.
    destruct (Z.odd e).
    + rewrite IH by done. do 2 f_equal. rewrite He2, Z.pow_add_r, Z.pow_mul_r by lia.
      rewrite Z.pow_1_r, Z.pow_2_r. ring.
    + rewrite IH by done. do 2 f_equal. rewrite He2, Z.add_0_r, Z.pow_mul_r by lia. by rewrite Z.pow_2_r.
Qed.

(** ** Euclid *)

Lemma gcd_loop_spec n : forall a b, 0 <= a -> 0 <= b < 2 ^ Z.of_nat n ->
  gcd_loop (S (2 * n)) a b = Some (Z.gcd a b).
Proof.
  assert (Hstep : forall a b, 0 < b -> 0 <= a mod b < b) by (intros; apply Z.mod_pos_bound; lia).
  assert (Hg : forall a b, 0 < b -> Z.gcd b (a mod b) = Z.gcd a b)
    by (intros a b Hb; rewrite Z.gcd_comm, Z.gcd_mod by lia; apply Z.gcd_comm).
  induction n as [|n IH]; intros a b Ha Hb.
  - assert (b = 0) as -> by (cbn in Hb; lia). cbn. by rewrite Z.gcd_0_r, Z.abs_eq.
  - replace (S (2 * S n)) with (S (S (S (2 * n)))) by lia.
    change (gcd_loop (S (S (S (2 * n)))) a b) with (if b =? 0 then Some a else
      if a mod b =? 0 then Some b else gcd_loop (S (2 * n)) (a mod b) (b mod (a mod b))).
    destruct (Z.eqb_spec b 0) as [->|Hb0]; [by rewrite Z.gcd_0_r, Z.abs_eq|].
    rewrite <- (Hg a b) by lia. specialize (Hstep a b ltac:(lia)) as Hr.
    destruct (Z.eqb_spec (a mod b) 0) as [->|Hr0]; [by rewrite Z.gcd_0_r, Z.abs_eq by lia|].
    rewrite IH; [by rewrite Hg by lia|lia|].
    rewrite Nat2Z.inj_succ, Z.pow_succ_r in Hb by lia.
    assert (2 * (b mod (a mod b)) < b); [|pose proof (Z.mod_pos_bound b (a mod b)); lia].
    pose proof (Z.div_mod b (a mod b) ltac:(lia)). pose proof (Z.mod_pos_bound b (a mod b) ltac:(lia)).
    assert (1 <= b / (a mod b)) by (apply Z.div_le_lower_bound; lia). nia.
Qed.

Lemma gcd_unsigned_spec a b : 0 <= a -> is_u64 b -> gcd_unsigned a b = Some (Z.gcd a b).
Proof.
  intros Ha Hb. unfold gcd_unsigned. assert (E : forall n m a b, (n <= m)%nat ->
    forall r, gcd_loop n a b = Some r -> gcd_loop m a b = Some r).
  { induction n as [|n IH]; intros m x y Hm r Hr; [done|]. destruct m as [|m]; [lia|].
    cbn [gcd_loop] in *. destruct (y =? 0); [done|]. apply IH; [lia|done]. }
  apply (E 129%nat 130%nat); [lia|]. apply (gcd_loop_spec 64); [done|]. width.
Qed.

(** ** The square root *)

Lemma isqrt_loop_spec fuel : forall value low high, 0 < value -> 1 <= low -> low - 1 <= high ->
  high - low + 1 < 2 ^ Z.of_nat fuel -> (low - 1) * (low - 1) <= value -> value < (high + 1) * (high + 1) ->
  isqrt_loop (S fuel) value low high (low - 1) = Some (Z.sqrt value).
Proof.
  induction fuel as [|fuel IH]; intros value low high Hv Hl Hh Hf Hlo Hhi.
  - assert (low = high + 1) by (cbn in Hf; lia). subst low. cbn.
    rewrite (proj2 (Z.leb_gt (high + 1) high)) by lia. f_equal. symmetry. apply Z.sqrt_unique. nia.
  - rewrite Nat2Z.inj_succ, Z.pow_succ_r in Hf by lia.
    change (isqrt_loop (S (S fuel)) value low high (low - 1)) with
      (if low <=? high then let middle := low + (high - low) / 2 in
         if middle <=? value / middle then isqrt_loop (S fuel) value (middle + 1) high middle
         else isqrt_loop (S fuel) value low (middle - 1) (low - 1) else Some (low - 1)).
    destruct (Z.leb_spec low high) as [Hle|Hgt].
    2: { f_equal. symmetry. apply Z.sqrt_unique. nia. }
    cbv zeta. set (m := low + (high - low) / 2).
    pose proof (Z.div_mod (high - low) 2 ltac:(lia)). pose proof (Z.mod_pos_bound (high - low) 2 ltac:(lia)).
    assert (low <= m <= high) by (unfold m; lia).
    pose proof (Z.div_mod value m ltac:(lia)). pose proof (Z.mod_pos_bound value m ltac:(lia)).
    destruct (Z.leb_spec m (value / m)).
    + replace m with (m + 1 - 1) at 2 by lia. apply IH; unfold m in *; nia.
    + apply IH; unfold m in *; nia.
Qed.

Lemma mux_math_isqrt_spec value : is_i64 value -> mux_math_isqrt value = Some (Z.sqrt value).
Proof.
  intros Hv. unfold mux_math_isqrt. destruct (Z.leb_spec value 0) as [Hn|Hp].
  - f_equal. symmetry. destruct (decide (value = 0)) as [->|]; [done|]. by apply Z.sqrt_neg; lia.
  - apply (isqrt_loop_spec 32 value 1); width.
Qed.

(** ** The exported functions against their references *)

Lemma mux_math_gcd_spec a b : is_i64 a -> is_i64 b -> mux_math_gcd a b = Some (Z.min i64_max (Z.gcd a b)).
Proof.
  intros Ha Hb. unfold mux_math_gcd. rewrite gcd_unsigned_spec by width.
  rewrite Z.gcd_abs_l, Z.gcd_abs_r. destruct (Z.ltb_spec i64_max (Z.gcd a b)); f_equal; lia.
Qed.

Lemma mux_math_lcm_spec a b : is_i64 a -> is_i64 b -> mux_math_lcm a b = Some (Z.min i64_max (Z.lcm a b)).
Proof.
  intros Ha Hb. unfold mux_math_lcm. destruct ((a =? 0) || (b =? 0)) eqn:E0.
  - f_equal. apply orb_true_iff in E0 as [->%Z.eqb_eq| ->%Z.eqb_eq]; [by rewrite Z.lcm_0_l|by rewrite Z.lcm_0_r].
  - rewrite gcd_unsigned_spec by width. rewrite Z.gcd_abs_l, Z.gcd_abs_r.
    apply orb_false_iff in E0 as [E1 E2]. bool_to_prop. f_equal.
    assert (Hg : Z.gcd a b <> 0) by (rewrite Z.gcd_eq_0; lia).
    assert (Z.abs a / Z.gcd a b * Z.abs b = Z.lcm a b) as ->.
    { unfold Z.lcm. pose proof (Z.gcd_nonneg a b).
      destruct (Z.gcd_divide_l a b) as [p Hp], (Z.gcd_divide_r a b) as [q Hq].
      set (g := Z.gcd a b) in *. clearbody g. subst a b.
      rewrite !Z.abs_mul, (Z.abs_eq g), !Z.div_mul by lia. ring. }
    pose proof (Z.lcm_nonneg a b). unfold try_from_range. destruct (in_range i64_min i64_max (Z.lcm a b)) eqn:E; cbn.
    + apply in_range_true in E. lia.
    + apply in_range_false in E. width.
Qed.

Lemma pow_loop_i64 a b : is_i64 a -> is_i64 b -> 0 <= b -> pow_loop 64 1 a b = Some (as_i64 (a ^ b)).
Proof.
  intros Ha Hb Hn. pose proof (pow_loop_spec 63 1 a b ltac:(width)) as E.
  rewrite (as_i64_small a), Z.mul_1_l in E by done. exact E.
Qed.

Lemma pow_panics checks a b : is_i64 a -> is_i64 b ->
  mux_int_pow checks a b = None <-> checks = true /\ a = -1 /\ b = i64_min.
Proof.
  intros Ha Hb. unfold mux_int_pow. destruct (Z.ltb_spec b 0) as [Hn|Hn].
  - destruct (Z.eqb_spec a 1) as [->|?]; [split; [done|lia]|].
    destruct (Z.eqb_spec a (-1)) as [->|?]; [|split; [done|lia]].
    unfold checked_i64. destruct (in_range i64_min i64_max (- b)) eqn:E.
    + apply in_range_true in E. split; [done|width].
    + apply in_range_false in E. destruct checks; split; try done; [|by intros []]. intros _. split_and!; [done|done|width].
  - rewrite pow_loop_i64 by done. split; [done|width].
Qed.

Lemma mux_int_pow_spec checks a b r : is_i64 a -> is_i64 b -> mux_int_pow checks a b = Some r ->
  r = if 0 <=? b then as_i64 (a ^ b)
      else if a =? 1 then 1 else if a =? -1 then (if Z.even b then 1 else -1) else 0.
Proof.
  intros Ha Hb. unfold mux_int_pow. rewrite Z.ltb_antisym. destruct (Z.leb_spec 0 b) as [Hn|Hn]; cbn [negb].
  - rewrite pow_loop_i64 by done. congruence.
  - destruct (a =? 1); [congruence|]. destruct (a =? -1); [|congruence].
    unfold checked_i64. destruct (in_range i64_min i64_max (- b)) eqn:E.
    + intros [= <-]. rewrite Z.rem_mod_nonneg, Zmod_even, Z.even_opp by lia. by destruct (Z.even b).
    + apply in_range_false in E. assert (b = i64_min) as -> by width. by destruct checks; [done|intros [= <-]].
Qed.

(** ** Factorials and products of consecutive integers *)

(** [from * (from + 1) * ... ], [count] factors. *)
Fixpoint rising (count : nat) (from : Z) : Z :=
  match count with O => 1 | S count => from * rising count (from + 1) end.

Definition fact (n : Z) : Z := rising (Z.to_nat n) 1.

Lemma rising_pos count from : 1 <= from -> 1 <= rising count from.
Proof. revert from. induction count as [|count IH]; intros from Hf; cbn [rising]; [lia|]. specialize (IH (from + 1)). nia. Qed.

(** The bound of the saturating product is out of the range of the result. *)
Lemma factorial_loop_spec count : forall from result, 1 <= from -> 1 <= result <= u128_max ->
  factorial_loop count from result = Z.min u128_max (result * rising count from).
Proof.
  induction count as [|count IH]; intros from result Hf Hr; cbn [factorial_loop rising]; [lia|].
  pose proof (rising_pos count (from + 1) ltac:(lia)). rewrite IH by nia.
  unfold u128_max in *. destruct (Z.min_spec (2 ^ 128 - 1) (result * from)) as [[? ->]|[? ->]]; [|f_equal; ring].
  rewrite Z.min_l, Z.min_l; nia.
Qed.

Lemma permutations_loop_spec count : forall from result, 1 <= from -> 1 <= result <= u128_max ->
  permutations_loop count from result =
    if u128_max <? result * rising count from then Err "permutations result overflowed internal range"
    else Ok (result * rising count from).
Proof.
  induction count as [|count IH]; intros from result Hf Hr; cbn [permutations_loop rising].
  - rewrite Z.mul_1_r. by rewrite (proj2 (Z.ltb_ge _ _)) by lia.
  - pose proof (rising_pos count (from + 1) ltac:(lia)).
    destruct (Z.ltb_spec u128_max (result * from)).
    + rewrite (proj2 (Z.ltb_lt _ _)); [done|]. nia.
    + rewrite IH by nia. by rewrite Z.mul_assoc.
Qed.

Lemma checked_combinatoric_spec v op : 0 <= v ->
  checked_combinatoric v op = if v <=? i64_max then Ok v else Err (op +:+ " result overflowed int").
Proof.
  intros Hv. unfold checked_combinatoric, try_from_range, in_range.
  rewrite (proj2 (Z.leb_le i64_min v)) by width. by destruct (v <=? i64_max).
Qed.

Lemma factorial_spec n : 0 <= n ->
  factorial n = if fact n <=? i64_max then Ok (fact n) else Err "factorial result overflowed int".
Proof.
  intros Hn. unfold factorial. rewrite (proj2 (Z.ltb_ge n 0)) by lia.
  rewrite factorial_loop_spec by (unfold u128_max; lia). rewrite Z.mul_1_l.
  assert (fact n = rising (Z.to_nat (n - 1)) 2) as <-.
  { unfold fact. destruct (decide (n = 0)) as [->|]; [done|].
    replace (Z.to_nat n) with (S (Z.to_nat (n - 1))) by lia. cbn [rising]. change (1 + 1) with 2. lia. }
  pose proof (rising_pos (Z.to_nat n) 1 ltac:(lia)) as Hf. fold (fact n) in Hf.
  rewrite checked_combinatoric_spec by (unfold u128_max; lia).
  destruct (Z.leb_spec (fact n) i64_max).
  - rewrite Z.min_r by (unfold u128_max; width). by rewrite (proj2 (Z.leb_le _ _)).
  - by rewrite (proj2 (Z.leb_gt _ _)) by (unfold u128_max; width).
Qed.

(** ** Pascal's triangle *)

Fixpoint pascal (n k : nat) {struct n} : Z :=
  match n, k with
  | _, O => 1
  | O, S _ => 0
  | S n, S k => pascal n k + pascal n (S k)
  end.

Definition binomial (n k : Z) : Z := pascal (Z.to_nat n) (Z.to_nat k).

Lemma pascal_0_r n : pascal n 0 = 1.
Proof. by destruct n. Qed.

Lemma pascal_above n : forall k, (n < k)%nat -> pascal n k = 0.
Proof.
  induction n as [|n IH]; intros [|k] Hk; try lia; [done|]. cbn [pascal]. rewrite !IH by lia. done.
Qed.

Lemma pascal_diag n : pascal n n = 1.
Proof. induction n as [|n IH]; [done|]. cbn [pascal]. rewrite IH, pascal_above by lia. done. Qed.

Lemma pascal_nonneg n : forall k, 0 <= pascal n k.
Proof. induction n as [|n IH]; intros [|k]; cbn [pascal]; try lia. pose proof (IH k). pose proof (IH (S k)). lia. Qed.

Lemma pascal_sym i : forall j, pascal (i + j) i = pascal (i + j) j.
Proof.
  induction i as [|i IHi]; [intros j; cbn; by rewrite pascal_0_r, pascal_diag|].
  induction j as [|j IHj]; [rewrite Nat.add_0_r; by rewrite pascal_0_r, pascal_diag|].
  cbn [Nat.add pascal]. rewrite IHi. replace (i + S j)%nat with (S i + j)%nat in * by lia.
  rewrite IHj. lia.
Qed.

(** The absorption identity, by which the loop divides exactly. *)
Lemma pascal_absorb n : forall k, Z.of_nat (S k) * pascal (S n) (S k) = Z.of_nat (S n) * pascal n k.
Proof.
  induction n as [|n IH]; intros k.
  - destruct k as [|k]; [done|]. cbn. lia.
  - change (pascal (S (S n)) (S k)) with (pascal (S n) k + pascal (S n) (S k)).
    destruct k as [|k].
    + rewrite Z.mul_add_distr_l, IH, !pascal_0_r. lia.
    + pose proof (IH (S k)) as E1. pose proof (IH k) as E2.
      change (pascal (S n) (S k)) with (pascal n k + pascal n (S k)) in *.
      rewrite Z.mul_add_distr_l, E1. nia.
Qed.

Lemma pascal_step m i : pascal (m + i) i * (Z.of_nat m + Z.of_nat (S i)) / Z.of_nat (S i) = pascal (m + S i) (S i).
Proof.
  replace (m + S i)%nat with (S (m + i)) by lia. pose proof (pascal_absorb (m + i) i) as E.
  replace (Z.of_nat m + Z.of_nat (S i)) with (Z.of_nat (S (m + i))) by lia.
  rewrite Z.mul_comm, <- E, Z.mul_comm, Z.div_mul by lia. done.
Qed.

Lemma pascal_pos n : forall k, (k <= n)%nat -> 1 <= pascal n k.
Proof.
  induction n as [|n IH]; intros [|k] Hk; try lia; cbn [pascal]; [lia..|].
  pose proof (IH k ltac:(lia)). pose proof (pascal_nonneg n (S k)). lia.
Qed.

(** Along a diagonal the coefficients grow. *)
Lemma pascal_diag_mono m i j : (i <= j)%nat -> pascal (m + i) i <= pascal (m + j) j.
Proof.
  induction 1 as [|j Hj IH]; [done|]. replace (m + S j)%nat with (S (m + j)) by lia.
  change (pascal (S (m + j)) (S j)) with (pascal (m + j) j + pascal (m + j) (S j)).
  pose proof (pascal_nonneg (m + j) (S j)). lia.
Qed.

(** Every round holds a coefficient of the diagonal; the product can only leave [u128] when
    the coefficient itself is past every [i64]. *)
Lemma combinations_loop_spec count : forall m i, Z.of_nat m + Z.of_nat (i + count) <= i64_max ->
  let r := combinations_loop count (Z.of_nat m) (Z.of_nat (S i)) (pascal (m + i) i) in
  r = Ok (pascal (m + (i + count)) (i + count)) \/
  (r = Err "combinations result overflowed internal range" /\ i64_max < pascal (m + (i + count)) (i + count)).
Proof.
  induction count as [|count IH]; intros m i Hb; cbn [combinations_loop].
  - left. by rewrite Nat.add_0_r.
  - destruct (Z.ltb_spec u128_max (pascal (m + i) i * (Z.of_nat m + Z.of_nat (S i)))) as [Ho|Ho].
    + right. split; [done|]. pose proof (pascal_diag_mono m i (i + S count) ltac:(lia)).
      pose proof (pascal_nonneg (m + i) i). unfold u128_max, i64_max in *. nia.
    + rewrite pascal_step. replace (Z.of_nat (S i) + 1) with (Z.of_nat (S (S i))) by lia.
      replace (i + S count)%nat with (S i + count)%nat in * by lia. apply IH. done.
Qed.

Lemma combinations_spec n k : 0 <= k <= n -> n <= i64_max ->
  if binomial n k <=? i64_max then combinations n k = Ok (binomial n k)
  else exists e, combinations n k = Err e /\
    (e = "combinations result overflowed int" \/ e = "combinations result overflowed internal range").
Proof.
  intros Hk Hn. unfold combinations.
  replace ((n <? 0) || (k <? 0) || (n <? k)) with false
    by (symmetry; rewrite !orb_false_iff, !Z.ltb_ge; lia).
  set (k' := Z.min k (n - k)).
  assert (Hb : binomial n k = pascal (Z.to_nat (n - k') + (0 + Z.to_nat k')) (0 + Z.to_nat k')).
  { unfold binomial, k'. destruct (Z.min_spec k (n - k)) as [[? ->]|[? ->]].
    - f_equal; lia.
    - replace (Z.to_nat n) with (Z.to_nat k + Z.to_nat (n - k))%nat by lia. rewrite pascal_sym. f_equal; lia. }
  pose proof (combinations_loop_spec (Z.to_nat k') (Z.to_nat (n - k')) 0 ltac:(lia)) as Hl. cbv zeta in Hl.
  rewrite pascal_0_r, <- Hb in Hl. replace (Z.of_nat (Z.to_nat (n - k'))) with (n - k') in Hl by lia.
  change (Z.of_nat 1) with 1 in Hl. destruct Hl as [-> |[-> Hg]]; cbn [result_bind].
  - rewrite checked_combinatoric_spec by (unfold binomial; apply pascal_nonneg).
    destruct (binomial n k <=? i64_max); [done|]. eauto.
  - rewrite (proj2 (Z.leb_gt _ _)) by done. eauto.
Qed.

Lemma permutations_spec checks n k : 0 <= k <= n -> n <= i64_max ->
  (permutations checks n k = None <-> checks = true /\ n = i64_max /\ k = 0) /\
  (forall r, permutations checks n k = Some r ->
     let falling := rising (Z.to_nat k) (n - k + 1) in
     if falling <=? i64_max then r = Ok falling
     else exists e, r = Err e /\
       (e = "permutations result overflowed int" \/ e = "permutations result overflowed internal range")).
Proof.
  intros Hk Hn. unfold permutations.
  replace ((n <? 0) || (k <? 0) || (n <? k)) with false
    by (symmetry; rewrite !orb_false_iff, !Z.ltb_ge; lia).
  unfold checked_i64. destruct (in_range i64_min i64_max (n - k + 1)) eqn:Hr.
  - apply in_range_true in Hr. split; [split; [done|width]|]. intros r [= <-]. cbv zeta.
    rewrite Z.mod_small by width. replace (n - (n - k + 1) + 1) with k by lia.
    pose proof (rising_pos (Z.to_nat k) (n - k + 1) ltac:(lia)) as Hp.
    rewrite permutations_loop_spec by (unfold u128_max; lia). rewrite Z.mul_1_l.
    destruct (Z.ltb_spec u128_max (rising (Z.to_nat k) (n - k + 1))); cbn [result_bind].
    + rewrite (proj2 (Z.leb_gt _ _)) by (unfold u128_max in *; width). eauto.
    + rewrite checked_combinatoric_spec by lia. case_match; [done|]. eauto.
  - apply in_range_false in Hr. assert (n = i64_max /\ k = 0) as [-> ->] by width.
    split; [destruct checks; split; (done || by intros [])|]. destruct checks; [done|]. intros r [= <-]. done.
Qed.

(** C35: Integer powers, greatest common divisors, least common multiples and square roots
    are computed exactly as the reference functions on integers define them, for every
    pair of machine integers: a power with a natural exponent is the power modulo 2^64 in
    two's complement, a negative exponent gives the truncated reciprocal; a divisor or
    multiple past the largest integer is that integer.  In particular the loops end
    within 64, 130 and 33 rounds.  The one panic is a base of -1 with the least exponent
    in a build that traps overflow. *)
Theorem int_math_exact checks a b : is_i64 a -> is_i64 b ->
  (mux_int_pow checks a b = None <-> checks = true /\ a = -1 /\ b = i64_min) /\
  (forall r, mux_int_pow checks a b = Some r ->
     r = if 0 <=? b then as_i64 (a ^ b)
         else if a =? 1 then 1 else if a =? -1 then (if Z.even b then 1 else -1) else 0) /\
  mux_math_gcd a b = Some (Z.min i64_max (Z.gcd a b)) /\
  mux_math_lcm a b = Some (Z.min i64_max (Z.lcm a b)) /\
  mux_math_isqrt a = Some (Z.sqrt a).
Proof.
  intros Ha Hb. split_and!.
  - apply pow_panics; done.
  - intros r. apply mux_int_pow_spec; done.
  - apply mux_math_gcd_spec; done.
  - apply mux_math_lcm_spec; done.
  - by apply mux_math_isqrt_spec.
Qed.

Lemma int_math_exact_witness :
  mux_int_pow true 3 5 = Some 243 /\ mux_math_gcd i64_min 0 = Some i64_max /\ mux_math_lcm (-4) 6 = Some 12 /\
  mux_math_isqrt 99 = Some 9 /\
  (forall r, mux_int_pow true (-1) (-3) = Some r -> r = -1).
Proof.
  split_and!; [reflexivity..|]. intros r Hr.
  destruct (int_math_exact true (-1) (-3)) as (_ & E & _); [width..|]. by rewrite (E r Hr).
Defined.

(** Factorials, combinations and permutations are exact: the call answers the number
    itself when it is a machine integer, whatever the intermediate products are, and an
    error exactly when it is not; the coefficients are those of Pascal's triangle. *)
Lemma counting_exact checks n k : 0 <= k <= n -> n <= i64_max ->
  factorial n = (if fact n <=? i64_max then Ok (fact n) else Err "factorial result overflowed int") /\
  (if binomial n k <=? i64_max then combinations n k = Ok (binomial n k)
   else exists e, combinations n k = Err e /\
     (e = "combinations result overflowed int" \/ e = "combinations result overflowed internal range")) /\
  (permutations checks n k = None <-> checks = true /\ n = i64_max /\ k = 0) /\
  (forall r, permutations checks n k = Some r ->
     let falling := rising (Z.to_nat k) (n - k + 1) in
     if falling <=? i64_max then r = Ok falling
     else exists e, r = Err e /\
       (e = "permutations result overflowed int" \/ e = "permutations result overflowed internal range")).
Proof.
  intros Hk Hn. split; [apply factorial_spec; lia|].
  split; [by apply combinations_spec|by apply permutations_spec].
Qed.

(** * Floating-point mathematics ([src/src/math.rs])

    The functions of the mathematics package that compute with floats themselves: compensated
    sums and products, clamping, interpolation and the error function.  The others call one
    function of the platform. *)

Definition infinity : f64 := 0x7ff0000000000000.
Definition quiet_nan : f64 := 0x7ff8000000000000.

Definition math_sqrt (x : f64) : f64 := fsqrt x.
Definition math_abs (x : f64) : f64 := fabs x.
Definition math_min (a b : f64) : f64 := fmin a b.
Definition math_max (a b : f64) : f64 := fmax a b.

(** The loop of [sum]; [>=] is the mirror image of [<=]. *)
Fixpoint sum_loop (values : list f64) (total compensation : f64) : f64 :=
  match values with
  | [] => fadd total compensation
  | v :: values =>
      let next := fadd total v in
      let compensation :=
        if fleb (fabs v) (fabs total) then fadd compensation (fadd (fsub total next) v)
        else fadd compensation (fadd (fsub v next) total) in
      sum_loop values next compensation
  end.

Definition sum (values : list f64) : f64 := sum_loop values fzero fzero.

(** [values.iter().copied().product()]. *)
Definition iter_product (values : list f64) : f64 := foldl fmul one values.

Fixpoint product_loop (all values : list f64) (total compensation : f64) : f64 :=
  match values with
  | [] => fadd total compensation
  | v :: values =>
      let next := fmul total v in
      if negb (is_finite next) then iter_product all
      else
        let error := mul_add total v (fneg next) in
        product_loop all values next (mul_add compensation v error)
  end.

Definition product (values : list f64) : f64 := product_loop values values one fzero.

(** The coefficients of the approximation, in the order of the source. *)
Definition erf_p : f64 := 0x3fd4f740a93d7b8c.
Definition erf_a5 : f64 := 0x3ff0fb844255a12d.
Definition erf_a4 : f64 := 0x3ff7401c57014c39.
Definition erf_a3 : f64 := 0x3ff6be1c55bae157.
Definition erf_a2 : f64 := 0x3fd23531cc3c1469.
Definition erf_a1 : f64 := 0x3fd04f20c6ec5a7e.

Definition erf `{Libm} (x : f64) : f64 :=
  if is_nan x then quiet_nan
  else if is_infinite x then signum x
  else
    let sign := signum x in
    let ax := fabs x in
    let t := fdiv one (fadd one (fmul erf_p ax)) in
    let polynomial :=
      fmul (fadd (fmul (fsub (fmul (fadd (fmul (fsub (fmul erf_a5 t) erf_a4) t) erf_a3) t) erf_a2) t) erf_a1) t in
    fmul sign (fsub one (fmul polynomial (libm_exp (fmul (fneg ax) ax)))).

Definition clamp (value lower upper : f64) : f64 :=
  let '(low, high) := if fleb lower upper then (lower, upper) else (upper, lower) in
  fmin (fmax value low) high.

Definition clamp_checked (value lower upper : f64) : result f64 string :=
  if fltb upper lower then Err "clamp lower bound must not exceed upper bound"
  else Ok (fmin (fmax value lower) upper).

Definition lerp (start stop amount : f64) : f64 := fadd start (fmul (fsub stop start) amount).

Definition inverse_lerp (start stop value : f64) : result f64 string :=
  if feqb start stop then Err "inverse_lerp endpoints must differ"
  else Ok (fdiv (fsub value start) (fsub stop start)).

Definition two : f64 := 0x4000000000000000.
Definition three : f64 := 0x4008000000000000.

Definition smoothstep (edge0 edge1 value : f64) : result f64 string :=
  if fleb edge1 edge0 then Err "smoothstep edges must be strictly increasing"
  else
    let t := clamp (fdiv (fsub value edge0) (fsub edge1 edge0)) fzero one in
    Ok (fmul (fmul t t) (fsub three (fmul two t))).

(** ** The exported functions *)

(** [float_list]: the first element that is not a float is the error. *)
Fixpoint floats_of (values : list value) : result (list f64) string :=
  match values with
  | [] => Ok []
  | VFloat f :: values => let? fs := floats_of values in Ok (f :: fs)
  | _ :: _ => Err "values must contain only floats"
  end.

Definition float_list (v : option value) : result (list f64) string :=
  match v with
  | Some (VList values) => floats_of values
  | _ => Err "values must be a list<float>"
  end.

Definition float_wrap (r : result f64 string) (a : alloc_answer) (w : world MathErrorKind unit) : value * world MathErrorKind unit :=
  match r with
  | Ok f => (VResult (Ok (VFloat f)), w)
  | Err e => math_result_err e a w
  end.

Definition mux_math_sum (values : option value) : alloc_answer -> world MathErrorKind unit -> value * world MathErrorKind unit :=
  float_wrap (let? fs := float_list values in Ok (sum fs)).
Definition mux_math_product (values : option value) : alloc_answer -> world MathErrorKind unit -> value * world MathErrorKind unit :=
  float_wrap (let? fs := float_list values in Ok (product fs)).
Definition mux_math_clamp (value lower upper : f64) : f64 := clamp value lower upper.
Definition mux_math_clamp_checked (value lower upper : f64) : alloc_answer -> world MathErrorKind unit -> Value.value * world MathErrorKind unit :=
  float_wrap (clamp_checked value lower upper).
Definition mux_math_lerp (start stop amount : f64) : f64 := lerp start stop amount.
Definition mux_math_inverse_lerp (start stop value : f64) : alloc_answer -> world MathErrorKind unit -> Value.value * world MathErrorKind unit :=
  float_wrap (inverse_lerp start stop value).
Definition mux_math_smoothstep (edge0 edge1 value : f64) : alloc_answer -> world MathErrorKind unit -> Value.value * world MathErrorKind unit :=
  float_wrap (smoothstep edge0 edge1 value).

(** ** Properties *)

(** Clamping between bounds in order. *)
Lemma clamp_ordered value low high : is_nan low = false -> is_nan high = false -> fleb low high = true ->
  let r := fmin (fmax value low) high in
  is_nan r = false /\ fleb low r = true /\ fleb r high = true /\
  (is_nan value = false -> fleb low value = true -> fleb value high = true -> r = value).
Proof.
  intros Hl Hh Hle. destruct (fmax_spec value low Hl) as (Hn & Hm & Hc & Hid).
  destruct (fmin_spec (fmax value low) high Hn Hh) as (Hn' & Hm' & Hc' & Hid'). cbv zeta.
  split_and!; [done| |done|].
  - by destruct Hc' as [-> | ->].
  - intros Hv H1 H2. rewrite Hid in * by done. auto.
Qed.

(** Clamping is total on numbers and normalises reversed bounds: for any two bounds that
    are numbers, and any value, a not-a-number included, the answer is a number between the
    smaller and the larger bound, and it is the value itself when that lies between them.
    The checked variant answers the same, and an error exactly when the bounds are reversed. *)
Lemma clamp_between value lower upper : is_nan lower = false -> is_nan upper = false ->
  let low := if fleb lower upper then lower else upper in
  let high := if fleb lower upper then upper else lower in
  let r := clamp value lower upper in
  is_nan r = false /\ fleb low r = true /\ fleb r high = true /\
  (is_nan value = false -> fleb low value = true -> fleb value high = true -> r = value) /\
  clamp_checked value lower upper =
    (if fleb lower upper then Ok r else Err "clamp lower bound must not exceed upper bound").
Proof.
  intros Hl Hu. cbv zeta. unfold clamp, clamp_checked. rewrite (fltb_fleb upper lower) by done.
  destruct (fleb lower upper) eqn:E; cbv beta iota delta [negb].
  - pose proof (clamp_ordered value lower upper Hl Hu E) as (? & ? & ? & ?). by split_and!.
  - assert (fleb upper lower = true) as E'.
    { pose proof (fltb_fleb lower upper Hl Hu) as E2. pose proof (fltb_fleb upper lower Hu Hl) as E3.
      rewrite E in E3. unfold fltb, fleb, SpecFloat.SFltb, SpecFloat.SFleb in *. by repeat case_match. }
    pose proof (clamp_ordered value upper lower Hu Hl E') as (? & ? & ? & ?). by split_and!.
Qed.

(** Clamping a not-a-number between reversed bounds 1 and 0. *)
(** Small terms are not lost next to a large total: 1, 10^100, 1, -10^100 add up to 2. *)
Example sum_compensates :
  sum [one; 0x54b249ad2594c37d; one; 0xd4b249ad2594c37d] = two /\
  foldl fadd fzero [one; 0x54b249ad2594c37d; one; 0xd4b249ad2594c37d] = fzero.
Proof. split; vm_compute; reflexivity. Qed.
