(* ===== verification/Utf8.v ===== *)
(** * Decoding UTF-8 ([str::from_utf8], used by src/src/net.rs and src/src/json.rs)

    The validation tables of Rust's [core::str]: no overlong forms, no surrogates,
    nothing past U+10FFFF.  [utf8_decode_spec] shows that the decoder accepts exactly
    the encodings of lists of scalar values, so a [String] built from bytes is the
    text it encodes. *)

From S2P Require Import Prelude AssocList Value Str.

(** The text of an ASCII literal. *)
Definition txt (s : string) : text :=
  (fun c => Z.of_nat (Ascii.nat_of_ascii c)) <$> String.list_ascii_of_string s.

Definition is_cont (b : Z) : bool := in_range 128 191 b.

(** The second byte of a three or four byte form, by its first byte. *)
Definition second_of_three (b0 b1 : Z) : bool :=
  if b0 =? 224 then in_range 160 191 b1 else if b0 =? 237 then in_range 128 159 b1 else is_cont b1.
Definition second_of_four (b0 b1 : Z) : bool :=
  if b0 =? 240 then in_range 144 191 b1 else if b0 =? 244 then in_range 128 143 b1 else is_cont b1.

Fixpoint utf8_decode (bs : list Z) : option text :=
  match bs with
  | [] => Some []
  | b0 :: r0 =>
      if in_range 0 127 b0 then cons b0 <$> utf8_decode r0
      else if in_range 194 223 b0 then
        match r0 with
        | b1 :: r1 =>
            if is_cont b1 then cons ((b0 - 192) * 64 + (b1 - 128)) <$> utf8_decode r1 else None
        | _ => None
        end
      else if in_range 224 239 b0 then
        match r0 with
        | b1 :: b2 :: r2 =>
            if second_of_three b0 b1 && is_cont b2
            then cons ((b0 - 224) * 4096 + (b1 - 128) * 64 + (b2 - 128)) <$> utf8_decode r2 else None
        | _ => None
        end
      else if in_range 240 244 b0 then
        match r0 with
        | b1 :: b2 :: b3 :: r3 =>
            if second_of_four b0 b1 && is_cont b2 && is_cont b3
            then cons ((b0 - 240) * 262144 + (b1 - 128) * 4096 + (b2 - 128) * 64 + (b3 - 128))
                   <$> utf8_decode r3 else None
        | _ => None
        end
      else None
  end.

(** [str::from_utf8(bytes).is_ok()]. *)
Definition is_utf8 (bs : list Z) : bool := match utf8_decode bs with Some _ => true | None => false end.

(** Decide every range test of a goal or of the context. *)
Ltac ranges :=
  repeat match goal with
  | H : in_range _ _ _ = true |- _ => apply in_range_true in H
  | H : in_range _ _ _ = false |- _ => apply in_range_false in H
  end.

Ltac euclid := Z.to_euclidean_division_equations; lia.

Lemma utf8_decode_char c bs : scalar c -> utf8_decode (utf8_char c ++ bs) = cons c <$> utf8_decode bs.
Proof.
  unfold scalar, is_scalar. intros [H|H]%orb_true_iff; ranges; unfold utf8_char.
  all: repeat case_match; bool_to_prop; try lia; cbn [app utf8_decode];
    unfold second_of_three, second_of_four, is_cont.
  all: repeat (case_match; bool_to_prop; ranges; try euclid).
  all: try (f_equal; f_equal; euclid).
  all: exfalso.
  all: repeat match goal with H : _ && _ = false |- _ => apply andb_false_iff in H as [H|H] end; ranges; euclid.
Qed.

Lemma utf8_decode_utf8 s : Forall scalar s -> utf8_decode (utf8 s) = Some s.
Proof.
  induction 1 as [|c s Hc _ IH]; [done|]. cbn [utf8 flat_map].
  rewrite utf8_decode_char by done. fold (utf8 s). by rewrite IH.
Qed.

(** What is decoded is what [utf8_char] writes. *)
Lemma utf8_decode_sound n : forall bs s, (length bs <= n)%nat -> utf8_decode bs = Some s ->
  Forall scalar s /\ utf8 s = bs.
Proof.
  induction n as [|n IH]; intros [|b0 r0] s Hl E; cbn [length] in Hl; try lia;
    try (injection E as <-; by split).
  cbn [utf8_decode] in E.
  assert (forall c r, (length r <= n)%nat -> scalar c -> utf8_char c ++ r = b0 :: r0 ->
    cons c <$> utf8_decode r = Some s -> Forall scalar s /\ utf8 s = b0 :: r0) as Hc.
  { intros c r Hr Hc Ec Es. destruct (utf8_decode r) as [t|] eqn:Et; [|done]. injection Es as <-.
    destruct (IH r t Hr Et) as [Ht Eu]. split; [by constructor|].
    cbn [utf8 flat_map]. fold (utf8 t). by rewrite Eu. }
  unfold second_of_three, second_of_four, is_cont in E.
  repeat (case_match; try done); bool_to_prop; ranges; cbn [length] in *;
    (eapply Hc; [| | |exact E]; [lia
    |unfold scalar, is_scalar; apply orb_true_iff; rewrite !in_range_true; lia
    |unfold utf8_char; repeat case_match; bool_to_prop; try lia; cbn [app]; repeat f_equal; euclid]).
Qed.

Lemma utf8_decode_spec bs s : utf8_decode bs = Some s <-> Forall scalar s /\ utf8 s = bs.
Proof.
  split; [by apply utf8_decode_sound with (length bs)|]. intros [Hs <-]. by apply utf8_decode_utf8.
Qed.

Lemma is_utf8_spec bs : is_utf8 bs = true <-> exists s, Forall scalar s /\ utf8 s = bs.
Proof.
  unfold is_utf8. destruct (utf8_decode bs) as [s|] eqn:E.
  - apply utf8_decode_spec in E. split; [by exists s|done].
  - split; [done|]. intros [s H]. apply utf8_decode_spec in H. congruence.
Qed.

(** ** Bytes of a text, and splitting at a character *)

Lemma utf8_char_byte c : scalar c -> Forall (fun b => 0 <= b < 256) (utf8_char c).
Proof.
  intros Hc%scalar_range. unfold utf8_char.
  repeat case_match; ranges; repeat constructor; euclid.
Qed.

Lemma utf8_byte s : Forall scalar s -> Forall (fun b => 0 <= b < 256) (utf8 s).
Proof. induction 1; [constructor|]. cbn [utf8 flat_map]. apply Forall_app. split; [by apply utf8_char_byte|done]. Qed.

Lemma find_char c s r : c ∉ s -> find_sub [c] (s ++ c :: r) = Some (length s).
Proof.
  induction s as [|a s IH]; intros H; cbn [app find_sub is_prefix].
  - by rewrite Z.eqb_refl.
  - apply not_elem_of_cons in H as [Hne H]. rewrite (proj2 (Z.eqb_neq c a)) by congruence. cbn [andb].
    by rewrite IH.
Qed.

Lemma find_char_none c s : c ∉ s -> find_sub [c] s = None.
Proof.
  induction s as [|a s IH]; intros H; [done|]. cbn [find_sub is_prefix].
  apply not_elem_of_cons in H as [Hne H]. rewrite (proj2 (Z.eqb_neq c a)) by congruence. cbn [andb]. by rewrite IH.
Qed.

Lemma split_char_cons c s r : c ∉ s -> split_text (s ++ c :: r) [c] = s :: split_text r [c].
Proof.
  intros H. unfold split_text.
  change (split_on (S (length (s ++ c :: r))) [c] (s ++ c :: r)) with
    (match find_sub [c] (s ++ c :: r) with
     | None => [s ++ c :: r]
     | Some i => take i (s ++ c :: r) :: split_on (length (s ++ c :: r)) [c] (drop (i + length [c]) (s ++ c :: r))
     end).
  rewrite find_char, take_app_length by done. f_equal.
  replace (drop _ _) with r by (rewrite cons_middle, app_assoc, <- (length_app s [c]); by rewrite drop_app_length).
  rewrite length_app. cbn [length].
  assert (forall n m t, (length t < n)%nat -> (length t < m)%nat -> split_on n [c] t = split_on m [c] t) as Hf.
  { induction n as [|n IH]; intros [|m] t H1 H2; try lia. cbn [split_on].
    destruct (find_sub [c] t) as [i|] eqn:E; [|done]. f_equal.
    assert (t <> []) by (intros ->; done). destruct t as [|a t]; [done|]. cbn [length] in *.
    apply IH; rewrite length_drop; cbn [length]; lia. }
  apply Hf; lia.
Qed.

Lemma split_char_none c s : c ∉ s -> split_text s [c] = [s].
Proof. intros H. unfold split_text. cbn [split_on]. by rewrite find_char_none. Qed.

Lemma split_char_join c parts : parts <> [] -> Forall (fun p => c ∉ p) parts ->
  split_text (join [c] parts) [c] = parts.
Proof.
  induction parts as [|p [|q parts] IH]; intros Hne H; [done| |].
  - apply Forall_cons in H as [H _]. by apply split_char_none.
  - apply Forall_cons in H as [Hp H]. rewrite join_cons by done. cbn [app]. rewrite split_char_cons by done.
    by rewrite IH.
Qed.

(** ASCII text is its own encoding. *)
Lemma utf8_small c : 0 <= c < 128 -> utf8_char c = [c].
Proof. intros H. unfold utf8_char. by rewrite (proj2 (Z.ltb_lt c 128)) by lia. Qed.

Lemma utf8_ascii s : Forall (fun c => 0 <= c < 128) s -> utf8 s = s.
Proof. induction 1 as [|c s Hc _ IH]; [done|]. cbn [utf8 flat_map]. rewrite utf8_small by done. cbn. f_equal. apply IH. Qed.
