(* ===== verification/Coverage.v ===== *)
(** * Coverage counters ([src/src/coverage.rs])

    Compiled tests record the statements and branches they execute; at exit the counts are
    written to a file that ends in a marker.  The [BTreeMap] of the counts is the list of its
    entries in key order. *)

From S2P Require Import Prelude AssocList Value Str Utf8.

Record CoverageSite : Type := mk_site { file : list Z; line : Z; branch : option (Z * bool) }.
#[export] Instance site_eq_dec : EqDecision CoverageSite.
Proof. solve_decision. Defined.

(** The derived order: the fields in turn; no branch comes before a branch. *)
Definition site_key (s : CoverageSite) : list Z * (Z * option (Z * bool)) := (file s, (line s, branch s)).
Definition site_cmp (a b : CoverageSite) : comparison :=
  pair_cmp (lex_cmp Z.compare) (pair_cmp Z.compare (option_cmp (pair_cmp Z.compare bool_cmp))) (site_key a) (site_key b).

Record CoverageCounts : Type := mk_counts { sites : list (CoverageSite * Z); overflowed : bool }.
Definition default_counts : CoverageCounts := mk_counts [] false.

(** [entry(site).or_default()] and the addition; the flag tells whether it overflowed. *)
Fixpoint add_hit (site : CoverageSite) (m : list (CoverageSite * Z)) : list (CoverageSite * Z) * bool :=
  match m with
  | [] => ([(site, 1)], false)
  | (s, n) :: r =>
      match site_cmp site s with
      | Lt => ((site, 1) :: m, false)
      | Eq => if n =? usize_max then (m, true) else ((s, n + 1) :: r, false)
      | Gt => let '(r, o) := add_hit site r in ((s, n) :: r, o)
      end
  end.

Definition record (site : CoverageSite) (c : CoverageCounts) : CoverageCounts :=
  let '(m, o) := add_hit site (sites c) in mk_counts m (overflowed c || o).

Definition hex_char (d : Z) : Z := if d <? 10 then 48 + d else 87 + d.
Definition hex_encode (bytes : list Z) : text :=
  flat_map (fun b => [hex_char (Z.shiftr b 4); hex_char (Z.land b 15)]) bytes.

Definition tab : text := [9].
Definition report_line (e : CoverageSite * Z) : text :=
  let '(site, count) := e in
  match branch site with
  | None => txt "S" ++ tab ++ hex_encode (file site) ++ tab ++ mux_int_to_string (line site) ++ tab ++ mux_int_to_string count ++ [10]
  | Some (id, taken) =>
      txt "B" ++ tab ++ hex_encode (file site) ++ tab ++ mux_int_to_string (line site) ++ tab ++ mux_int_to_string id ++ tab
      ++ (if taken then txt "1" else txt "0") ++ tab ++ mux_int_to_string count ++ [10]
  end.

(** An output takes text and may fail; nothing is written behind a failure. *)
Section Report.
Context {O : Type} (write_all : text -> O -> result unit string * O).

Fixpoint write_lines (ls : list text) (o : O) : result unit string * O :=
  match ls with
  | [] => (Ok tt, o)
  | l :: r => match write_all l o with (Ok _, o) => write_lines r o | (Err e, o) => (Err e, o) end
  end.

Definition write_report (c : CoverageCounts) (o : O) : result unit string * O :=
  if overflowed c then (Err "coverage counter overflow", o)
  else write_lines ([txt "MUXCOV2" ++ [10]] ++ (report_line <$> sites c) ++ [txt "END" ++ [10]]) o.

(** [COVERAGE] is taken; [flush] empties the buffer into the file. *)
Definition finish_coverage (flush : O -> O) (st : option CoverageCounts) (o : O) : option CoverageCounts * O :=
  (None, match st with
         | None => o
         | Some c => match write_report c o with (Ok _, o) => flush o | (Err _, o) => o end
         end).
End Report.

(** The initialiser of [COVERAGE]: the variable is set, the file can be created, the exit handler registered. *)
Definition start_coverage (path_set created registered : bool) : option CoverageCounts :=
  if path_set && created && registered then Some default_counts else None.

Definition mux_coverage_record (f : option (list Z)) (line kind branch_id taken : Z) (st : option CoverageCounts) : option CoverageCounts :=
  match f with
  | None => st
  | Some file =>
      if (line <=? 0) || negb ((kind =? 0) || (kind =? 1)) then st
      else record (mk_site file line (if kind =? 1 then Some (branch_id, negb (taken =? 0)) else None)) <$> st
  end.

(** ** Properties *)

Lemma site_cmp_ord : ord_on (fun _ => True) site_cmp.
Proof.
  apply (ord_on_impl (fun s => Forall (fun _ => True) (file s) /\ True /\ option_ok (fun p : Z * bool => True /\ True) (branch s))).
  { intros s _. split_and!; [by apply Forall_true|done|by destruct (branch s)]. }
  apply (ord_on_proj site_key (fun k => Forall (fun _ => True) k.1 /\ True /\ option_ok (fun p : Z * bool => True /\ True) k.2.2)).
  apply (pair_cmp_ord (Forall (fun _ => True)) (fun k => True /\ option_ok (fun p : Z * bool => True /\ True) k.2)); [exact Zlex_ord|].
  apply (pair_cmp_ord (fun _ => True)); [exact Zcompare_ord|]. apply option_cmp_ord.
  apply (pair_cmp_ord (fun _ => True) (fun _ => True)); [exact Zcompare_ord|exact bool_ord].
Qed.

Lemma site_cmp_eq a b : site_cmp a b = Eq -> a = b.
Proof.
  destruct a as [f l br], b as [f' l' br']. unfold site_cmp, pair_cmp, site_key. cbn [fst snd file line branch].
  destruct (lex_cmp Z.compare f f') eqn:E1; [|done..]. destruct (l ?= l') eqn:E2; [|done..].
  apply lex_cmp_eq in E1. apply Z.compare_eq in E2.
  assert (f = f') as -> by (induction E1 as [|x y r r' E%Z.compare_eq _ IH]; congruence).
  destruct br as [[i t]|], br' as [[i' t']|]; cbn; try done; [|by intros; subst].
  destruct (i ?= i') eqn:E3; [|done..]. apply Z.compare_eq in E3. intros E4. destruct t, t'; try done; by subst.
Qed.

(** Keys in strictly increasing order. *)
Definition in_order (m : list (CoverageSite * Z)) : Prop := StronglySorted (fun a b => site_cmp a b = Lt) m.*1.

Definition hits (site : CoverageSite) (m : list (CoverageSite * Z)) : Z :=
  match list_find (fun e => e.1 = site) m with Some (_, (_, n)) => n | None => 0 end.

Lemma hits_cons site s n r : hits site ((s, n) :: r) = if decide (s = site) then n else hits site r.
Proof.
  unfold hits. cbn [list_find fst]. case_decide; [done|]. destruct (list_find _ r) as [[i [s' n']]|]; done.
Qed.

Lemma hits_absent site m : site ∉ m.*1 -> hits site m = 0.
Proof.
  induction m as [|[s n] r IH]; [done|]. cbn [fmap list_fmap fst]. intros [Hne Hr]%not_elem_of_cons. rewrite hits_cons, decide_False by done. by apply IH.
Qed.

(** The recorded site has one hit more, unless its counter is full. *)
Lemma add_hit_spec site m m' o : in_order m -> add_hit site m = (m', o) ->
  in_order m' /\ (forall s, s ∈ m'.*1 <-> s = site \/ s ∈ m.*1) /\
  (o = true <-> hits site m = usize_max) /\
  (o = false -> forall s, hits s m' = hits s m + if decide (s = site) then 1 else 0).
Proof.
  unfold in_order. revert m' o. induction m as [|[s n] r IH]; intros m' o Hs; cbn [add_hit].
  - intros [= <- <-]. cbn [fmap list_fmap fst]. split_and!; [by repeat constructor|intros s; by rewrite elem_of_cons|done|].
    intros _ s. rewrite hits_cons. cbn. destruct (decide (site = s)), (decide (s = site)); by subst.
  - cbn [fmap list_fmap fst] in Hs. apply StronglySorted_inv in Hs as [Hr Hf].
    assert (Hlt : forall x, site_cmp x s = Lt -> Forall (fun b => site_cmp x b = Lt) r.*1).
    { intros x Hx. eapply Forall_impl; [exact Hf|]. intros b Hb. by apply (ord_lt_trans _ _ site_cmp_ord x s b). }
    assert (Hirr : forall x, site_cmp x x <> Lt) by (intros x; by rewrite (ord_refl _ _ site_cmp_ord x)).
    destruct (site_cmp site s) eqn:E.
    + apply site_cmp_eq in E as <-. rewrite hits_cons, decide_True by done. destruct (Z.eqb_spec n usize_max) as [->|Hn]; intros [= <- <-]; cbn [fmap list_fmap fst].
      * split_and!; [by constructor|intros x; rewrite elem_of_cons; naive_solver|done|done].
      * split_and!; [by constructor|intros x; rewrite elem_of_cons; naive_solver|done|].
        intros _ x. rewrite !hits_cons. destruct (decide (site = x)), (decide (x = site)); subst; try done; lia.
    + intros [= <- <-]. cbn [fmap list_fmap fst]. assert (Hnot : site ∉ s :: r.*1).
      { intros [->|Hin]%elem_of_cons; [by apply Hirr in E|]. specialize (Hlt _ E). rewrite Forall_forall in Hlt. by apply Hlt, Hirr in Hin. }
      pose proof (hits_absent site ((s, n) :: r) Hnot) as H0. split_and!; [by repeat constructor; auto|intros x; by rewrite elem_of_cons|by rewrite H0|].
      intros _ x. rewrite (hits_cons x site). destruct (decide (x = site)) as [->|Hne]; [rewrite decide_True by done; lia|].
      rewrite decide_False by done. lia.
    + destruct (add_hit site r) as [r' o'] eqn:Er. intros [= <- <-]. destruct (IH r' o' Hr eq_refl) as (K1 & K2 & K3 & K4).
      assert (Hne : s <> site). { intros ->. by rewrite (ord_refl _ _ site_cmp_ord site) in E. }
      cbn [fmap list_fmap fst]. rewrite hits_cons, decide_False by done. split_and!; [| |done|].
      * constructor; [done|]. apply Forall_forall. intros x [->|Hx]%K2; [by rewrite (ord_opp _ _ site_cmp_ord), E|].
        rewrite Forall_forall in Hf. by apply Hf.
      * intros x. rewrite !elem_of_cons, K2. naive_solver.
      * intros Ho x. rewrite !hits_cons. destruct (decide (s = x)) as [<-|]; [by rewrite decide_False by done; lia|]. by apply K4.
Qed.

Lemma in_order_lookup m s n : in_order m -> (s, n) ∈ m <-> s ∈ m.*1 /\ hits s m = n.
Proof.
  unfold in_order. induction m as [|[s' n'] r IH]; cbn [fmap list_fmap fst].
  - intros _. rewrite !elem_of_nil. naive_solver.
  - intros [Hr Hf]%StronglySorted_inv. rewrite hits_cons, !elem_of_cons, IH by done. destruct (decide (s' = s)) as [<-|Hne]; [|naive_solver].
    assert (s' ∉ r.*1). { intros Hin. rewrite Forall_forall in Hf. apply Hf in Hin. by rewrite (ord_refl _ _ site_cmp_ord s') in Hin. }
    naive_solver.
Qed.

(** The arguments of one call, and the site it counts. *)
Definition call : Type := option (list Z) * (Z * Z) * (Z * Z).
Definition make_call (c : call) : option CoverageCounts -> option CoverageCounts :=
  let '(f, (l, kind), (id, taken)) := c in mux_coverage_record f l kind id taken.
Definition site_of (c : call) : option CoverageSite :=
  let '(f, (l, kind), (id, taken)) := c in
  f ≫= fun f => if (l <=? 0) || negb ((kind =? 0) || (kind =? 1)) then None
                else Some (mk_site f l (if kind =? 1 then Some (id, negb (taken =? 0)) else None)).

(** How often [s] was executed. *)
Definition executed (s : CoverageSite) (cs : list call) : Z := Z.of_nat (length (filter (fun c => site_of c = Some s) cs)).

Lemma make_call_spec c st : make_call c st = match site_of c with Some s => record s <$> st | None => st end.
Proof.
  destruct c as [[[f|] [l kind]] [id taken]]; [|done]. cbn [make_call site_of mbind option_bind]. unfold mux_coverage_record. by case_match.
Qed.

Lemma executed_app s cs c : executed s (cs ++ [c]) = executed s cs + if decide (site_of c = Some s) then 1 else 0.
Proof. unfold executed. rewrite filter_app, length_app, filter_cons, filter_nil. case_decide; cbn; lia. Qed.

Lemma executed_bound s cs : 0 <= executed s cs <= Z.of_nat (length cs).
Proof. unfold executed. pose proof (length_filter (fun c => site_of c = Some s) cs). lia. Qed.

Lemma record_calls cs : Z.of_nat (length cs) <= usize_max -> exists m,
  foldl (fun st c => make_call c st) (Some default_counts) cs = Some (mk_counts m false) /\ in_order m /\
  forall s, hits s m = executed s cs /\ (s ∈ m.*1 <-> 0 < executed s cs).
Proof.
  induction cs as [|c cs IH] using rev_ind; intros Hl.
  - exists []. split_and!; [done|constructor|]. intros s. split; [done|]. cbn. by rewrite elem_of_nil.
  - rewrite length_app in Hl. cbn in Hl. destruct IH as (m & E & Ho & Hm); [lia|]. rewrite foldl_app, E. cbn [foldl]. rewrite make_call_spec.
    destruct (site_of c) as [site|] eqn:Es.
    + unfold record. cbn [fmap option_fmap option_map sites overflowed]. destruct (add_hit site m) as [m' o] eqn:Ea.
      destruct (add_hit_spec site m m' o Ho Ea) as (K1 & K2 & K3 & K4).
      assert (o = false) as ->.
      { destruct o; [|done]. pose proof (proj1 K3 eq_refl) as Hf. rewrite (proj1 (Hm site)) in Hf. pose proof (executed_bound site cs). lia. }
      exists m'. split_and!; [done..|]. intros s. rewrite executed_app, Es, K2, (proj2 (Hm s)), K4, (proj1 (Hm s)) by done.
      pose proof (executed_bound s cs). destruct (decide (s = site)) as [->|Hne].
      * rewrite decide_True by done. split; [done|]. naive_solver lia.
      * rewrite decide_False by congruence. rewrite Z.add_0_r. naive_solver.
    + exists m. split_and!; [done..|]. intros s. rewrite executed_app, Es, decide_False by done. rewrite Z.add_0_r. apply Hm.
Qed.

(** A report in memory. *)
Definition append_text (t : text) (o : text) : result unit string * text := (Ok tt, o ++ t).

Lemma write_lines_memory ls o : write_lines append_text ls o = (Ok tt, o ++ concat ls).
Proof. revert o. induction ls as [|l r IH]; intros o; cbn [write_lines concat append_text]; [by rewrite app_nil_r|]. by rewrite IH, app_assoc. Qed.

(** A coverage report is exact.  Whatever calls a test makes (fewer than 2^64 of them), the report is
    the header, one line for each site that was executed, in order, and the end marker, and the line
    of a site carries the number of calls that recorded it; calls with a null file, a line that is
    not positive or an unknown kind leave no trace. *)
Lemma coverage_report_exact (calls : list call) : Z.of_nat (length calls) <= usize_max -> exists c,
  foldl (fun st c => make_call c st) (start_coverage true true true) calls = Some c /\
  in_order (sites c) /\
  (forall s n, (s, n) ∈ sites c <-> 0 < executed s calls /\ n = executed s calls) /\
  write_report append_text c [] =
    (Ok tt, txt "MUXCOV2" ++ [10] ++ concat (report_line <$> sites c) ++ txt "END" ++ [10]).
Proof.
  intros Hl. destruct (record_calls calls Hl) as (m & E & Ho & Hm). exists (mk_counts m false). split_and!; [done|done| |].
  - intros s n. cbn [sites]. rewrite in_order_lookup, (proj1 (Hm s)), (proj2 (Hm s)) by done. naive_solver.
  - unfold write_report. cbn [overflowed sites]. rewrite write_lines_memory, !concat_app. cbn [concat app]. by rewrite !app_nil_r, <- !app_assoc.
Qed.
