(* ===== verification/Env.v ===== *)
(** * The process environment ([mux_env_*] of src/src/std.rs)

    The environment is a map from names to values, octets both; the mutex that every
    operation holds makes them atomic.  An argument is the C string behind a pointer,
    [None] for a null one.  [a] is what the allocation of an error object answers. *)

From S2P Require Import Prelude AssocList Object Value Heap Display StdErrors Str Utf8.

(** [CStr::to_str] and [OsString::into_string]. *)
Definition to_str (s : string) : option string :=
  match utf8_decode (txt s) with Some _ => Some s | None => None end.

(** [std::env::var]. *)
Inductive VarError : Type := NotPresent | VarNotUnicode.
Definition env_var (key : string) (env : gmap string string) : result string VarError :=
  match env !! key with
  | None => Err NotPresent
  | Some v => match to_str v with Some v => Ok v | None => Err VarNotUnicode end
  end.

Definition validate_env_key (key : string) : result unit string :=
  if bool_decide (key = "") then Err "environment variable name cannot be empty"
  else if existsb (fun c => bool_decide (c = Ascii.ascii_of_nat 61)) (String.list_ascii_of_string key)
  then Err "environment variable name cannot contain '='"
  else Ok tt.

(** The environment and the table of [EnvError]. *)
Record env_state : Type := mk_env { environ : gmap string string; env_world : world EnvErrorKind string }.

Definition env_result_ok (v : value) (st : env_state) : value * env_state := (VResult (Ok v), st).
Definition env_error (kind : StdErrorKind) (message key : string) (a : alloc_answer) (st : env_state) : value * env_state :=
  let '(v, w) := env_result_err_kind_for_key kind message key a (env_world st) in (v, mk_env (environ st) w).

(** The checks that open every operation on one name: null, UTF-8, and the name itself. *)
Definition with_env_key (null : string) (key : option string) (a : alloc_answer)
    (f : string -> env_state -> value * env_state) (st : env_state) : value * env_state :=
  match key with
  | None => env_error Invalid null "" a st
  | Some key =>
      match to_str key with
      | None => env_error NotUnicode "environment variable name is not valid UTF-8" "" a st
      | Some key => match validate_env_key key with Err e => env_error Invalid e key a st | Ok _ => f key st end
      end
  end.

Definition mux_env_get (key : option string) (a : alloc_answer) : env_state -> value * env_state :=
  with_env_key "environment key must not be null" key a (fun key st =>
    match env_var key (environ st) with
    | Ok v => env_result_ok (VOptional (Some (VString v))) st
    | Err NotPresent => env_result_ok (VOptional None) st
    | Err VarNotUnicode => env_error NotUnicode "environment variable value is not valid UTF-8" key a st
    end).

Definition mux_env_set (key val : option string) (a : alloc_answer) (st : env_state) : value * env_state :=
  match key, val with
  | Some key, Some val =>
      match to_str key with
      | None => env_error NotUnicode "environment variable name is not valid UTF-8" "" a st
      | Some key =>
          match to_str val with
          | None => env_error NotUnicode "environment variable value is not valid UTF-8" "" a st
          | Some val =>
              match validate_env_key key with
              | Err e => env_error Invalid e key a st
              | Ok _ => env_result_ok VUnit (mk_env (<[key := val]> (environ st)) (env_world st))
              end
          end
      end
  | _, _ => env_error Invalid "environment key and value must not be null" "" a st
  end.

Definition mux_env_remove (key : option string) (a : alloc_answer) : env_state -> value * env_state :=
  with_env_key "environment key must not be null" key a (fun key st =>
    env_result_ok VUnit (mk_env (delete key (environ st)) (env_world st))).

Definition mux_env_contains (key : option string) (a : alloc_answer) : env_state -> value * env_state :=
  with_env_key "environment key must not be null" key a (fun key st =>
    match env_var key (environ st) with
    | Ok _ => env_result_ok (VBool true) st
    | Err NotPresent => env_result_ok (VBool false) st
    | Err VarNotUnicode => env_error NotUnicode "environment variable value is not valid UTF-8" key a st
    end).

(** [str::cmp] on names. *)
Definition name_le (a b : string * string) : Prop := lex_cmp Z.compare (txt a.1) (txt b.1) <> Gt.
#[export] Instance name_le_dec : RelDecision name_le.
Proof. intros a b. unfold name_le. destruct (lex_cmp _ _ _); first [by left|right; by intros H; apply H]. Defined.

(** The loop of [mux_env_entries], which stops at the first entry that is not text. *)
Fixpoint text_entries (vars : list (string * string)) (entries : list (string * string)) : result (list (string * string)) string :=
  match vars with
  | [] => Ok entries
  | (key, val) :: vars =>
      match to_str key with
      | None => Err "environment variable name is not valid UTF-8"
      | Some key =>
          match to_str val with
          | None => Err "environment variable value is not valid UTF-8"
          | Some val => text_entries vars (entries ++ [(key, val)])
          end
      end
  end.

(** [vars] is what [std::env::vars_os] lists: the entries in the order of the process. *)
Definition mux_env_entries (vars : list (string * string)) (a : alloc_answer) (st : env_state) : value * env_state :=
  match text_entries vars [] with
  | Err e => env_error NotUnicode e "" a st
  | Ok entries =>
      env_result_ok (VList ((fun '(k, v) => VTuple (VString k) (VString v)) <$> merge_sort name_le entries)) st
  end.

(** ** Properties *)

Lemma env_error_environ kind m key a st : environ (env_error kind m key a st).2 = environ st.
Proof. unfold env_error. by destruct (env_result_err_kind_for_key _ _ _ _ _). Qed.

(** A name the package accepts. *)
Definition env_name (key : string) : Prop := is_Some (to_str key) /\ validate_env_key key = Ok tt.

Lemma to_str_id s s' : to_str s = Some s' -> s' = s.
Proof. unfold to_str. case_match; by intros [= ->]. Qed.

Lemma with_env_key_name null key a f st : env_name key -> with_env_key null (Some key) a f st = f key st.
Proof. intros [[s Hs] Hv]. unfold with_env_key. rewrite Hs. apply to_str_id in Hs as ->. by rewrite Hv. Qed.

(** Setting a name makes it read the value, present, and removing it absent; other names
    and the entries that were there stay. *)
Lemma env_set_get key val a st : env_name key -> is_Some (to_str val) ->
  let st' := (mux_env_set (Some key) (Some val) a st).2 in
  environ st' = <[key := val]> (environ st) /\
  (forall a, mux_env_get (Some key) a st' = (VResult (Ok (VOptional (Some (VString val)))), st')) /\
  (forall a, mux_env_contains (Some key) a st' = (VResult (Ok (VBool true)), st')) /\
  (forall a a', let st'' := (mux_env_remove (Some key) a st').2 in
     environ st'' = delete key (environ st) /\
     mux_env_get (Some key) a' st'' = (VResult (Ok (VOptional None)), st'')) /\
  (forall other a, env_name other -> other <> key ->
     (mux_env_get (Some other) a st').1 = (mux_env_get (Some other) a (mk_env (environ st) (env_world st'))).1).
Proof.
  intros Hk [v Hv]. pose proof (to_str_id _ _ Hv) as ->.
  assert (mux_env_set (Some key) (Some val) a st = env_result_ok VUnit (mk_env (<[key := val]> (environ st)) (env_world st))) as ->.
  { destruct Hk as [[s Hs] Hval]. cbn. rewrite Hs. apply to_str_id in Hs as ->. by rewrite Hv, Hval. }
  unfold mux_env_get, mux_env_contains, mux_env_remove, env_var, env_result_ok. cbn [snd environ env_world]. split_and!; [done|intros..].
  - rewrite with_env_key_name by done. cbn [environ]. by rewrite lookup_insert_eq, Hv.
  - rewrite with_env_key_name by done. cbn [environ]. by rewrite lookup_insert_eq, Hv.
  - rewrite with_env_key_name by done. cbn [snd environ]. rewrite delete_insert_eq. split; [done|].
    rewrite with_env_key_name by done. cbn [environ]. by rewrite lookup_delete_eq.
  - rewrite !with_env_key_name by done. cbn. rewrite lookup_insert_ne by done.
    repeat case_match; try done; unfold env_error; cbn; by repeat case_match.
Qed.

(** Whatever the arguments, only a successful set or remove changes the environment. *)
Lemma env_errors_keep key val a st :
  environ (mux_env_get key a st).2 = environ st /\ environ (mux_env_contains key a st).2 = environ st /\
  ((mux_env_set key val a st).1 <> VResult (Ok VUnit) -> environ (mux_env_set key val a st).2 = environ st).
Proof.
  unfold mux_env_get, mux_env_contains, mux_env_set, with_env_key. split_and!.
  1,2: repeat case_match; by rewrite ?env_error_environ.
  repeat case_match; rewrite ?env_error_environ; done.
Qed.

(** Listing gives the entries in order of their names, when all of them are text. *)
Lemma text_entries_spec vars acc : Forall (fun e => is_Some (to_str e.1) /\ is_Some (to_str e.2)) vars ->
  text_entries vars acc = Ok (acc ++ vars).
Proof.
  revert acc. induction vars as [|[k v] vars IH]; intros acc Hf; cbn; [by rewrite app_nil_r|].
  apply Forall_cons in Hf as [[[k' Hk] [v' Hv]] Hf]. cbn in *. rewrite Hk, Hv. apply to_str_id in Hk as ->, Hv as ->.
  rewrite IH by done. by rewrite <- app_assoc.
Qed.
