(* ===== verification/DynValue.v ===== *)
(** * The dynamic value API ([src/src/std.rs], [boxing.rs], [assert.rs])

    What compiled code uses to build values, to look inside them, and to compare and
    hash them through pointers.  A pointer argument the contract requires to be live is
    the value behind it; a nullable one is an [option].  Operations that copy or
    allocate run in the heap monad. *)

From S2P Require Import Prelude AssocList Object Value Heap HeapProps Display Collections Scalars Str Utf8.

(** ** [CStr::to_string_lossy]

    A maximal ill-formed prefix is replaced by U+FFFD: the first octet, with the
    continuation octets that could have followed it. *)

Definition replacement : list Z := [239; 191; 189].

(** How many octets the sequence that starts here takes, and whether it is well formed. *)
Definition utf8_step (bs : list Z) : nat * bool :=
  match bs with
  | [] => (0%nat, true)
  | b0 :: r =>
      if in_range 0 127 b0 then (1%nat, true)
      else if in_range 194 223 b0 then
        match r with b1 :: _ => if is_cont b1 then (2%nat, true) else (1%nat, false) | [] => (1%nat, false) end
      else if in_range 224 239 b0 then
        match r with
        | b1 :: r =>
            if second_of_three b0 b1 then
              match r with b2 :: _ => if is_cont b2 then (3%nat, true) else (2%nat, false) | [] => (2%nat, false) end
            else (1%nat, false)
        | [] => (1%nat, false)
        end
      else if in_range 240 244 b0 then
        match r with
        | b1 :: r =>
            if second_of_four b0 b1 then
              match r with
              | b2 :: r =>
                  if is_cont b2 then
                    match r with b3 :: _ => if is_cont b3 then (4%nat, true) else (3%nat, false) | [] => (3%nat, false) end
                  else (2%nat, false)
              | [] => (2%nat, false)
              end
            else (1%nat, false)
        | [] => (1%nat, false)
        end
      else (1%nat, false)
  end.

Fixpoint lossy (fuel : nat) (bs : list Z) : list Z :=
  match fuel, bs with
  | S fuel, _ :: _ =>
      let '(n, ok) := utf8_step bs in (if ok then take n bs else replacement) ++ lossy fuel (drop n bs)
  | _, _ => []
  end.

Definition string_of_octets (bs : list Z) : string :=
  String.string_of_list_ascii ((fun b => Ascii.ascii_of_nat (Z.to_nat b)) <$> bs).
Definition to_string_lossy (s : string) : string := string_of_octets (lossy (length (txt s)) (txt s)).

Section Dyn.
Context `{Allocator} `{Foreign} `{Callbacks} `{Floats} `{FloatText}.

(** Addition of floats and the [Display] of [OrderedFloat], which is the plain [{}] of the float. *)
Context (float_add : f64 -> f64 -> f64).

Definition mux_range (start stop : Z) : list value := VInt <$> seqZ start (stop - start).

Definition mux_some (v : value) : M ptr := let! v := clone_value v in mux_rc_alloc (VOptional (Some v)).
Definition mux_int_value (i : Z) : M ptr := mux_rc_alloc (VInt i).
Definition mux_bool_value (b : Z) : M ptr := mux_rc_alloc (VBool (negb (b =? 0))).
Definition mux_string_value (s : string) : M ptr := mux_rc_alloc (VString (to_string_lossy s)).
Definition mux_none : M ptr := mux_rc_alloc (VOptional None).
Definition mux_ok (v : value) : M ptr := let! v := clone_value v in mux_rc_alloc (VResult (Ok v)).
Definition mux_err (msg : string) : M ptr := mux_rc_alloc (VResult (Err (VString (to_string_lossy msg)))).

Definition mux_new_list : list value := [].
Definition mux_new_map : list (value * value) := [].
Definition mux_new_set : list value := [].

Definition value_sum (a b : value) : value :=
  match a, b with
  | VInt a, VInt b => VInt (as_i64 (a + b))
  | VFloat a, VFloat b => VFloat (float_add a b)
  | VString a, VString b => VString (a +:+ b)
  | VString a, VInt b => VString (a +:+ pretty b)
  | VInt a, VString b => VString (pretty a +:+ b)
  | VString a, VFloat b => VString (a +:+ format_shortest b)
  | VFloat a, VString b => VString (format_shortest a +:+ b)
  | VString a, VBool b => VString (a +:+ bool_text b)
  | VBool a, VString b => VString (bool_text a +:+ b)
  | _, _ => VInt 0
  end.
Definition mux_value_add (a b : value) : M ptr := mux_rc_alloc (value_sum a b).

Definition mux_list_value (l : list value) : M ptr := mux_rc_alloc (VList l).
Definition mux_value_get_list (v : option value) : M (option (list value)) :=
  match v with Some (VList l) => let! l := traverse clone_value l in ret (Some l) | _ => ret None end.
Definition mux_value_get_map (v : option value) : M (option (list (value * value))) :=
  match v with
  | Some (VMap m) => let! m := clone_value (VMap m) in ret (as_entries m)
  | _ => ret None
  end.
Definition mux_value_get_set (v : option value) : M (option (list value)) :=
  match v with
  | Some (VSet s) => let! s := clone_value (VSet s) in ret (as_elems s)
  | _ => ret None
  end.
Definition mux_value_map_get_value (v key : option value) : M ptr :=
  match v, key with
  | Some (VMap m), Some key => mux_map_get m key
  | _, _ => alloc_optional None
  end.

Definition mux_value_list_length (v : value) : Z := match v with VList l => as_i64 (Z.of_nat (length l)) | _ => 0 end.
Definition mux_value_list_get_value (v : value) (index : Z) : M ptr :=
  match v with
  | VList l =>
      if (0 <=? index) && (index <? Z.of_nat (length l)) then
        match l !! Z.to_nat index with
        | Some x => let! x := clone_value x in mux_rc_alloc x
        | None => raise Undefined
        end
      else ret None
  | _ => ret None
  end.

(** The bounds, clamped on both sides. *)
Definition slice_bounds (len : nat) (start stop : Z) : nat * nat :=
  (Nat.min (Z.to_nat (Z.max start 0)) len, Nat.min (Z.to_nat (Z.max stop 0)) len).
Definition sliced (l : list value) (start stop : Z) : list value :=
  let '(s, e) := slice_bounds (length l) start stop in
  if (s <? e)%nat then take (e - s) (drop s l) else [].
Definition mux_value_list_slice (v : value) (start stop : Z) : M ptr :=
  match v with
  | VList l => let! l := traverse clone_value (sliced l start stop) in mux_rc_alloc (VList l)
  | _ => mux_rc_alloc (VList [])
  end.

Definition mux_value_to_list (v : option value) : M (option (list value)) :=
  match v with
  | None => ret None
  | Some v =>
      let! v := clone_value v in
      match v with VList l => ret (Some l) | _ => drop_value v ;! ret None end
  end.

(** Freeing an owned collection drops what it holds. *)
Definition mux_free_list (l : option (list value)) : M unit :=
  match l with Some l => drop_value (VList l) | None => ret tt end.
Definition mux_free_map (m : option (list (value * value))) : M unit :=
  match m with Some m => drop_value (VMap m) | None => ret tt end.
Definition mux_free_set (s : option (list value)) : M unit :=
  match s with Some s => drop_value (VSet s) | None => ret tt end.

Definition mux_value_get_int (v : option value) : Z := match v with Some (VInt i) => i | _ => 0 end.
Definition mux_value_get_float (v : option value) : f64 := match v with Some (VFloat f) => f | _ => 0 end.
Definition mux_value_get_bool (v : option value) : Z := match v with Some (VBool b) => if b then 1 else 0 | _ => 0 end.
Definition mux_value_get_type_tag (v : option value) : option Z := match v with None => Some (-1) | Some v => type_tag v end.

Definition mux_value_equal (reg : Registry) (a b : option value) : Z :=
  match a, b with
  | Some a, Some b => if value_eqb reg a b then 1 else 0
  | None, None => 1
  | _, _ => 0
  end.
Definition mux_value_not_equal (reg : Registry) (a b : option value) : Z :=
  if mux_value_equal reg a b =? 1 then 0 else 1.
Definition mux_value_compare (reg : Registry) (a b : option value) : Z :=
  match a, b with
  | None, None => 0
  | None, Some _ => -1
  | Some _, None => 1
  | Some a, Some b => match value_cmp reg a b with Lt => -1 | Eq => 0 | Gt => 1 end
  end.
Definition mux_value_hash (reg : Registry) (v : option value) : Z :=
  match v with None => 0 | Some v => default_hasher (hash_writes reg v) end.

Definition mux_box_enum (bytes : list Z) : M ptr := mux_rc_alloc (VOpaque bytes).
Definition mux_value_unbox_enum (v : option value) : option (list Z) :=
  match v with Some (VOpaque bs) => Some bs | Some (VBoxedEnum e) => Some (be_bytes e) | _ => None end.
Definition mux_box_enum_managed (e : BoxedEnum) : M ptr := let! e := clone_enum e in mux_rc_alloc (VBoxedEnum e).

(** ** [boxing.rs] *)

Definition mux_box_int (v : Z) : M ptr := mux_int_value v.
Definition mux_box_bool (v : Z) : M ptr := mux_bool_value v.
Definition mux_box_str (v : string) : M ptr := mux_string_value v.

(** ** [assert.rs]: [None] when execution goes on, otherwise what the panic prints and its status. *)

Definition mux_assert (condition : Z) (message : option string) : option (list string * Z) :=
  if negb (condition =? 0) then None
  else Some (emit_panic AssertionFailed
    ("assertion failed: " +:+ match message with None => "(no assertion message)" | Some m => to_string_lossy m end) None).

End Dyn.

(** ** Properties *)

(** A well-formed sequence is one character of the decoder, whatever follows it. *)
Lemma utf8_step_ok bs n : utf8_step bs = (n, true) -> bs <> [] ->
  (0 < n <= length bs)%nat /\ exists c, forall rest, utf8_decode (take n bs ++ rest) = cons c <$> utf8_decode rest.
Proof.
  destruct bs as [|b0 r]; [done|]. intros E _. unfold utf8_step in E.
  repeat match type of E with
  | context [if ?b then _ else _] => destruct b eqn:?
  | context [match ?l with [] => _ | _ :: _ => _ end] => destruct l
  end; try discriminate; injection E as <-; (split; [cbn [length]; lia|]); eexists; intros rest; cbn [take app utf8_decode];
  repeat match goal with H : _ = _ :> bool |- _ => rewrite H end; reflexivity.
Qed.

Lemma utf8_step_bad bs n : utf8_step bs = (n, false) -> (0 < n <= length bs)%nat /\ utf8_decode bs = None.
Proof.
  destruct bs as [|b0 r]; [done|]. intros E. unfold utf8_step in E.
  repeat match type of E with
  | context [if ?b then _ else _] => destruct b eqn:?
  | context [match ?l with [] => _ | _ :: _ => _ end] => destruct l
  end; try discriminate; injection E as <-; (split; [cbn [length]; lia|]); cbn [utf8_decode];
  repeat match goal with H : _ = _ :> bool |- _ => rewrite H end; cbn [andb]; try reflexivity.
  all: repeat case_match; cbn [andb] in *; congruence.
Qed.

(** A well-formed prefix is read character by character, whatever follows it. *)
Lemma utf8_step_prefix g r : g <> [] -> is_Some (utf8_decode g) ->
  exists n, utf8_step (g ++ r) = (n, true) /\ (0 < n <= length g)%nat /\ is_Some (utf8_decode (drop n g)).
Proof.
  destruct g as [|b0 g]; [done|]. intros _ Hg. cbn [utf8_decode] in Hg. cbn [app utf8_step].
  assert (forall c (d : option text), is_Some (cons c <$> d) -> is_Some d) as Hmap by (intros c [d|] []; [by eexists|done]).
  destruct (in_range 0 127 b0); [exists 1%nat; split_and!; [done|lia|cbn; lia|by apply Hmap in Hg]|].
  destruct (in_range 194 223 b0).
  { destruct g as [|b1 g]; [by destruct Hg|]. cbn [app]. destruct (is_cont b1); [|by destruct Hg].
    exists 2%nat. split_and!; [done|lia|cbn; lia|by apply Hmap in Hg]. }
  destruct (in_range 224 239 b0).
  { destruct g as [|b1 [|b2 g]]; [by destruct Hg..|]. cbn [app]. destruct (second_of_three b0 b1), (is_cont b2); try by destruct Hg.
    exists 3%nat. split_and!; [done|lia|cbn; lia|by apply Hmap in Hg]. }
  destruct (in_range 240 244 b0); [|by destruct Hg].
  destruct g as [|b1 [|b2 [|b3 g]]]; [by destruct Hg..|]. cbn [app]. destruct (second_of_four b0 b1), (is_cont b2), (is_cont b3); try by destruct Hg.
  exists 4%nat. split_and!; [done|lia|cbn; lia|by apply Hmap in Hg].
Qed.

Lemma lossy_prefix fuel : forall g r, (length (g ++ r) <= fuel)%nat -> is_Some (utf8_decode g) -> exists fuel', lossy fuel (g ++ r) = g ++ lossy fuel' r.
Proof.
  induction fuel as [|fuel IH]; intros g r Hf Hg.
  { destruct g; [|cbn in Hf; lia]. by exists O. }
  destruct (decide (g = [])) as [->|Hne]; [by eexists|].
  destruct (utf8_step_prefix g r Hne Hg) as (n & Es & Hn & Hd). rewrite length_app in Hf.
  destruct (IH (drop n g) r) as [fuel' Hl]; [rewrite length_app, length_drop; lia|done|]. exists fuel'.
  destruct g as [|b g]; [done|]. cbn [app lossy]. change (b :: g ++ r) with ((b :: g) ++ r). rewrite Es.
  rewrite take_app_le, drop_app_le by lia. rewrite Hl, app_assoc, take_drop. done.
Qed.

Lemma lossy_spec fuel bs : (length bs <= fuel)%nat ->
  is_Some (utf8_decode (lossy fuel bs)) /\ (is_Some (utf8_decode bs) -> lossy fuel bs = bs).
Proof.
  revert bs. induction fuel as [|fuel IH]; intros bs Hf; [destruct bs; [done|cbn in Hf; lia]|].
  destruct bs as [|b r] eqn:Eb; [done|]. rewrite <- Eb in *. cbn [lossy].
  assert (match bs with [] => [] | _ :: _ => let '(n, ok) := utf8_step bs in
    (if ok then take n bs else replacement) ++ lossy fuel (drop n bs) end =
    let '(n, ok) := utf8_step bs in (if ok then take n bs else replacement) ++ lossy fuel (drop n bs)) as -> by by subst.
  destruct (utf8_step bs) as [n [|]] eqn:Es.
  - destruct (utf8_step_ok bs n Es ltac:(by subst)) as [Hn [c Hc]].
    destruct (IH (drop n bs)) as [[t Ht] Hid]; [rewrite length_drop; lia|]. rewrite Hc, Ht. split; [by eexists|].
    intros Hd. rewrite Hid; [apply take_drop|]. rewrite <- (take_drop n bs), Hc in Hd.
    destruct (utf8_decode (drop n bs)); [by eexists|by destruct Hd].
  - destruct (utf8_step_bad bs n Es) as [Hn Hbad].
    destruct (IH (drop n bs)) as [[t Ht] _]; [rewrite length_drop; lia|]. split; [|rewrite Hbad; by intros []].
    change (replacement ++ lossy fuel (drop n bs)) with (239 :: 191 :: 189 :: lossy fuel (drop n bs)). cbn [utf8_decode].
    change (in_range 0 127 239) with false. change (in_range 194 223 239) with false. change (in_range 224 239 239) with true.
    change (second_of_three 239 191 && is_cont 189) with true. cbn iota. rewrite Ht. by eexists.
Qed.

Lemma lossy_octets fuel bs : Forall (fun b => 0 <= b < 256) bs -> Forall (fun b => 0 <= b < 256) (lossy fuel bs).
Proof.
  revert bs. induction fuel as [|fuel IH]; intros bs Hb; [constructor|]. destruct bs as [|b r] eqn:Eb; [constructor|].
  cbn [lossy]. rewrite <- Eb in *. destruct (utf8_step bs) as [n ok]. apply Forall_app. split; [|by apply IH, Forall_drop].
  destruct ok; [by apply Forall_take|]. repeat constructor; lia.
Qed.

Lemma txt_octets s : Forall (fun b => 0 <= b < 256) (txt s).
Proof.
  unfold txt. apply Forall_fmap, Forall_forall. intros c _. cbn. pose proof (Ascii.nat_ascii_bounded c). lia.
Qed.

Lemma txt_string_of_octets bs : Forall (fun b => 0 <= b < 256) bs -> txt (string_of_octets bs) = bs.
Proof.
  intros Hb. unfold txt, string_of_octets. rewrite String.list_ascii_of_string_of_list_ascii, <- list_fmap_compose.
  induction Hb as [|b bs Hb _ IH]; [done|]. rewrite fmap_cons, IH. f_equal. cbn.
  rewrite Ascii.nat_ascii_embedding by lia. lia.
Qed.

Lemma string_of_octets_txt s : string_of_octets (txt s) = s.
Proof.
  unfold txt, string_of_octets. rewrite <- list_fmap_compose.
  rewrite <- (String.string_of_list_ascii_of_string s) at 2. f_equal.
  induction (String.list_ascii_of_string s) as [|c l IH]; [done|]. rewrite fmap_cons, IH. f_equal. cbn.
  rewrite Nat2Z.id. apply Ascii.ascii_nat_embedding.
Qed.

(** What is asked of the text made of a C string: well-formed UTF-8, the C string itself when
    that was well formed, and in any case its well-formed beginning. *)
Definition text_of (s t : string) : Prop :=
  is_utf8 (txt t) = true /\ (is_utf8 (txt s) = true -> t = s) /\
  forall g r, txt s = g ++ r -> is_utf8 g = true -> g `prefix_of` txt t.

Lemma is_utf8_some bs : is_utf8 bs = true <-> is_Some (utf8_decode bs).
Proof. unfold is_utf8. destruct (utf8_decode bs); split; (done || by eexists || by intros []). Qed.

Lemma to_string_lossy_text s : text_of s (to_string_lossy s).
Proof.
  unfold text_of, to_string_lossy. destruct (lossy_spec (length (txt s)) (txt s) ltac:(done)) as [Ht Hid].
  rewrite txt_string_of_octets by apply lossy_octets, txt_octets. rewrite !is_utf8_some. split_and!; [done| |].
  - intros Hs. rewrite Hid by done. apply string_of_octets_txt.
  - intros g r E Hg. rewrite is_utf8_some in Hg. rewrite E. destruct (lossy_prefix (length (g ++ r)) g r ltac:(done) Hg) as [fuel' ->]. by eexists.
Qed.

(** A value that refers to nothing is put in a new block, or dropped without a trace. *)
Definition stored `{Allocator} (P : value -> Prop) (h : Heap) (r : result (ptr * Heap) fault) : Prop :=
  match r with
  | Ok (Some l, h') => new_block h = Some l /\ exists v, P v /\ h' = set_live (fun n => n + 1) (set_blocks (insert l (mk_block 1 v)) h)
  | Ok (None, h') => new_block h = None /\ h' = h
  | Err _ => False
  end.

Lemma alloc_stored `{Allocator} `{Foreign} (P : value -> Prop) v h : P v -> drop_value v = ret tt -> stored P h (mux_rc_alloc v h).
Proof.
  intros Hv Hd. unfold mux_rc_alloc, bind, gets, modify, ret. destruct (new_block h) as [l|] eqn:E; cbn.
  - split; [done|]. by exists v.
  - rewrite Hd. cbn. done.
Qed.

(** C38: A string value holds text.  Whatever octets the C string has, [mux_string_value] and
    [mux_box_str] allocate a string value, and [mux_err] an error with one, whose text is
    well-formed UTF-8, is the C string itself when that was well formed, and keeps its
    well-formed beginning otherwise; but for the new block and the count of live ones the
    heap is unchanged, and when the allocation fails nothing changes at all. *)
Theorem string_value_is_text `{Allocator} `{Foreign} (s : string) (h : Heap) :
  stored (fun v => exists t, v = VString t /\ text_of s t) h (mux_string_value s h) /\
  stored (fun v => exists t, v = VString t /\ text_of s t) h (mux_box_str s h) /\
  stored (fun v => exists t, v = VResult (Err (VString t)) /\ text_of s t) h (mux_err s h).
Proof.
  pose proof (to_string_lossy_text s) as Ht.
  split_and!; (apply alloc_stored; [eexists; split; [reflexivity|exact Ht]|reflexivity]).
Qed.

(** Four octets of which the last is no UTF-8, in an empty heap. *)
Lemma string_value_is_text_witness :
  let s := string_of_octets [97; 195; 169; 255] in
  stored (H := demo_allocator) (fun v => exists t, v = VString t /\ text_of s t) (start_heap empty_registry)
    (mux_string_value (H := demo_allocator) (H0 := demo_foreign) s (start_heap empty_registry)) /\
  txt (to_string_lossy s) = [97; 195; 169; 239; 191; 189].
Proof.
  split; [|by vm_compute].
  apply (string_value_is_text (H := demo_allocator) (H0 := demo_foreign) (string_of_octets [97; 195; 169; 255]) (start_heap empty_registry)).
Defined.

(** A slice holds the elements between the bounds, clamped to the list. *)
Lemma sliced_lookup l start stop i :
  sliced l start stop !! i =
    if Z.max start 0 + Z.of_nat i <? stop then l !! (Z.to_nat (Z.max start 0) + i)%nat else None.
Proof.
  unfold sliced, slice_bounds. set (s := Z.to_nat (Z.max start 0)). set (e := Z.to_nat (Z.max stop 0)).
  destruct (Nat.min s (length l) <? Nat.min e (length l))%nat eqn:E.
  - apply Nat.ltb_lt in E. assert (Nat.min s (length l) = s) as -> by lia.
    destruct (Z.max start 0 + Z.of_nat i <? stop) eqn:Ei; bool_to_prop.
    + destruct (decide (i < Nat.min e (length l) - s)%nat).
      * by rewrite lookup_take_lt, lookup_drop by lia.
      * rewrite lookup_take_ge by lia. symmetry. apply lookup_ge_None. lia.
    + apply lookup_take_ge. lia.
  - apply Nat.ltb_ge in E. rewrite lookup_nil. case_match; bool_to_prop; [|done]. symmetry. apply lookup_ge_None. lia.
Qed.

Lemma mux_range_lookup start stop i :
  mux_range start stop !! i = if start + Z.of_nat i <? stop then Some (VInt (start + Z.of_nat i)) else None.
Proof.
  unfold mux_range. rewrite list_lookup_fmap. destruct (start + Z.of_nat i <? stop) eqn:E; bool_to_prop.
  - by rewrite lookup_seqZ_lt by lia.
  - by rewrite lookup_seqZ_ge by lia.
Qed.
