(* ===== verification/Stream.v ===== *)
(** * Byte streams ([src/src/stream.rs])

    A reader or writer is an object that holds a handle into a registry of slots; an
    erased stream holds one of them.  A slot has its state (a buffer with a position,
    and possibly a file, a socket or a standard stream behind it) and the number of
    names it has.  A tee keeps the slot of its writer alive on its own, so writer
    slots are stored apart from the registry that names them.

    Calls are sequential here: every operation locks one slot at a time.  [None] is a
    panic (a slice out of bounds).  Files, sockets and the standard streams are the
    interface [Os]; an operating-system error is its text. *)

From S2P Require Import Prelude AssocList Object Value Str Utf8.

Definition MAX_STREAM_BYTES : Z := 16 * 1024 * 1024.

Inductive StandardStream : Type := Stdin | Stdout | Stderr.

(** What the standard library does on behalf of a stream. *)
Class Os (W : Type) : Type := {
  stdin_read : Z -> W -> result (list Z) string * W;
  std_write : StandardStream -> list Z -> W -> result unit string * W;
  std_flush : StandardStream -> W -> result unit string * W;
  fd_read : Z -> Z -> W -> result (list Z) string * W;
  fd_write_all : Z -> list Z -> W -> result unit string * W;
  fd_flush : Z -> W -> result unit string * W;
  fd_len : Z -> W -> result Z string;
  fd_seek : Z -> Z -> W -> result unit string * W;
}.

Record ReaderEntry : Type := mk_reader {
  r_data : list Z;
  r_position : Z;
  remaining_limit : option Z;
  tee_writer : option Z;
  r_stdio : option StandardStream;
  r_file : option Z;
  r_socket : option Z;
}.

Record WriterEntry : Type := mk_writer {
  w_data : list Z;
  w_position : Z;
  capture : bool;
  append_mode : bool;
  w_file : option Z;
  w_stdio : option StandardStream;
  w_socket : option Z;
}.

Record ErasedStreamEntry : Type := mk_erased { e_reader : option Z; e_writer : option Z; e_names : Z }.

(** The class of an object and the handle it stores. *)
Inductive class : Type := CReader | CWriter | CStream | COther.
#[export] Instance class_eq_dec : EqDecision class.
Proof. solve_decision. Defined.

(** A value argument: null, not an object, or an object. *)
Inductive arg : Type := Null | NotObject | Obj (o : Z).

(** [READERS], [WRITERS], [STREAMS] and [NEXT_HANDLE]; a registry gives the names of a slot.
    [slots] holds the states of the writers, registered or kept by a tee. *)
Record state (W : Type) : Type := mk_state {
  readers : gmap Z (ReaderEntry * Z);
  writers : gmap Z Z;
  slots : gmap Z WriterEntry;
  streams : gmap Z ErasedStreamEntry;
  next : Z;
  objects : gmap Z (class * Z);
  os : W;
}.
Arguments mk_state {W}. Arguments readers {W}. Arguments writers {W}. Arguments slots {W}.
Arguments streams {W}. Arguments next {W}. Arguments objects {W}. Arguments os {W}.

(** ** State, panics and errors *)

Definition IO (W A : Type) : Type := state W -> option (A * state W).
Definition sret {W A} (a : A) : IO W A := fun st => Some (a, st).
Definition sbind {W A B} (m : IO W A) (f : A -> IO W B) : IO W B :=
  fun st => match m st with Some (a, st) => f a st | None => None end.
Definition spanic {W A} : IO W A := fun _ => None.
Definition sget {W} : IO W (state W) := fun st => Some (st, st).
Definition sput {W} (st : state W) : IO W unit := fun _ => Some (tt, st).

(** An error ends the operation. *)
Definition ebind {W A B} (m : IO W (result A string)) (f : A -> IO W (result B string)) : IO W (result B string) :=
  sbind m (fun r => match r with Ok a => f a | Err e => sret (Err e) end).
Definition throw {W A} (e : string) : IO W (result A string) := sret (Err e).
Definition answer {W A} (a : A) : IO W (result A string) := sret (Ok a).

Notation "'let*' x := e 'in' k" := (sbind e (fun x => k))
  (at level 10, x pattern, e at level 100, k at level 200) : mux_scope.
Notation "'let+' x := e 'in' k" := (ebind e (fun x => k))
  (at level 10, x pattern, e at level 100, k at level 200) : mux_scope.
Notation "m ;* k" := (sbind m (fun _ => k)) (at level 100, right associativity) : mux_scope.

Section Streams.
Context {W : Type} `{Os W}.

Definition set_readers (m : gmap Z (ReaderEntry * Z)) (st : state W) : state W :=
  mk_state m (writers st) (slots st) (streams st) (next st) (objects st) (os st).
Definition set_writers (m : gmap Z Z) (st : state W) : state W :=
  mk_state (readers st) m (slots st) (streams st) (next st) (objects st) (os st).
Definition set_slots (m : gmap Z WriterEntry) (st : state W) : state W :=
  mk_state (readers st) (writers st) m (streams st) (next st) (objects st) (os st).
Definition set_streams (m : gmap Z ErasedStreamEntry) (st : state W) : state W :=
  mk_state (readers st) (writers st) (slots st) m (next st) (objects st) (os st).
Definition set_next (n : Z) (st : state W) : state W :=
  mk_state (readers st) (writers st) (slots st) (streams st) n (objects st) (os st).
Definition set_objects (m : gmap Z (class * Z)) (st : state W) : state W :=
  mk_state (readers st) (writers st) (slots st) (streams st) (next st) m (os st).
Definition set_os (w : W) (st : state W) : state W :=
  mk_state (readers st) (writers st) (slots st) (streams st) (next st) (objects st) w.
Definition smodify (f : state W -> state W) : IO W unit := fun st => Some (tt, f st).

(** A call of the operating system. *)
Definition os_call {A} (f : W -> result A string * W) : IO W (result A string) :=
  fun st => let '(r, w) := f (os st) in Some (r, set_os w st).
Definition context {A} (c : string) (r : result A string) : result A string :=
  match r with Ok a => Ok a | Err e => Err (c +:+ e) end.
Definition os_result {A} (c : string) (f : W -> result A string * W) : IO W (result A string) :=
  let* r := os_call f in sret (context c r).

Definition next_handle : IO W Z :=
  fun st => Some (next st, set_next (if next st =? i64_max then 1 else next st + 1) st).

(** ** Handles *)

Definition registered (readers_ : bool) (h : Z) (st : state W) : bool :=
  if readers_ then bool_decide (is_Some (readers st !! h)) else bool_decide (is_Some (writers st !! h)).

Definition handle (value : arg) (c : class) (readers_ : bool) : IO W (result Z string) :=
  fun st => Some (
    match value with
    | Null => Err "stream value is null"
    | NotObject => Err "invalid stream value"
    | Obj o =>
        match objects st !! o with
        | None => Err "invalid stream value"
        | Some (c', h) =>
            if negb (bool_decide (c' = c)) then Err "stream type mismatch"
            else if registered readers_ h st then Ok h else Err "stream is closed or invalid"
        end
    end, st).

Definition reader_slot (h : Z) : IO W (result ReaderEntry string) :=
  fun st => Some (match readers st !! h with Some (e, _) => Ok e | None => Err "stream is closed or invalid" end, st).

(** The slot of a registered writer is its handle. *)
Definition writer_slot (h : Z) : IO W (result Z string) :=
  fun st => Some (match writers st !! h with Some _ => Ok h | None => Err "stream is closed or invalid" end, st).

Definition put_reader (h : Z) (e : ReaderEntry) : IO W unit :=
  smodify (fun st => match readers st !! h with Some (_, n) => set_readers (<[h := (e, n)]> (readers st)) st | None => st end).
Definition put_slot (s : Z) (e : WriterEntry) : IO W unit := smodify (fun st => set_slots (<[s := e]> (slots st)) st).

(** [release] of a writer, [release_writer]. *)
Definition release_writer (h : Z) : IO W unit := smodify (fun st =>
  match writers st !! h with
  | None => st
  | Some n => set_writers (if n =? 1 then delete h (writers st) else <[h := Z.max 0 (n - 1)]> (writers st)) st
  end).

Definition release_tee (e : ReaderEntry) : IO W unit :=
  match tee_writer e with Some w => release_writer w | None => sret tt end.

(** [release] of a reader, [release_reader]. *)
Definition release_reader (h : Z) : IO W unit :=
  let* st := sget in
  match readers st !! h with
  | None => sret tt
  | Some (e, n) =>
      if n =? 1 then sput (set_readers (delete h (readers st)) st) ;* release_tee e
      else sput (set_readers (<[h := (e, Z.max 0 (n - 1))]> (readers st)) st)
  end.
Definition release (h : Z) (readers_ : bool) : IO W unit := if readers_ then release_reader h else release_writer h.

(** [refs.checked_add(1)] on a [usize]. *)
Definition retain_reader (h : Z) : IO W (result unit string) :=
  fun st => match readers st !! h with
            | None => Some (Err "stream is closed or invalid", st)
            | Some (e, n) =>
                if n =? usize_max then Some (Err "reader reference count overflow", st)
                else Some (Ok tt, set_readers (<[h := (e, n + 1)]> (readers st)) st)
            end.
Definition retain_writer (h : Z) : IO W (result unit string) :=
  fun st => match writers st !! h with
            | None => Some (Err "stream is closed or invalid", st)
            | Some n =>
                if n =? usize_max then Some (Err "writer reference count overflow", st)
                else Some (Ok tt, set_writers (<[h := n + 1]> (writers st)) st)
            end.

(** ** Objects *)

(** [object]: [a] is the object the allocation answers, [None] for a null pointer. *)
Definition object (c : class) (h : Z) (a : option Z) : IO W bool :=
  match a with
  | None => sret false
  | Some o => smodify (fun st => set_objects (<[o := (c, h)]> (objects st)) st) ;* sret true
  end.

Definition release_entry (e : ErasedStreamEntry) : IO W unit :=
  (match e_reader e with Some r => release r true | None => sret tt end) ;*
  (match e_writer e with Some w => release w false | None => sret tt end).

Definition release_erased_stream (h : Z) : IO W unit :=
  let* st := sget in
  match streams st !! h with
  | None => sret tt
  | Some e =>
      let names := Z.max 0 (e_names e - 1) in
      if names =? 0 then sput (set_streams (delete h (streams st)) st) ;* release_entry e
      else sput (set_streams (<[h := mk_erased (e_reader e) (e_writer e) names]> (streams st)) st)
  end.

Definition close_erased_stream (h : Z) : IO W unit :=
  let* st := sget in
  match streams st !! h with
  | None => sret tt
  | Some e => sput (set_streams (delete h (streams st)) st) ;* release_entry e
  end.

(** The destructors, and freeing the object. *)
Definition drop_object (o : Z) : IO W unit :=
  let* st := sget in
  match objects st !! o with
  | None => sret tt
  | Some (c, h) =>
      sput (set_objects (delete o (objects st)) st) ;*
      match c with
      | CReader => release h true
      | CWriter => release h false
      | CStream => release_erased_stream h
      | COther => sret tt
      end
  end.

(** [copy_handle] and [copy_erased_stream]: the handle the copy stores. *)
Definition copy_reader (h : Z) : IO W Z := let* r := retain_reader h in sret (match r with Ok _ => h | Err _ => 0 end).
Definition copy_writer (h : Z) : IO W Z := let* r := retain_writer h in sret (match r with Ok _ => h | Err _ => 0 end).
Definition copy_erased_stream (h : Z) : IO W Z :=
  fun st => match streams st !! h with
            | Some e => Some (h, set_streams (<[h := mk_erased (e_reader e) (e_writer e) (Z.min usize_max (e_names e + 1))]> (streams st)) st)
            | None => Some (0, st)
            end.
Definition copy_object (o o' : Z) : IO W unit :=
  let* st := sget in
  match objects st !! o with
  | Some (c, h) =>
      let* h' := (match c with CReader => copy_reader h | CWriter => copy_writer h | CStream => copy_erased_stream h | COther => sret h end) in
      smodify (fun st => set_objects (<[o' := (c, h')]> (objects st)) st)
  | None => sret tt
  end.

(** [close_stream]: the registration goes at once, whoever else has a name. *)
Definition close_stream (value : arg) (readers_ : bool) : IO W unit :=
  let* st := sget in
  match value with
  | Obj o =>
      match objects st !! o with
      | Some (c, h) =>
          if negb (bool_decide (c = if readers_ then CReader else CWriter)) then sret tt
          else if h <=? 0 then sret tt
          else
            (if readers_ then
               match readers st !! h with
               | Some (e, _) => sput (set_readers (delete h (readers st)) st) ;* release_tee e
               | None => sret tt
               end
             else sput (set_writers (delete h (writers st)) st)) ;*
            smodify (fun st => set_objects (<[o := (c, 0)]> (objects st)) st)
      | None => sret tt
      end
  | _ => sret tt
  end.
Definition mux_io_reader_close (reader : arg) : IO W unit := close_stream reader true.
Definition mux_io_writer_close (writer : arg) : IO W unit := close_stream writer false.

(** ** Construction *)

Definition new_entry_reader (data : list Z) (stdio : option StandardStream) (file socket : option Z) : ReaderEntry :=
  mk_reader data 0 None None stdio file socket.

(** Number, register and allocate; the registration is undone without an object. *)
Definition add_reader (e : ReaderEntry) (a : option Z) : IO W bool :=
  let* h := next_handle in
  smodify (fun st => set_readers (<[h := (e, 1)]> (readers st)) st) ;*
  let* ok := object CReader h a in
  (if ok then sret tt else smodify (fun st => set_readers (delete h (readers st)) st)) ;* sret ok.
Definition add_writer (e : WriterEntry) (a : option Z) : IO W bool :=
  let* h := next_handle in
  smodify (fun st => set_slots (<[h := e]> (slots st)) (set_writers (<[h := 1]> (writers st)) st)) ;*
  let* ok := object CWriter h a in
  (if ok then sret tt else smodify (fun st => set_writers (delete h (writers st)) st)) ;* sret ok.

Definition mux_io_reader_new (a : option Z) : IO W bool := add_reader (new_entry_reader [] None None None) a.
Definition reader_from_standard (stream : StandardStream) (a : option Z) : IO W bool :=
  add_reader (new_entry_reader [] (Some stream) None None) a.
Definition mux_io_stdin (a : option Z) : IO W bool := reader_from_standard Stdin a.
Definition mux_io_reader_from_bytes (bytes : option value) (a : option Z) : IO W bool :=
  match bytes with Some (VBytes data) => add_reader (new_entry_reader data None None None) a | _ => sret false end.

Definition stream_path (v : option value) : result string string :=
  match v with
  | Some (VString p) => if bool_decide (p = "") then Err "stream path must not be empty" else Ok p
  | _ => Err "stream path must be a string"
  end.

Definition or_failed (m : IO W bool) (e : string) : IO W (result unit string) :=
  let* ok := m in if ok then answer tt else throw e.

(** [opened] is what opening the file answers. *)
Definition mux_io_reader_from_file (path : option value) (opened : result Z string) (a : option Z) : IO W (result unit string) :=
  match stream_path path with
  | Err e => throw e
  | Ok _ =>
      match opened with
      | Err e => throw ("reader.from_file failed: " +:+ e)
      | Ok fd => or_failed (add_reader (new_entry_reader [] None (Some fd) None) a) "failed to allocate reader handle"
      end
  end.
Definition mux_io_reader_from_tcp (cloned : result Z string) (a : option Z) : IO W (result unit string) :=
  match cloned with
  | Err e => throw e
  | Ok fd => or_failed (add_reader (new_entry_reader [] None None (Some fd)) a) "failed to allocate reader handle"
  end.

Definition mux_io_writer_new (a : option Z) : IO W bool := add_writer (mk_writer [] 0 true false None None None) a.
Definition writer_from_standard (stream : StandardStream) (a : option Z) : IO W bool :=
  add_writer (mk_writer [] 0 false false None (Some stream) None) a.
Definition mux_io_stdout (a : option Z) : IO W bool := writer_from_standard Stdout a.
Definition mux_io_stderr (a : option Z) : IO W bool := writer_from_standard Stderr a.
Definition mux_io_writer_to_file (path : option value) (opened : result Z string) (a : option Z) : IO W (result unit string) :=
  match stream_path path with
  | Err e => throw e
  | Ok _ =>
      match opened with
      | Err e => throw ("writer.to_file failed: " +:+ e)
      | Ok fd => or_failed (add_writer (mk_writer [] 0 true false (Some fd) None None) a) "failed to allocate writer handle"
      end
  end.
Definition mux_io_writer_append_file (path : option value) (opened : result Z string) (a : option Z) : IO W (result unit string) :=
  match stream_path path with
  | Err e => throw e
  | Ok _ =>
      match opened with
      | Err e => throw ("writer.append_file failed: " +:+ e)
      | Ok fd => or_failed (add_writer (mk_writer [] 0 true true (Some fd) None None) a) "failed to allocate writer handle"
      end
  end.
Definition mux_io_writer_from_tcp (cloned : result Z string) (a : option Z) : IO W (result unit string) :=
  match cloned with
  | Err e => throw e
  | Ok fd => or_failed (add_writer (mk_writer [] 0 true false None None (Some fd)) a) "failed to allocate writer handle"
  end.

End Streams.

(** * Reading and writing ([src/src/stream.rs])

    The operations on registered streams, over the state of [Stream]. *)

Section Ops.
Context {W : Type} `{Os W}.

Definition zlen (bs : list Z) : Z := Z.of_nat (length bs).

(** ** Writing *)

(** [Vec::resize] to a length that is not smaller, with zeros. *)
Definition grow (n : Z) (data : list Z) : list Z := data ++ replicate (Z.to_nat n - length data) 0.

(** [data[start..stop].copy_from_slice(bytes)]: panics when the bounds are out of order or
    past the end, and when the slice and the source differ in length. *)
Definition copy_from_slice (start stop : Z) (bytes data : list Z) : option (list Z) :=
  if (start <=? stop) && (stop <=? zlen data) && (stop - start =? zlen bytes) then
    Some (take (Z.to_nat start) data ++ bytes ++ drop (Z.to_nat stop) data)
  else None.

(** The captured buffer after [bytes] were put at [position]. *)
Definition overwrite (position stop : Z) (bytes data : list Z) : option (list Z) :=
  let data := if zlen data <? position then grow position data else data in
  let data := if zlen data <? stop then grow stop data else data in
  copy_from_slice position stop bytes data.

Definition backing_write (e : WriterEntry) (bytes : list Z) : IO W (result unit string) :=
  let+ _ :=
    match w_stdio e with
    | None => answer tt
    | Some Stdin => throw "stdin is not writable"
    | Some stream => os_result "standard stream write failed: " (std_write stream bytes)
    end in
  let+ _ := match w_file e with None => answer tt | Some fd => os_result "writer file write failed: " (fd_write_all fd bytes) end in
  match w_socket e with None => answer tt | Some fd => os_result "socket writer write failed: " (fd_write_all fd bytes) end.

Definition write_writer_slot (s : Z) (bytes : list Z) : IO W (result unit string) :=
  let* st := sget in
  match slots st !! s with
  | None => spanic
  | Some e =>
      if MAX_STREAM_BYTES <? zlen bytes then throw "write exceeds the 16 MiB limit"
      else
        let stop := w_position e + zlen bytes in
        if usize_max <? stop then throw "writer position exceeds the stream limit"
        else if capture e && (MAX_STREAM_BYTES <? stop) then throw "writer buffer exceeds the 16 MiB limit"
        else
          let+ _ := backing_write e bytes in
          match (if capture e then overwrite (w_position e) stop bytes (w_data e) else Some (w_data e)) with
          | None => spanic
          | Some data =>
              put_slot s (mk_writer data stop (capture e) (append_mode e) (w_file e) (w_stdio e) (w_socket e)) ;*
              answer tt
          end
  end.

Definition write_writer (h : Z) (bytes : list Z) : IO W (result unit string) :=
  let+ s := writer_slot h in write_writer_slot s bytes.

Definition mux_io_writer_write (writer : arg) (bytes : option value) : IO W (result Z string) :=
  let+ h := handle writer CWriter false in
  match bytes with
  | Some (VBytes bs) => let+ _ := write_writer h bs in answer (as_i64 (zlen bs))
  | _ => throw "writer input must be bytes"
  end.
Definition mux_io_writer_write_all (writer : arg) (bytes : option value) : IO W (result unit string) :=
  let+ _ := mux_io_writer_write writer bytes in answer tt.

(** The entry of a registered writer. *)
Definition writer_entry (writer : arg) : IO W (result (Z * WriterEntry) string) :=
  let+ h := handle writer CWriter false in
  let+ s := writer_slot h in
  fun st => match slots st !! s with Some e => Some (Ok (s, e), st) | None => None end.

Definition mux_io_writer_bytes (writer : arg) : IO W (result (list Z) string) :=
  let+ (_, e) := writer_entry writer in
  if capture e then answer (w_data e) else throw "bytes is not available for a non-buffered standard stream".

Definition mux_io_writer_position (writer : arg) : IO W (result Z string) :=
  let+ (_, e) := writer_entry writer in
  if bool_decide (is_Some (w_stdio e)) then throw "position is not available for a standard stream"
  else if append_mode e then throw "position is not available for an append-mode writer"
  else if bool_decide (is_Some (w_socket e)) then throw "position is not available for a socket-backed writer"
  else answer (as_i64 (w_position e)).

Definition mux_io_writer_seek (writer : arg) (position : Z) : IO W (result Z string) :=
  if negb (in_range 0 MAX_STREAM_BYTES position) then throw "writer position must be between 0 and 16777216"
  else
    let+ (s, e) := writer_entry writer in
    if bool_decide (is_Some (w_stdio e)) then throw "seek is not available for a standard stream"
    else if bool_decide (is_Some (w_socket e)) then throw "seek is not available for a socket-backed writer"
    else if append_mode e then throw "seek is not available for an append-mode writer"
    else
      let+ _ :=
        match w_file e with
        | Some fd =>
            let* st := sget in
            match fd_len fd (os st) with
            | Err m => throw ("writer metadata failed: " +:+ m)
            | Ok stop =>
                if Z.min stop usize_max <? position then throw "writer position exceeds the file"
                else os_result "writer seek failed: " (fd_seek fd position)
            end
        | None => if zlen (w_data e) <? position then throw "writer position exceeds the buffer" else answer tt
        end in
      put_slot s (mk_writer (w_data e) position (capture e) (append_mode e) (w_file e) (w_stdio e) (w_socket e)) ;*
      answer position.

(** [socket_result.or(file_result).or(stdio_result)]: all of them run, the first one present counts. *)
Definition flush_entry (e : WriterEntry) : IO W (result unit string) :=
  let run (o : option Z) : IO W (option (result unit string)) :=
    match o with None => sret None | Some fd => let* r := os_call (fd_flush fd) in sret (Some r) end in
  let* socket := run (w_socket e) in
  let* file := run (w_file e) in
  let* stdio :=
    match w_stdio e with
    | None => sret None
    | Some Stdin => sret (Some (Err "stdin is not writable"))
    | Some stream => let* r := os_call (std_flush stream) in sret (Some r)
    end in
  match option_union (option_union socket file) stdio with
  | Some (Err m) => throw ("writer flush failed: " +:+ m)
  | _ => answer tt
  end.

Definition flush_writer (h : Z) : IO W (result unit string) :=
  let+ s := writer_slot h in
  let* st := sget in
  match slots st !! s with Some e => flush_entry e | None => spanic end.
Definition mux_io_writer_flush (writer : arg) : IO W (result unit string) :=
  let+ (_, e) := writer_entry writer in flush_entry e.

(** ** Reading *)

(** [data[position..end]]: out of order bounds panic. *)
Definition slice (data : list Z) (start stop : Z) : IO W (result (list Z) string) :=
  if (start <=? stop) && (stop <=? zlen data) then answer (take (Z.to_nat (stop - start)) (drop (Z.to_nat start) data))
  else spanic.

(** A read into a buffer of [size] octets, truncated to what was read. *)
Definition into_buffer (size : Z) (f : W -> result (list Z) string * W) (w : W) : result (list Z) string * W :=
  match f w with (Ok bytes, w) => (Ok (take (Z.to_nat size) bytes), w) | (Err e, w) => (Err e, w) end.

Definition backing_read (e : ReaderEntry) (size : Z) : IO W (result (list Z) string) :=
  match r_stdio e with
  | Some Stdin => os_result "standard stream read failed: " (into_buffer size (stdin_read size))
  | Some _ => throw "standard output streams are not readable"
  | None =>
      match r_socket e with
      | Some fd => os_result "socket reader read failed: " (into_buffer size (fd_read fd size))
      | None =>
          match r_file e with
          | Some fd => os_result "file reader read failed: " (into_buffer size (fd_read fd size))
          | None => slice (r_data e) (r_position e) (Z.min (Z.min usize_max (r_position e + size)) (zlen (r_data e)))
          end
      end
  end.

(** The entry after [n] octets were read. *)
Definition advance (e : ReaderEntry) (n : Z) : ReaderEntry :=
  mk_reader (r_data e) (Z.min usize_max (r_position e + n)) ((fun r => Z.max 0 (r - n)) <$> remaining_limit e)
    (tee_writer e) (r_stdio e) (r_file e) (r_socket e).

Definition reader_read_up_to (h requested : Z) : IO W (result (list Z) string) :=
  let requested := Z.min requested MAX_STREAM_BYTES in
  let+ e := reader_slot h in
  let size := match remaining_limit e with None => requested | Some r => Z.min r requested end in
  if size =? 0 then answer []
  else
    let+ bytes := backing_read e size in
    put_reader h (advance e (zlen bytes)) ;*
    let+ _ :=
      match tee_writer e with
      | Some s => if zlen bytes =? 0 then answer tt else write_writer_slot s bytes
      | None => answer tt
      end in
    answer bytes.

Definition mux_io_reader_read (reader : arg) (size : Z) : IO W (result (list Z) string) :=
  let+ h := handle reader CReader true in
  if negb (in_range 0 MAX_STREAM_BYTES size) then throw "read size must be between 0 and 16 MiB"
  else reader_read_up_to h size.

(** [Read for ReaderAdapter], on a buffer of [size] octets. *)
Definition adapter_read (h size : Z) : IO W (result (list Z) string) :=
  if size =? 0 then answer [] else reader_read_up_to h size.

(** The loop of [read_line]; every round reads an octet, so [fuel] is the limit and one more. *)
Fixpoint line_loop (fuel : nat) (h : Z) (line : list Z) : IO W (result (option (list Z)) string) :=
  match fuel with
  | O => answer None
  | Datatypes.S fuel =>
      let+ byte := reader_read_up_to h 1 in
      match byte with
      | [] => answer (Some line)
      | b :: _ =>
          let line := line ++ [b] in
          if MAX_STREAM_BYTES <? zlen line then throw "line exceeds the 16 MiB stream limit"
          else if b =? 10 then answer (Some line)
          else line_loop fuel h line
      end
  end.

(** The line without its LF or CRLF. *)
Definition chomp (line : list Z) : list Z :=
  match rev line with
  | 10 :: 13 :: r => rev r
  | 10 :: r => rev r
  | _ => line
  end.

Definition read_line (fuel : nat) (reader : arg) : IO W (result (option (list Z)) string) :=
  let+ h := handle reader CReader true in
  let+ line := line_loop fuel h [] in
  match line with
  | None => spanic
  | Some [] => answer None
  | Some line => if is_utf8 (chomp line) then answer (Some (chomp line)) else throw "reader line is not valid UTF-8"
  end.
Definition mux_io_reader_read_line (reader : arg) : IO W (result (option (list Z)) string) :=
  read_line (Z.to_nat MAX_STREAM_BYTES + 2) reader.

Definition reader_entry (reader : arg) : IO W (result (Z * ReaderEntry) string) :=
  let+ h := handle reader CReader true in let+ e := reader_slot h in answer (h, e).

Definition mux_io_reader_limit (reader : arg) (limit : Z) : IO W (result unit string) :=
  if negb (in_range 0 MAX_STREAM_BYTES limit) then throw "reader limit must be between 0 and 16 MiB"
  else
    let+ (h, e) := reader_entry reader in
    put_reader h (mk_reader (r_data e) (r_position e) (Some limit) (tee_writer e) (r_stdio e) (r_file e) (r_socket e)) ;* answer tt.

Definition set_tee (e : ReaderEntry) (t : option Z) : ReaderEntry :=
  mk_reader (r_data e) (r_position e) (remaining_limit e) t (r_stdio e) (r_file e) (r_socket e).

Definition mux_io_reader_tee (reader writer : arg) : IO W (result unit string) :=
  let+ r := handle reader CReader true in
  let+ w := handle writer CWriter false in
  let+ _ := retain_writer w in
  let* e := reader_slot r in
  match e with
  | Err m => release_writer w ;* throw m
  | Ok e =>
      let* s := writer_slot w in
      match s with
      | Err m => release_writer w ;* throw m
      | Ok s => put_reader r (set_tee e (Some s)) ;* release_tee e ;* answer tt
      end
  end.
Definition mux_io_reader_untee (reader : arg) : IO W (result unit string) :=
  let+ (h, e) := reader_entry reader in
  put_reader h (set_tee e None) ;* release_tee e ;* answer tt.

(** What is left, within the limit. *)
Definition left_over (e : ReaderEntry) (stop : Z) : Z :=
  let remaining := Z.max 0 (stop - r_position e) in
  match remaining_limit e with None => remaining | Some limit => Z.min limit remaining end.
Definition mux_io_reader_remaining (reader : arg) : IO W (result Z string) :=
  let+ (_, e) := reader_entry reader in
  if bool_decide (is_Some (r_socket e)) then throw "remaining is not available for a socket-backed reader"
  else if bool_decide (is_Some (r_stdio e)) then throw "remaining is not available for a standard input reader"
  else match r_file e with
       | Some fd =>
           let* st := sget in
           match fd_len fd (os st) with
           | Err m => throw ("file reader metadata failed: " +:+ m)
           | Ok stop => answer (as_i64 (left_over e (Z.min stop usize_max)))
           end
       | None => answer (as_i64 (left_over e (zlen (r_data e))))
       end.

(** The loops that read in chunks; every round takes an octet of the limit. *)
Fixpoint to_end_loop (fuel : nat) (h limit : Z) (output : list Z) : IO W (result (list Z) string) :=
  match fuel with
  | O => answer output
  | Datatypes.S fuel =>
      if zlen output <? limit then
        let+ chunk := reader_read_up_to h (Z.min (limit - zlen output) 8192) in
        match chunk with [] => answer output | _ => to_end_loop fuel h limit (output ++ chunk) end
      else answer output
  end.
Definition mux_io_reader_read_to_end (reader : arg) (limit : Z) : IO W (result (list Z) string) :=
  if negb (in_range 0 MAX_STREAM_BYTES limit) then throw "read limit must be between 0 and 16 MiB"
  else let+ h := handle reader CReader true in to_end_loop (Z.to_nat limit) h limit [].

Fixpoint copy_loop (fuel : nat) (r w limit total : Z) : IO W (result Z string) :=
  match fuel with
  | O => answer total
  | Datatypes.S fuel =>
      if total <? limit then
        let+ chunk := reader_read_up_to r (Z.min (limit - total) 8192) in
        match chunk with
        | [] => answer total
        | _ => let+ _ := write_writer w chunk in copy_loop fuel r w limit (total + zlen chunk)
        end
      else answer total
  end.
Definition mux_io_reader_copy_to (reader writer : arg) (limit : Z) : IO W (result Z string) :=
  if negb (in_range 0 MAX_STREAM_BYTES limit) then throw "copy limit must be between 0 and 16 MiB"
  else
    let+ r := handle reader CReader true in
    let+ w := handle writer CWriter false in
    copy_loop (Z.to_nat limit) r w limit 0.

Fixpoint exact_loop (fuel : nat) (reader : arg) (target : Z) (output : list Z) : IO W (result (list Z) string) :=
  match fuel with
  | O => answer output
  | Datatypes.S fuel =>
      if zlen output <? target then
        let+ bytes := mux_io_reader_read reader (target - zlen output) in
        match bytes with
        | [] => throw "reader reached EOF before the requested size"
        | _ => exact_loop fuel reader target (output ++ bytes)
        end
      else answer output
  end.
Definition mux_io_reader_read_exact (reader : arg) (size : Z) : IO W (result (list Z) string) :=
  if negb (in_range 0 MAX_STREAM_BYTES size) then throw "read-exact size must be between 0 and 16 MiB"
  else exact_loop (Z.to_nat size) reader size [].

Definition mux_io_reader_position (reader : arg) : IO W (result Z string) :=
  let+ h := handle reader CReader true in
  let* e := reader_slot h in
  answer (match e with Ok e => as_i64 (r_position e) | Err _ => 0 end).

Definition mux_io_reader_seek (reader : arg) (position : Z) : IO W (result Z string) :=
  let+ h := handle reader CReader true in
  if position <? 0 then throw "reader position must not be negative"
  else
    let+ e := reader_slot h in
    let moved := mk_reader (r_data e) position (remaining_limit e) (tee_writer e) (r_stdio e) (r_file e) (r_socket e) in
    if bool_decide (is_Some (r_stdio e)) then throw "seek is not available for a standard input reader"
    else if bool_decide (is_Some (r_socket e)) then throw "seek is not available for a socket-backed reader"
    else match r_file e with
         | Some fd =>
             let* st := sget in
             match fd_len fd (os st) with
             | Err m => throw ("file reader metadata failed: " +:+ m)
             | Ok stop =>
                 if stop <? position then throw "reader position exceeds the file"
                 else let+ _ := os_result "file reader seek failed: " (fd_seek fd position) in put_reader h moved ;* answer position
             end
         | None =>
             if zlen (r_data e) <? position then throw "reader position exceeds the buffer"
             else put_reader h moved ;* answer position
         end.

(** ** Erased streams *)

Definition erased_stream_entry (value : arg) : IO W (result Z string) :=
  fun st => Some (
    match value with
    | Obj o =>
        match objects st !! o with
        | Some (CStream, h) => if bool_decide (is_Some (streams st !! h)) then Ok h else Err "stream is closed or invalid"
        | _ => Err "stream type mismatch"
        end
    | _ => Err "stream type mismatch"
    end, st).

Definition erased_from_handle (h : Z) (reader : bool) (a : option Z) : IO W (result unit string) :=
  let* r := (if reader then retain_reader h else retain_writer h) in
  match r with
  | Err _ => throw "stream is closed or invalid"
  | Ok _ =>
      let* eh := next_handle in
      smodify (fun st => set_streams (<[eh := mk_erased (if reader then Some h else None) (if reader then None else Some h) 1]> (streams st)) st) ;*
      let* ok := object CStream eh a in
      if ok then answer tt
      else smodify (fun st => set_streams (delete eh (streams st)) st) ;* release h reader ;* throw "failed to allocate stream handle"
  end.
Definition mux_io_stream_from_reader (reader : arg) (a : option Z) : IO W (result unit string) :=
  let+ h := handle reader CReader true in erased_from_handle h true a.
Definition mux_io_stream_from_writer (writer : arg) (a : option Z) : IO W (result unit string) :=
  let+ h := handle writer CWriter false in erased_from_handle h false a.

Definition mux_io_stream_close (stream : arg) : IO W unit :=
  let* r := erased_stream_entry stream in
  match r, stream with
  | Ok h, Obj o => close_erased_stream h ;* smodify (fun st => set_objects (<[o := (CStream, 0)]> (objects st)) st)
  | _, _ => sret tt
  end.

(** A capability: a temporary object on the handle, dropped after the call. *)
Definition with_capability {A} (reader : bool) (h : Z) (a : option Z) (f : arg -> IO W (result A string)) : IO W (result A string) :=
  let+ _ := (if reader then retain_reader h else retain_writer h) in
  match a with
  | None => release h reader ;* throw (if reader then "could not allocate reader capability" else "could not allocate writer capability")
  | Some o =>
      object (if reader then CReader else CWriter) h (Some o) ;*
      let* output := f (Obj o) in
      drop_object o ;* sret output
  end.

Definition erased_side (side : ErasedStreamEntry -> option Z) (e : string) (stream : arg) : IO W (result Z string) :=
  let+ h := erased_stream_entry stream in
  fun st => Some (match streams st !! h ≫= side with Some s => Ok s | None => Err e end, st).

Definition mux_io_stream_read (stream : arg) (size : Z) (a : option Z) : IO W (result (list Z) string) :=
  let+ r := erased_side e_reader "stream does not support read" stream in
  with_capability true r a (fun v => mux_io_reader_read v size).
Definition mux_io_stream_write (stream : arg) (bytes : option value) (a : option Z) : IO W (result Z string) :=
  let+ w := erased_side e_writer "stream does not support write" stream in
  with_capability false w a (fun v => mux_io_writer_write v bytes).
Definition mux_io_stream_flush (stream : arg) (a : option Z) : IO W (result unit string) :=
  let+ w := erased_side e_writer "stream does not support flush" stream in
  with_capability false w a mux_io_writer_flush.
Definition mux_io_stream_seek (stream : arg) (position : Z) (a : option Z) : IO W (result Z string) :=
  let+ h := erased_stream_entry stream in
  let* st := sget in
  match streams st !! h ≫= e_reader, streams st !! h ≫= e_writer with
  | Some r, _ => with_capability true r a (fun v => mux_io_reader_seek v position)
  | None, Some w => with_capability false w a (fun v => mux_io_writer_seek v position)
  | None, None => throw "stream does not support seek"
  end.

End Ops.
