(* ===== verification/StreamInv.v ===== *)
(** * The invariant of the stream registries

    A name of a slot is held by an object, by an erased stream or, for a writer, by a
    tee.  The invariant says that every registered slot has as many names as holders; in
    the middle of an operation the operation itself may hold some, and [inv] lists those.
    A triple [hoare P m Q] says that [m] does not panic from [P] and ends in [Q]. *)

From S2P Require Import Prelude AssocList Object Value Str Utf8 Lts Stream.

(** A name: the class of the slot and its handle. *)
Abbreviation name := (class * Z)%type.
Implicit Types x y : name.

(** The names that an erased stream and the tee of a reader hold. *)
Definition entry_refs (e : ErasedStreamEntry) : list name :=
  match e_reader e with Some r => [(CReader, r)] | None => [] end ++
  match e_writer e with Some w => [(CWriter, w)] | None => [] end.
Definition tee_refs (e : ReaderEntry) : list name :=
  match tee_writer e with Some w => [(CWriter, w)] | None => [] end.
Definition entry_has (x : name) (e : ErasedStreamEntry) : bool := bool_decide (x ∈ entry_refs e).
Definition tee_has (x : name) (e : ReaderEntry * Z) : bool := bool_decide (x ∈ tee_refs e.1).

Lemma occ_entry x e : occ x (entry_refs e) = Z.b2z (entry_has x e).
Proof.
  apply occ_nodup. unfold entry_refs. destruct (e_reader e), (e_writer e); cbn; repeat constructor; set_solver.
Qed.
Lemma occ_tee x e : occ x (tee_refs e) = Z.b2z (bool_decide (x ∈ tee_refs e)).
Proof. apply occ_nodup. unfold tee_refs. destruct (tee_writer e); repeat constructor; set_solver. Qed.

Section Inv.
Context {W : Type} `{Os W}.
Implicit Types st : state W.

Definition held st (x : name) : Z :=
  count (same x) (objects st) + count (entry_has x) (streams st) + count (tee_has x) (readers st).

(** The names a slot is registered with. *)
Definition names st (x : name) : option Z :=
  match x.1 with
  | CReader => snd <$> readers st !! x.2
  | CWriter => writers st !! x.2
  | CStream => e_names <$> streams st !! x.2
  | COther => None
  end.

(** The numbers are in range, and the position of a reader of memory is inside its buffer. *)
Definition reader_ok (e : ReaderEntry) : Prop :=
  0 <= r_position e <= usize_max /\ (forall r, remaining_limit e = Some r -> 0 <= r) /\
  (r_stdio e = None -> r_file e = None -> r_socket e = None -> r_position e <= zlen (r_data e)).

(** [k] bounds the handles given out and the live objects; [d] is what the running operation holds. *)
Record inv (k : Z) (d : list name) st : Prop := {
  i_next : 0 < next st <= k + 1;
  i_size : Z.of_nat (size (objects st)) <= k;
  i_ref x : 0 < held st x + occ x d -> x.2 < next st;
  i_names x n : names st x = Some n -> 0 < x.2 < next st /\ n = held st x + occ x d /\ 0 < n;
  i_writer w n : writers st !! w = Some n -> is_Some (slots st !! w);
  i_reader h e n : readers st !! h = Some (e, n) -> reader_ok e;
  i_tee h e n s : readers st !! h = Some (e, n) -> tee_writer e = Some s -> is_Some (slots st !! s);
}.

Lemma held_nonneg st x : 0 <= held st x.
Proof.
  unfold held. pose proof (count_nonneg (same x) (objects st)). pose proof (count_nonneg (entry_has x) (streams st)).
  pose proof (count_nonneg (tee_has x) (readers st)). lia.
Qed.

(** ** Triples *)

Definition hoare {A} (P : state W -> Prop) (m : IO W A) (Q : A -> state W -> Prop) : Prop :=
  forall st, P st -> exists a st', m st = Some (a, st') /\ Q a st'.
Definition keeps {A} (P : state W -> Prop) (m : IO W A) : Prop := hoare P m (fun _ => P).

Lemma hoare_ret {A} P (a : A) : keeps P (sret a).
Proof. intros st HP. by exists a, st. Qed.

Lemma hoare_bind {A B} P (m : IO W A) Q (f : A -> IO W B) R :
  hoare P m Q -> (forall a, hoare (Q a) (f a) R) -> hoare P (sbind m f) R.
Proof. intros Hm Hf st HP. destruct (Hm st HP) as (a & st' & E & HQ). unfold sbind. rewrite E. by apply Hf. Qed.

Lemma hoare_ebind {A B} P (m : IO W (result A string)) Q (f : A -> IO W (result B string)) R :
  hoare P m Q -> (forall a, hoare (Q (Ok a)) (f a) R) -> (forall e st, Q (Err e) st -> R (Err e) st) ->
  hoare P (ebind m f) R.
Proof.
  intros Hm Hf He. eapply hoare_bind; [done|]. intros [a|e]; [apply Hf|].
  intros st HQ. exists (Err e), st. split; [done|by apply He].
Qed.

Lemma hoare_conseq {A} P P' (m : IO W A) Q Q' :
  hoare P' m Q' -> (forall st, P st -> P' st) -> (forall a st, Q' a st -> Q a st) -> hoare P m Q.
Proof. intros Hm HP HQ st H1. destruct (Hm st (HP st H1)) as (a & st' & E & H2). exists a, st'. split; [done|by apply HQ]. Qed.

Lemma keeps_bind {A B} P (m : IO W A) (f : A -> IO W B) : keeps P m -> (forall a, keeps P (f a)) -> keeps P (sbind m f).
Proof. intros. by eapply hoare_bind. Qed.
Lemma keeps_ebind {A B} P (m : IO W (result A string)) (f : A -> IO W (result B string)) :
  keeps P m -> (forall a, keeps P (f a)) -> keeps P (ebind m f).
Proof. intros. by eapply hoare_ebind. Qed.

(** The state at hand. *)
Lemma hoare_get {A} P (f : state W -> IO W A) R :
  (forall st, P st -> hoare (fun st' => st' = st) (f st) R) -> hoare P (sbind sget f) R.
Proof. intros Hf st HP. unfold sbind, sget. by apply (Hf st HP st). Qed.

(** ** Debts *)

Lemma inv_mono k k' d st : inv k d st -> k <= k' -> inv k' d st.
Proof. intros [] Hk. split; try done; lia. Qed.

Lemma inv_perm k d d' st : d ≡ₚ d' -> inv k d st -> inv k d' st.
Proof.
  intros Hp [I1 I2 I3 I4 I5 I6 I7]. assert (forall x, occ x d' = occ x d) as E by (intros x; unfold occ; by rewrite Hp).
  split; try done; intros x; rewrite ?E; eauto.
Qed.

(** A name of a slot that is not registered does not count. *)
Lemma debt_drop k x d st : inv k (x :: d) st -> names st x = None -> inv k d st.
Proof.
  intros [I1 I2 I3 I4 I5 I6 I7] Hn. split; try done.
  - intros y Hy. apply I3. rewrite occ_cons. pose proof (b2z_nonneg (same y x)). lia.
  - intros y n Hy. specialize (I4 y n Hy). rewrite occ_cons in I4. unfold same in I4. case_bool_decide as E; [congruence|done].
Qed.

Lemma debt_add k x d st : inv k d st -> names st x = None -> x.2 < next st -> inv k (x :: d) st.
Proof.
  intros [I1 I2 I3 I4 I5 I6 I7] Hn Hx. split; try done.
  - intros y Hy. rewrite occ_cons in Hy. unfold same in Hy. case_bool_decide as E; [by subst y|]. by apply I3.
  - intros y n Hy. specialize (I4 y n Hy). rewrite occ_cons. unfold same. case_bool_decide as E; [congruence|done].
Qed.

Lemma names_zero k d st c : inv k d st -> names st (c, 0) = None.
Proof. intros I. destruct (names st (c, 0)) as [n|] eqn:E; [|done]. apply (i_names _ _ _ I) in E. cbn in E. lia. Qed.

(** Nothing holds the next handle. *)
Lemma fresh_unused k d st c : inv k d st -> names st (c, next st) = None /\ held st (c, next st) = 0 /\ occ (c, next st) d = 0.
Proof.
  intros I. pose proof (held_nonneg st (c, next st)). pose proof (occ_nonneg (c, next st) d). split.
  - destruct (names st _) as [n|] eqn:E; [|done]. apply (i_names _ _ _ I) in E. cbn in E. lia.
  - assert (~ 0 < held st (c, next st) + occ (c, next st) d); [|lia]. intros Hp. apply (i_ref _ _ _ I) in Hp. cbn in Hp. lia.
Qed.

(** ** Objects *)

Lemma inv_object k x d st o : inv k (x :: d) st -> objects st !! o = None ->
  inv (k + 1) d (set_objects (<[o := x]> (objects st)) st).
Proof.
  intros [I1 I2 I3 I4 I5 I6 I7] Ho.
  assert (forall y, held (set_objects (<[o := x]> (objects st)) st) y + occ y d = held st y + occ y (x :: d)) as E.
  { intros y. unfold held. cbn. rewrite count_add, occ_cons by done. lia. }
  split; cbn; try done; try lia.
  - rewrite map_size_insert_None by done. lia.
  - intros y. rewrite E. apply I3.
  - intros y n Hy. rewrite E. by apply I4.
Qed.

Lemma inv_unobject k x d st o : inv k d st -> objects st !! o = Some x ->
  inv k (x :: d) (set_objects (delete o (objects st)) st).
Proof.
  intros [I1 I2 I3 I4 I5 I6 I7] Ho.
  assert (forall y, held (set_objects (delete o (objects st)) st) y + occ y (x :: d) = held st y + occ y d) as E.
  { intros y. unfold held. cbn. erewrite count_delete, occ_cons by done. lia. }
  split; cbn; try done; try lia.
  - rewrite map_size_delete, Ho. cbn. lia.
  - intros y. rewrite E. apply I3.
  - intros y n Hy. rewrite E. by apply I4.
Qed.

(** The object gives up its handle. *)
Lemma inv_zero_object k c h d st o : inv k d st -> objects st !! o = Some (c, h) -> names st (c, h) = None ->
  inv k d (set_objects (<[o := (c, 0)]> (objects st)) st).
Proof.
  intros I Ho Hn. pose proof (inv_unobject _ _ _ _ _ I Ho) as I1. apply debt_drop in I1; [|done].
  assert (inv k ((c, 0) :: d) (set_objects (delete o (objects st)) st)) as I2.
  { apply debt_add; [done|by eapply names_zero|]. pose proof (i_next _ _ _ I1). cbn in *. lia. }
  apply inv_object with (o := o) in I2; [|apply lookup_delete_eq].
  destruct I2 as [J1 J2 J3 J4 J5 J6 J7]. cbn in *. unfold set_objects in *. cbn in *. rewrite insert_delete_eq in *.
  split; try done; [apply (i_next _ _ _ I)|].
  cbn [objects]. rewrite map_size_insert_Some by eauto. apply (i_size _ _ _ I).
Qed.

(** ** Registries *)

Lemma held_reader st h e n e' n' y : readers st !! h = Some (e, n) ->
  held (set_readers (<[h := (e', n')]> (readers st)) st) y + occ y (tee_refs e) = held st y + occ y (tee_refs e').
Proof. intros Hh. unfold held. cbn. rewrite (count_insert _ _ _ _ _ Hh). unfold tee_has at 2 3. cbn. rewrite !occ_tee. lia. Qed.

Lemma held_unreader st h e n y : readers st !! h = Some (e, n) ->
  held (set_readers (delete h (readers st)) st) y + occ y (tee_refs e) = held st y.
Proof. intros Hh. unfold held. cbn. rewrite (count_delete _ _ _ _ Hh). unfold tee_has at 2. cbn. rewrite !occ_tee. lia. Qed.

Lemma names_reader st h v y : names (set_readers (<[h := v]> (readers st)) st) y = if same y (CReader, h) then Some v.2 else names st y.
Proof.
  destruct y as [[| | |] z]; unfold names, same; cbn; case_bool_decide as E; try congruence.
  - injection E as ->. by rewrite lookup_insert_eq.
  - rewrite lookup_insert_ne by congruence. done.
Qed.

Lemma names_unreader st h y : names (set_readers (delete h (readers st)) st) y = if same y (CReader, h) then None else names st y.
Proof.
  destruct y as [[| | |] z]; unfold names, same; cbn; case_bool_decide as E; try congruence.
  - injection E as ->. by rewrite lookup_delete_eq.
  - rewrite lookup_delete_ne by congruence. done.
Qed.

Lemma names_writer st h v y : names (set_writers (<[h := v]> (writers st)) st) y = if same y (CWriter, h) then Some v else names st y.
Proof.
  destruct y as [[| | |] z]; unfold names, same; cbn; case_bool_decide as E; try congruence.
  - injection E as ->. by rewrite lookup_insert_eq.
  - rewrite lookup_insert_ne by congruence. done.
Qed.

Lemma names_unwriter st h y : names (set_writers (delete h (writers st)) st) y = if same y (CWriter, h) then None else names st y.
Proof.
  destruct y as [[| | |] z]; unfold names, same; cbn; case_bool_decide as E; try congruence.
  - injection E as ->. by rewrite lookup_delete_eq.
  - rewrite lookup_delete_ne by congruence. done.
Qed.

(** A registered reader gets another state, another tee and other names; [d'] makes up for them. *)
Lemma inv_reader k d d' st h e n e' n' : inv k d st -> readers st !! h = Some (e, n) -> 0 < n' -> reader_ok e' ->
  (forall s, tee_writer e' = Some s -> is_Some (slots st !! s)) ->
  (forall y, occ y d' + occ y (tee_refs e') = occ y d + occ y (tee_refs e) + if same y (CReader, h) then n' - n else 0) ->
  inv k d' (set_readers (<[h := (e', n')]> (readers st)) st).
Proof.
  intros [I1 I2 I3 I4 I5 I6 I7] Hh Hn' Hok Hs Hd.
  assert (names st (CReader, h) = Some n) as Hnm by (unfold names; cbn; by rewrite Hh).
  assert (forall y, held (set_readers (<[h := (e', n')]> (readers st)) st) y + occ y d' =
    held st y + occ y d + if same y (CReader, h) then n' - n else 0) as E.
  { intros y. pose proof (held_reader st h e n e' n' y Hh). specialize (Hd y). lia. }
  split; cbn; try done.
  - intros y. rewrite E. unfold same. case_bool_decide as Ey; [|rewrite Z.add_0_r; apply I3].
    intros _. subst y. apply I4 in Hnm. cbn in *. lia.
  - intros y m. rewrite E, names_reader. unfold same. case_bool_decide as Ey; [|rewrite Z.add_0_r; apply I4].
    intros [= <-]. subst y. apply I4 in Hnm. cbn in *. split_and!; lia.
  - intros h' e2 n2. destruct (decide (h' = h)) as [->|Hne].
    + rewrite lookup_insert_eq. by intros [= <- <-].
    + rewrite lookup_insert_ne by done. apply I6.
  - intros h' e2 n2 s. destruct (decide (h' = h)) as [->|Hne].
    + rewrite lookup_insert_eq. intros [= <- <-]. apply Hs.
    + rewrite lookup_insert_ne by done. apply I7.
Qed.

Lemma reader_names k d st h e n : inv k d st -> readers st !! h = Some (e, n) -> 0 < n.
Proof. intros I Hh. apply (i_names _ _ _ I (CReader, h) n). unfold names. cbn. by rewrite Hh. Qed.

Lemma inv_reader_same k d st h e n e' : inv k d st -> readers st !! h = Some (e, n) -> tee_writer e' = tee_writer e -> reader_ok e' ->
  inv k d (set_readers (<[h := (e', n)]> (readers st)) st).
Proof.
  intros I Hh Ht Hok. eapply inv_reader; try done; [by eapply reader_names|intros s; rewrite Ht; by eapply i_tee|].
  intros y. unfold tee_refs. rewrite Ht. destruct (same _ _); lia.
Qed.

Lemma inv_tee k d st h e n e' : inv k (tee_refs e' ++ d) st -> readers st !! h = Some (e, n) -> reader_ok e' ->
  (forall s, tee_writer e' = Some s -> is_Some (slots st !! s)) ->
  inv k (tee_refs e ++ d) (set_readers (<[h := (e', n)]> (readers st)) st).
Proof.
  intros I Hh Hok Hs. eapply inv_reader; try done; [by eapply reader_names|].
  intros y. rewrite !occ_app. destruct (same _ _); lia.
Qed.

Lemma inv_count_reader k d d' st h e n n' : inv k d st -> readers st !! h = Some (e, n) -> 0 < n' ->
  (forall y, occ y d' = occ y d + if same y (CReader, h) then n' - n else 0) ->
  inv k d' (set_readers (<[h := (e, n')]> (readers st)) st).
Proof.
  intros I Hh Hn Hd. eapply inv_reader; try done; [by eapply i_reader|intros s; by eapply i_tee|].
  intros y. rewrite Hd. lia.
Qed.

Lemma inv_count_writer k d d' st h n n' : inv k d st -> writers st !! h = Some n -> 0 < n' ->
  (forall y, occ y d' = occ y d + if same y (CWriter, h) then n' - n else 0) ->
  inv k d' (set_writers (<[h := n']> (writers st)) st).
Proof.
  intros [I1 I2 I3 I4 I5 I6 I7] Hh Hn' Hd.
  assert (names st (CWriter, h) = Some n) as Hnm by done.
  assert (forall y, held (set_writers (<[h := n']> (writers st)) st) y = held st y) as E by done.
  split; cbn; try done.
  - intros y. rewrite E, Hd. unfold same. case_bool_decide as Ey; [|rewrite Z.add_0_r; apply I3].
    intros _. subst y. apply I4 in Hnm. cbn in *. lia.
  - intros y m. rewrite E, Hd, names_writer. unfold same. case_bool_decide as Ey; [|rewrite Z.add_0_r; apply I4].
    intros [= <-]. subst y. apply I4 in Hnm. cbn in *. split_and!; lia.
  - intros w m. destruct (decide (w = h)) as [->|Hne]; [|rewrite lookup_insert_ne by done; apply I5].
    intros _. by eapply I5.
Qed.

(** A registration goes, and with it what its entry held. *)
Lemma inv_unreader k d st h e n : inv k d st -> readers st !! h = Some (e, n) ->
  inv k (tee_refs e ++ d) (set_readers (delete h (readers st)) st).
Proof.
  intros [I1 I2 I3 I4 I5 I6 I7] Hh.
  assert (forall y, held (set_readers (delete h (readers st)) st) y + occ y (tee_refs e ++ d) = held st y + occ y d) as E.
  { intros y. rewrite occ_app. pose proof (held_unreader st h e n y Hh). lia. }
  split; cbn; try done.
  - intros y. rewrite E. apply I3.
  - intros y m. rewrite E, names_unreader. destruct (same _ _); [done|apply I4].
  - intros h' e2 n2 Hx. apply lookup_delete_Some in Hx as [_ Hx]. by eapply I6.
  - intros h' e2 n2 s Hx. apply lookup_delete_Some in Hx as [_ Hx]. by eapply I7.
Qed.

Lemma inv_unwriter k d st h : inv k d st -> inv k d (set_writers (delete h (writers st)) st).
Proof.
  intros [I1 I2 I3 I4 I5 I6 I7]. split; cbn; try done.
  - intros y m. rewrite names_unwriter. destruct (same _ _); [done|apply I4].
  - intros w m Hw. apply lookup_delete_Some in Hw as [_ Hw]. by eapply I5.
Qed.

(** ** Erased streams *)

Lemma held_stream st h e e' y : streams st !! h = Some e -> entry_refs e' = entry_refs e ->
  held (set_streams (<[h := e']> (streams st)) st) y = held st y.
Proof. intros Hh He. unfold held. cbn. rewrite (count_insert _ _ _ _ _ Hh). unfold entry_has at 2 3. rewrite He. lia. Qed.

Lemma names_stream st h v y : names (set_streams (<[h := v]> (streams st)) st) y = if same y (CStream, h) then Some (e_names v) else names st y.
Proof.
  destruct y as [[| | |] z]; unfold names, same; cbn; case_bool_decide as E; try congruence.
  - injection E as ->. by rewrite lookup_insert_eq.
  - rewrite lookup_insert_ne by congruence. done.
Qed.

Lemma names_unstream st h y : names (set_streams (delete h (streams st)) st) y = if same y (CStream, h) then None else names st y.
Proof.
  destruct y as [[| | |] z]; unfold names, same; cbn; case_bool_decide as E; try congruence.
  - injection E as ->. by rewrite lookup_delete_eq.
  - rewrite lookup_delete_ne by congruence. done.
Qed.

Lemma inv_count_stream k d d' st h e n' : inv k d st -> streams st !! h = Some e -> 0 < n' ->
  (forall y, occ y d' = occ y d + if same y (CStream, h) then n' - e_names e else 0) ->
  inv k d' (set_streams (<[h := mk_erased (e_reader e) (e_writer e) n']> (streams st)) st).
Proof.
  intros [I1 I2 I3 I4 I5 I6 I7] Hh Hn' Hd.
  assert (names st (CStream, h) = Some (e_names e)) as Hnm by (unfold names; cbn; by rewrite Hh).
  assert (forall y, held (set_streams (<[h := mk_erased (e_reader e) (e_writer e) n']> (streams st)) st) y = held st y) as E.
  { intros y. by eapply held_stream. }
  split; cbn; try done.
  - intros y. rewrite E, Hd. unfold same. case_bool_decide as Ey; [|rewrite Z.add_0_r; apply I3].
    intros _. subst y. apply I4 in Hnm. cbn in *. lia.
  - intros y m. rewrite E, Hd, names_stream. unfold same. case_bool_decide as Ey; [|rewrite Z.add_0_r; apply I4].
    intros [= <-]. subst y. apply I4 in Hnm. cbn in *. split_and!; lia.
Qed.

Lemma inv_unstream k d st h e : inv k d st -> streams st !! h = Some e ->
  inv k (entry_refs e ++ d) (set_streams (delete h (streams st)) st).
Proof.
  intros [I1 I2 I3 I4 I5 I6 I7] Hh.
  assert (forall y, held (set_streams (delete h (streams st)) st) y + occ y (entry_refs e ++ d) = held st y + occ y d) as E.
  { intros y. rewrite occ_app, occ_entry. unfold held. cbn. rewrite (count_delete _ _ _ _ Hh). lia. }
  split; cbn; try done.
  - intros y. rewrite E. apply I3.
  - intros y m. rewrite E, names_unstream. destruct (same _ _); [done|apply I4].
Qed.

(** ** Registration *)

(** [st'] is [st] with [x] registered under one name, at the next handle, and its entry holding [refs]. *)
Lemma inv_register k d st st' c refs : inv k (refs ++ d) st -> let x := (c, next st) in
  next st' = next st + 1 -> objects st' = objects st ->
  (forall y, held st' y = held st y + occ y refs) ->
  (forall y, names st' y = if same y x then Some 1 else names st y) ->
  (forall w, is_Some (slots st !! w) -> is_Some (slots st' !! w)) ->
  (forall w n, writers st' !! w = Some n -> writers st !! w = Some n \/ is_Some (slots st' !! w)) ->
  (forall h e n, readers st' !! h = Some (e, n) -> readers st !! h = Some (e, n) \/ (reader_ok e /\ tee_writer e = None)) ->
  inv (k + 1) (x :: d) st'.
Proof.
  intros I x Hnx Ho Hheld Hnames Hslots Hw Hr. destruct (fresh_unused _ _ _ c I) as (Hn & Hh & Hocc). fold x in Hn, Hh, Hocc.
  destruct I as [I1 I2 I3 I4 I5 I6 I7].
  assert (forall y, held st' y + occ y (x :: d) = held st y + occ y (refs ++ d) + Z.b2z (same y x)) as E.
  { intros y. rewrite Hheld, occ_cons, occ_app. lia. }
  split; rewrite ?Ho, ?Hnx; try done; try lia.
  - intros y. rewrite E. unfold same. case_bool_decide as Ey; [subst y; cbn; lia|]. cbn [Z.b2z]. rewrite Z.add_0_r. intros Hp. apply I3 in Hp. lia.
  - intros y n. rewrite E, Hnames. unfold same. case_bool_decide as Ey.
    + intros [= <-]. subst y. rewrite Hh, Hocc. cbn. lia.
    + intros Hy. destruct (I4 y n Hy) as (? & ? & ?). cbn [Z.b2z]. split_and!; lia.
  - intros w n Hx. destruct (Hw w n Hx) as [Hx'|Hx']; [|done]. eauto.
  - intros h e n Hx. destruct (Hr h e n Hx) as [Hx'|[Hx' _]]; eauto.
  - intros h e n s Hx Ht. destruct (Hr h e n Hx) as [Hx'|[_ Hx']]; [eauto|congruence].
Qed.
End Inv.
