(* ===== verification/StreamSafe.v ===== *)
(** * The registries under every operation

    Every operation of [src/src/stream.rs] keeps the invariant of [StreamInv], and none
    of them panics: no slice is out of bounds and no lock names a slot that is gone. *)

From S2P Require Import Prelude AssocList Object Value Str Utf8 Lts Stream StreamInv.

Section Safe.
Context {W : Type} `{Os W}.
Implicit Types st : state W.
Implicit Types (k h o : Z) (d : list name).

#[local] Abbreviation triple := (hoare (W := W)).
#[local] Abbreviation kept := (keeps (W := W)).

(** ** Releasing *)

Lemma release_writer_ok k d h : triple (inv k ((CWriter, h) :: d)) (release_writer h) (fun _ => inv k d).
Proof.
  intros st I. exists tt. eexists. split; [done|]. destruct (writers st !! h) as [n|] eqn:E; [|by eapply debt_drop].
  case (Z.eqb_spec n 1) as [->|Hn].
  - eapply debt_drop; [by apply inv_unwriter|]. rewrite names_unwriter. unfold same. by rewrite bool_decide_true.
  - destruct (i_names _ _ _ I (CWriter, h) n E) as (_ & _ & Hp).
    eapply inv_count_writer; [done|done|lia|]. intros y. rewrite occ_cons. unfold same. case_bool_decide; cbn [Z.b2z]; lia.
Qed.

Lemma release_writer_frame h st a st' : release_writer h st = Some (a, st') ->
  readers st' = readers st /\ streams st' = streams st /\ objects st' = objects st.
Proof. intros [= _ <-]. by destruct (writers st !! h). Qed.

Lemma release_tee_ok k d e : triple (inv k (tee_refs e ++ d)) (release_tee e) (fun _ => inv k d).
Proof. unfold release_tee, tee_refs. destruct (tee_writer e); [apply release_writer_ok|apply hoare_ret]. Qed.

Lemma release_tee_frame e st a st' : release_tee e st = Some (a, st') ->
  readers st' = readers st /\ streams st' = streams st /\ objects st' = objects st.
Proof. unfold release_tee. destruct (tee_writer e); [apply release_writer_frame|]. by intros [= _ <-]. Qed.

Lemma release_reader_ok k d h : triple (inv k ((CReader, h) :: d)) (release_reader h) (fun _ => inv k d).
Proof.
  intros st I. unfold release_reader, sbind, sget, sput. destruct (readers st !! h) as [[e n]|] eqn:E.
  - destruct (i_names _ _ _ I (CReader, h) n) as (_ & _ & Hp); [unfold names; cbn; by rewrite E|].
    case (Z.eqb_spec n 1) as [->|Hn].
    + apply release_tee_ok. apply debt_drop with (x := (CReader, h)).
      * eapply inv_perm; [|by eapply inv_unreader]. symmetry. apply Permutation_middle.
      * rewrite names_unreader. unfold same. by rewrite bool_decide_true.
    + exists tt. eexists. split; [done|]. eapply inv_count_reader; [done|done|lia|].
      intros y. rewrite occ_cons. unfold same. case_bool_decide; cbn [Z.b2z]; lia.
  - exists tt, st. split; [done|]. eapply debt_drop; [done|]. unfold names. cbn. by rewrite E.
Qed.

Lemma release_reader_frame h st a st' : release_reader h st = Some (a, st') -> streams st' = streams st /\ objects st' = objects st.
Proof.
  unfold release_reader, sbind, sget, sput. destruct (readers st !! h) as [[e n]|]; [|by intros [= _ <-]].
  destruct (n =? 1); [|by intros [= _ <-]]. intros Hr. by apply release_tee_frame in Hr as (_ & -> & ->).
Qed.

Definition side (r : bool) : class := if r then CReader else CWriter.

Lemma release_names k d h r : triple (inv k ((side r, h) :: d)) (release h r) (fun _ => inv k d).
Proof. destruct r; [apply release_reader_ok|apply release_writer_ok]. Qed.

Lemma release_frame h r st a st' : release h r st = Some (a, st') -> streams st' = streams st /\ objects st' = objects st.
Proof. destruct r; [apply release_reader_frame|]. intros E. by apply release_writer_frame in E as (_ & -> & ->). Qed.

Lemma release_entry_ok k d e : triple (inv k (entry_refs e ++ d)) (release_entry e) (fun _ => inv k d).
Proof.
  unfold release_entry, entry_refs. apply hoare_bind with (Q := fun _ => inv k (match e_writer e with Some w => [(CWriter, w)] | None => [] end ++ d)).
  - destruct (e_reader e); [apply (release_names _ _ _ true)|apply hoare_ret].
  - intros _. destruct (e_writer e); [apply (release_names _ _ _ false)|apply hoare_ret].
Qed.

Lemma release_entry_frame e st a st' : release_entry e st = Some (a, st') -> streams st' = streams st /\ objects st' = objects st.
Proof.
  unfold release_entry, sbind. intros E.
  assert (exists a1 st1, (match e_reader e with Some r => release r true | None => sret tt end) st = Some (a1, st1) /\
    streams st1 = streams st /\ objects st1 = objects st) as (a1 & st1 & E1 & <- & <-).
  { destruct (e_reader e) as [r|]; [|by exists tt, st]. destruct (release r true st) as [[a1 st1]|] eqn:E1; [|done].
    exists a1, st1. split; [done|by eapply release_frame]. }
  rewrite E1 in E. destruct (e_writer e); [by apply release_frame in E|]. by injection E as _ <-.
Qed.

Lemma release_erased_stream_ok k d h : triple (inv k ((CStream, h) :: d)) (release_erased_stream h) (fun _ => inv k d).
Proof.
  intros st I. unfold release_erased_stream, sbind, sget, sput. destruct (streams st !! h) as [e|] eqn:E.
  - destruct (i_names _ _ _ I (CStream, h) (e_names e)) as (_ & _ & Hp); [unfold names; cbn; by rewrite E|].
    case (Z.eqb_spec (Z.max 0 (e_names e - 1)) 0) as [Hz|Hn].
    + apply release_entry_ok. apply debt_drop with (x := (CStream, h)).
      * eapply inv_perm; [|by eapply inv_unstream]. symmetry. apply Permutation_middle.
      * rewrite names_unstream. unfold same. by rewrite bool_decide_true.
    + exists tt. eexists. split; [done|]. eapply inv_count_stream; [done|done|lia|].
      intros y. rewrite occ_cons. unfold same. case_bool_decide; cbn [Z.b2z]; lia.
  - exists tt, st. split; [done|]. eapply debt_drop; [done|]. unfold names. cbn. by rewrite E.
Qed.

(** Closing takes the registration at once. *)
Lemma close_erased_stream_ok k d h st : inv k d st -> exists st', close_erased_stream h st = Some (tt, st') /\
  inv k d st' /\ names st' (CStream, h) = None /\ objects st' = objects st.
Proof.
  intros I. unfold close_erased_stream, sbind, sget, sput. destruct (streams st !! h) as [e|] eqn:E.
  - destruct (release_entry_ok k d e (set_streams (delete h (streams st)) st)) as ([] & st' & Er & I'); [by apply inv_unstream|].
    exists st'. split; [done|]. apply release_entry_frame in Er as [Es Eo]. split_and!; [done| |done].
    unfold names. cbn. rewrite Es. cbn. by rewrite lookup_delete_eq.
  - exists st. split_and!; try done. unfold names. cbn. by rewrite E.
Qed.

Lemma drop_object_ok k d o : kept (inv k d) (drop_object o).
Proof.
  intros st I. unfold drop_object, sbind, sget, sput. destruct (objects st !! o) as [[c h]|] eqn:E; [|by exists tt, st].
  apply inv_unobject with (o := o) (x := (c, h)) in I; [|done]. destruct c.
  - by apply (release_names _ _ _ true).
  - by apply (release_names _ _ _ false).
  - by apply release_erased_stream_ok.
  - exists tt. eexists. split; [done|]. by eapply debt_drop.
Qed.

(** ** Retaining and copying *)

Lemma retain_reader_ok k d h :
  triple (inv k d) (retain_reader h) (fun r => match r with Ok _ => inv k ((CReader, h) :: d) | Err _ => inv k d end).
Proof.
  intros st I. unfold retain_reader. destruct (readers st !! h) as [[e n]|] eqn:E; [|by eexists _, st].
  destruct (n =? usize_max); [by eexists _, st|]. eexists (Ok tt), _. split; [done|].
  eapply inv_count_reader; [done|done|pose proof (reader_names _ _ _ _ _ _ I E); lia|].
  intros y. rewrite occ_cons. unfold same. case_bool_decide; cbn [Z.b2z]; lia.
Qed.

Lemma retain_writer_ok k d h :
  triple (inv k d) (retain_writer h) (fun r => match r with Ok _ => inv k ((CWriter, h) :: d) | Err _ => inv k d end).
Proof.
  intros st I. unfold retain_writer. destruct (writers st !! h) as [n|] eqn:E; [|by eexists _, st].
  destruct (n =? usize_max); [by eexists _, st|]. eexists (Ok tt), _. split; [done|].
  destruct (i_names _ _ _ I (CWriter, h) n E) as (_ & _ & Hp).
  eapply inv_count_writer; [done|done|lia|]. intros y. rewrite occ_cons. unfold same. case_bool_decide; cbn [Z.b2z]; lia.
Qed.

Lemma retain_ok k d h r :
  triple (inv k d) (if r : bool then retain_reader h else retain_writer h)
    (fun x => match x with Ok _ => inv k ((side r, h) :: d) | Err _ => inv k d end).
Proof. destruct r; [apply retain_reader_ok|apply retain_writer_ok]. Qed.

Lemma retain_frame h r st a st' : (if r : bool then retain_reader h else retain_writer h) st = Some (a, st') ->
  streams st' = streams st /\ objects st' = objects st /\ slots st' = slots st.
Proof.
  destruct r; unfold retain_reader, retain_writer; [destruct (readers st !! h) as [[? ?]|]|destruct (writers st !! h)];
    repeat case_match; by intros [= <- <-].
Qed.

Lemma zero_debt k d st c : inv k d st -> inv k ((c, 0) :: d) st.
Proof. intros I. apply debt_add; [done|by eapply names_zero|]. pose proof (i_next _ _ _ I). cbn. lia. Qed.

Lemma copy_erased_stream_ok k d h st : inv k d st -> k + Z.of_nat (length d) < i64_max ->
  exists h' st', copy_erased_stream h st = Some (h', st') /\ inv k ((CStream, h') :: d) st' /\ objects st' = objects st.
Proof.
  intros I Hk. unfold copy_erased_stream. destruct (streams st !! h) as [e|] eqn:E.
  - eexists h, _. split; [done|]. split; [|done].
    destruct (i_names _ _ _ I (CStream, h) (e_names e)) as (_ & Hn & Hp); [unfold names; cbn; by rewrite E|].
    assert (e_names e < i64_max).
    { rewrite Hn. unfold held. pose proof (count_size (same (CStream, h)) (objects st)). pose proof (i_size _ _ _ I).
      pose proof (occ_length (CStream, h) d).
      assert (count (entry_has (CStream, h)) (streams st) = 0) as ->.
      { apply count_zero. intros ? [r w ?] _. apply bool_decide_false. unfold entry_refs. cbn. destruct r, w; set_solver. }
      assert (count (tee_has (CStream, h)) (readers st) = 0) as ->.
      { apply count_zero. intros ? [r ?] _. apply bool_decide_false. unfold tee_refs. cbn. destruct (tee_writer r); set_solver. }
      lia. }
    eapply inv_count_stream; [done|done|unfold i64_max, usize_max in *; lia|].
    intros y. rewrite occ_cons. unfold same, i64_max, usize_max in *. case_bool_decide; cbn [Z.b2z]; lia.
  - exists 0, st. split; [done|]. split; [by apply zero_debt|done].
Qed.

(** What an allocation answers is a new object. *)
Definition fresh (a : option Z) st : Prop := forall o, a = Some o -> objects st !! o = None.

Lemma copied_ok k d c h st : inv k d st -> k + Z.of_nat (length d) < i64_max -> h < next st ->
  exists h' st', (match c with CReader => copy_reader h | CWriter => copy_writer h | CStream => copy_erased_stream h | COther => sret h end) st
    = Some (h', st') /\ inv k ((c, h') :: d) st' /\ objects st' = objects st.
Proof.
  intros I Hk Hh. destruct c.
  - unfold copy_reader, sbind. destruct (retain_ok k d h true st I) as (r & st' & E & I').
    destruct (retain_frame h true _ _ _ E) as (_ & Ho & _). cbn in E. rewrite E.
    destruct r; eexists _, st'; (split; [done|]); (split; [|done]); [done|by apply zero_debt].
  - unfold copy_writer, sbind. destruct (retain_ok k d h false st I) as (r & st' & E & I').
    destruct (retain_frame h false _ _ _ E) as (_ & Ho & _). cbn in E. rewrite E.
    destruct r; eexists _, st'; (split; [done|]); (split; [|done]); [done|by apply zero_debt].
  - by apply copy_erased_stream_ok.
  - exists h, st. split_and!; try done. by apply debt_add.
Qed.

Lemma inv_handle k d st o c h : inv k d st -> objects st !! o = Some (c, h) -> h < next st.
Proof.
  intros I Ho. apply (i_ref _ _ _ I (c, h)). pose proof (occ_nonneg (c, h) d). unfold held.
  pose proof (count_nonneg (entry_has (c, h)) (streams st)). pose proof (count_nonneg (tee_has (c, h)) (readers st)).
  assert (0 < count (same (c, h)) (objects st)); [|lia].
  apply count_pos. exists o, (c, h). split; [done|]. unfold same. by rewrite bool_decide_true.
Qed.

Lemma copy_object_ok k d o o' : k + Z.of_nat (length d) < i64_max ->
  triple (fun st => inv k d st /\ fresh (Some o') st) (copy_object o o') (fun _ => inv (k + 1) d).
Proof.
  intros Hk st [I Hf]. unfold copy_object, sbind at 1, sget. destruct (objects st !! o) as [[c h]|] eqn:Eo.
  - destruct (copied_ok k d c h st I Hk (inv_handle _ _ _ _ _ _ I Eo)) as (h' & st' & E & I' & Ho).
    unfold sbind. rewrite E. exists tt. eexists. split; [done|]. apply inv_object; [done|]. rewrite Ho. by apply Hf.
  - exists tt, st. split; [done|]. eapply inv_mono; [done|lia].
Qed.

(** ** Construction *)

(** Undoing a registration. *)
Lemma unregister_reader k d st h e n : inv k ((CReader, h) :: d) st -> readers st !! h = Some (e, n) -> tee_writer e = None ->
  inv k d (set_readers (delete h (readers st)) st).
Proof.
  intros I Hh Ht. eapply debt_drop with (x := (CReader, h)); [|rewrite names_unreader; unfold same; by rewrite bool_decide_true].
  apply inv_unreader with (h := h) (e := e) (n := n) in I; [|done]. unfold tee_refs in I. by rewrite Ht in I.
Qed.

Lemma unregister_writer k d st h : inv k ((CWriter, h) :: d) st -> inv k d (set_writers (delete h (writers st)) st).
Proof.
  intros I. eapply debt_drop with (x := (CWriter, h)); [by apply inv_unwriter|].
  rewrite names_unwriter; unfold same; by rewrite bool_decide_true.
Qed.

Lemma object_ok k d c h a : triple (fun st => inv k ((c, h) :: d) st /\ fresh a st) (object c h a)
  (fun ok st => if ok : bool then inv (k + 1) d st else inv k ((c, h) :: d) st).
Proof.
  intros st [I Hf]. destruct a as [o|]; [|by exists false, st]. exists true. eexists. split; [done|].
  apply inv_object; [done|by apply Hf].
Qed.

Lemma next_handle_spec k d st : inv k d st -> k + 1 < i64_max -> next_handle st = Some (next st, set_next (next st + 1) st).
Proof. intros I Hk. unfold next_handle. case (Z.eqb_spec (next st) i64_max) as [E|]; [pose proof (i_next _ _ _ I); lia|done]. Qed.

Lemma run_next {B} k d st (f : Z -> IO W B) : inv k d st -> k + 1 < i64_max ->
  sbind next_handle f st = f (next st) (set_next (next st + 1) st).
Proof. intros I Hk. unfold sbind. by rewrite (next_handle_spec k d). Qed.

Lemma run_bind {A B} st st' a (m : IO W A) (f : A -> IO W B) : m st = Some (a, st') -> sbind m f st = f a st'.
Proof. unfold sbind. by intros ->. Qed.

Lemma run_modify {B} st (g : state W -> state W) (f : unit -> IO W B) : sbind (smodify g) f st = f tt (g st).
Proof. done. Qed.

Lemma held_new_reader st h e n y : readers st !! h = None -> tee_writer e = None ->
  held (set_readers (<[h := (e, n)]> (readers st)) st) y = held st y.
Proof.
  intros Hh He. unfold held. cbn. rewrite count_add by done. unfold tee_has at 2, tee_refs. cbn. rewrite He.
  rewrite bool_decide_false by set_solver. cbn. lia.
Qed.

Lemma add_reader_ok k d e a : reader_ok e -> tee_writer e = None -> k + 1 < i64_max ->
  triple (fun st => inv k d st /\ fresh a st) (add_reader e a) (fun _ => inv (k + 2) d).
Proof.
  intros He Ht Hk st [I Hf]. destruct (fresh_unused _ _ _ CReader I) as (Hn & _ & _).
  assert (readers st !! next st = None) as Hnone by (unfold names in Hn; cbn in Hn; by destruct (readers st !! next st)).
  set (st1 := set_readers (<[next st := (e, 1)]> (readers st)) (set_next (next st + 1) st)).
  assert (inv (k + 1) ((CReader, next st) :: d) st1) as I1.
  { eapply inv_register with (refs := []) (st := st); try done.
    - intros y. rewrite Z.add_0_r. exact (held_new_reader st (next st) e 1 y Hnone Ht).
    - intros y. exact (names_reader st (next st) (e, 1) y).
    - eauto.
    - intros h e' n. cbn. destruct (decide (h = next st)) as [->|Hne].
      + rewrite lookup_insert_eq. intros [= <- <-]. by right.
      + rewrite lookup_insert_ne by done. by left. }
  unfold add_reader. rewrite (run_next k d), run_modify by done. fold st1. destruct a as [o|].
  - exists true. eexists. split; [done|]. eapply inv_mono; [apply inv_object; [exact I1|by apply Hf]|lia].
  - exists false. eexists. split; [done|]. eapply inv_mono; [eapply unregister_reader; [exact I1|apply lookup_insert_eq|done]|lia].
Qed.

Lemma add_writer_ok k d e a : k + 1 < i64_max ->
  triple (fun st => inv k d st /\ fresh a st) (add_writer e a) (fun _ => inv (k + 2) d).
Proof.
  intros Hk st [I Hf].
  set (st1 := set_slots (<[next st := e]> (slots st)) (set_writers (<[next st := 1]> (writers st)) (set_next (next st + 1) st))).
  assert (inv (k + 1) ((CWriter, next st) :: d) st1) as I1.
  { eapply inv_register with (refs := []) (st := st); try done.
    - intros y. by rewrite Z.add_0_r.
    - intros y. exact (names_writer st (next st) 1 y).
    - intros w. cbn. destruct (decide (w = next st)) as [->|Hne]; [by rewrite lookup_insert_eq|by rewrite lookup_insert_ne].
    - intros w n. cbn. destruct (decide (w = next st)) as [->|Hne]; [rewrite !lookup_insert_eq; eauto|rewrite lookup_insert_ne by done; eauto].
    - eauto. }
  unfold add_writer. rewrite (run_next k d), run_modify by done. fold st1. destruct a as [o|].
  - exists true. eexists. split; [done|]. eapply inv_mono; [apply inv_object; [exact I1|by apply Hf]|lia].
  - exists false. eexists. split; [done|]. eapply inv_mono; [eapply unregister_writer; exact I1|lia].
Qed.

Lemma unregister_stream k d st h e : inv k ((CStream, h) :: d) st -> streams st !! h = Some e ->
  inv k (entry_refs e ++ d) (set_streams (delete h (streams st)) st).
Proof.
  intros I Hh. eapply debt_drop with (x := (CStream, h)); [|rewrite names_unstream; unfold same; by rewrite bool_decide_true].
  eapply inv_perm; [|eapply inv_unstream; [exact I|exact Hh]]. symmetry. apply Permutation_middle.
Qed.

Lemma erased_from_handle_ok k d h r a : k + 1 < i64_max ->
  triple (fun st => inv k d st /\ fresh a st) (erased_from_handle h r a) (fun _ => inv (k + 2) d).
Proof.
  intros Hk st [I Hf]. unfold erased_from_handle, sbind at 1.
  destruct (retain_ok k d h r st I) as ([[]|m] & st' & E & I'); rewrite E.
  2: { eexists _, st'. split; [done|]. eapply inv_mono; [done|lia]. }
  destruct (retain_frame _ _ _ _ _ E) as (_ & Ho & _).
  set (e := mk_erased (if r then Some h else None) (if r then None else Some h) 1).
  assert (entry_refs e = [(side r, h)]) as Er by (by destruct r).
  destruct (fresh_unused _ _ _ CStream I') as (Hn & _ & _).
  set (st1 := set_streams (<[next st' := e]> (streams (set_next (next st' + 1) st'))) (set_next (next st' + 1) st')).
  assert (inv (k + 1) ((CStream, next st') :: d) st1) as I1.
  { eapply inv_register with (refs := entry_refs e) (st := st'); try done.
    - by rewrite Er.
    - intros y. rewrite occ_entry. unfold held. cbn -[entry_has]. rewrite count_add by (unfold names in Hn; cbn in Hn; by destruct (streams st' !! next st')).
      lia.
    - intros y. exact (names_stream st' (next st') e y).
    - eauto.
    - eauto. }
  rewrite (run_next k ((side r, h) :: d)), run_modify by done. fold st1. destruct a as [o|].
  - exists (Ok tt). eexists. split; [done|]. eapply inv_mono; [apply inv_object; [exact I1|]|lia]. cbn. rewrite Ho. by apply Hf.
  - destruct (release_names (k + 2) d h r (set_streams (delete (next st') (streams st1)) st1)) as ([] & st2 & E2 & I2).
    + apply inv_mono with (k := k + 1); [|lia]. change ((side r, h) :: d) with ([(side r, h)] ++ d). rewrite <- Er.
      eapply unregister_stream; [exact I1|apply lookup_insert_eq].
    + exists (Err "failed to allocate stream handle"), st2. split; [|done]. cbv beta iota delta [object sbind sret smodify]. by rewrite E2.
Qed.

(** ** Closing *)

Lemma close_stream_ok k d v r : kept (inv k d) (close_stream v r).
Proof.
  intros st I. unfold close_stream, sbind at 1, sget. destruct v as [| |o]; try by exists tt, st.
  destruct (objects st !! o) as [[c h]|] eqn:Eo; [|by exists tt, st].
  case_bool_decide as Ec; cbn [negb]; [|by exists tt, st]. destruct (h <=? 0); [by exists tt, st|].
  assert (exists st', (if r then match readers st !! h with
            | Some (e, _) => sput (set_readers (delete h (readers st)) st) ;* release_tee e | None => sret tt end
          else sput (set_writers (delete h (writers st)) st)) st = Some (tt, st') /\
          inv k d st' /\ names st' (c, h) = None /\ objects st' = objects st) as (st' & E & I' & Hn & Ho).
  { destruct r; subst c.
    - destruct (readers st !! h) as [[e n]|] eqn:Eh; [|exists st; split_and!; try done; unfold names; cbn; by rewrite Eh].
      destruct (release_tee_ok k d e (set_readers (delete h (readers st)) st)) as ([] & st' & Er & I'); [by eapply inv_unreader|].
      exists st'. split; [done|]. apply release_tee_frame in Er as (Er & _ & Eo'). split_and!; [done| |done].
      unfold names. cbn. rewrite Er. cbn. by rewrite lookup_delete_eq.
    - eexists. split; [done|]. split_and!; [by apply inv_unwriter| |done]. unfold names. cbn. by rewrite lookup_delete_eq. }
  rewrite (run_bind _ _ _ _ _ E). exists tt. eexists. split; [done|]. eapply inv_zero_object; [done|by rewrite Ho|done].
Qed.

Lemma stream_close_ok k d v : kept (inv k d) (mux_io_stream_close v).
Proof.
  intros st I. unfold mux_io_stream_close, sbind at 1, erased_stream_entry.
  destruct v as [| |o]; try by exists tt, st. destruct (objects st !! o) as [[[| | |] h]|] eqn:Eo; try by exists tt, st.
  case_bool_decide as Es; [|by exists tt, st]. destruct (close_erased_stream_ok k d h st I) as (st' & E & I' & Hn & Ho).
  unfold sbind. rewrite E. exists tt. eexists. split; [done|]. eapply inv_zero_object; [done|by rewrite Ho|done].
Qed.

(** ** Calls that keep the registries *)

(** What the operating system does is not in the invariant. *)
Definition os_free (P : state W -> Prop) : Prop := forall st w, P st -> P (set_os w st).

Lemma inv_os k d : os_free (inv k d).
Proof. intros st w [I1 I2 I3 I4 I5 I6 I7]. by split. Qed.

Lemma kept_os {A} P (f : W -> result A string * W) : os_free P -> kept P (os_call f).
Proof. intros HP st I. unfold os_call. destruct (f (os st)) as [r w]. eexists r, _. split; [done|by apply HP]. Qed.

Lemma kept_os_result {A} P c (f : W -> result A string * W) : os_free P -> kept P (os_result c f).
Proof. intros HP. apply keeps_bind; [by apply kept_os|]. intros r. apply hoare_ret. Qed.

Lemma kept_answer {A} P (a : A) : kept P (answer a).
Proof. apply hoare_ret. Qed.
Lemma kept_throw {A} P e : kept P (throw (A := A) e).
Proof. apply hoare_ret. Qed.
Lemma kept_sret {A} P (a : A) : kept P (sret a).
Proof. apply hoare_ret. Qed.

Lemma throw_ok {A} (P : state W -> Prop) e (Q : result A string -> state W -> Prop) :
  (forall st, P st -> Q (Err e) st) -> triple P (throw e) Q.
Proof. intros HQ st HP. exists (Err e), st. split; [done|by apply HQ]. Qed.

Create HintDb streams.
#[local] Hint Resolve kept_os kept_os_result kept_answer kept_throw kept_sret inv_os : streams.

(** Follow the binds and the branches. *)
Ltac keep := repeat first
  [ solve [eauto 3 with streams] | progress intros | apply keeps_ebind | apply keeps_bind | progress case_match
  | match goal with |- keeps _ (if ?b then _ else _) => destruct b end ].

(** The early returns. *)
Ltac skip_guards := repeat match goal with |- keeps _ (if ?b then throw _ else _) => destruct b; [apply kept_throw|] end.

Lemma backing_write_kept P e bytes : os_free P -> kept P (backing_write e bytes).
Proof. intros HP. unfold backing_write. keep. Qed.

Lemma flush_entry_kept P e : os_free P -> kept P (flush_entry e).
Proof. intros HP. unfold flush_entry. keep. Qed.

Lemma handle_kept P v c r : kept P (handle v c r).
Proof. intros st HP. eexists _, st. done. Qed.

(** ** Writing *)

Lemma inv_slot k d st s e : inv k d st -> inv k d (set_slots (<[s := e]> (slots st)) st).
Proof.
  intros [I1 I2 I3 I4 I5 I6 I7].
  assert (forall w, is_Some (slots st !! w) -> is_Some (<[s := e]> (slots st) !! w)) as Hs.
  { intros w Hw. destruct (decide (w = s)) as [->|Hne]; [by rewrite lookup_insert_eq|by rewrite lookup_insert_ne]. }
  split; cbn; eauto.
Qed.

Lemma put_slot_kept k d s e : kept (inv k d) (put_slot s e).
Proof. intros st I. exists tt. eexists. split; [done|by apply inv_slot]. Qed.

(** The buffer is grown before the slice of it is taken. *)
Lemma overwrite_safe position bytes data : exists data', overwrite position (position + zlen bytes) bytes data = Some data'.
Proof.
  unfold overwrite. set (data1 := if _ <? position then _ else _).
  assert (position + zlen bytes <= zlen (if zlen data1 <? position + zlen bytes then grow (position + zlen bytes) data1 else data1)) as Hle.
  { destruct (Z.ltb_spec (zlen data1) (position + zlen bytes)); [|done]. unfold grow, zlen in *. rewrite length_app, length_replicate. lia. }
  unfold copy_from_slice. pose proof (Zle_0_nat (length bytes)). unfold zlen in *.
  rewrite (proj2 (Z.leb_le _ _)), (proj2 (Z.leb_le _ _) Hle), (proj2 (Z.eqb_eq _ _)) by lia. eauto.
Qed.

Lemma captured_safe e bytes :
  exists data, (if capture e then overwrite (w_position e) (w_position e + zlen bytes) bytes (w_data e) else Some (w_data e)) = Some data.
Proof. destruct (capture e); [apply overwrite_safe|eauto]. Qed.

Lemma write_writer_slot_ok k d s bytes :
  triple (fun st => inv k d st /\ is_Some (slots st !! s)) (write_writer_slot s bytes) (fun _ => inv k d).
Proof.
  intros st [I [e He]]. unfold write_writer_slot, sbind at 1, sget. rewrite He.
  assert (kept (inv k d) (if MAX_STREAM_BYTES <? zlen bytes then throw "write exceeds the 16 MiB limit"
      else if usize_max <? w_position e + zlen bytes then throw "writer position exceeds the stream limit"
        else if capture e && (MAX_STREAM_BYTES <? w_position e + zlen bytes) then throw "writer buffer exceeds the 16 MiB limit"
        else let+ _ := backing_write e bytes in
          match (if capture e then overwrite (w_position e) (w_position e + zlen bytes) bytes (w_data e) else Some (w_data e)) with
          | None => spanic
          | Some data => put_slot s (mk_writer data (w_position e + zlen bytes)
              (capture e) (append_mode e) (w_file e) (w_stdio e) (w_socket e)) ;* answer tt
          end)) as Hk; [|by apply Hk].
  skip_guards.
  apply keeps_ebind; [apply backing_write_kept, inv_os|]. intros _.
  destruct (captured_safe e bytes) as [data ->].
  apply keeps_bind; [apply put_slot_kept|intros _; apply kept_answer].
Qed.

(** A registered writer has its slot. *)
Lemma writer_slot_ok k d h : triple (inv k d) (writer_slot h)
  (fun r st => inv k d st /\ forall s, r = Ok s -> is_Some (slots st !! s)).
Proof.
  intros st I. eexists _, st. split; [done|]. split; [done|]. intros s. destruct (writers st !! h) eqn:E; [|done].
  intros [= <-]. by eapply i_writer.
Qed.

Lemma write_writer_kept k d h bytes : kept (inv k d) (write_writer h bytes).
Proof.
  eapply hoare_ebind; [apply writer_slot_ok| |by intros e st []]. intros s.
  eapply hoare_conseq; [apply (write_writer_slot_ok k d)| |by intros]. intros st [I Hs]. eauto.
Qed.
#[local] Hint Resolve handle_kept write_writer_kept put_slot_kept flush_entry_kept : streams.

Lemma writer_write_kept k d v bytes : kept (inv k d) (mux_io_writer_write v bytes).
Proof. unfold mux_io_writer_write. keep. Qed.

Lemma writer_entry_kept k d v : kept (inv k d) (writer_entry v).
Proof.
  apply keeps_ebind; [apply handle_kept|]. intros h. eapply hoare_ebind; [apply writer_slot_ok| |by intros e st []].
  intros s st [I Hs]. destruct (Hs s eq_refl) as [e He]. rewrite He. eauto.
Qed.
#[local] Hint Resolve writer_write_kept writer_entry_kept : streams.

Lemma kept_get {A} P (f : state W -> IO W A) : (forall st, kept P (f st)) -> kept P (sbind sget f).
Proof. intros Hf. apply hoare_get. intros st HP st' ->. by apply Hf. Qed.

Lemma writer_seek_kept k d v p : kept (inv k d) (mux_io_writer_seek v p).
Proof.
  unfold mux_io_writer_seek. destruct (negb _); [apply kept_throw|]. apply keeps_ebind; [apply writer_entry_kept|].
  intros [s e]. skip_guards. apply keeps_ebind; [|keep].
  destruct (w_file e); [apply kept_get|]; keep.
Qed.

Lemma flush_writer_kept k d h : kept (inv k d) (flush_writer h).
Proof.
  eapply hoare_ebind; [apply writer_slot_ok| |by intros e st []]. intros s st [I Hs]. destruct (Hs s eq_refl) as [e He].
  unfold sbind, sget. rewrite He. by apply flush_entry_kept; [apply inv_os|].
Qed.

(** ** Reading *)

Definition at_reader (h : Z) (e : ReaderEntry) st : Prop := exists n, readers st !! h = Some (e, n).

Lemma reader_slot_ok k d h : triple (inv k d) (reader_slot h)
  (fun r st => inv k d st /\ forall e, r = Ok e -> at_reader h e st).
Proof.
  intros st I. eexists _, st. split; [done|]. split; [done|]. intros e. destruct (readers st !! h) as [[e' n]|] eqn:E; [|done].
  intros [= <-]. by exists n.
Qed.

Lemma reader_entry_ok k d v : triple (inv k d) (reader_entry v)
  (fun r st => inv k d st /\ forall h e, r = Ok (h, e) -> at_reader h e st).
Proof.
  eapply hoare_ebind; [apply handle_kept| |done]. intros h. eapply hoare_ebind; [apply reader_slot_ok| |by intros e st []].
  intros e st [I He]. eexists _, st. split; [done|]. split; [done|]. intros h' e' [= <- <-]. by apply He.
Qed.

Lemma put_reader_ok k d h e e' : tee_writer e' = tee_writer e -> reader_ok e' ->
  triple (fun st => inv k d st /\ at_reader h e st) (put_reader h e') (fun _ => inv k d).
Proof.
  intros Ht Hok st [I [n Hn]]. exists tt. eexists. split; [done|]. rewrite Hn. by eapply inv_reader_same.
Qed.

Definition at_inv k d h e st : Prop := inv k d st /\ at_reader h e st.
Lemma at_inv_os k d h e : os_free (at_inv k d h e).
Proof. intros st w [I Hr]. split; [by apply inv_os|done]. Qed.

Lemma slice_length data a b st bytes st' : slice (W := W) data a b st = Some (Ok bytes, st') -> st' = st /\ (zlen bytes <= b - a /\ b <= zlen data).
Proof.
  unfold slice. destruct (_ && _) eqn:E; [|done]. intros [= <- <-]. split; [done|]. unfold zlen in *.
  rewrite length_take, length_drop. lia.
Qed.

(** Reading moves the position by what was read, and keeps it in range. *)
Lemma advance_os e n : reader_ok e -> (r_stdio e <> None \/ r_file e <> None \/ r_socket e <> None) -> 0 <= n -> reader_ok (advance e n).
Proof.
  intros (Hp & Hl & Hm) Hb Hn. unfold reader_ok, advance. cbn. split_and!; [unfold usize_max in *; lia|unfold usize_max in *; lia| |].
  - intros r Hr. destruct (remaining_limit e); [|done]. injection Hr as <-. lia.
  - naive_solver.
Qed.

Lemma advance_memory e n : reader_ok e -> 0 <= n -> r_position e + n <= zlen (r_data e) -> reader_ok (advance e n).
Proof.
  intros (Hp & Hl & Hm) Hb Hn. unfold reader_ok, advance. cbn. split_and!; [unfold usize_max in *; lia|unfold usize_max in *; lia| |].
  - intros r Hr. destruct (remaining_limit e); [|done]. injection Hr as <-. lia.
  - lia.
Qed.

Lemma zlen_nonneg bs : 0 <= zlen bs.
Proof. unfold zlen. lia. Qed.

Lemma os_read_ok P (Q : result (list Z) string -> Prop) c f : os_free P -> (forall r, Q r) ->
  triple P (os_result c f) (fun r st => P st /\ Q r).
Proof.
  intros HP HQ. eapply hoare_conseq; [by apply (kept_os_result P)|done|]. intros a st HPs. split; [done|apply HQ].
Qed.

Lemma backing_read_ok k d h e size : reader_ok e -> 0 < size -> size <= MAX_STREAM_BYTES ->
  triple (at_inv k d h e) (backing_read e size)
    (fun r st => at_inv k d h e st /\ forall bytes, r = Ok bytes -> reader_ok (advance e (zlen bytes))).
Proof.
  intros He Hs Hm. unfold backing_read.
  destruct (r_stdio e) as [stream|] eqn:E1.
  { assert (forall bytes, reader_ok (advance e (zlen bytes))) as Hall by (intros; apply advance_os; [done|left; congruence|apply zlen_nonneg]).
    destruct stream; [apply os_read_ok; [apply at_inv_os|intros r bytes _; apply Hall]|by apply throw_ok..]. }
  destruct (r_socket e) as [fd|] eqn:E2.
  { apply os_read_ok; [apply at_inv_os|]. intros r bytes _. apply advance_os; [done|right; right; congruence|apply zlen_nonneg]. }
  destruct (r_file e) as [fd|] eqn:E3.
  { apply os_read_ok; [apply at_inv_os|]. intros r bytes _. apply advance_os; [done|right; left; congruence|apply zlen_nonneg]. }
  intros st I. destruct He as (Hp & Hl & Hd). specialize (Hd E1 E3 E2).
  set (stop := Z.min (Z.min usize_max (r_position e + size)) (zlen (r_data e))).
  destruct (slice (W := W) (r_data e) (r_position e) stop st) as [[r st']|] eqn:E.
  - exists r, st'. split; [done|]. destruct r as [bytes|m]; [|unfold slice in E; by destruct (_ && _)].
    apply slice_length in E as [-> [H1 H2]]. split; [done|]. intros ? [= <-]. apply advance_memory; [done|apply zlen_nonneg|].
    unfold stop in *. lia.
  - exfalso. unfold slice in E. destruct (_ && _) eqn:Eb; [done|]. unfold stop, MAX_STREAM_BYTES in *. lia.
Qed.

Lemma read_rest_ok k d h e size : reader_ok e -> 0 < size <= MAX_STREAM_BYTES ->
  triple (at_inv k d h e) (let+ bytes := backing_read e size in put_reader h (advance e (zlen bytes)) ;*
    let+ _ := match tee_writer e with Some s => if zlen bytes =? 0 then answer tt else write_writer_slot s bytes | None => answer tt end in
    answer bytes) (fun _ => inv k d).
Proof.
  intros Hok Hsize. eapply hoare_ebind; [apply backing_read_ok; [done|lia|lia]| |by intros m st' [[] _]]. intros bytes.
  eapply hoare_bind with (Q := fun _ st => inv k d st /\ forall s, tee_writer e = Some s -> is_Some (slots st !! s)).
  - intros st1 [[I1 Hr] Ha]. specialize (Ha bytes eq_refl).
    destruct (put_reader_ok k d h e (advance e (zlen bytes)) eq_refl Ha st1 (conj I1 Hr)) as (a & st2 & E & I2).
    exists a, st2. split; [done|]. split; [done|]. intros s Hs. destruct Hr as [m Hr].
    unfold put_reader, smodify in E. rewrite Hr in E. injection E as _ <-. exact (i_tee _ _ _ I1 _ _ _ _ Hr Hs).
  - intros []. eapply hoare_ebind with (Q := fun _ => inv k d); [|intros a; apply kept_answer|by intros ? ? ?].
    destruct (tee_writer e) as [s|]; [|by intros st1 [I1 _]; eexists (Ok tt), st1].
    destruct (zlen bytes =? 0); [by intros st1 [I1 _]; eexists (Ok tt), st1|].
    eapply hoare_conseq; [apply (write_writer_slot_ok k d)| |by intros]. intros st1 [I1 Hs]. eauto.
Qed.

Lemma read_up_to_kept k d h n : 0 <= n -> kept (inv k d) (reader_read_up_to h n).
Proof.
  intros Hn. eapply hoare_ebind; [apply reader_slot_ok| |by intros e st []]. intros e st [I He].
  specialize (He e eq_refl). assert (reader_ok e) as Hok by (destruct He as [m Hm]; by eapply i_reader).
  set (size := match remaining_limit e with None => _ | Some r => _ end).
  assert (0 <= size <= MAX_STREAM_BYTES) as Hsize.
  { unfold size. destruct Hok as (_ & Hl & _). destruct (remaining_limit e) as [r|]; [specialize (Hl r eq_refl)|]; unfold MAX_STREAM_BYTES; lia. }
  cbv zeta. case (Z.eqb_spec size 0) as [|Hz]; [by exists (Ok []), st|]. apply read_rest_ok with (k := k) (d := d); [done|lia|done].
Qed.
#[local] Hint Resolve read_up_to_kept : streams.

Lemma reader_read_kept k d v n : kept (inv k d) (mux_io_reader_read v n).
Proof.
  unfold mux_io_reader_read. apply keeps_ebind; [apply handle_kept|]. intros h. destruct (in_range _ _ n) eqn:E; [|apply kept_throw].
  apply read_up_to_kept. unfold in_range in E. lia.
Qed.
#[local] Hint Resolve reader_read_kept : streams.

(** Every round of the loop reads an octet, so that the limit ends it before the fuel does. *)
Lemma line_loop_ok k d h fuel line : MAX_STREAM_BYTES < zlen line + Z.of_nat fuel ->
  zlen line <= MAX_STREAM_BYTES -> triple (inv k d) (line_loop fuel h line) (fun r st => inv k d st /\ r <> Ok None).
Proof.
  revert line. induction fuel as [|fuel IH]; intros line Hf Hl; [lia|]. cbn [line_loop].
  eapply hoare_ebind; [apply read_up_to_kept; lia| |by intros e st I]. intros [|b bytes]; [by intros st I; exists (Ok (Some line)), st|].
  assert (zlen (line ++ [b]) = zlen line + 1) as El by (unfold zlen; rewrite length_app; cbn; lia).
  case (Z.ltb_spec MAX_STREAM_BYTES (zlen (line ++ [b]))) as [|Hle]; [by apply throw_ok|].
  destruct (b =? 10); [by intros st I; eexists (Ok (Some _)), st|]. apply IH; lia.
Qed.

Lemma read_line_kept k d fuel v : MAX_STREAM_BYTES < Z.of_nat fuel -> kept (inv k d) (read_line fuel v).
Proof.
  intros Hf. unfold read_line. apply keeps_ebind; [apply handle_kept|]. intros h.
  eapply hoare_ebind; [apply line_loop_ok; unfold zlen, MAX_STREAM_BYTES in *; cbn [length]; lia| |by intros e st []].
  intros [[|b line]|]; intros st [I Hn]; [by eexists _, st|case_match; by eexists _, st|done].
Qed.

Lemma reader_read_line_kept k d v : kept (inv k d) (mux_io_reader_read_line v).
Proof. apply read_line_kept. unfold MAX_STREAM_BYTES. lia. Qed.

Lemma to_end_loop_kept k d h limit fuel output : kept (inv k d) (to_end_loop fuel h limit output).
Proof.
  revert output. induction fuel as [|fuel IH]; intros output; cbn [to_end_loop]; [apply kept_answer|].
  case (Z.ltb_spec (zlen output) limit) as [Hl|]; [|apply kept_answer].
  apply keeps_ebind; [apply read_up_to_kept; lia|]. intros [|b bs]; [apply kept_answer|apply IH].
Qed.

Lemma copy_loop_kept k d r w limit fuel total : kept (inv k d) (copy_loop fuel r w limit total).
Proof.
  revert total. induction fuel as [|fuel IH]; intros total; cbn [copy_loop]; [apply kept_answer|].
  case (Z.ltb_spec total limit) as [Hl|]; [|apply kept_answer].
  apply keeps_ebind; [apply read_up_to_kept; lia|]. intros [|b bs]; [apply kept_answer|].
  apply keeps_ebind; [apply write_writer_kept|intros _; apply IH].
Qed.

Lemma exact_loop_kept k d v target fuel output : kept (inv k d) (exact_loop fuel v target output).
Proof.
  revert output. induction fuel as [|fuel IH]; intros output; cbn [exact_loop]; [apply kept_answer|].
  case (Z.ltb_spec (zlen output) target) as [Hl|]; [|apply kept_answer].
  apply keeps_ebind; [apply reader_read_kept|]. intros [|b bs]; [apply kept_throw|apply IH].
Qed.
#[local] Hint Resolve to_end_loop_kept copy_loop_kept exact_loop_kept : streams.

(** ** Positions, limits and tees *)

Lemma reader_entry_kept k d v : kept (inv k d) (reader_entry v).
Proof. eapply hoare_conseq; [apply reader_entry_ok|done|by intros ? ? []]. Qed.

Lemma reader_slot_kept k d h : kept (inv k d) (reader_slot h).
Proof. eapply hoare_conseq; [apply reader_slot_ok|done|by intros ? ? []]. Qed.
#[local] Hint Resolve reader_entry_kept reader_slot_kept : streams.

Lemma reader_limit_kept k d v limit : kept (inv k d) (mux_io_reader_limit v limit).
Proof.
  unfold mux_io_reader_limit. destruct (in_range _ _ limit) eqn:El; [|apply kept_throw].
  eapply hoare_ebind; [apply reader_entry_ok| |by intros e st []]. intros [h e] st [I He]. specialize (He h e eq_refl).
  assert (reader_ok e) as Hok by (destruct He as [m Hm]; by eapply i_reader).
  eapply (hoare_bind (at_inv k d h e)); [|intros ?; apply kept_answer|done].
  apply put_reader_ok; [done|]. destruct Hok as (Hp & Hl & Hm). split_and!; cbn; try done; try lia.
  intros r [= <-]. unfold in_range in El. lia.
Qed.

Lemma reader_seek_kept k d v p : p <= usize_max -> kept (inv k d) (mux_io_reader_seek v p).
Proof.
  intros Hp. unfold mux_io_reader_seek. apply keeps_ebind; [apply handle_kept|]. intros h.
  case (Z.ltb_spec p 0) as [|Hp0]; [apply kept_throw|].
  eapply hoare_ebind; [apply reader_slot_ok| |by intros e st []]. intros e st [I He]. specialize (He e eq_refl).
  assert (reader_ok e) as Hok by (destruct He as [m Hm]; by eapply i_reader).
  set (moved := mk_reader _ _ _ _ _ _ _).
  assert (reader_ok moved \/ (r_file e = None /\ zlen (r_data e) < p)) as Hmoved.
  { destruct (decide (r_file e = None /\ zlen (r_data e) < p)) as [|Hd]; [by right|left].
    destruct Hok as (Hq & Hl & Hm). split_and!; cbn; try done; try lia. intros ? Hf0 ?. assert (~ zlen (r_data e) < p) by tauto. lia. }
  destruct (bool_decide _); [by eexists _, st|]. destruct (bool_decide _); [by eexists _, st|].
  destruct (r_file e) as [fd|] eqn:Ef.
  - destruct Hmoved as [Hmoved|[]]; [|done]. unfold sbind at 1, sget. destruct (fd_len fd (os st)) as [stop|m]; [|by eexists _, st].
    destruct (stop <? p); [by eexists _, st|].
    eapply (hoare_ebind (at_inv k d h e)); [apply kept_os_result, at_inv_os| |by intros m st' []|done]. intros ?.
    eapply hoare_bind; [by apply (put_reader_ok k d h e)|intros ?; apply kept_answer].
  - case (Z.ltb_spec (zlen (r_data e)) p) as [|Hle]; [by eexists _, st|]. destruct Hmoved as [Hmoved|[]]; [|lia].
    eapply hoare_bind; [by apply (put_reader_ok k d h e)|intros ?; apply kept_answer|done].
Qed.

Lemma reader_tee_kept k d r w : kept (inv k d) (mux_io_reader_tee r w).
Proof.
  unfold mux_io_reader_tee. apply keeps_ebind; [apply handle_kept|]. intros rh. apply keeps_ebind; [apply handle_kept|]. intros wh.
  eapply hoare_ebind; [apply retain_writer_ok| |by intros]. intros [].
  eapply hoare_bind; [apply reader_slot_ok|]. intros [e|m].
  2: { eapply hoare_bind; [|intros ?; apply kept_throw]. eapply hoare_conseq; [apply (release_writer_ok k d)|by intros ? []|by intros]. }
  intros st [I He]. specialize (He e eq_refl). unfold writer_slot, sbind at 1. destruct (writers st !! wh) as [n|] eqn:Ew.
  2: { eapply (hoare_bind (inv k ((CWriter, wh) :: d))); [apply release_writer_ok|intros ?; apply kept_throw|done]. }
  eapply (hoare_bind (fun st' => st' = st)) with (Q := fun _ => inv k (tee_refs e ++ d)); [| |done].
  - intros ? ->. exists tt. eexists. split; [done|]. destruct He as [m Hm]. rewrite Hm.
    apply (inv_tee k d st rh e m (set_tee e (Some wh))); [done|done|exact (i_reader _ _ _ I _ _ _ Hm)|].
    intros s [= <-]. by eapply i_writer.
  - intros ?. eapply hoare_bind; [apply release_tee_ok|intros ?; apply kept_answer].
Qed.

Lemma reader_untee_kept k d r : kept (inv k d) (mux_io_reader_untee r).
Proof.
  unfold mux_io_reader_untee. eapply hoare_ebind; [apply reader_entry_ok| |by intros e st []]. intros [h e] st [I He]. specialize (He h e eq_refl).
  eapply (hoare_bind (fun st' => st' = st)) with (Q := fun _ => inv k (tee_refs e ++ d)); [| |done].
  - intros ? ->. exists tt. eexists. split; [done|]. destruct He as [m Hm]. rewrite Hm.
    by apply (inv_tee k d st h e m (set_tee e None)); [|done|exact (i_reader _ _ _ I _ _ _ Hm)|].
  - intros ?. eapply hoare_bind; [apply release_tee_ok|intros ?; apply kept_answer].
Qed.

Lemma reader_remaining_kept k d r : kept (inv k d) (mux_io_reader_remaining r).
Proof.
  unfold mux_io_reader_remaining. apply keeps_ebind; [apply reader_entry_kept|]. intros [h e].
  skip_guards. destruct (r_file e); [|apply kept_answer]. apply kept_get. keep.
Qed.

Lemma reader_position_kept k d r : kept (inv k d) (mux_io_reader_position r).
Proof. unfold mux_io_reader_position. keep. Qed.

Lemma reader_read_to_end_kept k d r limit : kept (inv k d) (mux_io_reader_read_to_end r limit).
Proof. unfold mux_io_reader_read_to_end. keep. Qed.

Lemma reader_copy_to_kept k d r w limit : kept (inv k d) (mux_io_reader_copy_to r w limit).
Proof. unfold mux_io_reader_copy_to. keep. Qed.

Lemma reader_read_exact_kept k d r n : kept (inv k d) (mux_io_reader_read_exact r n).
Proof. unfold mux_io_reader_read_exact. keep. Qed.

Lemma writer_write_all_kept k d w bytes : kept (inv k d) (mux_io_writer_write_all w bytes).
Proof. unfold mux_io_writer_write_all. keep. Qed.

Lemma writer_bytes_kept k d w : kept (inv k d) (mux_io_writer_bytes w).
Proof. unfold mux_io_writer_bytes. keep. Qed.

Lemma writer_position_kept k d w : kept (inv k d) (mux_io_writer_position w).
Proof. unfold mux_io_writer_position. keep. Qed.

Lemma writer_flush_kept k d w : kept (inv k d) (mux_io_writer_flush w).
Proof. unfold mux_io_writer_flush. keep. Qed.

(** ** Erased streams *)

Lemma with_capability_ok {A} k d r h a (f : arg -> IO W (result A string)) : (forall v, kept (inv (k + 1) d) (f v)) ->
  triple (fun st => inv k d st /\ fresh a st) (with_capability r h a f) (fun _ => inv (k + 1) d).
Proof.
  intros Hf st [I Ha]. unfold with_capability, ebind, sbind at 1.
  destruct (retain_ok k d h r st I) as ([[]|m] & st' & E & I'); rewrite E.
  2: { eexists _, st'. split; [done|]. eapply inv_mono; [done|lia]. }
  destruct (retain_frame _ _ _ _ _ E) as (_ & Ho & _). destruct a as [o|].
  - eapply (hoare_bind (fun st => inv k ((side r, h) :: d) st /\ fresh (Some o) st)) with (Q := fun _ => inv (k + 1) d).
    + intros st0 HI. exists true. eexists. split; [done|]. destruct HI as [I0 Hf0]. apply inv_object; [done|by apply Hf0].
    + intros _. apply keeps_bind; [apply Hf|]. intros output. apply keeps_bind; [apply drop_object_ok|intros _; apply kept_sret].
    + split; [done|]. intros o' [= <-]. rewrite Ho. by apply Ha.
  - eapply (hoare_bind (inv k ((side r, h) :: d))) with (Q := fun _ => inv k d); [apply release_names| |done].
    intros ?. eapply hoare_conseq; [apply (kept_throw (inv k d))|by intros|]. intros ? st0 I0. apply (inv_mono k); [exact I0|lia].
Qed.

Lemma erased_side_pure f e v st : exists r, erased_side (W := W) f e v st = Some (r, st).
Proof.
  unfold erased_side, ebind, sbind, erased_stream_entry. destruct v as [| |o]; try by eexists.
  destruct (objects st !! o) as [[[| | |] h]|]; try by eexists. case_bool_decide; by eexists.
Qed.

Lemma stream_op_ok {A} k d f e v a r (g : arg -> IO W (result A string)) : (forall v, kept (inv (k + 1) d) (g v)) ->
  triple (fun st => inv k d st /\ fresh a st) (let+ h := erased_side f e v in with_capability r h a g) (fun _ => inv (k + 1) d).
Proof.
  intros Hg st [I Ha]. unfold ebind, sbind. destruct (erased_side_pure f e v st) as [[h|m] ->].
  - by apply with_capability_ok.
  - eexists _, st. split; [done|]. eapply inv_mono; [done|lia].
Qed.

Lemma stream_seek_ok k d v p a : p <= usize_max ->
  triple (fun st => inv k d st /\ fresh a st) (mux_io_stream_seek v p a) (fun _ => inv (k + 1) d).
Proof.
  intros Hp st [I Ha]. assert (inv (k + 1) d st) as I1 by (eapply inv_mono; [done|lia]).
  unfold mux_io_stream_seek, ebind, sbind at 1, erased_stream_entry. destruct v as [| |o]; try by eexists _, st.
  destruct (objects st !! o) as [[[| | |] h]|]; try by eexists _, st. case_bool_decide; [|by eexists _, st].
  unfold sbind at 1, sget. destruct (streams st !! h ≫= e_reader) as [s|].
  - apply with_capability_ok; [|done]. intros v. by apply reader_seek_kept.
  - destruct (streams st !! h ≫= e_writer) as [s|]; [|by eexists _, st]. apply with_capability_ok; [|done]. intros v. apply writer_seek_kept.
Qed.
End Safe.
