(* ===== verification/StreamProps.v ===== *)
(** * What the streams promise

    Runs of stream operations: no operation panics in a state that a program can reach,
    and every registered slot has exactly the names that something holds. *)

From S2P Require Import Prelude AssocList Object Value Str Utf8 Lts Stream StreamInv StreamSafe.

(** A call.  [a] is the object an allocation answers, and [opened] what opening a file or
    cloning a socket answers. *)
Inductive op : Type :=
  | OReaderNew (a : option Z) | OStdin (a : option Z) | OReaderBytes (bytes : option value) (a : option Z)
  | OReaderFile (path : option value) (opened : result Z string) (a : option Z)
  | OReaderTcp (cloned : result Z string) (a : option Z)
  | OWriterNew (a : option Z) | OStdout (a : option Z) | OStderr (a : option Z)
  | OWriterFile (path : option value) (opened : result Z string) (a : option Z)
  | OWriterAppend (path : option value) (opened : result Z string) (a : option Z)
  | OWriterTcp (cloned : result Z string) (a : option Z)
  | OStreamReader (reader : arg) (a : option Z) | OStreamWriter (writer : arg) (a : option Z)
  | OCopy (o o' : Z) | ODrop (o : Z)
  | OReaderClose (reader : arg) | OWriterClose (writer : arg) | OStreamClose (stream : arg)
  | ORead (reader : arg) (size : Z) | OReadLine (reader : arg) | OLimit (reader : arg) (limit : Z)
  | OTee (reader writer : arg) | OUntee (reader : arg) | ORemaining (reader : arg)
  | OReadToEnd (reader : arg) (limit : Z) | OCopyTo (reader writer : arg) (limit : Z)
  | OReadExact (reader : arg) (size : Z) | OReaderPosition (reader : arg) | OReaderSeek (reader : arg) (position : Z)
  | OWrite (writer : arg) (bytes : option value) | OWriteAll (writer : arg) (bytes : option value)
  | OBytes (writer : arg) | OWriterPosition (writer : arg) | OWriterSeek (writer : arg) (position : Z) | OFlush (writer : arg)
  | OStreamRead (stream : arg) (size : Z) (a : option Z) | OStreamWrite (stream : arg) (bytes : option value) (a : option Z)
  | OStreamFlush (stream : arg) (a : option Z) | OStreamSeek (stream : arg) (position : Z) (a : option Z).

Section Runs.
Context {W : Type} `{Os W}.
Implicit Types st : state W.

Definition forget {A} (m : IO W A) : IO W unit := m ;* sret tt.

Definition run_op (o : op) : IO W unit :=
  match o with
  | OReaderNew a => forget (mux_io_reader_new a)
  | OStdin a => forget (mux_io_stdin a)
  | OReaderBytes bytes a => forget (mux_io_reader_from_bytes bytes a)
  | OReaderFile path opened a => forget (mux_io_reader_from_file path opened a)
  | OReaderTcp cloned a => forget (mux_io_reader_from_tcp cloned a)
  | OWriterNew a => forget (mux_io_writer_new a)
  | OStdout a => forget (mux_io_stdout a)
  | OStderr a => forget (mux_io_stderr a)
  | OWriterFile path opened a => forget (mux_io_writer_to_file path opened a)
  | OWriterAppend path opened a => forget (mux_io_writer_append_file path opened a)
  | OWriterTcp cloned a => forget (mux_io_writer_from_tcp cloned a)
  | OStreamReader r a => forget (mux_io_stream_from_reader r a)
  | OStreamWriter w a => forget (mux_io_stream_from_writer w a)
  | OCopy o o' => copy_object o o'
  | ODrop o => drop_object o
  | OReaderClose r => mux_io_reader_close r
  | OWriterClose w => mux_io_writer_close w
  | OStreamClose s => mux_io_stream_close s
  | ORead r n => forget (mux_io_reader_read r n)
  | OReadLine r => forget (mux_io_reader_read_line r)
  | OLimit r n => forget (mux_io_reader_limit r n)
  | OTee r w => forget (mux_io_reader_tee r w)
  | OUntee r => forget (mux_io_reader_untee r)
  | ORemaining r => forget (mux_io_reader_remaining r)
  | OReadToEnd r n => forget (mux_io_reader_read_to_end r n)
  | OCopyTo r w n => forget (mux_io_reader_copy_to r w n)
  | OReadExact r n => forget (mux_io_reader_read_exact r n)
  | OReaderPosition r => forget (mux_io_reader_position r)
  | OReaderSeek r p => forget (mux_io_reader_seek r p)
  | OWrite w b => forget (mux_io_writer_write w b)
  | OWriteAll w b => forget (mux_io_writer_write_all w b)
  | OBytes w => forget (mux_io_writer_bytes w)
  | OWriterPosition w => forget (mux_io_writer_position w)
  | OWriterSeek w p => forget (mux_io_writer_seek w p)
  | OFlush w => forget (mux_io_writer_flush w)
  | OStreamRead s n a => forget (mux_io_stream_read s n a)
  | OStreamWrite s b a => forget (mux_io_stream_write s b a)
  | OStreamFlush s a => forget (mux_io_stream_flush s a)
  | OStreamSeek s p a => forget (mux_io_stream_seek s p a)
  end.

(** The object a call allocates, and the position it is given. *)
Definition allocates (o : op) : option Z :=
  match o with
  | OReaderNew a | OStdin a | OReaderBytes _ a | OReaderFile _ _ a | OReaderTcp _ a | OWriterNew a | OStdout a | OStderr a
  | OWriterFile _ _ a | OWriterAppend _ _ a | OWriterTcp _ a | OStreamReader _ a | OStreamWriter _ a
  | OStreamRead _ _ a | OStreamWrite _ _ a | OStreamFlush _ a | OStreamSeek _ _ a => a
  | OCopy _ o => Some o
  | _ => None
  end.
Definition position_of (o : op) : Z :=
  match o with OReaderSeek _ p | OStreamSeek _ p _ => p | _ => 0 end.

(** An allocation answers a new object, and a position is an [i64]. *)
Definition possible (o : op) st : Prop := fresh (allocates o) st /\ position_of o <= i64_max.

Definition start (w : W) : state W := mk_state ∅ ∅ ∅ ∅ 1 ∅ w.

(** The states after [n] calls. *)
Inductive reach (w : W) : nat -> state W -> Prop :=
  | reach_start : reach w 0 (start w)
  | reach_step n st o st' : reach w n st -> possible o st -> run_op o st = Some (tt, st') -> reach w (Datatypes.S n) st'.

Lemma streams_start_inv w : inv 0 [] (start w).
Proof.
  split; cbn; try done; try lia.
  - intros [c h] n. unfold names. cbn. by destruct c.
Qed.

(** ** Every call keeps the invariant *)

Lemma forget_ok {A} P (m : IO W A) Q : hoare P m (fun _ => Q) -> hoare P (forget m) (fun _ => Q).
Proof. intros Hm. eapply hoare_bind; [exact Hm|]. intros a. apply hoare_ret. Qed.

Lemma or_failed_ok P (m : IO W bool) e Q : hoare P m (fun _ => Q) -> hoare P (or_failed m e) (fun _ => Q).
Proof. intros Hm. eapply hoare_bind; [exact Hm|]. intros []; apply hoare_ret. Qed.

Abbreviation start_of k o := (fun st => inv k [] st /\ possible o st).

Lemma kept_op {A} k o (m : IO W A) : keeps (inv k []) m -> hoare (start_of k o) m (fun _ => inv (k + 2) []).
Proof.
  intros Hm. eapply hoare_conseq; [exact Hm|by intros st []|]. intros a st I. apply (inv_mono k); [exact I|lia].
Qed.

Lemma alloc_op {A} k o (m : IO W A) j : j <= 2 ->
  hoare (fun st => inv k [] st /\ fresh (allocates o) st) m (fun _ => inv (k + j) []) -> hoare (start_of k o) m (fun _ => inv (k + 2) []).
Proof.
  intros Hj Hm. eapply hoare_conseq; [exact Hm|by intros st [I []]|]. intros a st I. apply (inv_mono (k + j)); [exact I|lia].
Qed.

Lemma throw_op {A} k o e : hoare (start_of k o) (throw (A := A) e) (fun _ => inv (k + 2) []).
Proof. apply kept_op, kept_throw. Qed.

Lemma new_ok data stdio file socket : reader_ok (new_entry_reader data stdio file socket).
Proof. unfold reader_ok, usize_max, new_entry_reader. cbn. split_and!; try done; try lia. intros _ _ _. apply zlen_nonneg. Qed.

Lemma new_reader_ok k o data stdio file socket a : k + 1 < i64_max -> allocates o = a ->
  hoare (start_of k o) (add_reader (new_entry_reader data stdio file socket) a) (fun _ => inv (k + 2) []).
Proof. intros Hk <-. eapply alloc_op; [reflexivity|]. by apply add_reader_ok; [apply new_ok| |]. Qed.

Lemma new_writer_ok k o e a : k + 1 < i64_max -> allocates o = a ->
  hoare (start_of k o) (add_writer e a) (fun _ => inv (k + 2) []).
Proof. intros Hk <-. eapply alloc_op; [reflexivity|]. by apply add_writer_ok. Qed.

Lemma reader_file_ok k o path opened a : k + 1 < i64_max -> allocates o = a ->
  hoare (start_of k o) (mux_io_reader_from_file path opened a) (fun _ => inv (k + 2) []).
Proof.
  intros Hk Ha. unfold mux_io_reader_from_file. destruct (stream_path path); [|apply throw_op].
  destruct opened; [|apply throw_op]. by apply or_failed_ok, new_reader_ok.
Qed.

Lemma writer_file_ok k o path opened a m e : k + 1 < i64_max -> allocates o = a -> (forall fd : Z, e fd = e fd) ->
  hoare (start_of k o) (match stream_path path with
    | Err e => throw e
    | Ok _ => match opened with
      | Err e => throw (m +:+ e)
      | Ok fd => or_failed (add_writer (e fd) a) "failed to allocate writer handle" end end) (fun _ => inv (k + 2) []).
Proof.
  intros Hk Ha _. destruct (stream_path path); [|apply throw_op]. destruct opened; [|apply throw_op]. by apply or_failed_ok, new_writer_ok.
Qed.

Lemma stream_from_ok k o v c b a : k + 1 < i64_max -> allocates o = a ->
  hoare (start_of k o) (let+ h := handle v c b in erased_from_handle h b a) (fun _ => inv (k + 2) []).
Proof.
  intros Hk <-. eapply alloc_op; [reflexivity|]. eapply hoare_ebind; [apply handle_kept| |].
  - intros h. by apply erased_from_handle_ok.
  - intros e st [I _]. apply (inv_mono k); [done|lia].
Qed.

Lemma step_ok k o : 0 <= k -> k + 1 < i64_max -> hoare (start_of k o) (run_op o) (fun _ => inv (k + 2) []).
Proof.
  intros Hk0 Hk. destruct o; cbn [run_op]; try apply forget_ok; unfold mux_io_reader_new, mux_io_stdin, reader_from_standard,
    mux_io_writer_new, mux_io_stdout, mux_io_stderr, writer_from_standard, mux_io_reader_close, mux_io_writer_close.
  all: try (by apply new_reader_ok).
  all: try (by apply new_writer_ok).
  all: try (by apply reader_file_ok).
  all: try (by apply (writer_file_ok k _ path opened a _ (fun fd => mk_writer _ _ _ _ (Some fd) _ _))).
  all: try (by apply stream_from_ok).
  all: try (apply kept_op; first [apply close_stream_ok|apply stream_close_ok|apply drop_object_ok|apply reader_read_kept
    |apply reader_read_line_kept|apply reader_limit_kept|apply reader_tee_kept|apply reader_untee_kept|apply reader_remaining_kept
    |apply reader_read_to_end_kept|apply reader_copy_to_kept|apply reader_read_exact_kept|apply reader_position_kept
    |apply writer_write_kept|apply writer_write_all_kept|apply writer_bytes_kept|apply writer_position_kept|apply writer_seek_kept|apply writer_flush_kept]).
  - destruct bytes as [[]|]; try (apply kept_op, kept_sret). by apply new_reader_ok.
  - destruct cloned; [|apply throw_op]. by apply or_failed_ok, new_reader_ok.
  - destruct cloned; [|apply throw_op]. by apply or_failed_ok, new_writer_ok.
  - eapply (alloc_op _ _ _ 1); [lia|]. apply copy_object_ok. cbn. lia.
  - intros st [I [_ Hp]]. apply (kept_op k (OReaderSeek reader position)); [|done]. apply reader_seek_kept. cbn in Hp. unfold i64_max, usize_max in *. lia.
  - eapply (alloc_op _ _ _ 1); [lia|]. apply stream_op_ok. intros v. apply reader_read_kept.
  - eapply (alloc_op _ _ _ 1); [lia|]. apply stream_op_ok. intros v. apply writer_write_kept.
  - eapply (alloc_op _ _ _ 1); [lia|]. apply stream_op_ok. intros v. apply writer_flush_kept.
  - intros st [I [Hf Hp]]. apply (alloc_op k (OStreamSeek stream position a) (mux_io_stream_seek stream position a) 1 ltac:(lia)); [|done].
    apply stream_seek_ok. cbn in Hp. unfold i64_max, usize_max in *. lia.
Qed.

Lemma reach_inv w n st : reach w n st -> 2 * Z.of_nat n < i64_max -> inv (2 * Z.of_nat n) [] st.
Proof.
  induction 1 as [|n st o st' Hr IH Ho E]; intros Hn; [apply streams_start_inv|].
  destruct (step_ok (2 * Z.of_nat n) o ltac:(lia) ltac:(lia) st) as (a & st2 & E2 & I); [split; [apply IH; lia|done]|].
  rewrite E2 in E. injection E as _ <-. eapply inv_mono; [done|lia].
Qed.

Lemma held_none st x : objects st = ∅ -> streams st = ∅ -> (x.1 = CWriter -> readers st = ∅) -> held st x = 0.
Proof.
  intros Ho Hs Hr. unfold held. rewrite Ho, Hs.
  assert (count (tee_has x) (readers st) = 0) as ->.
  { apply count_zero. intros h [e n] He. apply bool_decide_false. unfold tee_refs. cbn. destruct (tee_writer e) as [w|]; [|set_solver].
    intros Hx. apply list_elem_of_singleton in Hx. subst x. rewrite Hr in He by done. done. }
  assert (count (entry_has x) (∅ : gmap Z ErasedStreamEntry) = 0) as -> by (by apply count_zero).
  assert (count (same x) (∅ : gmap Z name) = 0) as -> by (by apply count_zero). done.
Qed.

(** A slot without a holder is not registered. *)
Lemma held_registered k st x : inv k [] st -> held st x = 0 -> names st x = None.
Proof.
  intros I Hh. destruct (names st x) as [n|] eqn:E; [|done]. apply (i_names _ _ _ I) in E as (_ & E & Hp).
  unfold occ in E. cbn in E. lia.
Qed.

Lemma no_objects k st : inv k [] st -> objects st = ∅ -> readers st = ∅ /\ writers st = ∅ /\ streams st = ∅.
Proof.
  intros I Ho.
  assert (streams st = ∅) as Hs.
  { apply map_empty. intros h. assert (held st (CStream, h) = 0) as Hz.
    { unfold held. rewrite Ho. assert (count (same (CStream, h)) (∅ : gmap Z name) = 0) as -> by (by apply count_zero).
      assert (count (entry_has (CStream, h)) (streams st) = 0) as ->.
      { apply count_zero. intros ? [r w ?] _. apply bool_decide_false. unfold entry_refs. cbn. destruct r, w; set_solver. }
      apply count_zero. intros ? [r ?] _. apply bool_decide_false. unfold tee_refs. cbn. destruct (tee_writer r); set_solver. }
    apply (held_registered _ _ _ I) in Hz. unfold names in Hz. cbn in Hz. by destruct (streams st !! h). }
  assert (readers st = ∅) as Hr.
  { apply map_empty. intros h. assert (held st (CReader, h) = 0) as Hz by (by apply held_none).
    apply (held_registered _ _ _ I) in Hz. unfold names in Hz. cbn in Hz. by destruct (readers st !! h). }
  split_and!; [done| |done]. apply map_empty. intros h.
  assert (held st (CWriter, h) = 0) as Hz by (by apply held_none). by apply (held_registered _ _ _ I) in Hz.
Qed.

(** C25: Safety of the streams.  After any sequence of calls of [stream.rs], whatever the
    operating system answers, the next call with any arguments does not panic: no slice
    of a buffer is read or overwritten out of bounds and no tee or capability names a slot
    that is gone.  (As long as the counters of handles, which take at most two numbers per
    call, have not reached the greatest [i64].) *)
Theorem stream_no_panic w n st o : reach w n st -> 2 * Z.of_nat n + 1 < i64_max -> possible o st ->
  exists st', run_op o st = Some (tt, st').
Proof.
  intros Hr Hn Ho. destruct (step_ok (2 * Z.of_nat n) o ltac:(lia) ltac:(lia) st) as ([] & st' & E & _); [|eauto].
  split; [|done]. eapply reach_inv; [done|lia].
Qed.

(** C26: The names of the streams are counted exactly.  After any sequence of calls, the
    number of names a registered slot has is the number of its holders (objects, erased
    streams and tees) and is positive; once the program has dropped its last stream
    object, nothing stays registered. *)
Theorem stream_names_counted w n st : reach w n st -> 2 * Z.of_nat n < i64_max ->
  (forall x m, names st x = Some m -> m = held st x /\ 0 < m) /\
  (objects st = ∅ -> readers st = ∅ /\ writers st = ∅ /\ streams st = ∅).
Proof.
  intros Hr Hn. pose proof (reach_inv w n st Hr Hn) as I. split; [|by eapply no_objects].
  intros x m E. apply (i_names _ _ _ I) in E as (_ & E & Hp). unfold occ in E. cbn in E. lia.
Qed.
End Runs.

(** ** A run *)

(** A system whose files are empty and whose writes succeed. *)
#[export] Instance quiet_os : Os unit := {
  stdin_read _ w := (Ok [], w);
  std_write _ _ w := (Ok tt, w);
  std_flush _ w := (Ok tt, w);
  fd_read _ _ w := (Ok [], w);
  fd_write_all _ _ w := (Ok tt, w);
  fd_flush _ w := (Ok tt, w);
  fd_len _ _ := Ok 0;
  fd_seek _ _ w := (Ok tt, w);
}.

Definition possible_b (o : op) (st : state unit) : bool :=
  match allocates o with Some x => bool_decide (objects st !! x = None) | None => true end && (position_of o <=? i64_max).

Fixpoint run_ops (os : list op) (st : state unit) : option (state unit) :=
  match os with
  | [] => Some st
  | o :: os => if possible_b o st then match run_op o st with Some (_, st) => run_ops os st | None => None end else None
  end.

Lemma possible_spec o st : possible_b o st = true -> possible o st.
Proof.
  unfold possible_b, possible, fresh. intros [H1 H2]%andb_prop. split; [|lia]. intros x E. rewrite E in H1. by apply bool_decide_eq_true in H1.
Qed.

Lemma run_ops_reach w n st os st' : reach w n st -> run_ops os st = Some st' -> reach w (length os + n) st'.
Proof.
  revert n st. induction os as [|o os IH]; intros n st Hr; cbn [run_ops]; [by intros [= <-]|].
  destruct (possible_b o st) eqn:Ep; [|done]. destruct (run_op o st) as [[[] st2]|] eqn:E; [|done]. intros Hos.
  replace (length (o :: os) + n)%nat with (length os + Datatypes.S n)%nat by (cbn; lia).
  eapply IH; [|exact Hos]. eapply reach_step; [exact Hr|by apply possible_spec|exact E].
Qed.

(** A reader of three octets, tee'd into a writer that is copied, closed and dropped. *)
Definition demo_ops : list op :=
  [OReaderBytes (Some (VBytes [1; 2; 3])) (Some 1); OWriterNew (Some 2); OTee (Obj 1) (Obj 2); OCopy 2 3; OWriterClose (Obj 2); ORead (Obj 1) 2].
Definition demo_end : state unit := match run_ops demo_ops (start tt) with Some st => st | None => start tt end.

Lemma demo_reach : reach tt 6 demo_end.
Proof. apply (run_ops_reach tt 0 (start tt) demo_ops); [apply reach_start|vm_compute; reflexivity]. Qed.

Lemma stream_no_panic_witness : exists st', run_op (ORead (Obj 1) 2) demo_end = Some (tt, st').
Proof.
  apply (stream_no_panic tt 6 demo_end (ORead (Obj 1) 2)); [apply demo_reach|vm_compute; reflexivity|].
  apply possible_spec. vm_compute. reflexivity.
Defined.

Lemma stream_names_counted_witness :
  names demo_end (CReader, 1) = Some 1 /\ held demo_end (CReader, 1) = 1 /\
  ((forall x m, names demo_end x = Some m -> m = held demo_end x /\ 0 < m) /\
   (objects demo_end = ∅ -> readers demo_end = ∅ /\ writers demo_end = ∅ /\ streams demo_end = ∅)).
Proof.
  split; [vm_compute; reflexivity|]. split; [vm_compute; reflexivity|].
  apply (stream_names_counted tt 6 demo_end); [apply demo_reach|vm_compute; reflexivity].
Defined.

(** * The octets that pass through a stream

    Readers and writers of memory, exactly: a copy moves the next octets of the reader to
    the end of the writer, and the lines that were put in a buffer come out one by one. *)

(** A reader of memory, without a tee. *)
Definition memory_reader (e : ReaderEntry) : Prop :=
  r_stdio e = None /\ r_file e = None /\ r_socket e = None /\ tee_writer e = None /\ zlen (r_data e) <= usize_max /\ reader_ok e.

(** What it can still give. *)
Definition available (e : ReaderEntry) : list Z :=
  let rest := drop (Z.to_nat (r_position e)) (r_data e) in
  match remaining_limit e with None => rest | Some limit => take (Z.to_nat limit) rest end.

(** A writer of memory that stands at the end of its buffer. *)
Definition memory_writer (e : WriterEntry) : Prop :=
  w_file e = None /\ w_stdio e = None /\ w_socket e = None /\ capture e = true /\ w_position e = zlen (w_data e).

Definition appended (e : WriterEntry) (bytes : list Z) : WriterEntry :=
  mk_writer (w_data e ++ bytes) (w_position e + zlen bytes) (capture e) (append_mode e) (w_file e) (w_stdio e) (w_socket e).

Section Data.
Context {W : Type} `{Os W}.
Implicit Types st : state W.

Lemma advance_zero e : reader_ok e -> advance e 0 = e.
Proof.
  intros ([] & Hl & _). destruct e as [data p l t s f k]. unfold advance. cbn in *. f_equal; [lia|].
  destruct l as [r|]; [|done]. cbn. specialize (Hl r eq_refl). f_equal. lia.
Qed.

Lemma memory_len e : memory_reader e -> zlen (available e) <= zlen (r_data e) - r_position e.
Proof.
  intros (E1 & E2 & E3 & _ & _ & Hp & _ & Hd). specialize (Hd E1 E2 E3). unfold available, zlen in *.
  destruct (remaining_limit e); rewrite ?length_take, length_drop; lia.
Qed.

(** Advancing by what was available leaves the rest. *)
Lemma advance_memory_reader e n : memory_reader e -> 0 <= n <= zlen (available e) -> memory_reader (advance e n) /\
  available (advance e n) = drop (Z.to_nat n) (available e).
Proof.
  intros He Hn. pose proof (memory_len e He). destruct He as (E1 & E2 & E3 & E4 & E5 & Hok). split.
  - split_and!; try done. apply advance_memory; [done|lia|lia].
  - destruct Hok as (Hp & Hl & Hd). specialize (Hd E1 E2 E3). unfold available, advance in *. cbn.
    replace (Z.to_nat (Z.min usize_max (r_position e + n))) with (Z.to_nat (r_position e) + Z.to_nat n)%nat by lia.
    rewrite <- drop_drop. destruct (remaining_limit e) as [r|]; [|done]. cbn. specialize (Hl r eq_refl).
    rewrite skipn_firstn_comm. f_equal. lia.
Qed.

Lemma advance_twice e a b : memory_reader e -> 0 <= a -> 0 <= b -> a + b <= zlen (available e) -> advance (advance e a) b = advance e (a + b).
Proof.
  intros He Ha Hb Hab. pose proof (memory_len e He) as Hm. destruct He as (E1 & E2 & E3 & E4 & E5 & Hok).
  unfold advance. cbn. f_equal; [lia|]. destruct (remaining_limit e) as [r|]; [|done]. cbn. f_equal. lia.
Qed.

(** A read gives the next octets that are available, at most as many as were asked for. *)
Lemma read_memory st h e n req : readers st !! h = Some (e, n) -> memory_reader e -> 0 <= req <= MAX_STREAM_BYTES ->
  let bytes := take (Z.to_nat req) (available e) in
  reader_read_up_to h req st = Some (Ok bytes, set_readers (<[h := (advance e (zlen bytes), n)]> (readers st)) st).
Proof.
  intros Hh He Hreq bytes. pose proof He as (E1 & E2 & E3 & E4 & E5 & Hok). pose proof Hok as (Hp & Hl & Hd). specialize (Hd E1 E2 E3).
  unfold reader_read_up_to, ebind at 1, sbind at 1, reader_slot. rewrite Hh. cbv zeta. rewrite Z.min_l by lia.
  set (size := match remaining_limit e with None => req | Some r => Z.min r req end).
  assert (bytes = take (Z.to_nat size) (drop (Z.to_nat (r_position e)) (r_data e))) as Eb.
  { unfold bytes, available, size. destruct (remaining_limit e) as [r|]; [|done]. rewrite take_take. specialize (Hl r eq_refl). f_equal. lia. }
  assert (0 <= size) as Hs by (unfold size; destruct (remaining_limit e) as [r|]; [specialize (Hl r eq_refl)|]; lia).
  case (Z.eqb_spec size 0) as [Hz|Hz].
  - rewrite Hz in Eb. cbn in Eb. rewrite Eb. cbn [length zlen]. unfold zlen. cbn [length]. rewrite advance_zero by done.
    rewrite insert_id by done. by destruct st.
  - unfold ebind at 1, sbind at 1, backing_read. rewrite E1, E2, E3. unfold slice.
    replace (_ && _) with true by (unfold MAX_STREAM_BYTES in *; lia).
    set (cut := take _ (drop _ (r_data e))).
    assert (cut = bytes) as ->.
    { unfold cut. rewrite Eb. set (rest := drop _ (r_data e)). assert (length rest = Z.to_nat (zlen (r_data e) - r_position e)) as Er.
      { unfold rest. rewrite length_drop. unfold zlen. lia. }
      destruct (decide (size <= zlen (r_data e) - r_position e)) as [Hle|Hgt]; [f_equal; lia|].
      rewrite !take_ge by lia. done. }
    unfold answer at 1, sret at 1, put_reader. rewrite run_modify, Hh, E4. done.
Qed.

(** ** Copying *)

Lemma overwrite_end bytes data : overwrite (zlen data) (zlen data + zlen bytes) bytes data = Some (data ++ bytes).
Proof.
  destruct (overwrite_safe (zlen data) bytes data) as [data' E]. rewrite E. revert E. unfold overwrite, copy_from_slice.
  rewrite Z.ltb_irrefl. case_match; [|done]. intros [= <-]. f_equal. unfold zlen.
  case (Z.ltb_spec (Z.of_nat (length data)) (Z.of_nat (length data) + Z.of_nat (length bytes))) as [Hlt|Hge].
  - unfold grow. rewrite take_app_le, take_ge by lia. rewrite drop_ge, app_nil_r; [done|].
    rewrite length_app, length_replicate. lia.
  - rewrite take_ge, drop_ge, app_nil_r by lia. done.
Qed.

Lemma write_memory st w e bytes n : writers st !! w = Some n -> slots st !! w = Some e -> memory_writer e ->
  zlen (w_data e) + zlen bytes <= MAX_STREAM_BYTES ->
  write_writer w bytes st = Some (Ok tt, set_slots (<[w := appended e bytes]> (slots st)) st).
Proof.
  intros Hw He (E1 & E2 & E3 & E4 & E5) Hm. pose proof (zlen_nonneg bytes). pose proof (zlen_nonneg (w_data e)).
  unfold write_writer, ebind at 1, sbind at 1, writer_slot. rewrite Hw.
  unfold write_writer_slot, sbind at 1, sget. rewrite He, E5, E4.
  destruct (Z.ltb_spec MAX_STREAM_BYTES (zlen bytes)); [lia|].
  destruct (Z.ltb_spec usize_max (zlen (w_data e) + zlen bytes)); [unfold usize_max, MAX_STREAM_BYTES in *; lia|].
  destruct (Z.ltb_spec MAX_STREAM_BYTES (zlen (w_data e) + zlen bytes)); [lia|]. cbn [andb].
  unfold backing_write. rewrite E1, E2, E3, overwrite_end. unfold appended. by rewrite E1, E2, E3, E4, E5.
Qed.

Lemma appended_memory e bytes : memory_writer e -> memory_writer (appended e bytes).
Proof. intros (E1 & E2 & E3 & E4 & E5). split_and!; try done. cbn. unfold zlen in *. rewrite length_app. lia. Qed.

Lemma appended_twice e a b : appended (appended e a) b = appended e (a ++ b).
Proof. unfold appended. cbn. rewrite app_assoc. unfold zlen. rewrite length_app. f_equal. lia. Qed.

(** The state after [bytes] went from a reader to a writer. *)
Definition moved (r : Z) (e : ReaderEntry) (n : Z) (w : Z) (we : WriterEntry) (bytes : list Z) st : state W :=
  set_slots (<[w := appended we bytes]> (slots st)) (set_readers (<[r := (advance e (zlen bytes), n)]> (readers st)) st).

Lemma moved_nil r e n w we st : readers st !! r = Some (e, n) -> reader_ok e -> slots st !! w = Some we -> moved r e n w we [] st = st.
Proof.
  intros Hr He Hw. unfold moved. change (zlen []) with 0. rewrite advance_zero by done. rewrite (insert_id (readers st)) by done.
  assert (appended we [] = we) as -> by (destruct we; unfold appended, zlen; cbn; rewrite app_nil_r; f_equal; lia).
  rewrite (insert_id (slots st)) by done. by destruct st.
Qed.

Lemma zlen_take k (bs : list Z) : 0 <= k -> zlen (take (Z.to_nat k) bs) = Z.min k (zlen bs).
Proof. intros Hk. unfold zlen. rewrite length_take. lia. Qed.

Lemma take_chunk a b (l : list Z) : 0 <= a <= b -> let chunk := take (Z.to_nat a) l in
  take (Z.to_nat b) l = chunk ++ take (Z.to_nat (b - zlen chunk)) (drop (Z.to_nat (zlen chunk)) l).
Proof.
  intros Hab chunk. unfold chunk. rewrite zlen_take by lia. unfold zlen. destruct (decide (a <= Z.of_nat (length l))) as [Hle|Hgt].
  - rewrite Z.min_l by lia. rewrite take_take_drop. f_equal. lia.
  - rewrite Z.min_r by lia. rewrite (drop_ge l), take_nil, app_nil_r by lia. rewrite !take_ge by lia. done.
Qed.

Lemma copy_stops (total : Z) r e n w we st bytes : readers st !! r = Some (e, n) -> memory_reader e -> slots st !! w = Some we ->
  bytes = [] -> Some (Ok total, st) = Some (Ok (E := string) (total + zlen bytes), moved r e n w we bytes st).
Proof.
  intros Hr (_ & _ & _ & _ & _ & Hok) Hw ->. rewrite moved_nil by done. unfold zlen. cbn. by rewrite Z.add_0_r.
Qed.

Lemma moved_twice r e n w we a b st : memory_reader e -> zlen a + zlen b <= zlen (available e) ->
  moved r (advance e (zlen a)) n w (appended we a) b (moved r e n w we a st) = moved r e n w we (a ++ b) st.
Proof.
  intros He Hab. unfold moved. cbn. rewrite !insert_insert_eq, appended_twice.
  rewrite advance_twice by (done || apply zlen_nonneg). unfold zlen. rewrite length_app, Nat2Z.inj_add. done.
Qed.

(** The chunks of 8192 octets add up. *)
Lemma copy_loop_memory fuel r w limit total st e n we m :
  readers st !! r = Some (e, n) -> memory_reader e -> writers st !! w = Some m -> slots st !! w = Some we -> memory_writer we ->
  0 <= total <= limit -> limit <= MAX_STREAM_BYTES -> limit - total <= Z.of_nat fuel ->
  let bytes := take (Z.to_nat (limit - total)) (available e) in
  zlen (w_data we) + zlen bytes <= MAX_STREAM_BYTES ->
  copy_loop fuel r w limit total st = Some (Ok (total + zlen bytes), moved r e n w we bytes st).
Proof.
  revert total st e we. induction fuel as [|fuel IH]; intros total st e we Hr He Hw Hs Hwe Ht Hl Hf bytes Hfit; cbn [copy_loop].
  { apply copy_stops; try done. unfold bytes. by replace (limit - total) with 0 by lia. }
  destruct (Z.ltb_spec total limit) as [Hlt|Hge].
  2: { apply copy_stops; try done. unfold bytes. by replace (limit - total) with 0 by lia. }
  unfold ebind at 1, sbind at 1. rewrite (read_memory st r e n) by (done || unfold MAX_STREAM_BYTES in *; lia).
  pose proof (take_chunk (Z.min (limit - total) 8192) (limit - total) (available e) ltac:(lia)) as Eb.
  set (chunk := take (Z.to_nat (Z.min (limit - total) 8192)) (available e)) in *. cbv zeta in Eb. fold bytes in Eb.
  assert (zlen chunk = Z.min (Z.min (limit - total) 8192) (zlen (available e))) as Hc by (unfold chunk; apply zlen_take; lia).
  destruct (advance_memory_reader e (zlen chunk) He) as [He' Ea]; [pose proof (zlen_nonneg chunk); lia|].
  destruct (decide (chunk = [])) as [E|Hne].
  - rewrite E. replace (set_readers _ st) with st.
    + apply copy_stops; try done. assert (available e = []) as Ev by (rewrite E in Hc; unfold zlen in Hc; cbn in Hc; apply length_zero_iff_nil; lia).
      unfold bytes. by rewrite Ev, take_nil.
    + change (zlen []) with 0. destruct He as (_ & _ & _ & _ & _ & Hok). rewrite advance_zero, insert_id by done. by destruct st.
  - assert (0 < zlen chunk) as Hpos by (destruct chunk; [done|unfold zlen; cbn; lia]).
    rewrite <- Ea in Eb. set (rest := take _ (available _)) in Eb. assert (zlen bytes = zlen chunk + zlen rest) as Elen by (rewrite Eb; unfold zlen; rewrite length_app; lia).
    pose proof (zlen_nonneg rest). set (st1 := set_readers _ st).
    replace (match chunk with [] => _ | _ => _ end) with (let+ _ := write_writer w chunk in copy_loop fuel r w limit (total + zlen chunk)) by (by destruct chunk).
    unfold ebind, sbind. rewrite (write_memory st1 w we chunk m) by (done || lia). change (set_slots _ st1) with (moved r e n w we chunk st).
    rewrite (IH _ (moved r e n w we chunk st) (advance e (zlen chunk)) (appended we chunk)); try done; try lia.
    + replace (limit - (total + zlen chunk)) with (limit - total - zlen chunk) by lia. fold rest. rewrite moved_twice; [|done|].
      * by rewrite <- Eb, Elen, Z.add_assoc.
      * rewrite <- Elen. unfold bytes. rewrite zlen_take by lia. lia.
    + cbn. by rewrite lookup_insert_eq.
    + cbn. by rewrite lookup_insert_eq.
    + by apply appended_memory.
    + replace (limit - (total + zlen chunk)) with (limit - total - zlen chunk) by lia. fold rest. cbn. unfold zlen in *. rewrite length_app. lia.
Qed.

Lemma handle_ok st o c h b : objects st !! o = Some (c, h) -> registered b h st = true -> handle (Obj o) c b st = Some (Ok h, st).
Proof. intros Ho Hr. unfold handle. by rewrite Ho, bool_decide_true, Hr. Qed.

Lemma reader_handle st o h e n : objects st !! o = Some (CReader, h) -> readers st !! h = Some (e, n) ->
  handle (Obj o) CReader true st = Some (Ok h, st).
Proof. intros Ho Hh. apply handle_ok; [done|]. unfold registered. rewrite bool_decide_true; [done|eauto]. Qed.

Lemma writer_handle st o h n : objects st !! o = Some (CWriter, h) -> writers st !! h = Some n ->
  handle (Obj o) CWriter false st = Some (Ok h, st).
Proof. intros Ho Hh. apply handle_ok; [done|]. unfold registered. rewrite bool_decide_true; [done|eauto]. Qed.

(** [copy_to] moves exactly the next octets.  With a reader of memory and a writer of
    memory that stands at its end, copying at most [limit] octets answers how many of the
    available octets were moved, puts those octets (in order, and no others) behind what
    the writer has, and moves the reader past them. *)
Lemma stream_copy_exact st ro wo r w e n we m limit :
  objects st !! ro = Some (CReader, r) -> readers st !! r = Some (e, n) -> memory_reader e ->
  objects st !! wo = Some (CWriter, w) -> writers st !! w = Some m -> slots st !! w = Some we -> memory_writer we ->
  0 <= limit <= MAX_STREAM_BYTES ->
  let bytes := take (Z.to_nat limit) (available e) in
  zlen (w_data we) + zlen bytes <= MAX_STREAM_BYTES ->
  mux_io_reader_copy_to (Obj ro) (Obj wo) limit st = Some (Ok (zlen bytes), moved r e n w we bytes st) /\
  available (advance e (zlen bytes)) = drop (Z.to_nat limit) (available e).
Proof.
  intros Hro Hr He Hwo Hw Hs Hwe Hl bytes Hfit. split.
  - unfold mux_io_reader_copy_to. replace (in_range 0 MAX_STREAM_BYTES limit) with true by (unfold in_range; lia). cbn [negb].
    unfold ebind, sbind. rewrite (reader_handle st ro r e n), (writer_handle st wo w m) by done.
    rewrite (copy_loop_memory _ r w limit 0 st e n we m) by (done || rewrite ?Z.sub_0_r; lia || done). by rewrite Z.sub_0_r.
  - destruct (advance_memory_reader e (zlen bytes) He) as [_ ->].
    + unfold bytes. rewrite zlen_take by lia. pose proof (zlen_nonneg (available e)). lia.
    + unfold bytes. rewrite zlen_take by lia. unfold zlen. destruct (decide (limit <= Z.of_nat (length (available e)))) as [|Hgt].
      * f_equal. lia.
      * rewrite !drop_ge by lia. done.
Qed.

(** ** Lines *)

Lemma read_one st h e n : readers st !! h = Some (e, n) -> memory_reader e ->
  reader_read_up_to h 1 st = match available e with
    | [] => Some (Ok [], st)
    | b :: _ => Some (Ok [b], set_readers (<[h := (advance e 1, n)]> (readers st)) st) end.
Proof.
  intros Hh He. rewrite (read_memory st h e n) by (done || unfold MAX_STREAM_BYTES; lia). change (Z.to_nat 1) with 1%nat.
  destruct (available e) as [|b l]; [|done]. cbn [take]. change (zlen []) with 0.
  destruct He as (_ & _ & _ & _ & _ & Hok). rewrite advance_zero, insert_id by done. by destruct st.
Qed.

(** The loop reads up to and with the next LF, or to the end. *)
Lemma line_loop_memory fuel h line l eol rest st e n :
  readers st !! h = Some (e, n) -> memory_reader e -> available e = l ++ eol ++ rest ->
  (eol = [10] \/ (eol = [] /\ rest = [])) -> Forall (fun b => b <> 10) l ->
  zlen line + zlen l + 1 <= MAX_STREAM_BYTES -> (length l + 1 <= fuel)%nat ->
  line_loop fuel h line st = Some (Ok (Some (line ++ l ++ eol)), set_readers (<[h := (advance e (zlen (l ++ eol)), n)]> (readers st)) st).
Proof.
  revert line l st e. induction fuel as [|fuel IH]; intros line l st e Hh He Hav Heol Hl Hmax Hf; [lia|].
  cbn [line_loop]. unfold ebind at 1, sbind at 1. rewrite (read_one st h e n) by done. rewrite Hav.
  assert (forall b, zlen (line ++ [b]) = zlen line + 1) as El by (intros b; unfold zlen; rewrite length_app; cbn; lia).
  destruct l as [|b l].
  - destruct Heol as [->|[-> ->]]; cbn [app].
    + rewrite El. destruct (Z.ltb_spec MAX_STREAM_BYTES (zlen line + 1)); [unfold zlen in *; cbn in *; lia|]. done.
    + change (zlen []) with 0. destruct He as (_ & _ & _ & _ & _ & Hok). rewrite advance_zero, insert_id, app_nil_r by done. by destruct st.
  - inversion Hl as [|? ? Hb Hl']; subst. cbn [app]. rewrite El.
    assert (zlen (b :: l) = zlen l + 1) as Ebl by (unfold zlen; cbn; lia).
    destruct (Z.ltb_spec MAX_STREAM_BYTES (zlen line + 1)); [pose proof (zlen_nonneg l); lia|].
    destruct (Z.eqb_spec b 10); [done|].
    destruct (advance_memory_reader e 1 He) as [He' Ea]; [rewrite Hav; unfold zlen; cbn; lia|].
    rewrite (IH (line ++ [b]) l _ (advance e 1)); try done.
    + rewrite <- app_assoc. cbn. rewrite insert_insert_eq.
      assert (zlen (b :: l ++ eol) = 1 + zlen (l ++ eol)) as -> by (unfold zlen; cbn; lia).
      rewrite advance_twice; [done|done|lia|apply zlen_nonneg|]. rewrite Hav. unfold zlen. cbn. rewrite !length_app. lia.
    + cbn. by rewrite lookup_insert_eq.
    + rewrite Ea, Hav. done.
    + rewrite El. lia.
    + cbn in Hf. lia.
Qed.

(** A line as it is stored, with LF or CRLF behind it. *)
Definition line_bytes (x : list Z * bool) : list Z := x.1 ++ (if x.2 then [13; 10] else [10]).
Definition line_ok (x : list Z * bool) : Prop :=
  Forall (fun b => b <> 10) x.1 /\ is_utf8 x.1 = true /\ zlen x.1 + 2 <= MAX_STREAM_BYTES /\ (x.2 = false -> last x.1 <> Some 13).

Lemma chomp_line x : line_ok x -> chomp (line_bytes x) = x.1.
Proof.
  destruct x as [l crlf]. intros (_ & _ & _ & Hl). unfold line_bytes, chomp. cbn [fst snd] in *. destruct crlf; rewrite rev_app_distr; cbn [rev app].
  - apply rev_involutive.
  - specialize (Hl eq_refl). rewrite <- (rev_involutive l) in Hl. destruct (rev l) as [|b r] eqn:Er.
    + rewrite <- (rev_involutive l), Er. done.
    + cbn [rev] in Hl. rewrite last_snoc in Hl. rewrite <- (rev_involutive l), Er.
      destruct (decide (b = 13)) as [->|Hb]; [done|]. destruct b as [|p|p]; try done. do 4 (destruct p as [p|p|]; try done).
Qed.

Lemma chomp_plain l : Forall (fun b => b <> 10) l -> chomp l = l.
Proof.
  intros Hl. unfold chomp. destruct (rev l) as [|b r] eqn:Er; [done|].
  assert (b <> 10) as Hb.
  { rewrite Forall_forall in Hl. apply Hl. rewrite <- (rev_involutive l), Er. cbn. apply elem_of_app. right. by left. }
  destruct b as [|p|p]; try done. do 4 (destruct p as [p|p|]; try done).
Qed.

(** One call of [read_line] on a stored line. *)
Lemma read_line_memory fuel st o h e n x rest : MAX_STREAM_BYTES < Z.of_nat fuel ->
  objects st !! o = Some (CReader, h) -> readers st !! h = Some (e, n) -> memory_reader e ->
  available e = line_bytes x ++ rest -> line_ok x ->
  read_line fuel (Obj o) st = Some (Ok (Some x.1), set_readers (<[h := (advance e (zlen (line_bytes x)), n)]> (readers st)) st).
Proof.
  intros Hf Ho Hh He Hav Hx. pose proof Hx as (H1 & H2 & H3 & _). unfold read_line, ebind at 1, sbind at 1. rewrite (reader_handle st o h e n) by done.
  set (l := x.1 ++ (if x.2 then [13] else [])).
  assert (line_bytes x = l ++ [10]) as El by (unfold line_bytes, l; rewrite <- app_assoc; by destruct x.2).
  assert (zlen l <= zlen x.1 + 1) as Hl by (unfold l, zlen; rewrite length_app; destruct x.2; cbn; lia).
  unfold ebind at 1, sbind at 1. rewrite (line_loop_memory fuel h [] l [10] rest st e n); try done.
  - cbn [app]. rewrite <- El. destruct (line_bytes x) as [|b bs] eqn:Eb; [by destruct l|]. rewrite <- Eb, chomp_line, H2 by done. done.
  - rewrite Hav, El, app_assoc. done.
  - by left.
  - unfold l. apply Forall_app. split; [done|]. destruct x.2; repeat constructor. lia.
  - change (zlen []) with 0. lia.
  - unfold zlen in *. lia.
Qed.

(** The last line, without a line end. *)
Lemma read_tail_memory fuel st o h e n : MAX_STREAM_BYTES < Z.of_nat fuel ->
  objects st !! o = Some (CReader, h) -> readers st !! h = Some (e, n) -> memory_reader e ->
  let l := available e in Forall (fun b => b <> 10) l -> is_utf8 l = true -> zlen l + 2 <= MAX_STREAM_BYTES ->
  read_line fuel (Obj o) st = Some (Ok (if bool_decide (l = []) then None else Some l), set_readers (<[h := (advance e (zlen l), n)]> (readers st)) st).
Proof.
  intros Hf Ho Hh He l Hl Hu Hm. unfold read_line, ebind at 1, sbind at 1. rewrite (reader_handle st o h e n) by done.
  unfold ebind at 1, sbind at 1. rewrite (line_loop_memory fuel h [] l [] [] st e n); try done.
  - rewrite app_nil_r. cbn [app]. destruct l as [|b bs] eqn:Eb; [done|]. rewrite <- Eb in *. rewrite chomp_plain, Hu by done.
    rewrite bool_decide_false by (rewrite Eb; done). done.
  - by rewrite app_nil_r.
  - by right.
  - change (zlen []) with 0. lia.
  - unfold zlen in *. lia.
Qed.

(** [k] calls of [read_line]. *)
Fixpoint read_lines (k : nat) (v : arg) : IO W (result (list (option (list Z))) string) :=
  match k with
  | O => answer []
  | Datatypes.S k => let+ l := mux_io_reader_read_line v in let+ ls := read_lines k v in answer (l :: ls)
  end.

(** Lines come back one by one.  Put lines in a buffer, each with LF or CRLF behind it,
    then a last piece without a line end: successive calls of [read_line] on a reader of
    the buffer answer exactly those lines, in order and without their line ends, then the
    last piece if it is not empty, then the end. *)
Lemma stream_lines_roundtrip ls tail st o h e n :
  objects st !! o = Some (CReader, h) -> readers st !! h = Some (e, n) -> memory_reader e ->
  available e = concat (line_bytes <$> ls) ++ tail -> Forall line_ok ls ->
  Forall (fun b => b <> 10) tail -> is_utf8 tail = true -> zlen tail + 2 <= MAX_STREAM_BYTES ->
  exists st', read_lines (length ls + 2) (Obj o) st =
    Some (Ok ((Some ∘ fst <$> ls) ++ (if bool_decide (tail = []) then [None] else [Some tail]) ++ [None]), st').
Proof.
  assert (MAX_STREAM_BYTES < Z.of_nat (Z.to_nat MAX_STREAM_BYTES + 2)) as Hf by (unfold MAX_STREAM_BYTES; lia).
  revert st e. induction ls as [|x ls IH]; intros st e Ho Hh He Hav Hls Ht Hu Hm; cbn [length Nat.add read_lines fmap list_fmap concat] in *;
    unfold mux_io_reader_read_line; set (fuel := (Z.to_nat MAX_STREAM_BYTES + 2)%nat) in *; clearbody fuel.
  - unfold ebind, sbind. cbn [app] in Hav. pose proof (read_tail_memory fuel st o h e n Hf Ho Hh He) as E1. cbv zeta in E1. rewrite Hav in E1.
    rewrite E1 by done. set (st1 := set_readers _ st).
    destruct (advance_memory_reader e (zlen tail) He) as [He' Ea]; [rewrite Hav; pose proof (zlen_nonneg tail); lia|].
    assert (available (advance e (zlen tail)) = []) as Ea' by (rewrite Ea, Hav; apply drop_ge; unfold zlen; lia).
    pose proof (read_tail_memory fuel st1 o h (advance e (zlen tail)) n Hf Ho) as E2. cbv zeta in E2. rewrite Ea' in E2.
    rewrite E2; [|apply lookup_insert_eq|done|done|done|unfold zlen, MAX_STREAM_BYTES; cbn; lia].
    eexists. destruct (bool_decide (tail = [])); reflexivity.
  - inversion Hls as [|? ? Hx Hls']; subst. rewrite <- app_assoc in Hav. unfold ebind, sbind.
    rewrite (read_line_memory fuel st o h e n x (concat (line_bytes <$> ls) ++ tail)) by done.
    destruct (advance_memory_reader e (zlen (line_bytes x)) He) as [He' Ea].
    { rewrite Hav. unfold zlen. rewrite length_app. lia. }
    destruct (IH (set_readers (<[h := (advance e (zlen (line_bytes x)), n)]> (readers st)) st) (advance e (zlen (line_bytes x)))) as [st' E]; try done.
    + apply lookup_insert_eq.
    + rewrite Ea, Hav. unfold zlen. rewrite Nat2Z.id. apply drop_app_length.
    + rewrite E. by eexists.
Qed.
End Data.

(** ** Instances *)

Definition demo_state (data : list Z) : state unit :=
  match run_ops [OReaderBytes (Some (VBytes data)) (Some 1); OWriterNew (Some 2)] (start tt) with Some st => st | None => start tt end.
Definition demo_reader (data : list Z) : ReaderEntry := new_entry_reader data None None None.

Lemma demo_memory data : zlen data <= 100 -> memory_reader (demo_reader data).
Proof. intros Hd. split_and!; try done; [cbn; unfold usize_max; lia|apply new_ok]. Qed.
