(* ===== verification/Log.v ===== *)
(** * Logging ([src/src/log.rs])

    A logger is an entry of the table [LOGGERS], counted by the objects that name it and by
    [DEFAULT_LOGGER], which holds a name of its own.  A logger may hold a name of a stream
    writer ([Stream]); without one it writes to the standard error.  Calls are sequential.
    [None] is a panic of the stream; an error is its category and its message. *)

From S2P Require Import Prelude AssocList Str SyncProps StdErrors Utf8 DynValue Stream StreamSafe StreamProps.

Import HandleLemmas.

Module Log.

Inductive LogLevel : Type := Trace | Debug | Info | Warn | Error.

(** The derived order. *)
Definition level_rank (l : LogLevel) : Z :=
  match l with Trace => 0 | Debug => 1 | Info => 2 | Warn => 3 | Error => 4 end.

Definition parse (value : text) : result LogLevel string :=
  let value := to_ascii_lowercase <$> value in
  if decide (value = txt "trace") then Ok Trace
  else if decide (value = txt "debug") then Ok Debug
  else if decide (value = txt "info") then Ok Info
  else if decide (value = txt "warn" \/ value = txt "warning") then Ok Warn
  else if decide (value = txt "error") then Ok Error
  else Err "log level must be trace, debug, info, warn, or error".

Definition label (l : LogLevel) : string :=
  match l with Trace => "TRACE" | Debug => "DEBUG" | Info => "INFO" | Warn => "WARN" | Error => "ERROR" end.

Record LoggerEntry : Type := mk_logger {
  level : LogLevel;
  name : text;
  fields : list (text * text);
  writer : option Z;
  refs : Z;
}.

Definition set_refs (n : Z) (e : LoggerEntry) : LoggerEntry := mk_logger (level e) (name e) (fields e) (writer e) n.

(** [LOGGERS], [NEXT_HANDLE], [DEFAULT_LOGGER] and the streams. *)
Record log_state (W : Type) : Type := mk_log {
  loggers : gmap Z LoggerEntry;
  next_logger : Z;
  default_logger : Z;
  output : state W;
}.
Arguments mk_log {W}. Arguments loggers {W}. Arguments next_logger {W}. Arguments default_logger {W}. Arguments output {W}.

(** What a pointer argument leads to: nothing, a string, a logger with its handle, another value. *)
Inductive log_arg : Type := NullArg | StringArg (s : text) | LoggerArg (handle : Z) | OtherArg.

Definition failure : Type := StdErrorKind * string.

Definition LIO (W A : Type) : Type := log_state W -> option (A * log_state W).
Definition lret {W A} (a : A) : LIO W A := fun st => Some (a, st).
Definition lbind {W A B} (m : LIO W A) (f : A -> LIO W B) : LIO W B :=
  fun st => match m st with Some (a, st) => f a st | None => None end.
Definition lmodify {W} (f : log_state W -> log_state W) : LIO W unit := fun st => Some (tt, f st).
(** [?]: an error ends the closure. *)
Definition ltry {W A B} (m : LIO W (result A string)) (f : A -> LIO W (result B string)) : LIO W (result B string) :=
  lbind m (fun r => match r with Ok a => f a | Err e => lret (Err e) end).
(** A call of the stream module. *)
Definition on_streams {W A} (m : IO W A) : LIO W A :=
  fun st => match m (output st) with
            | Some (a, s) => Some (a, mk_log (loggers st) (next_logger st) (default_logger st) s)
            | None => None
            end.

Notation "'do*' x := e 'in' k" := (lbind e (fun x => k)) (at level 10, x pattern, e at level 100, k at level 200) : mux_scope.
Notation "'do+' x := e 'in' k" := (ltry e (fun x => k)) (at level 10, x pattern, e at level 100, k at level 200) : mux_scope.

Definition set_loggers {W} (m : gmap Z LoggerEntry) (st : log_state W) : log_state W :=
  mk_log m (next_logger st) (default_logger st) (output st).
Definition set_default_logger {W} (h : Z) (st : log_state W) : log_state W :=
  mk_log (loggers st) (next_logger st) h (output st).

Section Loggers.
Context {W : Type} `{Os W}.

(** ** Handles *)

Definition next_handle : LIO W Z :=
  fun st => let h := next_logger st in
            Some (h, mk_log (loggers st) (if h =? i64_max then 1 else h + 1) (default_logger st) (output st)).

(** [logger_value]: an object that stores the handle, when the allocation succeeds. *)
Definition logger_value (h : Z) (allocated : bool) : option Z := if allocated then Some h else None.

Definition create_logger (allocated : bool) : LIO W (option Z) :=
  do* h := next_handle in
  do* _ := lmodify (fun st => set_loggers (<[h := mk_logger Info [] [] None 1]> (loggers st)) st) in
  match logger_value h allocated with
  | Some h => lret (Some h)
  | None => do* _ := lmodify (fun st => set_loggers (delete h (loggers st)) st) in lret None
  end.

Definition handle (v : log_arg) : LIO W (result Z string) :=
  fun st => Some (
    match v with
    | NullArg => Err "Logger value is null"
    | LoggerArg h =>
        if (h <=? 0) || negb (bool_decide (is_Some (loggers st !! h))) then Err "invalid Logger handle" else Ok h
    | _ => Err "value is not a Logger"
    end, st).

Definition value_string (v : log_arg) (what : string) : result text string :=
  match v with StringArg s => Ok s | _ => Err (what +:+ " must be a string") end.

Definition c_string (v : option string) (what : string) : result text string :=
  match v with
  | None => Err (what +:+ " must be a string")
  | Some s => Ok (match utf8_decode (txt (to_string_lossy s)) with Some t => t | None => [] end)
  end.

Definition release_logger (h : Z) : LIO W unit :=
  fun st =>
    match loggers st !! h with
    | None => Some (tt, st)
    | Some e =>
        let n := Z.max 0 (refs e - 1) in
        if n =? 0 then
          let st := set_loggers (delete h (loggers st)) st in
          let st := if default_logger st =? h then set_default_logger 0 st else st in
          match writer e with Some w => on_streams (release_writer w) st | None => Some (tt, st) end
        else Some (tt, set_loggers (<[h := set_refs n e]> (loggers st)) st)
    end.

Definition retain_logger (h : Z) : LIO W (result unit string) :=
  fun st =>
    match loggers st !! h with
    | None => Some (Err "invalid Logger handle", st)
    | Some e =>
        if refs e =? usize_max then Some (Err "Logger reference count overflow", st)
        else Some (Ok tt, set_loggers (<[h := set_refs (refs e + 1) e]> (loggers st)) st)
    end.

(** The handle the copy stores.  The addition wraps like the release build's. *)
Definition copy_logger_handle (h : Z) : LIO W Z :=
  fun st =>
    match loggers st !! h with
    | Some e => Some (h, set_loggers (<[h := set_refs ((refs e + 1) mod 2 ^ 64) e]> (loggers st)) st)
    | None => Some (0, st)
    end.

Definition drop_logger (h : Z) : LIO W unit := release_logger h.

(** The first logger that is wanted becomes the default one; the table keeps the name that
    [DEFAULT_LOGGER] holds while the object made here is released. *)
Definition default_handle (allocated : bool) : LIO W (result Z string) :=
  fun st =>
    let h := default_logger st in
    if (0 <? h) && bool_decide (is_Some (loggers st !! h)) then Some (Ok h, st)
    else
      (do* value := create_logger allocated in
       match value with
       | None => lret (Err "failed to allocate default Logger")
       | Some h =>
           do+ _ := retain_logger h in
           do* _ := drop_logger h in
           do* _ := lmodify (set_default_logger h) in
           lret (Ok h)
       end) st.

(** ** Lines *)

(** [{:03}]. *)
Definition three_digits (n : Z) : text := [48 + n / 100; 48 + n / 10 mod 10; 48 + n mod 10].

(** [now] is the clock: seconds and nanoseconds since the epoch, or why it cannot tell. *)
Definition log_line (e : LoggerEntry) (l : LogLevel) (secs nanos : Z) (message : text) : text :=
  mux_int_to_string secs ++ txt "." ++ three_digits (nanos / 1000000) ++ txt " " ++ txt (label l)
  ++ (if decide (name e = []) then [] else txt " name=" ++ name e)
  ++ flat_map (fun f : text * text => txt " " ++ f.1 ++ txt "=" ++ f.2) (fields e)
  ++ txt " message=" ++ message ++ [10].

Definition write_line (e : LoggerEntry) (l : LogLevel) (message : text) (now : result (Z * Z) string) : LIO W (result unit string) :=
  if level_rank l <? level_rank (level e) then lret (Ok tt)
  else
    match now with
    | Err error => lret (Err ("clock error: " +:+ error))
    | Ok (secs, nanos) =>
        let line := utf8 (log_line e l secs nanos message) in
        match writer e with
        | Some w => do* r := on_streams (write_writer w line) in lret (context "log writer failed: " r)
        | None => on_streams (os_result "log write failed: " (std_write Stderr line))
        end
    end.

Definition emit (h : Z) (l : LogLevel) (message : text) (now : result (Z * Z) string) : LIO W (result unit string) :=
  fun st => match loggers st !! h with
            | None => Some (Err "invalid Logger handle", st)
            | Some e => write_line e l message now st
            end.

(** ** Operations *)

(** [result_err] files a message under [Logger]. *)
Definition finish {A} (kind : StdErrorKind) (m : LIO W (result A string)) : LIO W (result A failure) :=
  do* r := m in lret (match r with Ok a => Ok a | Err e => Err (kind, e) end).

Definition mux_log_logger_new (allocated : bool) : LIO W (option Z) := create_logger allocated.

(** The object, or the unit value when something fails. *)
Definition mux_log_default (allocated allocated' : bool) : LIO W (option Z) :=
  do* r := (do+ h := default_handle allocated in
            do+ _ := retain_logger h in
            match logger_value h allocated' with
            | None => do* _ := release_logger h in lret (Err "failed to allocate Logger handle")
            | Some h => lret (Ok h)
            end) in
  lret (match r with Ok h => Some h | Err _ => None end).

Definition mux_log_set_default (logger : log_arg) : LIO W (result unit failure) :=
  finish Logger (
    do+ h := handle logger in
    do+ _ := retain_logger h in
    fun st =>
      let previous := default_logger st in
      (do* _ := lmodify (set_default_logger h) in
       if 0 <? previous then do* _ := release_logger previous in lret (Ok tt) else lret (Ok tt)) st).

(** [LOGGERS.get_mut(&handle)], with an assignment to the entry. *)
Definition assign (h : Z) (f : LoggerEntry -> LoggerEntry) : LIO W (result unit string) :=
  fun st => match loggers st !! h with
            | None => Some (Err "invalid Logger handle", st)
            | Some e => Some (Ok tt, set_loggers (<[h := f e]> (loggers st)) st)
            end.

Definition mux_log_logger_set_level (logger level : log_arg) : LIO W (result unit failure) :=
  finish Invalid (
    do+ h := handle logger in
    do+ value := lret (value_string level "log level") in
    do+ l := lret (parse value) in
    assign h (fun e => mk_logger l (name e) (fields e) (writer e) (refs e))).

Definition mux_log_logger_set_name (logger name : log_arg) : LIO W (result unit failure) :=
  finish Logger (
    do+ h := handle logger in
    do+ n := lret (value_string name "logger name") in
    assign h (fun e => mk_logger (level e) n (fields e) (writer e) (refs e))).

Definition field_cmp (a b : text * text) : comparison := lex_cmp Z.compare (utf8 a.1) (utf8 b.1).

(** The first field of that name takes the value; otherwise the field is pushed and the list sorted. *)
Fixpoint replace_field (key value : text) (fs : list (text * text)) : option (list (text * text)) :=
  match fs with
  | [] => None
  | (k, v) :: r => if decide (k = key) then Some ((k, value) :: r) else cons (k, v) <$> replace_field key value r
  end.
Definition put_field (key value : text) (fs : list (text * text)) : list (text * text) :=
  match replace_field key value fs with Some fs => fs | None => sort_by field_cmp (fs ++ [(key, value)]) end.

Definition mux_log_logger_field (logger key value : log_arg) : LIO W (result unit failure) :=
  finish Invalid (
    do+ h := handle logger in
    do+ key := lret (value_string key "field name") in
    if bool_decide (key = []) || existsb is_whitespace key
    then lret (Err "field name must be non-empty and contain no whitespace")
    else
      do+ value := lret (value_string value "field value") in
      assign h (fun e => mk_logger (level e) (name e) (put_field key value (fields e)) (writer e) (refs e))).

Definition mux_log_logger_set_writer (logger : log_arg) (w : arg) : LIO W (result unit failure) :=
  finish Logger (
    do+ h := handle logger in
    do+ wh := on_streams (Stream.handle w CWriter false) in
    do+ _ := on_streams (retain_writer wh) in
    fun st =>
      match loggers st !! h with
      | None => (do* _ := on_streams (release_writer wh) in lret (Err "invalid Logger handle")) st
      | Some e =>
          (do* _ := lmodify (set_loggers (<[h := mk_logger (level e) (name e) (fields e) (Some wh) (refs e)]> (loggers st))) in
           match writer e with Some previous => do* _ := on_streams (release_writer previous) in lret (Ok tt) | None => lret (Ok tt) end) st
      end).

Definition logger_message (logger : log_arg) (l : LogLevel) (message : log_arg) (now : result (Z * Z) string) : LIO W (result unit failure) :=
  finish Logger (
    do+ h := handle logger in
    do+ message := lret (value_string message "log message") in
    emit h l message now).

Definition mux_log_logger_trace (logger : log_arg) : log_arg -> result (Z * Z) string -> LIO W (result unit failure) := logger_message logger Trace.
Definition mux_log_logger_debug (logger : log_arg) : log_arg -> result (Z * Z) string -> LIO W (result unit failure) := logger_message logger Debug.
Definition mux_log_logger_info (logger : log_arg) : log_arg -> result (Z * Z) string -> LIO W (result unit failure) := logger_message logger Info.
Definition mux_log_logger_warn (logger : log_arg) : log_arg -> result (Z * Z) string -> LIO W (result unit failure) := logger_message logger Warn.
Definition mux_log_logger_error (logger : log_arg) : log_arg -> result (Z * Z) string -> LIO W (result unit failure) := logger_message logger Error.

Definition default_message (l : LogLevel) (message : option string) (allocated : bool) (now : result (Z * Z) string) : LIO W (result unit failure) :=
  finish Logger (
    do+ h := default_handle allocated in
    do+ message := lret (c_string message "log message") in
    emit h l message now).

Definition mux_log_trace : option string -> bool -> result (Z * Z) string -> LIO W (result unit failure) := default_message Trace.
Definition mux_log_debug : option string -> bool -> result (Z * Z) string -> LIO W (result unit failure) := default_message Debug.
Definition mux_log_info : option string -> bool -> result (Z * Z) string -> LIO W (result unit failure) := default_message Info.
Definition mux_log_warn : option string -> bool -> result (Z * Z) string -> LIO W (result unit failure) := default_message Warn.
Definition mux_log_error : option string -> bool -> result (Z * Z) string -> LIO W (result unit failure) := default_message Error.

End Loggers.
End Log.

(** * Loggers are counted and never dangle ([Log])

    A program holds logger objects and calls the operations of [Log] in any order.  The
    counts of the table are compared with the names: the objects of the program and the
    default logger.  Writers are compared with the names the loggers took of them. *)

Import HandleLemmas Log.

Definition one (x h : Z) : Z := if x =? h then 1 else 0.

(** ** Fields *)

Definition fields_ok (fs : list (text * text)) : Prop :=
  NoDup fs.*1 /\ StronglySorted (fun a b => lex_cmp Z.compare (utf8 a) (utf8 b) <> Gt) fs.*1.

Lemma replace_field_some key value fs fs' : replace_field key value fs = Some fs' ->
  fs'.*1 = fs.*1 /\ (key, value) ∈ fs' /\ (NoDup fs.*1 -> forall k v, k <> key -> (k, v) ∈ fs' <-> (k, v) ∈ fs).
Proof.
  revert fs'. induction fs as [|[k v] r IH]; cbn [replace_field]; [done|]. intros fs'. case_decide as Ek.
  - intros [= <-]. subst. cbn. split_and!; [done|by left|]. intros _ k v' Hne. rewrite !elem_of_cons. naive_solver.
  - destruct (replace_field key value r) as [r'|]; [|done]. intros [= <-]. destruct (IH r' eq_refl) as (E & Hin & Hk).
    cbn. rewrite E. split_and!; [done|by right|]. intros [_ Hn]%NoDup_cons k' v' Hne. rewrite !elem_of_cons. rewrite Hk by done. done.
Qed.

Lemma replace_field_none key value fs : replace_field key value fs = None -> key ∉ fs.*1.
Proof.
  induction fs as [|[k v] r IH]; cbn [replace_field]; [by intros _ ?%elem_of_nil|]. case_decide as Ek; [done|].
  destruct (replace_field key value r); [done|]. intros _ [->|Hin]%elem_of_cons; [done|]. by apply IH.
Qed.

Lemma field_cmp_ord : ord_on (fun _ => True) field_cmp.
Proof.
  apply (ord_on_impl (fun f : text * text => Forall (fun _ => True) (utf8 f.1))); [intros f _; by apply Forall_true|].
  apply (ord_on_proj (fun f : text * text => utf8 f.1) _ _ Zlex_ord).
Qed.

(** A field list is a sorted map: it holds the value that was put, and the other fields as before. *)
Lemma put_field_ok key value fs : fields_ok fs ->
  fields_ok (put_field key value fs) /\ (key, value) ∈ put_field key value fs /\
  (forall k v, k <> key -> (k, v) ∈ put_field key value fs <-> (k, v) ∈ fs).
Proof.
  intros [Hn Hs]. unfold put_field. destruct (replace_field key value fs) as [fs'|] eqn:E.
  - apply replace_field_some in E as (E & Hin & Hk). unfold fields_ok. rewrite E. split_and!; auto.
  - apply replace_field_none in E. pose proof (sort_by_perm field_cmp (fs ++ [(key, value)])) as Hp.
    split_and!; [split| |].
    + rewrite Hp, fmap_app. apply NoDup_app. split_and!; [done| |apply NoDup_singleton].
      intros k Hk ->%list_elem_of_singleton. done.
    + pose proof (sort_by_sorted _ _ field_cmp_ord (fs ++ [(key, value)]) ltac:(by apply Forall_true)) as Hss.
      revert Hss. generalize (sort_by field_cmp (fs ++ [(key, value)])). intros l Hss.
      induction Hss as [|f l Hl IH Hf]; cbn; constructor; [done|]. by apply Forall_fmap.
    + rewrite Hp. apply elem_of_app. right. by apply list_elem_of_singleton.
    + intros k v Hne. rewrite Hp, elem_of_app, list_elem_of_singleton. naive_solver.
Qed.

(** ** Writers *)

Definition held (w : Z) (m : gmap Z LoggerEntry) : Z := occ w (omap (fun kv : Z * LoggerEntry => writer kv.2) (map_to_list m)).
Definition holds (w : Z) (e : LoggerEntry) : Z := match writer e with Some w' => one w w' | None => 0 end.

Lemma occ_perm x l l' : l ≡ₚ l' -> occ x l = occ x l'.
Proof. intros Hp. unfold occ. f_equal. by apply Permutation_length, filter_Permutation. Qed.

Lemma occ_more x h l : occ x (h :: l) = one x h + occ x l.
Proof. change (h :: l) with ([h] ++ l). by rewrite occ_concat, occ_one. Qed.

Lemma held_new w h e m : m !! h = None -> held w (<[h := e]> m) = holds w e + held w m.
Proof.
  intros Hm. unfold held, holds. rewrite (occ_perm _ _ (omap (fun kv : Z * LoggerEntry => writer kv.2) ((h, e) :: map_to_list m))).
  - cbn. destruct (writer e); [apply occ_more|done].
  - by rewrite map_to_list_insert.
Qed.

Lemma held_delete w h e m : m !! h = Some e -> held w m = holds w e + held w (delete h m).
Proof.
  intros Hm. rewrite <- (insert_delete_id m h e) at 1 by done. apply held_new, lookup_delete_eq.
Qed.

Lemma held_update w h e e' m : m !! h = Some e -> held w (<[h := e']> m) = held w m - holds w e + holds w e'.
Proof.
  intros Hm. rewrite <- insert_delete_eq, held_new by apply lookup_delete_eq. rewrite (held_delete w h e m Hm). lia.
Qed.

Section Balance.
Context {W : Type} `{Os W}.

(** Writer [w] has [n0 w] names of others and [f w] names of loggers; its slot is there. *)
Definition balanced (n0 f : Z -> Z) (s : state W) : Prop :=
  forall w, 0 <= f w /\
    match writers s !! w with
    | Some n => 0 < n0 w /\ n = n0 w + f w /\ is_Some (slots s !! w)
    | None => n0 w = 0 /\ f w = 0
    end.

Lemma balanced_ext n0 f g s : (forall w, f w = g w) -> balanced n0 f s -> balanced n0 g s.
Proof. intros E Hb w. rewrite <- E. apply Hb. Qed.

Lemma retain_balanced n0 f s h : balanced n0 f s -> exists r s', retain_writer h s = Some (r, s') /\
  match r with Ok _ => balanced n0 (fun w => f w + one w h) s' | Err _ => s' = s end.
Proof.
  intros Hb. unfold retain_writer. destruct (writers s !! h) as [n|] eqn:E; [|by eexists _, _].
  destruct (n =? usize_max); [by eexists _, _|]. eexists _, _. split; [done|]. intros w. specialize (Hb w). unfold one.
  cbn [set_writers writers slots]. destruct (Z.eqb_spec w h) as [->|Hne].
  - rewrite lookup_insert_eq. rewrite E in Hb. destruct Hb as (? & ? & ? & ?). split_and!; (done || lia).
  - rewrite lookup_insert_ne by done. rewrite Z.add_0_r. done.
Qed.

Lemma release_balanced n0 f s h : balanced n0 f s -> 0 < f h -> exists s', release_writer h s = Some (tt, s') /\
  balanced n0 (fun w => f w - one w h) s'.
Proof.
  intros Hb Hf. unfold release_writer, smodify. eexists. split; [done|]. pose proof (Hb h) as (_ & Hh).
  destruct (writers s !! h) as [n|] eqn:E; [|lia]. destruct Hh as (H1 & H2 & H3).
  rewrite (proj2 (Z.eqb_neq n 1)) by lia. intros w. specialize (Hb w). unfold one. cbn [set_writers writers slots].
  destruct (Z.eqb_spec w h) as [->|Hne].
  - rewrite lookup_insert_eq. split_and!; (done || lia).
  - rewrite lookup_insert_ne by done. rewrite Z.sub_0_r. done.
Qed.

(** What leaves the registry alone leaves the balance. *)
Lemma same_writers_balanced n0 f s s' : writers s' = writers s -> (forall w, is_Some (slots s !! w) -> is_Some (slots s' !! w)) ->
  balanced n0 f s -> balanced n0 f s'.
Proof. intros E Hs Hb w. rewrite E. destruct (Hb w) as [? Hw]. split; [done|]. destruct (writers s !! w); naive_solver. Qed.

Lemma os_result_keeps {A} c (g : W -> result A string * W) s : exists r s', os_result c g s = Some (r, s') /\
  writers s' = writers s /\ slots s' = slots s.
Proof. unfold os_result, sbind, os_call. destruct (g (os s)) as [r w]. by eexists _, _. Qed.

Lemma backing_write_keeps e bytes s : exists r s', backing_write e bytes s = Some (r, s') /\
  writers s' = writers s /\ slots s' = slots s.
Proof.
  unfold backing_write, ebind, sbind.
  assert (Hstep : forall (o : option Z) c s1, writers s1 = writers s -> slots s1 = slots s -> exists r s2,
    match o with None => answer tt | Some fd => os_result c (fd_write_all fd bytes) end s1 = Some (r, s2) /\
    writers s2 = writers s /\ slots s2 = slots s).
  { intros [fd|] c s1 E1 E2; [|by eexists _, _].
    destruct (os_result_keeps c (fd_write_all fd bytes) s1) as (r & s2 & -> & E3 & E4). eexists _, _. split; [done|]. by rewrite E3, E4. }
  assert (exists r s1, match w_stdio e with
    | None => answer tt | Some Stdin => throw "stdin is not writable"
    | Some stream => os_result "standard stream write failed: " (std_write stream bytes) end s = Some (r, s1) /\
    writers s1 = writers s /\ slots s1 = slots s) as (r & s1 & -> & E1 & E2).
  { destruct (w_stdio e) as [[]|]; try (by eexists _, _); apply os_result_keeps. }
  destruct r as [?|?]; [|by eexists _, _]. destruct (Hstep (w_file e) "writer file write failed: " s1 E1 E2) as (r & s2 & -> & E3 & E4).
  destruct r as [?|?]; [|by eexists _, _]. by apply Hstep.
Qed.

Lemma write_writer_balanced n0 f h bytes s : balanced n0 f s -> exists r s', write_writer h bytes s = Some (r, s') /\ balanced n0 f s'.
Proof.
  intros Hb. unfold write_writer, ebind at 1, sbind at 1, writer_slot. pose proof (Hb h) as [_ Hh].
  destruct (writers s !! h); [|by eexists _, _]. destruct Hh as (_ & _ & [e He]).
  unfold write_writer_slot, sbind at 1, sget. rewrite He.
  repeat (case_match; [by eexists _, _|]). unfold ebind, sbind.
  destruct (backing_write_keeps e bytes s) as (r & s1 & -> & E1 & E2). destruct r as [?|?].
  - destruct (captured_safe e bytes) as [data ->]. unfold put_slot, smodify. eexists _, _. split; [done|]. apply (same_writers_balanced n0 f s); [done| |done].
    cbn [set_slots slots]. rewrite E2. intros w Hw. destruct (decide (w = h)) as [->|]; [by rewrite lookup_insert_eq|by rewrite lookup_insert_ne].
  - eexists _, _. split; [done|]. apply (same_writers_balanced n0 f s); [done| |done]. by rewrite E2.
Qed.

End Balance.

(** ** The table *)

Section Table.
Context {W : Type} `{Os W} (n0 : Z -> Z).

(** [hs] are the names of loggers that somebody holds. *)
Record counted (hs : list Z) (st : log_state W) : Prop := {
  co_next : 1 <= next_logger st;
  co_live h : h ∈ hs -> is_Some (loggers st !! h);
  co_refs h e : loggers st !! h = Some e -> 0 < h < next_logger st /\ refs e = occ h hs /\ 0 < refs e /\ fields_ok (fields e);
  co_writers : balanced n0 (fun w => held w (loggers st)) (output st);
}.

Lemma counted_perm hs hs' st : hs ≡ₚ hs' -> counted hs st -> counted hs' st.
Proof.
  intros Hp [H1 H2 H3 H4]. split; [done| | |done].
  - intros h. rewrite <- Hp. apply H2.
  - intros h e He. rewrite <- (occ_perm h _ _ Hp). by apply H3.
Qed.

(** An entry changes, and the names of that logger only. *)
Lemma counted_update hs hs' st h e e' : counted hs st -> loggers st !! h = Some e ->
  refs e' = occ h hs' -> 0 < refs e' -> fields_ok (fields e') -> (forall x, x <> h -> occ x hs' = occ x hs) ->
  forall s', balanced n0 (fun w => held w (loggers st) - holds w e + holds w e') s' ->
  counted hs' (mk_log (<[h := e']> (loggers st)) (next_logger st) (default_logger st) s').
Proof.
  intros [H1 H2 H3 H4] He Hr Hp Hf Ho s' Hb. destruct (H3 _ _ He) as (Hh & _). split; cbn [loggers next_logger output]; [done| | |].
  - intros x Hx. destruct (decide (x = h)) as [->|Hne]; [by rewrite lookup_insert_eq|]. rewrite lookup_insert_ne by done.
    apply H2, occ_pos. rewrite <- Ho by done. by apply occ_pos.
  - intros x y. destruct (decide (x = h)) as [->|Hne].
    + rewrite lookup_insert_eq. intros [= <-]. done.
    + rewrite lookup_insert_ne, Ho by done. apply H3.
  - eapply balanced_ext; [|done]. intros w. cbn. by rewrite (held_update w h e).
Qed.

Lemma counted_retain hs st h : counted hs st -> is_Some (loggers st !! h) -> Z.of_nat (length hs) < usize_max ->
  exists m, retain_logger h st = Some (Ok tt, set_loggers m st) /\ counted (h :: hs) (set_loggers m st).
Proof.
  intros Hc [e He] Hl. destruct (co_refs _ _ Hc _ _ He) as (Hh & Hr & Hp & Hf). pose proof (occ_bound h hs).
  unfold retain_logger. rewrite He, (proj2 (Z.eqb_neq (refs e) usize_max)) by lia. eexists. split; [done|].
  apply (counted_update hs (h :: hs) st h e); cbn [set_refs refs fields]; [done..| |lia|done| |].
  - rewrite occ_more. unfold one. rewrite Z.eqb_refl. lia.
  - intros x Hx. rewrite occ_more. unfold one. by rewrite (proj2 (Z.eqb_neq x h)).
  - eapply balanced_ext; [|apply Hc]. intros w. unfold holds. cbn. lia.
Qed.

Lemma counted_copy hs st h : counted hs st -> is_Some (loggers st !! h) -> Z.of_nat (length hs) < usize_max ->
  copy_logger_handle h st = (match retain_logger h st with Some (_, st) => Some (h, st) | None => None end).
Proof.
  intros Hc [e He] Hl. destruct (co_refs _ _ Hc _ _ He) as (Hh & Hr & Hp & Hf). pose proof (occ_bound h hs).
  unfold copy_logger_handle, retain_logger. rewrite He, (proj2 (Z.eqb_neq (refs e) usize_max)) by lia.
  rewrite Z.mod_small; [done|]. unfold usize_max in *. lia.
Qed.

(** Dropping a name: the default logger stays unless that was its name. *)
Lemma counted_release hs st h : counted (h :: hs) st ->
  exists st', release_logger h st = Some (tt, st') /\ counted hs st' /\ next_logger st' = next_logger st /\
    (default_logger st = 0 \/ default_logger st ∈ hs -> default_logger st' = default_logger st).
Proof.
  intros Hc. destruct (co_live _ _ Hc h) as [e He]; [by left|]. destruct (co_refs _ _ Hc _ _ He) as (Hh & Hr & Hp & Hf).
  rewrite occ_more in Hr. unfold one in Hr. rewrite Z.eqb_refl in Hr.
  assert (Ho : forall x, x <> h -> occ x hs = occ x (h :: hs)).
  { intros x Hx. rewrite occ_more. unfold one. by rewrite (proj2 (Z.eqb_neq x h)). }
  unfold release_logger. rewrite He. destruct (Z.eqb_spec (Z.max 0 (refs e - 1)) 0) as [E0|E0].
  2: { eexists. split_and!; [done| |done|done]. apply (counted_update (h :: hs) hs st h e); cbn [set_refs refs fields]; [done..|lia|lia|done|done|].
       eapply balanced_ext; [|apply Hc]. intros w. unfold holds. cbn. lia. }
  assert (Hz : occ h hs = 0) by (pose proof (occ_bound h hs); lia).
  assert (Hn : h ∉ hs) by (intros Hin%occ_pos; lia).
  cbv zeta. cbn [set_loggers default_logger].
  set (d := if default_logger st =? h then 0 else default_logger st).
  replace (if default_logger st =? h then _ else _) with (mk_log (delete h (loggers st)) (next_logger st) d (output st))
    by (unfold d; by destruct (default_logger st =? h)).
  assert (Hd : default_logger st = 0 \/ default_logger st ∈ hs -> d = default_logger st).
  { unfold d. destruct (Z.eqb_spec (default_logger st) h) as [->|]; [|done]. intros [?|?]; [lia|done]. }
  assert (Hcore : forall s', balanced n0 (fun w => held w (delete h (loggers st))) s' ->
    counted hs (mk_log (delete h (loggers st)) (next_logger st) d s')).
  { intros s' Hb. split; cbn [loggers next_logger output]; [by apply (co_next _ _ Hc)| | |done].
    - intros x Hx. rewrite lookup_delete_ne by (by intros <-). apply (co_live _ _ Hc). by right.
    - intros x y. destruct (decide (x = h)) as [->|Hne]; [by rewrite lookup_delete_eq|].
      rewrite lookup_delete_ne, Ho by done. apply (co_refs _ _ Hc). }
  pose proof (co_writers _ _ Hc) as Hb. assert (Hh' : forall w, held w (loggers st) = holds w e + held w (delete h (loggers st))).
  { intros w. by apply held_delete. }
  assert (H0 : forall w, 0 <= held w (delete h (loggers st))) by (intros w; apply occ_bound).
  unfold holds in Hh'. destruct (writer e) as [w|].
  - destruct (release_balanced n0 _ _ w Hb) as (s' & E & Hb'). { rewrite Hh'. specialize (H0 w). unfold one. rewrite Z.eqb_refl. lia. }
    unfold on_streams. cbn [output]. rewrite E. eexists. split_and!; [done| |done|exact Hd]. apply Hcore.
    eapply balanced_ext; [|exact Hb']. intros w'. cbn. rewrite Hh'. lia.
  - eexists. split_and!; [done| |done|exact Hd]. apply Hcore. eapply balanced_ext; [|exact Hb]. intros w'. cbn. rewrite Hh'. lia.
Qed.

Lemma counted_create hs st allocated : counted hs st -> next_logger st < i64_max ->
  exists st', create_logger allocated st = Some (logger_value (next_logger st) allocated, st') /\
    counted (if allocated then next_logger st :: hs else hs) st' /\
    next_logger st' = next_logger st + 1 /\ default_logger st' = default_logger st.
Proof.
  intros Hc Hn. pose proof (co_next _ _ Hc) as H1. unfold create_logger, lbind, next_handle, lmodify.
  rewrite (proj2 (Z.eqb_neq (next_logger st) i64_max)) by lia. set (h := next_logger st) in *.
  assert (Hnone : loggers st !! h = None).
  { destruct (loggers st !! h) as [e|] eqn:E; [|done]. apply (co_refs _ _ Hc) in E. subst h. lia. }
  assert (Hnin : h ∉ hs). { intros [e E]%(co_live _ _ Hc). congruence. }
  assert (Hz : occ h hs = 0). { pose proof (occ_bound h hs). destruct (decide (0 < occ h hs)) as [?%occ_pos|]; [done|lia]. }
  destruct allocated; cbn [logger_value]; eexists; (split_and!; [done| |done|done]); split; cbn [loggers next_logger output set_loggers]; try lia.
  - intros x [->|Hx]%elem_of_cons; [by rewrite lookup_insert_eq|]. rewrite lookup_insert_ne by (by intros <-). by apply (co_live _ _ Hc).
  - intros x e. rewrite occ_more. unfold one. destruct (decide (x = h)) as [->|Hne].
    + rewrite lookup_insert_eq, Z.eqb_refl. intros [= <-]. cbn. split_and!; [lia..|split; constructor].
    + rewrite lookup_insert_ne, (proj2 (Z.eqb_neq x h)) by done. intros Hx%(co_refs _ _ Hc). subst h. naive_solver lia.
  - eapply balanced_ext; [|apply Hc]. intros w. cbn. rewrite held_new by done. done.
  - intros x Hx. rewrite delete_insert_id by done. by apply (co_live _ _ Hc).
  - intros x e. rewrite delete_insert_id by done. intros Hx%(co_refs _ _ Hc). subst h. naive_solver lia.
  - rewrite delete_insert_id by done. apply Hc.
Qed.

(** The default logger, with the name it holds. *)
Definition dflt (st : log_state W) : list Z := if default_logger st =? 0 then [] else [default_logger st].

Definition valid (live : list Z) (st : log_state W) : Prop := counted (dflt st ++ live) st.

Lemma valid_default live st : valid live st -> default_logger st <> 0 -> is_Some (loggers st !! default_logger st).
Proof. intros Hv Hd. apply (co_live _ _ Hv). unfold dflt. rewrite (proj2 (Z.eqb_neq _ _) Hd). by left. Qed.

(** An operation that changes no count keeps what is valid. *)
Lemma valid_same live st st' : valid live st -> counted (dflt st ++ live) st' -> default_logger st' = default_logger st -> valid live st'.
Proof. unfold valid, dflt. intros _ Hc ->. done. Qed.

Lemma default_handle_valid live st allocated : valid live st -> next_logger st < i64_max -> Z.of_nat (length live) + 2 < usize_max ->
  exists r st', default_handle allocated st = Some (r, st') /\ valid live st' /\
    next_logger st' <= next_logger st + 1 /\
    match r with Ok h => default_logger st' = h /\ 0 < h | Err _ => True end.
Proof.
  intros Hv Hn Hl. unfold default_handle. destruct (decide (default_logger st = 0)) as [E0|Hd].
  2: { pose proof (valid_default _ _ Hv Hd) as [e He]. destruct (co_refs _ _ Hv _ _ He) as (Hh & _).
       rewrite (proj2 (Z.ltb_lt _ _)) by lia. rewrite bool_decide_true by (by eexists). cbn [andb].
       eexists _, _. split; [done|]. split_and!; [done|lia|done|lia]. }
  rewrite E0. cbn [andb Z.ltb Z.compare]. unfold valid, dflt in Hv. rewrite E0 in Hv. cbn [Z.eqb app] in Hv.
  destruct (counted_create _ _ allocated Hv Hn) as (st1 & E1 & Hc1 & Hn1 & Hd1). unfold lbind at 1. rewrite E1.
  set (h := next_logger st) in *. pose proof (co_next _ _ Hv) as Hpos.
  destruct allocated; cbn [logger_value] in *.
  2: { eexists _, _. split_and!; [done| |lia|done]. unfold valid, dflt. rewrite Hd1, E0. done. }
  destruct (counted_retain _ _ h Hc1) as (m & E2 & Hc2); [apply (co_live _ _ Hc1); by left|cbn [length]; lia|].
  unfold ltry, lbind at 1. rewrite E2. unfold lbind at 1, drop_logger.
  destruct (counted_release _ _ h Hc2) as (st3 & E3 & Hc3 & Hn3 & Hd3). rewrite E3. unfold lbind, lmodify.
  eexists _, _. split; [done|]. split_and!; [| |done|subst h; lia].
  - unfold valid, dflt. cbn [set_default_logger default_logger]. rewrite (proj2 (Z.eqb_neq h 0)) by (subst h; lia).
    destruct Hc3 as [K1 K2 K3 K4]. by split.
  - cbn [set_default_logger next_logger]. rewrite Hn3. cbn [set_loggers next_logger]. lia.
Qed.

Lemma write_line_counted hs st e l message now : counted hs st ->
  exists r st', write_line e l message now st = Some (r, st') /\ counted hs st' /\
    loggers st' = loggers st /\ next_logger st' = next_logger st /\ default_logger st' = default_logger st.
Proof.
  intros [K1 K2 K3 K4]. assert (Hsame : forall s', balanced n0 (fun w => held w (loggers st)) s' ->
    counted hs (mk_log (loggers st) (next_logger st) (default_logger st) s')) by (intros s' Hb; by split).
  unfold write_line. case_match; [eexists _, _; by split_and!|].
  destruct now as [[secs nanos]|error]; [|eexists _, _; by split_and!]. destruct (writer e) as [w|]; unfold lbind, on_streams.
  - destruct (write_writer_balanced n0 _ w (utf8 (log_line e l secs nanos message)) _ K4) as (r & s' & -> & Hb).
    eexists _, _. split_and!; [done|by apply Hsame|done..].
  - destruct (os_result_keeps "log write failed: " (std_write Stderr (utf8 (log_line e l secs nanos message))) (output st)) as (r & s' & -> & E1 & E2).
    eexists _, _. split_and!; [done| |done..]. apply Hsame. apply (same_writers_balanced _ _ (output st)); [done|by rewrite E2|done].
Qed.

Lemma emit_counted hs st h l message now : counted hs st ->
  exists r st', emit h l message now st = Some (r, st') /\ counted hs st' /\ next_logger st' = next_logger st /\ default_logger st' = default_logger st.
Proof.
  intros Hc. unfold emit. destruct (loggers st !! h) as [e|]; [|eexists _, _; by split_and!].
  destruct (write_line_counted hs st e l message now Hc) as (r & st' & E & Hc' & _ & Hn & Hd). by eexists _, _.
Qed.

(** ** Clients *)

Inductive op : Type :=
| New (allocated : bool)
| GetDefault (allocated allocated' : bool)
| Copy (i : nat)
| Drop (i : nat)
| SetDefault (v : log_arg)
| SetLevel (v l : log_arg)
| SetName (v n : log_arg)
| SetField (v k x : log_arg)
| SetWriter (v : log_arg) (w : arg)
| Message (v : log_arg) (l : LogLevel) (m : log_arg) (now : result (Z * Z) string)
| DefaultMessage (l : LogLevel) (m : option string) (allocated : bool) (now : result (Z * Z) string).

Definition client : Type := list Z * log_state W.

Definition object_of (live : list Z) (r : option (option Z * log_state W)) : option client :=
  match r with Some (Some h, st) => Some (live ++ [h], st) | Some (None, st) => Some (live, st) | None => None end.
Definition same_objects {A} (live : list Z) (r : option (A * log_state W)) : option client :=
  match r with Some (_, st) => Some (live, st) | None => None end.

Definition step (c : client) (o : op) : option client :=
  let '(live, st) := c in
  match o with
  | New a => object_of live (mux_log_logger_new a st)
  | GetDefault a a' => object_of live (mux_log_default a a' st)
  | Copy i => match live !! i with
              | Some h => match copy_logger_handle h st with Some (h', st) => Some (live ++ [h'], st) | None => None end
              | None => Some c
              end
  | Drop i => match live !! i with Some h => same_objects (delete i live) (drop_logger h st) | None => Some c end
  | SetDefault v => same_objects live (mux_log_set_default v st)
  | SetLevel v l => same_objects live (mux_log_logger_set_level v l st)
  | SetName v n => same_objects live (mux_log_logger_set_name v n st)
  | SetField v k x => same_objects live (mux_log_logger_field v k x st)
  | SetWriter v w => same_objects live (mux_log_logger_set_writer v w st)
  | Message v l m now => same_objects live (logger_message v l m now st)
  | DefaultMessage l m a now => same_objects live (default_message l m a now st)
  end.

Fixpoint run (ops : list op) (c : client) : option client :=
  match ops with [] => Some c | o :: r => match step c o with Some c => run r c | None => None end end.

(** After [k] operations. *)
Definition linv (k : Z) (c : client) : Prop :=
  valid c.1 c.2 /\ next_logger c.2 <= 1 + k /\ Z.of_nat (length c.1) <= k.

(** [m] returns, and leaves the objects in [live] valid; at most one logger is made. *)
Definition runs {A} (live : list Z) (st : log_state W) (m : LIO W A) : Prop :=
  exists r st', m st = Some (r, st') /\ valid live st' /\ next_logger st' <= next_logger st + 1.

Lemma runs_finish {A} live st kind (m : LIO W (result A string)) : runs live st m -> runs live st (finish kind m).
Proof. intros (r & st' & E & Hv). eexists _, st'. split; [|done]. unfold finish, lbind. by rewrite E. Qed.

Lemma runs_stop {A} live st (a : A) : valid live st -> runs live st (lret a).
Proof. intros Hv. eexists _, _. split_and!; [done..|lia]. Qed.

(** The arguments are checked first; a logger handle that passes is in the table. *)
Lemma runs_handle {A} live st v (f : Z -> LIO W (result A string)) : valid live st ->
  (forall h, is_Some (loggers st !! h) -> runs live st (f h)) -> runs live st (ltry (handle v) f).
Proof.
  intros Hv Hf. unfold runs, ltry, lbind, handle. destruct v as [|s|h|]; try by apply runs_stop.
  destruct (decide (is_Some (loggers st !! h))) as [Hs|Hs].
  - rewrite (bool_decide_true _ Hs), orb_false_r. destruct (h <=? 0); [by apply runs_stop|by apply Hf].
  - rewrite (bool_decide_false _ Hs), orb_true_r. by apply runs_stop.
Qed.

Lemma runs_checked {A B} live st (r : result A string) (f : A -> LIO W (result B string)) : valid live st ->
  (forall a, r = Ok a -> runs live st (f a)) -> runs live st (ltry (lret r) f).
Proof. intros Hv Hf. destruct r as [a|e]; [by apply (Hf a)|by apply runs_stop]. Qed.

Lemma runs_assign live st h f : valid live st -> is_Some (loggers st !! h) ->
  (forall e, refs (f e) = refs e /\ writer (f e) = writer e /\ (fields_ok (fields e) -> fields_ok (fields (f e)))) ->
  runs live st (assign h f).
Proof.
  intros Hv [e He] Hf. destruct (Hf e) as (E1 & E2 & E3). unfold runs, assign. rewrite He. eexists _, _.
  split; [done|]. split; [|cbn; lia]. destruct (co_refs _ _ Hv _ _ He) as (Hh & Hr & Hp & Hfs).
  refine (counted_update (dflt st ++ live) (dflt st ++ live) st h e (f e) Hv He _ _ _ _ (output st) _);
    [by rewrite E1|by rewrite E1|auto|done|].
  eapply balanced_ext; [|apply Hv]. intros w. unfold holds. rewrite E2. cbn. lia.
Qed.

Lemma runs_set_default live st v : valid live st -> Z.of_nat (length live) + 2 < usize_max -> runs live st (mux_log_set_default v).
Proof.
  intros Hv Hl. apply runs_finish, runs_handle; [done|]. intros h Hs.
  assert (length (dflt st) <= 1)%nat by (unfold dflt; case_match; cbn; lia).
  destruct (counted_retain _ _ h Hv Hs) as (m & E & Hc); [rewrite length_app; lia|].
  unfold runs, ltry, lbind, lmodify. rewrite E. cbn [set_loggers default_logger].
  destruct Hs as [e He]. destruct (co_refs _ _ Hv _ _ He) as (Hh & _).
  set (st2 := set_default_logger h (set_loggers m st)).
  assert (Hv2 : counted (h :: dflt st ++ live) st2) by (destruct Hc as [K1 K2 K3 K4]; by split).
  unfold dflt in Hv2. destruct (Z.ltb_spec 0 (default_logger st)) as [Hd|Hd].
  - rewrite (proj2 (Z.eqb_neq _ _)) in Hv2 by lia.
    destruct (counted_release (h :: live) st2 (default_logger st)) as (st3 & E3 & Hc3 & Hn3 & Hd3).
    { eapply counted_perm; [|exact Hv2]. constructor. }
    rewrite E3. eexists _, _. split; [done|]. split; [|rewrite Hn3; cbn; lia]. unfold valid, dflt.
    rewrite Hd3 by (right; by left). subst st2. cbn [set_default_logger default_logger]. by rewrite (proj2 (Z.eqb_neq h 0)) by lia.
  - assert (default_logger st = 0) as E0.
    { destruct (decide (default_logger st = 0)) as [|Hne]; [done|]. pose proof (valid_default _ _ Hv Hne) as [e' He'].
      apply (co_refs _ _ Hv) in He'. lia. }
    rewrite E0 in Hv2. eexists _, _. split; [done|]. split; [|cbn; lia]. unfold valid, dflt. subst st2. cbn [set_default_logger default_logger].
    by rewrite (proj2 (Z.eqb_neq h 0)) by lia.
Qed.

Lemma runs_set_writer live st v w : valid live st -> runs live st (mux_log_logger_set_writer v w).
Proof.
  intros Hv. apply runs_finish, runs_handle; [done|]. intros h [e He]. unfold runs.
  unfold ltry at 1, lbind at 1, on_streams at 1. destruct (Stream.handle w CWriter false (output st)) as [[r s']|] eqn:Eh; [|done].
  injection Eh as Er <-. replace (mk_log _ _ _ _) with st by (by destruct st). destruct r as [wh|]; [|by apply runs_stop].
  unfold ltry, lbind, on_streams. pose proof (co_writers _ _ Hv) as Hb.
  destruct (retain_balanced n0 _ _ wh Hb) as (r & s1 & -> & Hr). destruct r as [[]|]; cbn [loggers next_logger default_logger output].
  2: { subst s1. replace (mk_log _ _ _ _) with st by (by destruct st). by apply runs_stop. }
  rewrite He. unfold lmodify. destruct (co_refs _ _ Hv _ _ He) as (Hh & Hrf & Hp & Hfs).
  assert (Hup : forall s2, balanced n0 (fun x => held x (loggers st) - holds x e + one x wh) s2 ->
    valid live (mk_log (<[h := mk_logger (level e) (name e) (fields e) (Some wh) (refs e)]> (loggers st)) (next_logger st) (default_logger st) s2)).
  { intros s2 Hb2. by refine (counted_update (dflt st ++ live) (dflt st ++ live) st h e _ Hv He _ _ _ _ s2 _). }
  unfold holds in Hup. destruct (writer e) as [w0|] eqn:Ew; cbn [set_loggers output loggers next_logger default_logger].
  - destruct (release_balanced n0 _ _ w0 Hr) as (s2 & -> & Hb2).
    { rewrite (held_delete w0 h e) by done. unfold holds, one. rewrite Ew. unfold one. rewrite Z.eqb_refl.
      pose proof (occ_bound w0 (omap (fun kv : Z * LoggerEntry => writer kv.2) (map_to_list (delete h (loggers st))))).
      unfold held. destruct (w0 =? wh); lia. }
    eexists _, _. split; [done|]. split; [|cbn; lia]. apply Hup. eapply balanced_ext; [|exact Hb2]. intros x. cbn. lia.
  - eexists _, _. split; [done|]. split; [|cbn; lia]. apply Hup. eapply balanced_ext; [|exact Hr]. intros x. cbn. lia.
Qed.

Lemma runs_emit live st h l message now : valid live st -> runs live st (emit h l message now).
Proof.
  intros Hv. destruct (emit_counted _ st h l message now Hv) as (r & st' & E & Hc & Hn & Hd).
  eexists _, _. split_and!; [done|by eapply valid_same|lia].
Qed.

Lemma runs_default_message live st l m allocated now : valid live st -> next_logger st < i64_max ->
  Z.of_nat (length live) + 2 < usize_max -> runs live st (default_message l m allocated now).
Proof.
  intros Hv Hn Hl. apply runs_finish. destruct (default_handle_valid live st allocated Hv Hn Hl) as (r & st1 & E & Hv1 & Hn1 & Hr).
  unfold runs, ltry at 1, lbind at 1. rewrite E. destruct r as [h|]; [|by eexists _, _].
  unfold ltry, lbind, lret. destruct (c_string m "log message") as [t|]; [|by eexists _, _].
  destruct (emit_counted _ st1 h l t now Hv1) as (r & st' & E' & Hc & Hn' & Hd). rewrite E'.
  eexists _, _. split_and!; [done|by eapply valid_same|lia].
Qed.

Lemma linv_runs {A} k live st (m : LIO W A) : linv k (live, st) -> runs live st m ->
  exists c, same_objects live (m st) = Some c /\ linv (k + 1) c.
Proof.
  intros (_ & Hn & Hl) (r & st' & -> & Hv & Hn'). cbn [fst snd] in *. eexists. split; [done|]. split_and!; cbn [fst snd]; [done|lia..].
Qed.

(** A new object with the name [h]. *)
Lemma linv_object k live st h st' : linv k (live, st) -> counted (h :: dflt st' ++ live) st' -> next_logger st' <= next_logger st + 1 ->
  linv (k + 1) (live ++ [h], st').
Proof.
  intros (_ & Hn & Hl) Hc Hn'. cbn [fst snd] in *. split_and!; cbn [fst snd]; [|lia|rewrite length_app; cbn; lia].
  eapply counted_perm; [|exact Hc]. rewrite app_assoc. apply Permutation_cons_append.
Qed.

Lemma step_new k live st a : linv k (live, st) -> k < 2 ^ 62 -> exists c, step (live, st) (New a) = Some c /\ linv (k + 1) c.
Proof.
  intros Hi Hk. pose proof Hi as (Hv & Hn & Hl). cbn [fst snd] in *. cbn [step]. unfold mux_log_logger_new.
  destruct (counted_create _ _ a Hv ltac:(width)) as (st' & -> & Hc & Hn' & Hd).
  assert (Ed : dflt st' = dflt st) by (unfold dflt; by rewrite Hd). rewrite <- Ed in Hc.
  destruct a; eexists; (split; [done|]); [eapply linv_object; [done|exact Hc|lia]|]. split_and!; cbn [fst snd]; [done|lia..].
Qed.

Lemma step_default k live st a a' : linv k (live, st) -> k < 2 ^ 62 -> exists c, step (live, st) (GetDefault a a') = Some c /\ linv (k + 1) c.
Proof.
  intros Hi Hk. pose proof Hi as (Hv & Hn & Hl). cbn [fst snd] in *. cbn [step]. unfold mux_log_default, lbind at 1, ltry at 1, lbind at 1.
  destruct (default_handle_valid live st a Hv ltac:(width) ltac:(unfold usize_max; lia)) as (r & st1 & -> & Hv1 & Hn1 & Hr).
  destruct r as [h|]; [|eexists; split; [done|]; split_and!; cbn [fst snd]; [done|lia..]]. destruct Hr as [Hd Hh].
  assert (is_Some (loggers st1 !! h)) as Hs by (rewrite <- Hd; apply (valid_default live); [done|lia]).
  assert (length (dflt st1) <= 1)%nat by (unfold dflt; case_match; cbn; lia).
  destruct (counted_retain _ _ h Hv1 Hs) as (m & E & Hc); [rewrite length_app; unfold usize_max; lia|].
  unfold ltry, lbind. rewrite E. destruct a'; cbn [logger_value].
  - eexists. split; [done|]. by eapply linv_object.
  - destruct (counted_release _ _ h Hc) as (st3 & -> & Hc3 & Hn3 & Hd3). eexists. split; [done|].
    cbn [set_loggers default_logger next_logger] in *. rewrite Hd in Hd3.
    split_and!; cbn [fst snd]; [|lia..]. unfold valid, dflt. rewrite Hd3, <- Hd; [done|]. right. apply elem_of_app. left.
    unfold dflt. rewrite (proj2 (Z.eqb_neq _ _)) by lia. rewrite Hd. by left.
Qed.

Lemma step_copy k live st i : linv k (live, st) -> k < 2 ^ 62 -> exists c, step (live, st) (Copy i) = Some c /\ linv (k + 1) c.
Proof.
  intros Hi Hk. pose proof Hi as (Hv & Hn & Hl). cbn [fst snd] in *. cbn [step].
  destruct (live !! i) as [h|] eqn:Ei; [|eexists; split; [done|]; split_and!; cbn [fst snd]; [done|lia..]].
  assert (length (dflt st) <= 1)%nat by (unfold dflt; case_match; cbn; lia).
  assert (is_Some (loggers st !! h)) as Hs. { apply (co_live _ _ Hv), elem_of_app. right. by eapply list_elem_of_lookup_2. }
  rewrite (counted_copy _ _ h Hv Hs) by (rewrite length_app; unfold usize_max; lia).
  destruct (counted_retain _ _ h Hv Hs) as (m & -> & Hc); [rewrite length_app; unfold usize_max; lia|].
  eexists. split; [done|]. eapply linv_object; [done|exact Hc|cbn; lia].
Qed.

Lemma step_drop k live st i : linv k (live, st) -> exists c, step (live, st) (Drop i) = Some c /\ linv (k + 1) c.
Proof.
  intros (Hv & Hn & Hl). cbn [fst snd] in *. cbn [step].
  destruct (live !! i) as [h|] eqn:Ei; [|eexists; split; [done|]; split_and!; cbn [fst snd]; [done|lia..]].
  assert (Hp : dflt st ++ live ≡ₚ h :: dflt st ++ delete i live).
  { rewrite (delete_Permutation _ _ _ Ei) at 1. by rewrite Permutation_middle. }
  apply (counted_perm _ _ _ Hp) in Hv. destruct (counted_release _ _ h Hv) as (st' & E & Hc & Hn' & Hd).
  unfold drop_logger. rewrite E. eexists. split; [done|]. pose proof (length_delete live i ltac:(by eexists)).
  split_and!; cbn [fst snd]; [|lia..]. assert (default_logger st' = default_logger st) as Hd'.
  { apply Hd. unfold dflt. destruct (Z.eqb_spec (default_logger st) 0); [by left|]. right. by left. }
  unfold valid, dflt. by rewrite Hd'.
Qed.

Lemma step_linv k c o : linv k c -> k < 2 ^ 62 -> exists c', step c o = Some c' /\ linv (k + 1) c'.
Proof.
  destruct c as [live st]. intros Hi Hk. pose proof Hi as (Hv & Hn & Hl). cbn [fst snd] in *.
  assert (Hu : Z.of_nat (length live) + 2 < usize_max) by (unfold usize_max; lia).
  destruct o; cbn [step].
  - by apply step_new.
  - by apply step_default.
  - by apply step_copy.
  - by apply step_drop.
  - apply linv_runs; [done|]. by apply runs_set_default.
  - apply linv_runs; [done|]. apply runs_finish, runs_handle; [done|]. intros h Hs. apply runs_checked; [done|]. intros t _.
    apply runs_checked; [done|]. intros lv _. by apply runs_assign.
  - apply linv_runs; [done|]. apply runs_finish, runs_handle; [done|]. intros h Hs. apply runs_checked; [done|]. intros t _. by apply runs_assign.
  - apply linv_runs; [done|]. apply runs_finish, runs_handle; [done|]. intros h Hs. apply runs_checked; [done|]. intros key _.
    case_match; [by apply runs_stop|]. apply runs_checked; [done|]. intros value _. apply runs_assign; [done..|].
    intros e. split_and!; [done..|]. intros Hf. cbn [fields]. by apply put_field_ok.
  - apply linv_runs; [done|]. by apply runs_set_writer.
  - apply linv_runs; [done|]. apply runs_finish, runs_handle; [done|]. intros h Hs. apply runs_checked; [done|]. intros t _. by apply runs_emit.
  - apply linv_runs; [done|]. apply runs_default_message; [done|width|done].
Qed.

Lemma run_linv ops : forall k c, linv k c -> k + Z.of_nat (length ops) < 2 ^ 62 ->
  exists c', run ops c = Some c' /\ linv (k + Z.of_nat (length ops)) c'.
Proof.
  induction ops as [|o ops IH]; intros k c Hi Hk; cbn [run length] in *.
  - eexists. split; [done|]. by rewrite Z.add_0_r.
  - destruct (step_linv k c o Hi ltac:(lia)) as (c1 & -> & Hi1). destruct (IH (k + 1) c1 Hi1 ltac:(lia)) as (c' & E & Hi').
    exists c'. split; [done|]. by replace (k + Z.of_nat (S (length ops))) with (k + 1 + Z.of_nat (length ops)) by lia.
Qed.

End Table.

(** Before the first logger. *)
Definition no_loggers {W} (s : state W) : log_state W := mk_log ∅ 1 0 s.

(** The streams a program may have: registered writers have names and slots. *)
Definition named {W} (s : state W) : Prop := forall w n, writers s !! w = Some n -> 0 < n /\ is_Some (slots s !! w).

(** C30: Loggers are counted exactly and the default logger never dangles.  A program makes, copies
    and drops loggers, sets levels, names, fields, writers and the default logger and logs, in
    any order, with allocations that fail and invalid arguments.  No call panics.  Every logger
    in the table has as many references as there are objects of the program with its handle,
    one more when it is the default logger, and at least one; every object and the default
    logger find their entry; the fields of a logger are sorted by name without repetition; and
    every stream writer has the names it had, and one for each logger that writes to it. *)
Theorem loggers_counted (W : Type) `{Os W} (s : state W) (ops : list op) : named s -> Z.of_nat (length ops) < 2 ^ 62 ->
  exists live st, run ops ([], no_loggers s) = Some (live, st) /\
    (forall h, h ∈ live \/ h = default_logger st /\ h <> 0 -> is_Some (loggers st !! h)) /\
    (forall h e, loggers st !! h = Some e ->
      refs e = occ h live + one h (default_logger st) /\ 0 < refs e /\ fields_ok (fields e)) /\
    (forall w, from_option id 0 (writers (output st) !! w) = from_option id 0 (writers s !! w) + held w (loggers st)).
Proof.
  intros Hs Hl. set (n0 := fun w => from_option id 0 (writers s !! w)).
  destruct (run_linv n0 ops 0 ([], no_loggers s)) as ([live st] & E & Hv & _ & _); [|done|].
  { split_and!; [|cbn; lia..]. split; cbn; [lia|by intros h ?%elem_of_nil|done|]. intros w. split; [done|]. cbn.
    subst n0. cbn. destruct (writers s !! w) as [n|] eqn:Ew; [|done]. apply Hs in Ew as [? ?]. split_and!; [done| |done]. change (n = n + 0). lia. }
  cbn [fst snd] in Hv. exists live, st. split; [done|]. split_and!.
  - intros h [Hin|[-> Hne]]; [apply (co_live _ _ _ Hv), elem_of_app; by right|by eapply valid_default].
  - intros h e He. destruct (co_refs _ _ _ Hv _ _ He) as (Hh & Hr & Hp & Hf). split_and!; [|done..].
    rewrite Hr, occ_concat. unfold dflt, one. destruct (Z.eqb_spec (default_logger st) 0) as [E0|E0].
    + rewrite E0, (proj2 (Z.eqb_neq h 0)) by lia. change (occ h []) with 0. lia.
    + rewrite occ_one. lia.
  - intros w. destruct (co_writers _ _ _ Hv w) as [_ Hw]. cbv beta in Hw.
    change (from_option id 0 (writers s !! w)) with (n0 w). destruct (writers (output st) !! w); cbn [from_option]; unfold id; lia.
Qed.

(** A program with the standard error as a writer. *)
Definition demo_streams : state unit :=
  mk_state ∅ {[1 := 1]} {[1 := mk_writer [] 0 true false None None None]} ∅ 2 {[7 := (CWriter, 1)]} tt.

Definition demo_calls : list op :=
  [New true; SetWriter (LoggerArg 1) (Obj 7); Copy 0; SetField (LoggerArg 1) (StringArg (txt "b")) (StringArg (txt "2"));
   SetField (LoggerArg 1) (StringArg (txt "a")) (StringArg (txt "1")); SetDefault (LoggerArg 1); New false; Drop 0; Drop 0;
   DefaultMessage Warn (Some "m") false (Ok (5, 40000000))].

Lemma loggers_counted_witness :
  exists live st, run demo_calls ([], no_loggers demo_streams) = Some (live, st) /\
    (live, default_logger st, refs <$> loggers st !! 1, writers (output st) !! 1) = ([], 1, Some 1, Some 2) /\
    (w_data <$> slots (output st) !! 1) = Some (txt "5.040 WARN a=1 b=2 message=m" ++ [10]) /\
    from_option id 0 (writers (output st) !! 1) = 1 + held 1 (loggers st).
Proof.
  destruct (loggers_counted unit demo_streams demo_calls) as (live & st & E & _ & _ & Hw).
  - intros w n. destruct (decide (w = 1)) as [->|Hne]; [intros [= <-]; split; [done|by eexists]|].
    change (({[1 := 1]} : gmap Z Z) !! w = Some n -> 0 < n /\ is_Some (slots demo_streams !! w)). by rewrite lookup_singleton_ne.
  - vm_compute. reflexivity.
  - exists live, st. split; [exact E|]. vm_compute in E. injection E as <- <-. split; [reflexivity|]. split; [vm_compute; reflexivity|].
    apply (Hw 1).
Defined.

(** ** Messages *)

(** A message of sufficient level appends exactly its line to the memory writer of the logger and changes
    nothing else; a message below the level of the logger writes nothing. *)
Lemma logger_message_writes {W} `{Os W} (st : log_state W) h e l message secs nanos w n we :
  0 < h -> loggers st !! h = Some e -> writer e = Some w -> writers (output st) !! w = Some n -> slots (output st) !! w = Some we ->
  memory_writer we -> zlen (w_data we) + zlen (utf8 (log_line e l secs nanos message)) <= MAX_STREAM_BYTES ->
  logger_message (LoggerArg h) l (StringArg message) (Ok (secs, nanos)) st =
    Some (Ok tt, if level_rank l <? level_rank (level e) then st
                 else mk_log (loggers st) (next_logger st) (default_logger st)
                        (set_slots (<[w := appended we (utf8 (log_line e l secs nanos message))]> (slots (output st))) (output st))).
Proof.
  intros Hh He Hw Hn Hs Hm Hlen. unfold logger_message, finish, lbind, ltry, handle, lbind, emit, value_string, lret.
  rewrite (proj2 (Z.leb_gt h 0)), bool_decide_true by (done || by eexists). cbn [negb orb]. rewrite He. unfold write_line.
  destruct (level_rank l <? level_rank (level e)); [done|]. rewrite Hw. unfold lbind, on_streams. by rewrite (write_memory _ _ _ _ _ Hn Hs Hm Hlen).
Qed.

(** The line is not escaped: a line feed in the message makes a second line, which reads as an entry of
    its own. *)
Example message_forges_line :
  utf8 (log_line (mk_logger Info [] [] None 1) Info 5 0 (txt "a" ++ [10] ++ txt "6.000 ERROR message=b")) =
  txt "5.000 INFO message=a" ++ [10] ++ txt "6.000 ERROR message=b" ++ [10].
Proof. vm_compute. reflexivity. Qed.
