(* ===== verification/Process.v ===== *)
(** * Processes ([src/src/process.rs])

    Commands, children and captured outputs are entries of three tables that share one
    counter of handles; an entry counts the objects that name it, and the last name of a
    child kills its process group and reaps it.  The operating system is the class
    [ProcessOs]; the Unix branches are modelled.  An error is its category and message.
    A call that waits has fuel for its polls; [None] is a call that is still waiting.
    The process pool is not modelled here. *)

From S2P Require Import Prelude Value StdErrors Utf8 DynValue Stream.

Module Process.

Definition MAX_PROCESS_IO_BYTES : Z := 16 * 1024 * 1024.
Definition MAX_PROCESS_TIMEOUT_MS : Z := 2 ^ 32 - 1.

Inductive StdioMode : Type := Inherit | Null | Piped.

Record CommandSpec : Type := mk_spec {
  program : string;
  args : list string;
  env : list (string * string);
  cwd : option string;
  stdin : StdioMode;
  stdout : StdioMode;
  stderr : StdioMode;
}.
Definition default_spec : CommandSpec := mk_spec "" [] [] None Inherit Inherit Inherit.

(** A [std::process::Command]: the specification, with a process group of its own. *)
Record StdCommand : Type := mk_command { settings : CommandSpec; own_group : bool }.

(** The exit code; [None] for a signal. *)
Definition ExitStatus : Type := option Z.

(** A [std::process::Child]: its number, the pipes that are open, and its status once it was reaped. *)
Record Child : Type := mk_child { pid : Z; stdin_pipe : bool; stdout_pipe : bool; stderr_pipe : bool; exited : option ExitStatus }.
Record Output : Type := mk_output { out_status : ExitStatus; out_stdout : list Z; out_stderr : list Z }.

(** What the standard library and the kernel do.  Times are in nanoseconds. *)
Class ProcessOs (W : Type) : Type := {
  spawn : StdCommand -> W -> result Child string * W;
  status : StdCommand -> W -> result ExitStatus string * W;
  try_wait : Z -> W -> result (option ExitStatus) string * W;
  wait : Z -> W -> result ExitStatus string * W;
  kill : Z -> W -> result unit string * W;
  (** [libc::kill(-pid, SIGKILL)]: an error says whether it was [ESRCH]. *)
  kill_group : Z -> W -> option (bool * string) * W;
  close_stdin : Z -> W -> W;
  write_stdin : Z -> list Z -> W -> result Z string * W;
  read_pipe : bool -> Z -> Z -> W -> result (list Z) string * W;
  now : W -> Z;
  sleep : Z -> W -> W;
}.

Definition failure : Type := StdErrorKind * string.
Definition io_error {A} (m : string) : result A failure := Err (Io, m).

(** A table of entries with the number of their names. *)
Abbreviation table T := (gmap Z (T * Z)) (only parsing).

Record proc_state (W : Type) : Type := mk_proc {
  commands : table CommandSpec;
  children : table Child;
  outputs : table Output;
  next_handle : Z;
  world : W;
}.
Arguments mk_proc {W}. Arguments commands {W}. Arguments children {W}. Arguments outputs {W}. Arguments next_handle {W}. Arguments world {W}.

(** What a pointer argument leads to; a class comes with the number its object stores. *)
Inductive proc_arg : Type := NullArg | CommandArg (id : Z) | ChildArg (id : Z) | OutputArg (id : Z) | OtherArg.

(** ** Tables *)

(** The number the copy stores; [names += 1]. *)
Definition copy_handle {T} (h : Z) (m : table T) : Z * table T :=
  match m !! h with
  | Some (x, n) => (h, <[h := (x, (n + 1) mod 2 ^ 64)]> m)
  | None => (0, m)
  end.

(** The entry that went with its last name. *)
Definition release_handle {T} (h : Z) (m : table T) : option T * table T :=
  match m !! h with
  | Some (x, n) =>
      let n := Z.max 0 (n - 1) in
      if n =? 0 then (Some x, delete h m) else (None, <[h := (x, n)]> m)
  | None => (None, m)
  end.

Definition after (h : Z) : Z := if h =? i64_max then 1 else h + 1.

Definition command_handle (v : proc_arg) : option Z := match v with CommandArg h => if 0 <? h then Some h else None | _ => None end.
Definition child_handle (v : proc_arg) : option Z := match v with ChildArg h => if 0 <? h then Some h else None | _ => None end.
Definition output_handle (v : proc_arg) : option Z := match v with OutputArg h => if 0 <? h then Some h else None | _ => None end.

Definition c_string (v : option string) (name : string) : result string failure :=
  match v with
  | None => io_error (name +:+ " must not be null")
  | Some s => if is_utf8 (txt s) then Ok s else io_error (name +:+ " must be valid UTF-8")
  end.

Definition status_code (s : ExitStatus) : Z := match s with Some c => c | None => -1 end.

Section Processes.
Context {W : Type} `{ProcessOs W}.

Definition set_commands (m : table CommandSpec) (st : proc_state W) : proc_state W := mk_proc m (children st) (outputs st) (next_handle st) (world st).
Definition set_children (m : table Child) (st : proc_state W) : proc_state W := mk_proc (commands st) m (outputs st) (next_handle st) (world st).
Definition set_outputs (m : table Output) (st : proc_state W) : proc_state W := mk_proc (commands st) (children st) m (next_handle st) (world st).
Definition set_world (w : W) (st : proc_state W) : proc_state W := mk_proc (commands st) (children st) (outputs st) (next_handle st) w.
Definition bump (st : proc_state W) : proc_state W := mk_proc (commands st) (children st) (outputs st) (after (next_handle st)) (world st).

(** [terminate_process_group]: a group that is gone is no error. *)
Definition terminate_process_group (p : Z) (w : W) : result unit string * W :=
  if 2 ^ 31 - 1 <? p then (Err "child process id does not fit the platform process type", w)
  else
    match kill_group p w with
    | (None, w) => (Ok tt, w)
    | (Some (esrch, e), w) => if esrch then (Ok tt, w) else (Err ("terminating child process group failed: " +:+ e), w)
    end.

(** [Child::try_wait], [Child::wait] and [Child::kill]: a child that was reaped keeps its status. *)
Definition with_exit (s : ExitStatus) (c : Child) : Child := mk_child (pid c) (stdin_pipe c) (stdout_pipe c) (stderr_pipe c) (Some s).
Definition child_try_wait (c : Child) (w : W) : result (option ExitStatus) string * Child * W :=
  match exited c with
  | Some s => (Ok (Some s), c, w)
  | None =>
      match try_wait (pid c) w with
      | (Ok (Some s), w) => (Ok (Some s), with_exit s c, w)
      | (r, w) => (r, c, w)
      end
  end.
Definition child_wait (c : Child) (w : W) : result ExitStatus string * Child * W :=
  match exited c with
  | Some s => (Ok s, c, w)
  | None => match wait (pid c) w with (Ok s, w) => (Ok s, with_exit s c, w) | (Err e, w) => (Err e, c, w) end
  end.
Definition child_kill (c : Child) (w : W) : result unit string * W :=
  match exited c with Some _ => (Ok tt, w) | None => kill (pid c) w end.

(** Kill the group and reap the child, whatever comes of it. *)
Definition abandon (c : Child) (w : W) : W := (child_wait c (terminate_process_group (pid c) w).2).2.

Definition make_command (spec : CommandSpec) : StdCommand := mk_command spec true.

Definition insert_command (spec : CommandSpec) (allocated : bool) (st : proc_state W) : option Z * proc_state W :=
  let h := next_handle st in
  let st := bump st in
  let st := set_commands (<[h := (spec, 1)]> (commands st)) st in
  if allocated then (Some h, st) else (None, set_commands (delete h (commands st)) st).

Definition insert_child (c : Child) (allocated : bool) (st : proc_state W) : option Z * proc_state W :=
  let h := next_handle st in
  let st := bump st in
  let st := set_children (<[h := (c, 1)]> (children st)) st in
  if allocated then (Some h, st)
  else (None, set_world (abandon c (world st)) (set_children (delete h (children st)) st)).

Definition insert_output (o : Output) (allocated : bool) (st : proc_state W) : option Z * proc_state W :=
  let h := next_handle st in
  let st := bump st in
  let st := set_outputs (<[h := (o, 1)]> (outputs st)) st in
  if allocated then (Some h, st) else (None, set_outputs (delete h (outputs st)) st).

Definition copy_command (h : Z) (st : proc_state W) : Z * proc_state W :=
  let '(h, m) := copy_handle h (commands st) in (h, set_commands m st).
Definition copy_child (h : Z) (st : proc_state W) : Z * proc_state W :=
  let '(h, m) := copy_handle h (children st) in (h, set_children m st).
Definition copy_output (h : Z) (st : proc_state W) : Z * proc_state W :=
  let '(h, m) := copy_handle h (outputs st) in (h, set_outputs m st).

Definition release_command (h : Z) (st : proc_state W) : proc_state W := set_commands (release_handle h (commands st)).2 st.
Definition release_output (h : Z) (st : proc_state W) : proc_state W := set_outputs (release_handle h (outputs st)).2 st.
Definition release_child (h : Z) (st : proc_state W) : proc_state W :=
  match release_handle h (children st) with
  | (Some c, m) => let st := set_children m st in set_world (abandon c (world st)) st
  | (None, m) => set_children m st
  end.

(** ** Commands *)

Definition new_object (what : string) (wrap : Z -> proc_arg) (r : option Z * proc_state W) : result proc_arg failure * proc_state W :=
  match r with
  | (Some h, st) => (Ok (wrap h), st)
  | (None, st) => (io_error ("could not allocate " +:+ what), st)
  end.

Definition mux_process_command_new (allocated : bool) (st : proc_state W) : result proc_arg failure * proc_state W :=
  new_object "command" CommandArg (insert_command default_spec allocated st).

(** The checks of a setter, in order: the handle, the arguments, the entry. *)
Definition configure {A} (command : proc_arg) (argument : result A failure) (f : A -> CommandSpec -> CommandSpec) (st : proc_state W) : result unit failure * proc_state W :=
  match command_handle command with
  | None => (io_error "invalid command handle", st)
  | Some h =>
      match argument with
      | Err e => (Err e, st)
      | Ok a =>
          match commands st !! h with
          | None => (io_error "invalid command handle", st)
          | Some (spec, n) => (Ok tt, set_commands (<[h := (f a spec, n)]> (commands st)) st)
          end
      end
  end.

Definition not_empty (r : result string failure) (e : failure) : result string failure :=
  match r with Ok s => if bool_decide (s = "") then Err e else Ok s | Err x => Err x end.

Definition mux_process_command_set_program (command : proc_arg) (v : option string) : proc_state W -> result unit failure * proc_state W :=
  configure command (not_empty (c_string v "program") (Invalid, "program must not be empty"))
    (fun p s => mk_spec p (args s) (env s) (cwd s) (stdin s) (stdout s) (stderr s)).

Definition mux_process_command_shell (commandline : option string) (allocated : bool) (st : proc_state W) : result proc_arg failure * proc_state W :=
  match not_empty (c_string commandline "command line") (Io, "command line must not be empty") with
  | Err e => (Err e, st)
  | Ok line => new_object "command" CommandArg (insert_command (mk_spec "sh" ["-c"; line] [] None Inherit Inherit Inherit) allocated st)
  end.

Definition mux_process_command_arg (command : proc_arg) (v : option string) : proc_state W -> result unit failure * proc_state W :=
  configure command (c_string v "argument") (fun a s => mk_spec (program s) (args s ++ [a]) (env s) (cwd s) (stdin s) (stdout s) (stderr s)).

Fixpoint set_env (key value : string) (e : list (string * string)) : list (string * string) :=
  match e with
  | [] => [(key, value)]
  | (k, v) :: r => if bool_decide (k = key) then (k, value) :: r else (k, v) :: set_env key value r
  end.

Definition mux_process_command_env (command : proc_arg) (key value : option string) : proc_state W -> result unit failure * proc_state W :=
  configure command
    (let? k := not_empty (c_string key "environment key") (Io, "environment key must not be empty") in
     let? v := c_string value "environment value" in Ok (k, v))
    (fun kv s => mk_spec (program s) (args s) (set_env kv.1 kv.2 (env s)) (cwd s) (stdin s) (stdout s) (stderr s)).

Definition mux_process_command_cwd (command : proc_arg) (v : option string) : proc_state W -> result unit failure * proc_state W :=
  configure command (not_empty (c_string v "working directory") (Io, "working directory must not be empty"))
    (fun p s => mk_spec (program s) (args s) (env s) (Some p) (stdin s) (stdout s) (stderr s)).

Inductive stream : Type := Stdin | Stdout | Stderr.
Definition set_stdio_mode (command : proc_arg) (mode : StdioMode) (field : stream) : proc_state W -> result unit failure * proc_state W :=
  configure command (Ok tt) (fun _ s =>
    match field with
    | Stdin => mk_spec (program s) (args s) (env s) (cwd s) mode (stdout s) (stderr s)
    | Stdout => mk_spec (program s) (args s) (env s) (cwd s) (stdin s) mode (stderr s)
    | Stderr => mk_spec (program s) (args s) (env s) (cwd s) (stdin s) (stdout s) mode
    end).
Definition mux_process_command_stdin_piped (c : proc_arg) : proc_state W -> result unit failure * proc_state W := set_stdio_mode c Piped Stdin.
Definition mux_process_command_stdout_piped (c : proc_arg) : proc_state W -> result unit failure * proc_state W := set_stdio_mode c Piped Stdout.
Definition mux_process_command_stderr_piped (c : proc_arg) : proc_state W -> result unit failure * proc_state W := set_stdio_mode c Piped Stderr.
Definition mux_process_command_stdin_null (c : proc_arg) : proc_state W -> result unit failure * proc_state W := set_stdio_mode c Null Stdin.
Definition mux_process_command_stdout_null (c : proc_arg) : proc_state W -> result unit failure * proc_state W := set_stdio_mode c Null Stdout.
Definition mux_process_command_stderr_null (c : proc_arg) : proc_state W -> result unit failure * proc_state W := set_stdio_mode c Null Stderr.

Definition command_spec (h : Z) (st : proc_state W) : result CommandSpec string :=
  match commands st !! h with Some (s, _) => Ok s | None => Err "invalid command handle" end.

(** The command behind an argument. *)
Definition spec_of (command : proc_arg) (st : proc_state W) : result CommandSpec failure :=
  match command_handle command with
  | None => io_error "invalid command handle"
  | Some h => match command_spec h st with Ok s => Ok s | Err m => io_error m end
  end.

(** ** Captured output *)

(** [read_captured_pipe], over what the reads of the pipe answer; the flags [overflow] and [abort]. *)
Fixpoint read_captured_pipe (chunks : list (result (list Z) string)) (output : list Z) : result (list Z) string * bool * bool :=
  match chunks with
  | [] => (Ok output, false, false)
  | Err e :: _ => (Err ("reading process output failed: " +:+ e), false, true)
  | Ok [] :: _ => (Ok output, false, false)
  | Ok chunk :: rest =>
      if MAX_PROCESS_IO_BYTES <? zlen output + zlen chunk then (Err "process output exceeded 16777216 bytes", true, true)
      else read_captured_pipe rest (output ++ chunk)
  end.

(** The loop of the parent: [abort i] is what its [i]th look at the flag gives. *)
Fixpoint await_exit (fuel : nat) (abort : nat -> bool) (i : nat) (c : Child) (w : W) : option (result (option ExitStatus) string * W) :=
  match fuel with
  | O => None
  | S fuel =>
      if abort i then
        Some (let '(s, _, w) := child_wait c (terminate_process_group (pid c) w).2 in (Ok (match s with Ok s => Some s | Err _ => None end), w))
      else
        match child_try_wait c w with
        | (Ok (Some s), _, w) => Some (Ok (Some s), w)
        | (Ok None, c, w) => await_exit fuel abort (S i) c (sleep 2000000 w)
        | (Err e, c, w) => Some (Err ("waiting for process output failed: " +:+ e), abandon c w)
        end
  end.

(** [outs] and [errs] are what the two reader threads find in the pipes. *)
Definition run_command_output (fuel : nat) (abort : nat -> bool) (outs errs : list (result (list Z) string)) (spec : CommandSpec) (w : W) : option (result Output string * W) :=
  match spawn (mk_command (mk_spec (program spec) (args spec) (env spec) (cwd spec) Null Piped Piped) true) w with
  | (Err e, w) => Some (Err ("process output failed: " +:+ e), w)
  | (Ok c, w) =>
      if negb (stdout_pipe c) then Some (Err "process output stdout pipe was not created", abandon c w)
      else if negb (stderr_pipe c) then Some (Err "process output stderr pipe was not created", abandon c w)
      else
        match await_exit fuel abort 0 c w with
        | None => None
        | Some (Err e, w) => Some (Err e, w)
        | Some (Ok s, w) =>
            let '(o, over1, _) := read_captured_pipe outs [] in
            let '(e, over2, _) := read_captured_pipe errs [] in
            Some (match o, e with
                  | Err m, _ => Err m
                  | _, Err m => Err m
                  | Ok o, Ok e =>
                      if over1 || over2 then Err "process output exceeded 16777216 bytes"
                      else match s with
                           | None => Err "process output did not produce a complete result"
                           | Some s => Ok (mk_output s o e)
                           end
                  end, w)
        end
  end.

Definition mux_process_command_output (fuel : nat) (abort : nat -> bool) (outs errs : list (result (list Z) string)) (command : proc_arg) (allocated : bool)
    (st : proc_state W) : option (result proc_arg failure * proc_state W) :=
  match spec_of command st with
  | Err e => Some (Err e, st)
  | Ok spec =>
      match run_command_output fuel abort outs errs spec (world st) with
      | None => None
      | Some (Err m, w) => Some (io_error m, set_world w st)
      | Some (Ok o, w) => Some (new_object "process output" OutputArg (insert_output o allocated (set_world w st)))
      end
  end.

Definition mux_process_command_status (command : proc_arg) (st : proc_state W) : result Z failure * proc_state W :=
  match spec_of command st with
  | Err e => (Err e, st)
  | Ok spec =>
      let '(r, w) := status (make_command spec) (world st) in
      (match r with Ok s => Ok (status_code s) | Err e => Err (Spawn, "process status failed: " +:+ e) end, set_world w st)
  end.

Definition mux_process_command_spawn (command : proc_arg) (allocated : bool) (st : proc_state W) : result proc_arg failure * proc_state W :=
  match spec_of command st with
  | Err e => (Err e, st)
  | Ok spec =>
      match spawn (make_command spec) (world st) with
      | (Ok c, w) => new_object "child" ChildArg (insert_child c allocated (set_world w st))
      | (Err e, w) => (Err (Spawn, "process spawn failed: " +:+ e), set_world w st)
      end
  end.

(** ** Children *)

(** [child_handle] and [child_mutex]. *)
Definition child_of (v : proc_arg) (st : proc_state W) : result (Z * Child) failure :=
  match child_handle v with
  | None => io_error "invalid child handle"
  | Some h => match children st !! h with Some (c, _) => Ok (h, c) | None => io_error "invalid child handle" end
  end.

(** The child of an entry after one of its pipes was closed. *)
Definition put_child (h : Z) (c : Child) (st : proc_state W) : proc_state W :=
  match children st !! h with Some (_, n) => set_children (<[h := (c, n)]> (children st)) st | None => st end.
Definition without_stdin (c : Child) : Child := mk_child (pid c) false (stdout_pipe c) (stderr_pipe c) (exited c).

(** [stdin.take()]: dropping the pipe closes it. *)
Definition take_stdin (h : Z) (c : Child) (st : proc_state W) : proc_state W :=
  if stdin_pipe c then put_child h (without_stdin c) (set_world (close_stdin (pid c) (world st)) st) else st.

Fixpoint poll (fuel : nat) (c : Child) (w : W) : option (result ExitStatus string * Child * W) :=
  match fuel with
  | O => None
  | S fuel =>
      match child_try_wait c w with
      | (Ok (Some s), c, w) => Some (Ok s, c, w)
      | (Ok None, c, w) => poll fuel c (sleep 2000000 w)
      | (Err e, c, w) => Some (Err e, c, w)
      end
  end.

Definition mux_process_child_wait (fuel : nat) (v : proc_arg) (st : proc_state W) : option (result Z failure * proc_state W) :=
  match child_of v st with
  | Err e => Some (Err e, st)
  | Ok (h, c) =>
      let st := take_stdin h c st in
      let c := if stdin_pipe c then without_stdin c else c in
      match poll fuel c (world st) with
      | None => None
      | Some (r, c, w) =>
          Some (match r with Ok s => Ok (status_code s) | Err e => io_error ("waiting for child failed: " +:+ e) end,
                put_child h c (set_world w st))
      end
  end.

Definition waited (r : result (option ExitStatus) string) : result (option Z) failure :=
  match r with
  | Ok s => Ok (status_code <$> s)
  | Err e => io_error ("checking child status failed: " +:+ e)
  end.

Definition mux_process_child_try_wait (v : proc_arg) (st : proc_state W) : result (option Z) failure * proc_state W :=
  match child_of v st with
  | Err e => (Err e, st)
  | Ok (h, c) => let '(r, c, w) := child_try_wait c (world st) in (waited r, put_child h c (set_world w st))
  end.

(** The loop of [wait_timeout]; the clock is read again to see how long to sleep. *)
Fixpoint poll_until (fuel : nat) (deadline : Z) (c : Child) (w : W) : option (result (option ExitStatus) string * Child * W) :=
  match fuel with
  | O => None
  | S fuel =>
      match child_try_wait c w with
      | (Ok (Some s), c, w) => Some (Ok (Some s), c, w)
      | (Ok None, c, w) =>
          if deadline <=? now w then Some (Ok None, c, w)
          else poll_until fuel deadline c (sleep (Z.min (Z.max 0 (deadline - now w)) 2000000) w)
      | (Err e, c, w) => Some (Err e, c, w)
      end
  end.

(** Two milliseconds a round, and a round at each end. *)
Definition timeout_fuel (timeout_ms : Z) : nat := Z.to_nat (timeout_ms / 2 + 2).

(** An [Instant] has room for any timeout that passes the check. *)
Definition mux_process_child_wait_timeout (v : proc_arg) (timeout_ms : Z) (st : proc_state W) : option (result (option Z) failure * proc_state W) :=
  if timeout_ms <? 0 then Some (io_error "timeout must not be negative", st)
  else if MAX_PROCESS_TIMEOUT_MS <? timeout_ms then Some (io_error "timeout is too large", st)
  else
    match child_of v st with
    | Err e => Some (Err e, st)
    | Ok (h, c) =>
        match poll_until (timeout_fuel timeout_ms) (now (world st) + timeout_ms * 1000000) c (world st) with
        | None => None
        | Some (r, c, w) => Some (waited r, put_child h c (set_world w st))
        end
    end.

Definition on_child {A} (v : proc_arg) (f : Child -> W -> result A string * W) (st : proc_state W) : result A failure * proc_state W :=
  match child_of v st with
  | Err e => (Err e, st)
  | Ok (_, c) =>
      let '(r, w) := f c (world st) in (match r with Ok a => Ok a | Err e => io_error e end, set_world w st)
  end.

Definition mux_process_child_kill (v : proc_arg) : proc_state W -> result unit failure * proc_state W :=
  on_child v (fun c w => let '(r, w) := child_kill c w in (match r with Ok _ => Ok tt | Err e => Err ("killing child failed: " +:+ e) end, w)).

Definition mux_process_child_kill_group (v : proc_arg) : proc_state W -> result unit failure * proc_state W :=
  on_child v (fun c w => terminate_process_group (pid c) w).

Definition process_io_size (size : Z) : result Z string :=
  if size <? 0 then Err "invalid buffer size"
  else if (size =? 0) || (MAX_PROCESS_IO_BYTES <? size) then Err "buffer size must be between 1 and 16777216 bytes"
  else Ok size.

Definition process_input_bytes (v : option value) : result (list Z) string :=
  match v with None => Err "input is null" | Some (VBytes bs) => Ok bs | Some _ => Err "input must be bytes" end.

Definition mux_process_child_write_stdin (v : proc_arg) (input : option value) (st : proc_state W) : result Z failure * proc_state W :=
  match child_handle v, process_input_bytes input with
  | None, _ => (io_error "invalid child handle", st)
  | _, Err m => (io_error m, st)
  | _, Ok bytes =>
      on_child v (fun c w =>
        if negb (stdin_pipe c) then (Err "child stdin is not piped", w)
        else
          match write_stdin (pid c) bytes w with
          | (Ok n, w) => (if i64_max <? n then Err "written byte count exceeds the Mux integer range" else Ok n, w)
          | (Err e, w) => (Err ("writing child stdin failed: " +:+ e), w)
          end) st
  end.

Definition mux_process_child_close_stdin (v : proc_arg) (st : proc_state W) : result unit failure * proc_state W :=
  match child_of v st with
  | Err e => (Err e, st)
  | Ok (h, c) =>
      if stdin_pipe c then (Ok tt, take_stdin h c st) else (io_error "child stdin is not piped or is already closed", st)
  end.

Definition read_child_pipe (v : proc_arg) (size : Z) (err : bool) (st : proc_state W) : result (list Z) failure * proc_state W :=
  match process_io_size size with
  | Err m => (io_error m, st)
  | Ok size =>
      on_child v (fun c w =>
        if err && negb (stderr_pipe c) then (Err "child stderr is not piped", w)
        else if negb err && negb (stdout_pipe c) then (Err "child stdout is not piped", w)
        else
          match read_pipe err (pid c) size w with
          | (Ok bytes, w) => (Ok (take (Z.to_nat size) bytes), w)
          | (Err e, w) => (Err ("reading child pipe failed: " +:+ e), w)
          end) st
  end.
Definition mux_process_child_read_stdout (v : proc_arg) (size : Z) : proc_state W -> result (list Z) failure * proc_state W := read_child_pipe v size false.
Definition mux_process_child_read_stderr (v : proc_arg) (size : Z) : proc_state W -> result (list Z) failure * proc_state W := read_child_pipe v size true.

(** ** Outputs *)

Definition output_of (v : proc_arg) (st : proc_state W) : result Output failure :=
  match output_handle v with
  | None => io_error "invalid process output handle"
  | Some h => match outputs st !! h with Some (o, _) => Ok o | None => io_error "invalid process output handle" end
  end.
Definition mux_process_output_status (v : proc_arg) (st : proc_state W) : result Z failure := let? o := output_of v st in Ok (status_code (out_status o)).
Definition output_bytes (v : proc_arg) (err : bool) (st : proc_state W) : result (list Z) failure :=
  let? o := output_of v st in Ok (if err then out_stderr o else out_stdout o).
Definition mux_process_output_stdout (v : proc_arg) : proc_state W -> result (list Z) failure := output_bytes v false.
Definition mux_process_output_stderr (v : proc_arg) : proc_state W -> result (list Z) failure := output_bytes v true.

End Processes.
End Process.
