(* ===== verification/ProcessProps.v ===== *)
(** * Children are never abandoned ([Process])

    What the kernel promises about processes is the class [ProcessLaws]; the module
    [Machine] is a small kernel that keeps it. *)

From S2P Require Import Prelude Value SyncProps StdErrors Utf8 Stream Process.
Import HandleLemmas Process.

(** What can be seen of a kernel: [unreaped p w], the process [p] was started by this program
    and its status has not been collected; [refused w], the processes that could not be
    waited for, because a wait answered with an error since they were started. *)
Class ProcessView (W : Type) : Type := {
  unreaped : Z -> W -> Prop;
  refused : W -> list Z;
}.

Definition untouched {W} `{ProcessView W} (w w' : W) : Prop := (forall p, unreaped p w' <-> unreaped p w) /\ refused w' = refused w.

(** Only a wait that succeeds collects a process; a wait that fails leaves it where it was.
    [status] starts a process and waits for it, so it leaves one behind only if that wait
    failed. *)
Class ProcessLaws (W : Type) `{ProcessOs W, ProcessView W} : Prop := {
  kernel_spawn c w : match spawn c w with
    | (Ok ch, w') => exited ch = None /\ ~ unreaped (pid ch) w /\ (forall p, unreaped p w' <-> unreaped p w \/ p = pid ch) /\
        forall p, p ∈ refused w' <-> p ∈ refused w /\ p <> pid ch
    | (Err _, w') => untouched w w'
    end;
  kernel_status c w : match status c w with
    | (Ok _, w') => untouched w w'
    | (Err _, w') => forall p, (unreaped p w -> unreaped p w') /\ (unreaped p w' -> unreaped p w \/ p ∈ refused w') /\
        (p ∈ refused w -> p ∈ refused w') /\ (p ∈ refused w' -> p ∈ refused w \/ ~ unreaped p w)
    end;
  kernel_try_wait q w : match try_wait q w with
    | (Ok (Some _), w') => (forall p, unreaped p w' <-> unreaped p w /\ p <> q) /\ refused w' = refused w
    | (_, w') => untouched w w'
    end;
  kernel_wait q w : match wait q w with
    | (Ok _, w') => (forall p, unreaped p w' <-> unreaped p w /\ p <> q) /\ refused w' = refused w
    | (Err _, w') => (forall p, unreaped p w' <-> unreaped p w) /\ refused w' = q :: refused w
    end;
  kernel_kill q w : untouched w (kill q w).2;
  kernel_kill_group q w : untouched w (kill_group q w).2;
  kernel_close q w : untouched w (close_stdin q w);
  kernel_write q bs w : untouched w (write_stdin q bs w).2;
  kernel_read e q n w : untouched w (read_pipe e q n w).2;
  kernel_sleep d w : untouched w (sleep d w);
  law_clock_sleep d w : 0 <= d -> now w + d <= now (sleep d w);
  law_clock_wait q w : now w <= now (try_wait q w).2;
}.

Section Reaping.
Context {W : Type} {kernel_os : ProcessOs W} {kernel_view : ProcessView W} {kernel_laws : ProcessLaws W}.

(** A process that is neither collected nor given up. *)
Definition pending (p : Z) (w : W) : Prop := unreaped p w /\ p ∉ refused w.

Definition same (w w' : W) : Prop := forall p, pending p w' <-> pending p w.
Definition reaps (q : Z) (w w' : W) : Prop := forall p, pending p w' <-> pending p w /\ p <> q.

Lemma untouched_same w w' : untouched w w' -> same w w'.
Proof. intros [Hu Hr] p. unfold pending. by rewrite (Hu p), Hr. Qed.

Lemma law_spawn c w : match spawn c w with
  | (Ok ch, w') => exited ch = None /\ ~ pending (pid ch) w /\ forall p, pending p w' <-> pending p w \/ p = pid ch
  | (Err _, w') => same w w'
  end.
Proof.
  pose proof (kernel_spawn c w) as Hk. destruct (spawn c w) as [[ch|e] w']; [|by apply untouched_same].
  destruct Hk as (E & Hf & Hu & Hr). split_and!; [done|by intros []|]. intros p. unfold pending. rewrite (Hu p), (Hr p).
  destruct (decide (p = pid ch)) as [->|Hne]; tauto.
Qed.

Lemma law_status c w : same w (status c w).2.
Proof.
  pose proof (kernel_status c w) as Hk. destruct (status c w) as [[s|e] w']; [by apply untouched_same|].
  intros p. destruct (Hk p) as (K1 & K2 & K3 & K4). unfold pending. tauto.
Qed.

Lemma law_try_wait q w p : match try_wait q w with
  | (Ok (Some _), w') => pending p w' <-> pending p w /\ p <> q
  | (_, w') => pending p w' <-> pending p w
  end.
Proof.
  pose proof (kernel_try_wait q w) as Hk. destruct (try_wait q w) as [[[s|]|e] w']; try by apply untouched_same.
  destruct Hk as [Hu Hr]. unfold pending. rewrite (Hu p), Hr. tauto.
Qed.

(** After a wait the process is collected, or given up. *)
Lemma law_wait q w : reaps q w (wait q w).2.
Proof.
  pose proof (kernel_wait q w) as Hk. intros p. unfold pending.
  destruct (wait q w) as [[s|e] w']; destruct Hk as [Hu Hr]; cbn [snd]; rewrite (Hu p), Hr, ?not_elem_of_cons; tauto.
Qed.

Lemma law_kill q w : same w (kill q w).2.
Proof. apply untouched_same, kernel_kill. Qed.
Lemma law_kill_group q w : same w (kill_group q w).2.
Proof. apply untouched_same, kernel_kill_group. Qed.
Lemma law_close q w : same w (close_stdin q w).
Proof. apply untouched_same, kernel_close. Qed.
Lemma law_write q bs w : same w (write_stdin q bs w).2.
Proof. apply untouched_same, kernel_write. Qed.
Lemma law_read e q n w : same w (read_pipe e q n w).2.
Proof. apply untouched_same, kernel_read. Qed.
Lemma law_sleep d w : same w (sleep d w).
Proof. apply untouched_same, kernel_sleep. Qed.

Lemma terminate_same p w : same w (terminate_process_group p w).2.
Proof.
  unfold terminate_process_group, same. intros q. case_match; [done|]. pose proof (law_kill_group p w q) as Hl.
  destruct (kill_group p w) as [[[[] e]|] w']; done.
Qed.

Lemma abandon_reaps c w : match exited c with None => reaps (pid c) w (abandon c w) | Some _ => same w (abandon c w) end.
Proof.
  pose proof (terminate_same (pid c) w) as Ht. unfold abandon, child_wait. destruct (exited c) as [s|]; [done|].
  intros p. set (w1 := (terminate_process_group (pid c) w).2) in *. pose proof (law_wait (pid c) w1 p) as Hw.
  destruct (wait (pid c) w1) as [[s|e] w2]; cbn in *; rewrite Hw; by rewrite (Ht p).
Qed.

(** A child after waiting for it: as before, or reaped now. *)
Definition moved (c : Child) (w : W) (c' : Child) (w' : W) : Prop :=
  pid c' = pid c /\ (exited c' = exited c /\ same w w' \/ exited c = None /\ is_Some (exited c') /\ reaps (pid c) w w').

Lemma moved_refl c w w' : same w w' -> moved c w c w'.
Proof. intros Hs. split; [done|]. by left. Qed.

Lemma moved_trans c1 w1 c2 w2 c3 w3 : moved c1 w1 c2 w2 -> moved c2 w2 c3 w3 -> moved c1 w1 c3 w3.
Proof.
  intros [P1 [[E1 S1]|(E1 & [s E1'] & R1)]] [P2 [[E2 S2]|(E2 & E2' & R2)]]; (split; [congruence|]).
  - left. split; [congruence|]. intros p. by rewrite (S2 p), (S1 p).
  - right. split_and!; [congruence|done|]. intros p. rewrite (R2 p), (S1 p), P1. done.
  - right. split_and!; [done|rewrite E2; by eexists|]. intros p. by rewrite (S2 p), (R1 p).
  - congruence.
Qed.

Lemma try_wait_moved c w r c' w' : child_try_wait c w = (r, c', w') -> moved c w c' w' /\ (r = Ok None -> exited c' = None).
Proof.
  unfold child_try_wait. destruct (exited c) as [s|] eqn:E.
  - intros [= <- <- <-]. split; [by apply moved_refl|done].
  - assert (Hl := fun p => law_try_wait (pid c) w p). destruct (try_wait (pid c) w) as [[[s|]|e] w1]; intros [= <- <- <-].
    + split; [|done]. split; [done|]. right. split_and!; [done|by eexists|exact Hl].
    + split; [by apply moved_refl|done].
    + split; [by apply moved_refl|done].
Qed.

Lemma poll_moved fuel : forall c w r c' w', poll fuel c w = Some (r, c', w') -> moved c w c' w'.
Proof.
  induction fuel as [|fuel IH]; intros c w r c' w'; cbn [poll]; [done|].
  destruct (child_try_wait c w) as [[[[s|]|e] c1] w1] eqn:E; apply try_wait_moved in E as [Hm _].
  - by intros [= <- <- <-].
  - intros Hp%IH. eapply moved_trans; [exact Hm|]. eapply moved_trans; [|exact Hp]. apply moved_refl. intros p. apply law_sleep.
  - by intros [= <- <- <-].
Qed.

Lemma poll_until_moved fuel deadline : forall c w r c' w', poll_until fuel deadline c w = Some (r, c', w') -> moved c w c' w'.
Proof.
  induction fuel as [|fuel IH]; intros c w r c' w'; cbn [poll_until]; [done|].
  destruct (child_try_wait c w) as [[[[s|]|e] c1] w1] eqn:E; apply try_wait_moved in E as [Hm _].
  - by intros [= <- <- <-].
  - case_match; [by intros [= <- <- <-]|]. intros Hp%IH. eapply moved_trans; [exact Hm|].
    eapply moved_trans; [|exact Hp]. apply moved_refl. intros p. apply law_sleep.
  - by intros [= <- <- <-].
Qed.

(** Waiting with a timeout ends: every round sleeps two milliseconds or up to the deadline. *)
Lemma poll_until_ends fuel deadline : forall c w, deadline - now w <= (Z.of_nat fuel - 1) * 2000000 -> (0 < fuel)%nat ->
  is_Some (poll_until fuel deadline c w).
Proof.
  induction fuel as [|fuel IH]; intros c w Hd Hf; [lia|]. cbn [poll_until].
  assert (Hc : now w <= now (child_try_wait c w).2).
  { unfold child_try_wait. destruct (exited c); [cbn; lia|]. pose proof (law_clock_wait (pid c) w).
    destruct (try_wait (pid c) w) as [[[s|]|e] w1]; done. }
  destruct (child_try_wait c w) as [[[[s|]|e] c1] w1]; [by eexists| |by eexists]. cbn in Hc.
  destruct (Z.leb_spec deadline (now w1)); [by eexists|].
  set (d := Z.min (Z.max 0 (deadline - now w1)) 2000000). assert (Hs : 0 <= d) by (subst d; lia). pose proof (law_clock_sleep d w1 Hs).
  apply IH; subst d; destruct fuel; lia.
Qed.

(** Output is captured by a child that is gone when the call returns. *)
Lemma await_exit_reaps fuel abort : forall i c w r w', exited c = None -> await_exit fuel abort i c w = Some (r, w') -> reaps (pid c) w w'.
Proof.
  induction fuel as [|fuel IH]; intros i c w r w' Ec; cbn [await_exit]; [done|]. destruct (abort i).
  - pose proof (abandon_reaps c w) as Ha. rewrite Ec in Ha. unfold abandon in Ha.
    destruct (child_wait c (terminate_process_group (pid c) w).2) as [[s c'] w2]. by intros [= <- <-].
  - destruct (child_try_wait c w) as [[[[s|]|e] c1] w1] eqn:E; pose proof (try_wait_moved _ _ _ _ _ E) as [Hm Hn].
    + intros [= <- <-]. destruct Hm as [_ [[E1 _]|(_ & _ & R)]]; [|done]. unfold child_try_wait in E. rewrite Ec in E.
      destruct (try_wait (pid c) w) as [[[s'|]|e'] w2]; try done. injection E as <- <- <-. cbn in E1. congruence.
    + specialize (Hn eq_refl). intros Hp%IH; [|done]. destruct Hm as [P [[_ S]|(_ & [? ?] & _)]]; [|congruence].
      intros p. rewrite (Hp p), (law_sleep 2000000 w1 p), (S p), P. done.
    + intros [= <- <-]. unfold child_try_wait in E. rewrite Ec in E.
      assert (Hl := fun p => law_try_wait (pid c) w p). destruct (try_wait (pid c) w) as [[[s'|]|e'] w2]; try done. injection E as -> <- ->.
      pose proof (abandon_reaps c w1) as Ha. rewrite Ec in Ha. intros p. by rewrite (Ha p), (Hl p).
Qed.

Lemma run_command_output_same fuel abort outs errs spec w r w' : run_command_output fuel abort outs errs spec w = Some (r, w') -> same w w'.
Proof.
  unfold run_command_output. match goal with |- context [spawn ?cmd w] => pose proof (law_spawn cmd w) as Hs; destruct (spawn cmd w) as [[c|e] w1] end.
  2: { by intros [= <- <-]. }
  destruct Hs as (Ec & Hfresh & Hs). assert (Hr : forall w2, reaps (pid c) w1 w2 -> same w w2).
  { intros w2 R p. rewrite (R p), (Hs p). split; [intros [[?|?] ?]; [done|done]|]. intros Hp. split; [by left|]. intros ->. done. }
  pose proof (abandon_reaps c w1) as Ha. rewrite Ec in Ha.
  case_match; [intros [= <- <-]; by apply Hr|]. case_match; [intros [= <- <-]; by apply Hr|].
  destruct (await_exit fuel abort 0 c w1) as [[[s|e] w2]|] eqn:E; [| |done]; apply await_exit_reaps in E; try done.
  - destruct (read_captured_pipe outs []) as [[o o1] a1], (read_captured_pipe errs []) as [[e o2] a2]. intros [= <- <-]. by apply Hr.
  - intros [= <- <-]. by apply Hr.
Qed.


(** ** The table of children *)

Section Owned.
Context (base : Z -> Prop).

(** A child of the table whose status was not collected. *)
Definition awaited (p : Z) (m : gmap Z (Child * Z)) : Prop := exists h c n, m !! h = Some (c, n) /\ exited c = None /\ pid c = p.

Lemma awaited_split p m h c n : m !! h = Some (c, n) -> awaited p m <-> (exited c = None /\ pid c = p) \/ awaited p (delete h m).
Proof.
  intros Hh. split.
  - intros (x & cx & nx & Hx & Ex & Px). destruct (decide (x = h)) as [->|Hne]; [left; naive_solver|]. right. exists x, cx, nx. by rewrite lookup_delete_ne.
  - intros [[Ex Px]|(x & cx & nx & Hx & Ex & Px)]; [by exists h, c, n|]. apply lookup_delete_Some in Hx as [_ Hx]. by exists x, cx, nx.
Qed.

(** A child whose status was not collected is in the table, once; the others are [base]. *)
Record owned (kids : list Z) (st : proc_state W) : Prop := {
  ow_next : 1 <= next_handle st;
  ow_live h : h ∈ kids -> is_Some (children st !! h);
  ow_names h c n : children st !! h = Some (c, n) -> 0 < h < next_handle st /\ n = occ h kids /\ 0 < n;
  ow_pids p : pending p (world st) <-> base p \/ awaited p (children st);
  ow_once h h' c c' n n' : children st !! h = Some (c, n) -> children st !! h' = Some (c', n') ->
    exited c = None -> exited c' = None -> pid c = pid c' -> h = h';
  ow_apart h c n : children st !! h = Some (c, n) -> exited c = None -> ~ base (pid c);
}.

Lemma owned_perm kids kids' st : kids ≡ₚ kids' -> owned kids st -> owned kids' st.
Proof.
  intros Hp [O1 O2 O3 O4 O5 O6]. split; try done.
  - intros h. rewrite <- Hp. apply O2.
  - intros h c n Hh. apply O3 in Hh. unfold occ in *. by rewrite <- (Permutation_length (filter_Permutation _ _ _ Hp)).
Qed.

Lemma owned_same kids st st' : owned kids st -> children st' = children st -> next_handle st <= next_handle st' ->
  same (world st) (world st') -> owned kids st'.
Proof.
  intros [O1 O2 O3 O4 O5 O6] Hc Hn Hw. split; rewrite ?Hc; try done; [lia| |].
  - intros h c n Hh. apply O3 in Hh. lia.
  - intros p. by rewrite (Hw p).
Qed.

(** One entry changes, its names too. *)
Lemma owned_update kids kids' st h c n c' w' : owned kids st -> children st !! h = Some (c, n) -> moved c (world st) c' w' ->
  0 < occ h kids' -> (forall x, x <> h -> occ x kids' = occ x kids) ->
  owned kids' (set_world w' (set_children (<[h := (c', occ h kids')]> (children st)) st)).
Proof.
  intros [O1 O2 O3 O4 O5 O6] Hh [Hp Hm] Hpos Ho. pose proof (O3 _ _ _ Hh) as (Hr & _).
  assert (Hex : exited c' = None -> exited c = None) by (intros E; destruct Hm as [[? _]|(? & [? ?] & _)]; congruence).
  split; cbn [children next_handle world set_world set_children]; [done| | | | |].
  - intros x Hx. destruct (decide (x = h)) as [->|Hne]; [by rewrite lookup_insert_eq|]. rewrite lookup_insert_ne by done.
    apply O2, occ_pos. rewrite <- Ho by done. by apply occ_pos.
  - intros x cx nx. destruct (decide (x = h)) as [->|Hne].
    + rewrite lookup_insert_eq. intros [= <- <-]. done.
    + rewrite lookup_insert_ne, Ho by done. apply O3.
  - intros p. rewrite (awaited_split p _ h c' (occ h kids')) by apply lookup_insert_eq. rewrite delete_insert_eq.
    pose proof (O4 p) as Hold. rewrite (awaited_split p _ h c n Hh) in Hold. destruct Hm as [[E S]|(E & [s E'] & R)].
    + by rewrite (S p), Hold, E, Hp.
    + rewrite (R p), Hold, E'. split; [naive_solver|]. intros [Hb|[[? ?]|Ha]]; [| done |].
      * split; [by left|]. intros ->. by apply (O6 _ _ _ Hh E).
      * split; [by right; right|]. intros ->. destruct Ha as (x & cx & nx & Hx & Ex & Px). apply lookup_delete_Some in Hx as [Hne Hx].
        apply Hne. by eapply (O5 h x).
  - intros x x' cx cx' nx nx'. destruct (decide (x = h)) as [->|Hx], (decide (x' = h)) as [->|Hx']; try done;
      rewrite ?lookup_insert_eq, ?lookup_insert_ne by done; intros H1 H2 E1 E2 EP; simplify_eq.
    + eapply (O5 h x'); eauto. congruence.
    + eapply (O5 x h); eauto. congruence.
    + by eapply O5.
  - intros x cx nx. destruct (decide (x = h)) as [->|Hx]; rewrite ?lookup_insert_eq, ?lookup_insert_ne by done; intros Hx' Ex; simplify_eq.
    + rewrite Hp. eapply O6; eauto.
    + by eapply O6.
Qed.

(** The child of an entry was waited for. *)
Lemma owned_put kids st h c n c' w' : owned kids st -> children st !! h = Some (c, n) -> moved c (world st) c' w' ->
  owned kids (put_child h c' (set_world w' st)).
Proof.
  intros Ho Hh Hm. unfold put_child. cbn [set_world children]. rewrite Hh. destruct (ow_names _ _ Ho _ _ _ Hh) as (_ & -> & Hn).
  by apply (owned_update kids kids st h c (occ h kids) c' w' Ho Hh Hm).
Qed.

Lemma put_child_lookup h c' (st : proc_state W) c n : children st !! h = Some (c, n) -> children (put_child h c' st) !! h = Some (c', n) /\ world (put_child h c' st) = world st.
Proof. intros Hh. unfold put_child. rewrite Hh. cbn. by rewrite lookup_insert_eq. Qed.

(** A process that was just started gets an entry, or is reaped again. *)
Lemma owned_insert kids st c (allocated : bool) : owned kids st -> next_handle st < i64_max ->
  forall w, exited c = None -> ~ pending (pid c) (world st) -> (forall p, pending p w <-> pending p (world st) \/ p = pid c) ->
  owned (if allocated then next_handle st :: kids else kids) (insert_child c allocated (set_world w st)).2.
Proof.
  intros Ho Hn w Ec Hf Hw. pose proof Ho as [O1 O2 O3 O4 O5 O6]. set (h := next_handle st) in *.
  assert (Hnone : children st !! h = None). { destruct (children st !! h) as [[c' n]|] eqn:E; [|done]. apply O3 in E. subst h. lia. }
  assert (Hz : occ h kids = 0).
  { pose proof (occ_bound h kids). destruct (decide (0 < occ h kids)) as [Hp%occ_pos|]; [|lia]. apply O2 in Hp as [? ?]. congruence. }
  assert (Ha : after h = h + 1) by (unfold after; by rewrite (proj2 (Z.eqb_neq h i64_max)) by (subst h; lia)).
  unfold insert_child. cbn [set_world bump set_children children next_handle world commands outputs]. fold h. destruct allocated; cbn [snd].
  - assert (Hocc : forall x, occ x (h :: kids) = (if x =? h then 1 else 0) + occ x kids) by (intros x; by rewrite <- occ_one, <- occ_concat).
    split; cbn [children next_handle world set_children bump set_world commands outputs]; fold h; [rewrite Ha; subst h; lia| | | | |].
    + intros x [->|Hx]%elem_of_cons; [by rewrite lookup_insert_eq|]. rewrite lookup_insert_ne; [by apply O2|]. intros <-. apply O2 in Hx as [? ?]. congruence.
    + intros x cx nx. rewrite Hocc, Ha. destruct (decide (x = h)) as [->|Hne].
      * rewrite lookup_insert_eq, Z.eqb_refl. intros [= <- <-]. subst h. lia.
      * rewrite lookup_insert_ne, (proj2 (Z.eqb_neq x h)) by done. intros Hx%O3. subst h. lia.
    + intros p. rewrite (awaited_split p _ h c 1) by apply lookup_insert_eq. rewrite delete_insert_id, Hw, O4 by done. naive_solver.
    + intros x x' cx cx' nx nx'. destruct (decide (x = h)) as [->|Hx], (decide (x' = h)) as [->|Hx']; try done;
        rewrite ?lookup_insert_eq, ?lookup_insert_ne by done; intros H1 H2 E1 E2 EP; simplify_eq; [| |by eapply O5].
      * exfalso. apply Hf, O4. right. by exists x', cx', nx'.
      * exfalso. apply Hf, O4. right. by exists x, cx, nx.
    + intros x cx nx. destruct (decide (x = h)) as [->|Hx]; rewrite ?lookup_insert_eq, ?lookup_insert_ne by done; intros Hx' Ex; simplify_eq; [|by eapply O6].
      intros Hb. apply Hf, O4. by left.
  - apply (owned_same kids st); [done|cbn; by apply delete_insert_id|cbn; fold h; rewrite Ha; lia|]. cbn [world]. intros p.
    pose proof (abandon_reaps c w) as Hr. rewrite Ec in Hr. rewrite (Hr p), (Hw p). split; [naive_solver|]. intros Hp. split; [by left|]. intros ->. done.
Qed.

Lemma owned_copy kids st h : owned kids st -> h ∈ kids -> Z.of_nat (length kids) < 2 ^ 63 ->
  (copy_child h st).1 = h /\ owned (h :: kids) (copy_child h st).2 /\ next_handle (copy_child h st).2 = next_handle st.
Proof.
  intros Ho Hin Hl. destruct (ow_live _ _ Ho h Hin) as [[c n] Hh]. destruct (ow_names _ _ Ho _ _ _ Hh) as (_ & -> & Hn).
  unfold copy_child, copy_handle. rewrite Hh. cbn [fst snd]. split; [done|]. split; [|done].
  assert (Hocc : forall x, occ x (h :: kids) = (if x =? h then 1 else 0) + occ x kids) by (intros x; by rewrite <- occ_one, <- occ_concat).
  pose proof (Hocc h) as Hs. rewrite Z.eqb_refl in Hs. pose proof (occ_bound h kids).
  replace ((occ h kids + 1) mod 2 ^ 64) with (occ h (h :: kids)) by (rewrite Z.mod_small; lia).
  apply (owned_update kids (h :: kids) st h c _ c (world st) Ho Hh); [by apply moved_refl|lia|].
  intros x Hx. rewrite Hocc. by rewrite (proj2 (Z.eqb_neq x h)).
Qed.

(** The last name of a child: its process is gone, or was reaped before. *)
Lemma owned_release kids st h : owned (h :: kids) st -> owned kids (release_child h st) /\ next_handle (release_child h st) = next_handle st.
Proof.
  intros Ho. destruct (ow_live _ _ Ho h) as [[c n] Hh]; [by left|]. destruct (ow_names _ _ Ho _ _ _ Hh) as (Hr & -> & Hn).
  assert (Hocc : forall x, occ x (h :: kids) = (if x =? h then 1 else 0) + occ x kids) by (intros x; by rewrite <- occ_one, <- occ_concat).
  pose proof (Hocc h) as Hs. rewrite Z.eqb_refl in Hs. pose proof (occ_bound h kids).
  assert (Ho' : forall x, x <> h -> occ x kids = occ x (h :: kids)) by (intros x Hx; by rewrite Hocc, (proj2 (Z.eqb_neq x h))).
  unfold release_child, release_handle. rewrite Hh. destruct (Z.eqb_spec (Z.max 0 (occ h (h :: kids) - 1)) 0) as [E0|E0].
  2: { split; [|done]. replace (Z.max 0 (occ h (h :: kids) - 1)) with (occ h kids) by lia.
       apply (owned_update (h :: kids) kids st h c _ c (world st) Ho Hh); [by apply moved_refl|lia|done]. }
  split; [|done]. cbn [set_children world]. pose proof (abandon_reaps c (world st)) as Ha. destruct Ho as [O1 O2 O3 O4 O5 O6].
  assert (Hnin : h ∉ kids) by (intros ?%occ_pos; lia).
  split; cbn [children next_handle world set_world set_children]; [done| | | | |].
  - intros x Hx. rewrite lookup_delete_ne by (by intros <-). apply O2. by right.
  - intros x cx nx [Hne Hx]%lookup_delete_Some. rewrite Ho' by done. by apply (O3 _ cx).
  - intros p. pose proof (O4 p) as Hold. rewrite (awaited_split p _ h c _ Hh) in Hold. destruct (exited c) eqn:Ec.
    + rewrite (Ha p), Hold. naive_solver.
    + rewrite (Ha p), Hold. split; [naive_solver|]. intros [Hb|Hd]; (split; [tauto|]); intros ->; [by apply (O6 _ _ _ Hh Ec)|].
      destruct Hd as (x & cx & nx & Hx & Ex & Px). apply lookup_delete_Some in Hx as [Hne Hx]. apply Hne. by eapply (O5 h x).
  - intros x x' cx cx' nx nx' [_ Hx]%lookup_delete_Some [_ Hx']%lookup_delete_Some. by eapply O5.
  - intros x cx nx [_ Hx]%lookup_delete_Some. by eapply O6.
Qed.

(** ** Programs *)

Inductive op : Type :=
| NewCommand (allocated : bool)
| Shell (line : option string) (allocated : bool)
| SetProgram (v : proc_arg) (s : option string)
| AddArg (v : proc_arg) (s : option string)
| SetEnv (v : proc_arg) (key value : option string)
| SetCwd (v : proc_arg) (s : option string)
| SetStdio (v : proc_arg) (m : StdioMode) (f : stream)
| CopyCommand (h : Z)
| DropCommand (h : Z)
| CopyOutput (h : Z)
| DropOutput (h : Z)
| RunOutput (fuel : nat) (abort : nat -> bool) (outs errs : list (result (list Z) string)) (v : proc_arg) (allocated : bool)
| RunStatus (v : proc_arg)
| SpawnChild (v : proc_arg) (allocated : bool)
| CopyChild (i : nat)
| DropChild (i : nat)
| Wait (fuel : nat) (v : proc_arg)
| TryWait (v : proc_arg)
| WaitTimeout (v : proc_arg) (ms : Z)
| Kill (v : proc_arg)
| KillGroup (v : proc_arg)
| WriteStdin (v : proc_arg) (input : option value)
| CloseStdin (v : proc_arg)
| ReadPipe (v : proc_arg) (size : Z) (err : bool).

(** The child objects of the program, and the state; [None] while a call waits. *)
Definition client : Type := list Z * proc_state W.

Definition step (cl : client) (o : op) : option client :=
  let '(kids, st) := cl in
  match o with
  | NewCommand a => Some (kids, (mux_process_command_new a st).2)
  | Shell l a => Some (kids, (mux_process_command_shell l a st).2)
  | SetProgram v s => Some (kids, (mux_process_command_set_program v s st).2)
  | AddArg v s => Some (kids, (mux_process_command_arg v s st).2)
  | SetEnv v k x => Some (kids, (mux_process_command_env v k x st).2)
  | SetCwd v s => Some (kids, (mux_process_command_cwd v s st).2)
  | SetStdio v m f => Some (kids, (set_stdio_mode v m f st).2)
  | CopyCommand h => Some (kids, (copy_command h st).2)
  | DropCommand h => Some (kids, release_command h st)
  | CopyOutput h => Some (kids, (copy_output h st).2)
  | DropOutput h => Some (kids, release_output h st)
  | RunOutput fuel abort outs errs v a =>
      match mux_process_command_output fuel abort outs errs v a st with Some (_, st) => Some (kids, st) | None => None end
  | RunStatus v => Some (kids, (mux_process_command_status v st).2)
  | SpawnChild v a =>
      match mux_process_command_spawn v a st with
      | (Ok (ChildArg h), st) => Some (kids ++ [h], st)
      | (_, st) => Some (kids, st)
      end
  | CopyChild i => match kids !! i with Some h => let '(h', st) := copy_child h st in Some (kids ++ [h'], st) | None => Some cl end
  | DropChild i => match kids !! i with Some h => Some (delete i kids, release_child h st) | None => Some cl end
  | Wait fuel v => match mux_process_child_wait fuel v st with Some (_, st) => Some (kids, st) | None => None end
  | TryWait v => Some (kids, (mux_process_child_try_wait v st).2)
  | WaitTimeout v ms => match mux_process_child_wait_timeout v ms st with Some (_, st) => Some (kids, st) | None => None end
  | Kill v => Some (kids, (mux_process_child_kill v st).2)
  | KillGroup v => Some (kids, (mux_process_child_kill_group v st).2)
  | WriteStdin v b => Some (kids, (mux_process_child_write_stdin v b st).2)
  | CloseStdin v => Some (kids, (mux_process_child_close_stdin v st).2)
  | ReadPipe v n e => Some (kids, (read_child_pipe v n e st).2)
  end.

Fixpoint run (ops : list op) (cl : client) : option client :=
  match ops with [] => Some cl | o :: r => match step cl o with Some cl => run r cl | None => None end end.

Definition pinv (k : Z) (cl : client) : Prop := owned cl.1 cl.2 /\ next_handle cl.2 <= 1 + k /\ Z.of_nat (length cl.1) <= k.

(** An operation that touches neither the children nor the processes. *)
Definition neutral (st st' : proc_state W) : Prop :=
  children st' = children st /\ same (world st) (world st') /\ (next_handle st' = next_handle st \/ next_handle st' = after (next_handle st)).

Lemma pinv_neutral k kids st st' : pinv k (kids, st) -> k < 2 ^ 62 -> neutral st st' -> pinv (k + 1) (kids, st').
Proof.
  intros (Ho & Hn & Hl) Hk (Hc & Hs & Hh). cbn [fst snd] in *. pose proof (ow_next _ _ Ho). unfold after in Hh.
  rewrite (proj2 (Z.eqb_neq _ i64_max)) in Hh by width. split_and!; cbn [fst snd]; [|lia|lia]. eapply owned_same; [done..|lia|done].
Qed.

Lemma configure_neutral {A} v (a : result A failure) f st : neutral st (configure v a f st).2.
Proof. unfold configure, neutral. repeat case_match; by split_and!; [|done|left]. Qed.

Lemma on_child_neutral {A} v (f : Child -> W -> result A string * W) st : (forall c w, same w (f c w).2) -> neutral st (on_child v f st).2.
Proof.
  intros Hf. unfold on_child, neutral. destruct (child_of v st) as [[h c]|e]; [|by split_and!; [|done|left]].
  pose proof (Hf c (world st)) as Hs. destruct (f c (world st)) as [r w]. by split_and!; [| |left].
Qed.

(** An entry found through an argument. *)
Lemma child_of_lookup v (st : proc_state W) h c : child_of v st = Ok (h, c) -> exists n, children st !! h = Some (c, n).
Proof.
  unfold child_of. destruct (child_handle v) as [h'|]; [|done]. destruct (children st !! h') as [[c' n]|] eqn:E; [|done]. intros [= <- <-]. by exists n.
Qed.

Lemma pinv_put k kids st h c n c' w' : pinv k (kids, st) -> children st !! h = Some (c, n) -> moved c (world st) c' w' ->
  pinv (k + 1) (kids, put_child h c' (set_world w' st)).
Proof.
  intros (Ho & Hn & Hl) Hh Hm. cbn [fst snd] in *. split_and!; cbn [fst snd]; [by eapply owned_put| |lia].
  unfold put_child. case_match; [by destruct p; cbn; lia|cbn; lia].
Qed.

Lemma take_stdin_owned kids st h c n : owned kids st -> children st !! h = Some (c, n) ->
  owned kids (take_stdin h c st) /\ next_handle (take_stdin h c st) = next_handle st /\
  children (take_stdin h c st) !! h = Some (if stdin_pipe c then without_stdin c else c, n).
Proof.
  intros Ho Hh. unfold take_stdin. destruct (stdin_pipe c); [|done]. split_and!.
  - eapply owned_put; [done..|]. split; [done|]. left. split; [done|]. intros p. apply law_close.
  - unfold put_child. cbn [set_world children]. by rewrite Hh.
  - eapply put_child_lookup. cbn [set_world children]. done.
Qed.

Lemma step_spawn k kids st v a : pinv k (kids, st) -> k < 2 ^ 62 -> exists cl, step (kids, st) (SpawnChild v a) = Some cl /\ pinv (k + 1) cl.
Proof.
  intros Hi Hk. pose proof Hi as (Ho & Hn & Hl). cbn [fst snd] in *. cbn [step]. unfold mux_process_command_spawn.
  destruct (spec_of v st) as [spec|e]; [|eexists; split; [done|]; by eapply pinv_neutral; [done..|split_and!; [|done|left]]].
  pose proof (law_spawn (make_command spec) (world st)) as Hs. destruct (spawn (make_command spec) (world st)) as [[c|e] w].
  - destruct Hs as (Ec & Hf & Hw). pose proof (owned_insert kids st c a Ho ltac:(width) w Ec Hf Hw) as Hins.
    assert (Hnx : next_handle (insert_child c a (set_world w st)).2 = after (next_handle st)) by (unfold insert_child; destruct a; done).
    assert (Hf1 : (insert_child c a (set_world w st)).1 = if a then Some (next_handle st) else None) by (unfold insert_child; destruct a; done).
    pose proof (ow_next _ _ Ho). unfold after in Hnx. rewrite (proj2 (Z.eqb_neq _ i64_max)) in Hnx by width.
    destruct (insert_child c a (set_world w st)) as [r st']. cbn [fst snd] in *. subst r. destruct a; cbn [new_object].
    + eexists. split; [done|]. split_and!; cbn [fst snd]; [|lia|rewrite length_app; cbn; lia]. eapply owned_perm; [apply Permutation_cons_append|done].
    + eexists. split; [done|]. split_and!; cbn [fst snd]; [done|lia..].
  - eexists. split; [done|]. eapply pinv_neutral; [done..|]. split_and!; [done|exact Hs|by left].
Qed.

Lemma step_wait k kids st fuel v cl : pinv k (kids, st) -> k < 2 ^ 62 -> step (kids, st) (Wait fuel v) = Some cl -> pinv (k + 1) cl.
Proof.
  intros Hi Hk. pose proof Hi as (Ho & Hn & Hl). cbn [fst snd] in *. cbn [step]. unfold mux_process_child_wait.
  destruct (child_of v st) as [[h c]|e] eqn:E; [|intros [= <-]; by eapply pinv_neutral; [done..|split_and!; [|done|left]]].
  apply child_of_lookup in E as [n Hh]. destruct (take_stdin_owned kids st h c n Ho Hh) as (Ho1 & Hn1 & Hh1).
  destruct (poll fuel _ _) as [[[r c'] w]|] eqn:Ep; [|done]. intros [= <-]. apply poll_moved in Ep.
  eapply pinv_put; [|exact Hh1|exact Ep]. split_and!; cbn [fst snd]; [done|lia..].
Qed.

Lemma step_timeout k kids st v ms cl : pinv k (kids, st) -> k < 2 ^ 62 -> step (kids, st) (WaitTimeout v ms) = Some cl -> pinv (k + 1) cl.
Proof.
  intros Hi Hk. cbn [step]. unfold mux_process_child_wait_timeout.
  assert (Hsame : pinv (k + 1) (kids, st)) by (eapply pinv_neutral; [done..|split_and!; [done|done|by left]]).
  destruct (ms <? 0); [by intros [= <-]|]. destruct (MAX_PROCESS_TIMEOUT_MS <? ms); [by intros [= <-]|].
  destruct (child_of v st) as [[h c]|e] eqn:E; [|by intros [= <-]]. apply child_of_lookup in E as [n Hh].
  destruct (poll_until _ _ c (world st)) as [[[r c'] w]|] eqn:Ep; [|done]. intros [= <-]. apply poll_until_moved in Ep. by eapply pinv_put.
Qed.

Lemma step_try_wait k kids st v cl : pinv k (kids, st) -> k < 2 ^ 62 -> step (kids, st) (TryWait v) = Some cl -> pinv (k + 1) cl.
Proof.
  intros Hi Hk. cbn [step]. intros [= <-]. unfold mux_process_child_try_wait.
  destruct (child_of v st) as [[h c]|e] eqn:E; [|by eapply pinv_neutral; [done..|split_and!; [|done|left]]]. apply child_of_lookup in E as [n Hh].
  destruct (child_try_wait c (world st)) as [[r c'] w] eqn:Et. apply try_wait_moved in Et as [Hm _]. by eapply pinv_put.
Qed.

Lemma step_close k kids st v cl : pinv k (kids, st) -> k < 2 ^ 62 -> step (kids, st) (CloseStdin v) = Some cl -> pinv (k + 1) cl.
Proof.
  intros Hi Hk. pose proof Hi as (Ho & Hn & Hl). cbn [fst snd step] in *. intros [= <-]. unfold mux_process_child_close_stdin.
  assert (Hsame : pinv (k + 1) (kids, st)) by (eapply pinv_neutral; [done..|split_and!; [done|done|by left]]).
  destruct (child_of v st) as [[h c]|e] eqn:E; [|done]. apply child_of_lookup in E as [n Hh].
  destruct (stdin_pipe c); [|done]. destruct (take_stdin_owned kids st h c n Ho Hh) as (Ho1 & Hn1 & _).
  split_and!; cbn [fst snd]; [done|lia..].
Qed.

Lemma step_copy_child k kids st i cl : pinv k (kids, st) -> k < 2 ^ 62 -> step (kids, st) (CopyChild i) = Some cl -> pinv (k + 1) cl.
Proof.
  intros Hi Hk. pose proof Hi as (Ho & Hn & Hl). cbn [fst snd step] in *.
  destruct (kids !! i) as [h|] eqn:Ei; [|intros [= <-]; by eapply pinv_neutral; [done..|split_and!; [|done|left]]].
  destruct (owned_copy kids st h Ho) as (E1 & Ho1 & Hn1); [by eapply list_elem_of_lookup_2|lia|].
  destruct (copy_child h st) as [h' st']. cbn in *. subst h'. intros [= <-]. split_and!; cbn [fst snd]; [|lia|rewrite length_app; cbn; lia].
  eapply owned_perm; [apply Permutation_cons_append|done].
Qed.

Lemma step_drop_child k kids st i cl : pinv k (kids, st) -> k < 2 ^ 62 -> step (kids, st) (DropChild i) = Some cl -> pinv (k + 1) cl.
Proof.
  intros Hi Hk. pose proof Hi as (Ho & Hn & Hl). cbn [fst snd step] in *.
  destruct (kids !! i) as [h|] eqn:Ei; [|intros [= <-]; by eapply pinv_neutral; [done..|split_and!; [|done|left]]].
  intros [= <-]. pose proof (delete_Permutation _ _ _ Ei) as Hp. apply (owned_perm _ _ _ Hp) in Ho.
  destruct (owned_release _ _ _ Ho) as [Ho1 Hn1]. pose proof (length_delete kids i ltac:(by eexists)).
  split_and!; cbn [fst snd]; [done|lia..].
Qed.

(** The output of a command comes from a process that is reaped again. *)
Lemma output_neutral fuel abort outs errs v a st r st' :
  mux_process_command_output fuel abort outs errs v a st = Some (r, st') -> neutral st st'.
Proof.
  unfold mux_process_command_output. destruct (spec_of v st) as [spec|e]; [|intros [= <- <-]; by split_and!; [|done|left]].
  destruct (run_command_output fuel abort outs errs spec (world st)) as [[[o|m] w]|] eqn:E; [| |done]; apply run_command_output_same in E.
  - unfold insert_output, new_object. destruct a; intros [= <- <-]; (split_and!; [done|exact E|by right]).
  - intros [= <- <-]. by split_and!; [|exact E|left].
Qed.

Lemma step_pinv k cl o cl' : pinv k cl -> k < 2 ^ 62 -> step cl o = Some cl' -> pinv (k + 1) cl'.
Proof.
  destruct cl as [kids st]. intros Hi Hk. assert (Hneu : forall st', neutral st st' -> Some (kids, st') = Some cl' -> pinv (k + 1) cl').
  { intros st' Hs [= <-]. by eapply pinv_neutral. }
  destruct o; try (cbn [step]; apply Hneu; apply configure_neutral).
  - cbn [step]. apply Hneu. unfold mux_process_command_new, insert_command. destruct allocated; (split_and!; [done|done|by right]).
  - cbn [step]. apply Hneu. unfold mux_process_command_shell, insert_command. destruct (not_empty _ _); [|by split_and!; [|done|left]].
    destruct allocated; (split_and!; [done|done|by right]).
  - cbn [step]. apply Hneu. unfold copy_command. destruct (copy_handle h (commands st)). by split_and!; [|done|left].
  - cbn [step]. apply Hneu. by split_and!; [|done|left].
  - cbn [step]. apply Hneu. unfold copy_output. destruct (copy_handle h (outputs st)). by split_and!; [|done|left].
  - cbn [step]. apply Hneu. by split_and!; [|done|left].
  - cbn [step]. destruct (mux_process_command_output _ _ _ _ _ _ _) as [[r st']|] eqn:E; [|done]. apply Hneu. by eapply output_neutral.
  - cbn [step]. apply Hneu. unfold mux_process_command_status. destruct (spec_of v st) as [spec|e]; [|by split_and!; [|done|left]].
    pose proof (fun p => law_status (make_command spec) (world st) p) as Hl. destruct (status (make_command spec) (world st)) as [r w]. by split_and!; [|exact Hl|left].
  - intros E. destruct (step_spawn k kids st v allocated Hi Hk) as (cl & E' & Hp). rewrite E in E'. by injection E' as ->.
  - by apply step_copy_child.
  - by apply step_drop_child.
  - by apply step_wait.
  - by apply step_try_wait.
  - by apply step_timeout.
  - cbn [step]. apply Hneu, on_child_neutral. intros c w p. unfold child_kill. destruct (exited c); [done|]. pose proof (law_kill (pid c) w p) as Hl.
    destruct (kill (pid c) w) as [[]]; done.
  - cbn [step]. apply Hneu, on_child_neutral. intros c w. apply terminate_same.
  - cbn [step]. apply Hneu. unfold mux_process_child_write_stdin. destruct (child_handle v); [|by split_and!; [|done|left]].
    destruct (process_input_bytes input) as [bs|]; [|by split_and!; [|done|left]]. apply on_child_neutral. intros c w p. case_match; [done|].
    pose proof (law_write (pid c) bs w p) as Hl. destruct (write_stdin (pid c) bs w) as [[]]; done.
  - by apply step_close.
  - cbn [step]. apply Hneu. unfold read_child_pipe. destruct (process_io_size size) as [n|]; [|by split_and!; [|done|left]].
    apply on_child_neutral. intros c w p. case_match; [done|]. case_match; [done|]. pose proof (law_read err (pid c) n w p) as Hl.
    destruct (read_pipe err (pid c) n w) as [[]]; done.
Qed.

Lemma run_pinv ops : forall k cl cl', pinv k cl -> k + Z.of_nat (length ops) < 2 ^ 62 -> run ops cl = Some cl' -> pinv (k + Z.of_nat (length ops)) cl'.
Proof.
  induction ops as [|o ops IH]; intros k cl cl' Hi Hk; cbn [run length] in *.
  - intros [= <-]. by rewrite Z.add_0_r.
  - destruct (step cl o) as [cl1|] eqn:E; [|done]. apply (step_pinv k) in E; [|done|lia]. intros Hr%(IH (k + 1)); [|done|lia].
    by replace (k + Z.of_nat (S (length ops))) with (k + 1 + Z.of_nat (length ops)) by lia.
Qed.

End Owned.

Definition no_processes (w : W) : proc_state W := mk_proc ∅ ∅ ∅ 1 w.

End Reaping.

(** C27: No process is lost unless the kernel refused to wait for it.  After any calls of the
    process module that returned (commands built and run, children started, copied, waited
    for, killed and dropped, allocations that failed), every child in the table counts
    exactly the child objects of the program, each object finds its child, and every process
    that was started and whose status nobody collected yet is the child of an object the
    program still holds, or one for which a wait answered with an error (an error that
    dropping a child ignores).  In particular, while no wait fails, nothing the program
    started is left once it has dropped its child objects. *)
Theorem children_reaped (W : Type) `{ProcessLaws W} (w : W) (ops : list op) (kids : list Z) (st : proc_state W) :
  Z.of_nat (length ops) < 2 ^ 62 -> run ops ([], no_processes w) = Some (kids, st) ->
  (forall h, h ∈ kids -> is_Some (children st !! h)) /\
  (forall h c n, children st !! h = Some (c, n) -> n = occ h kids /\ h ∈ kids) /\
  (forall p, unreaped p (world st) -> unreaped p w \/ p ∈ refused (world st) \/
     exists h c n, h ∈ kids /\ children st !! h = Some (c, n) /\ pid c = p /\ exited c = None).
Proof.
  intros Hl Hr. apply (run_pinv (fun p => pending p w) ops 0) in Hr as (Ho & _ & _); [| |lia].
  - cbn [fst snd] in Ho. destruct Ho as [O1 O2 O3 O4 O5 O6]. split_and!; [done| |].
    + intros h c n Hh. destruct (O3 _ _ _ Hh) as (_ & -> & Hn). split; [done|]. by apply occ_pos.
    + intros p Hp. destruct (decide (p ∈ refused (world st))) as [Hf|Hf]; [by right; left|].
      destruct (proj1 (O4 p) (conj Hp Hf)) as [[Hb _]|(h & c & n & Hh & Ec & Ep)]; [by left|]. right. right.
      exists h, c, n. split_and!; try done. destruct (O3 _ _ _ Hh) as (_ & -> & Hn). by apply occ_pos.
  - split_and!; cbn [fst snd length]; [|cbn; lia..]. split; cbn; [lia|by intros h ?%elem_of_nil|done| |done|done].
    intros p. split; [by left|]. intros [?|(h & c & n & Hh & _)]; [done|]. by rewrite lookup_empty in Hh.
Qed.

(** ** A kernel *)

(** It hands out process 7 when that number is free, lets a process exit when somebody looks,
    remembers the groups that were killed, and may refuse to wait. *)
Module Machine.

Record kernel : Type := mk_kernel { alive : list Z; clock : Z; killed : list Z; lost : list Z; refuses : bool }.

Definition fresh (l : list Z) : Z := if bool_decide (7 ∈ l) then 1 + foldr Z.max 0 l else 7.
Definition forget (p : Z) (k : kernel) : kernel := mk_kernel (filter (fun q => q <> p) (alive k)) (clock k) (killed k) (lost k) (refuses k).

#[export] Instance os : ProcessOs kernel := {
  spawn c k :=
    let p := fresh (alive k) in
    let piped m := match m with Piped => true | _ => false end in
    (Ok (mk_child p (piped (stdin (settings c))) (piped (stdout (settings c))) (piped (stderr (settings c))) None),
     mk_kernel (p :: alive k) (clock k) (killed k) (filter (fun q => q <> p) (lost k)) (refuses k));
  status _ k := (Ok (Some 0), k);
  try_wait p k := if bool_decide (p ∈ alive k) then (Ok (Some (Some 0)), forget p k) else (Ok None, k);
  wait p k :=
    if refuses k then (Err "interrupted", mk_kernel (alive k) (clock k) (killed k) (p :: lost k) (refuses k))
    else (Ok (Some 0), forget p k);
  kill _ k := (Ok tt, k);
  kill_group p k := (None, mk_kernel (alive k) (clock k) (killed k ++ [p]) (lost k) (refuses k));
  close_stdin _ k := k;
  write_stdin _ bs k := (Ok (zlen bs), k);
  read_pipe _ _ _ k := (Ok [], k);
  now k := clock k;
  sleep d k := mk_kernel (alive k) (clock k + d) (killed k) (lost k) (refuses k);
}.

#[export] Instance view : ProcessView kernel := { unreaped p k := p ∈ alive k; refused k := lost k }.

Lemma max_above l x : x ∈ l -> x <= foldr Z.max 0 l.
Proof. induction l as [|y l IH]; [by intros ?%elem_of_nil|]. intros [->|Hx]%elem_of_cons; cbn; [lia|]. specialize (IH Hx). lia. Qed.

Lemma fresh_not_in l : fresh l ∉ l.
Proof. unfold fresh. case_bool_decide; [|done]. intros Hin%max_above. lia. Qed.

#[export] Instance laws : ProcessLaws kernel.
Proof.
  split; try done.
  - intros c k. cbn. split_and!; [done|apply fresh_not_in|intros p; rewrite elem_of_cons; tauto|].
    intros p. rewrite list_elem_of_filter. tauto.
  - intros q k. cbn. case_bool_decide; cbn; [|done]. split; [|done]. intros p. rewrite list_elem_of_filter. tauto.
  - intros q k. cbn. destruct (refuses k); cbn; (split; [|done]); [done|]. intros p. rewrite list_elem_of_filter. tauto.
  - intros q k. cbn. case_bool_decide; cbn; lia.
Qed.

End Machine.
Import Machine.

Definition demo_start : kernel := mk_kernel [] 0 [] [] false.
Definition demo_ops : list op :=
  [Shell (Some "true") true; SpawnChild (CommandArg 1) true; CopyChild 0; DropChild 0; SpawnChild (CommandArg 1) false].

Lemma children_reaped_witness : exists kids st, run demo_ops ([], no_processes demo_start) = Some (kids, st) /\
  (kids, alive (world st)) = ([2], [7]) /\
  (forall p, unreaped p (world st) -> unreaped p demo_start \/ p ∈ refused (world st) \/
     exists h c n, h ∈ kids /\ children st !! h = Some (c, n) /\ pid c = p /\ exited c = None).
Proof.
  eexists _, _. split; [vm_compute; reflexivity|]. split; [vm_compute; reflexivity|].
  apply (children_reaped kernel demo_start demo_ops); [vm_compute; reflexivity|vm_compute; reflexivity].
Defined.

(** When the kernel refuses, dropping the last object of a child leaves the process behind. *)
Example refused_wait_loses_child :
  (fun cl : client => (cl.1, alive (world cl.2), refused (world cl.2))) <$>
    run [Shell (Some "a") true; SpawnChild (CommandArg 1) true; DropChild 0] ([], no_processes (mk_kernel [] 0 [] [] true)) =
  Some ([], [7], [7]).
Proof. vm_compute. reflexivity. Qed.

(** A child that was waited for keeps its number, and dropping it still kills the process group of that
    number: here the number has gone to another child in the meantime. *)
Example dropped_child_kills_stranger :
  (fun cl : client => (cl.1, alive (world cl.2), killed (world cl.2))) <$>
    run [Shell (Some "a") true; SpawnChild (CommandArg 1) true; Wait 1 (ChildArg 2); SpawnChild (CommandArg 1) true; DropChild 0]
      ([], no_processes demo_start) = Some ([3], [7], [7]).
Proof. vm_compute. reflexivity. Qed.

(** Waiting with a timeout returns. *)
Lemma wait_timeout_returns {W} `{ProcessLaws W} v ms (st : proc_state W) : is_Some (mux_process_child_wait_timeout v ms st).
Proof.
  unfold mux_process_child_wait_timeout. destruct (Z.ltb_spec ms 0); [by eexists|]. case_match; [by eexists|].
  destruct (child_of v st) as [[h c]|e]; [|by eexists].
  destruct (poll_until_ends (timeout_fuel ms) (now (world st) + ms * 1000000) c (world st)) as [[[r c'] w] ->]; [| |by eexists];
    unfold timeout_fuel; pose proof (Z.div_mod ms 2 ltac:(lia)); pose proof (Z.mod_pos_bound ms 2 ltac:(lia)); lia.
Qed.

(** What a pipe gave is captured exactly up to 16 MiB; beyond, the capture fails and the producer is stopped. *)
Lemma read_captured_pipe_exact (chunks : list (list Z)) output : Forall (fun c => c <> []) chunks -> zlen output <= MAX_PROCESS_IO_BYTES ->
  read_captured_pipe (Ok <$> chunks) output =
    if zlen output + zlen (concat chunks) <=? MAX_PROCESS_IO_BYTES then (Ok (output ++ concat chunks), false, false)
    else (Err "process output exceeded 16777216 bytes"%string, true, true).
Proof.
  revert output. induction chunks as [|c r IH]; intros output Hc Ho; cbn [fmap list_fmap read_captured_pipe concat].
  - change (zlen []) with 0. rewrite (proj2 (Z.leb_le _ _)), app_nil_r by lia. done.
  - apply Forall_cons in Hc as [Hne Hc]. destruct c as [|b c]; [done|]. set (x := b :: c) in *. clearbody x.
    assert (zlen (x ++ concat r) = zlen x + zlen (concat r)) as Ex by (unfold zlen; rewrite length_app; lia). rewrite Ex.
    assert (0 <= zlen (concat r)) by (unfold zlen; lia).
    destruct (Z.ltb_spec MAX_PROCESS_IO_BYTES (zlen output + zlen x)) as [Hlt|Hge].
    + rewrite (proj2 (Z.leb_gt _ _)) by lia. by destruct x.
    + assert (zlen (output ++ x) = zlen output + zlen x) as Ex' by (unfold zlen; rewrite length_app; lia).
      specialize (IH (output ++ x) Hc ltac:(lia)). rewrite Ex', <- !app_assoc in IH. rewrite Z.add_assoc, <- IH. by destruct x.
Qed.
