(* ===== verification/Csv.v ===== *)
(** * CSV ([src/src/data.rs])

    Tables are runtime values: a map with the keys "headers" and "rows".  Incremental readers
    and writers are entries of two tables counted by the objects that name them; their source
    or destination is memory or a stream of [Stream].  The csv crate is the class [CsvCrate]:
    its readers and writers touch their source and destination only through the functions
    they are given.  An error is the detail of the [CsvError]; [None] is a panic. *)

From S2P Require Import Prelude AssocList Object Value Str Utf8 DynValue Stream StreamProps StreamInv StreamSafe.

Module Csv.

Definition MAX_CSV_INPUT_BYTES : Z := 16 * 1024 * 1024.

(** The settings of a [ReaderBuilder]. *)
Record ReaderConfig : Type := mk_config {
  delimiter : Z;
  quote : Z;
  has_headers : bool;
  flexible : bool;
  trim_all : bool;
}.
Definition default_config : ReaderConfig := mk_config 44 34 true false false.
Definition without_headers : ReaderConfig := mk_config 44 34 false false false.

(** A record is a list of strings. *)
Definition StringRecord : Type := list string.

Class CsvCrate := {
  (** A reader of a slice: the header record, and what [records] yields. *)
  slice_headers : ReaderConfig -> list Z -> result StringRecord string;
  slice_records : ReaderConfig -> list Z -> list (result StringRecord string);
  (** A reader of a source. *)
  csv_reader : Type;
  new_reader : ReaderConfig -> csv_reader;
  reader_headers {S} : (Z -> S -> result (list Z) string * S) -> csv_reader -> S -> result StringRecord string * csv_reader * S;
  read_record {S} : (Z -> S -> result (list Z) string * S) -> csv_reader -> S -> result (option StringRecord) string * csv_reader * S;
  (** A writer to a destination. *)
  csv_writer : Type;
  new_writer : Z -> Z -> csv_writer;
  write_record {S} : (list Z -> S -> result Z string * S) -> StringRecord -> csv_writer -> S -> result unit string * csv_writer * S;
  writer_flush {S} : (list Z -> S -> result Z string * S) -> (S -> result unit string * S) -> csv_writer -> S -> result unit string * csv_writer * S;
}.

Section Tables.
Context `{CsvCrate}.

(** ** Parsing *)

Definition csv_parse_error_result {A} (error : string) : result A string := Err ("CSV parse error: " +:+ error).

Definition read_input_string (input : option (list Z)) : result (list Z) string :=
  match input with
  | None => Err "null input"
  | Some bytes =>
      if MAX_CSV_INPUT_BYTES <? zlen bytes then Err "CSV input exceeds the 16 MiB limit"
      else if is_utf8 bytes then Ok bytes else Err "CSV input must be valid UTF-8"
  end.

Definition record_to_value_list (record : StringRecord) : value := VList (VString <$> record).

(** The first record that cannot be read ends the parse. *)
Fixpoint collect_rows (records : list (result StringRecord string)) : result (list value) string :=
  match records with
  | [] => Ok []
  | Ok record :: rest => let? rows := collect_rows rest in Ok (record_to_value_list record :: rows)
  | Err error :: _ => csv_parse_error_result error
  end.

Definition csv_value (headers : value) (rows : list value) : value :=
  VMap [(VString "headers", headers); (VString "rows", VList rows)].

Definition parse_csv_reader (config : ReaderConfig) (bytes : list Z) : result value string :=
  let? headers :=
    if has_headers config then
      match slice_headers config bytes with
      | Ok record => Ok (record_to_value_list record)
      | Err error => csv_parse_error_result error
      end
    else Ok (VList []) in
  let? rows := collect_rows (slice_records config bytes) in
  Ok (csv_value headers rows).

Definition csv_option_byte (v : Z) (name : string) : result Z string :=
  if negb (in_range 0 255 v) then csv_parse_error_result (name +:+ " must be an ASCII byte")
  else if (127 <? v) || (v =? 0) || (v =? 13) || (v =? 10)
  then csv_parse_error_result (name +:+ " must be an ASCII byte other than NUL, CR, or LF")
  else Ok v.

Definition parse_csv_with_options (input : option (list Z)) (delimiter quote has_headers trim flexible : Z) : result value string :=
  let? text := read_input_string input in
  let? delimiter := csv_option_byte delimiter "delimiter" in
  let? quote := csv_option_byte quote "quote" in
  parse_csv_reader (mk_config delimiter quote (negb (has_headers =? 0)) (negb (flexible =? 0)) (negb (trim =? 0))) text.

Definition mux_csv_parse (input : option (list Z)) : result value string :=
  let? s := read_input_string input in
  let? rows := collect_rows (slice_records without_headers s) in
  Ok (csv_value (VList []) rows).

Definition mux_csv_parse_with_headers (input : option (list Z)) : result value string :=
  let? s := read_input_string input in
  let? headers :=
    match slice_headers default_config s with
    | Ok record => Ok (record_to_value_list record)
    | Err error => csv_parse_error_result error
    end in
  let? rows := collect_rows (slice_records default_config s) in
  Ok (csv_value headers rows).

Definition mux_csv_parse_with_options : option (list Z) -> Z -> Z -> Z -> Z -> Z -> result value string := parse_csv_with_options.

(** ** Rows by name *)

(** Equality of a stored key with a string. *)
Definition key_is (k : string) (stored : value) : bool := match stored with VString s => String.eqb s k | _ => false end.
Definition get_key (k : string) (m : list (value * value)) : option value :=
  snd <$> List.find (fun e : value * value => key_is k e.1) m.

(** The first header that occurs among the headers before it. *)
Fixpoint duplicate_header (seen : list string) (headers : list value) : option string :=
  match headers with
  | [] => None
  | VString name :: rest => if existsb (String.eqb name) seen then Some name else duplicate_header (seen ++ [name]) rest
  | _ :: rest => duplicate_header seen rest
  end.

(** The loop over the headers and the cells of a row. *)
Fixpoint row_entry (pairs : list (value * value)) (entry : list (value * value)) : list (value * value) :=
  match pairs with
  | [] => entry
  | (VString name, cell) :: rest =>
      row_entry rest (match get_key name entry with None => entry ++ [(VString name, cell)] | Some _ => entry end)
  | _ :: rest => row_entry rest entry
  end.

(** A row that is not a list is skipped. *)
Definition keyed_rows (headers rows : list value) : list value :=
  omap (fun row => match row with VList cells => Some (VMap (row_entry (zip headers cells) [])) | _ => None end) rows.

Definition mux_csv_rows_as_maps (val : option value) : result value string :=
  match val with
  | None => Err "no CSV table to read"
  | Some (VMap table) =>
      match get_key "headers" table, get_key "rows" table with
      | Some (VList headers), Some (VList rows) =>
          match duplicate_header [] headers with
          | Some name => Err ("duplicate column '" +:+ name +:+ "': rows cannot be keyed by name when a header repeats")
          | None => Ok (VList (keyed_rows headers rows))
          end
      | _, _ => Err "expected a parsed CSV table with headers and rows"
      end
  | Some _ => Err "expected a parsed CSV table"
  end.

(** ** Rendering *)

Fixpoint strings_of (err : string) (items : list value) : result (list string) string :=
  match items with
  | [] => Ok []
  | VString s :: rest => let? r := strings_of err rest in Ok (s :: r)
  | _ :: _ => Err err
  end.

Definition extract_string_list (val : value) : result (list string) string :=
  match val with VList items => strings_of "headers contain non-string value" items | _ => Err "headers is not a list" end.

Fixpoint rows_of (rows : list value) : result (list (list string)) string :=
  match rows with
  | [] => Ok []
  | VList row :: rest =>
      let? fields := strings_of "row contains non-string field" row in
      let? r := rows_of rest in Ok (fields :: r)
  | _ :: _ => Err "rows contain non-list item"
  end.
Definition extract_row_list (val : value) : result (list (list string)) string :=
  match val with VList rows => rows_of rows | _ => Err "rows is not a list" end.

Definition validate_and_extract_csv (val : value) : result (list string * list (list string)) string :=
  match val with
  | VMap m =>
      let? headers_val := match get_key "headers" m with Some v => Ok v | None => Err "missing 'headers' key" end in
      let? rows_val := match get_key "rows" m with Some v => Ok v | None => Err "missing 'rows' key" end in
      let? headers := extract_string_list headers_val in
      let? rows := extract_row_list rows_val in
      Ok (headers, rows)
  | _ => Err "value is not a map"
  end.

(** A [Vec] as the destination takes everything. *)
Definition vec_write (bytes : list Z) (out : list Z) : result Z string * list Z := (Ok (zlen bytes), out ++ bytes).

Fixpoint write_rows (rows : list (list string)) (w : csv_writer) (out : list Z) : result (csv_writer * list Z) string :=
  match rows with
  | [] => Ok (w, out)
  | row :: rest =>
      match write_record vec_write row w out with
      | (Err error, _, _) => Err ("CSV row write error: " +:+ error)
      | (Ok _, w, out) => write_rows rest w out
      end
  end.

Definition build_csv_string (headers : list string) (rows : list (list string)) (include_headers : bool) (delimiter quote : Z) : result string string :=
  let? (w, out) :=
    if include_headers && negb (bool_decide (headers = [])) then
      match write_record vec_write headers (new_writer delimiter quote) [] with
      | (Err error, _, _) => Err ("CSV header write error: " +:+ error)
      | (Ok _, w, out) => Ok (w, out)
      end
    else Ok (new_writer delimiter quote, []) in
  let? (w, out) := write_rows rows w out in
  match writer_flush vec_write (fun out => (Ok tt, out)) w out with
  | (Err error, _, _) => Err ("CSV flush error: " +:+ error)
  | (Ok _, _, out) => if is_utf8 out then Ok (string_of_octets out) else Err "invalid UTF-8 in CSV output"
  end.

(** The text, empty when the table cannot be written. *)
Definition mux_csv_render (val : option value) : value :=
  VString
    match val with
    | None => ""
    | Some v =>
        match validate_and_extract_csv v with
        | Ok (headers, rows) => match build_csv_string headers rows true 44 34 with Ok s => s | Err _ => "" end
        | Err _ => ""
        end
    end.

Definition mux_csv_to_string (val : option value) : result value string :=
  match val with
  | None => Err "null input"
  | Some v =>
      let? (headers, rows) := validate_and_extract_csv v in
      let? s := build_csv_string headers rows true 44 34 in
      Ok (VString s)
  end.

Definition mux_csv_to_string_with (val : option value) (delimiter quote : Z) : result value string :=
  match val with
  | None => Err "null input"
  | Some v =>
      let? delimiter := csv_option_byte delimiter "delimiter" in
      let? quote := csv_option_byte quote "quote" in
      let? (headers, rows) := validate_and_extract_csv v in
      let? s := build_csv_string headers rows true delimiter quote in
      Ok (VString s)
  end.

End Tables.
End Csv.

(** * Incremental CSV readers and writers ([src/src/data.rs])

    The second half of the file: sources with a size limit, destinations, the two tables
    with their handles and the operations of [CsvReader] and [CsvWriter].  Calls are
    sequential.  Dropping a writer flushes it, as the csv crate documents. *)

Import Csv.

Module CsvStream.

(** ** Sources *)

Record MuxReader : Type := mk_mux_reader { mr_handle : Z; remaining : Z; checked_limit : bool }.

Inductive CsvInput : Type :=
| MemoryInput (data : list Z) (position : Z)
| ReaderInput (r : MuxReader).

Inductive CsvOutput : Type :=
| MemoryOutput (bytes : list Z)
| WriterOutput (handle : Z).

Section Sources.
Context {W : Type} `{Os W}.

(** [Read for MuxReader], on a buffer of [len] octets. *)
Definition mux_reader_read (len : Z) (m : MuxReader) : IO W (result (list Z) string * MuxReader) :=
  if len =? 0 then sret (Ok [], m)
  else if remaining m =? 0 then
    if checked_limit m then sret (Ok [], m)
    else
      let* extra := reader_read_up_to (mr_handle m) 1 in
      match extra with
      | Err e => sret (Err e, m)
      | Ok extra =>
          let m := mk_mux_reader (mr_handle m) (remaining m) true in
          sret (match extra with [] => Ok [] | _ => Err "CSV input exceeds the 16 MiB limit" end, m)
      end
  else
    let requested := Z.min len (remaining m) in
    let* r := reader_read_up_to (mr_handle m) requested in
    match r with
    | Err e => sret (Err e, m)
    | Ok [] => sret (Ok [], mk_mux_reader (mr_handle m) 0 (checked_limit m))
    | Ok bytes =>
        if len <? zlen bytes then spanic
        else sret (Ok bytes, mk_mux_reader (mr_handle m) (remaining m - zlen bytes) (checked_limit m))
    end.

(** [Read for Cursor]: what is there from the position on. *)
Definition csv_input_read (len : Z) (source : CsvInput) : IO W (result (list Z) string * CsvInput) :=
  match source with
  | MemoryInput data position =>
      let bytes := take (Z.to_nat len) (drop (Z.to_nat position) data) in
      sret (Ok bytes, MemoryInput data (position + zlen bytes))
  | ReaderInput m => let* (r, m) := mux_reader_read len m in sret (r, ReaderInput m)
  end.

(** [Drop for MuxReader]. *)
Definition drop_input (source : CsvInput) : IO W unit :=
  match source with MemoryInput _ _ => sret tt | ReaderInput m => release_reader (mr_handle m) end.

Definition csv_output_write (bytes : list Z) (out : CsvOutput) : IO W (result Z string * CsvOutput) :=
  match out with
  | MemoryOutput output =>
      let stop := zlen output + zlen bytes in
      if usize_max <? stop then sret (Err "CSV output is too large", out)
      else if MAX_CSV_INPUT_BYTES <? stop then sret (Err "CSV output exceeds the 16 MiB limit", out)
      else sret (Ok (zlen bytes), MemoryOutput (output ++ bytes))
  | WriterOutput h =>
      let* r := write_writer h bytes in
      sret (match r with Ok _ => Ok (zlen bytes) | Err e => Err e end, out)
  end.

Definition csv_output_flush (out : CsvOutput) : IO W (result unit string * CsvOutput) :=
  match out with
  | MemoryOutput _ => sret (Ok tt, out)
  | WriterOutput h => let* r := flush_writer h in sret (r, out)
  end.

Definition output_bytes (out : CsvOutput) : option (list Z) :=
  match out with MemoryOutput bytes => Some bytes | WriterOutput _ => None end.

(** [Drop for MuxWriter]. *)
Definition drop_output (out : CsvOutput) : IO W unit :=
  match out with MemoryOutput _ => sret tt | WriterOutput h => release_writer h end.

(** A source or destination with the streams, as the crate sees it; [None] once it panicked. *)
Definition through {A X} (f : A -> IO W (result X string * A)) (s : option (A * state W)) : result X string * option (A * state W) :=
  match s with
  | None => (Err "panic", None)
  | Some (a, st) => match f a st with Some (r, a, st) => (r, Some (a, st)) | None => (Err "panic", None) end
  end.

End Sources.

(** ** Tables *)

Section Handles.
Context `{CsvCrate} {W : Type} `{Os W}.

Record CsvReaderEntry : Type := mk_reader_entry { reader : csv_reader; source : CsvInput; entry_has_headers : bool; reader_names : Z }.
Record CsvWriterEntry : Type := mk_writer_entry { writer : csv_writer; destination : CsvOutput; writer_names : Z }.

(** [CSV_READERS], [CSV_WRITERS], [CSV_NEXT_ID] and the streams. *)
Record csv_state : Type := mk_csv {
  csv_readers : gmap Z CsvReaderEntry;
  csv_writers : gmap Z CsvWriterEntry;
  csv_next_id : Z;
  csv_streams : state W;
}.

Definition CIO (A : Type) : Type := csv_state -> option (A * csv_state).

(** An argument: a reader or writer with the number its object stores, null, or another value. *)
Inductive csv_arg : Type := NullArg | ReaderArg (id : Z) | WriterArg (id : Z) | OtherArg.

Definition on_streams {A} (m : IO W A) (st : csv_state) : option (A * csv_state) :=
  match m (csv_streams st) with
  | Some (a, s) => Some (a, mk_csv (csv_readers st) (csv_writers st) (csv_next_id st) s)
  | None => None
  end.
Definition put_readers (m : gmap Z CsvReaderEntry) (st : csv_state) : csv_state := mk_csv m (csv_writers st) (csv_next_id st) (csv_streams st).
Definition put_writers (m : gmap Z CsvWriterEntry) (st : csv_state) : csv_state := mk_csv (csv_readers st) m (csv_next_id st) (csv_streams st).

Definition csv_stream_id (st : csv_state) : Z * csv_state :=
  let id := csv_next_id st in
  (id, mk_csv (csv_readers st) (csv_writers st) (if id =? i64_max then 1 else id + 1) (csv_streams st)).

Definition csv_stream_id_for (v : csv_arg) (readers : bool) (name : string) : result Z string :=
  match v, readers with
  | ReaderArg id, true | WriterArg id, false => if 0 <? id then Ok id else Err (name +:+ " value is invalid")
  | _, _ => Err ("expected " +:+ name +:+ " value")
  end.

(** The number the copy stores. *)
Definition copy_csv_reader (id : Z) (st : csv_state) : Z * csv_state :=
  match csv_readers st !! id with
  | Some e =>
      (id, put_readers (<[id := mk_reader_entry (reader e) (source e) (entry_has_headers e) (Z.min usize_max (reader_names e + 1))]> (csv_readers st)) st)
  | None => (0, st)
  end.
Definition copy_csv_writer (id : Z) (st : csv_state) : Z * csv_state :=
  match csv_writers st !! id with
  | Some e => (id, put_writers (<[id := mk_writer_entry (writer e) (destination e) (Z.min usize_max (writer_names e + 1))]> (csv_writers st)) st)
  | None => (0, st)
  end.

(** The last name removes the entry, which drops the source or, after a flush, the destination. *)
Definition drop_csv_reader (id : Z) : CIO unit :=
  fun st =>
    match csv_readers st !! id with
    | None => Some (tt, st)
    | Some e =>
        let n := Z.max 0 (reader_names e - 1) in
        if n =? 0 then on_streams (drop_input (source e)) (put_readers (delete id (csv_readers st)) st)
        else Some (tt, put_readers (<[id := mk_reader_entry (reader e) (source e) (entry_has_headers e) n]> (csv_readers st)) st)
    end.

Definition flush_csv (e : CsvWriterEntry) (st : csv_state) : option (result unit string * CsvWriterEntry * csv_state) :=
  match writer_flush (fun bytes => through (csv_output_write bytes)) (through csv_output_flush) (writer e) (Some (destination e, csv_streams st)) with
  | (r, w, Some (out, s)) => Some (r, mk_writer_entry w out (writer_names e), mk_csv (csv_readers st) (csv_writers st) (csv_next_id st) s)
  | (_, _, None) => None
  end.

Definition drop_csv_writer (id : Z) : CIO unit :=
  fun st =>
    match csv_writers st !! id with
    | None => Some (tt, st)
    | Some e =>
        let n := Z.max 0 (writer_names e - 1) in
        if n =? 0 then
          match flush_csv e (put_writers (delete id (csv_writers st)) st) with
          | Some (_, e, st) => on_streams (drop_output (destination e)) st
          | None => None
          end
        else Some (tt, put_writers (<[id := mk_writer_entry (writer e) (destination e) n]> (csv_writers st)) st)
    end.

(** The entry is stored before the object is allocated; when that fails it is removed, with what it holds. *)
Definition add_csv_reader (config_headers : bool) (src : CsvInput) (allocated : bool) : CIO (option Z) :=
  fun st =>
    let '(id, st) := csv_stream_id st in
    let config := if config_headers then default_config else without_headers in
    let st := put_readers (<[id := mk_reader_entry (new_reader config) src config_headers 1]> (csv_readers st)) st in
    if allocated then Some (Some id, st)
    else
      match on_streams (drop_input src) (put_readers (delete id (csv_readers st)) st) with
      | Some (_, st) => Some (None, st)
      | None => None
      end.

Definition add_csv_writer (delimiter quote : Z) (dst : CsvOutput) (allocated : bool) : CIO (option Z) :=
  fun st =>
    let '(id, st) := csv_stream_id st in
    let e := mk_writer_entry (new_writer delimiter quote) dst 1 in
    let st := put_writers (<[id := e]> (csv_writers st)) st in
    if allocated then Some (Some id, st)
    else
      match flush_csv e (put_writers (delete id (csv_writers st)) st) with
      | Some (_, e, st) => match on_streams (drop_output (destination e)) st with Some (_, st) => Some (None, st) | None => None end
      | None => None
      end.

(** ** Operations *)

Definition mux_csv_reader_new (allocated : bool) : CIO (option Z) := add_csv_reader false (MemoryInput [] 0) allocated.

Definition or_error (what : string) (r : option (option Z * csv_state)) : option (result csv_arg string * csv_state) :=
  match r with
  | Some (Some id, st) => Some (Ok (if String.eqb what "CsvReader" then ReaderArg id else WriterArg id), st)
  | Some (None, st) => Some (Err ("could not allocate " +:+ what), st)
  | None => None
  end.

Definition mux_csv_reader_from_bytes (bytes : option value) (has_headers : Z) (allocated : bool) : CIO (result csv_arg string) :=
  fun st =>
    match bytes with
    | Some (VBytes data) =>
        if MAX_CSV_INPUT_BYTES <? zlen data then Some (Err "CSV input exceeds the 16 MiB limit", st)
        else or_error "CsvReader" (add_csv_reader (negb (has_headers =? 0)) (MemoryInput data 0) allocated st)
    | _ => Some (Err "CSV reader input must be bytes", st)
    end.

Definition mux_csv_reader_from_reader (r : arg) (has_headers : Z) (allocated : bool) : CIO (result csv_arg string) :=
  fun st =>
    match on_streams (let+ h := handle r CReader true in let+ _ := retain_reader h in answer h) st with
    | None => None
    | Some (Err e, st) => Some (Err e, st)
    | Some (Ok h, st) =>
        or_error "CsvReader" (add_csv_reader (negb (has_headers =? 0)) (ReaderInput (mk_mux_reader h MAX_CSV_INPUT_BYTES false)) allocated st)
    end.

(** A call on the reader of the entry; the entry keeps what it consumed. *)
Definition with_reader {A} (id : Z)
    (f : csv_reader -> option (CsvInput * state W) -> result A string * csv_reader * option (CsvInput * state W)) (e : CsvReaderEntry) : CIO (result A string) :=
  fun st =>
    match f (reader e) (Some (source e, csv_streams st)) with
    | (r, rd, Some (src, s)) =>
        Some (r, mk_csv (<[id := mk_reader_entry rd src (entry_has_headers e) (reader_names e)]> (csv_readers st)) (csv_writers st) (csv_next_id st) s)
    | (_, _, None) => None
    end.

Definition labelled {A B} (label : string) (f : A -> B) (r : option (result A string * csv_state)) : option (result B string * csv_state) :=
  match r with
  | Some (Ok a, st) => Some (Ok (f a), st)
  | Some (Err e, st) => Some (Err (label +:+ e), st)
  | None => None
  end.

Definition mux_csv_reader_headers (v : csv_arg) : CIO (result value string) :=
  fun st =>
    match csv_stream_id_for v true "CsvReader" with
    | Err e => Some (Err e, st)
    | Ok id =>
        match csv_readers st !! id with
        | None => Some (Err "CsvReader is closed", st)
        | Some e =>
            if negb (entry_has_headers e) then Some (Ok (VList []), st)
            else labelled "CSV header error: " record_to_value_list
                   (with_reader id (reader_headers (fun len => through (csv_input_read len))) e st)
        end
    end.

Definition mux_csv_reader_read (v : csv_arg) : CIO (result value string) :=
  fun st =>
    match csv_stream_id_for v true "CsvReader" with
    | Err e => Some (Err e, st)
    | Ok id =>
        match csv_readers st !! id with
        | None => Some (Err "CsvReader is closed", st)
        | Some e =>
            labelled "CSV record error: " (fun r => VOptional (record_to_value_list <$> r))
              (with_reader id (read_record (fun len => through (csv_input_read len))) e st)
        end
    end.

Definition mux_csv_writer_new (allocated : bool) : CIO (option Z) := add_csv_writer 44 34 (MemoryOutput []) allocated.

Definition mux_csv_writer_from_config (delimiter quote : Z) (allocated : bool) : CIO (result csv_arg string) :=
  fun st =>
    match (let? d := csv_option_byte delimiter "delimiter" in let? q := csv_option_byte quote "quote" in Ok (d, q)) with
    | Err e => Some (Err e, st)
    | Ok (d, q) => or_error "CsvWriter" (add_csv_writer d q (MemoryOutput []) allocated st)
    end.

Definition mux_csv_writer_from_writer (w : arg) (delimiter quote : Z) (allocated : bool) : CIO (result csv_arg string) :=
  fun st =>
    match on_streams (handle w CWriter false) st with
    | None => None
    | Some (Err e, st) => Some (Err e, st)
    | Some (Ok h, st) =>
        match (let? d := csv_option_byte delimiter "delimiter" in let? q := csv_option_byte quote "quote" in Ok (d, q)) with
        | Err e => Some (Err e, st)
        | Ok (d, q) =>
            match on_streams (retain_writer h) st with
            | None => None
            | Some (Err e, st) => Some (Err e, st)
            | Some (Ok _, st) => or_error "CsvWriter" (add_csv_writer d q (WriterOutput h) allocated st)
            end
        end
    end.

(** A row that is null counts as the empty list. *)
Definition mux_csv_writer_write (v : csv_arg) (row : option value) : CIO (result value string) :=
  fun st =>
    match csv_stream_id_for v false "CsvWriter" with
    | Err e => Some (Err e, st)
    | Ok id =>
        match (match row with None => VList [] | Some r => r end) with
        | VList fields =>
            match strings_of "CSV row must contain only strings" fields with
            | Err e => Some (Err e, st)
            | Ok values =>
                match csv_writers st !! id with
                | None => Some (Err "CsvWriter is closed", st)
                | Some e =>
                    match write_record (fun bytes => through (csv_output_write bytes)) values (writer e) (Some (destination e, csv_streams st)) with
                    | (r, w, Some (out, s)) =>
                        Some (match r with Ok _ => Ok VUnit | Err e => Err ("CSV write error: " +:+ e) end,
                              mk_csv (csv_readers st) (<[id := mk_writer_entry w out (writer_names e)]> (csv_writers st)) (csv_next_id st) s)
                    | (_, _, None) => None
                    end
                end
            end
        | _ => Some (Err "CSV row must be list<string>", st)
        end
    end.

Definition flush_entry_of (id : Z) (e : CsvWriterEntry) : CIO (result CsvOutput string) :=
  fun st =>
    match flush_csv e st with
    | None => None
    | Some (r, e, st) =>
        Some (match r with Ok _ => Ok (destination e) | Err m => Err ("CSV flush error: " +:+ m) end,
              put_writers (<[id := e]> (csv_writers st)) st)
    end.

Definition mux_csv_writer_flush (v : csv_arg) : CIO (result value string) :=
  fun st =>
    match csv_stream_id_for v false "CsvWriter" with
    | Err e => Some (Err e, st)
    | Ok id =>
        match csv_writers st !! id with
        | None => Some (Err "CsvWriter is closed", st)
        | Some e => labelled "" (fun _ => VUnit) (flush_entry_of id e st)
        end
    end.

Definition mux_csv_writer_bytes (v : csv_arg) : CIO (result value string) :=
  fun st =>
    match csv_stream_id_for v false "CsvWriter" with
    | Err e => Some (Err e, st)
    | Ok id =>
        match csv_writers st !! id with
        | None => Some (Err "CsvWriter is closed", st)
        | Some e =>
            match flush_entry_of id e st with
            | None => None
            | Some (Err m, st) => Some (Err m, st)
            | Some (Ok out, st) =>
                match output_bytes out with
                | None => Some (Err "bytes is not available for a writer-backed CsvWriter", st)
                | Some bytes => Some (Ok (VBytes bytes), st)
                end
            end
        end
    end.

End Handles.
End CsvStream.

(** * Rows by name and the input limit ([Csv], [Csv]) *)

Import Csv CsvStream.

(** ** Rows by name *)

Lemma existsb_string x l : existsb (String.eqb x) l = true <-> x ∈ l.
Proof.
  rewrite existsb_exists. split.
  - intros (y & Hy & E%String.eqb_eq). subst. by apply list_elem_of_In.
  - intros Hx%list_elem_of_In. exists x. split; [done|apply String.eqb_refl].
Qed.

Lemma duplicate_header_none seen hs : duplicate_header seen (VString <$> hs) = None <-> NoDup hs /\ (forall x, x ∈ hs -> x ∉ seen).
Proof.
  revert seen. induction hs as [|x r IH]; intros seen; cbn [fmap list_fmap duplicate_header].
  - split; [|done]. intros _. split; [constructor|by intros x ?%elem_of_nil].
  - rewrite NoDup_cons. destruct (existsb (String.eqb x) seen) eqn:E.
    + apply existsb_string in E. split; [done|]. intros [_ Hs]. exfalso. apply (Hs x); [by left|done].
    + assert (x ∉ seen) as Hx by (by rewrite <- existsb_string, E). rewrite IH. setoid_rewrite elem_of_app. setoid_rewrite list_elem_of_singleton.
      setoid_rewrite elem_of_cons. naive_solver.
Qed.

Lemma duplicate_header_some seen hs name : duplicate_header seen (VString <$> hs) = Some name ->
  exists before after, hs = before ++ name :: after /\ name ∈ seen ++ before.
Proof.
  revert seen. induction hs as [|x r IH]; intros seen; cbn [fmap list_fmap duplicate_header]; [done|].
  destruct (existsb (String.eqb x) seen) eqn:E.
  - intros [= <-]. exists [], r. rewrite app_nil_r. split; [done|by apply existsb_string].
  - intros (before & after & -> & Hin)%IH. exists (x :: before), after. split; [done|]. by rewrite <- app_assoc in Hin.
Qed.

Lemma get_key_none name (m : list (value * value)) : VString name ∉ m.*1 -> get_key name m = None.
Proof.
  intros Hm. unfold get_key. destruct (List.find _ m) as [[k v]|] eqn:E; [|done]. apply List.find_some in E as [Hin Hk]. exfalso. apply Hm.
  apply list_elem_of_fmap. exists (k, v). split; [|by apply list_elem_of_In]. cbn in *. destruct k; try done.
  by apply String.eqb_eq in Hk as ->.
Qed.

Lemma row_entry_zip hs cells entry : NoDup hs -> (forall x, x ∈ hs -> VString x ∉ entry.*1) ->
  row_entry (zip (VString <$> hs) cells) entry = entry ++ zip (VString <$> hs) cells.
Proof.
  revert cells entry. induction hs as [|x r IH]; intros cells entry Hn He; cbn [fmap list_fmap]; [cbn; by rewrite app_nil_r|].
  destruct cells as [|c cells]; cbn [zip zip_with row_entry]; [by rewrite app_nil_r|]. apply NoDup_cons in Hn as [Hx Hn].
  rewrite get_key_none by (apply He; by left). rewrite IH; [by rewrite <- app_assoc|done|].
  intros y Hy. rewrite fmap_app. intros [Hin|Hin]%elem_of_app; [by apply (He y); [right|]|].
  apply list_elem_of_singleton in Hin as [= ->]. done.
Qed.

(** Rows keyed by name lose nothing.  For a table with string headers, when the headers are distinct
    every row becomes the map of its cells under the headers of their columns, in column order, as far
    as the row has cells; otherwise the answer is an error that names a header which occurs twice, and
    no row is read. *)
Lemma csv_rows_keyed (headers : list string) (rows : list (list value)) :
  let answer := mux_csv_rows_as_maps (Some (csv_value (VList (VString <$> headers)) (VList <$> rows))) in
  (NoDup headers -> answer = Ok (VList ((fun cells => VMap (zip (VString <$> headers) cells)) <$> rows))) /\
  (~ NoDup headers -> exists before name after, headers = before ++ name :: after /\ name ∈ before /\
     answer = Err ("duplicate column '" +:+ name +:+ "': rows cannot be keyed by name when a header repeats")%string).
Proof.
  cbv zeta. unfold mux_csv_rows_as_maps, csv_value. change (get_key "headers" _) with (Some (VList (VString <$> headers))).
  change (get_key "rows" _) with (Some (VList (VList <$> rows))). cbv beta iota. split; intros Hn.
  - rewrite (proj2 (duplicate_header_none [] headers)) by (split; [done|by intros x _ ?%elem_of_nil]). do 2 f_equal. unfold keyed_rows.
    induction rows as [|cells rest IH]; [done|]. cbn [fmap list_fmap omap list_omap]. rewrite row_entry_zip by (done || by intros x _ ?%elem_of_nil).
    cbn [app]. f_equal. exact IH.
  - destruct (duplicate_header [] (VString <$> headers)) as [name|] eqn:E; [|by apply duplicate_header_none in E as [? _]].
    apply duplicate_header_some in E as (before & after & -> & Hin). by exists before, name, after.
Qed.

(** ** The limit of a source *)

Section Limit.
Context {W : Type} `{Os W}.

(** Reads in a row: the octets they gave, and whether the last one failed. *)
Fixpoint reads (lens : list Z) (m : MuxReader) (st : state W) : option (list (list Z) * option string * MuxReader * state W) :=
  match lens with
  | [] => Some ([], None, m, st)
  | len :: rest =>
      match mux_reader_read len m st with
      | None => None
      | Some ((Err e, m), st) => Some ([], Some e, m, st)
      | Some ((Ok bytes, m), st) =>
          match reads rest m st with Some (pieces, e, m, st) => Some (bytes :: pieces, e, m, st) | None => None end
      end
  end.

(** No stream gives more octets than were asked for. *)
Lemma read_at_most h n (st : state W) bytes st' : 0 <= n -> reader_read_up_to h n st = Some (Ok bytes, st') -> zlen bytes <= n.
Proof.
  intros Hn. unfold reader_read_up_to, ebind at 1, sbind at 1. destruct (reader_slot h st) as [[[e|m] st1]|]; [|done..].
  set (size := match remaining_limit e with None => _ | Some r => _ end).
  assert (size <= n) as Hs by (subst size; unfold MAX_STREAM_BYTES; destruct (remaining_limit e); lia).
  destruct (size =? 0); [intros [= <- <-]; change (zlen []) with 0; lia|]. unfold ebind at 1, sbind at 1.
  destruct (backing_read e size st1) as [[[got|m] st2]|] eqn:Eb; [|done..].
  assert (zlen got <= Z.max 0 size) as Hgot.
  { assert (forall l, zlen (take (Z.to_nat size) l) <= Z.max 0 size) as Htake by (intros l; unfold zlen; rewrite length_take; lia).
    assert (forall c f s, os_result c (into_buffer size f) s = Some (Ok got, st2) -> zlen got <= Z.max 0 size) as Hos.
    { intros c f s. unfold os_result, sbind, os_call, into_buffer. destruct (f (os s)) as [[l|m] w]; cbn [context]; [|done].
      intros [= <- _]. apply Htake. }
    unfold backing_read in Eb. destruct (r_stdio e) as [[]|]; [by eapply Hos|done..|]. destruct (r_socket e); [by eapply Hos|].
    destruct (r_file e); [by eapply Hos|]. apply slice_length in Eb as [_ [Hlen _]]. lia. }
  unfold sbind at 1. destruct (put_reader h _ st2) as [[[] st3]|]; [|done]. unfold ebind at 1, sbind at 1.
  match goal with |- context [match ?x with Some _ => _ | None => _ end = _ -> _] => destruct x as [[[[]|m] st4]|]; [|done..] end.
  intros [= <- <-]. lia.
Qed.

(** So whatever the stream is, a reader never gives more than it may. *)
Lemma mux_reader_read_bounded len m (st : state W) bytes m' st' : 0 <= remaining m ->
  mux_reader_read len m st = Some ((Ok bytes, m'), st') -> zlen bytes + remaining m' <= remaining m /\ 0 <= remaining m'.
Proof.
  intros Hm. unfold mux_reader_read. change (zlen []) with 0. destruct (len =? 0); [intros [= <- <- _]; change (zlen []) with 0; lia|].
  destruct (remaining m =? 0) eqn:E0.
  - destruct (checked_limit m); [intros [= <- <- _]; change (zlen []) with 0; lia|]. unfold sbind.
    destruct (reader_read_up_to (mr_handle m) 1 st) as [[[[|b l]|e] st1]|]; [|done..]. intros [= <- <- _]. cbn [remaining]. change (zlen []) with 0. lia.
  - unfold sbind. destruct (reader_read_up_to _ _ st) as [[[got|e] st1]|] eqn:E; [|done..].
    destruct (decide (0 <= Z.min len (remaining m))) as [Hn|Hn].
    + apply read_at_most in E; [|done]. destruct got as [|b l]; [intros [= <- <- _]; cbn [remaining]; change (zlen []) with 0; lia|].
      destruct (len <? zlen (b :: l)); [done|]. intros [= <- <- _]. cbn [remaining]. lia.
    + destruct got as [|b l]; [intros [= <- <- _]; cbn [remaining]; change (zlen []) with 0; lia|].
      destruct (Z.ltb_spec len (zlen (b :: l))); [done|]. pose proof (zlen_nonneg (b :: l)). lia.
Qed.

Lemma reads_bounded lens : forall m (st : state W) pieces err m' st', 0 <= remaining m ->
  reads lens m st = Some (pieces, err, m', st') -> zlen (concat pieces) <= remaining m.
Proof.
  induction lens as [|len lens IH]; intros m st pieces err m' st' Hm; cbn [reads]; [by intros [= <- _ _ _]|].
  destruct (mux_reader_read len m st) as [[[[bytes|e] m1] st1]|] eqn:E; [|by intros [= <- _ _ _]|done].
  apply mux_reader_read_bounded in E as [E1 E2]; [|done]. destruct (reads lens m1 st1) as [[[[ps e] m2] st2]|] eqn:Er; [|done].
  intros [= <- _ _ _]. apply IH in Er; [|done]. cbn [concat]. unfold zlen in *. rewrite length_app. lia.
Qed.

(** A source that still may give [room] octets, over a memory reader with [rest] to come. *)
Definition source_ok (room : Z) (rest : list Z) (m : MuxReader) : Prop :=
  0 <= room <= MAX_CSV_INPUT_BYTES /\
  (remaining m = room /\ (checked_limit m = true -> rest = []) \/ remaining m = 0 /\ rest = []).

(** One read: at the end nothing, at the limit an error when there is more, else the next octets. *)
Lemma mux_reader_read_memory len room m st e n : 0 < len -> readers st !! mr_handle m = Some (e, n) -> memory_reader e ->
  source_ok room (available e) m -> exists r m' st', mux_reader_read len m st = Some (r, m', st') /\ mr_handle m' = mr_handle m /\
  match r with
  | Err msg => msg = "CSV input exceeds the 16 MiB limit"%string /\ room < zlen (available e)
  | Ok bytes => exists e', readers st' !! mr_handle m = Some (e', n) /\ memory_reader e' /\ available e = bytes ++ available e' /\
                  zlen bytes <= room /\ source_ok (room - zlen bytes) (available e') m' /\ (bytes = [] -> available e = [])
  end.
Proof.
  intros Hlen Hr He Hs. pose proof Hs as [Hroom Hm]. unfold mux_reader_read. rewrite (proj2 (Z.eqb_neq len 0)) by lia.
  destruct (Z.eqb_spec (remaining m) 0) as [E0|E0].
  - destruct (checked_limit m) eqn:Ec.
    + assert (available e = []) as Ea by (destruct Hm as [[_ Hc]|[_ ?]]; auto). exists (Ok []), m, st. split_and!; [done..|].
      exists e. change (zlen []) with 0. rewrite Z.sub_0_r. split_and!; try done; lia.
    + unfold sbind. rewrite (read_one st _ e n Hr He). destruct (available e) as [|b l] eqn:Ea; cbn [sret].
      * eexists (Ok []), _, _. split_and!; [done..|]. exists e. change (zlen []) with 0. rewrite Z.sub_0_r, Ea. split_and!; try done; [lia|].
        split; [done|]. right. by split.
      * eexists (Err _), _, _. split_and!; [done..|]. destruct Hm as [[<- _]|[_ ?]]; [|done]. rewrite E0. unfold zlen. cbn. lia.
  - destruct Hm as [[Em Hc]|[? _]]; [|done]. unfold sbind. set (req := Z.min len (remaining m)).
    assert (Hq : 0 < req <= room) by (subst req; lia).
    rewrite (read_memory st _ e n req Hr He) by (unfold MAX_STREAM_BYTES, MAX_CSV_INPUT_BYTES in *; lia).
    set (bytes := take (Z.to_nat req) (available e)). assert (Hb : zlen bytes <= req) by (subst bytes; unfold zlen; rewrite length_take; lia).
    assert (Hz : zlen bytes <= zlen (available e)) by (subst bytes; unfold zlen; rewrite length_take; lia).
    destruct (advance_memory_reader e (zlen bytes) He ltac:(pose proof (zlen_nonneg bytes); lia)) as [He' Ha'].
    assert (Hcat : available e = bytes ++ available (advance e (zlen bytes))).
    { rewrite Ha'. unfold zlen. rewrite Nat2Z.id. subst bytes. rewrite length_take. destruct (decide (Z.to_nat req <= length (available e))%nat).
      - rewrite Nat.min_l by done. by rewrite take_drop.
      - rewrite take_ge, Nat.min_r, drop_ge, app_nil_r by lia. done. }
    assert (Hnil : bytes = [] -> available e = []).
    { intros Eb. assert (length bytes = 0%nat) as H0 by (by rewrite Eb). subst bytes. rewrite length_take in H0. apply length_zero_iff_nil. lia. }
    destruct bytes as [|b bs] eqn:Eb.
    + specialize (Hnil eq_refl). eexists (Ok []), _, _. split_and!; [done..|]. exists (advance e 0). cbn [readers set_readers]. rewrite lookup_insert_eq.
      change (zlen []) with 0 in *. rewrite Z.sub_0_r. rewrite Hnil in Hcat. cbn [app] in Hcat. rewrite <- Hcat.
      split_and!; try done; [lia|]. split; [done|]. right. by split.
    + rewrite (proj2 (Z.ltb_ge len _)) by (subst req; lia). eexists (Ok _), _, _. split_and!; [done..|]. eexists. cbn [readers set_readers]. rewrite lookup_insert_eq.
      split_and!; [done|done|done|lia| |done]. pose proof (zlen_nonneg (b :: bs)). split; [lia|]. left. cbn [remaining checked_limit]. split; [lia|].
      intros Hck. specialize (Hc Hck). by rewrite Hcat in Hc.
Qed.

Lemma reads_memory lens : forall room m st e n, Forall (fun len => 0 < len) lens -> readers st !! mr_handle m = Some (e, n) -> memory_reader e ->
  source_ok room (available e) m -> exists pieces err m' st', reads lens m st = Some (pieces, err, m', st') /\
  (exists rest, available e = concat pieces ++ rest /\ (err = None -> [] ∈ pieces -> rest = [])) /\ zlen (concat pieces) <= room /\
  (forall msg, err = Some msg -> msg = "CSV input exceeds the 16 MiB limit"%string /\ room < zlen (available e)).
Proof.
  induction lens as [|len lens IH]; intros room m st e n Hl Hr He Hs; cbn [reads].
  - eexists [], _, _, _. split; [done|]. split_and!; [|change (zlen (concat [])) with 0; apply Hs|done].
    exists (available e). split; [done|]. by intros _ ?%elem_of_nil.
  - apply Forall_cons in Hl as [H0 Hl]. destruct (mux_reader_read_memory len room m st e n H0 Hr He Hs) as (r & m1 & st1 & -> & Hh & Hres).
    destruct r as [bytes|msg].
    + destruct Hres as (e1 & Hr1 & He1 & Ha & Hz & Hs1 & Hnil). rewrite <- Hh in Hr1.
      destruct (IH _ m1 st1 e1 n Hl Hr1 He1 Hs1) as (pieces & err & m' & st' & -> & (rest & Hrest & Hend) & Hlen & Herr).
      eexists (bytes :: pieces), err, m', st'. split; [done|]. cbn [concat]. rewrite Ha, Hrest, app_assoc. split_and!.
      * exists rest. split; [done|]. intros Hn [Eb|Hin]%elem_of_cons; [|by apply Hend]. subst bytes. specialize (Hnil eq_refl). rewrite Ha, Hrest in Hnil.
        cbn [app] in Hnil. by apply app_nil in Hnil as [_ ?].
      * unfold zlen in *. rewrite length_app. lia.
      * intros msg Hm. destruct (Herr msg Hm) as [? Hlt]. split; [done|]. rewrite Hrest in Hlt. unfold zlen in *. rewrite !length_app in *. lia.
    + destruct Hres as [-> Hlt]. eexists [], _, _, _. split; [done|]. split_and!; [|change (zlen (concat [])) with 0; apply Hs|by intros ? [= <-]].
      exists (available e). split; [done|]. done.
Qed.

End Limit.

(** C36: The input of a CSV reader is bounded, and not truncated silently.  Whatever the stream is and
    whatever its source answers, the parser is given at most 16 MiB, however it asks.  Over a stream in
    memory that nobody else changes between the reads, the pieces are the octets of the stream in order;
    when the parser was told that the input ended, it had all of it; and it gets an error only for an
    input of more than 16 MiB.  (Other streams may fail with errors of their own, and one that has
    grown after its end was seen is refused: [grown_input_refused].) *)
Theorem csv_input_limit (W : Type) `{Os W} (st : state W) (h : Z) (lens : list Z) :
  (forall pieces err m' st', reads lens (mk_mux_reader h MAX_CSV_INPUT_BYTES false) st = Some (pieces, err, m', st') ->
     zlen (concat pieces) <= MAX_CSV_INPUT_BYTES) /\
  forall e n, readers st !! h = Some (e, n) -> memory_reader e -> Forall (fun len => 0 < len) lens ->
    exists pieces err m' st', reads lens (mk_mux_reader h MAX_CSV_INPUT_BYTES false) st = Some (pieces, err, m', st') /\
      concat pieces `prefix_of` available e /\
      (err = None -> [] ∈ pieces -> concat pieces = available e) /\
      (is_Some err -> MAX_CSV_INPUT_BYTES < zlen (available e)).
Proof.
  split; [intros pieces err m' st' E; by apply reads_bounded in E|].
  intros e n Hr He Hl. destruct (reads_memory lens MAX_CSV_INPUT_BYTES (mk_mux_reader h MAX_CSV_INPUT_BYTES false) st e n Hl Hr He)
    as (pieces & err & m' & st' & E & (rest & Ha & Hend) & Hz & Herr).
  { split; [done|]. by left. }
  exists pieces, err, m', st'. split; [done|]. rewrite Ha. split_and!.
  - by exists rest.
  - intros Hn Hin. by rewrite (Hend Hn Hin), app_nil_r.
  - intros [msg Em]. rewrite <- Ha. by apply (Herr msg).
Qed.

Definition memory_source (data : list Z) : ReaderEntry := mk_reader data 0 None None None None None.
Definition demo_source : state unit := mk_state {[1 := (memory_source [97; 44; 98; 10], 1)]} ∅ ∅ ∅ 2 ∅ tt.

Lemma memory_source_ok data : zlen data <= usize_max -> memory_reader (memory_source data).
Proof. intros Hd. split_and!; [done..|]. pose proof (zlen_nonneg data). by repeat split; cbn. Qed.

Lemma csv_input_limit_witness : exists m' st',
  reads [3; 8; 8] (mk_mux_reader 1 MAX_CSV_INPUT_BYTES false) demo_source = Some ([[97; 44; 98]; [10]; []], None, m', st') /\
  concat [[97; 44; 98]; [10]; []] = available (memory_source [97; 44; 98; 10]).
Proof.
  destruct (proj2 (csv_input_limit unit demo_source 1 [3; 8; 8]) (memory_source [97; 44; 98; 10]) 1) as (ps & err & m' & st' & E & _ & Hend & _).
  - reflexivity.
  - apply memory_source_ok. vm_compute. discriminate.
  - repeat constructor.
  - exists m', st'. vm_compute in E. injection E as <- <- <- <-. split; [vm_compute; reflexivity|]. apply Hend; [reflexivity|]. right. right. left.
Defined.

(** After the end was seen, the next read asks for one more octet, and when the stream has grown by then
    takes it for an excess over the limit. *)
Example grown_input_refused :
  let at_end := mk_mux_reader 1 0 false in
  mux_reader_read 8 at_end demo_source = Some ((Err "CSV input exceeds the 16 MiB limit"%string, mk_mux_reader 1 0 true),
    set_readers {[1 := (advance (memory_source [97; 44; 98; 10]) 1, 1)]} demo_source).
Proof. vm_compute. reflexivity. Qed.

(** ** Rendering *)

(** What the csv crate documents of a writer that is not flexible: a record of another length than the first is refused. *)
Definition refuses_uneven `{CsvCrate} : Prop := forall d q r1 r2 w out o1,
  write_record vec_write r1 (new_writer d q) [] = (Ok tt, w, out) -> length r2 <> length r1 ->
  exists e w' o2, write_record vec_write r2 w (o1 ++ out) = (Err e, w', o2).

Lemma strings_of_strings err l : strings_of err (VString <$> l) = Ok l.
Proof. induction l as [|x l IH]; [done|]. cbn [fmap list_fmap strings_of]. by rewrite IH. Qed.

(** So a table with a short row, which the flexible parser accepts, cannot be rendered: [mux_csv_render]
    gives the empty text for it. *)
Lemma render_uneven `{CsvCrate} headers row rest : refuses_uneven -> headers <> [] -> length row <> length headers ->
  mux_csv_render (Some (csv_value (VList (VString <$> headers)) (VList <$> ((VString <$> row) :: rest)))) = VString "".
Proof.
  intros Hu Hh Hl. unfold mux_csv_render. destruct (validate_and_extract_csv _) as [[hs rows]|] eqn:E; [|done].
  unfold validate_and_extract_csv, csv_value in E. change (get_key "headers" _) with (Some (VList (VString <$> headers))) in E.
  change (get_key "rows" _) with (Some (VList (VList <$> ((VString <$> row) :: rest)))) in E. cbv beta iota in E.
  cbn [result_bind] in E. unfold extract_string_list in E. rewrite strings_of_strings in E. cbn [result_bind] in E.
  change (extract_row_list _) with (rows_of (VList (VString <$> row) :: (VList <$> rest))) in E. cbn [rows_of] in E.
  rewrite strings_of_strings in E. cbn [result_bind] in E. revert E. generalize (rows_of (VList <$> rest)). intros r E.
  destruct r as [rs|]; [|done]. injection E as <- <-. f_equal. unfold build_csv_string.
  rewrite bool_decide_false by done. cbn [andb negb].
  destruct (write_record vec_write headers (new_writer 44 34) []) as [[[[]|] w] out] eqn:Ew; [|done]. cbn [write_rows].
  destruct (Hu 44 34 headers row w out [] Ew Hl) as (e & w' & o2 & Er). cbn [app] in Er. cbn. by rewrite Er.
Qed.
