(* ===== verification/NetTable.v ===== *)
(** * Resource tables of the network layer ([src/src/net.rs])

    Every network value is an object that holds an [i64] handle into a global table of
    entries counted by [names].  One counter numbers the entries of all tables; the
    model gives each table its own copy of it. *)

From S2P Require Import Prelude.

(** [NEXT_HANDLE] starts at 1.  A round of [next_handle]: [fetch_add] answers the old
    value and leaves its successor, wrapped; the exchange that follows a non-positive
    handle expects the old value. *)
Definition handle_round (counter : Z) : option Z * Z :=
  let handle := counter in
  let counter := as_i64 (counter + 1) in
  if 0 <? handle then (Some handle, counter)
  else (None, if counter =? handle then 1 else counter).

(** [next_handle]: rounds until one answers; [None] when [fuel] rounds did not. *)
Fixpoint next_handle (fuel : nat) (counter : Z) : option (Z * Z) :=
  match fuel with
  | O => None
  | S fuel =>
      match handle_round counter with
      | (Some handle, counter) => Some (handle, counter)
      | (None, counter) => next_handle fuel counter
      end
  end.

Section Table.
Context {E : Type} (names : E -> Z) (with_names : Z -> E -> E).

Record table : Type := mk_table { entries : gmap Z E; counter : Z }.

Definition empty_table : table := mk_table ∅ 1.

(** [insert_*]: [allocated] is false when [resource_value] cannot allocate the object,
    and the entry is taken back out.  One round is enough while the counter is positive. *)
Definition insert_resource (entry : E) (allocated : bool) (t : table) : option Z * table :=
  match next_handle 1 (counter t) with
  | None => (None, t)
  | Some (handle, counter) =>
      if allocated then (Some handle, mk_table (<[handle := entry]> (entries t)) counter)
      else (None, mk_table (delete handle (<[handle := entry]> (entries t))) counter)
  end.

(** [take_resource_value] of [insert_*]. *)
Definition take_resource_value (r : option Z * table) : result Z string * table :=
  match r with
  | (Some handle, t) => (Ok handle, t)
  | (None, t) => (Err "failed to allocate HTTP resource", t)
  end.

(** [copy_resource]: the handle the copy stores, 0 when the entry is gone. *)
Definition copy_resource (handle : Z) (t : table) : Z * table :=
  match entries t !! handle with
  | Some e => (handle, mk_table (<[handle := with_names (names e + 1) e]> (entries t)) (counter t))
  | None => (0, t)
  end.

(** [drop_resource] with the closures of [drop_*]: the count saturates, and the entry goes with the last name. *)
Definition drop_resource (handle : Z) (t : table) : table :=
  match entries t !! handle with
  | Some e =>
      let e := with_names (Z.max 0 (names e - 1)) e in
      let m := <[handle := e]> (entries t) in
      mk_table (if names e =? 0 then delete handle m else m) (counter t)
  | None => t
  end.

(** [*_handle]: [handle] is [None] for a value of another class. *)
Definition resource_handle (expected closed : string) (handle : option Z) (t : table) : result Z string :=
  match handle with
  | None => Err expected
  | Some h => match entries t !! h with Some _ => Ok h | None => Err closed end
  end.

(** The lookup that follows. *)
Definition resource_entry (expected closed invalid : string) (handle : option Z) (t : table) : result (Z * E) string :=
  let? h := resource_handle expected closed handle t in
  match entries t !! h with Some e => Ok (h, e) | None => Err invalid end.

Definition update_entry (h : Z) (e : E) (t : table) : table := mk_table (<[h := e]> (entries t)) (counter t).

End Table.
Arguments table : clear implicits.

(** After a wrap the exchange never succeeds: the counter walks up from [i64::MIN]. *)
Lemma next_handle_no_reset fuel counter :
  i64_min <= counter -> counter + Z.of_nat fuel <= 1 -> next_handle fuel counter = None.
Proof.
  revert counter. induction fuel as [|fuel IH]; intros counter H1 H2; [done|]. cbn [next_handle].
  assert (handle_round counter = (None, counter + 1)) as ->.
  { unfold handle_round. rewrite (as_i64_small (counter + 1)) by width.
    replace (0 <? counter) with false by (symmetry; apply Z.ltb_ge; lia).
    by replace (counter + 1 =? counter) with false by (symmetry; apply Z.eqb_neq; lia). }
  apply IH; lia.
Qed.

Lemma next_handle_positive counter : 0 < counter -> next_handle 1 counter = Some (counter, as_i64 (counter + 1)).
Proof. intros H. cbn [next_handle]. unfold handle_round. by rewrite (proj2 (Z.ltb_lt 0 counter) H). Qed.
