(* ===== verification/WebSocket.v ===== *)
(** * WebSocket frames, messages and sessions ([src/src/net.rs])

    [WebSocketFrameEntry] and the frame codec, the reassembly of a message from a list
    of frames, the session loop that reads a message from a socket, and the table of
    frame values with its setters.  Error results carry the source's messages.

    External code is a parameter: the mask that [getrandom] fills ([None] when it
    fails), SHA-1 and base64 for the handshake.  A socket is the bytes still to be
    received, the bytes written, and whether writes succeed. *)

From S2P Require Import Prelude Value Bytes Str Utf8 NetTable.

Definition MAX_WEBSOCKET_FRAME_BYTES : Z := 16 * 1024 * 1024.

Record WebSocketFrameEntry : Type := mk_frame {
  fin : bool;
  opcode : Z;
  payload : list Z;
  masked : bool;
  frame_names : Z;
}.

Definition len (bs : list Z) : Z := Z.of_nat (length bs).

(** ** Validation *)

Definition validate_websocket_opcode (opcode : Z) : result Z string :=
  match try_from_range 0 255 opcode with
  | None => Err "WebSocket opcode must fit in a byte"
  | Some opcode =>
      if existsb (Z.eqb opcode) [0; 1; 2; 8; 9; 10] then Ok opcode
      else Err ("unsupported WebSocket opcode " +:+ pretty opcode)
  end.

Definition payload_too_long : string := "WebSocket payload exceeds 16777216 bytes".

Definition validate_websocket_frame (e : WebSocketFrameEntry) : result Z string :=
  let? opcode := validate_websocket_opcode (opcode e) in
  if MAX_WEBSOCKET_FRAME_BYTES <? len (payload e) then Err payload_too_long
  else if (8 <=? opcode) && negb (fin e) then Err "WebSocket control frames must have FIN set"
  else if (8 <=? opcode) && (125 <? len (payload e)) then Err "WebSocket control frame payload exceeds 125 bytes"
  else if (opcode =? 1) && fin e && negb (is_utf8 (payload e)) then
    Err "WebSocket text payload must be valid UTF-8"
  else if (opcode =? 8) && (len (payload e) =? 1) then Err "WebSocket close payload cannot contain one byte"
  else Ok opcode.

(** ** The frame codec *)

(** [*byte ^= key[index % key.len()]] for every byte. *)
Definition apply_mask (key payload : list Z) : list Z :=
  imap (fun index byte => Z.lxor byte (default 0 (key !! (index mod length key)%nat))) payload.

(** The second byte and the extended length. *)
Definition encode_length (mask_bit n : Z) : list Z :=
  if n <=? 125 then [Z.lor mask_bit (as_u8 n)]
  else if n <=? 65535 then Z.lor mask_bit 126 :: encode_uint false 2 n
  else Z.lor mask_bit 127 :: encode_uint false 8 n.

Definition encode_websocket_frame (random : option (list Z)) (e : WebSocketFrameEntry)
    : result (list Z) string :=
  let? opcode := validate_websocket_frame e in
  let mask_bit := if masked e then 128 else 0 in
  let head := Z.lor (Z.shiftl (Z.b2z (fin e)) 7) opcode :: encode_length mask_bit (len (payload e)) in
  if masked e then
    match random with
    | None => Err "could not generate WebSocket mask"
    | Some key => Ok (head ++ key ++ apply_mask key (payload e))
    end
  else Ok (head ++ payload e).

(** The length field: the payload length and the offset behind it. *)
Definition decode_length (bytes : list Z) (length_code : Z) : result (Z * nat) string :=
  let offset := 2%nat in
  if length_code <=? 125 then Ok (length_code, offset)
  else if length_code =? 126 then
    if len bytes <? Z.of_nat offset + 2 then Err "WebSocket frame length is truncated"
    else
      let length := decode_loop false 2 0 (take 2 (drop offset bytes)) 0 in
      if length <? 126 then Err "WebSocket frame uses a non-canonical length" else Ok (length, (offset + 2)%nat)
  else if length_code =? 127 then
    if len bytes <? Z.of_nat offset + 8 then Err "WebSocket frame length is truncated"
    else
      let length := decode_loop false 8 0 (take 8 (drop offset bytes)) 0 in
      if negb (Z.land length (Z.shiftl 1 63) =? 0) then Err "WebSocket frame length has its high bit set"
      else Ok (length, (offset + 8)%nat)
  else Err "WebSocket frame length code is invalid".

Definition decode_websocket_frame (bytes : list Z) : result WebSocketFrameEntry string :=
  match bytes with
  | first :: second :: _ =>
      if negb (Z.land first 112 =? 0) then Err "WebSocket reserved bits are not supported"
      else
        let fin := negb (Z.land first 128 =? 0) in
        let opcode := Z.land first 15 in
        let? _ := validate_websocket_opcode opcode in
        let masked := negb (Z.land second 128 =? 0) in
        let? (payload_len, offset) := decode_length bytes (Z.land second 127) in
        if MAX_WEBSOCKET_FRAME_BYTES <? payload_len then Err payload_too_long
        else
          let mask_len := if masked then 4%nat else 0%nat in
          if usize_max <? Z.of_nat (offset + mask_len) + payload_len then Err "WebSocket frame length overflows"
          else if negb (len bytes =? Z.of_nat (offset + mask_len) + payload_len) then
            Err "WebSocket frame contains trailing or truncated bytes"
          else
            let key := take mask_len (drop offset bytes) in
            let payload := drop (offset + mask_len) bytes in
            let payload := if masked then apply_mask key payload else payload in
            let entry := mk_frame fin opcode payload masked 1 in
            let? _ := validate_websocket_frame entry in
            Ok entry
  | _ => Err "WebSocket frame is truncated"
  end.

(** ** Reassembly of a message *)

(** The mutable state of the loop: [payload] and [total]. *)
Definition append_websocket_fragment (first entry : WebSocketFrameEntry) (index entry_count : nat)
    (st : list Z * Z) : result (option WebSocketFrameEntry * (list Z * Z)) string :=
  let '(buffer, total) := st in
  let? op := validate_websocket_opcode (opcode entry) in
  if (index =? 0)%nat then
    if fin entry then Err "WebSocket fragmented message starts as final" else Ok (None, st)
  else if negb (Bool.eqb (masked entry) (masked first)) then Err "WebSocket message frames must use one masking state"
  else if 8 <=? op then Ok (None, st)
  else if negb (op =? 0) then Err "WebSocket fragmented message contains a new data frame"
  else
    let total := total + len (payload entry) in
    if usize_max <? total then Err "WebSocket message payload length overflows"
    else if MAX_WEBSOCKET_FRAME_BYTES <? total then Err "WebSocket message payload exceeds 16777216 bytes"
    else
      let buffer := buffer ++ payload entry in
      if negb (fin entry) then Ok (None, (buffer, total))
      else if negb (S index =? entry_count)%nat then Err "WebSocket complete message has trailing frames"
      else
        let output := mk_frame true (opcode first) buffer (masked first) 1 in
        let? _ := validate_websocket_frame output in
        Ok (Some output, ([], total)).

Fixpoint append_fragments (first : WebSocketFrameEntry) (index entry_count : nat)
    (entries : list WebSocketFrameEntry) (st : list Z * Z) : result WebSocketFrameEntry string :=
  match entries with
  | [] => Err "WebSocket fragmented message is missing a final continuation"
  | entry :: rest =>
      let? (out, st) := append_websocket_fragment first entry index entry_count st in
      match out with
      | Some output => Ok output
      | None => append_fragments first (S index) entry_count rest st
      end
  end.

(** [reassemble_websocket_frames] after the lookup of the entries. *)
Definition reassemble_entries (entries : list WebSocketFrameEntry) : result WebSocketFrameEntry string :=
  match entries with
  | [] => Err "WebSocket message must contain at least one frame"
  | first :: _ =>
      let? first_opcode := validate_websocket_opcode (opcode first) in
      if negb ((first_opcode =? 1) || (first_opcode =? 2)) then
        Err "WebSocket message must start with a text or binary frame"
      else if fin first then
        if negb (length entries =? 1)%nat then Err "WebSocket complete message has trailing frames"
        else Ok (mk_frame true (opcode first) (payload first) (masked first) 1)
      else append_fragments first 0 (length entries) entries (payload first, len (payload first))
  end.

(** ** Reading from a socket *)

Record Socket : Type := mk_socket { incoming : list Z; outgoing : list Z; writable : bool }.

(** [read_exact]: the bytes asked for, or an error when the stream ends before. *)
Definition read_exact (what : string) (n : nat) (s : Socket) : result (list Z * Socket) string :=
  if len (incoming s) <? Z.of_nat n then Err ("WebSocket " +:+ what +:+ " failed")
  else Ok (take n (incoming s), mk_socket (drop n (incoming s)) (outgoing s) (writable s)).

(** [write_all] and [flush]. *)
Definition write_all (what : string) (bytes : list Z) (s : Socket) : result Socket string :=
  if writable s then Ok (mk_socket (incoming s) (outgoing s ++ bytes) (writable s))
  else Err ("WebSocket " +:+ what +:+ " write failed").

Definition read_length (length_code : Z) (s : Socket) : result (Z * Socket) string :=
  if length_code <=? 125 then Ok (length_code, s)
  else if length_code =? 126 then
    let? (bytes, s) := read_exact "length read" 2 s in
    let length := decode_loop false 2 0 bytes 0 in
    if length <? 126 then Err "WebSocket frame uses a non-canonical length" else Ok (length, s)
  else if length_code =? 127 then
    let? (bytes, s) := read_exact "length read" 8 s in
    let length := decode_loop false 8 0 bytes 0 in
    if negb (Z.land length (Z.shiftl 1 63) =? 0) then Err "WebSocket frame length has its high bit set"
    else Ok (length, s)
  else Err "WebSocket frame length code is invalid".

Definition read_websocket_frame (s : Socket) : result (WebSocketFrameEntry * Socket) string :=
  let? (header, s) := read_exact "read" 2 s in
  match header with
  | [first; second] =>
      if negb (Z.land first 112 =? 0) then Err "WebSocket reserved bits are not supported"
      else
        let fin := negb (Z.land first 128 =? 0) in
        let opcode := Z.land first 15 in
        let? _ := validate_websocket_opcode opcode in
        let masked := negb (Z.land second 128 =? 0) in
        if negb masked then Err "client WebSocket frames must be masked"
        else
          let? (payload_len, s) := read_length (Z.land second 127) s in
          if MAX_WEBSOCKET_FRAME_BYTES <? payload_len then Err payload_too_long
          else
            let? (key, s) := read_exact "mask read" 4 s in
            let? (payload, s) := read_exact "payload read" (Z.to_nat payload_len) s in
            let entry := mk_frame fin opcode (apply_mask key payload) false 1 in
            let? _ := validate_websocket_frame entry in
            Ok (entry, s)
  | _ => Err "WebSocket read failed"
  end.

(** One round of the loop of [read_websocket_message] after a frame arrived: go on
    with the fragments, or answer a message. *)
Inductive Round : Type :=
| Continue (fragments : option (Z * list Z)) (s : Socket)
| Return (frame : WebSocketFrameEntry) (s : Socket).

Definition message_step (frame : WebSocketFrameEntry) (fragments : option (Z * list Z)) (s : Socket)
    : result Round string :=
  let op := as_u8 (opcode frame) in
  if op =? 9 then
    let? pong := encode_websocket_frame None (mk_frame true 10 (payload frame) false 1) in
    let? s := write_all "pong" pong s in
    Ok (Continue fragments s)
  else if op =? 10 then Ok (Continue fragments s)
  else if op =? 8 then
    let? close := encode_websocket_frame None (mk_frame true 8 (payload frame) false 1) in
    let? s := write_all "close" close s in
    Ok (Return frame s)
  else if op =? 0 then
    match fragments with
    | None => Err "WebSocket continuation has no open message"
    | Some (op, buffer) =>
        let buffer := buffer ++ payload frame in
        if MAX_WEBSOCKET_FRAME_BYTES <? len buffer then Err "WebSocket message exceeds 16777216 bytes"
        else if fin frame then
          let complete := mk_frame true op buffer false 1 in
          let? _ := validate_websocket_frame complete in
          Ok (Return complete s)
        else Ok (Continue (Some (op, buffer)) s)
    end
  else if ((op =? 1) || (op =? 2)) && negb (fin frame) then
    match fragments with
    | Some _ => Err "WebSocket message starts before the previous one ends"
    | None => Ok (Continue (Some (op, payload frame)) s)
    end
  else
    match fragments with
    | Some _ => if (op =? 1) || (op =? 2) then Err "WebSocket message starts before the previous one ends"
                else Ok (Return frame s)
    | None => Ok (Return frame s)
    end.

(** The loop; every round consumes a frame, so [None] needs more rounds than bytes. *)
Fixpoint read_websocket_message (fuel : nat) (fragments : option (Z * list Z)) (s : Socket)
    : option (result (WebSocketFrameEntry * Socket) string) :=
  match fuel with
  | O => None
  | S fuel =>
      match read_websocket_frame s with
      | Err e => Some (Err e)
      | Ok (frame, s) =>
          match message_step frame fragments s with
          | Err e => Some (Err e)
          | Ok (Return frame s) => Some (Ok (frame, s))
          | Ok (Continue fragments s) => read_websocket_message fuel fragments s
          end
      end
  end.

(** ** Frame values *)

Definition Frames : Type := table WebSocketFrameEntry.
Definition frame_with_names (n : Z) (e : WebSocketFrameEntry) : WebSocketFrameEntry :=
  mk_frame (fin e) (opcode e) (payload e) (masked e) n.

Definition copy_websocket_frame : Z -> Frames -> Z * Frames := copy_resource frame_names frame_with_names.
Definition drop_websocket_frame : Z -> Frames -> Frames := drop_resource frame_names frame_with_names.
Definition websocket_frame_handle : option Z -> Frames -> result Z string :=
  resource_handle "expected WebSocketFrame value" "WebSocketFrame value is closed".
Definition frame_entry : option Z -> Frames -> result (Z * WebSocketFrameEntry) string :=
  resource_entry "expected WebSocketFrame value" "WebSocketFrame value is closed" "invalid WebSocketFrame handle".

Definition mux_net_websocket_frame_new (allocated : bool) : Frames -> option Z * Frames :=
  insert_resource (mk_frame true 1 [] false 1) allocated.

Definition mux_net_websocket_frame_from_config (fin opcode : Z) (payload : option value) (masked : Z)
    (allocated : bool) (t : Frames) : result Z string * Frames :=
  match payload with
  | Some (VBytes payload) =>
      let entry := mk_frame (negb (fin =? 0)) opcode payload (negb (masked =? 0)) 1 in
      match validate_websocket_frame entry with
      | Err e => (Err e, t)
      | Ok _ => take_resource_value (insert_resource entry allocated t)
      end
  | _ => (Err "WebSocket payload must be bytes", t)
  end.

Definition mux_net_websocket_frame_encode (random : option (list Z)) (frame : option Z) (t : Frames)
    : result value string :=
  let? (_, e) := frame_entry frame t in
  let? bytes := encode_websocket_frame random e in
  Ok (VBytes bytes).

Definition mux_net_websocket_frame_decode (bytes : option value) (allocated : bool) (t : Frames)
    : result Z string * Frames :=
  match bytes with
  | Some (VBytes bytes) =>
      match decode_websocket_frame bytes with
      | Err e => (Err e, t)
      | Ok entry => take_resource_value (insert_resource entry allocated t)
      end
  | _ => (Err "WebSocket frame input must be bytes", t)
  end.

(** The entries behind a list of handles, validated again. *)
Fixpoint websocket_frame_entries (values : list (option Z)) (t : Frames)
    : result (list WebSocketFrameEntry) string :=
  match values with
  | [] => Ok []
  | v :: rest =>
      let? (_, e) := frame_entry v t in
      let entry := frame_with_names 1 e in
      let? _ := validate_websocket_frame entry in
      let? rest := websocket_frame_entries rest t in
      Ok (entry :: rest)
  end.

Definition reassemble_websocket_frames (values : list (option Z)) (t : Frames)
    : result WebSocketFrameEntry string :=
  match values with
  | [] => Err "WebSocket message must contain at least one frame"
  | _ => let? entries := websocket_frame_entries values t in reassemble_entries entries
  end.

Definition mux_net_websocket_frame_reassemble (values : list (option Z)) (allocated : bool) (t : Frames)
    : result Z string * Frames :=
  match reassemble_websocket_frames values t with
  | Err e => (Err e, t)
  | Ok entry => take_resource_value (insert_resource entry allocated t)
  end.

Inductive WebSocketFrameField : Type := Fin | Opcode | Payload | Masked.

Definition websocket_frame_field_value (frame : option Z) (field : WebSocketFrameField) (t : Frames)
    : result value string :=
  let? (_, e) := frame_entry frame t in
  Ok match field with
     | Fin => VBool (fin e)
     | Opcode => VInt (opcode e)
     | Payload => VBytes (payload e)
     | Masked => VBool (masked e)
     end.

(** The assignment of [set_websocket_frame_field], before the entry is validated. *)
Definition assign_frame_field (field : WebSocketFrameField) (v : value) (e : WebSocketFrameEntry)
    : result WebSocketFrameEntry string :=
  match field with
  | Fin =>
      match v with
      | VBool b => Ok (mk_frame b (opcode e) (payload e) (masked e) (frame_names e))
      | _ => Err "WebSocket fin/masked fields must be bools"
      end
  | Masked =>
      match v with
      | VBool b => Ok (mk_frame (fin e) (opcode e) (payload e) b (frame_names e))
      | _ => Err "WebSocket fin/masked fields must be bools"
      end
  | Opcode =>
      match v with
      | VInt i =>
          let? _ := validate_websocket_opcode i in
          Ok (mk_frame (fin e) i (payload e) (masked e) (frame_names e))
      | _ => Err "WebSocket opcode must be an int"
      end
  | Payload =>
      match v with
      | VBytes bs => Ok (mk_frame (fin e) (opcode e) bs (masked e) (frame_names e))
      | _ => Err "WebSocket payload must be bytes"
      end
  end.

(** The entry is assigned in place, then validated: an error of the validation leaves
    the assignment standing. *)
Definition set_websocket_frame_field (frame : option Z) (field : WebSocketFrameField) (v : option value)
    (t : Frames) : result unit string * Frames :=
  match websocket_frame_handle frame t with
  | Err e => (Err e, t)
  | Ok _ =>
      match v with
      | None => (Err "WebSocket field value is missing", t)
      | Some v =>
          match frame_entry frame t with
          | Err e => (Err e, t)
          | Ok (h, e) =>
              match assign_frame_field field v e with
              | Err msg => (Err msg, t)
              | Ok e =>
                  (match validate_websocket_frame e with Ok _ => Ok tt | Err msg => Err msg end,
                   update_entry h e t)
              end
          end
      end
  end.

(** ** The opening handshake *)

Section Handshake.
Context (sha1 : list Z -> list Z) (base64_encode : list Z -> list Z) (base64_decode : list Z -> option (list Z)).

Definition WEBSOCKET_ACCEPT_GUID : text := txt "258EAFA5-E914-47DA-95CA-C5AB0DC85B11".

Definition websocket_accept_key (key : text) : result text string :=
  match base64_decode (utf8 key) with
  | None => Err "WebSocket key must be standard base64"
  | Some decoded =>
      if negb (length decoded =? 16)%nat then Err "WebSocket key must decode to exactly 16 bytes"
      else Ok (base64_encode (sha1 (utf8 key ++ utf8 WEBSOCKET_ACCEPT_GUID)))
  end.

Record WebSocketHandshakeEntry : Type := mk_handshake { hs_key : text; hs_protocol : text; hs_names : Z }.

Definition has_crlf (s : text) : bool := existsb (fun c => (c =? 13) || (c =? 10)) s.

Definition mux_net_websocket_handshake_from_config (key protocol : option text) (allocated : bool)
    (t : table WebSocketHandshakeEntry) : result Z string * table WebSocketHandshakeEntry :=
  match key, protocol with
  | None, _ => (Err "WebSocket key must be a string", t)
  | _, None => (Err "WebSocket protocol must be a string", t)
  | Some key, Some protocol =>
      if has_crlf key || has_crlf protocol then
        (Err "WebSocket handshake fields must not contain CR or LF", t)
      else
        match websocket_accept_key key with
        | Err e => (Err e, t)
        | Ok _ => take_resource_value (insert_resource (mk_handshake key protocol 1) allocated t)
        end
  end.

(** [mux_net_websocket_handshake_response_headers] of a live handshake. *)
Definition handshake_response_headers (e : WebSocketHandshakeEntry) : result (list (text * text)) string :=
  let? accept := websocket_accept_key (hs_key e) in
  Ok ([(txt "upgrade", txt "websocket"); (txt "connection", txt "Upgrade");
       (txt "sec-websocket-accept", accept)] ++
      match hs_protocol e with [] => [] | p => [(txt "sec-websocket-protocol", p)] end).

End Handshake.
