(* ===== verification/WebSocketProps.v ===== *)
(** * Properties of the WebSocket codec

    A valid frame survives encoding and decoding, decoding is injective on minimal
    length forms, reassembly joins exactly the well-formed fragmented messages, and the
    session loop, reading masked frames from a socket, answers what reassembly of the
    same frames answers, with a pong for every ping. *)

From S2P Require Import Prelude Value Bytes BytesProps Str Utf8 NetTable WebSocket.

(** ** Octets of the header *)

Definition opcodes : list Z := [0; 1; 2; 8; 9; 10].

Lemma validate_opcode_ok op o : validate_websocket_opcode op = Ok o <-> o = op /\ op ∈ opcodes.
Proof.
  unfold validate_websocket_opcode, try_from_range.
  destruct (in_range 0 255 op) eqn:R.
  - destruct (existsb _ _) eqn:E.
    + apply existsb_exists in E as (x & Hx & ->%Z.eqb_eq). rewrite <- list_elem_of_In in Hx.
      split; [by intros [= <-]|by intros [-> _]].
    + split; [done|]. intros [-> Ho]. exfalso. apply Bool.not_true_iff_false in E. apply E.
      apply existsb_exists. exists op. rewrite Z.eqb_refl. by rewrite list_elem_of_In in Ho.
  - split; [done|]. intros [_ Ho]. apply in_range_false in R. unfold opcodes in Ho. set_unfold. lia.
Qed.

(** [P] holds of every opcode when it holds of the six. *)
Lemma opcode_cases (P : Z -> bool) op : forallb P opcodes = true -> op ∈ opcodes -> P op = true.
Proof. rewrite forallb_forall. intros H Ho. apply H. by apply list_elem_of_In. Qed.

Definition first_byte (fin : bool) (op : Z) : Z := Z.lor (Z.shiftl (Z.b2z fin) 7) op.

Lemma first_byte_fields fin op : op ∈ opcodes ->
  Z.land (first_byte fin op) 112 = 0 /\ (Z.land (first_byte fin op) 128 =? 0) = negb fin /\
  Z.land (first_byte fin op) 15 = op.
Proof.
  intros Ho.
  pose proof (opcode_cases (fun op => (Z.land (first_byte fin op) 112 =? 0) &&
    Bool.eqb (Z.land (first_byte fin op) 128 =? 0) (negb fin) && (Z.land (first_byte fin op) 15 =? op)) op
    ltac:(by destruct fin) Ho) as H. cbv beta in H.
  apply andb_true_iff in H as [[H1 H2]%andb_true_iff H3].
  apply Z.eqb_eq in H1, H3. by apply eqb_prop in H2.
Qed.

Definition mask_bit (masked : bool) : Z := if masked then 128 else 0.

Lemma second_byte_fields m n : 0 <= n < 128 ->
  (Z.land (Z.lor (mask_bit m) n) 128 =? 0) = negb m /\ Z.land (Z.lor (mask_bit m) n) 127 = n.
Proof.
  intros Hn.
  pose proof (range_check (fun n => Bool.eqb (Z.land (Z.lor (mask_bit m) n) 128 =? 0) (negb m) &&
    (Z.land (Z.lor (mask_bit m) n) 127 =? n)) 128 ltac:(by destruct m; vm_compute) n Hn) as H.
  cbv beta in H. apply andb_true_iff in H as [H1 H2]. apply Z.eqb_eq in H2. by apply eqb_prop in H1.
Qed.

(** ** Masking *)

Lemma apply_mask_length key p : length (apply_mask key p) = length p.
Proof. apply length_imap. Qed.

Lemma apply_mask_involutive key p : apply_mask key (apply_mask key p) = p.
Proof.
  apply list_eq. intros i. unfold apply_mask. rewrite !list_lookup_imap, <- option_fmap_compose.
  destruct (p !! i) as [b|]; [|done]. cbn. f_equal.
  by rewrite Z.lxor_assoc, Z.lxor_nilpotent, Z.lxor_0_r.
Qed.

(** ** The length field *)

Lemma mask_bit_eq (m : bool) : (if m then 128 else 0) = mask_bit m.
Proof. done. Qed.

Lemma read_exact_app what n bs rest out w : n = length bs ->
  read_exact what n (mk_socket (bs ++ rest) out w) = Ok (bs, mk_socket rest out w).
Proof.
  intros ->. unfold read_exact, len. cbn [incoming outgoing writable]. rewrite length_app.
  replace (_ <? _) with false by (symmetry; apply Z.ltb_ge; lia).
  by rewrite take_app_length, drop_app_length.
Qed.

Lemma high_bit_clear n : 0 <= n <= MAX_WEBSOCKET_FRAME_BYTES -> Z.land n (Z.shiftl 1 63) = 0.
Proof.
  unfold MAX_WEBSOCKET_FRAME_BYTES. intros H. rewrite Z.shiftl_1_l. apply Z.bits_inj'. intros k Hk.
  rewrite Z.land_spec, Z.bits_0, Z.pow2_bits_eqb by lia.
  destruct (Z.eqb_spec 63 k) as [<-|]; [|by rewrite andb_false_r].
  rewrite andb_true_r. apply Z.bits_above_log2; [lia|]. destruct (decide (n = 0)) as [->|]; [done|].
  apply Z.log2_lt_pow2; lia.
Qed.

(** The two readers of a length undo the writer, whatever follows. *)
Lemma length_field m n : 0 <= n <= MAX_WEBSOCKET_FRAME_BYTES ->
  exists code ext, encode_length (mask_bit m) n = Z.lor (mask_bit m) code :: ext /\ 0 <= code < 128 /\
    (forall b0 b1 rest, decode_length (b0 :: b1 :: ext ++ rest) code = Ok (n, (2 + length ext)%nat)) /\
    (forall rest out w, read_length code (mk_socket (ext ++ rest) out w) = Ok (n, mk_socket rest out w)).
Proof.
  intros Hn. unfold encode_length.
  assert (forall w, 0 <= n < 2 ^ (8 * Z.of_nat w) -> forall r,
    decode_loop false w 0 (take w (encode_uint false w n ++ r)) 0 = n) as Hd.
  { intros w Hw r. rewrite take_app_length' by (by rewrite encode_uint_length). by apply decode_encode. }
  destruct (n <=? 125) eqn:E1; [|destruct (n <=? 65535) eqn:E2]; bool_to_prop.
  - exists n, []. rewrite as_u8_small by (unfold is_u8; lia).
    unfold decode_length, read_length. rewrite (proj2 (Z.leb_le n 125)) by lia. by repeat split; try lia.
  - exists 126, (encode_uint false 2 n). split_and!; try done; try lia.
    + intros b0 b1 rest. unfold decode_length, len. cbn [Z.leb Z.eqb Z.compare Pos.compare Pos.compare_cont Pos.eqb skipn]. rewrite !drop_0.
      cbn [length]. rewrite length_app, !encode_uint_length, Hd by (cbn; lia).
      repeat (case_match; bool_to_prop; try lia). done.
    + intros rest out w. unfold read_length. cbn [Z.leb Z.eqb Z.compare Pos.compare Pos.compare_cont Pos.eqb].
      rewrite read_exact_app by (by rewrite encode_uint_length). cbn [result_bind].
      rewrite decode_encode by (cbn; lia). by rewrite (proj2 (Z.ltb_ge n 126)) by lia.
  - exists 127, (encode_uint false 8 n). split_and!; try done; try lia.
    + intros b0 b1 rest. unfold decode_length, len. cbn [Z.leb Z.eqb Z.compare Pos.compare Pos.compare_cont Pos.eqb skipn]. rewrite !drop_0.
      cbn [length]. rewrite length_app, !encode_uint_length, Hd
        by (unfold MAX_WEBSOCKET_FRAME_BYTES in Hn; cbn; lia).
      rewrite high_bit_clear by done. repeat (case_match; bool_to_prop; try lia). done.
    + intros rest out w. unfold read_length. cbn [Z.leb Z.eqb Z.compare Pos.compare Pos.compare_cont Pos.eqb].
      rewrite read_exact_app by (by rewrite encode_uint_length). cbn [result_bind].
      rewrite decode_encode by (unfold MAX_WEBSOCKET_FRAME_BYTES in Hn; cbn; lia). by rewrite high_bit_clear.
Qed.

(** ** Validation *)

Definition valid_frame (e : WebSocketFrameEntry) : Prop := validate_websocket_frame e = Ok (opcode e).

Lemma validate_frame_ok e o : validate_websocket_frame e = Ok o ->
  valid_frame e /\ opcode e ∈ opcodes /\ len (payload e) <= MAX_WEBSOCKET_FRAME_BYTES.
Proof.
  unfold valid_frame. intros H. pose proof H as H'. unfold validate_websocket_frame in H'.
  destruct (validate_websocket_opcode (opcode e)) as [o'|] eqn:E; [|done].
  apply validate_opcode_ok in E as [-> Ho]. cbn [result_bind] in H'.
  repeat (case_match; try done). injection H' as <-. bool_to_prop. by split_and!.
Qed.

(** Validation looks neither at the mask nor at the count. *)
Lemma valid_frame_ext e e' : fin e = fin e' -> opcode e = opcode e' -> payload e = payload e' ->
  valid_frame e -> valid_frame e'.
Proof. unfold valid_frame, validate_websocket_frame. intros -> -> ->. done. Qed.

(** A frame is invalid with a message, or valid. *)
Lemma valid_frame_bind {A} e (k : result A string) : valid_frame e ->
  (let? _ := validate_websocket_frame e in k) = k.
Proof. intros H. unfold valid_frame in H. by rewrite H. Qed.

(** ** Encoding then decoding *)

Definition frame_key (e : WebSocketFrameEntry) (key : list Z) : list Z := if masked e then key else [].
Definition frame_body (e : WebSocketFrameEntry) (key : list Z) : list Z :=
  if masked e then apply_mask key (payload e) else payload e.

Lemma frame_body_length e key : length (frame_body e key) = length (payload e).
Proof. unfold frame_body. case_match; [apply apply_mask_length|done]. Qed.

Lemma encode_valid e key : valid_frame e ->
  encode_websocket_frame (Some key) e =
    Ok (first_byte (fin e) (opcode e) :: encode_length (mask_bit (masked e)) (len (payload e)) ++
        frame_key e key ++ frame_body e key).
Proof.
  intros Hv. unfold encode_websocket_frame. unfold valid_frame in Hv. rewrite Hv. cbn [result_bind].
  unfold frame_key, frame_body. by destruct (masked e).
Qed.

Lemma encode_ok random e bs : encode_websocket_frame random e = Ok bs ->
  valid_frame e /\ exists key, encode_websocket_frame (Some key) e = Ok bs.
Proof.
  intros H. pose proof H as H'. unfold encode_websocket_frame in H.
  destruct (validate_websocket_frame e) as [o|] eqn:E; [|done].
  apply validate_frame_ok in E as (Hv & _). split; [done|].
  destruct random as [key|]; [by exists key|]. exists [].
  unfold encode_websocket_frame in *. unfold valid_frame in Hv. rewrite Hv in *. cbn [result_bind] in *.
  by destruct (masked e).
Qed.

Lemma decode_valid e key : valid_frame e -> length (frame_key e key) = (if masked e then 4%nat else 0%nat) ->
  decode_websocket_frame (first_byte (fin e) (opcode e) ::
    encode_length (mask_bit (masked e)) (len (payload e)) ++ frame_key e key ++ frame_body e key)
  = Ok (frame_with_names 1 e).
Proof.
  intros Hv Hk. destruct (validate_frame_ok e _ Hv) as (_ & Ho & Hl).
  destruct (length_field (masked e) (len (payload e))) as (code & ext & -> & Hc & Hd & _); [unfold len in *; lia|].
  unfold decode_websocket_frame. cbn [app].
  destruct (first_byte_fields (fin e) (opcode e) Ho) as (-> & -> & ->).
  rewrite (proj2 (validate_opcode_ok (opcode e) (opcode e))) by done. cbn [Z.eqb negb result_bind].
  destruct (second_byte_fields (masked e) code Hc) as [-> ->]. rewrite !negb_involutive, Hd. cbn [result_bind].
  rewrite (proj2 (Z.ltb_ge _ _)) by lia.
  set (k := if masked e then 4%nat else 0%nat) in *.
  assert (Z.of_nat (2 + length ext + k) + len (payload e) <= usize_max) as Hu.
  { unfold MAX_WEBSOCKET_FRAME_BYTES in Hl.
    assert (length ext <= 10)%nat; [|unfold usize_max; destruct (masked e); lia].
    destruct (decide (length ext <= 10)%nat) as [|Hx]; [done|].
    specialize (Hd 0 0 []). unfold decode_length in Hd. repeat (case_match; try done); injection Hd as ? ?; lia. }
  rewrite (proj2 (Z.ltb_ge _ _)) by lia.
  replace (len _) with (Z.of_nat (2 + length ext + k) + len (payload e)).
  2:{ unfold len. cbn [length]. rewrite !length_app, frame_body_length, Hk. unfold k. lia. }
  rewrite Z.eqb_refl. cbn [negb].
  replace (drop (2 + length ext) _) with (frame_key e key ++ frame_body e key)
    by (cbn [Nat.add skipn]; by rewrite drop_app_length).
  replace (drop (2 + length ext + k) _) with (frame_body e key).
  2:{ rewrite <- drop_drop. cbn [Nat.add skipn]. by rewrite drop_app_length, drop_app_length' by done. }
  rewrite take_app_length' by done.
  replace (if masked e then _ else _) with (payload e).
  2:{ unfold frame_body, frame_key. destruct (masked e); [by rewrite apply_mask_involutive|done]. }
  rewrite valid_frame_bind by (by apply (valid_frame_ext e)). done.
Qed.

(** ** Decoding then encoding *)

Lemma first_byte_of b : is_u8 b -> Z.land b 112 = 0 ->
  b = first_byte (negb (Z.land b 128 =? 0)) (Z.land b 15).
Proof.
  intros Hb H.
  pose proof (range_check (fun b => negb (Z.land b 112 =? 0) ||
    (b =? first_byte (negb (Z.land b 128 =? 0)) (Z.land b 15))) 256 ltac:(by vm_compute) b Hb) as E.
  cbv beta in E. rewrite H in E. by apply Z.eqb_eq in E.
Qed.

Lemma second_byte_of b : is_u8 b ->
  b = Z.lor (mask_bit (negb (Z.land b 128 =? 0))) (Z.land b 127) /\ 0 <= Z.land b 127 < 128.
Proof.
  intros Hb.
  pose proof (range_check (fun b => (b =? Z.lor (mask_bit (negb (Z.land b 128 =? 0))) (Z.land b 127)) &&
    (0 <=? Z.land b 127) && (Z.land b 127 <? 128)) 256 ltac:(by vm_compute) b Hb) as E.
  cbv beta in E. bool_to_prop. lia.
Qed.

(** The length form is the shortest one: the 64-bit form only for long payloads. *)
Definition minimal_length (bytes : list Z) (n : Z) : Prop :=
  forall second, bytes !! 1%nat = Some second -> Z.land second 127 = 127 -> 65535 < n.

Lemma decode_length_ok b0 b1 r code n off : Forall is_u8 r -> 0 <= code < 128 ->
  decode_length (b0 :: b1 :: r) code = Ok (n, off) ->
  0 <= n /\ (2 <= off)%nat /\ (off - 2 <= length r)%nat /\
  (forall m, (code = 127 -> 65535 < n) -> n <= MAX_WEBSOCKET_FRAME_BYTES ->
    encode_length (mask_bit m) n = Z.lor (mask_bit m) code :: take (off - 2) r).
Proof.
  intros Hr Hc. unfold decode_length, len. cbn [length skipn]. rewrite drop_0.
  assert (forall w, (w <= length r)%nat -> let v := decode_loop false w 0 (take w r) 0 in
    0 <= v < 2 ^ (8 * Z.of_nat w) /\ encode_uint false w v = take w r) as Hw.
  { intros w Hw. assert (length (take w r) = w) as Hl by (rewrite length_take; lia).
    assert (Forall is_u8 (take w r)) as Hu by (by apply Forall_take).
    split; [by apply decode_loop_bound|by apply encode_decode]. }
  destruct (code <=? 125) eqn:E1; [|destruct (code =? 126) eqn:E2; [|destruct (code =? 127) eqn:E3]];
    bool_to_prop; repeat (case_match; try done); bool_to_prop; intros [= <- <-].
  - split_and!; try lia. intros m _ _. unfold encode_length. rewrite (proj2 (Z.leb_le code 125)) by lia.
    rewrite as_u8_small by (unfold is_u8; lia). done.
  - destruct (Hw 2%nat ltac:(lia)) as [Hb He]. cbn [Z.of_nat] in Hb. split_and!; try lia.
    intros m _ _. unfold encode_length. rewrite (proj2 (Z.leb_gt _ 125)), (proj2 (Z.leb_le _ 65535)) by lia.
    by rewrite He, E2.
  - destruct (Hw 8%nat ltac:(lia)) as [Hb He]. split_and!; try lia.
    intros m Hm _. specialize (Hm E3). unfold encode_length.
    rewrite (proj2 (Z.leb_gt _ 125)), (proj2 (Z.leb_gt _ 65535)) by lia. by rewrite He, E3.
Qed.

(** Inversion of the decoder: the header, the key and the masked body. *)
Lemma decode_ok bs e : Forall is_u8 bs -> decode_websocket_frame bs = Ok e ->
  exists b1 r off key, bs = first_byte (fin e) (opcode e) :: b1 :: r /\ is_u8 b1 /\ Forall is_u8 r /\
    masked e = negb (Z.land b1 128 =? 0) /\
    decode_length bs (Z.land b1 127) = Ok (len (payload e), off) /\
    drop (off - 2) r = frame_key e key ++ frame_body e key /\ valid_frame e.
Proof.
  intros Hu H. unfold decode_websocket_frame in H.
  destruct bs as [|b0 [|b1 r]]; try done. apply Forall_cons in Hu as [H0 [H1 Hr]%Forall_cons].
  destruct (Z.land b0 112 =? 0) eqn:Eres; [|done]. cbn [negb] in H. apply Z.eqb_eq in Eres.
  destruct (validate_websocket_opcode (Z.land b0 15)) as [o|] eqn:Eo; [|done]. cbn [result_bind] in H.
  destruct (decode_length (b0 :: b1 :: r) (Z.land b1 127)) as [[n off]|] eqn:El; [|done]. cbn [result_bind] in H.
  destruct (second_byte_of b1 H1) as [_ Hc].
  destruct (decode_length_ok _ _ _ _ _ _ Hr Hc El) as (Hn & Hoff & Hoff' & _).
  destruct (MAX_WEBSOCKET_FRAME_BYTES <? n); [done|]. destruct (usize_max <? _); [done|].
  set (m := negb (Z.land b1 128 =? 0)) in *. set (k := if m then 4%nat else 0%nat) in *.
  destruct (len (b0 :: b1 :: r) =? _) eqn:Elen; [|done]. cbn [negb] in H. apply Z.eqb_eq in Elen.
  unfold len in Elen. cbn [length] in Elen.
  assert (forall j, drop (off + j) (b0 :: b1 :: r) = drop (off - 2 + j) r) as Hd.
  { intros j. by replace (off + j)%nat with (S (S (off - 2 + j))) by lia. }
  pose proof (Hd 0%nat) as Hd0. rewrite !Nat.add_0_r in Hd0. rewrite Hd, Hd0 in H.
  destruct (validate_websocket_frame _) as [o'|] eqn:Ev in H; [|done]. injection H as <-.
  apply validate_frame_ok in Ev as (Hv & _).
  assert (length (drop (off - 2 + k) r) = Z.to_nat n) as Hlen by (rewrite length_drop; lia).
  exists b1, r, off, (take k (drop (off - 2) r)). cbn [fin opcode masked payload].
  split_and!; try done.
  - by rewrite <- first_byte_of.
  - rewrite El. do 2 f_equal. unfold len. destruct m; rewrite ?apply_mask_length, Hlen; lia.
  - unfold frame_key, frame_body. cbn [masked payload]. rewrite <- drop_drop. unfold k.
    destruct m; [by rewrite apply_mask_involutive, take_drop|done].
Qed.

Lemma decode_canonical bs e : Forall is_u8 bs -> decode_websocket_frame bs = Ok e ->
  (exists key, encode_websocket_frame (Some key) e = Ok bs) <-> minimal_length bs (len (payload e)).
Proof.
  intros Hu Hd. destruct (decode_ok bs e Hu Hd) as (b1 & r & off & key & -> & H1 & Hr & Hm & El & Ek & Hv).
  destruct (second_byte_of b1 H1) as [Eb Hc].
  destruct (decode_length_ok _ _ _ _ _ _ Hr Hc El) as (Hn & Hoff & Hoff' & He).
  destruct (validate_frame_ok e _ Hv) as (_ & _ & Hl). unfold minimal_length. split.
  - intros [key' E] second [= <-] Hs. rewrite encode_valid in E by done.
    destruct (length_field (masked e) (len (payload e))) as (code & ext & El' & Hc' & _); [lia|].
    rewrite El' in E. cbn [app] in E. injection E as E _.
    destruct (second_byte_fields (masked e) code Hc') as [_ E2]. rewrite E, Hs in E2.
    unfold encode_length in El'. rewrite <- E2 in El'.
    assert (forall x, 0 <= x < 127 -> Z.lor (mask_bit (masked e)) x <> Z.lor (mask_bit (masked e)) 127) as Hne.
    { intros x Hx Eq. apply (f_equal (fun z => Z.land z 127)) in Eq.
      destruct (second_byte_fields (masked e) x ltac:(lia)) as [_ Ex].
      destruct (second_byte_fields (masked e) 127 ltac:(lia)) as [_ E7]. cbv beta in Eq. lia. }
    repeat case_match; bool_to_prop; try lia; injection El' as El' _; exfalso.
    + eapply Hne; [|exact El']. rewrite as_u8_small by (unfold is_u8; lia). lia.
    + eapply Hne; [|exact El']. lia.
  - intros Hmin. exists key. rewrite encode_valid by done.
    rewrite He by (try done; intros; by apply (Hmin b1)). rewrite Hm, <- Eb. cbn [app].
    by rewrite <- Ek, take_drop.
Qed.

(** ** Fragmented messages *)

(** The frames after the first of a fragmented message, and the bytes they add:
    continuations, the last of them final, with control frames in between. *)
Inductive fragments (m : bool) : list WebSocketFrameEntry -> list Z -> Prop :=
| frag_last e : opcode e = 0 -> fin e = true -> masked e = m -> fragments m [e] (payload e)
| frag_more e l q : opcode e = 0 -> fin e = false -> masked e = m -> fragments m l q ->
    fragments m (e :: l) (payload e ++ q)
| frag_control e l q : 8 <= opcode e -> masked e = m -> fragments m l q -> fragments m (e :: l) q.

Definition message (first : WebSocketFrameEntry) (body : list Z) : WebSocketFrameEntry :=
  mk_frame true (opcode first) body (masked first) 1.

Lemma len_app a b : len (a ++ b) = len a + len b.
Proof. unfold len. rewrite length_app. lia. Qed.

Lemma len_nonneg a : 0 <= len a.
Proof. unfold len. lia. Qed.

Lemma valid_opcode e : valid_frame e -> validate_websocket_opcode (opcode e) = Ok (opcode e).
Proof. intros H. destruct (validate_frame_ok e _ H) as (_ & Ho & _). by apply validate_opcode_ok. Qed.

Lemma append_fragments_complete first idx cnt rest buf q : Forall valid_frame rest -> (0 < idx)%nat ->
  (idx + length rest = cnt)%nat -> fragments (masked first) rest q -> valid_frame (message first (buf ++ q)) ->
  append_fragments first idx cnt rest (buf, len buf) = Ok (message first (buf ++ q)).
Proof.
  intros Hf Hi Hc Hq. revert idx buf Hi Hc.
  induction Hq as [e Eo Ef Em|e l q Eo Ef Em Hq IH|e l q Eo Em Hq IH]; intros idx buf Hi Hc Hv;
    apply Forall_cons in Hf as [He Hl]; cbn [append_fragments append_websocket_fragment length] in *;
    rewrite valid_opcode by done; cbn [result_bind];
    rewrite (proj2 (Nat.eqb_neq idx 0)), Em, Bool.eqb_reflx by lia; cbn [negb].
  3:{ rewrite (proj2 (Z.leb_le 8 _)) by lia. apply IH; [done|lia|lia|done]. }
  all: rewrite Eo, Ef; cbn [Z.leb Z.eqb Z.compare negb]; rewrite <- len_app.
  all: destruct (validate_frame_ok _ _ Hv) as (_ & _ & Hmax); cbn [payload message] in Hmax;
    rewrite ?app_assoc in Hmax; rewrite ?(len_app (_ ++ _)) in Hmax.
  all: try pose proof (len_nonneg q); unfold MAX_WEBSOCKET_FRAME_BYTES in Hmax.
  all: rewrite (proj2 (Z.ltb_ge usize_max _)), (proj2 (Z.ltb_ge MAX_WEBSOCKET_FRAME_BYTES _))
    by (unfold usize_max, MAX_WEBSOCKET_FRAME_BYTES; lia).
  - rewrite (proj2 (Nat.eqb_eq _ _)) by lia. cbn [negb].
    by rewrite valid_frame_bind.
  - rewrite app_assoc in Hv |- *. apply IH; [done|lia|lia|done].
Qed.

Lemma append_fragments_sound first rest : Forall valid_frame rest -> forall idx cnt buf out, (0 < idx)%nat ->
  (idx + length rest = cnt)%nat -> append_fragments first idx cnt rest (buf, len buf) = Ok out ->
  exists q, fragments (masked first) rest q /\ out = message first (buf ++ q) /\ valid_frame out.
Proof.
  induction 1 as [|e l He Hl IH]; intros idx cnt buf out Hi Hc; [done|].
  cbn [append_fragments append_websocket_fragment length] in *. rewrite valid_opcode by done. cbn [result_bind].
  rewrite (proj2 (Nat.eqb_neq idx 0)) by lia.
  destruct (Bool.eqb (masked e) (masked first)) eqn:Em; [|done]. apply eqb_prop in Em. cbn [negb].
  destruct (8 <=? opcode e) eqn:E8; bool_to_prop.
  { intros H. destruct (IH (S idx) cnt buf out ltac:(lia) ltac:(lia) H) as (q & Hq & Hr).
    exists q. split; [by constructor|done]. }
  destruct (opcode e =? 0) eqn:E0; [|done]. cbn [negb]. apply Z.eqb_eq in E0.
  destruct (usize_max <? _); [done|]. destruct (MAX_WEBSOCKET_FRAME_BYTES <? _); [done|].
  destruct (fin e) eqn:Ef; cbn [negb].
  - destruct (S idx =? cnt)%nat eqn:Ec; [|done]. apply Nat.eqb_eq in Ec. cbn [negb].
    assert (l = []) as -> by (destruct l; [done|cbn [length] in Hc; lia]).
    destruct (validate_websocket_frame _) as [o|] eqn:Ev; [|done]. intros [= <-].
    apply validate_frame_ok in Ev as (Hv & _). exists (payload e). split; [by constructor|done].
  - rewrite <- len_app. intros H. destruct (IH (S idx) cnt (buf ++ payload e) out ltac:(lia) ltac:(lia) H)
      as (q & Hq & -> & Hv). exists (payload e ++ q). rewrite app_assoc. split; [by constructor|done].
Qed.

Lemma append_fragments_first first rest cnt st : valid_frame first -> fin first = false ->
  append_fragments first 0 cnt (first :: rest) st = append_fragments first 1 cnt rest st.
Proof.
  intros Hv Hf. destruct st as [buf total]. cbn [append_fragments append_websocket_fragment].
  rewrite valid_opcode by done. cbn [result_bind Nat.eqb]. by rewrite Hf.
Qed.

(** What [reassemble_entries] answers, on valid frames. *)
Lemma reassemble_spec entries out : Forall valid_frame entries ->
  reassemble_entries entries = Ok out <->
  exists first rest body, entries = first :: rest /\ (opcode first = 1 \/ opcode first = 2) /\
    out = message first (payload first ++ body) /\
    (fin first = true /\ rest = [] /\ body = [] \/
     fin first = false /\ fragments (masked first) rest body /\ valid_frame out).
Proof.
  intros Hv. destruct entries as [|first rest].
  { split; [done|]. by intros (? & ? & ? & ? & _). }
  apply Forall_cons in Hv as [Hf Hr]. unfold reassemble_entries. rewrite valid_opcode by done. cbn [result_bind].
  destruct ((opcode first =? 1) || (opcode first =? 2)) eqn:Eo; cbn [negb].
  2:{ apply orb_false_iff in Eo as [E1%Z.eqb_neq E2%Z.eqb_neq]. split; [done|].
      intros (? & ? & ? & [= <- <-] & [?|?] & _); congruence. }
  assert (opcode first = 1 \/ opcode first = 2) as Ho
    by (apply orb_true_iff in Eo as [?%Z.eqb_eq|?%Z.eqb_eq]; auto).
  destruct (fin first) eqn:Ef.
  - destruct rest as [|e rest]; cbn [length Nat.eqb negb].
    + split; [intros [= <-]; exists first, [], []; rewrite app_nil_r; by split_and!; auto|].
      intros (? & ? & ? & [= <- <-] & _ & -> & [(_ & _ & ->)|(? & _)]); [|congruence].
      unfold message. by rewrite app_nil_r.
    + split; [done|]. intros (? & ? & ? & [= <- <-] & _ & _ & [(_ & ? & _)|(? & _)]); congruence.
  - rewrite append_fragments_first by done. split.
    + intros (q & Hq & -> & Hm)%append_fragments_sound; try done; try (cbn [length]; lia).
      exists first, rest, q. by split_and!; auto.
    + intros (? & ? & q & [= <- <-] & _ & -> & [(? & _)|(_ & Hq & Hm)]); [congruence|].
      apply append_fragments_complete; try done; cbn [length]; lia.
Qed.

(** ** The session loop *)

Lemma read_exact_header what a b rest out w :
  read_exact what 2 (mk_socket (a :: b :: rest) out w) = Ok ([a; b], mk_socket rest out w).
Proof. exact (read_exact_app what 2 [a; b] rest out w eq_refl). Qed.

(** A client's frame on the wire: masked, under any four-octet key. *)
Definition wire (e : WebSocketFrameEntry) (bs : list Z) : Prop :=
  valid_frame e /\ masked e = true /\ exists key, length key = 4%nat /\ encode_websocket_frame (Some key) e = Ok bs.

Definition unmasked (e : WebSocketFrameEntry) : WebSocketFrameEntry := mk_frame (fin e) (opcode e) (payload e) false 1.

Lemma read_wire e bs rest out w : wire e bs ->
  read_websocket_frame (mk_socket (bs ++ rest) out w) = Ok (unmasked e, mk_socket rest out w).
Proof.
  intros (Hv & Hm & key & Hk & E). rewrite encode_valid in E by done. injection E as <-.
  destruct (validate_frame_ok e _ Hv) as (_ & Ho & Hl).
  destruct (length_field (masked e) (len (payload e))) as (code & ext & -> & Hc & _ & Hd); [unfold len in *; lia|].
  unfold read_websocket_frame. cbn [app].
  rewrite read_exact_header. cbn [result_bind].
  destruct (first_byte_fields (fin e) (opcode e) Ho) as (-> & -> & ->). cbn [Z.eqb negb].
  rewrite (proj2 (validate_opcode_ok (opcode e) (opcode e))) by done. cbn [result_bind].
  destruct (second_byte_fields (masked e) code Hc) as [-> ->]. rewrite !negb_involutive, Hm. cbn [negb].
  rewrite <- !app_assoc, Hd. cbn [result_bind]. rewrite (proj2 (Z.ltb_ge _ _)) by lia.
  unfold frame_key, frame_body. rewrite Hm.
  rewrite read_exact_app by done. cbn [result_bind].
  rewrite read_exact_app by (rewrite apply_mask_length; unfold len; lia). cbn [result_bind].
  rewrite apply_mask_involutive, valid_frame_bind by (by apply (valid_frame_ext e)). done.
Qed.

(** The pongs a list of frames provokes. *)
Definition pong (e : WebSocketFrameEntry) : list Z :=
  if opcode e =? 9 then 138 :: len (payload e) :: payload e else [].

Lemma pong_encoded e : valid_frame e -> opcode e = 9 ->
  encode_websocket_frame None (mk_frame true 10 (payload e) false 1) = Ok (pong e).
Proof.
  intros Hv Ho. unfold pong. rewrite Ho. cbn [Z.eqb].
  unfold valid_frame, validate_websocket_frame in Hv. rewrite Ho in Hv. cbn [validate_websocket_opcode] in Hv.
  unfold encode_websocket_frame, validate_websocket_frame. cbn [opcode payload fin masked].
  change (validate_websocket_opcode 10) with (Ok (E := string) 10).
  change (validate_websocket_opcode 9) with (Ok (E := string) 9) in Hv. cbn [result_bind] in *.
  cbn [Z.leb Z.compare Z.eqb andb negb Pos.eqb Pos.compare Pos.compare_cont] in *.
  destruct (MAX_WEBSOCKET_FRAME_BYTES <? _); [done|]. destruct (fin e); [|done]. cbn [negb] in Hv.
  destruct (125 <? len (payload e)) eqn:E; [done|]. cbn [result_bind]. bool_to_prop.
  pose proof (len_nonneg (payload e)). unfold encode_length. rewrite (proj2 (Z.leb_le _ 125)) by lia.
  rewrite Z.lor_0_l, as_u8_small by (unfold is_u8; lia). done.
Qed.

(** A frame other than a close frame, between the first fragment and the last. *)
Lemma step_control e fr rest out : valid_frame e -> 8 <= opcode e -> opcode e <> 8 ->
  message_step (unmasked e) fr (mk_socket rest out true) =
    Ok (Continue fr (mk_socket rest (out ++ pong e) true)).
Proof.
  intros Hv H8 Hn. destruct (validate_frame_ok e _ Hv) as (_ & Ho & _).
  assert (opcode e = 9 \/ opcode e = 10) as [E|E] by (unfold opcodes in Ho; set_unfold; lia);
    unfold message_step; cbn [unmasked opcode payload]; rewrite E; cbn [as_u8 Z.eqb].
  - change (as_u8 9 =? 9) with true. cbn [result_bind]. rewrite pong_encoded by done. done.
  - change (as_u8 10 =? 9) with false. change (as_u8 10 =? 10) with true. cbn [result_bind].
    unfold pong. rewrite E. by rewrite app_nil_r.
Qed.

Lemma read_message_step fuel e bs rest fr out : wire e bs ->
  read_websocket_message (S fuel) fr (mk_socket (bs ++ rest) out true) =
    match message_step (unmasked e) fr (mk_socket rest out true) with
    | Err m => Some (Err m)
    | Ok (Return frame s) => Some (Ok (frame, s))
    | Ok (Continue fr s) => read_websocket_message fuel fr s
    end.
Proof. intros H. cbn [read_websocket_message]. by rewrite (read_wire e) by done. Qed.

Lemma read_fragments op : (op = 1 \/ op = 2) -> forall l q, fragments true l q -> forall bss, Forall2 wire l bss ->
  Forall (fun e => opcode e <> 8) l -> forall fuel rest out, (length l <= fuel)%nat ->
  forall buf, valid_frame (mk_frame true op (buf ++ q) true 1) ->
  read_websocket_message fuel (Some (op, buf)) (mk_socket (concat bss ++ rest) out true) =
    Some (Ok (mk_frame true op (buf ++ q) false 1, mk_socket rest (out ++ flat_map pong l) true)).
Proof.
  intros Hop l q Hq. induction Hq as [e Eo Ef Em|e l q Eo Ef Em Hq IH|e l q Eo Em Hq IH];
    intros bss Hw Hc fuel rest out Hfu buf' Hv; inversion Hw as [|? bs ? bss' We Wl]; subst;
    apply Forall_cons in Hc as [Hc Hcl]; destruct fuel as [|fuel]; cbn [length] in Hfu; try lia;
    cbn [concat]; rewrite <- ?app_assoc, (read_message_step _ e) by done; cbn [flat_map].
  3:{ destruct We as [Hve _]. rewrite step_control by done. rewrite IH; try done; try lia. by rewrite app_assoc. }
  all: unfold message_step; cbn [unmasked opcode payload fin]; unfold pong; rewrite Eo, Ef.
  all: change (as_u8 0) with 0; cbn [Z.eqb Z.compare].
  all: destruct (validate_frame_ok _ _ Hv) as (_ & _ & Hmax); cbn [payload] in Hmax.
  all: rewrite ?app_assoc in Hmax; rewrite ?(len_app (_ ++ _)) in Hmax; try pose proof (len_nonneg q).
  all: rewrite (proj2 (Z.ltb_ge MAX_WEBSOCKET_FRAME_BYTES _)) by lia.
  - rewrite valid_frame_bind by (by apply (valid_frame_ext (mk_frame true op (buf' ++ payload e) true 1))).
    inversion Wl; subst. by rewrite !app_nil_r.
  - rewrite app_assoc in Hv |- *. rewrite IH; try done; try lia.
Qed.

Lemma read_exact_shrinks what n s bs s' : read_exact what n s = Ok (bs, s') ->
  length (incoming s') = (length (incoming s) - n)%nat /\ (n <= length (incoming s))%nat.
Proof.
  unfold read_exact, len. destruct (_ <? _) eqn:E; [done|]. intros [= <- <-]. cbn [incoming].
  rewrite length_drop. bool_to_prop. lia.
Qed.

Lemma read_length_shrinks code s n s' : read_length code s = Ok (n, s') ->
  (length (incoming s') <= length (incoming s))%nat.
Proof.
  unfold read_length. repeat case_match; try done; [by intros [= <- <-]| |].
  all: destruct (read_exact _ _ s) as [[bs t]|] eqn:E; [|done]; cbn [result_bind].
  all: apply read_exact_shrinks in E; case_match; [done|]; intros [= <- <-]; lia.
Qed.

Lemma read_frame_shrinks s e s' : read_websocket_frame s = Ok (e, s') ->
  (length (incoming s') < length (incoming s))%nat.
Proof.
  unfold read_websocket_frame.
  destruct (read_exact "read" 2 s) as [[h s1]|] eqn:E1; [|done]. apply read_exact_shrinks in E1. cbn [result_bind].
  destruct h as [|a [|b [|]]]; try done. case_match; [done|].
  destruct (validate_websocket_opcode _); [|done]. cbn [result_bind]. case_match; [done|].
  destruct (read_length _ s1) as [[n s2]|] eqn:E2; [|done]. apply read_length_shrinks in E2. cbn [result_bind].
  case_match; [done|].
  destruct (read_exact "mask read" 4 s2) as [[k s3]|] eqn:E3; [|done]. apply read_exact_shrinks in E3. cbn [result_bind].
  destruct (read_exact _ _ s3) as [[p s4]|] eqn:E4; [|done]. apply read_exact_shrinks in E4. cbn [result_bind].
  destruct (validate_websocket_frame _); [|done]. intros [= <- <-]. lia.
Qed.

Lemma write_all_incoming what bs s s' : write_all what bs s = Ok s' -> incoming s' = incoming s.
Proof. unfold write_all. case_match; [|done]. by intros [= <-]. Qed.

Lemma message_step_incoming e fr s fr' s' : message_step e fr s = Ok (Continue fr' s') -> incoming s' = incoming s.
Proof.
  unfold message_step. intros H. repeat (case_match; try done).
  all: repeat match type of H with
    | (let? _ := ?r in _) = _ => let E := fresh "E" in destruct r eqn:E; [|done]; cbn [result_bind] in H
    end; try done; injection H as <- <-; try done; by eapply write_all_incoming.
Qed.

Lemma read_message_total fuel : forall fr s, (length (incoming s) < fuel)%nat ->
  exists r, read_websocket_message fuel fr s = Some r.
Proof.
  induction fuel as [|fuel IH]; intros fr s Hs; [lia|]. cbn [read_websocket_message].
  destruct (read_websocket_frame s) as [[e s1]|m] eqn:E1; [|by eexists]. apply read_frame_shrinks in E1.
  destruct (message_step e fr s1) as [[fr' s2|e' s2]|m] eqn:E2; [|by eexists|by eexists].
  apply message_step_incoming in E2. apply IH. rewrite E2. lia.
Qed.

Lemma read_message_entries entries out bss rest sent fuel : Forall2 wire entries bss ->
  Forall (fun e => opcode e <> 8) entries -> reassemble_entries entries = Ok out -> (length entries <= fuel)%nat ->
  read_websocket_message fuel None (mk_socket (concat bss ++ rest) sent true) =
    Some (Ok (unmasked out, mk_socket rest (sent ++ flat_map pong entries) true)).
Proof.
  intros Hw Hc Hr Hf. assert (Forall valid_frame entries) as Hv.
  { clear -Hw. induction Hw as [|e bs l bss [He _] _ IH]; by constructor. }
  apply reassemble_spec in Hr as (first & l & body & -> & Ho & -> & Hcase); [|done].
  inversion Hw as [|? bs ? bss' Wf Wl]; subst. destruct fuel as [|fuel]; cbn [length] in Hf; [lia|].
  apply Forall_cons in Hc as [Hc Hcl]. cbn [concat flat_map]. rewrite <- app_assoc, (read_message_step _ first) by done.
  assert (pong first = []) as -> by (unfold pong; destruct Ho as [-> | ->]; done).
  assert (masked first = true) as Hm by (by destruct Wf as (_ & ? & _)).
  assert (message_step (unmasked first) None (mk_socket (concat bss' ++ rest) sent true) =
    if fin first then Ok (Return (unmasked first) (mk_socket (concat bss' ++ rest) sent true))
    else Ok (Continue (Some (opcode first, payload first)) (mk_socket (concat bss' ++ rest) sent true))) as ->.
  { unfold message_step. cbn [unmasked opcode payload fin]. destruct Ho as [-> | ->]; by destruct (fin first). }
  destruct Hcase as [(Hfin & -> & ->)|(Hfin & Hq & Hvo)]; rewrite Hfin; cbn [app].
  - inversion Wl; subst. cbn [flat_map concat app]. unfold unmasked, message. cbn [fin opcode payload masked].
    by rewrite !app_nil_r, Hfin.
  - rewrite Hm in Hq. unfold message in Hvo. rewrite Hm in Hvo.
    by rewrite (read_fragments _ Ho _ _ Hq _ Wl Hcl fuel rest sent ltac:(lia) (payload first) Hvo).
Qed.

(** ** Claims *)

(** Encoding any valid frame, under any mask key, succeeds, and decoding the bytes
    gives the frame back. *)
Lemma websocket_frame_roundtrip (e : WebSocketFrameEntry) (key : list Z) :
  valid_frame e -> length key = 4%nat ->
  exists bs, encode_websocket_frame (Some key) e = Ok bs /\ decode_websocket_frame bs = Ok (frame_with_names 1 e).
Proof.
  intros Hv Hk. eexists. split; [by apply encode_valid|]. apply decode_valid; [done|].
  unfold frame_key. by destruct (masked e).
Qed.

Definition demo_frame : WebSocketFrameEntry := mk_frame true 1 [104; 105] true 1.

(** The bytes a frame is decoded from are its encoding, under some key, exactly when
    the length is in its shortest form; the decoder also accepts the 64-bit form for
    lengths that fit in 16 bits. *)
Lemma websocket_decode_canonical (bs : list Z) (e : WebSocketFrameEntry) :
  Forall is_u8 bs -> decode_websocket_frame bs = Ok e ->
  (exists key, encode_websocket_frame (Some key) e = Ok bs) <-> minimal_length bs (len (payload e)).
Proof. apply decode_canonical. Qed.

Definition long_form : list Z := [130; 127; 0; 0; 0; 0; 0; 0; 0; 1; 7].

(** Reassembling valid frames answers a message exactly when they are one complete
    data frame, or a first fragment followed by continuations, the last of them final,
    with only control frames in between, all with one masking state, and the joined
    payload is a valid message; the message is the concatenation of the fragments. *)
Lemma websocket_reassembly (entries : list WebSocketFrameEntry) (out : WebSocketFrameEntry) :
  Forall valid_frame entries ->
  reassemble_entries entries = Ok out <->
  exists first rest body, entries = first :: rest /\ (opcode first = 1 \/ opcode first = 2) /\
    out = message first (payload first ++ body) /\
    (fin first = true /\ rest = [] /\ body = [] \/
     fin first = false /\ fragments (masked first) rest body /\ valid_frame out).
Proof. apply reassemble_spec. Qed.

Definition demo_fragments : list WebSocketFrameEntry :=
  [mk_frame false 1 [226; 130] true 1; mk_frame true 9 [1] true 1; mk_frame true 0 [172] true 1].

Lemma demo_fragments_valid : Forall valid_frame demo_fragments.
Proof. repeat constructor. Qed.

(** C6: reading a message from a socket ends on every input, in at most one round per
    octet; and on the masked frames of a message it answers, without the mask, what
    reassembling these frames answers, consumes exactly them, and sends one pong for
    each ping, in order. *)
Theorem websocket_session_reads_message (entries : list WebSocketFrameEntry) (out : WebSocketFrameEntry)
    (bss : list (list Z)) (rest sent : list Z) :
  Forall2 wire entries bss -> Forall (fun e => opcode e <> 8) entries -> reassemble_entries entries = Ok out ->
  (forall fr s, exists r, read_websocket_message (S (length (incoming s))) fr s = Some r) /\
  forall fuel, (length entries <= fuel)%nat ->
    read_websocket_message fuel None (mk_socket (concat bss ++ rest) sent true) =
      Some (Ok (unmasked out, mk_socket rest (sent ++ flat_map pong entries) true)).
Proof.
  intros Hw Hc Hr. split; [intros fr s; apply read_message_total; lia|].
  intros fuel Hf. by apply read_message_entries.
Qed.

Definition demo_wire : list (list Z) :=
  [[1; 130; 1; 2; 3; 4; 227; 128]; [137; 129; 1; 2; 3; 4; 0]; [128; 129; 1; 2; 3; 4; 173]].

Lemma websocket_session_reads_message_witness :
  read_websocket_message 3 None (mk_socket (concat demo_wire ++ [99]) [] true) =
    Some (Ok (mk_frame true 1 [226; 130; 172] false 1, mk_socket [99] [138; 1; 1] true)).
Proof.
  refine (proj2 (websocket_session_reads_message demo_fragments (mk_frame true 1 [226; 130; 172] true 1) demo_wire
    [99] [] _ _ _) 3%nat _).
  - repeat constructor; exists [1; 2; 3; 4]; split; vm_compute; reflexivity.
  - repeat constructor; cbn; lia.
  - vm_compute; reflexivity.
  - cbn. lia.
Defined.

Definition demo_table : Frames := mk_table {[ 1 := mk_frame true 1 [] false 1 ]} 2.

(** Assigning a payload that validation rejects reports the error, and the frame
    value holds the rejected payload nevertheless, so that later calls fail. *)
Lemma websocket_rejected_assignment_kept :
  let '(r, t) := set_websocket_frame_field (Some 1) Payload (Some (VBytes [255])) demo_table in
  r = Err "WebSocket text payload must be valid UTF-8" /\
  websocket_frame_field_value (Some 1) Payload t = Ok (VBytes [255]) /\
  mux_net_websocket_frame_encode None (Some 1) t = Err "WebSocket text payload must be valid UTF-8".
Proof. vm_compute. done. Qed.
