(* ===== verification/Http.v ===== *)
(** * HTTP/1.x messages ([src/src/net.rs])

    Header collections with their budget, the server's configuration, reading a request
    from a connection (head, fixed-length body, chunked body with trailers), and
    writing a response.  A connection is the list of pieces its reads answer, in order;
    the end of the list is the end of the stream.  Texts are code points, [utf8] their
    bytes; messages of errors leave out interpolated values.  The request-head parser (the [httparse] crate) and the URL parser are
    parameters. *)

From S2P Require Import Prelude AssocList Value Str Utf8.

(** ** Octets and tokens *)

Definition nlen {A} (l : list A) : Z := Z.of_nat (length l).
Definition byte_len (s : text) : Z := nlen (utf8 s).

Definition to_ascii_uppercase (c : Z) : Z := if in_range 97 122 c then c - 32 else c.
Definition lower (s : text) : text := to_ascii_lowercase <$> s.
Definition upper (s : text) : text := to_ascii_uppercase <$> s.
Definition eq_ignore_ascii_case (a b : text) : bool := list_eqb Z.eqb (lower a) (lower b).

Definition is_ascii_alphanumeric (b : Z) : bool := in_range 48 57 b || in_range 65 90 b || in_range 97 122 b.

(** [!#$%&'*+-.^_`|~] *)
Definition token_marks : list Z := [33; 35; 36; 37; 38; 39; 42; 43; 45; 46; 94; 95; 96; 124; 126].

Definition is_http_token (value : text) : bool :=
  negb (nlen value =? 0) &&
  forallb (fun b => is_ascii_alphanumeric b || existsb (Z.eqb b) token_marks) (utf8 value).

Definition header_name (name : text) : result text string :=
  if negb (is_http_token name) then Err "header name must be a non-empty HTTP token" else Ok (lower name).

Definition header_value (value : text) : result unit string :=
  if existsb (fun b => (b =? 13) || (b =? 10) || ((b <? 32) && negb (b =? 9)) || (b =? 127)) (utf8 value)
  then Err "header value cannot contain control characters" else Ok tt.

Definition header : Type := text * text.
Definition name_is (wanted : string) (h : header) : bool := eq_ignore_ascii_case h.1 (txt wanted).

(** [s.trim().parse::<usize>()]: an optional plus sign and digits, checked on each step. *)
Fixpoint usize_digits (radix : Z) (s : text) (acc : Z) : option Z :=
  match s with
  | [] => Some acc
  | c :: r =>
      match to_digit radix c with
      | None => None
      | Some d => if acc * radix + d <=? usize_max then usize_digits radix r (acc * radix + d) else None
      end
  end.

Definition parse_usize (radix : Z) (s : text) : option Z :=
  match s with
  | [] => None
  | c :: r =>
      if c =? 43 then (match r with [] => None | _ => usize_digits radix r 0 end) else usize_digits radix s 0
  end.

(** ** Budgets *)

Definition MAX_HTTP_HEADER_BYTES : Z := 64 * 1024.
Definition MAX_HTTP_BODY_BYTES : Z := 16 * 1024 * 1024.
Definition MAX_HTTP_HEADERS_COUNT : Z := 128.

Definition validate_http_buffered_body (body : list Z) : result unit string :=
  if MAX_HTTP_BODY_BYTES <? nlen body then Err "HTTP buffered body exceeds the 16777216-byte limit" else Ok tt.

Definition checked_add (a b : Z) : option Z := if a + b <=? usize_max then Some (a + b) else None.

(** The total of the loop; [None] when an addition overflows. *)
Fixpoint header_block_size (headers : list header) (total : Z) : option Z :=
  match headers with
  | [] => Some total
  | (name, value) :: rest =>
      match checked_add (byte_len name) 2 with
      | None => None
      | Some s =>
          match checked_add s (byte_len value) with
          | None => None
          | Some s =>
              match checked_add s 2 with
              | None => None
              | Some field_size =>
                  match checked_add total field_size with
                  | None => None
                  | Some total => header_block_size rest total
                  end
              end
          end
      end
  end.

Definition validate_http_header_budget (headers : list header) : result unit string :=
  if MAX_HTTP_HEADERS_COUNT <? nlen headers then Err "HTTP header field count exceeds the 128-field limit"
  else
    match header_block_size headers 2 with
    | None => Err "HTTP header block size overflowed"
    | Some total =>
        if MAX_HTTP_HEADER_BYTES <? total then Err "HTTP header block exceeds the 65536-byte limit" else Ok tt
    end.

(** ** Header collections

    The [values] of a [HeaderData]; names are stored in lower case. *)

Definition mux_net_http_headers_set (values : list header) (name value : text) : result unit string * list header :=
  match (let? name := header_name name in
         let? _ := header_value value in
         let replacement := List.filter (fun h : header => negb (list_eqb Z.eqb h.1 name)) values ++ [(name, value)] in
         let? _ := validate_http_header_budget replacement in
         Ok replacement) with
  | Ok replacement => (Ok tt, replacement)
  | Err e => (Err e, values)
  end.

Definition mux_net_http_headers_append (values : list header) (name value : text)
    : result unit string * list header :=
  match (let? name := header_name name in
         let? _ := header_value value in
         let replacement := values ++ [(name, value)] in
         let? _ := validate_http_header_budget replacement in
         Ok replacement) with
  | Ok replacement => (Ok tt, replacement)
  | Err e => (Err e, values)
  end.

Definition mux_net_http_headers_get (values : list header) (name : text) : result (option text) string :=
  let? name := header_name name in
  Ok (snd <$> List.find (fun h : header => list_eqb Z.eqb h.1 name) values).

Definition mux_net_http_headers_values (values : list header) (name : text) : result (list text) string :=
  let? name := header_name name in
  Ok (snd <$> List.filter (fun h : header => list_eqb Z.eqb h.1 name) values).

Definition mux_net_http_headers_remove (values : list header) (name : text) : result unit string * list header :=
  match header_name name with
  | Ok name => (Ok tt, List.filter (fun h : header => negb (list_eqb Z.eqb h.1 name)) values)
  | Err e => (Err e, values)
  end.

(** ** Server configuration *)

Record HttpServerConfigEntry : Type := mk_config {
  max_header_bytes : Z;
  max_body_bytes : Z;
  max_headers : Z;
  read_timeout_ms : Z;
  access_log : bool;
  cors_origins : list text;
  cors_allow_credentials : bool;
  static_root : text;
  worker_count : Z;
  heartbeat_interval_ms : Z;
}.

(** [HttpServerLimits] has the same fields, with unsigned widths. *)
Definition HttpServerLimits : Type := HttpServerConfigEntry.

Definition default_http_server_limits : HttpServerLimits :=
  mk_config MAX_HTTP_HEADER_BYTES MAX_HTTP_BODY_BYTES MAX_HTTP_HEADERS_COUNT 30000 false [] false [] 1 15000.

Definition has_line_break (s : text) : bool := existsb (fun b => (b =? 13) || (b =? 10)) (utf8 s).

Definition http_server_limits (e : HttpServerConfigEntry) : result HttpServerLimits string :=
  if max_header_bytes e <? 0 then Err "HTTP server max_header_bytes must be positive"
  else if max_body_bytes e <? 0 then Err "HTTP server max_body_bytes must be positive"
  else if max_headers e <? 0 then Err "HTTP server max_headers must be positive"
  else if worker_count e <? 0 then Err "HTTP server worker_count must be positive"
  else if negb (in_range 1 (16 * 1024 * 1024) (max_header_bytes e)) ||
          negb (in_range 1 (16 * 1024 * 1024) (max_body_bytes e)) then
    Err "HTTP server byte limits must be between 1 and 16777216"
  else if negb (in_range 1 1024 (max_headers e)) then Err "HTTP server max_headers must be between 1 and 1024"
  else if negb (in_range 0 86400000 (read_timeout_ms e)) then
    Err "HTTP server read_timeout_ms must be between 0 and 86400000"
  else if negb (in_range 1 256 (worker_count e)) then Err "HTTP server worker_count must be between 1 and 256"
  else if negb (in_range 0 300000 (heartbeat_interval_ms e)) then
    Err "HTTP server heartbeat_interval_ms must be between 0 and 300000"
  else if existsb (fun o => (nlen o =? 0) || has_line_break o) (cors_origins e) then
    Err "HTTP CORS origins must be non-empty and contain no CR/LF"
  else if cors_allow_credentials e && existsb (list_eqb Z.eqb (txt "*")) (cors_origins e) then
    Err "HTTP CORS wildcard origin cannot be used with credentials"
  else if has_line_break (static_root e) then Err "HTTP static_root must not contain CR/LF"
  else Ok e.

Inductive HttpServerConfigField : Type :=
| MaxHeaderBytes (v : Z) | MaxBodyBytes (v : Z) | MaxHeaders (v : Z) | ReadTimeoutMs (v : Z) | AccessLog (v : bool)
| CorsOrigins (v : list text) | CorsAllowCredentials (v : bool) | StaticRoot (v : text) | WorkerCount (v : Z)
| HeartbeatIntervalMs (v : Z).

(** The field with the value of its type that is assigned; a candidate is validated
    first and replaces the entry only when it passes. *)
Definition set_http_server_config_field (field : HttpServerConfigField) (e : HttpServerConfigEntry)
    : result unit string * HttpServerConfigEntry :=
  let 'mk_config hb bb mh rt al co cc sr wc hi := e in
  let candidate :=
    match field with
    | MaxHeaderBytes v => mk_config v bb mh rt al co cc sr wc hi
    | MaxBodyBytes v => mk_config hb v mh rt al co cc sr wc hi
    | MaxHeaders v => mk_config hb bb v rt al co cc sr wc hi
    | ReadTimeoutMs v => mk_config hb bb mh v al co cc sr wc hi
    | AccessLog v => mk_config hb bb mh rt v co cc sr wc hi
    | CorsOrigins v => mk_config hb bb mh rt al v cc sr wc hi
    | CorsAllowCredentials v => mk_config hb bb mh rt al co v sr wc hi
    | StaticRoot v => mk_config hb bb mh rt al co cc v wc hi
    | WorkerCount v => mk_config hb bb mh rt al co cc sr v hi
    | HeartbeatIntervalMs v => mk_config hb bb mh rt al co cc sr wc v
    end in
  match http_server_limits candidate with
  | Ok _ => (Ok tt, candidate)
  | Err m => (Err m, e)
  end.

(** ** Reading a request *)

Definition crlf : list Z := [13; 10].

Definition find_double_crlf (buf : list Z) : option nat := find_sub (crlf ++ crlf) buf.

Definition http_header_end_within_limit (buffer : list Z) (max_header_bytes : Z) : result (option nat) string :=
  match find_double_crlf buffer with
  | Some position =>
      let header_end := (position + 4)%nat in
      if max_header_bytes <? Z.of_nat header_end then Err "http headers too large" else Ok (Some header_end)
  | None => if max_header_bytes <? nlen buffer then Err "http headers too large" else Ok None
  end.

(** The pieces still to be read. *)
Definition stream : Type := list (list Z).

(** The loop of [read_http_request_headers]; a read of no bytes is the end. *)
Fixpoint read_http_request_headers (s : stream) (buffer : list Z) (max_header_bytes : Z)
    : result (list Z * nat * stream) string :=
  match s with
  | [] => Err "connection closed before request headers"
  | chunk :: s =>
      if nlen chunk =? 0 then Err "connection closed before request headers"
      else
        let buffer := buffer ++ chunk in
        let? found := http_header_end_within_limit buffer max_header_bytes in
        match found with
        | Some header_end => Ok (buffer, header_end, s)
        | None => read_http_request_headers s buffer max_header_bytes
        end
  end.

Fixpoint read_body_loop (s : stream) (body : list Z) (content_length : Z) : result (list Z * stream) string :=
  if nlen body <? content_length then
    match s with
    | [] => Err "connection closed before request body complete"
    | chunk :: s =>
        if nlen chunk =? 0 then Err "connection closed before request body complete"
        else
          let body := body ++ chunk in
          if content_length <? nlen body then Ok (take (Z.to_nat content_length) body, s)
          else read_body_loop s body content_length
    end
  else Ok (body, s).

Definition read_http_request_body (s : stream) (initial_body : list Z) (content_length max_body_bytes : Z)
    : result (list Z * stream) string :=
  if max_body_bytes <? content_length then Err "request body too large"
  else
    let? (body, s) := read_body_loop s initial_body content_length in
    Ok (take (Z.to_nat content_length) body, s).

Fixpoint content_length_loop (headers : list header) (length : option Z) : result (option Z) string :=
  match headers with
  | [] => Ok length
  | h :: rest =>
      if name_is "content-length" h then
        match parse_usize 10 (trim h.2) with
        | None => Err "invalid Content-Length header"
        | Some parsed =>
            match length with
            | Some known =>
                if negb (known =? parsed) then Err "conflicting Content-Length headers"
                else content_length_loop rest (Some parsed)
            | None => content_length_loop rest (Some parsed)
            end
        end
      else content_length_loop rest length
  end.

Definition header_content_length_pairs (headers : list header) : result (option Z) string :=
  let? length := content_length_loop headers None in
  match length with
  | None => Ok None
  | Some len => if MAX_HTTP_BODY_BYTES <? len then Err "request body too large" else Ok (Some len)
  end.

(** The tokens of the transfer codings, in order. *)
Fixpoint chunked_loop (tokens : list text) (chunked : bool) : result bool string :=
  match tokens with
  | [] => Ok chunked
  | token :: rest =>
      let token := trim token in
      if nlen token =? 0 then Err "invalid Transfer-Encoding header"
      else if negb (eq_ignore_ascii_case token (txt "chunked")) then
        Err "unsupported Transfer-Encoding; only chunked is supported"
      else if chunked then Err "request must contain exactly one chunked transfer encoding"
      else chunked_loop rest true
  end.

Definition request_uses_chunked_transfer_encoding (headers : list header) : result bool string :=
  chunked_loop (flat_map (fun h => split_text h.2 (txt ",")) (List.filter (name_is "transfer-encoding") headers)) false.

(** ** Chunked bodies *)

Definition validate_http_request_trailer (line : list Z) : result unit string :=
  match find_sub [58] line with
  | None => Err "invalid HTTP request trailer field"
  | Some separator =>
      match utf8_decode (take separator line) with
      | None => Err "HTTP request trailer name is not utf-8"
      | Some name =>
          match utf8_decode (drop (S separator) line) with
          | None => Err "HTTP request trailer value is not utf-8"
          | Some value =>
              let? name := header_name name in
              let? _ := header_value (trim value) in
              if eq_ignore_ascii_case name (txt "content-length") ||
                 eq_ignore_ascii_case name (txt "transfer-encoding")
              then Err "HTTP request trailer is not permitted" else Ok tt
          end
      end
  end.

Definition saturating_add (a b : Z) : Z := Z.min usize_max (a + b).

(** [buffer] and the stream behind it. *)
Definition read_more_http_bytes (s : stream) (buffer : list Z) (max_header_bytes max_body_bytes : Z)
    : result (list Z * stream) string :=
  match s with
  | [] => Err "connection closed before chunked request body complete"
  | chunk :: s =>
      if nlen chunk =? 0 then Err "connection closed before chunked request body complete"
      else
        let buffer := buffer ++ chunk in
        if saturating_add max_body_bytes max_header_bytes <? nlen buffer then Err "request body too large"
        else Ok (buffer, s)
  end.

Section Chunked.
Context (max_header_bytes max_body_bytes : Z).

(** Each round but the last reads a piece: [None] needs more rounds than pieces. *)
Fixpoint read_http_line_end (fuel : nat) (s : stream) (buffer : list Z) (cursor : nat) (too_large : option string)
    : option (result (nat * list Z * stream) string) :=
  match fuel with
  | O => None
  | S fuel =>
      match find_sub crlf (drop cursor buffer) with
      | Some relative => Some (Ok ((cursor + relative)%nat, buffer, s))
      | None =>
          let more :=
            match read_more_http_bytes s buffer max_header_bytes max_body_bytes with
            | Err e => Some (Err e)
            | Ok (buffer, s) => read_http_line_end fuel s buffer cursor too_large
            end in
          match too_large with
          | Some message => if max_header_bytes <? nlen buffer - Z.of_nat cursor then Some (Err message) else more
          | None => more
          end
      end
  end.

Definition line_fuel (s : stream) : nat := S (length s).

Definition read_chunk_size (s : stream) (buffer : list Z) (cursor : nat)
    : option (result (Z * nat * list Z * stream) string) :=
  match read_http_line_end (line_fuel s) s buffer cursor (Some "chunk size line too large") with
  | None => None
  | Some (Err e) => Some (Err e)
  | Some (Ok (line_end, buffer, s)) =>
      Some match utf8_decode (take (line_end - cursor) (drop cursor buffer)) with
           | None => Err "chunk size line is not utf-8"
           | Some line =>
               match parse_usize 16 (trim (default [] (head (split_text line (txt ";"))))) with
               | None => Err "invalid chunk size"
               | Some size => Ok (size, (line_end + 2)%nat, buffer, s)
               end
           end
  end.

Fixpoint read_trailers (fuel : nat) (s : stream) (buffer : list Z) (cursor : nat) (bytes count max_trailers : Z)
    : option (result (nat * list Z * stream) string) :=
  match fuel with
  | O => None
  | S fuel =>
      match read_http_line_end (line_fuel s) s buffer cursor None with
      | None => None
      | Some (Err e) => Some (Err e)
      | Some (Ok (trailer_end, buffer, s)) =>
          let line := take (trailer_end - cursor) (drop cursor buffer) in
          let cursor := (trailer_end + 2)%nat in
          if nlen line =? 0 then Some (Ok (cursor, buffer, s))
          else
            let bytes := saturating_add (saturating_add bytes (nlen line)) 2 in
            let count := saturating_add count 1 in
            if max_header_bytes <? bytes then Some (Err "chunked request trailers too large")
            else if max_trailers <? count then Some (Err "too many HTTP request trailer fields")
            else match validate_http_request_trailer line with
                 | Err e => Some (Err e)
                 | Ok _ => read_trailers fuel s buffer cursor bytes count max_trailers
                 end
      end
  end.

Fixpoint fill_chunk (s : stream) (buffer : list Z) (cursor : nat) (size : Z) : result (list Z * stream) string :=
  if nlen buffer - Z.of_nat cursor <? saturating_add size 2 then
    match s with
    | [] => Err "connection closed before chunked request body complete"
    | chunk :: s' =>
        let? (buffer, _) := read_more_http_bytes s buffer max_header_bytes max_body_bytes in
        fill_chunk s' buffer cursor size
    end
  else Ok (buffer, s).

Definition read_chunk_data (s : stream) (buffer : list Z) (cursor : nat) (body : list Z) (size : Z)
    : result (list Z * nat * list Z * stream) string :=
  let? (buffer, s) := fill_chunk s buffer cursor size in
  let n := Z.to_nat size in
  let body := body ++ take n (drop cursor buffer) in
  let cursor := (cursor + n)%nat in
  if negb (list_eqb Z.eqb (take 2 (drop cursor buffer)) crlf) then Err "chunk is missing its trailing CRLF"
  else Ok (body, (cursor + 2)%nat, buffer, s).

(** The loop over chunks; a chunk takes at least one byte of the body's budget. *)
Fixpoint read_chunks (fuel : nat) (s : stream) (buffer : list Z) (cursor : nat) (body : list Z) (max_trailers : Z)
    : option (result (list Z) string) :=
  match fuel with
  | O => None
  | S fuel =>
      match read_chunk_size s buffer cursor with
      | None => None
      | Some (Err e) => Some (Err e)
      | Some (Ok (size, cursor, buffer, s)) =>
          if size =? 0 then
            match read_trailers (S (Z.to_nat max_header_bytes)) s buffer cursor 0 0 max_trailers with
            | None => None
            | Some (Err e) => Some (Err e)
            | Some (Ok _) => Some (Ok body)
            end
          else if max_body_bytes <? saturating_add (nlen body) size then Some (Err "request body too large")
          else
            match read_chunk_data s buffer cursor body size with
            | Err e => Some (Err e)
            | Ok (body, cursor, buffer, s) => read_chunks fuel s buffer cursor body max_trailers
            end
      end
  end.

Definition read_chunked_http_request_body (s : stream) (initial_body : list Z) (max_trailers : Z)
    : option (result (list Z) string) :=
  read_chunks (S (S (Z.to_nat max_body_bytes))) s initial_body 0 [] max_trailers.

End Chunked.

(** ** The request *)

Section Request.
(** [httparse::Request::parse] of a header block with room for a number of headers:
    method, target, minor version and raw header fields; [None] when it rejects. *)
Context (httparse : list Z -> Z -> option (text * text * Z * list (text * list Z))).
(** [Url::parse] of [http://value/] has a host and nothing but a host and a port. *)
Context (is_authority : text -> bool).

Definition is_ascii_whitespace (b : Z) : bool := (b =? 9) || (b =? 10) || (b =? 12) || (b =? 13) || (b =? 32).

Definition validate_http_host_value (value : text) : result unit string :=
  if existsb is_ascii_whitespace (utf8 value) || negb (is_authority value)
  then Err "HTTP request Host header must be a URI authority" else Ok tt.

Definition validate_http_request_host (version : Z) (headers : list header) : result unit string :=
  let hosts := List.filter (name_is "host") headers in
  if 1 <? nlen hosts then Err "HTTP request must contain exactly one Host header"
  else
    match hosts with
    | (_, value) :: _ =>
        if nlen value =? 0 then Err "HTTP request Host header must not be empty"
        else validate_http_host_value value
    | [] => if version =? 1 then Err "HTTP/1.1 request is missing the Host header" else Ok tt
    end.

Fixpoint request_headers (raw : list (text * list Z)) : result (list header) string :=
  match raw with
  | [] => Ok []
  | (name, value) :: rest =>
      match utf8_decode value with
      | None => Err "header contains invalid utf-8"
      | Some value =>
          let value := trim value in
          let? name := header_name name in
          let? _ := header_value value in
          let? rest := request_headers rest in
          Ok ((name, value) :: rest)
      end
  end.

Definition parse_http_request_header_pairs (header_slice : list Z) (max_headers : Z)
    : result (text * text * Z * list header) string :=
  match httparse header_slice max_headers with
  | None => Err "invalid http request"
  | Some (method, raw_target, version, raw) =>
      if negb ((version =? 0) || (version =? 1)) then Err "unsupported http version"
      else
        let? headers := request_headers raw in
        let? _ := validate_http_request_host version headers in
        Ok (method, raw_target, version, headers)
  end.

Definition is_visible_ascii (b : Z) : bool := in_range 33 126 b.

(** [http_request_id]; [next] is [NEXT_HTTP_REQUEST_ID]. *)
Definition http_request_id (headers : list header) (next : Z) : text :=
  let fresh := txt "mux-" ++ decimal 20 next in
  match List.find (name_is "x-request-id") headers with
  | Some (_, value) =>
      let value := trim value in
      if negb (nlen value =? 0) && (byte_len value <=? 128) && forallb is_visible_ascii (utf8 value)
      then value else fresh
  | None => fresh
  end.

Record HttpRequestEntry : Type := mk_request {
  method : text;
  url : text;
  request_id : text;
  headers : list header;
  body : list Z;
}.

(** [read_typed_http_request_with_limits]; [None] only when a loop runs out of fuel. *)
Definition read_typed_http_request (s : stream) (limits : HttpServerLimits) (next_id : Z)
    : option (result HttpRequestEntry string) :=
  match read_http_request_headers s [] (max_header_bytes limits) with
  | Err e => Some (Err e)
  | Ok (buffer, header_end, s) =>
      match parse_http_request_header_pairs (take header_end buffer) (max_headers limits) with
      | Err e => Some (Err e)
      | Ok (method, raw_target, _, headers) =>
          if negb (is_http_token method) then Some (Err "invalid HTTP request method")
          else
            let initial_body := drop header_end buffer in
            match (let? content_length := header_content_length_pairs headers in
                   let? chunked := request_uses_chunked_transfer_encoding headers in
                   Ok (content_length, chunked)) with
            | Err e => Some (Err e)
            | Ok (content_length, chunked) =>
                let finish (body : list Z) :=
                  let headers := (fun h => (lower h.1, h.2)) <$> headers in
                  mk_request (upper method) raw_target (http_request_id headers next_id) headers body in
                match chunked, content_length with
                | true, Some _ => Some (Err "request cannot use both Transfer-Encoding and Content-Length")
                | true, None =>
                    match read_chunked_http_request_body (max_header_bytes limits) (max_body_bytes limits) s
                            initial_body (Z.max 0 (max_headers limits - nlen headers)) with
                    | None => None
                    | Some (Err e) => Some (Err e)
                    | Some (Ok body) => Some (Ok (finish body))
                    end
                | false, _ =>
                    match (match content_length with
                           | Some length => Ok length
                           | None => if nlen initial_body =? 0 then Ok 0
                                     else Err "request body present without Content-Length header"
                           end) with
                    | Err e => Some (Err e)
                    | Ok length =>
                        match read_http_request_body s initial_body length (max_body_bytes limits) with
                        | Err e => Some (Err e)
                        | Ok (body, _) => Some (Ok (finish body))
                        end
                    end
                end
            end
      end
  end.

End Request.

(** ** Access log *)

Definition is_control (c : Z) : bool := in_range 0 31 c || in_range 127 159 c.

Fixpoint lower_hex (fuel : nat) (n : Z) : text :=
  let digit d := if d <? 10 then 48 + d else 87 + d in
  match fuel with
  | O => []
  | S fuel => if n <? 16 then [digit n] else lower_hex fuel (n / 16) ++ [digit (n mod 16)]
  end.

(** [char::escape_default] of a control character. *)
Definition escape_control (c : Z) : text :=
  if c =? 9 then txt "\t" else if c =? 10 then txt "\n" else if c =? 13 then txt "\r"
  else txt "\u{" ++ lower_hex 6 c ++ txt "}".

Definition sanitize_http_log_field (value : text) : text :=
  flat_map (fun c => if is_control c || (c =? 127) then escape_control c else [c]) value.

(** ** Writing a response *)

Record HttpResponseHeaderState : Type := mk_state {
  wire_headers : list header;
  declared_content_length : option Z;
  has_content_length : bool;
  has_connection : bool;
  connection_closes : bool;
  connection_keep_alive : bool;
  has_transfer_encoding : bool;
}.

Definition collect_content_length (h : header) (st : HttpResponseHeaderState) : result HttpResponseHeaderState string :=
  if name_is "content-length" h then
    match parse_usize 10 (trim h.2) with
    | None => Err "invalid Content-Length header"
    | Some length =>
        let conflict := match declared_content_length st with Some known => negb (known =? length) | None => false end in
        if conflict then Err "conflicting Content-Length headers"
        else Ok (mk_state (wire_headers st) (Some length) true (has_connection st) (connection_closes st)
                   (connection_keep_alive st) (has_transfer_encoding st))
    end
  else Ok st.

Definition collect_connection (h : header) (st : HttpResponseHeaderState) : HttpResponseHeaderState :=
  if name_is "connection" h then
    let tokens := trim <$> split_text h.2 (txt ",") in
    mk_state (wire_headers st) (declared_content_length st) (has_content_length st) true
      (connection_closes st || existsb (fun t => eq_ignore_ascii_case t (txt "close")) tokens)
      (connection_keep_alive st || existsb (fun t => eq_ignore_ascii_case t (txt "keep-alive")) tokens)
      (has_transfer_encoding st)
  else st.

Definition push_header (h : header) (st : HttpResponseHeaderState) : HttpResponseHeaderState :=
  mk_state (wire_headers st ++ [h]) (declared_content_length st) (has_content_length st) (has_connection st)
    (connection_closes st) (connection_keep_alive st) (has_transfer_encoding st || name_is "transfer-encoding" h).

Fixpoint collect_loop (headers : list header) (st : HttpResponseHeaderState) : result HttpResponseHeaderState string :=
  match headers with
  | [] => Ok st
  | h :: rest =>
      let? _ := header_name h.1 in
      let? _ := header_value h.2 in
      let? st := collect_content_length h st in
      collect_loop rest (push_header h (collect_connection h st))
  end.

Definition collect_http_response_headers (headers : list header) : result HttpResponseHeaderState string :=
  let? _ := validate_http_header_budget headers in
  collect_loop headers (mk_state [] None false false false false false).

Definition bodyless_status (status : Z) : bool := in_range 100 199 status || (status =? 204) || (status =? 304).

Definition validate_bodyless_http_response (st : HttpResponseHeaderState) (status body_len : Z) : result unit string :=
  if negb (bodyless_status status) then Ok tt
  else if negb (body_len =? 0) then Err "HTTP status must not include a response body"
  else if has_content_length st then Err "HTTP status must not include Content-Length"
  else Ok tt.

Definition validate_reset_http_response (st : HttpResponseHeaderState) (status body_len : Z) : result unit string :=
  if negb (status =? 205) then Ok tt
  else if negb (body_len =? 0) then Err "HTTP status 205 must not include a response body"
  else if match declared_content_length st with Some l => negb (l =? 0) | None => false end then
    Err "HTTP status 205 requires Content-Length: 0"
  else Ok tt.

Definition validate_http_response_header_state (st : HttpResponseHeaderState) (status body_len : Z)
    : result unit string :=
  if has_transfer_encoding st then Err "Transfer-Encoding is not supported by the HTTP/1.x response writer"
  else if has_connection st && (negb (connection_closes st) || connection_keep_alive st) then
    Err "Connection must include close and must not advertise keep-alive"
  else if match declared_content_length st with Some l => negb (l =? body_len) | None => false end then
    Err "Content-Length does not match the response body"
  else
    let? _ := validate_bodyless_http_response st status body_len in
    validate_reset_http_response st status body_len.

Definition append_http_response_framing (st : HttpResponseHeaderState) (status body_len : Z) : list header :=
  wire_headers st ++
  (if has_content_length st then []
   else if status =? 205 then [(txt "content-length", txt "0")]
   else if negb (bodyless_status status) then [(txt "content-length", decimal 20 body_len)] else []) ++
  (if has_connection st then [] else [(txt "connection", txt "close")]).

Definition validated_http_response_headers (headers : list header) (status body_len : Z) : result (list header) string :=
  let? st := collect_http_response_headers headers in
  let? _ := validate_http_response_header_state st status body_len in
  let wire := append_http_response_framing st status body_len in
  let? _ := validate_http_header_budget wire in
  Ok wire.
Definition reason_phrase (status : Z) : text :=
  txt match status with
      | 100 => "Continue"
      | 101 => "Switching Protocols"
      | 102 => "Processing"
      | 103 => "Early Hints"
      | 200 => "OK"
      | 201 => "Created"
      | 202 => "Accepted"
      | 203 => "Non-Authoritative Information"
      | 204 => "No Content"
      | 205 => "Reset Content"
      | 206 => "Partial Content"
      | 207 => "Multi-Status"
      | 208 => "Already Reported"
      | 226 => "IM Used"
      | 300 => "Multiple Choices"
      | 301 => "Moved Permanently"
      | 302 => "Found"
      | 303 => "See Other"
      | 304 => "Not Modified"
      | 305 => "Use Proxy"
      | 307 => "Temporary Redirect"
      | 308 => "Permanent Redirect"
      | 400 => "Bad Request"
      | 401 => "Unauthorized"
      | 402 => "Payment Required"
      | 403 => "Forbidden"
      | 404 => "Not Found"
      | 405 => "Method Not Allowed"
      | 406 => "Not Acceptable"
      | 407 => "Proxy Authentication Required"
      | 408 => "Request Timeout"
      | 409 => "Conflict"
      | 410 => "Gone"
      | 411 => "Length Required"
      | 412 => "Precondition Failed"
      | 413 => "Payload Too Large"
      | 414 => "URI Too Long"
      | 415 => "Unsupported Media Type"
      | 416 => "Range Not Satisfiable"
      | 417 => "Expectation Failed"
      | 418 => "I'm a teapot"
      | 421 => "Misdirected Request"
      | 422 => "Unprocessable Entity"
      | 423 => "Locked"
      | 424 => "Failed Dependency"
      | 425 => "Too Early"
      | 426 => "Upgrade Required"
      | 428 => "Precondition Required"
      | 429 => "Too Many Requests"
      | 431 => "Request Header Fields Too Large"
      | 451 => "Unavailable For Legal Reasons"
      | 500 => "Internal Server Error"
      | 501 => "Not Implemented"
      | 502 => "Bad Gateway"
      | 503 => "Service Unavailable"
      | 504 => "Gateway Timeout"
      | 505 => "HTTP Version Not Supported"
      | 506 => "Variant Also Negotiates"
      | 507 => "Insufficient Storage"
      | 508 => "Loop Detected"
      | 510 => "Not Extended"
      | 511 => "Network Authentication Required"
      | _ => "Unknown"
      end.

Definition status_line (status : Z) : text :=
  txt "HTTP/1.1 " ++ decimal 20 status ++ txt " " ++ reason_phrase status.

Definition header_line (h : header) : text := h.1 ++ txt ": " ++ h.2.

(** The head of a message: lines ended by CR LF, then an empty line. *)
Definition message_head (lines : list text) : text := flat_map (fun l => l ++ crlf) lines ++ crlf.

(** [write_typed_http_response_to]: what reaches the stream when its writes succeed. *)
Definition write_typed_http_response_to (status : Z) (headers : list header) (body : list Z)
    (request_method : option text) : result (list Z) string :=
  let? _ := validate_http_buffered_body body in
  let omit_body := match request_method with Some m => eq_ignore_ascii_case m (txt "HEAD") | None => false end in
  if negb (in_range 0 65535 status) then Err "HTTP status must fit in u16 range"
  else if negb (in_range 100 999 status) then Err "HTTP status must be between 100 and 999"
  else
    let? wire := validated_http_response_headers headers status (nlen body) in
    Ok (utf8 (message_head (status_line status :: (header_line <$> wire))) ++ if omit_body then [] else body).

(** [streaming_http_headers]: the head of a response whose body comes later. *)
Fixpoint streaming_fields (headers : list header) : result unit string :=
  match headers with
  | [] => Ok tt
  | h :: rest =>
      let? _ := header_name h.1 in
      let? _ := header_value h.2 in
      if name_is "content-length" h || name_is "transfer-encoding" h then
        Err "streaming HTTP responses must not set Content-Length or Transfer-Encoding"
      else streaming_fields rest
  end.

Definition streaming_http_headers (status : Z) (headers : list header) : result (list Z) string :=
  if negb (in_range 0 65535 status) then Err "HTTP status must fit in u16 range"
  else if negb (in_range 100 999 status) then Err "HTTP status must be between 100 and 999"
  else
    let? _ := validate_http_header_budget headers in
    let? _ := streaming_fields headers in
    Ok (utf8 (message_head (status_line status :: (header_line <$> headers)))).

Definition response_headers_with_request_id (headers : list header) (request_id : text) : list header :=
  if negb (nlen request_id =? 0) && negb (existsb (name_is "x-request-id") headers)
  then headers ++ [(txt "x-request-id", request_id)] else headers.
