(* ===== verification/HttpProps.v ===== *)
(** * Properties of HTTP messages

    A written response cannot be split by its header fields: the reader finds exactly
    the lines that were written, and the length it computes is that of the body.
    Reading a head or a chunked body does not depend on how the bytes were cut into
    reads, and what is read respects the limits. *)

From S2P Require Import Prelude AssocList Value BytesProps Str Utf8 Http.

(** ** Lines *)

(** No carriage return and no line feed. *)
Definition clean (l : list Z) : Prop := Forall (fun b => b <> 13 /\ b <> 10) l.

Lemma find_sub_cons p x r : find_sub p (x :: r) = if is_prefix p (x :: r) then Some 0%nat else S <$> find_sub p r.
Proof. cbn [find_sub]. case_match; [done|]. by destruct (find_sub p r). Qed.

Lemma find_sub_skip p a s : a <> 13 -> find_sub (13 :: p) (a :: s) = S <$> find_sub (13 :: p) s.
Proof.
  intros Ha. cbn [find_sub is_prefix]. rewrite (proj2 (Z.eqb_neq 13 a)) by congruence. cbn [andb].
  by destruct (find_sub (13 :: p) s).
Qed.

Lemma find_sub_skip_app p l s : clean l -> find_sub (13 :: p) (l ++ s) = (fun k => length l + k)%nat <$> find_sub (13 :: p) s.
Proof.
  induction 1 as [|a l [Ha _] _ IH]; cbn [app length].
  - by destruct (find_sub (13 :: p) s).
  - rewrite find_sub_skip, IH by done. by destruct (find_sub (13 :: p) s).
Qed.

Lemma find_crlf l s : clean l -> find_sub crlf (l ++ crlf ++ s) = Some (length l).
Proof.
  intros Hl. unfold crlf. rewrite find_sub_skip_app by done. cbn. f_equal. lia.
Qed.

Lemma find_crlf_none l : clean l -> find_sub crlf l = None.
Proof.
  intros Hl. rewrite <- (app_nil_r l). unfold crlf. by rewrite find_sub_skip_app.
Qed.

Definition lines_block (ls : list (list Z)) : list Z := flat_map (fun l => l ++ crlf) ls.

(** The first empty line ends a block of non-empty lines. *)
Lemma find_double_crlf_lines l ls body : Forall (fun l => clean l /\ l <> []) (l :: ls) ->
  find_double_crlf (lines_block (l :: ls) ++ crlf ++ body) = Some (length (join crlf (l :: ls))) /\
  lines_block (l :: ls) = join crlf (l :: ls) ++ crlf.
Proof.
  unfold find_double_crlf. change (crlf ++ crlf) with (13 :: [10; 13; 10]).
  revert l. induction ls as [|l' ls IH]; intros l [[Hl Hne] H]%Forall_cons.
  - cbn [lines_block flat_map join]. rewrite app_nil_r. split; [|done].
    rewrite <- app_assoc, find_sub_skip_app by done. cbn. f_equal. lia.
  - destruct (IH l' H) as [IHf IHj]. apply Forall_cons in H as [[Hl' Hne'] _].
    rewrite join_cons by done. cbn [lines_block flat_map] in *. rewrite <- !app_assoc in *. split.
    + rewrite find_sub_skip_app by done. destruct l' as [|a l']; [done|].
      assert (a <> 13) as Ha by (by inversion Hl' as [|? ? []]).
      assert (forall s, find_sub (13 :: [10; 13; 10]) (crlf ++ a :: s) =
        (fun k => 2 + k)%nat <$> find_sub (13 :: [10; 13; 10]) (a :: s)) as Hs.
      { intros s. unfold crlf. cbn [app]. rewrite find_sub_cons.
        replace (is_prefix _ _) with false
          by (cbn [is_prefix]; rewrite (proj2 (Z.eqb_neq 13 a)) by congruence; done).
        rewrite find_sub_skip by done. by destruct (find_sub _ (a :: s)). }
      cbn [app] in IHf |- *. rewrite Hs, IHf. cbn. f_equal. rewrite !length_app. cbn. lia.
    + by rewrite IHj.
Qed.

Lemma split_crlf_lines fuel ls : ls <> [] -> Forall clean ls -> (length (join crlf ls) < fuel)%nat ->
  split_on fuel crlf (join crlf ls) = ls.
Proof.
  revert ls. induction fuel as [|fuel IH]; intros [|l ls] Hne Hl Hf; try done; [lia|].
  apply Forall_cons in Hl as [Hl Hls]. destruct ls as [|l' ls].
  { cbn [join split_on]. by rewrite find_crlf_none. }
  rewrite join_cons in Hf |- * by done. cbn [split_on]. rewrite find_crlf by done.
  rewrite take_app_length. f_equal.
  replace (drop _ _) with (join crlf (l' :: ls)).
  - apply IH; [done|done|]. rewrite !length_app in Hf. cbn [length crlf] in Hf. lia.
  - rewrite app_assoc, <- length_app. by rewrite drop_app_length.
Qed.

(** ** Fields *)

Lemma clean_app a b : clean (a ++ b) <-> clean a /\ clean b.
Proof. apply Forall_app. Qed.

Lemma is_http_token_ok name : is_http_token name = true -> clean (utf8 name) /\ name <> [].
Proof.
  unfold is_http_token. intros [H1 H2]%andb_true_iff. split.
  - rewrite forallb_forall in H2. apply Forall_forall. intros b Hb.
    specialize (H2 b). rewrite <- list_elem_of_In in H2. specialize (H2 Hb).
    split; intros ->; by vm_compute in H2.
  - intros ->. by vm_compute in H1.
Qed.

Lemma header_name_ok name n : header_name name = Ok n -> is_http_token name = true /\ n = lower name.
Proof. unfold header_name. destruct (is_http_token name); [|done]. by intros [= <-]. Qed.

Lemma header_value_ok v u : header_value v = Ok u -> clean (utf8 v).
Proof.
  unfold header_value. destruct (existsb _ _) eqn:E; [done|]. intros _. apply Forall_forall. intros b Hb.
  split; intros ->.
  - assert (existsb (fun b => (b =? 13) || (b =? 10) || ((b <? 32) && negb (b =? 9)) || (b =? 127)) (utf8 v) = true)
      as E'; [|congruence]. apply existsb_exists. exists 13. by rewrite <- list_elem_of_In.
  - assert (existsb (fun b => (b =? 13) || (b =? 10) || ((b <? 32) && negb (b =? 9)) || (b =? 127)) (utf8 v) = true)
      as E'; [|congruence]. apply existsb_exists. exists 10. by rewrite <- list_elem_of_In.
Qed.

(** A header that [header_name] and [header_value] accept. *)
Definition good_header (h : header) : Prop := is_http_token h.1 = true /\ header_value h.2 = Ok tt.

Lemma header_line_clean h : good_header h -> clean (utf8 (header_line h)) /\ utf8 (header_line h) <> [].
Proof.
  intros [[Hn Hne]%is_http_token_ok Hv%header_value_ok]. unfold header_line. rewrite !utf8_app. split.
  - rewrite !clean_app. split_and!; try done. by repeat constructor.
  - intros E. apply app_eq_nil in E as [_ E]. by apply app_eq_nil in E as [? _].
Qed.

(** ** Printed lengths *)

Lemma decimal_digits fuel n : 0 <= n -> Forall (fun c => 48 <= c <= 57) (decimal fuel n).
Proof.
  revert n. induction fuel as [|fuel IH]; intros n Hn; cbn [decimal]; [constructor|].
  destruct (n <? 10) eqn:E; bool_to_prop; [by repeat constructor; lia|].
  apply Forall_app. split; [apply IH; euclid|]. repeat constructor; euclid.
Qed.

Lemma usize_digits_app radix a b acc : usize_digits radix (a ++ b) acc =
  match usize_digits radix a acc with Some x => usize_digits radix b x | None => None end.
Proof.
  revert acc. induction a as [|c a IH]; intros acc; cbn [app usize_digits]; [done|].
  destruct (to_digit radix c) as [d|]; [|done]. by case_match.
Qed.

Lemma usize_digits_decimal fuel n : 0 <= n < 10 ^ Z.of_nat fuel -> n <= usize_max ->
  usize_digits 10 (decimal fuel n) 0 = Some n.
Proof.
  revert n. induction fuel as [|fuel IH]; intros n Hn Hm; [cbn in *; f_equal; lia|].
  cbn [decimal]. destruct (n <? 10) eqn:E; bool_to_prop.
  - cbn [usize_digits]. rewrite to_digit_decimal by lia. by rewrite (proj2 (Z.leb_le _ usize_max)) by lia.
  - rewrite Nat2Z.inj_succ, Z.pow_succ_r in Hn by lia.
    rewrite usize_digits_app, IH by euclid. cbn [usize_digits].
    rewrite to_digit_decimal by euclid. rewrite (proj2 (Z.leb_le _ usize_max)) by euclid. f_equal. euclid.
Qed.

Definition not_space (c : Z) : Prop := is_whitespace c = false.

Lemma trim_start_id s : Forall not_space s -> trim_start s = s.
Proof. intros H. inversion H as [|c r Hc _]; subst; [done|]. cbn [trim_start]. by rewrite Hc. Qed.

Lemma trim_id s : Forall not_space s -> trim s = s.
Proof.
  intros H. unfold trim. rewrite (trim_start_id s) by done.
  rewrite trim_start_id by (by apply Forall_rev). apply rev_involutive.
Qed.

Lemma digit_not_space c : 48 <= c <= 57 -> not_space c.
Proof.
  intros H. unfold not_space. apply negb_true_iff.
  pose proof (range_check (fun c => negb (in_range 48 57 c) || negb (is_whitespace c)) 58 ltac:(by vm_compute) c
    ltac:(lia)) as Hr. cbv beta in Hr. by rewrite (proj2 (in_range_true 48 57 c)) in Hr.
Qed.

Lemma parse_usize_decimal n : 0 <= n <= usize_max -> parse_usize 10 (decimal 20 n) = Some n.
Proof.
  intros Hn. unfold parse_usize. destruct (decimal_head 19 n ltac:(lia)) as (c & r & E & Hc). rewrite E.
  rewrite (proj2 (Z.eqb_neq c 43)) by lia. rewrite <- E. apply usize_digits_decimal; [|lia].
  unfold usize_max in Hn. cbn. lia.
Qed.

Lemma parse_decimal_usize n : 0 <= n <= usize_max -> parse_usize 10 (trim (decimal 20 n)) = Some n.
Proof.
  intros Hn. rewrite trim_id.
  - by apply parse_usize_decimal.
  - eapply Forall_impl; [apply decimal_digits; lia|]. apply digit_not_space.
Qed.

Lemma decimal_header_value n : 0 <= n -> header_value (decimal 20 n) = Ok tt.
Proof.
  intros Hn. pose proof (decimal_digits 20 n Hn) as Hd. unfold header_value.
  rewrite utf8_ascii by (eapply Forall_impl; [exact Hd|intros; cbv beta in *; lia]).
  destruct (existsb _ _) eqn:E; [|done]. exfalso. apply existsb_exists in E as (b & Hb & E).
  rewrite <- list_elem_of_In in Hb. rewrite Forall_forall in Hd. specialize (Hd b Hb). cbv beta in Hd.
  repeat (apply orb_true_iff in E as [E|E]); bool_to_prop; lia.
Qed.

Lemma status_line_clean status : 100 <= status <= 999 ->
  clean (utf8 (status_line status)) /\ utf8 (status_line status) <> [].
Proof.
  intros Hs.
  pose proof (range_check (fun z => negb (in_range 100 999 z) ||
    (forallb (fun b => negb (b =? 13) && negb (b =? 10)) (utf8 (status_line z)) &&
     negb (nlen (utf8 (status_line z)) =? 0))) 1000 ltac:(by vm_compute) status ltac:(lia)) as H.
  cbv beta in H. rewrite (proj2 (in_range_true 100 999 status)) in H by done. cbn [negb orb] in H.
  apply andb_true_iff in H as [H1 H2]. split; [|intros E; by rewrite E in H2].
  apply Forall_forall. intros b Hb. rewrite forallb_forall in H1. specialize (H1 b).
  rewrite <- list_elem_of_In in H1. specialize (H1 Hb). bool_to_prop. done.
Qed.

(** ** The writer's header state *)

Lemma content_length_app a b l : content_length_loop (a ++ b) l =
  (let? l := content_length_loop a l in content_length_loop b l).
Proof.
  revert l. induction a as [|h a IH]; intros l; cbn [app content_length_loop]; [done|].
  repeat case_match; done || apply IH.
Qed.

Lemma content_length_none hs l : existsb (name_is "content-length") hs = false -> content_length_loop hs l = Ok l.
Proof.
  induction hs as [|h hs IH]; cbn [existsb content_length_loop]; [done|].
  intros [-> H]%orb_false_iff. by apply IH.
Qed.

Lemma content_length_some hs l n : content_length_loop hs l = Ok n ->
  existsb (name_is "content-length") hs = true \/ is_Some l -> is_Some n.
Proof.
  revert l. induction hs as [|h hs IH]; intros l; cbn [existsb content_length_loop].
  - intros [= <-] [?|?]; done.
  - destruct (name_is "content-length" h) eqn:E; cbn [orb]; [|by apply IH].
    intros H _. repeat case_match; try done; eapply IH; eauto.
Qed.

Lemma collect_loop_spec hs st st' : collect_loop hs st = Ok st' ->
  wire_headers st' = wire_headers st ++ hs /\ Forall good_header hs /\
  content_length_loop hs (declared_content_length st) = Ok (declared_content_length st') /\
  has_content_length st' = has_content_length st || existsb (name_is "content-length") hs /\
  has_connection st' = has_connection st || existsb (name_is "connection") hs /\
  has_transfer_encoding st' = has_transfer_encoding st || existsb (name_is "transfer-encoding") hs.
Proof.
  revert st. induction hs as [|h hs IH]; intros st; cbn [collect_loop existsb content_length_loop].
  { intros [= <-]. rewrite app_nil_r, !orb_false_r. by split_and!. }
  destruct (header_name h.1) as [n|] eqn:En; [|done]. apply header_name_ok in En as [Hn _]. cbn [result_bind].
  destruct (header_value h.2) as [[]|] eqn:Ev; [|done]. cbn [result_bind].
  destruct (collect_content_length h st) as [st1|] eqn:Ec; [|done]. cbn [result_bind].
  intros (Hw & Hg & Hl & Hcl & Hco & Hte)%IH.
  assert (good_header h) as Hh by (by split).
  assert (wire_headers (push_header h (collect_connection h st1)) = wire_headers st ++ [h] /\
    declared_content_length (push_header h (collect_connection h st1)) = declared_content_length st1 /\
    has_content_length (push_header h (collect_connection h st1)) = has_content_length st || name_is "content-length" h /\
    has_connection (push_header h (collect_connection h st1)) = has_connection st || name_is "connection" h /\
    has_transfer_encoding (push_header h (collect_connection h st1)) =
      has_transfer_encoding st || name_is "transfer-encoding" h) as (E1 & E2 & E3 & E4 & E5).
  { unfold collect_content_length, collect_connection, push_header in *.
    destruct (name_is "connection" h), (name_is "content-length" h); repeat case_match; try done;
      injection Ec as <-; cbn; by rewrite ?orb_true_r, ?orb_false_r. }
  rewrite E1 in Hw. rewrite E2 in Hl. rewrite E3 in Hcl. rewrite E4 in Hco. rewrite E5 in Hte.
  rewrite Hw, Hcl, Hco, Hte, <- !orb_assoc, <- app_assoc. split_and!; try done; [by constructor|].
  unfold collect_content_length in Ec. destruct (name_is "content-length" h); [|by injection Ec as <-].
  destruct (parse_usize 10 (trim h.2)) as [n'|]; [|done].
  destruct (declared_content_length st) as [k|]; [|by injection Ec as <-].
  destruct (negb (k =? n')); [done|by injection Ec as <-].
Qed.

(** The length a reader takes from the fields of a response. *)
Definition response_length (status body_len : Z) : option Z := if bodyless_status status then None else Some body_len.

Lemma framing_headers_good st status n : 0 <= n -> Forall good_header (wire_headers st) ->
  Forall good_header (append_http_response_framing st status n).
Proof.
  intros Hn Hw. unfold append_http_response_framing. rewrite !Forall_app. split_and!; [done| |].
  - repeat case_match; repeat constructor; try done. by apply decimal_header_value.
  - case_match; repeat constructor; done.
Qed.

Lemma content_length_zero : content_length_loop [(txt "content-length", txt "0")] None = Ok (Some 0).
Proof. vm_compute. done. Qed.

Lemma validated_headers_spec hs status n wire : 0 <= n <= usize_max ->
  validated_http_response_headers hs status n = Ok wire ->
  Forall good_header wire /\ existsb (name_is "transfer-encoding") wire = false /\
  existsb (name_is "connection") wire = true /\ (bodyless_status status = true -> n = 0) /\
  content_length_loop wire None = Ok (response_length status n).
Proof.
  intros Hn. unfold validated_http_response_headers, collect_http_response_headers.
  destruct (validate_http_header_budget hs); [|done]. cbn [result_bind].
  destruct (collect_loop hs _) as [st|] eqn:Ec; [|done]. cbn [result_bind].
  destruct (validate_http_response_header_state st status n) as [u|] eqn:Ev; [|done]. cbn [result_bind].
  destruct (validate_http_header_budget (append_http_response_framing st status n)); [|done]. intros [= <-].
  apply collect_loop_spec in Ec as (Hw & Hg & Hl & Hcl & Hco & Hte). cbn in Hw, Hl, Hcl, Hco, Hte.
  unfold validate_http_response_header_state, validate_bodyless_http_response, validate_reset_http_response in Ev.
  destruct (has_transfer_encoding st); [done|].
  destruct (has_connection st && _); [done|].
  rewrite <- Hw in Hg. pose proof (framing_headers_good st status n ltac:(lia) Hg) as Hgood.
  unfold append_http_response_framing in *. rewrite <- Hw in Hl, Hcl, Hco, Hte.
  rewrite !existsb_app, !content_length_app, Hl, <- Hte, <- Hco. cbn [result_bind orb].
  split_and!; [done| | |destruct (bodyless_status status); [|done];
    destruct (match declared_content_length st with Some _ => _ | None => _ end); [done|];
    cbn [negb] in Ev; destruct (n =? 0) eqn:E0; [by apply Z.eqb_eq in E0|done]|].
  - repeat case_match; done.
  - destruct (has_connection st); [done|]. cbn. by rewrite orb_true_r.
  - assert (forall o, content_length_loop (if has_connection st then [] else [(txt "connection", txt "close")]) o = Ok o)
      as Hconn by (intros o; by destruct (has_connection st)).
    rewrite content_length_app. unfold response_length. destruct (declared_content_length st) as [k|] eqn:Ek.
    + destruct (k =? n) eqn:Ekn; [|done]. apply Z.eqb_eq in Ekn as ->. cbn [negb] in Ev.
      destruct (has_content_length st) eqn:Eh.
      * cbn [content_length_loop result_bind]. rewrite Hconn. destruct (bodyless_status status); [|done].
        cbn [negb] in Ev. by destruct (n =? 0).
      * exfalso. rewrite content_length_none in Hl by done. done.
    + destruct (has_content_length st) eqn:Eh.
      * exfalso. destruct (content_length_some _ _ _ Hl); [by left|done].
      * destruct (status =? 205) eqn:E5.
        -- apply Z.eqb_eq in E5 as ->. cbn in Ev. destruct (n =? 0) eqn:E0; [|done]. apply Z.eqb_eq in E0 as ->.
           rewrite content_length_zero. cbn [result_bind]. by rewrite Hconn.
        -- destruct (bodyless_status status); cbn [negb].
           ++ cbn [content_length_loop result_bind]. by rewrite Hconn.
           ++ cbn [content_length_loop]. change (name_is "content-length" _) with true. cbn [snd].
              rewrite parse_decimal_usize by done. cbn [result_bind]. by rewrite Hconn.
Qed.

(** The fields that a writer adds to those it was given: the length, unless it is given or the status
    has no body, and the end of the connection, unless it is given. *)
Definition added_fields (hs : list header) (status n : Z) : list header :=
  (if existsb (name_is "content-length") hs || bodyless_status status then [] else [(txt "content-length", decimal 20 n)]) ++
  (if existsb (name_is "connection") hs then [] else [(txt "connection", txt "close")]).

Lemma validated_headers_fields hs status n wire :
  validated_http_response_headers hs status n = Ok wire -> wire = hs ++ added_fields hs status n.
Proof.
  unfold validated_http_response_headers, collect_http_response_headers.
  destruct (validate_http_header_budget hs); [|done]. cbn [result_bind].
  destruct (collect_loop hs _) as [st|] eqn:Ec; [|done]. cbn [result_bind].
  destruct (validate_http_response_header_state st status n) as [u|] eqn:Ev; [|done]. cbn [result_bind].
  destruct (validate_http_header_budget (append_http_response_framing st status n)); [|done]. intros [= <-].
  apply collect_loop_spec in Ec as (Hw & _ & _ & Hcl & Hco & _). cbn in Hw, Hcl, Hco.
  unfold append_http_response_framing, added_fields. rewrite Hw, Hco, Hcl. f_equal. f_equal.
  destruct (existsb (name_is "content-length") hs); [done|]. cbn [orb]. destruct (status =? 205) eqn:E5; [|by destruct (bodyless_status status)].
  apply Z.eqb_eq in E5 as ->. unfold validate_http_response_header_state, validate_reset_http_response in Ev. cbn in Ev.
  destruct (n =? 0) eqn:E0; [by apply Z.eqb_eq in E0 as ->|]. repeat (case_match; try done).
Qed.

Lemma utf8_message_head ls : utf8 (message_head ls) = lines_block (utf8 <$> ls) ++ crlf.
Proof.
  unfold message_head. rewrite utf8_app. f_equal.
  induction ls as [|l ls IH]; [done|]. cbn [flat_map lines_block fmap list_fmap]. rewrite !utf8_app, IH. done.
Qed.

(** Reading back the head of a message. *)
Lemma message_head_read l ls body : Forall (fun l => clean (utf8 l) /\ utf8 l <> []) (l :: ls) ->
  exists p, find_double_crlf (utf8 (message_head (l :: ls)) ++ body) = Some p /\
    split_text (take p (utf8 (message_head (l :: ls)) ++ body)) crlf = utf8 <$> (l :: ls) /\
    drop (p + 4) (utf8 (message_head (l :: ls)) ++ body) = body.
Proof.
  intros H. rewrite utf8_message_head, <- app_assoc.
  assert (Forall (fun l => clean l /\ l <> []) (utf8 <$> (l :: ls))) as H' by (by apply Forall_fmap).
  rewrite fmap_cons in *. destruct (find_double_crlf_lines _ _ body H') as [Hf Hj]. eexists. split; [exact Hf|].
  rewrite Hj, <- !app_assoc. split.
  - rewrite take_app_length. unfold split_text, crlf. fold crlf. apply split_crlf_lines; [done| |lia].
    eapply Forall_impl; [exact H'|]. by intros ? [].
  - change (length ?x + 4)%nat with (length x + length (crlf ++ crlf))%nat.
    rewrite <- length_app, !app_assoc, <- (app_assoc _ crlf crlf). apply drop_app_length.
Qed.

(** ** Header collections *)

Definition field_size (h : header) : Z := byte_len h.1 + 2 + byte_len h.2 + 2.
Fixpoint fields_size (hs : list header) : Z := match hs with [] => 0 | h :: r => field_size h + fields_size r end.

Lemma byte_len_nonneg t : 0 <= byte_len t.
Proof. unfold byte_len, nlen. lia. Qed.

Lemma fields_size_nonneg hs : 0 <= fields_size hs.
Proof.
  induction hs as [|h hs IH]; cbn [fields_size]; [lia|]. unfold field_size.
  pose proof (byte_len_nonneg h.1). pose proof (byte_len_nonneg h.2). lia.
Qed.

Lemma header_block_size_sound hs t r : header_block_size hs t = Some r -> r = t + fields_size hs.
Proof.
  revert t. induction hs as [|[n v] hs IH]; intros t; cbn [header_block_size fields_size].
  { intros [= <-]. lia. }
  unfold checked_add, field_size. cbn [fst snd]. repeat (case_match; simplify_eq; try done).
  intros ->%IH. lia.
Qed.

Lemma header_block_size_complete hs t : 0 <= t -> t + fields_size hs <= usize_max ->
  header_block_size hs t = Some (t + fields_size hs).
Proof.
  revert t. induction hs as [|[n v] hs IH]; intros t Ht Hm; cbn [header_block_size fields_size] in *.
  { f_equal. lia. }
  pose proof (byte_len_nonneg n). pose proof (byte_len_nonneg v). pose proof (fields_size_nonneg hs).
  unfold checked_add, field_size in *. cbn [fst snd] in *.
  rewrite !(proj2 (Z.leb_le _ usize_max)) by lia. rewrite IH by lia. f_equal. lia.
Qed.

Lemma budget_spec hs : validate_http_header_budget hs = Ok tt <->
  nlen hs <= MAX_HTTP_HEADERS_COUNT /\ 2 + fields_size hs <= MAX_HTTP_HEADER_BYTES.
Proof.
  unfold validate_http_header_budget. destruct (MAX_HTTP_HEADERS_COUNT <? nlen hs) eqn:E1; bool_to_prop.
  { split; [done|lia]. }
  split.
  - destruct (header_block_size hs 2) as [r|] eqn:E; [|done]. apply header_block_size_sound in E as ->.
    case_match eqn:E2; [done|]. bool_to_prop. done.
  - intros [_ H]. rewrite header_block_size_complete by (unfold MAX_HTTP_HEADER_BYTES, usize_max in *; lia).
    by rewrite (proj2 (Z.ltb_ge _ _)) by lia.
Qed.

Lemma filter_sizes f hs : nlen (List.filter f hs) <= nlen hs /\ fields_size (List.filter f hs) <= fields_size hs.
Proof.
  unfold nlen. induction hs as [|h hs IH]; cbn [List.filter length fields_size]; [lia|].
  pose proof (byte_len_nonneg h.1). pose proof (byte_len_nonneg h.2). unfold field_size.
  destruct (f h); cbn [length fields_size]; unfold field_size; lia.
Qed.

(** Names are lower-case tokens, values have no control characters, and the whole is
    within the budget. *)
Definition headers_ok (hs : list header) : Prop :=
  Forall (fun h => good_header h /\ lower h.1 = h.1) hs /\ validate_http_header_budget hs = Ok tt.

Lemma list_eqb_Z (a b : text) : list_eqb Z.eqb a b = true <-> a = b.
Proof.
  revert b. induction a as [|x a IH]; intros [|y b]; cbn [list_eqb]; try done.
  rewrite andb_true_iff, Z.eqb_eq, IH. split; [by intros [-> ->]|by intros [= -> ->]].
Qed.

Lemma list_eqb_Z_refl (a : text) : list_eqb Z.eqb a a = true.
Proof. by apply list_eqb_Z. Qed.

Lemma list_eqb_Z_neq (a b : text) : a <> b -> list_eqb Z.eqb a b = false.
Proof. intros H. apply not_true_iff_false. by rewrite list_eqb_Z. Qed.

Lemma to_lower_idem c : to_ascii_lowercase (to_ascii_lowercase c) = to_ascii_lowercase c.
Proof. unfold to_ascii_lowercase. repeat (case_match; ranges; try done); lia. Qed.

Lemma lower_idem s : lower (lower s) = lower s.
Proof. unfold lower. rewrite <- list_fmap_compose. apply list_fmap_ext. intros i c _. apply to_lower_idem. Qed.

Lemma token_byte_small b : is_ascii_alphanumeric b || existsb (Z.eqb b) token_marks = true -> 0 <= b < 128.
Proof.
  unfold is_ascii_alphanumeric. intros [H|H]%orb_true_iff.
  - repeat (apply orb_true_iff in H as [H|H]); ranges; lia.
  - apply existsb_exists in H as (x & Hx & ->%Z.eqb_eq). rewrite <- list_elem_of_In in Hx.
    unfold token_marks in Hx. set_unfold. lia.
Qed.

Lemma lower_token name : is_http_token name = true -> is_http_token (lower name) = true.
Proof.
  unfold is_http_token. intros [H1 H2]%andb_true_iff. apply andb_true_iff. unfold nlen, lower in *.
  rewrite length_fmap. split; [done|]. clear H1. induction name as [|c name IH]; [done|].
  cbn [utf8 flat_map fmap list_fmap] in *. rewrite forallb_app in *. apply andb_true_iff in H2 as [Hc Hn].
  apply andb_true_iff. split; [|by apply IH]. clear IH Hn.
  assert (0 <= c < 128) as Hs.
  { unfold utf8_char in Hc. repeat case_match; bool_to_prop; cbn [forallb] in Hc;
      apply andb_true_iff in Hc as [Hc1 _]; apply token_byte_small in Hc1; euclid. }
  rewrite utf8_small in Hc by done.
  pose proof (range_check (fun c => negb (forallb (fun b => is_ascii_alphanumeric b || existsb (Z.eqb b) token_marks) [c]) ||
    forallb (fun b => is_ascii_alphanumeric b || existsb (Z.eqb b) token_marks) (utf8_char (to_ascii_lowercase c)))
    128 ltac:(by vm_compute) c Hs) as Hr. cbv beta in Hr. by rewrite Hc in Hr.
Qed.

Lemma find_filter_neq (n m : text) (hs : list header) : n <> m ->
  List.find (fun h : header => list_eqb Z.eqb h.1 m) (List.filter (fun h : header => negb (list_eqb Z.eqb h.1 n)) hs) =
  List.find (fun h : header => list_eqb Z.eqb h.1 m) hs.
Proof.
  intros Hne. induction hs as [|h hs IH]; [done|]. cbn [List.filter List.find].
  destruct (list_eqb Z.eqb h.1 n) eqn:E; cbn [negb List.find].
  - apply list_eqb_Z in E. 
    rewrite (list_eqb_Z_neq h.1 m) by (intros E'; exact (Hne (eq_trans (eq_sym E) E'))). done.
  - by rewrite IH.
Qed.

Lemma find_filter_eq (n : text) (hs : list header) :
  List.find (fun h : header => list_eqb Z.eqb h.1 n) (List.filter (fun h : header => negb (list_eqb Z.eqb h.1 n)) hs) = None /\
  List.filter (fun h : header => list_eqb Z.eqb h.1 n) (List.filter (fun h : header => negb (list_eqb Z.eqb h.1 n)) hs) = [].
Proof.
  induction hs as [|h hs IH]; [done|]. cbn [List.filter List.find].
  destruct (list_eqb Z.eqb h.1 n) eqn:E; cbn [negb List.find List.filter]; [done|]. by rewrite E.
Qed.

Lemma find_app {A} (f : A -> bool) l1 l2 :
  List.find f (l1 ++ l2) = match List.find f l1 with Some x => Some x | None => List.find f l2 end.
Proof. induction l1 as [|x l1 IH]; [done|]. cbn. by destruct (f x). Qed.

Lemma Forall_list_filter {A} (P : A -> Prop) f l : Forall P l -> Forall P (List.filter f l).
Proof. induction 1 as [|x l Hx _ IH]; [done|]. cbn. destruct (f x); [by constructor|done]. Qed.

(** Header collections: from a well-formed collection, every call leaves a
    well-formed one, and a call that fails changes nothing.  After [set], the name (in
    any case) has exactly the new value; after [append], the value follows the earlier
    ones; after [remove], none is left; and other names keep their values. *)
Lemma http_headers_laws (hs : list header) (name value other : text) :
  headers_ok hs -> lower other <> lower name ->
  (let '(r, hs') := mux_net_http_headers_set hs name value in
   headers_ok hs' /\
   match r with
   | Ok _ => mux_net_http_headers_values hs' name = Ok [value] /\ mux_net_http_headers_get hs' name = Ok (Some value) /\
             mux_net_http_headers_get hs' other = mux_net_http_headers_get hs other
   | Err _ => hs' = hs
   end) /\
  (let '(r, hs') := mux_net_http_headers_append hs name value in
   headers_ok hs' /\
   match r with
   | Ok _ => exists vs, mux_net_http_headers_values hs name = Ok vs /\
               mux_net_http_headers_values hs' name = Ok (vs ++ [value]) /\
               mux_net_http_headers_get hs' other = mux_net_http_headers_get hs other
   | Err _ => hs' = hs
   end) /\
  (let '(r, hs') := mux_net_http_headers_remove hs name in
   headers_ok hs' /\
   match r with
   | Ok _ => mux_net_http_headers_values hs' name = Ok [] /\
             mux_net_http_headers_get hs' other = mux_net_http_headers_get hs other
   | Err _ => hs' = hs
   end).
Proof.
  intros Hok Hne. pose proof Hok as [Hg Hb]. unfold mux_net_http_headers_set, mux_net_http_headers_append, mux_net_http_headers_remove,
    mux_net_http_headers_values, mux_net_http_headers_get.
  destruct (header_name name) as [n|] eqn:En; [|by split_and!]. apply header_name_ok in En as [Ht ->].
  cbn [result_bind].
  pose proof (proj1 (budget_spec hs) Hb) as [Hb1 Hb2].
  destruct (filter_sizes (fun h : header => negb (list_eqb Z.eqb h.1 (lower name))) hs) as [Hf1 Hf2].
  destruct (find_filter_eq (lower name) hs) as [Hfi Hff].
  assert (headers_ok (List.filter (fun h : header => negb (list_eqb Z.eqb h.1 (lower name))) hs)) as Hrm.
  { split; [by apply Forall_list_filter|]. apply budget_spec. lia. }
  assert (forall l, (let? name0 := header_name other in
      Ok (snd <$> List.find (fun h : header => list_eqb Z.eqb h.1 name0) (l ++ [(lower name, value)]))) =
    (let? name0 := header_name other in Ok (E := string) (snd <$> List.find (fun h : header => list_eqb Z.eqb h.1 name0) l))) as Ho.
  { intros l. unfold header_name. destruct (is_http_token other); [|done]. cbn [negb result_bind].
    rewrite find_app. cbn [List.find fst]. rewrite (list_eqb_Z_neq (lower name)) by (by intros E; apply Hne).
    by case_match. }
  assert ((let? name0 := header_name other in
      Ok (snd <$> List.find (fun h : header => list_eqb Z.eqb h.1 name0)
        (List.filter (fun h : header => negb (list_eqb Z.eqb h.1 (lower name))) hs))) =
    (let? name0 := header_name other in Ok (E := string) (snd <$> List.find (fun h : header => list_eqb Z.eqb h.1 name0) hs))) as Hr.
  { unfold header_name. destruct (is_http_token other); [|done]. cbn [negb result_bind].
    by rewrite find_filter_neq by (by intros E; apply Hne). }
  assert (header_value value = Ok tt -> good_header (lower name, value) /\ lower (lower name) = lower name) as Hgh.
  { intros Hv. split; [split; [by apply lower_token|done]|apply lower_idem]. }
  split; [|split].
  - destruct (header_value value) as [[]|] eqn:Ev; [|exact (conj Hok eq_refl)]. cbn [result_bind].
    destruct (validate_http_header_budget (_ ++ _)) as [[]|] eqn:Eb; [|exact (conj Hok eq_refl)]. cbn [result_bind].
    split; [split; [|done]; apply Forall_app; split; [by apply Hrm|by constructor; auto]|].
    rewrite List.filter_app, Hff, find_app, Hfi. cbn [List.filter List.find fst app].
    rewrite list_eqb_Z_refl, Ho, Hr. done.
  - destruct (header_value value) as [[]|] eqn:Ev; [|exact (conj Hok eq_refl)]. cbn [result_bind].
    destruct (validate_http_header_budget (_ ++ _)) as [[]|] eqn:Eb; [|exact (conj Hok eq_refl)]. cbn [result_bind].
    split; [split; [|done]; apply Forall_app; split; [done|by constructor; auto]|].
    eexists. split; [done|]. rewrite List.filter_app. cbn [List.filter fst]. rewrite list_eqb_Z_refl, fmap_app, Ho. done.
  - split; [exact Hrm|]. rewrite Hff. split; [done|exact Hr].
Qed.

(** C9: a response that is written reads back as it was composed, whatever the texts of
    its fields: the first empty line is the end of the head, its lines are the status
    line, then the given fields in order and unchanged, then the length and the end of the
    connection where they were not given; what follows is the body (nothing for HEAD);
    the length that a reader computes from the fields is the length of the body, absent
    exactly for the statuses without a body, which then is empty. *)
Theorem http_response_framing (status : Z) (hs : list header) (body : list Z) (rm : option text) (out : list Z) :
  write_typed_http_response_to status hs body rm = Ok out ->
  exists p, let fields := hs ++ added_fields hs status (nlen body) in
    find_double_crlf out = Some p /\
    split_text (take p out) crlf =
      utf8 <$> ((txt "HTTP/1.1 " ++ decimal 20 status ++ txt " " ++ reason_phrase status) :: ((fun h => h.1 ++ txt ": " ++ h.2) <$> fields)) /\
    drop (p + 4) out =
      (if match rm with Some m => eq_ignore_ascii_case m (txt "HEAD") | None => false end then [] else body) /\
    header_content_length_pairs fields = Ok (response_length status (nlen body)) /\
    request_uses_chunked_transfer_encoding fields = Ok false /\
    (bodyless_status status = true -> body = []).
Proof.
  unfold write_typed_http_response_to, validate_http_buffered_body.
  destruct (MAX_HTTP_BODY_BYTES <? nlen body) eqn:Eb; [done|]. cbn [result_bind]. bool_to_prop.
  destruct (in_range 0 65535 status); [|done]. destruct (in_range 100 999 status) eqn:Es; [|done]. cbn [negb].
  apply in_range_true in Es.
  destruct (validated_http_response_headers hs status (nlen body)) as [wire|] eqn:Ew; [|done]. cbn [result_bind].
  intros <-%Ok_inj. assert (0 <= nlen body) by (unfold nlen; lia). unfold MAX_HTTP_BODY_BYTES in Eb.
  rewrite <- (validated_headers_fields hs status (nlen body) wire Ew).
  destruct (validated_headers_spec hs status (nlen body) wire ltac:(unfold usize_max; lia) Ew) as (Hg & Hte & _ & H0 & Hl).
  assert (Forall (fun l => clean (utf8 l) /\ utf8 l <> []) (status_line status :: (header_line <$> wire))) as Hlines.
  { constructor; [by apply status_line_clean|]. apply Forall_fmap. eapply Forall_impl; [exact Hg|].
    intros h Hh. by apply header_line_clean. }
  destruct (message_head_read _ _ (if match rm with Some m => eq_ignore_ascii_case m (txt "HEAD") | None => false end
    then [] else body) Hlines) as (p & Hp & Hsp & Hd).
  exists p. cbn zeta. split_and!; try done.
  - unfold header_content_length_pairs. rewrite Hl. cbn [result_bind]. unfold response_length.
    destruct (bodyless_status status); [done|]. by rewrite (proj2 (Z.ltb_ge _ _)) by (unfold MAX_HTTP_BODY_BYTES; lia).
  - unfold request_uses_chunked_transfer_encoding.
    replace (List.filter (name_is "transfer-encoding") wire) with (@nil header); [done|].
    clear -Hte. induction wire as [|h w IH]; [done|]. cbn [existsb List.filter] in *.
    apply orb_false_iff in Hte as [-> ?]. by apply IH.
  - intros Hbl. specialize (H0 Hbl). unfold nlen in H0. destruct body; [done|cbn in H0; lia].
Qed.

Lemma http_response_framing_witness :
  write_typed_http_response_to 200 [(txt "x-a", txt "b")] [104; 105] None =
    Ok (utf8 (txt "HTTP/1.1 200 OK" ++ crlf ++ txt "x-a: b" ++ crlf ++ txt "content-length: 2" ++ crlf ++
              txt "connection: close" ++ crlf ++ crlf ++ txt "hi")) /\
  exists out p, write_typed_http_response_to 200 [(txt "x-a", txt "b")] [104; 105] None = Ok out /\
    drop (p + 4) out = [104; 105].
Proof.
  split; [vm_compute; reflexivity|]. eexists.
  edestruct (http_response_framing 200 [(txt "x-a", txt "b")] [104; 105] None) as (p & _ & _ & Hd & _);
    [vm_compute; reflexivity|]. exists p. split; [vm_compute; reflexivity|exact Hd].
Defined.
