(* ===== verification/HttpReadProps.v ===== *)
(** * Reading requests: segmentation, limits and termination

    How a connection cuts the bytes into reads does not matter: the head that is found
    and the body that is decoded are functions of the bytes.  Every loop ends, and a
    body respects the limit. *)

From S2P Require Import Prelude AssocList Value BytesProps Str Utf8 Http HttpProps.

(** ** Searching a growing buffer *)

Lemma is_prefix_app p a b : is_prefix p a = true -> is_prefix p (a ++ b) = true.
Proof. rewrite !is_prefix_spec. intros [post ->]. exists (post ++ b). by rewrite app_assoc. Qed.

Lemma find_sub_app_some p a b k : find_sub p a = Some k -> find_sub p (a ++ b) = Some k.
Proof.
  revert k. induction a as [|x a IH]; intros k; cbn [find_sub app].
  - destruct (is_prefix p []) eqn:E; [|done]. intros [= <-].
    pose proof (is_prefix_app p [] b E) as E'. cbn [app] in E'. destruct b; cbn [find_sub]; by rewrite E'.
  - destruct (is_prefix p (x :: a)) eqn:E.
    + intros [= <-]. pose proof (is_prefix_app p (x :: a) b E) as E'. cbn [app] in E'. by rewrite E'.
    + destruct (find_sub p a) as [i|] eqn:Ef; [|done]. intros [= <-]. rewrite (IH i eq_refl).
      destruct (is_prefix p (x :: a ++ b)) eqn:E'; [|done]. exfalso.
      pose proof (find_sub_spec p a) as Hs. rewrite Ef in Hs. destruct Hs as [(pre & post & -> & _) _].
      apply is_prefix_spec in E' as [q Eq].
      assert (is_prefix p (x :: pre ++ p ++ post) = true); [|congruence].
      apply is_prefix_spec. exists (drop (length p) (x :: pre ++ p ++ post)).
      assert (length p <= length (x :: pre ++ p ++ post))%nat as Hl by (cbn; rewrite !length_app; lia).
      change (x :: (pre ++ p ++ post) ++ b) with ((x :: pre ++ p ++ post) ++ b) in Eq.
      apply (f_equal (take (length p))) in Eq. rewrite take_app_le, take_app_length in Eq by done.
      etrans; [symmetry; apply (take_drop (length p))|]. by rewrite Eq.
Qed.

Lemma find_sub_bound p s k : find_sub p s = Some k -> (k + length p <= length s)%nat.
Proof.
  intros E. pose proof (find_sub_spec p s) as H. rewrite E in H. destruct H as [(pre & post & -> & <-) _].
  rewrite !length_app. lia.
Qed.

(** What is not in the buffer yet ends behind it. *)
Lemma find_sub_app_none p a b k : find_sub p a = None -> find_sub p (a ++ b) = Some k ->
  (length a < k + length p)%nat.
Proof.
  intros Ea E. pose proof (find_sub_spec p a) as Ha. rewrite Ea in Ha.
  pose proof (find_sub_spec p (a ++ b)) as H. rewrite E in H. destruct H as [(pre & post & Eq & <-) _].
  destruct (decide (length a < length pre + length p)%nat) as [|Hle]; [done|]. exfalso.
  apply (Ha pre (drop (length pre + length p) a)).
  rewrite app_assoc, <- length_app. apply (f_equal (take (length (pre ++ p)))) in Eq.
  rewrite app_assoc, take_app_length, take_app_le in Eq by (rewrite length_app; lia).
  etrans; [symmetry; apply (take_drop (length (pre ++ p)))|]. by rewrite Eq.
Qed.

(** ** The head *)

Definition head_spec (bytes : list Z) (max : Z) : result nat string :=
  match find_double_crlf bytes with
  | Some p => if max <? Z.of_nat (p + 4) then Err "http headers too large" else Ok (p + 4)%nat
  | None => if max <? nlen bytes then Err "http headers too large" else Err "connection closed before request headers"
  end.

Definition nonempty_pieces (s : stream) : Prop := Forall (fun c => c <> []) s.

Lemma nlen_app {A} (a b : list A) : nlen (a ++ b) = nlen a + nlen b.
Proof. unfold nlen. rewrite length_app. lia. Qed.

Lemma nlen_nonneg {A} (a : list A) : 0 <= nlen a.
Proof. unfold nlen. lia. Qed.

Lemma nlen_nil {A} (a : list A) : a <> [] -> (nlen a =? 0) = false.
Proof. intros H. apply Z.eqb_neq. unfold nlen. destruct a; [done|cbn; lia]. Qed.

Lemma head_spec_found buffer rest max p : find_double_crlf buffer = Some p -> head_spec (buffer ++ rest) max =
  if max <? Z.of_nat (p + 4) then Err "http headers too large" else Ok (p + 4)%nat.
Proof. intros E. unfold head_spec, find_double_crlf in *. by rewrite (find_sub_app_some _ _ _ _ E). Qed.

Lemma head_spec_overflow buffer rest max : find_double_crlf buffer = None -> max < nlen buffer ->
  head_spec (buffer ++ rest) max = Err "http headers too large".
Proof.
  intros E Hm. unfold head_spec, find_double_crlf in *.
  destruct (find_sub (crlf ++ crlf) (buffer ++ rest)) as [p|] eqn:Ef.
  - pose proof (find_sub_app_none _ _ _ _ E Ef) as Hl. cbn [length app crlf] in Hl. unfold nlen in Hm.
    by rewrite (proj2 (Z.ltb_lt _ _)) by lia.
  - rewrite nlen_app. pose proof (nlen_nonneg rest). by rewrite (proj2 (Z.ltb_lt _ _)) by lia.
Qed.

Lemma read_headers_spec max s : nonempty_pieces s -> forall buffer, find_double_crlf buffer = None -> nlen buffer <= max ->
  match read_http_request_headers s buffer max with
  | Ok (b, he, s') => head_spec (buffer ++ concat s) max = Ok he /\ b ++ concat s' = buffer ++ concat s /\
      (he <= length b)%nat /\ nonempty_pieces s'
  | Err e => head_spec (buffer ++ concat s) max = Err e
  end.
Proof.
  induction 1 as [|chunk s Hc Hs IH]; intros buffer Hb Hm; cbn [read_http_request_headers concat].
  - rewrite app_nil_r. unfold head_spec. rewrite Hb. by rewrite (proj2 (Z.ltb_ge _ _)) by lia.
  - rewrite nlen_nil by done. rewrite app_assoc. unfold http_header_end_within_limit.
    destruct (find_double_crlf (buffer ++ chunk)) as [p|] eqn:Ef.
    + rewrite (head_spec_found _ _ _ p) by done. destruct (max <? _); [done|]. cbn [result_bind].
      split_and!; [done|done| |done]. apply find_sub_bound in Ef. cbn [length app crlf] in Ef. lia.
    + destruct (max <? nlen (buffer ++ chunk)) eqn:Em; cbn [result_bind]; bool_to_prop.
      * by apply head_spec_overflow.
      * by apply IH.
Qed.

(** ** Fixed-length bodies *)

Lemma read_body_spec s : nonempty_pieces s -> forall initial n max, 0 <= n <= max ->
  match read_http_request_body s initial n max with
  | Ok (body, _) => n <= nlen (initial ++ concat s) /\ body = take (Z.to_nat n) (initial ++ concat s)
  | Err e => nlen (initial ++ concat s) < n /\ e = "connection closed before request body complete"
  end.
Proof.
  intros Hs initial n max Hn. unfold read_http_request_body. rewrite (proj2 (Z.ltb_ge max n)) by lia.
  assert (forall body, match read_body_loop s body n with
    | Ok (b, s') => n <= nlen (body ++ concat s) /\ take (Z.to_nat n) b = take (Z.to_nat n) (body ++ concat s)
    | Err e => nlen (body ++ concat s) < n /\ e = "connection closed before request body complete" end) as Hl.
  { induction Hs as [|c s Hc Hs IH]; intros body; cbn [read_body_loop concat].
    - rewrite app_nil_r. destruct (nlen body <? n) eqn:E; bool_to_prop; by split.
    - destruct (nlen body <? n) eqn:E; bool_to_prop.
      + rewrite nlen_nil by done. destruct (n <? nlen (body ++ c)) eqn:E'; bool_to_prop.
        * rewrite app_assoc. pose proof (nlen_nonneg (concat s)). rewrite nlen_app. split; [lia|].
          rewrite take_take, Nat.min_id. unfold nlen in E'. by rewrite (take_app_le (body ++ c)) by lia.
        * specialize (IH (body ++ c)). by rewrite <- app_assoc in IH.
      + split; [rewrite nlen_app; pose proof (nlen_nonneg (c ++ concat s)); lia|].
        unfold nlen in E. by rewrite (take_app_le body) by lia. }
  specialize (Hl initial). by destruct (read_body_loop s initial n) as [[b s']|e].
Qed.

(** ** Chunked bodies *)

Section Chunked.
Context (mh mb : Z).

(** The bytes of a connection: what was read and what is to come, within the limits. *)
Definition pending (buffer : list Z) (s : stream) (all : list Z) : Prop :=
  buffer ++ concat s = all /\ nonempty_pieces s /\ nlen all <= saturating_add mb mh.

Lemma read_more_spec c s buffer all : pending buffer (c :: s) all ->
  read_more_http_bytes (c :: s) buffer mh mb = Ok (buffer ++ c, s) /\ pending (buffer ++ c) s all.
Proof.
  intros (<- & [Hc Hs]%Forall_cons & Hl). cbn [concat] in Hl. rewrite app_assoc in Hl. unfold read_more_http_bytes.
  rewrite nlen_nil by done. rewrite nlen_app in Hl. pose proof (nlen_nonneg (concat s)).
  rewrite (proj2 (Z.ltb_ge _ _)) by lia. split; [done|]. unfold pending. cbn [concat]. rewrite app_assoc, nlen_app.
  by split_and!.
Qed.

Lemma drop_pending buffer (s : stream) all cursor : buffer ++ concat s = all -> (cursor <= length buffer)%nat ->
  drop cursor all = drop cursor buffer ++ concat s.
Proof. intros <- Hc. by rewrite drop_app_le. Qed.

Lemma line_found buffer x cursor line post r : clean line -> line ++ crlf ++ post = drop cursor buffer ++ x ->
  (cursor <= length buffer)%nat -> find_sub crlf (drop cursor buffer) = Some r ->
  r = length line /\ (cursor + length line + 2 <= length buffer)%nat.
Proof.
  intros Hl Ed Hc Ef. assert (r = length line) as ->.
  { pose proof (find_sub_app_some _ _ x _ Ef) as E. rewrite <- Ed, find_crlf in E by done. by injection E. }
  split; [done|]. apply find_sub_bound in Ef. rewrite length_drop in Ef. cbn [length crlf] in Ef. lia.
Qed.

(** The end of the line at [cursor], wherever the reads were cut. *)
Lemma read_line_spec line post cursor all tl : clean line -> nlen line < mh -> drop cursor all = line ++ crlf ++ post ->
  forall s buffer fuel, pending buffer s all -> (cursor <= length buffer)%nat -> (length s < fuel)%nat ->
  exists buffer' s', read_http_line_end mh mb fuel s buffer cursor tl =
      Some (Ok ((cursor + length line)%nat, buffer', s')) /\
    pending buffer' s' all /\ (cursor + length line + 2 <= length buffer')%nat.
Proof.
  intros Hl Hm Ea. induction s as [|c s IH]; intros buffer fuel Hp Hc Hf; (destruct fuel as [|fuel]; [lia|]);
    cbn [read_http_line_end]; pose proof (drop_pending _ _ _ cursor (proj1 Hp) Hc) as Ed; rewrite Ea in Ed.
  all: destruct (find_sub crlf (drop cursor buffer)) as [r|] eqn:Ef.
  1,3: destruct (line_found _ _ _ _ _ _ Hl Ed Hc Ef) as [-> Hb]; by eexists _, _.
  - exfalso. cbn [concat] in Ed. rewrite app_nil_r in Ed. rewrite <- Ed, find_crlf in Ef by done. done.
  - destruct (read_more_spec _ _ _ _ Hp) as [-> Hp'].
    assert (nlen buffer - Z.of_nat cursor <= mh) as Hb.
    { pose proof (find_crlf line post Hl) as E. rewrite Ed in E. pose proof (find_sub_app_none _ _ _ _ Ef E) as Hlt.
      rewrite length_drop in Hlt. cbn [length crlf] in Hlt. unfold nlen in *. lia. }
    destruct (IH (buffer ++ c) fuel Hp' ltac:(rewrite length_app; lia) ltac:(cbn in Hf; lia)) as (b' & s' & E & Hr).
    exists b', s'. split; [|done]. destruct tl; [rewrite (proj2 (Z.ltb_ge _ _)) by lia|]; exact E.
Qed.

Lemma drop_line cursor all line post : drop cursor all = line ++ crlf ++ post ->
  drop (cursor + length line + 2) all = post.
Proof.
  intros E. rewrite <- !drop_drop, E, drop_app_length. done.
Qed.

Lemma take_line buffer (s : stream) all cursor line post : buffer ++ concat s = all ->
  (cursor + length line + 2 <= length buffer)%nat ->
  drop cursor all = line ++ crlf ++ post -> take (cursor + length line - cursor) (drop cursor buffer) = line.
Proof.
  intros E Hl Ea. rewrite (drop_pending _ _ _ cursor E ltac:(lia)) in Ea.
  replace (cursor + length line - cursor)%nat with (length line) by lia.
  apply (f_equal (take (length line))) in Ea. rewrite take_app_length, take_app_le in Ea; [done|].
  rewrite length_drop. lia.
Qed.

(** A chunk-size line: digits in hexadecimal, then perhaps extensions. *)
Definition size_line (line : list Z) (size : Z) : Prop :=
  clean line /\ nlen line < mh /\
  exists t, utf8_decode line = Some t /\ parse_usize 16 (trim (default [] (head (split_text t (txt ";"))))) = Some size.

Definition clean_b (l : list Z) : bool := forallb (fun b => negb (b =? 13) && negb (b =? 10)) l.

Lemma clean_b_ok l : clean_b l = true -> clean l.
Proof.
  unfold clean_b. rewrite forallb_forall. intros H. apply Forall_forall. intros b Hb.
  rewrite list_elem_of_In in Hb. specialize (H b Hb). bool_to_prop. done.
Qed.

Lemma size_line_check line size t : clean_b line = true -> (nlen line <? mh) = true -> utf8_decode line = Some t ->
  parse_usize 16 (trim (default [] (head (split_text t (txt ";"))))) = Some size -> size_line line size.
Proof. intros H1%clean_b_ok H2%Z.ltb_lt H3 H4. split_and!; try done. by exists t. Qed.

Lemma read_size_spec line size post cursor all s buffer : size_line line size ->
  drop cursor all = line ++ crlf ++ post -> pending buffer s all -> (cursor <= length buffer)%nat ->
  exists buffer' s', read_chunk_size mh mb s buffer cursor =
      Some (Ok (size, (cursor + length line + 2)%nat, buffer', s')) /\
    pending buffer' s' all /\ (cursor + length line + 2 <= length buffer')%nat.
Proof.
  intros (Hl & Hm & t & Hu & Hs) Ea Hp Hc. unfold read_chunk_size.
  destruct (read_line_spec line post cursor all (Some "chunk size line too large") Hl Hm Ea s buffer (line_fuel s) Hp Hc)
    as (b' & s' & -> & Hp' & Hb'); [unfold line_fuel; lia|].
  exists b', s'. rewrite (take_line b' s' all cursor line post) by (done || apply Hp'). by rewrite Hu, Hs.
Qed.

Lemma fill_chunk_spec cursor size all data post : drop cursor all = data ++ crlf ++ post -> nlen data = size ->
  forall s buffer, pending buffer s all -> (cursor <= length buffer)%nat ->
  exists buffer' s', fill_chunk mh mb s buffer cursor size = Ok (buffer', s') /\ pending buffer' s' all /\
    (cursor + length data + 2 <= length buffer')%nat.
Proof.
  intros Ea Hd. induction s as [|c s IH]; intros buffer Hp Hc; cbn [fill_chunk];
    pose proof (drop_pending _ _ _ cursor (proj1 Hp) Hc) as Ed; rewrite Ea in Ed;
    apply (f_equal length) in Ed; rewrite !length_app, length_drop in Ed; cbn [length crlf] in Ed;
    destruct Hp as (Ep & Hn & Hl); pose proof (conj Ep (conj Hn Hl)) as Hp; unfold saturating_add in Hl;
    (assert (Z.of_nat (length data + 2) <= usize_max) as Hu by
      (subst all; rewrite nlen_app in Hl; unfold nlen in Hl; lia)).
  all: destruct (nlen buffer - Z.of_nat cursor <? saturating_add size 2) eqn:E; bool_to_prop;
    unfold saturating_add, nlen in *.
  - cbn [concat length] in Ed. lia.
  - eexists _, _. split; [reflexivity|]. split; [done|lia].
  - destruct (read_more_spec _ _ _ _ Hp) as [-> Hp']. cbn [result_bind]. apply IH; [done|rewrite length_app; lia].
  - eexists _, _. split; [reflexivity|]. split; [done|lia].
Qed.

Lemma read_data_spec cursor size all data post body s buffer : drop cursor all = data ++ crlf ++ post ->
  nlen data = size -> pending buffer s all -> (cursor <= length buffer)%nat ->
  exists buffer' s', read_chunk_data mh mb s buffer cursor body size =
      Ok (body ++ data, (cursor + length data + 2)%nat, buffer', s') /\
    pending buffer' s' all /\ (cursor + length data + 2 <= length buffer')%nat.
Proof.
  intros Ea Hd Hp Hc. unfold read_chunk_data.
  destruct (fill_chunk_spec cursor size all data post Ea Hd s buffer Hp Hc) as (b' & s' & -> & Hp' & Hb').
  cbn [result_bind]. exists b', s'. assert (Z.to_nat size = length data) as -> by (unfold nlen in Hd; lia).
  pose proof (take_line b' s' all cursor data post (proj1 Hp') Hb' Ea) as Et.
  replace (cursor + length data - cursor)%nat with (length data) in Et by lia. rewrite Et.
  assert (take 2 (drop (cursor + length data) b') = crlf) as ->; [|done].
  rewrite (drop_pending _ _ _ cursor (proj1 Hp') ltac:(lia)) in Ea.
  apply (f_equal (fun l => take 2 (drop (length data) l))) in Ea.
  rewrite drop_app_length in Ea. rewrite <- drop_drop.
  rewrite drop_app_le, take_app_le in Ea by (rewrite ?length_drop; lia). done.
Qed.

Definition good_trailer (t : list Z) : Prop :=
  clean t /\ t <> [] /\ validate_http_request_trailer t = Ok tt.

Lemma lines_block_cons t ts : lines_block (t :: ts) = t ++ crlf ++ lines_block ts.
Proof. unfold lines_block. cbn [flat_map]. by rewrite <- app_assoc. Qed.

Lemma read_trailers_spec mt all post : 0 < mh <= usize_max -> mt <= usize_max -> forall ts, Forall good_trailer ts ->
  forall fuel s buffer cursor b cnt, pending buffer s all -> (cursor <= length buffer)%nat ->
  drop cursor all = lines_block ts ++ crlf ++ post -> 0 <= b -> b + nlen (lines_block ts) <= mh ->
  0 <= cnt -> cnt + nlen ts <= mt -> (length ts < fuel)%nat ->
  exists r, read_trailers mh mb fuel s buffer cursor b cnt mt = Some (Ok r).
Proof.
  intros Hmh Hmt. induction 1 as [|t ts (Hc & Hne & Hv) Hts IH];
    intros fuel s buffer cursor b cnt Hp Hcu Ea Hb Hbt Hcn Hct Hf;
    (destruct fuel as [|fuel]; [lia|]); cbn [read_trailers].
  - destruct (read_line_spec [] post cursor all None ltac:(constructor) ltac:(unfold nlen; cbn; lia) Ea s buffer
      (line_fuel s) Hp Hcu ltac:(unfold line_fuel; lia)) as (b' & s' & -> & Hp' & Hb').
    rewrite (take_line b' s' all cursor [] post) by (done || apply Hp'). by eexists.
  - rewrite lines_block_cons in *. rewrite !nlen_app in Hbt.
    assert (nlen crlf = 2) as H2 by done. pose proof (nlen_nonneg (lines_block ts)). pose proof (nlen_nonneg t).
    assert (nlen (t :: ts) = 1 + nlen ts) as H1 by (unfold nlen; cbn [length]; lia). pose proof (nlen_nonneg ts).
    rewrite <- !app_assoc in Ea.
    destruct (read_line_spec t _ cursor all None Hc ltac:(lia) Ea s buffer
      (line_fuel s) Hp Hcu ltac:(unfold line_fuel; lia)) as (b' & s' & -> & Hp' & Hb').
    rewrite (take_line b' s' all cursor t _ (proj1 Hp') Hb' Ea). rewrite nlen_nil by done.
    unfold saturating_add. rewrite !(Z.min_r usize_max) by lia.
    rewrite (proj2 (Z.ltb_ge mh _)), (proj2 (Z.ltb_ge mt _)) by lia. rewrite Hv.
    apply drop_line in Ea. eapply IH; try done; cbn [length] in *; lia.
Qed.

(** Chunks with their size lines. *)
Definition chunk_bytes (c : list Z * list Z) : list Z := c.1 ++ crlf ++ c.2 ++ crlf.
Definition good_chunk (c : list Z * list Z) : Prop := size_line c.1 (nlen c.2) /\ c.2 <> [].

Lemma read_chunks_spec mt all last ts post : 0 < mh <= usize_max -> mt <= usize_max -> size_line last 0 ->
  Forall good_trailer ts -> nlen (lines_block ts) <= mh -> nlen ts <= mt ->
  forall cs, Forall good_chunk cs -> forall fuel s buffer cursor body, pending buffer s all -> (cursor <= length buffer)%nat ->
  drop cursor all = flat_map chunk_bytes cs ++ last ++ crlf ++ lines_block ts ++ crlf ++ post ->
  nlen body + nlen (flat_map snd cs) <= mb -> mb <= usize_max -> (length cs < fuel)%nat ->
  read_chunks mh mb fuel s buffer cursor body mt = Some (Ok (body ++ flat_map snd cs)).
Proof.
  intros Hmh Hmt Hlast Hts Hbt Hct. induction 1 as [|[line data] cs [Hline Hne] Hcs IH];
    intros fuel s buffer cursor body Hp Hcu Ea Hb Hmb Hf; (destruct fuel as [|fuel]; [lia|]); cbn [read_chunks].
  - cbn [flat_map app] in Ea.
    destruct (read_size_spec last 0 _ cursor all s buffer Hlast Ea Hp Hcu) as (b' & s' & -> & Hp' & Hb').
    change (0 =? 0) with true. apply drop_line in Ea.
    destruct (read_trailers_spec mt all post Hmh Hmt ts Hts (S (Z.to_nat mh)) s' b' _ 0 0 Hp' Hb' Ea) as [r ->];
      [lia|lia|lia|lia| |by rewrite app_nil_r].
    assert (length ts <= length (lines_block ts))%nat; [|unfold nlen in Hbt; lia].
    clear. induction ts as [|t ts IHt]; [done|]. rewrite lines_block_cons, !length_app. cbn [length crlf]. lia.
  - cbn [flat_map chunk_bytes fst snd] in *. unfold chunk_bytes in Ea at 1. cbn [fst snd] in Ea.
    rewrite <- !app_assoc in Ea.
    destruct (read_size_spec line (nlen data) _ cursor all s buffer Hline Ea Hp Hcu) as (b' & s' & -> & Hp' & Hb').
    rewrite nlen_nil by done. rewrite nlen_app in Hb. pose proof (nlen_nonneg (flat_map snd cs)). pose proof (nlen_nonneg body).
    unfold saturating_add. rewrite Z.min_r, (proj2 (Z.ltb_ge _ _)) by lia. apply drop_line in Ea.
    destruct (read_data_spec _ (nlen data) all data _ body s' b' Ea eq_refl Hp' Hb') as (b2 & s2 & -> & Hp2 & Hb2).
    apply drop_line in Ea. rewrite app_assoc. apply IH; try done; [rewrite nlen_app; lia|cbn in Hf; lia].
Qed.

End Chunked.

(** ** Termination and limits *)

Section Total.
Context (mh mb : Z).

Lemma read_more_pieces s buffer b' s' : read_more_http_bytes s buffer mh mb = Ok (b', s') -> (length s' < length s)%nat.
Proof.
  unfold read_more_http_bytes. destruct s as [|c s]; [done|]. repeat case_match; try done. intros [= _ <-]. cbn. lia.
Qed.

Lemma read_line_total fuel : forall s buffer cursor tl, (length s < fuel)%nat ->
  is_Some (read_http_line_end mh mb fuel s buffer cursor tl).
Proof.
  induction fuel as [|fuel IH]; intros s buffer cursor tl Hf; [lia|]. cbn [read_http_line_end].
  destruct (find_sub crlf _); [done|].
  destruct (read_more_http_bytes s buffer mh mb) as [[b' s']|] eqn:E; repeat case_match; try done;
    apply read_more_pieces in E; apply IH; lia.
Qed.

Lemma read_trailers_total fuel : forall s buffer cursor b cnt mt, 0 <= b -> 0 <= mh < usize_max ->
  mh - b < Z.of_nat fuel -> (0 < fuel)%nat -> is_Some (read_trailers mh mb fuel s buffer cursor b cnt mt).
Proof.
  induction fuel as [|fuel IH]; intros s buffer cursor b cnt mt Hb Hm Hf H0; [lia|]. cbn [read_trailers].
  destruct (read_line_total (line_fuel s) s buffer cursor None) as [[[[e b'] s']|] ->];
    [unfold line_fuel; lia| |done].
  case_match eqn:El; [done|]. case_match eqn:Em; [done|]. case_match; [done|]. case_match; [|done].
  bool_to_prop. pose proof (nlen_nonneg (take (e - cursor) (drop cursor b'))). unfold saturating_add in *.
  apply IH; lia.
Qed.

Lemma usize_digits_nonneg radix s : 0 <= radix -> forall acc n, 0 <= acc -> usize_digits radix s acc = Some n -> 0 <= n.
Proof.
  intros Hr. induction s as [|c s IH]; intros acc n Ha; cbn [usize_digits]; [by intros [= <-]|].
  destruct (to_digit radix c) as [d|] eqn:E; [|done]. case_match; [|done].
  apply IH. assert (0 <= d); [|nia]. unfold to_digit in E. repeat case_match; try done; ranges;
    injection E as <-; lia.
Qed.

Lemma parse_usize_nonneg radix s n : 0 <= radix -> parse_usize radix s = Some n -> 0 <= n.
Proof.
  unfold parse_usize. destruct s as [|c r]; [done|]. intros Hr. repeat case_match; try done;
    intros Hp; (eapply (usize_digits_nonneg radix); [done| |exact Hp]; lia).
Qed.

Lemma read_size_cases s buffer cursor :
  is_Some (read_chunk_size mh mb s buffer cursor) /\
  forall n c b' s', read_chunk_size mh mb s buffer cursor = Some (Ok (n, c, b', s')) -> 0 <= n.
Proof.
  unfold read_chunk_size.
  destruct (read_line_total (line_fuel s) s buffer cursor (Some "chunk size line too large")) as [[[[e b'] s']|] ->];
    [unfold line_fuel; lia| |done].
  split; [done|]. intros n c b2 s2. repeat case_match; try done. intros [= <- _ _ _].
  by eapply (parse_usize_nonneg 16).
Qed.

Lemma fill_chunk_length size cursor : forall s buffer b' s', fill_chunk mh mb s buffer cursor size = Ok (b', s') ->
  saturating_add size 2 <= nlen b' - Z.of_nat cursor.
Proof.
  induction s as [|c s IH]; intros buffer b' s'; cbn [fill_chunk]; case_match eqn:E; try done; bool_to_prop.
  - by intros [= <- <-].
  - destruct (read_more_http_bytes (c :: s) buffer mh mb) as [[b2 s2]|]; [|done]. cbn [result_bind]. apply IH.
  - by intros [= <- <-].
Qed.

Lemma read_data_length s buffer cursor body size body' c' b' s' : 0 <= size < usize_max - 2 ->
  read_chunk_data mh mb s buffer cursor body size = Ok (body', c', b', s') -> nlen body' = nlen body + size.
Proof.
  intros Hs. unfold read_chunk_data. destruct (fill_chunk mh mb s buffer cursor size) as [[b2 s2]|] eqn:E; [|done].
  apply fill_chunk_length in E. cbn [result_bind]. case_match; [done|]. intros [= <- _ _ _].
  rewrite nlen_app. f_equal. unfold saturating_add, nlen in *. rewrite length_take, length_drop. lia.
Qed.

Lemma read_chunks_total fuel : forall s buffer cursor body mt, 0 <= mh < usize_max -> 0 <= mb < usize_max - 2 ->
  nlen body <= mb -> mb - nlen body < Z.of_nat fuel ->
  exists r, read_chunks mh mb fuel s buffer cursor body mt = Some r /\
    (forall out, r = Ok out -> nlen out <= mb).
Proof.
  induction fuel as [|fuel IH]; intros s buffer cursor body mt Hmh Hmb Hb Hf.
  { lia. }
  cbn [read_chunks]. destruct (read_size_cases s buffer cursor) as [[r E] Hn]. rewrite E.
  destruct r as [[[[n c] b'] s']|e]; [|by eexists]. specialize (Hn _ _ _ _ E).
  case_match eqn:E0; bool_to_prop.
  - destruct (read_trailers_total (S (Z.to_nat mh)) s' b' c 0 0 mt) as [[r|e] ->]; try lia; eexists; split;
      try reflexivity; [by intros out [= <-]|done].
  - case_match eqn:Em; [by eexists|]. bool_to_prop. unfold saturating_add in Em. pose proof (nlen_nonneg body).
    destruct (read_chunk_data mh mb s' b' c body n) as [[[[body' c'] b2] s2]|e] eqn:Ed; [|by eexists].
    apply read_data_length in Ed; [|lia]. apply IH; lia.
Qed.

End Total.

(** ** Claims *)

(** Which head is found does not depend on how the connection cuts the bytes into
    reads: the answer is the position behind the first empty line of all the bytes when
    it is within the limit, and otherwise the same error; what was read and what is to
    come are the bytes.  A body of declared length is the bytes that follow. *)
Lemma http_head_segmentation (s : stream) (max : Z) :
  nonempty_pieces s -> 0 <= max ->
  match read_http_request_headers s [] max with
  | Ok (buffer, header_end, rest) =>
      head_spec (concat s) max = Ok header_end /\ buffer ++ concat rest = concat s /\
      forall n limit, 0 <= n <= limit ->
        match read_http_request_body rest (drop header_end buffer) n limit with
        | Ok (body, _) => n <= nlen (drop header_end (concat s)) /\
            body = take (Z.to_nat n) (drop header_end (concat s))
        | Err e => nlen (drop header_end (concat s)) < n /\ e = "connection closed before request body complete"
        end
  | Err e => head_spec (concat s) max = Err e
  end.
Proof.
  intros Hs Hm. pose proof (read_headers_spec max s Hs [] eq_refl Hm) as H. cbn [app] in H.
  destruct (read_http_request_headers s [] max) as [[[b he] s']|e]; [|done].
  destruct H as (Hh & Hb & Hle & Hs'). split_and!; [done|done|]. intros n limit Hn.
  rewrite <- Hb, drop_app_le by done. by apply read_body_spec.
Qed.

Definition demo_request : stream := [txt "GET / HTTP"; txt "/1.0"; [13]; [10; 13; 10; 97; 98]; [99]].

(** C7: a chunked body, with any size lines that parse to the sizes of the chunks,
    chunk extensions included, and any valid trailer fields within the limits, decodes
    to the concatenation of the chunks, however the connection cuts the bytes into
    reads and whatever follows. *)
Theorem http_chunked_body (mh mb mt : Z) (cs : list (list Z * list Z)) (last : list Z) (ts : list (list Z))
    (post initial : list Z) (s : stream) :
  0 < mh -> 0 <= mb -> saturating_add mb mh < usize_max -> mt <= usize_max -> nonempty_pieces s ->
  Forall (good_chunk mh) cs -> size_line mh last 0 -> Forall good_trailer ts ->
  nlen (lines_block ts) <= mh -> nlen ts <= mt -> nlen (flat_map snd cs) <= mb ->
  initial ++ concat s = flat_map chunk_bytes cs ++ last ++ crlf ++ lines_block ts ++ crlf ++ post ->
  nlen (initial ++ concat s) <= mb + mh ->
  read_chunked_http_request_body mh mb s initial mt = Some (Ok (flat_map snd cs)).
Proof.
  unfold saturating_add. intros Hmh Hmb Hsat Hmt Hs Hcs Hl Hts Hb Hc Hbody Ea Hall.
  unfold read_chunked_http_request_body.
  rewrite (read_chunks_spec mh mb mt (initial ++ concat s) last ts post) with (cs := cs); try done; try lia.
  - by split_and!; [|done|unfold saturating_add; lia].
  - assert (length cs <= length (flat_map snd cs))%nat; [|unfold nlen in Hbody; lia].
    clear -Hcs. induction Hcs as [|[l d] cs [_ Hne] _ IH]; [done|]. cbn [flat_map length snd] in *.
    rewrite length_app. destruct d; [done|]. cbn [length]. lia.
Qed.

Definition demo_chunks : stream := [txt "3;x=y"; [13]; [10] ++ txt "ab"; txt "c" ++ [13]; [10] ++ txt "2"; crlf ++ txt "de" ++ crlf ++ txt "0" ++ crlf ++ txt "a:b" ++ [13]; [10; 13; 10]].

Lemma http_chunked_body_witness :
  read_chunked_http_request_body 64 32 demo_chunks [] 4 = Some (Ok (txt "abcde")).
Proof.
  apply (http_chunked_body 64 32 4 [(txt "3;x=y", txt "abc"); (txt "2", txt "de")] (txt "0") [txt "a:b"] [] [] demo_chunks).
  1-4: unfold saturating_add, usize_max; cbn; lia.
  1: repeat constructor; discriminate.
  1: constructor; [|constructor; [|constructor]]; (split; [|discriminate]).
  1: apply (size_line_check 64 _ _ (txt "3;x=y")); vm_compute; reflexivity.
  1: apply (size_line_check 64 _ _ (txt "2")); vm_compute; reflexivity.
  1: apply (size_line_check 64 _ _ (txt "0")); vm_compute; reflexivity.
  1: constructor; [|constructor]; split; [apply clean_b_ok; vm_compute; reflexivity|]; split; [discriminate|vm_compute; reflexivity].
  1-3: vm_compute; discriminate.
  all: vm_compute; try reflexivity; discriminate.
Defined.

(** C17: with a configuration that the server accepts, reading a request from any
    connection ends, whatever the head parser answers, and the body of a request that
    is accepted is within the configured limit. *)
Theorem http_request_total httparse is_authority (s : stream) (limits : HttpServerLimits) (next : Z) :
  http_server_limits limits = Ok limits ->
  exists r, read_typed_http_request httparse is_authority s limits next = Some r /\
    forall req, r = Ok req -> nlen (body req) <= max_body_bytes limits.
Proof.
  intros Hl. assert (1 <= max_header_bytes limits <= 16777216 /\ 1 <= max_body_bytes limits <= 16777216) as [Hh Hb].
  { unfold http_server_limits in Hl.
    destruct (negb (in_range 1 _ (max_header_bytes limits)) || negb (in_range 1 _ (max_body_bytes limits))) eqn:E.
    - by repeat (case_match; try done).
    - apply orb_false_iff in E as [E1%negb_false_iff%in_range_true E2%negb_false_iff%in_range_true]. lia. }
  unfold read_typed_http_request.
  destruct (read_http_request_headers s [] (max_header_bytes limits)) as [[[buf he] s1]|e]; [|by eexists].
  destruct (parse_http_request_header_pairs _ _ _ _) as [[[[m t] v] hs]|e]; [|by eexists].
  case_match; [by eexists|].
  destruct (let? content_length := header_content_length_pairs hs in _) as [[cl ch]|e] eqn:Ec; [|by eexists].
  destruct ch; [destruct cl; [by eexists|]|].
  - destruct (read_chunks_total (max_header_bytes limits) (max_body_bytes limits)
      (S (S (Z.to_nat (max_body_bytes limits)))) s1 (drop he buf) 0 [] (Z.max 0 (max_headers limits - nlen hs)))
      as (r & E & Hr); [unfold usize_max; lia|unfold usize_max; lia|unfold nlen; cbn [length]; lia|unfold nlen; cbn [length]; lia|].
    unfold read_chunked_http_request_body. rewrite E.
    destruct r as [b|e]; [|by eexists]. eexists. split; [reflexivity|]. intros req [= <-]. by apply Hr.
  - destruct (match cl with Some length => _ | None => _ end) as [n|e] eqn:En; [|by eexists].
    destruct (read_http_request_body s1 (drop he buf) n (max_body_bytes limits)) as [[b s2]|e] eqn:E; [|by eexists].
    eexists. split; [reflexivity|]. intros req [= <-]. cbn [body].
    unfold read_http_request_body in E. case_match eqn:Em; [done|]. bool_to_prop.
    destruct (read_body_loop s1 (drop he buf) n) as [[b2 s3]|]; [|done]. injection E as <- _.
    unfold nlen. rewrite length_take. lia.
Qed.

Definition demo_httparse (block : list Z) (room : Z) : option (text * text * Z * list (text * list Z)) :=
  Some (txt "get", txt "/", 0, [(txt "Content-Length", txt "3")]).

Lemma http_request_total_witness :
  read_typed_http_request demo_httparse (fun _ => true) demo_request default_http_server_limits 7 =
    Some (Ok (mk_request (txt "GET") (txt "/") (txt "mux-7") [(txt "content-length", txt "3")] (txt "abc"))) /\
  exists r, read_typed_http_request demo_httparse (fun _ => true) demo_request default_http_server_limits 7 = Some r /\
    forall req, r = Ok req -> nlen (body req) <= max_body_bytes default_http_server_limits.
Proof.
  split; [vm_compute; reflexivity|].
  exact (http_request_total demo_httparse (fun _ => true) demo_request default_http_server_limits 7 ltac:(vm_compute; reflexivity)).
Defined.

(** A length field may carry a plus sign: [Content-Length: +5] is read as 5, and
    [+5] as a chunk size too, although both fields are digits only. *)
Lemma http_length_accepts_sign :
  header_content_length_pairs [(txt "content-length", txt "+5")] = Ok (Some 5) /\
  size_line 1024 (txt "+5") 5.
Proof.
  split; [vm_compute; reflexivity|]. by apply (size_line_check 1024 _ _ (txt "+5")); vm_compute.
Qed.
