(* ===== verification/Router.v ===== *)
(** * The HTTP router ([src/src/net.rs])

    Route patterns and their compilation, matching, the choice among routes,
    registration, middleware and dispatch, and the counted handles of routers and of
    the [HttpNext] values that middleware receives.

    Handlers and middleware callbacks are compiled Mux code: parameters of the
    dispatch.  So are base64 and the verification of OIDC tokens. *)

From S2P Require Import Prelude AssocList Value Str Utf8 Http.

(** ** Patterns *)

Inductive HttpRouteSegment : Type :=
| LiteralSegment (s : text)
| ParameterSegment (name : text)
| CatchAllSegment (name : text).

#[export] Instance HttpRouteSegment_eq_dec : EqDecision HttpRouteSegment.
Proof. solve_decision. Defined.

Definition is_ascii_alphabetic (c : Z) : bool := in_range 65 90 c || in_range 97 122 c.

Definition valid_route_capture_name (name : text) : bool :=
  match name with
  | [] => false
  | first :: rest =>
      ((first =? 95) || is_ascii_alphabetic first) &&
      forallb (fun c => (c =? 95) || is_ascii_alphanumeric c) rest
  end.

Definition slash : Z := 47.

Definition route_path_segments (path : text) : result (list text) string :=
  match path with
  | 47 :: rest => match rest with [] => Ok [] | _ => Ok (split_text rest [slash]) end
  | _ => Err "HTTP route path must start with '/'"
  end.

Definition malformed_percent : string := "HTTP route path contains malformed percent-encoding".

(** The loop over the bytes of a segment. *)
Fixpoint percent_decode (bytes : list Z) : result (list Z) string :=
  match bytes with
  | [] => Ok []
  | b :: rest =>
      if negb (b =? 37) then let? decoded := percent_decode rest in Ok (b :: decoded)
      else
        match rest with
        | h :: l :: rest =>
            match to_digit 16 h, to_digit 16 l with
            | Some high, Some low =>
                let? decoded := percent_decode rest in Ok (Z.lor (Z.shiftl high 4) low :: decoded)
            | _, _ => Err malformed_percent
            end
        | _ => Err malformed_percent
        end
  end.

Definition percent_decode_route_segment (segment : text) : result text string :=
  let? decoded := percent_decode (utf8 segment) in
  match utf8_decode decoded with
  | Some s => Ok s
  | None => Err "HTTP route path contains invalid UTF-8"
  end.

Definition starts_with (c : Z) (s : text) : bool := match s with x :: _ => x =? c | [] => false end.
Definition ends_with (c : Z) (s : text) : bool := starts_with c (rev s).

(** [strip_prefix("...")]. *)
Definition strip_catch_all (name : text) : bool * text :=
  if is_prefix (txt "...") name then (true, drop 3 name) else (false, name).

(** The segment that a piece of a pattern stands for, with its rank; [names] are the
    captures before it, [is_last] its position. *)
Definition compile_segment (raw : text) (names : list text) (is_last : bool)
    : result (HttpRouteSegment * Z * list text) string :=
  if starts_with 123 raw || ends_with 125 raw then
    if negb (starts_with 123 raw) || negb (ends_with 125 raw) || (byte_len raw <? 3) then
      Err "HTTP route capture has invalid braces"
    else
      let name := take (length raw - 2) (drop 1 raw) in
      let '(is_catch_all, name) := strip_catch_all name in
      if negb (valid_route_capture_name name) then Err "HTTP route capture name is invalid"
      else if existsb (list_eqb Z.eqb name) names then Err "HTTP route capture name is duplicated"
      else if is_catch_all && negb is_last then Err "HTTP catch-all capture must be the final path segment"
      else if is_catch_all then Ok (CatchAllSegment name, 0, name :: names)
      else Ok (ParameterSegment name, 1, name :: names)
  else if existsb (fun c => (c =? 123) || (c =? 125)) raw then
    Err "HTTP route literal contains an unmatched brace"
  else
    let? s := percent_decode_route_segment raw in
    Ok (LiteralSegment s, 2, names).

Fixpoint compile_segments (raws : list text) (names : list text) : result (list HttpRouteSegment * list Z) string :=
  match raws with
  | [] => Ok ([], [])
  | raw :: rest =>
      let? (segment, rank, names) := compile_segment raw names (match rest with [] => true | _ => false end) in
      let? (segments, ranks) := compile_segments rest names in
      Ok (segment :: segments, rank :: ranks)
  end.

Definition is_catch_all (s : HttpRouteSegment) : bool := match s with CatchAllSegment _ => true | _ => false end.

Definition compile_http_route (path : text) : result (list HttpRouteSegment * list Z) string :=
  if existsb (Z.eqb 63) path then Err "HTTP route patterns must not contain a query string"
  else
    let? raws := route_path_segments path in
    let? (segments, specificity) := compile_segments raws [] in
    Ok (segments, specificity ++ if existsb is_catch_all segments then [] else [3]).

(** ** Matching *)

Fixpoint map_result {A B} (f : A -> result B string) (l : list A) : result (list B) string :=
  match l with
  | [] => Ok []
  | a :: l => let? b := f a in let? bs := map_result f l in Ok (b :: bs)
  end.

Definition request_path_segments (url : text) : result (list text) string :=
  let path := default [] (head (split_text url (txt "?"))) in
  let? raws := route_path_segments path in
  map_result percent_decode_route_segment raws.

(** [join("/")]. *)
Fixpoint join_slash (parts : list text) : text :=
  match parts with
  | [] => []
  | [p] => p
  | p :: rest => p ++ slash :: join_slash rest
  end.

Abbreviation Captures := (gmap (list Z) text).

(** The loop of [http_route_match]: the segments left of the pattern, [path] from
    [path_index] on, and the captures so far. *)
Fixpoint match_segments (segments : list HttpRouteSegment) (path : list text) (captures : Captures) : option Captures :=
  match segments with
  | [] => match path with [] => Some captures | _ => None end
  | LiteralSegment expected :: rest =>
      match path with
      | p :: path => if list_eqb Z.eqb p expected then match_segments rest path captures else None
      | [] => None
      end
  | ParameterSegment name :: rest =>
      match path with
      | p :: path => match_segments rest path (<[name := p]> captures)
      | [] => None
      end
  | CatchAllSegment name :: rest => match_segments rest [] (<[name := join_slash path]> captures)
  end.

Record HttpRouteEntry : Type := mk_route {
  route_method : text;
  segments : list HttpRouteSegment;
  specificity : list Z;
  handler : Z;
}.

#[export] Instance HttpRouteEntry_eq_dec : EqDecision HttpRouteEntry.
Proof. solve_decision. Defined.

Definition http_route_match (route : HttpRouteEntry) (path : list text) : option Captures :=
  match_segments (segments route) path ∅.

(** [Vec<i32>] compares lexicographically. *)
Definition more_specific (a b : list Z) : bool :=
  match lex_cmp Z.compare a b with Gt => true | _ => false end.

(** The loop over the routes from [index] on, with the one selected so far. *)
Fixpoint select_route (routes : list HttpRouteEntry) (index : nat) (method : text) (path : list text)
    (selected : option (nat * list Z * Captures)) : option (nat * list Z * Captures) :=
  match routes with
  | [] => selected
  | route :: rest =>
      let selected :=
        if negb (eq_ignore_ascii_case (route_method route) method) then selected
        else
          match http_route_match route path with
          | None => selected
          | Some captures =>
              let is_better :=
                match selected with None => true | Some (_, best, _) => more_specific (specificity route) best end in
              if is_better then Some (index, specificity route, captures) else selected
          end in
      select_route rest (S index) method path selected
  end.

(** [http_router_route_match]; the rank of the selected route is looked up again by its
    index in the source. *)
Definition http_router_route_match (routes : list HttpRouteEntry) (method url : text)
    : result (option (nat * Captures)) string :=
  let? path := request_path_segments url in
  Ok (match select_route routes 0 method path None with
      | Some (index, _, captures) => Some (index, captures)
      | None => None
      end).

(** ** Registration *)

Inductive HttpMiddlewareEntry : Type :=
| Callback (callback : Z)
| Basic (username password : text)
| Bearer (token : text)
| OAuthOidc (issuer audience jwks_url : text).

Record HttpRouterData : Type := mk_router { routes : list HttpRouteEntry; middleware : list HttpMiddlewareEntry }.

Definition mux_net_http_router_new : HttpRouterData := mk_router [] [].

Definition same_shape (existing new : HttpRouteSegment) : bool :=
  match existing, new with
  | LiteralSegment l, LiteralSegment r => list_eqb Z.eqb l r
  | ParameterSegment _, ParameterSegment _ | CatchAllSegment _, CatchAllSegment _ => true
  | _, _ => false
  end.

Definition ambiguous (method : text) (segs : list HttpRouteSegment) (spec : list Z) (route : HttpRouteEntry) : bool :=
  eq_ignore_ascii_case (route_method route) method && list_eqb Z.eqb (specificity route) spec &&
  forallb (fun '(existing, new) => same_shape existing new) (zip (segments route) segs).

(** [mux_net_http_router_route] on a live router, with the closures it retains;
    [handler] is [None] when null, [boxed] whether it has a boxed entry point. *)
Definition mux_net_http_router_route (method path : text) (handler : option Z) (boxed : bool)
    (st : HttpRouterData * list Z) : result unit string * (HttpRouterData * list Z) :=
  let '(router, retained) := st in
  if nlen method =? 0 then (Err "HTTP route method must not be empty", st)
  else if negb (is_http_token method) then (Err "HTTP route method must be an HTTP token", st)
  else
    match compile_http_route path with
    | Err e => (Err e, st)
    | Ok (segs, spec) =>
        match handler with
        | None => (Err "HTTP route handler is null", st)
        | Some handler =>
            if negb boxed then (Err "HTTP route handler must return result<HttpResponse, HttpError>", st)
            else
              let retained := handler :: retained in
              if existsb (ambiguous method segs spec) (routes router) then
                (Err "HTTP route is duplicate or ambiguous with an existing route", (router, retained))
              else
                (Ok tt, (mk_router (routes router ++ [mk_route (upper method) segs spec handler]) (middleware router),
                         retained))
        end
    end.

(** The closures that dropping the last name of a router releases. *)
Definition released_closures (router : HttpRouterData) : list Z :=
  (handler <$> routes router) ++
  flat_map (fun m => match m with Callback c => [c] | _ => [] end) (middleware router).

Definition mux_net_http_router_use (callback : option Z) (boxed : bool) (st : HttpRouterData * list Z)
    : result unit string * (HttpRouterData * list Z) :=
  let '(router, retained) := st in
  match callback with
  | None => (Err "HTTP middleware is null", st)
  | Some c =>
      if negb boxed then (Err "HTTP middleware must return result<HttpResponse, HttpError>", st)
      else (Ok tt, (mk_router (routes router) (middleware router ++ [Callback c]), c :: retained))
  end.

Definition is_ascii_control (b : Z) : bool := in_range 0 31 b || (b =? 127).

Definition validate_auth_secret (value : text) : result unit string :=
  if nlen value =? 0 then Err "must not be empty"
  else if existsb (fun b => is_ascii_control b || is_ascii_whitespace b) (utf8 value) then
    Err "must not contain whitespace or control characters"
  else Ok tt.

Definition add_http_auth_middleware (m : HttpMiddlewareEntry) (router : HttpRouterData) : HttpRouterData :=
  mk_router (routes router) (middleware router ++ [m]).

Definition mux_net_http_router_basic_auth (username password : text) (router : HttpRouterData)
    : result unit string * HttpRouterData :=
  match (let? _ := validate_auth_secret username in
         let? _ := validate_auth_secret password in
         if existsb (Z.eqb 58) username then Err "HTTP Basic auth username must not contain ':'" else Ok tt) with
  | Err e => (Err e, router)
  | Ok _ => (Ok tt, add_http_auth_middleware (Basic username password) router)
  end.

Definition mux_net_http_router_bearer_auth (token : text) (router : HttpRouterData)
    : result unit string * HttpRouterData :=
  match validate_auth_secret token with
  | Err e => (Err e, router)
  | Ok _ => (Ok tt, add_http_auth_middleware (Bearer token) router)
  end.

(** [validate_oauth_metadata] parses URLs with the [url] crate: a parameter. *)
Definition mux_net_http_router_oauth_oidc (validate_oauth_metadata : text -> text -> text -> result unit string)
    (issuer audience jwks_url : text) (router : HttpRouterData) : result unit string * HttpRouterData :=
  match validate_oauth_metadata issuer audience jwks_url with
  | Err e => (Err e, router)
  | Ok _ => (Ok tt, add_http_auth_middleware (OAuthOidc issuer audience jwks_url) router)
  end.

(** ** Authentication *)

(** The fold over the indices up to the longer length. *)
Definition constant_time_equal (left right : list Z) : bool :=
  let max_len := Nat.max (length left) (length right) in
  let difference :=
    foldl (fun d index => Z.lor d (Z.lxor (default 0 (left !! index)) (default 0 (right !! index))))
      (Z.lxor (nlen left) (nlen right)) (seq 0 max_len) in
  difference =? 0.

Record Request : Type := mk_req {
  req_method : text;
  req_url : text;
  req_headers : list header;
  path_params : Captures;
}.

Definition http_request_header (request : Request) (name : string) : option text :=
  snd <$> List.find (name_is name) (req_headers request).

(** [split_ascii_whitespace]: the maximal runs of other characters. *)
Fixpoint ascii_words (s word : text) : list text :=
  match s with
  | [] => match word with [] => [] | _ => [rev word] end
  | c :: s =>
      if is_ascii_whitespace c then match word with [] => ascii_words s [] | _ => rev word :: ascii_words s [] end
      else ascii_words s (c :: word)
  end.

(** The two words of an authorization header with the given scheme. *)
Definition authorization (request : Request) (scheme : string) : option text :=
  match http_request_header request "authorization" with
  | None => None
  | Some header =>
      match ascii_words header [] with
      | [s; credentials] => if eq_ignore_ascii_case s (txt scheme) then Some credentials else None
      | _ => None
      end
  end.

Definition valid_bearer_token (token : text) : bool :=
  negb (nlen token =? 0) &&
  forallb (fun b => is_ascii_alphanumeric b || existsb (Z.eqb b) [45; 46; 95; 126; 43; 47] || (b =? 61)) (utf8 token).

Definition bearer_token (request : Request) : option text :=
  match authorization request "Bearer" with
  | Some token => if valid_bearer_token token then Some token else None
  | None => None
  end.

Definition bearer_auth_matches (request : Request) (token : text) : bool :=
  match authorization request "Bearer" with
  | Some candidate => constant_time_equal (utf8 candidate) (utf8 token)
  | None => false
  end.

(** ** Dispatch *)

Inductive Answer (R : Type) : Type :=
| Response (r : R)
| Unauthorized (scheme : string)
| NotFound
| Failed (message : string).
Arguments Response {R} _.
Arguments Unauthorized {R} _.
Arguments NotFound {R}.
Arguments Failed {R} _.

Section Dispatch.
Context {R : Type}.
Context (base64_decode : list Z -> option (list Z)).
Context (oidc_valid : text -> text -> text -> text -> result bool string).
Context (call_handler : Z -> Request -> Answer R).
Context (call_middleware : Z -> Request -> (Request -> Answer R) -> Answer R).

Definition basic_auth_matches (request : Request) (username password : text) : bool :=
  match authorization request "Basic" with
  | Some encoded =>
      match base64_decode (utf8 encoded) with
      | Some decoded => constant_time_equal decoded (utf8 (username ++ txt ":" ++ password))
      | None => false
      end
  | None => false
  end.

Definition bind_http_route_captures (request : Request) (m : option (nat * Captures)) : Request :=
  mk_req (req_method request) (req_url request) (req_headers request)
    match m with Some (_, captures) => captures | None => ∅ end.

(** [http_router_dispatch] from a stage on: [rest] is the middleware of the stages left,
    [stage0] whether the stage is the first. *)
Fixpoint http_router_dispatch (routes : list HttpRouteEntry) (rest : list HttpMiddlewareEntry) (stage0 : bool)
    (request : Request) : Answer R :=
  match http_router_route_match routes (upper (req_method request)) (req_url request) with
  | Err e => Failed e
  | Ok m =>
      let request := if stage0 then bind_http_route_captures request m else request in
      match rest with
      | Basic username password :: rest =>
          if basic_auth_matches request username password then http_router_dispatch routes rest false request
          else Unauthorized "Basic"
      | Bearer token :: rest =>
          if bearer_auth_matches request token then http_router_dispatch routes rest false request
          else Unauthorized "Bearer"
      | OAuthOidc issuer audience jwks_url :: rest =>
          match bearer_token request with
          | None => Unauthorized "Bearer"
          | Some token =>
              match oidc_valid token issuer audience jwks_url with
              | Ok true => http_router_dispatch routes rest false request
              | Ok false => Unauthorized "Bearer"
              | Err e => Failed e
              end
          end
      | Callback c :: rest => call_middleware c request (http_router_dispatch routes rest false)
      | [] =>
          match m with
          | Some (index, _) =>
              match routes !! index with
              | Some route => call_handler (handler route) request
              | None => NotFound
              end
          | None => NotFound
          end
      end
  end.

End Dispatch.

(** ** Counted handles of routers and continuations *)

Record NextEntry : Type := mk_next { next_router : Z; next_stage : Z; next_names : Z }.

(** The [names] of the routers, and the table of continuations. *)
Record Handles : Type := mk_handles { routers : gmap Z Z; nexts : gmap Z NextEntry }.

Definition retain_http_router_handle (h : Z) (t : Handles) : Handles :=
  match routers t !! h with
  | Some n => mk_handles (<[h := n + 1]> (routers t)) (nexts t)
  | None => t
  end.

(** The router goes, with its closures, with its last name. *)
Definition release_http_router_handle (h : Z) (t : Handles) : Handles :=
  match routers t !! h with
  | Some n =>
      let n := Z.max 0 (n - 1) in
      mk_handles (if n =? 0 then delete h (routers t) else <[h := n]> (routers t)) (nexts t)
  | None => t
  end.

Definition insert_http_next (next router stage : Z) (t : Handles) : Handles :=
  let t := retain_http_router_handle router t in
  mk_handles (routers t) (<[next := mk_next router stage 1]> (nexts t)).

Definition copy_http_next (next : Z) (t : Handles) : Handles :=
  match nexts t !! next with
  | Some e =>
      retain_http_router_handle (next_router e)
        (mk_handles (routers t) (<[next := mk_next (next_router e) (next_stage e) (next_names e + 1)]> (nexts t)))
  | None => t
  end.

Definition drop_http_next (next : Z) (t : Handles) : Handles :=
  match nexts t !! next with
  | Some e =>
      let n := Z.max 0 (next_names e - 1) in
      if n =? 0 then release_http_router_handle (next_router e) (mk_handles (routers t) (delete next (nexts t)))
      else mk_handles (routers t) (<[next := mk_next (next_router e) (next_stage e) n]> (nexts t))
  | None => t
  end.
