(* ===== verification/RouterProps.v ===== *)
(** * What the router promises

    A pattern matches exactly the paths that are its instances; percent-encoding a
    path and decoding it are inverse; in any router that registrations build, the
    route that serves a request is the only most specific one that matches, whatever
    the order of registration; and a request passes the authentication stages exactly
    with the credentials they were given. *)

From S2P Require Import Prelude AssocList Value Str BytesProps Utf8 Http HttpProps Router.

(** ** Patterns *)

Definition rank (s : HttpRouteSegment) : Z :=
  match s with LiteralSegment _ => 2 | ParameterSegment _ => 1 | CatchAllSegment _ => 0 end.

Definition capture_name (s : HttpRouteSegment) : list text :=
  match s with LiteralSegment _ => [] | ParameterSegment n | CatchAllSegment n => [n] end.

Definition capture_names (segs : list HttpRouteSegment) : list text := flat_map capture_name segs.

(** A catch-all stands only at the end. *)
Fixpoint final_catch_all (segs : list HttpRouteSegment) : Prop :=
  match segs with
  | [] => True
  | CatchAllSegment _ :: rest => rest = []
  | _ :: rest => final_catch_all rest
  end.

Definition pattern_specificity (segs : list HttpRouteSegment) : list Z :=
  (rank <$> segs) ++ if existsb is_catch_all segs then [] else [3].

Record well_formed_pattern (segs : list HttpRouteSegment) (spec : list Z) : Prop := {
  pattern_ranks : spec = pattern_specificity segs;
  pattern_final : final_catch_all segs;
  pattern_names : NoDup (capture_names segs);
}.

(** The path is an instance of the pattern under the captures. *)
Fixpoint instance (segs : list HttpRouteSegment) (captures : Captures) (path : list text) : Prop :=
  match segs, path with
  | [], [] => True
  | LiteralSegment s :: segs, p :: path => p = s /\ instance segs captures path
  | ParameterSegment n :: segs, p :: path => captures !! n = Some p /\ instance segs captures path
  | CatchAllSegment n :: segs, path => captures !! n = Some (join_slash path) /\ segs = []
  | _, _ => False
  end.

Lemma existsb_name (n : text) names : existsb (list_eqb Z.eqb n) names = true <-> n ∈ names.
Proof.
  rewrite existsb_exists. split.
  - intros (m & Hm & E). apply list_eqb_Z in E as ->. by apply list_elem_of_In.
  - intros H. exists n. by rewrite list_eqb_Z_refl, <- list_elem_of_In.
Qed.

Lemma compile_segment_ok raw names is_last seg r names' :
  compile_segment raw names is_last = Ok (seg, r, names') ->
  r = rank seg /\ names' = capture_name seg ++ names /\ (forall n, n ∈ capture_name seg -> n ∉ names) /\
  (is_catch_all seg = true -> is_last = true).
Proof.
  unfold compile_segment. destruct (starts_with 123 raw || _).
  - destruct (_ || _); [done|]. destruct (strip_catch_all _) as [ca name].
    destruct (valid_route_capture_name name); [|done]. cbn [negb].
    destruct (existsb (list_eqb Z.eqb name) names) eqn:E; [done|].
    assert (name ∉ names) by (intros H%existsb_name; congruence).
    destruct ca, is_last; cbn [andb negb]; intros H'; try done; apply Ok_inj in H'; injection H' as <- <- <-;
      cbn [rank capture_name is_catch_all app]; split_and!; try done; by intros n ->%list_elem_of_singleton.
  - destruct (existsb _ raw); [done|]. destruct (percent_decode_route_segment raw); [|done].
    intros H%Ok_inj. injection H as <- <- <-. split_and!; try done. intros n H. by apply elem_of_nil in H.
Qed.

Lemma compile_segments_ok raws names segs rs : compile_segments raws names = Ok (segs, rs) ->
  rs = rank <$> segs /\ final_catch_all segs /\ NoDup (capture_names segs) /\
  (forall n, n ∈ capture_names segs -> n ∉ names) /\ (raws = [] -> segs = []).
Proof.
  revert names segs rs. induction raws as [|raw raws IH]; intros names segs rs; cbn [compile_segments].
  - intros H%Ok_inj. injection H as <- <-. split_and!; try done; [constructor|].
    intros n H. by apply elem_of_nil in H.
  - destruct (compile_segment _ _ _) as [[[seg r] names']|] eqn:E; [|done]. cbn [result_bind].
    apply compile_segment_ok in E as (-> & -> & Hn & Hl).
    destruct (compile_segments raws _) as [[segs' rs']|] eqn:E'; [|done]. cbn [result_bind].
    intros H%Ok_inj. injection H as <- <-. apply IH in E' as (-> & Hf & Hd & Hd' & He).
    cbn [capture_names flat_map]. split_and!; try done.
    + destruct seg; try done. destruct raws; [by apply He|]. by specialize (Hl eq_refl).
    + apply NoDup_app. split_and!; [destruct seg; repeat constructor; set_solver| |done].
      intros n H1 H2. apply Hd' in H2. set_solver.
    + intros n [H|H]%elem_of_app; [by apply Hn|]. apply Hd' in H. set_solver.
Qed.

Lemma compile_http_route_ok pattern segs spec :
  compile_http_route pattern = Ok (segs, spec) -> well_formed_pattern segs spec.
Proof.
  unfold compile_http_route. destruct (existsb _ pattern); [done|].
  destruct (route_path_segments pattern) as [raws|]; [|done]. cbn [result_bind].
  destruct (compile_segments raws []) as [[segs' rs]|] eqn:E; [|done]. cbn [result_bind].
  intros H%Ok_inj. injection H as <- <-. apply compile_segments_ok in E as (-> & ? & ? & _). by split.
Qed.

(** ** Matching *)

Lemma match_segments_dom segs path c c' :
  match_segments segs path c = Some c' -> dom c' =@{gset (list Z)} dom c ∪ list_to_set (capture_names segs).
Proof.
  revert path c. induction segs as [|[s|n|n] segs IH]; intros path c; cbn [match_segments capture_names flat_map].
  - destruct path; [|done]. intros [= <-]. set_solver.
  - destruct path as [|p path]; [done|]. destruct (list_eqb _ _ _); [|done]. apply IH.
  - destruct path as [|p path]; [done|]. intros H%IH. rewrite H, dom_insert_L. set_solver.
  - intros H%IH. rewrite H, dom_insert_L. set_solver.
Qed.

Lemma match_segments_keep segs path c c' n : n ∉ capture_names segs ->
  match_segments segs path c = Some c' -> c' !! n = c !! n.
Proof.
  revert path c. induction segs as [|[s|m|m] segs IH]; intros path c Hn; cbn [match_segments].
  - destruct path; [|done]. by intros [= <-].
  - destruct path as [|p path]; [done|]. destruct (list_eqb _ _ _); [|done]. by apply IH.
  - destruct path as [|p path]; [done|]. cbn [capture_names flat_map capture_name] in Hn. intros H%IH; [|set_solver].
    rewrite H. apply lookup_insert_ne. set_solver.
  - cbn [capture_names flat_map capture_name] in Hn. intros H%IH; [|set_solver].
    rewrite H. apply lookup_insert_ne. set_solver.
Qed.

(** Matching from any captures: the new ones are the instance's, the old ones stay. *)
Lemma match_segments_instance segs path c c' : NoDup (capture_names segs) -> final_catch_all segs ->
  match_segments segs path c = Some c' -> instance segs c' path.
Proof.
  revert path c. induction segs as [|[s|n|n] segs IH]; intros path c Hd Hf; cbn [match_segments].
  - by destruct path.
  - destruct path as [|p path]; [done|]. destruct (list_eqb _ _ _) eqn:E; [|done]. apply list_eqb_Z in E as ->.
    intros H%IH; done.
  - destruct path as [|p path]; [done|]. cbn [capture_names flat_map capture_name app] in Hd.
    apply NoDup_cons in Hd as [Hn Hd]. intros H. split; [|by eapply IH].
    erewrite match_segments_keep by done. apply lookup_insert_eq.
  - cbn [final_catch_all] in Hf. subst segs. cbn [match_segments]. intros [= <-]. cbn [instance].
    by rewrite lookup_insert_eq.
Qed.

Lemma instance_matches segs path c : final_catch_all segs -> instance segs c path ->
  forall c0, exists c', match_segments segs path c0 = Some c'.
Proof.
  revert path. induction segs as [|[s|n|n] segs IH]; intros path Hf; cbn [match_segments instance].
  - destruct path; [|done]. by eexists.
  - destruct path as [|p path]; [done|]. intros [-> H] c0. rewrite list_eqb_Z_refl. by apply IH.
  - destruct path as [|p path]; [done|]. intros [_ H] c0. by apply IH.
  - intros [_ ->] c0. by eexists.
Qed.

(** An instance determines what the captured names stand for. *)
Lemma instance_unique segs path c1 c2 n :
  instance segs c1 path -> instance segs c2 path -> n ∈ capture_names segs -> c1 !! n = c2 !! n.
Proof.
  revert path. induction segs as [|[s|m|m] segs IH]; intros path;
    cbn [instance capture_names flat_map capture_name app].
  - intros _ _ H. by apply elem_of_nil in H.
  - destruct path as [|p path]; [done|]. intros [_ H1] [_ H2]. by eapply IH.
  - destruct path as [|p path]; [done|]. intros [E1 H1] [E2 H2] [->|Hn]%elem_of_cons; [congruence|]. by eapply IH.
  - intros [E1 ->] [E2 _] [->|Hn]%elem_of_cons; [congruence|by apply elem_of_nil in Hn].
Qed.

Lemma http_route_match_spec route path captures : well_formed_pattern (segments route) (specificity route) ->
  http_route_match route path = Some captures <->
  dom captures =@{gset (list Z)} list_to_set (capture_names (segments route)) /\ instance (segments route) captures path.
Proof.
  intros [_ Hf Hd]. unfold http_route_match. split.
  - intros H. split; [|by eapply match_segments_instance].
    rewrite (match_segments_dom _ _ _ _ H). set_solver.
  - intros [Hdom Hi]. destruct (instance_matches _ _ _ Hf Hi ∅) as [c' H]. rewrite H. f_equal.
    pose proof (match_segments_dom _ _ _ _ H) as Hdom'. apply match_segments_instance in H; [|done..].
    apply map_eq. intros n. destruct (decide (n ∈ capture_names (segments route))) as [Hn|Hn].
    { by eapply instance_unique. }
    rewrite (proj1 (not_elem_of_dom c' n)) by set_solver.
    rewrite (proj1 (not_elem_of_dom captures n)) by set_solver. done.
Qed.

(** ** Patterns of equal specificity *)

Lemma rank_same segs segs' : pattern_specificity segs = pattern_specificity segs' -> rank <$> segs = rank <$> segs'.
Proof.
  assert (forall l : list HttpRouteSegment, 3 ∉ (rank <$> l)) as H3.
  { intros l. rewrite list_elem_of_fmap. intros ([]  & E & _); done. }
  unfold pattern_specificity. intros E.
  destruct (existsb is_catch_all segs), (existsb is_catch_all segs'); rewrite ?app_nil_r in E.
  - done.
  - exfalso. apply (H3 segs). rewrite E. set_solver.
  - exfalso. apply (H3 segs'). rewrite <- E. set_solver.
  - by apply app_inj_2 in E as [? _].
Qed.

(** Patterns of equal ranks that match one path have the same shape. *)
Lemma common_path_same_shape segs segs' path c c' : rank <$> segs = rank <$> segs' ->
  instance segs c path -> instance segs' c' path ->
  forallb (fun '(existing, new) => same_shape existing new) (zip segs segs') = true.
Proof.
  revert segs' path. induction segs as [|s segs IH]; intros [|s' segs'] path E; try done.
  rewrite !fmap_cons in E. injection E as Er E. change (zip (s :: segs) (s' :: segs')) with ((s, s') :: zip segs segs').
  cbn [forallb].
  destruct s, s'; try done; cbn [instance same_shape andb]; destruct path as [|p path]; try done.
  - intros [<- H] [<- H']. rewrite list_eqb_Z_refl. by eapply IH.
  - intros [_ H] [_ H']. by eapply IH.
  - by intros [_ ->] [_ ->].
  - by intros [_ ->] [_ ->].
Qed.

Definition serves (route : HttpRouteEntry) (method : text) (path : list text) : Prop :=
  eq_ignore_ascii_case (route_method route) method = true /\ is_Some (http_route_match route path).

Definition clash (a b : HttpRouteEntry) : bool := ambiguous (route_method b) (segments b) (specificity b) a.

Lemma eq_ignore_case_spec a b : eq_ignore_ascii_case a b = true <-> lower a = lower b.
Proof. apply list_eqb_Z. Qed.

Lemma serves_clash a b method path :
  well_formed_pattern (segments a) (specificity a) -> well_formed_pattern (segments b) (specificity b) ->
  serves a method path -> serves b method path -> specificity a = specificity b -> clash a b = true.
Proof.
  intros Ha Hb [Ma [ca Ea]] [Mb [cb Eb]] E. unfold clash, ambiguous.
  apply eq_ignore_case_spec in Ma, Mb. rewrite (proj2 (eq_ignore_case_spec _ _)) by congruence.
  rewrite E. rewrite list_eqb_Z_refl. cbn [andb].
  apply http_route_match_spec in Ea as [_ Ea], Eb as [_ Eb]; [|done..].
  eapply common_path_same_shape; [|done..]. apply rank_same. by rewrite <- (pattern_ranks _ _ Ha), <- (pattern_ranks _ _ Hb).
Qed.

(** ** The routers that registrations build *)

Inductive built : HttpRouterData -> Prop :=
| built_new : built mux_net_http_router_new
| built_route r method path h boxed retained res r' retained' : built r ->
    mux_net_http_router_route method path h boxed (r, retained) = (res, (r', retained')) -> built r'
| built_use r c boxed retained res r' retained' : built r ->
    mux_net_http_router_use c boxed (r, retained) = (res, (r', retained')) -> built r'
| built_basic r username password : built r -> built (mux_net_http_router_basic_auth username password r).2
| built_bearer r token : built r -> built (mux_net_http_router_bearer_auth token r).2
| built_oidc r validate issuer audience jwks_url : built r ->
    built (mux_net_http_router_oauth_oidc validate issuer audience jwks_url r).2.

Record router_ok (rs : list HttpRouteEntry) : Prop := {
  router_patterns : Forall (fun r => well_formed_pattern (segments r) (specificity r)) rs;
  router_distinct i j a b : rs !! i = Some a -> rs !! j = Some b -> (i < j)%nat -> clash a b = false;
}.

Lemma upper_lower s : lower (upper s) = lower s.
Proof.
  unfold lower, upper. rewrite <- list_fmap_compose. apply list_fmap_ext. intros _ c _. cbn.
  unfold to_ascii_lowercase, to_ascii_uppercase. repeat (case_match; ranges; try done); lia.
Qed.

Lemma router_ok_snoc rs method segs spec h : router_ok rs -> well_formed_pattern segs spec ->
  existsb (ambiguous method segs spec) rs = false ->
  router_ok (rs ++ [mk_route (upper method) segs spec h]).
Proof.
  intros [Hp Hd] Hw Ha. split.
  - apply Forall_app. split; [done|]. by constructor.
  - intros i j a b Hi Hj Hij. apply lookup_app_Some in Hj as [Hj|[Hj Hj']].
    + rewrite lookup_app_l in Hi; [by eapply Hd|]. apply lookup_lt_Some in Hj. lia.
    + apply list_lookup_singleton_Some in Hj' as [Hl <-]. rewrite lookup_app_l in Hi by lia.
      apply not_true_iff_false. intros Hc.
      assert (existsb (ambiguous method segs spec) rs = true); [|congruence].
      apply existsb_exists. exists a. split; [by eapply list_elem_of_In, list_elem_of_lookup_2|].
      unfold clash, ambiguous, eq_ignore_ascii_case in *. cbn [route_method segments specificity] in Hc.
      by rewrite upper_lower in Hc.
Qed.

Lemma built_ok r : built r -> router_ok (routes r).
Proof.
  induction 1 as [|r method path h boxed retained res r' retained' _ IH E|r c boxed retained res r' retained' _ IH E
                 |r u p _ IH|r t _ IH|r v i a u _ IH].
  - split; [constructor|]. intros i j a b [=].
  - unfold mux_net_http_router_route in E. destruct (nlen method =? 0); [by simplify_eq|].
    destruct (negb _); [by simplify_eq|]. destruct (compile_http_route path) as [[segs spec]|] eqn:Ec; [|by simplify_eq].
    destruct h as [h|]; [|by simplify_eq]. destruct (negb boxed); [by simplify_eq|].
    destruct (existsb _ _) eqn:Ea; simplify_eq; [done|]. cbn [routes].
    apply router_ok_snoc; [done| |done]. by eapply compile_http_route_ok.
  - unfold mux_net_http_router_use in E. repeat case_match; by simplify_eq.
  - unfold mux_net_http_router_basic_auth. by case_match.
  - unfold mux_net_http_router_bearer_auth. by case_match.
  - unfold mux_net_http_router_oauth_oidc. by case_match.
Qed.

(** ** Selection *)

(** The selection after the routes [rs]: the first of the most specific ones. *)
Definition best_of (rs : list HttpRouteEntry) (method : text) (path : list text)
    (sel : option (nat * list Z * Captures)) : Prop :=
  match sel with
  | None => forall j other, rs !! j = Some other -> ~ serves other method path
  | Some (i, spec, captures) => exists route, rs !! i = Some route /\ spec = specificity route /\
      eq_ignore_ascii_case (route_method route) method = true /\ http_route_match route path = Some captures /\
      forall j other, rs !! j = Some other -> serves other method path ->
        lex_cmp Z.compare (specificity other) spec <> Gt
  end.

Lemma serves_none route method path : http_route_match route path = None -> ~ serves route method path.
Proof. intros E [_ [c H]]. congruence. Qed.

Lemma best_of_skip rs route method path sel : best_of rs method path sel -> ~ serves route method path ->
  best_of (rs ++ [route]) method path sel.
Proof.
  intros H Hn. destruct sel as [[[i spec] c]|]; cbn [best_of] in *.
  - destruct H as (r & Hi & E1 & E2 & E3 & Hb). exists r. split; [by apply lookup_app_l_Some|]. split_and!; try done.
    intros j other [Hj|[_ Hj]]%lookup_app_Some Hs; [by eapply Hb|].
    apply list_lookup_singleton_Some in Hj as [_ <-]. done.
  - intros j other [Hj|[_ Hj]]%lookup_app_Some; [by eapply H|].
    by apply list_lookup_singleton_Some in Hj as [_ <-].
Qed.

Lemma best_of_take rs route method path c sel : best_of rs method path sel ->
  eq_ignore_ascii_case (route_method route) method = true -> http_route_match route path = Some c ->
  match sel with None => True | Some (_, best, _) => lex_cmp Z.compare (specificity route) best = Gt end ->
  best_of (rs ++ [route]) method path (Some (length rs, specificity route, c)).
Proof.
  intros H Hm Hc Hb. exists route. split_and!; try done.
  { rewrite lookup_app_r by lia. by rewrite Nat.sub_diag. }
  intros j other [Hj|[_ Hj]]%lookup_app_Some Hs.
  - destruct sel as [[[i spec] c']|]; cbn [best_of] in H; [|by exfalso; eapply H].
    destruct H as (r & _ & _ & _ & _ & H). specialize (H j other Hj Hs).
    intros Hg. apply H. 
    apply (ord_gt_lt _ _ _ _ Zlex_ord); [apply Forall_any..|].
    apply (ord_gt_lt _ _ _ _ Zlex_ord) in Hb, Hg; [|apply Forall_any..].
    by eapply (ord_lt_trans _ _ Zlex_ord); [apply Forall_any..| |].
  - apply list_lookup_singleton_Some in Hj as [_ <-]. rewrite (ord_refl _ _ Zlex_ord); [done|apply Forall_any].
Qed.

Lemma best_of_keep rs route method path i spec c : best_of rs method path (Some (i, spec, c)) ->
  lex_cmp Z.compare (specificity route) spec <> Gt ->
  best_of (rs ++ [route]) method path (Some (i, spec, c)).
Proof.
  intros (r & Hi & E1 & E2 & E3 & Hb) Hg. exists r. split; [by apply lookup_app_l_Some|]. split_and!; try done.
  intros j other [Hj|[_ Hj]]%lookup_app_Some Hs; [by eapply Hb|].
  by apply list_lookup_singleton_Some in Hj as [_ <-].
Qed.

Lemma select_route_best rest rs method path sel : best_of rs method path sel ->
  best_of (rs ++ rest) method path (select_route rest (length rs) method path sel).
Proof.
  revert rs sel. induction rest as [|route rest IH]; intros rs sel H; cbn [select_route].
  { by rewrite app_nil_r. }
  replace (S (length rs)) with (length (rs ++ [route])) by (rewrite length_app; cbn; lia).
  rewrite cons_middle, app_assoc. apply IH.
  destruct (eq_ignore_ascii_case _ _) eqn:Em; cbn [negb].
  2:{ apply best_of_skip; [done|]. intros [E _]. congruence. }
  destruct (http_route_match route path) as [c|] eqn:Ec; [|by apply best_of_skip, serves_none].
  destruct sel as [[[i spec] c']|]; [|by eapply best_of_take].
  unfold more_specific. destruct (lex_cmp _ _ _) eqn:El; [| |by eapply best_of_take];
    apply best_of_keep; try done; congruence.
Qed.

Lemma serves_unique rs method path i j a b : router_ok rs -> rs !! i = Some a -> rs !! j = Some b ->
  serves a method path -> serves b method path -> specificity a = specificity b -> i = j.
Proof.
  intros [Hp Hd] Hi Hj Sa Sb E. rewrite Forall_lookup in Hp.
  destruct (lt_eq_lt_dec i j) as [[H| ]|H]; [|done|].
  - pose proof (serves_clash a b method path (Hp _ _ Hi) (Hp _ _ Hj) Sa Sb E). by rewrite (Hd _ _ _ _ Hi Hj H) in *.
  - pose proof (serves_clash b a method path (Hp _ _ Hj) (Hp _ _ Hi) Sb Sa (eq_sym E)).
    by rewrite (Hd _ _ _ _ Hj Hi H) in *.
Qed.

Lemma lex_Z_eq (a b : list Z) : lex_cmp Z.compare a b = Eq -> a = b.
Proof.
  revert b. induction a as [|x a IH]; intros [|y b]; try done. cbn [lex_cmp].
  destruct (Z.compare_spec x y); try done. subst. intros H. f_equal. by apply IH.
Qed.

(** In a router without clashes the selected route beats every other one that serves. *)
Lemma selected_beats rs method path i spec c : router_ok rs -> best_of rs method path (Some (i, spec, c)) ->
  forall j other, rs !! j = Some other -> j <> i -> serves other method path ->
    more_specific spec (specificity other) = true.
Proof.
  intros Hok (r & Hi & -> & Hm & Hc & Hb) j other Hj Hne Hs. specialize (Hb j other Hj Hs). unfold more_specific.
  rewrite (ord_opp _ _ Zlex_ord (specificity other)) by apply Forall_any.
  destruct (lex_cmp Z.compare (specificity other) _) eqn:E; [|done|done].
  exfalso. apply Hne. apply lex_Z_eq in E. eapply (serves_unique rs method path); [done..| |done]. by split.
Qed.

Lemma selection rs method path : best_of rs method path (select_route rs 0 method path None).
Proof. apply (select_route_best rs []). by intros j other [=]. Qed.

Lemma more_specific_irrefl a b : more_specific a b = true -> more_specific b a = true -> False.
Proof.
  unfold more_specific. rewrite (ord_opp _ _ Zlex_ord a b) by apply Forall_any. by destruct (lex_cmp Z.compare a b).
Qed.

(** What a selection amounts to: the handler and the captures. *)
Definition served (rs : list HttpRouteEntry) (sel : option (nat * Captures)) : option (HttpRouteEntry * Captures) :=
  match sel with
  | Some (i, captures) => (fun r => (r, captures)) <$> rs !! i
  | None => None
  end.

(** Lists of routes with the same members serve a request alike. *)
Lemma selection_members rs rs' method path : router_ok rs -> router_ok rs' -> (forall r, r ∈ rs <-> r ∈ rs') ->
  (forall r, serves r method path -> r ∈ rs ->
    (forall o, o ∈ rs -> o <> r -> serves o method path -> more_specific (specificity r) (specificity o) = true) ->
    exists j c, select_route rs' 0 method path None = Some (j, specificity r, c) /\ rs' !! j = Some r /\
      http_route_match r path = Some c).
Proof.
  intros Hok Hok' Hm r Hs Hr Hbest.
  pose proof (selection rs' method path) as H. destruct (select_route rs' 0 method path None) as [[[j spec] c]|] eqn:E.
  - pose proof (selected_beats _ _ _ _ _ _ Hok' H) as Hb. destruct H as (r' & Hj & -> & Hme & Hc & _).
    destruct (decide (r = r')) as [<-|Hne]; [by exists j, c|]. exfalso.
    apply Hm in Hr as Hr'. apply list_elem_of_lookup in Hr' as [k Hk].
    assert (k <> j) by (intros ->; congruence). eapply (more_specific_irrefl (specificity r) (specificity r')).
    + apply Hbest; [|done|by split]. apply Hm. by eapply list_elem_of_lookup_2.
    + by eapply Hb.
  - exfalso. apply Hm in Hr as Hr'. apply list_elem_of_lookup in Hr' as [k Hk]. by eapply H.
Qed.

(** C5: The router serves a request with the most specific matching route, and that
    route is unique.  In every router that registrations build (rejected ones
    included), a request path either matches no route of its method, and nothing is
    selected, or the selected route matches with the returned captures and is strictly
    more specific than every other matching route.  So the order of registration has
    no influence: two built routers with the same routes serve every request with the
    same route and the same captures. *)
Theorem router_selects_most_specific r method url path :
  built r -> request_path_segments url = Ok path ->
  exists sel, http_router_route_match (routes r) method url = Ok sel /\
    match sel with
    | None => forall route, route ∈ routes r -> ~ serves route method path
    | Some (i, captures) => exists route, routes r !! i = Some route /\ serves route method path /\
        http_route_match route path = Some captures /\
        forall j other, routes r !! j = Some other -> j <> i -> serves other method path ->
          more_specific (specificity route) (specificity other) = true
    end /\
    forall r', built r' -> (forall route, route ∈ routes r' <-> route ∈ routes r) ->
      exists sel', http_router_route_match (routes r') method url = Ok sel' /\
        served (routes r') sel' = served (routes r) sel.
Proof.
  intros Hb Hp. apply built_ok in Hb. unfold http_router_route_match. rewrite Hp. cbn [result_bind].
  eexists. split; [done|]. pose proof (selection (routes r) method path) as Hsel.
  destruct (select_route (routes r) 0 method path None) as [[[i spec] c]|] eqn:E.
  - pose proof (selected_beats _ _ _ _ _ _ Hb Hsel) as Hbeat. destruct Hsel as (route & Hi & -> & Hm & Hc & _). split.
    { exists route. by split_and!. }
    intros r' Hb' Hmem. apply built_ok in Hb'. eexists. split; [done|].
    destruct (selection_members (routes r) (routes r') method path Hb Hb') with (r := route) as (j & c' & -> & Hj & Hc').
    + intros o. by rewrite Hmem.
    + by split.
    + by eapply list_elem_of_lookup_2.
    + intros o [k Hk]%list_elem_of_lookup Hne Hs. eapply Hbeat; [done| |done]. intros ->. congruence.
    + cbn [served]. rewrite Hi, Hj. cbn. congruence.
  - split.
    { intros route [j Hj]%list_elem_of_lookup. by eapply Hsel. }
    intros r' Hb' Hmem. eexists. split; [done|]. pose proof (selection (routes r') method path) as Hsel'.
    destruct (select_route (routes r') 0 method path None) as [[[i spec] c]|]; [|done].
    destruct Hsel' as (route & Hi & _ & Hm & Hc & _). exfalso.
    assert (route ∈ routes r) as [j Hj]%list_elem_of_lookup by (apply Hmem; by eapply list_elem_of_lookup_2).
    eapply (Hsel j route Hj). by split.
Qed.

(** Three routes, registered in two orders. *)
Definition sample_router (paths : list string) : HttpRouterData :=
  foldl (fun r p => (mux_net_http_router_route (txt "get") (txt p) (Some (nlen (txt p))) true (r, [])).2.1)
    mux_net_http_router_new paths.

Lemma sample_built paths : built (sample_router paths).
Proof.
  unfold sample_router. generalize built_new. generalize mux_net_http_router_new as r.
  induction paths as [|p paths IH]; intros r Hr; [done|]. cbn [foldl]. apply IH.
  destruct (mux_net_http_router_route _ _ _ _ _) as [res [r' ret]] eqn:E. by eapply built_route.
Qed.

Lemma router_selects_most_specific_witness :
  let r := sample_router ["/users/{id}"%string; "/{...rest}"%string; "/users/me"%string] in
  let r' := sample_router ["/users/me"%string; "/users/{id}"%string; "/{...rest}"%string] in
  http_router_route_match (routes r) (txt "GET") (txt "/users/m%65?x=1") = Ok (Some (2%nat, ∅)) /\
  exists sel', http_router_route_match (routes r') (txt "GET") (txt "/users/m%65?x=1") = Ok sel' /\
    served (routes r') sel' = served (routes r) (Some (2%nat, ∅)).
Proof.
  cbv zeta. split; [vm_compute; reflexivity|].
  destruct (router_selects_most_specific
    (sample_router ["/users/{id}"%string; "/{...rest}"%string; "/users/me"%string]) (txt "GET") (txt "/users/m%65?x=1")
    [txt "users"; txt "me"] (sample_built _)) as (sel & E & _ & H); [vm_compute; reflexivity|].
  assert (@Ok _ string sel = Ok (Some (2%nat, ∅))) as ->%Ok_inj by (rewrite <- E; vm_compute; reflexivity).
  apply H; [apply sample_built|]. intros route.
  vm_compute routes. rewrite !elem_of_cons. tauto.
Defined.

(** A pattern matches exactly its instances.  A pattern that compiles has distinct
    capture names and a catch-all only at its end; the path then matches with the given
    captures if and only if those capture exactly the names of the pattern and replacing
    them in the pattern gives the path, a catch-all standing for the remaining
    segments, joined by slashes, possibly none. *)
Lemma route_match_instances pattern segs spec method h path captures :
  compile_http_route pattern = Ok (segs, spec) ->
  http_route_match (mk_route method segs spec h) path = Some captures <->
  dom captures =@{gset (list Z)} list_to_set (capture_names segs) /\ instance segs captures path.
Proof. intros H%compile_http_route_ok. by apply (http_route_match_spec (mk_route method segs spec h)). Qed.

(** ** Percent-encoding *)

Definition unreserved (b : Z) : bool := is_ascii_alphanumeric b || existsb (Z.eqb b) [45; 46; 95; 126].

Definition hex_char (d : Z) : Z := if d <? 10 then 48 + d else 55 + d.

Definition encode_byte (b : Z) : list Z := if unreserved b then [b] else [37; hex_char (b / 16); hex_char (b mod 16)].

(** RFC 3986 encoding of a segment, and the URL of a path. *)
Definition encode_segment (s : text) : text := flat_map encode_byte (utf8 s).

Definition url_of (path : list text) (query : option text) : text :=
  slash :: join [slash] (encode_segment <$> path) ++ (match query with Some q => txt "?" ++ q | None => [] end).

Definition encodes_byte (b : Z) : bool :=
  match percent_decode (encode_byte b) with Ok [d] => d =? b | _ => false end &&
  forallb (fun c => in_range 0 127 c && negb (c =? slash) && negb (c =? 63)) (encode_byte b).

Lemma encodes_every_byte b : 0 <= b < 256 -> encodes_byte b = true.
Proof. apply (range_check encodes_byte 256). vm_compute. reflexivity. Qed.

Lemma percent_decode_byte b bs : 0 <= b < 256 ->
  percent_decode (encode_byte b ++ bs) = (let? d := percent_decode bs in Ok (b :: d)).
Proof.
  intros Hb. pose proof (encodes_every_byte b Hb) as H. unfold encodes_byte in H.
  apply andb_true_iff in H as [H _]. unfold encode_byte in *. destruct (unreserved b) eqn:E; cbn [app percent_decode] in *.
  - destruct (b =? 37) eqn:E37; [|done]. apply Z.eqb_eq in E37 as ->. by vm_compute in E.
  - cbn [Z.eqb Pos.eqb negb] in *. destruct (to_digit 16 _) as [h|]; [|done]. destruct (to_digit 16 _) as [l|]; [|done].
    cbn [result_bind] in H. apply Z.eqb_eq in H as ->. done.
Qed.

Lemma percent_decode_encoded bs : Forall (fun b => 0 <= b < 256) bs -> percent_decode (flat_map encode_byte bs) = Ok bs.
Proof. induction 1 as [|b bs Hb _ IH]; [done|]. cbn [flat_map]. rewrite percent_decode_byte by done. by rewrite IH. Qed.

Lemma encoded_chars s : Forall scalar s ->
  Forall (fun c => 0 <= c < 128) (encode_segment s) /\ (slash ∉ encode_segment s) /\ 63 ∉ encode_segment s.
Proof.
  intros Hs%utf8_byte. unfold encode_segment. induction Hs as [|b bs Hb _ IH]; cbn [flat_map].
  { split_and!; [constructor|apply not_elem_of_nil..]. }
  pose proof (encodes_every_byte b Hb) as H. apply andb_true_iff in H as [_ H]. rewrite forallb_forall in H.
  assert (forall c, c ∈ encode_byte b -> (0 <= c < 128) /\ c <> slash /\ c <> 63) as Hc.
  { intros c Hc%list_elem_of_In%H. apply andb_true_iff in Hc as [[H1 H2]%andb_true_iff H3].
    ranges. apply negb_true_iff, Z.eqb_neq in H2, H3. split; [lia|done]. }
  destruct IH as (IH1 & IH2 & IH3). split_and!.
  - apply Forall_app. split; [|done]. apply Forall_forall. intros c Hc'. by apply Hc.
  - rewrite elem_of_app. intros [H'|H']; [|done]. by destruct (Hc _ H') as (_ & ? & ?).
  - rewrite elem_of_app. intros [H'|H']; [|done]. by destruct (Hc _ H') as (_ & ? & ?).
Qed.

Lemma percent_decode_segment s : Forall scalar s -> percent_decode_route_segment (encode_segment s) = Ok s.
Proof.
  intros Hs. unfold percent_decode_route_segment. rewrite utf8_ascii by apply encoded_chars, Hs.
  unfold encode_segment. rewrite percent_decode_encoded by by apply utf8_byte. cbn [result_bind].
  by rewrite utf8_decode_utf8.
Qed.

Lemma map_result_ok {A B} (f : A -> result B string) (g : B -> A) (bs : list B) :
  Forall (fun b => f (g b) = Ok b) bs -> map_result f (g <$> bs) = Ok bs.
Proof. induction 1 as [|b bs Hb _ IH]; [done|]. rewrite fmap_cons. cbn [map_result]. by rewrite Hb, IH. Qed.

Lemma url_path path query : Forall (Forall scalar) path ->
  head (split_text (url_of path query) (txt "?")) = Some (slash :: join [slash] (encode_segment <$> path)).
Proof.
  intros H. unfold url_of. change (txt "?") with [63]. set (s := join _ _).
  assert (63 ∉ slash :: s) as Hs.
  { apply not_elem_of_cons. split; [done|]. subst s. induction H as [|p path Hp _ IH]; [apply not_elem_of_nil|].
    rewrite fmap_cons. destruct path as [|q path]; [by apply encoded_chars|].
    rewrite join_cons by done. rewrite !elem_of_app. intros [H'|[H'|H']]; [|by apply list_elem_of_singleton in H'|done].
    by apply encoded_chars in H'. }
  destruct query as [q|]; cbn [app].
  - change (slash :: s ++ 63 :: q) with ((slash :: s) ++ 63 :: q). by rewrite split_char_cons.
  - rewrite app_nil_r. by rewrite split_char_none.
Qed.

(** The router reads back the path a client encoded.  The URL made of any segments
    (any Unicode text, slashes and question marks included) percent-encoded as UTF-8
    and separated by slashes, with or without a query, parses to those segments; the
    one path that cannot be expressed is the single empty segment, whose URL is the
    root's. *)
Lemma request_path_roundtrip (path : list text) (query : option text) :
  Forall (Forall scalar) path -> path <> [[]] -> request_path_segments (url_of path query) = Ok path.
Proof.
  intros H Hne. unfold request_path_segments. rewrite url_path by done. cbn [default from_option id route_path_segments].
  destruct path as [|p path]; [done|].
  assert (join [slash] (encode_segment <$> (p :: path)) <> []) as Hj.
  { rewrite fmap_cons. destruct path as [|q path]; [|rewrite fmap_cons, join_cons by done; by destruct (encode_segment p)].
    cbn [fmap list_fmap join]. intros E. apply Forall_cons in H as [H _].
    apply percent_decode_segment in H. rewrite E in H. apply Ok_inj in H as <-. done. }
  destruct (join _ _) as [|c s] eqn:E; [done|]. cbn [result_bind]. rewrite <- E.
  rewrite split_char_join.
  - cbn [result_bind]. apply map_result_ok. eapply Forall_impl; [exact H|]. apply percent_decode_segment.
  - done.
  - apply Forall_fmap. eapply Forall_impl; [exact H|]. intros s' Hs'. by apply encoded_chars.
Qed.

(** ** Authentication *)

Lemma fold_lor_zero (f : nat -> Z) l d :
  foldl (fun d i => Z.lor d (f i)) d l = 0 <-> d = 0 /\ forall i, i ∈ l -> f i = 0.
Proof.
  revert d. induction l as [|i l IH]; intros d; cbn [foldl].
  - split; [|by intros []]. intros ->. split; [done|]. intros i H. by apply elem_of_nil in H.
  - rewrite IH, Z.lor_eq_0_iff. setoid_rewrite elem_of_cons. naive_solver.
Qed.

(** The comparison in constant time is equality. *)
Lemma constant_time_equal_spec (l r : list Z) : constant_time_equal l r = true <-> l = r.
Proof.
  unfold constant_time_equal. cbv zeta. rewrite Z.eqb_eq.
  rewrite (fold_lor_zero (fun i => Z.lxor (default 0 (l !! i)) (default 0 (r !! i)))), Z.lxor_eq_0_iff. split.
  - intros [Hl H]. unfold nlen in Hl. apply list_eq_same_length with (n := length l); [lia|done|].
    intros i x y Hi Hx Hy. specialize (H i ltac:(apply elem_of_seq; lia)).
    rewrite Hx, Hy in H. cbn in H. by apply Z.lxor_eq.
  - intros ->. split; [done|]. intros i _. apply Z.lxor_nilpotent.
Qed.

Section Authentication.
Context {R : Type}.
Context (base64_decode : list Z -> option (list Z)).
Context (oidc_valid : text -> text -> text -> text -> result bool string).
Context (call_handler : Z -> Request -> Answer R).
Context (call_middleware : Z -> Request -> (Request -> Answer R) -> Answer R).

Abbreviation dispatch := (http_router_dispatch base64_decode oidc_valid call_handler call_middleware).

(** The credentials an authentication stage asks for, and its challenge. *)
Definition credentials (request : Request) (m : HttpMiddlewareEntry) : Prop :=
  match m with
  | Basic username password => exists encoded, authorization request "Basic" = Some encoded /\
      base64_decode (utf8 encoded) = Some (utf8 (username ++ txt ":" ++ password))
  | Bearer token => exists candidate, authorization request "Bearer" = Some candidate /\ utf8 candidate = utf8 token
  | _ => False
  end.

Definition challenge (m : HttpMiddlewareEntry) : option string :=
  match m with Basic _ _ => Some "Basic"%string | Bearer _ => Some "Bearer"%string | _ => None end.

Lemma basic_matches request u p :
  basic_auth_matches base64_decode request u p = true <-> credentials request (Basic u p).
Proof.
  unfold basic_auth_matches, credentials. destruct (authorization request "Basic") as [e|]; [|naive_solver].
  destruct (base64_decode (utf8 e)) as [d|] eqn:E; [rewrite constant_time_equal_spec|]; naive_solver.
Qed.

Lemma bearer_matches request t : bearer_auth_matches request t = true <-> credentials request (Bearer t).
Proof.
  unfold bearer_auth_matches, credentials. destruct (authorization request "Bearer") as [e|]; [|naive_solver].
  rewrite constant_time_equal_spec. naive_solver.
Qed.

Lemma credentials_bind request sel m : credentials (bind_http_route_captures request sel) m <-> credentials request m.
Proof. by destruct request, m. Qed.

Lemma dispatch_stage (rs : list HttpRouteEntry) m rest (stage0 : bool) request sel scheme : challenge m = Some scheme ->
  http_router_route_match rs (upper (req_method request)) (req_url request) = Ok sel ->
  let request' := if stage0 then bind_http_route_captures request sel else request in
  (credentials request m /\ dispatch rs (m :: rest) stage0 request = dispatch rs rest false request') \/
  (~ credentials request m /\ dispatch rs (m :: rest) stage0 request = Unauthorized scheme).
Proof.
  intros Hc Hm. cbv zeta. cbn [http_router_dispatch]. rewrite Hm.
  set (request' := if stage0 then _ else _).
  assert (credentials request' m <-> credentials request m) as Hb
    by (subst request'; destruct stage0; [apply credentials_bind|done]).
  destruct m as [|u p|t|]; try done; injection Hc as <-; cbv zeta; fold request'.
  - pose proof (basic_matches request' u p) as Hx. destruct (basic_auth_matches _ _ _ _); [left|right]; naive_solver.
  - pose proof (bearer_matches request' t) as Hx. destruct (bearer_auth_matches _ _); [left|right]; naive_solver.
Qed.

Lemma dispatch_auths (rs : list HttpRouteEntry) auths rest request sel (stage0 : bool) : Forall (fun m => challenge m <> None) auths ->
  http_router_route_match rs (upper (req_method request)) (req_url request) = Ok sel ->
  (Forall (credentials request) auths /\ dispatch rs (auths ++ rest) stage0 request =
     match auths with
     | [] => dispatch rs rest stage0 request
     | _ => dispatch rs rest false (if stage0 then bind_http_route_captures request sel else request)
     end) \/
  (exists pre m post scheme, auths = pre ++ m :: post /\ Forall (credentials request) pre /\
     ~ credentials request m /\ challenge m = Some scheme /\
     dispatch rs (auths ++ rest) stage0 request = Unauthorized scheme).
Proof.
  intros Ha. revert request stage0. induction Ha as [|m auths Hm _ IH]; intros request stage0 Hr.
  { left. by split. }
  destruct (challenge m) as [scheme|] eqn:Ec; [|done]. cbn [app].
  destruct (dispatch_stage rs m (auths ++ rest) stage0 request sel scheme Ec Hr) as [[Hc E]|[Hc E]].
  2:{ right. exists [], m, auths, scheme. by split_and!. }
  set (request' := if stage0 then bind_http_route_captures request sel else request) in *.
  assert (forall m, credentials request' m <-> credentials request m) as Hb
    by (intros m'; subst request'; destruct stage0; [apply credentials_bind|done]).
  assert (http_router_route_match rs (upper (req_method request')) (req_url request') = Ok sel) as Hr'
    by (by subst request'; destruct stage0).
  rewrite E. destruct (IH request' false Hr') as [[Hall E']|(pre & m' & post & s & E1 & E2 & E3 & E4 & E5)].
  - left. split; [constructor; [done|]; eapply Forall_impl; [exact Hall|]; intros x; apply Hb|].
    rewrite E'. by destruct auths.
  - right. exists (m :: pre), m', post, s. rewrite E1. split_and!; try done.
    + constructor; [done|]. eapply Forall_impl; [exact E2|]. intros x. apply Hb.
    + by rewrite <- Hb.
    + by rewrite <- E1.
Qed.

(** Authentication stages are a gate.  With Basic and Bearer stages in front, a
    routable request either carries every stage's credentials, and dispatch goes on
    with the rest of the middleware and the route, on the request with its captures
    bound; or it is answered by the challenge of the first stage whose credentials it
    lacks, whatever the handlers and the callbacks would do.  Credentials match
    exactly: the same bearer token, or a Basic credential that decodes to the user
    name, a colon and the password. *)
Lemma router_authentication (rs : list HttpRouteEntry) auths rest request sel :
  Forall (fun m => challenge m <> None) auths -> auths <> [] ->
  http_router_route_match rs (upper (req_method request)) (req_url request) = Ok sel ->
  (Forall (credentials request) auths /\
   dispatch rs (auths ++ rest) true request = dispatch rs rest false (bind_http_route_captures request sel)) \/
  (exists pre m post scheme, auths = pre ++ m :: post /\ Forall (credentials request) pre /\
     ~ credentials request m /\ challenge m = Some scheme /\
     dispatch rs (auths ++ rest) true request = Unauthorized scheme).
Proof.
  intros Ha Hne Hr. destruct (dispatch_auths rs auths rest request sel true Ha Hr) as [[H E]|H]; [left|by right].
  split; [done|]. rewrite E. by destruct auths.
Qed.

End Authentication.

(** ** Names of routers held by continuations *)

(** A continuation that is copied once and dropped twice is gone, but the router keeps
    the name that the copy took: [copy_http_next] retains the router for each copy,
    [drop_http_next] releases it once, with the last name. *)
Lemma copied_next_keeps_router router next stage n t :
  routers t !! router = Some n -> 0 < n ->
  let t' := drop_http_next next (drop_http_next next (copy_http_next next (insert_http_next next router stage t))) in
  nexts t' !! next = None /\ routers t' !! router = Some (n + 1).
Proof.
  intros Hr Hn. cbv zeta.
  assert (insert_http_next next router stage t =
    mk_handles (<[router := n + 1]> (routers t)) (<[next := mk_next router stage 1]> (nexts t))) as ->
    by (unfold insert_http_next, retain_http_router_handle; by rewrite Hr).
  unfold copy_http_next, retain_http_router_handle. cbn [routers nexts].
  rewrite !lookup_insert_eq. cbn [next_router next_stage next_names routers nexts].
  rewrite !insert_insert_eq.
  unfold drop_http_next. cbn [routers nexts]. rewrite !lookup_insert_eq.
  cbn [next_router next_stage next_names]. change (Z.max 0 (1 + 1 - 1)) with 1. cbn [Z.eqb routers nexts].
  rewrite !lookup_insert_eq. cbn [next_router next_stage next_names]. change (Z.max 0 (1 - 1) =? 0) with true.
  unfold release_http_router_handle. cbn [routers nexts]. rewrite !lookup_insert_eq. cbv zeta.
  rewrite (proj2 (Z.eqb_neq _ 0)) by lia. cbn [routers nexts]. split; [apply lookup_delete_eq|].
  rewrite lookup_insert_eq. f_equal. lia.
Qed.

(** A registration refused as ambiguous has retained its handler; the routes, whose
    handlers a dropped router releases, do not have it. *)
Lemma refused_route_retains method path h r retained r' retained' e :
  mux_net_http_router_route method path (Some h) true (r, retained) = (Err e, (r', retained')) ->
  r' = r /\ (retained' = retained \/
    retained' = h :: retained /\ exists segs spec, compile_http_route path = Ok (segs, spec) /\
      existsb (ambiguous method segs spec) (routes r) = true).
Proof.
  unfold mux_net_http_router_route. cbn [negb]. intros H.
  repeat (case_match; simplify_eq; [by eauto|]).
  destruct (compile_http_route path) as [[segs spec]|]; [|by simplify_eq; eauto].
  destruct (existsb _ _) eqn:E; simplify_eq. eauto 10.
Qed.
