(* ===== verification/Path.v ===== *)
(** * Paths: those of the standard library on Unix, then path objects ([src/src/path.rs])

    A path is a sequence of octets.  [components] ignores repeated separators and the
    component "." except at the front of a relative path; equality and order of paths are
    those of their components.  [located] gives each component with the offset behind it,
    which is where [parent] and [set_extension] cut the text. *)

From S2P Require Import Prelude AssocList Value Str Utf8 DynValue ValueTable.

Definition path : Type := list Z.

Inductive Component : Type := RootDir | CurDir | ParentDir | Normal (s : list Z).

Definition sep : Z := 47.
Definition dot : Z := 46.

(** The pieces between separators, each with the offset of its end. *)
Fixpoint pieces (p acc : list Z) (pos : nat) : list (list Z * nat) :=
  match p with
  | [] => [(rev acc, pos)]
  | c :: r => if c =? sep then (rev acc, pos) :: pieces r [] (S pos) else pieces r (c :: acc) (S pos)
  end.

Definition piece_component (first : bool) (s : list Z) : option Component :=
  if decide (s = []) then None
  else if decide (s = [dot]) then (if first then Some CurDir else None)
  else if decide (s = [dot; dot]) then Some ParentDir
  else Some (Normal s).

Definition keep (first : bool) (x : list Z * nat) : option (Component * nat) := (fun c => (c, x.2)) <$> piece_component first x.1.

Definition has_root (p : path) : bool := match p with c :: _ => c =? sep | [] => false end.

Definition located (p : path) : list (Component * nat) :=
  (if has_root p then [(RootDir, 1%nat)] else []) ++
  match pieces p [] 0 with
  | [] => []
  | x :: rest => omap (keep true) [x] ++ omap (keep false) rest
  end.

Definition components (p : path) : list Component := (located p).*1.

Definition is_absolute (p : path) : bool := has_root p.

Definition parent (p : path) : option path :=
  match rev (located p) with
  | [] | (RootDir, _) :: _ => None
  | _ :: rest => Some (take (match rest with (_, e) :: _ => e | [] => 0 end) p)
  end.

Definition file_name (p : path) : option (list Z) :=
  match rev (located p) with (Normal s, _) :: _ => Some s | _ => None end.

(** [rsplit_file_at_dot]: the parts around the last dot. *)
Fixpoint last_dot (s : list Z) : option (list Z * list Z) :=
  match s with
  | [] => None
  | c :: r =>
      match last_dot r with
      | Some (before, after) => Some (c :: before, after)
      | None => if c =? dot then Some ([], r) else None
      end
  end.
Definition rsplit_file_at_dot (name : list Z) : option (list Z) * option (list Z) :=
  if decide (name = [dot; dot]) then (Some name, None)
  else
    match last_dot name with
    | None => (None, Some name)
    | Some ([], _) => (Some name, None)
    | Some (before, after) => (Some before, Some after)
    end.

Definition file_stem (p : path) : option (list Z) :=
  name ← file_name p; let '(before, after) := rsplit_file_at_dot name in option_union before after.
Definition extension (p : path) : option (list Z) :=
  name ← file_name p; let '(before, after) := rsplit_file_at_dot name in _ ← before; after.

Definition push (p child : path) : path :=
  if is_absolute child then child
  else match rev p with
       | [] => child
       | c :: _ => if c =? sep then p ++ child else p ++ sep :: child
       end.
Definition join : path -> path -> path := push.

Definition pop (p : path) : path := match parent p with Some q => q | None => p end.
Definition set_file_name (p name : path) : path := push (match file_name p with Some _ => pop p | None => p end) name.

(** [None]: an extension with a separator panics.  The text is cut behind the stem. *)
Definition set_extension (p ext : path) : option path :=
  if existsb (Z.eqb sep) ext then None
  else
    Some match file_stem p, rev (located p), file_name p with
         | Some stem, (_, e) :: _, Some name =>
             let cut := take (e - length name + length stem) p in
             match ext with [] => cut | _ => cut ++ dot :: ext end
         | _, _, _ => p
         end.

(** The derived order of components, and equality. *)
Definition component_rank (c : Component) : Z := match c with RootDir => 0 | CurDir => 1 | ParentDir => 2 | Normal _ => 3 end.
Definition component_cmp (a b : Component) : comparison :=
  match a, b with
  | Normal s, Normal t => lex_cmp Z.compare s t
  | _, _ => component_rank a ?= component_rank b
  end.
#[export] Instance component_eq_dec : EqDecision Component.
Proof. solve_decision. Defined.

(** ** Properties *)

Lemma pieces_sep a b acc pos : Forall (fun c => c <> sep) a ->
  pieces (a ++ sep :: b) acc pos = (rev acc ++ a, (pos + length a)%nat) :: pieces b [] (S (pos + length a)).
Proof.
  intros Ha. revert acc pos. induction Ha as [|c a Hc _ IH]; intros acc pos; cbn [app pieces length].
  - rewrite Z.eqb_refl, app_nil_r, Nat.add_0_r. done.
  - rewrite (proj2 (Z.eqb_neq c sep)) by done. rewrite IH. cbn [rev]. rewrite <- app_assoc. cbn [app]. by replace (S pos + length a)%nat with (pos + S (length a))%nat by lia.
Qed.

Lemma pieces_app a b acc pos : pieces (a ++ sep :: b) acc pos = pieces a acc pos ++ pieces b [] (S (pos + length a)).
Proof.
  revert acc pos. induction a as [|c a IH]; intros acc pos; cbn [app pieces length].
  - by rewrite Z.eqb_refl, Nat.add_0_r.
  - replace (pos + S (length a))%nat with (S pos + length a)%nat by lia. destruct (c =? sep); rewrite IH; done.
Qed.

Lemma pieces_plain s acc pos : Forall (fun c => c <> sep) s -> pieces s acc pos = [(rev acc ++ s, (pos + length s)%nat)].
Proof.
  intros Hs. revert acc pos. induction Hs as [|c s Hc _ IH]; intros acc pos; cbn [pieces length]; [by rewrite app_nil_r, Nat.add_0_r|].
  rewrite (proj2 (Z.eqb_neq c sep)) by done. rewrite IH. cbn [rev]. rewrite <- app_assoc. cbn [app]. do 2 f_equal. lia.
Qed.

(** A name that is one ordinary component. *)
Definition plain_name (s : list Z) : Prop := Forall (fun c => c <> sep) s /\ s <> [] /\ s <> [dot] /\ s <> [dot; dot].

Lemma plain_component b s : plain_name s -> piece_component b s = Some (Normal s).
Proof. intros (_ & H1 & H2 & H3). unfold piece_component. by rewrite !decide_False by done. Qed.

Lemma pieces_cons p acc pos : exists x rest, pieces p acc pos = x :: rest.
Proof. revert acc pos. induction p as [|c p IH]; intros acc pos; cbn [pieces]; [by eexists _, _|]. destruct (c =? sep); [by eexists _, _|apply IH]. Qed.

(** A plain name behind a separator is one more component. *)
Lemma components_app_sep p s : p <> [] -> plain_name s -> components (p ++ sep :: s) = components p ++ [Normal s].
Proof.
  intros Hp Hs. unfold components, located. rewrite pieces_app, (pieces_plain s) by apply Hs. cbn [rev app].
  replace (has_root (p ++ sep :: s)) with (has_root p) by (by destruct p).
  destruct (pieces_cons p [] 0) as (x & rest & ->). rewrite <- app_comm_cons, omap_app, !fmap_app, <- !app_assoc. do 3 f_equal.
  cbn [omap list_omap keep fst snd]. unfold keep. cbn [fst snd]. by rewrite plain_component.
Qed.

(** A trailing separator adds nothing. *)
Lemma components_trailing q s : q <> [] -> plain_name s -> components (q ++ [sep]) = components q /\ components ((q ++ [sep]) ++ s) = components (q ++ [sep]) ++ [Normal s].
Proof.
  intros Hq Hs. assert (E : components (q ++ [sep]) = components q).
  { unfold components, located. rewrite pieces_app. replace (has_root (q ++ [sep])) with (has_root q) by (by destruct q).
    destruct (pieces_cons q [] 0) as (x & rest & ->). rewrite <- app_comm_cons, omap_app. cbn [pieces omap list_omap keep rev fst snd]. by rewrite app_nil_r. }
  split; [done|]. rewrite E, <- app_assoc. by apply components_app_sep.
Qed.

Lemma components_push p s : plain_name s -> components (push p s) = components p ++ [Normal s].
Proof.
  intros Hs. pose proof Hs as (Hf & Hne & _). unfold push, is_absolute.
  assert (has_root s = false) as ->. { destruct s as [|c s]; [done|]. apply Forall_cons in Hf as [Hc _]. by apply Z.eqb_neq in Hc. }
  destruct (rev p) as [|c r] eqn:E.
  - apply (f_equal (@rev Z)) in E. rewrite rev_involutive in E. subst p. change (components []) with (@nil Component). cbn [app].
    unfold components, located. rewrite (pieces_plain s) by done. cbn [rev app omap list_omap].
    destruct s as [|c s]; [done|]. cbn [has_root]. apply Forall_cons in Hf as [Hc _]. rewrite (proj2 (Z.eqb_neq c sep)) by done.
    unfold keep. cbn [fst snd]. by rewrite plain_component.
  - apply (f_equal (@rev Z)) in E. rewrite rev_involutive in E. cbn [rev] in E. subst p. destruct (Z.eqb_spec c sep) as [->|Hc].
    + destruct (decide (rev r = [])) as [->|Hr]; [|by apply components_trailing].
      cbn [app]. unfold components, located. cbn [has_root pieces]. rewrite !Z.eqb_refl. cbn [pieces].
      rewrite (pieces_plain s) by done. cbn [rev app pieces omap list_omap]. unfold keep. cbn [fst snd]. rewrite (plain_component false s) by done. done.
    + apply components_app_sep; [|done]. by destruct (rev r).
Qed.

(** * File system paths ([src/src/path.rs])

    Paths are kept in the table of [ValueTable].  The paths themselves are those of the
    standard library above.  An error is the detail of the [FsError]; [None] is a
    panic.  The hasher of the standard library is a parameter. *)

Module Path.

Definition path_state : Type := values path.

(** What a pointer argument leads to; a path comes with the number its object stores. *)
Inductive path_arg : Type := NullArg | StringArg (s : text) | PathArg (id : Z) | OtherArg.

(** What an operation gives. *)
Inductive path_value : Type :=
| OfPath (id : Z)
| OfString (s : text)
| OfBool (b : bool)
| OfOptional (v : option path_value).

Definition answer : Type := result path_value string.

Definition copy_path (id : Z) (st : path_state) : Z * path_state := copy_value id st.
Definition drop_path (id : Z) (st : path_state) : path_state := drop_value id st.

Definition owned_object (p : path) (allocated : bool) (st : path_state) : answer * path_state :=
  match object p allocated st with
  | (Some id, st) => (Ok (OfPath id), st)
  | (None, st) => (Err "could not allocate Path", st)
  end.

Definition id (v : path_arg) (st : path_state) : result Z string :=
  match v with
  | PathArg id => match get_value id st with Some _ => Ok id | None => Err "Path value is closed or invalid" end
  | _ => Err "expected Path value"
  end.

Definition path_of (v : path_arg) (st : path_state) : result path string :=
  let? i := id v st in
  match get_value i st with Some p => Ok p | None => Err "Path value is closed or invalid" end.

Definition callback_path (v : path_arg) (st : path_state) : option path :=
  match path_of v st with Ok p => Some p | Err _ => None end.

(** [Option<PathBuf>]: paths compare by their components. *)
Definition path_equals (a b : path_arg) (st : path_state) : bool :=
  bool_decide ((components <$> callback_path a st) = (components <$> callback_path b st)).
Definition path_compare (a b : path_arg) (st : path_state) : Z :=
  match option_cmp (fun p q => lex_cmp component_cmp (components p) (components q)) (callback_path a st) (callback_path b st) with
  | Lt => -1 | Eq => 0 | Gt => 1
  end.
Definition path_hash (hasher : option (list Component) -> Z) (v : path_arg) (st : path_state) : Z :=
  hasher (components <$> callback_path v st).

Definition mux_fs_path_new (allocated : bool) (st : path_state) : option Z * path_state := object [] allocated st.

Definition mux_fs_path_from_string (v : path_arg) (allocated : bool) (st : path_state) : answer * path_state :=
  match v with
  | StringArg s => owned_object (utf8 s) allocated st
  | _ => (Err "path source must be a string", st)
  end.

Definition mux_fs_path_to_string (v : path_arg) (st : path_state) : answer :=
  let? p := path_of v st in
  match utf8_decode p with Some s => Ok (OfString s) | None => Err "Path is not valid UTF-8" end.

Definition mux_fs_path_display (v : path_arg) (st : path_state) : answer :=
  let? p := path_of v st in
  Ok (OfString (match utf8_decode (lossy (length p) p) with Some s => s | None => [] end)).

Definition mux_fs_path_is_absolute (v : path_arg) (st : path_state) : answer := let? p := path_of v st in Ok (OfBool (is_absolute p)).
Definition mux_fs_path_is_relative (v : path_arg) (st : path_state) : answer := let? p := path_of v st in Ok (OfBool (negb (is_absolute p))).

Definition mux_fs_path_parent (v : path_arg) (allocated : bool) (st : path_state) : answer * path_state :=
  match path_of v st with
  | Err e => (Err e, st)
  | Ok p =>
      match parent p with
      | Some q =>
          match owned_object q allocated st with
          | (Ok x, st) => (Ok (OfOptional (Some x)), st)
          | (Err e, st) => (Err e, st)
          end
      | None => (Ok (OfOptional None), st)
      end
  end.

(** A component that is not UTF-8 is left out. *)
Definition component (v : path_arg) (which : path -> option (list Z)) (st : path_state) : answer :=
  let? p := path_of v st in Ok (OfOptional (OfString <$> (which p ≫= utf8_decode))).
Definition mux_fs_path_file_name (v : path_arg) : path_state -> answer := component v file_name.
Definition mux_fs_path_extension (v : path_arg) : path_state -> answer := component v extension.
Definition mux_fs_path_stem (v : path_arg) : path_state -> answer := component v file_stem.

Definition mux_fs_path_join (v child : path_arg) (allocated : bool) (st : path_state) : answer * path_state :=
  match child with
  | StringArg c => match path_of v st with Ok p => owned_object (join p (utf8 c)) allocated st | Err e => (Err e, st) end
  | _ => (Err "path child must be a string", st)
  end.

Definition mux_fs_path_with_file_name (v name : path_arg) (allocated : bool) (st : path_state) : answer * path_state :=
  match name with
  | StringArg (_ :: _ as n) => match path_of v st with Ok p => owned_object (set_file_name p (utf8 n)) allocated st | Err e => (Err e, st) end
  | _ => (Err "file name must be a non-empty string", st)
  end.

Definition mux_fs_path_with_extension (v ext : path_arg) (allocated : bool) (st : path_state) : option (answer * path_state) :=
  match ext with
  | StringArg e =>
      match path_of v st with
      | Ok p => match set_extension p (utf8 e) with Some p => Some (owned_object p allocated st) | None => None end
      | Err m => Some (Err m, st)
      end
  | _ => Some (Err "path extension must be a string", st)
  end.

End Path.
Import Path.

(** An extension with a separator is a panic of the standard library. *)
Example extension_separator_panics : mux_fs_path_with_extension (PathArg 1) (StringArg (txt "a/b")) true
  (object (txt "x.txt") true no_values).2 = None.
Proof. reflexivity. Qed.

Example path_operations :
  (parent (txt "/a//b/./c"), file_stem (txt "a/b.tar.gz"), extension (txt "a/b.tar.gz"), set_extension (txt "a/b.tar.gz") (txt "xz"), set_file_name (txt "a/b") (txt "c"))
  = (Some (txt "/a//b"), Some (txt "b.tar"), Some (txt "gz"), Some (txt "a/b.tar.xz"), txt "a/c").
Proof. reflexivity. Qed.

(** A plain name that is joined is the file name. *)
Lemma join_components (p : path) (c : text) : plain_name (utf8 c) -> components (join p (utf8 c)) = components p ++ [Normal (utf8 c)].
Proof. apply components_push. Qed.
