(* ===== verification/HttpServe.v ===== *)
(** * Answers of the HTTP server ([src/src/net.rs])

    What the server puts around a handler: CORS fields and preflight requests, static
    files for requests the handler does not know, error responses and the request
    identifier.  Files are the class [StaticFiles] (the capability directory of cap-std);
    the entity tag, which is SHA-256 and base64, and the handler are parameters. *)

From S2P Require Import Prelude AssocList Value Str Utf8 Http HttpProps Router Path.

(** A directory handle opens paths below it only. *)
Class StaticFiles : Type := {
  static_file : Type;
  open_ambient_dir : text -> option string;
  open_below : text -> path -> option static_file;
  metadata : static_file -> result (bool * Z) string;
  read_up_to : static_file -> Z -> result (list Z) string;
  etag_of : list Z -> text;
}.

Definition HttpResponseParts : Type := Z * list header * list Z.

(** ** CORS *)

Definition cors_origin_allowed (limits : HttpServerLimits) (origin : text) : bool :=
  existsb (fun allowed => list_eqb Z.eqb allowed origin || (list_eqb Z.eqb allowed (txt "*") && negb (cors_allow_credentials limits))) (cors_origins limits).

Definition wildcard (limits : HttpServerLimits) : bool :=
  existsb (fun allowed => list_eqb Z.eqb allowed (txt "*")) (cors_origins limits) && negb (cors_allow_credentials limits).

Definition credentials_field (limits : HttpServerLimits) : list header :=
  if cors_allow_credentials limits then [(txt "access-control-allow-credentials", txt "true")] else [].

Definition cors_response_headers (headers : list header) (request : Request) (limits : HttpServerLimits) : list header :=
  match http_request_header request "origin" with
  | None => headers
  | Some origin =>
      if negb (cors_origin_allowed limits origin) then headers
      else
        let value := if wildcard limits then txt "*" else origin in
        headers ++ [(txt "access-control-allow-origin", value); (txt "vary", txt "Origin")] ++ credentials_field limits
  end.

Definition preflight_response (request : Request) (limits : HttpServerLimits) : option HttpResponseParts :=
  method ← http_request_header request "access-control-request-method";
  origin ← http_request_header request "origin";
  if negb (cors_origin_allowed limits origin) || negb (is_http_token method) then Some (403, [], txt "CORS origin denied")
  else
    let headers := [(txt "access-control-allow-origin", if wildcard limits then txt "*" else origin);
                    (txt "access-control-allow-methods", method); (txt "vary", txt "Origin")] in
    match http_request_header request "access-control-request-headers" with
    | Some hs =>
        if has_line_break hs then Some (403, [], txt "CORS headers denied")
        else Some (204, headers ++ [(txt "access-control-allow-headers", hs)] ++ credentials_field limits, [])
    | None => Some (204, headers ++ credentials_field limits, [])
    end.

(** ** Static files *)

Definition static_content_type (p : path) : string :=
  match extension p with
  | None => "application/octet-stream"
  | Some e =>
      if decide (e = txt "css") then "text/css; charset=utf-8"
      else if decide (e = txt "csv") then "text/csv; charset=utf-8"
      else if decide (e = txt "gif") then "image/gif"
      else if decide (e = txt "html" \/ e = txt "htm") then "text/html; charset=utf-8"
      else if decide (e = txt "jpeg" \/ e = txt "jpg") then "image/jpeg"
      else if decide (e = txt "js") then "text/javascript; charset=utf-8"
      else if decide (e = txt "json") then "application/json"
      else if decide (e = txt "png") then "image/png"
      else if decide (e = txt "svg") then "image/svg+xml"
      else if decide (e = txt "txt") then "text/plain; charset=utf-8"
      else if decide (e = txt "wasm") then "application/wasm"
      else "application/octet-stream"
  end.

Definition static_segments_are_safe (segments : list text) : bool :=
  forallb (fun s =>
    negb (bool_decide (s = [])) && negb (bool_decide (s = txt ".")) && negb (bool_decide (s = txt "..")) &&
    negb (existsb (fun c => (c =? 47) || (c =? 92) || (c =? 58) || (c =? 0)) s)) segments.

(** The fold over the segments. *)
Definition relative_path (segments : list text) : path := foldl (fun p s => push p (utf8 s)) [] segments.

(** [if_none_match_matches]. *)
Definition if_none_match_matches (field etag : text) : bool :=
  existsb (fun piece =>
    let candidate := trim piece in
    list_eqb Z.eqb candidate (txt "*") ||
    list_eqb Z.eqb (trim (if is_prefix (txt "W/") candidate then drop 2 candidate else candidate)) etag) (split_text field [44]).

Section Serving.
Context `{StaticFiles}.

Definition open_static_file (root : text) (segments : list text) : result (option (static_file * path)) string :=
  if bool_decide (segments = []) || negb (static_segments_are_safe segments) then Ok None
  else
    let relative := relative_path segments in
    match open_ambient_dir root with
    | Some error => Err ("HTTP static_root is not accessible: " +:+ error)
    | None => Ok ((fun f => (f, relative)) <$> open_below root relative)
    end.

Definition not_found : HttpResponseParts := (404, [], txt "not found").

(** The closure of [static_file_response]. *)
Definition static_response_for (request : Request) (limits : HttpServerLimits) : result HttpResponseParts string :=
  let? segments := match request_path_segments (req_url request) with Ok s => Ok s | Err _ => Err "not found" end in
  let? opened := open_static_file (static_root limits) segments in
  match opened with
  | None => Ok not_found
  | Some (file, relative) =>
      let? (is_file, length) := match metadata file with Ok m => Ok m | Err e => Err ("HTTP static file metadata failed: " +:+ e) end in
      if negb is_file then Ok not_found
      else if max_body_bytes limits <? length then Ok (413, [], txt "static file too large")
      else
        let? body := match read_up_to file (max_body_bytes limits + 1) with Ok b => Ok b | Err e => Err ("HTTP static file read failed: " +:+ e) end in
        if max_body_bytes limits <? nlen body then Ok (413, [], txt "static file too large")
        else
          let etag := etag_of body in
          if match http_request_header request "if-none-match" with Some v => if_none_match_matches v etag | None => false end
          then Ok (304, [(txt "etag", etag)], [])
          else Ok (200, [(txt "content-type", txt (static_content_type relative)); (txt "etag", etag)], body)
  end.

(** [None]: no static files, or not a request for one. *)
Definition static_file_response (request : Request) (limits : HttpServerLimits) : option (result HttpResponseParts string) :=
  if bool_decide (static_root limits = []) then None
  else if negb (eq_ignore_ascii_case (req_method request) (txt "GET")) && negb (eq_ignore_ascii_case (req_method request) (txt "HEAD")) then None
  else Some (static_response_for request limits).

(** ** Responses *)

(** What the compiled handler returns: a response with its status, fields and what reading its body
    gives; an error with its status and text; or something else. *)
Inductive handler_answer : Type :=
| Responded (status : Z) (headers : list header) (body : result (list Z) string)
| Failed (status : option Z) (message : text)
| InvalidAnswer.

(** [handler] answers [Err] for a null handler or a null result.  [inserted] tells whether the request object
    could be made. *)
Definition build_http_server_response (request : Request) (request_id : text) (limits : HttpServerLimits)
    (handler : Request -> result handler_answer string) (inserted : bool) : result HttpResponseParts string :=
  if negb inserted then Err "failed to allocate HTTP request"
  else if eq_ignore_ascii_case (req_method request) (txt "OPTIONS") && bool_decide (is_Some (http_request_header request "access-control-request-method")) then
    match preflight_response request limits with
    | None => Err "invalid CORS preflight request"
    | Some (status, headers, body) => Ok (status, response_headers_with_request_id headers request_id, body)
    end
  else
    let? answer := handler request in
    match answer with
    | Responded status headers body =>
        let? body := body in
        let? found :=
          if status =? 404 then
            match static_file_response request limits with
            | None => Ok None
            | Some (Ok r) => Ok (Some r)
            | Some (Err e) => Err e
            end
          else Ok None in
        let '(status, headers, body) := match found with Some r => r | None => (status, headers, body) end in
        Ok (status, response_headers_with_request_id (cors_response_headers headers request limits) request_id, body)
    | Failed status message =>
        let status := match status with Some s => if in_range 100 999 s then s else 500 | None => 500 end in
        Ok (status, response_headers_with_request_id
                      (cors_response_headers [(txt "content-type", txt "text/plain; charset=utf-8")] request limits) request_id, utf8 message)
    | InvalidAnswer => Err "HTTP handler returned an invalid result"
    end.

End Serving.

(** ** Static files stay below their root *)

(** A character is its own octet, or takes octets above the ASCII range. *)
Lemma utf8_char_shape_sep c : scalar c -> utf8_char c = [c] \/ Forall (fun b => 128 <= b) (utf8_char c).
Proof.
  intros Hc. assert (0 <= c) by (unfold scalar, is_scalar in Hc; apply orb_true_iff in Hc as [Hc|Hc]; ranges; lia).
  pose proof (Z.mod_pos_bound c 64). pose proof (Z.mod_pos_bound (c / 64) 64). pose proof (Z.mod_pos_bound (c / 4096) 64).
  pose proof (Z.div_pos c 64). pose proof (Z.div_pos c 4096). pose proof (Z.div_pos c 262144).
  unfold utf8_char. repeat case_match; [by left|right; repeat constructor; lia..].
Qed.

Lemma utf8_no_sep s : Forall scalar s -> 47 ∉ s -> Forall (fun c => c <> sep) (utf8 s).
Proof.
  intros Hs Hn. apply Forall_forall. intros b Hb ->. apply Hn. clear Hn. induction Hs as [|c s Hc _ IH]; [by apply elem_of_nil in Hb|].
  cbn [utf8 flat_map] in Hb. apply elem_of_cons. apply elem_of_app in Hb as [Hb|Hb]; [left|right; by apply IH].
  destruct (utf8_char_shape_sep c Hc) as [E|Hhigh]; [rewrite E in Hb; by apply list_elem_of_singleton in Hb|].
  rewrite Forall_forall in Hhigh. apply Hhigh in Hb. done.
Qed.

Lemma utf8_inj_ascii s t : Forall scalar s -> Forall scalar t -> utf8 s = utf8 t -> s = t.
Proof. intros Hs Ht E. pose proof (utf8_decode_utf8 s Hs) as E1. rewrite E, utf8_decode_utf8 in E1 by done. by injection E1. Qed.

Lemma safe_segment_plain s : Forall scalar s -> static_segments_are_safe [s] = true -> plain_name (utf8 s).
Proof.
  intros Hs. unfold static_segments_are_safe. cbn [forallb]. rewrite andb_true_r, !andb_true_iff, !negb_true_iff, !bool_decide_eq_false.
  intros [[[H1 H2] H3] H4]. assert (Hn : 47 ∉ s).
  { intros Hin. assert (existsb (fun c => (c =? 47) || (c =? 92) || (c =? 58) || (c =? 0)) s = true); [|congruence].
    apply existsb_exists. exists 47. split; [by apply list_elem_of_In|done]. }
  split_and!; [by apply utf8_no_sep| | |]; intros E.
  - apply H1. by apply utf8_inj_ascii.
  - apply H2, utf8_inj_ascii; [done|by repeat constructor|]. by rewrite E.
  - apply H3, utf8_inj_ascii; [done|by repeat constructor|]. by rewrite E.
Qed.

Lemma relative_components segments : Forall (Forall scalar) segments -> static_segments_are_safe segments = true ->
  components (relative_path segments) = Normal <$> (utf8 <$> segments).
Proof.
  unfold relative_path. intros Hs Hsafe. change (components (foldl (fun p s => push p (utf8 s)) [] segments) = components [] ++ (Normal <$> (utf8 <$> segments))).
  revert Hsafe. generalize (@nil Z). induction Hs as [|s r Hs _ IH]; intros p Hsafe; cbn [foldl fmap list_fmap]; [by rewrite app_nil_r|].
  change (static_segments_are_safe ([s] ++ r) = true) in Hsafe. unfold static_segments_are_safe in Hsafe. rewrite forallb_app, andb_true_iff in Hsafe.
  destruct Hsafe as [H1 H2]. rewrite IH by done. rewrite components_push by (by apply safe_segment_plain). by rewrite <- app_assoc.
Qed.

Lemma request_segments_scalar url segments : request_path_segments url = Ok segments -> Forall (Forall scalar) segments.
Proof.
  unfold request_path_segments. destruct (route_path_segments _) as [raws|]; [|done]. cbn [result_bind]. revert segments.
  induction raws as [|r raws IH]; intros segments; cbn [map_result]; [by intros [= <-]|].
  unfold percent_decode_route_segment at 1. destruct (percent_decode (utf8 r)) as [d|]; [|done]. cbn [result_bind].
  destruct (utf8_decode d) as [t|] eqn:E; [|done]. cbn [result_bind]. destruct (map_result _ raws) as [ts|]; [|done]. intros [= <-].
  constructor; [by apply utf8_decode_spec in E as [? _]|by apply IH].
Qed.

Lemma open_static_file_ok `{StaticFiles} root segments file p : open_static_file root segments = Ok (Some (file, p)) ->
  segments <> [] /\ static_segments_are_safe segments = true /\ p = relative_path segments /\ open_below root p = Some file.
Proof.
  unfold open_static_file. case_bool_decide as Hn; [done|]. cbn [orb]. destruct (static_segments_are_safe segments) eqn:Es; [|done]. cbn [negb].
  destruct (open_ambient_dir root); [done|]. destruct (open_below root (relative_path segments)) as [f|] eqn:Ef; [|done]. cbn. by intros [= <- <-].
Qed.

(** C28: Static files stay below their root.  Whatever the URL of a request, when the server answers it with a file, the
    path it opened has exactly the decoded segments of the URL as its components: every one an ordinary name, none of them
    empty, "." or "..", none with a separator, so that percent-encoding cannot smuggle one in.  The body is what was read
    from that file and is within the body limit. *)
Theorem static_files_confined `{StaticFiles} (request : Request) (limits : HttpServerLimits) (headers : list header) (body : list Z) :
  static_file_response request limits = Some (Ok (200, headers, body)) ->
  exists segments file, request_path_segments (req_url request) = Ok segments /\ segments <> [] /\
    open_below (static_root limits) (relative_path segments) = Some file /\
    components (relative_path segments) = Normal <$> (utf8 <$> segments) /\
    Forall (fun s => plain_name (utf8 s)) segments /\
    read_up_to file (max_body_bytes limits + 1) = Ok body /\ nlen body <= max_body_bytes limits.
Proof.
  unfold static_file_response. case_bool_decide; [done|]. case_match; [done|]. intros [= E]. revert E. unfold static_response_for.
  destruct (request_path_segments (req_url request)) as [segments|] eqn:Es; [|done]. cbn [result_bind].
  destruct (open_static_file (static_root limits) segments) as [[[file p]|]|] eqn:Eo; cbn [result_bind]; [|done..].
  destruct (metadata file) as [[is_file len]|]; cbn [result_bind]; [|done]. destruct is_file; cbn [negb]; [|done].
  case_match; [done|]. destruct (read_up_to file (max_body_bytes limits + 1)) as [b|] eqn:Er; cbn [result_bind]; [|done].
  destruct (Z.ltb_spec (max_body_bytes limits) (nlen b)) as [Hlt|Hle]; [done|]. case_match; [done|]. intros [= <- <-].
  apply open_static_file_ok in Eo as (Hne & Hsafe & -> & Ef). pose proof (request_segments_scalar _ _ Es) as Hsc.
  exists segments, file. split_and!; try done; [by apply relative_components|].
  apply Forall_forall. intros s Hin. apply safe_segment_plain; [by rewrite Forall_forall in Hsc; apply Hsc|].
  unfold static_segments_are_safe in *. rewrite forallb_forall in Hsafe. cbn [forallb]. rewrite andb_true_r. by apply Hsafe, list_elem_of_In.
Qed.

(** A root with one file. *)
Definition demo_files : StaticFiles := {|
  static_file := unit;
  open_ambient_dir _ := None;
  open_below _ p := if decide (p = txt "a/b.css") then Some tt else None;
  metadata _ := Ok (true, 2);
  read_up_to _ n := Ok (take (Z.to_nat n) [120; 121]);
  etag_of _ := txt "t";
|}.
Definition demo_limits : HttpServerLimits := mk_config 1024 1024 16 0 false [txt "https://x"] true (txt "/srv") 1 0.
Definition demo_request (url : string) : Request := mk_req (txt "GET") (txt url) [(txt "origin", txt "https://x")] ∅.

Lemma static_files_confined_witness :
  static_file_response (H := demo_files) (demo_request "/a/%62.css?q") demo_limits =
    Some (Ok (200, [(txt "content-type", txt "text/css; charset=utf-8"); (txt "etag", txt "t")], [120; 121])) /\
  static_file_response (H := demo_files) (demo_request "/a/%2e%2e/b.css") demo_limits = Some (Ok not_found) /\
  exists segments, components (relative_path segments) = [Normal (txt "a"); Normal (txt "b.css")].
Proof.
  split; [vm_compute; reflexivity|]. split; [vm_compute; reflexivity|].
  destruct (static_files_confined (H := demo_files) (demo_request "/a/%62.css?q") demo_limits
    [(txt "content-type", txt "text/css; charset=utf-8"); (txt "etag", txt "t")] [120; 121]) as (segments & f & Es & _ & _ & Ec & _).
  - vm_compute. reflexivity.
  - exists segments. rewrite Ec. vm_compute in Es. injection Es as <-. vm_compute. reflexivity.
Defined.

(** A URL that cannot be decoded makes the whole answer an error, though the handler had answered 404. *)
Example malformed_url_no_response :
  build_http_server_response (H := demo_files) (demo_request "/%zz") [] demo_limits (fun _ => Ok (Responded 404 [] (Ok []))) true = Err "not found"%string.
Proof. vm_compute. reflexivity. Qed.

(** ** CORS *)

Lemma text_eqb_eq (a b : text) : list_eqb Z.eqb a b = true <-> a = b.
Proof.
  revert b. induction a as [|x a IH]; intros [|y b]; cbn; try done. rewrite andb_true_iff, Z.eqb_eq, IH. naive_solver.
Qed.

(** The policy: a listed origin may read the answers, and any origin if "*" is listed and
    credentials are not allowed. *)
Definition permitted (limits : HttpServerLimits) (origin : text) : Prop :=
  origin ∈ cors_origins limits \/ txt "*" ∈ cors_origins limits /\ cors_allow_credentials limits = false.

Lemma text_in (t : text) l : existsb (fun a => list_eqb Z.eqb a t) l = true <-> t ∈ l.
Proof.
  rewrite existsb_exists. split.
  - intros (a & Hin & ->%text_eqb_eq). by apply list_elem_of_In.
  - intros Hin. exists t. split; [by apply list_elem_of_In|by apply text_eqb_eq].
Qed.

Lemma cors_origin_allowed_iff limits origin : cors_origin_allowed limits origin = true <-> permitted limits origin.
Proof.
  unfold cors_origin_allowed, permitted. rewrite <- !text_in. rewrite !existsb_exists. split.
  - intros (a & Hin & E). apply orb_true_iff in E as [E|[E Ec]%andb_true_iff]; [left; eauto|]. right. apply negb_true_iff in Ec. eauto.
  - intros [(a & Hin & E)|[(a & Hin & E) Ec]]; exists a; (split; [done|]); rewrite E; [done|]. by rewrite Ec, orb_true_r.
Qed.

Lemma wildcard_iff limits : wildcard limits = true <-> txt "*" ∈ cors_origins limits /\ cors_allow_credentials limits = false.
Proof. unfold wildcard. by rewrite andb_true_iff, negb_true_iff, text_in. Qed.

(** The fields a permitted origin gets: "*" only under the wildcard, and the origin itself
    otherwise. *)
Definition policy_fields (limits : HttpServerLimits) (origin : text) (methods asked : list header) : list header :=
  [(txt "access-control-allow-origin",
    if decide (txt "*" ∈ cors_origins limits /\ cors_allow_credentials limits = false) then txt "*" else origin)] ++
  methods ++ [(txt "vary", txt "Origin")] ++ asked ++
  if cors_allow_credentials limits then [(txt "access-control-allow-credentials", txt "true")] else [].

Lemma wildcard_value {A} limits (a b : A) :
  (if wildcard limits then a else b) = if decide (txt "*" ∈ cors_origins limits /\ cors_allow_credentials limits = false) then a else b.
Proof.
  destruct (wildcard limits) eqn:E; case_decide as H; try done.
  - by apply wildcard_iff in E.
  - apply wildcard_iff in H. congruence.
Qed.

(** The client: the CORS check of the Fetch standard for a request of [origin], with its
    credentials included or not. *)
Definition field_values (name : string) (fields : list header) : list text := snd <$> List.filter (name_is name) fields.
Definition cors_check (fields : list header) (origin : text) (include : bool) : bool :=
  match field_values "access-control-allow-origin" fields with
  | [value] =>
      if negb include && bool_decide (value = txt "*") then true
      else bool_decide (value = origin) &&
           (negb include || bool_decide (field_values "access-control-allow-credentials" fields = [txt "true"]))
  | _ => false
  end.

(** Who reads the answer: with credentials only a listed origin, and only when they are
    configured; without them whoever is permitted. *)
Definition readable (limits : HttpServerLimits) (origin : text) (include : bool) : Prop :=
  if include then origin ∈ cors_origins limits /\ cors_allow_credentials limits = true else permitted limits origin.

Lemma field_values_app name a b : field_values name (a ++ b) = field_values name a ++ field_values name b.
Proof. unfold field_values. by rewrite List.filter_app, fmap_app. Qed.

(** The fields of the policy open exactly what it grants. *)
Lemma policy_checks limits origin before methods asked include : permitted limits origin ->
  (forall name, name ∈ ["access-control-allow-origin"; "access-control-allow-credentials"]%string ->
     field_values name before = [] /\ field_values name methods = [] /\ field_values name asked = []) ->
  cors_check (before ++ policy_fields limits origin methods asked) origin include = true <-> readable limits origin include.
Proof.
  intros Hp Hb. unfold cors_check. destruct (Hb "access-control-allow-origin") as (B1 & B2 & B3); [left|].
  destruct (Hb "access-control-allow-credentials") as (C1 & C2 & C3); [right; left|].
  unfold policy_fields. rewrite !field_values_app, B1, B2, B3, C1, C2, C3. cbn [app].
  assert (field_values "access-control-allow-origin" (if cors_allow_credentials limits then [(txt "access-control-allow-credentials", txt "true")] else []) = []) as ->
    by (destruct (cors_allow_credentials limits); vm_compute; reflexivity).
  set (v := if decide _ then _ else _).
  change (field_values "access-control-allow-origin" [(txt "access-control-allow-origin", v)]) with [v].
  change (field_values "access-control-allow-origin" [(txt "vary", txt "Origin")]) with (@nil text).
  change (field_values "access-control-allow-credentials" [(txt "access-control-allow-origin", v)]) with (@nil text).
  change (field_values "access-control-allow-credentials" [(txt "vary", txt "Origin")]) with (@nil text). cbn [app].
  unfold readable, permitted in *. subst v. destruct (cors_allow_credentials limits) eqn:Ec.
  - change (field_values "access-control-allow-credentials" [(txt "access-control-allow-credentials", txt "true")]) with [txt "true"].
    rewrite decide_False by (by intros []). rewrite (bool_decide_true (origin = origin)), (bool_decide_true ([txt "true"] = [txt "true"])) by done.
    rewrite orb_true_r. cbn [andb].
    assert (origin ∈ cors_origins limits) as Hin by (destruct Hp as [|[_ ?]]; done).
    destruct (negb include && _), include; (split; [intros _; first [by left|done]|done]).
  - change (field_values "access-control-allow-credentials" []) with (@nil text). rewrite (bool_decide_false ([] = [txt "true"])) by done.
    destruct include; cbn [negb andb orb]; [rewrite andb_false_r; split; [done|by intros []]|]. rewrite andb_true_r.
    case_decide as Hw; [by rewrite bool_decide_true|]. rewrite (bool_decide_true (origin = origin)) by done. by destruct (bool_decide _).
Qed.

(** What a preflight request may ask for. *)
Definition acceptable (limits : HttpServerLimits) (origin method : text) (asked : option text) : Prop :=
  permitted limits origin /\ is_http_token method = true /\
  forall hs, asked = Some hs -> forall b, b ∈ utf8 hs -> b <> 13 /\ b <> 10.

Lemma no_line_break hs : has_line_break hs = false <-> forall b, b ∈ utf8 hs -> b <> 13 /\ b <> 10.
Proof.
  unfold has_line_break. rewrite <- not_true_iff_false, existsb_exists. split.
  - intros Hn b Hb%list_elem_of_In. split; intros ->; apply Hn; eexists; (split; [done|]); done.
  - intros Hb (b & Hin & E). apply list_elem_of_In, Hb in Hin. apply orb_true_iff in E. lia.
Qed.

Definition asked_field (asked : option text) : list header :=
  match asked with Some hs => [(txt "access-control-allow-headers", hs)] | None => [] end.

Lemma preflight_ends request limits origin method :
  http_request_header request "origin" = Some origin -> http_request_header request "access-control-request-method" = Some method ->
  let asked := http_request_header request "access-control-request-headers" in
  (acceptable limits origin method asked -> preflight_response request limits =
     Some (204, policy_fields limits origin [(txt "access-control-allow-methods", method)] (asked_field asked), [])) /\
  (~ acceptable limits origin method asked -> exists body, preflight_response request limits = Some (403, [], body)).
Proof.
  intros Ho Hm asked. unfold preflight_response. rewrite Ho, Hm. fold asked. cbn [mbind option_bind]. unfold acceptable.
  destruct (cors_origin_allowed limits origin) eqn:E1; cbn [negb orb].
  2: { split; [|eauto]. intros (Hp%cors_origin_allowed_iff & _). congruence. }
  apply cors_origin_allowed_iff in E1. destruct (is_http_token method); cbn [negb]; [|split; [by intros (_ & ? & _)|eauto]].
  rewrite wildcard_value. destruct asked as [hs|].
  - destruct (has_line_break hs) eqn:E3.
    + split; [|eauto]. intros (_ & _ & Hn). specialize (Hn hs eq_refl). apply no_line_break in Hn. congruence.
    + split; [done|]. intros []. split_and!; [done..|]. intros ? [= <-]. by apply no_line_break.
  - split; [done|]. intros []. by split_and!.
Qed.

(** C29: The server grants cross-origin access exactly as configured.  The configuration permits
    the origins it lists, and any origin when it lists "*" and does not allow credentials.
    A request without an origin gets no CORS field and is no preflight.  For a request of an
    origin, and a response that has no CORS fields of its own: a browser that applies the
    CORS check of the Fetch standard lets the origin read the answer if and only if it is
    permitted, and, for a request with credentials, if and only if it is listed itself and
    credentials are allowed; the fields added are those of the policy, or none.  A preflight
    request is answered with status 204 and exactly the fields of the policy, the method
    and the header names it asked for, when the origin is permitted, the method is a token
    and the names have no line break, and with 403 and no field otherwise. *)
Theorem cors_policy_sound (request : Request) (limits : HttpServerLimits) (headers : list header) :
  match http_request_header request "origin" with
  | None => cors_response_headers headers request limits = headers /\ preflight_response request limits = None
  | Some origin =>
      (permitted limits origin -> cors_response_headers headers request limits = headers ++ policy_fields limits origin [] []) /\
      (~ permitted limits origin -> cors_response_headers headers request limits = headers) /\
      (field_values "access-control-allow-origin" headers = [] -> field_values "access-control-allow-credentials" headers = [] ->
         forall include, cors_check (cors_response_headers headers request limits) origin include = true <-> readable limits origin include) /\
      match http_request_header request "access-control-request-method" with
      | None => preflight_response request limits = None
      | Some method =>
          let asked := http_request_header request "access-control-request-headers" in
          let granted := policy_fields limits origin [(txt "access-control-allow-methods", method)] (asked_field asked) in
          (acceptable limits origin method asked -> preflight_response request limits = Some (204, granted, []) /\
             forall include, cors_check granted origin include = true <-> readable limits origin include) /\
          (~ acceptable limits origin method asked -> exists body, preflight_response request limits = Some (403, [], body))
      end
  end.
Proof.
  destruct (http_request_header request "origin") as [origin|] eqn:Ho.
  2: { unfold cors_response_headers, preflight_response. rewrite Ho. split; [done|].
       by destruct (http_request_header request "access-control-request-method"). }
  assert (permitted limits origin -> cors_response_headers headers request limits = headers ++ policy_fields limits origin [] []) as Hyes.
  { intros Hp%cors_origin_allowed_iff. unfold cors_response_headers. rewrite Ho, Hp. cbn [negb]. by rewrite wildcard_value. }
  assert (~ permitted limits origin -> cors_response_headers headers request limits = headers) as Hno.
  { intros Hp. unfold cors_response_headers. rewrite Ho. destruct (cors_origin_allowed limits origin) eqn:E; [|done].
    by apply cors_origin_allowed_iff in E. }
  split_and!; [done|done| |].
  - intros H1 H2 include. destruct (cors_origin_allowed limits origin) eqn:E.
    + apply cors_origin_allowed_iff in E. rewrite (Hyes E). apply policy_checks; [done|].
      intros name [->|[->|[]%elem_of_nil]%elem_of_cons]%elem_of_cons; by split_and!.
    + assert (~ permitted limits origin) as Hn by (intros Hp%cors_origin_allowed_iff; congruence). rewrite (Hno Hn).
      unfold cors_check. rewrite H1. split; [done|]. unfold readable, permitted in *. destruct include; tauto.
  - destruct (http_request_header request "access-control-request-method") as [method|] eqn:Hm.
    + destruct (preflight_ends request limits origin method Ho Hm) as [P1 P2]. split; [|done]. intros Ha. split; [by apply P1|].
      intros include. apply (policy_checks limits origin []); [by destruct Ha|].
      intros name [->|[->|[]%elem_of_nil]%elem_of_cons]%elem_of_cons; 
        (split_and!; [done|done|by destruct (http_request_header request "access-control-request-headers")]).
    + unfold preflight_response. by rewrite Hm.
Qed.

(** The configured origin reads an answer with credentials, another one does not read it. *)
Lemma cors_policy_sound_witness :
  readable demo_limits (txt "https://x") true /\ cors_check (cors_response_headers [] (demo_request "/") demo_limits) (txt "https://x") true = true /\
  cors_response_headers [] (mk_req (txt "GET") (txt "/") [(txt "origin", txt "https://y")] ∅) demo_limits = [].
Proof.
  assert (readable demo_limits (txt "https://x") true) as Hr by (split; [left|done]). split; [done|]. split.
  - destruct (cors_policy_sound (demo_request "/") demo_limits []) as (_ & _ & H & _). by apply H.
  - destruct (cors_policy_sound (mk_req (txt "GET") (txt "/") [(txt "origin", txt "https://y")] ∅) demo_limits []) as (_ & H & _).
    apply H. intros [[E|[]%elem_of_nil]%elem_of_cons|[_ E]]; [|done]. by vm_compute in E.
Defined.
