(* ===== verification/Url.v ===== *)
(** * URL values ([src/src/url.rs])

    URLs are kept in the table of [ValueTable].  The url and idna crates are the class
    [UrlCrate], with what they document in [UrlLaws].  An error is the message of the
    [UrlError]. *)

From S2P Require Import Prelude Str Utf8 ValueTable.

Inductive Host : Type := Domain (name : text) | Ipv4 (shown : text) | Ipv6 (shown : text).

(** [set_*] answer [None] where the crate answers an error and leaves the URL as it was. *)
Class UrlCrate := {
  RustUrl : Type;
  url_parse : text -> result RustUrl text;
  url_to_string : RustUrl -> text;
  from_file_path : text -> option RustUrl;
  to_file_path : RustUrl -> option text;
  url_join : RustUrl -> text -> result RustUrl text;
  scheme : RustUrl -> text;
  username : RustUrl -> text;
  password : RustUrl -> option text;
  host : RustUrl -> option Host;
  host_str : RustUrl -> option text;
  port : RustUrl -> option Z;
  url_path : RustUrl -> text;
  query : RustUrl -> option text;
  fragment : RustUrl -> option text;
  origin_serialization : RustUrl -> text;
  set_path : text -> RustUrl -> RustUrl;
  set_query : option text -> RustUrl -> RustUrl;
  set_fragment : option text -> RustUrl -> RustUrl;
  set_host : option text -> RustUrl -> option RustUrl;
  set_port : option Z -> RustUrl -> option RustUrl;
  set_scheme : text -> RustUrl -> option RustUrl;
  set_username : text -> RustUrl -> option RustUrl;
  set_password : option text -> RustUrl -> option RustUrl;
  form_parse : text -> list (text * text);
  form_append : text -> text * text -> text;
  domain_to_ascii : text -> result text text;
  domain_to_unicode : text -> text * option text;
}.

(** What a pointer leads to: an object has the number in its buffer, [None] for one without a
    buffer.  A list has its items, a pair with [None] for a part that is not a string. *)
Inductive url_item : Type := PairItem (key value : option text) | OtherItem.
Inductive url_arg : Type :=
| NullArg
| StringArg (s : text)
| UrlArg (handle : option Z)
| ListArg (items : list url_item)
| OtherArg.

Section Url.
Context `{UrlCrate}.

Definition url_state : Type := values RustUrl.

Definition answer (A : Type) : Type := result A text.

Definition direct_url (u : RustUrl) (allocated : bool) (st : url_state) : option Z * url_state := object u allocated st.

Definition result_url (u : RustUrl) (allocated : bool) (st : url_state) : answer url_arg * url_state :=
  match direct_url u allocated st with
  | (Some h, st) => (Ok (UrlArg (Some h)), st)
  | (None, st) => (Err (txt "failed to allocate Url value"), st)
  end.

Definition handle (v : url_arg) (st : url_state) : answer Z :=
  match v with
  | NullArg => Err (txt "Url value is null")
  | UrlArg (Some h) =>
      if (h <=? 0) || negb (match table st !! h with Some _ => true | None => false end)
      then Err (txt "invalid Url value") else Ok h
  | _ => Err (txt "invalid Url value")
  end.

Definition url_by_handle (h : Z) (st : url_state) : answer RustUrl :=
  match get_value h st with Some u => Ok u | None => Err (txt "invalid Url value") end.

Definition url_from_value (v : url_arg) (st : url_state) : answer RustUrl :=
  let? h := handle v st in url_by_handle h st.

Definition release (h : Z) (st : url_state) : url_state := drop_value h st.
Definition copy_url (h : Z) (st : url_state) : Z * url_state := copy_value h st.
Definition drop_url (h : Z) (st : url_state) : url_state := release h st.

Definition string_value (v : url_arg) : answer text := match v with StringArg s => Ok s | _ => Err (txt "expected string") end.

(** [unwrap_or_default]. *)
Definition string_result (r : answer text) : text := match r with Ok s => s | Err _ => [] end.

(** [optional_string] and [optional_int] of what [ok().and_then] reads. *)
Definition optional_of {A} (read : RustUrl -> option A) (v : url_arg) (st : url_state) : option A :=
  match url_from_value v st with Ok u => read u | Err _ => None end.

Definition finish (r : answer RustUrl) (allocated : bool) (st : url_state) : answer url_arg * url_state :=
  match r with Ok u => result_url u allocated st | Err m => (Err m, st) end.

Definition url_with_change (v : url_arg) (change : RustUrl -> RustUrl) (allocated : bool) (st : url_state) : answer url_arg * url_state :=
  match url_from_value v st with Ok u => result_url (change u) allocated st | Err m => (Err m, st) end.

(** The query as the pairs of a form; no query has none. *)
Definition query_pairs (u : RustUrl) : list (text * text) := form_parse (match query u with Some q => q | None => [] end).

Fixpoint query_pairs_items (items : list url_item) : answer (list (text * text)) :=
  match items with
  | [] => Ok []
  | i :: items =>
      let? p :=
        match i with
        | OtherItem => Err (txt "each query pair must be a tuple<string, string>")
        | PairItem None _ => Err (txt "query pair key must be a string")
        | PairItem (Some _) None => Err (txt "query pair value must be a string")
        | PairItem (Some k) (Some v) => Ok (k, v)
        end in
      let? ps := query_pairs_items items in Ok (p :: ps)
  end.

Definition query_pairs_input (v : url_arg) : answer (list (text * text)) :=
  match v with ListArg items => query_pairs_items items | _ => Err (txt "query pairs must be a list") end.

Definition set_query_pairs (pairs : list (text * text)) (u : RustUrl) : RustUrl :=
  set_query (Some (foldl form_append [] pairs)) u.

(** ** Making URLs *)

Definition mux_url_parse (v : url_arg) : bool -> url_state -> answer url_arg * url_state :=
  finish (let? s := string_value v in url_parse s).

Definition mux_url_from_file (v : url_arg) : bool -> url_state -> answer url_arg * url_state :=
  finish (let? s := string_value v in
          match from_file_path s with Some u => Ok u | None => Err (txt "path cannot be represented as a file URL") end).

Definition mux_url_join (v relative : url_arg) (allocated : bool) (st : url_state) : answer url_arg * url_state :=
  finish (let? u := url_from_value v st in let? r := string_value relative in url_join u r) allocated st.

Definition mux_url_with_path (v path : url_arg) (allocated : bool) (st : url_state) : answer url_arg * url_state :=
  match string_value path with Ok p => url_with_change v (set_path p) allocated st | Err m => (Err m, st) end.
Definition mux_url_with_query (v q : url_arg) (allocated : bool) (st : url_state) : answer url_arg * url_state :=
  match string_value q with Ok q => url_with_change v (set_query (Some q)) allocated st | Err m => (Err m, st) end.
Definition mux_url_with_fragment (v f : url_arg) (allocated : bool) (st : url_state) : answer url_arg * url_state :=
  match string_value f with Ok f => url_with_change v (set_fragment (Some f)) allocated st | Err m => (Err m, st) end.
Definition mux_url_with_query_pairs (v pairs : url_arg) (allocated : bool) (st : url_state) : answer url_arg * url_state :=
  match query_pairs_input pairs with Ok ps => url_with_change v (set_query_pairs ps) allocated st | Err m => (Err m, st) end.

(** [match url.set_*(..) { Ok(()) => .., Err(_) => error(message) }]. *)
Definition or_error (r : option RustUrl) (message : string) : answer RustUrl :=
  match r with Some u => Ok u | None => Err (txt message) end.

Definition mux_url_with_host (v h : url_arg) (allocated : bool) (st : url_state) : answer url_arg * url_state :=
  finish (let? h := string_value h in let? u := url_from_value v st in or_error (set_host (Some h) u) "invalid URL host") allocated st.
Definition mux_url_with_port (v : url_arg) (p : Z) (allocated : bool) (st : url_state) : answer url_arg * url_state :=
  if negb (in_range 0 65535 p) then (Err (txt "port must be between 0 and 65535"), st)
  else finish (let? u := url_from_value v st in or_error (set_port (Some p) u) "URL scheme does not accept a port") allocated st.
Definition mux_url_with_scheme (v s : url_arg) (allocated : bool) (st : url_state) : answer url_arg * url_state :=
  finish (let? s := string_value s in let? u := url_from_value v st in or_error (set_scheme s u) "invalid URL scheme") allocated st.
Definition mux_url_with_username (v s : url_arg) (allocated : bool) (st : url_state) : answer url_arg * url_state :=
  finish (let? s := string_value s in let? u := url_from_value v st in or_error (set_username s u) "invalid URL username") allocated st.
Definition mux_url_with_password (v s : url_arg) (allocated : bool) (st : url_state) : answer url_arg * url_state :=
  finish (let? s := string_value s in let? u := url_from_value v st in or_error (set_password (Some s) u) "invalid URL password") allocated st.

(** ** Reading URLs *)

Definition read_text (read : RustUrl -> text) (v : url_arg) (st : url_state) : text :=
  string_result (let? u := url_from_value v st in Ok (read u)).

Definition mux_url_to_string : url_arg -> url_state -> text := read_text url_to_string.
Definition mux_url_scheme : url_arg -> url_state -> text := read_text scheme.
Definition mux_url_username : url_arg -> url_state -> text := read_text username.
Definition mux_url_password : url_arg -> url_state -> option text := optional_of password.
Definition mux_url_host : url_arg -> url_state -> option text := optional_of host_str.
Definition mux_url_port : url_arg -> url_state -> option Z := optional_of port.
Definition mux_url_path : url_arg -> url_state -> text := read_text url_path.
Definition mux_url_query : url_arg -> url_state -> option text := optional_of query.
Definition mux_url_fragment : url_arg -> url_state -> option text := optional_of fragment.
Definition mux_url_origin : url_arg -> url_state -> text := read_text origin_serialization.

(** A failing [set_password] is ignored. *)
Definition mux_url_redacted : url_arg -> url_state -> text :=
  read_text (fun u =>
    url_to_string
      match password u with
      | Some _ => match set_password (Some (txt "[REDACTED]")) u with Some u => u | None => u end
      | None => u
      end).

Definition mux_url_host_ascii (v : url_arg) (st : url_state) : answer text :=
  let? u := url_from_value v st in
  match host u with
  | Some (Domain h) => match domain_to_ascii h with Ok s => Ok s | Err e => Err (txt "invalid IDNA host: " ++ e) end
  | Some (Ipv4 h) => Ok h
  | Some (Ipv6 h) => Ok h
  | None => Err (txt "URL has no host")
  end.

Definition mux_url_host_unicode (v : url_arg) (st : url_state) : answer text :=
  let? u := url_from_value v st in
  match host u with
  | Some (Domain h) =>
      let '(unicode, e) := domain_to_unicode h in
      match e with None => Ok unicode | Some e => Err (txt "invalid IDNA host: " ++ e) end
  | Some (Ipv4 h) => Ok h
  | Some (Ipv6 h) => Ok h
  | None => Err (txt "URL has no host")
  end.

Definition mux_url_query_pairs (v : url_arg) (st : url_state) : list (text * text) :=
  match url_from_value v st with Ok u => query_pairs u | Err _ => [] end.

Definition mux_url_to_file_path (v : url_arg) (st : url_state) : answer text :=
  let? u := url_from_value v st in
  match to_file_path u with Some p => Ok p | None => Err (txt "URL cannot be represented as a local path") end.

Definition mux_url_is_http (v : url_arg) (st : url_state) : bool :=
  match url_from_value v st with Ok u => bool_decide (scheme u = txt "http") | Err _ => false end.
Definition mux_url_is_https (v : url_arg) (st : url_state) : bool :=
  match url_from_value v st with Ok u => bool_decide (scheme u = txt "https") | Err _ => false end.

(** ** What the crate documents *)

(** The characters a form is written with: letters, digits, and [* - . _ + & = %]. *)
Definition form_char (c : Z) : bool :=
  in_range 48 57 c || in_range 65 90 c || in_range 97 122 c || bool_decide (c ∈ txt "*-._+&=%").

Class UrlLaws : Prop := {
  law_form_chars s p : forallb form_char s = true -> forallb form_char (form_append s p) = true;
  law_form_parse_empty : form_parse [] = [];
  law_form_append s p : forallb form_char s = true -> form_parse (form_append s p) = form_parse s ++ [p];
  law_set_query u q : forallb form_char q = true -> query (set_query (Some q) u) = Some q;
  law_set_query_others u q : scheme (set_query q u) = scheme u /\ host (set_query q u) = host u /\ url_path (set_query q u) = url_path u;
  law_password_replaceable u : is_Some (password u) -> forall s, is_Some (set_password (Some s) u);
}.

Context `{!UrlLaws}.

Lemma form_of_pairs ps s : forallb form_char s = true ->
  forallb form_char (foldl form_append s ps) = true /\ form_parse (foldl form_append s ps) = form_parse s ++ ps.
Proof.
  revert s. induction ps as [|p ps IH]; intros s Hs; cbn; [by rewrite app_nil_r|].
  destruct (IH (form_append s p)) as [Hc Hp]; [by apply law_form_chars|]. split; [done|].
  rewrite Hp, law_form_append by done. by rewrite <- app_assoc.
Qed.

Lemma made_reads u st : 0 < next st < i64_max ->
  exists h st', result_url u true st = (Ok (UrlArg (Some h)), st') /\ url_from_value (UrlArg (Some h)) st' = Ok u.
Proof.
  intros Hn. unfold result_url, direct_url, object, next_id. eexists _, _. split; [done|].
  unfold url_from_value, handle, url_by_handle, get_value. cbn [table]. rewrite lookup_insert_eq.
  rewrite (proj2 (Z.leb_gt _ _)) by lia. cbn. by rewrite lookup_insert_eq.
Qed.

(** The pairs a URL is given are the pairs it has, in order and with repetitions, whatever
    characters they contain; its scheme, host and path stay. *)
Lemma query_pairs_roundtrip v ps st : 0 < next st < i64_max ->
  forall u, url_from_value v st = Ok u ->
  exists w st', mux_url_with_query_pairs v (ListArg ((fun p => PairItem (Some p.1) (Some p.2)) <$> ps)) true st = (Ok w, st') /\
    mux_url_query_pairs w st' = ps /\ mux_url_scheme w st' = scheme u /\ mux_url_path w st' = url_path u.
Proof.
  intros Hn u Hu. unfold mux_url_with_query_pairs, query_pairs_input.
  assert (E : query_pairs_items ((fun p => PairItem (Some p.1) (Some p.2)) <$> ps) = Ok ps).
  { induction ps as [|[k x] ps IH]; [done|]. cbn in *. by rewrite IH. }
  rewrite E. unfold url_with_change. rewrite Hu.
  destruct (made_reads (set_query_pairs ps u) st Hn) as (h & st' & -> & Hr). eexists _, _. split; [done|].
  unfold mux_url_query_pairs, mux_url_scheme, mux_url_path, read_text. rewrite Hr. cbn.
  unfold query_pairs, set_query_pairs. destruct (form_of_pairs ps [] eq_refl) as [Hc Hp].
  rewrite law_set_query, Hp, law_form_parse_empty by done. cbn.
  destruct (law_set_query_others u (Some (foldl form_append [] ps))) as (-> & _ & ->). done.
Qed.

(** The redacted text is that of a URL without a password or with the fixed one. *)
Lemma redacted_hides v st u : url_from_value v st = Ok u ->
  exists u', mux_url_redacted v st = url_to_string u' /\
    (password u = None /\ u' = u \/ set_password (Some (txt "[REDACTED]")) u = Some u').
Proof.
  intros Hu. unfold mux_url_redacted, read_text. rewrite Hu. cbn [result_bind string_result]. destruct (password u) eqn:Ep; [|eauto].
  destruct (law_password_replaceable u ltac:(eauto) (txt "[REDACTED]")) as [u' Eu]. rewrite Eu. eauto.
Qed.

End Url.
