(* ===== verification/Regex.v ===== *)
(** * Regular expressions ([src/src/regex.rs])

    Expressions and matches are entries of two tables, counted by the objects that name them
    and numbered by one counter.  The regex and regex-syntax crates are the class
    [RegexCrate]; their spans are octet offsets, those the package hands out are characters.
    An error is the message of the [RegexError]; an outer [None] is a panic (an offset that is
    not a character boundary). *)

From S2P Require Import Prelude Str Utf8.

(** ** Octet offsets in texts *)

(** [split_at]: [None] where the offset is past the end or inside a character. *)
Fixpoint cut (offset : Z) (s : text) : option (text * text) :=
  if offset =? 0 then Some ([], s)
  else
    match s with
    | [] => None
    | c :: s =>
        let width := Z.of_nat (length (utf8_char c)) in
        if offset <? width then None
        else match cut (offset - width) s with Some (a, b) => Some (c :: a, b) | None => None end
    end.

(** [&text[from..to]]. *)
Definition slice (s : text) (from to : Z) : option text :=
  match cut to s with
  | Some (prefix, _) => match cut from prefix with Some (_, m) => Some m | None => None end
  | None => None
  end.

Definition char_index (s : text) (byte_index : Z) : option Z :=
  match cut byte_index s with Some (prefix, _) => Some (Z.of_nat (length prefix)) | None => None end.

(** ** The crates *)

Record flags : Type := mk_flags {
  case_insensitive : bool; multi_line : bool; dot_matches_new_line : bool; swap_greed : bool; ignore_whitespace : bool }.

Definition no_flags : flags := mk_flags false false false false false.

(** The spans of the groups of one match, the whole match first. *)
Definition captures : Type := list (option (Z * Z)).

Class RegexCrate := {
  RustRegex : Type;
  Hir : Type;
  regex_build : flags -> text -> result RustRegex text;
  syntax_parse : flags -> text -> result Hir text;
  look_start : Hir;
  look_end : Hir;
  hir_concat : list Hir -> Hir;
  hir_to_string : Hir -> text;
  capture_names : RustRegex -> list (option text);
  captures_len : RustRegex -> Z;
  captures_iter : RustRegex -> text -> list captures;
  replace_one : RustRegex -> text -> text -> text;
  replace_all : RustRegex -> text -> text -> text;
  regex_split : RustRegex -> text -> list text;
  regex_escape : text -> text;
}.

(** What a pointer leads to; an object has the number in its buffer, [None] without a buffer. *)
Inductive regex_arg : Type :=
| NullArg
| StringArg (s : text)
| RegexArg (handle : option Z)
| MatchArg (handle : option Z)
| OtherArg.

(** What the operations give. *)
Inductive regex_value : Type :=
| OfRegex (handle : Z)
| OfMatch (handle : Z)
| OfString (s : text)
| OfBool (b : bool)
| OfInt (i : Z)
| OfOptional (v : option regex_value)
| OfList (vs : list regex_value).

(** What a replacement callback returns. *)
Inductive callback_result : Type := NullResult | StringResult (s : text) | OtherResult.

Section Regex.
Context `{RegexCrate}.

Record RegexEntry : Type := mk_regex {
  regex : RustRegex; full_match_regex : RustRegex; regex_names : list (option text); regex_refs : Z }.

Record MatchEntry : Type := mk_match {
  match_text : text; match_start : Z; match_end : Z; match_captures : list (option text);
  match_names : list (option text); match_refs : Z }.

(** [REGEXES], [MATCHES] and [NEXT_HANDLE]. *)
Record regex_state : Type := mk_regexes { regexes : gmap Z RegexEntry; matches : gmap Z MatchEntry; next : Z }.

Definition set_regexes (m : gmap Z RegexEntry) (st : regex_state) : regex_state := mk_regexes m (matches st) (next st).
Definition set_matches (m : gmap Z MatchEntry) (st : regex_state) : regex_state := mk_regexes (regexes st) m (next st).

Definition answer : Type := result regex_value text.

(** [Regex::captures] and [is_match]: the first match. *)
Definition first_captures (r : RustRegex) (s : text) : option captures := head (captures_iter r s).
Definition is_match (r : RustRegex) (s : text) : bool := match captures_iter r s with [] => false | _ => true end.

Definition next_handle (st : regex_state) : Z * regex_state :=
  (next st, mk_regexes (regexes st) (matches st) (if next st =? i64_max then 1 else next st + 1)).

(** [handle] for the two classes. *)
Definition positive (h : option Z) : option Z := match h with Some h => if 0 <? h then Some h else None | None => None end.
Definition regex_handle (v : regex_arg) : option Z := match v with RegexArg h => positive h | _ => None end.
Definition match_handle (v : regex_arg) : option Z := match v with MatchArg h => positive h | _ => None end.

Definition copy_regex (h : Z) (st : regex_state) : Z * regex_state :=
  match regexes st !! h with
  | Some e => (h, set_regexes (<[h := mk_regex (regex e) (full_match_regex e) (regex_names e) (regex_refs e + 1)]> (regexes st)) st)
  | None => (0, st)
  end.

Definition with_match_refs (n : Z) (e : MatchEntry) : MatchEntry :=
  mk_match (match_text e) (match_start e) (match_end e) (match_captures e) (match_names e) n.

Definition copy_match (h : Z) (st : regex_state) : Z * regex_state :=
  match matches st !! h with
  | Some e => (h, set_matches (<[h := with_match_refs (match_refs e + 1) e]> (matches st)) st)
  | None => (0, st)
  end.

Definition release_regex (h : Z) (st : regex_state) : regex_state :=
  match regexes st !! h with
  | Some e =>
      let n := Z.max 0 (regex_refs e - 1) in
      if n =? 0 then set_regexes (delete h (regexes st)) st
      else set_regexes (<[h := mk_regex (regex e) (full_match_regex e) (regex_names e) n]> (regexes st)) st
  | None => st
  end.

Definition release_match (h : Z) (st : regex_state) : regex_state :=
  match matches st !! h with
  | Some e =>
      let n := Z.max 0 (match_refs e - 1) in
      if n =? 0 then set_matches (delete h (matches st)) st
      else set_matches (<[h := with_match_refs n e]> (matches st)) st
  | None => st
  end.

Definition value_string (v : regex_arg) (label : string) : result text text :=
  match v with
  | NullArg => Err (txt label ++ txt " must not be null")
  | StringArg s => Ok s
  | _ => Err (txt label ++ txt " must be a string")
  end.

(** ** Compiling *)

Definition set_flag (c : Z) (f : flags) : option flags :=
  if c =? 105 then Some (mk_flags true (multi_line f) (dot_matches_new_line f) (swap_greed f) (ignore_whitespace f))
  else if c =? 109 then Some (mk_flags (case_insensitive f) true (dot_matches_new_line f) (swap_greed f) (ignore_whitespace f))
  else if c =? 115 then Some (mk_flags (case_insensitive f) (multi_line f) true (swap_greed f) (ignore_whitespace f))
  else if c =? 85 then Some (mk_flags (case_insensitive f) (multi_line f) (dot_matches_new_line f) true (ignore_whitespace f))
  else if c =? 120 then Some (mk_flags (case_insensitive f) (multi_line f) (dot_matches_new_line f) (swap_greed f) true)
  else None.

Fixpoint parse_flags (cs : text) (f : flags) : result flags text :=
  match cs with
  | [] => Ok f
  | c :: cs =>
      match set_flag c f with
      | Some f => parse_flags cs f
      | None => Err (txt "unsupported regex flag '" ++ [c] ++ txt "'")
      end
  end.

Definition compile_regex (pattern fs : text) : result RustRegex text :=
  let? f := parse_flags fs no_flags in regex_build f pattern.

Definition compile_full_match_regex (pattern fs : text) : result RustRegex text :=
  let? f := parse_flags fs no_flags in
  let? hir := syntax_parse f pattern in
  compile_regex (hir_to_string (hir_concat [look_start; hir; look_end])) [].

Definition build_regex_entry (pattern fs : text) : result RegexEntry text :=
  let? r := compile_regex pattern fs in
  let? full := compile_full_match_regex pattern fs in
  Ok (mk_regex r full (capture_names r) 1).

Definition insert_regex (e : RegexEntry) (allocated : bool) (st : regex_state) : answer * regex_state :=
  let '(h, st) := next_handle st in
  let st := set_regexes (<[h := e]> (regexes st)) st in
  if allocated then (Ok (OfRegex h), st)
  else (Err (txt "could not allocate regex object"), set_regexes (delete h (regexes st)) st).

Definition install (prefix : string) (r : result RegexEntry text) (allocated : bool) (st : regex_state) : answer * regex_state :=
  match r with Ok e => insert_regex e allocated st | Err m => (Err (txt prefix ++ m), st) end.

Definition mux_regex_new : bool -> regex_state -> answer * regex_state :=
  install "invalid default regex: " (build_regex_entry [] []).

Definition mux_regex_from_pattern (pattern : regex_arg) (allocated : bool) (st : regex_state) : answer * regex_state :=
  match value_string pattern "pattern" with
  | Ok p => install "invalid regex: " (build_regex_entry p []) allocated st
  | Err m => (Err m, st)
  end.

Definition mux_regex_from_pattern_with_flags (pattern fs : regex_arg) (allocated : bool) (st : regex_state) : answer * regex_state :=
  match value_string pattern "pattern" with
  | Ok p =>
      match value_string fs "flags" with
      | Ok fs => install "invalid regex: " (build_regex_entry p fs) allocated st
      | Err m => (Err m, st)
      end
  | Err m => (Err m, st)
  end.

Definition mux_regex_escape (v : regex_arg) : text := match value_string v "text" with Ok s => regex_escape s | Err _ => [] end.

(** ** Matching *)

(** [captures.iter().map(..)]: [as_str] of every group. *)
Fixpoint group_texts (s : text) (cs : captures) : option (list (option text)) :=
  match cs with
  | [] => Some []
  | c :: cs =>
      match c with
      | None => group_texts s cs ≫= fun ts => Some (None :: ts)
      | Some (a, b) => slice s a b ≫= fun t => group_texts s cs ≫= fun ts => Some (Some t :: ts)
      end
  end.

Definition insert_match (s : text) (e : RegexEntry) (cs : captures) (allocated : bool) (st : regex_state) : option (answer * regex_state) :=
  match cs with
  | Some (a, b) :: _ =>
      group_texts s cs ≫= fun values =>
      slice s a b ≫= fun whole =>
      char_index s a ≫= fun from =>
      char_index s b ≫= fun to =>
      let '(h, st) := next_handle st in
      let st := set_matches (<[h := mk_match whole from to values (regex_names e) 1]> (matches st)) st in
      Some (if allocated then (Ok (OfMatch h), st)
            else (Err (txt "could not allocate regex object"), set_matches (delete h (matches st)) st))
  | _ => Some (Err (txt "regex match did not contain a whole match"), st)
  end.

Definition regex_entry (h : Z) (st : regex_state) : result RegexEntry text :=
  match regexes st !! h with Some e => Ok e | None => Err (txt "invalid regex handle") end.

Definition optional_match (e : RegexEntry) (s : text) (allocated : bool) (st : regex_state) : option (answer * regex_state) :=
  match first_captures (regex e) s with
  | Some cs =>
      insert_match s e cs allocated st ≫= fun '(r, st) =>
      Some (match r with Ok v => Ok (OfOptional (Some v)) | Err m => Err m end, st)
  | None => Some (Ok (OfOptional None), st)
  end.

(** The guards all operations on an expression and a text begin with. *)
Definition subject (r s : regex_arg) (st : regex_state) : result (RegexEntry * text) text :=
  match regex_handle r with
  | None => Err (txt "invalid regex handle")
  | Some h => let? s := value_string s "text" in let? e := regex_entry h st in Ok (e, s)
  end.

Definition mux_regex_is_match (r s : regex_arg) (st : regex_state) : answer :=
  let? (e, s) := subject r s st in Ok (OfBool (is_match (regex e) s)).
Definition mux_regex_full_match (r s : regex_arg) (st : regex_state) : answer :=
  let? (e, s) := subject r s st in Ok (OfBool (is_match (full_match_regex e) s)).

Definition mux_regex_find (r s : regex_arg) (allocated : bool) (st : regex_state) : option (answer * regex_state) :=
  match subject r s st with
  | Ok (e, s) => optional_match e s allocated st
  | Err m => Some (Err m, st)
  end.

(** The loop of [mux_regex_find_all]; [allocated i] says whether the [i]-th object can be
    allocated. *)
Fixpoint find_all_loop (s : text) (e : RegexEntry) (all : list captures) (i : nat) (allocated : nat -> bool) (acc : list regex_value)
    (st : regex_state) : option (answer * regex_state) :=
  match all with
  | [] => Some (Ok (OfList (rev acc)), st)
  | cs :: all =>
      insert_match s e cs (allocated i) st ≫= fun '(r, st) =>
      match r with
      | Ok v => find_all_loop s e all (S i) allocated (v :: acc) st
      | Err m => Some (Err m, st)
      end
  end.

Definition mux_regex_find_all (r s : regex_arg) (allocated : nat -> bool) (st : regex_state) : option (answer * regex_state) :=
  match subject r s st with
  | Ok (e, s) => find_all_loop s e (captures_iter (regex e) s) 0 allocated [] st
  | Err m => Some (Err m, st)
  end.

(** ** Replacing and splitting *)

Definition replace (r s replacement : regex_arg) (first : bool) (st : regex_state) : answer :=
  match regex_handle r with
  | None => Err (txt "invalid regex handle")
  | Some h =>
      let? s := value_string s "text" in
      let? replacement := value_string replacement "replacement" in
      let? e := regex_entry h st in
      Ok (OfString (if first then replace_one (regex e) s replacement else replace_all (regex e) s replacement))
  end.

Definition mux_regex_replace (r s replacement : regex_arg) (st : regex_state) : answer := replace r s replacement false st.
Definition mux_regex_replace_first (r s replacement : regex_arg) (st : regex_state) : answer := replace r s replacement true st.

(** A closure: null, without a function, or a function that may itself use the package.  It is
    called with no lock held. *)
Inductive closure : Type :=
| NullClosure
| NoFunction
| Closure (call : text -> regex_state -> callback_result * regex_state).

Definition invoke_string_callback (callback : closure) (argument : text) (st : regex_state) : result callback_result text * regex_state :=
  match callback with
  | NullClosure => (Err (txt "replacement callback is null"), st)
  | NoFunction => (Err (txt "replacement callback function is null"), st)
  | Closure call =>
      match call argument st with
      | (NullResult, st) => (Err (txt "replacement callback returned null"), st)
      | (r, st) => (Ok r, st)
      end
  end.

Fixpoint replace_loop (s : text) (callback : closure) (all : list captures) (previous_end : Z) (output : text) (st : regex_state)
    : option (answer * regex_state) :=
  match all with
  | [] =>
      cut previous_end s ≫= fun '(_, rest) => Some (Ok (OfString (output ++ rest)), st)
  | cs :: all =>
      match cs with
      | Some (a, b) :: _ =>
          slice s previous_end a ≫= fun gap =>
          slice s a b ≫= fun whole =>
          match invoke_string_callback callback whole st with
          | (Err m, st) => Some (Err m, st)
          | (Ok (StringResult t), st) => replace_loop s callback all b (output ++ gap ++ t) st
          | (Ok _, st) => Some (Err (txt "replacement callback must return a string"), st)
          end
      | _ => Some (Err (txt "regex match did not contain a whole match"), st)
      end
  end.

Definition mux_regex_replace_with (r s : regex_arg) (callback : closure) (st : regex_state) : option (answer * regex_state) :=
  match subject r s st with
  | Ok (e, s) => replace_loop s callback (captures_iter (regex e) s) 0 [] st
  | Err m => Some (Err m, st)
  end.

Definition mux_regex_split (r s : regex_arg) (st : regex_state) : answer :=
  let? (e, s) := subject r s st in Ok (OfList (OfString <$> regex_split (regex e) s)).

Definition with_regex (r : regex_arg) (st : regex_state) (f : RegexEntry -> regex_value) : answer :=
  match regex_handle r with
  | None => Err (txt "invalid regex handle")
  | Some h => let? e := regex_entry h st in Ok (f e)
  end.

Definition mux_regex_group_count (r : regex_arg) (st : regex_state) : answer :=
  with_regex r st (fun e => OfInt (captures_len (regex e) - 1)).
Definition mux_regex_named_groups (r : regex_arg) (st : regex_state) : answer :=
  with_regex r st (fun e => OfList (OfString <$> omap (fun n => n) (regex_names e))).

(** ** Matches *)

Definition match_entry (v : regex_arg) (st : regex_state) : result MatchEntry text :=
  match match_handle v with
  | None => Err (txt "invalid regex match handle")
  | Some h => match matches st !! h with Some e => Ok e | None => Err (txt "invalid regex match handle") end
  end.

Definition mux_regex_match_start (v : regex_arg) (st : regex_state) : answer := let? e := match_entry v st in Ok (OfInt (match_start e)).
Definition mux_regex_match_end (v : regex_arg) (st : regex_state) : answer := let? e := match_entry v st in Ok (OfInt (match_end e)).
Definition mux_regex_match_text (v : regex_arg) (st : regex_state) : answer := let? e := match_entry v st in Ok (OfString (match_text e)).

Definition capture_at (e : MatchEntry) (i : option nat) : regex_value :=
  OfOptional (match i ≫= fun i => match_captures e !! i with Some (Some t) => Some (OfString t) | _ => None end).

Definition mux_regex_match_capture (v : regex_arg) (index : Z) (st : regex_state) : answer :=
  if index <? 0 then Ok (OfOptional None) else let? e := match_entry v st in Ok (capture_at e (Some (Z.to_nat index))).

(** [position]: the first group of that name. *)
Fixpoint position (name : text) (names : list (option text)) : option nat :=
  match names with
  | [] => None
  | n :: names => if bool_decide (n = Some name) then Some O else S <$> position name names
  end.

Definition mux_regex_match_capture_named (v name : regex_arg) (st : regex_state) : answer :=
  let? name := value_string name "capture name" in
  let? e := match_entry v st in Ok (capture_at e (position name (match_names e))).

Definition mux_regex_match_captures (v : regex_arg) (st : regex_state) : answer :=
  let? e := match_entry v st in Ok (OfList ((fun c => OfOptional (OfString <$> c)) <$> match_captures e)).

(** ** Offsets are characters *)

Lemma utf8_char_width c : (0 < length (utf8_char c))%nat.
Proof. unfold utf8_char. repeat case_match; cbn; lia. Qed.

Definition octets (s : text) : Z := Z.of_nat (length (utf8 s)).

Lemma octets_cons c s : octets (c :: s) = Z.of_nat (length (utf8_char c)) + octets s.
Proof. unfold octets. change (utf8 (c :: s)) with (utf8_char c ++ utf8 s). rewrite length_app. lia. Qed.

Lemma octets_app a b : octets (a ++ b) = octets a + octets b.
Proof. unfold octets. rewrite utf8_app, length_app. lia. Qed.

Lemma cut_sound s : forall k a b, cut k s = Some (a, b) -> s = a ++ b /\ k = octets a.
Proof.
  induction s as [|c s IH]; intros k a b; cbn; destruct (Z.eqb_spec k 0) as [->|]; try done.
  - by intros [= <- <-].
  - by intros [= <- <-].
  - destruct (Z.ltb_spec k (Z.of_nat (length (utf8_char c)))); [done|].
    destruct (cut _ s) as [[a' b']|] eqn:E; [|done]. intros [= <- <-]. apply IH in E as [-> E].
    split; [done|]. rewrite octets_cons. lia.
Qed.

Lemma cut_complete a b : cut (octets a) (a ++ b) = Some (a, b).
Proof.
  induction a as [|c a IH]; [by destruct b|]. pose proof (utf8_char_width c) as Hw.
  assert (0 <= octets a) by (unfold octets; lia). rewrite octets_cons. cbn [app cut].
  rewrite (proj2 (Z.eqb_neq _ _)), (proj2 (Z.ltb_ge _ _)) by lia.
  replace (Z.of_nat (length (utf8_char c)) + octets a - Z.of_nat (length (utf8_char c))) with (octets a) by lia. by rewrite IH.
Qed.

(** Two cuts of a text at offsets in order. *)
Lemma cuts_nested a b : forall x y, a ++ b = x ++ y -> octets a <= octets x -> exists m, x = a ++ m /\ b = m ++ y.
Proof.
  induction a as [|c a IH]; intros x y E Hle; [by exists x|].
  destruct x as [|d x].
  - exfalso. pose proof (utf8_char_width c). rewrite octets_cons in Hle. unfold octets in Hle. cbn in Hle. lia.
  - cbn in E. injection E as <- E. rewrite !octets_cons in Hle.
    destruct (IH x y E ltac:(lia)) as (m & -> & ->). by exists m.
Qed.

(** What the crate documents of spans: they are in order and on character boundaries. *)
Definition span_ok (s : text) (span : Z * Z) : Prop :=
  span.1 <= span.2 /\ is_Some (cut span.1 s) /\ is_Some (cut span.2 s).

Definition captures_ok (s : text) (cs : captures) : Prop :=
  (exists a b rest, cs = Some (a, b) :: rest) /\ forall span, Some span ∈ cs -> span_ok s span.

(** Matches do not overlap and come from left to right. *)
Fixpoint in_order (from : Z) (all : list captures) : Prop :=
  match all with
  | [] => True
  | (Some (a, b) :: _) :: all => from <= a /\ in_order b all
  | _ => False
  end.

Class RegexLaws : Prop := {
  law_captures r s cs : cs ∈ captures_iter r s -> captures_ok s cs;
  law_in_order r s : in_order 0 (captures_iter r s);
}.

Lemma span_slice s a b : span_ok s (a, b) ->
  exists pre mid post, s = pre ++ mid ++ post /\ a = octets pre /\ b = octets (pre ++ mid) /\ slice s a b = Some mid /\
    char_index s a = Some (Z.of_nat (length pre)) /\ char_index s b = Some (Z.of_nat (length (pre ++ mid))).
Proof.
  intros (Hle & [[p q] Ea] & [[x y] Eb]). cbn in *. destruct (cut_sound _ _ _ _ Ea) as [-> ->].
  destruct (cut_sound _ _ _ _ Eb) as [E ->]. destruct (cuts_nested _ _ _ _ E Hle) as (m & -> & ->).
  exists p, m, y. unfold slice, char_index. rewrite Ea, Eb, cut_complete. done.
Qed.

Lemma group_texts_total s cs : (forall span, Some span ∈ cs -> span_ok s span) ->
  exists ts, group_texts s cs = Some ts.
Proof.
  induction cs as [|[[a b]|] cs IH]; intros Hc; cbn; [by eexists| |].
  - destruct IH as [ts ->]; [intros; apply Hc; by right|]. destruct (span_slice s a b (Hc (a, b) ltac:(by left))) as (? & m & ? & _ & _ & _ & -> & _). cbn. eauto.
  - destruct IH as [ts ->]; [intros; apply Hc; by right|]. eauto.
Qed.

(** The match that [insert_match] stores: positions in characters, and the text between them. *)
Definition describes (s : text) (e : MatchEntry) : Prop :=
  exists pre post, s = pre ++ match_text e ++ post /\ match_start e = Z.of_nat (length pre) /\
    match_end e = Z.of_nat (length (pre ++ match_text e)) /\ exists rest, match_captures e = Some (match_text e) :: rest.

Lemma insert_match_spec s e cs st : captures_ok s cs -> 0 < next st < i64_max ->
  exists m, describes s m /\ match_names m = regex_names e /\
    insert_match s e cs true st =
      Some (Ok (OfMatch (next st)), mk_regexes (regexes st) (<[next st := m]> (matches st)) (next st + 1)).
Proof.
  intros [(a & b & rest & ->) Hc] Hn. destruct (group_texts_total s _ Hc) as [ts Ets].
  destruct (span_slice s a b (Hc (a, b) ltac:(by left))) as (pre & mid & post & -> & -> & -> & Esl & Ea & Eb).
  cbn [insert_match]. rewrite Ets. cbn [mbind option_bind]. rewrite Esl. cbn [mbind option_bind]. rewrite Ea, Eb. cbn [mbind option_bind].
  unfold next_handle, set_matches. cbn [regexes matches next]. rewrite (proj2 (Z.eqb_neq _ _)) by lia.
  eexists. split; [|split; [|done]]; [|done]. exists pre, post. cbn. split_and!; [done..|].
  cbn in Ets. rewrite Esl in Ets. cbn in Ets. destruct (group_texts _ rest); [|done]. injection Ets as <-. eauto.
Qed.

Lemma find_all_spec s e all : forall i acc st, (forall cs, cs ∈ all -> captures_ok s cs) ->
  0 < next st -> next st + Z.of_nat (length all) < i64_max ->
  (forall v, v ∈ acc -> exists h m, v = OfMatch h /\ 0 < h < next st /\ matches st !! h = Some m /\ describes s m) ->
  exists vs st', find_all_loop s e all i (fun _ => true) acc st = Some (Ok (OfList vs), st') /\
    length vs = (length acc + length all)%nat /\
    forall v, v ∈ vs -> exists h m, v = OfMatch h /\ 0 < h /\ matches st' !! h = Some m /\ describes s m.
Proof.
  induction all as [|cs all IH]; intros i acc st Hall Hn Hb Hacc; cbn [find_all_loop].
  - eexists _, _. split; [done|]. rewrite length_rev. split; [cbn; lia|]. intros v Hv. rewrite list_elem_of_In, <- in_rev, <- list_elem_of_In in Hv.
    destruct (Hacc v) as (h & m & ? & ? & ? & ?); [done|]. exists h, m. split_and!; (done || lia).
  - cbn [length] in Hb. destruct (insert_match_spec s e cs st (Hall cs ltac:(by left)) ltac:(lia)) as (m & Hm & _ & ->). cbn [mbind option_bind].
    edestruct (IH (S i) (OfMatch (next st) :: acc)) as (vs & st' & -> & Hl & Hv); cycle 4.
    + eexists _, _. split; [done|]. cbn [length] in *. split; [lia|]. done.
    + intros; apply Hall; by right.
    + cbn. lia.
    + cbn [next]. lia.
    + cbn [next matches]. intros v [->|Hin]%elem_of_cons.
      * exists (next st), m. rewrite lookup_insert_eq. split_and!; (done || lia).
      * destruct (Hacc v Hin) as (h & m' & -> & ? & ? & ?). exists h, m'. rewrite lookup_insert_ne by lia. split_and!; (done || lia).
Qed.

(** Positions of matches are in characters: between them lies the text of the match. *)
Lemma regex_find_all_characters `{!RegexLaws} r s st e : regex_handle r ≫= (fun h => regexes st !! h) = Some e ->
  0 < next st -> next st + Z.of_nat (length (captures_iter (regex e) s)) < i64_max ->
  exists vs st', mux_regex_find_all r (StringArg s) (fun _ => true) st = Some (Ok (OfList vs), st') /\
    length vs = length (captures_iter (regex e) s) /\
    forall v, v ∈ vs -> exists h pre mid post, v = OfMatch h /\ s = pre ++ mid ++ post /\
      mux_regex_match_start (MatchArg (Some h)) st' = Ok (OfInt (Z.of_nat (length pre))) /\
      mux_regex_match_end (MatchArg (Some h)) st' = Ok (OfInt (Z.of_nat (length (pre ++ mid)))) /\
      mux_regex_match_text (MatchArg (Some h)) st' = Ok (OfString mid) /\
      mux_regex_match_capture (MatchArg (Some h)) 0 st' = Ok (OfOptional (Some (OfString mid))).
Proof.
  intros He Hn Hb. unfold mux_regex_find_all, subject, regex_entry. destruct (regex_handle r) as [h|]; [|done].
  cbn in He. cbn. rewrite He. cbn.
  destruct (find_all_spec s e (captures_iter (regex e) s) 0 [] st) as (vs & st' & -> & Hl & Hv); [apply law_captures|done..| |].
  { intros v Hv. by apply elem_of_nil in Hv. }
  exists vs, st'. split; [done|]. split; [done|]. intros v Hin.
  destruct (Hv v Hin) as (k & m & -> & Hk & Hm & pre & post & Es & E1 & E2 & rest & E3).
  exists k, pre, (match_text m), post. split; [done|]. split; [done|].
  unfold mux_regex_match_start, mux_regex_match_end, mux_regex_match_text, mux_regex_match_capture, match_entry, match_handle, positive.
  rewrite (proj2 (Z.ltb_lt 0 k)) by done. rewrite Hm. cbn. rewrite E1, E2. unfold capture_at. cbn. by rewrite E3.
Qed.

(** ** Replacing by a callback *)

Lemma replace_loop_spec s f all : forall done todo output st, s = done ++ todo ->
  (forall cs, cs ∈ all -> captures_ok s cs) -> in_order (octets done) all ->
  exists pieces rest, todo = flat_map (fun p => p.1 ++ p.2) pieces ++ rest /\ length pieces = length all /\
    replace_loop s (Closure (fun t st => (StringResult (f t), st))) all (octets done) output st =
      Some (Ok (OfString (output ++ flat_map (fun p => p.1 ++ f p.2) pieces ++ rest)), st).
Proof.
  induction all as [|cs all IH]; intros done todo output st Es Hall Ho; cbn [replace_loop].
  - exists [], todo. rewrite Es, cut_complete. done.
  - destruct (Hall cs ltac:(by left)) as [(a & b & rest & ->) Hspan]. destruct Ho as [Hle Ho].
    destruct (span_slice s a b (Hspan (a, b) ltac:(by left))) as (pre & mid & post & Es2 & -> & -> & Esl & _ & _).
    rewrite Es in Es2. destruct (cuts_nested done todo pre (mid ++ post) Es2 Hle) as (gap & -> & ->).
    assert (Eg : slice s (octets done) (octets (done ++ gap)) = Some gap).
    { unfold slice. rewrite Es, app_assoc, cut_complete, cut_complete. done. }
    rewrite Eg. cbn [mbind option_bind]. rewrite Esl. cbn [mbind option_bind invoke_string_callback].
    destruct (IH ((done ++ gap) ++ mid) post (output ++ gap ++ f mid) st) as (pieces & tail & -> & Hl & ->).
    { rewrite Es. by rewrite <- !app_assoc. } { intros; apply Hall; by right. } { done. }
    exists ((gap, mid) :: pieces), tail. cbn. rewrite <- !app_assoc. split_and!; [done|lia|done].
Qed.

(** Replacing cuts the text into the pieces between the matches and the matches, and puts what
    the callback makes of a match in its place; nothing else changes, and nothing panics. *)
Lemma regex_replace_with_pieces `{!RegexLaws} r s f st e : regex_handle r ≫= (fun h => regexes st !! h) = Some e ->
  exists pieces rest, s = flat_map (fun p => p.1 ++ p.2) pieces ++ rest /\ length pieces = length (captures_iter (regex e) s) /\
    mux_regex_replace_with r (StringArg s) (Closure (fun t st => (StringResult (f t), st))) st =
      Some (Ok (OfString (flat_map (fun p => p.1 ++ f p.2) pieces ++ rest)), st).
Proof.
  intros He. unfold mux_regex_replace_with, subject, regex_entry. destruct (regex_handle r) as [h|]; [|done].
  cbn in He. cbn. rewrite He. cbn. apply (replace_loop_spec s f _ [] s [] st eq_refl); [apply law_captures|apply law_in_order].
Qed.

End Regex.
