(* ===== verification/Poller.v ===== *)
(** * Readiness polling ([src/src/poller.rs])

    Pollers and events are entries of two tables, counted by the objects that name them and
    numbered by one counter.  A poller keeps the sockets registered with it by token.  The
    operating system is the class [PollOs]: its readiness queues, and the duplicates of
    sockets that are handed to them.  Calls are sequential; an error is the message of the
    [NetError]. *)

From S2P Require Import Prelude Str Utf8.

Inductive Kind : Type := TcpStream | TcpListener | UdpSocket.

(** [RegisteredSource]: the duplicate of a socket. *)
Record RegisteredSource : Type := mk_source { kind : Kind; descriptor : Z }.

Inductive Interest : Type := Readable | Writable | Both.

(** What the queue reports ([mio::event::Event]). *)
Record Event : Type := mk_event {
  token : Z; is_readable : bool; is_writable : bool; is_error : bool; is_read_closed : bool; is_write_closed : bool }.

(** [clone_socket] is [clone_tcp_stream], [clone_tcp_listener] or [clone_udp_socket] of
    [src/src/net.rs] on the argument; [poll_wait] takes milliseconds, [None] for ever. *)
Class PollOs (W : Type) := {
  Poll : Type;
  poll_new : W -> result Poll text * W;
  poll_register : Poll -> RegisteredSource -> Z -> Interest -> W -> result unit text * W;
  poll_deregister : Poll -> RegisteredSource -> W -> result unit text * W;
  poll_wait : Poll -> option Z -> W -> result (list Event) text * W;
  poll_drop : Poll -> W -> W;
  clone_socket : Kind -> Z -> W -> result Z text * W;
  set_nonblocking : Z -> W -> result unit text * W;
  close : Z -> W -> W;
}.

Inductive poll_arg : Type := NullArg | PollerArg (handle : option Z) | EventArg (handle : option Z) | OtherArg.

Inductive poll_value : Type := OfPoller (h : Z) | OfEvent (h : Z) | OfInt (i : Z) | OfBool (b : bool) | OfUnit | OfList (vs : list poll_value).

Section Poller.
Context {W : Type} `{PollOs W}.

(** [PollerEntry] with its [PollerState]; [events] is only a buffer. *)
Record PollerEntry : Type := mk_poller { poll : Poll; sources : gmap Z RegisteredSource; next_token : Z; refs : Z }.

Record PollEventEntry : Type := mk_event_entry {
  ev_token : Z; ev_readable : bool; ev_writable : bool; ev_error : bool; ev_closed : bool; ev_refs : Z }.

(** [POLLERS], [EVENTS], [NEXT_ID] and the operating system. *)
Record poll_state : Type := mk_state { pollers : gmap Z PollerEntry; events : gmap Z PollEventEntry; next : Z; world : W }.

Definition set_pollers (m : gmap Z PollerEntry) (st : poll_state) : poll_state := mk_state m (events st) (next st) (world st).
Definition set_events (m : gmap Z PollEventEntry) (st : poll_state) : poll_state := mk_state (pollers st) m (next st) (world st).
Definition set_world (w : W) (st : poll_state) : poll_state := mk_state (pollers st) (events st) (next st) w.

Definition answer (A : Type) : Type := result A text.

Definition next_id (st : poll_state) : Z * poll_state :=
  (next st, mk_state (pollers st) (events st) (if next st =? i64_max then 1 else next st + 1) (world st)).

(** [handle], for the two classes. *)
Definition checked_handle (h : option Z) (label : string) : answer Z :=
  match h with
  | None => Err (txt label ++ txt " value is invalid")
  | Some h => if 0 <? h then Ok h else Err (txt label ++ txt " value is invalid")
  end.
Definition poller_handle (v : poll_arg) : answer Z :=
  match v with PollerArg h => checked_handle h "Poller" | _ => Err (txt "expected Poller value") end.
Definition event_handle (v : poll_arg) : answer Z :=
  match v with EventArg h => checked_handle h "PollEvent" | _ => Err (txt "expected PollEvent value") end.

Definition with_refs (n : Z) (e : PollerEntry) : PollerEntry := mk_poller (poll e) (sources e) (next_token e) n.
Definition with_event_refs (n : Z) (e : PollEventEntry) : PollEventEntry :=
  mk_event_entry (ev_token e) (ev_readable e) (ev_writable e) (ev_error e) (ev_closed e) n.

Definition copy_poller (id : Z) (st : poll_state) : Z * poll_state :=
  match pollers st !! id with
  | Some e => (id, set_pollers (<[id := with_refs (refs e + 1) e]> (pollers st)) st)
  | None => (0, st)
  end.

Definition copy_event (id : Z) (st : poll_state) : Z * poll_state :=
  match events st !! id with
  | Some e => (id, set_events (<[id := with_event_refs (ev_refs e + 1) e]> (events st)) st)
  | None => (0, st)
  end.

(** Dropping the state of a poller closes its sockets and its queue. *)
Definition drop_state (e : PollerEntry) (w : W) : W :=
  poll_drop (poll e) (foldr (fun '(_, s) w => close (descriptor s) w) w (map_to_list (sources e))).

(** The count goes down only from a positive one, and the entry goes with the last name. *)
Definition drop_poller (id : Z) (st : poll_state) : poll_state :=
  match pollers st !! id with
  | Some e =>
      if 0 <? refs e then
        if refs e =? 1 then set_world (drop_state e (world st)) (set_pollers (delete id (pollers st)) st)
        else set_pollers (<[id := with_refs (refs e - 1) e]> (pollers st)) st
      else st
  | None => st
  end.

Definition drop_event (id : Z) (st : poll_state) : poll_state :=
  match events st !! id with
  | Some e =>
      let n := Z.max 0 (ev_refs e - 1) in
      if n =? 0 then set_events (delete id (events st)) st else set_events (<[id := with_event_refs n e]> (events st)) st
  | None => st
  end.

Definition interest (readable writable : Z) : answer Interest :=
  match negb (readable =? 0), negb (writable =? 0) with
  | false, false => Err (txt "poll registration requires readable or writable interest")
  | true, false => Ok Readable
  | false, true => Ok Writable
  | true, true => Ok Both
  end.

(** [with_poller] and [with_poller_id]: the closure gets the state of the entry. *)
Definition with_poller {R} (v : poll_arg) (f : PollerEntry -> poll_state -> answer R * PollerEntry * poll_state) (st : poll_state) : answer R * poll_state :=
  match poller_handle v with
  | Err m => (Err m, st)
  | Ok id =>
      match pollers st !! id with
      | None => (Err (txt "Poller is closed"), st)
      | Some e => let '(r, e, st) := f e st in (r, set_pollers (<[id := e]> (pollers st)) st)
      end
  end.

Definition insert_event (e : Event) (allocated : bool) (st : poll_state) : answer poll_value * poll_state :=
  let '(id, st) := next_id st in
  let entry := mk_event_entry (as_i64 (token e)) (is_readable e) (is_writable e) (is_error e) (is_read_closed e || is_write_closed e) 1 in
  let st := set_events (<[id := entry]> (events st)) st in
  if allocated then (Ok (OfEvent id), st)
  else (Err (txt "could not allocate poller object"), set_events (delete id (events st)) st).

(** The closure of [register_source]; a source that is refused is dropped. *)
Definition register_in (source : RegisteredSource) (i : Interest) (e : PollerEntry) (st : poll_state) : answer Z * PollerEntry * poll_state :=
  let t := next_token e in
  let e := mk_poller (poll e) (sources e) (if t =? u64_max then 1 else t + 1) (refs e) in
  match poll_register (poll e) source t i (world st) with
  | (Ok _, w) => (Ok (as_i64 t), mk_poller (poll e) (<[t := source]> (sources e)) (next_token e) (refs e), set_world w st)
  | (Err m, w) => (Err (txt "poller register failed: " ++ m), e, set_world (close (descriptor source) w) st)
  end.

(** A source that is not taken is dropped here too. *)
Definition register_source (v : poll_arg) (source : RegisteredSource) (readable writable : Z) (st : poll_state) : answer Z * poll_state :=
  let discard st := set_world (close (descriptor source) (world st)) st in
  match interest readable writable with
  | Err m => (Err m, discard st)
  | Ok i =>
      match poller_handle v with
      | Err m => (Err m, discard st)
      | Ok id =>
          match pollers st !! id with
          | None => (Err (txt "Poller is closed"), discard st)
          | Some _ => with_poller v (register_in source i) st
          end
      end
  end.

Definition mux_poller_new (allocated : bool) (st : poll_state) : answer poll_value * poll_state :=
  match poll_new (world st) with
  | (Err m, w) => (Err (txt "poller creation failed: " ++ m), set_world w st)
  | (Ok p, w) =>
      let '(id, st) := next_id (set_world w st) in
      let e := mk_poller p ∅ 1 1 in
      if allocated then (Ok (OfPoller id), set_pollers (<[id := e]> (pollers st)) st)
      else (Err (txt "could not allocate poller object"), set_world (drop_state e (world st)) (set_pollers (delete id (pollers st)) st))
  end.

(** Duplicating a socket and making it non-blocking; [message] names what failed. *)
Definition prepare (k : Kind) (socket : Z) (message : string) (st : poll_state) : answer RegisteredSource * poll_state :=
  match clone_socket k socket (world st) with
  | (Err m, w) => (Err m, set_world w st)
  | (Ok fd, w) =>
      match set_nonblocking fd w with
      | (Ok _, w) => (Ok (mk_source k fd), set_world w st)
      | (Err m, w) => (Err (txt message ++ m), set_world (close fd w) st)
      end
  end.

Definition register (k : Kind) (message : string) (v : poll_arg) (socket readable writable : Z) (st : poll_state) : answer poll_value * poll_state :=
  match prepare k socket message st with
  | (Err m, st) => (Err m, st)
  | (Ok source, st) =>
      match register_source v source readable writable st with
      | (Ok t, st) => (Ok (OfInt t), st)
      | (Err m, st) => (Err m, st)
      end
  end.

Definition mux_poller_register_tcp (v : poll_arg) (stream readable writable : Z) : poll_state -> answer poll_value * poll_state :=
  register TcpStream "poller tcp nonblocking failed: " v stream readable writable.
Definition mux_poller_register_listener (v : poll_arg) (listener : Z) : poll_state -> answer poll_value * poll_state :=
  register TcpListener "poller listener nonblocking failed: " v listener 1 0.
Definition mux_poller_register_udp (v : poll_arg) (socket readable writable : Z) : poll_state -> answer poll_value * poll_state :=
  register UdpSocket "poller udp nonblocking failed: " v socket readable writable.

(** The entry leaves the table before the queue is asked; the source is dropped either way. *)
Definition mux_poller_deregister (v : poll_arg) (t : Z) (st : poll_state) : answer poll_value * poll_state :=
  if t <=? 0 then (Err (txt "poll token must be positive"), st)
  else
    with_poller v (fun e st =>
      match sources e !! t with
      | None => (Err (txt "poll token is not registered"), e, st)
      | Some source =>
          let e := mk_poller (poll e) (delete t (sources e)) (next_token e) (refs e) in
          match poll_deregister (poll e) source (world st) with
          | (Ok _, w) => (Ok OfUnit, e, set_world (close (descriptor source) w) st)
          | (Err m, w) => (Err (txt "poller deregister failed: " ++ m), e, set_world (close (descriptor source) w) st)
          end
      end) st.

(** The first event that cannot be allocated ends the loop; the events made before it are dropped
    with the list. *)
Fixpoint insert_events (es : list Event) (i : nat) (allocated : nat -> bool) (acc : list poll_value) (st : poll_state)
    : answer (list poll_value) * poll_state :=
  match es with
  | [] => (Ok (rev acc), st)
  | e :: es =>
      match insert_event e (allocated i) st with
      | (Ok v, st) => insert_events es (S i) allocated (v :: acc) st
      | (Err m, st) => (Err m, foldr (fun v st => match v with OfEvent id => drop_event id st | _ => st end) st acc)
      end
  end.

Definition mux_poller_poll (v : poll_arg) (timeout_ms : Z) (allocated : nat -> bool) (st : poll_state) : answer poll_value * poll_state :=
  if timeout_ms <? -1 then (Err (txt "poll timeout must be -1 or non-negative milliseconds"), st)
  else
    let timeout := if 0 <=? timeout_ms then Some timeout_ms else None in
    match with_poller v (fun e st =>
      match poll_wait (poll e) timeout (world st) with
      | (Err m, w) => (Err (txt "poller wait failed: " ++ m), e, set_world w st)
      | (Ok es, w) => let '(r, st) := insert_events es 0 allocated [] (set_world w st) in (r, e, st)
      end) st with
    | (Ok vs, st) => (Ok (OfList vs), st)
    | (Err m, st) => (Err m, st)
    end.

(** ** Events *)

Inductive PollEventField : Type := Token | FReadable | FWritable | FError | FClosed.

Definition event_field (v : poll_arg) (f : PollEventField) (st : poll_state) : answer poll_value :=
  let? id := event_handle v in
  match events st !! id with
  | None => Err (txt "PollEvent is closed")
  | Some e =>
      Ok match f with
         | Token => OfInt (ev_token e)
         | FReadable => OfBool (ev_readable e)
         | FWritable => OfBool (ev_writable e)
         | FError => OfBool (ev_error e)
         | FClosed => OfBool (ev_closed e)
         end
  end.

Definition mux_poll_event_token (v : poll_arg) : poll_state -> answer poll_value := event_field v Token.
Definition mux_poll_event_readable (v : poll_arg) : poll_state -> answer poll_value := event_field v FReadable.
Definition mux_poll_event_writable (v : poll_arg) : poll_state -> answer poll_value := event_field v FWritable.
Definition mux_poll_event_error (v : poll_arg) : poll_state -> answer poll_value := event_field v FError.
Definition mux_poll_event_closed (v : poll_arg) : poll_state -> answer poll_value := event_field v FClosed.

(** ** Tokens *)

(** Tokens in use are below the next one. *)
Definition tokens_ok (e : PollerEntry) : Prop :=
  1 <= next_token e /\ forall t, is_Some (sources e !! t) -> 1 <= t < next_token e.

(** A registration takes a token nobody has, keeps the others, and can be undone once. *)
Lemma register_fresh id e source i st t e' st' : tokens_ok e -> next_token e < i64_max ->
  register_in source i e st = (Ok t, e', st') ->
  tokens_ok e' /\ sources e !! t = None /\ sources e' = <[t := source]> (sources e) /\
  (0 < id -> pollers st' !! id = Some e' ->
   forall r st2, mux_poller_deregister (PollerArg (Some id)) t st' = (r, st2) ->
   (exists e2, pollers st2 !! id = Some e2 /\ sources e2 = sources e) /\
   (mux_poller_deregister (PollerArg (Some id)) t st2).1 = Err (txt "poll token is not registered")).
Proof.
  intros [Hn Ht] Hm. unfold register_in. destruct (poll_register _ _ _ _ _) as [[[]|m] w]; [|done].
  assert (E : as_i64 (next_token e) = next_token e) by (apply as_i64_small; width). rewrite E.
  rewrite (proj2 (Z.eqb_neq _ _)) by width. cbn [poll sources next_token refs]. intros [= <- <- <-].
  assert (Hf : sources e !! next_token e = None).
  { destruct (sources e !! next_token e) eqn:Es; [|done]. specialize (Ht (next_token e) ltac:(eauto)). lia. }
  split_and!; [| |done|].
  - split; cbn; [lia|]. intros t. destruct (decide (t = next_token e)) as [->|]; [lia|]. rewrite lookup_insert_ne by done. intros ?%Ht. lia.
  - done.
  - intros Hid Hp r st2. unfold mux_poller_deregister, with_poller, poller_handle, checked_handle.
    rewrite (proj2 (Z.leb_gt _ _)), (proj2 (Z.ltb_lt _ _)) by lia. rewrite Hp. cbn [sources]. rewrite lookup_insert_eq. cbn [poll next_token refs].
    destruct (poll_deregister _ _ _) as [[[]|m] w']; intros [= <- <-]; cbn [pollers set_pollers set_world]; rewrite lookup_insert_eq;
      (split; [eexists; split; [done|]; cbn [sources]; rewrite delete_insert_eq; by rewrite delete_id|]);
      cbn [sources]; by rewrite lookup_delete_eq.
Qed.

(** ** Events read what was reported *)

Lemma insert_events_spec es : forall i acc st, 0 < next st -> next st + Z.of_nat (length es) < i64_max ->
  exists ids st', insert_events es i (fun _ => true) acc st = (Ok (rev acc ++ (OfEvent <$> ids)), st') /\
    (forall id e, events st !! id = Some e -> id < next st -> events st' !! id = Some e) /\
    Forall2 (fun id e => 0 < id /\ events st' !! id =
      Some (mk_event_entry (as_i64 (token e)) (is_readable e) (is_writable e) (is_error e) (is_read_closed e || is_write_closed e) 1)) ids es.
Proof.
  induction es as [|e es IH]; intros i acc st Hn Hb; cbn [insert_events].
  - exists [], st. cbn. rewrite app_nil_r. split_and!; [done|done|constructor].
  - cbn [length] in Hb. unfold insert_event, next_id. cbv beta iota zeta. rewrite (proj2 (Z.eqb_neq _ _)) by lia.
    destruct (IH (S i) (OfEvent (next st) :: acc)
      (set_events (<[next st := mk_event_entry (as_i64 (token e)) (is_readable e) (is_writable e) (is_error e) (is_read_closed e || is_write_closed e) 1]> (events st))
        (mk_state (pollers st) (events st) (next st + 1) (world st)))) as (ids & st' & E & Hk & Hall); [cbn; lia..|].
    exists (next st :: ids), st'. cbn [events] in E |- *. rewrite E. cbn [rev]. rewrite <- app_assoc. split_and!; [done| |].
    + intros id e' He Hid. apply Hk; cbn [events set_events next]; [|lia]. by rewrite lookup_insert_ne by lia.
    + constructor; [|done]. split; [done|]. apply Hk; cbn [events set_events next]; [|lia]. by rewrite lookup_insert_eq.
Qed.

Lemma poll_events_read v ms st id e es w : poller_handle v = Ok id -> pollers st !! id = Some e -> -1 <= ms ->
  poll_wait (poll e) (if 0 <=? ms then Some ms else None) (world st) = (Ok es, w) ->
  0 < next st -> next st + Z.of_nat (length es) < i64_max ->
  exists ids st', mux_poller_poll v ms (fun _ => true) st = (Ok (OfList (OfEvent <$> ids)), st') /\
    Forall2 (fun id e =>
      mux_poll_event_token (EventArg (Some id)) st' = Ok (OfInt (as_i64 (token e))) /\
      mux_poll_event_readable (EventArg (Some id)) st' = Ok (OfBool (is_readable e)) /\
      mux_poll_event_writable (EventArg (Some id)) st' = Ok (OfBool (is_writable e)) /\
      mux_poll_event_error (EventArg (Some id)) st' = Ok (OfBool (is_error e)) /\
      mux_poll_event_closed (EventArg (Some id)) st' = Ok (OfBool (is_read_closed e || is_write_closed e))) ids es.
Proof.
  intros Hh He Hms Hw Hn Hb. unfold mux_poller_poll, with_poller. rewrite (proj2 (Z.ltb_ge _ _)) by lia. rewrite Hh, He, Hw.
  destruct (insert_events_spec es 0 [] (set_world w st)) as (ids & st' & E & _ & Hall); [done..|]. rewrite E. cbn [rev app].
  eexists ids, _. split; [done|]. eapply Forall2_impl; [done|]. intros k ev [Hk Hv].
  unfold mux_poll_event_token, mux_poll_event_readable, mux_poll_event_writable, mux_poll_event_error, mux_poll_event_closed, event_field, event_handle, checked_handle.
  rewrite (proj2 (Z.ltb_lt 0 k)) by done. cbn [result_bind events set_pollers]. by rewrite Hv.
Qed.

End Poller.
