(* ===== verification/Io.v ===== *)
(** * Files, directories and the console ([src/src/io.rs])

    A C string is its octets, [None] for the null pointer; a path or a text is octets in UTF-8.
    The operating system is the class [FsOs].  Directories are entries of a table counted by
    the objects that name them.  An error is the category of the [FsError], its message and,
    where the source gives it, the path.  Loops over input carry fuel; the lemmas at the end
    give the rounds that are enough. *)

From S2P Require Import Prelude AssocList Value Str Utf8 StdErrors DynValue Display Path.

(** [Vec::len]. *)
Definition llen {A} (l : list A) : Z := Z.of_nat (length l).

Inductive IoKind : Type := IoNotFound | IoPermissionDenied | IoAlreadyExists | IoInvalidInput | IoInvalidData | IoOther.

Record io_error : Type := mk_io_error { io_kind : IoKind; shown : list Z }.

(** What [stat] reports. *)
Record metadata : Type := mk_metadata { is_file : bool; is_dir : bool; len : Z; mode : Z; is_symlink : bool }.

Class FsOs (W : Type) := {
  stdin_fill : W -> result (list Z) io_error * W;
  stdin_consume : Z -> W -> W;
  stdout_print : list Z -> W -> option W;
  stdout_flush : W -> W;
  file_open : path -> W -> result Z io_error * W;
  file_read : Z -> Z -> W -> result (list Z) io_error * W;
  file_write_all : Z -> list Z -> W -> result unit io_error * W;
  file_metadata : Z -> W -> result metadata io_error;
  file_close : Z -> W -> W;
  path_metadata : path -> W -> result metadata io_error;
  symlink_metadata : path -> W -> result metadata io_error;
  set_permissions : path -> Z -> W -> result unit io_error * W;
  read_link : path -> W -> result path io_error;
  canonicalize : path -> W -> result path io_error;
  current_dir : W -> result path io_error;
  temp_dir : W -> path;
  process_id : W -> Z;
  create_dir : path -> W -> result unit io_error * W;
  create_new : path -> W -> result unit io_error * W;
  create_dir_all : path -> W -> result unit io_error * W;
  fs_write : path -> list Z -> W -> result unit io_error * W;
  remove_file : path -> W -> result unit io_error * W;
  remove_dir_all : path -> W -> result unit io_error * W;
  fs_copy : path -> path -> W -> result unit io_error * W;
  fs_rename : path -> path -> W -> result unit io_error * W;
  read_dir : path -> W -> result Z io_error * W;
  dir_next : Z -> W -> option (result (list Z) io_error) * W;
  dir_close : Z -> W -> W;
}.

Definition MAX_FILE_READ_BYTES : Z := 16 * 1024 * 1024.
Definition MAX_STDIN_LINE_BYTES : Z := 16 * 1024 * 1024.
Definition FILE_READ_CHUNK_BYTES : Z := 8192.
Definition MAX_DIRECTORY_ENTRIES : Z := 65536.
Definition MAX_DIRECTORY_NAME_BYTES : Z := 16 * 1024 * 1024.

Inductive fs_value : Type :=
| OfString (s : list Z)
| OfBytes (s : list Z)
| OfBool (b : bool)
| OfInt (i : Z)
| OfUnit
| OfList (l : list (list Z))
| OfOptional (s : option (list Z))
| OfDirectory (id : Z).

Record fs_error : Type := mk_fs_error { e_kind : StdErrorKind; e_message : list Z; e_path : option (list Z) }.

Definition fs_answer : Type := result fs_value fs_error.

(** [CStr::to_string_lossy]. *)
Definition lossy_text (s : list Z) : list Z := lossy (length s) s.

Definition io_err (m : list Z) : fs_answer := Err (mk_fs_error Invalid m None).
Definition io_err_kind (k : StdErrorKind) (m : list Z) : fs_answer := Err (mk_fs_error k m None).
Definition io_err_kind_path (k : StdErrorKind) (m path : list Z) : fs_answer := Err (mk_fs_error k m (Some path)).

Definition std_kind (k : IoKind) : StdErrorKind :=
  match k with
  | IoNotFound => NotFound
  | IoPermissionDenied => Permission
  | IoInvalidInput | IoInvalidData => Invalid
  | IoAlreadyExists | IoOther => Io
  end.

Definition io_err_io_path (context : list Z) (e : io_error) (path : list Z) : fs_answer :=
  io_err_kind_path (std_kind (io_kind e)) (context ++ txt ": " ++ shown e) path.

(** [format!("{verb} '{path}'")]. *)
Definition about (verb : string) (path : list Z) : list Z := txt verb ++ txt " '" ++ path ++ txt "'".

(** [Permissions::readonly] and [set_readonly] on Unix. *)
Definition readonly (mode : Z) : bool := Z.land mode 146 =? 0.
Definition set_readonly (b : bool) (mode : Z) : Z := if b then Z.land mode (Z.lnot 146) else Z.lor mode 146.

Definition invalid_data (m : string) : io_error := mk_io_error IoInvalidData (txt m).

Definition directory_list_budget (entry_count name_bytes : Z) (name : list Z) : result (Z * Z) io_error :=
  if MAX_DIRECTORY_ENTRIES <=? entry_count then Err (invalid_data "directory listing exceeds the 65536-entry limit")
  else if u64_max <? name_bytes + llen name then Err (invalid_data "directory listing name data exceeds the supported range")
  else if MAX_DIRECTORY_NAME_BYTES <? name_bytes + llen name then Err (invalid_data "directory listing names exceed the 16 MiB limit")
  else Ok (entry_count + 1, name_bytes + llen name).

Record DirectoryEntry : Type := mk_directory { entries : Z; refs : Z; entry_count : Z; entry_name_bytes : Z }.

(** What a pointer to a value leads to, for directories. *)
Inductive dir_arg : Type := NullArg | StringArg (s : list Z) | BytesArg (s : list Z) | DirectoryArg (id : option Z) | OtherArg.

Section Io.
Context {W : Type} `{FsOs W}.

(** The [Display] of [FromUtf8Error]. *)
Context (utf8_error : list Z -> list Z).

(** [DIRECTORIES], [NEXT_DIRECTORY], [TEMP_COUNTER] and the operating system. *)
Record io_state : Type := mk_io { directories : gmap Z DirectoryEntry; next_directory : Z; temp_counter : Z; world : W }.

Definition set_directories (m : gmap Z DirectoryEntry) (st : io_state) : io_state :=
  mk_io m (next_directory st) (temp_counter st) (world st).
Definition set_world (w : W) (st : io_state) : io_state := mk_io (directories st) (next_directory st) (temp_counter st) w.

(** ** The console *)

Definition print (s : list Z) (st : io_state) : option io_state :=
  stdout_print s (world st) ≫= fun w => Some (set_world (stdout_flush w) st).

Definition mux_print_cstr (s : option (list Z)) (st : io_state) : option io_state :=
  match s with None => Some st | Some s => print (lossy_text s) st end.

(** [println!("{val}")]; [shown_value] is the [Display] of the value. *)
Definition mux_print (shown_value : list Z) (st : io_state) : option io_state :=
  stdout_print (shown_value ++ [10]) (world st) ≫= fun w => Some (set_world w st).

Definition mux_flush_stdout (st : io_state) : io_state := set_world (stdout_flush (world st)) st.

(** [position(|byte| *byte == b'\n')]. *)
Definition newline_at (buffer : list Z) : option nat := find_sub [10] buffer.

(** The loop of [read_bounded_line]. *)
Fixpoint line_loop (fuel : nat) (input : list Z) (w : W) : option (result (list Z) io_error * W) :=
  match fuel with
  | O => None
  | S fuel =>
      match stdin_fill w with
      | (Err e, w) => Some (Err e, w)
      | (Ok [], w) => Some (Ok input, w)
      | (Ok buffer, w) =>
          let newline := newline_at buffer in
          let count := match newline with Some p => S p | None => length buffer end in
          let next_size := llen input + Z.of_nat count in
          if u64_max <? next_size then Some (Err (invalid_data "stdin line exceeds the supported read range"), w)
          else if MAX_STDIN_LINE_BYTES <? next_size then Some (Err (invalid_data "stdin line exceeds the 16 MiB read limit"), w)
          else
            let input := input ++ take count buffer in
            let w := stdin_consume (Z.of_nat count) w in
            match newline with Some _ => Some (Ok input, w) | None => line_loop fuel input w end
      end
  end.

(** The text is decoded, trimmed and encoded again. *)
Definition read_bounded_line (fuel : nat) (w : W) : option (result (list Z) io_error * W) :=
  line_loop fuel [] w ≫= fun '(r, w) =>
  Some (match r with
        | Err e => Err e
        | Ok input =>
            match utf8_decode input with
            | Some t => Ok (utf8 (trim t))
            | None => Err (mk_io_error IoInvalidData (txt "stdin is not valid UTF-8: " ++ utf8_error input))
            end
        end, w).

Definition read_line (fuel : nat) (st : io_state) : option (result (list Z) (list Z) * io_state) :=
  read_bounded_line fuel (world st) ≫= fun '(r, w) =>
  Some (match r with Ok s => Ok s | Err e => Err (shown e) end, set_world w st).

(** [CString::new] refuses a text with a NUL. *)
Definition cstring (s : list Z) : option (list Z) := if existsb (Z.eqb 0) s then None else Some s.

Definition mux_read_line (fuel : nat) (st : io_state) : option (option (list Z) * io_state) :=
  read_line fuel st ≫= fun '(r, st) => Some (match r with Ok s => cstring s | Err _ => None end, st).

Definition mux_read_int (fuel : nat) (st : io_state) : option (Z * io_state) :=
  read_line fuel st ≫= fun '(r, st) =>
  Some (match r with
        | Ok s =>
            match utf8_decode s with
            | Some t => match from_str_radix 10 (trim t) with Some i => i | None => 0 end
            | None => 0
            end
        | Err _ => 0
        end, st).

(** ** Whole files *)

(** The loop of [read_bounded]. *)
Fixpoint read_loop (fuel : nat) (fd : Z) (contents : list Z) (w : W) : option (result (list Z) io_error * W) :=
  match fuel with
  | O => None
  | S fuel =>
      match file_read fd FILE_READ_CHUNK_BYTES w with
      | (Err e, w) => Some (Err e, w)
      | (Ok [], w) => Some (Ok contents, w)
      | (Ok bytes, w) =>
          let new_size := llen contents + llen bytes in
          if u64_max <? new_size then Some (Err (invalid_data "file size exceeds the supported read range"), w)
          else if MAX_FILE_READ_BYTES <? new_size then Some (Err (invalid_data "file exceeds the 16 MiB read limit"), w)
          else read_loop fuel fd (contents ++ bytes) w
      end
  end.

Definition read_bounded (fuel : nat) (fd : Z) (w : W) : option (result (list Z) io_error * W) := read_loop fuel fd [] w.

Definition read_bounded_path (fuel : nat) (p : path) (w : W) : option (result (list Z) io_error * W) :=
  match file_open p w with
  | (Err e, w) => Some (Err e, w)
  | (Ok fd, w) =>
      let too_large := match file_metadata fd w with Ok m => is_file m && (MAX_FILE_READ_BYTES <? len m) | Err _ => false end in
      if too_large then Some (Err (invalid_data "file exceeds the 16 MiB read limit"), file_close fd w)
      else read_bounded fuel fd w ≫= fun '(r, w) => Some (r, file_close fd w)
  end.

(** The functions of the crate on open files; a file closes when it is dropped. *)
Definition open_file (p : path) (w : W) : result Z (list Z) * W :=
  match file_open p w with (Ok fd, w) => (Ok fd, w) | (Err e, w) => (Err (shown e), w) end.
Definition read_file (fuel : nat) (fd : Z) (w : W) : option (result (list Z) (list Z) * W) :=
  read_bounded fuel fd w ≫= fun '(r, w) =>
  Some (match r with Ok s => if is_utf8 s then Ok s else Err (utf8_error s) | Err e => Err (shown e) end, file_close fd w).
Definition write_file (fd : Z) (content : list Z) (w : W) : result unit (list Z) * W :=
  let '(r, w) := file_write_all fd content w in (match r with Ok _ => Ok tt | Err e => Err (shown e) end, file_close fd w).

Definition mux_value_from_string (s : option (list Z)) : option (list Z) := lossy_text <$> s.

Definition mux_open_file (p : option (list Z)) (st : io_state) : option Z * io_state :=
  match p with
  | None => (None, st)
  | Some p =>
      match file_open (lossy_text p) (world st) with
      | (Ok fd, w) => (Some fd, set_world w st)
      | (Err _, w) => (None, set_world w st)
      end
  end.

Definition mux_read_file (fuel : nat) (fd : option Z) (st : io_state) : option (option (list Z) * io_state) :=
  match fd with
  | None => Some (None, st)
  | Some fd =>
      read_bounded fuel fd (world st) ≫= fun '(r, w) =>
      Some (match r with Ok s => if is_utf8 s then cstring s else None | Err _ => None end, set_world w st)
  end.

Definition mux_write_file (fd : option Z) (content : option (list Z)) (st : io_state) : bool * io_state :=
  match fd, content with
  | Some fd, Some c =>
      match file_write_all fd (lossy_text c) (world st) with
      | (Ok _, w) => (true, set_world w st)
      | (Err _, w) => (false, set_world w st)
      end
  | _, _ => (false, st)
  end.

Definition mux_close_file (fd : option Z) (st : io_state) : io_state :=
  match fd with Some fd => set_world (file_close fd (world st)) st | None => st end.

(** The guard that operations on one path begin with. *)
Definition on_path {A} (p : option (list Z)) (refused : fs_answer -> A) (f : list Z -> A) : A :=
  match p with None => refused (io_err (txt "path is null")) | Some p => f (lossy_text p) end.

(** An operation that only reads. *)
Definition query (p : option (list Z)) (f : list Z -> fs_answer) : fs_answer := on_path p id f.

(** An operation that answers nothing. *)
Definition finish (verb : list Z) (p : list Z) (r : result unit io_error * W) (st : io_state) : fs_answer * io_state :=
  (match r.1 with Ok _ => Ok OfUnit | Err e => io_err_io_path verb e p end, set_world r.2 st).

Definition update (p : option (list Z)) (verb : string) (f : path -> W -> result unit io_error * W) (st : io_state) : fs_answer * io_state :=
  on_path p (fun a => (a, st)) (fun p => finish (about verb p) p (f p (world st)) st).

Definition mux_io_read_file (fuel : nat) (p : option (list Z)) (st : io_state) : option (fs_answer * io_state) :=
  on_path p (fun a => Some (a, st)) (fun p =>
    read_bounded_path fuel p (world st) ≫= fun '(r, w) =>
    let r := match r with Ok s => if is_utf8 s then Ok s else Err (invalid_data "file is not valid UTF-8") | Err e => Err e end in
    Some (match r with Ok s => Ok (OfString s) | Err e => io_err_io_path (about "Failed to read file" p) e p end, set_world w st)).

Definition mux_io_read_bytes (fuel : nat) (p : option (list Z)) (st : io_state) : option (fs_answer * io_state) :=
  on_path p (fun a => Some (a, st)) (fun p =>
    read_bounded_path fuel p (world st) ≫= fun '(r, w) =>
    Some (match r with Ok s => Ok (OfBytes s) | Err e => io_err_io_path (about "Failed to read file" p) e p end, set_world w st)).

Definition mux_io_write_file (p content : option (list Z)) (st : io_state) : fs_answer * io_state :=
  match p, content with
  | Some p, Some c => let p := lossy_text p in finish (about "Failed to write file" p) p (fs_write p (lossy_text c) (world st)) st
  | _, _ => (io_err (txt "path or content is null"), st)
  end.

Definition mux_io_write_bytes (p : option (list Z)) (data : dir_arg) (st : io_state) : fs_answer * io_state :=
  match p, data with
  | None, _ | _, NullArg => (io_err (txt "path or data is null"), st)
  | Some p, BytesArg b => let p := lossy_text p in finish (about "Failed to write file" p) p (fs_write p b (world st)) st
  | Some _, _ => (io_err (txt "data must be bytes"), st)
  end.

(** ** Temporary resources *)

(** [mux-{process}-{sequence}] in the directory for temporary files. *)
Definition temp_name (st : io_state) : path :=
  join (temp_dir (world st)) (txt "mux-" ++ mux_int_to_string (process_id (world st)) ++ txt "-" ++ decimal 20 (temp_counter st)).

(** One attempt: the name of the resource and what creating it answered. *)
Definition temp_attempt (directory : bool) (st : io_state) : path * result unit io_error * io_state :=
  let sequence := temp_counter st in
  let p := temp_name st in
  let '(r, w) := (if directory then create_dir else create_new) p (world st) in
  (p, r, mk_io (directories st) (next_directory st) ((sequence + 1) mod 2 ^ 64) w).

Fixpoint temp_loop (attempts : nat) (directory : bool) (st : io_state) : result (list Z) (list Z) * io_state :=
  match attempts with
  | O => (Err (txt "could not allocate a unique temporary path"), st)
  | S attempts =>
      match temp_attempt directory st with
      | (p, Ok _, st) => ((if is_utf8 p then Ok p else Err (txt "temporary path is not valid UTF-8")), st)
      | (_, Err e, st) =>
          match io_kind e with
          | IoAlreadyExists => temp_loop attempts directory st
          | _ => (Err (txt "Failed to create temporary resource: " ++ shown e), st)
          end
      end
  end.

Definition create_temp_path (directory : bool) (st : io_state) : result (list Z) (list Z) * io_state := temp_loop 128 directory st.

Definition temp_answer (r : result (list Z) (list Z) * io_state) : fs_answer * io_state :=
  (match r.1 with Ok p => Ok (OfString p) | Err m => io_err_kind Io m end, r.2).

Definition mux_fs_temp_file (st : io_state) : fs_answer * io_state := temp_answer (create_temp_path false st).
Definition mux_fs_temp_dir (st : io_state) : fs_answer * io_state := temp_answer (create_temp_path true st).

(** ** Properties of paths *)

Definition mux_fs_is_readonly (p : option (list Z)) (st : io_state) : fs_answer :=
  query p (fun p =>
    match path_metadata p (world st) with
    | Ok m => Ok (OfBool (readonly (mode m)))
    | Err e => io_err_io_path (about "Failed to inspect permissions for" p) e p
    end).

Definition mux_fs_set_readonly (p : option (list Z)) (b : bool) (st : io_state) : fs_answer * io_state :=
  on_path p (fun a => (a, st)) (fun p =>
    match path_metadata p (world st) with
    | Err e => (io_err_io_path (about "Failed to inspect permissions for" p) e p, st)
    | Ok m => finish (about "Failed to set permissions for" p) p (set_permissions p (set_readonly b (mode m)) (world st)) st
    end).

(** A path that is answered as a string has to be UTF-8. *)
Definition utf8_path (p : path) (refused : fs_answer) : fs_answer := if is_utf8 p then Ok (OfString p) else refused.

Definition mux_fs_read_link (p : option (list Z)) (st : io_state) : fs_answer :=
  query p (fun p =>
    match read_link p (world st) with
    | Ok target => utf8_path target (io_err_kind_path NotUnicode (txt "symbolic-link target is not valid UTF-8") p)
    | Err e => io_err_io_path (about "Failed to read symbolic link" p) e p
    end).

(** [Path::exists] and the like: an error counts as false. *)
Definition mux_io_exists (p : option (list Z)) (st : io_state) : fs_answer :=
  query p (fun p => Ok (OfBool (match path_metadata p (world st) with Ok _ => true | Err _ => false end))).
Definition mux_io_is_file (p : option (list Z)) (st : io_state) : fs_answer :=
  query p (fun p => Ok (OfBool (match path_metadata p (world st) with Ok m => is_file m | Err _ => false end))).

Definition mux_io_is_dir (p : option (list Z)) (st : io_state) : fs_answer :=
  query p (fun p => Ok (OfBool (match path_metadata p (world st) with Ok m => is_dir m | Err _ => false end))).

Definition mux_io_file_size (p : option (list Z)) (st : io_state) : fs_answer :=
  query p (fun p =>
    match path_metadata p (world st) with
    | Ok m => if i64_max <? len m then io_err_kind_path Range (txt "file size exceeds int range") p else Ok (OfInt (len m))
    | Err e => io_err_io_path (about "Failed to inspect" p) e p
    end).

Definition mux_io_is_symlink (p : option (list Z)) (st : io_state) : fs_answer :=
  query p (fun p =>
    match symlink_metadata p (world st) with
    | Ok m => Ok (OfBool (is_symlink m))
    | Err e => io_err_io_path (about "Failed to inspect" p) e p
    end).

Definition mux_io_remove (p : option (list Z)) : io_state -> fs_answer * io_state := update p "Failed to remove" remove_file.
Definition mux_io_remove_dir_all (p : option (list Z)) : io_state -> fs_answer * io_state := update p "Failed to recursively remove" remove_dir_all.
Definition mux_io_mkdir (p : option (list Z)) : io_state -> fs_answer * io_state := update p "Failed to create directory" create_dir_all.

(** Two paths; the error names the source. *)
Definition update_two (a b : option (list Z)) (message : list Z -> list Z -> list Z) (f : path -> path -> W -> result unit io_error * W) (st : io_state)
    : fs_answer * io_state :=
  match a, b with
  | Some a, Some b => let a := lossy_text a in let b := lossy_text b in finish (message a b) a (f a b (world st)) st
  | _, _ => (io_err (txt "source or destination is null"), st)
  end.

Definition mux_io_copy (a b : option (list Z)) : io_state -> fs_answer * io_state :=
  update_two a b (fun a b => txt "Failed to copy '" ++ a ++ txt "' to '" ++ b ++ txt "'") fs_copy.
Definition mux_io_rename (a b : option (list Z)) : io_state -> fs_answer * io_state :=
  update_two a b (fun a b => txt "Failed to rename '" ++ a ++ txt "' to '" ++ b ++ txt "'") fs_rename.
Definition mux_io_replace_atomic (a b : option (list Z)) : io_state -> fs_answer * io_state :=
  update_two a b (fun a b => txt "Failed to atomically replace '" ++ b ++ txt "' with '" ++ a ++ txt "'") fs_rename.

(** ** Texts of paths *)

Definition mux_io_join (a b : option (list Z)) : fs_answer :=
  match a, b with
  | Some a, Some b =>
      let a := lossy_text a in let b := lossy_text b in
      utf8_path (join a b) (io_err_kind_path NotUnicode (txt "Failed to join paths: invalid UTF-8") (a ++ txt "/" ++ b))
  | _, _ => io_err (txt "path1 or path2 is null")
  end.

Definition mux_io_basename (p : option (list Z)) : fs_answer :=
  query p (fun p =>
    match file_name p with
    | None => Ok (OfString [])
    | Some s => utf8_path s (io_err_kind_path NotUnicode (txt "path basename is not valid UTF-8") p)
    end).

Definition mux_io_dirname (p : option (list Z)) : fs_answer :=
  query p (fun p =>
    match parent p with
    | None => Ok (OfString (txt "."))
    | Some s => utf8_path s (io_err_kind_path NotUnicode (txt "path parent is not valid UTF-8") p)
    end).

Definition mux_io_cwd (st : io_state) : fs_answer :=
  match current_dir (world st) with
  | Ok p => utf8_path p (io_err_kind NotUnicode (txt "working directory is not valid UTF-8"))
  | Err e => io_err_kind Os (txt "Failed to read working directory: " ++ shown e)
  end.

Definition mux_io_absolute (p : option (list Z)) (st : io_state) : fs_answer :=
  query p (fun p =>
    let refused := io_err_kind_path NotUnicode (txt "absolute path is not valid UTF-8") p in
    if is_absolute p then utf8_path p refused
    else
      match current_dir (world st) with
      | Ok cwd => utf8_path (join cwd p) refused
      | Err e => io_err_kind Os (txt "Failed to read working directory: " ++ shown e)
      end).

Definition mux_io_canonical (p : option (list Z)) (st : io_state) : fs_answer :=
  query p (fun p =>
    match canonicalize p (world st) with
    | Ok q => utf8_path q (io_err_kind_path NotUnicode (txt "canonical path is not valid UTF-8") p)
    | Err e => io_err_io_path (about "Failed to canonicalize" p) e p
    end).

(** ** Directories *)

(** The loop of [mux_io_listdir]. *)
Fixpoint list_loop (fuel : nat) (p : list Z) (d : Z) (acc : list (list Z)) (name_bytes : Z) (w : W) : option (fs_answer * W) :=
  match fuel with
  | O => None
  | S fuel =>
      match dir_next d w with
      | (None, w) => Some (Ok (OfList (rev acc)), w)
      | (Some (Err e), w) => Some (io_err_io_path (about "Failed to read an entry in directory" p) e p, w)
      | (Some (Ok name), w) =>
          if negb (is_utf8 name) then
            Some (io_err_kind_path NotUnicode (about "Failed to list directory" p ++ txt ": entry name is not valid UTF-8") p, w)
          else
            match directory_list_budget (llen acc) name_bytes name with
            | Err e => Some (io_err_io_path (about "Failed to list directory" p) e p, w)
            | Ok (_, name_bytes) => list_loop fuel p d (name :: acc) name_bytes w
            end
      end
  end.

Definition mux_io_listdir (fuel : nat) (p : option (list Z)) (st : io_state) : option (fs_answer * io_state) :=
  on_path p (fun a => Some (a, st)) (fun p =>
    match read_dir p (world st) with
    | (Err e, w) => Some (io_err_io_path (about "Failed to list directory" p) e p, set_world w st)
    | (Ok d, w) => list_loop fuel p d [] 0 w ≫= fun '(r, w) => Some (r, set_world (dir_close d w) st)
    end).

(** [i64::try_from(id).unwrap_or(1)]. *)
Definition next_directory_id (st : io_state) : Z * io_state :=
  let id := next_directory st in
  ((if i64_max <? id then 1 else id), mk_io (directories st) ((id + 1) mod 2 ^ 64) (temp_counter st) (world st)).

Definition directory_handle (v : dir_arg) (st : io_state) : result Z (list Z) :=
  match v with
  | DirectoryArg (Some id) =>
      if (id <=? 0) || negb (match directories st !! id with Some _ => true | None => false end)
      then Err (txt "Directory is closed or invalid") else Ok id
  | _ => Err (txt "invalid Directory handle")
  end.

Definition copy_directory (id : Z) (st : io_state) : Z * io_state :=
  match directories st !! id with
  | Some e => (id, set_directories (<[id := mk_directory (entries e) (Z.min u64_max (refs e + 1)) (entry_count e) (entry_name_bytes e)]> (directories st)) st)
  | None => (0, st)
  end.

(** Removing an entry closes the directory. *)
Definition remove_directory (id : Z) (st : io_state) : io_state :=
  match directories st !! id with
  | Some e => set_world (dir_close (entries e) (world st)) (set_directories (delete id (directories st)) st)
  | None => st
  end.

Definition drop_directory (id : Z) (st : io_state) : io_state :=
  match directories st !! id with
  | Some e =>
      let n := Z.max 0 (refs e - 1) in
      if n =? 0 then remove_directory id st
      else set_directories (<[id := mk_directory (entries e) n (entry_count e) (entry_name_bytes e)]> (directories st)) st
  | None => st
  end.

Definition mux_fs_directory_open (v : dir_arg) (allocated : bool) (st : io_state) : fs_answer * io_state :=
  match v with
  | StringArg [] => (io_err (txt "directory path must not be empty"), st)
  | StringArg p =>
      match read_dir p (world st) with
      | (Err e, w) => (io_err_io_path (about "failed to open directory" p) e p, set_world w st)
      | (Ok d, w) =>
          let '(id, st) := next_directory_id (set_world w st) in
          let st := set_directories (<[id := mk_directory d 1 0 0]> (directories st)) st in
          if allocated then (Ok (OfDirectory id), st)
          else (io_err (txt "could not allocate Directory handle"), remove_directory id st)
      end
  | _ => (io_err (txt "directory path must be a string"), st)
  end.

Definition mux_fs_directory_next (v : dir_arg) (st : io_state) : fs_answer * io_state :=
  match directory_handle v st with
  | Err m => (io_err m, st)
  | Ok id =>
      match directories st !! id with
      | None => (io_err (txt "Directory is closed or invalid"), st)
      | Some d =>
          let '(next, w) := dir_next (entries d) (world st) in
          let st := set_world w st in
          match next with
          | None => (Ok (OfOptional None), st)
          | Some (Err e) => (io_err_kind Io (txt "directory iteration failed: " ++ shown e), st)
          | Some (Ok name) =>
              if negb (is_utf8 name) then (io_err_kind NotUnicode (txt "directory entry name is not valid UTF-8"), st)
              else
                match directory_list_budget (entry_count d) (entry_name_bytes d) name with
                | Err e => (io_err_kind Invalid (shown e), st)
                | Ok (n, b) => (Ok (OfOptional (Some name)), set_directories (<[id := mk_directory (entries d) (refs d) n b]> (directories st)) st)
                end
          end
      end
  end.

(** The number in the closed object becomes 0; other names of the entry are closed with it. *)
Definition mux_fs_directory_close (v : dir_arg) (st : io_state) : dir_arg * io_state :=
  match v with
  | DirectoryArg (Some id) => if 0 <? id then (DirectoryArg (Some 0), remove_directory id st) else (v, st)
  | _ => (v, st)
  end.

(** ** Reading a file *)

(** What successive reads of a file give, up to the end of it. *)
Inductive file_yields (fd : Z) : W -> list (list Z) -> W -> Prop :=
| yields_end w w' : file_read fd FILE_READ_CHUNK_BYTES w = (Ok [], w') -> file_yields fd w [] w'
| yields_more w bytes w1 rest w' : file_read fd FILE_READ_CHUNK_BYTES w = (Ok bytes, w1) -> bytes <> [] ->
    file_yields fd w1 rest w' -> file_yields fd w (bytes :: rest) w'.

Lemma llen_app {A} (a b : list A) : llen (a ++ b) = llen a + llen b.
Proof. unfold llen. rewrite length_app. lia. Qed.

Lemma llen_pos {A} (a : list A) : a <> [] -> 1 <= llen a.
Proof. destruct a; [done|]. unfold llen. cbn. lia. Qed.

Lemma llen_nonneg {A} (a : list A) : 0 <= llen a.
Proof. unfold llen. lia. Qed.

(** A round adds an octet, so the limit bounds the rounds, whatever the system answers. *)
Lemma read_loop_total fd fuel : forall contents w, llen contents <= MAX_FILE_READ_BYTES ->
  MAX_FILE_READ_BYTES - llen contents + 1 < Z.of_nat fuel ->
  exists r w', read_loop fuel fd contents w = Some (r, w') /\ forall s, r = Ok s -> llen s <= MAX_FILE_READ_BYTES.
Proof.
  induction fuel as [|fuel IH]; intros contents w Hc Hf; [lia|]. cbn [read_loop].
  destruct (file_read fd FILE_READ_CHUNK_BYTES w) as [[[|b bs]|e] w1].
  - eexists _, _. split; [done|]. by intros s [= <-].
  - pose proof (llen_pos (b :: bs) ltac:(done)) as Hp. set (bytes := b :: bs) in *.
    destruct (u64_max <? _); [eexists _, _; by split|]. destruct (Z.ltb_spec MAX_FILE_READ_BYTES (llen contents + llen bytes)); [eexists _, _; by split|].
    apply IH; rewrite llen_app; lia.
  - eexists _, _. by split.
Qed.

Lemma read_loop_yields fd w segs w' : file_yields fd w segs w' -> forall fuel contents r w2,
  read_loop fuel fd contents w = Some (r, w2) -> llen contents <= MAX_FILE_READ_BYTES ->
  if MAX_FILE_READ_BYTES <? llen (contents ++ concat segs) then exists e, r = Err e /\ io_kind e = IoInvalidData
  else r = Ok (contents ++ concat segs) /\ w2 = w'.
Proof.
  induction 1 as [w w' E|w bytes w1 rest w' E Hne Hy IH]; intros [|fuel] contents r w2; try done; cbn [read_loop]; rewrite E.
  - intros [= <- <-] Hc. cbn. rewrite app_nil_r. destruct (Z.ltb_spec MAX_FILE_READ_BYTES (llen contents)); [lia|done].
  - destruct bytes as [|b bs]; [done|]. set (bytes := b :: bs) in *. intros Hr Hc. cbn [concat]. rewrite app_assoc.
    pose proof (llen_nonneg (concat rest)). pose proof (llen_app (contents ++ bytes) (concat rest)) as El. rewrite (llen_app contents) in El.
    revert Hr. destruct (Z.ltb_spec u64_max (llen contents + llen bytes)) as [Hb|Hb].
    { intros [= <- <-]. rewrite (proj2 (Z.ltb_lt _ _)) by (unfold MAX_FILE_READ_BYTES, u64_max in *; lia). eauto. }
    destruct (Z.ltb_spec MAX_FILE_READ_BYTES (llen contents + llen bytes)).
    { intros [= <- <-]. rewrite (proj2 (Z.ltb_lt _ _)) by lia. eauto. }
    intros Hr. eapply IH; [done|]. rewrite llen_app. lia.
Qed.

(** Reading a file ends, and gives its octets exactly when there are at most 16 MiB. *)
Lemma read_bounded_exact fd w segs w' fuel : file_yields fd w segs w' -> MAX_FILE_READ_BYTES + 1 < Z.of_nat fuel ->
  exists r w2, read_bounded fuel fd w = Some (r, w2) /\
    if MAX_FILE_READ_BYTES <? llen (concat segs) then exists e, r = Err e /\ io_kind e = IoInvalidData else r = Ok (concat segs) /\ w2 = w'.
Proof.
  intros Hy Hf. unfold read_bounded. assert (llen (@nil Z) <= MAX_FILE_READ_BYTES) by (unfold llen, MAX_FILE_READ_BYTES; cbn; lia).
  destruct (read_loop_total fd fuel [] w) as (r & w2 & E & _); [done|unfold llen in *; cbn in *; lia|].
  exists r, w2. split; [done|]. exact (read_loop_yields fd w segs w' Hy fuel [] r w2 E ltac:(done)).
Qed.

(** ** Reading a line *)

(** What [BufRead] documents of the standard input: [pending] is the input not yet consumed. *)
Class StdinLaws (pending : W -> list Z) : Prop := {
  law_fill w b w' : stdin_fill w = (Ok b, w') -> pending w' = pending w /\ (exists rest, pending w = b ++ rest) /\ (b = [] -> pending w = []);
  law_consume n w : 0 <= n -> pending (stdin_consume n w) = drop (Z.to_nat n) (pending w);
}.

Lemma newline_at_spec b : match newline_at b with
  | Some p => exists x y, b = x ++ (10 :: y) /\ (10 ∉ x) /\ length x = p
  | None => 10 ∉ b
  end.
Proof.
  unfold newline_at. induction b as [|c b IH]; [by apply not_elem_of_nil|]. cbn [find_sub is_prefix].
  destruct (Z.eqb_spec 10 c) as [<-|Hne]; cbn [andb].
  - exists [], b. split_and!; [done|apply not_elem_of_nil|done].
  - destruct (find_sub [10] b) as [p|].
    + destruct IH as (x & y & -> & Hx & <-). exists (c :: x), y. split_and!; [done| |done]. by intros [|]%elem_of_cons.
    + by intros [|]%elem_of_cons.
Qed.

(** A line is what comes before the next line feed, with it, or the rest of the input. *)
Lemma line_loop_spec `{!StdinLaws pending} fuel : forall input w r w', 10 ∉ input ->
  line_loop fuel input w = Some (Ok r, w') -> exists line, r = input ++ line /\ pending w = line ++ pending w' /\
    ((exists x, line = x ++ [10] /\ (10 ∉ x)) \/ (10 ∉ line) /\ pending w' = []).
Proof.
  induction fuel as [|fuel IH]; intros input w r w' Hin; [done|]. cbn [line_loop].
  destruct (stdin_fill w) as [[b|e] w1] eqn:E; [|done]. destruct (law_fill _ _ _ E) as (E1 & [rest E2] & E3).
  destruct b as [|c b].
  - intros [= <- <-]. exists []. rewrite app_nil_r, E1. split_and!; [done|by cbn|]. right. split; [apply not_elem_of_nil|by apply E3].
  - set (buffer := c :: b) in *. pose proof (newline_at_spec buffer) as Hn. destruct (newline_at buffer) as [p|]; cbv beta iota zeta.
    + destruct Hn as (x & y & Eb & Hx & Hp). repeat case_match; try done. intros [= <- <-]. exists (x ++ [10]).
      assert (Et : take (S p) buffer = x ++ [10]).
      { rewrite Eb. replace (S p) with (length (x ++ [10])) by (rewrite length_app; cbn; lia).
        change (10 :: y) with ([10] ++ y). rewrite app_assoc. apply take_app_length. }
      change (c :: take p b) with (take (S p) buffer). rewrite Et. split_and!; [done| |left; by exists x].
      rewrite law_consume, Nat2Z.id, E1, E2 by lia. rewrite <- Et at 1.
      rewrite <- (take_drop (S p) (buffer ++ rest)) at 1. rewrite take_app_le by (rewrite Eb, length_app; cbn; lia). done.
    + repeat case_match; try done. intros Hr. apply IH in Hr as (line & -> & Ep & Hl).
      2: { rewrite take_ge by lia. by intros [|]%elem_of_app. }
      exists (buffer ++ line). rewrite law_consume, Nat2Z.id, E1, E2 in Ep by lia. rewrite drop_app_length in Ep. rewrite take_ge by lia.
      split_and!; [by rewrite app_assoc|by rewrite E2, Ep, app_assoc|].
      destruct Hl as [(x & -> & Hx)|[Hl He]].
      * left. exists (buffer ++ x). rewrite app_assoc. split; [done|]. by intros [|]%elem_of_app.
      * right. split; [by intros [|]%elem_of_app|done].
Qed.

(** ** Temporary names *)

(** What the system documents of creating: it succeeds only for a name that is not taken. *)
Class CreateLaws (taken : path -> W -> Prop) : Prop := {
  law_create_dir p w w' : create_dir p w = (Ok tt, w') -> ~ taken p w;
  law_create_new p w w' : create_new p w = (Ok tt, w') -> ~ taken p w;
}.

(** The resource handed out did not exist before, and its name carries a number that the
    counter has passed. *)
Lemma temp_fresh `{!CreateLaws taken} attempts directory : forall st p st', temp_loop attempts directory st = (Ok p, st') ->
  0 <= temp_counter st -> temp_counter st + Z.of_nat attempts < 2 ^ 64 ->
  exists st1, temp_counter st <= temp_counter st1 < temp_counter st' /\ ~ taken p (world st1) /\
    p = temp_name st1.
Proof.
  induction attempts as [|n IH]; intros st p st'; [done|]. cbn [temp_loop]. intros Hr H0 Hb. revert Hr. unfold temp_attempt.
  destruct ((if directory then create_dir else create_new) (temp_name st) (world st)) as [[[]|e] w1] eqn:Ec.
  - destruct (is_utf8 (temp_name st)); intros Hr; inversion Hr. exists st. cbn [temp_counter]. rewrite Z.mod_small by lia. split_and!; [lia..| |done].
    destruct directory; [by eapply law_create_dir|by eapply law_create_new].
  - destruct (io_kind e); try done. intros Hr.
    apply IH in Hr as (st2 & Hs & Ht & Ep); cbn [temp_counter world] in *; rewrite Z.mod_small in * by lia; [|lia..].
    exists st2. split_and!; [lia..|done|done].
Qed.

End Io.
