(* ===== verification/NetTypes.v ===== *)
(** * Textual Internet addresses ([std::net]), then the network values ([src/src/net_types.rs])

    The parser and the printer of the standard library that the network values rely on, on
    octets: IPv4 addresses are 32-bit numbers, IPv6 addresses 128-bit numbers. *)

From S2P Require Import Prelude Str Utf8 ValueTable.

Inductive IpAddr : Type := V4 (a : Z) | V6 (a : Z).

#[export] Instance IpAddr_eq_dec : EqDecision IpAddr.
Proof. solve_decision. Defined.

Record SocketAddr : Type := mk_socket { sock_ip : IpAddr; sock_port : Z; scope_id : Z }.

(** ** Parsing: every reader answers what it read and the rest *)

Definition reader (A : Type) : Type := text -> option (A * text).

Definition read_given_char (c : Z) : reader unit := fun s =>
  match s with d :: s => if d =? c then Some (tt, s) else None | [] => None end.

(** The digits at the head of the text, at most [max] of them: their value and number. *)
Fixpoint read_digits (radix : Z) (max : option nat) (s : text) (acc : Z) (count : nat) : option (Z * nat * text) :=
  match s with
  | [] => Some (acc, count, [])
  | c :: r =>
      match to_digit radix c with
      | None => Some (acc, count, s)
      | Some d =>
          match max with
          | Some m => if (m <? S count)%nat then None else read_digits radix max r (acc * radix + d) (S count)
          | None => read_digits radix max r (acc * radix + d) (S count)
          end
      end
  end.

(** [read_number]: without a digit limit an overflow of the type fails as well. *)
Definition read_number (radix : Z) (max_digits : option nat) (allow_zero_prefix : bool) (limit : Z) : reader Z := fun s =>
  match read_digits radix max_digits s 0 0 with
  | None => None
  | Some (v, count, rest) =>
      if (count =? 0)%nat then None
      else if negb allow_zero_prefix && (match s with c :: _ => c =? 48 | [] => false end) && (1 <? count)%nat then None
      else if limit <? v then None
      else Some (v, rest)
  end.

Definition read_separator {A} (sep : Z) (index : nat) (inner : reader A) : reader A := fun s =>
  match index with
  | O => inner s
  | S _ => match read_given_char sep s with Some (_, s) => inner s | None => None end
  end.

(** Four numbers separated by dots. *)
Fixpoint read_octets (count index : nat) (acc : Z) : reader Z := fun s =>
  match count with
  | O => Some (acc, s)
  | S count =>
      match read_separator 46 index (read_number 10 (Some 3%nat) false 255) s with
      | None => None
      | Some (o, s) => read_octets count (S index) (acc * 256 + o) s
      end
  end.
Definition read_ipv4_addr : reader Z := read_octets 4 0 0.

(** [read_groups] on [limit] groups, from group [i] on: the groups read, and whether the last
    two came from an embedded IPv4 address. *)
Fixpoint read_groups (slots limit i : nat) (groups : list Z) (s : text) : list Z * bool * text :=
  match slots with
  | O => (groups, false, s)
  | S slots =>
      let group (_ : unit) :=
        match read_separator 58 i (read_number 16 (Some 4%nat) true 65535) s with
        | Some (g, s) => read_groups slots limit (S i) (groups ++ [g]) s
        | None => (groups, false, s)
        end in
      if (i <? limit - 1)%nat then
        match read_separator 58 i read_ipv4_addr s with
        | Some (a, s) => (groups ++ [a / 65536; a mod 65536], true, s)
        | None => group tt
        end
      else group tt
  end.

Definition of_segments (segments : list Z) : Z := foldl (fun acc g => acc * 65536 + g) 0 segments.

Definition read_ipv6_addr : reader Z := fun s =>
  let '(head, head_ipv4, rest) := read_groups 8 8 0 [] s in
  if (length head =? 8)%nat then Some (of_segments head, rest)
  else if head_ipv4 then None
  else
    match read_given_char 58 rest with
    | None => None
    | Some (_, rest) =>
        match read_given_char 58 rest with
        | None => None
        | Some (_, rest) =>
            let limit := (8 - (length head + 1))%nat in
            let '(tail, _, rest) := read_groups limit limit 0 [] rest in
            Some (of_segments (head ++ replicate (8 - length head - length tail) 0 ++ tail), rest)
        end
    end.

Definition read_ip_addr : reader IpAddr := fun s =>
  match read_ipv4_addr s with
  | Some (a, s) => Some (V4 a, s)
  | None => match read_ipv6_addr s with Some (a, s) => Some (V6 a, s) | None => None end
  end.

(** [parse_with]: the whole text is read. *)
Definition parse_with {A} (r : reader A) (s : text) : option A :=
  match r s with Some (a, []) => Some a | _ => None end.

Definition parse_ip : text -> option IpAddr := parse_with read_ip_addr.

Definition read_port : reader Z := fun s =>
  match read_given_char 58 s with Some (_, s) => read_number 10 None true 65535 s | None => None end.

Definition read_socket_addr_v4 : reader SocketAddr := fun s =>
  match read_ipv4_addr s with
  | None => None
  | Some (a, s) => match read_port s with Some (p, s) => Some (mk_socket (V4 a) p 0, s) | None => None end
  end.

(** [read_scope_id().unwrap_or(0)]. *)
Definition read_scope (s : text) : Z * text :=
  match read_given_char 37 s with
  | None => (0, s)
  | Some (_, r) => match read_number 10 None true (2 ^ 32 - 1) r with Some (v, r) => (v, r) | None => (0, s) end
  end.

Definition read_socket_addr_v6 : reader SocketAddr := fun s =>
  match read_given_char 91 s with
  | None => None
  | Some (_, s) =>
      match read_ipv6_addr s with
      | None => None
      | Some (a, s) =>
          let '(scope, s) := read_scope s in
          match read_given_char 93 s with
          | None => None
          | Some (_, s) => match read_port s with Some (p, s) => Some (mk_socket (V6 a) p scope, s) | None => None end
          end
      end
  end.

Definition parse_socket_addr : text -> option SocketAddr := parse_with (fun s =>
  match read_socket_addr_v4 s with Some r => Some r | None => read_socket_addr_v6 s end).

(** ** Printing *)

Definition octets (width : nat) (a : Z) : list Z :=
  (fun i => Z.shiftr a (8 * Z.of_nat (width - 1 - i)) mod 256) <$> seq 0 width.
Definition segments (a : Z) : list Z := (fun i => Z.shiftr a (16 * Z.of_nat (7 - i)) mod 65536) <$> seq 0 8.

(** Pieces with a separator between them. *)
Definition join (sep : Z) (pieces : list text) : text :=
  match pieces with [] => [] | p :: ps => p ++ flat_map (fun q => sep :: q) ps end.

Definition ipv4_text (a : Z) : text := join 46 (decimal 3 <$> octets 4 a).

(** [{:x}]. *)
Fixpoint lower_hex (fuel : nat) (n : Z) : text :=
  match fuel with
  | O => []
  | S fuel => (if n <? 16 then [] else lower_hex fuel (n / 16)) ++ [if n mod 16 <? 10 then 48 + n mod 16 else 87 + n mod 16]
  end.

(** The longest run of zero groups, the first of them: start and length. *)
Fixpoint zero_span (i : nat) (groups : list Z) (current longest : nat * nat) : nat * nat :=
  match groups with
  | [] => longest
  | g :: groups =>
      if g =? 0 then
        let current := (if (current.2 =? 0)%nat then i else current.1, S current.2) in
        zero_span (S i) groups current (if (longest.2 <? current.2)%nat then current else longest)
      else zero_span (S i) groups (0%nat, 0%nat) longest
  end.

Definition groups_text (groups : list Z) : text := join 58 (lower_hex 4 <$> groups).

Definition ipv6_text (a : Z) : text :=
  if a / 2 ^ 32 =? 65535 then txt "::ffff:" ++ ipv4_text (a mod 2 ^ 32)
  else
    let '(start, len) := zero_span 0 (segments a) (0%nat, 0%nat) (0%nat, 0%nat) in
    if (1 <? len)%nat
    then groups_text (take start (segments a)) ++ [58; 58] ++ groups_text (drop (start + len) (segments a))
    else groups_text (segments a).

Definition ip_text (ip : IpAddr) : text := match ip with V4 a => ipv4_text a | V6 a => ipv6_text a end.

Definition socket_text (s : SocketAddr) : text :=
  match sock_ip s with
  | V4 a => ipv4_text a ++ 58 :: decimal 5 (sock_port s)
  | V6 a =>
      91 :: ipv6_text a ++ (if scope_id s =? 0 then [] else 37 :: decimal 10 (scope_id s)) ++ 93 :: 58 :: decimal 5 (sock_port s)
  end.

(** The reader and the printer agree on some addresses of every form. *)
Example address_texts :
  (fun s => ip_text <$> parse_ip (txt s)) <$> ["10.0.0.255"; "2001:db8:0:0:1:0:0:1"; "::"; "::ffff:1.2.3.4"; "1::"; "1.2.3"; "01.2.3.4"] =
  (fun s => txt <$> s) <$> [Some "10.0.0.255"; Some "2001:db8::1:0:0:1"; Some "::"; Some "::ffff:1.2.3.4"; Some "1::"; None; None].
Proof. vm_compute. reflexivity. Qed.

(** * Typed network values ([src/src/net_types.rs])

    IP addresses, socket addresses, CIDR blocks and endpoints as objects over the table of
    [ValueTable].  An argument is the value behind a pointer; an object is its class and the
    handle stored in it.  A message is answered as [Err]; [wrapped] and [err_kind] turn it
    into a [NetError].  The resolver of the operating system is a parameter. *)

Inductive NetValue : Type :=
| Ip (ip : IpAddr)
| Socket (address : SocketAddr)
| Cidr (network : IpAddr) (prefix : Z)
| Endpoint (host : text) (port : Z).

(** The classes registered by [IP_TYPE_ID], [SOCKET_TYPE_ID], [CIDR_TYPE_ID] and
    [ENDPOINT_TYPE_ID]. *)
Inductive net_class : Type := IpClass | SocketClass | CidrClass | EndpointClass | ForeignClass.

#[export] Instance net_class_eq_dec : EqDecision net_class.
Proof. solve_decision. Defined.

(** [NullArg] is the null pointer; [ObjectArg] an object with the handle in its buffer, [None]
    for one without a buffer. *)
Inductive net_arg : Type :=
| NullArg
| StringArg (s : text)
| ObjectArg (c : net_class) (handle : option Z)
| OtherArg.

Definition net_state : Type := values NetValue.

Definition copy_value (id : Z) (st : net_state) : Z * net_state := ValueTable.copy_value id st.
Definition drop_value (id : Z) (st : net_state) : net_state := ValueTable.drop_value id st.

Definition object (c : net_class) (v : NetValue) (allocated : bool) (st : net_state) : net_arg * net_state :=
  match ValueTable.object v allocated st with
  | (Some id, st) => (ObjectArg c (Some id), st)
  | (None, st) => (NullArg, st)
  end.

Definition object_result (o : net_arg) (name : text) : result net_arg text :=
  match o with
  | ObjectArg c h => Ok (ObjectArg c h)
  | _ => Err (txt "could not allocate " ++ name)
  end.

(** [object_result(object(..), name)]. *)
Definition make (c : net_class) (v : NetValue) (name : string) (allocated : bool) (st : net_state) : result net_arg text * net_state :=
  let '(o, st) := object c v allocated st in (object_result o (txt name), st).

Definition id (v : net_arg) (c : net_class) (name : string) (st : net_state) : result Z text :=
  match v with
  | ObjectArg c' h =>
      if negb (bool_decide (c' = c)) then Err (txt "expected " ++ txt name ++ txt " value")
      else
        match h with
        | None => Err (txt name ++ txt " value is invalid")
        | Some id => match table st !! id with Some _ => Ok id | None => Err (txt name ++ txt " value is closed") end
        end
  | _ => Err (txt "expected " ++ txt name ++ txt " value")
  end.

Definition net_entry (v : net_arg) (c : net_class) (name : string) (st : net_state) : result NetValue text :=
  let? id := id v c name st in
  match get_value id st with Some v => Ok v | None => Err (txt name ++ txt " value is closed") end.

(** ** CIDR blocks *)

(** [str::split_once('/')]. *)
Fixpoint split_once (c : Z) (s : text) : option (text * text) :=
  match s with
  | [] => None
  | d :: s =>
      if d =? c then Some ([], s)
      else match split_once c s with Some (a, b) => Some (d :: a, b) | None => None end
  end.

(** [str::parse::<u8>]: an optional sign, then digits. *)
Definition parse_u8 (s : text) : option Z :=
  match from_str_radix 10 s with
  | Some v => match s with 45 :: _ => None | _ => if in_range 0 255 v then Some v else None end
  | None => None
  end.

(** [MAX << (bits - prefix)] in [bits] bits, 0 for the prefix 0. *)
Definition prefix_mask (bits prefix : Z) : Z :=
  if prefix =? 0 then 0 else Z.shiftl (2 ^ bits - 1) (bits - prefix) mod 2 ^ bits.

Definition parse_cidr (s : text) : result (IpAddr * Z) text :=
  match split_once 47 s with
  | None => Err (txt "CIDR must contain '/'")
  | Some (address, prefix) =>
      match parse_ip address with
      | None => Err (txt "invalid IP address")
      | Some ip =>
          match parse_u8 prefix with
          | None => Err (txt "CIDR prefix must be an integer")
          | Some prefix =>
              let bits := match ip with V4 _ => 32 | V6 _ => 128 end in
              if bits <? prefix then Err (txt "CIDR prefix must be between 0 and " ++ decimal 3 bits)
              else
                match ip with
                | V4 raw => Ok (V4 (Z.land raw (prefix_mask 32 prefix)), prefix)
                | V6 raw => Ok (V6 (Z.land raw (prefix_mask 128 prefix)), prefix)
                end
          end
      end
  end.

(** ** Constructors *)

Definition mux_net_ip_parse (v : net_arg) (allocated : bool) (st : net_state) : result net_arg text * net_state :=
  match v with
  | StringArg s =>
      match parse_ip s with
      | Some ip => make IpClass (Ip ip) "IpAddr" allocated st
      | None => (Err (txt "invalid IP address"), st)
      end
  | _ => (Err (txt "IP address must be a string"), st)
  end.

Definition mux_net_socket_addr_parse (v : net_arg) (allocated : bool) (st : net_state) : result net_arg text * net_state :=
  match v with
  | StringArg s =>
      match parse_socket_addr s with
      | Some address => make SocketClass (Socket address) "SocketAddr" allocated st
      | None => (Err (txt "invalid socket address"), st)
      end
  | _ => (Err (txt "socket address must be a string"), st)
  end.

(** [addresses.sort_unstable_by_key(ToString::to_string)]; addresses with the same text keep
    some order. *)
Definition socket_le (a b : SocketAddr) : Prop := AssocList.lex_cmp Z.compare (socket_text a) (socket_text b) <> Gt.
#[export] Instance socket_le_dec : RelDecision socket_le.
Proof. intros a b. unfold socket_le. destruct (AssocList.lex_cmp _ _ _); first [by left|right; by intros H; apply H]. Defined.

(** The loop that turns addresses into objects; [allocated] answers for each of them. *)
Fixpoint socket_objects (addresses : list SocketAddr) (allocated : nat -> bool) (i : nat) (made : list net_arg) (st : net_state)
    : result (list net_arg) text * net_state :=
  match addresses with
  | [] => (Ok made, st)
  | address :: addresses =>
      match object SocketClass (Socket address) (allocated i) st with
      | (ObjectArg c h, st) => socket_objects addresses allocated (S i) (made ++ [ObjectArg c h]) st
      | (_, st) => (Err (txt "could not allocate SocketAddr"), st)
      end
  end.

Section Resolver.
(** [ToSocketAddrs::to_socket_addrs] on a host and a port. *)
Context (to_socket_addrs : text -> Z -> result (list SocketAddr) text).

Definition mux_net_socket_addr_resolve (host : net_arg) (port : Z) (allocated : nat -> bool) (st : net_state)
    : result (list net_arg) text * net_state :=
  match host with
  | StringArg host =>
      if (length host =? 0)%nat then (Err (txt "socket host must not be empty"), st)
      else
        match try_from_range 0 65535 port with
        | None => (Err (txt "socket port must be between 0 and 65535"), st)
        | Some port =>
            match to_socket_addrs host port with
            | Err e => (Err (txt "socket address resolution failed: " ++ e), st)
            | Ok addresses => socket_objects (merge_sort socket_le addresses) allocated 0 [] st
            end
        end
  | _ => (Err (txt "socket host must be a string"), st)
  end.

Definition mux_net_endpoint_resolve (v : net_arg) (allocated : nat -> bool) (st : net_state) : result (list net_arg) text * net_state :=
  match net_entry v EndpointClass "Endpoint" st with
  | Ok (Endpoint host port) =>
      match to_socket_addrs host port with
      | Err e => (Err (txt "endpoint resolution failed: " ++ e), st)
      | Ok addresses => socket_objects (merge_sort socket_le addresses) allocated 0 [] st
      end
  | _ => (Err (txt "invalid Endpoint"), st)
  end.

End Resolver.

Definition mux_net_cidr_parse (v : net_arg) (allocated : bool) (st : net_state) : result net_arg text * net_state :=
  match v with
  | StringArg s =>
      match parse_cidr s with
      | Ok (network, prefix) => make CidrClass (Cidr network prefix) "Cidr" allocated st
      | Err e => (Err e, st)
      end
  | _ => (Err (txt "CIDR must be a string"), st)
  end.

Definition mux_net_endpoint_from_host (host : net_arg) (port : Z) (allocated : bool) (st : net_state) : result net_arg text * net_state :=
  match host with
  | StringArg host =>
      if (length host =? 0)%nat then (Err (txt "endpoint host must not be empty"), st)
      else
        match try_from_range 0 65535 port with
        | None => (Err (txt "endpoint port must be between 0 and 65535"), st)
        | Some port => make EndpointClass (Endpoint host port) "Endpoint" allocated st
        end
  | _ => (Err (txt "endpoint host must be a string"), st)
  end.

Definition mux_net_endpoint_from_socket_addr (v : net_arg) (allocated : bool) (st : net_state) : result net_arg text * net_state :=
  match net_entry v SocketClass "SocketAddr" st with
  | Ok (Socket address) => make EndpointClass (Endpoint (ip_text (sock_ip address)) (sock_port address)) "Endpoint" allocated st
  | _ => (Err (txt "invalid SocketAddr"), st)
  end.

(** ** Accessors *)

Definition mux_net_ip_to_string (v : net_arg) (st : net_state) : text :=
  match net_entry v IpClass "IpAddr" st with Ok (Ip ip) => ip_text ip | _ => [] end.
Definition mux_net_ip_is_v4 (v : net_arg) (st : net_state) : bool :=
  match net_entry v IpClass "IpAddr" st with Ok (Ip (V4 _)) => true | _ => false end.
Definition mux_net_ip_is_v6 (v : net_arg) (st : net_state) : bool :=
  match net_entry v IpClass "IpAddr" st with Ok (Ip (V6 _)) => true | _ => false end.
Definition mux_net_ip_octets (v : net_arg) (st : net_state) : list Z :=
  match net_entry v IpClass "IpAddr" st with
  | Ok (Ip (V4 a)) => octets 4 a
  | Ok (Ip (V6 a)) => octets 16 a
  | _ => []
  end.

Definition mux_net_socket_to_string (v : net_arg) (st : net_state) : text :=
  match net_entry v SocketClass "SocketAddr" st with Ok (Socket address) => socket_text address | _ => [] end.
Definition mux_net_socket_port (v : net_arg) (st : net_state) : Z :=
  match net_entry v SocketClass "SocketAddr" st with Ok (Socket address) => sock_port address | _ => -1 end.

(** The unit value is [OtherArg]. *)
Definition mux_net_socket_ip (v : net_arg) (allocated : bool) (st : net_state) : net_arg * net_state :=
  match net_entry v SocketClass "SocketAddr" st with
  | Ok (Socket address) =>
      match object IpClass (Ip (sock_ip address)) allocated st with
      | (NullArg, st) => (OtherArg, st)
      | r => r
      end
  | _ => (OtherArg, st)
  end.

(** [SocketAddr::new(address.ip(), port)]. *)
Definition mux_net_socket_with_port (v : net_arg) (port : Z) (allocated : bool) (st : net_state) : result net_arg text * net_state :=
  if negb (in_range 0 65535 port) then (Err (txt "socket port must be between 0 and 65535"), st)
  else
    match net_entry v SocketClass "SocketAddr" st with
    | Ok (Socket address) => make SocketClass (Socket (mk_socket (sock_ip address) port 0)) "SocketAddr" allocated st
    | _ => (Err (txt "invalid SocketAddr"), st)
    end.

Definition mux_net_cidr_to_string (v : net_arg) (st : net_state) : text :=
  match net_entry v CidrClass "Cidr" st with
  | Ok (Cidr network prefix) => ip_text network ++ 47 :: decimal 3 prefix
  | _ => []
  end.
Definition mux_net_cidr_prefix (v : net_arg) (st : net_state) : Z :=
  match net_entry v CidrClass "Cidr" st with Ok (Cidr _ prefix) => prefix | _ => -1 end.
Definition mux_net_cidr_network (v : net_arg) (allocated : bool) (st : net_state) : net_arg * net_state :=
  match net_entry v CidrClass "Cidr" st with
  | Ok (Cidr network _) => object IpClass (Ip network) allocated st
  | _ => (OtherArg, st)
  end.

Definition mux_net_cidr_contains (cidr ip : net_arg) (st : net_state) : bool :=
  match net_entry cidr CidrClass "Cidr" st with
  | Ok (Cidr network prefix) =>
      match net_entry ip IpClass "IpAddr" st with
      | Ok (Ip candidate) =>
          match network, candidate with
          | V4 n, V4 c => let mask := prefix_mask 32 prefix in Z.land n mask =? Z.land c mask
          | V6 n, V6 c => let mask := prefix_mask 128 prefix in Z.land n mask =? Z.land c mask
          | _, _ => false
          end
      | _ => false
      end
  | _ => false
  end.

(** [str::starts_with('[')]. *)
Definition mux_net_endpoint_to_string (v : net_arg) (st : net_state) : text :=
  match net_entry v EndpointClass "Endpoint" st with
  | Ok (Endpoint host port) =>
      if existsb (Z.eqb 58) host && negb (is_prefix [91] host)
      then 91 :: host ++ 93 :: 58 :: decimal 5 port
      else host ++ 58 :: decimal 5 port
  | _ => []
  end.
Definition mux_net_endpoint_host (v : net_arg) (st : net_state) : text :=
  match net_entry v EndpointClass "Endpoint" st with Ok (Endpoint host _) => host | _ => [] end.
Definition mux_net_endpoint_port (v : net_arg) (st : net_state) : Z :=
  match net_entry v EndpointClass "Endpoint" st with Ok (Endpoint _ port) => port | _ => -1 end.

(** ** Masks *)

Lemma prefix_mask_spec bits prefix a : 0 <= prefix <= bits -> 0 <= a < 2 ^ bits ->
  Z.land a (prefix_mask bits prefix) = a / 2 ^ (bits - prefix) * 2 ^ (bits - prefix).
Proof.
  intros Hp Ha. set (h := bits - prefix). assert (Hh : 0 <= h) by lia.
  assert (Hm : Z.land a (prefix_mask bits prefix) = Z.shiftl (Z.shiftr a h) h).
  { unfold prefix_mask. fold h. apply Z.bits_inj'. intros i Hi. rewrite Z.land_spec, Z.shiftl_spec by lia.
    destruct (Z.eqb_spec prefix 0) as [->|Hp0].
    - rewrite Z.bits_0, andb_false_r. replace (Z.shiftr a h) with 0; [by rewrite Z.bits_0|].
      rewrite Z.shiftr_div_pow2 by lia. symmetry. apply Z.div_small. unfold h. by rewrite Z.sub_0_r.
    - rewrite <- Z.land_ones, Z.land_spec, Z.shiftl_spec by lia.
      replace (2 ^ bits - 1) with (Z.ones bits) by (rewrite Z.ones_equiv; lia).
      destruct (decide (i < h)) as [Hlt|Hge].
      + rewrite !(Z.testbit_neg_r _ (i - h)) by lia. by rewrite andb_false_l, andb_false_r.
      + rewrite Z.shiftr_spec by lia. replace (i - h + h) with i by lia.
        destruct (decide (i < bits)) as [Hb|Hb].
        * rewrite !Z.ones_spec_low by lia. by rewrite !andb_true_r.
        * rewrite (Z.ones_spec_high bits i) by lia. rewrite andb_false_r, andb_false_r. symmetry.
          rewrite <- (Z.mod_small a (2 ^ bits)) by done. apply Z.mod_pow2_bits_high. lia. }
  rewrite Hm, Z.shiftl_mul_pow2, Z.shiftr_div_pow2 by lia. done.
Qed.

(** Two addresses agree under the mask exactly when they lie in the same aligned block. *)
Lemma masked_eq bits prefix n c : 0 <= prefix <= bits -> 0 <= n < 2 ^ bits -> 0 <= c < 2 ^ bits ->
  let base := Z.land n (prefix_mask bits prefix) in
  (Z.land base (prefix_mask bits prefix) =? Z.land c (prefix_mask bits prefix)) = true <->
  base <= c < base + 2 ^ (bits - prefix).
Proof.
  intros Hp Hn Hc. cbv zeta. rewrite Z.eqb_eq, <- Z.land_assoc, Z.land_diag, !prefix_mask_spec by done.
  set (w := 2 ^ (bits - prefix)). assert (0 < w) by (apply Z.pow_pos_nonneg; lia).
  pose proof (Z.div_mod c w ltac:(lia)). pose proof (Z.mod_pos_bound c w ltac:(lia)).
  split; [nia|]. intros Hb. f_equal. apply (Z.div_unique_pos _ _ _ (c - n / w * w)); [lia|ring].
Qed.

(** An address of its family. *)
Definition address_ok (ip : IpAddr) : Prop := match ip with V4 a => 0 <= a < 2 ^ 32 | V6 a => 0 <= a < 2 ^ 128 end.

(** The block of a network address: its first address and its size. *)
Definition in_block (network : IpAddr) (prefix : Z) (ip : IpAddr) : Prop :=
  match network, ip with
  | V4 n, V4 c => n <= c < n + 2 ^ (32 - prefix)
  | V6 n, V6 c => n <= c < n + 2 ^ (128 - prefix)
  | _, _ => False
  end.

(** Parsed addresses are addresses of their family. *)
Lemma read_number_bound radix max zero limit s v r : 0 <= radix -> read_number radix max zero limit s = Some (v, r) -> 0 <= v <= limit.
Proof.
  intros Hr. unfold read_number. destruct (read_digits radix max s 0 0) as [[[w n] rest]|] eqn:E; [|done].
  assert (Hnn : forall s max acc n w m rest, 0 <= acc -> read_digits radix max s acc n = Some (w, m, rest) -> 0 <= w).
  { clear. intros s. induction s as [|c s IH]; intros max acc n w m rest Ha; cbn [read_digits]; [congruence|].
    unfold to_digit. set (d := if in_range 48 57 c then _ else _).
    assert (0 <= d) by (unfold d, in_range; repeat case_match; bool_to_prop; lia).
    destruct (Z.ltb_spec d radix); [|congruence].
    assert (0 <= acc * radix + d) by nia.
    destruct max as [x|]; [destruct (x <? S n)%nat; [done|]|]; by apply IH. }
  apply Hnn in E; [|lia]. destruct (n =? 0)%nat; [done|]. destruct (_ && _ && _); [done|].
  destruct (Z.ltb_spec limit w); [done|]. intros [= <- _]. lia.
Qed.

Lemma read_octets_bound count : forall index acc s v r, 0 <= acc -> read_octets count index acc s = Some (v, r) ->
  acc * 256 ^ Z.of_nat count <= v < (acc + 1) * 256 ^ Z.of_nat count.
Proof.
  induction count as [|count IH]; intros index acc s v r Ha; [cbn; intros [= <- _]; lia|].
  cbn [read_octets]. unfold read_separator.
  assert (Hgo : forall s, match read_number 10 (Some 3%nat) false 255 s with None => None | Some (o, s) => read_octets count (S index) (acc * 256 + o) s end = Some (v, r) ->
    acc * 256 ^ Z.of_nat (S count) <= v < (acc + 1) * 256 ^ Z.of_nat (S count)).
  { intros s'. destruct (read_number _ _ _ _ s') as [[o s'']|] eqn:Eo; [|done]. apply read_number_bound in Eo; [|lia].
    intros E. apply IH in E; [|lia]. rewrite Nat2Z.inj_succ, Z.pow_succ_r by lia. nia. }
  destruct index; [apply Hgo|]. destruct (read_given_char 46 s) as [[[] s']|]; [apply Hgo|done].
Qed.

Definition group_ok (g : Z) : Prop := 0 <= g <= 65535.

Lemma read_separator_some {A} sep index (inner : reader A) s a r :
  read_separator sep index inner s = Some (a, r) -> exists s', inner s' = Some (a, r).
Proof. unfold read_separator. destruct index; [eauto|]. destruct (read_given_char sep s) as [[u s1]|]; [eauto|done]. Qed.

Lemma read_groups_ok slots : forall limit i groups s gs v4 r, length groups = i -> (i + slots = limit)%nat -> Forall group_ok groups ->
  read_groups slots limit i groups s = (gs, v4, r) -> (length gs <= limit)%nat /\ Forall group_ok gs.
Proof.
  induction slots as [|slots IH]; intros limit i groups s gs v4 r Hlen Hlim Hok; cbn [read_groups].
  { intros [= <- _ _]. split; [lia|done]. }
  set (group := fun _ : unit => match read_separator 58 i (read_number 16 (Some 4%nat) true 65535) s with
    | Some (g, s') => read_groups slots limit (S i) (groups ++ [g]) s' | None => (groups, false, s) end).
  assert (Hg : group tt = (gs, v4, r) -> (length gs <= limit)%nat /\ Forall group_ok gs).
  { unfold group. destruct (read_separator 58 i _ s) as [[g s']|] eqn:E.
    - apply read_separator_some in E as [s1 E]. apply read_number_bound in E; [|lia]. apply IH.
      + rewrite length_app. cbn. lia.
      + lia.
      + apply Forall_app. split; [done|]. by constructor.
    - intros [= <- _ _]. split; [lia|done]. }
  destruct (Nat.ltb_spec i (limit - 1)); [|exact Hg].
  destruct (read_separator 58 i read_ipv4_addr s) as [[a s']|] eqn:E; [|exact Hg].
  apply read_separator_some in E as [s1 E]. apply read_octets_bound in E; [|lia]. cbn in E.
  intros [= <- _ _]. rewrite length_app. cbn. split; [lia|]. apply Forall_app. split; [done|].
  repeat constructor.
  - apply Z.div_pos; lia.
  - apply Z.lt_succ_r, Z.div_lt_upper_bound; lia.
  - apply Z.mod_pos_bound. lia.
  - pose proof (Z.mod_pos_bound a 65536 ltac:(lia)). lia.
Qed.

Lemma of_segments_bound gs : Forall group_ok gs -> 0 <= of_segments gs < 65536 ^ Z.of_nat (length gs).
Proof.
  intros Hg. unfold of_segments. induction gs as [|g gs IH] using rev_ind; [cbn; lia|].
  apply Forall_app in Hg as [H1 H2]. apply Forall_cons in H2 as [Hgo _]. specialize (IH H1).
  rewrite foldl_app, length_app. cbn [foldl length]. unfold group_ok in Hgo.
  replace (Z.of_nat (length gs + 1)) with (Z.succ (Z.of_nat (length gs))) by lia. rewrite Z.pow_succ_r by lia.
  set (p := 65536 ^ Z.of_nat (length gs)) in *. clearbody p. lia.
Qed.

Lemma segments_bound gs : Forall group_ok gs -> (length gs <= 8)%nat -> 0 <= of_segments gs < 2 ^ 128.
Proof.
  intros Hg Hl. pose proof (of_segments_bound gs Hg) as Hb. split; [lia|].
  eapply Z.lt_le_trans; [apply Hb|]. change (2 ^ 128) with (65536 ^ 8). apply Z.pow_le_mono_r; lia.
Qed.

Lemma read_ipv6_ok s a r : read_ipv6_addr s = Some (a, r) -> 0 <= a < 2 ^ 128.
Proof.
  unfold read_ipv6_addr. destruct (read_groups 8 8 0 [] s) as [[head v4] rest] eqn:Eh.
  apply read_groups_ok in Eh as [Hl Hok]; [|done..].
  destruct (Nat.eqb_spec (length head) 8).
  { intros [= <- _]. by apply segments_bound. }
  destruct v4; [done|]. destruct (read_given_char 58 rest) as [[u s1]|]; [|done].
  destruct (read_given_char 58 s1) as [[u' s2]|]; [|done].
  set (limit := (8 - (length head + 1))%nat).
  destruct (read_groups limit limit 0 [] s2) as [[tl v4'] rest'] eqn:Et.
  apply read_groups_ok in Et as [Hl' Hok']; [|done..]. intros [= <- _]. apply segments_bound.
  - rewrite !Forall_app. split_and!; [done| |done]. apply Forall_replicate. unfold group_ok. lia.
  - rewrite !length_app, length_replicate. unfold limit in Hl'. lia.
Qed.

Lemma parse_ip_ok s ip : parse_ip s = Some ip -> address_ok ip.
Proof.
  unfold parse_ip, parse_with, read_ip_addr. destruct (read_ipv4_addr s) as [[a r]|] eqn:E4.
  - destruct r; [|done]. intros [= <-]. apply read_octets_bound in E4; [|lia]. cbn in *. lia.
  - destruct (read_ipv6_addr s) as [[a r]|] eqn:E6; [|done]. destruct r; [|done]. intros [= <-]. by apply read_ipv6_ok in E6.
Qed.

Lemma parse_cidr_ok s network prefix : parse_cidr s = Ok (network, prefix) ->
  exists ip, address_ok ip /\
    match ip, network with
    | V4 raw, V4 n => 0 <= prefix <= 32 /\ n = Z.land raw (prefix_mask 32 prefix)
    | V6 raw, V6 n => 0 <= prefix <= 128 /\ n = Z.land raw (prefix_mask 128 prefix)
    | _, _ => False
    end.
Proof.
  unfold parse_cidr. destruct (split_once 47 s) as [[address p]|]; [|done].
  destruct (parse_ip address) as [ip|] eqn:Ei; [|done]. apply parse_ip_ok in Ei.
  destruct (parse_u8 p) as [q|] eqn:Ep; [|done].
  assert (0 <= q <= 255).
  { unfold parse_u8 in Ep. destruct (from_str_radix 10 p) as [w|]; [|done].
    repeat case_match; simplify_eq; by apply in_range_true. }
  destruct ip as [raw|raw]; case_match; try done; bool_to_prop; intros [= <- <-].
  - exists (V4 raw). split; [done|]. split; [lia|done].
  - exists (V6 raw). split; [done|]. split; [lia|done].
Qed.

(** What an object that was just made reads, and what others read after it. *)
Lemma make_true c v name st : make c v name true st =
  (Ok (ObjectArg c (Some (next st))), mk_values (<[next st := mk_entry v 1]> (table st)) (if next st =? i64_max then 1 else next st + 1)).
Proof. done. Qed.

(** C32: A CIDR block read from text is the block of addresses it denotes: the network address
    is its first address, with no host bits, and an address read from text is contained exactly
    when it is of the same family and lies between the network address and the last address of
    the block, for every prefix length from 0 to the width. *)
Theorem cidr_contains_block s network prefix t candidate st : 0 < next st < i64_max ->
  parse_cidr s = Ok (network, prefix) -> parse_ip t = Some candidate ->
  in_block network prefix network /\
  match network with V4 n => n mod 2 ^ (32 - prefix) = 0 | V6 n => n mod 2 ^ (128 - prefix) = 0 end /\
  exists cidr st1 ip st2,
    mux_net_cidr_parse (StringArg s) true st = (Ok cidr, st1) /\
    mux_net_ip_parse (StringArg t) true st1 = (Ok ip, st2) /\
    mux_net_cidr_prefix cidr st2 = prefix /\
    (mux_net_cidr_contains cidr ip st2 = true <-> in_block network prefix candidate).
Proof.
  intros Hst Hc Hi. destruct (parse_cidr_ok _ _ _ Hc) as (ip & Hip & Hn). pose proof (parse_ip_ok _ _ Hi) as Hcand.
  split.
  { destruct ip, network; try done; cbn; destruct Hn as [Hp _]; (split; [lia|]); (apply Z.lt_add_pos_r, Z.pow_pos_nonneg; lia). }
  split.
  { destruct ip, network; try done; destruct Hn as [Hp ->]; cbn in Hip; rewrite prefix_mask_spec by done; apply Z.mod_mul; apply Z.pow_nonzero; lia. }
  unfold mux_net_cidr_parse, mux_net_ip_parse. rewrite Hc, Hi. rewrite make_true, (proj2 (Z.eqb_neq (next st) i64_max)) by lia.
  eexists _, _, _, _. split; [done|]. rewrite make_true. cbn [next table]. split; [done|].
  set (tb := <[next st + 1:=_]> _).
  assert (L1 : tb !! next st = Some (mk_entry (Cidr network prefix) 1)).
  { unfold tb. rewrite lookup_insert_ne by lia. by rewrite lookup_insert_eq. }
  assert (L2 : tb !! (next st + 1) = Some (mk_entry (Ip candidate) 1)) by (unfold tb; by rewrite lookup_insert_eq).
  unfold mux_net_cidr_prefix, mux_net_cidr_contains, net_entry, id, get_value. cbn [table]. rewrite !bool_decide_true by done.
  rewrite L1, L2. cbn [result_bind negb]. rewrite L1, L2. cbn. split; [done|].
  destruct ip as [raw|raw], network as [n|n], candidate as [c|c]; try done; destruct Hn as [Hp ->]; by apply masked_eq.
Qed.

Lemma cidr_contains_block_witness :
  exists cidr st1 ip st2,
    mux_net_cidr_parse (StringArg (txt "10.1.2.3/8")) true no_values = (Ok cidr, st1) /\
    mux_net_ip_parse (StringArg (txt "10.255.0.1")) true st1 = (Ok ip, st2) /\
    mux_net_cidr_prefix cidr st2 = 8 /\
    (mux_net_cidr_contains cidr ip st2 = true <-> in_block (V4 (10 * 2 ^ 24)) 8 (V4 184483841)).
Proof.
  apply (cidr_contains_block (txt "10.1.2.3/8") (V4 (10 * 2 ^ 24)) 8 (txt "10.255.0.1") (V4 184483841) no_values).
  - cbn. width.
  - vm_compute. reflexivity.
  - vm_compute. reflexivity.
Defined.

(** Changing the port of a scoped IPv6 address drops the scope. *)
Example with_port_drops_scope :
  let '(r, st) := mux_net_socket_addr_parse (StringArg (txt "[fe80::1%3]:80")) true no_values in
  match r with
  | Err _ => False
  | Ok address =>
      mux_net_socket_to_string address st = txt "[fe80::1%3]:80" /\
      match mux_net_socket_with_port address 443 true st with
      | (Ok changed, st) => mux_net_socket_to_string changed st = txt "[fe80::1]:443"
      | _ => False
      end
  end.
Proof. vm_compute. split; reflexivity. Qed.
