(* ===== verification/Uuid.v ===== *)
(** * UUID values ([src/src/uuid.rs])

    A UUID is its 128-bit number, kept in the table of [ValueTable].  The functions of the
    uuid, sha1 and md5 crates are the class [UuidCrate].  [Err] carries the category and the
    message of the error. *)

From S2P Require Import Prelude Str Utf8 StdErrors ValueTable.

Definition RustUuid : Type := Z.

Inductive Variant : Type := NCS | RFC4122 | Microsoft | Future | OtherVariant.

Class UuidCrate := {
  parse_str : text -> result RustUuid text;
  hyphenated : RustUuid -> text;
  simple : RustUuid -> text;
  braced : RustUuid -> text;
  urn : RustUuid -> text;
  new_v8 : list Z -> RustUuid;
  from_gregorian_timestamp : Z -> Z -> list Z -> RustUuid;
  from_sorted_gregorian_timestamp : Z -> Z -> list Z -> RustUuid;
  get_version_num : RustUuid -> Z;
  get_variant : RustUuid -> Variant;
  sha1 : list Z -> list Z;
  md5 : list Z -> list Z;
}.

(** [from_bytes] and [as_bytes]: sixteen octets, most significant first. *)
Definition from_bytes (bytes : list Z) : RustUuid := foldl (fun acc b => acc * 256 + b) 0 bytes.
Definition as_bytes (u : RustUuid) : list Z := (fun i => Z.shiftr u (8 * Z.of_nat (15 - i)) mod 256) <$> seq 0 16.

(** The table, [PROCESS_NODE] and [CLOCK_SEQUENCE]. *)
Record uuid_state : Type := mk_uuids { uuids : values RustUuid; process_node : option (list Z); clock_sequence : Z }.

Definition with_uuids (vs : values RustUuid) (st : uuid_state) : uuid_state := mk_uuids vs (process_node st) (clock_sequence st).

(** The value behind a pointer: an object of the class with its handle, or another value. *)
Inductive uuid_arg : Type :=
| NullArg
| StringArg (s : text)
| BytesArg (bs : list Z)
| UuidArg (handle : option Z)
| OtherArg.

Definition failure : Type := StdErrorKind * text.

Section Uuid.
Context `{UuidCrate}.

(** [direct_uuid]: null when the allocation fails. *)
Definition direct_uuid (u : RustUuid) (allocated : bool) (st : uuid_state) : option Z * uuid_state :=
  let '(h, vs) := object u allocated (uuids st) in (h, with_uuids vs st).

Definition result_uuid (u : RustUuid) (allocated : bool) (st : uuid_state) : result uuid_arg failure * uuid_state :=
  match direct_uuid u allocated st with
  | (Some h, st) => (Ok (UuidArg (Some h)), st)
  | (None, st) => (Err (Parse, txt "failed to allocate Uuid value"), st)
  end.

Definition handle (v : uuid_arg) (st : uuid_state) : result Z text :=
  match v with
  | NullArg => Err (txt "Uuid value is null")
  | UuidArg (Some h) =>
      if (h <=? 0) || negb (match table (uuids st) !! h with Some _ => true | None => false end)
      then Err (txt "invalid Uuid value") else Ok h
  | _ => Err (txt "invalid Uuid value")
  end.

Definition uuid_by_handle (h : Z) (st : uuid_state) : result RustUuid text :=
  match get_value h (uuids st) with Some u => Ok u | None => Err (txt "invalid Uuid value") end.

Definition uuid_from_value (v : uuid_arg) (st : uuid_state) : result RustUuid text :=
  let? h := handle v st in uuid_by_handle h st.

Definition sql_uuid_string (v : uuid_arg) (st : uuid_state) : result text text :=
  let? u := uuid_from_value v st in Ok (hyphenated u).

Definition sql_uuid_value (s : text) (allocated : bool) (st : uuid_state) : result uuid_arg text * uuid_state :=
  match parse_str s with
  | Err e => (Err e, st)
  | Ok u =>
      match direct_uuid u allocated st with
      | (Some h, st) => (Ok (UuidArg (Some h)), st)
      | (None, st) => (Err (txt "could not allocate Uuid value"), st)
      end
  end.

(** The argument is a C string; [error] files a message under the category of the package. *)
Definition mux_uuid_parse_uuid (input : option (list Z)) (allocated : bool) (st : uuid_state) : result uuid_arg failure * uuid_state :=
  match input with
  | None => (Err (Invalid, txt "UUID input cannot be null"), st)
  | Some bytes =>
      match utf8_decode bytes with
      | None => (Err (NotUnicode, txt "UUID input must be valid UTF-8"), st)
      | Some s =>
          match sql_uuid_value s allocated st with
          | (Ok v, st) => (Ok v, st)
          | (Err m, st) => (Err (Parse, m), st)
          end
      end
  end.

Definition release (h : Z) (st : uuid_state) : uuid_state := with_uuids (drop_value h (uuids st)) st.
Definition copy_uuid (h : Z) (st : uuid_state) : Z * uuid_state :=
  let '(h, vs) := copy_value h (uuids st) in (h, with_uuids vs st).
Definition drop_uuid (h : Z) (st : uuid_state) : uuid_state := release h st.

Definition string_value (v : uuid_arg) : result text text := match v with StringArg s => Ok s | _ => Err (txt "expected string") end.
Definition bytes_value (v : uuid_arg) : result (list Z) text := match v with BytesArg bs => Ok bs | _ => Err (txt "expected bytes") end.
Definition parse_bytes (bytes : list Z) : result (list Z) text :=
  if (length bytes =? 16)%nat then Ok bytes else Err (txt "Uuid bytes must contain exactly 16 octets").

(** [get_or_init]: [random] is a fresh version 4 UUID. *)
Definition node (random : RustUuid) (st : uuid_state) : list Z * uuid_state :=
  match process_node st with
  | Some n => (n, st)
  | None =>
      let n := match take 6 (as_bytes random) with b :: r => Z.lor b 1 :: r | [] => [] end in
      (n, mk_uuids (uuids st) (Some n) (clock_sequence st))
  end.

(** [secs] and [nanos] are the time since the epoch. *)
Definition timestamp_uuid (sorted : bool) (secs nanos : Z) (random : RustUuid) (st : uuid_state) : RustUuid * uuid_state :=
  let sat z := Z.min u64_max z in
  let ticks := sat (sat (sat (secs + 12219292800) * 10000000) + nanos / 100) in
  let sequence := clock_sequence st in
  let st := mk_uuids (uuids st) (process_node st) ((sequence + 1) mod 2 ^ 16) in
  let '(n, st) := node random st in
  ((if sorted then from_sorted_gregorian_timestamp else from_gregorian_timestamp) ticks sequence n, st).

(** [bytes[i] = (bytes[i] & keep) | set]. *)
Definition stamp (i : nat) (keep set : Z) (bytes : list Z) : list Z :=
  match bytes !! i with Some b => <[i := Z.lor (Z.land b keep) set]> bytes | None => bytes end.

Definition namespace_hash (namespace : RustUuid) (name : list Z) (sha : bool) : RustUuid :=
  let bytes :=
    if sha then stamp 6 0x0f 0x50 (take 16 (sha1 (as_bytes namespace ++ name)))
    else stamp 6 0x0f 0x30 (md5 (as_bytes namespace ++ name)) in
  from_bytes (stamp 8 0x3f 0x80 bytes).

Definition fail (kind : StdErrorKind) (r : result RustUuid text) (allocated : bool) (st : uuid_state) : result uuid_arg failure * uuid_state :=
  match r with Ok u => result_uuid u allocated st | Err m => (Err (kind, m), st) end.

Definition mux_uuid_parse (v : uuid_arg) : bool -> uuid_state -> result uuid_arg failure * uuid_state :=
  fail Parse (let? s := string_value v in parse_str s).
Definition mux_uuid_from_bytes (v : uuid_arg) : bool -> uuid_state -> result uuid_arg failure * uuid_state :=
  fail Invalid (let? bs := bytes_value v in let? bs := parse_bytes bs in Ok (from_bytes bs)).
Definition mux_uuid_nil : bool -> uuid_state -> option Z * uuid_state := direct_uuid 0.
Definition mux_uuid_max : bool -> uuid_state -> option Z * uuid_state := direct_uuid (2 ^ 128 - 1).
Definition mux_uuid_v1 (secs nanos : Z) (random : RustUuid) (allocated : bool) (st : uuid_state) : option Z * uuid_state :=
  let '(u, st) := timestamp_uuid false secs nanos random st in direct_uuid u allocated st.
Definition mux_uuid_v3 (namespace name : uuid_arg) (allocated : bool) (st : uuid_state) : result uuid_arg failure * uuid_state :=
  fail Parse (let? ns := uuid_from_value namespace st in let? n := string_value name in Ok (namespace_hash ns (utf8 n) false)) allocated st.
Definition mux_uuid_v4 (random : RustUuid) : bool -> uuid_state -> option Z * uuid_state := direct_uuid random.
Definition mux_uuid_v5 (namespace name : uuid_arg) (allocated : bool) (st : uuid_state) : result uuid_arg failure * uuid_state :=
  fail Parse (let? ns := uuid_from_value namespace st in let? n := string_value name in Ok (namespace_hash ns (utf8 n) true)) allocated st.
Definition mux_uuid_v6 (secs nanos : Z) (random : RustUuid) (allocated : bool) (st : uuid_state) : option Z * uuid_state :=
  let '(u, st) := timestamp_uuid true secs nanos random st in direct_uuid u allocated st.
Definition mux_uuid_v7 (now : RustUuid) : bool -> uuid_state -> option Z * uuid_state := direct_uuid now.
Definition mux_uuid_v8 (v : uuid_arg) : bool -> uuid_state -> result uuid_arg failure * uuid_state :=
  fail Parse (let? bs := bytes_value v in let? bs := parse_bytes bs in Ok (new_v8 bs)).

(** [unwrap_or_default]. *)
Definition string_result (r : result text text) : text := match r with Ok s => s | Err _ => [] end.

Definition mux_uuid_to_string (v : uuid_arg) (st : uuid_state) : text := string_result (let? u := uuid_from_value v st in Ok (hyphenated u)).
Definition mux_uuid_to_compact (v : uuid_arg) (st : uuid_state) : text := string_result (let? u := uuid_from_value v st in Ok (simple u)).
Definition mux_uuid_to_braced (v : uuid_arg) (st : uuid_state) : text := string_result (let? u := uuid_from_value v st in Ok (braced u)).
Definition mux_uuid_to_urn (v : uuid_arg) (st : uuid_state) : text := string_result (let? u := uuid_from_value v st in Ok (urn u)).
Definition mux_uuid_to_bytes (v : uuid_arg) (st : uuid_state) : list Z :=
  match uuid_from_value v st with Ok u => as_bytes u | Err _ => [] end.
Definition mux_uuid_to_parts (v : uuid_arg) (st : uuid_state) : Z * Z :=
  match uuid_from_value v st with
  | Ok u => (as_i64 (as_u64 (Z.shiftr u 64)), as_i64 (as_u64 u))
  | Err _ => (0, 0)
  end.
Definition mux_uuid_is_nil (v : uuid_arg) (st : uuid_state) : bool := match uuid_from_value v st with Ok u => u =? 0 | Err _ => false end.
Definition mux_uuid_is_max (v : uuid_arg) (st : uuid_state) : bool := match uuid_from_value v st with Ok u => u =? 2 ^ 128 - 1 | Err _ => false end.
Definition mux_uuid_version (v : uuid_arg) (st : uuid_state) : option Z :=
  match uuid_from_value v st with Ok u => Some (get_version_num u) | Err _ => None end.
Definition mux_uuid_variant (v : uuid_arg) (st : uuid_state) : text :=
  match uuid_from_value v st with
  | Ok u => txt (match get_variant u with NCS => "ncs" | RFC4122 => "rfc4122" | Microsoft => "microsoft" | Future => "future" | OtherVariant => "unknown" end)
  | Err _ => []
  end.

Definition mux_uuid_from_parts (high low : Z) : bool -> uuid_state -> result uuid_arg failure * uuid_state :=
  result_uuid (Z.lor (Z.shiftl (as_u64 high) 64) (as_u64 low)).

End Uuid.

(** ** Numbers and octets *)

Lemma be_value l1 l2 (acc : Z) : foldl (fun acc b => acc * 256 + b) acc (l1 ++ l2) =
  foldl (fun acc b => acc * 256 + b) acc l1 * 256 ^ Z.of_nat (length l2) + from_bytes l2.
Proof.
  rewrite foldl_app. generalize (foldl (fun acc b => acc * 256 + b) acc l1) as a. clear.
  unfold from_bytes. induction l2 as [|b l2 IH] using rev_ind; intros a; [cbn; lia|].
  rewrite !foldl_app, length_app. cbn [foldl length]. rewrite IH.
  replace (Z.of_nat (length l2 + 1)) with (Z.succ (Z.of_nat (length l2))) by lia. rewrite Z.pow_succ_r by lia. ring.
Qed.

Lemma from_bytes_bound bs : Forall is_u8 bs -> 0 <= from_bytes bs < 256 ^ Z.of_nat (length bs).
Proof.
  intros Hb. induction bs as [|b bs IH] using rev_ind; [cbn; lia|].
  apply Forall_app in Hb as [H1 H2]. apply Forall_cons in H2 as [Hu _]. specialize (IH H1).
  unfold from_bytes. rewrite foldl_app, length_app. cbn [foldl length]. fold (from_bytes bs). unfold is_u8 in Hu.
  replace (Z.of_nat (length bs + 1)) with (Z.succ (Z.of_nat (length bs))) by lia. rewrite Z.pow_succ_r by lia.
  set (p := 256 ^ Z.of_nat (length bs)) in *. clearbody p. lia.
Qed.

Lemma from_bytes_digit bs i b : Forall is_u8 bs -> bs !! i = Some b ->
  Z.shiftr (from_bytes bs) (8 * Z.of_nat (length bs - 1 - i)) mod 256 = b.
Proof.
  intros Hb Hi. pose proof (lookup_lt_Some _ _ _ Hi) as Hlt. rewrite <- (take_drop_middle bs i b Hi) in Hb |- * at 1.
  apply Forall_app in Hb as [_ Hb]. apply Forall_cons in Hb as [Hb Hr].
  set (l2 := drop (S i) bs) in *. assert (Hl2 : length l2 = (length bs - 1 - i)%nat) by (unfold l2; rewrite length_drop; lia).
  rewrite <- Hl2. unfold from_bytes. change (take i bs ++ b :: l2) with (take i bs ++ [b] ++ l2). rewrite app_assoc, be_value.
  rewrite foldl_app. cbn [foldl]. fold (from_bytes (take i bs)). pose proof (from_bytes_bound l2 Hr) as Hbd.
  rewrite Z.shiftr_div_pow2 by lia. replace (2 ^ (8 * Z.of_nat (length l2))) with (256 ^ Z.of_nat (length l2))
    by (rewrite Z.pow_mul_r by lia; done).
  rewrite Z.div_add_l, Z.div_small, Z.add_0_r by (done || (apply Z.pow_nonzero; lia)).
  rewrite Z.add_comm, Z_mod_plus_full. by apply Z.mod_small.
Qed.

Lemma as_bytes_from_bytes bs : Forall is_u8 bs -> length bs = 16%nat -> as_bytes (from_bytes bs) = bs.
Proof.
  intros Hb Hl. apply list_eq. intros i. unfold as_bytes. rewrite list_lookup_fmap.
  destruct (decide (i < 16)%nat) as [Hi|Hi].
  - rewrite lookup_seq_lt by done. cbn [Nat.add fmap option_fmap option_map].
    destruct (lookup_lt_is_Some_2 bs i ltac:(lia)) as [b Eb]. rewrite Eb. f_equal.
    pose proof (from_bytes_digit bs i b Hb Eb) as E. rewrite Hl in E. exact E.
  - rewrite lookup_seq_ge by lia. cbn. symmetry. apply lookup_ge_None_2. lia.
Qed.

Lemma parts_high h l : is_i64 h -> is_u64 l -> as_i64 (as_u64 (Z.shiftr (Z.lor (Z.shiftl (as_u64 h) 64) l) 64)) = h.
Proof.
  intros Hh Hl. rewrite Z.shiftr_lor, Z.shiftr_shiftl_l, Z.sub_diag, Z.shiftl_0_r by lia.
  rewrite (Z.shiftr_div_pow2 l) by lia. rewrite Z.div_small, Z.lor_0_r by width. unfold as_u64. rewrite Zmod_mod.
  unfold as_i64. rewrite Zplus_mod_idemp_l. fold (as_i64 h). by apply as_i64_small.
Qed.

Lemma parts_low h l : 0 <= h -> is_i64 l -> as_i64 (as_u64 (Z.lor (Z.shiftl h 64) (as_u64 l))) = l.
Proof.
  intros Hh Hl. unfold as_u64 at 1. rewrite <- Z.land_ones by lia. rewrite Z.land_lor_distr_l.
  rewrite (Z.land_ones (Z.shiftl h 64)), Z.shiftl_mul_pow2, Z_mod_mult, Z.lor_0_l, Z.land_ones by lia.
  unfold as_u64. rewrite Zmod_mod. unfold as_i64. rewrite Zplus_mod_idemp_l. fold (as_i64 l). by apply as_i64_small.
Qed.

(** The octet that carries the version, the one that carries the variant. *)
Lemma stamp_bits b keep set : is_u8 b -> keep = 15 /\ (set = 0x50 \/ set = 0x30) \/ keep = 0x3f /\ set = 0x80 ->
  is_u8 (Z.lor (Z.land b keep) set) /\ (keep = 15 -> Z.lor (Z.land b keep) set / 16 = set / 16) /\
  (keep = 0x3f -> Z.lor (Z.land b keep) set / 64 = 2).
Proof.
  intros Hb Hc.
  assert (E : forallb (fun n => let b := Z.of_nat n in forallb (fun '(keep, set) =>
     in_range 0 255 (Z.lor (Z.land b keep) set) && ((negb (keep =? 15)) || (Z.lor (Z.land b keep) set / 16 =? set / 16)) &&
     ((negb (keep =? 63)) || (Z.lor (Z.land b keep) set / 64 =? 2))) [(15, 0x50); (15, 0x30); (0x3f, 0x80)]) (seq 0 256) = true)
    by (vm_compute; reflexivity).
  rewrite forallb_forall in E. specialize (E (Z.to_nat b)). rewrite in_seq in E. specialize (E ltac:(unfold is_u8 in Hb; lia)).
  cbv zeta in E. rewrite Z2Nat.id in E by (unfold is_u8 in Hb; lia). rewrite forallb_forall in E.
  specialize (E (keep, set)). destruct Hc as [[-> [-> | ->]]|[-> ->]]; specialize (E ltac:(cbn; tauto));
    apply andb_true_iff in E as [[E1 E2]%andb_true_iff E3]; cbn [Z.eqb Pos.eqb negb orb] in E2, E3; bool_to_prop;
    apply in_range_true in E1; (split; [unfold is_u8; lia|]); split; intros; try lia.
Qed.

(** What RFC 3174 and RFC 1321 say of the digests. *)
Class DigestLaws `{UuidCrate} : Prop := {
  sha1_octets m : length (sha1 m) = 20%nat /\ Forall is_u8 (sha1 m);
  md5_octets m : length (md5 m) = 16%nat /\ Forall is_u8 (md5 m);
}.

Section Laws.
Context `{DigestLaws}.

Lemma result_uuid_reads u st : 0 < next (uuids st) ->
  exists v st', result_uuid u true st = (Ok v, st') /\ uuid_from_value v st' = Ok u.
Proof.
  intros Hn. unfold result_uuid, direct_uuid, object, next_id. cbv beta iota zeta. eexists _, _. split; [done|].
  unfold uuid_from_value, handle, uuid_by_handle, get_value. cbn [uuids with_uuids table next].
  rewrite lookup_insert_eq, (proj2 (Z.leb_gt _ _)) by done. cbn [orb negb result_bind]. by rewrite lookup_insert_eq.
Qed.

Lemma stamp_spec i keep set bytes b : bytes !! i = Some b -> Forall is_u8 bytes ->
  is_u8 (Z.lor (Z.land b keep) set) ->
  stamp i keep set bytes = <[i := Z.lor (Z.land b keep) set]> bytes /\ length (stamp i keep set bytes) = length bytes /\
  Forall is_u8 (stamp i keep set bytes).
Proof.
  intros Hi Hf Hu. unfold stamp. rewrite Hi. split_and!; [done|by rewrite length_insert|]. by apply Forall_insert.
Qed.

(** The octets of a name-based UUID. *)
Lemma namespace_hash_octets ns name (sha : bool) :
  let bytes := as_bytes (namespace_hash ns name sha) in
  exists b6 b8, bytes !! 6%nat = Some b6 /\ bytes !! 8%nat = Some b8 /\
    b6 / 16 = (if sha then 5 else 3) /\ b8 / 64 = 2.
Proof.
  set (digest := if sha then take 16 (sha1 (as_bytes ns ++ name)) else md5 (as_bytes ns ++ name)).
  assert (Hd : length digest = 16%nat /\ Forall is_u8 digest).
  { unfold digest. destruct sha.
    - destruct (sha1_octets (as_bytes ns ++ name)) as [Hl Hf]. rewrite length_take, Hl. split; [done|by apply Forall_take].
    - apply md5_octets. }
  destruct Hd as [Hl Hf]. set (set := if sha then 0x50 else 0x30).
  assert (E : namespace_hash ns name sha = from_bytes (stamp 8 0x3f 0x80 (stamp 6 0x0f set digest)))
    by (unfold namespace_hash, digest, set; by destruct sha).
  destruct (lookup_lt_is_Some_2 digest 6 ltac:(lia)) as [d6 E6]. destruct (lookup_lt_is_Some_2 digest 8 ltac:(lia)) as [d8 E8].
  assert (is_u8 d6 /\ is_u8 d8) as [U6 U8] by (split; by eapply (proj1 (Forall_lookup _ _) Hf)).
  destruct (stamp_bits d6 15 set U6) as (V6 & W6 & _); [left; split; [done|]; unfold set; destruct sha; tauto|].
  destruct (stamp_bits d8 0x3f 0x80 U8) as (V8 & _ & W8); [by right|].
  destruct (stamp_spec 6 15 set digest d6 E6 Hf V6) as (S6 & L6 & F6).
  assert (E8' : stamp 6 15 set digest !! 8%nat = Some d8) by (rewrite S6, list_lookup_insert_ne by lia; done).
  destruct (stamp_spec 8 0x3f 0x80 _ d8 E8' F6 V8) as (S8 & L8 & F8).
  cbv zeta. rewrite E, as_bytes_from_bytes by (done || lia). rewrite S8.
  exists (Z.lor (Z.land d6 15) set), (Z.lor (Z.land d8 63) 128).
  rewrite list_lookup_insert_ne, S6, list_lookup_insert_eq by lia.
  rewrite list_lookup_insert_eq by (rewrite length_insert; lia). split_and!; [done|done| |by apply W8].
  rewrite (W6 eq_refl). unfold set. by destruct sha.
Qed.

(** UUID values round-trip.  A UUID made from two machine integers gives them back, one made
    from sixteen octets gives back those octets, and a name-based UUID of a namespace carries
    the version of its digest, 5 for SHA-1 and 3 for MD5, and the RFC 9562 variant. *)
Lemma uuid_roundtrips st high low bytes ns name : 0 < next (uuids st) -> is_i64 high -> is_i64 low ->
  Forall is_u8 bytes -> length bytes = 16%nat ->
  (exists v st', mux_uuid_from_parts high low true st = (Ok v, st') /\ mux_uuid_to_parts v st' = (high, low)) /\
  (exists v st', mux_uuid_from_bytes (BytesArg bytes) true st = (Ok v, st') /\ mux_uuid_to_bytes v st' = bytes) /\
  (forall u, uuid_from_value ns st = Ok u ->
   forall sha : bool, exists v st', (if sha then mux_uuid_v5 else mux_uuid_v3) ns (StringArg name) true st = (Ok v, st') /\
     exists b6 b8, mux_uuid_to_bytes v st' !! 6%nat = Some b6 /\ mux_uuid_to_bytes v st' !! 8%nat = Some b8 /\
       b6 / 16 = (if sha then 5 else 3) /\ b8 / 64 = 2).
Proof.
  intros Hn Hh Hl Hb Hlen. split_and!.
  - unfold mux_uuid_from_parts, mux_uuid_to_parts.
    destruct (result_uuid_reads (Z.lor (Z.shiftl (as_u64 high) 64) (as_u64 low)) st Hn) as (v & st' & -> & E).
    exists v, st'. split; [done|]. rewrite E.
    pose proof (Z.mod_pos_bound low (2 ^ 64) ltac:(lia)). pose proof (Z.mod_pos_bound high (2 ^ 64) ltac:(lia)).
    f_equal; [apply parts_high|apply parts_low]; try done; unfold as_u64; width.
  - unfold mux_uuid_from_bytes, parse_bytes, mux_uuid_to_bytes. cbn [bytes_value result_bind]. rewrite Hlen. cbn [Nat.eqb result_bind fail].
    destruct (result_uuid_reads (from_bytes bytes) st Hn) as (v & st' & -> & E). exists v, st'. split; [done|]. rewrite E.
    by apply as_bytes_from_bytes.
  - intros u Hu sha.
    assert (Hv : exists v st', (if sha then mux_uuid_v5 else mux_uuid_v3) ns (StringArg name) true st = (Ok v, st') /\
       uuid_from_value v st' = Ok (namespace_hash u (utf8 name) sha)).
    { destruct sha; unfold mux_uuid_v5, mux_uuid_v3; rewrite Hu; cbn [result_bind string_value fail]; by apply result_uuid_reads. }
    destruct Hv as (v & st' & -> & E). exists v, st'. split; [done|]. unfold mux_uuid_to_bytes. rewrite E. apply namespace_hash_octets.
Qed.
End Laws.

(** A crate with constant digests and no texts. *)
Definition demo_crate : UuidCrate := {|
  parse_str := fun _ => Err []; hyphenated := fun _ => []; simple := fun _ => []; braced := fun _ => []; urn := fun _ => [];
  new_v8 := from_bytes; from_gregorian_timestamp := fun t _ _ => t; from_sorted_gregorian_timestamp := fun t _ _ => t;
  get_version_num := fun u => u / 2 ^ 76 mod 16; get_variant := fun _ => RFC4122;
  sha1 := fun _ => replicate 20 255; md5 := fun _ => replicate 16 255;
|}.

Lemma demo_crate_laws : @DigestLaws demo_crate.
Proof. split; intros m; (split; [done|]); apply Forall_replicate; unfold is_u8; lia. Qed.
