(* ===== verification/DateTypes.v ===== *)
(** * Calendar and clock values ([src/src/datetime_types.rs])

    Dates, times, instants, durations and periods as objects over the table of [ValueTable].
    The chrono and chrono-tz crates are the class [Chrono].  An argument is the value behind a
    pointer; an object is its class and the handle stored in it; [Err] carries the message of a
    [DateTimeError].  A call that can panic answers an [option], [None] for the panic. *)

From S2P Require Import Prelude AssocList Object Value Str Utf8 ValueTable.

Definition NANOS_PER_SECOND : Z := 1000000000.
Definition NANOS_PER_MILLI : Z := 1000000.
Definition NANOS_PER_MICRO : Z := 1000.
Definition i32_min : Z := - 2 ^ 31.
Definition i32_max : Z := 2 ^ 31 - 1.
Definition u32_max : Z := 2 ^ 32 - 1.

Definition in_i128 (z : Z) : option Z := try_from_range (- 2 ^ 127) (2 ^ 127 - 1) z.
Definition in_i64 (z : Z) : option Z := try_from_range i64_min i64_max z.

(** What [TimeZone::from_local_datetime] answers. *)
Inductive LocalResult (A : Type) : Type := Single (a : A) | Ambiguous (earlier later : A) | LocalNone.
Arguments Single {A}. Arguments Ambiguous {A}. Arguments LocalNone {A}.

(** The operations of chrono and chrono-tz that the file calls. *)
Class Chrono := {
  NaiveDate : Type;
  NaiveTime : Type;
  UtcDateTime : Type;
  Tz : Type;
  Zoned : Type;
  TimeDelta : Type;
  from_ymd_opt : Z -> Z -> Z -> option NaiveDate;
  date_year : NaiveDate -> Z;
  date_month : NaiveDate -> Z;
  date_day : NaiveDate -> Z;
  date_weekday : NaiveDate -> Z;
  date_pred_opt : NaiveDate -> option NaiveDate;
  date_checked_add_signed : NaiveDate -> TimeDelta -> option NaiveDate;
  date_parse_from_str : text -> text -> result NaiveDate text;
  date_format : NaiveDate -> text -> text;
  date_eqb : NaiveDate -> NaiveDate -> bool;
  date_cmp : NaiveDate -> NaiveDate -> comparison;
  date_hashed : NaiveDate -> list hwrite;
  from_hms_nano_opt : Z -> Z -> Z -> Z -> option NaiveTime;
  time_hour : NaiveTime -> Z;
  time_minute : NaiveTime -> Z;
  time_second : NaiveTime -> Z;
  time_nanosecond : NaiveTime -> Z;
  time_parse_from_str : text -> text -> result NaiveTime text;
  time_format : NaiveTime -> text -> text;
  time_eqb : NaiveTime -> NaiveTime -> bool;
  time_cmp : NaiveTime -> NaiveTime -> comparison;
  time_hashed : NaiveTime -> list hwrite;
  from_timestamp : Z -> Z -> option UtcDateTime;
  timestamp : UtcDateTime -> Z;
  timestamp_subsec_nanos : UtcDateTime -> Z;
  utc_and_time : NaiveDate -> NaiveTime -> UtcDateTime;
  utc_date : UtcDateTime -> NaiveDate;
  utc_time : UtcDateTime -> NaiveTime;
  parse_from_rfc3339 : text -> result UtcDateTime text;
  datetime_parse_from_str : text -> text -> result UtcDateTime text;
  naive_parse_from_str : text -> text -> result UtcDateTime text;
  to_rfc3339 : UtcDateTime -> text;
  utc_format : UtcDateTime -> text -> text;
  utc_eqb : UtcDateTime -> UtcDateTime -> bool;
  utc_cmp : UtcDateTime -> UtcDateTime -> comparison;
  utc_hashed : UtcDateTime -> list hwrite;
  tz_parse : text -> option Tz;
  tz_name : Tz -> text;
  tz_utc : Tz;
  tz_eqb : Tz -> Tz -> bool;
  tz_hashed : Tz -> list hwrite;
  from_local_datetime : Tz -> NaiveDate -> NaiveTime -> LocalResult Zoned;
  from_utc_datetime : Tz -> UtcDateTime -> Zoned;
  zoned_utc : Zoned -> UtcDateTime;
  zoned_timezone : Zoned -> Tz;
  zoned_offset : Zoned -> Z;
  zoned_date_naive : Zoned -> NaiveDate;
  zoned_time_of : Zoned -> NaiveTime;
  zoned_to_rfc3339 : Zoned -> text;
  zoned_checked_add_signed : Zoned -> TimeDelta -> option Zoned;
  zoned_eqb : Zoned -> Zoned -> bool;
  zoned_cmp : Zoned -> Zoned -> comparison;
  zoned_hashed : Zoned -> list hwrite;
  i128_hashed : Z -> list hwrite;
  timedelta_days : Z -> option TimeDelta;
  timedelta_seconds : Z -> option TimeDelta;
  timedelta_nanoseconds : Z -> TimeDelta;
}.

Section DateTypes.
Context `{Chrono}.

Inductive DateValue : Type :=
| Date (d : NaiveDate)
| Time (t : NaiveTime)
| DateTime (dt : UtcDateTime)
| ZonedDateTime (z : Zoned)
| LocalResolution (zone : Tz) (earlier later : option Zoned)
| Instant (nanos : Z)
| Duration (nanos : Z)
| Period (years months days : Z).

(** The classes registered by [type_id!]. *)
Inductive date_class : Type :=
| DateClass | TimeClass | DateTimeClass | ZonedDateTimeClass | LocalResolutionClass | InstantClass | DurationClass | PeriodClass
| ForeignClass.

#[export] Instance date_class_eq_dec : EqDecision date_class.
Proof using. solve_decision. Defined.

Inductive date_arg : Type :=
| NullArg
| StringArg (s : text)
| ObjectArg (c : date_class) (handle : option Z)
| OtherArg.

Definition date_state : Type := values DateValue.

(** ** The table *)

Definition next_id (st : date_state) : Z * date_state := ValueTable.next_id st.
Definition copy_value (id : Z) (st : date_state) : Z * date_state := ValueTable.copy_value id st.
Definition drop_value (id : Z) (st : date_state) : date_state := ValueTable.drop_value id st.

Definition object (c : date_class) (v : DateValue) (allocated : bool) (st : date_state) : date_arg * date_state :=
  match ValueTable.object v allocated st with
  | (Some id, st) => (ObjectArg c (Some id), st)
  | (None, st) => (NullArg, st)
  end.

Definition object_result (o : date_arg) (name : string) : result date_arg text :=
  match o with ObjectArg c h => Ok (ObjectArg c h) | _ => Err (txt "could not allocate " ++ txt name) end.

(** [object_result(object(..), name)]. *)
Definition make (c : date_class) (v : DateValue) (name : string) (allocated : bool) (st : date_state) : result date_arg text * date_state :=
  let '(o, st) := object c v allocated st in (object_result o name, st).

Definition id (v : date_arg) (c : date_class) (name : string) (st : date_state) : result Z text :=
  match v with
  | ObjectArg c' h =>
      if negb (bool_decide (c' = c)) then Err (txt "expected " ++ txt name ++ txt " value")
      else
        match h with
        | None => Err (txt "invalid " ++ txt name ++ txt " value")
        | Some id => match table st !! id with Some _ => Ok id | None => Err (txt name ++ txt " value is closed") end
        end
  | _ => Err (txt "expected " ++ txt name ++ txt " value")
  end.

Definition value (v : date_arg) (c : date_class) (name : string) (st : date_state) : result DateValue text :=
  let? id := id v c name st in
  match get_value id st with Some v => Ok v | None => Err (txt name ++ txt " value is closed") end.

(** The lookups of the methods: a value of the class that is of another kind is an error as
    well. *)
Definition as_date (v : date_arg) (st : date_state) : result NaiveDate text :=
  let? x := value v DateClass "Date" st in match x with Date d => Ok d | _ => Err (txt "expected Date value") end.
Definition as_time (v : date_arg) (st : date_state) : result NaiveTime text :=
  let? x := value v TimeClass "Time" st in match x with Time t => Ok t | _ => Err (txt "expected Time value") end.
Definition as_datetime (v : date_arg) (st : date_state) : result UtcDateTime text :=
  let? x := value v DateTimeClass "DateTime" st in match x with DateTime dt => Ok dt | _ => Err (txt "expected DateTime value") end.
Definition as_zoned (v : date_arg) (st : date_state) : result Zoned text :=
  let? x := value v ZonedDateTimeClass "ZonedDateTime" st in
  match x with ZonedDateTime z => Ok z | _ => Err (txt "expected ZonedDateTime value") end.
Definition as_instant (v : date_arg) (st : date_state) : result Z text :=
  let? x := value v InstantClass "Instant" st in match x with Instant n => Ok n | _ => Err (txt "expected Instant value") end.
Definition as_duration (v : date_arg) (st : date_state) : result Z text :=
  let? x := value v DurationClass "Duration" st in match x with Duration n => Ok n | _ => Err (txt "expected Duration value") end.
Definition as_period (v : date_arg) (st : date_state) : result (Z * Z * Z) text :=
  let? x := value v PeriodClass "Period" st in
  match x with Period years months days => Ok (years, months, days) | _ => Err (txt "expected Period value") end.

Definition text_of (v : date_arg) (label : string) : result text text :=
  match v with StringArg s => Ok s | _ => Err (txt label ++ txt " must be a string") end.

(** ** Equality, order and hash *)

Definition callback_value (v : date_arg) (st : date_state) : option DateValue :=
  match v with ObjectArg _ (Some id) => get_value id st | _ => None end.

Definition opt_eqb {A} (eqb : A -> A -> bool) (a b : option A) : bool :=
  match a, b with Some a, Some b => eqb a b | None, None => true | _, _ => false end.
Definition opt_cmp {A} (cmp : A -> A -> comparison) (a b : option A) : comparison :=
  match a, b with Some a, Some b => cmp a b | None, None => Eq | None, Some _ => Lt | Some _, None => Gt end.

(** The derived [PartialEq]. *)
Definition date_value_eqb (a b : DateValue) : bool :=
  match a, b with
  | Date a, Date b => date_eqb a b
  | Time a, Time b => time_eqb a b
  | DateTime a, DateTime b => utc_eqb a b
  | ZonedDateTime a, ZonedDateTime b => zoned_eqb a b
  | LocalResolution az ae al, LocalResolution bz be bl => tz_eqb az bz && opt_eqb zoned_eqb ae be && opt_eqb zoned_eqb al bl
  | Instant a, Instant b | Duration a, Duration b => a =? b
  | Period ay am ad, Period by_ bm bd => (ay =? by_) && (am =? bm) && (ad =? bd)
  | _, _ => false
  end.

Definition date_equals (a b : date_arg) (st : date_state) : bool :=
  opt_eqb date_value_eqb (callback_value a st) (callback_value b st).

Definition rank (v : DateValue) : Z :=
  match v with
  | Date _ => 0 | Time _ => 1 | DateTime _ => 2 | ZonedDateTime _ => 3 | LocalResolution _ _ _ => 4
  | Instant _ => 5 | Duration _ => 6 | Period _ _ _ => 7
  end.

(** [Ordering::then_with]. *)
Definition then_with (a b : comparison) : comparison := match a with Eq => b | _ => a end.

Definition date_value_cmp (a b : DateValue) : comparison :=
  if negb (rank a =? rank b) then rank a ?= rank b
  else
    match a, b with
    | Date a, Date b => date_cmp a b
    | Time a, Time b => time_cmp a b
    | DateTime a, DateTime b => utc_cmp a b
    | ZonedDateTime a, ZonedDateTime b => zoned_cmp a b
    | LocalResolution az ae al, LocalResolution bz be bl =>
        then_with (lex_cmp Z.compare (utf8 (tz_name az)) (utf8 (tz_name bz))) (then_with (opt_cmp zoned_cmp ae be) (opt_cmp zoned_cmp al bl))
    | Instant a, Instant b | Duration a, Duration b => a ?= b
    | Period ay am ad, Period by_ bm bd => then_with (ay ?= by_) (then_with (am ?= bm) (ad ?= bd))
    | _, _ => Eq
    end.

Definition ordering (c : comparison) : Z := match c with Lt => -1 | Eq => 0 | Gt => 1 end.

Definition date_compare (a b : date_arg) (st : date_state) : Z :=
  match callback_value a st, callback_value b st with
  | Some a, Some b => ordering (date_value_cmp a b)
  | None, Some _ => -1
  | Some _, None => 1
  | None, None => 0
  end.

(** The words the derived [Hash] writes. *)
Definition opt_hashed {A} (f : A -> list hwrite) (o : option A) : list hwrite :=
  match o with None => [WDiscriminant 0] | Some a => WDiscriminant 1 :: f a end.
Definition date_value_hashed (v : DateValue) : list hwrite :=
  WDiscriminant (rank v) ::
  match v with
  | Date d => date_hashed d
  | Time t => time_hashed t
  | DateTime dt => utc_hashed dt
  | ZonedDateTime z => zoned_hashed z
  | LocalResolution zone earlier later => tz_hashed zone ++ opt_hashed zoned_hashed earlier ++ opt_hashed zoned_hashed later
  | Instant n | Duration n => i128_hashed n
  | Period years months days => [WI64 years; WI64 months; WI64 days]
  end.
Definition date_hash `{Floats} (v : date_arg) (st : date_state) : Z := default_hasher (opt_hashed date_value_hashed (callback_value v st)).

(** ** Parts *)

Definition try_i32 (z : Z) : option Z := try_from_range i32_min i32_max z.
Definition try_u32 (z : Z) : option Z := try_from_range 0 u32_max z.
Definition or_err {A} (o : option A) (e : string) : result A text := match o with Some a => Ok a | None => Err (txt e) end.

Definition date_parts (year month day : Z) : result NaiveDate text :=
  let? year := or_err (try_i32 year) "date year is out of range" in
  let? month := or_err (try_u32 month) "date month must be between 1 and 12" in
  let? day := or_err (try_u32 day) "date day must be positive" in
  or_err (from_ymd_opt year month day) "invalid calendar date".

Definition time_parts (hour minute second nanos : Z) : result NaiveTime text :=
  let? hour := or_err (try_u32 hour) "time hour is out of range" in
  let? minute := or_err (try_u32 minute) "time minute is out of range" in
  let? second := or_err (try_u32 second) "time second is out of range" in
  let? nanos := or_err (try_u32 nanos) "time nanosecond is out of range" in
  or_err (from_hms_nano_opt hour minute second nanos) "invalid clock time".

Definition unix_nanos (dt : UtcDateTime) : result Z text :=
  or_err (in_i128 (timestamp dt * NANOS_PER_SECOND) ≫= fun v => in_i128 (v + timestamp_subsec_nanos dt))
    "timestamp exceeds the supported range".

(** [div_euclid] and [rem_euclid] by a positive number. *)
Definition datetime_from_nanos (nanos : Z) : result UtcDateTime text :=
  let seconds := nanos / NANOS_PER_SECOND in
  let fraction := nanos mod NANOS_PER_SECOND in
  let? seconds := or_err (in_i64 seconds) "timestamp exceeds the supported range" in
  or_err (from_timestamp seconds fraction) "timestamp exceeds the supported range".

Definition date_last_day (year month : Z) : Z :=
  let next :=
    if month =? 12 then try_i32 (year + 1) ≫= fun next_year => from_ymd_opt next_year 1 1
    else from_ymd_opt year (month + 1) 1 in
  match next ≫= date_pred_opt with Some d => date_day d | None => 28 end.

(** ** Dates *)

(** [None]: the null pointer. *)
Definition mux_datetime_date_new (allocated : bool) (st : date_state) : date_arg * date_state :=
  match from_ymd_opt 1970 1 1 with
  | None => (NullArg, st)
  | Some date => object DateClass (Date date) allocated st
  end.

(** An error, or the object made of what was computed. *)
Definition make_or {A} (r : result A text) (c : date_class) (con : A -> DateValue) (name : string) (allocated : bool) (st : date_state)
    : result date_arg text * date_state :=
  match r with Ok a => make c (con a) name allocated st | Err e => (Err e, st) end.

Definition mux_datetime_date_from_parts (year month day : Z) : bool -> date_state -> result date_arg text * date_state :=
  make_or (date_parts year month day) DateClass Date "Date".

Definition map_err {A} (r : result A text) (prefix : string) : result A text :=
  match r with Ok a => Ok a | Err e => Err (txt prefix ++ e) end.

Definition mux_datetime_date_parse (v : date_arg) : bool -> date_state -> result date_arg text * date_state :=
  make_or (let? s := text_of v "date" in map_err (date_parse_from_str s (txt "%Y-%m-%d")) "invalid ISO date: ") DateClass Date "Date".

Definition mux_datetime_date_to_string (v : date_arg) (st : date_state) : text :=
  match as_date v st with Ok d => date_format d (txt "%Y-%m-%d") | Err _ => [] end.

Definition mux_datetime_date_format (v pattern : date_arg) (st : date_state) : result text text :=
  let? pattern := text_of pattern "date format pattern" in
  let? d := as_date v st in
  Ok (date_format d pattern).

(** The macro [date_field!]. *)
Definition date_field (field : NaiveDate -> Z) (v : date_arg) (st : date_state) : Z :=
  match as_date v st with Ok d => field d | Err _ => -1 end.
Definition mux_datetime_date_year : date_arg -> date_state -> Z := date_field date_year.
Definition mux_datetime_date_month : date_arg -> date_state -> Z := date_field date_month.
Definition mux_datetime_date_day : date_arg -> date_state -> Z := date_field date_day.
Definition mux_datetime_date_weekday : date_arg -> date_state -> Z := date_field date_weekday.

Definition mux_datetime_date_add_days (v : date_arg) (days : Z) (allocated : bool) (st : date_state) : option (result date_arg text * date_state) :=
  match as_date v st with
  | Err e => Some (Err e, st)
  | Ok date =>
      match timedelta_days days with
      | None => None
      | Some delta =>
          Some (make_or (or_err (date_checked_add_signed date delta) "date addition exceeds the supported range") DateClass Date "Date" allocated st)
      end
  end.

(** ** Times *)

Definition mux_datetime_time_new (allocated : bool) (st : date_state) : date_arg * date_state :=
  match from_hms_nano_opt 0 0 0 0 with
  | None => (NullArg, st)
  | Some time => object TimeClass (Time time) allocated st
  end.

Definition mux_datetime_time_from_parts (hour minute second nanos : Z) : bool -> date_state -> result date_arg text * date_state :=
  make_or (time_parts hour minute second nanos) TimeClass Time "Time".

Definition mux_datetime_time_parse (v : date_arg) : bool -> date_state -> result date_arg text * date_state :=
  make_or
    (let? s := text_of v "time" in
     map_err (match time_parse_from_str s (txt "%H:%M:%S%.f") with
              | Ok t => Ok t
              | Err _ => time_parse_from_str s (txt "%H:%M:%S")
              end) "invalid ISO time: ") TimeClass Time "Time".

Definition mux_datetime_time_to_string (v : date_arg) (st : date_state) : text :=
  match as_time v st with Ok t => time_format t (txt "%H:%M:%S%.f") | Err _ => [] end.

Definition mux_datetime_time_format (v pattern : date_arg) (st : date_state) : result text text :=
  let? pattern := text_of pattern "time format pattern" in
  let? t := as_time v st in
  Ok (time_format t pattern).

(** The macro [time_field!]. *)
Definition time_field (field : NaiveTime -> Z) (v : date_arg) (st : date_state) : Z :=
  match as_time v st with Ok t => field t | Err _ => -1 end.
Definition mux_datetime_time_hour : date_arg -> date_state -> Z := time_field time_hour.
Definition mux_datetime_time_minute : date_arg -> date_state -> Z := time_field time_minute.
Definition mux_datetime_time_second : date_arg -> date_state -> Z := time_field time_second.
Definition mux_datetime_time_nanosecond : date_arg -> date_state -> Z := time_field time_nanosecond.

(** ** Dates with times *)

Definition mux_datetime_datetime_new (allocated : bool) (st : date_state) : date_arg * date_state :=
  match from_timestamp 0 0 with
  | None => (NullArg, st)
  | Some dt => object DateTimeClass (DateTime dt) allocated st
  end.

Definition mux_datetime_datetime_now (now : UtcDateTime) : bool -> date_state -> date_arg * date_state :=
  object DateTimeClass (DateTime now).

Definition mux_datetime_datetime_from_timestamp (seconds nanos : Z) : bool -> date_state -> result date_arg text * date_state :=
  make_or
    (if negb (in_range 0 999999999 nanos) then Err (txt "nanoseconds must be between 0 and 999999999")
     else or_err (from_timestamp seconds nanos) "timestamp exceeds the supported range") DateTimeClass DateTime "DateTime".

Definition mux_datetime_datetime_from_date_time (date time : date_arg) (allocated : bool) (st : date_state) : result date_arg text * date_state :=
  make_or (let? d := as_date date st in let? t := as_time time st in Ok (utc_and_time d t)) DateTimeClass DateTime "DateTime" allocated st.

Definition mux_datetime_datetime_parse (v : date_arg) : bool -> date_state -> result date_arg text * date_state :=
  make_or (let? s := text_of v "datetime" in map_err (parse_from_rfc3339 s) "invalid RFC 3339 datetime: ") DateTimeClass DateTime "DateTime".

Definition mux_datetime_datetime_parse_pattern (v pattern : date_arg) : bool -> date_state -> result date_arg text * date_state :=
  make_or
    (let? input := text_of v "datetime" in
     let? pattern := text_of pattern "datetime parse pattern" in
     match datetime_parse_from_str input pattern with
     | Ok dt => Ok dt
     | Err _ => map_err (naive_parse_from_str input pattern) "invalid datetime for pattern: "
     end) DateTimeClass DateTime "DateTime".

Definition mux_datetime_datetime_to_string (v : date_arg) (st : date_state) : text :=
  match as_datetime v st with Ok dt => to_rfc3339 dt | Err _ => [] end.

Definition mux_datetime_datetime_format (v pattern : date_arg) (st : date_state) : result text text :=
  let? pattern := text_of pattern "datetime format pattern" in
  let? dt := as_datetime v st in
  Ok (utc_format dt pattern).

Definition mux_datetime_datetime_unix_seconds (v : date_arg) (st : date_state) : result Z text :=
  let? dt := as_datetime v st in Ok (timestamp dt).

Definition mux_datetime_datetime_unix_nanos (v : date_arg) (st : date_state) : result Z text :=
  let? dt := as_datetime v st in
  let? nanos := unix_nanos dt in
  or_err (in_i64 nanos) "nanosecond timestamp exceeds int range".

(** The unit value is [OtherArg]. *)
Definition mux_datetime_datetime_date (v : date_arg) (allocated : bool) (st : date_state) : date_arg * date_state :=
  match as_datetime v st with Ok dt => object DateClass (Date (utc_date dt)) allocated st | Err _ => (OtherArg, st) end.
Definition mux_datetime_datetime_time (v : date_arg) (allocated : bool) (st : date_state) : date_arg * date_state :=
  match as_datetime v st with Ok dt => object TimeClass (Time (utc_time dt)) allocated st | Err _ => (OtherArg, st) end.

Definition result_ok {A} (r : result A text) : option A := match r with Ok a => Some a | Err _ => None end.

Definition mux_datetime_datetime_add_duration (v duration : date_arg) (allocated : bool) (st : date_state) : result date_arg text * date_state :=
  make_or
    (let? dt := as_datetime v st in
     let? nanos := as_duration duration st in
     let? current := unix_nanos dt in
     or_err (in_i128 (current + nanos) ≫= fun nanos => result_ok (datetime_from_nanos nanos))
       "datetime addition exceeds the supported range") DateTimeClass DateTime "DateTime" allocated st.

(** For SQL parameters and columns. *)
Definition sql_datetime_string (v : date_arg) (st : date_state) : result text text :=
  let? dt := as_datetime v st in Ok (to_rfc3339 dt).

Definition sql_datetime_value (s : text) : bool -> date_state -> result date_arg text * date_state :=
  make_or (map_err (parse_from_rfc3339 s) "invalid RFC 3339 datetime: ") DateTimeClass DateTime "DateTime".

Definition mux_datetime_parse_datetime (input : option (list Z)) (allocated : bool) (st : date_state) : result date_arg text * date_state :=
  match input with
  | None => (Err (txt "datetime input cannot be null"), st)
  | Some bytes =>
      match utf8_decode bytes with
      | None => (Err (txt "datetime input must be valid UTF-8"), st)
      | Some s => sql_datetime_value s allocated st
      end
  end.

(** ** Dates with times in a zone *)

Definition timezone (v : date_arg) : result Tz text :=
  let? name := text_of v "timezone" in
  match tz_parse name with Some z => Ok z | None => Err (txt "unknown IANA timezone '" ++ name ++ txt "'") end.

Definition zoned_value (z : Zoned) : bool -> date_state -> result date_arg text * date_state :=
  make ZonedDateTimeClass (ZonedDateTime z) "ZonedDateTime".

(** [result(zoned_value(..))] of what was computed. *)
Definition zoned_or (r : result Zoned text) (allocated : bool) (st : date_state) : result date_arg text * date_state :=
  match r with Ok z => zoned_value z allocated st | Err e => (Err e, st) end.

Definition optional_zoned (z : option Zoned) (allocated : bool) (st : date_state) : result (option date_arg) text * date_state :=
  match z with
  | None => (Ok None, st)
  | Some z => match zoned_value z allocated st with (Ok o, st) => (Ok (Some o), st) | (Err e, st) => (Err e, st) end
  end.

Definition local_resolution (date time zone : date_arg) (st : date_state) : result (Tz * option Zoned * option Zoned) text :=
  let? d := as_date date st in
  let? t := as_time time st in
  let? zone := timezone zone in
  Ok (match from_local_datetime zone d t with
      | Single z => (zone, Some z, None)
      | Ambiguous earlier later => (zone, Some earlier, Some later)
      | LocalNone => (zone, None, None)
      end).

Definition mux_datetime_zoned_datetime_new (allocated : bool) (st : date_state) : result date_arg text * date_state :=
  match from_timestamp 0 0 with
  | None => (Err (txt "failed to construct Unix epoch"), st)
  | Some utc => let '(o, st) := object ZonedDateTimeClass (ZonedDateTime (from_utc_datetime tz_utc utc)) allocated st in (Ok o, st)
  end.

Definition mux_datetime_zoned_datetime_from_local (date time zone : date_arg) (allocated : bool) (st : date_state) : result date_arg text * date_state :=
  match local_resolution date time zone st with
  | Ok (_, Some z, None) => zoned_value z allocated st
  | Ok (zone, Some _, Some _) => (Err (txt "ambiguous local time in " ++ tz_name zone), st)
  | Ok (zone, None, _) => (Err (txt "nonexistent local time in " ++ tz_name zone), st)
  | Err e => (Err e, st)
  end.

Definition value_from_date_value (c : date_class) (v : DateValue) (allocated : bool) (st : date_state) : result date_arg text * date_state :=
  match object c v allocated st with
  | (ObjectArg c h, st) => (Ok (ObjectArg c h), st)
  | (_, st) => (Err (txt "could not allocate datetime resolution"), st)
  end.

Definition mux_datetime_zoned_datetime_resolve_local (date time zone : date_arg) (allocated : bool) (st : date_state) : result date_arg text * date_state :=
  match local_resolution date time zone st with
  | Ok (zone, earlier, later) => value_from_date_value LocalResolutionClass (LocalResolution zone earlier later) allocated st
  | Err e => (Err e, st)
  end.

Definition mux_datetime_zoned_datetime_from_instant (instant zone : date_arg) (allocated : bool) (st : date_state) : result date_arg text * date_state :=
  zoned_or (let? nanos := as_instant instant st in
            let? zone := timezone zone in
            let? utc := datetime_from_nanos nanos in
            Ok (from_utc_datetime zone utc)) allocated st.

(** [strip_suffix(']')] and [rsplit_once('[')]. *)
Fixpoint rsplit_once (c : Z) (s : text) : option (text * text) :=
  match s with
  | [] => None
  | d :: s =>
      match rsplit_once c s with
      | Some (a, b) => Some (d :: a, b)
      | None => if d =? c then Some ([], s) else None
      end
  end.
Definition strip_suffix (c : Z) (s : text) : option text :=
  match rev s with d :: r => if d =? c then Some (rev r) else None | [] => None end.

Definition mux_datetime_zoned_datetime_parse (v : date_arg) (allocated : bool) (st : date_state) : result date_arg text * date_state :=
  zoned_or
    (let? input := text_of v "zoned datetime" in
     match strip_suffix 93 input ≫= rsplit_once 91 with
     | None => Err (txt "zoned datetime must end with an IANA zone in brackets")
     | Some (rfc3339, zone_name) =>
         match tz_parse zone_name with
         | None => Err (txt "unknown IANA timezone '" ++ zone_name ++ txt "'")
         | Some zone =>
             let? utc := map_err (parse_from_rfc3339 rfc3339) "invalid RFC 3339 zoned datetime: " in
             Ok (from_utc_datetime zone utc)
         end
     end) allocated st.

Definition mux_datetime_zoned_datetime_to_string (v : date_arg) (st : date_state) : text :=
  match as_zoned v st with
  | Ok z => zoned_to_rfc3339 z ++ 91 :: tz_name (zoned_timezone z) ++ [93]
  | Err _ => []
  end.
Definition mux_datetime_zoned_datetime_zone (v : date_arg) (st : date_state) : text :=
  match as_zoned v st with Ok z => tz_name (zoned_timezone z) | Err _ => [] end.
Definition mux_datetime_zoned_datetime_offset_seconds (v : date_arg) (st : date_state) : result Z text :=
  let? z := as_zoned v st in Ok (zoned_offset z).
Definition mux_datetime_zoned_datetime_date (v : date_arg) (allocated : bool) (st : date_state) : date_arg * date_state :=
  match as_zoned v st with Ok z => object DateClass (Date (zoned_date_naive z)) allocated st | Err _ => (OtherArg, st) end.
Definition mux_datetime_zoned_datetime_time (v : date_arg) (allocated : bool) (st : date_state) : date_arg * date_state :=
  match as_zoned v st with Ok z => object TimeClass (Time (zoned_time_of z)) allocated st | Err _ => (OtherArg, st) end.
Definition mux_datetime_zoned_datetime_instant (v : date_arg) (allocated : bool) (st : date_state) : result date_arg text * date_state :=
  make_or (let? z := as_zoned v st in unix_nanos (zoned_utc z)) InstantClass Instant "Instant" allocated st.

Definition mux_datetime_zoned_datetime_add_duration (v duration : date_arg) (allocated : bool) (st : date_state) : option (result date_arg text * date_state) :=
  match (let? z := as_zoned v st in let? nanos := as_duration duration st in Ok (z, nanos)) with
  | Err e => Some (Err e, st)
  | Ok (z, nanos) =>
      let seconds := nanos / NANOS_PER_SECOND in
      let fraction := nanos mod NANOS_PER_SECOND in
      match in_i64 seconds with
      | None => Some (Err (txt "datetime addition exceeds the supported range"), st)
      | Some seconds =>
          match timedelta_seconds seconds with
          | None => None
          | Some delta =>
              Some (zoned_or (or_err (zoned_checked_add_signed z delta ≫= fun z => zoned_checked_add_signed z (timedelta_nanoseconds fraction))
                                "datetime addition exceeds the supported range") allocated st)
          end
      end
  end.

Definition mux_datetime_local_resolution_kind (v : date_arg) (st : date_state) : text :=
  match value v LocalResolutionClass "LocalResolution" st with
  | Ok (LocalResolution _ (Some _) None) => txt "unique"
  | Ok (LocalResolution _ (Some _) (Some _)) => txt "ambiguous"
  | Ok (LocalResolution _ _ _) => txt "nonexistent"
  | _ => []
  end.

(** [optional_zoned(..).unwrap_or(Optional(None))]. *)
Definition or_none (r : result (option date_arg) text * date_state) : option date_arg * date_state :=
  match r with (Ok o, st) => (o, st) | (Err _, st) => (None, st) end.
Definition mux_datetime_local_resolution_earlier (v : date_arg) (allocated : bool) (st : date_state) : option date_arg * date_state :=
  match value v LocalResolutionClass "LocalResolution" st with
  | Ok (LocalResolution _ (Some z) _) => or_none (optional_zoned (Some z) allocated st)
  | _ => (None, st)
  end.
Definition mux_datetime_local_resolution_later (v : date_arg) (allocated : bool) (st : date_state) : option date_arg * date_state :=
  match value v LocalResolutionClass "LocalResolution" st with
  | Ok (LocalResolution _ _ (Some z)) => or_none (optional_zoned (Some z) allocated st)
  | _ => (None, st)
  end.

(** ** Instants and durations *)

Definition mux_datetime_instant_new : bool -> date_state -> date_arg * date_state := object InstantClass (Instant 0).
(** [now] is the signed number of nanoseconds since the epoch. *)
Definition mux_datetime_instant_now (now : Z) : bool -> date_state -> date_arg * date_state := object InstantClass (Instant now).
Definition mux_datetime_instant_from_unix_nanos (nanos : Z) : bool -> date_state -> result date_arg text * date_state :=
  make InstantClass (Instant nanos) "Instant".
Definition mux_datetime_instant_unix_nanos (v : date_arg) (st : date_state) : result Z text :=
  let? nanos := as_instant v st in or_err (in_i64 nanos) "instant exceeds int range".

Definition mux_datetime_instant_add_duration (v duration : date_arg) (allocated : bool) (st : date_state) : result date_arg text * date_state :=
  make_or (let? instant := as_instant v st in
           let? duration := as_duration duration st in
           or_err (in_i128 (instant + duration)) "instant addition exceeds the supported range") InstantClass Instant "Instant" allocated st.

Definition mux_datetime_instant_duration_since (v other : date_arg) (allocated : bool) (st : date_state) : result date_arg text * date_state :=
  make_or (let? v := as_instant v st in
           let? other := as_instant other st in
           or_err (in_i128 (v - other)) "instant difference exceeds the supported range") DurationClass Duration "Duration" allocated st.

Definition mux_datetime_duration_new : bool -> date_state -> date_arg * date_state := object DurationClass (Duration 0).
Definition mux_datetime_duration_from_parts (seconds nanos : Z) : bool -> date_state -> result date_arg text * date_state :=
  make_or (or_err (in_i128 (seconds * NANOS_PER_SECOND) ≫= fun v => in_i128 (v + nanos)) "duration exceeds the supported range")
    DurationClass Duration "Duration".

(** The macro [duration_from_unit!]. *)
Definition duration_from_unit (unit_nanos v : Z) : bool -> date_state -> result date_arg text * date_state :=
  make_or (or_err (in_i128 (v * unit_nanos)) "duration exceeds the supported range") DurationClass Duration "Duration".
Definition mux_datetime_duration_from_seconds : Z -> bool -> date_state -> result date_arg text * date_state := duration_from_unit NANOS_PER_SECOND.
Definition mux_datetime_duration_from_millis : Z -> bool -> date_state -> result date_arg text * date_state := duration_from_unit NANOS_PER_MILLI.
Definition mux_datetime_duration_from_micros : Z -> bool -> date_state -> result date_arg text * date_state := duration_from_unit NANOS_PER_MICRO.
Definition mux_datetime_duration_from_nanos : Z -> bool -> date_state -> result date_arg text * date_state := duration_from_unit 1.

Definition mux_datetime_duration_to_nanos (v : date_arg) (st : date_state) : result Z text :=
  let? nanos := as_duration v st in or_err (in_i64 nanos) "duration exceeds int range".

Definition mux_datetime_duration_add (v other : date_arg) (allocated : bool) (st : date_state) : result date_arg text * date_state :=
  make_or (let? v := as_duration v st in
           let? other := as_duration other st in
           or_err (in_i128 (v + other)) "duration addition exceeds the supported range") DurationClass Duration "Duration" allocated st.
Definition mux_datetime_duration_sub (v other : date_arg) (allocated : bool) (st : date_state) : result date_arg text * date_state :=
  make_or (let? v := as_duration v st in
           let? other := as_duration other st in
           or_err (in_i128 (v - other)) "duration subtraction exceeds the supported range") DurationClass Duration "Duration" allocated st.

(** ** Periods *)

Definition mux_datetime_period_new : bool -> date_state -> date_arg * date_state := object PeriodClass (Period 0 0 0).
Definition mux_datetime_period_from_parts (years months days : Z) : bool -> date_state -> result date_arg text * date_state :=
  make PeriodClass (Period years months days) "Period".

(** The macro [period_field!]. *)
Definition period_field (field : Z * Z * Z -> Z) (v : date_arg) (st : date_state) : Z :=
  match as_period v st with Ok p => field p | Err _ => 0 end.
Definition mux_datetime_period_years : date_arg -> date_state -> Z := period_field (fun p => p.1.1).
Definition mux_datetime_period_months : date_arg -> date_state -> Z := period_field (fun p => p.1.2).
Definition mux_datetime_period_days : date_arg -> date_state -> Z := period_field (fun p => p.2).

(** The months since year 0 that the arithmetic of a period starts from. *)
Definition total_months (date : NaiveDate) (years months : Z) : option Z :=
  in_i64 (date_year date * 12) ≫= fun v =>
  in_i64 (v + (date_month date - 1)) ≫= fun v =>
  in_i64 (years * 12) ≫= fun y =>
  in_i64 (v + y) ≫= fun v =>
  in_i64 (v + months).

(** The addition of years and months, the day clamped to the month that is reached. *)
Definition shift_months (date : NaiveDate) (target_year target_month : Z) : option NaiveDate :=
  from_ymd_opt target_year target_month (Z.min (date_day date) (date_last_day target_year target_month)).

(** The days are only converted when the shifted date exists. *)
Definition mux_datetime_period_add_to_date (v date : date_arg) (allocated : bool) (st : date_state) : option (result date_arg text * date_state) :=
  match (let? p := as_period v st in let? d := as_date date st in Ok (p, d)) with
  | Err e => Some (Err e, st)
  | Ok (years, months, days, date) =>
      match total_months date years months with
      | None => Some (Err (txt "period month arithmetic exceeds the supported range"), st)
      | Some total =>
          let target_month := total mod 12 + 1 in
          match try_i32 (total / 12) with
          | None => Some (Err (txt "period result year is out of range"), st)
          | Some target_year =>
              match shift_months date target_year target_month with
              | None => Some (Err (txt "period result exceeds the supported range"), st)
              | Some shifted =>
                  match timedelta_days days with
                  | None => None
                  | Some delta =>
                      Some (make_or (or_err (date_checked_add_signed shifted delta) "period result exceeds the supported range")
                              DateClass Date "Date" allocated st)
                  end
              end
          end
      end
  end.

End DateTypes.
