(* ===== verification/DateProps.v ===== *)
(** * Properties of calendar and clock values

    What the crate documents of its operations are the laws of [CalendarLaws], [ClockLaws] and
    [OrderLaws]; a concrete calendar satisfies them. *)

From S2P Require Import Prelude AssocList Object Value Str Utf8 ValueTable DateTypes.

(** ** The proleptic Gregorian calendar *)

Definition is_leap (y : Z) : bool := (y mod 4 =? 0) && (negb (y mod 100 =? 0) || (y mod 400 =? 0)).

Definition days_in_month (y m : Z) : Z :=
  if m =? 2 then (if is_leap y then 29 else 28)
  else if (m =? 4) || (m =? 6) || (m =? 9) || (m =? 11) then 30 else 31.

(** The day before. *)
Definition previous_day (y m d : Z) : Z * Z * Z :=
  if 1 <? d then (y, m, d - 1)
  else if 1 <? m then (y, m - 1, days_in_month y (m - 1))
  else (y - 1, 12, 31).

(** [NaiveDate::MIN] and [NaiveDate::MAX]. *)
Definition MIN_YEAR : Z := -262143.
Definition MAX_YEAR : Z := 262142.

Definition valid_ymd (y m d : Z) : Prop := MIN_YEAR <= y <= MAX_YEAR /\ 1 <= m <= 12 /\ 1 <= d <= days_in_month y m.

(** What chrono documents of its dates: they are the valid dates of the calendar in a range of
    years, [pred_opt] is the previous day, and a delta of days is limited by milliseconds. *)
Class CalendarLaws `{Chrono} : Prop := {
  law_fields y m d x : from_ymd_opt y m d = Some x <-> date_year x = y /\ date_month x = m /\ date_day x = d;
  law_valid y m d : is_Some (from_ymd_opt y m d) <-> valid_ymd y m d;
  law_pred x : date_pred_opt x = let '(y, m, d) := previous_day (date_year x) (date_month x) (date_day x) in from_ymd_opt y m d;
  law_days n : timedelta_days n = None <-> i64_max < Z.abs (n * 86400000);
}.

Lemma days_in_month_bound y m : 28 <= days_in_month y m <= 31.
Proof. unfold days_in_month. repeat case_match; lia. Qed.

Section Calendar.
Context `{CalendarLaws}.

Lemma date_fields_valid x : valid_ymd (date_year x) (date_month x) (date_day x).
Proof. apply law_valid. exists x. by apply law_fields. Qed.

Lemma from_ymd_some y m d : valid_ymd y m d -> exists x, from_ymd_opt y m d = Some x /\ date_year x = y /\ date_month x = m /\ date_day x = d.
Proof. intros [x Hx]%law_valid. exists x. split; [done|]. by apply law_fields. Qed.

(** The first of the following month exists, and the day before it is the last of the month. *)
Lemma date_last_day_spec y m : MIN_YEAR <= y <= MAX_YEAR -> 1 <= m <= 12 -> ~ (y = MAX_YEAR /\ m = 12) ->
  date_last_day y m = days_in_month y m.
Proof.
  intros Hy Hm Hmax. unfold date_last_day.
  assert (Hd : forall y m, valid_ymd y m (days_in_month y m) <-> MIN_YEAR <= y <= MAX_YEAR /\ 1 <= m <= 12).
  { intros y' m'. unfold valid_ymd. pose proof (days_in_month_bound y' m'). intuition lia. }
  destruct (Z.eqb_spec m 12) as [->|Hne].
  - unfold try_i32, try_from_range. rewrite (proj2 (in_range_true _ _ _)) by (unfold i32_min, i32_max, MIN_YEAR, MAX_YEAR in *; lia).
    cbn [mbind option_bind].
    destruct (from_ymd_some (y + 1) 1 1) as (x & -> & Ey & Em & Ed).
    { split; [lia|]. pose proof (days_in_month_bound (y + 1) 1). lia. }
    cbn [mbind option_bind]. rewrite law_pred, Ey, Em, Ed. cbn [previous_day Z.ltb Z.compare Pos.compare Pos.compare_cont].
    replace (y + 1 - 1) with y by lia. destruct (from_ymd_some y 12 31) as (x' & -> & _ & _ & ->); [|done].
    apply (Hd y 12). lia.
  - destruct (from_ymd_some y (m + 1) 1) as (x & -> & Ey & Em & Ed).
    { split; [done|]. pose proof (days_in_month_bound y (m + 1)). lia. }
    cbn [mbind option_bind]. rewrite law_pred, Ey, Em, Ed. unfold previous_day.
    rewrite (proj2 (Z.ltb_lt 1 (m + 1))) by lia. cbn [Z.ltb Z.compare Pos.compare Pos.compare_cont].
    replace (m + 1 - 1) with m by lia. destruct (from_ymd_some y m (days_in_month y m)) as (x' & -> & _ & _ & ->); [|done].
    by apply Hd.
Qed.

(** In the last month of the range there is no following month, and the last day is taken to be
    the 28th. *)
Lemma date_last_day_end : date_last_day MAX_YEAR 12 = 28.
Proof.
  unfold date_last_day. cbn [Z.eqb Pos.eqb]. unfold try_i32, try_from_range.
  rewrite (proj2 (in_range_true _ _ _)) by (unfold i32_min, i32_max, MAX_YEAR; lia). cbn [mbind option_bind].
  destruct (from_ymd_opt (MAX_YEAR + 1) 1 1) as [x|] eqn:E; [|done].
  assert (valid_ymd (MAX_YEAR + 1) 1 1) as [? _] by (apply law_valid; eauto). lia.
Qed.

(** The arithmetic on months: exact where every step fits an [i64], refused elsewhere.  The
    months of the date themselves always fit. *)
Definition fits (z : Z) : bool := in_range i64_min i64_max z.

Lemma total_months_spec date years months :
  let start := date_year date * 12 + (date_month date - 1) in
  total_months date years months =
    if fits (years * 12) && fits (start + years * 12) && fits (start + years * 12 + months) then Some (start + years * 12 + months) else None.
Proof.
  cbv zeta. destruct (date_fields_valid date) as (H1 & H2 & _). unfold MIN_YEAR, MAX_YEAR in *.
  unfold total_months, in_i64, try_from_range, fits.
  rewrite (proj2 (in_range_true _ _ (date_year date * 12))) by (unfold i64_min, i64_max; lia). cbn [mbind option_bind].
  rewrite (proj2 (in_range_true _ _ (date_year date * 12 + (date_month date - 1)))) by (unfold i64_min, i64_max; lia). cbn [mbind option_bind].
  destruct (in_range _ _ (years * 12)); [|done]. cbn [mbind option_bind andb].
  destruct (in_range _ _ (_ + years * 12)); [|done]. cbn [mbind option_bind andb]. done.
Qed.

Lemma period_add_spec v date st years months days d allocated :
  as_period v st = Ok (years, months, days) -> as_date date st = Ok d ->
  let start := date_year d * 12 + (date_month d - 1) in
  let total := start + years * 12 + months in
  let y := total / 12 in let m := total mod 12 + 1 in
  if negb (fits (years * 12) && fits (start + years * 12) && fits total) then
    mux_datetime_period_add_to_date v date allocated st = Some (Err (txt "period month arithmetic exceeds the supported range"), st)
  else if in_range MIN_YEAR MAX_YEAR y then
    let last := if (y =? MAX_YEAR) && (m =? 12) then 28 else days_in_month y m in
    exists shifted, date_year shifted = y /\ date_month shifted = m /\ date_day shifted = Z.min (date_day d) last /\
      mux_datetime_period_add_to_date v date allocated st =
        if i64_max <? Z.abs (days * 86400000) then None
        else timedelta_days days ≫= fun delta =>
          Some (make_or (or_err (date_checked_add_signed shifted delta) "period result exceeds the supported range") DateClass Date "Date" allocated st)
  else exists e, mux_datetime_period_add_to_date v date allocated st = Some (Err e, st).
Proof.
  intros Hp Hd. cbv zeta. unfold mux_datetime_period_add_to_date. rewrite Hp, Hd. cbn [result_bind].
  rewrite total_months_spec. cbv zeta. destruct (fits (years * 12) && _ && _); cbn [negb]; [|done].
  set (total := date_year d * 12 + (date_month d - 1) + years * 12 + months).
  assert (Hmm : 1 <= total mod 12 + 1 <= 12) by (pose proof (Z.mod_pos_bound total 12); lia).
  destruct (date_fields_valid d) as (_ & _ & Hday).
  destruct (in_range MIN_YEAR MAX_YEAR (total / 12)) eqn:Er.
  - apply in_range_true in Er. unfold try_i32, try_from_range at 1.
    rewrite (proj2 (in_range_true i32_min _ _)) by (unfold i32_min, i32_max, MIN_YEAR, MAX_YEAR in *; lia).
    set (last := if (total / 12 =? MAX_YEAR) && (total mod 12 + 1 =? 12) then 28 else days_in_month (total / 12) (total mod 12 + 1)).
    pose proof (days_in_month_bound (total / 12) (total mod 12 + 1)) as Hb.
    assert (El : date_last_day (total / 12) (total mod 12 + 1) = last).
    { unfold last. destruct ((total / 12 =? MAX_YEAR) && (total mod 12 + 1 =? 12)) eqn:E.
      - apply andb_true_iff in E as [->%Z.eqb_eq ->%Z.eqb_eq]. apply date_last_day_end.
      - apply date_last_day_spec; [done..|]. apply andb_false_iff in E. rewrite !Z.eqb_neq in E. lia. }
    destruct (from_ymd_some (total / 12) (total mod 12 + 1) (Z.min (date_day d) last)) as (x & Ex & Fy & Fm & Fd).
    { split; [done|]. split; [done|]. unfold last. destruct (_ && _); lia. }
    exists x. split_and!; [done..|]. unfold shift_months. rewrite El, Ex.
    destruct (timedelta_days days) as [delta|] eqn:Et.
    + destruct (Z.ltb_spec i64_max (Z.abs (days * 86400000))) as [Ho|Ho]; [|done]. apply law_days in Ho. congruence.
    + apply law_days in Et. by rewrite (proj2 (Z.ltb_lt _ _)).
  - apply in_range_false in Er. destruct (try_i32 (total / 12)) as [ty|] eqn:Et; [|eauto].
    unfold shift_months. destruct (from_ymd_opt ty _ _) as [x|] eqn:Ex; [|eauto]. exfalso.
    unfold try_i32, try_from_range in Et. case_match; [|done]. injection Et as <-.
    assert (valid_ymd (total / 12) (total mod 12 + 1) (Z.min (date_day d) (date_last_day (total / 12) (total mod 12 + 1)))) as [? _]
      by (apply law_valid; eauto). lia.
Qed.

End Calendar.

(** C33: Adding a period to a date moves by whole months first, keeps the day of the month where
    the month reached has it and takes its last day where it has not, leap years included, and
    then adds the days.  This holds for every period: when the months are too many for the
    steps of the arithmetic in [i64], or the year reached is outside the supported range,
    the call answers an error.  Two deviations are part of the statement: in the last month of the range the day
    is cut to 28, and a count of days too large for a time delta panics instead of answering an
    error. *)
Theorem period_add_clamps `{CalendarLaws} v date st years months days d allocated :
  as_period v st = Ok (years, months, days) -> as_date date st = Ok d ->
  let start := date_year d * 12 + (date_month d - 1) in
  let total := start + years * 12 + months in
  let y := total / 12 in let m := total mod 12 + 1 in
  if negb (fits (years * 12) && fits (start + years * 12) && fits total) then
    mux_datetime_period_add_to_date v date allocated st = Some (Err (txt "period month arithmetic exceeds the supported range"), st)
  else if in_range MIN_YEAR MAX_YEAR y then
    let last := if (y =? MAX_YEAR) && (m =? 12) then 28 else days_in_month y m in
    exists shifted, date_year shifted = y /\ date_month shifted = m /\ date_day shifted = Z.min (date_day d) last /\
      mux_datetime_period_add_to_date v date allocated st =
        if i64_max <? Z.abs (days * 86400000) then None
        else timedelta_days days ≫= fun delta =>
          Some (make_or (or_err (date_checked_add_signed shifted delta) "period result exceeds the supported range") DateClass Date "Date" allocated st)
  else exists e, mux_datetime_period_add_to_date v date allocated st = Some (Err e, st).
Proof. apply period_add_spec. Qed.

(** ** Instants, durations and dates with times *)

(** What chrono documents of timestamps: seconds since the epoch and a fraction that a leap
    second can carry past a second. *)
Class ClockLaws `{Chrono} : Prop := {
  law_timestamp s n t : from_timestamp s n = Some t -> timestamp t = s /\ timestamp_subsec_nanos t = n;
  law_range t : is_i64 (timestamp t) /\ 0 <= timestamp_subsec_nanos t < 2 * NANOS_PER_SECOND;
}.

Section Clock.
Context `{Chrono}.

(** An object that was just made reads what it was made of; others read what they did. *)
Lemma make_reads c v name st : exists o st', make c v name true st = (Ok o, st') /\ value o c name st' = Ok v.
Proof.
  unfold make, object, ValueTable.object, ValueTable.next_id. cbv beta iota zeta. eexists _, _. split; [done|].
  unfold value, id, get_value. cbn [table next]. rewrite bool_decide_true by done. cbn [negb]. rewrite lookup_insert_eq.
  cbn [result_bind]. by rewrite lookup_insert_eq.
Qed.

Lemma make_frame c v name st o st' : table st !! next st = None -> make c v name true st = (Ok o, st') ->
  forall x c' name' w, value x c' name' st = Ok w -> value x c' name' st' = Ok w.
Proof.
  unfold make, object, ValueTable.object, ValueTable.next_id. intros Hf. cbv beta iota zeta. intros [= <- <-] x c' name' w.
  unfold value, id, get_value. cbn [table next]. destruct x as [| |c'' [h|]|]; try done; [|by destruct (negb _)].
  destruct (negb _); [done|]. destruct (decide (h = next st)) as [->|Hne]; [by rewrite Hf|].
  rewrite (lookup_insert_ne (table st)) by done. destruct (table st !! h); [|done]. cbn [result_bind].
  by rewrite lookup_insert_ne by done.
Qed.

Lemma as_instant_value x st n : as_instant x st = Ok n <-> value x InstantClass "Instant" st = Ok (Instant n).
Proof. unfold as_instant. destruct (value _ _ _ _) as [[]|]; cbn; split; congruence. Qed.
Lemma as_duration_value x st n : as_duration x st = Ok n <-> value x DurationClass "Duration" st = Ok (Duration n).
Proof. unfold as_duration. destruct (value _ _ _ _) as [[]|]; cbn; split; congruence. Qed.
Lemma as_datetime_value x st t : as_datetime x st = Ok t <-> value x DateTimeClass "DateTime" st = Ok (DateTime t).
Proof. unfold as_datetime. destruct (value _ _ _ _) as [[]|]; cbn; split; congruence. Qed.

Lemma in_i128_some z : - 2 ^ 127 <= z <= 2 ^ 127 - 1 -> in_i128 z = Some z.
Proof. intros Hz. unfold in_i128, try_from_range. by rewrite (proj2 (in_range_true _ _ _)). Qed.

Lemma unix_nanos_spec `{!ClockLaws} t : unix_nanos t = Ok (timestamp t * NANOS_PER_SECOND + timestamp_subsec_nanos t).
Proof.
  destruct (law_range t) as [H1 H2]. unfold unix_nanos, NANOS_PER_SECOND in *.
  rewrite in_i128_some by width. cbn [mbind option_bind]. by rewrite in_i128_some by width.
Qed.

Lemma datetime_from_nanos_spec `{!ClockLaws} n t : datetime_from_nanos n = Ok t ->
  timestamp t * NANOS_PER_SECOND + timestamp_subsec_nanos t = n.
Proof.
  unfold datetime_from_nanos. destruct (in_i64 (n / NANOS_PER_SECOND)) as [s|] eqn:Es; [|done]. cbn [or_err result_bind].
  destruct (from_timestamp s (n mod NANOS_PER_SECOND)) as [t'|] eqn:Et; [|done]. intros [= <-].
  apply law_timestamp in Et as [-> ->]. unfold in_i64, try_from_range in Es. case_match; [|done]. injection Es as <-.
  rewrite Z.mul_comm. symmetry. apply Z.div_mod. done.
Qed.

End Clock.

(** Arithmetic on the time line is exact.  An instant plus a duration is the sum of their
    nanoseconds, or an error exactly when it leaves 128 bits, and the duration since the first
    instant is the one that was added; a date with time plus a duration has exactly that many
    more nanoseconds since the epoch, negative durations and times before the epoch included. *)
Lemma time_arithmetic_exact `{ClockLaws} st i d x a b t : table st !! next st = None ->
  as_instant i st = Ok a -> as_duration d st = Ok b -> as_datetime x st = Ok t ->
  - 2 ^ 127 <= b <= 2 ^ 127 - 1 ->
  (match in_i128 (a + b) with
   | None => mux_datetime_instant_add_duration i d true st = (Err (txt "instant addition exceeds the supported range"), st)
   | Some s =>
       exists o st', mux_datetime_instant_add_duration i d true st = (Ok o, st') /\ as_instant o st' = Ok s /\
       exists o2 st2, mux_datetime_instant_duration_since o i true st' = (Ok o2, st2) /\ as_duration o2 st2 = Ok b
   end) /\
  (forall o st', mux_datetime_datetime_add_duration x d true st = (Ok o, st') ->
   exists t', as_datetime o st' = Ok t' /\
     timestamp t' * NANOS_PER_SECOND + timestamp_subsec_nanos t' = timestamp t * NANOS_PER_SECOND + timestamp_subsec_nanos t + b).
Proof.
  intros Hf Hi Hd Hx Hb. split.
  - unfold mux_datetime_instant_add_duration. rewrite Hi, Hd. cbn [result_bind].
    destruct (in_i128 (a + b)) as [s|] eqn:Es; [|done]. cbn [or_err make_or].
    assert (s = a + b) as -> by (unfold in_i128, try_from_range in Es; case_match; congruence).
    destruct (make_reads InstantClass (Instant (a + b)) "Instant" st) as (o & st' & E & Hr). rewrite E.
    assert (as_instant o st' = Ok (a + b)) as Ho by by apply as_instant_value.
    exists o, st'. split_and!; [done|done|]. unfold mux_datetime_instant_duration_since. rewrite Ho.
    assert (as_instant i st' = Ok a) as ->.
    { apply as_instant_value. eapply make_frame; [done|done|]. by apply as_instant_value. }
    cbn [result_bind]. replace (a + b - a) with b by lia. rewrite in_i128_some by done. cbn [or_err make_or].
    destruct (make_reads DurationClass (Duration b) "Duration" st') as (o2 & st2 & E2 & Hr2). rewrite E2.
    exists o2, st2. split; [done|]. by apply as_duration_value.
  - intros o st'. unfold mux_datetime_datetime_add_duration. rewrite Hx, Hd. cbn [result_bind]. rewrite unix_nanos_spec. cbn [result_bind].
    set (n := timestamp t * NANOS_PER_SECOND + timestamp_subsec_nanos t).
    destruct (in_i128 (n + b)) as [s|] eqn:Es; cbn [mbind option_bind]; [|done].
    assert (s = n + b) as -> by (unfold in_i128, try_from_range in Es; case_match; congruence).
    destruct (datetime_from_nanos (n + b)) as [t'|] eqn:Et; cbn [result_ok or_err make_or]; [|done]. intros E.
    destruct (make_reads DateTimeClass (DateTime t') "DateTime" st) as (o' & st'' & E' & Hr). rewrite E' in E. injection E as <- <-.
    exists t'. split; [by apply as_datetime_value|]. by apply datetime_from_nanos_spec.
Qed.

(** ** Order, equality and hash *)

(** What the crate documents of its comparisons: each type is totally ordered, equality is the
    equality of that order, equal values hash equally, and zones have distinct names. *)
Class OrderLaws `{Chrono} : Prop := {
  law_date_ord : ord_on (fun _ => True) date_cmp;
  law_time_ord : ord_on (fun _ => True) time_cmp;
  law_utc_ord : ord_on (fun _ => True) utc_cmp;
  law_zoned_ord : ord_on (fun _ => True) zoned_cmp;
  law_date_eq a b : date_eqb a b = true <-> date_cmp a b = Eq;
  law_time_eq a b : time_eqb a b = true <-> time_cmp a b = Eq;
  law_utc_eq a b : utc_eqb a b = true <-> utc_cmp a b = Eq;
  law_zoned_eq a b : zoned_eqb a b = true <-> zoned_cmp a b = Eq;
  law_tz_eq a b : tz_eqb a b = true <-> utf8 (tz_name a) = utf8 (tz_name b);
  law_date_hash a b : date_eqb a b = true -> date_hashed a = date_hashed b;
  law_time_hash a b : time_eqb a b = true -> time_hashed a = time_hashed b;
  law_utc_hash a b : utc_eqb a b = true -> utc_hashed a = utc_hashed b;
  law_zoned_hash a b : zoned_eqb a b = true -> zoned_hashed a = zoned_hashed b;
  law_tz_hash a b : tz_eqb a b = true -> tz_hashed a = tz_hashed b;
}.

(** Comparing by one order and then by another. *)
Lemma then_with_ord {A} (P : A -> Prop) c1 c2 : ord_on P c1 -> ord_on P c2 -> ord_on P (fun a b => then_with (c1 a b) (c2 a b)).
Proof.
  intros H1 H2. split.
  - intros a Ha. by rewrite (ord_refl _ _ H1), (ord_refl _ _ H2).
  - intros a b Ha Hb. rewrite (ord_opp _ _ H1 a b), (ord_opp _ _ H2 a b) by done. by destruct (c1 a b).
  - intros a b c Ha Hb Hc. destruct (c1 a b) eqn:E; cbn; try done. intros E2.
    rewrite (ord_eq_l _ _ H1 a b c), (ord_eq_l _ _ H2 a b c) by done. done.
  - intros a b c Ha Hb Hc. destruct (c1 a b) eqn:E1, (c1 b c) eqn:E2; cbn; try done.
    + rewrite (ord_eq_l _ _ H1 a b c), E2 by done. cbn. by apply (ord_lt_trans _ _ H2).
    + by rewrite (ord_eq_l _ _ H1 a b c), E2 by done.
    + by rewrite <- (ord_eq_r _ _ a b c H1), E1 by done.
    + by rewrite (ord_lt_trans _ _ H1 a b c).
Qed.

Lemma lex_compare_ord : ord_on (fun _ => True) (lex_cmp Z.compare).
Proof. apply (ord_on_impl _ _ _ (fun a _ => proj2 (Forall_forall _ a) (fun _ _ => I)) Zlex_ord). Qed.

Lemma lex_compare_eq (a b : list Z) : lex_cmp Z.compare a b = Eq <-> a = b.
Proof.
  split; [|intros ->; by apply (ord_refl _ _ lex_compare_ord)].
  intros E%lex_cmp_eq. induction E as [|x y l l' E%Z.compare_eq _ IH]; congruence.
Qed.

Section Order.
Context `{OrderLaws}.

(** The comparison inside a class, on the argument of its constructor. *)
Lemma rank_class v w : rank v = rank w ->
  match w with
  | Date _ => exists d, v = Date d | Time _ => exists t, v = Time t | DateTime _ => exists t, v = DateTime t
  | ZonedDateTime _ => exists z, v = ZonedDateTime z
  | LocalResolution _ _ _ => exists p : Tz * (option Zoned * option Zoned), v = LocalResolution p.1 p.2.1 p.2.2
  | Instant _ => exists n, v = Instant n | Duration _ => exists n, v = Duration n
  | Period _ _ _ => exists p : Z * (Z * Z), v = Period p.1 p.2.1 p.2.2
  end.
Proof.
  destruct v as [| | | |z e l| | |y m d], w; try done; eauto; [by exists (z, (e, l))|by exists (y, (m, d))].
Qed.

Lemma opt_zoned_ord : ord_on (fun _ => True) (opt_cmp zoned_cmp).
Proof. apply (ord_on_impl (Value.option_ok (fun _ => True))); [by intros []|]. apply (Value.option_cmp_ord _ _ law_zoned_ord). Qed.

Lemma resolution_ord : ord_on (fun _ : Tz * (option Zoned * option Zoned) => True)
  (fun p q => then_with (lex_cmp Z.compare (utf8 (tz_name p.1)) (utf8 (tz_name q.1)))
     (then_with (opt_cmp zoned_cmp p.2.1 q.2.1) (opt_cmp zoned_cmp p.2.2 q.2.2))).
Proof.
  repeat apply then_with_ord.
  - apply (ord_on_proj (fun p : Tz * (option Zoned * option Zoned) => utf8 (tz_name p.1)) (fun _ => True) _ lex_compare_ord).
  - apply (ord_on_proj (fun p : Tz * (option Zoned * option Zoned) => p.2.1) (fun _ => True) _ opt_zoned_ord).
  - apply (ord_on_proj (fun p : Tz * (option Zoned * option Zoned) => p.2.2) (fun _ => True) _ opt_zoned_ord).
Qed.

Lemma period_ord : ord_on (fun _ : Z * (Z * Z) => True) (fun p q => then_with (p.1 ?= q.1) (then_with (p.2.1 ?= q.2.1) (p.2.2 ?= q.2.2))).
Proof.
  repeat apply then_with_ord.
  - apply (ord_on_proj (fun p : Z * (Z * Z) => p.1) (fun _ => True) _ Value.Zcompare_ord).
  - apply (ord_on_proj (fun p : Z * (Z * Z) => p.2.1) (fun _ => True) _ Value.Zcompare_ord).
  - apply (ord_on_proj (fun p : Z * (Z * Z) => p.2.2) (fun _ => True) _ Value.Zcompare_ord).
Qed.

Lemma date_value_cmp_ord : ord_on (fun _ => True) date_value_cmp.
Proof.
  apply (ord_on_by_class rank).
  { intros a b Hne. unfold date_value_cmp. by rewrite (proj2 (Z.eqb_neq _ _)). }
  assert (Hget : forall w a, True /\ rank a = rank w -> rank a = rank w) by tauto.
  intros w _. destruct w.
  - apply (ord_on_ctor Date (fun _ => True) _ _ date_cmp law_date_ord); [done|]. intros a Ha%Hget%rank_class. naive_solver.
  - apply (ord_on_ctor Time (fun _ => True) _ _ time_cmp law_time_ord); [done|]. intros a Ha%Hget%rank_class. naive_solver.
  - apply (ord_on_ctor DateTime (fun _ => True) _ _ utc_cmp law_utc_ord); [done|]. intros a Ha%Hget%rank_class. naive_solver.
  - apply (ord_on_ctor ZonedDateTime (fun _ => True) _ _ zoned_cmp law_zoned_ord); [done|]. intros a Ha%Hget%rank_class. naive_solver.
  - apply (ord_on_ctor (fun p => LocalResolution p.1 p.2.1 p.2.2) (fun _ => True) _ _ _ resolution_ord); [done|].
    intros a Ha%Hget%rank_class. naive_solver.
  - apply (ord_on_ctor Instant (fun _ => True) _ _ Z.compare Value.Zcompare_ord); [done|]. intros a Ha%Hget%rank_class. naive_solver.
  - apply (ord_on_ctor Duration (fun _ => True) _ _ Z.compare Value.Zcompare_ord); [done|]. intros a Ha%Hget%rank_class. naive_solver.
  - apply (ord_on_ctor (fun p => Period p.1 p.2.1 p.2.2) (fun _ => True) _ _ _ period_ord); [done|].
    intros a Ha%Hget%rank_class. naive_solver.
Qed.

Lemma opt_eqb_cmp (a b : option Zoned) : opt_eqb zoned_eqb a b = true <-> opt_cmp zoned_cmp a b = Eq.
Proof. destruct a, b; cbn; try done. apply law_zoned_eq. Qed.

Lemma then_with_eq a b : then_with a b = Eq <-> a = Eq /\ b = Eq.
Proof. destruct a; cbn; naive_solver. Qed.

Lemma date_value_eq_cmp a b : date_value_eqb a b = true <-> date_value_cmp a b = Eq.
Proof.
  unfold date_value_cmp. destruct (Z.eqb_spec (rank a) (rank b)) as [E|E]; cbn [negb].
  2: { split; [|by intros ?%Z.compare_eq]. destruct a, b; cbn in *; done. }
  destruct a, b; try done; cbn [date_value_eqb].
  - apply law_date_eq.
  - apply law_time_eq.
  - apply law_utc_eq.
  - apply law_zoned_eq.
  - rewrite !andb_true_iff, !then_with_eq, law_tz_eq, lex_compare_eq, !opt_eqb_cmp. tauto.
  - by rewrite Z.eqb_eq, Z.compare_eq_iff.
  - by rewrite Z.eqb_eq, Z.compare_eq_iff.
  - rewrite !andb_true_iff, !then_with_eq, !Z.eqb_eq, !Z.compare_eq_iff. tauto.
Qed.

Lemma opt_hashed_eq (a b : option Zoned) : opt_eqb zoned_eqb a b = true -> opt_hashed zoned_hashed a = opt_hashed zoned_hashed b.
Proof. destruct a, b; cbn; try done. intros E. by rewrite (law_zoned_hash _ _ E). Qed.

Lemma date_value_hash_eq a b : date_value_eqb a b = true -> date_value_hashed a = date_value_hashed b.
Proof.
  destruct a, b; cbn [date_value_eqb]; try done; unfold date_value_hashed; cbn [rank]; intros E.
  - by rewrite (law_date_hash _ _ E).
  - by rewrite (law_time_hash _ _ E).
  - by rewrite (law_utc_hash _ _ E).
  - by rewrite (law_zoned_hash _ _ E).
  - apply andb_true_iff in E as [[E1 E2]%andb_true_iff E3]. by rewrite (law_tz_hash _ _ E1), (opt_hashed_eq _ _ E2), (opt_hashed_eq _ _ E3).
  - by apply Z.eqb_eq in E as ->.
  - by apply Z.eqb_eq in E as ->.
  - apply andb_true_iff in E as [[E1%Z.eqb_eq E2%Z.eqb_eq]%andb_true_iff E3%Z.eqb_eq]. by subst.
Qed.

(** The functions a date class registers keep the contract of keys.  Comparing any two
    objects of the eight classes is a total order that puts closed ones first, it answers 0
    exactly when the objects are equal, and equal objects have equal hashes; so dates, times,
    instants, durations and periods can key maps and be sorted. *)
Lemma date_callbacks_lawful `{Floats} st :
  ord_on (fun _ => True) (fun a b => date_compare a b st ?= 0) /\
  (forall a b, date_equals a b st = true <-> date_compare a b st = 0) /\
  (forall a b, date_equals a b st = true -> date_hash a st = date_hash b st).
Proof.
  assert (Hc : forall a b, (date_compare a b st ?= 0) = opt_cmp date_value_cmp (callback_value a st) (callback_value b st)).
  { intros a b. unfold date_compare. destruct (callback_value a st), (callback_value b st); try done. cbn. by destruct (date_value_cmp _ _). }
  assert (He : forall a b, date_equals a b st = true <-> opt_cmp date_value_cmp (callback_value a st) (callback_value b st) = Eq).
  { intros a b. unfold date_equals. destruct (callback_value a st), (callback_value b st); try done. apply date_value_eq_cmp. }
  split_and!.
  - assert (Ho : ord_on (fun _ => True) (opt_cmp date_value_cmp)).
    { apply (ord_on_impl (Value.option_ok (fun _ => True))); [by intros []|]. apply (Value.option_cmp_ord _ _ date_value_cmp_ord). }
    pose proof (ord_on_proj (fun a => callback_value a st) (fun _ => True) _ Ho) as [Hr Hs Hl Ht].
    split; intros *; rewrite ?Hc; eauto.
  - intros a b. by rewrite He, <- Hc, Z.compare_eq_iff.
  - intros a b. unfold date_equals, date_hash. intros E. f_equal.
    destruct (callback_value a st), (callback_value b st); try done. cbn [opt_hashed]. f_equal. by apply date_value_hash_eq.
Qed.
End Order.

(** ** A calendar that satisfies the laws

    Dates are the valid triples; one zone; texts are not read. *)

Module Gregorian.

Definition valid_b (p : Z * Z * Z) : bool :=
  in_range MIN_YEAR MAX_YEAR p.1.1 && in_range 1 12 p.1.2 && in_range 1 (days_in_month p.1.1 p.1.2) p.2.

Definition ymd : Type := { p : Z * Z * Z | valid_b p = true }.

Definition make_ymd (y m d : Z) : option ymd :=
  match decide (valid_b (y, m, d) = true) with left E => Some (exist _ (y, m, d) E) | right _ => None end.

Definition cmp2 (a b : Z * Z) : comparison := then_with (a.1 ?= b.1) (a.2 ?= b.2).
Definition cmp3 (a b : ymd) : comparison := then_with (cmp2 (`a).1 (`b).1) ((`a).2 ?= (`b).2).
Definition eq_of (c : comparison) : bool := match c with Eq => true | _ => false end.

Definition calendar : Chrono := {|
  NaiveDate := ymd; NaiveTime := Z; UtcDateTime := Z * Z; Tz := unit; Zoned := Z * Z; TimeDelta := Z;
  from_ymd_opt := make_ymd;
  date_year := fun x => (`x).1.1; date_month := fun x => (`x).1.2; date_day := fun x => (`x).2;
  date_weekday := fun _ => 1;
  date_pred_opt := fun x => let '(y, m, d) := previous_day (`x).1.1 (`x).1.2 (`x).2 in make_ymd y m d;
  date_checked_add_signed := fun x n => if n =? 0 then Some x else None;
  date_parse_from_str := fun _ _ => Err []; date_format := fun _ _ => [];
  date_eqb := fun a b => eq_of (cmp3 a b); date_cmp := cmp3; date_hashed := fun _ => [];
  from_hms_nano_opt := fun h m s n => if in_range 0 23 h && in_range 0 59 m && in_range 0 59 s && in_range 0 999999999 n
                                      then Some (((h * 60 + m) * 60 + s) * NANOS_PER_SECOND + n) else None;
  time_hour := fun t => t / NANOS_PER_SECOND / 3600; time_minute := fun t => t / NANOS_PER_SECOND / 60 mod 60;
  time_second := fun t => t / NANOS_PER_SECOND mod 60; time_nanosecond := fun t => t mod NANOS_PER_SECOND;
  time_parse_from_str := fun _ _ => Err []; time_format := fun _ _ => [];
  time_eqb := Z.eqb; time_cmp := Z.compare; time_hashed := fun _ => [];
  from_timestamp := fun s n => if in_range i64_min i64_max s && in_range 0 1999999999 n then Some (s, n) else None;
  timestamp := fun t => as_i64 t.1; timestamp_subsec_nanos := fun t => t.2 mod (2 * NANOS_PER_SECOND);
  utc_and_time := fun _ t => (0, t); utc_date := fun _ => exist _ (1970, 1, 1) eq_refl; utc_time := fun t => t.2;
  parse_from_rfc3339 := fun _ => Err []; datetime_parse_from_str := fun _ _ => Err []; naive_parse_from_str := fun _ _ => Err [];
  to_rfc3339 := fun _ => []; utc_format := fun _ _ => [];
  utc_eqb := fun a b => eq_of (cmp2 a b); utc_cmp := cmp2; utc_hashed := fun _ => [];
  tz_parse := fun _ => Some tt; tz_name := fun _ => txt "UTC"; tz_utc := tt; tz_eqb := fun _ _ => true; tz_hashed := fun _ => [];
  from_local_datetime := fun _ _ t => Single (0, t); from_utc_datetime := fun _ t => t; zoned_utc := fun z => z;
  zoned_timezone := fun _ => tt; zoned_offset := fun _ => 0; zoned_date_naive := fun _ => exist _ (1970, 1, 1) eq_refl;
  zoned_time_of := fun z => z.2; zoned_to_rfc3339 := fun _ => []; zoned_checked_add_signed := fun z n => Some (z.1 + n, z.2);
  zoned_eqb := fun a b => eq_of (cmp2 a b); zoned_cmp := cmp2; zoned_hashed := fun _ => []; i128_hashed := fun _ => [];
  timedelta_days := fun n => if Z.abs (n * 86400000) <=? i64_max then Some n else None;
  timedelta_seconds := fun n => if Z.abs (n * 1000) <=? i64_max then Some n else None;
  timedelta_nanoseconds := fun n => n;
|}.

Lemma make_ymd_some y m d x : make_ymd y m d = Some x <-> `x = (y, m, d).
Proof.
  unfold make_ymd. destruct x as [p Hp]. cbn. case_decide as E; split; try congruence.
  - intros ->. f_equal. by apply (proj2 (sig_eq_pi _ _ _)).
Qed.

Lemma valid_b_spec y m d : valid_b (y, m, d) = true <-> valid_ymd y m d.
Proof. unfold valid_b, valid_ymd. cbn. rewrite !andb_true_iff, !in_range_true. tauto. Qed.

Lemma calendar_laws : @CalendarLaws calendar.
Proof.
  split.
  - intros y m d x. cbn. rewrite make_ymd_some. destruct x as [[[y' m'] d'] Hx]. cbn. split; [by intros [= -> -> ->]|by intros (-> & -> & ->)].
  - intros y m d. rewrite <- valid_b_spec. cbn. unfold make_ymd. case_decide; split; try done.
  - done.
  - intros n. cbn. case_match; bool_to_prop; split; (done || lia).
Qed.

Lemma clock_laws : @ClockLaws calendar.
Proof.
  split.
  - intros s n t. cbn. destruct (_ && _) eqn:E; [|done]. intros [= <-].
    apply andb_true_iff in E as [E1%in_range_true E2%in_range_true]. cbn. unfold NANOS_PER_SECOND.
    rewrite as_i64_small by width. by rewrite Z.mod_small by lia.
  - intros t. cbn. split; [apply as_i64_range|]. apply Z.mod_pos_bound. done.
Qed.

Lemma cmp2_ord : ord_on (fun _ => True) cmp2.
Proof.
  apply then_with_ord; [apply (ord_on_proj (fun p : Z * Z => p.1) (fun _ => True) _ Value.Zcompare_ord)|].
  apply (ord_on_proj (fun p : Z * Z => p.2) (fun _ => True) _ Value.Zcompare_ord).
Qed.

Lemma eq_of_spec c : eq_of c = true <-> c = Eq.
Proof. by destruct c. Qed.

Lemma order_laws : @OrderLaws calendar.
Proof.
  split; cbn; try done; try apply eq_of_spec; try apply cmp2_ord; try apply Value.Zcompare_ord;
    try (intros a b; first [by rewrite eq_of_spec|by rewrite Z.eqb_eq, Z.compare_eq_iff]).
  unfold cmp3. apply then_with_ord.
  - apply (ord_on_proj (fun x : ymd => (`x).1) (fun _ => True) _ cmp2_ord).
  - apply (ord_on_proj (fun x : ymd => (`x).2) (fun _ => True) _ Value.Zcompare_ord).
Qed.

End Gregorian.

(** 31 January 2024 plus one month is 29 February. *)
Definition leap_state : @date_state Gregorian.calendar :=
  mk_values {[ 1 := mk_entry (@Date Gregorian.calendar (exist _ (2024, 1, 31) eq_refl)) 1; 2 := mk_entry (@Period Gregorian.calendar 0 1 0) 1 ]} 3.

Lemma period_add_clamps_witness : exists shifted : @NaiveDate Gregorian.calendar,
  date_year shifted = 2024 /\ date_month shifted = 2 /\ date_day shifted = 29 /\
  @mux_datetime_period_add_to_date Gregorian.calendar (ObjectArg PeriodClass (Some 2)) (ObjectArg DateClass (Some 1)) true leap_state =
    Some (make_or (or_err (date_checked_add_signed shifted 0) "period result exceeds the supported range") DateClass Date "Date" true leap_state).
Proof.
  pose proof (@period_add_clamps Gregorian.calendar Gregorian.calendar_laws (ObjectArg PeriodClass (Some 2)) (ObjectArg DateClass (Some 1))
    leap_state 0 1 0 (exist _ (2024, 1, 31) eq_refl) true eq_refl eq_refl) as E. cbv zeta in E.
  replace (negb _) with false in E by (vm_compute; reflexivity).
  replace (in_range MIN_YEAR MAX_YEAR _) with true in E by (vm_compute; reflexivity). destruct E as (x & E1 & E2 & E3 & E4).
  exists x. rewrite E1, E2, E3, E4. split_and!; [vm_compute; reflexivity..|].
  replace (i64_max <? _) with false by (vm_compute; reflexivity). reflexivity.
Defined.

Definition clock_state : @date_state Gregorian.calendar :=
  mk_values {[ 1 := mk_entry (@Instant Gregorian.calendar 5) 1; 2 := mk_entry (@Duration Gregorian.calendar (-7)) 1;
               3 := mk_entry (@DateTime Gregorian.calendar (0, 3)) 1 ]} 4.

Definition constant_floats : Floats := {| of_eqb := Z.eqb; of_cmp := Z.compare; of_hash := fun _ => []; default_hasher := fun _ => 0 |}.
