(* ===== verification/Datetime.v ===== *)
(** * Functions on timestamps ([src/src/datetime.rs])

    Unix seconds as integers.  The chrono crate is the class [ChronoText]; a pattern it
    cannot format is a panic ([None]).  Clocks and sleeping are parameters; an error is the
    detail of the [DateTimeError]. *)

From S2P Require Import Prelude Str Utf8.

Module Datetime.

Definition dt_result : Type := result Z string.

(** A moment with its fields. *)
Record DateTimeUtc : Type := mk_utc { year : Z; month : Z; day : Z; hour : Z; minute : Z; second : Z; weekday_from_sunday : Z; timestamp : Z }.

Class ChronoText : Type := {
  from_timestamp : Z -> option DateTimeUtc;
  format : DateTimeUtc -> text -> option text;
  format_in_zone : DateTimeUtc -> text -> option text;
  to_rfc3339 : DateTimeUtc -> text;
  parse_from_rfc3339 : text -> result Z string;
  parse_from_rfc2822 : text -> option Z;
  parse_from_str : text -> string -> option Z;
}.

(** The time since the epoch in nanoseconds, or why there is none. *)
Definition clock_reading (now : result Z string) (unit : Z) : dt_result :=
  match now with
  | Ok nanos => if nanos / unit <=? i64_max then Ok (nanos / unit) else Err "Current time exceeds the supported timestamp range"
  | Err e => Err ("Failed to get current time: " +:+ e)
  end.
Definition mux_datetime_now (now : result Z string) : dt_result := clock_reading now 1000000000.
Definition mux_datetime_now_millis (now : result Z string) : dt_result := clock_reading now 1000000.
Definition mux_datetime_now_micros (now : result Z string) : dt_result := clock_reading now 1000.
Definition mux_datetime_now_nanos (now : result Z string) : dt_result := clock_reading now 1.

Definition read_pattern (pattern : option (list Z)) : result text string :=
  match pattern with
  | None => Err "Format pattern cannot be null"
  | Some bytes => match utf8_decode bytes with Some s => Ok s | None => Err "Format pattern must be valid UTF-8" end
  end.

Section Functions.
Context `{ChronoText}.

Definition invalid_timestamp {A} (t : Z) : result A text := Err (txt "Invalid timestamp: " ++ mux_int_to_string t).

Definition datetime_field (t : Z) (get : DateTimeUtc -> Z) : result Z text :=
  match from_timestamp t with Some dt => Ok (get dt) | None => invalid_timestamp t end.
Definition mux_datetime_year (t : Z) : result Z text := datetime_field t year.
Definition mux_datetime_month (t : Z) : result Z text := datetime_field t month.
Definition mux_datetime_day (t : Z) : result Z text := datetime_field t day.
Definition mux_datetime_hour (t : Z) : result Z text := datetime_field t hour.
Definition mux_datetime_minute (t : Z) : result Z text := datetime_field t minute.
Definition mux_datetime_second (t : Z) : result Z text := datetime_field t second.
Definition mux_datetime_weekday (t : Z) : result Z text := datetime_field t weekday_from_sunday.

(** [None]: [to_string] of a pattern that chrono refuses panics. *)
Definition formatted (t : Z) (pattern : option (list Z)) (write : DateTimeUtc -> text -> option text) : option (result text text) :=
  match read_pattern pattern with
  | Err e => Some (Err (txt e))
  | Ok p => match from_timestamp t with Some dt => Ok <$> write dt p | None => Some (invalid_timestamp t) end
  end.
Definition mux_datetime_format (t : Z) (pattern : option (list Z)) : option (result text text) := formatted t pattern format.
Definition mux_datetime_format_local (t : Z) (pattern : option (list Z)) : option (result text text) := formatted t pattern format_in_zone.

Definition mux_datetime_parse_timestamp (input : option (list Z)) : result Z string :=
  match input with
  | None => Err "RFC 3339 input cannot be null"
  | Some bytes =>
      match utf8_decode bytes with
      | None => Err "RFC 3339 input must be valid UTF-8"
      | Some s => match parse_from_rfc3339 s with Ok t => Ok t | Err e => Err ("Invalid RFC 3339 timestamp: " +:+ e) end
      end
  end.

(** What follows the first occurrence of [", "]. *)
Fixpoint after_comma (s : text) : option text :=
  match s with
  | [] => None
  | c :: r => match r with 32 :: rest => if c =? 44 then Some rest else after_comma r | _ => after_comma r end
  end.

Definition weekday_prefixes : list string := ["Sun "; "Mon "; "Tue "; "Wed "; "Thu "; "Fri "; "Sat "].
Definition after_weekday (s : text) : option text :=
  head (omap (fun p => if is_prefix (txt p) s then Some (drop 4 s) else None) weekday_prefixes).

Definition parse_http_text (s : text) : option Z :=
  match parse_from_rfc2822 s with
  | Some t => Some t
  | None =>
      match (rest ← after_comma s; parse_from_str rest "%d-%b-%y %H:%M:%S GMT") with
      | Some t => Some t
      | None => rest ← after_weekday s; parse_from_str rest "%b %e %H:%M:%S %Y GMT"
      end
  end.

Definition mux_datetime_parse_http_date (input : option (list Z)) : result Z string :=
  match input with
  | None => Err "HTTP date cannot be null"
  | Some bytes =>
      match utf8_decode bytes with
      | None => Err "HTTP date must be valid UTF-8"
      | Some s => match parse_http_text s with Some t => Ok t | None => Err "Invalid HTTP date" end
      end
  end.

Definition mux_datetime_format_timestamp (t : Z) : result text text :=
  match from_timestamp t with Some dt => Ok (to_rfc3339 dt) | None => invalid_timestamp t end.
Definition mux_datetime_format_http_date (t : Z) : option (result text text) :=
  match from_timestamp t with Some dt => Ok <$> format dt (txt "%a, %d %b %Y %H:%M:%S GMT") | None => Some (invalid_timestamp t) end.

End Functions.

(** The nanoseconds to sleep. *)
Definition mux_datetime_sleep (seconds : Z) : result Z string :=
  if seconds <? 0 then Err "Sleep duration cannot be negative" else Ok (seconds * 1000000000).
Definition mux_datetime_sleep_millis (ms : Z) : result Z string :=
  if ms <? 0 then Err "Sleep duration cannot be negative" else Ok (ms * 1000000).

(** ** Properties *)

(** The readings of one clock agree: each is the finer one divided. *)
Lemma clock_readings_agree now n : mux_datetime_now_nanos (Ok now) = Ok n -> 0 <= now ->
  mux_datetime_now_micros (Ok now) = Ok (n / 1000) /\ mux_datetime_now_millis (Ok now) = Ok (n / 1000000) /\ mux_datetime_now (Ok now) = Ok (n / 1000000000).
Proof.
  unfold mux_datetime_now_nanos, mux_datetime_now_micros, mux_datetime_now_millis, mux_datetime_now, clock_reading. rewrite Z.div_1_r.
  destruct (Z.leb_spec now i64_max) as [Hle|]; [|done]. intros [= <-] Hn.
  assert (Hd : forall k, 0 < k -> now / k <= i64_max) by (intros k Hk; pose proof (Z.div_le_upper_bound now k now Hk ltac:(nia)); lia).
  rewrite !(proj2 (Z.leb_le _ _)) by (apply Hd; lia). done.
Qed.

(** What strptime does with literal text at the end of a format: it has to be there. *)
Definition literal_suffix `{ChronoText} : Prop := forall s t, parse_from_str s "%b %e %H:%M:%S %Y GMT" = Some t -> exists r, s = r ++ txt "GMT".

(** So the asctime form of RFC 9110, which has no zone, is refused. *)
Lemma asctime_refused `{ChronoText} : literal_suffix ->
  parse_from_rfc2822 (txt "Sun Nov  6 08:49:37 1994") = None ->
  mux_datetime_parse_http_date (Some (txt "Sun Nov  6 08:49:37 1994")) = Err "Invalid HTTP date"%string.
Proof.
  intros Hl Hr. unfold mux_datetime_parse_http_date. change (utf8_decode (txt "Sun Nov  6 08:49:37 1994")) with (Some (txt "Sun Nov  6 08:49:37 1994")).
  cbv beta iota. unfold parse_http_text. rewrite Hr. change (after_comma (txt "Sun Nov  6 08:49:37 1994")) with (@None text). cbn [mbind option_bind].
  change (after_weekday (txt "Sun Nov  6 08:49:37 1994")) with (Some (txt "Nov  6 08:49:37 1994")). cbn [mbind option_bind].
  destruct (parse_from_str _ _) as [t|] eqn:E; [|done]. apply Hl in E as [r E]. exfalso.
  apply (f_equal (@rev Z)) in E. rewrite rev_app_distr in E. vm_compute in E. discriminate.
Qed.

End Datetime.
