(* ===== verification/Sse.v ===== *)
(** * Server-sent events ([src/src/net.rs])

    The event values with their setters, and the encoder.  [sse_stream_roundtrip] reads
    a stream of encoded events back with a reference client that follows the
    interpretation of event streams in the HTML standard. *)

From S2P Require Import Prelude AssocList Value Str Utf8 Http HttpProps NetTable.

Record SseEventEntry : Type := mk_event { event : text; event_id : text; retry_ms : Z; data : text; event_names : Z }.

Definition MAX_HTTP_TIMEOUT_MS : Z := 86400000.
Definition MAX_SSE_EVENT_BYTES : Z := MAX_HTTP_BODY_BYTES.

Definition CR : Z := 13.
Definition LF : Z := 10.

Definition validate_sse_text (field : string) (value : text) : result unit string :=
  if existsb (fun c => (c =? CR) || (c =? LF)) value then Err ("SSE " +:+ field +:+ " must not contain CR or LF") else Ok tt.

Definition validate_sse_retry (retry_ms : Z) : result unit string :=
  if negb (in_range 0 MAX_HTTP_TIMEOUT_MS retry_ms) then
    Err "SSE retry_ms must be between 0 and 86400000 milliseconds"
  else Ok tt.

(** [str::replace] of a pattern that is not empty. *)
Definition str_replace (s from to : text) : text := replace_on (S (length s)) from to s.

Definition sse_line (field : string) (value : text) : text := txt field ++ value ++ [LF].

Definition sse_text (entry : SseEventEntry) : text :=
  let normalized := str_replace (str_replace (data entry) [CR; LF] [LF]) [CR] [LF] in
  (if (nlen (event entry) =? 0) then [] else sse_line "event: " (event entry)) ++
  (if (nlen (event_id entry) =? 0) then [] else sse_line "id: " (event_id entry)) ++
  (if 0 <? retry_ms entry then sse_line "retry: " (mux_int_to_string (retry_ms entry)) else []) ++
  (if nlen normalized =? 0 then sse_line "data:" []
   else flat_map (sse_line "data: ") (split_text normalized [LF])) ++
  [LF].

Definition encode_sse_event (entry : SseEventEntry) : result (list Z) string :=
  let? _ := validate_sse_text "event" (event entry) in
  let? _ := validate_sse_text "id" (event_id entry) in
  let? _ := validate_sse_retry (retry_ms entry) in
  let output := utf8 (sse_text entry) in
  if MAX_SSE_EVENT_BYTES <? nlen output then Err "encoded SSE event exceeds 16777216 bytes" else Ok output.

(** ** Event values *)

Definition Events : Type := table SseEventEntry.

Definition event_with_names (n : Z) (e : SseEventEntry) : SseEventEntry :=
  mk_event (event e) (event_id e) (retry_ms e) (data e) n.

Definition copy_sse_event : Z -> Events -> Z * Events := copy_resource event_names event_with_names.
Definition drop_sse_event : Z -> Events -> Events := drop_resource event_names event_with_names.
Definition sse_event_handle : option Z -> Events -> result Z string :=
  resource_handle "expected SseEvent value" "SseEvent value is closed".
Definition event_entry : option Z -> Events -> result (Z * SseEventEntry) string :=
  resource_entry "expected SseEvent value" "SseEvent value is closed" "invalid SseEvent handle".

Inductive SseEventField : Type := Event | Id | RetryMs | Data.

(** The values an assignment distinguishes. *)
Inductive FieldValue : Type := StringValue (s : text) | IntValue (i : Z) | OtherValue.

Definition sse_event_field_value (ev : option Z) (field : SseEventField) (t : Events) : result FieldValue string :=
  let? (_, e) := event_entry ev t in
  Ok match field with
     | Event => StringValue (event e)
     | Id => StringValue (event_id e)
     | RetryMs => IntValue (retry_ms e)
     | Data => StringValue (data e)
     end.

Definition assign_event_field (field : SseEventField) (v : FieldValue) (e : SseEventEntry) : result SseEventEntry string :=
  match field, v with
  | Event, StringValue s =>
      let? _ := validate_sse_text "event" s in Ok (mk_event s (event_id e) (retry_ms e) (data e) (event_names e))
  | Event, _ => Err "SSE event must be a string"
  | Id, StringValue s =>
      let? _ := validate_sse_text "id" s in Ok (mk_event (event e) s (retry_ms e) (data e) (event_names e))
  | Id, _ => Err "SSE id must be a string"
  | RetryMs, IntValue i =>
      let? _ := validate_sse_retry i in Ok (mk_event (event e) (event_id e) i (data e) (event_names e))
  | RetryMs, _ => Err "SSE retry_ms must be an int"
  | Data, StringValue s => Ok (mk_event (event e) (event_id e) (retry_ms e) s (event_names e))
  | Data, _ => Err "SSE data must be a string"
  end.

(** The validation comes before the assignment: an error leaves the event as it was. *)
Definition set_sse_event_field (ev : option Z) (field : SseEventField) (v : option FieldValue) (t : Events)
    : result unit string * Events :=
  match sse_event_handle ev t with
  | Err e => (Err e, t)
  | Ok _ =>
      match v with
      | None => (Err "SSE field value is missing", t)
      | Some v =>
          match event_entry ev t with
          | Err e => (Err e, t)
          | Ok (h, e) =>
              match assign_event_field field v e with
              | Err msg => (Err msg, t)
              | Ok e => (Ok tt, update_entry h e t)
              end
          end
      end
  end.

Definition mux_net_sse_event_new (allocated : bool) : Events -> option Z * Events :=
  insert_resource (mk_event [] [] 0 [] 1) allocated.

Definition mux_net_sse_event_from_config (event id : option FieldValue) (retry_ms : Z) (data : option FieldValue)
    (allocated : bool) (t : Events) : result Z string * Events :=
  match event, id, data with
  | Some (StringValue event), Some (StringValue id), Some (StringValue data) =>
      let entry := mk_event event id retry_ms data 1 in
      match (let? _ := validate_sse_text "event" event in
             let? _ := validate_sse_text "id" id in
             let? _ := validate_sse_retry retry_ms in
             encode_sse_event entry) with
      | Err e => (Err e, t)
      | Ok _ => take_resource_value (insert_resource entry allocated t)
      end
  | Some (StringValue _), Some (StringValue _), _ => (Err "SSE data must be a string", t)
  | Some (StringValue _), _, _ => (Err "SSE id must be a string", t)
  | _, _, _ => (Err "SSE event must be a string", t)
  end.

Definition mux_net_sse_event_encode (ev : option Z) (t : Events) : result value string :=
  let? (_, e) := event_entry ev t in
  let? bytes := encode_sse_event e in
  Ok (VBytes bytes).

(** ** A client *)

(** The complete lines of a stream: CR LF, LF and CR end a line; [cr] says that a CR
    just ended one. *)
Fixpoint stream_lines (cr : bool) (s line : text) : list text :=
  match s with
  | [] => []
  | c :: s =>
      if c =? LF then (if cr then stream_lines false s [] else rev line :: stream_lines false s [])
      else if c =? CR then rev line :: stream_lines true s []
      else stream_lines false s (c :: line)
  end.

(** What the client keeps: the data and event type buffers, the last event id and the
    reconnection time. *)
Record Client : Type := mk_client { data_buffer : text; type_buffer : text; last_id : text; reconnection : option Z }.

Record Dispatched : Type := mk_dispatched { d_type : text; d_data : text; d_id : text }.

Definition strip_final_lf (s : text) : text :=
  match rev s with 10 :: r => rev r | _ => s end.

Definition process_field (name value : text) (c : Client) : Client :=
  if list_eqb Z.eqb name (txt "event") then mk_client (data_buffer c) value (last_id c) (reconnection c)
  else if list_eqb Z.eqb name (txt "data") then
    mk_client (data_buffer c ++ value ++ [LF]) (type_buffer c) (last_id c) (reconnection c)
  else if list_eqb Z.eqb name (txt "id") then
    if existsb (Z.eqb 0) value then c else mk_client (data_buffer c) (type_buffer c) value (reconnection c)
  else if list_eqb Z.eqb name (txt "retry") then
    if forallb (fun d => in_range 48 57 d) value then
      mk_client (data_buffer c) (type_buffer c) (last_id c)
        (match parse_usize 10 value with Some n => Some n | None => reconnection c end)
    else c
  else c.

Definition strip_space (s : text) : text := match s with 32 :: s => s | _ => s end.

(** One line: an empty one dispatches, a comment is ignored, others are fields. *)
Definition process_line (line : text) (c : Client) : Client * list Dispatched :=
  match line with
  | [] =>
      if nlen (data_buffer c) =? 0 then (mk_client [] [] (last_id c) (reconnection c), [])
      else (mk_client [] [] (last_id c) (reconnection c),
            [mk_dispatched (type_buffer c) (strip_final_lf (data_buffer c)) (last_id c)])
  | _ =>
      match find_sub [58] line with
      | Some O => (c, [])
      | Some n => (process_field (take n line) (strip_space (drop (S n) line)) c, [])
      | None => (process_field line [] c, [])
      end
  end.

Fixpoint process_lines (lines : list text) (c : Client) : Client * list Dispatched :=
  match lines with
  | [] => (c, [])
  | line :: lines =>
      let '(c, out) := process_line line c in
      let '(c, out') := process_lines lines c in
      (c, out ++ out')
  end.

Definition fresh_client : Client := mk_client [] [] [] None.

(** What a client makes of the bytes of a stream. *)
Definition client_run (bytes : list Z) : option (Client * list Dispatched) :=
  match utf8_decode bytes with
  | Some s => Some (process_lines (stream_lines false s []) fresh_client)
  | None => None
  end.

(** ** Newlines *)

Lemma replace_on_hit fuel p to s : is_prefix p s = true ->
  replace_on (S fuel) p to s = to ++ replace_on fuel p to (drop (length p) s).
Proof. intros H. cbn [replace_on]. destruct s; cbn [find_sub]; by rewrite H. Qed.

Lemma replace_on_miss fuel p to x s : is_prefix p (x :: s) = false ->
  replace_on (S fuel) p to (x :: s) = x :: replace_on (S fuel) p to s.
Proof.
  intros H. cbn [replace_on]. rewrite find_sub_cons, H. by destruct (find_sub p s).
Qed.

Lemma replace_on_nil fuel p to : p <> [] -> replace_on fuel p to [] = [].
Proof. destruct p; [done|]. by destruct fuel. Qed.

(** Line ends of a text as LF. *)
Fixpoint normalize_newlines (s : text) : text :=
  match s with
  | [] => []
  | c :: r =>
      if c =? CR then
        match r with
        | d :: r' => if d =? LF then LF :: normalize_newlines r' else LF :: normalize_newlines r
        | [] => [LF]
        end
      else c :: normalize_newlines r
  end.

Fixpoint crlf_to_lf (s : text) : text :=
  match s with
  | [] => []
  | c :: r =>
      match r with
      | d :: r' => if (c =? CR) && (d =? LF) then LF :: crlf_to_lf r' else c :: crlf_to_lf r
      | [] => [c]
      end
  end.

Lemma replace_crlf n : forall s fuel, (length s <= n)%nat -> (length s < fuel)%nat ->
  replace_on fuel [CR; LF] [LF] s = crlf_to_lf s.
Proof.
  induction n as [|n IH]; intros s fuel Hn Hf.
  { destruct s; [by apply replace_on_nil|cbn in Hn; lia]. }
  destruct s as [|c r]; [by apply replace_on_nil|]. destruct fuel as [|fuel]; [lia|].
  cbn [length] in *. cbn [crlf_to_lf]. destruct (is_prefix [CR; LF] (c :: r)) eqn:E.
  - rewrite replace_on_hit by done. cbn [is_prefix] in E. apply andb_true_iff in E as [E1 E2].
    destruct r as [|d r]; [done|]. apply andb_true_iff in E2 as [E2 _]. rewrite (Z.eqb_sym c), (Z.eqb_sym d), E1, E2.
    change (drop _ (c :: d :: r)) with r. cbn [andb app length] in *. rewrite IH by lia. done.
  - rewrite replace_on_miss by done. cbn [is_prefix] in E. rewrite (Z.eqb_sym CR) in E.
    destruct r as [|d r]; [by rewrite replace_on_nil|]. rewrite (Z.eqb_sym LF), andb_true_r in E. rewrite E.
    rewrite IH by (cbn [length] in *; lia). done.
Qed.

Lemma replace_cr s fuel : (length s < fuel)%nat ->
  replace_on fuel [CR] [LF] s = (fun c => if c =? CR then LF else c) <$> s.
Proof.
  revert fuel. induction s as [|c s IH]; intros fuel Hf; [by apply replace_on_nil|].
  destruct fuel as [|fuel]; [lia|]. cbn [length] in Hf. rewrite fmap_cons. destruct (c =? CR) eqn:E.
  - rewrite replace_on_hit by (cbn [is_prefix]; rewrite Z.eqb_sym, E; done). cbn [app length drop]. by rewrite IH by lia.
  - rewrite replace_on_miss by (cbn [is_prefix]; rewrite Z.eqb_sym, E; done). by rewrite IH by lia.
Qed.

Lemma normalized_data s : str_replace (str_replace s [CR; LF] [LF]) [CR] [LF] = normalize_newlines s.
Proof.
  unfold str_replace. rewrite replace_cr, (replace_crlf (length s)) by lia.
  remember (length s) as n eqn:Hn. assert (length s <= n)%nat as Hl by lia. clear Hn. revert s Hl.
  induction n as [|n IH]; intros [|c r] Hl; cbn [length] in Hl; try done; [lia|].
  cbn [crlf_to_lf normalize_newlines]. destruct (c =? CR) eqn:E; cbn [andb].
  - destruct r as [|d r].
    + rewrite fmap_cons, E. done.
    + destruct (d =? LF); rewrite fmap_cons; cbn [length] in Hl; [rewrite IH by lia; done|]. rewrite E, IH by (cbn; lia). done.
  - destruct r as [|d r]; rewrite fmap_cons, E; [done|]. by rewrite IH by lia.
Qed.

Lemma normalize_no_cr s : CR ∉ normalize_newlines s.
Proof.
  rewrite <- normalized_data. unfold str_replace. rewrite replace_cr by lia.
  rewrite list_elem_of_fmap. intros (c & E & _). destruct (c =? CR) eqn:Ec; [done|]. by apply Z.eqb_neq in Ec.
Qed.

Lemma normalize_members s c : c ∈ normalize_newlines s -> c = LF \/ c ∈ s.
Proof.
  remember (length s) as n eqn:Hn. assert (length s <= n)%nat as Hl by lia. clear Hn. revert s Hl.
  induction n as [|n IH]; intros [|d r] Hl; cbn [length] in Hl; cbn [normalize_newlines]; try lia; try by intros ?%elem_of_nil.
  destruct (d =? CR).
  - destruct r as [|e r]; [intros ->%list_elem_of_singleton; by left|]. cbn [length] in Hl.
    destruct (e =? LF); intros [->|H]%elem_of_cons; try (by left); apply IH in H; cbn [length]; try lia; set_solver.
  - intros [->|H]%elem_of_cons; [set_solver|]. apply IH in H; [set_solver|lia].
Qed.

(** ** Lines *)

Definition plain (s : text) : Prop := Forall (fun c => c <> CR /\ c <> LF) s.

Definition block (lines : list text) : text := flat_map (fun l : text => l ++ [LF]) lines.

Lemma stream_lines_app line s acc : plain line ->
  stream_lines false (line ++ LF :: s) acc = (rev acc ++ line) :: stream_lines false s [].
Proof.
  intros H. revert acc. induction H as [|c line [H1 H2] _ IH]; intros acc; cbn [app stream_lines].
  - rewrite Z.eqb_refl. by rewrite app_nil_r.
  - rewrite (proj2 (Z.eqb_neq c LF)), (proj2 (Z.eqb_neq c CR)) by done. rewrite IH. cbn [rev].
    by rewrite <- app_assoc.
Qed.

Lemma stream_lines_block lines : Forall plain lines -> stream_lines false (block lines) [] = lines.
Proof.
  induction 1 as [|l lines Hl _ IH]; [done|]. cbn [block flat_map]. rewrite <- app_assoc. cbn [app].
  rewrite stream_lines_app by done. cbn [rev app]. f_equal. apply IH.
Qed.

Lemma process_lines_app ls ls' c :
  process_lines (ls ++ ls') c =
  (let '(c, out) := process_lines ls c in let '(c, out') := process_lines ls' c in (c, out ++ out')).
Proof.
  revert c. induction ls as [|l ls IH]; intros c; cbn [app process_lines].
  - by destruct (process_lines ls' c).
  - destruct (process_line l c) as [c1 o1]. rewrite IH. destruct (process_lines ls c1) as [c2 o2].
    destruct (process_lines ls' c2) as [c3 o3]. by rewrite app_assoc.
Qed.

(** The lines of an encoded event. *)
Definition data_lines (d : text) : list text :=
  if nlen d =? 0 then [txt "data:"] else (fun l : text => txt "data: " ++ l) <$> split_text d [LF].

Definition type_lines (e : SseEventEntry) : list text :=
  if nlen (event e) =? 0 then [] else [txt "event: " ++ event e].
Definition id_lines (e : SseEventEntry) : list text :=
  if nlen (event_id e) =? 0 then [] else [txt "id: " ++ event_id e].
Definition retry_lines (e : SseEventEntry) : list text :=
  if 0 <? retry_ms e then [txt "retry: " ++ mux_int_to_string (retry_ms e)] else [].

Definition event_lines (e : SseEventEntry) : list text :=
  type_lines e ++ id_lines e ++ retry_lines e ++ data_lines (normalize_newlines (data e)) ++ [[]].

Lemma block_app a b : block (a ++ b) = block a ++ block b.
Proof. apply flat_map_app. Qed.

Lemma sse_text_block e : sse_text e = block (event_lines e).
Proof.
  unfold sse_text, event_lines, type_lines, id_lines, retry_lines, sse_line. rewrite normalized_data, !block_app.
  assert (forall f v, block [txt f ++ v] = txt f ++ v ++ [LF]) as Hone
    by (intros f v; unfold block; cbn [flat_map]; by rewrite app_nil_r, <- app_assoc).
  f_equal; [|f_equal; [|f_equal; [|f_equal]]].
  - destruct (_ =? 0); [done|]. by rewrite Hone.
  - destruct (_ =? 0); [done|]. by rewrite Hone.
  - destruct (0 <? _); [|done]. by rewrite Hone.
  - unfold data_lines. destruct (_ =? 0); [done|]. induction (split_text _ _) as [|l ls IH]; [done|].
    rewrite fmap_cons. cbn [flat_map block]. rewrite IH, <- app_assoc. done.
Qed.

Lemma validate_sse_text_ok field s u : validate_sse_text field s = Ok u -> plain s.
Proof.
  unfold validate_sse_text. destruct (existsb _ s) eqn:E; [done|]. intros _. apply Forall_forall. intros c Hc.
  assert (existsb (fun c => (c =? CR) || (c =? LF)) s = false -> c <> CR /\ c <> LF) as H; [|by apply H].
  intros He. split; intros ->; apply not_true_iff_false in He; apply He, existsb_exists;
    eexists; (split; [by apply list_elem_of_In|done]).
Qed.

Lemma encode_sse_event_ok e bytes : encode_sse_event e = Ok bytes ->
  bytes = utf8 (sse_text e) /\ plain (event e) /\ plain (event_id e) /\ 0 <= retry_ms e <= MAX_HTTP_TIMEOUT_MS.
Proof.
  unfold encode_sse_event. destruct (validate_sse_text _ (event e)) eqn:E1; [|done].
  destruct (validate_sse_text _ (event_id e)) eqn:E2; [|done]. cbn [result_bind]. unfold validate_sse_retry.
  destruct (in_range _ _ _) eqn:E3; [|done]. cbn [negb result_bind]. destruct (_ <? _); [done|].
  intros H%Ok_inj. apply validate_sse_text_ok in E1, E2. ranges. done.
Qed.

(** ** The client reads an event *)

Lemma process_data (ls : list text) c :
  process_lines ((fun l : text => txt "data: " ++ l) <$> ls) c =
  (mk_client (data_buffer c ++ block ls) (type_buffer c) (last_id c) (reconnection c), []).
Proof.
  revert c. induction ls as [|l ls IH]; intros c.
  - cbn [fmap list_fmap process_lines block flat_map]. rewrite app_nil_r. by destruct c.
  - rewrite fmap_cons. cbn [process_lines].
    change (process_line (txt "data: " ++ l) c) with
      (mk_client (data_buffer c ++ l ++ [LF]) (type_buffer c) (last_id c) (reconnection c), @nil Dispatched).
    cbv iota beta. rewrite IH. cbn [data_buffer type_buffer last_id reconnection app block flat_map]. by rewrite <- !app_assoc.
Qed.

Lemma block_join ls : ls <> [] -> block ls = join [LF] ls ++ [LF].
Proof.
  induction ls as [|l [|l' ls] IH]; intros H; [done|apply app_nil_r|].
  change (block (l :: l' :: ls)) with ((l ++ [LF]) ++ block (l' :: ls)).
  rewrite IH, (join_cons _ l) by done. by rewrite <- !app_assoc.
Qed.

Lemma strip_final s : strip_final_lf (s ++ [LF]) = s.
Proof. unfold strip_final_lf. rewrite rev_app_distr. cbn. apply rev_involutive. Qed.

(** The lines of the data fill the buffer with the data and a line end. *)
Lemma process_data_lines d c : data_buffer c = [] ->
  process_lines (data_lines d) c = (mk_client (d ++ [LF]) (type_buffer c) (last_id c) (reconnection c), []).
Proof.
  intros Hb. unfold data_lines. destruct (nlen d =? 0) eqn:E.
  - assert (d = []) as -> by (apply Z.eqb_eq in E; destruct d; [done|unfold nlen in E; cbn in E; lia]).
    cbn [process_lines].
    change (process_line (txt "data:") c) with
      (mk_client (data_buffer c ++ [LF]) (type_buffer c) (last_id c) (reconnection c), @nil Dispatched).
    by rewrite Hb.
  - rewrite process_data, Hb. cbn [app]. unfold split_text.
    destruct (split_on_spec [LF] (S (length d)) d) as (Hj & _ & _); [done|lia|].
    rewrite block_join by apply split_on_nonempty. by rewrite Hj.
Qed.

Definition next_id (e : SseEventEntry) (last : text) : text := if nlen (event_id e) =? 0 then last else event_id e.
Definition next_retry (e : SseEventEntry) (r : option Z) : option Z := if 0 <? retry_ms e then Some (retry_ms e) else r.

Lemma process_type_lines e li rc : process_lines (type_lines e) (mk_client [] [] li rc) = (mk_client [] (event e) li rc, []).
Proof.
  unfold type_lines. destruct (nlen (event e) =? 0) eqn:E; [|done].
  replace (event e) with (@nil Z); [done|]. apply Z.eqb_eq in E. destruct (event e); [done|]. unfold nlen in E. cbn in E. lia.
Qed.

Lemma process_id_lines e ty li rc : 0 ∉ event_id e ->
  process_lines (id_lines e) (mk_client [] ty li rc) = (mk_client [] ty (next_id e li) rc, []).
Proof.
  intros Hz. unfold id_lines, next_id. destruct (nlen (event_id e) =? 0) eqn:E; [done|]. cbn [process_lines].
  change (process_line (txt "id: " ++ event_id e) (mk_client [] ty li rc)) with
    (if existsb (Z.eqb 0) (event_id e) then mk_client [] ty li rc else mk_client [] ty (event_id e) rc, @nil Dispatched).
  destruct (existsb _ _) eqn:Ez; [|done]. apply existsb_exists in Ez as (z & Hin & <-%Z.eqb_eq).
  by apply list_elem_of_In in Hin.
Qed.

Lemma process_retry_lines e ty li rc : 0 <= retry_ms e <= MAX_HTTP_TIMEOUT_MS ->
  process_lines (retry_lines e) (mk_client [] ty li rc) = (mk_client [] ty li (next_retry e rc), []).
Proof.
  intros Hr. unfold retry_lines, next_retry. destruct (0 <? retry_ms e) eqn:E; [|done]. cbn [process_lines].
  set (v := mux_int_to_string (retry_ms e)).
  change (process_line (txt "retry: " ++ v) (mk_client [] ty li rc)) with
    (if forallb (fun d => in_range 48 57 d) v
     then mk_client [] ty li (match parse_usize 10 v with Some n => Some n | None => rc end)
     else mk_client [] ty li rc, @nil Dispatched).
  subst v. unfold mux_int_to_string. rewrite (proj2 (Z.ltb_ge (retry_ms e) 0)) by lia.
  unfold MAX_HTTP_TIMEOUT_MS in Hr. rewrite parse_usize_decimal by (unfold usize_max; lia).
  replace (forallb _ _) with true; [done|]. symmetry. apply forallb_forall. intros d Hin%list_elem_of_In.
  pose proof (decimal_digits 20 (retry_ms e) ltac:(lia)) as Hdig. rewrite Forall_forall in Hdig.
  apply in_range_true. by apply Hdig.
Qed.

Lemma process_event_lines e li rc : 0 ∉ event_id e -> 0 <= retry_ms e <= MAX_HTTP_TIMEOUT_MS ->
  process_lines (event_lines e) (mk_client [] [] li rc) =
  (mk_client [] [] (next_id e li) (next_retry e rc),
   [mk_dispatched (event e) (normalize_newlines (data e)) (next_id e li)]).
Proof.
  intros Hz Hr. unfold event_lines. rewrite !process_lines_app, process_type_lines.
  rewrite process_lines_app, process_id_lines by done. rewrite process_lines_app, process_retry_lines by done.
  rewrite process_lines_app, process_data_lines by done.
  cbn [process_lines process_line data_buffer type_buffer last_id reconnection app].
  unfold nlen. rewrite length_app. cbn [length]. rewrite (proj2 (Z.eqb_neq _ 0)) by lia. by rewrite strip_final.
Qed.

(** ** Streams of events *)

(** What the events of a stream mean to a client: type, data with its line ends as LF,
    and the last id sent so far. *)
Fixpoint dispatches (entries : list SseEventEntry) (last : text) : list Dispatched :=
  match entries with
  | [] => []
  | e :: rest => mk_dispatched (event e) (normalize_newlines (data e)) (next_id e last) :: dispatches rest (next_id e last)
  end.

Definition event_ok (e : SseEventEntry) : Prop :=
  Forall scalar (event e) /\ Forall scalar (event_id e) /\ Forall scalar (data e) /\ 0 ∉ event_id e.

Lemma process_events entries li rc :
  Forall (fun e => (0 ∉ event_id e) /\ 0 <= retry_ms e <= MAX_HTTP_TIMEOUT_MS) entries ->
  process_lines (entries ≫= event_lines) (mk_client [] [] li rc) =
  (mk_client [] [] (foldl (fun l e => next_id e l) li entries) (foldl (fun r e => next_retry e r) rc entries),
   dispatches entries li).
Proof.
  intros H. revert li rc. induction H as [|e entries [Hz Hr] _ IH]; intros li rc; [done|].
  rewrite bind_cons, process_lines_app, process_event_lines by done. rewrite IH. done.
Qed.

Definition line_ok (l : text) : Prop := Forall (fun c => scalar c /\ c <> CR /\ c <> LF) l.

Lemma line_ok_literal (s : string) : bool_decide (Forall (fun c => is_scalar c = true /\ c <> CR /\ c <> LF) (txt s)) = true ->
  line_ok (txt s).
Proof. by intros H%bool_decide_eq_true. Qed.

Lemma line_ok_text s : Forall scalar s -> plain s -> line_ok s.
Proof. intros H1 H2. by apply Forall_and. Qed.

Lemma join_members sep parts p c : p ∈ parts -> c ∈ p -> c ∈ join sep parts.
Proof.
  induction parts as [|q [|r parts] IH]; intros Hp Hc.
  - by apply elem_of_nil in Hp.
  - by apply list_elem_of_singleton in Hp as ->.
  - rewrite join_cons, !elem_of_app by done. apply elem_of_cons in Hp as [->|Hp]; [by left|]. right. right. by apply IH.
Qed.

Lemma split_lines_plain s p : p ∈ split_text s [LF] -> (LF ∉ p) /\ forall c, c ∈ p -> c ∈ s.
Proof.
  unfold split_text. destruct (split_on_spec [LF] (S (length s)) s) as (Hj & Ha & _); [done|lia|]. intros Hp. split.
  - rewrite Forall_forall in Ha. specialize (Ha p Hp). intros (pre & post & ->)%list_elem_of_split.
    by apply (Ha pre post).
  - intros c Hc. rewrite <- Hj. by eapply join_members.
Qed.

Lemma event_lines_ok e bytes : event_ok e -> encode_sse_event e = Ok bytes -> Forall line_ok (event_lines e).
Proof.
  intros (He & Hi & Hd & _) (_ & Pe & Pi & Hr)%encode_sse_event_ok.
  assert (forall f v, line_ok (txt f) -> line_ok v -> line_ok (txt f ++ v)) as Happ by (intros; by apply Forall_app).
  unfold event_lines, type_lines, id_lines, retry_lines, data_lines. repeat (apply Forall_app; split).
  - destruct (_ =? 0); [constructor|]. apply Forall_singleton, Happ; [by apply line_ok_literal|by apply line_ok_text].
  - destruct (_ =? 0); [constructor|]. apply Forall_singleton, Happ; [by apply line_ok_literal|by apply line_ok_text].
  - destruct (0 <? _); [|constructor]. apply Forall_singleton, Happ; [by apply line_ok_literal|].
    unfold mux_int_to_string. rewrite (proj2 (Z.ltb_ge _ 0)) by lia.
    eapply Forall_impl; [apply decimal_digits; lia|]. intros c Hc. cbv beta in Hc.
    split; [|unfold CR, LF; lia]. unfold scalar, is_scalar. 
    rewrite (proj2 (in_range_true 0 55295 c)) by lia. done.
  - destruct (_ =? 0); [apply Forall_singleton; by apply line_ok_literal|]. apply Forall_fmap, Forall_forall.
    intros p [Hlf Hin]%split_lines_plain. apply Happ; [by apply line_ok_literal|]. apply Forall_forall. intros c Hc.
    rewrite Forall_forall in Hd. split_and!.
    + apply Hin in Hc. apply normalize_members in Hc as [->|Hc]; [done|by apply Hd].
    + intros ->. by apply Hin, normalize_no_cr in Hc.
    + by intros ->.
  - repeat constructor.
Qed.

Lemma block_scalar lines : Forall line_ok lines -> Forall scalar (block lines).
Proof.
  induction 1 as [|l ls Hl _ IH]; [constructor|]. apply Forall_app. split; [|done]. apply Forall_app.
  split; [|by repeat constructor]. eapply Forall_impl; [exact Hl|]. by intros c [].
Qed.

Lemma encoded_events entries streams : Forall event_ok entries ->
  Forall2 (fun e b => encode_sse_event e = Ok b) entries streams ->
  concat streams = utf8 (block (entries ≫= event_lines)) /\ Forall line_ok (entries ≫= event_lines) /\
  Forall (fun e => (0 ∉ event_id e) /\ 0 <= retry_ms e <= MAX_HTTP_TIMEOUT_MS) entries.
Proof.
  intros Hok H. induction H as [|e b entries streams He _ IH]; [done|].
  apply Forall_cons in Hok as [He' Hok]. destruct (IH Hok) as (E & Hl & Hr).
  destruct (encode_sse_event_ok _ _ He) as (-> & _ & _ & Hre).
  cbn [concat]. rewrite bind_cons, block_app, utf8_app, <- sse_text_block, E. split_and!; [done| |].
  - apply Forall_app. split; [by eapply event_lines_ok|done].
  - constructor; [|done]. split; [apply He'|done].
Qed.

(** C16: A client reads back what the server sent.  For any sequence of events that
    encode, of any Unicode text (ids without NUL, which clients ignore), a client that
    follows the HTML standard's interpretation of event streams dispatches from the
    concatenated bytes exactly these events, in order: each with its type, its data
    (empty data included, line ends of any of the three kinds as LF) and the last id
    sent so far; its reconnection time is the last positive one sent. *)
Theorem sse_stream_roundtrip (entries : list SseEventEntry) (streams : list (list Z)) :
  Forall event_ok entries -> Forall2 (fun e b => encode_sse_event e = Ok b) entries streams ->
  exists c, client_run (concat streams) = Some (c, dispatches entries []) /\
    reconnection c = foldl (fun r e => next_retry e r) None entries.
Proof.
  intros Hok H. destruct (encoded_events _ _ Hok H) as (E & Hl & Hr). unfold client_run.
  rewrite E, utf8_decode_utf8 by by apply block_scalar. rewrite stream_lines_block.
  - unfold fresh_client. rewrite process_events by done. by eexists.
  - eapply Forall_impl; [exact Hl|]. intros l Hl'. eapply Forall_impl; [exact Hl'|]. by intros c (_ & ? & ?).
Qed.

Lemma sse_stream_roundtrip_witness :
  exists b1 b2 c,
    encode_sse_event (mk_event (txt "tick") (txt "7") 250 [97; 13; 10; 98; 13; 233] 1) = Ok b1 /\
    encode_sse_event (mk_event [] [] 0 [] 1) = Ok b2 /\
    client_run (b1 ++ b2) =
      Some (c, [mk_dispatched (txt "tick") [97; 10; 98; 10; 233] (txt "7"); mk_dispatched [] [] (txt "7")]) /\
    reconnection c = Some 250.
Proof.
  exists (utf8 (sse_text (mk_event (txt "tick") (txt "7") 250 [97; 13; 10; 98; 13; 233] 1))),
    (utf8 (sse_text (mk_event [] [] 0 [] 1))).
  destruct (sse_stream_roundtrip
    [mk_event (txt "tick") (txt "7") 250 [97; 13; 10; 98; 13; 233] 1; mk_event [] [] 0 [] 1]) with
    (streams := [utf8 (sse_text (mk_event (txt "tick") (txt "7") 250 [97; 13; 10; 98; 13; 233] 1));
                 utf8 (sse_text (mk_event [] [] 0 [] 1))]) as (c & E & Er).
  - repeat (apply Forall_cons; split; [unfold event_ok, scalar; split_and!; apply (bool_decide_unpack _); vm_compute; exact I|]).
    constructor.
  - repeat constructor; vm_compute; reflexivity.
  - exists c. split; [vm_compute; reflexivity|]. split; [vm_compute; reflexivity|]. split; [|exact Er].
    cbn [concat] in E. rewrite app_nil_r in E. exact E.
Defined.
