(* ===== verification/Cli.v ===== *)
(** * Command lines ([src/src/cli.rs])

    Parsers are entries of a table, subcommands are the parsers their parent names.
    Everything from the declaration of options to the parsed matches is modelled; the
    environment, the files that response arguments name and the compiled callbacks that
    normalise values are parameters of parsing. *)

From S2P Require Import Prelude AssocList Value Str Utf8 Http.

(** A message, with the names that are formatted into it. *)
Inductive CliError : Type :=
| Static (message : string)
| About (message : string) (name : text)
| Between (message : string) (name other : text)
| OutOfFuel.

Definition text_eqb : text -> text -> bool := list_eqb Z.eqb.
Definition starts (p : string) (s : text) : bool := is_prefix (txt p) s.

Record OptionSpec : Type := mk_option {
  name : text;
  short : option Z;
  takes_value : bool;
  required : bool;
  env : option text;
  default : option text;
  multiple : bool;
  conflicts : list text;
  requires : list text;
  aliases : list text;
  group : option text;
  parser : option Z;
}.

Record ParserEntry : Type := mk_parser {
  program : text;
  about : text;
  version : option text;
  options : list OptionSpec;
  positionals : list (text * bool);
  children : list (text * Z);
  response_files : bool;
  names : Z;
}.

(** [PARSERS] and [NEXT_ID]. *)
Record Store : Type := mk_store { parsers : gmap Z ParserEntry; next : Z }.

(** [checked_add(1).unwrap_or(1)]. *)
Definition next_id (s : Store) : Z * Store :=
  (next s, mk_store (parsers s) (if next s =? i64_max then 1 else next s + 1)).

(** ** Handles *)

(** [handle]: [None] stands for a value of another class. *)
Definition handle (class : string) (v : option Z) : result Z CliError :=
  match v with
  | None => Err (Static ("expected " +:+ class +:+ " value"))
  | Some id => if 0 <? id then Ok id else Err (Static (class +:+ " value is invalid"))
  end.

Definition with_names (n : Z) (e : ParserEntry) : ParserEntry :=
  mk_parser (program e) (about e) (version e) (options e) (positionals e) (children e) (response_files e) n.

(** The id that the copy stores. *)
Definition copy_parser (id : Z) (s : Store) : Z * Store :=
  match parsers s !! id with
  | Some e => (id, mk_store (<[id := with_names (Z.min usize_max (names e + 1)) e]> (parsers s)) (next s))
  | None => (0, s)
  end.

(** [release_parser_reference]; the recursion into the children goes down the tree of
    parsers, [fuel] bounds its depth. *)
Fixpoint release_parser_reference (fuel : nat) (id : Z) (ps : gmap Z ParserEntry) : gmap Z ParserEntry :=
  match fuel with
  | O => ps
  | S fuel =>
      match ps !! id with
      | None => ps
      | Some e =>
          let n := Z.max 0 (names e - 1) in
          if n =? 0 then
            foldl (fun ps '(_, child_id) => release_parser_reference fuel child_id ps) (delete id ps) (children e)
          else <[id := with_names n e]> ps
      end
  end.

Definition drop_parser (id : Z) (s : Store) : Store :=
  mk_store (release_parser_reference (S (Z.to_nat (next s))) id (parsers s)) (next s).

Definition default_entry : ParserEntry := mk_parser [] [] None [] [] [] false 0.

(** [parser_value]: [allocated] is false when the object cannot be allocated. *)
Definition parser_value (e : ParserEntry) (allocated : bool) (s : Store) : option Z * Store :=
  let '(id, s) := next_id s in
  if allocated then (Some id, mk_store (<[id := e]> (parsers s)) (next s))
  else (None, mk_store (delete id (<[id := e]> (parsers s))) (next s)).

Definition mux_cli_parser_new : bool -> Store -> option Z * Store := parser_value default_entry.

(** ** Declarations *)

Definition mutate_parser (p : option Z) (f : ParserEntry -> result ParserEntry CliError) (s : Store)
    : result unit CliError * Store :=
  match handle "CliParser" p with
  | Err e => (Err e, s)
  | Ok id =>
      match parsers s !! id with
      | None => (Err (Static "CliParser is closed"), s)
      | Some entry =>
          match f entry with
          | Ok entry => (Ok tt, mk_store (<[id := entry]> (parsers s)) (next s))
          | Err e => (Err e, s)
          end
      end
  end.

(** [text]: [None] for a value that is not a string; [with_text] is the early return. *)
Definition with_text {A} (label : string) (v : option text) (s : Store) (k : text -> result A CliError * Store)
    : result A CliError * Store :=
  match v with Some t => k t | None => (Err (Static (label +:+ " must be a string")), s) end.

Definition set_program (t : text) (e : ParserEntry) : ParserEntry :=
  mk_parser t (about e) (version e) (options e) (positionals e) (children e) (response_files e) (names e).
Definition set_about (t : text) (e : ParserEntry) : ParserEntry :=
  mk_parser (program e) t (version e) (options e) (positionals e) (children e) (response_files e) (names e).
Definition set_version (t : text) (e : ParserEntry) : ParserEntry :=
  mk_parser (program e) (about e) (Some t) (options e) (positionals e) (children e) (response_files e) (names e).
Definition set_response (b : bool) (e : ParserEntry) : ParserEntry :=
  mk_parser (program e) (about e) (version e) (options e) (positionals e) (children e) b (names e).
Definition set_options (os : list OptionSpec) (e : ParserEntry) : ParserEntry :=
  mk_parser (program e) (about e) (version e) os (positionals e) (children e) (response_files e) (names e).
Definition set_positionals (ps : list (text * bool)) (e : ParserEntry) : ParserEntry :=
  mk_parser (program e) (about e) (version e) (options e) ps (children e) (response_files e) (names e).
Definition set_children (cs : list (text * Z)) (e : ParserEntry) : ParserEntry :=
  mk_parser (program e) (about e) (version e) (options e) (positionals e) cs (response_files e) (names e).

Definition mux_cli_parser_set_program (p : option Z) (program : option text) (s : Store) : result unit CliError * Store :=
  with_text "program name" program s (fun program =>
    if nlen program =? 0 then (Err (Static "program name must not be empty"), s)
    else mutate_parser p (fun e => Ok (set_program program e)) s).
Definition mux_cli_parser_set_about (p : option Z) (about : option text) (s : Store) : result unit CliError * Store :=
  with_text "about text" about s (fun about => mutate_parser p (fun e => Ok (set_about about e)) s).
Definition mux_cli_parser_set_version (p : option Z) (version : option text) (s : Store) : result unit CliError * Store :=
  with_text "version" version s (fun version => mutate_parser p (fun e => Ok (set_version version e)) s).
Definition mux_cli_parser_set_response_files (p : option Z) (enabled : bool) (s : Store) : result unit CliError * Store :=
  mutate_parser p (fun e => Ok (set_response enabled e)) s.

(** Letters, digits, ['-'] and ['_'], and not empty. *)
Definition is_name (s : text) : bool :=
  negb (nlen s =? 0) && forallb (fun c => is_ascii_alphanumeric c || (c =? 45) || (c =? 95)) s.

Definition option_Z_eqb (a b : option Z) : bool := bool_decide (a = b).

Definition parse_short (short : text) : result (option Z) CliError :=
  match short with
  | [] => Ok None
  | ch :: rest =>
      if negb (is_ascii_alphanumeric ch) || negb (nlen rest =? 0) then
        Err (Static "short option must be one ASCII letter or digit")
      else Ok (Some ch)
  end.

Definition add_option (spec : OptionSpec) (e : ParserEntry) : result ParserEntry CliError :=
  if existsb (fun o => text_eqb (name o) (name spec) ||
                       (option_Z_eqb (short o) (short spec) && bool_decide (is_Some (short spec)))) (options e)
  then Err (Static "duplicate CLI option")
  else Ok (set_options (options e ++ [spec]) e).

Definition mux_cli_parser_add_option (p : option Z) (name short : option text) (takes_value required : bool) (s : Store)
    : result unit CliError * Store :=
  with_text "option name" name s (fun name =>
  with_text "short option" short s (fun short =>
    if negb (is_name name) then
      (Err (Static "option name must contain only letters, digits, '-' or '_' and must not be empty"), s)
    else
      match parse_short short with
      | Err e => (Err e, s)
      | Ok short =>
          mutate_parser p (add_option (mk_option name short takes_value required None None false [] [] [] None None)) s
      end)).

(** [iter_mut().find(..)] and an update of what it finds. *)
Fixpoint update_first (n : text) (f : OptionSpec -> OptionSpec) (os : list OptionSpec) : option (list OptionSpec) :=
  match os with
  | [] => None
  | o :: os => if text_eqb (name o) n then Some (f o :: os) else cons o <$> update_first n f os
  end.

Definition unknown_option : CliError := Static "unknown CLI option".

Definition update_option (n : text) (f : OptionSpec -> OptionSpec) (e : ParserEntry) : result ParserEntry CliError :=
  match update_first n f (options e) with
  | Some os => Ok (set_options os e)
  | None => Err unknown_option
  end.

Definition non_empty (t : text) : option text := if nlen t =? 0 then None else Some t.

Definition option_with_env (v : option text) (o : OptionSpec) : OptionSpec :=
  mk_option (name o) (short o) (takes_value o) (required o) v (default o) (multiple o) (conflicts o) (requires o) (aliases o)
    (group o) (parser o).
Definition option_with_default (v : option text) (o : OptionSpec) : OptionSpec :=
  mk_option (name o) (short o) (takes_value o) (required o) (env o) v (multiple o) (conflicts o) (requires o) (aliases o)
    (group o) (parser o).
Definition option_with_multiple (v : bool) (o : OptionSpec) : OptionSpec :=
  mk_option (name o) (short o) (takes_value o) (required o) (env o) (default o) v (conflicts o) (requires o) (aliases o)
    (group o) (parser o).
Definition option_with_conflict (v : text) (o : OptionSpec) : OptionSpec :=
  mk_option (name o) (short o) (takes_value o) (required o) (env o) (default o) (multiple o)
    (if existsb (text_eqb v) (conflicts o) then conflicts o else conflicts o ++ [v]) (requires o) (aliases o)
    (group o) (parser o).
Definition option_with_requirement (v : text) (o : OptionSpec) : OptionSpec :=
  mk_option (name o) (short o) (takes_value o) (required o) (env o) (default o) (multiple o) (conflicts o)
    (if existsb (text_eqb v) (requires o) then requires o else requires o ++ [v]) (aliases o) (group o) (parser o).
Definition option_with_alias (v : text) (o : OptionSpec) : OptionSpec :=
  mk_option (name o) (short o) (takes_value o) (required o) (env o) (default o) (multiple o) (conflicts o) (requires o)
    (aliases o ++ [v]) (group o) (parser o).
Definition option_with_group (v : text) (o : OptionSpec) : OptionSpec :=
  mk_option (name o) (short o) (takes_value o) (required o) (env o) (default o) (multiple o) (conflicts o) (requires o)
    (aliases o) (Some v) (parser o).
Definition option_with_parser (v : Z) (o : OptionSpec) : OptionSpec :=
  mk_option (name o) (short o) (takes_value o) (required o) (env o) (default o) (multiple o) (conflicts o) (requires o)
    (aliases o) (group o) (Some v).

Definition mux_cli_parser_set_option_parser (p : option Z) (n : option text) (callback : option Z) (s : Store)
    : result unit CliError * Store :=
  with_text "option name" n s (fun n =>
    match callback with
    | None => (Err (Static "option parser callback must not be null"), s)
    | Some c => mutate_parser p (update_option n (option_with_parser c)) s
    end).
Definition mux_cli_parser_set_option_env (p : option Z) (n env : option text) (s : Store) : result unit CliError * Store :=
  with_text "option name" n s (fun n =>
  with_text "environment name" env s (fun env =>
    mutate_parser p (update_option n (option_with_env (non_empty env))) s)).
Definition mux_cli_parser_set_option_default (p : option Z) (n default : option text) (s : Store)
    : result unit CliError * Store :=
  with_text "option name" n s (fun n =>
  with_text "default value" default s (fun default =>
    mutate_parser p (update_option n (option_with_default (non_empty default))) s)).
Definition mux_cli_parser_set_option_multiple (p : option Z) (n : option text) (multiple : bool) (s : Store)
    : result unit CliError * Store :=
  with_text "option name" n s (fun n => mutate_parser p (update_option n (option_with_multiple multiple)) s).

Definition declared (n : text) (e : ParserEntry) : bool := existsb (fun o => text_eqb (name o) n) (options e).

Definition mux_cli_parser_set_option_conflicts (p : option Z) (n other : option text) (s : Store)
    : result unit CliError * Store :=
  with_text "option name" n s (fun n =>
  with_text "conflicting option name" other s (fun other =>
    if text_eqb n other then (Err (Static "an option cannot conflict with itself"), s)
    else
      mutate_parser p (fun e =>
        if negb (declared n e) then Err unknown_option
        else if negb (declared other e) then Err (Static "unknown conflicting CLI option")
        else update_option n (option_with_conflict other) e) s)).

Definition mux_cli_parser_set_option_requires (p : option Z) (n required : option text) (s : Store)
    : result unit CliError * Store :=
  with_text "option name" n s (fun n =>
  with_text "required option name" required s (fun required =>
    if text_eqb n required then (Err (Static "an option cannot require itself"), s)
    else
      mutate_parser p (fun e =>
        if negb (declared n e) then Err unknown_option
        else if negb (declared required e) then Err (Static "unknown required CLI option")
        else update_option n (option_with_requirement required) e) s)).

Definition answers_to (n : text) (o : OptionSpec) : bool := text_eqb (name o) n || existsb (text_eqb n) (aliases o).

Definition mux_cli_parser_set_option_alias (p : option Z) (n alias : option text) (s : Store)
    : result unit CliError * Store :=
  with_text "option name" n s (fun n =>
  with_text "option alias" alias s (fun alias =>
    if negb (is_name alias) then
      (Err (Static "option alias must contain only letters, digits, '-' or '_' and must not be empty"), s)
    else
      mutate_parser p (fun e =>
        if negb (declared n e) then Err unknown_option
        else if existsb (answers_to alias) (options e) then Err (Static "duplicate CLI option alias")
        else update_option n (option_with_alias alias) e) s)).

Definition mux_cli_parser_set_option_group (p : option Z) (n group : option text) (s : Store)
    : result unit CliError * Store :=
  with_text "option name" n s (fun n =>
  with_text "option group" group s (fun group =>
    if nlen group =? 0 then (Err (Static "option group must not be empty"), s)
    else mutate_parser p (update_option n (option_with_group group)) s)).

Definition mux_cli_parser_add_positional (p : option Z) (n : option text) (required : bool) (s : Store)
    : result unit CliError * Store :=
  with_text "positional name" n s (fun n =>
    mutate_parser p (fun e =>
      if existsb (fun k => text_eqb k.1 n) (positionals e) then Err (Static "duplicate positional argument")
      else Ok (set_positionals (positionals e ++ [(n, required)]) e)) s).

Definition mux_cli_parser_add_subcommand (p : option Z) (n about : option text) (allocated : bool) (s : Store)
    : result Z CliError * Store :=
  match handle "CliParser" p with
  | Err e => (Err e, s)
  | Ok parent_id =>
      with_text "subcommand name" n s (fun n =>
      with_text "subcommand about" about s (fun about =>
        if negb (is_name n) then
          (Err (Static "subcommand name must contain only letters, digits, '-' or '_' and must not be empty"), s)
        else
          let '(child_id, s) := next_id s in
          match parsers s !! parent_id with
          | None => (Err (Static "CliParser is closed"), s)
          | Some parent =>
              if existsb (fun k => text_eqb k.1 n) (children parent) then (Err (Static "duplicate CLI subcommand"), s)
              else
                let ps := <[child_id := mk_parser n about None [] [] [] false 2]>
                            (<[parent_id := set_children (children parent ++ [(n, child_id)]) parent]> (parsers s)) in
                if allocated then (Ok child_id, mk_store ps (next s))
                else
                  let ps := match ps !! parent_id with
                            | Some parent => <[parent_id := set_children (List.filter (fun k => negb (k.2 =? child_id)) (children parent)) parent]> ps
                            | None => ps
                            end in
                  (Err (Static "could not allocate CLI value"), mk_store (delete child_id ps) (next s))
          end))
  end.

(** * Parsing a command line ([src/src/cli.rs])

    Response files, help texts, and the parse of arguments into matches. *)

(** ** Help texts *)

Definition append_program_description (e : ParserEntry) : text :=
  let t := program e in
  if nlen (about e) =? 0 then t else t ++ (if nlen t =? 0 then [] else [10; 10]) ++ about e.

(** [BTreeMap] of the groups: sorted by name, options in order of declaration. *)
Definition text_cmp (a b : text) : comparison := lex_cmp Z.compare (utf8 a) (utf8 b).

Fixpoint group_push (g : text) (o : OptionSpec) (groups : list (text * list OptionSpec)) : list (text * list OptionSpec) :=
  match groups with
  | [] => [(g, [o])]
  | (h, os) :: rest =>
      match text_cmp g h with
      | Lt => (g, [o]) :: groups
      | Eq => (h, os ++ [o]) :: rest
      | Gt => (h, os) :: group_push g o rest
      end
  end.

Definition option_groups (e : ParserEntry) : list (text * list OptionSpec) :=
  foldl (fun groups o => group_push (match group o with Some g => g | None => txt "Options" end) o groups) [] (options e).

Definition append_option (o : OptionSpec) : text :=
  txt "  --" ++ name o ++
  match short o with Some c => txt ", -" ++ [c] | None => [] end ++
  flat_map (fun alias => txt ", --" ++ alias) (aliases o) ++
  (if takes_value o then txt " <value>" else []) ++
  (if required o then txt " (required)" else []) ++ [10].

Definition append_option_groups (e : ParserEntry) : text :=
  flat_map (fun '(g, os) => [10; 10] ++ g ++ [58; 10] ++ flat_map append_option os) (option_groups e).

Definition append_positionals (e : ParserEntry) : text :=
  match positionals e with
  | [] => []
  | ps => [10] ++ txt "Positionals:" ++ [10] ++
          flat_map (fun '(n, required) => txt "  " ++ n ++ (if (required : bool) then txt " (required)" else []) ++ [10]) ps
  end.

Definition append_command (ps : gmap Z ParserEntry) (c : text * Z) : text :=
  let about := match ps !! c.2 with Some child => about child | None => [] end in
  txt "  " ++ c.1 ++ (if nlen about =? 0 then [] else txt "  " ++ about) ++ [10].

Definition append_commands (ps : gmap Z ParserEntry) (e : ParserEntry) : text :=
  match children e with
  | [] => []
  | cs => [10] ++ txt "Commands:" ++ [10] ++
          flat_map (append_command ps) (sort_by (fun a b => text_cmp a.1 b.1) cs)
  end.

Definition help_text (ps : gmap Z ParserEntry) (e : ParserEntry) : text :=
  append_program_description e ++ append_option_groups e ++ append_positionals e ++ append_commands ps e.

Definition mux_cli_parser_help (p : option Z) (s : Store) : result text CliError :=
  let? id := handle "CliParser" p in
  match parsers s !! id with
  | Some e => Ok (help_text (parsers s) e)
  | None => Err (Static "CliParser is closed")
  end.

(** ** Response files *)

Definition backslash : Z := 92.

(** A backslash escapes at the end of the source and before these characters. *)
Definition escapes (rest : text) : bool :=
  match rest with
  | [] => true
  | c :: _ => is_whitespace c || (c =? backslash) || (c =? 39) || (c =? 34) || (c =? 35)
  end.

(** The loop of [tokenize_response_file] over the characters left, with its state. *)
Fixpoint tokenize (s : text) (tokens : list text) (current : text) (quote : option Z) (escaped comment : bool)
    : result (list text) string :=
  match s with
  | [] =>
      if escaped then Err "response file ends with an escape"
      else match quote with
           | Some _ => Err "response file has an unterminated quote"
           | None => Ok (if nlen current =? 0 then tokens else tokens ++ [current])
           end
  | c :: rest =>
      if comment then tokenize rest tokens current quote escaped (negb (c =? 10))
      else if escaped then tokenize rest tokens (current ++ [c]) quote false comment
      else
        match quote with
        | Some active =>
            if (c =? backslash) && escapes rest then tokenize rest tokens current quote true comment
            else if c =? backslash then tokenize rest tokens (current ++ [c]) quote escaped comment
            else if c =? active then tokenize rest tokens current None escaped comment
            else tokenize rest tokens (current ++ [c]) quote escaped comment
        | None =>
            if (c =? backslash) && escapes rest then tokenize rest tokens current quote true comment
            else if c =? backslash then tokenize rest tokens (current ++ [c]) quote escaped comment
            else if (c =? 39) || (c =? 34) then tokenize rest tokens current (Some c) escaped comment
            else if (c =? 35) && (nlen current =? 0) then tokenize rest tokens current quote escaped true
            else if is_whitespace c then
              tokenize rest (if nlen current =? 0 then tokens else tokens ++ [current]) [] quote escaped comment
            else tokenize rest tokens (current ++ [c]) quote escaped comment
        end
  end.

Definition tokenize_response_file (source : text) : result (list text) string := tokenize source [] [] None false false.

Definition MAX_RESPONSE_DEPTH : nat := 8.
Definition MAX_RESPONSE_FILE_BYTES : Z := 16 * 1024 * 1024.
Definition MAX_RESPONSE_ARGUMENTS : Z := 1000000.

Record ResponseBudget : Type := mk_budget { remaining_bytes : Z; remaining_arguments : Z; argument_limit : Z }.

Definition new_budget (max_bytes max_arguments : Z) : ResponseBudget := mk_budget max_bytes max_arguments max_arguments.

Definition consume_bytes (path : text) (bytes : Z) (b : ResponseBudget) : result ResponseBudget CliError :=
  if remaining_bytes b <? bytes then
    Err (About "response files exceed the aggregate byte limit while reading '{path}'" path)
  else Ok (mk_budget (remaining_bytes b - bytes) (remaining_arguments b) (argument_limit b)).

Definition consume_argument (b : ResponseBudget) : result ResponseBudget CliError :=
  if remaining_arguments b =? 0 then
    Err (About "expanded response arguments exceed {limit} entries"
           (if argument_limit b =? MAX_RESPONSE_ARGUMENTS then txt "one million" else decimal 20 (argument_limit b)))
  else Ok (mk_budget (remaining_bytes b) (remaining_arguments b - 1) (argument_limit b)).

Abbreviation Values := (gmap (list Z) (list text)).

Section Parsing.
(** The contents of the files that can be read, the environment, and the callbacks
    that normalise values. *)
Context (file : text -> option (list Z)) (env_var : text -> option text).
Context (apply_option_parser : Z -> text -> result text text).

Definition read_response_file (path : text) (max_file_bytes : Z) (b : ResponseBudget)
    : result (text * ResponseBudget) CliError :=
  match file path with
  | None => Err (About "failed to read response file '{path}'" path)
  | Some contents =>
      if usize_max <? Z.min max_file_bytes (remaining_bytes b) + 1 then
        Err (Static "response file byte limit is too large")
      else
        let source := take (Z.to_nat (Z.min max_file_bytes (remaining_bytes b) + 1)) contents in
        if max_file_bytes <? nlen source then Err (About "response file '{path}' exceeds the limit" path)
        else
          let? b := consume_bytes path (nlen source) b in
          match utf8_decode source with
          | Some t => Ok (t, b)
          | None => Err (About "response file '{path}' must be valid UTF-8" path)
          end
  end.

(** [expand_response_files_with_budget] with [levels] nestings left: the depth starts
    at 0 and the ninth nesting is an error. *)
Fixpoint expand_response_files_with_budget (levels : nat) (max_file_bytes : Z) (args : list text) (b : ResponseBudget)
    : result (list text * ResponseBudget) CliError :=
  match levels with
  | O => Err (Static "response file nesting exceeds 8 levels")
  | S levels =>
      (fix go (args : list text) (b : ResponseBudget) : result (list text * ResponseBudget) CliError :=
         match args with
         | [] => Ok ([], b)
         | argument :: args =>
             if starts "@@" argument then
               let? b := consume_argument b in
               let? (rest, b) := go args b in
               Ok (drop 1 argument :: rest, b)
             else if negb (starts "@" argument) || (nlen (drop 1 argument) =? 0) then
               let? b := consume_argument b in
               let? (rest, b) := go args b in
               Ok (argument :: rest, b)
             else
               let path := drop 1 argument in
               let? (source, b) := read_response_file path max_file_bytes b in
               match tokenize_response_file source with
               | Err e => Err (About ("invalid response file '{path}': " +:+ e) path)
               | Ok nested =>
                   let? (nested, b) := expand_response_files_with_budget levels max_file_bytes nested b in
                   let? (rest, b) := go args b in
                   Ok (nested ++ rest, b)
               end
         end) args b
  end.

Definition expand_response_files (args : list text) : result (list text) CliError :=
  let? (args, _) := expand_response_files_with_budget (S MAX_RESPONSE_DEPTH) MAX_RESPONSE_FILE_BYTES args
                      (new_budget MAX_RESPONSE_FILE_BYTES MAX_RESPONSE_ARGUMENTS) in
  Ok args.

(** ** Matches *)

Inductive MatchesEntry : Type := mk_matches {
  m_values : Values;
  m_positionals : list text;
  m_help : text;
  m_subcommand : option text;
  m_subcommand_matches : option MatchesEntry;
}.

Record ParseState : Type := mk_state {
  values : Values;
  found : list text;
  subcommand : option text;
  subcommand_matches : option MatchesEntry;
}.

(** [entry(name).or_default().push(value)]. *)
Definition push_value (n v : text) (vs : Values) : Values :=
  <[n := match vs !! n with Some old => old | None => [] end ++ [v]]> vs.

Definition with_values (vs : Values) (st : ParseState) : ParseState :=
  mk_state vs (found st) (subcommand st) (subcommand_matches st).

Definition record_option (vs : Values) (o : OptionSpec) (display_name value : text) : result Values CliError :=
  if negb (multiple o) && bool_decide (is_Some (vs !! name o)) then
    Err (About "option '{display_name}' was provided more than once" display_name)
  else Ok (push_value (name o) value vs).

(** [split_once('=')]. *)
Definition split_once (c : Z) (s : text) : text * option text :=
  match find_sub [c] s with
  | Some i => (take i s, Some (drop (S i) s))
  | None => (s, None)
  end.

Definition find_long_option (e : ParserEntry) (n : text) : result OptionSpec CliError :=
  match List.find (answers_to n) (options e) with
  | Some o => Ok o
  | None => Err (About "unknown option '--{name}'" n)
  end.

(** The value, and whether it is the next argument. *)
Definition next_option_value (next : option text) (error : CliError) : result (text * bool) CliError :=
  match next with Some v => Ok (v, true) | None => Err error end.

Definition long_option_value (o : OptionSpec) (inline next : option text) (n : text) : result (text * bool) CliError :=
  match takes_value o, inline with
  | true, Some value => Ok (value, false)
  | true, None => next_option_value next (About "option '--{name}' requires a value" n)
  | false, Some _ => Err (About "option '--{name}' does not take a value" n)
  | false, None => Ok (txt "true", false)
  end.

(** [parse_long_option] on an argument and the one after it. *)
Definition parse_long_option (e : ParserEntry) (arg : text) (next : option text) (st : ParseState)
    : result (ParseState * bool) CliError :=
  let raw := drop 2 arg in
  let '(n, inline) := split_once 61 raw in
  let? o := find_long_option e n in
  let? (value, consumed) := long_option_value o inline next n in
  let? vs := record_option (values st) o (txt "--" ++ n) value in
  Ok (with_values vs st, consumed).

Definition find_short_option (e : ParserEntry) (c : Z) : result OptionSpec CliError :=
  match List.find (fun o => option_Z_eqb (short o) (Some c)) (options e) with
  | Some o => Ok o
  | None => Err (About "unknown option '-{short}'" [c])
  end.

(** The loop over the characters of a group of short options; an option that takes a
    value takes the rest of the group, or the next argument. *)
Fixpoint parse_short_options (e : ParserEntry) (chars : text) (next : option text) (st : ParseState)
    : result (ParseState * bool) CliError :=
  match chars with
  | [] => Ok (st, false)
  | c :: chars =>
      let? o := find_short_option e c in
      if takes_value o then
        let? (value, consumed) :=
          match chars with
          | [] => next_option_value next (About "option '-{short}' requires a value" [c])
          | _ => Ok (chars, false)
          end in
        let? vs := record_option (values st) o (45 :: [c]) value in
        Ok (with_values vs st, consumed)
      else
        match chars with
        | [] =>
            let? vs := record_option (values st) o (45 :: [c]) (txt "true") in
            Ok (with_values vs st, false)
        | _ => parse_short_options e chars next (with_values (push_value (name o) (txt "true") (values st)) st)
        end
  end.

(** [parse_argument_list] from an index on; [parse_child] parses a subcommand. *)
Fixpoint parse_argument_list (e : ParserEntry) (parse_child : text -> Z -> list text -> result MatchesEntry CliError)
    (args : list text) (st : ParseState) (end_options : bool) : result ParseState CliError :=
  match args with
  | [] => Ok st
  | arg :: rest =>
      if negb end_options && text_eqb arg (txt "--") then parse_argument_list e parse_child rest st true
      else if negb end_options && starts "-" arg && (1 <? nlen arg) then
        let? (st, consumed) :=
          if starts "--" arg && (2 <? nlen arg) then parse_long_option e arg (head rest) st
          else parse_short_options e (drop 1 arg) (head rest) st in
        match rest with
        | _ :: rest' =>
            if (consumed : bool) then parse_argument_list e parse_child rest' st end_options
            else parse_argument_list e parse_child rest st end_options
        | [] => Ok st
        end
      else
        let positional := parse_argument_list e parse_child rest
                            (mk_state (values st) (found st ++ [arg]) (subcommand st) (subcommand_matches st)) end_options in
        match subcommand st, found st with
        | None, [] =>
            match List.find (fun k => text_eqb k.1 arg) (children e) with
            | Some (n, child_id) =>
                let? child_matches := parse_child n child_id rest in
                Ok (mk_state (values st) (found st) (Some n) (Some child_matches))
            | None => positional
            end
        | _, _ => positional
        end
  end.

Fixpoint apply_option_defaults (os : list OptionSpec) (vs : Values) : result Values CliError :=
  match os with
  | [] => Ok vs
  | o :: os =>
      match vs !! name o with
      | Some _ => apply_option_defaults os vs
      | None =>
          match (match env o with Some n => env_var n | None => None end) with
          | Some v => apply_option_defaults os (<[name o := [v]]> vs)
          | None =>
              match default o with
              | Some d => apply_option_defaults os (<[name o := [d]]> vs)
              | None =>
                  if required o then Err (About "missing required option '--{name}'" (name o))
                  else apply_option_defaults os vs
              end
          end
      end
  end.

Fixpoint normalize_values (o : OptionSpec) (callback : Z) (raws : list text) : result (list text) CliError :=
  match raws with
  | [] => Ok []
  | raw :: raws =>
      match apply_option_parser callback raw with
      | Err e => Err (Between "invalid value for '--{name}': {error}" (name o) e)
      | Ok v => let? vs := normalize_values o callback raws in Ok (v :: vs)
      end
  end.

Definition normalize_option_values (o : OptionSpec) (vs : Values) : result Values CliError :=
  match parser o with
  | None => Ok vs
  | Some callback =>
      match vs !! name o with
      | None => Ok vs
      | Some raws => let? v := normalize_values o callback raws in Ok (<[name o := v]> vs)
      end
  end.

Fixpoint normalize_options (os : list OptionSpec) (vs : Values) : result Values CliError :=
  match os with
  | [] => Ok vs
  | o :: os => let? vs := normalize_option_values o vs in normalize_options os vs
  end.

Fixpoint validate_conflicts (n : text) (conflicts : list text) (vs : Values) : result unit CliError :=
  match conflicts with
  | [] => Ok tt
  | c :: cs =>
      match vs !! c with
      | Some _ => Err (Between "option '--{name}' conflicts with '--{other}'" n c)
      | None => validate_conflicts n cs vs
      end
  end.

Fixpoint validate_requirements (n : text) (requires : list text) (vs : Values) : result unit CliError :=
  match requires with
  | [] => Ok tt
  | r :: rs =>
      match vs !! r with
      | None => Err (Between "option '--{name}' requires '--{other}'" n r)
      | Some _ => validate_requirements n rs vs
      end
  end.

Fixpoint validate_option_relationships (os : list OptionSpec) (vs : Values) : result unit CliError :=
  match os with
  | [] => Ok tt
  | o :: os =>
      match vs !! name o with
      | None => validate_option_relationships os vs
      | Some _ =>
          let? _ := validate_conflicts (name o) (conflicts o) vs in
          let? _ := validate_requirements (name o) (requires o) vs in
          validate_option_relationships os vs
      end
  end.

Fixpoint validate_positionals (declared : list (text * bool)) (found : list text) : result unit CliError :=
  match declared with
  | [] => Ok tt
  | (n, required) :: declared =>
      match found with
      | [] => if (required : bool) then Err (About "missing required positional '{name}'" n) else validate_positionals declared []
      | _ :: found => validate_positionals declared found
      end
  end.

(** [parse_args] of a parser among the parsers [ps]; [fuel] bounds the depth of
    subcommands. *)
Fixpoint parse_args (fuel : nat) (ps : gmap Z ParserEntry) (e : ParserEntry) (args : list text)
    : result MatchesEntry CliError :=
  match fuel with
  | O => Err OutOfFuel
  | S fuel =>
      let parse_child n child_id args :=
        match ps !! child_id with
        | Some child => parse_args fuel ps child args
        | None => Err (About "CLI subcommand '{name}' is unavailable" n)
        end in
      let? args := if response_files e then expand_response_files args else Ok args in
      let? st := parse_argument_list e parse_child args (mk_state ∅ [] None None) false in
      let? vs := apply_option_defaults (options e) (values st) in
      let? vs := normalize_options (options e) vs in
      let? _ := validate_option_relationships (options e) vs in
      let? _ := validate_positionals (positionals e) (found st) in
      Ok (mk_matches vs (found st) (help_text ps e) (subcommand st) (subcommand_matches st))
  end.

(** [mux_cli_parser_parse] up to the handle of the matches; a parser at id [i] has
    fewer than [next - i] levels of subcommands below it. *)
Definition mux_cli_parser_parse (p : option Z) (args : option (list text)) (s : Store) : result MatchesEntry CliError :=
  let? id := handle "CliParser" p in
  let? args := match args with Some args => Ok args | None => Err (Static "CLI arguments must be list<string>") end in
  match parsers s !! id with
  | None => Err (Static "CliParser is closed")
  | Some e => parse_args (S (Z.to_nat (next s - id))) (parsers s) e args
  end.

End Parsing.

(** ** Accessors of matches *)

Definition mux_cli_matches_has (m : option MatchesEntry) (n : text) : bool :=
  match m with Some m => bool_decide (is_Some (m_values m !! n)) | None => false end.

Definition mux_cli_matches_get (m : option MatchesEntry) (n : text) : option text :=
  match m with
  | Some m => match m_values m !! n with Some vs => last vs | None => None end
  | None => None
  end.

Definition mux_cli_matches_values (m : option MatchesEntry) (n : text) : list text :=
  match m with Some m => match m_values m !! n with Some vs => vs | None => [] end | None => [] end.

Definition mux_cli_matches_get_int (m : option MatchesEntry) (n : text) : result (option Z) CliError :=
  match mux_cli_matches_get m n with
  | None => Ok None
  | Some v => match from_str_radix 10 v with
              | Some i => Ok (Some i)
              | None => Err (Static "CLI option value is not a valid integer")
              end
  end.
