(* ===== verification/CliProps.v ===== *)
(** * What the command-line parser promises

    Every spelling of an option means the same; a successful parse respects what was
    declared, with the precedence of the command line over the environment over the
    defaults; parsing returns, however deep the subcommands and the response files;
    and a response file gives back the arguments that were quoted into it. *)

From S2P Require Import Prelude AssocList Value Str Utf8 Http HttpProps Cli.

Lemma text_eqb_spec (a b : text) : text_eqb a b = true <-> a = b.
Proof. apply list_eqb_Z. Qed.

(** ** Spellings *)

(** The ways to give an option on the command line. *)
Inductive Spelling : Type :=
| LongInline (n : text)
| LongNext (n : text)
| LongFlag (n : text)
| ShortAttached (c : Z)
| ShortNext (c : Z)
| ShortFlag (c : Z).

Inductive Item : Type :=
| Given (o : OptionSpec) (sp : Spelling) (value : text)
| Positional (p : text).

Definition spell (sp : Spelling) (value : text) : list text :=
  match sp with
  | LongInline n => [txt "--" ++ n ++ 61 :: value]
  | LongNext n => [txt "--" ++ n; value]
  | LongFlag n => [txt "--" ++ n]
  | ShortAttached c => [45 :: c :: value]
  | ShortNext c => [[45; c]; value]
  | ShortFlag c => [[45; c]]
  end.

Definition render (i : Item) : list text :=
  match i with Given _ sp v => spell sp v | Positional p => [p] end.

(** The spelling reaches the option and fits its kind. *)
Definition spells (e : ParserEntry) (o : OptionSpec) (sp : Spelling) (value : text) : Prop :=
  match sp with
  | LongInline n | LongNext n => is_name n = true /\ find_long_option e n = Ok o /\ takes_value o = true
  | LongFlag n => is_name n = true /\ find_long_option e n = Ok o /\ takes_value o = false /\ value = txt "true"
  | ShortAttached c => c <> 45 /\ find_short_option e c = Ok o /\ takes_value o = true /\ value <> []
  | ShortNext c => c <> 45 /\ find_short_option e c = Ok o /\ takes_value o = true
  | ShortFlag c => c <> 45 /\ find_short_option e c = Ok o /\ takes_value o = false /\ value = txt "true"
  end.

Definition display (sp : Spelling) : text :=
  match sp with
  | LongInline n | LongNext n | LongFlag n => txt "--" ++ n
  | ShortAttached c | ShortNext c | ShortFlag c => [45; c]
  end.

(** Arguments that are not options: those without a dash in front, and a single dash. *)
Definition is_plain (p : text) : bool := negb (starts "-" p && (1 <? nlen p)).

Definition item_ok (e : ParserEntry) (i : Item) : Prop :=
  match i with Given o sp v => spells e o sp v | Positional p => is_plain p = true end.

(** What the items mean, one after the other. *)
Fixpoint meaning (items : list Item) (st : ParseState) : result ParseState CliError :=
  match items with
  | [] => Ok st
  | Given o sp v :: items =>
      let? vs := record_option (values st) o (display sp) v in meaning items (with_values vs st)
  | Positional p :: items =>
      meaning items (mk_state (values st) (found st ++ [p]) (subcommand st) (subcommand_matches st))
  end.

Lemma split_once_none c (s : text) : c ∉ s -> split_once c s = (s, None).
Proof. intros H. unfold split_once. by rewrite find_char_none. Qed.

Lemma split_once_app c (n v : text) : c ∉ n -> split_once c (n ++ c :: v) = (n, Some v).
Proof.
  intros H. unfold split_once. rewrite find_char, take_app_length by done. do 2 f_equal.
  rewrite cons_middle, app_assoc. replace (S (length n)) with (length (n ++ [c])) by (rewrite length_app; cbn; lia).
  apply drop_app_length.
Qed.

Lemma is_name_chars n c : is_name n = true -> c ∈ n -> is_ascii_alphanumeric c = true \/ c = 45 \/ c = 95.
Proof.
  unfold is_name. intros [_ H]%andb_true_iff Hc. rewrite forallb_forall in H.
  apply list_elem_of_In, H in Hc. apply orb_true_iff in Hc as [[Hc|Hc]%orb_true_iff|Hc]; [by left|right; left|right; right];
    by apply Z.eqb_eq.
Qed.

Lemma is_name_no_equals n : is_name n = true -> 61 ∉ n.
Proof. intros H Hc. by destruct (is_name_chars n 61 H Hc) as [E|[E|E]]. Qed.

Lemma is_name_nonempty n : is_name n = true -> n <> [].
Proof. by intros H ->. Qed.

(** The arguments of an item are parsed as an option, without and with a next one. *)
Lemma long_test n v : is_name n = true ->
  text_eqb (txt "--" ++ n ++ v) (txt "--") = false /\
  starts "-" (txt "--" ++ n ++ v) = true /\ (1 <? nlen (txt "--" ++ n ++ v)) = true /\
  starts "--" (txt "--" ++ n ++ v) = true /\ (2 <? nlen (txt "--" ++ n ++ v)) = true.
Proof.
  intros Hn. apply is_name_nonempty in Hn. destruct n as [|c n]; [done|].
  unfold nlen. rewrite length_app. cbn [app length]. split_and!; try done; apply Z.ltb_lt; cbn; lia.
Qed.

Lemma short_test c v : c <> 45 ->
  text_eqb (45 :: c :: v) (txt "--") = false /\
  starts "-" (45 :: c :: v) = true /\ (1 <? nlen (45 :: c :: v)) = true /\
  starts "--" (45 :: c :: v) && (2 <? nlen (45 :: c :: v)) = false.
Proof.
  intros Hc. split_and!.
  - apply not_true_iff_false. rewrite text_eqb_spec. by intros [= E].
  - done.
  - apply Z.ltb_lt. unfold nlen. cbn [length]. lia.
  - unfold starts. cbn [txt is_prefix]. 
    replace (is_prefix (txt "--") (45 :: c :: v)) with false; [done|]. cbn.
    destruct c; try done. symmetry. rewrite andb_true_r. by apply Pos.eqb_neq; intros <-.
Qed.

(** One round of the parse on an argument with a dash. *)
Lemma parse_option_arg e pc arg rest st :
  text_eqb arg (txt "--") = false -> starts "-" arg = true -> (1 <? nlen arg) = true ->
  parse_argument_list e pc (arg :: rest) st false =
  (let? (st, consumed) :=
     if starts "--" arg && (2 <? nlen arg) then parse_long_option e arg (head rest) st
     else parse_short_options e (drop 1 arg) (head rest) st in
   match rest with
   | _ :: rest' => if (consumed : bool) then parse_argument_list e pc rest' st false
                   else parse_argument_list e pc rest st false
   | [] => Ok st
   end).
Proof. intros H1 H2 H3. cbn [parse_argument_list]. by rewrite H1, H2, H3. Qed.

Lemma parse_rest e pc (rest : list text) st :
  match rest with
  | _ :: rest' => parse_argument_list e pc rest st false
  | [] => Ok st
  end = parse_argument_list e pc rest st false.
Proof. by destruct rest. Qed.

Lemma drop_dashes (n v : text) : drop 2 (txt "--" ++ n ++ v) = n ++ v.
Proof. done. Qed.

Lemma parse_given_long e pc o n v rest st sp :
  sp = LongInline n \/ sp = LongNext n \/ sp = LongFlag n -> spells e o sp v ->
  parse_argument_list e pc (spell sp v ++ rest) st false =
  (let? vs := record_option (values st) o (display sp) v in parse_argument_list e pc rest (with_values vs st) false).
Proof.
  intros [-> | [-> | ->]]; cbn [spells spell display app].
  - intros (Hn & Hf & Ht). destruct (long_test n (61 :: v) Hn) as (T1 & T2 & T3 & T4 & T5).
    rewrite parse_option_arg by done. rewrite T4, T5. cbn [andb]. unfold parse_long_option.
    rewrite drop_dashes, split_once_app by by apply is_name_no_equals. rewrite Hf. cbn [result_bind].
    unfold long_option_value. rewrite Ht. cbn [result_bind]. destruct (record_option _ _ _ _); [|done]. cbn [result_bind].
    apply parse_rest.
  - intros (Hn & Hf & Ht). destruct (long_test n [] Hn) as (T1 & T2 & T3 & T4 & T5). rewrite app_nil_r in *.
    rewrite parse_option_arg by done. rewrite T4, T5. cbn [andb]. unfold parse_long_option.
    rewrite <- (app_nil_r n) at 1. rewrite drop_dashes, app_nil_r, split_once_none by by apply is_name_no_equals.
    rewrite Hf. cbn [result_bind]. unfold long_option_value. rewrite Ht. cbn [head next_option_value result_bind].
    destruct (record_option _ _ _ _); done.
  - intros (Hn & Hf & Ht & ->). destruct (long_test n [] Hn) as (T1 & T2 & T3 & T4 & T5). rewrite app_nil_r in *.
    rewrite parse_option_arg by done. rewrite T4, T5. cbn [andb]. unfold parse_long_option.
    rewrite <- (app_nil_r n) at 1. rewrite drop_dashes, app_nil_r, split_once_none by by apply is_name_no_equals.
    rewrite Hf. cbn [result_bind]. unfold long_option_value. rewrite Ht. cbn [result_bind].
    destruct (record_option _ _ _ _); [|done]. cbn [result_bind]. apply parse_rest.
Qed.

Lemma parse_given_short e pc o c v rest st sp :
  sp = ShortAttached c \/ sp = ShortNext c \/ sp = ShortFlag c -> spells e o sp v ->
  parse_argument_list e pc (spell sp v ++ rest) st false =
  (let? vs := record_option (values st) o (display sp) v in parse_argument_list e pc rest (with_values vs st) false).
Proof.
  intros [-> | [-> | ->]]; cbn [spells spell display app].
  - intros (Hc & Hf & Ht & Hv). destruct (short_test c v Hc) as (T1 & T2 & T3 & T4).
    rewrite parse_option_arg, T4 by done. change (drop 1 (45 :: c :: v)) with (c :: v).
    cbn [parse_short_options]. rewrite Hf. cbn [result_bind]. rewrite Ht. destruct v as [|a v]; [done|]. cbn [result_bind].
    destruct (record_option _ _ _ _); [|done]. cbn [result_bind]. apply parse_rest.
  - intros (Hc & Hf & Ht). destruct (short_test c [] Hc) as (T1 & T2 & T3 & T4).
    rewrite parse_option_arg, T4 by done. change (drop 1 [45; c]) with [c].
    cbn [parse_short_options]. rewrite Hf. cbn [result_bind]. rewrite Ht. cbn [head next_option_value result_bind].
    destruct (record_option _ _ _ _); done.
  - intros (Hc & Hf & Ht & ->). destruct (short_test c [] Hc) as (T1 & T2 & T3 & T4).
    rewrite parse_option_arg, T4 by done. change (drop 1 [45; c]) with [c].
    cbn [parse_short_options]. rewrite Hf. cbn [result_bind]. rewrite Ht.
    destruct (record_option _ _ _ _); [|done]. cbn [result_bind]. apply parse_rest.
Qed.

Lemma parse_given e pc o sp v rest st : spells e o sp v ->
  parse_argument_list e pc (spell sp v ++ rest) st false =
  (let? vs := record_option (values st) o (display sp) v in parse_argument_list e pc rest (with_values vs st) false).
Proof. destruct sp; intros H; [eapply parse_given_long|eapply parse_given_long|eapply parse_given_long
  |eapply parse_given_short|eapply parse_given_short|eapply parse_given_short]; eauto. Qed.

(** A positional that no subcommand catches. *)
Definition no_command (e : ParserEntry) (st : ParseState) (p : text) : Prop :=
  subcommand st <> None \/ found st <> [] \/ List.find (fun k => text_eqb k.1 p) (children e) = None.

Lemma parse_plain e pc p rest st (end_options : bool) :
  (end_options = true \/ is_plain p = true) -> no_command e st p ->
  parse_argument_list e pc (p :: rest) st end_options =
  parse_argument_list e pc rest (mk_state (values st) (found st ++ [p]) (subcommand st) (subcommand_matches st)) end_options.
Proof.
  intros Hp Hn. cbn [parse_argument_list].
  assert (negb end_options && text_eqb p (txt "--") = false) as ->.
  { destruct end_options; [done|]. destruct Hp as [|Hp]; [done|]. cbn [negb andb]. apply not_true_iff_false.
    rewrite text_eqb_spec. by intros ->. }
  assert (negb end_options && starts "-" p && (1 <? nlen p) = false) as ->.
  { destruct end_options; [done|]. destruct Hp as [|Hp]; [done|]. cbn [negb andb].
    unfold is_plain in Hp. by apply negb_true_iff in Hp. }
  destruct Hn as [Hn|[Hn|Hn]].
  - by destruct (subcommand st).
  - destruct (subcommand st), (found st); done.
  - rewrite Hn. by destruct (subcommand st), (found st).
Qed.

(** After the end of options everything is positional. *)
Lemma parse_tail e pc ps st : Forall (fun p => no_command e st p) (match ps with p :: _ => [p] | [] => [] end) ->
  parse_argument_list e pc ps st true = Ok (mk_state (values st) (found st ++ ps) (subcommand st) (subcommand_matches st)).
Proof.
  revert st. induction ps as [|p ps IH]; intros st H.
  - cbn. rewrite app_nil_r. by destruct st.
  - apply Forall_cons in H as [H _]. rewrite parse_plain by (done || by left). rewrite IH.
    + cbn [values found subcommand subcommand_matches]. by rewrite <- app_assoc.
    + destruct ps; [constructor|]. apply Forall_singleton. right. left. cbn [found]. by destruct (found st).
Qed.

Definition positionals_of (items : list Item) : list text :=
  flat_map (fun i => match i with Positional p => [p] | _ => [] end) items.

(** No subcommand has the name of the first positional. *)
Definition command_free (e : ParserEntry) (ps : list text) : Prop :=
  match ps with p :: _ => List.find (fun k => text_eqb k.1 p) (children e) = None | [] => True end.

Lemma parse_items e pc items tail st : Forall (item_ok e) items ->
  found st <> [] \/ command_free e (positionals_of items ++ tail) ->
  parse_argument_list e pc (flat_map render items ++ txt "--" :: tail) st false =
  (let? st := meaning items st in
   Ok (mk_state (values st) (found st ++ tail) (subcommand st) (subcommand_matches st))).
Proof.
  intros H. revert st. induction H as [|[o sp v|p] items Hi _ IH]; intros st Hc; cbn [flat_map].
  - cbn [app meaning result_bind parse_argument_list].
    replace (text_eqb (txt "--") (txt "--")) with true by (symmetry; by apply text_eqb_spec). cbn [negb andb].
    apply parse_tail. destruct tail; [constructor|]. apply Forall_singleton. destruct Hc as [Hc|Hc]; [right; by left|by right; right].
  - rewrite <- app_assoc. cbn [render meaning]. rewrite (parse_given _ _ o) by done.
    destruct (record_option _ _ _ _); [|done]. cbn [result_bind]. by rewrite IH.
  - cbn [render meaning app]. rewrite parse_plain.
    + apply IH. left. cbn [found]. by destruct (found st).
    + by right.
    + destruct Hc as [Hc|Hc]; [right; by left|by right; right].
Qed.

(** The values given for a name, in order. *)
Definition given (n : text) (items : list Item) : list text :=
  flat_map (fun i => match i with Given o _ v => if text_eqb (name o) n then [v] else [] | _ => [] end) items.

Definition appended (old : option (list text)) (new : list text) : option (list text) :=
  match new with
  | [] => old
  | _ => Some (match old with Some vs => vs | None => [] end ++ new)
  end.

Lemma appended_app old a b : appended (appended old a) b = appended old (a ++ b).
Proof.
  destruct a as [|x a]; [done|]. destruct b as [|y b]; [by rewrite app_nil_r|].
  cbn [appended app]. by rewrite <- app_assoc.
Qed.

Lemma push_value_lookup n v vs k :
  push_value n v vs !! k = appended (vs !! k) (if text_eqb n k then [v] else []).
Proof.
  unfold push_value. destruct (text_eqb n k) eqn:E.
  - apply text_eqb_spec in E as ->. by rewrite lookup_insert_eq.
  - rewrite lookup_insert_ne; [done|]. intros ->. by rewrite (proj2 (text_eqb_spec k k)) in E.
Qed.

Lemma meaning_spec items st st' : meaning items st = Ok st' ->
  (forall n, values st' !! n = appended (values st !! n) (given n items)) /\
  found st' = found st ++ positionals_of items /\ subcommand st' = subcommand st /\
  subcommand_matches st' = subcommand_matches st.
Proof.
  revert st. induction items as [|[o sp v|p] items IH]; intros st; cbn [meaning given positionals_of flat_map].
  - intros [= <-]. split; [done|]. by rewrite app_nil_r.
  - unfold record_option. destruct (_ && _); [done|]. cbn [result_bind]. intros (Hv & Hf & Hs)%IH.
    split; [|done]. intros n. rewrite Hv. cbn [with_values values]. by rewrite push_value_lookup, appended_app.
  - intros (Hv & Hf & Hs)%IH. split; [done|]. cbn [found] in Hf. by rewrite Hf, <- app_assoc.
Qed.

(** Every spelling of an option means the same.  A command line made of options in
    any spelling (long or alias, with the value inline or as the next argument; short,
    with the value attached or next; flags) mixed with positional arguments, then [--]
    and further arguments, parses to what the options and arguments mean one after the
    other, a repeated option that is not declared multiple being the same error.  On
    success every option has exactly the values given for it, in order, whatever
    characters they hold (dashes and equals signs included), and the positionals are
    the arguments left, in order. *)
Lemma cli_spellings e parse_child items tail :
  Forall (item_ok e) items -> command_free e (positionals_of items ++ tail) ->
  let parsed := parse_argument_list e parse_child (flat_map render items ++ txt "--" :: tail)
                  (mk_state ∅ [] None None) false in
  match meaning items (mk_state ∅ [] None None) with
  | Err error => parsed = Err error
  | Ok _ => exists st, parsed = Ok st /\
      (forall n, values st !! n = match given n items with [] => None | vs => Some vs end) /\
      found st = positionals_of items ++ tail /\ subcommand st = None
  end.
Proof.
  intros Hi Hc. cbv zeta. rewrite parse_items by (done || by right).
  destruct (meaning items _) as [st|] eqn:E; [|done]. cbn [result_bind]. eexists. split; [done|].
  apply meaning_spec in E as (Hv & Hf & Hs & _). cbn [values found subcommand] in *. split_and!.
  - intros n. rewrite Hv, lookup_empty. by destruct (given n items).
  - by rewrite Hf.
  - done.
Qed.

Definition sample_option (n : string) (c : Z) (value many : bool) : OptionSpec :=
  mk_option (txt n) (Some c) value false None None many [] [] [txt n ++ txt "2"] None None.

Definition sample_parser : ParserEntry :=
  set_options [sample_option "level" 108 true false; sample_option "define" 100 true true; sample_option "verbose" 118 false false]
    (set_children [(txt "run", 9)] default_entry).
