(* ===== verification/CliSound.v ===== *)
(** * Parsers that were declared, and what their parses guarantee *)

From S2P Require Import Prelude AssocList Value Str Utf8 Http HttpProps Cli CliProps.

Definition option_names (e : ParserEntry) : list text := name <$> options e.

(** ** Values of a parse *)

Section Sound.
Context (file : text -> option (list Z)) (env_var : text -> option text).
Context (apply_option_parser : Z -> text -> result text text).

(** Where the raw values of an option come from. *)
Definition raw_values (vs : Values) (o : OptionSpec) : option (list text) :=
  match vs !! name o with
  | Some given => Some given
  | None =>
      match (match env o with Some n => env_var n | None => None end) with
      | Some v => Some [v]
      | None => (fun d => [d]) <$> default o
      end
  end.

Lemma defaults_spec os vs vs' : NoDup (name <$> os) -> apply_option_defaults env_var os vs = Ok vs' ->
  (forall n, n ∉ name <$> os -> vs' !! n = vs !! n) /\
  (forall o, o ∈ os -> vs' !! name o = raw_values vs o /\ (required o = true -> is_Some (vs' !! name o))).
Proof.
  revert vs. induction os as [|o os IH]; intros vs Hd; cbn [apply_option_defaults].
  { intros [= <-]. split; [done|]. intros o H. by apply elem_of_nil in H. }
  rewrite fmap_cons in Hd. apply NoDup_cons in Hd as [Hn Hd]. intros H.
  assert (exists v, apply_option_defaults env_var os (match raw_values vs o with Some v => <[name o := v]> vs | None => vs end) = Ok vs' /\
    raw_values vs o = v /\ (required o = true -> is_Some v)) as (v & H' & Hv & Hr).
  { unfold raw_values. exists (raw_values vs o). unfold raw_values. destruct (vs !! name o) as [g|] eqn:E.
    { rewrite insert_id by done. by split_and!. }
    destruct (match env o with Some n => env_var n | None => None end); [by split_and!|].
    destruct (default o); cbn [fmap option_fmap option_map]; [by split_and!|].
    destruct (required o); [done|]. by split_and!. }
  apply IH in H' as [Hout Hin]; [|done]. 
  assert (forall w, vs' !! name o = w <-> raw_values vs o = w) as Ho.
  { intros w. rewrite Hout by done. unfold raw_values in *. rewrite Hv. destruct v as [v|]; [by rewrite lookup_insert_eq|].
    destruct (vs !! name o); [done|]. done. }
  split.
  - intros n Hnn. rewrite fmap_cons, not_elem_of_cons in Hnn. destruct Hnn as [Hne Hnn]. rewrite Hout by done.
    destruct (raw_values vs o); [|done]. apply lookup_insert_ne. congruence.
  - intros o' [->|Ho']%elem_of_cons.
    + split; [by apply Ho|]. rewrite (proj2 (Ho v) Hv). done.
    + destruct (Hin o' Ho') as [E1 E2]. split; [|done]. rewrite E1. unfold raw_values at 1 3.
      assert (name o <> name o') as Hne. { intros E. apply Hn. rewrite E. apply list_elem_of_fmap. by exists o'. }
      destruct (raw_values vs o); [by rewrite lookup_insert_ne|done].
Qed.

Lemma normalize_values_ok o cb raws out : normalize_values apply_option_parser o cb raws = Ok out ->
  Forall2 (fun raw v => apply_option_parser cb raw = Ok v) raws out.
Proof.
  revert out. induction raws as [|raw raws IH]; intros out; cbn [normalize_values]; [intros [= <-]; constructor|].
  destruct (apply_option_parser cb raw) as [v|] eqn:E; [|done].
  destruct (normalize_values _ o cb raws) as [vs|]; [|done]. intros [= <-]. constructor; [done|]. by apply IH.
Qed.

(** The values after the callback of the option, if it has one. *)
Definition normalized (o : OptionSpec) (raws out : list text) : Prop :=
  match parser o with
  | None => out = raws
  | Some cb => Forall2 (fun raw v => apply_option_parser cb raw = Ok v) raws out
  end.

Lemma normalize_one o vs vs' : normalize_option_values apply_option_parser o vs = Ok vs' ->
  (forall n, n <> name o -> vs' !! n = vs !! n) /\
  match vs !! name o with
  | None => vs' !! name o = None
  | Some raws => exists out, vs' !! name o = Some out /\ normalized o raws out
  end.
Proof.
  unfold normalize_option_values, normalized. destruct (parser o) as [cb|].
  - destruct (vs !! name o) as [raws|] eqn:E; [|by intros [= <-]].
    destruct (normalize_values _ o cb raws) as [out|] eqn:En; [|done]. intros [= <-]. split.
    + intros n Hn. by rewrite lookup_insert_ne.
    + exists out. rewrite lookup_insert_eq. split; [done|]. by eapply normalize_values_ok.
  - intros [= <-]. split; [done|]. destruct (vs !! name o) eqn:E; [|done]. eauto.
Qed.

Lemma normalize_spec os vs vs' : NoDup (name <$> os) -> normalize_options apply_option_parser os vs = Ok vs' ->
  (forall n, n ∉ name <$> os -> vs' !! n = vs !! n) /\
  (forall o, o ∈ os -> match vs !! name o with
                       | None => vs' !! name o = None
                       | Some raws => exists out, vs' !! name o = Some out /\ normalized o raws out
                       end).
Proof.
  revert vs. induction os as [|o os IH]; intros vs Hd; cbn [normalize_options].
  { intros [= <-]. split; [done|]. intros o H. by apply elem_of_nil in H. }
  rewrite fmap_cons in Hd. apply NoDup_cons in Hd as [Hn Hd].
  destruct (normalize_option_values _ o vs) as [vs1|] eqn:E1; [|done]. cbn [result_bind].
  intros [Hout Hin]%IH; [|done]. apply normalize_one in E1 as [Ho1 Hi1]. split.
  - intros n [Hne Hnn]%not_elem_of_cons. rewrite Hout by done. by apply Ho1.
  - intros o' [->|Ho']%elem_of_cons.
    + rewrite Hout by done. exact Hi1.
    + specialize (Hin o' Ho'). rewrite Ho1 in Hin; [done|]. intros E. apply Hn. rewrite <- E. apply list_elem_of_fmap. by exists o'.
Qed.

Lemma conflicts_ok n cs vs u : validate_conflicts n cs vs = Ok u -> Forall (fun c => vs !! c = None) cs.
Proof.
  induction cs as [|c cs IH]; cbn [validate_conflicts]; [constructor|].
  destruct (vs !! c) eqn:E; [done|]. intros H. constructor; [done|]. by apply IH.
Qed.

Lemma requirements_ok n rs vs u : validate_requirements n rs vs = Ok u -> Forall (fun r => is_Some (vs !! r)) rs.
Proof.
  induction rs as [|r rs IH]; cbn [validate_requirements]; [constructor|].
  destruct (vs !! r) eqn:E; [|done]. intros H. constructor; [by rewrite E|]. by apply IH.
Qed.

Lemma relationships_ok os vs u : validate_option_relationships os vs = Ok u ->
  forall o, o ∈ os -> is_Some (vs !! name o) ->
    Forall (fun c => vs !! c = None) (conflicts o) /\ Forall (fun r => is_Some (vs !! r)) (requires o).
Proof.
  induction os as [|o os IH]; cbn [validate_option_relationships]; [intros _ o H; by apply elem_of_nil in H|].
  intros H o' [->|Ho']%elem_of_cons.
  - intros [v Hv]. rewrite Hv in H. destruct (validate_conflicts _ _ _) eqn:E1; [|done]. cbn [result_bind] in H.
    destruct (validate_requirements _ _ _) eqn:E2; [|done]. split; [by eapply conflicts_ok|by eapply requirements_ok].
  - apply IH; [|done]. destruct (vs !! name o); [|done]. destruct (validate_conflicts _ _ _); [|done].
    cbn [result_bind] in H. destruct (validate_requirements _ _ _); [|done]. done.
Qed.

Lemma positionals_ok declared found u : validate_positionals declared found = Ok u ->
  forall i n, declared !! i = Some (n, true) -> (i < length found)%nat.
Proof.
  revert found. induction declared as [|[n r] declared IH]; intros found; cbn [validate_positionals]; [done|].
  intros H i m Hi. destruct found as [|f found].
  - destruct i as [|i]; [by simplify_eq/=|]. destruct r; [done|]. specialize (IH _ H i m Hi). cbn in IH. lia.
  - destruct i as [|i]; cbn [length]; [lia|]. specialize (IH _ H i m Hi). lia.
Qed.

(** ** Keys *)

Definition keys_declared (e : ParserEntry) (vs : Values) : Prop := forall n, is_Some (vs !! n) -> n ∈ option_names e.

Lemma find_declared e (f : OptionSpec -> bool) o : List.find f (options e) = Some o -> name o ∈ option_names e.
Proof. intros H. apply List.find_some in H as [H _]. apply list_elem_of_fmap. exists o. by rewrite list_elem_of_In. Qed.

Lemma push_declared e n v vs : keys_declared e vs -> n ∈ option_names e -> keys_declared e (push_value n v vs).
Proof.
  intros H Hn k. rewrite push_value_lookup. destruct (text_eqb n k) eqn:E; [|apply H].
  intros _. by apply text_eqb_spec in E as <-.
Qed.

Lemma record_declared e vs o d v vs' : keys_declared e vs -> name o ∈ option_names e ->
  record_option vs o d v = Ok vs' -> keys_declared e vs'.
Proof. unfold record_option. destruct (_ && _); [done|]. intros H Hn [= <-]. by apply push_declared. Qed.

Lemma long_declared e arg next st st' b : keys_declared e (values st) ->
  parse_long_option e arg next st = Ok (st', b) -> keys_declared e (values st').
Proof.
  unfold parse_long_option, find_long_option. destruct (split_once _ _) as [n inline].
  destruct (List.find _ _) as [o|] eqn:E; [|done]. cbn [result_bind]. destruct (long_option_value _ _ _ _) as [[v c]|]; [|done].
  cbn [result_bind]. destruct (record_option _ _ _ _) as [vs|] eqn:Er; [|done]. intros H [= <- <-]. cbn [values with_values].
  eapply record_declared; [done| |done]. by eapply find_declared.
Qed.

Lemma short_declared e chars next st st' b : keys_declared e (values st) ->
  parse_short_options e chars next st = Ok (st', b) -> keys_declared e (values st').
Proof.
  revert st. induction chars as [|c chars IH]; intros st H; cbn [parse_short_options]; [by intros [= <- <-]|].
  unfold find_short_option. destruct (List.find _ _) as [o|] eqn:E; [|done]. apply find_declared in E. cbn [result_bind].
  destruct (takes_value o).
  - destruct (match chars with [] => _ | _ => _ end) as [[v b']|]; [|done]. cbn [result_bind].
    destruct (record_option _ _ _ _) as [vs|] eqn:Er; [|done]. intros [= <- <-]. by eapply record_declared.
  - destruct chars as [|c' chars].
    + destruct (record_option _ _ _ _) as [vs|] eqn:Er; [|done]. intros [= <- <-]. by eapply record_declared.
    + apply IH. cbn [values with_values]. by apply push_declared.
Qed.

Lemma list_declared e pc : forall args st st' b, keys_declared e (values st) ->
  parse_argument_list e pc args st b = Ok st' -> keys_declared e (values st').
Proof.
  enough (forall n args st st' b, (length args <= n)%nat -> keys_declared e (values st) ->
    parse_argument_list e pc args st b = Ok st' -> keys_declared e (values st')) as H
    by (intros args st st' b; by apply (H (length args))).
  induction n as [|n IH]; intros [|arg rest] st st' b Hl Hk; cbn [length] in Hl; cbn [parse_argument_list];
    try (by intros [= <-]); [lia|].
  destruct (_ && text_eqb _ _); [apply IH; [lia|done]|].
  destruct (_ && _ && _).
  - destruct (if _ && _ then _ else _) as [[st1 c]|] eqn:E; [|done]. cbn [result_bind].
    assert (keys_declared e (values st1)) as Hk1.
    { destruct (_ && _); [by eapply long_declared|by eapply short_declared]. }
    destruct rest as [|r rest]; [by intros [= <-]|]. cbn [length] in Hl. destruct c; apply IH; cbn [length]; (lia || done).
  - set (k := parse_argument_list e pc rest _ b).
    assert (k = Ok st' -> keys_declared e (values st')) as Hpos by (subst k; apply IH; [lia|done]).
    destruct (subcommand st), (found st); try exact Hpos. destruct (List.find _ _) as [[m id]|]; [|exact Hpos].
    destruct (pc m id rest); [|done]. by intros [= <-].
Qed.

(** The parse of a subcommand. *)
Definition parse_child (fuel : nat) (ps : gmap Z ParserEntry) (n : text) (child_id : Z) (args : list text)
    : result MatchesEntry CliError :=
  match ps !! child_id with
  | Some child => parse_args file env_var apply_option_parser fuel ps child args
  | None => Err (About "CLI subcommand '{name}' is unavailable" n)
  end.

Lemma parse_args_ok fuel ps e args m : NoDup (option_names e) ->
  parse_args file env_var apply_option_parser (S fuel) ps e args = Ok m ->
  exists args' st,
    (if response_files e then expand_response_files file args = Ok args' else args' = args) /\
    parse_argument_list e (parse_child fuel ps) args' (mk_state ∅ [] None None) false = Ok st /\
    m_positionals m = found st /\ m_subcommand m = subcommand st /\ m_subcommand_matches m = subcommand_matches st /\
    (forall n, is_Some (m_values m !! n) -> n ∈ option_names e) /\
    (forall o, o ∈ options e ->
       match raw_values (values st) o with
       | None => m_values m !! name o = None /\ required o = false
       | Some raws => (exists out, m_values m !! name o = Some out /\ normalized o raws out) /\
           Forall (fun c => m_values m !! c = None) (conflicts o) /\
           Forall (fun r => is_Some (m_values m !! r)) (requires o)
       end) /\
    (forall i n, positionals e !! i = Some (n, true) -> (i < length (m_positionals m))%nat).
Proof.
  intros Hd. cbn [parse_args].
  destruct (if response_files e then expand_response_files file args else Ok args) as [args'|] eqn:Ea; [|done].
  cbn [result_bind]. fold (parse_child fuel ps).
  change (fun (n : text) (child_id : Z) (args0 : list text) => _) with (parse_child fuel ps).
  destruct (parse_argument_list e _ args' _ false) as [st|] eqn:Es; [|done]. cbn [result_bind].
  destruct (apply_option_defaults _ _ _) as [v1|] eqn:E1; [|done]. cbn [result_bind].
  destruct (normalize_options _ _ _) as [v2|] eqn:E2; [|done]. cbn [result_bind].
  destruct (validate_option_relationships _ _) eqn:E3; [|done]. cbn [result_bind].
  destruct (validate_positionals _ _) eqn:E4; [|done]. intros [= <-]. cbn [m_positionals m_values m_subcommand m_subcommand_matches].
  exists args', st. split; [destruct (response_files e); [done|by simplify_eq]|]. split; [done|].
  split; [done|]. split; [done|]. split; [done|].
  assert (keys_declared e (values st)) as Hk by (eapply list_declared; [|exact Es]; intros n [v Hv]; cbn [values] in Hv; by rewrite lookup_empty in Hv).
  destruct (defaults_spec _ _ _ Hd E1) as [D1 D2]. destruct (normalize_spec _ _ _ Hd E2) as [N1 N2]. split; [|split].
  - intros n Hn. destruct (decide (n ∈ option_names e)) as [|Hnn]; [done|]. apply Hk. by rewrite <- D1, <- N1.
  - intros o Ho. destruct (D2 o Ho) as [Hr Hreq]. specialize (N2 o Ho). rewrite <- Hr.
    destruct (v1 !! name o) as [raws|] eqn:Ev.
    + split; [done|]. eapply relationships_ok; [done..|]. destruct N2 as (out & -> & _). done.
    + split; [done|]. destruct (required o); [|done]. by destruct (Hreq eq_refl).
  - by eapply positionals_ok.
Qed.

(** ** Termination *)

Lemma consume_bytes_fuel p n b : consume_bytes p n b <> Err OutOfFuel.
Proof. unfold consume_bytes. by destruct (_ <? _). Qed.

Lemma consume_argument_fuel b : consume_argument b <> Err OutOfFuel.
Proof. unfold consume_argument. by destruct (_ =? _). Qed.

Lemma read_fuel p n b : read_response_file file p n b <> Err OutOfFuel.
Proof.
  unfold read_response_file. destruct (file p); [|done]. destruct (_ <? _); [done|]. destruct (_ <? _); [done|].
  destruct (consume_bytes _ _ _) eqn:E; [|intros [= ->]; by apply consume_bytes_fuel in E]. cbn [result_bind].
  by destruct (utf8_decode _).
Qed.

Lemma expand_fuel levels limit args b : expand_response_files_with_budget file levels limit args b <> Err OutOfFuel.
Proof.
  revert args b. induction levels as [|levels IH]; intros args b; [done|].
  cbn [expand_response_files_with_budget]. revert b. induction args as [|a args IHa]; intros b; [done|].
  destruct (starts "@@" a); [|destruct (_ || _)].
  - destruct (consume_argument b) eqn:E; [|intros [= ->]; by apply consume_argument_fuel in E]. cbn [result_bind].
    destruct (_ args _) as [[r b']|] eqn:Ea; [done|]. intros [= ->]. by apply IHa in Ea.
  - destruct (consume_argument b) eqn:E; [|intros [= ->]; by apply consume_argument_fuel in E]. cbn [result_bind].
    destruct (_ args _) as [[r b']|] eqn:Ea; [done|]. intros [= ->]. by apply IHa in Ea.
  - destruct (read_response_file _ _ _ _) as [[s b1]|] eqn:E; [|intros [= ->]; by apply read_fuel in E]. cbn [result_bind].
    destruct (tokenize_response_file s); [|done].
    destruct (expand_response_files_with_budget _ _ _ _ _) as [[s2 b2]|] eqn:E2; [|intros [= ->]; by apply IH in E2].
    cbn [result_bind]. destruct (_ args b2) as [[r b']|] eqn:Ea; [done|]. intros [= ->]. by apply IHa in Ea.
Qed.

Lemma record_fuel vs o d v : record_option vs o d v <> Err OutOfFuel.
Proof. unfold record_option. by destruct (_ && _). Qed.

Lemma long_fuel e arg next st : parse_long_option e arg next st <> Err OutOfFuel.
Proof.
  unfold parse_long_option, find_long_option. destruct (split_once _ _) as [n inline].
  destruct (List.find _ _) as [o|]; [|done]. cbn [result_bind]. unfold long_option_value, next_option_value.
  destruct (takes_value o), inline; try done; [|destruct next; [|done]|]; cbn [result_bind];
    destruct (record_option _ _ _ _) eqn:E; try done; intros [= ->]; by apply record_fuel in E.
Qed.

Lemma short_fuel e chars next st : parse_short_options e chars next st <> Err OutOfFuel.
Proof.
  revert st. induction chars as [|c chars IH]; intros st; [done|]. cbn [parse_short_options].
  unfold find_short_option. destruct (List.find _ _) as [o|]; [|done]. cbn [result_bind]. unfold next_option_value.
  destruct (takes_value o), chars as [|c' chars]; [destruct next; [|done]| | |apply IH]; cbn [result_bind];
    destruct (record_option _ _ _ _) eqn:E; try done; intros [= ->]; by apply record_fuel in E.
Qed.

Lemma list_fuel e pc : forall args st b, parse_argument_list e pc args st b = Err OutOfFuel ->
  exists n id args', (n, id) ∈ children e /\ pc n id args' = Err OutOfFuel.
Proof.
  enough (forall n args st b, (length args <= n)%nat -> parse_argument_list e pc args st b = Err OutOfFuel ->
    exists n id args', (n, id) ∈ children e /\ pc n id args' = Err OutOfFuel) as H
    by (intros args st b; by apply (H (length args))).
  induction n as [|n IH]; intros [|arg rest] st b Hl; cbn [length] in Hl; cbn [parse_argument_list]; try done; [lia|].
  destruct (_ && text_eqb _ _); [apply IH; lia|]. destruct (_ && _ && _).
  - destruct (if _ && _ then _ else _) as [[st1 c]|] eqn:E.
    2:{ intros [= ->]. destruct (_ && _); [by apply long_fuel in E|by apply short_fuel in E]. }
    cbn [result_bind]. destruct rest as [|r rest]; [done|]. cbn [length] in Hl. destruct c; apply IH; cbn [length]; lia.
  - set (k := parse_argument_list e pc rest _ b).
    assert (k = Err OutOfFuel -> exists n id args', (n, id) ∈ children e /\ pc n id args' = Err OutOfFuel) as Hpos
      by (subst k; apply IH; lia).
    destruct (subcommand st), (found st); try exact Hpos. destruct (List.find _ _) as [[m id]|] eqn:Ef; [|exact Hpos].
    apply List.find_some in Ef as [Ef _]. destruct (pc m id rest) eqn:Ep; [done|]. intros [= ->].
    exists m, id, rest. by rewrite list_elem_of_In.
Qed.

Lemma defaults_fuel os vs : apply_option_defaults env_var os vs <> Err OutOfFuel.
Proof.
  revert vs. induction os as [|o os IH]; intros vs; [done|]. cbn [apply_option_defaults].
  destruct (vs !! name o); [apply IH|]. destruct (match env o with Some n => _ | None => _ end); [apply IH|].
  destruct (default o); [apply IH|]. destruct (required o); [done|apply IH].
Qed.

Lemma normalize_fuel os vs : normalize_options apply_option_parser os vs <> Err OutOfFuel.
Proof.
  assert (forall o cb raws, normalize_values apply_option_parser o cb raws <> Err OutOfFuel) as Hv.
  { intros o cb raws. induction raws as [|r raws IH]; [done|]. cbn [normalize_values].
    destruct (apply_option_parser cb r); [|done]. destruct (normalize_values _ o cb raws) eqn:E; [done|]. intros [= ->]. by apply IH. }
  revert vs. induction os as [|o os IH]; intros vs; [done|]. cbn [normalize_options].
  destruct (normalize_option_values _ o vs) eqn:E; [apply IH|]. intros [= ->]. revert E. unfold normalize_option_values.
  destruct (parser o); [|done]. destruct (vs !! name o); [|done]. destruct (normalize_values _ _ _ _) eqn:En; [done|].
  intros [= ->]. by apply Hv in En.
Qed.

Lemma conflicts_fuel n cs vs : validate_conflicts n cs vs <> Err OutOfFuel.
Proof. induction cs as [|c cs IH]; [done|]. cbn [validate_conflicts]. by destruct (vs !! c). Qed.

Lemma requirements_fuel n rs vs : validate_requirements n rs vs <> Err OutOfFuel.
Proof. induction rs as [|r rs IH]; [done|]. cbn [validate_requirements]. by destruct (vs !! r). Qed.

Lemma relationships_fuel os vs : validate_option_relationships os vs <> Err OutOfFuel.
Proof.
  induction os as [|o os IH]; [done|]. cbn [validate_option_relationships]. destruct (vs !! name o); [|done].
  destruct (validate_conflicts _ _ _) eqn:E1; [|intros [= ->]; by apply conflicts_fuel in E1]. cbn [result_bind].
  destruct (validate_requirements _ _ _) eqn:E2; [done|]. intros [= ->]. by apply requirements_fuel in E2.
Qed.

Lemma positionals_fuel ds fs : validate_positionals ds fs <> Err OutOfFuel.
Proof.
  revert fs. induction ds as [|[n r] ds IH]; intros fs; [done|]. cbn [validate_positionals].
  destruct fs; [|apply IH]. destruct r; [done|apply IH].
Qed.

Lemma parse_args_fuel fuel ps e args : parse_args file env_var apply_option_parser (S fuel) ps e args = Err OutOfFuel ->
  exists n id child args', (n, id) ∈ children e /\ ps !! id = Some child /\
    parse_args file env_var apply_option_parser fuel ps child args' = Err OutOfFuel.
Proof.
  cbn [parse_args]. change (fun (n : text) (child_id : Z) (args0 : list text) => _) with (parse_child fuel ps).
  destruct (if response_files e then _ else _) as [args'|] eqn:Ea.
  2:{ intros [= ->]. destruct (response_files e); [|done]. unfold expand_response_files in Ea.
      destruct (expand_response_files_with_budget _ _ _ _ _) as [[]|] eqn:E; [done|].
      cbn [result_bind] in Ea. injection Ea as ->. by apply expand_fuel in E. }
  cbn [result_bind]. destruct (parse_argument_list _ _ _ _ _) as [st|] eqn:Es.
  2:{ intros [= ->]. apply list_fuel in Es as (n & id & args2 & Hin & E). unfold parse_child in E.
      destruct (ps !! id) as [child|] eqn:Ec; [|done]. by exists n, id, child, args2. }
  cbn [result_bind]. destruct (apply_option_defaults _ _ _) eqn:E1; [|intros [= ->]; by apply defaults_fuel in E1].
  cbn [result_bind]. destruct (normalize_options _ _ _) eqn:E2; [|intros [= ->]; by apply normalize_fuel in E2].
  cbn [result_bind]. destruct (validate_option_relationships _ _) eqn:E3; [|intros [= ->]; by apply relationships_fuel in E3].
  cbn [result_bind]. destruct (validate_positionals _ _) eqn:E4; [done|]. intros [= ->]. by apply positionals_fuel in E4.
Qed.

(** ** Stores that operations build *)

Inductive CliOp : Type :=
| New (allocated : bool)
| Copy (id : Z)
| Drop (id : Z)
| SetProgram (p : option Z) (v : option text)
| SetAbout (p : option Z) (v : option text)
| SetVersion (p : option Z) (v : option text)
| SetResponseFiles (p : option Z) (b : bool)
| AddOption (p : option Z) (n s : option text) (takes_value required : bool)
| SetParser (p : option Z) (n : option text) (c : option Z)
| SetEnv (p : option Z) (n v : option text)
| SetDefault (p : option Z) (n v : option text)
| SetMultiple (p : option Z) (n : option text) (b : bool)
| SetConflicts (p : option Z) (n v : option text)
| SetRequires (p : option Z) (n v : option text)
| SetAlias (p : option Z) (n v : option text)
| SetGroup (p : option Z) (n v : option text)
| AddPositional (p : option Z) (n : option text) (required : bool)
| AddSubcommand (p : option Z) (n about : option text) (allocated : bool).

Definition run (s : Store) (op : CliOp) : Store :=
  match op with
  | New allocated => (mux_cli_parser_new allocated s).2
  | Copy id => (copy_parser id s).2
  | Drop id => drop_parser id s
  | SetProgram p v => (mux_cli_parser_set_program p v s).2
  | SetAbout p v => (mux_cli_parser_set_about p v s).2
  | SetVersion p v => (mux_cli_parser_set_version p v s).2
  | SetResponseFiles p b => (mux_cli_parser_set_response_files p b s).2
  | AddOption p n c t r => (mux_cli_parser_add_option p n c t r s).2
  | SetParser p n c => (mux_cli_parser_set_option_parser p n c s).2
  | SetEnv p n v => (mux_cli_parser_set_option_env p n v s).2
  | SetDefault p n v => (mux_cli_parser_set_option_default p n v s).2
  | SetMultiple p n b => (mux_cli_parser_set_option_multiple p n b s).2
  | SetConflicts p n v => (mux_cli_parser_set_option_conflicts p n v s).2
  | SetRequires p n v => (mux_cli_parser_set_option_requires p n v s).2
  | SetAlias p n v => (mux_cli_parser_set_option_alias p n v s).2
  | SetGroup p n v => (mux_cli_parser_set_option_group p n v s).2
  | AddPositional p n r => (mux_cli_parser_add_positional p n r s).2
  | AddSubcommand p n a allocated => (mux_cli_parser_add_subcommand p n a allocated s).2
  end.

Definition initial : Store := mk_store ∅ 1.

(** Subcommands have larger ids than their parents, option names are distinct. *)
Record entry_ok (bound id : Z) (e : ParserEntry) : Prop := {
  entry_id : 0 < id < bound;
  entry_options : NoDup (option_names e);
  entry_children n c : (n, c) ∈ children e -> id < c < bound;
}.

Definition store_ok (s : Store) : Prop := forall id e, parsers s !! id = Some e -> entry_ok (next s) id e.

(** An update that keeps what [entry_ok] speaks of. *)
Definition keeps (f : ParserEntry -> result ParserEntry CliError) : Prop :=
  forall e e', f e = Ok e' -> NoDup (option_names e) -> NoDup (option_names e') /\ children e' = children e.

Lemma mutate_ok p f s : keeps f -> store_ok s ->
  store_ok (mutate_parser p f s).2 /\ next (mutate_parser p f s).2 = next s.
Proof.
  intros Hf Hs. unfold mutate_parser. destruct (handle "CliParser" p) as [id|]; [|done].
  destruct (parsers s !! id) as [e|] eqn:E; [|done]. destruct (f e) as [e'|] eqn:Ef; [|done]. cbn [snd next].
  split; [|done]. intros j x. cbn [parsers next]. rewrite lookup_insert_Some. intros [[<- <-]|[_ Hj]]; [|by apply Hs].
  destruct (Hs id e E) as [Hi Ho Hc]. destruct (Hf e e' Ef Ho) as [Ho' Hc']. split; [done|done|]. by rewrite Hc'.
Qed.

Lemma update_first_names n f os os' : (forall o, name (f o) = name o) ->
  update_first n f os = Some os' -> name <$> os' = name <$> os.
Proof.
  intros Hf. revert os'. induction os as [|o os IH]; intros os'; cbn [update_first]; [done|].
  destruct (text_eqb _ _); [intros [= <-]; rewrite !fmap_cons, Hf; done|].
  destruct (update_first n f os) as [r|]; [|done]. intros [= <-]. rewrite !fmap_cons. f_equal. by apply IH.
Qed.

Lemma update_option_keeps n f : (forall o, name (f o) = name o) -> keeps (update_option n f).
Proof.
  intros Hf e e'. unfold update_option. destruct (update_first n f (options e)) as [os|] eqn:E; [|done].
  intros [= <-] H. split; [|done]. unfold option_names. cbn [set_options options].
  by rewrite (update_first_names _ _ _ _ Hf E).
Qed.

Lemma add_option_keeps spec : keeps (add_option spec).
Proof.
  intros e e'. unfold add_option. destruct (existsb _ _) eqn:E; [done|]. intros [= <-] H. split; [|done].
  unfold option_names in *. cbn [set_options options]. rewrite fmap_app. cbn. apply NoDup_app. split_and!; [done| |by apply NoDup_singleton].
  intros m Hm ->%list_elem_of_singleton. apply list_elem_of_fmap in Hm as (o & Eo & Ho).
  assert (existsb (fun o => text_eqb (name o) (name spec) ||
    (option_Z_eqb (short o) (short spec) && bool_decide (is_Some (short spec)))) (options e) = true) as E'; [|congruence].
  apply existsb_exists. exists o. split; [by apply list_elem_of_In|]. by rewrite (proj2 (text_eqb_spec (name o) (name spec))).
Qed.

Lemma with_text_ok {A} label v s (k : text -> result A CliError * Store) (P : Store -> Prop) :
  P s -> (forall t, P (k t).2) -> P (with_text label v s k).2.
Proof. intros H Hk. destruct v; [apply Hk|exact H]. Qed.

Lemma guarded_keeps (b : ParserEntry -> bool) err f : keeps f -> keeps (fun e => if b e then Err err else f e).
Proof. intros H e e'. destruct (b e); [done|apply H]. Qed.

(** The operations on one parser. *)
Definition fine (s : Store) (s' : Store) : Prop := store_ok s' /\ next s' = next s.

Lemma fine_refl s : store_ok s -> fine s s.
Proof. done. Qed.

Lemma fine_mutate p f s : store_ok s -> keeps f -> fine s (mutate_parser p f s).2.
Proof. intros H Hf. by apply mutate_ok. Qed.

Lemma setter_keeps f : (forall e, option_names (f e) = option_names e /\ children (f e) = children e) -> keeps (fun e => Ok (f e)).
Proof. intros Hf e e' [= <-] H. destruct (Hf e) as [-> ->]. done. Qed.

Ltac fine := repeat (apply with_text_ok; [by apply fine_refl|intros ?]);
  repeat case_match; try (by apply fine_refl); apply fine_mutate; [done|];
  repeat first [apply add_option_keeps | apply update_option_keeps; done | apply setter_keeps; done | apply guarded_keeps].

Lemma setters_fine op s : store_ok s ->
  match op with New _ | Copy _ | Drop _ | AddSubcommand _ _ _ _ => True | _ => fine s (run s op) end.
Proof.
  intros Hs. destruct op; try done; cbn [run];
    unfold mux_cli_parser_set_program, mux_cli_parser_set_about, mux_cli_parser_set_version,
      mux_cli_parser_set_response_files, mux_cli_parser_add_option, mux_cli_parser_set_option_parser,
      mux_cli_parser_set_option_env, mux_cli_parser_set_option_default, mux_cli_parser_set_option_multiple,
      mux_cli_parser_set_option_conflicts, mux_cli_parser_set_option_requires, mux_cli_parser_set_option_alias,
      mux_cli_parser_set_option_group, mux_cli_parser_add_positional; fine.
Qed.

Lemma entry_mono b b' id e : entry_ok b id e -> b <= b' -> entry_ok b' id e.
Proof. intros [Hi Ho Hc] Hb. split; [lia|done|]. intros n c H. specialize (Hc n c H). lia. Qed.

Lemma fresh_entry b id n a k : 0 < id < b -> entry_ok b id (mk_parser n a None [] [] [] false k).
Proof. intros H. split; [done|constructor|]. intros m c Hc. by apply elem_of_nil in Hc. Qed.

Lemma renamed_entry b id k e : entry_ok b id e -> entry_ok b id (with_names k e).
Proof. intros [? ? ?]. by split. Qed.

Lemma release_ok b fuel : forall id ps, (forall i e, ps !! i = Some e -> entry_ok b i e) ->
  forall i e, release_parser_reference fuel id ps !! i = Some e -> entry_ok b i e.
Proof.
  induction fuel as [|fuel IH]; intros id ps Hs; cbn [release_parser_reference]; [done|].
  destruct (ps !! id) as [e|] eqn:E; [|done]. destruct (_ =? 0).
  - assert (forall i x, delete id ps !! i = Some x -> entry_ok b i x) as Hd
      by (intros i x [_ H]%lookup_delete_Some; by apply Hs).
    revert Hd. generalize (delete id ps). induction (children e) as [|[n c] cs IHc]; intros ps' Hd; cbn [foldl]; [done|].
    apply IHc. by apply IH.
  - intros i x [[<- <-]|[_ H]]%lookup_insert_Some; [|by apply Hs]. apply renamed_entry. by apply Hs.
Qed.

Lemma subcommand_ok p n a allocated s : store_ok s -> 0 < next s < i64_max ->
  store_ok (mux_cli_parser_add_subcommand p n a allocated s).2 /\
  next s <= next (mux_cli_parser_add_subcommand p n a allocated s).2 <= next s + 1.
Proof.
  intros Hs Hn. unfold mux_cli_parser_add_subcommand.
  destruct (handle "CliParser" p) as [parent_id|]; [|by split; [|cbn; lia]].
  destruct n as [n|]; [|by split; [|cbn; lia]]. destruct a as [a|]; [|by split; [|cbn; lia]]. cbn [with_text].
  destruct (negb (is_name n)); [by split; [|cbn; lia]|]. unfold next_id.
  rewrite (proj2 (Z.eqb_neq (next s) i64_max)) by lia. cbn [parsers next].
  assert (forall i e, parsers s !! i = Some e -> entry_ok (next s + 1) i e) as Hs'
    by (intros i e H; eapply entry_mono; [by apply Hs|lia]).
  destruct (parsers s !! parent_id) as [parent|] eqn:Ep; [|split; [exact Hs'|cbn; lia]].
  destruct (existsb _ _); [split; [exact Hs'|cbn; lia]|].
  set (ps := <[next s := _]> _).
  assert (forall i e, ps !! i = Some e -> entry_ok (next s + 1) i e) as Hps.
  { intros i e. subst ps. intros [[<- <-]|[_ [[<- <-]|[_ H]]%lookup_insert_Some]]%lookup_insert_Some; [| |by apply Hs'].
    - apply fresh_entry. lia.
    - destruct (Hs parent_id parent Ep) as [Hi Ho Hc]. split; [lia|done|]. cbn [set_children children].
      intros m c [H|[= -> ->]%list_elem_of_singleton]%elem_of_app; [specialize (Hc m c H)|]; lia. }
  destruct allocated; (split; [|cbn; lia]); [done|]. intros i e. cbn [parsers next snd].
  intros [_ H]%lookup_delete_Some. destruct (ps !! parent_id) as [q|] eqn:Eq; [|by apply Hps].
  apply lookup_insert_Some in H as [[<- <-]|[_ H]]; [|by apply Hps].
  destruct (Hps _ _ Eq) as [Hi Ho Hc]. split; [done|done|]. cbn [set_children children]. intros m c Hin.
  apply (Hc m). apply list_elem_of_In in Hin. apply filter_In in Hin as [Hin _]. by apply list_elem_of_In.
Qed.

Lemma run_ok op s : store_ok s -> 0 < next s < i64_max ->
  store_ok (run s op) /\ next s <= next (run s op) <= next s + 1.
Proof.
  intros Hs Hn. pose proof (setters_fine op s Hs) as Hf.
  destruct op; cbv beta iota in Hf;
    lazymatch type of Hf with True => cbn [run] | _ => destruct Hf as [? ->]; split; [done|lia] end.
  - unfold mux_cli_parser_new, parser_value, next_id. rewrite (proj2 (Z.eqb_neq (next s) i64_max)) by lia. cbn [parsers next].
    destruct allocated; (split; [|cbn; lia]); intros i e; cbn [parsers next snd].
    + intros [[<- <-]|[_ H]]%lookup_insert_Some; [by apply fresh_entry; lia|]. eapply entry_mono; [by apply Hs|lia].
    + intros [_ [[<- <-]|[_ H]]%lookup_insert_Some]%lookup_delete_Some; [by apply fresh_entry; lia|].
      eapply entry_mono; [by apply Hs|lia].
  - unfold copy_parser. destruct (parsers s !! id) as [e|] eqn:E; (split; [|cbn; lia]); [|done]. intros i x. cbn [parsers next snd].
    intros [[<- <-]|[_ H]]%lookup_insert_Some; [|by apply Hs]. apply renamed_entry. by apply Hs.
  - split; [|cbn; lia]. intros i x. cbn [drop_parser parsers next]. apply release_ok. apply Hs.
  - by apply subcommand_ok.
Qed.

Lemma runs_ok ops s : store_ok s -> 0 < next s -> next s + Z.of_nat (length ops) <= i64_max ->
  store_ok (foldl run s ops) /\ 0 < next (foldl run s ops).
Proof.
  revert s. induction ops as [|op ops IH]; intros s Hs Hn Hl; [done|]. cbn [foldl length] in *.
  destruct (run_ok op s Hs) as [Hs' Hn']; [lia|]. apply IH; [done|lia|lia].
Qed.

Lemma initial_ok : store_ok initial.
Proof. intros id e H. cbn [initial parsers] in H. by rewrite lookup_empty in H. Qed.

Lemma parse_levels ps b fuel : (forall i e, ps !! i = Some e -> entry_ok b i e) -> forall id e args,
  ps !! id = Some e -> b - id <= Z.of_nat fuel -> parse_args file env_var apply_option_parser fuel ps e args <> Err OutOfFuel.
Proof.
  intros Hs. induction fuel as [|fuel IH]; intros id e args He Hf Hp.
  - destruct (Hs id e He) as [Hi _ _]. lia.
  - apply parse_args_fuel in Hp as (n & c & child & args' & Hin & Hc & Hp).
    destruct (Hs id e He) as [_ _ Hch]. specialize (Hch n c Hin). eapply IH; [exact Hc| |exact Hp]. lia.
Qed.

Lemma parse_unfold p args s m : mux_cli_parser_parse file env_var apply_option_parser p args s = m ->
  (exists e, m = Err e /\ e <> OutOfFuel) \/
  exists id e args', p = Some id /\ args = Some args' /\ parsers s !! id = Some e /\
    parse_args file env_var apply_option_parser (S (Z.to_nat (next s - id))) (parsers s) e args' = m.
Proof.
  intros <-. unfold mux_cli_parser_parse, handle. destruct p as [id|]; [|left; by eexists].
  destruct (0 <? id); [|left; by eexists]. destruct args as [args|]; [|left; by eexists]. cbn [result_bind].
  destruct (parsers s !! id) as [e|] eqn:E; [|left; by eexists]. right. by exists id, e, args.
Qed.

(** Parsing returns.  In any store that operations on parsers build, whatever
    options, subcommands and response files are declared and whatever the files hold,
    parsing a command line gives matches or an error of the program's own: the descent
    into subcommands ends, since a subcommand is always younger than its parser, and so
    does the expansion of response files that name each other. *)
Lemma cli_parse_returns (ops : list CliOp) (p : option Z) (args : option (list text)) :
  Z.of_nat (length ops) < i64_max ->
  mux_cli_parser_parse file env_var apply_option_parser p args (foldl run initial ops) <> Err OutOfFuel.
Proof.
  intros Hl Hp. destruct (runs_ok ops initial initial_ok) as [Hs Hn]; [done|cbn [initial next]; lia|].
  apply parse_unfold in Hp as [(e & [= <-] & He)|(id & e & args' & -> & -> & He & Hp)]; [done|].
  eapply parse_levels in Hp; [done|exact Hs|exact He|].
  destruct (Hs id e He) as [Hi _ _]. lia.
Qed.

(** C8: A successful parse respects the declarations.  In any store that operations
    build, when parsing gives matches, there are expanded arguments and what they say
    on the command line such that: only declared options have values; an option has
    the values given on the command line or, when there are none, the value of its
    environment variable or, when that is unset, its default, each passed through its
    callback; a required option has one; an option that is present conflicts with no
    other that is present and everything it requires is present; and every required
    positional is there. *)
Theorem cli_matches_declared (ops : list CliOp) (p : option Z) (args : option (list text)) (m : MatchesEntry) :
  Z.of_nat (length ops) < i64_max ->
  let s := foldl run initial ops in
  mux_cli_parser_parse file env_var apply_option_parser p args s = Ok m ->
  exists id e args0 args' st,
    p = Some id /\ parsers s !! id = Some e /\ args = Some args0 /\
    (if response_files e then expand_response_files file args0 = Ok args' else args' = args0) /\
    parse_argument_list e (parse_child (Z.to_nat (next s - id)) (parsers s)) args' (mk_state ∅ [] None None) false = Ok st /\
    m_positionals m = found st /\ m_subcommand m = subcommand st /\ m_subcommand_matches m = subcommand_matches st /\
    (forall n, is_Some (m_values m !! n) -> n ∈ option_names e) /\
    (forall o, o ∈ options e ->
       match raw_values (values st) o with
       | None => m_values m !! name o = None /\ required o = false
       | Some raws => (exists out, m_values m !! name o = Some out /\ normalized o raws out) /\
           Forall (fun c => m_values m !! c = None) (conflicts o) /\
           Forall (fun r => is_Some (m_values m !! r)) (requires o)
       end) /\
    (forall i n, positionals e !! i = Some (n, true) -> (i < length (m_positionals m))%nat).
Proof.
  intros Hl. cbv zeta. intros Hp. destruct (runs_ok ops initial initial_ok) as [Hs Hn]; [done|cbn [initial next]; lia|].
  apply parse_unfold in Hp as [(e & ? & ?)|(id & e & args0 & -> & -> & He & Hp)]; [done|].
  destruct (Hs id e He) as [_ Ho _]. apply parse_args_ok in Hp as (args' & st & Hp); [|done].
  by exists id, e, args0, args', st.
Qed.

End Sound.

(** ** Witnesses *)

Definition sample_ops : list CliOp :=
  [New true; AddOption (Some 1) (Some (txt "level")) (Some (txt "l")) true true;
   SetEnv (Some 1) (Some (txt "level")) (Some (txt "LEVEL"));
   SetDefault (Some 1) (Some (txt "level")) (Some (txt "9"));
   AddOption (Some 1) (Some (txt "quiet")) (Some []) false false;
   SetConflicts (Some 1) (Some (txt "quiet")) (Some (txt "verbose"));
   AddSubcommand (Some 1) (Some (txt "run")) (Some []) true;
   AddPositional (Some 2) (Some (txt "what")) true].

Definition sample_env (n : text) : option text := if text_eqb n (txt "LEVEL") then Some (txt "5") else None.

Lemma cli_matches_declared_witness :
  exists m, mux_cli_parser_parse (fun _ => None) sample_env (fun _ => Ok) (Some 1) (Some [txt "--quiet"; txt "run"; txt "x"])
    (foldl run initial sample_ops) = Ok m /\
  forall n, is_Some (m_values m !! n) -> n = txt "level" \/ n = txt "quiet".
Proof.
  eexists. split; [vm_compute; reflexivity|]. intros n Hn.
  destruct (cli_matches_declared (fun _ => None) sample_env (fun _ => Ok) sample_ops (Some 1)
    (Some [txt "--quiet"; txt "run"; txt "x"])) with
    (m := match mux_cli_parser_parse (fun _ => None) sample_env (fun _ => Ok) (Some 1) (Some [txt "--quiet"; txt "run"; txt "x"])
            (foldl run initial sample_ops) with Ok m => m | Err _ => mk_matches ∅ [] [] None None end)
    as (id & e & args0 & args' & st & [= <-] & He & _ & _ & _ & _ & _ & _ & Hd & _);
    [vm_compute; reflexivity|vm_compute; reflexivity|].
  vm_compute in He. injection He as <-. specialize (Hd n Hn). revert Hd. vm_compute option_names.
  rewrite !elem_of_cons. intros [->|[->|H]]; [by left|by right|by apply elem_of_nil in H].
Defined.

(** ** Findings *)

(** A parser that was created and copied is closed by the drop of either handle:
    [ParserEntry::default] starts the count of handles at 0, not 1, so the copy brings
    it to 1 and the first drop removes the parser that the other handle still names. *)
Lemma cli_copied_parser_closes (s : Store) : 0 < next s ->
  exists id s1, mux_cli_parser_new true s = (Some id, s1) /\
    is_Some (parsers s1 !! id) /\ (copy_parser id s1).1 = id /\
    parsers (drop_parser id (copy_parser id s1).2) !! id = None.
Proof.
  intros Hn. exists (next s). eexists. split; [done|]. cbn [parsers]. rewrite lookup_insert_eq. split; [done|].
  unfold copy_parser. cbn [parsers]. rewrite lookup_insert_eq. split; [done|].
  cbn [snd drop_parser parsers next]. unfold drop_parser. cbn [parsers next release_parser_reference].
  rewrite lookup_insert_eq. cbn [with_names default_entry names children foldl].
  change (Z.max 0 (Z.min usize_max (0 + 1) - 1) =? 0) with true. cbn iota. apply lookup_delete_eq.
Qed.

(** The check for repeated options does not see flags in a group: with the flags
    [v] and [x] declared once each, [-v -v] is rejected, and [-v -vx] is accepted with
    two values for [v]. *)
Lemma cli_grouped_flag_repeats :
  let e := set_options [sample_option "verbose" 118 false false; sample_option "extra" 120 false false] default_entry in
  let parse args := parse_argument_list e (fun _ _ _ => Err OutOfFuel) args (mk_state ∅ [] None None) false in
  parse [txt "-v"; txt "-v"] = Err (About "option '{display_name}' was provided more than once" (txt "-v")) /\
  exists st, parse [txt "-v"; txt "-vx"] = Ok st /\ values st !! txt "verbose" = Some [txt "true"; txt "true"].
Proof. cbv zeta. split; [vm_compute; reflexivity|]. eexists. split; vm_compute; reflexivity. Qed.

(** ** Response files *)

Definition quoted_char (c : Z) : text := if (c =? backslash) || (c =? 34) then [backslash; c] else [c].

(** An argument in double quotes, one per line. *)
Definition quote (t : text) : text := 34 :: flat_map quoted_char t ++ [34].

(** A leading at sign is doubled, so that it does not name a file. *)
Definition protect (t : text) : text := if starts "@" t then 64 :: t else t.

Definition response_text (args : list text) : text := flat_map (fun a => quote (protect a) ++ [10]) args.

Lemma tokenize_quoted t tokens current rest :
  tokenize (flat_map quoted_char t ++ 34 :: rest) tokens current (Some 34) false false =
  tokenize rest tokens (current ++ t) None false false.
Proof.
  revert current. induction t as [|c t IH]; intros current; cbn [flat_map].
  - cbn [app]. rewrite app_nil_r. done.
  - rewrite <- app_assoc. unfold quoted_char at 1. destruct ((c =? backslash) || (c =? 34)) eqn:E; cbn [app].
    + assert (escapes (c :: flat_map quoted_char t ++ 34 :: rest) = true) as He.
      { cbn [escapes]. apply orb_true_iff in E as [-> | ->]; by rewrite ?orb_true_r. }
      cbn [tokenize]. rewrite He. change (backslash =? backslash) with true. cbn [andb].
      rewrite IH, <- app_assoc. done.
    + apply orb_false_iff in E as [E1 E2]. cbn [tokenize]. rewrite E1, E2. cbn [andb]. rewrite IH, <- app_assoc. done.
Qed.

Lemma tokenize_response args tokens : Forall (fun a => a <> []) args ->
  tokenize (response_text args) tokens [] None false false = Ok (tokens ++ (protect <$> args)).
Proof.
  intros H. revert tokens. induction H as [|a args Ha _ IH]; intros tokens; cbn [response_text flat_map].
  - cbn. by rewrite app_nil_r.
  - rewrite <- app_assoc. unfold quote. cbn [app]. rewrite <- app_assoc. cbn [app tokenize].
    change (34 =? backslash) with false. cbn [andb]. change ((34 =? 39) || (34 =? 34)) with true. cbn iota.
    rewrite tokenize_quoted. cbn [app tokenize]. change (10 =? backslash) with false. cbn [andb].
    change ((10 =? 39) || (10 =? 34)) with false. change (10 =? 35) with false. change (is_whitespace 10) with true. cbn [andb].
    assert ((nlen (protect a) =? 0) = false) as ->.
    { apply Z.eqb_neq. unfold nlen, protect. destruct a; [done|]. destruct (starts _ _); cbn [length]; lia. }
    rewrite IH, fmap_cons, <- app_assoc. done.
Qed.

Lemma protect_twice a : starts "@@" (protect a) = starts "@" a /\
  (starts "@" a = false -> protect a = a) /\ (starts "@" a = true -> drop 1 (protect a) = a).
Proof.
  unfold protect. destruct (starts "@" a) eqn:E; split_and!; try done.
  unfold starts in *. destruct a as [|c a]; [done|].
  change (is_prefix (txt "@") (c :: a)) with ((64 =? c) && true) in E. rewrite andb_true_r in E.
  change (is_prefix (txt "@@") (c :: a)) with ((64 =? c) && is_prefix [64] a). by rewrite E.
Qed.

Lemma expand_protected file levels limit args b :
  Z.of_nat (length args) <= remaining_arguments b ->
  expand_response_files_with_budget file (S levels) limit (protect <$> args) b =
  Ok (args, mk_budget (remaining_bytes b) (remaining_arguments b - Z.of_nat (length args)) (argument_limit b)).
Proof.
  revert b. induction args as [|a args IH]; intros b Hb.
  - cbn. rewrite Z.sub_0_r. by destruct b.
  - rewrite fmap_cons. cbn [length] in Hb.
    assert (consume_argument b = Ok (mk_budget (remaining_bytes b) (remaining_arguments b - 1) (argument_limit b))) as Hc.
    { unfold consume_argument. by rewrite (proj2 (Z.eqb_neq _ 0)) by lia. }
    specialize (IH (mk_budget (remaining_bytes b) (remaining_arguments b - 1) (argument_limit b))).
    cbn [remaining_arguments remaining_bytes argument_limit] in IH. specialize (IH ltac:(lia)).
    cbn [expand_response_files_with_budget] in IH |- *. destruct (protect_twice a) as (-> & Hf & Ht).
    destruct (starts "@" a) eqn:E.
    + rewrite Hc. cbn [result_bind]. rewrite IH. cbn [result_bind length]. rewrite (Ht eq_refl). do 3 f_equal. lia.
    + rewrite (Hf eq_refl), E. cbn [negb orb]. rewrite Hc. cbn [result_bind]. rewrite IH. cbn [result_bind length].
      do 3 f_equal. lia.
Qed.

(** A response file gives back the arguments written to it.  For any non-empty
    arguments (any Unicode text: spaces, quotes, backslashes, hash marks, line ends,
    leading at signs) within the limits, expanding an argument that names a file with
    the arguments quoted one per line gives exactly these arguments. *)
Lemma response_file_roundtrip (file : text -> option (list Z)) (path : text) (args : list text) :
  path <> [] -> starts "@" path = false -> Forall (fun a => a <> [] /\ Forall scalar a) args ->
  file path = Some (utf8 (response_text args)) ->
  nlen (utf8 (response_text args)) <= MAX_RESPONSE_FILE_BYTES -> nlen args <= MAX_RESPONSE_ARGUMENTS ->
  expand_response_files file [64 :: path] = Ok args.
Proof.
  intros Hp Hat Hargs Hfile Hbytes Hcount. unfold expand_response_files.
  assert (Forall scalar (response_text args)) as Hsc.
  { clear - Hargs. induction Hargs as [|a args [_ Ha] _ IH]; [constructor|]. cbn [response_text flat_map].
    apply Forall_app. split; [|done]. apply Forall_app. split; [|by repeat constructor]. unfold quote.
    constructor; [done|]. apply Forall_app. split; [|by repeat constructor].
    assert (Forall scalar (protect a)) as Hpa by (unfold protect; destruct (starts _ _); [by constructor|done]).
    clear - Hpa. induction Hpa as [|c t Hc _ IH]; [constructor|]. cbn [flat_map]. apply Forall_app. split; [|done].
    unfold quoted_char. destruct (_ || _); repeat constructor; done. }
  change (expand_response_files_with_budget file (S MAX_RESPONSE_DEPTH) MAX_RESPONSE_FILE_BYTES [64 :: path]) with
    (fun b => if starts "@@" (64 :: path) then
        let? b := consume_argument b in let? (rest, b) := Ok ([], b) in Ok (drop 1 (64 :: path) :: rest, b)
      else if negb (starts "@" (64 :: path)) || (nlen (drop 1 (64 :: path)) =? 0) then
        let? b := consume_argument b in let? (rest, b) := Ok ([], b) in Ok ((64 :: path) :: rest, b)
      else
        let? (source, b) := read_response_file file path MAX_RESPONSE_FILE_BYTES b in
        match tokenize_response_file source with
        | Err e => Err (About ("invalid response file '{path}': " +:+ e) path)
        | Ok nested =>
            let? (nested, b) := expand_response_files_with_budget file MAX_RESPONSE_DEPTH MAX_RESPONSE_FILE_BYTES nested b in
            let? (rest, b) := Ok ([], b) in Ok (nested ++ rest, b)
        end).
  cbv beta.
  assert (starts "@@" (64 :: path) = false) as -> by (revert Hat; unfold starts; by destruct path).
  assert (negb (starts "@" (64 :: path)) || (nlen (drop 1 (64 :: path)) =? 0) = false) as -> by (by destruct path).
  unfold read_response_file. rewrite Hfile. cbn [new_budget remaining_bytes]. rewrite Z.min_id.
  change (usize_max <? MAX_RESPONSE_FILE_BYTES + 1) with false. cbn iota.
  rewrite take_ge by (unfold nlen in Hbytes; lia). pose proof (proj2 (Z.ltb_ge _ _) Hbytes) as Hlt. rewrite Hlt.
  unfold consume_bytes. cbn [new_budget remaining_bytes]. rewrite Hlt. cbn [result_bind].
  rewrite utf8_decode_utf8 by done. cbn [result_bind]. unfold tokenize_response_file. rewrite tokenize_response.
  2:{ eapply Forall_impl; [exact Hargs|]. by intros a []. }
  cbn [app]. unfold MAX_RESPONSE_DEPTH. rewrite expand_protected by done. cbn [result_bind]. by rewrite app_nil_r.
Qed.

Definition sample_args : list text := [txt "a b"; txt "@c"; [34; 92; 35; 10; 233]].
