(* ===== verification/Json.v ===== *)
(** * JSON documents ([src/src/json.rs])

    Pointers (RFC 6901), patches (RFC 6902), merge patches (RFC 7396), rendering, and
    the scanners that bound and account for the tokens of an input.  Documents are
    modelled as the [Json] tree that a runtime value converts to; objects keep their
    entries in insertion order with the operations of the ordered map.  A number that
    is kept as its exact spelling is an object of its own, so it carries an identity.
    Parsing, the quoting of strings and the spelling of floats are [serde_json]. *)

From S2P Require Import Prelude AssocList Value Str Utf8 Http Cli HttpProps CliProps.

Inductive Json : Type :=
| JNull
| JBool (b : bool)
| JInt (i : Z)
| JFloat (bits : Z)
| JNumber (id : Z) (raw : text)
| JString (s : text)
| JArray (items : list Json)
| JObject (entries : list (text * Json)).

Definition object_get (k : text) (m : list (text * Json)) : option Json := al_get text_eqb k m.
Definition object_insert (k : text) (v : Json) (m : list (text * Json)) : list (text * Json) := al_insert text_eqb k v m.
Definition object_remove (k : text) (m : list (text * Json)) : list (text * Json) := al_remove text_eqb k m.

Definition MAX_JSON_INPUT_BYTES : Z := 16 * 1024 * 1024.
Definition MAX_JSON_TOKENS : Z := 1000000.

(** ** Pointers *)

(** The loop over the characters of a token. *)
Fixpoint unescape_token (raw : text) : result text string :=
  match raw with
  | [] => Ok []
  | ch :: rest =>
      if negb (ch =? 126) then let? token := unescape_token rest in Ok (ch :: token)
      else
        match rest with
        | c :: rest =>
            if c =? 48 then let? token := unescape_token rest in Ok (126 :: token)
            else if c =? 49 then let? token := unescape_token rest in Ok (47 :: token)
            else Err "json pointer contains an invalid '~' escape"
        | [] => Err "json pointer contains an invalid '~' escape"
        end
  end.

(** The loop over the tokens, [count] of them decoded. *)
Fixpoint decode_tokens (raws : list text) (count : Z) : result (list text) string :=
  match raws with
  | [] => Ok []
  | raw :: raws =>
      if MAX_JSON_TOKENS <=? count then Err "JSON Pointer exceeds the one-million-token limit"
      else
        let? token := unescape_token raw in
        let? tokens := decode_tokens raws (count + 1) in
        Ok (token :: tokens)
  end.

Definition decode_pointer_text (s : text) : result (list text) string :=
  if MAX_JSON_INPUT_BYTES <? byte_len s then Err "JSON Pointer exceeds the 16 MiB input limit"
  else
    match s with
    | [] => Ok []
    | c :: rest =>
        if negb (c =? 47) then Err "json pointer must be empty or start with '/'"
        else decode_tokens (split_text rest [47]) 0
    end.

Definition canonical_index (token : text) : bool := negb ((nlen token =? 0) || ((1 <? nlen token) && starts "0" token)).

(** [Ok None] is the position after the last element. *)
Definition pointer_index (token : text) (length : nat) (allow_append : bool) : result (option nat) string :=
  if allow_append && text_eqb token (txt "-") then Ok None
  else if negb (canonical_index token) then Err "json pointer array index is not canonical"
  else
    match parse_usize 10 token with
    | None => Err "json pointer array index is invalid"
    | Some index =>
        if Z.of_nat length <=? index then Err "json pointer array index is out of bounds"
        else Ok (Some (Z.to_nat index))
    end.

Definition non_container : string := "json pointer traverses a non-container value".
Definition missing_field : string := "json pointer object field is missing".

Fixpoint pointer_get (value : Json) (tokens : list text) : result Json string :=
  match tokens with
  | [] => Ok value
  | token :: rest =>
      match value with
      | JObject entries =>
          match object_get token entries with
          | Some child => pointer_get child rest
          | None => Err missing_field
          end
      | JArray items =>
          let? index := pointer_index token (length items) false in
          match index with
          | None => Err "JSON Pointer append is not valid for reads"
          | Some index =>
              match items !! index with
              | Some item => pointer_get item rest
              | None => Err "json pointer array index is out of bounds"
              end
          end
      | _ => Err non_container
      end
  end.

Fixpoint pointer_set (value : Json) (tokens : list text) (replacement : Json) : result Json string :=
  match tokens with
  | [] => Ok replacement
  | token :: rest =>
      match value with
      | JObject entries =>
          match rest with
          | [] => Ok (JObject (object_insert token replacement entries))
          | _ =>
              match object_get token entries with
              | Some child =>
                  let? child := pointer_set child rest replacement in
                  Ok (JObject (object_insert token child entries))
              | None => Err missing_field
              end
          end
      | JArray items =>
          let? index := pointer_index token (length items) (match rest with [] => true | _ => false end) in
          match index with
          | None => Ok (JArray (items ++ [replacement]))
          | Some index =>
              match items !! index with
              | Some item =>
                  let? item := pointer_set item rest replacement in
                  Ok (JArray (<[index := item]> items))
              | None => Err "json pointer array index is out of bounds"
              end
          end
      | _ => Err non_container
      end
  end.

(** [Vec::insert]. *)
Definition list_insert_at (index : nat) (v : Json) (items : list Json) : list Json :=
  take index items ++ v :: drop index items.

Definition patch_missing : string := "json patch object field is missing".
Definition patch_non_container : string := "json patch path traverses a non-container value".

Fixpoint pointer_add (value : Json) (tokens : list text) (addition : Json) : result Json string :=
  match tokens with
  | [] => Ok addition
  | [token] =>
      match value with
      | JObject entries => Ok (JObject (object_insert token addition entries))
      | JArray items =>
          if text_eqb token (txt "-") then Ok (JArray (items ++ [addition]))
          else
            match parse_usize 10 token with
            | None => Err "json patch array index is invalid"
            | Some index =>
                if negb (canonical_index token) then Err "json patch array index is not canonical"
                else if nlen items <? index then Err "json patch array index is out of bounds"
                else Ok (JArray (list_insert_at (Z.to_nat index) addition items))
            end
      | _ => Err patch_non_container
      end
  | token :: rest =>
      match value with
      | JObject entries =>
          match object_get token entries with
          | Some child =>
              let? child := pointer_add child rest addition in
              Ok (JObject (object_insert token child entries))
          | None => Err patch_missing
          end
      | JArray items =>
          let? index := pointer_index token (length items) false in
          match index with
          | None => Err "JSON Patch append is not valid for nested paths"
          | Some index =>
              match items !! index with
              | Some item =>
                  let? item := pointer_add item rest addition in
                  Ok (JArray (<[index := item]> items))
              | None => Err "json pointer array index is out of bounds"
              end
          end
      | _ => Err patch_non_container
      end
  end.

(** The removed value, and what is left. *)
Fixpoint pointer_remove (value : Json) (tokens : list text) : result (Json * Json) string :=
  match tokens with
  | [] => Err "removing the JSON document root is not supported"
  | token :: rest =>
      match value with
      | JObject entries =>
          match object_get token entries with
          | None => Err missing_field
          | Some child =>
              match rest with
              | [] => Ok (child, JObject (object_remove token entries))
              | _ =>
                  let? (removed, child) := pointer_remove child rest in
                  Ok (removed, JObject (object_insert token child entries))
              end
          end
      | JArray items =>
          let? index := pointer_index token (length items) false in
          match index with
          | None => Err "JSON Pointer append is not valid for removals"
          | Some index =>
              match items !! index with
              | None => Err "json pointer array index is out of bounds"
              | Some item =>
                  match rest with
                  | [] => Ok (item, JArray (delete index items))
                  | _ =>
                      let? (removed, item) := pointer_remove item rest in
                      Ok (removed, JArray (<[index := item]> items))
                  end
              end
          end
      | _ => Err non_container
      end
  end.

(** ** Patches *)

Section Patch.
(** The equality of floats ([OrderedFloat]). *)
Context (float_eqb : Z -> Z -> bool).

(** [PartialEq for Value] on documents: objects ignore the order of their entries,
    exact numbers are compared by identity. *)
Fixpoint json_eqb (a b : Json) : bool :=
  match a, b with
  | JNull, JNull => true
  | JBool x, JBool y => Bool.eqb x y
  | JInt x, JInt y => x =? y
  | JFloat x, JFloat y => float_eqb x y
  | JNumber x _, JNumber y _ => x =? y
  | JString x, JString y => text_eqb x y
  | JArray x, JArray y => list_eqb json_eqb x y
  | JObject x, JObject y =>
      (length x =? length y)%nat &&
      forallb (fun '(k, v) => match object_get k y with Some w => json_eqb v w | None => false end) x
  | _, _ => false
  end.

Definition is_prefix_of (a b : list text) : bool := bool_decide (take (length a) b = a).

Definition field (fields : list (text * Json)) (n : string) : result Json string :=
  match object_get (txt n) fields with
  | Some v => Ok v
  | None => Err ("JSON Patch operation is missing '" +:+ n +:+ "'")
  end.

Definition string_field (fields : list (text * Json)) (n : string) : result text string :=
  let? v := field fields n in
  match v with JString s => Ok s | _ => Err ("JSON Patch '" +:+ n +:+ "' must be a string") end.

Definition apply_json_patch_operation (document operation : Json) : result Json string :=
  match operation with
  | JObject fields =>
      let? op := string_field fields "op" in
      let? path := string_field fields "path" in
      let? tokens := decode_pointer_text path in
      if text_eqb op (txt "add") then
        let? v := field fields "value" in pointer_add document tokens v
      else if text_eqb op (txt "remove") then
        let? (_, document) := pointer_remove document tokens in Ok document
      else if text_eqb op (txt "replace") then
        let? _ := pointer_get document tokens in
        let? v := field fields "value" in pointer_set document tokens v
      else if text_eqb op (txt "copy") then
        let? from := string_field fields "from" in
        let? from_tokens := decode_pointer_text from in
        let? source := pointer_get document from_tokens in
        pointer_add document tokens source
      else if text_eqb op (txt "move") then
        let? from := string_field fields "from" in
        let? from_tokens := decode_pointer_text from in
        if (length from_tokens <? length tokens)%nat && is_prefix_of from_tokens tokens then
          Err "JSON Patch cannot move a value into its own child"
        else
          let? source := pointer_get document from_tokens in
          let? (_, document) := pointer_remove document from_tokens in
          pointer_add document tokens source
      else if text_eqb op (txt "test") then
        let? found := pointer_get document tokens in
        let? v := field fields "value" in
        if negb (json_eqb found v) then Err "JSON Patch test operation failed" else Ok document
      else Err "unsupported JSON Patch operation"
  | _ => Err "each JSON Patch operation must be an object"
  end.

Fixpoint apply_operations (candidate : Json) (operations : list Json) : result Json string :=
  match operations with
  | [] => Ok candidate
  | operation :: operations =>
      let? candidate := apply_json_patch_operation candidate operation in
      apply_operations candidate operations
  end.

(** [mux_json_apply_patch]: what it answers, and the document afterwards. *)
Definition mux_json_apply_patch (document patch : Json) : result unit string * Json :=
  match patch with
  | JArray operations =>
      match apply_operations document operations with
      | Ok candidate => (Ok tt, candidate)
      | Err e => (Err e, document)
      end
  | _ => (Err "json patch must be a list of operations", document)
  end.

End Patch.

Definition is_null (v : Json) : bool := match v with JNull => true | _ => false end.

(** [apply_merge_patch]. *)
Fixpoint apply_merge_patch (target patch : Json) : Json :=
  match patch with
  | JObject patch_entries =>
      let entries := match target with JObject entries => entries | _ => [] end in
      JObject ((fix go (patch_entries entries : list (text * Json)) : list (text * Json) :=
        match patch_entries with
        | [] => entries
        | (key, patch_value) :: rest =>
            go rest
              (if is_null patch_value then object_remove key entries
               else match object_get key entries with
                    | Some existing => object_insert key (apply_merge_patch existing patch_value) entries
                    | None => object_insert key patch_value entries
                    end)
        end) patch_entries entries)
  | _ => patch
  end.

Definition mux_json_merge_patch (document patch : Json) : result unit string * Json :=
  (Ok tt, apply_merge_patch document patch).

(** ** The entry points of pointers; [None] is a null or undecodable pointer *)

Definition mux_json_at_pointer (document : Json) (pointer : option text) : result Json string :=
  match pointer with
  | None => Err "json pointer must not be null"
  | Some p => let? tokens := decode_pointer_text p in pointer_get document tokens
  end.

Definition mux_json_set_pointer (document : Json) (pointer : option text) (replacement : Json) : result unit string * Json :=
  match (match pointer with
         | None => Err "json pointer must not be null"%string
         | Some p => let? tokens := decode_pointer_text p in pointer_set document tokens replacement
         end) with
  | Ok document => (Ok tt, document)
  | Err e => (Err e, document)
  end.

Definition mux_json_remove_pointer (document : Json) (pointer : option text) : result Json string * Json :=
  match (match pointer with
         | None => Err "json pointer must not be null"%string
         | Some p => let? tokens := decode_pointer_text p in pointer_remove document tokens
         end) with
  | Ok (removed, document) => (Ok removed, document)
  | Err e => (Err e, document)
  end.

Definition mux_json_set_field (document : Json) (key : option text) (v : Json) : result unit string * Json :=
  match key with
  | None => (Err "json field name must be a string", document)
  | Some name =>
      match document with
      | JObject entries => (Ok tt, JObject (object_insert name v entries))
      | _ => (Err "json.set_field requires an object", document)
      end
  end.

Definition mux_json_push (document v : Json) : result unit string * Json :=
  match document with
  | JArray items => (Ok tt, JArray (items ++ [v]))
  | _ => (Err "json.push requires an array", document)
  end.

(** * What pointers, patches and merge patches promise *)

(** ** Pointers as texts *)

Definition escape_char (c : Z) : text := if c =? 126 then [126; 48] else if c =? 47 then [126; 49] else [c].
Definition escape_token (t : text) : text := flat_map escape_char t.

(** RFC 6901: each token after a slash, with tildes and slashes escaped. *)
Definition pointer_text (tokens : list text) : text := flat_map (fun t => 47 :: escape_token t) tokens.

Lemma unescape_escape t : unescape_token (escape_token t) = Ok t.
Proof.
  induction t as [|c t IH]; [done|]. change (escape_token (c :: t)) with (escape_char c ++ escape_token t).
  unfold escape_char. destruct (c =? 126) eqn:E1.
  - apply Z.eqb_eq in E1 as ->. change (unescape_token ([126; 48] ++ escape_token t)) with
      (let? token := unescape_token (escape_token t) in Ok (126 :: token)). by rewrite IH.
  - destruct (c =? 47) eqn:E2.
    + apply Z.eqb_eq in E2 as ->. change (unescape_token ([126; 49] ++ escape_token t)) with
        (let? token := unescape_token (escape_token t) in Ok (47 :: token)). by rewrite IH.
    + cbn [app unescape_token]. rewrite E1. cbn [negb]. by rewrite IH.
Qed.

Lemma escape_no_slash t : 47 ∉ escape_token t.
Proof.
  induction t as [|c t IH]; [apply not_elem_of_nil|]. cbn [escape_token flat_map]. rewrite elem_of_app. intros [H|H]; [|done].
  revert H. unfold escape_char. destruct (c =? 126); [set_solver|]. destruct (c =? 47) eqn:E; [set_solver|].
  intros E'%list_elem_of_singleton. apply Z.eqb_neq in E. congruence.
Qed.

Lemma pointer_text_split t tokens :
  split_text (escape_token t ++ pointer_text tokens) [47] = escape_token <$> (t :: tokens).
Proof.
  revert t. induction tokens as [|u tokens IH]; intros t.
  - rewrite app_nil_r. apply split_char_none, escape_no_slash.
  - change (pointer_text (u :: tokens)) with (47 :: (escape_token u ++ pointer_text tokens)).
    rewrite split_char_cons by apply escape_no_slash. rewrite IH. done.
Qed.

Lemma decode_tokens_escaped tokens count : count + nlen tokens <= MAX_JSON_TOKENS ->
  decode_tokens (escape_token <$> tokens) count = Ok tokens.
Proof.
  revert count. induction tokens as [|t tokens IH]; intros count Hc; [done|]. rewrite fmap_cons. cbn [decode_tokens].
  unfold nlen in *. cbn [length] in Hc. rewrite (proj2 (Z.leb_gt _ _)) by lia. rewrite unescape_escape. cbn [result_bind].
  rewrite IH by lia. done.
Qed.

(** A pointer names any path.  The text of any list of tokens (tildes, slashes and
    empty tokens included), within the limits of size, decodes to these tokens. *)
Lemma json_pointer_roundtrip (tokens : list text) :
  byte_len (pointer_text tokens) <= MAX_JSON_INPUT_BYTES -> nlen tokens <= MAX_JSON_TOKENS ->
  decode_pointer_text (pointer_text tokens) = Ok tokens.
Proof.
  intros Hb Hn. unfold decode_pointer_text. rewrite (proj2 (Z.ltb_ge _ _)) by done.
  destruct tokens as [|t tokens]; [done|].
  change (pointer_text (t :: tokens)) with (47 :: (escape_token t ++ pointer_text tokens)).
  change (negb (47 =? 47)) with false. cbn iota. rewrite pointer_text_split. apply decode_tokens_escaped. lia.
Qed.

(** ** Objects *)

Lemma object_get_insert k v m j : object_get j (object_insert k v m) = if text_eqb k j then Some v else object_get j m.
Proof.
  unfold object_get, object_insert. induction m as [|[k' v'] m IH]; cbn [al_insert al_get].
  - by destruct (text_eqb k j).
  - destruct (text_eqb k' k) eqn:E; cbn [al_get].
    + apply text_eqb_spec in E as ->. by destruct (text_eqb k j).
    + destruct (text_eqb k' j) eqn:Ej; [|done]. apply text_eqb_spec in Ej as ->.
      replace (text_eqb k j) with false; [done|]. symmetry. apply not_true_iff_false. rewrite text_eqb_spec. intros ->.
      by rewrite (proj2 (text_eqb_spec j j)) in E.
Qed.

Lemma object_remove_insert k v m : object_get k m = None -> object_remove k (object_insert k v m) = m.
Proof.
  unfold object_get, object_insert, object_remove. intros H. induction m as [|[k' v'] m IH]; cbn [al_insert al_get al_remove] in *.
  - by rewrite (proj2 (text_eqb_spec k k)).
  - destruct (text_eqb k' k) eqn:E; [done|]. cbn [al_remove]. rewrite E. by rewrite IH.
Qed.

Lemma object_insert_twice k v w m : object_insert k w (object_insert k v m) = object_insert k w m.
Proof.
  unfold object_insert. induction m as [|[k' v'] m IH]; cbn [al_insert].
  - by rewrite (proj2 (text_eqb_spec k k)).
  - destruct (text_eqb k' k) eqn:E; cbn [al_insert]; rewrite E; [done|]. by rewrite IH.
Qed.

Lemma object_insert_same k v m : object_get k m = Some v -> object_insert k v m = m.
Proof.
  unfold object_get, object_insert. induction m as [|[k' v'] m IH]; cbn [al_get al_insert]; [done|].
  destruct (text_eqb k' k) eqn:E; [by intros [= ->]|]. intros H. by rewrite IH.
Qed.

(** ** Indices *)

Lemma pointer_index_some token n b i : pointer_index token n b = Ok (Some i) ->
  (i < n)%nat /\ parse_usize 10 token = Some (Z.of_nat i) /\ canonical_index token = true /\
  pointer_index token n false = Ok (Some i).
Proof.
  unfold pointer_index. destruct (b && _) eqn:Eb; [done|]. destruct (canonical_index token) eqn:Ec; [|done]. cbn [negb].
  destruct (parse_usize 10 token) as [z|] eqn:Ep; [|done]. destruct (Z.of_nat n <=? z) eqn:El; [done|].
  intros [= <-]. bool_to_prop. assert (0 <= z) as Hz.
  { unfold parse_usize in Ep. destruct token as [|c r]; [done|].
    assert (forall s acc, 0 <= acc -> usize_digits 10 s acc = Some z -> 0 <= z) as H.
    { clear. intros s. induction s as [|c s IH]; intros acc Ha; cbn [usize_digits]; [by intros [= <-]|].
      destruct (to_digit 10 c) as [d|] eqn:E; [|done]. case_match; [|done]. apply IH.
      assert (0 <= d); [|lia]. unfold to_digit in E. repeat case_match; try done; ranges; simplify_eq; lia. }
    destruct (c =? 43); [destruct r; [done|]|]; by eapply H in Ep. }
  split_and!; [lia|by rewrite Z2Nat.id by lia|done|]. done.
Qed.

Lemma pointer_index_longer token n m i b : pointer_index token n b = Ok (Some i) -> (n <= m)%nat ->
  pointer_index token m false = Ok (Some i).
Proof.
  intros (Hi & Hp & Hc & _)%pointer_index_some Hm. unfold pointer_index. cbn [andb]. rewrite Hc, Hp. cbn [negb].
  rewrite (proj2 (Z.leb_gt _ _)) by lia. by rewrite Nat2Z.id.
Qed.

(** ** Reading what was written *)

(** The path where a value set through the tokens ends up: a final dash becomes the
    index after the last element. *)
Fixpoint resolve (value : Json) (tokens : list text) : list text :=
  match tokens with
  | [] => []
  | token :: rest =>
      match value with
      | JObject entries => token :: match object_get token entries with Some child => resolve child rest | None => rest end
      | JArray items =>
          match rest with
          | [] => if text_eqb token (txt "-") then [decimal 20 (nlen items)] else [token]
          | _ =>
              token :: match pointer_index token (length items) false with
                       | Ok (Some i) => match items !! i with Some item => resolve item rest | None => rest end
                       | _ => rest
                       end
          end
      | _ => tokens
      end
  end.

Lemma decimal_leading fuel n : 0 < n < 10 ^ Z.of_nat (S fuel) -> exists c r, decimal (S fuel) n = c :: r /\ c <> 48.
Proof.
  revert n. induction fuel as [|fuel IH]; intros n Hn.
  - cbn [decimal]. change (10 ^ Z.of_nat 1) with 10 in Hn. rewrite (proj2 (Z.ltb_lt n 10)) by lia. eexists _, _. split; [done|lia].
  - cbn [decimal]. destruct (n <? 10) eqn:E; bool_to_prop; [eexists _, _; split; [done|lia]|].
    destruct (IH (n / 10)) as (c & r & Ed & Hc).
    { rewrite (Nat2Z.inj_succ (S fuel)), Z.pow_succ_r in Hn by lia. split; [euclid|]. apply Z.div_lt_upper_bound; lia. }
    cbn [decimal] in Ed. rewrite Ed. by eexists c, _.
Qed.

Lemma decimal_index n m : (n < m)%nat -> Z.of_nat m <= usize_max ->
  pointer_index (decimal 20 (Z.of_nat n)) m false = Ok (Some n).
Proof.
  intros Hn Hm. unfold pointer_index. cbn [andb].
  assert (canonical_index (decimal 20 (Z.of_nat n)) = true) as ->.
  { unfold canonical_index. destruct (decide (n = 0)%nat) as [->|Hz]; [done|].
    destruct (decimal_leading 19 (Z.of_nat n)) as (c & r & -> & Hc); [unfold usize_max in Hm; cbn; lia|].
    unfold nlen. cbn [length]. rewrite (proj2 (Z.eqb_neq _ 0)) by lia. cbn [orb].
    replace (starts "0" (c :: r)) with false; [by rewrite andb_false_r|].
    unfold starts. change (txt "0") with [48]. cbn [is_prefix]. by rewrite (proj2 (Z.eqb_neq 48 c)) by congruence. }
  cbn [negb]. rewrite parse_usize_decimal by lia. rewrite (proj2 (Z.leb_gt _ _)) by lia. by rewrite Nat2Z.id.
Qed.

(** Vectors are shorter than the address space. *)
Definition room (doc : Json) (tokens : list text) : Prop :=
  forall items, pointer_get doc (removelast tokens) = Ok (JArray items) -> nlen items < usize_max.

(** The two paths lead to different places: they part at an object or an array, and
    not at the position after the last element for the second one. *)
Fixpoint diverge (value : Json) (tokens others : list text) : Prop :=
  match tokens, others with
  | t :: rest, u :: rest' =>
      match value with
      | JObject entries =>
          if text_eqb t u then match object_get t entries with Some child => diverge child rest rest' | None => False end
          else True
      | JArray items =>
          match pointer_index t (length items) (match rest with [] => true | _ => false end),
                pointer_index u (length items) false with
          | Ok (Some i), Ok (Some j) =>
              if (i =? j)%nat then match items !! i with Some item => diverge item rest rest' | None => False end else True
          | Ok None, Ok (Some _) => True
          | _, _ => False
          end
      | _ => False
      end
  | _, _ => False
  end.

Lemma room_object entries child t u rest : object_get t entries = Some child ->
  room (JObject entries) (t :: u :: rest) -> room child (u :: rest).
Proof. intros H Hr items Hg. apply Hr. cbn [removelast] in *. cbn [pointer_get]. by rewrite H. Qed.

Lemma room_array items item i t u rest : pointer_index t (length items) false = Ok (Some i) -> items !! i = Some item ->
  room (JArray items) (t :: u :: rest) -> room item (u :: rest).
Proof. intros Hi H Hr its Hg. apply Hr. cbn [removelast] in *. cbn [pointer_get]. rewrite Hi. cbn [result_bind]. by rewrite H. Qed.

Lemma get_array items t rest i item : pointer_index t (length items) false = Ok (Some i) -> items !! i = Some item ->
  pointer_get (JArray items) (t :: rest) = pointer_get item rest.
Proof. intros Hi H. cbn [pointer_get]. rewrite Hi. cbn [result_bind]. by rewrite H. Qed.

Lemma dash_index items b : pointer_index (txt "-") (length (items : list Json)) b = Ok None \/
  exists e, pointer_index (txt "-") (length items) b = Err e.
Proof. destruct b; [by left|right]. by eexists. Qed.

Lemma append_index items t : pointer_index t (length (items : list Json)) true = Ok None -> t = txt "-".
Proof.
  unfold pointer_index. destruct (true && text_eqb t (txt "-")) eqn:E; [intros _; by apply text_eqb_spec|].
  destruct (negb _); [done|]. destruct (parse_usize 10 t); [|done]. by destruct (_ <=? _).
Qed.

Lemma index_not_dash t n i : pointer_index t n false = Ok (Some i) -> text_eqb t (txt "-") = false.
Proof. intros H. apply not_true_iff_false. rewrite text_eqb_spec. intros ->. done. Qed.

Lemma index_not_append t n r : pointer_index t n false = Ok r -> exists i, r = Some i.
Proof.
  unfold pointer_index. cbn [andb]. destruct (negb _); [done|]. destruct (parse_usize 10 t); [|done].
  destruct (_ <=? _); [done|]. intros [= <-]. by eexists.
Qed.

Lemma pointer_set_get tokens : forall doc v doc', room doc tokens ->
  pointer_set doc tokens v = Ok doc' -> pointer_get doc' (resolve doc tokens) = Ok v.
Proof.
  induction tokens as [|t rest IH]; intros doc v doc' Hroom; cbn [pointer_set resolve]; [by intros [= <-]|].
  destruct doc as [| | | | | |items|entries]; try done.
  - destruct rest as [|u rest].
    + destruct (pointer_index t (length items) true) as [[i|]|] eqn:Ei; [| |done]; cbn [result_bind].
      * destruct (pointer_index_some _ _ _ _ Ei) as (Hi & _ & _ & Hf). destruct (items !! i) as [item|] eqn:El; [|done].
        cbn [pointer_set result_bind]. intros [= <-]. rewrite (index_not_dash _ _ _ Hf).
        erewrite get_array; [done|by rewrite length_insert|]. by apply list_lookup_insert_eq.
      * intros [= <-]. apply append_index in Ei as ->. rewrite (proj2 (text_eqb_spec _ _)) by done.
        assert (nlen items < usize_max) as Hn by (by apply Hroom).
        unfold nlen in *. erewrite get_array; [done| |].
        -- apply decimal_index; rewrite length_app; cbn [length]; lia.
        -- rewrite lookup_app_r by lia. by rewrite Nat.sub_diag.
    + destruct (pointer_index t (length items) false) as [[i|]|] eqn:Ei; [| |done]; cbn [result_bind].
      * destruct (items !! i) as [item|] eqn:El; [|done].
        destruct (pointer_set item (u :: rest) v) as [item'|] eqn:Es; [|done]. intros [= <-].
        erewrite get_array; [|by rewrite length_insert|by apply list_lookup_insert_eq; eapply lookup_lt_Some].
        eapply IH; [|done]. by eapply room_array.
      * by apply index_not_append in Ei as [].
  - destruct rest as [|u rest].
    + intros [= <-]. cbn [pointer_get]. 
      assert (match object_get t entries with Some child => resolve child [] | None => [] end = []) as -> by (by destruct (object_get t entries)).
      rewrite object_get_insert. by rewrite (proj2 (text_eqb_spec t t)).
    + destruct (object_get t entries) as [child|] eqn:Eg; [|done].
      destruct (pointer_set child (u :: rest) v) as [child'|] eqn:Es; [|done]. intros [= <-]. cbn [pointer_get].
      rewrite object_get_insert, (proj2 (text_eqb_spec t t)) by done. eapply IH; [|done]. by eapply room_object.
Qed.

Lemma pointer_set_frame tokens : forall doc v doc' others, pointer_set doc tokens v = Ok doc' -> diverge doc tokens others ->
  pointer_get doc' others = pointer_get doc others.
Proof.
  induction tokens as [|t rest IH]; intros doc v doc' others; [done|]. destruct others as [|u rest']; [done|].
  cbn [pointer_set diverge]. destruct doc as [| | | | | |items|entries]; try done.
  - destruct (pointer_index t (length items) _) as [[i|]|] eqn:Ei; [| |done]; cbn [result_bind].
    + destruct (items !! i) as [item|] eqn:El; [|done].
      destruct (pointer_set item rest v) as [item'|] eqn:Es; [|done]. intros [= <-] Hd.
      destruct (pointer_index u (length items) false) as [[j|]|] eqn:Ej; [|done|done].
      cbn [pointer_get]. rewrite length_insert, Ej. cbn [result_bind].
      destruct (i =? j)%nat eqn:Eij.
      * apply Nat.eqb_eq in Eij as <-. rewrite list_lookup_insert_eq by (by eapply lookup_lt_Some). rewrite El.
        by eapply IH.
      * apply Nat.eqb_neq in Eij. by rewrite list_lookup_insert_ne.
    + intros [= <-] Hd. destruct (pointer_index u (length items) false) as [[j|]|] eqn:Ej; [|done|done].
      destruct (pointer_index_some _ _ _ _ Ej) as (Hj & _). cbn [pointer_get].
      rewrite (pointer_index_longer u (length items) _ j false) by (done || (rewrite length_app; lia)). rewrite Ej. cbn [result_bind].
      by rewrite lookup_app_l.
  - destruct (text_eqb t u) eqn:E.
    + apply text_eqb_spec in E as <-. destruct (object_get t entries) as [child|] eqn:Eg; [|by destruct rest].
      destruct rest as [|w rest].
      { intros _ []. }
      destruct (pointer_set child (w :: rest) v) as [child'|] eqn:Es; [|done]. intros [= <-] Hd. cbn [pointer_get].
      rewrite object_get_insert, (proj2 (text_eqb_spec t t)), Eg by done. by eapply IH.
    + intros H _. assert (exists c, doc' = JObject (object_insert t c entries)) as [c ->].
      { destruct rest as [|w rest]; [injection H as <-; eauto|]. destruct (object_get t entries); [|done].
        destruct (pointer_set _ _ v); [|done]. injection H as <-. eauto. }
      cbn [pointer_get]. by rewrite object_get_insert, E.
Qed.

(** Setting through a pointer writes one place.  After a successful set, reading
    the same path (a final dash being the index the element was appended at) gives the
    new value, and reading any path that parts from it gives what it gave before,
    value or error. *)
Lemma json_pointer_lens doc tokens v doc' :
  room doc tokens -> pointer_set doc tokens v = Ok doc' ->
  pointer_get doc' (resolve doc tokens) = Ok v /\
  forall others, diverge doc tokens others -> pointer_get doc' others = pointer_get doc others.
Proof. intros Hr Hs. split; [by eapply pointer_set_get|]. intros others. by eapply pointer_set_frame. Qed.

Definition sample_doc : Json := JObject [(txt "a", JArray [JInt 1; JInt 2]); (txt "b", JNull)].

(** ** Patches *)

(** The place that an addition fills is free: in an object no entry has the key. *)
Definition free (doc : Json) (tokens : list text) : Prop :=
  forall entries t, pointer_get doc (removelast tokens) = Ok (JObject entries) -> last tokens = Some t ->
    object_get t entries = None.

Lemma delete_inserted i v (items : list Json) : (i <= length items)%nat -> delete i (list_insert_at i v items) = items.
Proof.
  intros H. unfold list_insert_at. rewrite delete_take_drop.
  rewrite take_app_le by (rewrite length_take; lia). rewrite take_take, Nat.min_id.
  rewrite drop_app_ge by (rewrite length_take; lia). rewrite length_take.
  replace (S i - i `min` length items)%nat with 1%nat by lia. exact (take_drop i items).
Qed.

Lemma lookup_inserted i v (items : list Json) : (i <= length items)%nat -> list_insert_at i v items !! i = Some v.
Proof.
  intros H. unfold list_insert_at. rewrite lookup_app_r by (rewrite length_take; lia).
  rewrite length_take. by replace (i - i `min` length items)%nat with 0%nat by lia.
Qed.

Lemma length_inserted i v (items : list Json) : (i <= length items)%nat -> length (list_insert_at i v items) = S (length items).
Proof. intros H. unfold list_insert_at. rewrite length_app. cbn [length]. rewrite length_take, length_drop. lia. Qed.

Lemma add_remove_last items t v doc' : nlen items < usize_max -> pointer_add (JArray items) [t] v = Ok doc' ->
  pointer_remove doc' (resolve (JArray items) [t]) = Ok (v, JArray items).
Proof.
  intros Hn. cbn [pointer_add resolve]. destruct (text_eqb t (txt "-")) eqn:Ed.
  - intros [= <-]. unfold nlen in *. cbn [pointer_remove].
    rewrite decimal_index by (rewrite length_app; cbn [length]; lia). cbn [result_bind].
    rewrite lookup_app_r, Nat.sub_diag by lia. cbn [lookup list_lookup]. f_equal. f_equal.
    rewrite delete_take_drop, take_app_length, drop_ge by (rewrite length_app; cbn; lia). by rewrite app_nil_r.
  - destruct (parse_usize 10 t) as [z|] eqn:Ep; [|done]. destruct (canonical_index t) eqn:Ec; [|done]. cbn [negb].
    destruct (nlen items <? z) eqn:El; [done|]. intros [= <-]. bool_to_prop. unfold nlen in *. cbn [pointer_remove].
    assert (pointer_index t (length (list_insert_at (Z.to_nat z) v items)) false = Ok (Some (Z.to_nat z))) as ->.
    { unfold pointer_index. cbn [andb]. rewrite Ec, Ep. cbn [negb]. rewrite length_inserted by lia.
      by rewrite (proj2 (Z.leb_gt _ _)) by lia. }
    cbn [result_bind]. rewrite lookup_inserted by lia. by rewrite delete_inserted by lia.
Qed.

Lemma pointer_add_remove tokens : forall doc v doc', tokens <> [] -> room doc tokens -> free doc tokens ->
  pointer_add doc tokens v = Ok doc' -> pointer_remove doc' (resolve doc tokens) = Ok (v, doc).
Proof.
  induction tokens as [|t rest IH]; intros doc v doc' Hne Hroom Hfree; [done|].
  destruct rest as [|u rest].
  - destruct doc as [| | | | | |items|entries]; try done.
    + apply add_remove_last. by apply Hroom.
    + cbn [pointer_add resolve]. intros [= <-].
      assert (object_get t entries = None) as Hn by (by eapply Hfree). rewrite Hn. cbn [pointer_remove].
      rewrite object_get_insert, (proj2 (text_eqb_spec t t)) by done. by rewrite object_remove_insert.
  - change (pointer_add doc (t :: u :: rest) v) with
      (match doc with
       | JObject entries =>
           match object_get t entries with
           | Some child => let? child := pointer_add child (u :: rest) v in Ok (JObject (object_insert t child entries))
           | None => Err patch_missing
           end
       | JArray items =>
           let? index := pointer_index t (length items) false in
           match index with
           | None => Err "JSON Patch append is not valid for nested paths"%string
           | Some index =>
               match items !! index with
               | Some item => let? item := pointer_add item (u :: rest) v in Ok (JArray (<[index := item]> items))
               | None => Err "json pointer array index is out of bounds"%string
               end
           end
       | _ => Err patch_non_container
       end).
    assert (forall child, resolve child (u :: rest) <> []) as Hres.
    { intros child. cbn [resolve]. destruct child as [| | | | | |its|]; try done. destruct rest; [by destruct (text_eqb _ _)|done]. }
    destruct doc as [| | | | | |items|entries]; try done.
    + destruct (pointer_index t (length items) false) as [[i|]|] eqn:Ei; [|done|done]. cbn [result_bind].
      destruct (items !! i) as [item|] eqn:El; [|done]. destruct (pointer_add item _ v) as [item'|] eqn:Ea; [|done].
      intros [= <-]. change (resolve (JArray items) (t :: u :: rest)) with
        (t :: match pointer_index t (length items) false with
              | Ok (Some i) => match items !! i with Some item => resolve item (u :: rest) | None => u :: rest end
              | _ => u :: rest end). rewrite Ei, El.
      cbn [pointer_remove]. rewrite length_insert, Ei. cbn [result_bind].
      rewrite list_lookup_insert_eq by (by eapply lookup_lt_Some).
      specialize (IH item v item' ltac:(done)). specialize (Hres item). destruct (resolve item (u :: rest)) as [|w ws]; [done|].
      rewrite IH; [|by eapply room_array| |done].
      * cbn [result_bind]. by rewrite list_insert_insert_eq, list_insert_id.
      * intros es x Hg Hl. apply (Hfree es x); [|done]. cbn [removelast]. rewrite (get_array _ _ _ _ _ Ei El). done.
    + destruct (object_get t entries) as [child|] eqn:Eg; [|done]. destruct (pointer_add child _ v) as [child'|] eqn:Ea; [|done].
      intros [= <-]. change (resolve (JObject entries) (t :: u :: rest)) with
        (t :: match object_get t entries with Some child => resolve child (u :: rest) | None => u :: rest end). rewrite Eg.
      specialize (IH child v child' ltac:(done)). specialize (Hres child).
      cbn [pointer_remove]. rewrite object_get_insert, (proj2 (text_eqb_spec t t)) by done.
      destruct (resolve child (u :: rest)) as [|w ws]; [done|].
      rewrite IH; [|by eapply room_object| |done].
      * cbn [result_bind]. by rewrite object_insert_twice, object_insert_same.
      * intros es x Hg Hl. apply (Hfree es x); [|done]. cbn [removelast pointer_get] in *. by rewrite Eg.
Qed.

(** Removing undoes adding.  When a patch adds a value where an object has no entry
    yet, or anywhere in an array (the position after the last element included),
    removing the path it names gives back the value and the document as it was, the
    order of entries included. *)
Lemma json_patch_add_remove doc tokens v doc' :
  tokens <> [] -> room doc tokens -> free doc tokens -> pointer_add doc tokens v = Ok doc' ->
  pointer_remove doc' (resolve doc tokens) = Ok (v, doc).
Proof. apply pointer_add_remove. Qed.

(** ** Merge patches *)

Lemma Json_nested_ind (P : Json -> Prop) :
  P JNull -> (forall b, P (JBool b)) -> (forall i, P (JInt i)) -> (forall f, P (JFloat f)) ->
  (forall i r, P (JNumber i r)) -> (forall s, P (JString s)) ->
  (forall items, Forall P items -> P (JArray items)) ->
  (forall entries, Forall (fun e => P e.2) entries -> P (JObject entries)) -> forall v, P v.
Proof.
  intros H1 H2 H3 H4 H5 H6 Ha Ho. fix IH 1. intros [| | | | | |items|entries]; [done|apply H2|apply H3|apply H4|apply H5|apply H6| |].
  - apply Ha. induction items as [|v items IHi]; constructor; [apply IH|apply IHi].
  - apply Ho. induction entries as [|[k v] entries IHe]; constructor; [apply IH|apply IHe].
Qed.

(** The algorithm of RFC 7396, section 2: a member that the target lacks is patched
    from an undefined value. *)
Fixpoint merge_rfc (target patch : Json) : Json :=
  match patch with
  | JObject patch_entries =>
      JObject ((fix go (patch_entries entries : list (text * Json)) : list (text * Json) :=
        match patch_entries with
        | [] => entries
        | (key, patch_value) :: rest =>
            go rest
              (if is_null patch_value then object_remove key entries
               else object_insert key
                      (merge_rfc (match object_get key entries with Some v => v | None => JNull end) patch_value) entries)
        end) patch_entries (match target with JObject entries => entries | _ => [] end))
  | _ => patch
  end.

(** No object in the value has a null member, and keys are distinct. *)
Fixpoint settled (v : Json) : Prop :=
  match v with
  | JObject entries =>
      keys_distinct text_eqb entries /\
      (fix all (entries : list (text * Json)) : Prop :=
         match entries with [] => True | (_, v) :: rest => (is_null v = false /\ settled v) /\ all rest end) entries
  | _ => True
  end.

(** Where the patch meets no member of the target, what it adds is settled. *)
Fixpoint covers (target patch : Json) : Prop :=
  match patch with
  | JObject patch_entries =>
      let entries := match target with JObject entries => entries | _ => [] end in
      keys_distinct text_eqb patch_entries /\
      (fix all (patch_entries : list (text * Json)) : Prop :=
         match patch_entries with
         | [] => True
         | (k, v) :: rest =>
             (is_null v = true \/ match object_get k entries with Some x => covers x v | None => settled v end) /\ all rest
         end) patch_entries
  | _ => True
  end.

Lemma object_get_remove k m j : text_eqb k j = false -> object_get j (object_remove k m) = object_get j m.
Proof.
  intros H. unfold object_get, object_remove. induction m as [|[k' v'] m IH]; cbn [al_remove al_get]; [done|].
  destruct (text_eqb k' k) eqn:E; cbn [al_get].
  - apply text_eqb_spec in E as ->. by rewrite H.
  - by rewrite IH.
Qed.

(** The loop of the algorithm, on entries that are all patched by [f]. *)
Definition merge_step (f : option Json -> Json -> Json) (entries : list (text * Json)) (e : text * Json) : list (text * Json) :=
  if is_null e.2 then object_remove e.1 entries else object_insert e.1 (f (object_get e.1 entries) e.2) entries.

Lemma merge_rfc_object target pe :
  merge_rfc target (JObject pe) =
  JObject (foldl (merge_step (fun o v => merge_rfc (match o with Some x => x | None => JNull end) v))
             (match target with JObject entries => entries | _ => [] end) pe).
Proof.
  cbn [merge_rfc]. f_equal. generalize (match target with JObject entries => entries | _ => [] end).
  induction pe as [|[k v] pe IH]; intros es; [done|]. cbn [foldl]. by rewrite <- IH.
Qed.

Lemma apply_merge_object target pe :
  apply_merge_patch target (JObject pe) =
  JObject (foldl (merge_step (fun o v => match o with Some x => apply_merge_patch x v | None => v end))
             (match target with JObject entries => entries | _ => [] end) pe).
Proof.
  cbn [apply_merge_patch]. f_equal. generalize (match target with JObject entries => entries | _ => [] end).
  induction pe as [|[k v] pe IH]; intros es; [done|]. cbn [foldl]. rewrite <- IH. unfold merge_step. cbn [fst snd].
  by destruct (is_null v), (object_get k es).
Qed.

Lemma merge_step_get f es k v j : text_eqb k j = false -> object_get j (merge_step f es (k, v)) = object_get j es.
Proof.
  intros H. unfold merge_step. cbn [fst snd]. destruct (is_null v); [by apply object_get_remove|].
  by rewrite object_get_insert, H.
Qed.

(** Two ways to patch that agree on what each key meets give the same entries. *)
Lemma merge_fold_ext f g pe : keys_distinct text_eqb pe -> forall es,
  Forall (fun e => is_null e.2 = true \/ f (object_get e.1 es) e.2 = g (object_get e.1 es) e.2) pe ->
  foldl (merge_step f) es pe = foldl (merge_step g) es pe.
Proof.
  induction pe as [|[k v] pe IH]; intros Hd es H; [done|]. destruct Hd as [Hk Hd].
  apply Forall_cons in H as [Hh Ht]. cbn [foldl fst snd] in *.
  assert (merge_step f es (k, v) = merge_step g es (k, v)) as <-.
  { unfold merge_step. cbn [fst snd]. destruct Hh as [-> | ->]; [done|]. done. }
  apply IH; [done|]. apply Forall_forall. intros [j w] Hin. rewrite Forall_forall in Ht, Hk.
  specialize (Ht _ Hin). specialize (Hk _ Hin). cbn [fst snd] in *. by rewrite merge_step_get by done.
Qed.

Lemma settled_object entries : settled (JObject entries) ->
  keys_distinct text_eqb entries /\ Forall (fun e => is_null e.2 = false /\ settled e.2) entries.
Proof.
  cbn [settled]. intros [Hd H]. split; [done|]. clear Hd. induction entries as [|[k v] entries IH]; [constructor|].
  destruct H as [Hv H]. constructor; [done|by apply IH].
Qed.

Lemma covers_object target pe : covers target (JObject pe) ->
  keys_distinct text_eqb pe /\
  Forall (fun e => is_null e.2 = true \/
    match object_get e.1 (match target with JObject entries => entries | _ => [] end) with
    | Some x => covers x e.2 | None => settled e.2 end) pe.
Proof.
  cbn [covers]. intros [Hd H]. split; [done|]. clear Hd. induction pe as [|[k v] pe IH]; [constructor|].
  destruct H as [Hv H]. constructor; [done|by apply IH].
Qed.

Lemma fold_fresh f pe : keys_distinct text_eqb pe -> forall es,
  Forall (fun e => is_null e.2 = false /\ f None e.2 = e.2 /\ object_get e.1 es = None) pe ->
  foldl (merge_step f) es pe = es ++ pe.
Proof.
  induction pe as [|[k v] pe IH]; intros Hd es H; [by rewrite app_nil_r|]. destruct Hd as [Hk Hd].
  apply Forall_cons in H as [(H1 & H2 & H3) H]. cbn [foldl fst snd] in *.
  assert (merge_step f es (k, v) = es ++ [(k, v)]) as E.
  { unfold merge_step. cbn [fst snd]. rewrite H1, H3, H2. by apply al_insert_absent. }
  rewrite IH; [rewrite E, <- app_assoc; done|done|].
  apply Forall_forall. intros [j w] Hin. rewrite Forall_forall in H, Hk.
  specialize (H _ Hin). specialize (Hk _ Hin). cbn [fst snd] in *. by rewrite merge_step_get by done.
Qed.

Lemma merge_settled v : settled v -> merge_rfc JNull v = v.
Proof.
  induction v as [| | | | | |items IH|entries IH] using Json_nested_ind; intros H; try done.
  apply settled_object in H as [Hd H]. rewrite merge_rfc_object, fold_fresh; [done|done|].
  apply Forall_forall. intros e He. rewrite Forall_forall in IH, H. destruct (H e He) as [Hn Hs]. split_and!; [done| |done].
  by apply IH.
Qed.

Lemma merge_covers patch : forall target, covers target patch -> apply_merge_patch target patch = merge_rfc target patch.
Proof.
  induction patch as [| | | | | |items IH|entries IH] using Json_nested_ind; intros target H; try done.
  apply covers_object in H as [Hd H]. rewrite apply_merge_object, merge_rfc_object. f_equal.
  apply merge_fold_ext; [done|]. apply Forall_forall. intros e He. rewrite Forall_forall in IH, H.
  destruct (H e He) as [Hn|Hc]; [by left|]. right. destruct (object_get e.1 _) as [x|].
  - by apply IH.
  - by rewrite merge_settled.
Qed.

(** A merge patch follows RFC 7396 where it meets the document: for any patch with
    distinct keys, the result is that of the RFC's algorithm, order of members
    included, whenever the objects that the patch adds as new members hold no null
    members themselves. *)
Lemma json_merge_patch_rfc target patch :
  covers target patch -> mux_json_merge_patch target patch = (Ok tt, merge_rfc target patch).
Proof. intros H. unfold mux_json_merge_patch. by rewrite merge_covers. Qed.

(** Where it adds a new member, it keeps nulls that RFC 7396 removes: the patch
    [{"a": {"b": null}}] applied to [{}] leaves the null in place, and the RFC's result
    is [{"a": {}}]. *)
Lemma json_merge_patch_keeps_nulls :
  let patch := JObject [(txt "a", JObject [(txt "b", JNull)])] in
  mux_json_merge_patch (JObject []) patch = (Ok tt, patch) /\
  merge_rfc (JObject []) patch = JObject [(txt "a", JObject [])].
Proof. split; vm_compute; reflexivity. Qed.

(** A test of an exact number fails on a number of the same spelling: such numbers are
    objects without an equality of their own and are compared by identity. *)
Lemma json_test_exact_number float_eqb raw a b : a <> b ->
  mux_json_apply_patch float_eqb (JArray [JNumber a raw])
    (JArray [JObject [(txt "op", JString (txt "test")); (txt "path", JString (txt "/0")); (txt "value", JNumber b raw)]]) =
  (Err "JSON Patch test operation failed"%string, JArray [JNumber a raw]).
Proof.
  intros H. apply Z.eqb_neq in H. cbv -[json_eqb]. cbn [json_eqb]. by rewrite H.
Qed.

(** An index with a plus sign is taken, though it is not a canonical one. *)
Lemma json_plus_index : pointer_get (JArray [JInt 5; JInt 6]) [txt "+1"] = Ok (JInt 6).
Proof. vm_compute. reflexivity. Qed.
