(* ===== verification/JsonParse.v ===== *)
(** * JSON texts: rendering, scanning, then parsing ([src/src/json.rs])

    Rendering, and the scanner that recovers the spelling of every number of an input.
    The parser takes the structure from [serde_json] and the numbers, by position, from
    the scanner; [json_numbers_recovered] shows that the scanner finds the numbers of a
    rendered document, and nothing else, in order. *)

From S2P Require Import Prelude AssocList Value Str Utf8 Http HttpProps Cli CliProps Json Object.

(** ** Rendering *)

Section Render.
(** [serde_json]: the literal of a string, and the spelling of a finite float. *)
Context (quote : text -> text) (float_text : Z -> text).

Fixpoint render_json (value : Json) (indent : option nat) (depth : nat) : text :=
  match value with
  | JNull => txt "null"
  | JBool b => if b then txt "true" else txt "false"
  | JInt i => mux_int_to_string i
  | JFloat f => float_text f
  | JNumber _ raw => raw
  | JString s => quote s
  | JArray [] => txt "[]"
  | JArray items =>
      let children := map (fun v => render_json v indent (S depth)) items in
      match indent with
      | None => 91 :: join [44] children ++ [93]
      | Some width =>
          let pad := repeat 32 (width * S depth) in
          91 :: 10 :: join [44; 10] (map (fun c => pad ++ c) children) ++ [10] ++ repeat 32 (width * depth) ++ [93]
      end
  | JObject [] => txt "{}"
  | JObject entries =>
      let separator := match indent with Some _ => [58; 32] | None => [58] end in
      let children := map (fun '(k, v) => quote k ++ separator ++ render_json v indent (S depth)) entries in
      match indent with
      | None => 123 :: join [44] children ++ [125]
      | Some width =>
          let pad := repeat 32 (width * S depth) in
          123 :: 10 :: join [44; 10] (map (fun c => pad ++ c) children) ++ [10] ++ repeat 32 (width * depth) ++ [125]
      end
  end.

Definition stringify (value : Json) (indent : option nat) : text := render_json value indent 0.

(** The spellings of the numbers of a document, in order. *)
Fixpoint numbers (value : Json) : list text :=
  match value with
  | JInt i => [mux_int_to_string i]
  | JFloat f => [float_text f]
  | JNumber _ raw => [raw]
  | JArray items => flat_map numbers items
  | JObject entries => flat_map (fun '(_, v) => numbers v) entries
  | _ => []
  end.

End Render.

(** ** Scanning *)

Definition is_digit (b : Z) : bool := in_range 48 57 b.

(** The length of the run of digits. *)
Fixpoint scan_ascii_digits (bs : list Z) : nat :=
  match bs with b :: r => if is_digit b then S (scan_ascii_digits r) else 0%nat | [] => 0%nat end.

Definition starts_byte (b : Z) (bs : list Z) : bool := match bs with c :: _ => c =? b | [] => false end.

Definition scan_json_integer (bs : list Z) : nat :=
  let sign := if starts_byte 45 bs then 1%nat else 0%nat in
  let r := drop sign bs in
  (sign + if starts_byte 48 r then 1 else scan_ascii_digits r)%nat.

Definition scan_json_fraction (bs : list Z) : nat :=
  match bs with
  | b :: r => if b =? 46 then match scan_ascii_digits r with O => 0%nat | n => S n end else 0%nat
  | [] => 0%nat
  end.

Definition is_sign (b : Z) : bool := (b =? 43) || (b =? 45).

Definition scan_json_exponent (bs : list Z) : nat :=
  match bs with
  | b :: r =>
      if (b =? 101) || (b =? 69) then
        let sign := match r with c :: _ => if is_sign c then 1%nat else 0%nat | [] => 0%nat end in
        match scan_ascii_digits (drop sign r) with O => 0%nat | n => (1 + sign + n)%nat end
      else 0%nat
  | [] => 0%nat
  end.

(** The end of the number at the front, as a length. *)
Definition scan_json_number (bs : list Z) : nat :=
  let i := scan_json_integer bs in
  let f := scan_json_fraction (drop i bs) in
  let e := scan_json_exponent (drop (i + f) bs) in
  (i + f + e)%nat.

(** What follows a string literal whose opening quote was read. *)
Fixpoint skip_json_string (bs : list Z) : list Z :=
  match bs with
  | [] => []
  | b :: r =>
      if b =? 92 then match r with _ :: r => skip_json_string r | [] => [] end
      else if b =? 34 then r
      else skip_json_string r
  end.

(** The loop of [scan_json_numbers]: every round consumes a byte, so the length of the
    input is enough fuel. *)
Fixpoint scan_loop (fuel : nat) (bs : list Z) : list (list Z) :=
  match fuel, bs with
  | O, _ | _, [] => []
  | S fuel, b :: r =>
      if b =? 34 then scan_loop fuel (skip_json_string r)
      else if (b =? 45) || is_digit b then
        let n := scan_json_number bs in take n bs :: scan_loop fuel (drop n bs)
      else scan_loop fuel r
  end.

Definition scan_json_numbers (input : list Z) : list (list Z) := scan_loop (length input) input.

(** [enforce_json_token_limit]: the rest of a string literal, of a number, of a token. *)
Definition in_number (b : Z) : bool := is_digit b || (b =? 101) || (b =? 69) || (b =? 43) || (b =? 45) || (b =? 46).

Fixpoint drop_number (bs : list Z) : list Z :=
  match bs with b :: r => if in_number b then drop_number r else bs | [] => [] end.

Fixpoint drop_string (escaped : bool) (bs : list Z) : list Z :=
  match bs with
  | [] => []
  | b :: r => if escaped then drop_string false r else if b =? 92 then drop_string true r else if b =? 34 then r else drop_string false r
  end.

(** What follows the token at the front. *)
Definition token_rest (bs : list Z) : list Z :=
  match bs with
  | [] => []
  | b :: r =>
      if b =? 34 then drop_string false r
      else if (b =? 45) || is_digit b then drop_number r
      else if is_prefix (txt "true") bs then drop 4 bs
      else if is_prefix (txt "false") bs then drop 5 bs
      else if is_prefix (txt "null") bs then drop 4 bs
      else r
  end.

Fixpoint token_limit_loop (fuel : nat) (bs : list Z) (count : Z) : result unit string :=
  match fuel, bs with
  | O, _ | _, [] => Ok tt
  | S fuel, b :: r =>
      if is_ascii_whitespace b then token_limit_loop fuel r count
      else if MAX_JSON_TOKENS <=? count then Err "JSON token stream exceeds the one-million-token limit"
      else token_limit_loop fuel (token_rest bs) (count + 1)
  end.

Definition enforce_json_token_limit (input : list Z) : result unit string := token_limit_loop (length input) input 0.

(** ** The scanner, step by step *)

Lemma scan_digits_le bs : (scan_ascii_digits bs <= length bs)%nat.
Proof. induction bs as [|b r IH]; cbn; [lia|]. destruct (is_digit b); lia. Qed.

Lemma starts_byte_length b bs : starts_byte b bs = true -> (1 <= length bs)%nat.
Proof. destruct bs; cbn; [done|lia]. Qed.

Lemma scan_integer_le bs : (scan_json_integer bs <= length bs)%nat.
Proof.
  unfold scan_json_integer. set (sign := if starts_byte 45 bs then 1%nat else 0%nat).
  assert (sign <= length bs)%nat.
  { subst sign. destruct (starts_byte 45 bs) eqn:E; [by apply starts_byte_length in E|lia]. }
  pose proof (scan_digits_le (drop sign bs)) as Hd. rewrite length_drop in Hd.
  destruct (starts_byte 48 (drop sign bs)) eqn:E; [|lia]. apply starts_byte_length in E. rewrite length_drop in E. lia.
Qed.

Lemma skip_le bs : (length (skip_json_string bs) <= length bs)%nat.
Proof.
  enough (forall n bs, (length bs <= n)%nat -> (length (skip_json_string bs) <= length bs)%nat) as H by (by apply (H (length bs))).
  induction n as [|n IH]; intros [|b r] Hn; cbn [length skip_json_string] in *; try lia.
  destruct (b =? 92).
  - destruct r as [|c r]; cbn [length] in *; [lia|]. specialize (IH r ltac:(lia)). lia.
  - destruct (b =? 34); [lia|]. specialize (IH r ltac:(lia)). lia.
Qed.

Lemma scan_number_pos b r : (b =? 45) || is_digit b = true -> (0 < scan_json_number (b :: r))%nat.
Proof.
  intros H. enough (0 < scan_json_integer (b :: r))%nat by (unfold scan_json_number; cbv zeta; lia).
  unfold scan_json_integer. cbn [starts_byte]. destruct (b =? 45); [lia|]. cbn [orb] in H. cbn [drop starts_byte].
  destruct (b =? 48); [lia|]. cbn [scan_ascii_digits]. rewrite H. lia.
Qed.

Lemma scan_loop_fuel n m bs : (length bs <= n)%nat -> (length bs <= m)%nat -> scan_loop n bs = scan_loop m bs.
Proof.
  revert m bs. induction n as [|n IH]; intros [|m] [|b r] Hn Hm; cbn [length] in *; try done; try lia.
  cbn [scan_loop]. destruct (b =? 34); [pose proof (skip_le r); apply IH; lia|].
  destruct ((b =? 45) || is_digit b) eqn:E; [|apply IH; lia].
  pose proof (scan_number_pos b r E). f_equal. apply IH; rewrite length_drop; cbn [length]; lia.
Qed.

Lemma scan_string r : scan_json_numbers (34 :: r) = scan_json_numbers (skip_json_string r).
Proof. unfold scan_json_numbers. cbn [length scan_loop]. pose proof (skip_le r). apply scan_loop_fuel; lia. Qed.

Lemma scan_number b r : (b =? 45) || is_digit b = true ->
  scan_json_numbers (b :: r) = take (scan_json_number (b :: r)) (b :: r) :: scan_json_numbers (drop (scan_json_number (b :: r)) (b :: r)).
Proof.
  intros H. unfold scan_json_numbers. cbn [length scan_loop].
  assert ((b =? 34) = false) as ->.
  { apply Z.eqb_neq. intros ->. done. }
  rewrite H. pose proof (scan_number_pos b r H). f_equal. apply scan_loop_fuel; rewrite length_drop; cbn [length]; lia.
Qed.

(** Bytes that start neither a string nor a number. *)
Definition structural (b : Z) : bool := negb ((b =? 34) || (b =? 45) || is_digit b).

Lemma scan_structural bs r : forallb structural bs = true -> scan_json_numbers (bs ++ r) = scan_json_numbers r.
Proof.
  induction bs as [|b bs IH]; [done|]. cbn [forallb]. intros [Hb H]%andb_true_iff. cbn [app].
  unfold scan_json_numbers at 1. cbn [length scan_loop]. unfold structural in Hb.
  apply negb_true_iff, orb_false_iff in Hb as [[H1 H2]%orb_false_iff H3]. rewrite H1, H2, H3. cbn [orb]. by apply IH.
Qed.

(** ** Numbers, strings and what follows them *)

(** The spelling of a number: the scanner takes it whole. *)
Definition number_ok (s : text) : Prop :=
  Forall (fun c => 0 <= c < 128) s /\ scan_json_number s = length s /\
  match s with b :: _ => (b =? 45) || is_digit b = true | [] => False end.

(** What can follow a value: nothing, or bytes that cannot continue a number. *)
Definition closed (r : list Z) : bool :=
  match r with b :: _ => negb (in_number b) | [] => true end.

Lemma closed_byte r b : closed (b :: r) = true -> is_digit b = false /\ (b =? 46) = false /\
  (b =? 101) || (b =? 69) = false /\ is_sign b = false.
Proof.
  cbn [closed]. unfold in_number. intros H%negb_true_iff.
  repeat (apply orb_false_iff in H as [H ?]). unfold is_sign. split_and!; try done; by apply orb_false_iff.
Qed.

Lemma digits_app bs r : closed r = true -> scan_ascii_digits (bs ++ r) = scan_ascii_digits bs.
Proof.
  intros Hr. induction bs as [|b bs IH]; cbn [app scan_ascii_digits].
  - destruct r as [|c r]; [done|]. apply closed_byte in Hr as (H & _). cbn [scan_ascii_digits]. by rewrite H.
  - by rewrite IH.
Qed.

Lemma starts_app b bs r : bs <> [] -> starts_byte b (bs ++ r) = starts_byte b bs.
Proof. by destruct bs. Qed.

Lemma closed_starts b r : closed r = true -> in_number b = true -> starts_byte b r = false.
Proof. destruct r as [|c r]; [done|]. cbn [closed starts_byte]. intros H Hb. apply not_true_iff_false. intros ->%Z.eqb_eq. by rewrite Hb in H. Qed.

Lemma integer_app bs r : closed r = true -> bs <> [] -> scan_json_integer (bs ++ r) = scan_json_integer bs.
Proof.
  intros Hr Hne. unfold scan_json_integer. rewrite (starts_app 45) by done.
  assert (drop (if starts_byte 45 bs then 1 else 0)%nat (bs ++ r) = drop (if starts_byte 45 bs then 1 else 0)%nat bs ++ r) as ->.
  { destruct (starts_byte 45 bs); [|done]. by destruct bs. }
  rewrite digits_app by done. destruct (drop _ bs) as [|c bs'] eqn:E; [|done]. cbn [app].
  by rewrite (closed_starts 48 r).
Qed.

Lemma fraction_app bs r : closed r = true -> scan_json_fraction (bs ++ r) = scan_json_fraction bs.
Proof.
  intros Hr. destruct bs as [|b bs]; cbn [app].
  - destruct r as [|c r]; [done|]. apply closed_byte in Hr as (_ & H & _). cbn [scan_json_fraction]. by rewrite H.
  - cbn [scan_json_fraction]. by rewrite digits_app.
Qed.

Lemma exponent_app bs r : closed r = true -> scan_json_exponent (bs ++ r) = scan_json_exponent bs.
Proof.
  intros Hr. destruct bs as [|b bs]; cbn [app].
  - destruct r as [|c r]; [done|]. apply closed_byte in Hr as (_ & _ & H & _). cbn [scan_json_exponent]. by rewrite H.
  - cbn [scan_json_exponent]. destruct bs as [|c bs]; cbn [app].
    + destruct r as [|c r]; [done|]. apply closed_byte in Hr as (Hd & _ & _ & Hs). rewrite Hs. cbn [drop scan_ascii_digits].
      by rewrite Hd.
    + change (drop (if is_sign c then 1 else 0)%nat (c :: bs ++ r)) with (drop (if is_sign c then 1 else 0)%nat ((c :: bs) ++ r)).
      assert (drop (if is_sign c then 1 else 0)%nat ((c :: bs) ++ r) = drop (if is_sign c then 1 else 0)%nat (c :: bs) ++ r) as ->
        by (by destruct (is_sign c)).
      by rewrite digits_app.
Qed.

Lemma fraction_le bs : (scan_json_fraction bs <= length bs)%nat.
Proof.
  destruct bs as [|b r]; [done|]. cbn [scan_json_fraction length]. destruct (b =? 46); [|lia].
  pose proof (scan_digits_le r). destruct (scan_ascii_digits r); lia.
Qed.

Lemma number_app bs r : closed r = true -> bs <> [] -> scan_json_number (bs ++ r) = scan_json_number bs.
Proof.
  intros Hr Hne. unfold scan_json_number. cbv zeta. rewrite integer_app by done.
  pose proof (scan_integer_le bs) as Hi. rewrite !drop_app_le by lia.
  rewrite fraction_app by done. pose proof (fraction_le (drop (scan_json_integer bs) bs)) as Hf. rewrite length_drop in Hf.
  rewrite drop_app_le by lia. by rewrite exponent_app.
Qed.

Lemma scan_number_token s r : number_ok s -> closed r = true -> scan_json_numbers (utf8 s ++ r) = utf8 s :: scan_json_numbers r.
Proof.
  intros (Ha & Hs & Hh) Hr. rewrite utf8_ascii by done. destruct s as [|b s]; [done|]. cbn [app].
  rewrite scan_number by done. change (b :: s ++ r) with ((b :: s) ++ r). rewrite number_app, Hs by done.
  by rewrite take_app_length, drop_app_length.
Qed.

(** A string literal: between quotes, bytes other than a quote and a backslash, or
    escapes of one ASCII character. *)
Inductive literal_body : text -> Prop :=
| body_end : literal_body [34]
| body_char c s : scalar c -> c <> 34 -> c <> 92 -> literal_body s -> literal_body (c :: s)
| body_escape c s : 0 <= c < 128 -> literal_body s -> literal_body (92 :: c :: s).

Definition string_literal (q : text) : Prop := exists s, q = 34 :: s /\ literal_body s.

Lemma skip_char c r : scalar c -> c <> 34 -> c <> 92 -> skip_json_string (utf8_char c ++ r) = skip_json_string r.
Proof.
  intros Hc H1 H2. destruct (decide (c < 128)) as [Hl|Hl].
  - rewrite utf8_small by (apply scalar_range in Hc; lia). cbn [app skip_json_string].
    by rewrite (proj2 (Z.eqb_neq c 92)), (proj2 (Z.eqb_neq c 34)).
  - assert (Forall (fun b => 128 <= b) (utf8_char c)) as Hb.
    { apply scalar_range in Hc. unfold utf8_char. repeat case_match; ranges; repeat constructor; euclid. }
    induction Hb as [|b bs Hb _ IH]; [done|]. cbn [app skip_json_string].
    by rewrite (proj2 (Z.eqb_neq b 92)), (proj2 (Z.eqb_neq b 34)) by lia.
Qed.

Lemma skip_body s r : literal_body s -> skip_json_string (utf8 s ++ r) = r.
Proof.
  induction 1 as [|c s Hc H1 H2 _ IH|c s Hc _ IH].
  - done.
  - cbn [utf8 flat_map]. rewrite <- app_assoc. rewrite skip_char by done. apply IH.
  - cbn [utf8 flat_map]. rewrite (utf8_small 92), (utf8_small c) by lia. cbn [app skip_json_string]. apply IH.
Qed.

Lemma scan_literal q r : string_literal q -> scan_json_numbers (utf8 q ++ r) = scan_json_numbers r.
Proof.
  intros (s & -> & Hs). cbn [utf8 flat_map]. rewrite (utf8_small 34) by lia. cbn [app]. rewrite scan_string.
  f_equal. by apply skip_body.
Qed.

(** A 64-bit integer is spelled as a number. *)
Lemma digits_all bs : Forall (fun c => 48 <= c <= 57) bs -> scan_ascii_digits bs = length bs.
Proof.
  induction 1 as [|b bs Hb _ IH]; [done|]. cbn [scan_ascii_digits length]. unfold is_digit.
  rewrite (proj2 (in_range_true 48 57 b)) by lia. by rewrite IH.
Qed.

Lemma unsigned_scan n : 0 <= n <= usize_max -> scan_json_integer (decimal 20 n) = length (decimal 20 n) /\
  starts_byte 45 (decimal 20 n) = false.
Proof.
  intros Hn. pose proof (decimal_digits 20 n ltac:(lia)) as Hd. unfold scan_json_integer.
  assert (starts_byte 45 (decimal 20 n) = false) as Hs.
  { destruct Hd as [|c r Hc _]; [done|]. cbn [starts_byte]. apply Z.eqb_neq. lia. }
  rewrite Hs, drop_0. split; [|done]. cbn [Nat.add]. destruct (decide (n = 0)) as [->|Hz]; [done|].
  destruct (decimal_leading 19 n) as (c & r & E & Hc); [unfold usize_max in Hn; cbn; lia|]. rewrite E in *.
  cbn [starts_byte]. rewrite (proj2 (Z.eqb_neq c 48)) by done. by apply digits_all.
Qed.

Lemma number_of_integer s : scan_json_integer s = length s -> scan_json_number s = length s.
Proof.
  intros H. unfold scan_json_number. cbv zeta. rewrite H, drop_all. cbn [scan_json_fraction].
  rewrite Nat.add_0_r, drop_all. cbn [scan_json_exponent]. lia.
Qed.

Lemma int_number_ok i : is_i64 i -> number_ok (mux_int_to_string i).
Proof.
  intros Hi. unfold mux_int_to_string. destruct (i <? 0) eqn:E; bool_to_prop.
  - destruct (unsigned_scan (- i)) as [Hs H45]; [unfold usize_max; width|].
    pose proof (decimal_digits 20 (- i) ltac:(lia)) as Hd. split_and!; [| |done].
    + constructor; [lia|]. eapply Forall_impl; [exact Hd|]. intros c Hc. cbv beta in Hc. lia.
    + apply number_of_integer. unfold scan_json_integer in *. rewrite H45 in Hs. cbn [starts_byte]. change (45 =? 45) with true. cbn iota.
      change (drop 1 (45 :: decimal 20 (- i))) with (decimal 20 (- i)). rewrite drop_0 in Hs. cbn [Nat.add] in Hs. cbn [length]. lia.
  - destruct (unsigned_scan i) as [Hs H45]; [unfold usize_max; width|].
    pose proof (decimal_digits 20 i ltac:(lia)) as Hd. split_and!.
    + eapply Forall_impl; [exact Hd|]. intros c Hc. cbv beta in Hc. lia.
    + by apply number_of_integer.
    + destruct (decimal_head 19 i ltac:(lia)) as (c & r & -> & Hc). unfold is_digit.
      rewrite (proj2 (in_range_true 48 57 c)) by lia. by rewrite orb_true_r.
Qed.

(** ** Documents *)

Inductive json_ok : Json -> Prop :=
| ok_null : json_ok JNull
| ok_bool b : json_ok (JBool b)
| ok_int i : is_i64 i -> json_ok (JInt i)
| ok_float f : json_ok (JFloat f)
| ok_number i raw : number_ok raw -> json_ok (JNumber i raw)
| ok_string s : Forall scalar s -> json_ok (JString s)
| ok_array items : Forall json_ok items -> json_ok (JArray items)
| ok_object entries : Forall (fun e => Forall scalar e.1 /\ json_ok e.2) entries -> json_ok (JObject entries).

(** A piece of text with the numbers in it, whatever follows. *)
Definition piece (s : text) (out : list text) : Prop :=
  forall r, closed r = true -> scan_json_numbers (utf8 s ++ r) = (utf8 <$> out) ++ scan_json_numbers r.

(** Structural text that nothing in front of it can run into. *)
Definition separator_ok (s : text) : Prop :=
  Forall (fun c => 0 <= c < 128) s /\ forallb structural s = true.

Lemma scan_separator s r : separator_ok s -> scan_json_numbers (utf8 s ++ r) = scan_json_numbers r.
Proof. intros [Ha Hs]. rewrite utf8_ascii by done. by apply scan_structural. Qed.

Lemma piece_prefix p s out : separator_ok p -> piece s out -> piece (p ++ s) out.
Proof. intros Hp Hs r Hr. rewrite utf8_app, <- app_assoc, scan_separator by done. by apply Hs. Qed.

Lemma closed_app s r : separator_ok s -> s <> [] -> closed s = true -> closed (utf8 s ++ r) = true.
Proof. intros [Ha _] Hne Hc. rewrite utf8_ascii by done. by destruct s. Qed.

(** A value, a separator that closes it, and more text. *)
Lemma piece_then s out sep rest r : piece s out -> separator_ok sep -> sep <> [] -> closed sep = true ->
  scan_json_numbers (utf8 (s ++ sep ++ rest) ++ r) = (utf8 <$> out) ++ scan_json_numbers (utf8 rest ++ r).
Proof.
  intros Hs Hsep Hne Hc. rewrite !utf8_app, <- !app_assoc. rewrite Hs by by apply closed_app.
  by rewrite scan_separator.
Qed.

Lemma piece_join sep parts outs : separator_ok sep -> sep <> [] -> closed sep = true ->
  Forall2 piece parts outs -> piece (join sep parts) (concat outs).
Proof.
  intros Hs Hne Hc H. induction H as [|p out parts outs Hp _ IH]; [done|].
  destruct parts as [|q parts].
  - intros r Hr. cbn [join concat]. rewrite (Hp r Hr). 
    assert (concat outs = []) as ->; [|by rewrite app_nil_r].
    specialize (IH [] eq_refl). cbn in IH. rewrite app_nil_r in IH. by destruct (concat outs).
  - intros r Hr. rewrite join_cons by done. rewrite piece_then with (out := out) by done. rewrite IH by done.
    cbn [concat]. by rewrite fmap_app, <- app_assoc.
Qed.

Section Recovered.
Context (quote : text -> text) (float_text : Z -> text).
Context (quote_literal : forall s, Forall scalar s -> string_literal (quote s)) (float_number : forall f, number_ok (float_text f)).

Lemma piece_number s : number_ok s -> piece s [s].
Proof. intros H r Hr. by rewrite scan_number_token. Qed.

Lemma piece_literal s : Forall scalar s -> piece (quote s) [].
Proof. intros Hs r Hr. by rewrite scan_literal by by apply quote_literal. Qed.

Lemma pad_ok n : separator_ok (repeat 32 n).
Proof. split; (induction n as [|n IH]; [done|]); [constructor; [lia|exact IH]|exact IH]. Qed.

(** A bracketed list of pieces. *)
Lemma piece_bracket open close sep parts outs :
  separator_ok [open] -> separator_ok close -> close <> [] -> closed close = true ->
  separator_ok sep -> sep <> [] -> closed sep = true ->
  Forall2 piece parts outs -> piece (open :: join sep parts ++ close) (concat outs).
Proof.
  intros Ho Hc Hne Hcl Hs Hsne Hscl H. apply (piece_prefix [open]); [done|]. intros r Hr.
  rewrite <- (app_nil_r close), (piece_then _ (concat outs)); [done| |done..]. by apply piece_join.
Qed.

Lemma pieces_padded n parts outs : Forall2 piece parts outs -> Forall2 piece (map (fun c => repeat 32 n ++ c) parts) outs.
Proof. induction 1; constructor; [|done]. apply piece_prefix; [apply pad_ok|done]. Qed.

Lemma literal_separator s : forallb (fun c => in_range 0 127 c && structural c) s = true -> separator_ok s.
Proof.
  intros H. rewrite forallb_forall in H. split.
  - apply Forall_forall. intros c Hc%list_elem_of_In%H. apply andb_true_iff in Hc as [Hc _]. ranges. lia.
  - apply forallb_forall. intros c Hc%H. by apply andb_true_iff in Hc as [_ Hc].
Qed.

(** Both layouts of a bracketed list. *)
Lemma piece_layout open close parts outs indent depth :
  separator_ok [open] -> separator_ok [close] -> closed [close] = true -> Forall2 piece parts outs ->
  piece (match indent with
         | None => open :: join [44] parts ++ [close]
         | Some width =>
             open :: 10 :: join [44; 10] (map (fun c => repeat 32 (width * S depth) ++ c) parts) ++
               [10] ++ repeat 32 (width * depth) ++ [close]
         end) (concat outs).
Proof.
  intros Ho Hc Hcl H. destruct indent as [width|].
  - apply (piece_prefix [open]); [done|]. apply (piece_bracket 10); try done; try by apply literal_separator.
    + destruct Hc as [Hc1 Hc2]. destruct (pad_ok (width * depth)) as [P1 P2]. split.
      * repeat apply Forall_app_2; [repeat constructor; lia|done|done].
      * rewrite !forallb_app, P2, Hc2. done.
    + by apply pieces_padded.
  - apply piece_bracket; try done. by apply literal_separator.
Qed.

Lemma render_pieces v : json_ok v -> forall indent depth,
  piece (render_json quote float_text v indent depth) (numbers float_text v).
Proof.
  induction v as [| | | | | |items IH|entries IH] using Json_nested_ind; intros Hok indent depth; inversion Hok; subst; cbn [render_json numbers].
  - intros r Hr. by rewrite scan_separator by by apply literal_separator.
  - intros r Hr. destruct b; by rewrite scan_separator by by apply literal_separator.
  - by apply piece_number, int_number_ok.
  - by apply piece_number.
  - by apply piece_number.
  - by apply piece_literal.
  - destruct items as [|v items]; [intros r Hr; by rewrite scan_separator by by apply literal_separator|].
    rewrite flat_map_concat_map. apply (piece_layout 91 93); try done; try by apply literal_separator.
    match goal with H : Forall json_ok _ |- _ => rename H into Hall end.
    revert IH Hall. generalize (v :: items). intros l. induction l as [|x l IHl]; intros IH Hall; [constructor|].
    apply Forall_cons in IH as [IHx IH], Hall as [Hx Hall]. constructor; [by apply IHx|]. by apply IHl.
  - destruct entries as [|e entries]; [intros r Hr; by rewrite scan_separator by by apply literal_separator|].
    rewrite flat_map_concat_map. apply (piece_layout 123 125); try done; try by apply literal_separator.
    match goal with H : Forall _ (e :: entries) |- _ => rename H into Hall end.
    revert IH Hall. generalize (e :: entries). intros l. induction l as [|[k x] l IHl]; intros IH Hall; [constructor|].
    apply Forall_cons in IH as [IHx IH], Hall as [[Hk Hx] Hall]. constructor; [|by apply IHl].
    intros r Hr. assert (separator_ok (match indent with Some _ => [58; 32] | None => [58] end)) as Hsep
      by (destruct indent; by apply literal_separator).
    rewrite (piece_then (quote k) []); [|by apply piece_literal|done|by destruct indent|by destruct indent].
    by apply IHx.
Qed.

(** The scanner recovers every number of a rendered document.  For any document with
    64-bit integers, and any indentation, scanning the rendered bytes finds exactly the
    spellings of its numbers, in document order: nothing inside strings and keys,
    whatever they hold, and no number cut short or run together. *)
Lemma json_numbers_recovered (v : Json) (indent : option nat) :
  json_ok v -> scan_json_numbers (utf8 (stringify quote float_text v indent)) = utf8 <$> numbers float_text v.
Proof.
  intros H. rewrite <- (app_nil_r (utf8 _)). unfold stringify. rewrite (render_pieces v H indent 0 [] eq_refl).
  cbn. by rewrite app_nil_r.
Qed.

End Recovered.

Definition plain_quote (s : text) : text := 34 :: flat_map (fun c => if (c =? 34) || (c =? 92) then [92; c] else [c]) s ++ [34].

Lemma plain_quote_literal s : Forall scalar s -> string_literal (plain_quote s).
Proof.
  intros H. eexists. split; [done|]. induction H as [|c s Hc _ IH]; cbn [flat_map app]; [constructor|].
  destruct ((c =? 34) || (c =? 92)) eqn:E; cbn [app].
  - constructor; [|done]. apply orb_true_iff in E as [E|E]; apply Z.eqb_eq in E; lia.
  - apply orb_false_iff in E as [E1 E2]. constructor; [done|by apply Z.eqb_neq..|done].
Qed.

(** * Reading JSON ([src/src/json.rs])

    [serde_json] walks the input and calls a visitor; the visitor resolves repeated
    members by a policy and gives every number its position among the numbers of the
    input, whose exact spellings come from a scan of the text.  Then the tree is
    converted, a number becoming an integer or a float when that keeps its spelling.

    The deserializer is the interface [Serde]: the calls it makes for an input, as a
    tree, and its error texts.  It does not look at what the visitor answers, except
    that an error ends the walk. *)

(** What [deserialize_any] calls: [visit_unit], [visit_bool], [visit_i64] or [visit_u64],
    [visit_f64], [visit_str], [visit_seq] and [visit_map] (the elements that are handed
    out, then the end or an error), or an error in place of a call. *)
Inductive Raw : Type :=
| RUnit
| RBool (b : bool)
| RInt
| RFloat (finite : bool)
| RStr (s : text)
| RSeq (items : list Raw) (stop : option string)
| RMap (members : list (text * Raw)) (stop : option string)
| RError (e : string).

Class Serde := {
  deserialize : text -> Raw;
  (** [Deserializer::end]. *)
  trailing : text -> option string;
  (** The text of an error that the visitor raised: serde adds the position. *)
  custom_error : text -> string -> string;
  (** [serde_json::from_str::<String>] and [serde_json::to_string] of a string. *)
  string_of_literal : text -> result text string;
  quote : text -> text;
  (** [str::parse::<serde_json::Number>]: the number as an [f64] and its own spelling. *)
  number_of_text : text -> option (Z * text);
  (** The spelling of a finite [f64]. *)
  float_text : Z -> text;
}.

Inductive JsonDuplicatePolicy : Type := Reject | First | Last.
#[export] Instance policy_eq_dec : EqDecision JsonDuplicatePolicy.
Proof. solve_decision. Defined.

(** [i32::from_ne_bytes] on a little-endian machine. *)
Definition i32_of_bytes (bs : list Z) : Z :=
  let u := foldr (fun b n => b + 256 * n) 0 (take 4 bs) in if u <? 2 ^ 31 then u else u - 2 ^ 32.

Definition json_duplicate_policy_from_value (v : option value) : result JsonDuplicatePolicy string :=
  match v with
  | None => Err "JSON duplicate-key policy is required"
  | Some v =>
      let? bytes :=
        match v with
        | VOpaque bytes => Ok bytes
        | VBoxedEnum e => Ok (be_bytes e)
        | _ => Err "JSON duplicate-key policy must be JsonDuplicatePolicy"
        end in
      if Z.of_nat (length bytes) <? 4 then Err "invalid JSON duplicate-key policy"
      else
        let i := i32_of_bytes bytes in
        if i =? 0 then Ok Reject else if i =? 1 then Ok First else if i =? 2 then Ok Last
        else Err "invalid JSON duplicate-key policy"
  end.

Inductive ParsedJson : Type :=
| PNull
| PBool (b : bool)
| PNumber (index : nat)
| PString (s : text)
| PArray (items : list ParsedJson)
| PObject (entries : list (text * ParsedJson)).

(** An error of the walk: the visitor's own, or serde's. *)
Inductive walk_error : Type := Custom (e : string) | Syntax (e : string).

Definition duplicate_key (key : text) : string :=
  "duplicate object key '" +:+ String.string_of_list_ascii ((fun b => Ascii.ascii_of_nat (Z.to_nat b)) <$> utf8 key) +:+ "'".

(** [Ok] when the deserializer hands out nothing more. *)
Definition walk_end {A} (stop : option string) (a : A) : result A walk_error :=
  match stop with Some e => Err (Syntax e) | None => Ok a end.

Definition contains_member {A} (key : text) (values : list (text * A)) : bool :=
  match al_get text_eqb key values with Some _ => true | None => false end.

Section Visitor.
Context (policy : JsonDuplicatePolicy).

(** [take_number]: the index, and the index to come. *)
Definition take_number (number_index : nat) : nat * nat := (number_index, S number_index).
Definition visit_number (number_index : nat) : result (ParsedJson * nat) walk_error :=
  let '(index, next) := take_number number_index in Ok (PNumber index, next).

(** The loops of [visit_seq] and [visit_map], with the [deserialize] of the elements. *)
Section Loops.
Context (visit : Raw -> nat -> result (ParsedJson * nat) walk_error).

Fixpoint visit_seq (items : list Raw) (stop : option string) (n : nat) : result (list ParsedJson * nat) walk_error :=
  match items with
  | [] => walk_end stop ([], n)
  | item :: items =>
      let? (value, n) := visit item n in
      let? (values, n) := visit_seq items stop n in
      Ok (value :: values, n)
  end.

Fixpoint visit_map (members : list (text * Raw)) (stop : option string) (values : list (text * ParsedJson)) (n : nat) :
    result (list (text * ParsedJson) * nat) walk_error :=
  match members with
  | [] => walk_end stop (values, n)
  | (key, raw) :: members =>
      let duplicate := contains_member key values in
      if duplicate && bool_decide (policy = Reject) then Err (Custom (duplicate_key key))
      else
        let? (value, n) := visit raw n in
        visit_map members stop
          (if duplicate && bool_decide (policy = First) then values else al_insert text_eqb key value values) n
  end.
End Loops.

(** [JsonParseSeed::deserialize] with the methods of the visitor. *)
Fixpoint visit (raw : Raw) (number_index : nat) : result (ParsedJson * nat) walk_error :=
  match raw with
  | RUnit => Ok (PNull, number_index)
  | RBool b => Ok (PBool b, number_index)
  | RInt => visit_number number_index
  | RFloat finite => if finite then visit_number number_index else Err (Custom "JSON numbers must be finite")
  | RStr s => Ok (PString s, number_index)
  | RSeq items stop => let? (values, n) := visit_seq visit items stop number_index in Ok (PArray values, n)
  | RMap members stop => let? (values, n) := visit_map visit members stop [] number_index in Ok (PObject values, n)
  | RError e => Err (Syntax e)
  end.

End Visitor.

(** ** Conversion *)

Definition spells_real (raw : text) : bool := existsb (fun c => (c =? 46) || (c =? 101) || (c =? 69)) raw.

(** An [f64] by its bits. *)
Definition exponent_bits (f : Z) : Z := Z.land (Z.shiftr f 52) 2047.
Definition is_finite (f : Z) : bool := negb (exponent_bits f =? 2047).
Definition is_nan (f : Z) : bool := (exponent_bits f =? 2047) && negb (Z.land f (2 ^ 52 - 1) =? 0).

Section Parse.
Context `{Serde}.

(** [Number::from_f64], spelled; a float that is not finite renders as [null]. *)
Definition float_spelling (f : Z) : text := if is_finite f then float_text f else txt "null".
(** [Json::stringify]. *)
Definition json_text (j : Json) (indent : option nat) : text := stringify quote float_spelling j indent.

(** The float that a spelling stands for when serde spells it the same way. *)
Definition parsed_float (raw : text) : option Z :=
  match number_of_text raw with
  | Some (value, canonical) => if text_eqb canonical raw then Some value else None
  | None => None
  end.

(** A number that stays a spelling has no object yet, hence no identity. *)
Definition parsed_number (raw : text) : Json :=
  let rest :=
    if negb (spells_real raw) then JNumber 0 raw
    else match parsed_float raw with Some value => JFloat value | None => JNumber 0 raw end in
  match from_str_radix 10 raw with
  | Some value => if text_eqb (mux_int_to_string value) raw then JInt value else rest
  | None => rest
  end.

Definition accounting_failed : string := "JSON number token accounting failed".

(** The two loops over children. *)
Definition collect_items {A B} (convert : A -> result B string) : list A -> result (list B) string :=
  fix go items :=
    match items with
    | [] => Ok []
    | item :: items => let? j := convert item in let? js := go items in Ok (j :: js)
    end.
Definition collect_members {A B} (convert : A -> result B string) :
    list (text * A) -> list (text * B) -> result (list (text * B)) string :=
  fix go members m :=
    match members with
    | [] => Ok m
    | (k, v) :: members => let? j := convert v in go members (al_insert text_eqb k j m)
    end.

Fixpoint convert_parsed_value (v : ParsedJson) (number_tokens : list text) : result Json string :=
  match v with
  | PNull => Ok JNull
  | PBool b => Ok (JBool b)
  | PNumber index =>
      match number_tokens !! index with
      | Some raw => Ok (parsed_number raw)
      | None => Err accounting_failed
      end
  | PString s => Ok (JString s)
  | PArray items =>
      let? js := collect_items (fun v => convert_parsed_value v number_tokens) items in Ok (JArray js)
  | PObject entries =>
      let? m := collect_members (fun v => convert_parsed_value v number_tokens) entries [] in Ok (JObject m)
  end.

(** [Json::parse_with_policy]. *)
Definition parse_with_policy (input : text) (policy : JsonDuplicatePolicy) : result Json string :=
  if MAX_JSON_INPUT_BYTES <? byte_len input then Err "JSON input exceeds the 16 MiB limit"
  else
    let? _ := enforce_json_token_limit (utf8 input) in
    let number_tokens := scan_json_numbers (utf8 input) in
    match visit policy (deserialize input) 0 with
    | Err (Custom e) => Err (custom_error input e)
    | Err (Syntax e) => Err e
    | Ok (value, number_index) =>
        match trailing input with
        | Some e => Err e
        | None =>
            if negb (number_index =? length number_tokens)%nat then Err accounting_failed
            else convert_parsed_value value number_tokens
        end
    end.

(** [Json::parse]. *)
Definition parse (input : text) : result Json string := parse_with_policy input Reject.

(** ** Tokens *)

Inductive JsonTokenKind : Type :=
| StartObject | EndObject | StartArray | EndArray | Colon | Comma | String_ | Number | Bool | Null.

(** [JsonTokenKind::value]: the discriminant as four octets, little-endian. *)
Definition kind_number (k : JsonTokenKind) : Z :=
  match k with
  | StartObject => 0 | EndObject => 1 | StartArray => 2 | EndArray => 3 | Colon => 4 | Comma => 5
  | String_ => 6 | Number => 7 | Bool => 8 | Null => 9
  end.
Definition kind_value (k : JsonTokenKind) : value := VOpaque [kind_number k; 0; 0; 0].

Inductive JsonTokenValue : Type :=
| TokNull
| TokBool (b : bool)
| TokNumber (raw : text)
| TokString (s : text).

Record JsonTokenEntry : Type := mk_token {
  tok_kind : JsonTokenKind;
  tok_text : text;
  tok_value : option JsonTokenValue;
  tok_names : Z;
}.

(** [&input[start..end]]: a panic, [None], when the cut is inside a character. *)
Definition str_slice (bs : list Z) : option text := utf8_decode bs.

(** The arm of the octet at the front: the kind, the value and the number of octets.
    [position] is the index the error reports. *)
Definition token_at (bs : list Z) (position : Z) : option (result (JsonTokenKind * option JsonTokenValue * nat) string) :=
  match bs with
  | [] => Some (Err "")
  | b :: r =>
      let punctuation k := Some (Ok (k, None, 1%nat)) in
      if b =? 123 then punctuation StartObject
      else if b =? 125 then punctuation EndObject
      else if b =? 91 then punctuation StartArray
      else if b =? 93 then punctuation EndArray
      else if b =? 58 then punctuation Colon
      else if b =? 44 then punctuation Comma
      else if b =? 34 then
        let n := (length bs - length (drop_string false r))%nat in
        if negb (bool_decide (last (take n bs) = Some 34)) then Some (Err "unterminated JSON string token")
        else
          raw ← str_slice (take n bs);
          Some (match string_of_literal raw with
                | Err e => Err ("invalid JSON string token: " +:+ e)
                | Ok parsed => Ok (String_, Some (TokString parsed), n)
                end)
      else if (b =? 45) || is_digit b then
        let n := (length bs - length (drop_number r))%nat in
        raw ← str_slice (take n bs);
        Some (match parse raw with
              | Err e => Err e
              | Ok (JInt _ | JFloat _ | JNumber _ _) => Ok (Number, Some (TokNumber raw), n)
              | Ok _ => Err "invalid JSON number token"
              end)
      else if is_prefix (txt "true") bs then Some (Ok (Bool, Some (TokBool true), 4%nat))
      else if is_prefix (txt "false") bs then Some (Ok (Bool, Some (TokBool false), 5%nat))
      else if is_prefix (txt "null") bs then Some (Ok (Null, Some TokNull, 4%nat))
      else Some (Err ("invalid JSON token at byte " +:+ pretty position))
  end.

(** The loop of [scan_json_tokens] on an input of [total] octets; a round takes an octet. *)
Fixpoint token_loop (fuel : nat) (total : Z) (bs : list Z) (tokens : list JsonTokenEntry) :
    option (result (list JsonTokenEntry) string) :=
  match fuel, bs with
  | O, _ | _, [] => Some (Ok tokens)
  | S fuel, b :: r =>
      if is_ascii_whitespace b then token_loop fuel total r tokens
      else
        scanned ← token_at bs (total - Z.of_nat (length bs));
        match scanned with
        | Err e => Some (Err e)
        | Ok (kind, value, n) =>
            spelling ← str_slice (take n bs);
            if MAX_JSON_TOKENS <=? Z.of_nat (length tokens) then
              Some (Err "JSON token stream exceeds the one-million-token limit")
            else token_loop fuel total (drop n bs) (tokens ++ [mk_token kind spelling value 0])
        end
  end.

Definition scan_json_tokens (input : text) : option (result (list JsonTokenEntry) string) :=
  match parse input with
  | Err e => Some (Err e)
  | Ok _ => token_loop (length (utf8 input)) (Z.of_nat (length (utf8 input))) (utf8 input) []
  end.

End Parse.
