(* ===== verification/JsonValue.v ===== *)
(** * JSON and runtime values ([src/src/json.rs])

    The conversions between the document tree and runtime values, the table behind the
    numbers that are kept as spellings, the accessors, and the entry points that parse
    and print.  A number object stores a handle into the table; its address is what a
    reference to it carries.  What [alloc_object] answers is the class [NumberHeap].
    Errors are the details of the [JsonError] that is raised. *)

From S2P Require Import Prelude AssocList Object Value Heap Display DynValue Str Utf8 Stream Http HttpProps Cli CliProps Json JsonParse.

(** ** Exact numbers *)

(** [JSON_NUMBERS] (spelling and names), [NEXT_JSON_NUMBER], and by address the handle in
    each live number object. *)
Record numbers_state : Type := mk_numbers {
  number_entries : gmap Z (text * Z);
  next_number : Z;
  number_objects : gmap Z Z;
}.
Definition no_numbers : numbers_state := mk_numbers ∅ 1 ∅.

Class NumberHeap := {
  JSON_NUMBER_TYPE_ID : TypeId;
  alloc_number : numbers_state -> option ObjectRef;
}.

Definition octets_of (s : text) : string := string_of_octets (utf8 s).
(** A [String] is well-formed UTF-8. *)
Definition text_of (s : string) : text := match utf8_decode (txt s) with Some t => t | None => [] end.

(** [checked_add(1).unwrap_or(1)]. *)
Definition next_or_one (n : Z) : Z := if n =? i64_max then 1 else n + 1.

Section Numbers.
Context `{NumberHeap}.
Implicit Types w : numbers_state.

Definition set_entries (m : gmap Z (text * Z)) w : numbers_state := mk_numbers m (next_number w) (number_objects w).

Definition json_number_value (raw : text) w : value * numbers_state :=
  let handle := next_number w in
  let w := mk_numbers (<[handle := (raw, 1)]> (number_entries w)) (next_or_one handle) (number_objects w) in
  match alloc_number w with
  | None => (VUnit, set_entries (delete handle (number_entries w)) w)
  | Some o =>
      if obj_ptr o =? 0 then (VUnit, set_entries (delete handle (number_entries w)) w)
      else (VObject o, mk_numbers (number_entries w) (next_number w) (<[obj_ptr o := handle]> (number_objects w)))
  end.

Definition json_number_handle (v : option value) w : option Z :=
  if negb (get_object_type_id v =? JSON_NUMBER_TYPE_ID) then None
  else if get_object_ptr v =? 0 then None
  else
    handle ← number_objects w !! get_object_ptr v;
    if bool_decide (is_Some (number_entries w !! handle)) then Some handle else None.

Definition json_number_raw (v : option value) w : option text :=
  handle ← json_number_handle v w; fst <$> number_entries w !! handle.

(** The copy hook of the class, on the addresses of the objects. *)
Definition copy_json_number (source dest : Z) w : numbers_state :=
  if (source =? 0) || (dest =? 0) then w
  else
    match number_objects w !! source with
    | None => w
    | Some handle =>
        match number_entries w !! handle with
        | Some (raw, names) =>
            mk_numbers (<[handle := (raw, names + 1)]> (number_entries w)) (next_number w) (<[dest := handle]> (number_objects w))
        | None => mk_numbers (number_entries w) (next_number w) (<[dest := 0]> (number_objects w))
        end
    end.

(** The destructor; the object goes with it. *)
Definition drop_json_number (p : Z) w : numbers_state :=
  if p =? 0 then w
  else
    match number_objects w !! p with
    | None => w
    | Some handle =>
        let entries :=
          match number_entries w !! handle with
          | Some (raw, names) =>
              if Z.max 0 (names - 1) =? 0 then delete handle (number_entries w)
              else <[handle := (raw, Z.max 0 (names - 1))]> (number_entries w)
          | None => number_entries w
          end in
        mk_numbers entries (next_number w) (delete p (number_objects w))
    end.

(** ** Conversions *)

(** Keys are strings, so the equality of the map's keys is that of strings. *)
Definition key_eqb (a b : value) : bool :=
  match a, b with VString a, VString b => (a =? b)%string | _, _ => false end.

Section Children.
Context (convert : Json -> numbers_state -> value * numbers_state).
Fixpoint values_of (items : list Json) w : list value * numbers_state :=
  match items with
  | [] => ([], w)
  | j :: items => let '(v, w) := convert j w in let '(vs, w) := values_of items w in (v :: vs, w)
  end.
Fixpoint members_of (members : list (text * Json)) (m : list (value * value)) w : list (value * value) * numbers_state :=
  match members with
  | [] => (m, w)
  | (k, j) :: members => let '(v, w) := convert j w in members_of members (al_insert key_eqb (VString (octets_of k)) v m) w
  end.
End Children.

Fixpoint json_to_value (j : Json) w : value * numbers_state :=
  match j with
  | JNull => (VUnit, w)
  | JBool b => (VBool b, w)
  | JInt i => (VInt i, w)
  | JFloat f => (VFloat f, w)
  | JNumber _ raw => json_number_value raw w
  | JString s => (VString (octets_of s), w)
  | JArray items => let '(vs, w) := values_of json_to_value items w in (VList vs, w)
  | JObject members => let '(m, w) := members_of json_to_value members [] w in (VMap m, w)
  end.

Definition unsupported {A} : result A string := Err "unsupported value type for JSON conversion".
Definition non_string_key : string := "map contains non-string key, cannot convert to JSON".

Section Back.
Context (convert : value -> result Json string).
Fixpoint json_members (m : list (value * value)) (out : list (text * Json)) : result (list (text * Json)) string :=
  match m with
  | [] => Ok out
  | (VString k, v) :: m => let? j := convert v in json_members m (object_insert (text_of k) j out)
  | _ :: _ => Err non_string_key
  end.
End Back.

Fixpoint value_to_json w (v : value) : result Json string :=
  match v with
  | VUnit => Ok JNull
  | VBool b => Ok (JBool b)
  | VInt i => Ok (JInt i)
  | VFloat f =>
      if is_finite f then Ok (JFloat f)
      else if is_nan f then Err "cannot serialize NaN to JSON" else Err "cannot serialize infinity to JSON"
  | VString s => Ok (JString (text_of s))
  | VList l => let? items := collect_items (value_to_json w) l in Ok (JArray items)
  | VMap m => let? members := json_members (value_to_json w) m [] in Ok (JObject members)
  | VObject _ => match json_number_raw (Some v) w with Some raw => Ok (JNumber 0 raw) | None => unsupported end
  | _ => unsupported
  end.

(** ** Entry points *)

Context `{Serde}.

(** [parse_json_text]; the octets of the input. *)
Definition parse_json_text (input : list Z) (policy : JsonDuplicatePolicy) w : result value string * numbers_state :=
  if MAX_JSON_INPUT_BYTES <? Z.of_nat (length input) then (Err "JSON input exceeds the 16 MiB limit", w)
  else
    match utf8_decode input with
    | None => (Err "JSON input must be valid UTF-8", w)
    | Some s =>
        match parse_with_policy s policy with
        | Ok j => let '(v, w) := json_to_value j w in (Ok v, w)
        | Err e => (Err e, w)
        end
    end.

(** A C string is its octets; [None] is null. *)
Definition mux_json_parse (input : option (list Z)) w : result value string * numbers_state :=
  match input with None => (Err "null input", w) | Some bytes => parse_json_text bytes Reject w end.

Definition mux_json_parse_with_policy (input : option (list Z)) (policy : option value) w : result value string * numbers_state :=
  match input with
  | None => (Err "null input", w)
  | Some bytes =>
      match json_duplicate_policy_from_value policy with
      | Err e => (Err e, w)
      | Ok policy => parse_json_text bytes policy w
      end
  end.

(** The policy argument that may be null. *)
Definition policy_or_reject (policy : option value) : result JsonDuplicatePolicy string :=
  match policy with None => Ok Reject | Some _ => json_duplicate_policy_from_value policy end.

Section Readers.
Context {W : Type} `{Os W}.

(** The stream's answer, as [json_error_from_io_result] reports it: [None] is a panic. *)
Definition mux_json_parse_reader_with_policy (reader : arg) (limit : Z) (policy : option value) (st : state W) w :
    option (result value string * state W * numbers_state) :=
  if negb ((0 <=? limit) && (limit <=? MAX_JSON_INPUT_BYTES)) then Some (Err "JSON reader limit must be between 0 and 16 MiB", st, w)
  else
    match policy_or_reject policy with
    | Err e => Some (Err e, st, w)
    | Ok policy =>
        match mux_io_reader_read_to_end reader limit st with
        | None => None
        | Some (Err e, st) => Some (Err ("JSON reader: " +:+ e), st, w)
        | Some (Ok bytes, st) =>
            if is_utf8 bytes then let '(r, w) := parse_json_text bytes policy w in Some (r, st, w)
            else Some (Err "JSON reader input must be valid UTF-8", st, w)
        end
    end.

Definition mux_json_parse_reader (reader : arg) (limit : Z) (st : state W) w :=
  mux_json_parse_reader_with_policy reader limit None st w.

End Readers.

(** ** Lines *)

Definition MAX_JSON_LINES : Z := 1000000.
Definition MAX_JSON_LINES_OUTPUT_BYTES : Z := 16 * 1024 * 1024.
Definition MAX_JSON_LINE_BYTES : Z := 16 * 1024 * 1024.
Definition MAX_JSON_INDENT : Z := 64.

(** [str::lines]: pieces between line feeds, without a carriage return at their end; an
    empty piece behind the last line feed is no line. *)
Definition strip_cr (line : text) : text := match rev line with 13 :: r => rev r | _ => line end.
Definition without_last_empty (pieces : list text) : list text :=
  match rev pieces with [] :: r => rev r | _ => pieces end.
Definition text_lines (s : text) : list text := strip_cr <$> without_last_empty (split_text s [10]).

(** Dropping a parsed value drops the number objects in it. *)
Fixpoint drop_numbers (v : value) w : numbers_state :=
  match v with
  | VObject o => if obj_type o =? JSON_NUMBER_TYPE_ID then drop_json_number (obj_ptr o) w else w
  | VList l => foldl (fun w v => drop_numbers v w) w l
  | VMap m => foldl (fun w e => drop_numbers e.2 w) w m
  | _ => w
  end.

(** The loop of [mux_json_parse_lines_with_policy]; [line] numbers the lines from one. *)
Fixpoint parse_lines_loop (lines : list text) (line : Z) (policy : JsonDuplicatePolicy) (values : list value) w :
    result (list value) string * numbers_state :=
  match lines with
  | [] => (Ok values, w)
  | l :: lines =>
      if bool_decide (trim l = []) then parse_lines_loop lines (line + 1) policy values w
      else if MAX_JSON_LINES <=? Z.of_nat (length values) then
        (Err "JSON Lines input exceeds the one-million-line limit", drop_numbers (VList values) w)
      else
        match parse_with_policy l policy with
        | Err e => (Err ("JSON line " +:+ pretty line +:+ ": " +:+ e), drop_numbers (VList values) w)
        | Ok j => let '(v, w) := json_to_value j w in parse_lines_loop lines (line + 1) policy (values ++ [v]) w
        end
  end.

Definition mux_json_parse_lines_with_policy (input : option (list Z)) (policy : option value) w : result value string * numbers_state :=
  match input with
  | None => (Err "null input", w)
  | Some bytes =>
      match policy_or_reject policy with
      | Err e => (Err e, w)
      | Ok policy =>
          if MAX_JSON_INPUT_BYTES <? Z.of_nat (length bytes) then (Err "JSON Lines input exceeds the 16 MiB limit", w)
          else
            match utf8_decode bytes with
            | None => (Err "JSON Lines input must be valid UTF-8", w)
            | Some s =>
                match parse_lines_loop (text_lines s) 1 policy [] w with
                | (Ok values, w) => (Ok (VList values), w)
                | (Err e, w) => (Err e, w)
                end
            end
      end
  end.

Definition mux_json_parse_lines (input : option (list Z)) w : result value string * numbers_state :=
  match input with None => (Err "null input", w) | Some _ => mux_json_parse_lines_with_policy input None w end.

(** The loop of [mux_json_stringify_lines]. *)
Fixpoint stringify_lines_loop w (values : list value) (index : Z) (output : text) : result text string :=
  match values with
  | [] => Ok output
  | v :: values =>
      match value_to_json w v with
      | Err e => Err ("JSON Lines value " +:+ pretty (index + 1) +:+ ": " +:+ e)
      | Ok j =>
          let line := json_text j None in
          if MAX_JSON_LINE_BYTES <? byte_len line then Err ("JSON line " +:+ pretty (index + 1) +:+ " exceeds the 16 MiB limit")
          else
            let next_size := byte_len output + (byte_len line + 1) in
            if usize_max <? next_size then Err "JSON Lines output exceeds the 16 MiB limit"
            else if MAX_JSON_LINES_OUTPUT_BYTES <? next_size then Err "JSON Lines output exceeds the 16 MiB limit"
            else stringify_lines_loop w values (index + 1) (output ++ line ++ [10])
      end
  end.

Definition mux_json_stringify_lines (values : option value) w : result value string :=
  match values with
  | Some (VList values) =>
      if MAX_JSON_LINES <? Z.of_nat (length values) then Err "JSON Lines input exceeds the one-million-line limit"
      else let? s := stringify_lines_loop w values 0 [] in Ok (VString (octets_of s))
  | _ => Err "JSON Lines values must be a list"
  end.

(** ** Printing *)

Definition optional_int : string := "JSON indentation must be an optional int".

Definition indentation (indent_opt : option value) : result (option nat) string :=
  match indent_opt with
  | None | Some (VOptional None) => Ok None
  | Some (VOptional (Some (VInt indent))) =>
      if (0 <=? indent) && (indent <=? MAX_JSON_INDENT) then Ok (Some (Z.to_nat indent))
      else Err "JSON indentation must be between 0 and 64 spaces"
  | Some _ => Err optional_int
  end.

Definition mux_json_stringify (v indent_opt : option value) w : result value string :=
  match v with
  | None => Err "null input"
  | Some v =>
      let? indent := indentation indent_opt in
      let? j := value_to_json w v in
      Ok (VString (octets_of (json_text j indent)))
  end.

Section Writers.
Context {W : Type} `{Os W}.

Definition mux_json_stringify_to (v : option value) (writer : arg) (indent_opt : option value) (st : state W) w :
    option (result value string * state W) :=
  match mux_json_stringify v indent_opt w with
  | Err e => Some (Err e, st)
  | Ok (VString s) =>
      match mux_io_writer_write_all writer (Some (VBytes (txt s))) st with
      | None => None
      | Some (Err e, st) => Some (Err ("JSON writer: " +:+ e), st)
      | Some (Ok _, st) => Some (Ok VUnit, st)
      end
  | Ok _ => Some (Err "JSON serializer returned a non-string value", st)
  end.

End Writers.

(** [debug_assert!] is absent from release builds. *)
Definition mux_json_to_string (v : option value) w : value :=
  match v with
  | None => VString "null"
  | Some v => match value_to_json w v with Ok j => VString (octets_of (json_text j None)) | Err _ => VString "null" end
  end.

End Numbers.

(** * Reading JSON values, canonical text and token readers ([src/src/json.rs]) *)

(** ** Floats and integers, on bits *)

(** [f.fract() == 0.0 && f.is_finite()], and the integer the float is. *)
Definition float_integer (f : Z) : option Z :=
  if negb (is_finite f) then None
  else
    let e := exponent_bits f in
    let fraction := Z.land f (2 ^ 52 - 1) in
    let m := if e =? 0 then fraction else fraction + 2 ^ 52 in
    let e := Z.max 1 e in
    let n :=
      if 1075 <=? e then Some (Z.shiftl m (e - 1075))
      else if m mod 2 ^ (1075 - e) =? 0 then Some (m / 2 ^ (1075 - e)) else None in
    if Z.testbit f 63 then Z.opp <$> n else n.

(** The guard of the accessors with [as i64]: [i64::MAX as f64] is [2 ^ 63]. *)
Definition float_as_int (f : Z) : option Z :=
  n ← float_integer f; if (i64_min <=? n) && (n <? 2 ^ 63) then Some n else None.

(** [i as f64]: to the nearest, ties to even.  A mantissa that overflows carries into the exponent. *)
Definition magnitude_bits (n : Z) : Z :=
  if n =? 0 then 0
  else
    let k := Z.log2 n in
    if k <=? 52 then Z.shiftl (k + 1023) 52 + (Z.shiftl n (52 - k) - 2 ^ 52)
    else
      let shift := k - 52 in
      let q := Z.shiftr n shift in
      let rest := n mod 2 ^ shift in
      let half := 2 ^ (shift - 1) in
      let up := (half <? rest) || ((rest =? half) && Z.odd q) in
      Z.shiftl (k + 1023) 52 + (q - 2 ^ 52) + (if up then 1 else 0).
Definition int_as_float (i : Z) : Z := if i <? 0 then 2 ^ 63 + magnitude_bits (- i) else magnitude_bits i.

(** [str::parse::<f64>]. *)
Class FloatParse := { parse_f64 : text -> option Z }.

Section Access.
Context `{NumberHeap} `{FloatParse} `{FloatText}.
Implicit Types w : numbers_state.

Definition json_kind (v : value) w : string :=
  match json_number_raw (Some v) w with
  | Some _ => "a number"
  | None =>
      match v with
      | VUnit => "null" | VBool _ => "a bool" | VInt _ => "an int" | VFloat _ => "a float"
      | VString _ => "a string" | VList _ => "an array" | VMap _ => "an object" | _ => "an unsupported value"
      end
  end.

Definition json_kind_error (expected found : string) : string := "expected " +:+ expected +:+ ", found " +:+ found.

Definition json_accessor {A} (v : option value) (expected : string) (f : value -> option A) w : result A string :=
  match v with
  | None => Err (json_kind_error expected "nothing")
  | Some v => match f v with Some inner => Ok inner | None => Err (json_kind_error expected (json_kind v w)) end
  end.

Definition mux_json_as_string (v : option value) w : result value string :=
  json_accessor v "a string" (fun v => match v with VString s => Some (VString s) | _ => None end) w.

(** A spelling read as an integer: exactly, or through an [f64]. *)
Definition number_int (raw : text) : option Z :=
  match from_str_radix 10 raw with Some i => Some i | None => parse_f64 raw ≫= float_as_int end.
Definition number_float (raw : text) : option Z := f ← parse_f64 raw; if is_finite f then Some f else None.

Definition mux_json_as_int (v : option value) w : result value string :=
  json_accessor v "an int" (fun v =>
    match v with
    | VInt i => Some (VInt i)
    | VObject _ => VInt <$> (json_number_raw (Some v) w ≫= number_int)
    | VFloat f => VInt <$> float_as_int f
    | _ => None
    end) w.

Definition mux_json_as_float (v : option value) w : result value string :=
  json_accessor v "a float" (fun v =>
    match v with
    | VFloat f => Some (VFloat f)
    | VInt i => Some (VFloat (int_as_float i))
    | VObject _ => VFloat <$> (json_number_raw (Some v) w ≫= number_float)
    | _ => None
    end) w.

(** The spelling that [mux_json_as_number] keeps. *)
Definition number_spelling (v : value) w : option text :=
  match json_number_raw (Some v) w with
  | Some raw => Some raw
  | None =>
      match v with
      | VInt i => Some (mux_int_to_string i)
      | VFloat f => if is_finite f then Some (txt (format_shortest f)) else None
      | _ => None
      end
  end.

Definition mux_json_as_number (v : option value) w : result value string * numbers_state :=
  match json_accessor v "a number" (fun v => number_spelling v w) w with
  | Ok raw => let '(v, w) := json_number_value raw w in (Ok v, w)
  | Err e => (Err e, w)
  end.

Definition mux_json_number_to_string (v : option value) w : value :=
  match json_number_raw v w with Some raw => VString (octets_of raw) | None => VString "" end.

Definition expected_number : string := "expected JsonNumber value".
Definition mux_json_number_as_int (v : option value) w : result value string :=
  match json_number_raw v w with
  | None => Err expected_number
  | Some raw => match number_int raw with Some i => Ok (VInt i) | None => Err "JSON number is not an integer in the Mux int range" end
  end.
Definition mux_json_number_as_float (v : option value) w : result value string :=
  match json_number_raw v w with
  | None => Err expected_number
  | Some raw => match number_float raw with Some f => Ok (VFloat f) | None => Err "JSON number cannot be represented as a finite float" end
  end.

Definition mux_json_as_bool (v : option value) w : result value string :=
  json_accessor v "a bool" (fun v => match v with VBool b => Some (VBool b) | _ => None end) w.
Definition mux_json_as_list (v : option value) w : result value string :=
  json_accessor v "an array" (fun v => match v with VList l => Some (VList l) | _ => None end) w.
Definition mux_json_as_map (v : option value) w : result value string :=
  json_accessor v "an object" (fun v => match v with VMap m => Some (VMap m) | _ => None end) w.

(** The key is a C string: its octets, decoded lossily. *)
Definition mux_json_field (v : option value) (key : option string) : value :=
  match key with
  | None => VOptional None
  | Some key =>
      match v with
      | Some (VMap entries) => VOptional (al_get key_eqb (VString (to_string_lossy key)) entries)
      | _ => VOptional None
      end
  end.

Definition mux_json_is_null (v : option value) : bool := match v with Some VUnit => true | _ => false end.

Definition mux_json_from_map (v : option value) w : result value string * numbers_state :=
  match v with
  | None => (Err "null input", w)
  | Some (VMap m) =>
      match json_members (value_to_json w) m [] with
      | Err e => (Err e, w)
      | Ok members => let '(v, w) := json_to_value (JObject members) w in (Ok v, w)
      end
  | Some _ => (Err "value is not a map", w)
  end.

Definition is_string (v : value) : bool := match v with VString _ => true | _ => false end.

Definition mux_json_to_map (v : option value) w : result value string * numbers_state :=
  match v with
  | None => (Err "null input", w)
  | Some (VMap m) =>
      if existsb (fun e => negb (is_string e.1)) m then (Err "map contains non-string key", w) else (Ok (VMap m), w)
  | Some v =>
      match value_to_json w v with
      | Ok (JObject m) => let '(v, w) := json_to_value (JObject m) w in (Ok v, w)
      | Ok _ => (Err "json value is not an object", w)
      | Err e => (Err e, w)
      end
  end.

End Access.

(** ** Canonical text *)

(** [serde_json::Value]; a number is what serde spells it as. *)
Inductive SerdeValue : Type :=
| SNull
| SBool (b : bool)
| SNumber (spelling : text)
| SString (s : text)
| SArray (items : list SerdeValue)
| SObject (members : list (text * SerdeValue)).

(** [Display for serde_json::Value]. *)
Class SerdePrint := { serde_value_text : SerdeValue -> text }.

Section Canonical.
Context `{Serde}.

Fixpoint convert_to_serde_value (j : Json) : SerdeValue :=
  match j with
  | JNull => SNull
  | JBool b => SBool b
  | JInt i => SNumber (mux_int_to_string i)
  | JNumber _ raw => match number_of_text raw with Some (_, spelling) => SNumber spelling | None => SNull end
  | JFloat f => if is_finite f then SNumber (float_text f) else SNull
  | JString s => SString s
  | JArray items => SArray (map convert_to_serde_value items)
  | JObject members =>
      SObject (foldl (fun m e => al_insert text_eqb e.1 e.2 m) [] (map (fun '(k, v) => (k, convert_to_serde_value v)) members))
  end.

(** [Ord for String]: by octets. *)
Definition string_cmp (a b : text) : comparison := lex_cmp Z.compare (utf8 a) (utf8 b).

(** The members in the order of their sorted keys; [map[key]] finds every key of the map. *)
Definition sorted_members {A} (members : list (text * A)) : list (text * A) :=
  foldl (fun m key => match al_get text_eqb key members with Some v => al_insert text_eqb key v m | None => m end)
    [] (sort_by string_cmp (map fst members)).

Fixpoint canonical_serde_value (j : Json) : SerdeValue :=
  match j with
  | JObject members => SObject (sorted_members (map (fun '(k, v) => (k, canonical_serde_value v)) members))
  | JArray items => SArray (map canonical_serde_value items)
  | _ => convert_to_serde_value j
  end.

Context `{SerdePrint} `{NumberHeap}.

Definition canonical (j : Json) : text := serde_value_text (canonical_serde_value j).

Definition mux_json_canonical (v : option value) (w : numbers_state) : value :=
  match v with
  | None => VString "null"
  | Some v => match value_to_json w v with Ok j => VString (octets_of (canonical j)) | Err _ => VString "null" end
  end.

End Canonical.

(** ** Token readers *)

Record JsonTokenReaderEntry : Type := mk_token_reader { tr_tokens : list JsonTokenEntry; tr_next : nat; tr_names : Z }.

Inductive token_class : Type := TokenReader | Token | OtherClass.
#[export] Instance token_class_eq_dec : EqDecision token_class.
Proof. solve_decision. Defined.

(** A value argument: null or not an object, or the address of an object. *)
Inductive token_arg : Type := NoObject | Object (p : Z).

(** [JSON_TOKEN_READERS], [JSON_TOKENS], [NEXT_JSON_TOKEN_HANDLE], and by address the class
    and the handle of each live object. *)
Record token_state : Type := mk_tokens {
  token_readers : gmap Z JsonTokenReaderEntry;
  tokens : gmap Z JsonTokenEntry;
  next_token : Z;
  token_objects : gmap Z (token_class * Z);
}.
Definition no_tokens : token_state := mk_tokens ∅ ∅ 1 ∅.

Section TokenReaders.
Implicit Types s : token_state.

Definition set_token_readers (m : gmap Z JsonTokenReaderEntry) s : token_state := mk_tokens m (tokens s) (next_token s) (token_objects s).
Definition set_tokens (m : gmap Z JsonTokenEntry) s : token_state := mk_tokens (token_readers s) m (next_token s) (token_objects s).
Definition set_token_object (p : Z) (c : token_class) (h : Z) s : token_state :=
  mk_tokens (token_readers s) (tokens s) (next_token s) (<[p := (c, h)]> (token_objects s)).

Definition next_json_token_handle s : Z * token_state :=
  (next_token s, mk_tokens (token_readers s) (tokens s) (next_or_one (next_token s)) (token_objects s)).

(** [a] is the address that [alloc_object] answers, [None] when it fails. *)
Definition json_token_object (c : token_class) (handle : Z) (a : option Z) s : option Z * token_state :=
  match a with
  | None => (None, s)
  | Some p => if p =? 0 then (None, s) else (Some p, set_token_object p c handle s)
  end.

(** The handle in an object of the class. *)
Definition token_handle (c : token_class) (v : token_arg) (expected invalid : string) s : result Z string :=
  match v with
  | NoObject => Err expected
  | Object p =>
      match token_objects s !! p with
      | Some (c', h) => if decide (c' = c) then (if p =? 0 then Err invalid else Ok h) else Err expected
      | None => Err expected
      end
  end.

Definition json_token_reader_id (v : token_arg) s : result Z string :=
  let? id := token_handle TokenReader v "expected JsonTokenReader value" "JsonTokenReader value is invalid" s in
  if bool_decide (is_Some (token_readers s !! id)) then Ok id else Err "JsonTokenReader is closed".

Definition json_token_id (v : token_arg) s : result Z string :=
  let? id := token_handle Token v "expected JsonToken value" "JsonToken value is invalid" s in
  if bool_decide (is_Some (tokens s !! id)) then Ok id else Err "JsonToken is invalid".

Definition saturating_add_one (n : Z) : Z := Z.min usize_max (n + 1).

Definition copy_json_token_reader (source dest : Z) s : token_state :=
  if (source =? 0) || (dest =? 0) then s
  else
    match token_objects s !! source with
    | None => s
    | Some (_, id) =>
        match token_readers s !! id with
        | Some e =>
            set_token_object dest TokenReader id
              (set_token_readers (<[id := mk_token_reader (tr_tokens e) (tr_next e) (saturating_add_one (tr_names e))]> (token_readers s)) s)
        | None => set_token_object dest TokenReader 0 s
        end
    end.

Definition with_names (n : Z) (e : JsonTokenEntry) : JsonTokenEntry := mk_token (tok_kind e) (tok_text e) (tok_value e) n.

Definition copy_json_token (source dest : Z) s : token_state :=
  if (source =? 0) || (dest =? 0) then s
  else
    match token_objects s !! source with
    | None => s
    | Some (_, id) =>
        match tokens s !! id with
        | Some e => set_token_object dest Token id (set_tokens (<[id := with_names (saturating_add_one (tok_names e)) e]> (tokens s)) s)
        | None => set_token_object dest Token 0 s
        end
    end.

(** The object goes with its destructor. *)
Definition free_token_object (p : Z) s : token_state :=
  mk_tokens (token_readers s) (tokens s) (next_token s) (delete p (token_objects s)).

Definition drop_json_token_reader (p : Z) s : token_state :=
  if p =? 0 then s
  else
    match token_objects s !! p with
    | None => s
    | Some (_, id) =>
        free_token_object p
          match token_readers s !! id with
          | Some e =>
              let names := Z.max 0 (tr_names e - 1) in
              set_token_readers
                (if names =? 0 then delete id (token_readers s)
                 else <[id := mk_token_reader (tr_tokens e) (tr_next e) names]> (token_readers s)) s
          | None => s
          end
    end.

Definition drop_json_token (p : Z) s : token_state :=
  if p =? 0 then s
  else
    match token_objects s !! p with
    | None => s
    | Some (_, id) =>
        free_token_object p
          match tokens s !! id with
          | Some e =>
              let names := Z.max 0 (tok_names e - 1) in
              set_tokens (if names =? 0 then delete id (tokens s) else <[id := with_names names e]> (tokens s)) s
          | None => s
          end
    end.

(** An entry is numbered and stored, and goes back out when it gets no object. *)
Definition new_token_reader (entry : JsonTokenReaderEntry) (a : option Z) s : option Z * token_state :=
  let '(id, s) := next_json_token_handle s in
  let s := set_token_readers (<[id := entry]> (token_readers s)) s in
  match json_token_object TokenReader id a s with
  | (Some p, s) => (Some p, s)
  | (None, s) => (None, set_token_readers (delete id (token_readers s)) s)
  end.

Definition mux_json_token_reader_new (a : option Z) s : option Z * token_state := new_token_reader (mk_token_reader [] 0 1) a s.

Definition mux_json_token_reader_next (reader : token_arg) (a : option Z) s : result (option Z) string * token_state :=
  match json_token_reader_id reader s with
  | Err e => (Err e, s)
  | Ok id =>
      match token_readers s !! id with
      | None => (Err "JsonTokenReader is closed", s)
      | Some entry =>
          match tr_tokens entry !! tr_next entry with
          | None => (Ok None, s)
          | Some token =>
              let s := set_token_readers (<[id := mk_token_reader (tr_tokens entry) (S (tr_next entry)) (tr_names entry)]> (token_readers s)) s in
              let '(token_id, s) := next_json_token_handle s in
              let s := set_tokens (<[token_id := with_names 1 token]> (tokens s)) s in
              match json_token_object Token token_id a s with
              | (None, s) => (Err "could not allocate JsonToken", set_tokens (delete token_id (tokens s)) s)
              | (Some p, s) => (Ok (Some p), s)
              end
          end
      end
  end.

Definition mux_json_token_reader_close (reader : token_arg) s : token_state :=
  match reader, json_token_reader_id reader s with
  | Object p, Ok id => set_token_object p TokenReader 0 (set_token_readers (delete id (token_readers s)) s)
  | _, _ => s
  end.

Definition json_token_entry (token : token_arg) s : result JsonTokenEntry string :=
  let? id := json_token_id token s in
  match tokens s !! id with Some e => Ok e | None => Err "JsonToken is invalid" end.

Definition mux_json_token_kind (token : token_arg) s : result value string :=
  let? e := json_token_entry token s in Ok (kind_value (tok_kind e)).
Definition mux_json_token_text (token : token_arg) s : result value string :=
  let? e := json_token_entry token s in Ok (VString (octets_of (tok_text e))).

Definition mux_json_token_value `{NumberHeap} (token : token_arg) s (w : numbers_state) : result value string * numbers_state :=
  match json_token_entry token s with
  | Err e => (Err e, w)
  | Ok e =>
      match tok_value e with
      | Some TokNull => (Ok VUnit, w)
      | Some (TokBool b) => (Ok (VBool b), w)
      | Some (TokNumber raw) => let '(v, w) := json_number_value raw w in (Ok v, w)
      | Some (TokString t) => (Ok (VString (octets_of t)), w)
      | None => (Err "JSON structural token has no value", w)
      end
  end.

Context {W : Type} `{Os W} `{Serde}.

(** [None] is a panic. *)
Definition mux_json_token_reader_from_reader (reader : arg) (limit : Z) (a : option Z) (st : state W) s :
    option (result Z string * state W * token_state) :=
  if negb ((0 <=? limit) && (limit <=? MAX_JSON_INPUT_BYTES)) then Some (Err "JSON token reader limit must be between 0 and 16 MiB", st, s)
  else
    match mux_io_reader_read_to_end reader limit st with
    | None => None
    | Some (Err e, st) => Some (Err ("JSON token reader: " +:+ e), st, s)
    | Some (Ok bytes, st) =>
        match utf8_decode bytes with
        | None => Some (Err "JSON token reader input must be valid UTF-8", st, s)
        | Some input =>
            scanned ← scan_json_tokens input;
            match scanned with
            | Err e => Some (Err e, st, s)
            | Ok ts =>
                match new_token_reader (mk_token_reader ts 0 1) a s with
                | (Some p, s) => Some (Ok p, st, s)
                | (None, s) => Some (Err "could not allocate JsonTokenReader", st, s)
                end
            end
        end
    end.

End TokenReaders.
