(* ===== verification/JsonParseProps.v ===== *)
(** * Documents as the reference for parsing, then the proofs ([src/src/json.rs])

    The reference for parsing.  A document is a tree that keeps spellings and repeated
    members ([Doc]); its tokens in order are [doc_tokens], and a text spells it when it
    is those tokens with whitespace around them (RFC 8259, section 2).  [resolve] says
    what a duplicate policy makes of it.  The scanners of [json.rs] meet such a text
    token by token. *)

From S2P Require Import Prelude AssocList Object Value Str Utf8 Http HttpProps Cli CliProps Json JsonParse.

Inductive Doc : Type :=
| DNull
| DBool (b : bool)
| DNumber (raw : text)
| DString (literal s : text)
| DArray (items : list Doc)
| DObject (members : list (text * text * Doc)).

(** Arguments of a member: its literal, its key, its value. *)
Definition member_key (m : text * text * Doc) : text := m.1.2.

Lemma Doc_nested_ind (P : Doc -> Prop) :
  P DNull -> (forall b, P (DBool b)) -> (forall raw, P (DNumber raw)) -> (forall l s, P (DString l s)) ->
  (forall items, Forall P items -> P (DArray items)) ->
  (forall members, Forall (fun m => P m.2) members -> P (DObject members)) -> forall d, P d.
Proof.
  intros H1 H2 H3 H4 Ha Ho. fix IH 1. intros [| | | |items|members]; [done|apply H2|apply H3|apply H4| |].
  - apply Ha. induction items as [|d items IHi]; constructor; [apply IH|apply IHi].
  - apply Ho. induction members as [|[k d] members IHe]; constructor; [apply IH|apply IHe].
Qed.

(** ** Tokens *)

Definition punct (k : JsonTokenKind) (c : Z) : JsonTokenEntry := mk_token k [c] None 0.
Definition string_token (literal s : text) : JsonTokenEntry := mk_token String_ literal (Some (TokString s)) 0.
Definition number_token (raw : text) : JsonTokenEntry := mk_token Number raw (Some (TokNumber raw)) 0.

(** Sequences of tokens with commas between them. *)
Fixpoint commas (parts : list (list JsonTokenEntry)) : list JsonTokenEntry :=
  match parts with
  | [] => []
  | [p] => p
  | p :: parts => p ++ punct Comma 44 :: commas parts
  end.

Fixpoint doc_tokens (d : Doc) : list JsonTokenEntry :=
  match d with
  | DNull => [mk_token Null (txt "null") (Some TokNull) 0]
  | DBool b => [mk_token Bool (if b then txt "true" else txt "false") (Some (TokBool b)) 0]
  | DNumber raw => [number_token raw]
  | DString literal s => [string_token literal s]
  | DArray items => punct StartArray 91 :: commas (map doc_tokens items) ++ [punct EndArray 93]
  | DObject members =>
      punct StartObject 123 ::
      commas (map (fun m => string_token m.1.1 m.1.2 :: punct Colon 58 :: doc_tokens m.2) members) ++ [punct EndObject 125]
  end.

Fixpoint doc_numbers (d : Doc) : list text :=
  match d with
  | DNumber raw => [raw]
  | DArray items => flat_map doc_numbers items
  | DObject members => flat_map (fun m => doc_numbers m.2) members
  | _ => []
  end.

Definition space (c : Z) : Prop := c = 32 \/ c = 9 \/ c = 10 \/ c = 13.

(** Tokens with whitespace in front of each and at the end. *)
Inductive layout : list text -> text -> Prop :=
| layout_end w : Forall space w -> layout [] w
| layout_token w t ts r : Forall space w -> layout ts r -> layout (t :: ts) (w ++ t ++ r).

Definition spells (d : Doc) (s : text) : Prop := layout (tok_text <$> doc_tokens d) s.

(** ** Policies *)

(** Keys in the order in which they first appear. *)
Fixpoint distinct (keys : list text) : list text :=
  match keys with
  | [] => []
  | k :: keys => k :: filter (fun k' => k' <> k) (distinct keys)
  end.

(** Every key once, with its first or its last value. *)
Definition chosen {A} (first : bool) (members : list (text * A)) : list (text * A) :=
  omap (fun k => pair k <$> al_get text_eqb k (if first then members else rev members)) (distinct members.*1).

Section Resolve.
Context `{Serde}.

Fixpoint resolve (first : bool) (d : Doc) : Json :=
  match d with
  | DNull => JNull
  | DBool b => JBool b
  | DNumber raw => parsed_number raw
  | DString _ s => JString s
  | DArray items => JArray (map (resolve first) items)
  | DObject members => JObject (chosen first (map (fun m => (member_key m, resolve first m.2)) members))
  end.

Section Duplicates.
Context (duplicate : Doc -> option text).
Fixpoint duplicate_item (items : list Doc) : option text :=
  match items with
  | [] => None
  | d :: items => match duplicate d with Some k => Some k | None => duplicate_item items end
  end.
Fixpoint duplicate_member (seen : list text) (members : list (text * text * Doc)) : option text :=
  match members with
  | [] => None
  | m :: members =>
      if decide (member_key m ∈ seen) then Some (member_key m)
      else match duplicate m.2 with Some k => Some k | None => duplicate_member (member_key m :: seen) members end
  end.
End Duplicates.

(** The first repeated key, in the order of the text. *)
Fixpoint first_duplicate (d : Doc) : option text :=
  match d with
  | DArray items => duplicate_item first_duplicate items
  | DObject members => duplicate_member first_duplicate [] members
  | _ => None
  end.

(** Spellings that are JSON numbers and string literals. *)
Definition literal_ok (literal s : text) : Prop := string_literal literal /\ string_of_literal literal = Ok s.

Inductive doc_ok : Doc -> Prop :=
| dok_null : doc_ok DNull
| dok_bool b : doc_ok (DBool b)
| dok_number raw : number_ok raw -> doc_ok (DNumber raw)
| dok_string literal s : literal_ok literal s -> doc_ok (DString literal s)
| dok_array items : Forall doc_ok items -> doc_ok (DArray items)
| dok_object members : Forall (fun m => literal_ok m.1.1 m.1.2 /\ doc_ok m.2) members -> doc_ok (DObject members).

(** The calls that a deserializer makes for a document; [as_float] tells for which
    spellings it calls [visit_f64]. *)
Fixpoint erase (as_float : text -> bool) (d : Doc) : Raw :=
  match d with
  | DNull => RUnit
  | DBool b => RBool b
  | DNumber raw => if as_float raw then RFloat true else RInt
  | DString _ s => RStr s
  | DArray items => RSeq (map (erase as_float) items) None
  | DObject members => RMap (map (fun m => (member_key m, erase as_float m.2)) members) None
  end.

(** [serde_json] accepts the text as this document. *)
Definition serde_reads (d : Doc) (s : text) : Prop :=
  (exists as_float, deserialize s = erase as_float d) /\ trailing s = None.

End Resolve.

(** ** Tokens that the scanners meet *)

Definition word_token (k : JsonTokenKind) (w : string) (v : JsonTokenValue) : JsonTokenEntry := mk_token k (txt w) (Some v) 0.
Definition plain_tokens : list JsonTokenEntry :=
  [punct StartObject 123; punct EndObject 125; punct StartArray 91; punct EndArray 93; punct Colon 58; punct Comma 44;
   word_token Null "null" TokNull; word_token Bool "true" (TokBool true); word_token Bool "false" (TokBool false)].

Definition is_number (t : JsonTokenEntry) : bool := match tok_kind t with Number => true | _ => false end.

(** A token by the characters that it is made of. *)
Inductive token_ok : JsonTokenEntry -> Prop :=
| tok_plain t : t ∈ plain_tokens -> token_ok t
| tok_num raw : number_ok raw -> token_ok (number_token raw)
| tok_str literal s : string_literal literal -> token_ok (string_token literal s).

(** No number is followed by a number. *)
Fixpoint separated (ts : list JsonTokenEntry) : Prop :=
  match ts with
  | t :: ((t' :: _) as ts) => (is_number t = true -> is_number t' = false) /\ separated ts
  | _ => True
  end.

(** A document can stand in front of anything that does not start with a number. *)
Definition opens (ts : list JsonTokenEntry) : Prop := match ts with t :: _ => is_number t = false | [] => True end.

Lemma separated_plain t ts : is_number t = false -> separated ts -> separated (t :: ts).
Proof. intros Ht Hs. destruct ts as [|t' ts]; [done|]. split; [by rewrite Ht|done]. Qed.

Definition separable (p : list JsonTokenEntry) : Prop := forall rest, opens rest -> separated rest -> separated (p ++ rest).

Lemma commas_separable parts : Forall separable parts -> separable (commas parts).
Proof.
  induction 1 as [|p parts Hp _ IH]; [by intros rest|]. destruct parts as [|q parts]; [exact Hp|].
  intros rest Ho Hs. change (commas (p :: q :: parts)) with (p ++ punct Comma 44 :: commas (q :: parts)). rewrite <- app_assoc. apply Hp; [done|]. apply separated_plain; [done|]. by apply IH.
Qed.

Lemma bracket_separable o c parts : is_number o = false -> is_number c = false -> Forall separable parts ->
  separable (o :: commas parts ++ [c]).
Proof.
  intros Ho Hc H rest Hr Hs. cbn [app]. apply separated_plain; [done|]. rewrite <- app_assoc.
  apply commas_separable; [done|done|]. cbn [app]. by apply separated_plain.
Qed.

Lemma doc_separable d : separable (doc_tokens d).
Proof.
  induction d as [| | | |items IH|members IH] using Doc_nested_ind; try (intros rest Ho Hs; by apply separated_plain).
  - intros rest Ho Hs. cbn [doc_tokens app]. destruct rest as [|t rest]; [done|]. by split.
  - cbn [doc_tokens]. apply bracket_separable; try done. apply Forall_map. by eapply Forall_impl.
  - cbn [doc_tokens]. apply bracket_separable; try done. apply Forall_map. eapply Forall_impl; [exact IH|].
    intros m Hm rest Ho Hs. cbn [app]. apply separated_plain; [done|]. apply separated_plain; [done|]. by apply Hm.
Qed.

Lemma doc_separated d : separated (doc_tokens d).
Proof. rewrite <- (app_nil_r (doc_tokens d)). by apply doc_separable. Qed.

Lemma commas_Forall (P : JsonTokenEntry -> Prop) parts : P (punct Comma 44) -> Forall (Forall P) parts -> Forall P (commas parts).
Proof.
  intros Hc. induction 1 as [|p parts Hp _ IH]; [done|]. destruct parts as [|q parts]; [done|].
  change (commas (p :: q :: parts)) with (p ++ punct Comma 44 :: commas (q :: parts)). apply Forall_app_2; [done|]. by constructor.
Qed.

Ltac plain_token := apply tok_plain; unfold plain_tokens; set_solver.
Ltac plain_cases H := unfold plain_tokens in H; set_unfold in H; destruct_or! H; subst.

Lemma doc_tokens_ok `{Serde} d : doc_ok d -> Forall token_ok (doc_tokens d).
Proof.
  induction d as [| | | |items IH|members IH] using Doc_nested_ind; intros Hd; inversion Hd; subst; cbn [doc_tokens].
  - apply Forall_singleton. plain_token.
  - apply Forall_singleton. destruct b; plain_token.
  - by apply Forall_singleton, tok_num.
  - apply Forall_singleton, tok_str. by destruct H1.
  - constructor; [plain_token|]. apply Forall_app_2; [|constructor; [plain_token|done]]. apply commas_Forall; [plain_token|].
    apply Forall_map. rewrite Forall_forall in *. intros d Hin. by apply IH, H1.
  - constructor; [plain_token|]. apply Forall_app_2; [|constructor; [plain_token|done]]. apply commas_Forall; [plain_token|].
    apply Forall_map. rewrite Forall_forall in *. intros m Hin. destruct (H1 m Hin) as [[Hl _] Hm]. cbn beta.
    constructor; [by apply tok_str|]. constructor; [plain_token|]. by apply IH.
Qed.

Definition token_numbers (ts : list JsonTokenEntry) : list text := flat_map (fun t => if is_number t then [tok_text t] else []) ts.

Lemma token_numbers_app ts ts' : token_numbers (ts ++ ts') = token_numbers ts ++ token_numbers ts'.
Proof. apply flat_map_app. Qed.

Lemma token_numbers_plain t ts : is_number t = false -> token_numbers (t :: ts) = token_numbers ts.
Proof. unfold token_numbers. cbn [flat_map]. by intros ->. Qed.

Lemma commas_numbers parts : token_numbers (commas parts) = flat_map token_numbers parts.
Proof.
  induction parts as [|p parts IH]; [done|]. destruct parts as [|q parts]; [cbn; by rewrite app_nil_r|].
  change (commas (p :: q :: parts)) with (p ++ punct Comma 44 :: commas (q :: parts)).
  rewrite token_numbers_app, token_numbers_plain, IH by done. done.
Qed.

Lemma bracket_numbers o c parts : is_number o = false -> is_number c = false ->
  token_numbers (o :: commas parts ++ [c]) = flat_map token_numbers parts.
Proof.
  intros Ho Hc. rewrite token_numbers_plain, token_numbers_app, commas_numbers by done.
  rewrite token_numbers_plain by done. by rewrite app_nil_r.
Qed.

Lemma doc_tokens_numbers d : token_numbers (doc_tokens d) = doc_numbers d.
Proof.
  induction d as [|[]| | |items IH|members IH] using Doc_nested_ind; try done; cbn [doc_tokens doc_numbers]; rewrite bracket_numbers by done.
  - induction IH as [|d items Hd _ IHi]; [done|]. cbn [map flat_map]. by rewrite Hd, IHi.
  - induction IH as [|d members Hd _ IHi]; [done|]. cbn [map flat_map]. rewrite IHi, !token_numbers_plain by done. by rewrite Hd.
Qed.

(** ** Whitespace, literals and spellings under the scanners *)

Lemma space_ascii w : Forall space w -> utf8 w = w.
Proof. intros H. apply utf8_ascii. eapply Forall_impl; [exact H|]. intros c Hc. unfold space in Hc. lia. Qed.

Lemma space_whitespace c : space c -> is_ascii_whitespace c = true.
Proof. by intros [->| [->| [->| ->]]]. Qed.

Lemma space_separator w : Forall space w -> separator_ok w.
Proof.
  intros H. split.
  - eapply Forall_impl; [exact H|]. intros c Hc. unfold space in Hc. lia.
  - apply forallb_forall. intros c Hin%list_elem_of_In. rewrite Forall_forall in H. specialize (H c Hin) as Hc. by destruct Hc as [->| [->| [->| ->]]].
Qed.

Lemma exponent_le bs : (scan_json_exponent bs <= length bs)%nat.
Proof.
  destruct bs as [|b r]; [done|]. cbn [scan_json_exponent length]. destruct ((b =? 101) || (b =? 69)); [|lia].
  set (sign := match r with c :: _ => if is_sign c then 1%nat else 0%nat | [] => 0%nat end).
  pose proof (scan_digits_le (drop sign r)) as Hd. rewrite length_drop in Hd.
  assert (sign <= length r)%nat by (subst sign; destruct r as [|c r]; cbn; [lia|destruct (is_sign c); lia]).
  destruct (scan_ascii_digits (drop sign r)); lia.
Qed.

Lemma scan_number_le bs : (scan_json_number bs <= length bs)%nat.
Proof.
  unfold scan_json_number. cbv zeta. pose proof (scan_integer_le bs).
  pose proof (fraction_le (drop (scan_json_integer bs) bs)) as Hf. rewrite length_drop in Hf.
  pose proof (exponent_le (drop (scan_json_integer bs + scan_json_fraction (drop (scan_json_integer bs) bs)) bs)) as He.
  rewrite length_drop in He. lia.
Qed.

Lemma number_chars s : number_ok s -> Forall (fun c => in_number c = true) s.
Proof.
  intros (_ & Hs & Hh). apply Forall_forall. intros c Hc. apply list_elem_of_split in Hc as (pre & post & ->).
  destruct (in_number c) eqn:E; [done|]. destruct pre as [|b pre].
  - cbn [app] in Hh. unfold in_number in E. repeat (apply orb_false_iff in E as [E ?]). by rewrite E, (proj2 (Z.eqb_neq c 45)) in Hh by by apply Z.eqb_neq.
  - rewrite number_app in Hs; [|cbn [closed]; by rewrite E|done]. pose proof (scan_number_le (b :: pre)). rewrite length_app in Hs. cbn [length] in *. lia.
Qed.

Lemma drop_number_chars s r : Forall (fun c => in_number c = true) s -> closed r = true -> drop_number (s ++ r) = r.
Proof.
  intros H Hr. induction H as [|c s Hc _ IH]; cbn [app].
  - destruct r as [|c r]; [done|]. cbn [closed] in Hr. cbn [drop_number]. by destruct (in_number c).
  - cbn [drop_number]. by rewrite Hc.
Qed.

Lemma drop_char c r : scalar c -> c <> 34 -> c <> 92 -> drop_string false (utf8_char c ++ r) = drop_string false r.
Proof.
  intros Hc H1 H2. destruct (decide (c < 128)) as [Hl|Hl].
  - rewrite utf8_small by (apply scalar_range in Hc; lia). cbn [app drop_string].
    by rewrite (proj2 (Z.eqb_neq c 92)), (proj2 (Z.eqb_neq c 34)).
  - assert (Forall (fun b => 128 <= b) (utf8_char c)) as Hb.
    { apply scalar_range in Hc. unfold utf8_char. repeat case_match; ranges; repeat constructor; euclid. }
    induction Hb as [|b bs Hb _ IH]; [done|]. cbn [app drop_string].
    by rewrite (proj2 (Z.eqb_neq b 92)), (proj2 (Z.eqb_neq b 34)) by lia.
Qed.

Lemma drop_body s r : literal_body s -> drop_string false (utf8 s ++ r) = r.
Proof.
  induction 1 as [|c s Hc H1 H2 _ IH|c s Hc _ IH]; [done| |]; cbn [utf8 flat_map].
  - rewrite <- app_assoc, drop_char by done. apply IH.
  - rewrite (utf8_small 92), (utf8_small c) by lia. cbn [app drop_string]. apply IH.
Qed.

Lemma body_scalar s : literal_body s -> Forall scalar s /\ last (utf8 s) = Some 34.
Proof.
  induction 1 as [|c s Hc H1 H2 _ [IH IHl]|c s Hc _ [IH IHl]]; [by split; [repeat constructor|]| |].
  - split; [by constructor|]. cbn [utf8 flat_map]. rewrite last_app. fold (utf8 s). by rewrite IHl.
  - split; [repeat constructor; try done; unfold scalar, is_scalar; by rewrite (proj2 (in_range_true 0 55295 c)) by lia|].
    cbn [utf8 flat_map]. rewrite !last_app. fold (utf8 s). by rewrite IHl.
Qed.

(** ** The token at the front *)

Lemma token_text_front t : token_ok t -> tok_text t <> [] /\ Forall scalar (tok_text t).
Proof.
  assert (forall s, forallb is_scalar s = true -> Forall scalar s) as Hall.
  { intros s Hs. apply Forall_forall. intros c Hc. eapply forallb_forall in Hs; [exact Hs|by apply list_elem_of_In]. }
  destruct 1 as [t Hp|raw (Ha & _ & Hh)|l s (b & -> & Hb)]; split; try done.
  - by plain_cases Hp.
  - apply Hall. by plain_cases Hp.
  - cbn. by destruct raw.
  - cbn. eapply Forall_impl; [exact Ha|]. intros c Hc. cbv beta in Hc. unfold scalar, is_scalar. by rewrite (proj2 (in_range_true 0 55295 c)) by lia.
  - cbn. constructor; [done|]. by apply body_scalar.
Qed.

(** The octet in front of a token: not whitespace, and not one that continues a number. *)
Lemma token_head t : token_ok t -> exists b bs, utf8 (tok_text t) = b :: bs /\ is_ascii_whitespace b = false /\
  (is_number t = false -> in_number b = false).
Proof.
  destruct 1 as [t Hp|raw (Ha & _ & Hh)|l s (b & -> & Hb)]; try by eexists _, _.
  - plain_cases Hp; by eexists _, _.
  - cbn [tok_text number_token]. rewrite utf8_ascii by done. destruct raw as [|b raw]; [done|]. exists b, raw. split_and!; [done| |done].
    destruct (is_ascii_whitespace b) eqn:E; [|done]. unfold is_ascii_whitespace in E. unfold is_digit, in_range in Hh. lia.
Qed.

Lemma layout_closed ts s : Forall token_ok ts -> opens ts -> layout (tok_text <$> ts) s -> closed (utf8 s) = true.
Proof.
  intros Hok Ho Hl. assert (forall w r, Forall space w -> (w = [] -> closed r = true) -> closed (utf8 w ++ r) = true) as Hw.
  { intros [|c w] r Hw Hr; [by apply Hr|]. apply Forall_cons in Hw as [Hc Hw]. rewrite space_ascii by by constructor.
    by destruct Hc as [->| [->| [->| ->]]]. }
  destruct ts as [|t ts]; cbn [fmap list_fmap] in Hl; inversion Hl as [w H|w t' ts' r H Hr]; subst.
  - rewrite <- (app_nil_r (utf8 s)). by apply Hw.
  - rewrite !utf8_app. apply Hw; [done|]. intros _. apply Forall_cons in Hok as [Ht _].
    destruct (token_head t Ht) as (b & bs & -> & _ & Hb). cbn. by rewrite (Hb Ho).
Qed.

Lemma separated_opens t ts : separated (t :: ts) -> (is_number t = true -> opens ts) /\ separated ts.
Proof. destruct ts as [|t' ts]; [done|]. by intros [H1 H2]. Qed.

Lemma layout_cons t ts s : layout (tok_text <$> t :: ts) s ->
  exists w r, s = w ++ tok_text t ++ r /\ Forall space w /\ layout (tok_text <$> ts) r.
Proof. cbn [fmap list_fmap]. intros H. inversion H; subst. eauto. Qed.

Lemma layout_nil s : layout (tok_text <$> []) s -> Forall space s.
Proof. cbn. intros H. by inversion H. Qed.

(** ** Whole texts *)

Lemma scan_layout ts : forall s, Forall token_ok ts -> separated ts -> layout (tok_text <$> ts) s ->
  scan_json_numbers (utf8 s) = token_numbers ts.
Proof.
  induction ts as [|t ts IH]; intros s Hok Hs Hl.
  - apply layout_nil in Hl. rewrite <- (app_nil_r (utf8 s)). by rewrite scan_separator by by apply space_separator.
  - apply layout_cons in Hl as (w & r & -> & Hw & Hl). apply Forall_cons in Hok as [Ht Hok]. apply separated_opens in Hs as [Ho Hs].
    rewrite !utf8_app, scan_separator by by apply space_separator. specialize (IH r Hok Hs Hl). destruct Ht as [t Hp|raw Hn|l x Hx].
    + rewrite scan_separator; [rewrite IH; by plain_cases Hp|]. apply literal_separator. by plain_cases Hp.
    + cbn [tok_text number_token]. rewrite scan_number_token; [|done|by eapply layout_closed, Hl; [|apply Ho]]. rewrite IH.
      destruct Hn as [Ha _]. by rewrite utf8_ascii.
    + cbn [tok_text string_token]. by rewrite scan_literal, IH.
Qed.

Lemma token_rest_front t r : token_ok t -> (is_number t = true -> closed r = true) -> token_rest (utf8 (tok_text t) ++ r) = r.
Proof.
  destruct 1 as [t Hp|raw Hn|l s (b & -> & Hb)]; intros Hr.
  - by plain_cases Hp.
  - cbn [tok_text number_token]. specialize (Hr eq_refl). pose proof (number_chars _ Hn) as Hc. destruct Hn as (Ha & _ & Hh).
    rewrite utf8_ascii by done. destruct raw as [|b raw]; [done|]. cbn [app token_rest].
    assert ((b =? 34) = false) as -> by (apply Z.eqb_neq; intros ->; done). rewrite Hh. apply Forall_cons in Hc as [_ Hc]. by apply drop_number_chars.
  - cbn [tok_text string_token utf8 flat_map]. rewrite (utf8_small 34) by lia. cbn [app token_rest]. by apply drop_body.
Qed.

Lemma limit_layout ts : forall s fuel count, Forall token_ok ts -> separated ts -> layout (tok_text <$> ts) s ->
  (length (utf8 s) <= fuel)%nat -> count + Z.of_nat (length ts) <= MAX_JSON_TOKENS -> token_limit_loop fuel (utf8 s) count = Ok tt.
Proof.
  assert (forall w r fuel count, Forall space w -> (length (utf8 (w ++ r)) <= fuel)%nat -> exists fuel', (length (utf8 r) <= fuel')%nat /\
    token_limit_loop fuel (utf8 (w ++ r)) count = token_limit_loop fuel' (utf8 r) count) as Hspaces.
  { intros w r fuel count Hw. revert fuel. induction Hw as [|c w Hc Hw IH]; intros fuel Hf; [by exists fuel|].
    cbn [app utf8 flat_map] in *. assert (utf8_char c = [c]) as E by (apply utf8_small; unfold space in Hc; lia). rewrite E in *. cbn [app] in *.
    destruct fuel as [|fuel]; cbn [length] in Hf; [lia|]. cbn [token_limit_loop]. rewrite space_whitespace by done. apply IH. unfold utf8. lia. }
  induction ts as [|t ts IH]; intros s fuel count Hok Hs Hl Hf Hc.
  - apply layout_nil in Hl. destruct (Hspaces s [] fuel count Hl) as (fuel' & _ & E); [by rewrite app_nil_r|]. rewrite app_nil_r in E. rewrite E. by destruct fuel'.
  - apply layout_cons in Hl as (w & r & -> & Hw & Hl). apply Forall_cons in Hok as [Ht Hok]. apply separated_opens in Hs as [Ho Hs].
    destruct (Hspaces w (tok_text t ++ r) fuel count Hw Hf) as (fuel' & Hf' & ->). rewrite utf8_app in *.
    pose proof (token_rest_front t (utf8 r) Ht ltac:(intros Hn; eapply layout_closed; [done|by apply Ho|done])) as Hrest.
    destruct (token_head t Ht) as (b & bs & E & Hb & _). rewrite E in *. rewrite !length_app in Hf'. cbn [app length] in *.
    destruct fuel' as [|fuel']; [lia|]. cbn [token_limit_loop]. rewrite Hb, Hrest.
    assert ((MAX_JSON_TOKENS <=? count) = false) as -> by (apply Z.leb_gt; lia). apply IH; try done; lia.
Qed.

(** * Parsing is correct ([src/src/json.rs])

    Against that reference: parsing the text of a document gives what the
    duplicate policy makes of it, with every number exact; what was rendered parses
    back; the tokens that a token reader hands out are those of the document. *)

(** ** Members under a policy *)

Lemma text_eqb_decide a b : text_eqb a b = bool_decide (a = b).
Proof. apply eq_bool_prop_intro. rewrite bool_decide_spec, Is_true_true. apply text_eqb_spec. Qed.

Lemma elem_distinct k l : k ∈ distinct l <-> k ∈ l.
Proof.
  induction l as [|x l IH]; cbn [distinct]; [done|]. rewrite !elem_of_cons, list_elem_of_filter, IH.
  destruct (decide (k = x)); naive_solver.
Qed.

Lemma NoDup_distinct l : NoDup (distinct l).
Proof.
  induction l as [|x l IH]; cbn [distinct]; constructor; [|by apply NoDup_filter].
  rewrite list_elem_of_filter. naive_solver.
Qed.

Lemma distinct_snoc l k : distinct (l ++ [k]) = if decide (k ∈ l) then distinct l else distinct l ++ [k].
Proof.
  induction l as [|x l IH]; [done|]. cbn [app distinct]. rewrite IH.
  destruct (decide (k ∈ l)); [by rewrite decide_True by by right|]. rewrite filter_app.
  destruct (decide (k = x)) as [->|Hne].
  - rewrite decide_True by left. rewrite filter_cons_False by naive_solver. by rewrite filter_nil, app_nil_r.
  - rewrite decide_False by (rewrite elem_of_cons; naive_solver). by rewrite filter_cons_True, filter_nil by naive_solver.
Qed.

Section Chosen.
Context {A : Type}.
Implicit Types (members : list (text * A)) (k : text) (first : bool).

Definition entries_for (h : text -> option A) (ks : list text) : list (text * A) := omap (fun k => pair k <$> h k) ks.

Lemma entries_ext h g ks : (forall k, k ∈ ks -> h k = g k) -> entries_for h ks = entries_for g ks.
Proof.
  intros H. induction ks as [|k ks IH]; [done|]. unfold entries_for in *. cbn. rewrite (H k) by left. destruct (g k); cbn; [f_equal|]; (apply IH; intros k' Hk'; apply H; by right).
Qed.

Lemma get_entries h ks k : al_get text_eqb k (entries_for h ks) = if decide (k ∈ ks) then h k else None.
Proof.
  induction ks as [|x ks IH]; [done|]. unfold entries_for in *. cbn. destruct (h x) as [v|] eqn:E; cbn.
  - rewrite text_eqb_decide. case_bool_decide; subst; [by rewrite decide_True by left|]. rewrite IH.
    destruct (decide (k ∈ ks)); [by rewrite decide_True by by right|]. rewrite decide_False; [done|]. rewrite elem_of_cons. naive_solver.
  - rewrite IH. destruct (decide (k ∈ ks)); [by rewrite decide_True by by right|]. destruct (decide (k ∈ x :: ks)) as [Hk|]; [|done].
    apply elem_of_cons in Hk as [->|]; done.
Qed.

Lemma insert_entries h ks k v : NoDup ks -> (forall x, x ∈ ks -> is_Some (h x)) ->
  al_insert text_eqb k v (entries_for h ks) =
  entries_for (fun x => if decide (k = x) then Some v else h x) (if decide (k ∈ ks) then ks else ks ++ [k]).
Proof.
  intros Hnd Hs. induction ks as [|x ks IH]; [rewrite decide_False by apply not_elem_of_nil; unfold entries_for; cbn [omap list_omap app al_insert]; by rewrite decide_True|].
  apply NoDup_cons in Hnd as [Hx Hnd]. destruct (Hs x) as [u Hu]; [left|]. unfold entries_for in *. cbn [omap list_omap].
  rewrite Hu. cbn [fmap option_fmap option_map al_insert]. rewrite text_eqb_decide. case_bool_decide as E.
  - subst x. rewrite decide_True by left. cbn [omap list_omap]. rewrite decide_True by done. cbn. f_equal. apply entries_ext.
    intros y Hy. rewrite decide_False; [done|]. by intros ->.
  - rewrite IH by (try done; intros y Hy; apply Hs; by right). destruct (decide (k ∈ ks)).
    + rewrite decide_True by by right. cbn [omap list_omap]. rewrite decide_False by done. by rewrite Hu.
    + rewrite decide_False by (rewrite elem_of_cons; naive_solver). cbn [app omap list_omap]. rewrite decide_False by done. by rewrite Hu.
Qed.

(** The loop of the visitor on the values of the members. *)
Definition keep (first : bool) (acc : list (text * A)) (e : text * A) : list (text * A) :=
  if contains_member e.1 acc && first then acc else al_insert text_eqb e.1 e.2 acc.

Lemma get_snoc k members e : al_get text_eqb k (members ++ [e]) =
  match al_get text_eqb k members with Some v => Some v | None => if decide (e.1 = k) then Some e.2 else None end.
Proof.
  induction members as [|[x v] members IH]; cbn [app al_get].
  - destruct e as [x v]. cbn. rewrite text_eqb_decide. by case_bool_decide; case_decide.
  - by destruct (text_eqb x k).
Qed.

Lemma get_key k members : is_Some (al_get text_eqb k members) <-> k ∈ members.*1.
Proof.
  induction members as [|[x v] members IH]; cbn; [split; [by intros []|by intros ?%elem_of_nil]|]. rewrite elem_of_cons, <- IH, text_eqb_decide.
  case_bool_decide; subst; naive_solver.
Qed.

Lemma chosen_entries first members :
  chosen first members = entries_for (fun k => al_get text_eqb k (if first then members else rev members)) (distinct members.*1).
Proof. done. Qed.

Lemma chosen_some first members k : k ∈ distinct members.*1 -> is_Some (al_get text_eqb k (if first then members else rev members)).
Proof.
  rewrite elem_distinct. intros H. apply get_key. destruct first; [done|].
  apply list_elem_of_fmap in H as (e & -> & He). apply list_elem_of_fmap_2, list_elem_of_In. apply -> in_rev. by apply list_elem_of_In.
Qed.

Lemma contains_chosen first members k : contains_member k (chosen first members) = bool_decide (k ∈ members.*1).
Proof.
  unfold contains_member. rewrite chosen_entries, get_entries. destruct (decide (k ∈ distinct members.*1)) as [Hk|Hk].
  - destruct (chosen_some first members k Hk) as [v ->]. rewrite bool_decide_true; [done|]. by apply elem_distinct.
  - rewrite bool_decide_false; [done|]. by rewrite <- elem_distinct.
Qed.

Lemma insert_chosen first members k v : al_insert text_eqb k v (chosen first members) =
  entries_for (fun x => if decide (k = x) then Some v else al_get text_eqb x (if first then members else rev members))
    (distinct (members.*1 ++ [k])).
Proof.
  rewrite chosen_entries, insert_entries by (apply NoDup_distinct || by apply chosen_some). rewrite distinct_snoc.
  destruct (decide (k ∈ members.*1)); [rewrite decide_True by by apply elem_distinct|rewrite decide_False by by rewrite elem_distinct]; done.
Qed.

Lemma fold_chosen first members : foldl (keep first) [] members = chosen first members.
Proof.
  induction members as [|e members IH] using rev_ind; [done|]. rewrite foldl_app. cbn [foldl]. rewrite IH. unfold keep. rewrite contains_chosen.
  rewrite insert_chosen, (chosen_entries first (members ++ [e])), fmap_app. cbn [fmap list_fmap].
  destruct first; [rewrite andb_true_r|rewrite andb_false_r].
  - case_bool_decide as Hk.
    + rewrite distinct_snoc, decide_True by done. apply entries_ext. intros k Hk'. rewrite get_snoc.
      apply (chosen_some true) in Hk' as [v Hv]. cbn in Hv. by rewrite Hv.
    + apply entries_ext. intros k _. rewrite get_snoc. destruct (decide (e.1 = k)) as [<-|]; [|by destruct (al_get text_eqb k members)].
      destruct (al_get text_eqb e.1 members) eqn:E; [|done]. destruct Hk. apply get_key. by rewrite E.
  - apply entries_ext. intros k _. rewrite rev_app_distr. destruct e as [x v]. cbn. rewrite text_eqb_decide. by case_bool_decide; case_decide.
Qed.
End Chosen.

Lemma chosen_keys {A} first (members : list (text * A)) : (chosen first members).*1 = distinct members.*1.
Proof.
  rewrite chosen_entries. pose proof (chosen_some first members) as Hs. revert Hs. generalize (distinct members.*1) as ks.
  generalize (if first then members else rev members) as l. intros l ks Hs. induction ks as [|k ks IH]; [done|]. unfold entries_for in *. cbn [omap list_omap].
  destruct (Hs k) as [v ->]; [left|]. cbn. f_equal. apply IH. intros x Hx. apply Hs. by right.
Qed.

Lemma chosen_elem {A} first (members : list (text * A)) e : e ∈ chosen first members -> e ∈ members.
Proof.
  unfold chosen. intros (k & _ & E)%list_elem_of_omap. destruct (al_get text_eqb k _) as [v|] eqn:Eg; [|done]. injection E as <-.
  apply al_get_in in Eg as (k' & Hin & ->%text_eqb_spec). destruct first; [done|]. by rewrite list_elem_of_In, <- in_rev, <- list_elem_of_In in Hin.
Qed.

Lemma keep_fresh {A} first (l acc : list (text * A)) : NoDup ((acc ++ l).*1) -> foldl (keep first) acc l = acc ++ l.
Proof.
  revert acc. induction l as [|e l IH]; intros acc Hn; [by rewrite app_nil_r|]. cbn [foldl].
  assert (al_get text_eqb e.1 acc = None) as Hg.
  { apply eq_None_not_Some. rewrite get_key. rewrite fmap_app, NoDup_app in Hn. intros Hk. destruct Hn as (_ & Hn & _). eapply Hn; [exact Hk|]. cbn. left. }
  assert (keep first acc e = acc ++ [e]) as ->.
  { unfold keep, contains_member. rewrite Hg. cbn [andb]. rewrite al_insert_absent by done. by destruct e. }
  rewrite IH; by rewrite <- app_assoc.
Qed.

Lemma chosen_nodup {A} first (l : list (text * A)) : NoDup l.*1 -> chosen first l = l.
Proof. intros H. rewrite <- fold_chosen. by apply (keep_fresh first l []). Qed.

(** ** The walk *)

Section Walk.
Context `{Serde} (policy : JsonDuplicatePolicy) (as_float : text -> bool).
Let first : bool := bool_decide (policy = First).

Definition refused (d : Doc) : option text := if decide (policy = Reject) then first_duplicate d else None.

Definition walks (d : Doc) : Prop := forall pre post,
  match refused d with
  | Some k => visit policy (erase as_float d) (length pre) = Err (Custom (duplicate_key k))
  | None => exists v, visit policy (erase as_float d) (length pre) = Ok (v, length (pre ++ doc_numbers d)) /\
      convert_parsed_value v (pre ++ doc_numbers d ++ post) = Ok (resolve first d)
  end.

Definition refused_items (items : list Doc) : option text :=
  if decide (policy = Reject) then duplicate_item first_duplicate items else None.
Definition refused_members (seen : list text) (members : list (text * text * Doc)) : option text :=
  if decide (policy = Reject) then duplicate_member first_duplicate seen members else None.

Lemma refused_items_cons d items :
  refused_items (d :: items) = match refused d with Some k => Some k | None => refused_items items end.
Proof. unfold refused_items, refused. by destruct (decide (policy = Reject)). Qed.

Lemma refused_members_cons seen m members : refused_members seen (m :: members) =
  if decide (policy = Reject /\ member_key m ∈ seen) then Some (member_key m)
  else match refused m.2 with Some k => Some k | None => refused_members (member_key m :: seen) members end.
Proof.
  unfold refused_members, refused. destruct (decide (policy = Reject)) as [HR|HR]; [|by rewrite decide_False by tauto].
  cbn [duplicate_member]. destruct (decide (member_key m ∈ seen)); [by rewrite decide_True|by rewrite decide_False by tauto].
Qed.

Lemma walk_items items : Forall walks items -> forall pre post,
  match refused_items items with
  | Some k => visit_seq (visit policy) (map (erase as_float) items) None (length pre) = Err (Custom (duplicate_key k))
  | None => exists vs, visit_seq (visit policy) (map (erase as_float) items) None (length pre) = Ok (vs, length (pre ++ flat_map doc_numbers items)) /\
      collect_items (fun v => convert_parsed_value v (pre ++ flat_map doc_numbers items ++ post)) vs = Ok (map (resolve first) items)
  end.
Proof.
  induction 1 as [|d items Hd _ IH]; intros pre post.
  - assert (refused_items [] = None) as -> by (unfold refused_items; by destruct (decide _)). exists []. by rewrite app_nil_r.
  - rewrite refused_items_cons. cbn [map flat_map visit_seq]. specialize (Hd pre (flat_map doc_numbers items ++ post)).
    specialize (IH (pre ++ doc_numbers d) post). rewrite <- !app_assoc in *. destruct (refused d) as [k|]; [by rewrite Hd|].
    destruct Hd as (v & -> & Hv). cbn [result_bind]. destruct (refused_items items) as [k|]; [by rewrite IH|].
    destruct IH as (vs & -> & Hvs). exists (v :: vs). split; [done|]. cbn [collect_items]. rewrite Hv. cbn [result_bind]. by rewrite Hvs.
Qed.

Lemma contains_insert {A} k x (v : A) l : contains_member k (al_insert text_eqb x v l) = bool_decide (k = x) || contains_member k l.
Proof.
  unfold contains_member. induction l as [|[y u] l IH]; cbn [al_insert al_get].
  - rewrite text_eqb_decide. repeat case_bool_decide; subst; done.
  - rewrite !text_eqb_decide in *. repeat (case_bool_decide; subst; cbn [al_get]); rewrite ?text_eqb_decide; repeat (case_bool_decide; subst; try done).
Qed.

(** Parsed members and what they convert to. *)
Definition converts (all : list text) (acc : list (text * ParsedJson)) (out : list (text * Json)) : Prop :=
  Forall2 (fun a b => a.1 = b.1 /\ convert_parsed_value a.2 all = Ok b.2) acc out.

Lemma converts_contains all acc out k : converts all acc out -> contains_member k acc = contains_member k out.
Proof.
  unfold contains_member. induction 1 as [|[x v] [y j] acc out [E _] _ IH]; [done|]. cbn in E. subst y. cbn [al_get]. by destruct (text_eqb x k).
Qed.

Lemma converts_insert all acc out k v j : converts all acc out -> convert_parsed_value v all = Ok j ->
  converts all (al_insert text_eqb k v acc) (al_insert text_eqb k j out).
Proof.
  intros Hc Hv. induction Hc as [|[x u] [y i] acc out [E Hu] Hc IH]; [by repeat constructor|]. cbn in E. subst y. cbn [al_insert].
  destruct (text_eqb x k); constructor; done.
Qed.

Lemma converts_collect all acc out m : converts all acc out ->
  collect_members (fun v => convert_parsed_value v all) acc m = Ok (foldl (keep false) m out).
Proof.
  intros Hc. revert m. induction Hc as [|[x v] [y j] acc out [E Hv] _ IH]; intros m; [done|]. cbn in E, Hv. subst y. cbn [collect_members]. rewrite Hv. cbn [result_bind foldl].
  unfold keep at 2. rewrite andb_false_r. apply IH.
Qed.

Lemma walk_members members : Forall (fun m => walks m.2) members -> forall pre post acc out seen,
  converts (pre ++ flat_map (fun m => doc_numbers m.2) members ++ post) acc out ->
  (policy = Reject -> forall k, k ∈ seen <-> contains_member k acc = true) ->
  match refused_members seen members with
  | Some k => visit_map policy (visit policy) (map (fun m => (member_key m, erase as_float m.2)) members) None acc (length pre) = Err (Custom (duplicate_key k))
  | None => exists values, visit_map policy (visit policy) (map (fun m => (member_key m, erase as_float m.2)) members) None acc (length pre) =
        Ok (values, length (pre ++ flat_map (fun m => doc_numbers m.2) members)) /\
      converts (pre ++ flat_map (fun m => doc_numbers m.2) members ++ post) values
        (foldl (keep first) out (map (fun m => (member_key m, resolve first m.2)) members))
  end.
Proof.
  induction 1 as [|m members Hm _ IH]; intros pre post acc out seen Hc Hseen.
  - assert (refused_members seen [] = None) as -> by (unfold refused_members; by destruct (decide _)). exists acc. by rewrite app_nil_r.
  - rewrite refused_members_cons. cbn [map flat_map visit_map] in *. specialize (Hm pre (flat_map (fun m => doc_numbers m.2) members ++ post)).
    assert (contains_member (member_key m) acc && bool_decide (policy = Reject) = bool_decide (policy = Reject /\ member_key m ∈ seen)) as ->.
    { destruct (decide (policy = Reject)) as [HR|HR]; [|by rewrite !bool_decide_false, andb_false_r by tauto].
      rewrite (bool_decide_true (policy = Reject)), andb_true_r by done. apply eq_bool_prop_intro.
      rewrite bool_decide_spec, Is_true_true, (Hseen HR). tauto. }
    destruct (decide (policy = Reject /\ member_key m ∈ seen)) as [HR|HR]; [by rewrite bool_decide_true|].
    rewrite bool_decide_false by done. rewrite <- !app_assoc in *. destruct (refused m.2) as [k|]; [by rewrite Hm|].
    destruct Hm as (v & -> & Hv). cbn [result_bind]. rewrite (converts_contains _ _ _ (member_key m) Hc). fold first.
    set (acc' := if contains_member (member_key m) out && first then acc else al_insert text_eqb (member_key m) v acc).
    specialize (IH (pre ++ doc_numbers m.2) post acc' (keep first out (member_key m, resolve first m.2)) (member_key m :: seen)).
    rewrite <- !app_assoc in IH. apply IH.
    + subst acc'. unfold keep. cbn [fst snd]. destruct (_ && _); [done|]. by apply converts_insert.
    + intros HP k. subst acc' first. rewrite (bool_decide_false (policy = First)) by congruence.
      rewrite andb_false_r, contains_insert, orb_true_iff, bool_decide_eq_true, elem_of_cons, (Hseen HP). done.
Qed.
Lemma walk_doc d : walks d.
Proof.
  induction d as [|b|raw|l x|items IH|members IH] using Doc_nested_ind; intros pre post;
    try (assert (refused _ = None) as -> by (unfold refused; by destruct (decide _))).
  1,2,4: by eexists; rewrite app_nil_r.
  - exists (PNumber (length pre)). split; [by cbn; destruct (as_float raw); rewrite length_app, Nat.add_comm|].
    cbn [convert_parsed_value doc_numbers app]. by rewrite list_lookup_middle.
  - pose proof (walk_items items IH pre post) as Hi. change (refused (DArray items)) with (refused_items items). cbn [erase visit doc_numbers].
    destruct (refused_items items) as [k|]; [by rewrite Hi|]. destruct Hi as (vs & -> & Hvs). exists (PArray vs). split; [done|].
    cbn [convert_parsed_value]. by rewrite Hvs.
  - pose proof (walk_members members IH pre post [] [] [] ltac:(constructor)) as Hi. change (refused (DObject members)) with (refused_members [] members).
    cbn [erase visit doc_numbers]. destruct (refused_members [] members) as [k|]; [rewrite Hi; [done|]|].
    { intros _ k'. by rewrite elem_of_nil. }
    destruct Hi as (vs & -> & Hvs); [intros _ k'; by rewrite elem_of_nil|]. exists (PObject vs). split; [done|].
    cbn [convert_parsed_value resolve]. rewrite (converts_collect _ _ _ _ Hvs), !fold_chosen. cbn [result_bind]. do 2 f_equal.
    apply chosen_nodup. rewrite chosen_keys. apply NoDup_distinct.
Qed.

End Walk.

Section Correct.
Context `{Serde}.

(** What fits in one document. *)
Definition within_limits (d : Doc) (s : text) : Prop :=
  byte_len s <= MAX_JSON_INPUT_BYTES /\ Z.of_nat (length (doc_tokens d)) <= MAX_JSON_TOKENS.

(** The reference: what a policy makes of a document. *)
Definition parsed_as (policy : JsonDuplicatePolicy) (d : Doc) (s : text) : result Json string :=
  match policy, first_duplicate d with
  | Reject, Some k => Err (custom_error s (duplicate_key k))
  | First, _ => Ok (resolve true d)
  | _, _ => Ok (resolve false d)
  end.

Lemma parse_reads d s policy : doc_ok d -> spells d s -> serde_reads d s -> within_limits d s ->
  parse_with_policy s policy = parsed_as policy d s.
Proof.
  intros Hd Hs [[as_float Hr] Ht] [Hb Hn]. unfold parse_with_policy. rewrite (proj2 (Z.ltb_ge _ _)) by done.
  pose proof (doc_tokens_ok d Hd) as Hok. pose proof (doc_separated d) as Hsep.
  assert (enforce_json_token_limit (utf8 s) = Ok tt) as -> by (eapply limit_layout; [done|done|exact Hs|lia|lia]).
  cbn [result_bind]. rewrite (scan_layout _ _ Hok Hsep Hs), doc_tokens_numbers, Hr, Ht.
  pose proof (walk_doc policy as_float d [] []) as Hw. unfold refused in Hw. cbn [length app] in Hw. rewrite app_nil_r in Hw.
  destruct policy; cbn in Hw |- *.
  - destruct (first_duplicate d) as [k|]; [by rewrite Hw|]. destruct Hw as (v & -> & Hv). by rewrite Nat.eqb_refl.
  - destruct Hw as (v & -> & Hv). by rewrite Nat.eqb_refl.
  - destruct Hw as (v & -> & Hv). by rewrite Nat.eqb_refl.
Qed.

(** C39: Parsing JSON follows the duplicate policy and keeps numbers exact.  Take any text
    that spells a document, with whitespace anywhere between its tokens and with members
    repeated at will, which [serde_json] accepts and which is within the size limits.
    Under [Reject] the first repeated key, in the order of the text, is the error; under
    [First] and [Last], and without repetition, every key keeps the place where it first
    appeared with its first or last value, and every number left is the conversion of
    its own spelling, whatever numbers the discarded members held. *)
Theorem json_parse_resolves (d : Doc) (s : text) (policy : JsonDuplicatePolicy) :
  doc_ok d -> spells d s -> serde_reads d s -> within_limits d s -> parse_with_policy s policy = parsed_as policy d s.
Proof. apply parse_reads. Qed.

End Correct.

(** ** An instance

    Literals with backslash escapes of the quote and the backslash, floats spelled by
    their bits behind [0.], and the walk over two documents. *)

Fixpoint unescape_literal (s : text) : text :=
  match s with
  | c :: r => if c =? 92 then match r with c :: r => c :: unescape_literal r | [] => [] end
              else match r with [] => [] | _ => c :: unescape_literal r end
  | [] => []
  end.

Definition digits_value (ds : text) : Z := foldl (fun n c => 10 * n + (c - 48)) 0 ds.

Definition bits_of_text (raw : text) : option (Z * text) :=
  match raw with
  | 48 :: 46 :: ds =>
      let f := digits_value ds in
      if in_range 0 (2 ^ 64 - 1) f && is_finite f then Some (f, 48 :: 46 :: decimal 20 f) else None
  | _ => None
  end.

Definition demo_doc : Doc :=
  DObject [(txt "'a'", txt "a", DNumber (txt "1.50")); (txt "'b'", txt "b", DNumber (txt "7")); (txt "'a'", txt "a", DArray [DNumber (txt "-0"); DNumber (txt "0.5"); DBool true])].

(** The text with its quotes. *)
Definition quoted (s : string) : text := map (fun c => if c =? 39 then 34 else c) (txt s).
Fixpoint requote (d : Doc) : Doc :=
  let q := map (fun c => if c =? 39 then 34 else c) in
  match d with
  | DString l s => DString (q l) s
  | DArray items => DArray (map requote items)
  | DObject members => DObject (map (fun m => (q m.1.1, m.1.2, requote m.2)) members)
  | _ => d
  end.
Definition demo_text : text := quoted "{ 'a':1.50, 'b' :7,'a':[-0,0.5,true] }".
Definition demo_json : Json := JObject [(txt "a", JArray [JNumber 0 (txt "-0"); JFloat 5; JBool true]); (txt "b", JInt 7)].
Definition demo_printed : Doc :=
  DObject [(quoted "'a'", txt "a", DArray [DNumber (txt "-0"); DNumber (txt "0.5"); DBool true]); (quoted "'b'", txt "b", DNumber (txt "7"))].

Definition demo_serde : Serde := {|
  deserialize s :=
    if text_eqb s demo_text then erase (fun _ => false) (requote demo_doc)
    else match s with c :: _ => if c =? 123 then erase (fun _ => false) demo_printed else RInt | [] => RError "EOF" end;
  trailing _ := None;
  custom_error _ e := e +:+ " at line 1 column 25";
  string_of_literal s := if forallb is_scalar (unescape_literal (tail s)) then Ok (unescape_literal (tail s)) else Err "escape";
  quote := plain_quote;
  number_of_text := bits_of_text;
  float_text f := 48 :: 46 :: decimal 20 f;
|}.

Lemma demo_number_ok raw : Forall (fun c => in_range 0 127 c = true) raw -> scan_json_number raw = length raw ->
  match raw with b :: _ => (b =? 45) || is_digit b = true | [] => False end -> number_ok raw.
Proof. intros Ha Hs Hh. split; [|done]. eapply Forall_impl; [exact Ha|]. intros c Hc. cbv beta in Hc. apply in_range_true in Hc. lia. Qed.

Ltac demo_number := apply demo_number_ok; [repeat constructor|reflexivity|reflexivity].

Lemma demo_literal_ok c : 97 <= c <= 122 -> @literal_ok demo_serde [34; c; 34] [c].
Proof.
  intros Hc. split.
  - eexists. split; [done|]. apply body_char; [unfold scalar, is_scalar; by rewrite (proj2 (in_range_true 0 55295 c)) by lia|lia|lia|apply body_end].
  - cbn. rewrite (proj2 (Z.eqb_neq c 92)) by lia. cbn. unfold is_scalar. by rewrite (proj2 (in_range_true 0 55295 c)) by lia.
Qed.

Lemma demo_doc_ok : @doc_ok demo_serde (requote demo_doc).
Proof.
  apply dok_object. repeat (apply Forall_cons; split); [..|done]; (split; [first [apply (demo_literal_ok 97); lia|apply (demo_literal_ok 98); lia]|]).
  - apply dok_number. demo_number.
  - apply dok_number. demo_number.
  - apply dok_array. repeat (apply Forall_cons; split); [apply dok_number; demo_number|apply dok_number; demo_number|apply dok_bool|done].
Qed.

Ltac demo_layout :=
  repeat match goal with
  | |- layout (?t :: _) (32 :: _) => apply (layout_token [32] t); [apply Forall_singleton; by left|]
  | |- layout (?t :: _) _ => apply (layout_token [] t); [constructor|]
  | |- layout [] _ => apply layout_end; constructor
  end.

Lemma json_parse_resolves_witness :
  @parse_with_policy demo_serde demo_text Last = Ok demo_json /\
  @parse_with_policy demo_serde demo_text Reject = Err (duplicate_key (txt "a") +:+ " at line 1 column 25").
Proof.
  assert (spells (requote demo_doc) demo_text) as Hs by (vm_compute; demo_layout).
  assert (@serde_reads demo_serde (requote demo_doc) demo_text) as Hr by (split; [exists (fun _ => false)|]; reflexivity).
  assert (within_limits (requote demo_doc) demo_text) as Hl by (split; vm_compute; discriminate).
  split.
  - apply (@json_parse_resolves demo_serde (requote demo_doc) demo_text Last demo_doc_ok Hs Hr Hl).
  - apply (@json_parse_resolves demo_serde (requote demo_doc) demo_text Reject demo_doc_ok Hs Hr Hl).
Defined.
