(* ===== verification/JsonRoundTrip.v ===== *)
(** * Writing and reading JSON back ([src/src/json.rs])

    What [stringify] writes is a text of the document, in every layout, and parsing it
    gives the document again; the tokens of a text are those of its document. *)

From S2P Require Import Prelude AssocList Object Value Str Utf8 Http HttpProps Cli CliProps Json JsonParse JsonParseProps.

(** ** Layouts *)

Lemma layout_space w ts s : Forall space w -> layout ts s -> layout ts (w ++ s).
Proof.
  intros Hw. induction 1 as [w' Hw'|w' t ts r Hw' Hr _].
  - apply layout_end. by apply Forall_app.
  - rewrite app_assoc. apply layout_token; [by apply Forall_app|done].
Qed.

Lemma layout_app ts s ts' s' : layout ts s -> layout ts' s' -> layout (ts ++ ts') (s ++ s').
Proof.
  induction 1 as [w Hw|w t ts r Hw Hr IH]; intros H'; cbn [app]; [by apply layout_space|].
  rewrite <- !app_assoc. by apply layout_token; [|apply IH].
Qed.

Lemma layout_one t : layout [t] t.
Proof. rewrite <- (app_nil_r t) at 2. by apply (layout_token []); [|apply layout_end]. Qed.

(** A token with whitespace behind it. *)
Lemma layout_then t w : Forall space w -> layout [t] (t ++ w).
Proof. intros Hw. by apply (layout_token [] t [] w); [|apply layout_end]. Qed.

Definition texts (ts : list JsonTokenEntry) : list text := tok_text <$> ts.

Lemma layout_commas parts ss w : Forall space w -> Forall2 (fun p s => layout (texts p) s) parts ss ->
  layout (texts (commas parts)) (join (44 :: w) ss).
Proof.
  intros Hw. induction 1 as [|p s parts ss Hp H IH]; [by apply layout_end|]. destruct H as [|q s' parts ss Hq H]; [done|].
  rewrite join_cons by done. change (commas (p :: q :: parts)) with (p ++ [punct Comma 44] ++ commas (q :: parts)).
  unfold texts in *. rewrite !fmap_app. apply layout_app; [done|]. apply layout_app; [by apply (layout_then [44])|done].
Qed.

(** Both forms of a bracketed list. *)
Lemma layout_brackets ok oc ck cc parts ss indent depth : Forall2 (fun p s => layout (texts p) s) parts ss ->
  layout (texts (punct ok oc :: commas parts ++ [punct ck cc]))
    (match indent with
     | None => oc :: join [44] ss ++ [cc]
     | Some width => oc :: 10 :: join [44; 10] (map (fun c => repeat 32 (width * S depth) ++ c) ss) ++ [10] ++ repeat 32 (width * depth) ++ [cc]
     end).
Proof.
  intros H. assert (forall n, Forall space (repeat 32 n)) as Hpad by (intros n; apply Forall_forall; intros c Hc%list_elem_of_In%repeat_spec; by left).
  unfold texts. cbn [fmap list_fmap]. rewrite fmap_app. destruct indent as [width|].
  - apply (layout_app [[oc]] (oc :: [10])); [apply (layout_then [oc]); repeat constructor; unfold space; lia|]. apply layout_app.
    + apply (layout_commas parts _ [10]); [repeat constructor; unfold space; lia|].
      induction H as [|p s parts ss Hp _ IH]; constructor; [by apply layout_space|done].
    + apply (layout_space [10]); [repeat constructor; unfold space; lia|]. apply layout_space; [done|]. apply (layout_one [cc]).
  - apply (layout_app [[oc]] [oc]); [apply layout_one|]. apply layout_app; [by apply (layout_commas parts ss [])|apply (layout_one [cc])].
Qed.

(** ** Documents that can be stored *)

Section RoundTrip.
Context `{Serde}.

(** What [serde_json] documents: a string that it writes is a literal of that string,
    strings that it reads are Unicode, a real number that it reads is a finite [f64] and is
    written as that [f64] is.  Nothing is assumed of the precision of its float parser,
    which is exact only with a feature that the crate does not enable. *)
Class SerdeLaws : Prop := {
  quote_reads s : Forall scalar s -> literal_ok (quote s) s;
  literal_scalar literal s : string_of_literal literal = Ok s -> Forall scalar s;
  number_reads raw f spelling : number_of_text raw = Some (f, spelling) -> spells_real raw = true ->
    is_finite f = true /\ spelling = float_text f;
}.

(** A float whose text is a real number that reads back as the float. *)
Definition reads_back (f : Z) : Prop :=
  number_ok (float_text f) /\ spells_real (float_text f) = true /\ number_of_text (float_text f) = Some (f, float_text f).

(** Trees that parsing produces: numbers as integers and floats where that keeps their
    spelling, distinct keys. *)
Inductive storable : Json -> Prop :=
| st_null : storable JNull
| st_bool b : storable (JBool b)
| st_int i : is_i64 i -> storable (JInt i)
| st_float f : is_finite f = true -> reads_back f -> storable (JFloat f)
| st_number raw : number_ok raw -> parsed_number raw = JNumber 0 raw -> storable (JNumber 0 raw)
| st_string s : Forall scalar s -> storable (JString s)
| st_array items : Forall storable items -> storable (JArray items)
| st_object entries : NoDup entries.*1 -> Forall (fun e => Forall scalar e.1 /\ storable e.2) entries -> storable (JObject entries).

(** The document that [stringify] writes. *)
Fixpoint doc_of (j : Json) : Doc :=
  match j with
  | JNull => DNull
  | JBool b => DBool b
  | JInt i => DNumber (mux_int_to_string i)
  | JFloat f => DNumber (float_text f)
  | JNumber _ raw => DNumber raw
  | JString s => DString (quote s) s
  | JArray items => DArray (map doc_of items)
  | JObject entries => DObject (map (fun '(k, v) => (quote k, k, doc_of v)) entries)
  end.

Context `{!SerdeLaws}.

Lemma doc_of_ok j : storable j -> doc_ok (doc_of j).
Proof.
  induction j as [| | | | | |items IH|entries IH] using Json_nested_ind; intros Hj; inversion Hj; subst; cbn [doc_of]; constructor.
  - by apply int_number_ok.
  - by match goal with Hf : reads_back _ |- _ => apply Hf end.
  - done.
  - by apply quote_reads.
  - apply Forall_map. rewrite Forall_forall in *. auto.
  - apply Forall_map. rewrite Forall_forall in *. intros [k v] He. match goal with Hf : forall x, _ -> Forall scalar _ /\ _ |- _ => destruct (Hf _ He) as [Hk Hv] end.
    split; [by apply quote_reads|]. by apply (IH _ He).
Qed.

Lemma parsed_int i : is_i64 i -> parsed_number (mux_int_to_string i) = JInt i.
Proof.
  intros Hi. pose proof (int_print_parse i Hi) as Hp. unfold to_int in Hp. unfold parsed_number.
  destruct (from_str_radix 10 _) as [v|]; [|done]. injection Hp as ->. by rewrite (proj2 (text_eqb_spec _ _) eq_refl).
Qed.

Lemma int_not_real i : spells_real (mux_int_to_string i) = false.
Proof.
  assert (forall n, 0 <= n -> spells_real (decimal 20 n) = false) as Hd.
  { intros n Hn. pose proof (decimal_digits 20 n Hn) as Hc. unfold spells_real. induction Hc as [|c r Hc _ IH]; [done|]. cbn [existsb]. rewrite IH. lia. }
  unfold mux_int_to_string. destruct (i <? 0) eqn:E; bool_to_prop; [|by apply Hd]. cbn. apply Hd. lia.
Qed.

Lemma parsed_real raw : spells_real raw = true ->
  parsed_number raw = match parsed_float raw with Some f => JFloat f | None => JNumber 0 raw end.
Proof.
  intros Hr. unfold parsed_number. rewrite Hr. cbn [negb]. destruct (from_str_radix 10 raw) as [i|]; [|done].
  destruct (text_eqb (mux_int_to_string i) raw) eqn:E; [|done]. apply text_eqb_spec in E. rewrite <- E, int_not_real in Hr. done.
Qed.

Lemma parsed_back f : reads_back f -> parsed_number (float_text f) = JFloat f.
Proof.
  intros (_ & Hr & Hn). rewrite parsed_real by done. unfold parsed_float.
  by rewrite Hn, (proj2 (text_eqb_spec _ _) eq_refl).
Qed.

Lemma doc_of_resolve first j : storable j -> resolve first (doc_of j) = j.
Proof.
  induction j as [| | | | | |items IH|entries IH] using Json_nested_ind; intros Hj; inversion Hj; subst; cbn [doc_of resolve]; try done.
  - by apply parsed_int.
  - by apply parsed_back.
  - f_equal. rewrite map_map. rewrite <- (map_id items) at 2. apply map_ext_in. intros v Hv%list_elem_of_In. rewrite Forall_forall in *. auto.
  - f_equal. rewrite map_map. transitivity (chosen first entries); [f_equal|by apply chosen_nodup].
    rewrite <- (map_id entries) at 2. apply map_ext_in. intros [k v] He%list_elem_of_In. rewrite Forall_forall in *. unfold member_key. cbn.
    f_equal. apply (IH _ He). match goal with Hf : forall x, _ -> Forall scalar _ /\ _ |- _ => apply (Hf _ He) end.
Qed.

Lemma duplicate_none members : Forall (fun m => first_duplicate m.2 = None) members -> forall seen,
  NoDup (map member_key members) -> (forall k, k ∈ seen -> k ∉ map member_key members) -> duplicate_member first_duplicate seen members = None.
Proof.
  induction 1 as [|m members Hm _ IH]; intros seen Hn Hs; [done|]. cbn [map duplicate_member] in *. apply NoDup_cons in Hn as [Hk Hn].
  rewrite decide_False, Hm by (intros Hin; apply (Hs _ Hin); left). apply IH; [done|]. intros k [->|Hin]%elem_of_cons; [done|].
  intros Hk'. apply (Hs _ Hin). by right.
Qed.

Lemma doc_of_single j : storable j -> first_duplicate (doc_of j) = None.
Proof.
  induction j as [| | | | | |items IH|entries IH] using Json_nested_ind; intros Hj; inversion Hj as [| | | | | |? Hall|? Hn Hall]; subst; cbn [doc_of first_duplicate]; try done.
  - clear Hj. induction IH as [|v items Hv _ IHi]; [done|]. apply Forall_cons in Hall as [H1 Hall]. cbn. by rewrite Hv, IHi.
  - apply duplicate_none; [|replace (map member_key _) with entries.*1; [done|]|].
    + apply Forall_map. rewrite Forall_forall in *. intros [k v] He. cbn. apply (IH _ He), (Hall _ He).
    + rewrite map_map. apply map_ext. by intros [k v].
    + intros k Hk%elem_of_nil. done.
Qed.

Lemma doc_of_layout j : storable j -> forall indent depth,
  spells (doc_of j) (render_json quote float_spelling j indent depth).
Proof.
  induction j as [| | | | | |items IH|entries IH] using Json_nested_ind; intros Hj indent depth;
    inversion Hj as [| | | | | |? Hall|? Hn Hall]; subst; unfold spells; cbn [doc_of doc_tokens render_json]; try apply layout_one.
  - unfold float_spelling. match goal with Hf : is_finite f = true |- _ => rewrite Hf end. apply layout_one.
  - destruct items as [|v items]; [apply (layout_app [[91]] [91]); apply layout_one|]. apply (layout_brackets StartArray 91 EndArray 93).
    clear Hj. revert Hall. induction IH as [|x l Hx _ IHl]; intros Hall; constructor; apply Forall_cons in Hall as [H1 Hall]; [by apply Hx|by apply IHl].
  - destruct entries as [|e entries]; [apply (layout_app [[123]] [123]); apply layout_one|]. apply (layout_brackets StartObject 123 EndObject 125).
    clear Hj Hn. revert Hall. induction IH as [|[k x] l Hx _ IHl]; intros Hall; constructor; apply Forall_cons in Hall as [[_ H1] Hall]; [|by apply IHl].
    cbn [fst snd]. apply (layout_app [quote k] (quote k)); [apply layout_one|]. apply (layout_app [[58]]); [|by apply Hx].
    destruct indent; [apply (layout_then [58] [32]); repeat constructor; unfold space; lia|apply layout_one].
Qed.

Lemma parse_digits_range radix sign s : forall acc i, is_i64 acc -> parse_digits radix sign s acc = Some i -> is_i64 i.
Proof.
  induction s as [|c s IH]; intros acc i Ha E; cbn [parse_digits] in E; [by injection E as <-|]. destruct (to_digit radix c); [|done].
  destruct (_ && _) eqn:Er; [|done]. apply andb_true_iff in Er as [_ Er]. apply in_range_true in Er. by eapply IH.
Qed.

Lemma from_str_range raw i : from_str_radix 10 raw = Some i -> is_i64 i.
Proof.
  unfold from_str_radix. assert (is_i64 0) by by split. destruct raw as [|c r]; [done|]. destruct (c =? 45), (c =? 43); try destruct r; try done; by apply parse_digits_range.
Qed.

Lemma parsed_number_cases raw :
  (exists i, parsed_number raw = JInt i /\ is_i64 i) \/
  (exists f, parsed_number raw = JFloat f /\ spells_real raw = true /\ number_of_text raw = Some (f, raw)) \/
  parsed_number raw = JNumber 0 raw.
Proof.
  unfold parsed_number, parsed_float. pose proof (from_str_range raw) as Hi.
  destruct (from_str_radix 10 raw) as [i|]; [destruct (text_eqb (mux_int_to_string i) raw); [by left; eauto|]|].
  all: destruct (spells_real raw); cbn [negb]; [|by right; right]; destruct (number_of_text raw) as [[f spelling]|]; [|by right; right].
  all: destruct (text_eqb spelling raw) eqn:Es; [|by right; right]; apply text_eqb_spec in Es as ->; right; left; by eauto.
Qed.

Lemma parsed_number_storable raw : number_ok raw -> storable (parsed_number raw).
Proof.
  intros Hn. destruct (parsed_number_cases raw) as [(i & -> & Hi)|[(f & -> & Hr & Hf)|E]].
  - by apply st_int.
  - destruct (number_reads raw f raw Hf Hr) as [Hi ->]. by apply st_float.
  - rewrite E. by apply st_number.
Qed.

Lemma resolve_storable first d : doc_ok d -> storable (resolve first d).
Proof.
  induction d as [| | | |items IH|members IH] using Doc_nested_ind; intros Hd; inversion Hd as [| | |? ? [_ Hl]|? Hall|? Hall]; subst; cbn [resolve]; try by constructor.
  - by apply parsed_number_storable.
  - apply st_string. by eapply literal_scalar.
  - apply st_array. apply Forall_map. rewrite Forall_forall in *. auto.
  - apply st_object; [rewrite chosen_keys; apply NoDup_distinct|]. apply Forall_forall. intros e He.
    assert (e ∈ map (fun m => (member_key m, resolve first m.2)) members) as Hin by by eapply chosen_elem.
    apply list_elem_of_In, in_map_iff in Hin as (m & <- & Hm%list_elem_of_In). rewrite Forall_forall in Hall, IH.
    destruct (Hall m Hm) as [[_ Hk] Hm']. split; [by eapply literal_scalar|by apply IH].
Qed.

(** C40: A program can read JSON and write it back.  What parsing any text of a document
    gives is storable: its floats are those whose own text reads back, whatever the
    precision of [serde_json]'s parser, and its keys are distinct.  And any storable tree,
    written with any indentation, parses to itself under every policy, numbers with their
    spellings and members in their order.  Both for texts that [serde_json] accepts and
    that are within the limits of the runtime on octets and tokens. *)
Theorem json_text_roundtrip :
  (forall d s policy j, doc_ok d -> spells d s -> serde_reads d s -> within_limits d s ->
    parse_with_policy s policy = Ok j -> storable j) /\
  (forall j indent policy, storable j ->
    serde_reads (doc_of j) (json_text j indent) -> within_limits (doc_of j) (json_text j indent) ->
    parse_with_policy (json_text j indent) policy = Ok j).
Proof.
  split.
  - intros d s policy j Hd Hs Hr Hl. rewrite (parse_reads d) by done. unfold parsed_as.
    destruct policy; repeat case_match; intros E; try done; injection E as <-; by apply resolve_storable.
  - intros j indent policy Hj Hr Hl. rewrite (parse_reads (doc_of j)); [|by apply doc_of_ok|by apply doc_of_layout|done..].
    unfold parsed_as. rewrite doc_of_single, !doc_of_resolve by done. by destruct policy.
Qed.

End RoundTrip.

(** ** Tokens *)

Section Tokens.
Context `{Serde}.

(** The values behind the tokens: numbers that parse, literals that decode. *)
Definition readable (t : JsonTokenEntry) : Prop :=
  match tok_value t with
  | Some (TokNumber raw) => exists j, parse raw = Ok j /\ match j with JInt _ | JFloat _ | JNumber _ _ => True | _ => False end
  | Some (TokString s) => string_of_literal (tok_text t) = Ok s
  | _ => True
  end.

Lemma token_at_front t r position : token_ok t -> readable t -> (is_number t = true -> closed r = true) ->
  token_at (utf8 (tok_text t) ++ r) position = Some (Ok (tok_kind t, tok_value t, length (utf8 (tok_text t)))).
Proof.
  intros Ht Hr Hc. destruct Ht as [t Hp|raw Hn|l x (b & -> & Hb)].
  - by plain_cases Hp.
  - specialize (Hc eq_refl). destruct Hr as (j & Hj & Hk). pose proof (number_chars _ Hn) as Hch. destruct Hn as (Ha & _ & Hh). cbn [tok_text tok_kind tok_value number_token].
    assert (utf8_decode raw = Some raw) as Hdec.
    { rewrite <- (utf8_ascii raw Ha) at 1. apply utf8_decode_utf8. eapply Forall_impl; [exact Ha|]. intros c Hc'. cbv beta in Hc'.
      unfold scalar, is_scalar. by rewrite (proj2 (in_range_true 0 55295 c)) by lia. }
    rewrite utf8_ascii by done. destruct raw as [|b raw]; [done|]. cbn [app]. unfold token_at. apply Forall_cons in Hch as [_ Hch].
    rewrite (drop_number_chars raw r Hch Hc).
    assert (45 = b \/ 48 <= b <= 57) as Hb by (unfold is_digit, in_range in Hh; lia).
    rewrite !(proj2 (Z.eqb_neq b _)) by lia. rewrite Hh.
    assert ((length (b :: raw ++ r) - length r)%nat = length (b :: raw)) as -> by (cbn [length]; rewrite length_app; lia).
    change (b :: raw ++ r) with ((b :: raw) ++ r). rewrite take_app_length. unfold str_slice. rewrite Hdec. cbn [mbind option_bind]. rewrite Hj. by destruct j.
  - destruct (body_scalar b Hb) as [Hs Hl]. cbn [tok_text tok_kind tok_value string_token readable] in *. assert (utf8 (34 :: b) = 34 :: utf8 b) as E by done.
    assert (utf8_decode (34 :: utf8 b) = Some (34 :: b)) as Hdec by (rewrite <- E; apply utf8_decode_utf8; by constructor).
    rewrite E. cbn [app]. unfold token_at. cbn [Z.eqb Pos.eqb]. rewrite (drop_body b r Hb).
    assert ((length (34%Z :: utf8 b ++ r) - length r)%nat = length (34 :: utf8 b)) as -> by (cbn [length]; rewrite length_app; lia).
    change (34 :: utf8 b ++ r) with ((34 :: utf8 b) ++ r). rewrite take_app_length.
    assert (last (34 :: utf8 b) = Some 34) as Hlast by (by rewrite last_cons, Hl). rewrite Hlast, bool_decide_true by done. cbn [negb].
    unfold str_slice. rewrite Hdec. cbn [mbind option_bind]. by rewrite Hr.
Qed.

Lemma token_spelling t : token_ok t -> str_slice (utf8 (tok_text t)) = Some (tok_text t) /\ tok_names t = 0.
Proof.
  intros Ht. split; [|by destruct Ht as [t Hp| |]; [plain_cases Hp|..]]. apply utf8_decode_utf8. by apply token_text_front.
Qed.

Lemma doc_readable d : doc_ok d -> Forall (fun t => is_number t = false -> readable t) (doc_tokens d).
Proof.
  induction d as [|b| | |items IH|members IH] using Doc_nested_ind; intros Hd; inversion Hd as [| | |? ? [_ Hl]|? Hall|? Hall]; subst; cbn [doc_tokens].
  - by apply Forall_singleton.
  - by apply Forall_singleton.
  - by apply Forall_singleton.
  - by apply Forall_singleton.
  - constructor; [done|]. apply Forall_app_2; [|by apply Forall_singleton]. apply commas_Forall; [done|].
    apply Forall_map. rewrite Forall_forall in *. auto.
  - constructor; [done|]. apply Forall_app_2; [|by apply Forall_singleton]. apply commas_Forall; [done|].
    apply Forall_map. rewrite Forall_forall in *. intros m Hm. destruct (Hall m Hm) as [[_ Hk] Hv]. constructor; [done|]. constructor; [done|]. by apply IH.
Qed.

(** Every number that fits is accepted on its own. *)
Definition numbers_readable (ts : list JsonTokenEntry) : Prop := Forall (fun raw => serde_reads (DNumber raw) raw) (token_numbers ts).

Lemma number_readable raw : number_ok raw -> serde_reads (DNumber raw) raw -> byte_len raw <= MAX_JSON_INPUT_BYTES -> readable (number_token raw).
Proof.
  intros Hn Hr Hl. exists (parsed_number raw). split.
  - apply (parse_reads (DNumber raw) raw Reject); [by constructor|apply layout_one|done|by split].
  - unfold parsed_number. repeat case_match; done.
Qed.

Lemma tokens_layout total ts : forall s fuel acc, Forall token_ok ts -> separated ts -> layout (tok_text <$> ts) s ->
  Forall (fun t => is_number t = false -> readable t) ts -> numbers_readable ts ->
  (length (utf8 s) <= fuel)%nat -> byte_len s <= MAX_JSON_INPUT_BYTES -> Z.of_nat (length (acc ++ ts)) <= MAX_JSON_TOKENS ->
  token_loop fuel total (utf8 s) acc = Some (Ok (acc ++ ts)).
Proof.
  assert (forall w r fuel acc, Forall space w -> (length (utf8 (w ++ r)) <= fuel)%nat -> exists fuel', (length (utf8 r) <= fuel')%nat /\
    token_loop fuel total (utf8 (w ++ r)) acc = token_loop fuel' total (utf8 r) acc) as Hspaces.
  { intros w r fuel acc Hw. revert fuel. induction Hw as [|c w Hc Hw IH]; intros fuel Hf; [by exists fuel|].
    cbn [app utf8 flat_map] in *. assert (utf8_char c = [c]) as E by (apply utf8_small; unfold space in Hc; lia). rewrite E in *. cbn [app] in *.
    destruct fuel as [|fuel]; cbn [length] in Hf; [lia|]. cbn [token_loop]. rewrite space_whitespace by done. apply IH. unfold utf8. lia. }
  induction ts as [|t ts IH]; intros s fuel acc Hok Hs Hl Hv Hn Hf Hb Hc.
  - apply layout_nil in Hl. destruct (Hspaces s [] fuel acc Hl) as (fuel' & _ & E); [by rewrite app_nil_r|]. rewrite !app_nil_r in *. rewrite E. by destruct fuel'.
  - apply layout_cons in Hl as (w & r & -> & Hw & Hl). apply Forall_cons in Hok as [Ht Hok], Hv as [Hv Hvs]. apply separated_opens in Hs as [Ho Hs].
    destruct (Hspaces w (tok_text t ++ r) fuel acc Hw Hf) as (fuel' & Hf' & ->). unfold byte_len, nlen in *. rewrite !utf8_app in *. rewrite !length_app in *.
    unfold numbers_readable in *. replace (t :: ts) with ([t] ++ ts) in Hn by done. rewrite token_numbers_app, Forall_app in Hn. destruct Hn as [Hn1 Hn].
    assert (readable t) as Hread.
    { destruct (is_number t) eqn:En; [|by apply Hv]. destruct Ht as [t Hp|raw Ht|]; [by plain_cases Hp| |done].
      apply Forall_cons in Hn1 as [Hn1 _]. apply number_readable; [done..|]. cbn [tok_text number_token] in *. unfold byte_len, nlen. lia. }
    pose proof (fun position => token_at_front t (utf8 r) position Ht Hread ltac:(intros E; eapply layout_closed; [done|by apply Ho|done])) as Hat.
    destruct (token_spelling t Ht) as [Hsp Hz].
    destruct (token_head t Ht) as (b & bs & E & Hws & _). rewrite E in *. cbn [length app] in *. destruct fuel' as [|fuel']; [lia|].
    cbn [token_loop]. rewrite Hws, Hat. cbn [mbind option_bind]. change (b :: bs ++ utf8 r) with ((b :: bs) ++ utf8 r).
    change (S (length bs)) with (length (b :: bs)). rewrite take_app_length, drop_app_length, Hsp. cbn [mbind option_bind].
    rewrite (proj2 (Z.leb_gt _ _)) by (cbn [length] in *; lia).
    rewrite IH; try done; try (cbn [length] in *; rewrite ?length_app; cbn [length]; unfold byte_len, nlen; lia).
    rewrite <- app_assoc. destruct t; cbn in Hz |- *. by rewrite Hz.
Qed.

(** A token reader hands out exactly the tokens of the document.  For any text that
    spells a document, that [serde_json] accepts, and that is within the limits: a
    repeated key is an error; otherwise the tokens are those of the document, in order,
    each with its kind, its exact spelling and its value, and no cut falls inside a
    character. *)
Lemma json_tokens_exact (d : Doc) (s : text) :
  doc_ok d -> spells d s -> serde_reads d s -> Forall (fun raw => serde_reads (DNumber raw) raw) (doc_numbers d) -> within_limits d s ->
  scan_json_tokens s =
  Some (match first_duplicate d with Some k => Err (custom_error s (duplicate_key k)) | None => Ok (doc_tokens d) end).
Proof.
  intros Hd Hs Hr Hn Hl. unfold scan_json_tokens, parse. rewrite (parse_reads d) by done. unfold parsed_as. destruct (first_duplicate d); [done|].
  destruct Hl as [Hb Hc]. apply (tokens_layout _ (doc_tokens d) s _ []); try done; [by apply doc_tokens_ok|apply doc_separated|by apply doc_readable|].
  unfold numbers_readable. by rewrite doc_tokens_numbers.
Qed.

End Tokens.

(** ** The instance *)

Lemma unescape_plain s : unescape_literal (flat_map (fun c => if (c =? 34) || (c =? 92) then [92; c] else [c]) s ++ [34]) = s.
Proof.
  induction s as [|c s IH]; [done|]. cbn [flat_map]. rewrite <- app_assoc. destruct ((c =? 34) || (c =? 92)) eqn:E; cbn [app unescape_literal].
  - change (92 =? 92) with true. cbn iota. by rewrite IH.
  - apply orb_false_iff in E as [_ E]. rewrite E. destruct (_ ++ [34]) eqn:En; [by destruct (flat_map _ s)|]. by rewrite IH.
Qed.

#[local] Instance demo_laws : @SerdeLaws demo_serde.
Proof.
  split.
  - intros s Hs. split; [by apply plain_quote_literal|]. change (string_of_literal _) with
      (let u := unescape_literal (flat_map (fun c => if (c =? 34) || (c =? 92) then [92; c] else [c]) s ++ [34]) in
       if forallb is_scalar u then Ok u else Err "escape" : result text string). cbv zeta. rewrite unescape_plain.
    assert (forallb is_scalar s = true) as E by (apply forallb_forall; intros c Hc%list_elem_of_In; rewrite Forall_forall in Hs; by apply Hs). by rewrite E.
  - intros l s E. change (string_of_literal l) with
      (if forallb is_scalar (unescape_literal (tail l)) then Ok (unescape_literal (tail l)) else Err "escape" : result text string) in E.
    destruct (forallb is_scalar _) eqn:Es; [|done]. injection E as <-. apply Forall_forall. intros c Hc%list_elem_of_In. by eapply forallb_forall in Es.
  - intros raw f spelling E _. change (bits_of_text raw = Some (f, spelling)) in E. unfold bits_of_text in E.
    repeat (case_match; try done). apply Some_inj, pair_equal_spec in E as [<- <-].
    match goal with Hb : _ && _ = true |- _ => apply andb_true_iff in Hb as [_ Hb] end. done.
Qed.

Lemma demo_storable : @storable demo_serde demo_json.
Proof.
  apply st_object; [vm_compute; repeat constructor; set_solver|].
  repeat (apply Forall_cons; split); [..|done]; (split; [by repeat constructor|]).
  - apply st_array. repeat (apply Forall_cons; split); [apply st_number; [demo_number|reflexivity]|apply st_float; [done|split_and!; [demo_number|reflexivity..]]|apply st_bool|done].
  - by apply st_int.
Qed.

Lemma json_text_roundtrip_witness :
  @json_text demo_serde demo_json (Some 2%nat) <> @json_text demo_serde demo_json None /\
  @storable demo_serde demo_json /\
  @parse_with_policy demo_serde (@json_text demo_serde demo_json (Some 2%nat)) First = Ok demo_json.
Proof.
  destruct (@json_text_roundtrip demo_serde demo_laws) as [Hparsed Hback]. split; [vm_compute; discriminate|]. split.
  - apply (Hparsed (requote demo_doc) demo_text Last demo_json demo_doc_ok); [vm_compute; demo_layout| | |reflexivity].
    + split; [exists (fun _ => false)|]; reflexivity.
    + split; vm_compute; discriminate.
  - apply (Hback demo_json (Some 2%nat) First demo_storable).
    + split; [exists (fun _ => false)|]; reflexivity.
    + split; vm_compute; discriminate.
Defined.
