(* ===== verification/JsonValueProps.v ===== *)
(** * Canonical text and conversions ([src/src/json.rs]) *)

From stdpp Require Import sorting.
From S2P Require Import Prelude AssocList Object Value Heap Display DynValue Str Utf8 Stream Http HttpProps Cli CliProps Json JsonParse JsonValue JsonParseProps JsonRoundTrip.

(** ** The order of keys *)

Lemma string_cmp_ord : ord_on (Forall scalar) string_cmp.
Proof.
  apply (ord_on_impl (fun s => Forall (fun _ => True) (utf8 s))); [intros; apply Forall_any|].
  apply (ord_on_proj utf8 (Forall (fun _ => True))), Zlex_ord.
Qed.

Lemma string_cmp_eq a b : Forall scalar a -> Forall scalar b -> string_cmp a b = Eq -> a = b.
Proof.
  intros Ha Hb. unfold string_cmp. rewrite utf8_lex, lex_cmp_eq by done. induction 1 as [|x y a b E _ IH] in Ha, Hb |- *; [done|].
  apply Z.compare_eq in E. apply Forall_cons in Ha as [_ Ha], Hb as [_ Hb]. subst. f_equal. by apply IH.
Qed.

Lemma sorted_keys_unique l1 l2 : Forall (Forall scalar) l1 -> l1 ≡ₚ l2 -> sort_by string_cmp l1 = sort_by string_cmp l2.
Proof.
  intros H1 Hp. assert (Forall (Forall scalar) l2) as H2 by by rewrite <- Hp.
  apply (StronglySorted_unique_strong (le_by string_cmp)).
  - intros a b Ha Hb Hab Hba. assert (Forall scalar a) by (rewrite sort_by_perm in Ha; by rewrite Forall_forall in H1; apply H1).
    assert (Forall scalar b) by (rewrite sort_by_perm in Hb; by rewrite Forall_forall in H2; apply H2).
    apply string_cmp_eq; [done..|]. unfold le_by in *. rewrite (ord_opp _ _ string_cmp_ord a b) in Hba by done. by destruct (string_cmp a b).
  - by apply (sort_by_sorted _ _ string_cmp_ord).
  - by apply (sort_by_sorted _ _ string_cmp_ord).
  - by rewrite !sort_by_perm.
Qed.

(** ** Members in the order of their keys *)

Lemma sorted_entries {A} (ms : list (text * A)) : NoDup ms.*1 ->
  sorted_members ms = entries_for (fun k => al_get text_eqb k ms) (sort_by string_cmp ms.*1).
Proof.
  intros Hn. unfold sorted_members. change (map fst ms) with ms.*1. assert (NoDup (sort_by string_cmp ms.*1)) as Hs by by rewrite sort_by_perm.
  assert (forall ks acc, (forall k, k ∈ ks -> is_Some (al_get text_eqb k ms)) -> NoDup (acc.*1 ++ ks) ->
    foldl (fun m key => match al_get text_eqb key ms with Some v => al_insert text_eqb key v m | None => m end) acc ks =
    acc ++ entries_for (fun k => al_get text_eqb k ms) ks) as Hgen.
  { intros ks. induction ks as [|k ks IH]; intros acc Hk Hd; [by rewrite app_nil_r|]. cbn [foldl]. unfold entries_for. cbn [omap list_omap].
    destruct (Hk k) as [v Hv]; [left|]. rewrite Hv. cbn [fmap option_fmap option_map]. rewrite al_insert_absent.
    - rewrite IH; [by rewrite <- app_assoc|intros x Hx; apply Hk; by right|]. rewrite fmap_app. cbn. by rewrite <- app_assoc.
    - apply eq_None_not_Some. rewrite get_key. apply NoDup_app in Hd as (_ & Hd & _). intros Hin. apply (Hd _ Hin). left. }
  rewrite Hgen; [done| |done]. intros k Hk. rewrite sort_by_perm in Hk. by apply get_key.
Qed.

Lemma get_perm {A} (m1 m2 : list (text * A)) k : NoDup m1.*1 -> m1 ≡ₚ m2 -> al_get text_eqb k m1 = al_get text_eqb k m2.
Proof.
  intros Hn Hp. induction Hp as [|[x v] m1 m2 Hp IH|[x v] [y u] m|m1 m2 m3 H1 IH1 H2 IH2]; cbn [al_get]; [done| | |].
  - cbn in Hn. apply NoDup_cons in Hn as [_ Hn]. by rewrite IH.
  - cbn in Hn. apply NoDup_cons in Hn as [Hx _]. rewrite !text_eqb_decide. repeat case_bool_decide; subst; try done. destruct Hx. left.
  - rewrite IH1 by done. apply IH2. by rewrite <- H1.
Qed.

Lemma sorted_members_perm {A} (m1 m2 : list (text * A)) : NoDup m1.*1 -> Forall (Forall scalar) m1.*1 -> m1 ≡ₚ m2 ->
  sorted_members m1 = sorted_members m2.
Proof.
  intros Hn Hs Hp. assert (m1.*1 ≡ₚ m2.*1) as Hk by by rewrite Hp. assert (NoDup m2.*1) by by rewrite <- Hk.
  rewrite !sorted_entries by done. rewrite (sorted_keys_unique m1.*1 m2.*1) by done. apply entries_ext. intros k _. by apply get_perm.
Qed.

(** ** Canonical text *)

(** The same document up to the order of the members of its objects. *)
Inductive reordered : Json -> Json -> Prop :=
| ro_same j : reordered j j
| ro_array xs ys : Forall2 reordered xs ys -> reordered (JArray xs) (JArray ys)
| ro_object es gs fs : es ≡ₚ gs -> Forall2 (fun a b => a.1 = b.1 /\ reordered a.2 b.2) gs fs -> reordered (JObject es) (JObject fs).

(** The keys of every object are in strictly increasing order of their octets. *)
Inductive keys_sorted : SerdeValue -> Prop :=
| ks_null : keys_sorted SNull
| ks_bool b : keys_sorted (SBool b)
| ks_number s : keys_sorted (SNumber s)
| ks_string s : keys_sorted (SString s)
| ks_array items : Forall keys_sorted items -> keys_sorted (SArray items)
| ks_object ms : StronglySorted (fun a b => string_cmp a b = Lt) ms.*1 -> Forall (fun e => keys_sorted e.2) ms -> keys_sorted (SObject ms).

Section Canonical.
Context `{Serde}.

Lemma canonical_reordered j1 : storable j1 -> forall j2, reordered j1 j2 -> canonical_serde_value j1 = canonical_serde_value j2.
Proof.
  induction j1 as [| | | | | |items IH|entries IH] using Json_nested_ind; intros Hj j2 Hr; inversion Hr as [|? ys Hy|? gs fs Hp Hf]; subst; try done;
    inversion Hj as [| | | | | |? Hall|? Hn Hall]; subst; cbn [canonical_serde_value]; f_equal.
  - clear Hr Hj. induction Hy as [|x y xs ys Hx _ IHy]; [done|]. apply Forall_cons in IH as [IHx IH], Hall as [Hx' Hall]. cbn [map]. f_equal; [by apply IHx|by apply IHy].
  - set (canon := fun e : text * Json => let '(k, v) := e in (k, canonical_serde_value v)).
    assert (map canon gs = map canon fs) as <-.
    { assert (Forall (fun e => forall j2, reordered e.2 j2 -> canonical_serde_value e.2 = canonical_serde_value j2) gs) as IHg.
      { rewrite <- Hp. rewrite Forall_forall in IH, Hall |- *. intros e He j2 Hr2. apply (IH e He); [by apply (Hall e He)|done]. }
      clear Hp Hr Hj. induction Hf as [|[k v] [k' v'] gs fs [E Hv] _ IHf]; [done|]. apply Forall_cons in IHg as [IHv IHg]. cbn in E. subst k'. cbn [map canon]. f_equal; [|by apply IHf].
      f_equal. by apply IHv. }
    assert (forall l, (map canon l).*1 = l.*1) as Hkeys by (intros l; induction l as [|[k v] l IHl]; [done|]; cbn; by rewrite <- IHl).
    apply sorted_members_perm; [by rewrite Hkeys| |by apply Permutation_map]. rewrite Hkeys. apply Forall_fmap. eapply Forall_impl; [exact Hall|]. by intros e [He _].
Qed.
Lemma sorted_strict (ks : list text) : Forall (Forall scalar) ks -> NoDup ks -> StronglySorted (fun a b => string_cmp a b = Lt) (sort_by string_cmp ks).
Proof.
  intros Hs Hn. assert (StronglySorted (le_by string_cmp) (sort_by string_cmp ks)) as Ho by exact (sort_by_sorted _ _ string_cmp_ord ks Hs). assert (Forall (Forall scalar) (sort_by string_cmp ks)) as Hs' by by apply sort_by_Forall.
  assert (NoDup (sort_by string_cmp ks)) as Hn' by by rewrite sort_by_perm. revert Ho Hs' Hn'. generalize (sort_by string_cmp ks) as sorted. intros sorted Ho.
  induction Ho as [|k l _ IH Hk]; intros Hs' Hn'; [constructor|]. apply Forall_cons in Hs' as [Hk' Hs']. apply NoDup_cons in Hn' as [Hin Hn']. constructor; [by apply IH|]. rewrite Forall_forall in Hk, Hs' |- *. intros x Hx.
  specialize (Hk x Hx). unfold le_by in Hk. destruct (string_cmp k x) eqn:E; [|done|done]. apply string_cmp_eq in E; [|done|by apply Hs']. by subst.
Qed.

Lemma sorted_members_keys {A} (ms : list (text * A)) : NoDup ms.*1 -> (sorted_members ms).*1 = sort_by string_cmp ms.*1.
Proof.
  intros Hn. rewrite sorted_entries by done. assert (forall k, k ∈ sort_by string_cmp ms.*1 -> is_Some (al_get text_eqb k ms)) as Hk.
  { intros k Hk. rewrite sort_by_perm in Hk. by apply get_key. }
  induction (sort_by string_cmp ms.*1) as [|k ks IH]; [done|]. unfold entries_for in *. cbn [omap list_omap]. destruct (Hk k) as [v ->]; [left|].
  cbn. f_equal. apply IH. intros x Hx. apply Hk. by right.
Qed.

Lemma sorted_members_elem {A} (ms : list (text * A)) e : NoDup ms.*1 -> e ∈ sorted_members ms -> e ∈ ms.
Proof.
  intros Hn. rewrite sorted_entries by done. unfold entries_for. intros (k & _ & E)%list_elem_of_omap.
  destruct (al_get text_eqb k ms) as [v|] eqn:Eg; [|done]. injection E as <-. by apply al_get_in in Eg as (k' & Hin & ->%text_eqb_spec).
Qed.

Lemma convert_leaf_sorted j : (forall items, j <> JArray items) -> (forall es, j <> JObject es) -> keys_sorted (convert_to_serde_value j).
Proof. intros Ha Ho. destruct j; [..|by destruct (Ha items)|by destruct (Ho entries)]; cbn [convert_to_serde_value]; repeat case_match; constructor. Qed.

Lemma canonical_sorted j : storable j -> keys_sorted (canonical_serde_value j).
Proof.
  induction j as [| | | | | |items IH|entries IH] using Json_nested_ind; intros Hj; try by apply convert_leaf_sorted.
  - inversion Hj as [| | | | | |? Hall|]; subst. apply ks_array, Forall_map. rewrite Forall_forall in *. auto.
  - inversion Hj as [| | | | | | |? Hn Hall]; subst. cbn [canonical_serde_value]. set (canon := fun e : text * Json => let '(k, v) := e in (k, canonical_serde_value v)).
    assert ((map canon entries).*1 = entries.*1) as Hkeys by (clear; induction entries as [|[k v] l IHl]; [done|]; cbn; by rewrite <- IHl).
    assert (NoDup (map canon entries).*1) as Hn' by by rewrite Hkeys. apply ks_object.
    + rewrite sorted_members_keys, Hkeys by done. apply sorted_strict; [|done]. apply Forall_fmap. eapply Forall_impl; [exact Hall|]. by intros e [He _].
    + apply Forall_forall. intros e He%sorted_members_elem; [|done]. apply list_elem_of_In, in_map_iff in He as ([k v] & <- & He%list_elem_of_In).
      rewrite Forall_forall in IH, Hall. apply (IH _ He), (Hall _ He).
Qed.

Context `{SerdePrint}.

(** Canonical text depends on the document only.  Documents that differ in the order
    of the members of their objects, at any depth, have the same canonical text, and in
    what is printed the keys of every object are in strictly increasing order of their
    octets. *)
Lemma json_canonical_order (j1 j2 : Json) :
  storable j1 -> reordered j1 j2 -> canonical j1 = canonical j2 /\ keys_sorted (canonical_serde_value j1).
Proof. intros Hj Hr. unfold canonical. rewrite <- (canonical_reordered j1 Hj j2 Hr). split; [done|by apply canonical_sorted]. Qed.

End Canonical.

(** ** Values and back *)

Lemma text_of_octets s : Forall scalar s -> text_of (octets_of s) = s.
Proof.
  intros Hs. unfold text_of, octets_of. rewrite txt_string_of_octets by by apply utf8_byte. by rewrite utf8_decode_utf8.
Qed.

(** How many numbers of a tree become objects. *)
Fixpoint exact_count (j : Json) : Z :=
  match j with
  | JNumber _ _ => 1
  | JArray items => foldr (fun j n => exact_count j + n) 0 items
  | JObject entries => foldr (fun e n => exact_count e.2 + n) 0 entries
  | _ => 0
  end.

Section Values.
Context `{Serde} `{NumberHeap}.

(** [alloc_object] answers a new object of the class. *)
Class NumberHeapLaws : Prop := {
  alloc_some w : exists o, alloc_number w = Some o /\ obj_type o = JSON_NUMBER_TYPE_ID /\ obj_ptr o <> 0 /\ number_objects w !! obj_ptr o = None;
}.
Context `{!NumberHeapLaws}.

(** Handles in use were numbered before. *)
Definition numbers_ok (w : numbers_state) : Prop := forall h e, number_entries w !! h = Some e -> h < next_number w.

(** Numbers that could be read still can. *)
Definition extends (w w' : numbers_state) : Prop := forall v raw, json_number_raw v w = Some raw -> json_number_raw v w' = Some raw.

Lemma extends_trans w1 w2 w3 : extends w1 w2 -> extends w2 w3 -> extends w1 w3.
Proof. intros Ha Hb v raw Hr. by apply Hb, Ha. Qed.

(** What a conversion leaves: [c] numbers more, and the rest readable as before. *)
Definition grown (c : Z) (w w' : numbers_state) : Prop :=
  numbers_ok w' /\ extends w w' /\ next_number w' = next_number w + c.

Lemma grown_refl w : numbers_ok w -> grown 0 w w.
Proof. intros Hw. split_and!; [done|by intros v raw|lia]. Qed.

Lemma grown_trans c1 c2 w1 w2 w3 : grown c1 w1 w2 -> grown c2 w2 w3 -> grown (c1 + c2) w1 w3.
Proof. intros (_ & Ha & Hb) (Hc & Hd & He). split_and!; [done|by eapply extends_trans|lia]. Qed.

(** The value reads back as the tree, now and after more conversions. *)
Definition reads (w : numbers_state) (v : value) (j : Json) : Prop := forall w', extends w w' -> value_to_json w' v = Ok j.

Lemma number_value_ok raw w v w' : numbers_ok w -> next_number w < i64_max -> json_number_value raw w = (v, w') ->
  grown 1 w w' /\ reads w' v (JNumber 0 raw).
Proof.
  intros Hw Hn E. unfold json_number_value in E.
  set (w1 := mk_numbers _ _ _) in E. destruct (alloc_some w1) as (o & Ho & Ht & Hp & Hf). rewrite Ho, (proj2 (Z.eqb_neq _ _)) in E by done.
  injection E as <- <-. subst w1. cbn [number_entries next_number number_objects] in *. unfold next_or_one. rewrite (proj2 (Z.eqb_neq _ _)) by lia.
  split.
  - split_and!; [| |done].
    + intros h e. cbn. rewrite lookup_insert_Some. intros [[<- _]|[_ He]]; [lia|]. apply Hw in He. lia.
    + intros x r. unfold json_number_raw, json_number_handle. cbn. destruct (negb _); [done|]. destruct (_ =? 0); [done|].
      destruct (number_objects w !! get_object_ptr x) as [h|] eqn:Eh; [|done]. rewrite lookup_insert_ne by congruence. rewrite Eh. cbn.
      destruct (number_entries w !! h) as [e|] eqn:Ee; [|done]. pose proof (Hw _ _ Ee). rewrite lookup_insert_ne, Ee by lia. rewrite bool_decide_true by done. cbn.
      by rewrite lookup_insert_ne by lia.
  - intros w' Hext. cbn [value_to_json]. rewrite (Hext (Some (VObject o)) raw); [done|]. unfold json_number_raw, json_number_handle. cbn.
    rewrite Ht, Z.eqb_refl, (proj2 (Z.eqb_neq _ _)) by done. cbn. rewrite lookup_insert_eq. cbn. rewrite lookup_insert_eq, bool_decide_true by done. cbn. by rewrite lookup_insert_eq.
Qed.

Definition converts_back (j : Json) : Prop := storable j -> forall w v w', numbers_ok w -> next_number w + exact_count j <= i64_max ->
  json_to_value j w = (v, w') -> grown (exact_count j) w w' /\ reads w' v j.

Lemma exact_nonneg j : 0 <= exact_count j.
Proof.
  induction j as [| | | | | |items IH|entries IH] using Json_nested_ind; cbn [exact_count]; try lia.
  - induction IH as [|x l Hx _ IHl]; cbn; lia.
  - induction IH as [|x l Hx _ IHl]; cbn; lia.
Qed.

Lemma sum_nonneg items : 0 <= foldr (fun j n => exact_count j + n) 0 items.
Proof. induction items as [|j items IH]; cbn; [lia|]. pose proof (exact_nonneg j). lia. Qed.

Lemma items_back items : Forall converts_back items -> Forall storable items -> forall w vs w', numbers_ok w ->
  next_number w + foldr (fun j n => exact_count j + n) 0 items <= i64_max -> values_of json_to_value items w = (vs, w') ->
  grown (foldr (fun j n => exact_count j + n) 0 items) w w' /\ (forall w'', extends w' w'' -> collect_items (value_to_json w'') vs = Ok items).
Proof.
  induction 1 as [|j items Hj _ IH]; intros Hs w vs w' Hw Hn E; cbn [values_of foldr] in *.
  - injection E as <- <-. by split; [apply grown_refl|].
  - apply Forall_cons in Hs as [Hsj Hs]. destruct (json_to_value j w) as [v w1] eqn:E1. destruct (values_of json_to_value items w1) as [vs1 w2] eqn:E2. injection E as <- <-.
    pose proof (sum_nonneg items). destruct (Hj Hsj w v w1) as [G1 R1]; [done|lia|done|]. destruct (IH Hs w1 vs1 w2) as [G2 R2]; [by destruct G1|destruct G1 as (_ & _ & ->); lia|done|].
    split; [by eapply grown_trans|]. intros w'' Hext. cbn [collect_items]. rewrite (R1 w'') by (eapply extends_trans; [apply G2|done]). cbn [result_bind]. by rewrite (R2 w'' Hext).
Qed.

Lemma octets_inj k k' : Forall scalar k -> Forall scalar k' -> octets_of k = octets_of k' -> k = k'.
Proof. intros Hk Hk' E. by rewrite <- (text_of_octets k), <- (text_of_octets k'), E. Qed.

Lemma key_absent k (m : list (value * value)) : Forall (fun e => e.1 <> VString (octets_of k)) m -> al_get key_eqb (VString (octets_of k)) m = None.
Proof.
  induction 1 as [|[x v] m Hx _ IH]; [done|]. cbn in Hx |- *. destruct (key_eqb x (VString (octets_of k))) eqn:E; [|done].
  destruct x; try done. cbn in E. apply String.eqb_eq in E. by subst.
Qed.

Lemma members_sum_nonneg (ms : list (text * Json)) : 0 <= foldr (fun e n => exact_count e.2 + n) 0 ms.
Proof. induction ms as [|e ms IH]; cbn; [lia|]. pose proof (exact_nonneg e.2). lia. Qed.

Lemma members_back (ms : list (text * Json)) : Forall (fun e => converts_back e.2) ms -> Forall (fun e => Forall scalar e.1 /\ storable e.2) ms -> NoDup ms.*1 ->
  forall w acc m w', numbers_ok w -> next_number w + foldr (fun e n => exact_count e.2 + n) 0 ms <= i64_max ->
  Forall (fun e => forall k, k ∈ ms.*1 -> e.1 <> VString (octets_of k)) acc -> members_of json_to_value ms acc w = (m, w') ->
  grown (foldr (fun e n => exact_count e.2 + n) 0 ms) w w' /\
  exists new, m = acc ++ new /\ Forall2 (fun e ev => ev.1 = VString (octets_of e.1) /\ reads w' ev.2 e.2) ms new.
Proof.
  induction 1 as [|[k j] ms Hj _ IH]; intros Hs Hnd w acc m w' Hw Hn Hacc E; cbn [members_of foldr] in *.
  - injection E as <- <-. split; [by apply grown_refl|]. exists []. by rewrite app_nil_r.
  - apply Forall_cons in Hs as [[Hk Hsj] Hs]. cbn in Hnd. apply NoDup_cons in Hnd as [Hkn Hnd]. cbn [fst snd] in *.
    destruct (json_to_value j w) as [v w1] eqn:E1. pose proof (members_sum_nonneg ms). destruct (Hj Hsj w v w1) as [G1 R1]; [done|lia|done|].
    rewrite al_insert_absent in E by (apply key_absent; eapply Forall_impl; [exact Hacc|]; intros e He; apply He; left).
    destruct (IH Hs Hnd w1 (acc ++ [(VString (octets_of k), v)]) m w') as [G2 (new & -> & R2)]; [by destruct G1|destruct G1 as (_ & _ & ->); lia| |done|].
    + apply Forall_app_2; [eapply Forall_impl; [exact Hacc|]; intros e He k' Hk'; apply He; by right|]. apply Forall_singleton. intros k' Hk' [= E']. apply octets_inj in E'; [by subst|done|].
      apply list_elem_of_fmap in Hk' as (e & -> & He). rewrite Forall_forall in Hs. by apply Hs.
    + split; [by eapply grown_trans|]. exists ((VString (octets_of k), v) :: new). split; [by rewrite <- app_assoc|]. constructor; [|done].
      split; [done|]. intros w'' Hext. apply R1. eapply extends_trans; [apply G2|done].
Qed.

Lemma json_members_back w (ms : list (text * Json)) (new : list (value * value)) : Forall2 (fun e ev => ev.1 = VString (octets_of e.1) /\ value_to_json w ev.2 = Ok e.2) ms new ->
  Forall (fun e => Forall scalar e.1) ms -> forall out, NoDup ((out ++ ms).*1) -> json_members (value_to_json w) new out = Ok (out ++ ms).
Proof.
  induction 1 as [|[k j] [x v] ms new [Ek Ev] _ IH]; intros Hs out Hnd; [by rewrite app_nil_r|]. apply Forall_cons in Hs as [Hk Hs]. cbn [fst snd] in Ek, Ev, Hk. subst x.
  cbn [json_members]. rewrite Ev. cbn [result_bind]. rewrite text_of_octets by done. unfold object_insert. rewrite al_insert_absent.
  - rewrite IH; [by rewrite <- app_assoc|done|by rewrite <- app_assoc].
  - apply eq_None_not_Some. rewrite get_key. rewrite fmap_app, NoDup_app in Hnd. destruct Hnd as (_ & Hnd & _). intros Hin. apply (Hnd _ Hin). left.
Qed.

Lemma all_back j : converts_back j.
Proof.
  induction j as [| | | | | |items IH|entries IH] using Json_nested_ind; intros Hj w v w' Hw Hn E; inversion Hj as [| | |? Hf Hr| |? Hs|? Hall|? Hnd Hall]; subst;
    cbn [json_to_value exact_count] in *; try (injection E as <- <-; split; [by apply grown_refl|]; intros w' _; cbn [value_to_json]; try done).
  - by rewrite Hf.
  - by eapply number_value_ok; [|lia|].
  - by rewrite text_of_octets.
  - destruct (values_of json_to_value items w) as [vs w1] eqn:E1. injection E as <- <-. destruct (items_back items IH Hall w vs w1) as [G R]; try done.
    split; [done|]. intros w'' Hext. cbn [value_to_json]. by rewrite R.
  - destruct (members_of json_to_value entries [] w) as [m w1] eqn:E1. injection E as <- <-.
    destruct (members_back entries IH Hall Hnd w [] m w1) as [G (new & -> & R)]; try done. split; [done|]. intros w'' Hext. cbn [value_to_json app].
    rewrite (json_members_back w'' entries new) with (out := []); [done| | |done].
    + eapply Forall2_impl; [exact R|]. intros e ev [He Hv]. split; [done|]. by apply Hv.
    + eapply Forall_impl; [exact Hall|]. by intros e [He _].
Qed.

(** A document survives the runtime's values.  Converting a parsed document to a
    runtime value and back gives the document, exact numbers included, however many
    documents are converted in between; the numbers that were there before stay
    readable, and the table has one entry more per exact number. *)
Lemma json_value_roundtrip (j : Json) (w w' w'' : numbers_state) (v : value) :
  storable j -> numbers_ok w -> next_number w + exact_count j <= i64_max -> json_to_value j w = (v, w') -> extends w' w'' ->
  value_to_json w'' v = Ok j /\ extends w w' /\ next_number w' = next_number w + exact_count j.
Proof. intros Hj Hw Hn E Hext. destruct (all_back j Hj w v w' Hw Hn E) as [(_ & He & Hc) R]. by split_and!; [apply R|..]. Qed.

End Values.
