(* ===== verification/SqlText.v ===== *)
(** * The text layer of SQL (src/src/sql.rs)

    A statement is scanned octet by octet: quoted literals, comments and dollar-quoted
    bodies are opaque, and what is left is searched for placeholders or semicolons.
    [rewrite_positional_sql] and [rewrite_named_sql] put a statement in the spelling of
    a provider, [split_sql_batch] cuts a script into statements.  A [&str] is the list
    of its UTF-8 octets; slicing it inside a character panics, which is the error
    [Panics].  [SqlTextProps] has the theorems. *)

From S2P Require Import Prelude AssocList Value Str Utf8 Http.

Inductive SqlBackend : Type := Sqlite | Postgres | MySql | SqlServer.

#[export] Instance SqlBackend_eq_dec : EqDecision SqlBackend.
Proof. solve_decision. Defined.

(** Error texts; a value spliced into one is kept beside it. *)
Inductive SqlTextError : Type :=
| Message (m : string)
| Expects (index expected : Z)
| MissingNamed (name : list Z)
| UnusedNamed (names : list (list Z))
| DuplicateNamed (name : list Z)
| RowNotList (row_index : nat)
| Panics.

Definition octets (s : string) : list Z := txt s.

Definition is_ascii_digit (b : Z) : bool := in_range 48 57 b.
Definition is_ascii_alphabetic (b : Z) : bool := in_range 65 90 b || in_range 97 122 b.
Definition is_ascii_alphanumeric (b : Z) : bool := is_ascii_alphabetic b || is_ascii_digit b.
Definition is_name_start (b : Z) : bool := is_ascii_alphabetic b || (b =? 95).
Definition is_name_byte (b : Z) : bool := is_ascii_alphanumeric b || (b =? 95).

Definition MAX_SQL_BYTES : Z := 16 * 1024 * 1024.

Definition validate_sql_size (sql : list Z) : result unit SqlTextError :=
  if MAX_SQL_BYTES <? nlen sql then Err (Message "SQL statement exceeds the 16 MiB limit") else Ok tt.

Definition sql_placeholder (backend : SqlBackend) (index : nat) : list Z :=
  match backend with
  | Postgres => 36 :: decimal 20 (Z.of_nat index + 1)
  | SqlServer => 64 :: 80 :: decimal 20 (Z.of_nat index + 1)
  | Sqlite | MySql => [63]
  end.

Definition quote_uses_backslash_escape (backend : SqlBackend) (sql : list Z) (index : nat) (quote : Z) : bool :=
  match backend with
  | MySql => (quote =? 39) || (quote =? 34)
  | Postgres =>
      (quote =? 39) && (0 <? index)%nat &&
      match sql !! (index - 1)%nat with Some b => (b =? 101) || (b =? 69) | None => false end
  | Sqlite | SqlServer => false
  end.

(** [str::is_char_boundary] and the number of octets a first octet announces. *)
Definition is_char_boundary (sql : list Z) (index : nat) : bool :=
  match sql !! index with
  | Some b => negb (is_cont b)
  | None => (index =? length sql)%nat
  end.
Definition char_width (b : Z) : nat := if b <? 128 then 1 else if b <? 224 then 2 else if b <? 240 then 3 else 4.

(** [&sql[start..end]]. *)
Definition str_slice (sql : list Z) (start stop : nat) : result (list Z) SqlTextError :=
  if (start <=? stop)%nat && is_char_boundary sql start && is_char_boundary sql stop
  then Ok (take (stop - start) (drop start sql)) else Err Panics.

(** The character at [index], as its octets. *)
Definition sql_char_at (sql : list Z) (index : nat) : result (list Z) SqlTextError :=
  match sql !! index with
  | Some b =>
      if is_char_boundary sql index then Ok (take (char_width b) (drop index sql))
      else Err (Message "SQL scanner reached an invalid UTF-8 boundary")
  | None => Err (Message "SQL scanner reached an invalid UTF-8 boundary")
  end.

(** The appended character and its [len_utf8]. *)
Definition copy_sql_char (output sql : list Z) (index : nat) : result (list Z * nat) SqlTextError :=
  let? character := sql_char_at sql index in
  Ok (output ++ character, length character).

(** The octets at the head of [l] that satisfy [p]. *)
Fixpoint span (p : Z -> bool) (l : list Z) : nat :=
  match l with b :: r => if p b then S (span p r) else O | [] => O end.

(** The end of the opening delimiter of a dollar quote at [index], if there is one. *)
Definition dollar_delimiter_end (sql : list Z) (index : nat) : option nat :=
  match sql !! S index with
  | None => None
  | Some first =>
      if first =? 36 then Some (index + 2)%nat
      else if negb (is_ascii_alphabetic first) && negb (first =? 95) then None
      else
        let stop := (index + 2 + span is_name_byte (drop (index + 2) sql))%nat in
        match sql !! stop with Some b => if b =? 36 then Some (S stop) else None | None => None end
  end.

Definition dollar_quote_end (sql : list Z) (index : nat) : result (option nat) SqlTextError :=
  match sql !! index with
  | Some b =>
      if negb (b =? 36) then Ok None
      else
        match dollar_delimiter_end sql index with
        | None => Ok None
        | Some body_start =>
            let? delimiter := str_slice sql index body_start in
            let? body := str_slice sql body_start (length sql) in
            match find_sub delimiter body with
            | None => Err (Message "SQL contains an unterminated dollar-quoted string")
            | Some relative_close => Ok (Some (body_start + relative_close + length delimiter)%nat)
            end
        end
  | None => Ok None
  end.

(** ** The scanner

    [SqlScanner]: the statement, the backend and the prefix of one error message do not
    change; the position and the open quote do. *)

Record scanner : Type := mk_scanner {
  index : nat;
  quote : option (Z * bool);
}.

(** [output: &mut Option<&mut String>] is an accumulator that may be absent. *)
Section Scanner.
Context (sql : list Z) (backend : SqlBackend) (block_comment_error : string).

Definition scanner_new : scanner := mk_scanner 0 None.
Definition at_index (i : nat) (s : scanner) : scanner := mk_scanner i (quote s).

Definition current_byte (s : scanner) : option Z := sql !! index s.
Definition next_byte (s : scanner) : option Z := sql !! S (index s).
Definition is_done (s : scanner) : bool := (length sql <=? index s)%nat.

Definition copy_current_char (s : scanner) (output : list Z) : result (scanner * list Z) SqlTextError :=
  let? (output, width) := copy_sql_char output sql (index s) in
  Ok (at_index (index s + width) s, output).

Definition append_range (output : option (list Z)) (start stop : nat) : result (option (list Z)) SqlTextError :=
  match output with
  | Some out => let? piece := str_slice sql start stop in Ok (Some (out ++ piece))
  | None => Ok None
  end.

Definition consume_quoted (s : scanner) (output : option (list Z))
    : result (scanner * option (list Z)) SqlTextError :=
  match quote s with
  | None => Err (Message "SQL scanner lost its active quote state")
  | Some (delimiter, backslash_escape) =>
      let start := index s in
      match sql !! start with
      | None => Err Panics
      | Some byte =>
          let? character := sql_char_at sql start in
          let s := at_index (start + length character) s in
          let? s :=
            if backslash_escape && (byte =? 92) then
              if is_done s then Ok s
              else let? character := sql_char_at sql (index s) in
                   Ok (at_index (index s + length character) s)
            else if byte =? delimiter then
              if decide (next_byte s = Some delimiter) then Ok (at_index (index s + 1) s)
              else Ok (mk_scanner (index s) None)
            else Ok s in
          let? output := append_range output start (index s) in
          Ok (s, output)
      end
  end.

(** The index of the newline that ends a comment, or the end of the text. *)
Definition consume_line_comment (s : scanner) (output : option (list Z))
    : result (scanner * option (list Z)) SqlTextError :=
  let start := index s in
  let body := (start + 2)%nat in
  let stop := (body + span (fun b : Z => negb (b =? 10)%Z) (drop body sql))%nat in
  let? output := append_range output start stop in
  Ok (at_index stop s, output).

(** Octets before the star and slash that close a comment, [None] when there are none. *)
Fixpoint comment_body (l : list Z) : option nat :=
  match l with
  | a :: ((b :: _) as r) => if (a =? 42) && (b =? 47) then Some O else S <$> comment_body r
  | _ => None
  end.

Definition consume_block_comment (s : scanner) (output : option (list Z))
    : result (scanner * option (list Z)) SqlTextError :=
  let start := index s in
  match comment_body (drop (start + 2) sql) with
  | None => Err (Message (block_comment_error ++ " contains an unterminated block comment")%string)
  | Some n =>
      let stop := (start + 2 + n + 2)%nat in
      let? output := append_range output start stop in
      Ok (at_index stop s, output)
  end.

(** The flag tells whether something was consumed. *)
Definition consume_opaque (s : scanner) (output : option (list Z))
    : result (bool * scanner * option (list Z)) SqlTextError :=
  match quote s with
  | Some _ => let? (s, output) := consume_quoted s output in Ok (true, s, output)
  | None =>
      match sql !! index s with
      | None => Err Panics
      | Some byte =>
          if (byte =? 39) || (byte =? 34) || (byte =? 96) then
            let q := Some (byte, quote_uses_backslash_escape backend sql (index s) byte) in
            let? output := append_range output (index s) (index s + 1) in
            Ok (true, mk_scanner (index s + 1) q, output)
          else if (byte =? 45) && bool_decide (next_byte s = Some 45) then
            let? (s, output) := consume_line_comment s output in Ok (true, s, output)
          else if (byte =? 47) && bool_decide (next_byte s = Some 42) then
            let? (s, output) := consume_block_comment s output in Ok (true, s, output)
          else if byte =? 36 then
            let? stop := dollar_quote_end sql (index s) in
            match stop with
            | Some stop =>
                let? output := append_range output (index s) stop in
                Ok (true, at_index stop s, output)
            | None => Ok (false, s, output)
            end
          else Ok (false, s, output)
      end
  end.

Definition ensure_no_open_quote (s : scanner) (message : string) : result unit SqlTextError :=
  match quote s with Some _ => Err (Message message) | None => Ok tt end.

End Scanner.

(** [while !scanner.is_done() { .. }] around a round on the scanner and the other
    variables of the loop.  Every round takes an octet, so that [None] needs more
    rounds than octets. *)
Fixpoint scan_loop {A} (sql : list Z) (round : scanner * A -> result (scanner * A) SqlTextError) (fuel : nat)
    (st : scanner * A) : option (result (scanner * A) SqlTextError) :=
  if is_done sql st.1 then Some (Ok st)
  else
    match fuel with
    | O => None
    | S fuel =>
        match round st with
        | Err e => Some (Err e)
        | Ok st => scan_loop sql round fuel st
        end
    end.

(** ** Positional placeholders *)

(** The counters of [rewrite_positional_sql]. *)
Record positional : Type := mk_positional { placed : nat; saw_question : bool; saw_dollar : bool }.

Definition consume_positional_placeholder (sql : list Z) (backend : SqlBackend) (s : scanner)
    (p : positional) (output : list Z) : result (bool * scanner * positional * list Z) SqlTextError :=
  match current_byte sql s with
  | None => Ok (false, s, p, output)
  | Some byte =>
      if byte =? 63 then
        if saw_dollar p then Err (Message "SQL mixes ? and $n placeholders")
        else Ok (true, at_index (index s + 1) s, mk_positional (S (placed p)) true (saw_dollar p),
                 output ++ sql_placeholder backend (placed p))
      else if (byte =? 36) && (match next_byte sql s with Some b => is_ascii_digit b | None => false end) then
        if saw_question p then Err (Message "SQL mixes ? and $n placeholders")
        else
          let start := S (index s) in
          let stop := (start + span is_ascii_digit (drop start sql))%nat in
          let? digits := str_slice sql start stop in
          match parse_usize 10 digits with
          | None => Err (Message "SQL placeholder number is invalid")
          | Some number =>
              if (number =? 0) || negb (number =? Z.of_nat (placed p) + 1)
              then Err (Message "SQL $n placeholders must be contiguous starting at $1")
              else Ok (true, at_index stop s, mk_positional (S (placed p)) (saw_question p) true,
                       output ++ sql_placeholder backend (placed p))
          end
      else Ok (false, s, p, output)
  end.

(** A round of the loop. *)
Definition positional_round (sql : list Z) (backend : SqlBackend) (st : scanner * (positional * list Z))
    : result (scanner * (positional * list Z)) SqlTextError :=
  let '(s, (p, out)) := st in
  let? (consumed, s1, output) := consume_opaque sql backend "SQL" s (Some out) in
  let out := default out output in
  if (consumed : bool) then Ok (s1, (p, out))
  else
    let? (consumed, s2, p, out) := consume_positional_placeholder sql backend s1 p out in
    if (consumed : bool) then Ok (s2, (p, out))
    else let? (s3, out) := copy_current_char sql s2 out in Ok (s3, (p, out)).

Definition positional_answer (s : scanner) (p : positional) (out : list Z) (expected : nat)
    : result (list Z) SqlTextError :=
  let? _ := ensure_no_open_quote s "SQL contains an unterminated quoted string" in
  if negb (placed p =? expected)%nat then Err (Expects (Z.of_nat (placed p)) (Z.of_nat expected))
  else if negb (saw_question p) && negb (saw_dollar p) && negb (expected =? 0)%nat
  then Err (Message "SQL has no positional placeholders")
  else Ok out.

Definition rewrite_positional_sql (sql : list Z) (backend : SqlBackend) (expected : nat)
    : option (result (list Z) SqlTextError) :=
  match validate_sql_size sql with
  | Err e => Some (Err e)
  | Ok _ =>
      match scan_loop sql (positional_round sql backend) (length sql)
              (scanner_new, (mk_positional 0 false false, [])) with
      | None => None
      | Some (Err e) => Some (Err e)
      | Some (Ok (s, (p, out))) => Some (positional_answer s p out expected)
      end
  end.

(** ** Named placeholders *)

(** [f64] parameters are bit patterns. *)
Inductive SqlParam : Type :=
| PNull
| PBool (b : bool)
| PInt (i : Z)
| PFloat (f : f64)
| PString (s : string)
| PBytes (bs : list Z).

Fixpoint mux_value_to_sql_param (v : value) : result SqlParam SqlTextError :=
  match v with
  | VUnit => Ok PNull
  | VBool b => Ok (PBool b)
  | VInt i => Ok (PInt i)
  | VFloat f => Ok (PFloat f)
  | VString s => Ok (PString s)
  | VBytes bs => Ok (PBytes bs)
  | VOptional None => Ok PNull
  | VOptional (Some inner) => mux_value_to_sql_param inner
  | _ => Err (Message "unsupported sql parameter type")
  end.

(** [.iter().map(mux_value_to_sql_param).collect::<Result<Vec<_>, _>>()]. *)
Fixpoint collect_sql_params (vs : list value) : result (list SqlParam) SqlTextError :=
  match vs with
  | [] => Ok []
  | v :: vs =>
      let? p := mux_value_to_sql_param v in
      let? ps := collect_sql_params vs in
      Ok (p :: ps)
  end.

Definition value_list_to_sql_params (v : option value) : result (list SqlParam) SqlTextError :=
  match v with
  | None => Ok []
  | Some (VList values) => collect_sql_params values
  | Some _ => Err (Message "sql params must be a list")
  end.

Definition MAX_ROWS : Z := 65536.
Definition MAX_PARAMS : Z := 4194304.

Fixpoint sql_param_rows (row_index : nat) (rows : list value) (total_params : Z) : result (list (list SqlParam)) SqlTextError :=
  match rows with
  | [] => Ok []
  | VList values :: rows =>
      match checked_add total_params (nlen values) with
      | None => Err (Message "sql execute_many parameter count overflowed")
      | Some total_params =>
          if MAX_PARAMS <? total_params
          then Err (Message "sql execute_many accepts at most 4194304 total parameters")
          else
            let? converted := collect_sql_params values in
            let? rest := sql_param_rows (S row_index) rows total_params in
            Ok (converted :: rest)
      end
  | _ :: _ => Err (RowNotList row_index)
  end.

Definition value_list_to_sql_param_rows (v : option value) : result (list (list SqlParam)) SqlTextError :=
  match v with
  | None => Ok []
  | Some (VList rows) =>
      if MAX_ROWS <? nlen rows then Err (Message "sql execute_many accepts at most 65536 rows")
      else sql_param_rows 0 rows 0
  | Some _ => Err (Message "sql rows must be a list<list<SqlValue>>")
  end.

(** A [HashMap<String, SqlParam>], keyed by the octets of the name. *)
Abbreviation Named := (gmap (list Z) SqlParam).

Fixpoint named_params (entries : list (value * value)) (params : Named) : result Named SqlTextError :=
  match entries with
  | [] => Ok params
  | (VString key, v) :: rest =>
      let? p := mux_value_to_sql_param v in
      match params !! octets key with
      | Some _ => Err (DuplicateNamed (octets key))
      | None => named_params rest (<[octets key := p]> params)
      end
  | _ :: _ => Err (Message "sql named parameter keys must be strings")
  end.

Definition value_map_to_named_params (v : option value) : result Named SqlTextError :=
  match v with
  | None => Ok ∅
  | Some (VMap entries) => named_params entries ∅
  | Some _ => Err (Message "sql named params must be a map<string, SqlValue>")
  end.

(** [used_names] and [params]. *)
Record naming : Type := mk_naming { used_names : gset (list Z); bound : list SqlParam }.

Definition consume_named_placeholder (sql : list Z) (backend : SqlBackend) (named : Named) (s : scanner)
    (n : naming) (output : list Z) : result (bool * scanner * naming * list Z) SqlTextError :=
  match current_byte sql s with
  | None => Ok (false, s, n, output)
  | Some byte =>
      if (byte =? 63) ||
         ((byte =? 36) && match next_byte sql s with Some b => is_ascii_digit b | None => false end)
      then Err (Message "SQL mixes named and positional placeholders")
      else if (byte =? 58) &&
              (match next_byte sql s with Some b => is_name_start b | None => false end) &&
              ((index s =? 0)%nat || negb (bool_decide (sql !! (index s - 1)%nat = Some 58)))
      then
        let start := S (index s) in
        let stop := (S start + span is_name_byte (drop (S start) sql))%nat in
        let? name := str_slice sql start stop in
        match named !! name with
        | None => Err (MissingNamed name)
        | Some v =>
            Ok (true, at_index stop s, mk_naming ({[name]} ∪ used_names n) (bound n ++ [v]),
                output ++ sql_placeholder backend (length (bound n)))
        end
      else Ok (false, s, n, output)
  end.

Definition named_round (sql : list Z) (backend : SqlBackend) (named : Named) (st : scanner * (naming * list Z))
    : result (scanner * (naming * list Z)) SqlTextError :=
  let '(s, (n, out)) := st in
  let? (consumed, s1, output) := consume_opaque sql backend "SQL" s (Some out) in
  let out := default out output in
  if (consumed : bool) then Ok (s1, (n, out))
  else
    let? (consumed, s2, n, out) := consume_named_placeholder sql backend named s1 n out in
    if (consumed : bool) then Ok (s2, (n, out))
    else let? (s3, out) := copy_current_char sql s2 out in Ok (s3, (n, out)).

(** [sort_unstable] of strings. *)
Definition octets_le (a b : list Z) : Prop := lex_cmp Z.compare a b <> Gt.
#[export] Instance octets_le_dec : RelDecision octets_le.
Proof. intros a b. unfold octets_le. apply _. Defined.

Definition named_answer (s : scanner) (named : Named) (n : naming) (out : list Z)
    : result (list Z * list SqlParam) SqlTextError :=
  let? _ := ensure_no_open_quote s "SQL contains an unterminated quoted string" in
  if match bound n with [] => true | _ => false end && negb (bool_decide (named = ∅))
  then Err (Message "SQL has no named placeholders")
  else
    let unused_names := merge_sort octets_le (elements (dom named ∖ used_names n)) in
    match unused_names with
    | [] => Ok (out, bound n)
    | _ => Err (UnusedNamed unused_names)
    end.

Definition rewrite_named_sql (sql : list Z) (backend : SqlBackend) (named : Named)
    : option (result (list Z * list SqlParam) SqlTextError) :=
  match validate_sql_size sql with
  | Err e => Some (Err e)
  | Ok _ =>
      match scan_loop sql (named_round sql backend named) (length sql) (scanner_new, (mk_naming ∅ [], [])) with
      | None => None
      | Some (Err e) => Some (Err e)
      | Some (Ok (s, (n, out))) => Some (named_answer s named n out)
      end
  end.

(** ** Batches *)

(** The loop of [sql_statement_has_code]; every round takes an octet. *)
Fixpoint has_code (fuel : nat) (l : list Z) : bool :=
  match fuel with
  | O => false
  | S fuel =>
      match l with
      | [] => false
      | b :: r =>
          if existsb (Z.eqb b) [9; 10; 12; 13; 32] then has_code fuel r
          else if (b =? 45) && bool_decide (head r = Some 45) then
            has_code fuel (drop (span (fun b : Z => negb (b =? 10)) (drop 1 r)) (drop 1 r))
          else if (b =? 47) && bool_decide (head r = Some 42) then
            match comment_body (drop 1 r) with
            | None => false
            | Some n => has_code fuel (drop (n + 2) (drop 1 r))
            end
          else true
      end
  end.

Definition sql_statement_has_code (statement : list Z) : bool := has_code (length statement) statement.

(** [str::trim] on the octets of a text. *)
Definition str_trim (s : list Z) : list Z := match utf8_decode s with Some t => utf8 (trim t) | None => s end.

Definition MAX_STATEMENTS : Z := 1024.

(** A statement is kept when it has code; the limit is tested after it was added. *)
Definition push_statement (statement : list Z) (statements : list (list Z)) : result (list (list Z)) SqlTextError :=
  let statements := if sql_statement_has_code statement then statements ++ [statement] else statements in
  if MAX_STATEMENTS <? nlen statements then Err (Message "SQL batch contains more than 1024 statements")
  else Ok statements.

(** A round: the position, the start of the current statement, the statements so far. *)
Definition batch_round (sql : list Z) (backend : SqlBackend) (st : scanner * (nat * list (list Z)))
    : result (scanner * (nat * list (list Z))) SqlTextError :=
  let '(s, (start, statements)) := st in
  let? (consumed, s, _) := consume_opaque sql backend "SQL batch" s None in
  if (consumed : bool) then Ok (s, (start, statements))
  else if decide (current_byte sql s = Some 59) then
    let? statement := str_slice sql start (index s) in
    let? statements := push_statement (str_trim statement) statements in
    Ok (at_index (index s + 1) s, (S (index s), statements))
  else Ok (at_index (index s + 1) s, (start, statements)).

Definition batch_answer (sql : list Z) (s : scanner) (start : nat) (statements : list (list Z))
    : result (list (list Z)) SqlTextError :=
  let? _ := ensure_no_open_quote s "SQL batch contains an unterminated quoted string" in
  let? statement := str_slice sql start (length sql) in
  push_statement (str_trim statement) statements.

Definition split_sql_batch (sql : list Z) (backend : SqlBackend) : option (result (list (list Z)) SqlTextError) :=
  match validate_sql_size sql with
  | Err _ => Some (Err (Message "SQL batch exceeds the 16 MiB limit"))
  | Ok _ =>
      match scan_loop sql (batch_round sql backend) (length sql) (scanner_new, (0%nat, [])) with
      | None => None
      | Some (Err e) => Some (Err e)
      | Some (Ok (s, (start, statements))) => Some (batch_answer sql s start statements)
      end
  end.

(** * The SQL scanner on valid text

    A statement is the encoding of a text, so every position the scanner stops at is the
    boundary of a character: it never slices inside one, never reads a broken one, and
    moves on in every round.  Also here: what the scanner does with a whole opaque piece
    (a literal, a comment, a dollar-quoted body), shared by the three loops. *)

(** ** Characters and positions *)

Lemma cont_is_cont b : is_cont b = true <-> cont b.
Proof. unfold is_cont, cont. rewrite in_range_true. lia. Qed.

Lemma utf8_char_first c : scalar c ->
  exists b t, utf8_char c = b :: t /\ is_cont b = false /\ Forall cont t /\ char_width b = length (b :: t) /\
    (c < 128 -> b = c /\ t = []) /\ (128 <= c -> 128 <= b).
Proof.
  intros Hc%scalar_range. unfold utf8_char, cont, is_cont, char_width.
  repeat case_match; ranges; bool_to_prop; eexists _, _; (split; [reflexivity|]); rewrite in_range_false;
    (split_and!; [euclid|repeat constructor; euclid|repeat case_match; bool_to_prop; cbn [length]; euclid
    |intros; split; [euclid|first [done|exfalso; lia]]|intros; euclid]).
Qed.

(** [i] octets are the encoding of the first characters. *)
Definition bnd (s : text) (i : nat) : Prop := exists pre post, s = pre ++ post /\ i = length (utf8 pre).

Lemma utf8_cons c s : utf8 (c :: s) = utf8_char c ++ utf8 s.
Proof. reflexivity. Qed.

Section Positions.
Context (s : text) (Hs : Forall scalar s).

Lemma scalars_at pre c post : s = pre ++ c :: post -> Forall scalar pre /\ scalar c /\ Forall scalar post.
Proof. intros ->. apply Forall_app in Hs as [? H]. inversion H; by repeat split. Qed.

(** The octet at the boundary before a character. *)
Lemma lookup_bnd pre post k : s = pre ++ post -> utf8 s !! (length (utf8 pre) + k)%nat = utf8 post !! k.
Proof. clear Hs. intros ->. rewrite utf8_app, lookup_app_r by lia. f_equal. lia. Qed.

Lemma lookup_bnd_0 pre post : s = pre ++ post -> utf8 s !! length (utf8 pre) = utf8 post !! 0%nat.
Proof. intros E. rewrite <- (lookup_bnd pre post 0 E). f_equal. lia. Qed.

Lemma bnd_boundary i : bnd s i -> is_char_boundary (utf8 s) i = true.
Proof.
  intros (pre & post & E & ->). unfold is_char_boundary. rewrite (lookup_bnd_0 _ _ E).
  destruct post as [|c post].
  - subst s. rewrite app_nil_r. apply Nat.eqb_refl.
  - destruct (scalars_at _ _ _ E) as (_ & Hc & _).
    destruct (utf8_char_first c Hc) as (b & t & Eb & Hb & _). rewrite utf8_cons, Eb. cbn [app lookup list_lookup].
    by rewrite Hb.
Qed.

Lemma boundary_bnd i : is_char_boundary (utf8 s) i = true -> bnd s i.
Proof.
  revert i. induction Hs as [|c r Hc Hr IH]; intros i; unfold is_char_boundary.
  - cbn. destruct i; [intros _; by exists [], []|done].
  - rewrite utf8_cons. intros H. destruct (decide (i < length (utf8_char c))%nat) as [Hi|Hi].
    + destruct i as [|i]; [by exists [], (c :: r)|]. exfalso.
      destruct (utf8_char_first c Hc) as (b & t & Eb & _ & Ht & _). rewrite Eb in H, Hi.
      rewrite lookup_app_l in H by done. change ((b :: t) !! S i) with (t !! i) in H. cbn [length] in Hi.
      destruct (lookup_lt_is_Some_2 t i ltac:(lia)) as [x Hx]. rewrite Hx in H.
      rewrite Forall_lookup in Ht. apply Ht, cont_is_cont in Hx. by rewrite Hx in H.
    + destruct (IH Hr (i - length (utf8_char c))%nat) as (pre & post & -> & E).
      { unfold is_char_boundary. rewrite lookup_app_r in H by lia. destruct (utf8 r !! _); [done|].
        rewrite length_app in H. apply Nat.eqb_eq in H. apply Nat.eqb_eq. lia. }
      exists (c :: pre), post. split; [done|]. rewrite utf8_cons, length_app. lia.
Qed.

Lemma bnd_0 : bnd s 0.
Proof. by exists [], s. Qed.
Lemma bnd_end : bnd s (length (utf8 s)).
Proof. exists s, []. by rewrite app_nil_r. Qed.

(** An ASCII octet is a character. *)
Lemma ascii_char i b : utf8 s !! i = Some b -> b < 128 ->
  exists pre post, s = pre ++ b :: post /\ i = length (utf8 pre).
Proof.
  intros Hl Hb. assert (0 <= b) as H0.
  { pose proof (utf8_byte s Hs) as H. rewrite Forall_lookup in H. apply H in Hl. lia. }
  destruct (boundary_bnd i) as (pre & post & E & ->).
  { unfold is_char_boundary. rewrite Hl. apply negb_true_iff. unfold is_cont. apply in_range_false. lia. }
  rewrite (lookup_bnd_0 _ _ E) in Hl. destruct post as [|c post]; [done|].
  destruct (scalars_at _ _ _ E) as (_ & Hc & _).
  destruct (utf8_char_first c Hc) as (b' & t & Eb & _ & _ & _ & Hlo & Hhi).
  rewrite utf8_cons, Eb in Hl. injection Hl as ->.
  destruct (decide (c < 128)) as [Hc'|Hc']; [|lia]. destruct (Hlo Hc') as [-> _]. by exists pre, post.
Qed.

Lemma ascii_width c : 0 <= c < 128 -> utf8_char c = [c].
Proof. intros Hc. unfold utf8_char. by rewrite (proj2 (Z.ltb_lt c 128)) by lia. Qed.

Lemma bnd_snoc pre c post : s = pre ++ c :: post -> bnd s (length (utf8 pre) + length (utf8_char c)).
Proof.
  intros E. exists (pre ++ [c]), post. split; [by rewrite <- app_assoc|].
  rewrite utf8_app, length_app, utf8_cons, length_app. cbn. lia.
Qed.

Lemma ascii_next i b : utf8 s !! i = Some b -> b < 128 -> bnd s i /\ bnd s (i + 1).
Proof.
  intros Hl Hb. destruct (ascii_char i b Hl Hb) as (pre & post & E & ->).
  split; [by exists pre, (b :: post)|].
  destruct (scalars_at _ _ _ E) as (_ & Hc & _). apply scalar_range in Hc.
  pose proof (bnd_snoc _ _ _ E) as H. by rewrite ascii_width in H by lia.
Qed.

(** The character at a boundary. *)
Lemma sql_char_at_bnd pre c post : s = pre ++ c :: post ->
  sql_char_at (utf8 s) (length (utf8 pre)) = Ok (utf8_char c).
Proof.
  intros E. destruct (scalars_at _ _ _ E) as (_ & Hc & _).
  destruct (utf8_char_first c Hc) as (b & t & Eb & _ & _ & Hw & _).
  unfold sql_char_at. rewrite (lookup_bnd_0 _ _ E), utf8_cons, Eb. cbn [app lookup list_lookup].
  rewrite bnd_boundary by (by exists pre, (c :: post)). rewrite Hw. do 2 f_equal.
  rewrite E, utf8_app, utf8_cons, Eb, drop_app_length. by rewrite take_app_length.
Qed.

Lemma bnd_char i : bnd s i -> (i < length (utf8 s))%nat ->
  exists pre c post, s = pre ++ c :: post /\ i = length (utf8 pre).
Proof.
  intros (pre & [|c post] & E & ->) Hi; [|by exists pre, c, post].
  exfalso. rewrite E, app_nil_r in Hi. lia.
Qed.

Lemma bnd_le i : bnd s i -> (i <= length (utf8 s))%nat.
Proof. clear Hs. intros (pre & post & -> & ->). rewrite utf8_app, length_app. lia. Qed.

Lemma str_slice_bnd i j : bnd s i -> bnd s j -> (i <= j)%nat ->
  str_slice (utf8 s) i j = Ok (take (j - i) (drop i (utf8 s))).
Proof.
  intros Hi Hj Hle. unfold str_slice.
  by rewrite (proj2 (Nat.leb_le _ _)), !bnd_boundary by done.
Qed.

Lemma append_range_bnd o i j : bnd s i -> bnd s j -> (i <= j)%nat ->
  append_range (utf8 s) o i j = Ok ((fun out => out ++ take (j - i) (drop i (utf8 s))) <$> o).
Proof. intros Hi Hj Hle. unfold append_range. destruct o; [|done]. by rewrite str_slice_bnd. Qed.

(** Scanning ahead over octets that satisfy a test stops at a boundary when the octet
    it stops at is ASCII or the text ends. *)
Lemma span_stop p (l : list Z) : match l !! span p l with Some b => p b = false | None => span p l = length l end.
Proof. induction l as [|b l IH]; [done|]. cbn [span]. destruct (p b) eqn:E; [|done]. cbn. destruct (l !! _); lia || done. Qed.

Lemma span_le p (l : list Z) : (span p l <= length l)%nat.
Proof. induction l as [|b l IH]; cbn [span length]; [lia|]. destruct (p b); lia. Qed.

Lemma span_app p (a r : list Z) : Forall (fun b => p b = true) a ->
  match r with b :: _ => p b = false | [] => True end -> span p (a ++ r) = length a.
Proof. induction 1 as [|b a Hb _ IH]; intros Hr; cbn [app span length]; [destruct r; cbn; [done|by rewrite Hr]|]. rewrite Hb. by rewrite IH. Qed.

End Positions.

(** ** Safety of a round *)

(** Errors that only a broken scanner could report. *)
Definition internal (e : SqlTextError) : bool :=
  match e with
  | Panics => true
  | Message m =>
      String.eqb m "SQL scanner reached an invalid UTF-8 boundary" || String.eqb m "SQL scanner lost its active quote state"
  | _ => false
  end.

Section Safe.
Context (s : text) (Hs : Forall scalar s) (backend : SqlBackend).

Abbreviation sql := (utf8 s).

(** Inside a quote the scanner is at a boundary; outside, a batch may be anywhere. *)
Definition good (sc : scanner) : Prop :=
  match quote sc with Some (q, _) => q < 128 /\ bnd s (index sc) | None => True end.

Lemma lookup_bnd_lt i b : sql !! i = Some b -> (i < length sql)%nat.
Proof. apply lookup_lt_Some. Qed.

Lemma consume_quoted_safe sc o q esc : quote sc = Some (q, esc) -> good sc -> (index sc < length sql)%nat ->
  exists sc' o', consume_quoted sql sc o = Ok (sc', o') /\ (index sc < index sc')%nat /\ bnd s (index sc') /\
    good sc' /\ o' = (fun out => out ++ take (index sc' - index sc) (drop (index sc) sql)) <$> o.
Proof.
  unfold good. intros Eq. rewrite Eq. intros [Hq Hb] Hi.
  destruct (bnd_char s _ Hb Hi) as (pre & c & post & Es & Ei).
  destruct (scalars_at s Hs _ _ _ Es) as (_ & Hc & _).
  destruct (utf8_char_first c Hc) as (b & t & Eb & _ & _ & _ & Hlo & _).
  pose proof (bnd_snoc s _ _ _ Es) as Hn. rewrite <- Ei in Hn.
  assert (sql !! index sc = Some b) as Hlk.
  { by rewrite Ei, (lookup_bnd_0 s _ _ Es), utf8_cons, Eb. }
  assert (0 < length (utf8_char c))%nat as Hpos by (rewrite Eb; cbn; lia).
  unfold consume_quoted. rewrite Eq, Hlk, Ei, (sql_char_at_bnd s Hs _ _ _ Es), <- Ei. cbn [result_bind].
  assert (forall sc', bnd s (index sc') -> (index sc < index sc')%nat -> good sc' ->
    exists sc'' o', (let? output := append_range sql o (index sc) (index sc') in Ok (sc', output)) = Ok (sc'', o') /\
      (index sc < index sc'')%nat /\ bnd s (index sc'') /\ good sc'' /\
      o' = (fun out => out ++ take (index sc'' - index sc) (drop (index sc) sql)) <$> o) as Hfin.
  { intros sc' Hb' Hlt Hg. rewrite append_range_bnd by (done || lia). cbn [result_bind]. by eexists _, _. }
  destruct (esc && (b =? 92)).
  - unfold is_done, at_index. cbn [index]. destruct (_ <=? _)%nat eqn:Ed.
    + cbn [result_bind]. apply Hfin; cbn [index]; [done|lia|]. unfold good. cbn. rewrite Eq. by split.
    + apply Nat.leb_gt in Ed. destruct (bnd_char s _ Hn Ed) as (pre' & c' & post' & Es' & Ei').
      rewrite Ei', (sql_char_at_bnd s Hs _ _ _ Es'), <- Ei'. cbn [result_bind].
      apply Hfin; cbn [index]; [rewrite Ei'; by eapply bnd_snoc|lia|]. unfold good. cbn. rewrite Eq.
      split; [done|]. rewrite Ei'. by eapply bnd_snoc.
  - destruct (b =? q) eqn:Ebq; bool_to_prop.
    + subst b. unfold next_byte, at_index. cbn [index quote]. case_decide as En.
      * cbn [result_bind]. destruct (ascii_next s Hs _ _ En Hq) as [Hb' _]. rewrite <- Nat.add_1_r in Hb'.
        apply Hfin; cbn [index]; [done|lia|]. unfold good. cbn. rewrite Eq. by split.
      * cbn [result_bind]. apply Hfin; cbn [index]; [done|lia|]. done.
    + cbn [result_bind]. apply Hfin; cbn [index at_index]; [done|lia|]. unfold good. cbn. rewrite Eq. by split.
Qed.

Lemma line_comment_safe sc o : sql !! index sc = Some 45 -> sql !! S (index sc) = Some 45 -> quote sc = None ->
  exists sc' o', consume_line_comment sql sc o = Ok (sc', o') /\ (index sc < index sc')%nat /\ bnd s (index sc') /\
    quote sc' = None /\ o' = (fun out => out ++ take (index sc' - index sc) (drop (index sc) sql)) <$> o.
Proof.
  intros H1 H2 Hq. destruct (ascii_next s Hs _ _ H1 ltac:(lia)) as [Hb _].
  pose proof (lookup_bnd_lt _ _ H2) as Hl. unfold consume_line_comment.
  set (stop := (index sc + 2 + span _ _)%nat).
  assert (bnd s stop) as Hs'.
  { subst stop. pose proof (span_stop (fun b : Z => negb (b =? 10)) (drop (index sc + 2) sql)) as Hst.
    rewrite lookup_drop in Hst. destruct (sql !! (_ + _)%nat) as [b|] eqn:Eb.
    - bool_to_prop. subst b. by apply (ascii_next s Hs _ _ Eb).
    - rewrite Hst, length_drop. replace (_ + _)%nat with (length sql) by lia. apply bnd_end. }
  assert (index sc + 2 <= stop)%nat by (subst stop; lia).
  rewrite append_range_bnd by (done || lia). cbn [result_bind]. eexists _, _. split; [reflexivity|].
  cbn [index at_index quote]. by split_and!; [lia|..].
Qed.

Lemma comment_body_lookup l n : comment_body l = Some n -> l !! n = Some 42 /\ l !! S n = Some 47.
Proof.
  revert n. induction l as [|a [|b r] IH]; intros n; try done. cbn [comment_body].
  destruct ((a =? 42) && (b =? 47)) eqn:E; bool_to_prop.
  - intros [= <-]. by subst.
  - intros (m & E' & ->)%fmap_Some. by apply IH in E' as [??].
Qed.

Lemma block_comment_safe err sc o : sql !! index sc = Some 47 -> quote sc = None ->
  match consume_block_comment sql err sc o with
  | Err e => e = Message (err ++ " contains an unterminated block comment")%string
  | Ok (sc', o') => (index sc < index sc')%nat /\ bnd s (index sc') /\ quote sc' = None /\
      o' = (fun out => out ++ take (index sc' - index sc) (drop (index sc) sql)) <$> o
  end.
Proof.
  intros H1 Hq. destruct (ascii_next s Hs _ _ H1 ltac:(lia)) as [Hb _]. unfold consume_block_comment.
  destruct (comment_body _) as [n|] eqn:E; [|done]. apply comment_body_lookup in E as [_ E].
  rewrite lookup_drop in E. destruct (ascii_next s Hs _ _ E ltac:(lia)) as [_ Hb'].
  replace (index sc + 2 + S n + 1)%nat with (index sc + 2 + n + 2)%nat in Hb' by lia.
  rewrite append_range_bnd by (done || lia). cbn [result_bind index at_index quote]. by split_and!; [lia|..].
Qed.

Lemma dollar_delimiter_bnd i j : sql !! i = Some 36 -> dollar_delimiter_end sql i = Some j ->
  (i < j)%nat /\ bnd s j.
Proof.
  intros H1. unfold dollar_delimiter_end. destruct (sql !! S i) as [b|] eqn:Eb; [|done].
  destruct (b =? 36) eqn:E36; bool_to_prop.
  - intros [= <-]. subst. destruct (ascii_next s Hs _ _ Eb ltac:(lia)) as [_ H].
    split; [lia|]. by replace (i + 2)%nat with (S i + 1)%nat by lia.
  - destruct (_ && _); [done|]. destruct (sql !! (_ + _)%nat) as [d|] eqn:Ed; [|done].
    destruct (d =? 36) eqn:E36'; [|done]. bool_to_prop. subst. intros [= <-].
    destruct (ascii_next s Hs _ _ Ed ltac:(lia)) as [_ H]. split; [lia|].
    by rewrite <- Nat.add_1_r.
Qed.

Lemma is_prefix_take p l : is_prefix p l = true -> take (length p) l = p.
Proof. intros [post ->]%is_prefix_spec. by rewrite take_app_length. Qed.

Lemma dollar_quote_safe i : sql !! i = Some 36 ->
  match dollar_quote_end sql i with
  | Err e => e = Message "SQL contains an unterminated dollar-quoted string"
  | Ok (Some j) => (i < j)%nat /\ bnd s j
  | Ok None => True
  end.
Proof.
  intros H1. destruct (ascii_next s Hs _ _ H1 ltac:(lia)) as [Hb _]. unfold dollar_quote_end. rewrite H1. cbn [negb Z.eqb].
  destruct (dollar_delimiter_end sql i) as [j|] eqn:Ed; [|done].
  destruct (dollar_delimiter_bnd i j H1 Ed) as [Hij Hj]. pose proof (bnd_le s _ Hj) as Hjl.
  rewrite (str_slice_bnd s Hs) by (done || lia). cbn [result_bind].
  rewrite (str_slice_bnd s Hs) by (try done; apply bnd_end). cbn [result_bind].
  set (d := take (j - i) (drop i sql)).
  assert (length d = (j - i)%nat) as Hd by (subst d; rewrite length_take, length_drop; lia).
  rewrite firstn_all2 by (rewrite length_drop; lia).
  pose proof (find_sub_spec d (drop j sql)) as Hf. destruct (find_sub _ _) as [k|]; [|done].
  destruct Hf as [(w & v & Ew & <-) _]. split; [lia|].
  assert (d !! (length d - 1)%nat = Some 36) as Hlast.
  { subst d. rewrite lookup_take_lt by lia. rewrite lookup_drop.
    unfold dollar_delimiter_end in Ed. destruct (sql !! S i) as [b|] eqn:Eb; [|done].
    destruct (b =? 36) eqn:E36; bool_to_prop.
    - injection Ed as <-. subst b. rewrite <- Eb. f_equal. lia.
    - destruct (_ && _); [done|]. destruct (sql !! (_ + _)%nat) as [e|] eqn:Ee; [|done].
      destruct (e =? 36) eqn:E36'; [|done]. bool_to_prop. subst. injection Ed as <-. rewrite <- Ee. f_equal. lia. }
  assert (sql !! (j + length w + (length d - 1))%nat = Some 36) as Hl.
  { rewrite <- Nat.add_assoc, <- lookup_drop, Ew, lookup_app_r by lia.
    replace (_ - _)%nat with (length d - 1)%nat by lia. rewrite lookup_app_l by lia. done. }
  destruct (ascii_next s Hs _ _ Hl ltac:(lia)) as [_ H]. by replace (_ + _)%nat with (j + length w + length d)%nat in H by lia.
Qed.

(** A step over opaque text moves to a later boundary and copies what it passed. *)
Lemma consume_opaque_safe err sc o : (err = "SQL" \/ err = "SQL batch")%string ->
  good sc -> (index sc < length sql)%nat -> (o <> None -> bnd s (index sc)) ->
  match consume_opaque sql backend err sc o with
  | Err e => internal e = false
  | Ok (true, sc', o') => (index sc < index sc')%nat /\ bnd s (index sc') /\ good sc' /\
      o' = (fun out => out ++ take (index sc' - index sc) (drop (index sc) sql)) <$> o
  | Ok (false, sc', o') => sc' = sc /\ o' = o /\ quote sc = None
  end.
Proof.
  intros Herr Hg Hi Ho. unfold consume_opaque. destruct (quote sc) as [[q esc]|] eqn:Eq.
  { destruct (consume_quoted_safe sc o q esc Eq Hg Hi) as (sc' & o' & -> & ? & ? & ? & ?). by cbn [result_bind]. }
  destruct (sql !! index sc) as [b|] eqn:Eb; [|apply lookup_ge_None in Eb; lia].
  destruct ((b =? 39) || (b =? 34) || (b =? 96)) eqn:E1.
  { assert (b < 128) as Hb by (rewrite !orb_true_iff, !Z.eqb_eq in E1; lia).
    destruct (ascii_next s Hs _ _ Eb Hb) as [H1 H2]. rewrite append_range_bnd by (done || lia). cbn [result_bind index].
    split_and!; [lia|done|by split|done]. }
  destruct ((b =? 45) && _) eqn:E2.
  { apply andb_true_iff in E2 as [E2 En%bool_decide_eq_true]. bool_to_prop. subst b.
    destruct (line_comment_safe sc o Eb En Eq) as (sc' & o' & -> & ? & ? & Hq & ?). cbn [result_bind].
    split_and!; [done|done| |done]. unfold good. by rewrite Hq. }
  destruct ((b =? 47) && _) eqn:E3.
  { apply andb_true_iff in E3 as [E3 En%bool_decide_eq_true]. bool_to_prop. subst b.
    pose proof (block_comment_safe err sc o Eb Eq) as H. destruct (consume_block_comment _ _ _ _) as [[sc' o']|e].
    - destruct H as (? & ? & Hq & ?). cbn [result_bind]. split_and!; [done|done| |done]. unfold good. by rewrite Hq.
    - subst e. by destruct Herr as [-> | ->]. }
  destruct (b =? 36) eqn:E4; [|done]. bool_to_prop. subst b.
  pose proof (dollar_quote_safe _ Eb) as H. destruct (dollar_quote_end _ _) as [[j|]|e].
  - destruct H as [Hlt Hj]. destruct (ascii_next s Hs _ _ Eb ltac:(lia)) as [H1 _]. cbn [result_bind].
    rewrite append_range_bnd by (done || lia). cbn [result_bind]. cbn [index at_index].
    split_and!; [done|done| |done]. unfold good. cbn. by rewrite Eq.
  - done.
  - cbn [result_bind]. by subst e.
Qed.

End Safe.
