(* ===== verification/SqlPieces.v ===== *)
(** * Statements assembled from pieces

    A reference reading of SQL text: a statement is a list of pieces, and the scanner
    crosses an opaque piece without touching it.  [well_formed] asks what SQL asks of the
    pieces (a literal does not contain its own quote unless escaped, a comment not its
    own end) and one thing more: after a literal, the second next character is not the
    same quote, which is where the scanner looks for a doubled one. *)

From S2P Require Import Prelude AssocList Value Str Utf8 Http SqlText.

Inductive piece : Type :=
| Code (c : Z)
| Literal (q : Z) (body : text)
| Line (body : text)
| Block (body : text)
| Dollar (tag body : text)
| Hole (name : text).

Definition delimiter (tag : text) : text := 36 :: tag ++ [36].

Definition opaque_text (p : piece) : text :=
  match p with
  | Code c => [c]
  | Literal q body => q :: body ++ [q]
  | Line body => 45 :: 45 :: body
  | Block body => 47 :: 42 :: body ++ [42; 47]
  | Dollar tag body => delimiter tag ++ body ++ delimiter tag
  | Hole _ => []
  end.

(** The text of a statement whose [k]-th placeholder is spelled [spell k name]. *)
Definition spelled (spell : nat -> text -> text) (k : nat) (p : piece) : text :=
  match p with Hole name => spell k name | _ => opaque_text p end.
Definition holes_of (p : piece) : nat := match p with Hole _ => 1 | _ => 0 end.

Fixpoint render (spell : nat -> text -> text) (k : nat) (ps : list piece) : text :=
  match ps with
  | [] => []
  | p :: ps => spelled spell k p ++ render spell (k + holes_of p) ps
  end.

Fixpoint holes (ps : list piece) : list text :=
  match ps with
  | [] => []
  | Hole name :: ps => name :: holes ps
  | _ :: ps => holes ps
  end.

Definition opt_is (p : Z -> bool) (o : option Z) : bool := match o with Some b => p b | None => false end.

(** Whether a backslash escapes in a literal after [pre]. *)
Definition escapes (backend : SqlBackend) (pre : text) (q : Z) : bool :=
  match backend with
  | MySql => (q =? 39) || (q =? 34)
  | Postgres => (q =? 39) && opt_is (fun c => (c =? 101) || (c =? 69)) (last pre)
  | Sqlite | SqlServer => false
  end.

Fixpoint body_ok (esc : bool) (q : Z) (body : text) : bool :=
  match body with
  | [] => true
  | c :: r =>
      if esc && (c =? 92) then match r with [] => false | _ :: r' => body_ok esc q r' end
      else negb (c =? q) && body_ok esc q r
  end.

Definition tag_ok (tag : text) : bool :=
  match tag with [] => true | a :: t => is_name_start a && forallb is_name_byte t end.

Definition ends_at (found : option nat) (body : text) : bool :=
  match found with Some n => (n =? length body)%nat | None => false end.

(** [pre] is the text before the piece and [r] the text behind it. *)
Definition piece_ok (backend : SqlBackend) (pre : text) (p : piece) (r : text) : bool :=
  match p with
  | Code c =>
      is_scalar c && negb (existsb (Z.eqb c) [39; 34; 96; 36]) &&
      negb ((c =? 45) && opt_is (Z.eqb 45) (head r)) && negb ((c =? 47) && opt_is (Z.eqb 42) (head r))
  | Literal q body =>
      existsb (Z.eqb q) [39; 34; 96] && forallb is_scalar body && body_ok (escapes backend pre q) q body &&
      negb (opt_is (Z.eqb q) (r !! 1%nat))
  | Line body =>
      forallb is_scalar body && negb (existsb (Z.eqb 10) body) &&
      match r with [] => true | c :: _ => c =? 10 end
  | Block body => forallb is_scalar body && ends_at (comment_body (body ++ [42; 47])) body
  | Dollar tag body =>
      tag_ok tag && forallb is_scalar body && ends_at (find_sub (delimiter tag) (body ++ delimiter tag)) body
  | Hole _ => true
  end.

(** [side] is what a loop asks in addition. *)
Fixpoint well_formed (backend : SqlBackend) (side : text -> piece -> text -> bool) (spell : nat -> text -> text)
    (k : nat) (pre : text) (ps : list piece) : bool :=
  match ps with
  | [] => true
  | p :: ps =>
      let r := render spell (k + holes_of p) ps in
      piece_ok backend pre p r && side pre p r &&
      well_formed backend side spell (k + holes_of p) (pre ++ spelled spell k p) ps
  end.

(** ** Crossing one opaque piece *)

Lemma existsb_quote q : existsb (Z.eqb q) [39; 34; 96] = (q =? 39) || (q =? 34) || (q =? 96).
Proof. cbn [existsb]. by rewrite orb_false_r, orb_assoc. Qed.

Lemma scalars_forallb l : forallb is_scalar l = true <-> Forall scalar l.
Proof. rewrite forallb_forall, Forall_forall. unfold scalar. by setoid_rewrite list_elem_of_In. Qed.

(** The end of a comment in octets and in characters. *)
Lemma comment_body_cons a b r :
  comment_body (a :: b :: r) = if (a =? 42) && (b =? 47) then Some O else S <$> comment_body (b :: r).
Proof. done. Qed.

Lemma comment_body_skip l (X : list Z) : Forall (fun b => b <> 42) l ->
  comment_body (l ++ X) = (fun n => (length l + n)%nat) <$> comment_body X.
Proof.
  induction 1 as [|a l Ha _ IH]; cbn [app length]; [by destruct (comment_body X)|].
  assert (comment_body (a :: l ++ X) = S <$> comment_body (l ++ X)) as ->.
  { destruct (l ++ X) as [|b r]; [done|]. cbn [comment_body]. by rewrite (proj2 (Z.eqb_neq a 42)) by done. }
  rewrite IH. by destruct (comment_body X).
Qed.

Lemma comment_body_utf8 body rest : Forall scalar body -> comment_body (body ++ [42; 47]) = Some (length body) ->
  comment_body (utf8 body ++ 42 :: 47 :: rest) = Some (length (utf8 body)).
Proof.
  induction 1 as [|c body Hc Hb IH]; [done|]. cbn [app]. intros H.
  destruct (body ++ [42; 47]) as [|d r] eqn:Ed; [by destruct body|]. rewrite comment_body_cons in H.
  destruct ((c =? 42) && (d =? 47)) eqn:Ecd; [by injection H|].
  apply fmap_Some in H as (n & H & [= <-]). specialize (IH H).
  rewrite utf8_cons, <- app_assoc, length_app.
  destruct (utf8_char_first c Hc) as (b & t & Eb & _ & Ht & _ & Hlo & Hhi).
  destruct (decide (c = 42)) as [->|Hne].
  - change (utf8_char 42) with [42]. cbn [app length]. cbn [andb Z.eqb Pos.eqb] in Ecd.
    destruct (utf8 body ++ 42 :: 47 :: rest) as [|e X] eqn:Ee; [by destruct (utf8 body)|].
    rewrite comment_body_cons, (proj2 (Z.eqb_neq e 47)); [by rewrite IH|]. intros ->.
    destruct body as [|d' body]; [injection Ee as ?; lia|]. injection Ed as -> _. inversion_clear Hb as [|? ? Hd _].
    rewrite utf8_cons in Ee. destruct (utf8_char_first d Hd) as (b' & t' & Eb' & _ & _ & _ & Hlo' & Hhi').
    rewrite Eb' in Ee. injection Ee as -> _. bool_to_prop. destruct (decide (d < 128)); [|lia].
    by destruct Hlo'.
  - rewrite comment_body_skip; [by rewrite IH|]. rewrite Eb. constructor.
    + destruct (decide (c < 128)); [by destruct Hlo as [-> _]|lia].
    + eapply Forall_impl; [done|]. unfold cont. lia.
Qed.

(** A first occurrence stays the first when text is appended. *)
Lemma find_sub_app d body r : d <> [] -> find_sub d (body ++ d) = Some (length body) ->
  first_at d (body ++ d ++ r) (length body).
Proof.
  intros Hd H. pose proof (find_sub_spec d (body ++ d)) as Hf. rewrite H in Hf. destruct Hf as [_ Hmin].
  split; [by exists body, r|]. intros pre post E.
  destruct (decide (length body <= length pre)%nat) as [|Hlt]; [done|]. exfalso.
  assert (body ++ d = pre ++ d ++ take (length body - length pre) post) as E'.
  { apply (f_equal (take (length (body ++ d)))) in E.
    rewrite (app_assoc body), take_app_length in E. rewrite E, length_app.
    rewrite (app_assoc pre), take_app_ge by (rewrite length_app; lia). rewrite <- app_assoc. do 2 f_equal. f_equal.
    rewrite length_app. lia. }
  apply Hmin in E'. lia.
Qed.

Lemma find_sub_utf8 d body r : Forall scalar body -> Forall scalar d -> Forall scalar r -> d <> [] ->
  find_sub d (body ++ d) = Some (length body) ->
  find_sub (utf8 d) (utf8 (body ++ d ++ r)) = Some (length (utf8 body)).
Proof.
  intros Hb Hd Hr Hne H. destruct (find_sub_app d body r Hne H) as [_ Hmin].
  assert (Forall scalar (body ++ d ++ r)) as Hall by (rewrite !Forall_app; done).
  pose proof (find_sub_spec (utf8 d) (utf8 (body ++ d ++ r))) as Hf. destruct (find_sub (utf8 d) _) as [o|].
  - destruct Hf as [(w & v & E & <-) Hmin'].
    destruct (utf8_boundary d _ w v Hd Hall Hne E) as (pre & post & Ep & -> & ->).
    pose proof (Hmin _ _ Ep) as H1. pose proof (Hmin' (utf8 body) (utf8 r) (char_occurrence _ _ _)) as H2.
    pose proof (utf8_prefix_length _ pre (d ++ post) body (d ++ r) Hall Ep eq_refl H2) as H3.
    assert (length body = length pre) as Hlen by lia. by destruct (app_inj_1 _ _ _ _ Hlen Ep) as [-> _].
  - exfalso. by apply (Hf (utf8 body) (utf8 r)), char_occurrence.
Qed.

Section Cross.
Context (s : text) (Hs : Forall scalar s) (backend : SqlBackend) (err : string).

Abbreviation sql := (utf8 s).

(** What lies between two positions. *)
Definition between (i j : nat) : list Z := take (j - i) (drop i sql).

Definition crosses (sc sc' : scanner) : Prop :=
  (index sc < length sql)%nat /\ bnd s (index sc) /\
  forall o, consume_opaque sql backend err sc o =
    Ok (true, sc', (fun out => out ++ between (index sc) (index sc')) <$> o).

Abbreviation pos pre := (length (utf8 pre)).

Lemma pos_snoc (pre : text) c : pos (pre ++ [c]) = (pos pre + length (utf8_char c))%nat.
Proof. rewrite utf8_app, length_app, utf8_cons, length_app. cbn. lia. Qed.

Lemma pos_app (pre x : text) : pos (pre ++ x) = (pos pre + pos x)%nat.
Proof. by rewrite utf8_app, length_app. Qed.

Lemma between_app pre x post : s = pre ++ x ++ post -> between (pos pre) (pos (pre ++ x)) = utf8 x.
Proof.
  clear Hs. intros E. unfold between. rewrite E, !utf8_app, drop_app_length, length_app.
  replace (_ - _)%nat with (pos x) by lia. by rewrite take_app_length.
Qed.

Lemma pos_lt pre c post : s = pre ++ c :: post -> (pos pre < length sql)%nat.
Proof.
  intros E. destruct (scalars_at s Hs _ _ _ E) as (_ & Hc & _). destruct (utf8_char_first c Hc) as (b & t & Eb & _).
  rewrite E, utf8_app, length_app, utf8_cons, Eb. cbn. lia.
Qed.

Lemma bnd_pos pre post : s = pre ++ post -> bnd s (pos pre).
Proof. intros E. by exists pre, post. Qed.

(** Comparing the octet at a boundary with an ASCII one compares characters. *)
Lemma byte_at pre c post : s = pre ++ c :: post ->
  exists b, sql !! pos pre = Some b /\ forall a, 0 <= a < 128 -> (b =? a) = (c =? a).
Proof.
  intros E. destruct (scalars_at s Hs _ _ _ E) as (_ & Hc & _).
  destruct (utf8_char_first c Hc) as (b & t & Eb & _ & _ & _ & Hlo & Hhi). exists b.
  rewrite (lookup_bnd_0 s _ _ E), utf8_cons, Eb. split; [done|]. intros a Ha.
  destruct (decide (c < 128)) as [Hc'|Hc']; [by destruct (Hlo Hc') as [-> _]|].
  rewrite !(proj2 (Z.eqb_neq _ a)) by lia. done.
Qed.

Lemma head_utf8 (r : text) a : Forall scalar r -> 0 <= a < 128 ->
  bool_decide (utf8 r !! 0%nat = Some a) = opt_is (Z.eqb a) (head r).
Proof.
  intros Hr Ha. destruct Hr as [|c r Hc Hr]; [done|]. rewrite utf8_cons.
  destruct (utf8_char_first c Hc) as (b & t & -> & _ & _ & _ & Hlo & Hhi). cbn [app head opt_is].
  change ((b :: t ++ utf8 r) !! 0%nat) with (Some b). rewrite Z.eqb_sym.
  destruct (decide (c < 128)) as [Hc'|Hc'].
  - destruct (Hlo Hc') as [-> _]. destruct (c =? a) eqn:E; bool_to_prop; [subst; by apply bool_decide_eq_true|].
    apply bool_decide_eq_false. congruence.
  - rewrite (proj2 (Z.eqb_neq c a)) by lia. apply bool_decide_eq_false. intros [= ->]. lia.
Qed.

(** The octet before a boundary. *)
Lemma byte_before pre post a : s = pre ++ post -> 0 <= a < 128 ->
  match sql !! (pos pre - 1)%nat with Some b => (0 <? pos pre)%nat && (b =? a) | None => false end =
  opt_is (fun c => c =? a) (last pre).
Proof.
  intros E Ha. induction pre as [|c pre' _] using rev_ind.
  - cbn [utf8 flat_map length Nat.ltb Nat.leb andb last opt_is]. by case_match.
  - rewrite last_snoc. cbn [opt_is]. rewrite <- app_assoc in E. cbn [app] in E.
    destruct (scalars_at s Hs _ _ _ E) as (_ & Hc & _).
    destruct (utf8_char_first c Hc) as (b & t & Eb & _ & Ht & _ & Hlo & _).
    rewrite pos_snoc, Eb. cbn [length].
    replace (pos pre' + S (length t) - 1)%nat with (pos pre' + length t)%nat by lia.
    rewrite (lookup_bnd s _ _ _ E), utf8_cons, Eb, (proj2 (Nat.ltb_lt _ _)) by lia. cbn [andb].
    induction t as [|x t' _] using rev_ind.
    + cbn [length app]. change ((b :: utf8 post) !! 0%nat) with (Some b). cbn beta iota.
      destruct (decide (c < 128)) as [Hc'|Hc']; [by destruct (Hlo Hc') as [-> _]|].
      exfalso. unfold utf8_char in Eb. revert Eb. repeat case_match; bool_to_prop; intros [=]; lia.
    + rewrite length_app. cbn [length]. rewrite <- app_comm_cons, Nat.add_1_r.
      change ((b :: (t' ++ [x]) ++ utf8 post) !! S (length t')) with (((t' ++ [x]) ++ utf8 post) !! length t').
      rewrite <- app_assoc. cbn [app]. rewrite list_lookup_middle by done. apply Forall_app in Ht as [_ Ht]. inversion_clear Ht as [|? ? Hx _].
      unfold cont in Hx. destruct (decide (c < 128)) as [Hc'|Hc'].
      { destruct (Hlo Hc') as [_ Ht]. by destruct t'. }
      rewrite !(proj2 (Z.eqb_neq _ a)) by lia. done.
Qed.

Lemma escape_flag pre q post : s = pre ++ post ->
  quote_uses_backslash_escape backend sql (pos pre) q = escapes backend pre q.
Proof.
  intros E. unfold quote_uses_backslash_escape, escapes. destruct backend; try done.
  rewrite <- andb_assoc. f_equal.
  pose proof (byte_before pre post 101 E ltac:(lia)) as H1. pose proof (byte_before pre post 69 E ltac:(lia)) as H2.
  destruct (sql !! _) as [b|] eqn:Eb, (last pre) as [c|]; cbn [opt_is] in *.
  - by rewrite andb_orb_distrib_r, H1, H2.
  - by rewrite andb_orb_distrib_r, H1, H2.
  - rewrite andb_false_r. by rewrite <- H1, <- H2.
  - apply andb_false_r.
Qed.

Lemma cross_open pre q post : s = pre ++ q :: post -> existsb (Z.eqb q) [39; 34; 96] = true ->
  crosses (mk_scanner (pos pre) None) (mk_scanner (pos (pre ++ [q])) (Some (q, escapes backend pre q))).
Proof.
  intros E Hq. rewrite existsb_quote in Hq.
  assert (0 <= q < 128) as Hr by (rewrite !orb_true_iff, !Z.eqb_eq in Hq; lia).
  split; [by eapply pos_lt|]. split; [by eapply bnd_pos|]. intros o. unfold consume_opaque. cbn [quote index].
  destruct (byte_at _ _ _ E) as (b & Hb & Hcmp). rewrite Hb.
  assert (b = q) as -> by (apply Z.eqb_eq; rewrite Hcmp by done; apply Z.eqb_refl).
  rewrite Hq, (escape_flag _ _ _ E). rewrite pos_snoc, ascii_width by done. cbn [length].
  destruct (ascii_next s Hs _ _ Hb ltac:(lia)) as [H1 H2]. by rewrite append_range_bnd by (done || lia).
Qed.

(** One character inside a literal. *)
Lemma cross_char pre c post q esc : s = pre ++ c :: post -> 0 <= q < 128 -> c <> q -> esc && (c =? 92) = false ->
  crosses (mk_scanner (pos pre) (Some (q, esc))) (mk_scanner (pos (pre ++ [c])) (Some (q, esc))).
Proof.
  intros E Hq Hne He. split; [by eapply pos_lt|]. split; [by eapply bnd_pos|]. intros o.
  unfold consume_opaque, consume_quoted. cbn [quote index].
  destruct (byte_at _ _ _ E) as (b & Hb & Hcmp). rewrite Hb, (sql_char_at_bnd s Hs _ _ _ E). cbn [result_bind].
  rewrite (Hcmp 92), He, (Hcmp q), (proj2 (Z.eqb_neq c q)) by (done || lia). cbn [result_bind index at_index].
  rewrite pos_snoc. pose proof (bnd_snoc s _ _ _ E) as H.
  by rewrite append_range_bnd by (first [done | by eapply bnd_pos | lia]).
Qed.

Lemma cross_escaped pre c post q : s = pre ++ 92 :: c :: post -> 0 <= q < 128 ->
  crosses (mk_scanner (pos pre) (Some (q, true))) (mk_scanner (pos (pre ++ [92; c])) (Some (q, true))).
Proof.
  intros E Hq. split; [by eapply pos_lt|]. split; [by eapply bnd_pos|]. intros o.
  unfold consume_opaque, consume_quoted. cbn [quote index].
  destruct (byte_at _ _ _ E) as (b & Hb & Hcmp). rewrite Hb, (sql_char_at_bnd s Hs _ _ _ E). cbn [result_bind].
  rewrite (Hcmp 92) by lia. cbn [andb Z.eqb Pos.eqb].
  assert (s = (pre ++ [92]) ++ c :: post) as E' by by rewrite <- app_assoc.
  unfold is_done. cbn [index at_index]. rewrite <- pos_snoc.
  rewrite (proj2 (Nat.leb_gt _ _)) by (by eapply pos_lt). rewrite (sql_char_at_bnd s Hs _ _ _ E'). cbn [result_bind index at_index].
  pose proof (bnd_snoc s _ _ _ E') as H.
  replace (pre ++ [92; c]) with ((pre ++ [92]) ++ [c]) by by rewrite <- app_assoc. rewrite !pos_snoc in *.
  by rewrite append_range_bnd by (first [done | by eapply bnd_pos | lia]).
Qed.

Lemma second_octet (r : text) q : Forall scalar r -> 0 <= q < 128 -> opt_is (Z.eqb q) (r !! 1%nat) = false ->
  utf8 r !! 1%nat <> Some q.
Proof.
  intros Hr Hq. destruct Hr as [|c r Hc Hr]; [done|]. cbn [lookup list_lookup].
  rewrite utf8_cons. destruct (utf8_char_first c Hc) as (b & t & -> & _ & Ht & _).
  change ((c :: r) !! 1%nat) with (r !! 0%nat). intros Ho.
  change (((b :: t) ++ utf8 r) !! 1%nat) with ((t ++ utf8 r) !! 0%nat).
  destruct Ht as [|x t Hx _].
  - cbn [app]. intros Hl. pose proof (head_utf8 r q Hr Hq) as H. rewrite Hl, bool_decide_eq_true_2 in H by done.
    destruct r as [|d r]; [done|]. change ((d :: r) !! 0%nat) with (Some d) in Ho. cbn [opt_is head] in *. congruence.
  - change (((x :: t) ++ utf8 r) !! 0%nat) with (Some x). unfold cont in Hx. intros [= ->]. lia.
Qed.

Lemma cross_close pre q post esc : s = pre ++ q :: post -> 0 <= q < 128 -> q <> 92 ->
  opt_is (Z.eqb q) (post !! 1%nat) = false ->
  crosses (mk_scanner (pos pre) (Some (q, esc))) (mk_scanner (pos (pre ++ [q])) None).
Proof.
  intros E Hq H92 Hn. split; [by eapply pos_lt|]. split; [by eapply bnd_pos|]. intros o.
  unfold consume_opaque, consume_quoted. cbn [quote index].
  destruct (byte_at _ _ _ E) as (b & Hb & Hcmp). rewrite Hb, (sql_char_at_bnd s Hs _ _ _ E). cbn [result_bind].
  rewrite (Hcmp 92), (proj2 (Z.eqb_neq q 92)), andb_false_r, (Hcmp q), Z.eqb_refl by (done || lia).
  destruct (scalars_at s Hs _ _ _ E) as (_ & _ & Hpost).
  assert (s = (pre ++ [q]) ++ post) as E' by by rewrite <- app_assoc.
  unfold next_byte. cbn [index at_index]. rewrite <- pos_snoc, <- Nat.add_1_r, (lookup_bnd s _ _ _ E').
  rewrite decide_False by (by apply second_octet). cbn [result_bind index].
  pose proof (bnd_snoc s _ _ _ E) as H. rewrite pos_snoc in *.
  by rewrite append_range_bnd by (first [done | by eapply bnd_pos | lia]).
Qed.

Lemma cross_line pre body post : s = pre ++ 45 :: 45 :: body ++ post -> 10 ∉ body ->
  match post with [] => True | c :: _ => c = 10 end ->
  crosses (mk_scanner (pos pre) None) (mk_scanner (pos (pre ++ 45 :: 45 :: body)) None).
Proof.
  intros E Hb Hp. split; [by eapply pos_lt|]. split; [by eapply bnd_pos|]. intros o.
  unfold consume_opaque. cbn [quote index].
  rewrite (lookup_bnd_0 s _ _ E). cbn [utf8 flat_map]. change (utf8_char 45) with [45]. cbn [app lookup list_lookup Z.eqb Pos.eqb orb andb].
  unfold next_byte. cbn [index]. rewrite <- Nat.add_1_r, (lookup_bnd s _ _ _ E).
  rewrite bool_decide_eq_true_2 by done. unfold consume_line_comment. cbn [index].
  assert (s = (pre ++ [45; 45]) ++ body ++ post) as E2 by by rewrite <- app_assoc.
  assert (drop (pos pre + 2) sql = utf8 body ++ utf8 post) as ->.
  { rewrite E2, utf8_app, !utf8_app. replace (pos pre + 2)%nat with (length (utf8 pre ++ utf8 [45; 45])).
    - by rewrite drop_app_length.
    - rewrite length_app. done. }
  rewrite span_app; [| |destruct post as [|c post]; [done|]; subst c; by rewrite utf8_cons].
  - replace (pos pre + 2 + pos body)%nat with (pos (pre ++ 45 :: 45 :: body)) by (rewrite pos_app, !utf8_cons; cbn; lia).
    rewrite append_range_bnd; [done|done|by eapply bnd_pos| |rewrite pos_app; lia].
    eapply (bnd_pos _ post). by rewrite <- app_assoc.
  - assert (Forall scalar body) as Hsb.
    { rewrite E2 in Hs. apply Forall_app in Hs as [_ H]. by apply Forall_app in H as [H _]. }
    clear -Hb Hsb. apply Forall_forall. intros b Hin. apply negb_true_iff, Z.eqb_neq. intros ->.
    unfold utf8 in Hin. rewrite list_elem_of_In, in_flat_map in Hin. destruct Hin as (c & Hc & Hin).
    rewrite <- list_elem_of_In in Hc. rewrite Forall_forall in Hsb. pose proof (Hsb _ Hc) as Hsc.
    destruct (utf8_char_first c Hsc) as (b & t & Eb & _ & Ht & _ & Hlo & Hhi). rewrite Eb in Hin.
    destruct (decide (c < 128)) as [Hc'|Hc'].
    + destruct (Hlo Hc') as [-> ->]. destruct Hin as [->|[]]. done.
    + destruct Hin as [->|Hin]; [lia|]. rewrite <- list_elem_of_In in Hin. rewrite Forall_forall in Ht.
      apply Ht in Hin. unfold cont in Hin. lia.
Qed.

Lemma cross_block pre body post : s = pre ++ 47 :: 42 :: body ++ 42 :: 47 :: post ->
  comment_body (body ++ [42; 47]) = Some (length body) ->
  crosses (mk_scanner (pos pre) None) (mk_scanner (pos (pre ++ 47 :: 42 :: body ++ [42; 47])) None).
Proof.
  intros E Hb. split; [by eapply pos_lt|]. split; [by eapply bnd_pos|]. intros o.
  unfold consume_opaque. cbn [quote index].
  rewrite (lookup_bnd_0 s _ _ E). cbn [utf8 flat_map]. change (utf8_char 47) with [47]. cbn [app lookup list_lookup Z.eqb Pos.eqb orb andb].
  unfold next_byte. cbn [index]. rewrite <- Nat.add_1_r, (lookup_bnd s _ _ _ E).
  rewrite bool_decide_eq_true_2 by done. unfold consume_block_comment. cbn [index].
  assert (s = (pre ++ [47; 42]) ++ body ++ [42; 47] ++ post) as E2 by by rewrite <- app_assoc.
  assert (drop (pos pre + 2) sql = utf8 body ++ 42 :: 47 :: utf8 post) as ->.
  { rewrite E2, utf8_app, !utf8_app. replace (pos pre + 2)%nat with (length (utf8 pre ++ utf8 [47; 42])).
    - by rewrite drop_app_length.
    - by rewrite length_app. }
  rewrite comment_body_utf8; [| |done].
  - replace (pos pre + 2 + pos body + 2)%nat with (pos (pre ++ 47 :: 42 :: body ++ [42; 47]))
      by (rewrite pos_app, !utf8_cons, utf8_app, !length_app; cbn; lia).
    rewrite append_range_bnd; [done|done|by eapply bnd_pos| |rewrite pos_app; lia].
    eapply (bnd_pos _ post). rewrite E2. by rewrite <- !app_assoc; cbn [app]; rewrite <- app_assoc.
  - rewrite E2 in Hs. apply Forall_app in Hs as [_ H]. by apply Forall_app in H as [H _].
Qed.

Lemma delimiter_ascii tag : tag_ok tag = true -> Forall (fun c => 0 <= c < 128) (delimiter tag).
Proof.
  intros Ht. unfold delimiter. constructor; [lia|]. apply Forall_app. split; [|repeat constructor; lia].
  assert (forall b, is_name_byte b = true -> 0 <= b < 128) as Hb.
  { intros b. unfold is_name_byte, is_ascii_alphanumeric, is_ascii_alphabetic, is_ascii_digit.
    rewrite !orb_true_iff, !in_range_true, Z.eqb_eq. lia. }
  destruct tag as [|a t]; [constructor|]. cbn [tag_ok] in Ht. apply andb_true_iff in Ht as [Ha Ht]. constructor.
  - apply Hb. revert Ha. unfold is_name_start, is_name_byte, is_ascii_alphanumeric. rewrite !orb_true_iff. tauto.
  - rewrite forallb_forall in Ht. apply Forall_forall. intros b Hin. apply Hb, Ht. by apply list_elem_of_In.
Qed.

Lemma delimiter_end pre tag post : s = pre ++ delimiter tag ++ post -> tag_ok tag = true ->
  dollar_delimiter_end sql (pos pre) = Some (pos pre + length (delimiter tag))%nat.
Proof.
  intros E Ht. unfold dollar_delimiter_end.
  assert (forall k, sql !! (pos pre + k)%nat = (delimiter tag ++ utf8 post) !! k) as Hl.
  { intros k. rewrite (lookup_bnd s _ _ _ E), utf8_app. by rewrite (utf8_ascii _ (delimiter_ascii tag Ht)). }
  assert (forall k, drop (pos pre + k) sql = drop k (delimiter tag ++ utf8 post)) as Hdr.
  { intros k. rewrite E, utf8_app, utf8_app, drop_app_add'. f_equal. by rewrite (utf8_ascii _ (delimiter_ascii tag Ht)). done. }
  replace (S (pos pre)) with (pos pre + 1)%nat by lia. rewrite Hl, Hdr. unfold delimiter in *. destruct tag as [|a t]; cbn [app lookup list_lookup length].
  - done.
  - cbn [tag_ok] in Ht. apply andb_true_iff in Ht as [Ha Ht].
    change ((36 :: a :: (t ++ [36]) ++ utf8 post) !! 1%nat) with (Some a).
    assert ((a =? 36) = false) as ->.
    { apply Z.eqb_neq. intros ->. done. }
    unfold is_name_start in Ha. rewrite <- negb_orb, Ha. cbn [negb drop].
    rewrite <- app_assoc. cbn [app]. rewrite drop_0, span_app; [|rewrite forallb_forall in Ht; apply Forall_forall; intros b Hb; apply Ht; by apply list_elem_of_In|done].
    rewrite <- Nat.add_assoc, Hl. cbn [app]. rewrite <- app_assoc. cbn [app].
    change ((36 :: a :: t ++ 36 :: utf8 post) !! (2 + length t)%nat) with ((t ++ 36 :: utf8 post) !! length t).
    rewrite list_lookup_middle by done. cbn [Z.eqb Pos.eqb]. f_equal. rewrite length_app. cbn. lia.
Qed.

Lemma cross_dollar pre tag body post : s = pre ++ (delimiter tag ++ body ++ delimiter tag) ++ post -> tag_ok tag = true ->
  find_sub (delimiter tag) (body ++ delimiter tag) = Some (length body) ->
  crosses (mk_scanner (pos pre) None) (mk_scanner (pos (pre ++ delimiter tag ++ body ++ delimiter tag)) None).
Proof.
  intros E Ht Hf. set (d := delimiter tag) in *.
  assert (utf8 d = d) as Ed by apply utf8_ascii, delimiter_ascii, Ht.
  assert (s = pre ++ d ++ body ++ d ++ post) as E1 by by rewrite E, <- !app_assoc.
  split; [exact (pos_lt pre 36 _ E1)|]. split; [by eapply bnd_pos|]. intros o.
  unfold consume_opaque. cbn [quote index].
  assert (sql !! pos pre = Some 36) as H0 by by rewrite (lookup_bnd_0 s _ _ E1), utf8_app, Ed.
  rewrite H0. cbn [Z.eqb Pos.eqb orb andb]. unfold dollar_quote_end. rewrite H0. cbn [negb Z.eqb Pos.eqb].
  rewrite (delimiter_end _ _ _ E1 Ht). fold d.
  assert (pos pre + length d = pos (pre ++ d))%nat as -> by (rewrite pos_app, Ed; lia).
  assert (s = (pre ++ d) ++ body ++ d ++ post) as E2 by by rewrite <- app_assoc.
  rewrite (str_slice_bnd s Hs); [|by eapply bnd_pos..|rewrite pos_app; lia]. cbn [result_bind].
  fold (between (pos pre) (pos (pre ++ d))). rewrite (between_app _ _ _ E1), Ed.
  rewrite (str_slice_bnd s Hs); [|by eapply bnd_pos|apply bnd_end|by eapply bnd_le, bnd_pos]. cbn [result_bind].
  rewrite firstn_all2 by (rewrite length_drop; lia).
  assert (drop (pos (pre ++ d)) sql = utf8 (body ++ d ++ post)) as -> by (rewrite E2, (utf8_app (pre ++ d)); by rewrite drop_app_length).
  rewrite <- Ed at 1. assert (Forall scalar (body ++ d ++ post)) as Hsc by (rewrite E2 in Hs; by apply Forall_app in Hs as [_ ?]).
  rewrite !Forall_app in Hsc. destruct Hsc as (? & ? & ?).
  rewrite find_sub_utf8 by done. cbn [result_bind].
  replace (pos (pre ++ d) + pos body + length d)%nat with (pos (pre ++ d ++ body ++ d)) by (rewrite !pos_app, Ed; lia).
  rewrite append_range_bnd; [done|done|by eapply bnd_pos| |rewrite (pos_app pre); lia].
  eapply (bnd_pos _ post). by rewrite E1, <- !app_assoc.
Qed.

(** ** Crossing a list of pieces *)

Lemma cross_body q esc post : 0 <= q < 128 -> forall n body pre, (length body <= n)%nat ->
  s = pre ++ body ++ q :: post -> body_ok esc q body = true ->
  rtc crosses (mk_scanner (pos pre) (Some (q, esc))) (mk_scanner (pos (pre ++ body)) (Some (q, esc))).
Proof.
  intros Hq. induction n as [|n IH]; intros [|c body] pre Hn E Hb; cbn [length] in Hn; try lia;
    try (by rewrite app_nil_r).
  cbn [app] in E. cbn [body_ok] in Hb. destruct (esc && (c =? 92)) eqn:Ee.
  - destruct body as [|d body]; [done|]. apply andb_true_iff in Ee as [-> Ec%Z.eqb_eq]. subst c. cbn [length] in Hn.
    eapply rtc_l; [by eapply cross_escaped|].
    replace (pre ++ 92 :: d :: body) with ((pre ++ [92; d]) ++ body) by by rewrite <- app_assoc.
    apply IH; [lia|by rewrite <- app_assoc|done].
  - apply andb_true_iff in Hb as [Hc Hb]. bool_to_prop. eapply rtc_l; [by eapply cross_char|].
    replace (pre ++ c :: body) with ((pre ++ [c]) ++ body) by by rewrite <- app_assoc.
    apply IH; [lia|by rewrite <- app_assoc|done].
Qed.

Lemma cross_literal pre q body post : s = pre ++ (q :: body ++ [q]) ++ post ->
  piece_ok backend pre (Literal q body) post = true ->
  rtc crosses (mk_scanner (pos pre) None) (mk_scanner (pos (pre ++ q :: body ++ [q])) None).
Proof.
  intros E H. cbn [piece_ok] in H. rewrite !andb_true_iff in H. destruct H as (((Hq & _) & Hb) & Hn%negb_true_iff).
  assert (0 <= q < 128 /\ q <> 92) as [Hr H92].
  { rewrite existsb_quote, !orb_true_iff, !Z.eqb_eq in Hq. lia. }
  cbn [app] in E. rewrite <- app_assoc in E. cbn [app] in E.
  eapply rtc_l; [by eapply cross_open|].
  assert (s = (pre ++ [q]) ++ body ++ q :: post) as E1 by by rewrite <- app_assoc.
  etransitivity; [by eapply (cross_body q _ post Hr (length body) body)|].
  replace (pre ++ q :: body ++ [q]) with (((pre ++ [q]) ++ body) ++ [q]) by by rewrite <- !app_assoc.
  eapply rtc_once, cross_close; [by rewrite <- app_assoc|done..].
Qed.

Definition is_opaque (p : piece) : bool := match p with Code _ | Hole _ => false | _ => true end.

Lemma cross_piece pre p post : s = pre ++ opaque_text p ++ post -> is_opaque p = true -> piece_ok backend pre p post = true ->
  rtc crosses (mk_scanner (pos pre) None) (mk_scanner (pos (pre ++ opaque_text p)) None).
Proof.
  intros E Ho Hp. destruct p as [c|q body|body|body|tag body|name]; try done; cbn [opaque_text] in *.
  - by eapply cross_literal.
  - cbn [piece_ok] in Hp. rewrite !andb_true_iff in Hp. destruct Hp as ((_ & Hb%negb_true_iff) & Hr).
    eapply rtc_once, cross_line; [exact E| |].
    + intros Hin. apply not_true_iff_false in Hb. apply Hb. apply existsb_exists. exists 10. by rewrite <- list_elem_of_In.
    + destruct post; [done|]. by bool_to_prop.
  - cbn [piece_ok] in Hp. rewrite !andb_true_iff in Hp. destruct Hp as (_ & Hb). unfold ends_at in Hb.
    destruct (comment_body _) as [n|] eqn:En; [|done]. apply Nat.eqb_eq in Hb as ->.
    eapply rtc_once, cross_block; [|done]. rewrite E. cbn [app]. by rewrite <- !app_assoc.
  - cbn [piece_ok] in Hp. rewrite !andb_true_iff in Hp. destruct Hp as ((Ht & _) & Hb). unfold ends_at in Hb.
    destruct (find_sub _ _) as [n|] eqn:En; [|done]. apply Nat.eqb_eq in Hb as ->.
    by eapply rtc_once, cross_dollar.
Qed.

(** A character that opens nothing. *)
Lemma not_opaque pre c post : s = pre ++ c :: post -> existsb (Z.eqb c) [39; 34; 96] = false ->
  (c = 45 -> opt_is (Z.eqb 45) (head post) = false) -> (c = 47 -> opt_is (Z.eqb 42) (head post) = false) ->
  (c = 36 -> opt_is is_ascii_digit (head post) = true) -> forall o,
  consume_opaque sql backend err (mk_scanner (pos pre) None) o = Ok (false, mk_scanner (pos pre) None, o).
Proof.
  intros E H1 H2 H3 H4 o. destruct (scalars_at s Hs _ _ _ E) as (_ & Hc & Hpost).
  destruct (byte_at _ _ _ E) as (b & Hb & Hcmp). rewrite existsb_quote in H1.
  unfold consume_opaque. cbn [quote index]. rewrite Hb, !Hcmp, H1 by lia.
  assert (c < 128 -> forall a, 0 <= a < 128 ->
    bool_decide (next_byte sql (mk_scanner (pos pre) None) = Some a) = opt_is (Z.eqb a) (head post)) as Hn.
  { intros Hlt a Ha. unfold next_byte. cbn [index]. rewrite <- Nat.add_1_r, (lookup_bnd s _ _ _ E), utf8_cons.
    apply scalar_range in Hc. rewrite ascii_width by lia. cbn [app].
    change ((c :: utf8 post) !! 1%nat) with (utf8 post !! 0%nat). by apply head_utf8. }
  destruct (c =? 45) eqn:E45; cbn [andb].
  { bool_to_prop. rewrite Hn, H2 by (done || lia). by subst c. }
  destruct (c =? 47) eqn:E47; cbn [andb].
  { bool_to_prop. rewrite Hn, H3 by (done || lia). by subst c. }
  destruct (c =? 36) eqn:E36; [|done]. bool_to_prop. subst c. specialize (H4 eq_refl).
  unfold dollar_quote_end. assert (b = 36) as -> by (apply Z.eqb_eq; by rewrite Hcmp by lia). rewrite Hb. cbn [negb Z.eqb Pos.eqb].
  unfold dollar_delimiter_end. rewrite <- Nat.add_1_r, (lookup_bnd s _ _ _ E), utf8_cons. change (utf8_char 36) with [36]. cbn [app].
  change ((36 :: utf8 post) !! 1%nat) with (utf8 post !! 0%nat).
  destruct post as [|d post]; [done|]. cbn [head opt_is] in H4. inversion_clear Hpost as [|? ? Hd _].
  unfold is_ascii_digit in H4. apply in_range_true in H4. rewrite utf8_cons, ascii_width by lia. cbn [app].
  change ((d :: utf8 post) !! 0%nat) with (Some d). cbn beta iota.
  rewrite (proj2 (Z.eqb_neq d 36)), (proj2 (Z.eqb_neq d 95)) by lia.
  assert (is_ascii_alphabetic d = false) as ->; [|done].
  unfold is_ascii_alphabetic. apply orb_false_iff. rewrite !in_range_false. lia.
Qed.

(** Positions and what lies between them, along a sequence of crossings. *)
Lemma between_trans i j k : (i <= j)%nat -> (j <= k)%nat -> between i j ++ between j k = between i k.
Proof.
  intros H1 H2. unfold between. replace (k - i)%nat with ((j - i) + (k - j))%nat by lia.
  replace (drop j sql) with (drop (j - i) (drop i sql)) by (rewrite drop_drop; f_equal; lia).
  by rewrite take_take_drop.
Qed.

Lemma crosses_move sc sc' : (err = "SQL" \/ err = "SQL batch")%string -> good s sc -> crosses sc sc' ->
  good s sc' /\ (index sc < index sc')%nat.
Proof.
  intros He Hg (Hlt & Hb & Hc).
  pose proof (consume_opaque_safe s Hs backend err sc None He Hg Hlt ltac:(done)) as H. rewrite Hc in H. tauto.
Qed.

End Cross.
