(* ===== verification/SqlTextProps.v ===== *)
(** * Properties of the SQL text layer

    Totality of the three scanning loops; what they do with a statement assembled from
    code, literals, comments, dollar-quoted bodies and placeholders; and the literals
    the scanner gets wrong. *)

From S2P Require Import Prelude AssocList Value Str Utf8 Http HttpProps SqlText SqlPieces.

(** ** The loop *)

Section Loop.
Context {A : Type} (sql : list Z) (round : scanner * A -> result (scanner * A) SqlTextError).
Context (I : scanner * A -> Prop).
Context (HI : forall st, I st -> (index st.1 < length sql)%nat ->
  match round st with
  | Err e => internal e = false
  | Ok st' => I st' /\ (index st.1 < index st'.1)%nat
  end).

Lemma is_done_false st : is_done sql st = false <-> (index st < length sql)%nat.
Proof. apply Nat.leb_gt. Qed.

Lemma scan_loop_total fuel st : I st -> (length sql - index st.1 <= fuel)%nat ->
  exists r, scan_loop sql round fuel st = Some r /\
    match r with Err e => internal e = false | Ok st' => I st' /\ is_done sql st'.1 = true end.
Proof.
  revert st. induction fuel as [|fuel IH]; intros st Hst Hf; cbn [scan_loop].
  all: destruct (is_done sql st.1) eqn:Ed; [by eexists|]; apply is_done_false in Ed; try lia.
  pose proof (HI st Hst Ed) as H. destruct (round st) as [st'|e]; [|by eexists].
  destruct H as [H1 H2]. apply IH; [done|lia].
Qed.

(** One round, and several. *)
Definition round_to (st st' : scanner * A) : Prop := (index st.1 < length sql)%nat /\ round st = Ok st'.

Lemma scan_loop_reach st st' r fuel : I st -> rtc round_to st st' -> (length sql - index st.1 <= fuel)%nat ->
  (forall fuel, (length sql - index st'.1 <= fuel)%nat -> scan_loop sql round fuel st' = r) ->
  scan_loop sql round fuel st = r.
Proof.
  intros Hst Hr. revert fuel Hst. induction Hr as [st|st st1 st' [Hlt Hr] _ IH]; intros fuel Hst Hf Hend; [by apply Hend|].
  pose proof (HI st Hst Hlt) as H. rewrite Hr in H. destruct H as [H1 H2].
  destruct fuel as [|fuel]; [lia|]. cbn [scan_loop]. rewrite (proj2 (is_done_false st.1) Hlt), Hr.
  apply IH; [done|lia|done].
Qed.

Lemma scan_loop_rounds st st' fuel : I st -> rtc round_to st st' -> is_done sql st'.1 = true ->
  (length sql - index st.1 <= fuel)%nat -> scan_loop sql round fuel st = Some (Ok st').
Proof.
  intros Hst Hr Hd Hf. eapply scan_loop_reach; [done..|]. intros f _. destruct f; cbn [scan_loop]; by rewrite Hd.
Qed.

End Loop.

(** ** Every scan ends, and never inside a character *)

Lemma span_lookup p (l : list Z) n : (n < span p l)%nat -> exists b, l !! n = Some b /\ p b = true.
Proof.
  revert n. induction l as [|b l IH]; intros n; cbn [span]; [lia|].
  destruct (p b) eqn:E; [|lia]. destruct n as [|n]; [by exists b|]. intros H. apply IH. lia.
Qed.

Definition ascii_only (p : Z -> bool) : Prop := forall b, p b = true -> b < 128.

Lemma digit_ascii : ascii_only is_ascii_digit.
Proof. intros b. unfold is_ascii_digit. rewrite in_range_true. lia. Qed.
Lemma name_start_ascii : ascii_only is_name_start.
Proof.
  intros b. unfold is_name_start, is_ascii_alphabetic. rewrite !orb_true_iff, !in_range_true, Z.eqb_eq. lia.
Qed.
Lemma name_byte_ascii : ascii_only is_name_byte.
Proof.
  intros b. unfold is_name_byte, is_ascii_alphanumeric, is_ascii_alphabetic, is_ascii_digit.
  rewrite !orb_true_iff, !in_range_true, Z.eqb_eq. lia.
Qed.

Section Total.
Context (s : text) (Hs : Forall scalar s) (backend : SqlBackend).

Abbreviation sql := (utf8 s).

Lemma span_bnd p i : ascii_only p -> bnd s i -> bnd s (i + span p (drop i sql)).
Proof.
  intros Hp Hi. assert (forall n, (n <= span p (drop i sql))%nat -> bnd s (i + n)) as H; [|by apply H].
  induction n as [|n IH]; intros Hn; [by rewrite Nat.add_0_r|].
  destruct (span_lookup p (drop i sql) n ltac:(lia)) as (b & Hb & Hpb). rewrite lookup_drop in Hb.
  destruct (ascii_next s Hs _ _ Hb (Hp _ Hpb)) as [_ H]. by replace (i + S n)%nat with (i + n + 1)%nat by lia.
Qed.

Definition at_rest (sc : scanner) : Prop := good s sc /\ bnd s (index sc).

Lemma copy_char_safe sc out : at_rest sc -> (index sc < length sql)%nat ->
  exists c sc', copy_current_char sql sc out = Ok (sc', out ++ utf8_char c) /\ sc' = at_index (index sc + length (utf8_char c)) sc /\
    at_rest sc' /\ (index sc < index sc')%nat.
Proof.
  intros [Hg Hb] Hi. destruct (bnd_char s _ Hb Hi) as (pre & c & post & Es & Ei).
  destruct (scalars_at s Hs _ _ _ Es) as (_ & Hc & _). destruct (utf8_char_first c Hc) as (b & t & Eb & _).
  pose proof (bnd_snoc s _ _ _ Es) as Hn. rewrite <- Ei in Hn.
  unfold copy_current_char, copy_sql_char. rewrite Ei, (sql_char_at_bnd s Hs _ _ _ Es), <- Ei. cbn [result_bind].
  eexists c, _. split; [reflexivity|]. split; [done|]. unfold at_rest, good in *. cbn [index at_index quote].
  rewrite Eb at 2. cbn [length]. split; [|lia]. split; [|done]. destruct (quote sc) as [[q e]|]; [|done]. by destruct Hg.
Qed.

(** The head of a round that finds no opaque text leaves the scanner in plain code. *)
Lemma plain_at_rest sc i : quote sc = None -> bnd s i -> at_rest (at_index i sc).
Proof. intros Hq Hb. split; [|done]. unfold good. cbn. by rewrite Hq. Qed.

Lemma positional_safe (st : scanner * (positional * list Z)) : at_rest st.1 -> (index st.1 < length sql)%nat ->
  match positional_round sql backend st with
  | Err e => internal e = false
  | Ok st' => at_rest st'.1 /\ (index st.1 < index st'.1)%nat
  end.
Proof.
  destruct st as [sc [p out]]. cbn [fst]. intros [Hg Hb] Hi. unfold positional_round.
  pose proof (consume_opaque_safe s Hs backend "SQL" sc (Some out) (or_introl eq_refl) Hg Hi (fun _ => Hb)) as H.
  destruct (consume_opaque _ _ _ _ _) as [[[[] sc'] o']|e]; cbn [result_bind]; [|..|done].
  { destruct H as (? & ? & ? & ->). done. }
  destruct H as (-> & -> & Hq). cbn [from_option id].
  assert (at_rest sc) as Hr by done. destruct (copy_char_safe sc out Hr Hi) as (c & sc' & Hcopy & _ & Hr' & Hlt).
  unfold consume_positional_placeholder, current_byte, next_byte.
  destruct (sql !! index sc) as [b|] eqn:Eb; [|cbn [result_bind]; by rewrite Hcopy].
  destruct (b =? 63) eqn:E63; bool_to_prop.
  { destruct (saw_dollar p); [done|]. cbn [result_bind fst]. subst b.
    destruct (ascii_next s Hs _ _ Eb ltac:(lia)) as [_ H]. split; [by apply plain_at_rest|cbn; lia]. }
  destruct ((b =? 36) && _) eqn:E36; [|cbn [result_bind]; by rewrite Hcopy].
  destruct (saw_question p); [done|]. apply andb_true_iff in E36 as [E36 _]. bool_to_prop. subst b.
  destruct (ascii_next s Hs _ _ Eb ltac:(lia)) as [_ H]. rewrite Nat.add_1_r in H.
  pose proof (span_bnd _ _ digit_ascii H) as H'. rewrite (str_slice_bnd s Hs) by (done || lia). cbn [result_bind].
  destruct (parse_usize 10 _) as [n|]; [|done]. destruct (_ || _); [done|]. cbn [result_bind fst].
  split; [by apply plain_at_rest|cbn; lia].
Qed.

Lemma named_safe named (st : scanner * (naming * list Z)) : at_rest st.1 -> (index st.1 < length sql)%nat ->
  match named_round sql backend named st with
  | Err e => internal e = false
  | Ok st' => at_rest st'.1 /\ (index st.1 < index st'.1)%nat
  end.
Proof.
  destruct st as [sc [n out]]. cbn [fst]. intros [Hg Hb] Hi. unfold named_round.
  pose proof (consume_opaque_safe s Hs backend "SQL" sc (Some out) (or_introl eq_refl) Hg Hi (fun _ => Hb)) as H.
  destruct (consume_opaque _ _ _ _ _) as [[[[] sc'] o']|e]; cbn [result_bind]; [|..|done].
  { destruct H as (? & ? & ? & ->). done. }
  destruct H as (-> & -> & Hq). cbn [from_option id].
  assert (at_rest sc) as Hr by done. destruct (copy_char_safe sc out Hr Hi) as (c & sc' & Hcopy & _ & Hr' & Hlt).
  unfold consume_named_placeholder, current_byte, next_byte.
  destruct (sql !! index sc) as [b|] eqn:Eb; [|cbn [result_bind]; by rewrite Hcopy].
  destruct (_ || _); [done|]. destruct ((b =? 58) && _ && _) eqn:E58; [|cbn [result_bind]; by rewrite Hcopy].
  apply andb_true_iff in E58 as [[E58 En]%andb_true_iff _]. bool_to_prop. subst b.
  destruct (ascii_next s Hs _ _ Eb ltac:(lia)) as [_ H]. rewrite Nat.add_1_r in H.
  destruct (sql !! S (index sc)) as [b|] eqn:Eb'; [|done].
  destruct (ascii_next s Hs _ _ Eb' (name_start_ascii _ En)) as [_ H']. rewrite Nat.add_1_r in H'.
  pose proof (span_bnd _ _ name_byte_ascii H') as H''. rewrite (str_slice_bnd s Hs) by (done || lia). cbn [result_bind].
  destruct (named !! _); [|done]. cbn [result_bind fst]. split; [by apply plain_at_rest|cbn; lia].
Qed.

(** A batch moves octet by octet outside quotes. *)
Definition batch_at (st : scanner * (nat * list (list Z))) : Prop :=
  good s st.1 /\ bnd s st.2.1 /\ (st.2.1 <= index st.1)%nat.

Lemma push_statement_safe x l e : push_statement x l = Err e -> internal e = false.
Proof. unfold push_statement. case_match; by intros [= <-]. Qed.

Lemma batch_safe (st : scanner * (nat * list (list Z))) : batch_at st -> (index st.1 < length sql)%nat ->
  match batch_round sql backend st with
  | Err e => internal e = false
  | Ok st' => batch_at st' /\ (index st.1 < index st'.1)%nat
  end.
Proof.
  destruct st as [sc [start l]]. unfold batch_at. cbn [fst snd]. intros (Hg & Hb & Hle) Hi. unfold batch_round.
  pose proof (consume_opaque_safe s Hs backend "SQL batch" sc None (or_intror eq_refl) Hg Hi ltac:(done)) as H.
  destruct (consume_opaque _ _ _ _ _) as [[[[] sc'] o']|e]; cbn [result_bind]; [|..|done].
  { destruct H as (? & ? & ? & _). cbn [fst snd]. split_and!; try done; lia. }
  destruct H as (-> & _ & Hq). unfold good. case_decide as Hc.
  - unfold current_byte in Hc. destruct (ascii_next s Hs _ _ Hc ltac:(lia)) as [H1 H2].
    rewrite (str_slice_bnd s Hs) by done. cbn [result_bind].
    destruct (push_statement _ _) as [l'|e] eqn:Ep; [|by eapply push_statement_safe].
    cbn [result_bind fst snd index at_index quote]. rewrite Hq. rewrite Nat.add_1_r in H2. split_and!; try done; lia.
  - cbn [fst snd index at_index quote]. rewrite Hq. split_and!; try done; lia.
Qed.

Lemma start_at_rest : at_rest scanner_new.
Proof. split; [done|]. apply bnd_0. Qed.

(** An open quote is reported. *)
Lemma open_quote_safe sc m e : ensure_no_open_quote sc m = Err e -> e = Message m.
Proof. unfold ensure_no_open_quote. case_match; by intros [= <-]. Qed.

(** C18: Scanning SQL is total.  Whatever the text, the provider and the parameters, the
    three loops of the scanner end within as many rounds as the text has octets, no slice
    is ever taken inside a character (which would panic), and the scanner's own
    consistency errors are unreachable. *)
Theorem sql_scan_total expected named :
  exists positional named_result batch,
    rewrite_positional_sql sql backend expected = Some positional /\
    rewrite_named_sql sql backend named = Some named_result /\
    split_sql_batch sql backend = Some batch /\
    (forall e, positional = Err e -> internal e = false) /\
    (forall e, named_result = Err e -> internal e = false) /\
    (forall e, batch = Err e -> internal e = false).
Proof.
  unfold rewrite_positional_sql, rewrite_named_sql, split_sql_batch, validate_sql_size.
  destruct (_ <? _). { do 3 eexists. split_and!; try reflexivity; by intros e [= <-]. }
  destruct (scan_loop_total sql _ _ positional_safe (length sql) (scanner_new, (mk_positional 0 false false, []))
    start_at_rest ltac:(lia)) as (r1 & -> & H1).
  destruct (scan_loop_total sql _ _ (named_safe named) (length sql) (scanner_new, (mk_naming ∅ [], []))
    start_at_rest ltac:(lia)) as (r2 & -> & H2).
  destruct (scan_loop_total sql _ _ batch_safe (length sql) (scanner_new, (0%nat, []))
    ltac:(split_and!; [done|apply bnd_0|done]) ltac:(lia)) as (r3 & -> & H3).
  destruct r1 as [[sc1 [p1 o1]]|e1], r2 as [[sc2 [p2 o2]]|e2], r3 as [[sc3 [start stmts]]|e3].
  all: do 3 eexists; split_and!; try reflexivity; intros e.
  all: try (by intros [= <-]).
  all: try (unfold positional_answer; destruct (ensure_no_open_quote _ _) eqn:Eo;
    cbn [result_bind]; [|intros [= <-]; by rewrite (open_quote_safe _ _ _ Eo)]; by repeat case_match; intros [= <-]).
  all: try (unfold named_answer; destruct (ensure_no_open_quote _ _) eqn:Eo;
    cbn [result_bind]; [|intros [= <-]; by rewrite (open_quote_safe _ _ _ Eo)]; by repeat case_match; intros [= <-]).
  all: unfold batch_answer; destruct (ensure_no_open_quote _ _) eqn:Eo;
    cbn [result_bind]; [|intros [= <-]; by rewrite (open_quote_safe _ _ _ Eo)].
  all: destruct H3 as [(_ & Hb & _) _]; cbn [fst snd] in Hb;
    rewrite (str_slice_bnd s Hs) by (done || apply bnd_end || by apply bnd_le); cbn [result_bind]; apply push_statement_safe.
Qed.

End Total.

(** ['é ? with a quote left open], under which every scan reports the quote. *)
Lemma sql_scan_total_witness :
  Forall scalar (39 :: 233 :: txt " ? ") /\
  exists positional named_result batch,
    rewrite_positional_sql (utf8 (39 :: 233 :: txt " ? ")) Postgres 0 = Some positional /\
    rewrite_named_sql (utf8 (39 :: 233 :: txt " ? ")) Postgres ∅ = Some named_result /\
    split_sql_batch (utf8 (39 :: 233 :: txt " ? ")) Postgres = Some batch /\
    (forall e, positional = Err e -> internal e = false) /\
    (forall e, named_result = Err e -> internal e = false) /\
    (forall e, batch = Err e -> internal e = false).
Proof.
  assert (Forall scalar (39 :: 233 :: txt " ? ")) as H by (repeat constructor).
  split; [exact H|exact (sql_scan_total _ H Postgres 0 ∅)].
Defined.

(** ** Rounds over pieces *)

Section Lift.
Context (s : text) (Hs : Forall scalar s) (backend : SqlBackend) (err : string).
Context (Herr : (err = "SQL" \/ err = "SQL batch")%string).
Context {A : Type} (round : scanner * A -> result (scanner * A) SqlTextError) (add : A -> list Z -> A).
Context (add_nil : forall a, add a [] = a) (add_app : forall a x y, add (add a x) y = add a (x ++ y)).
Context (Hround : forall sc sc' a, crosses s backend err sc sc' ->
  round (sc, a) = Ok (sc', add a (between s (index sc) (index sc')))).

Abbreviation pos pre := (length (utf8 pre)).

Lemma lift_crosses sc sc' a : rtc (crosses s backend err) sc sc' -> good s sc ->
  rtc (round_to (utf8 s) round) (sc, a) (sc', add a (between s (index sc) (index sc'))) /\ (index sc <= index sc')%nat.
Proof.
  intros H. revert a. induction H as [sc|sc sc1 sc2 H1 _ IH]; intros a Hg.
  - unfold between. rewrite Nat.sub_diag, add_nil. done.
  - destruct (crosses_move s Hs backend err sc sc1 Herr Hg H1) as [Hg1 Hlt].
    destruct (IH (add a (between s (index sc) (index sc1))) Hg1) as [H2 Hle]. split; [|lia].
    eapply rtc_l; [split; [by destruct H1|by apply Hround]|].
    rewrite add_app, between_trans in H2 by lia. done.
Qed.

Lemma lift_piece pre p post a : s = pre ++ opaque_text p ++ post -> is_opaque p = true -> piece_ok backend pre p post = true ->
  rtc (round_to (utf8 s) round) (mk_scanner (pos pre) None, a)
    (mk_scanner (pos (pre ++ opaque_text p)) None, add a (utf8 (opaque_text p))).
Proof.
  intros E Ho Hp. destruct (lift_crosses _ _ a (cross_piece s Hs backend err pre p post E Ho Hp) I) as [H _].
  cbn [index] in H. by rewrite (between_app s _ _ _ E) in H.
Qed.

End Lift.

(** What a piece that is not opaque allows the scanner to assume. *)
Lemma code_ok backend pre c r : piece_ok backend pre (Code c) r = true ->
  scalar c /\ existsb (Z.eqb c) [39; 34; 96] = false /\ c <> 36 /\
  (c = 45 -> opt_is (Z.eqb 45) (head r) = false) /\ (c = 47 -> opt_is (Z.eqb 42) (head r) = false).
Proof.
  cbn [piece_ok]. rewrite !andb_true_iff, !negb_true_iff. intros (((Hc & Hq) & H1) & H2). cbn [existsb] in *.
  rewrite !orb_false_iff in Hq. destruct Hq as (H39 & H34 & H96 & H36 & _). bool_to_prop.
  split_and!; try done; [by rewrite H39, H34, H96 || (rewrite !orb_false_iff, !Z.eqb_neq; done)|..].
  - intros ->. by apply andb_false_iff in H1 as [H1|H1].
  - intros ->. by apply andb_false_iff in H2 as [H2|H2].
Qed.

Lemma render_app_pre spell k pre p ps :
  pre ++ render spell k (p :: ps) = (pre ++ spelled spell k p) ++ render spell (k + holes_of p) ps.
Proof. cbn [render]. by rewrite app_assoc. Qed.

Definition placeholder (backend : SqlBackend) (k : nat) (_ : text) : text := sql_placeholder backend k.

Lemma decimal_ascii_digits fuel n : 0 <= n -> Forall (fun c => is_ascii_digit c = true) (decimal fuel n).
Proof.
  intros Hn. eapply Forall_impl; [by apply decimal_digits|]. intros c Hc. apply in_range_true. cbv beta in Hc. lia.
Qed.

Lemma placeholder_ascii backend k : Forall (fun c => 0 <= c < 128) (sql_placeholder backend k).
Proof.
  assert (forall n, 0 <= n -> Forall (fun c => 0 <= c < 128) (decimal 20 n)) as Hd.
  { intros n Hn. eapply Forall_impl; [by apply decimal_ascii_digits|]. intros c. unfold is_ascii_digit.
    rewrite in_range_true. lia. }
  destruct backend; cbn [sql_placeholder]; repeat constructor; try lia; apply Hd; lia.
Qed.

(** A test that only ASCII octets pass, at the head of a text. *)
Lemma head_test p (r : text) : ascii_only p -> (forall b, p b = true -> 0 <= b) -> Forall scalar r ->
  match utf8 r !! 0%nat with Some b => p b | None => false end = opt_is p (head r).
Proof.
  intros Ha H0 Hr. destruct Hr as [|c r Hc Hr]; [done|]. rewrite utf8_cons.
  destruct (utf8_char_first c Hc) as (b & t & -> & _ & _ & _ & Hlo & Hhi). cbn [head opt_is app].
  change ((b :: t ++ utf8 r) !! 0%nat) with (Some b). cbn beta iota.
  destruct (decide (c < 128)) as [Hc'|Hc']; [by destruct (Hlo Hc') as [-> _]|].
  destruct (p b) eqn:Eb; [apply Ha in Eb; lia|]. destruct (p c) eqn:Ec; [apply Ha in Ec; lia|done].
Qed.

Lemma digit_nonneg b : is_ascii_digit b = true -> 0 <= b.
Proof. unfold is_ascii_digit. rewrite in_range_true. lia. Qed.

Section Positional.
Context (s : text) (Hs : Forall scalar s) (backend : SqlBackend) (dollar : bool).
Context (Hsize : Z.of_nat (length (utf8 s)) <= MAX_SQL_BYTES).

Abbreviation sql := (utf8 s).
Abbreviation pos pre := (length (utf8 pre)).

(** The portable spelling and PostgreSQL's. *)
Definition spell_positional (k : nat) (_ : text) : text := if dollar then 36 :: decimal 20 (Z.of_nat k + 1) else [63].
Definition positional_side (_ : text) (p : piece) (r : text) : bool :=
  match p with
  | Code c => negb (c =? 63)
  | Hole _ => negb (dollar && opt_is is_ascii_digit (head r))
  | _ => true
  end.

Abbreviation rounds := (rtc (round_to sql (positional_round sql backend))).

Definition append_out (a : positional * list Z) (x : list Z) : positional * list Z := (a.1, a.2 ++ x).

Lemma positional_crosses sc sc' a : crosses s backend "SQL" sc sc' ->
  positional_round sql backend (sc, a) = Ok (sc', append_out a (between s (index sc) (index sc'))).
Proof. intros (_ & _ & H). destruct a as [p out]. unfold positional_round. rewrite H. done. Qed.

Lemma positional_code pre c post p out : s = pre ++ c :: post -> piece_ok backend pre (Code c) post = true -> c <> 63 ->
  round_to sql (positional_round sql backend) (mk_scanner (pos pre) None, (p, out))
    (mk_scanner (pos (pre ++ [c])) None, (p, out ++ utf8_char c)).
Proof.
  intros E (Hc & Hq & H36 & H45 & H47)%code_ok H63. split; [by eapply pos_lt|]. unfold positional_round.
  rewrite (not_opaque s Hs backend "SQL" _ _ _ E) by done. cbn [result_bind from_option id].
  unfold consume_positional_placeholder, current_byte. cbn [index].
  destruct (byte_at s Hs _ _ _ E) as (b & Hb & Hcmp). rewrite Hb, !Hcmp by lia.
  rewrite (proj2 (Z.eqb_neq c 63)), (proj2 (Z.eqb_neq c 36)) by done. cbn [andb result_bind].
  unfold copy_current_char, copy_sql_char. cbn [index]. rewrite (sql_char_at_bnd s Hs _ _ _ E). cbn [result_bind].
  by rewrite pos_snoc.
Qed.

Definition flags (p : positional) : Prop :=
  (if dollar then saw_question p = false else saw_dollar p = false) /\
  ((0 < placed p)%nat -> saw_question p || saw_dollar p = true).

(** The number behind a dollar sign, read back. *)
Lemma dollar_number pre n post : s = pre ++ 36 :: decimal 20 n ++ post -> 0 < n <= usize_max ->
  opt_is is_ascii_digit (head post) = false ->
  let stop := (S (pos pre) + span is_ascii_digit (drop (S (pos pre)) sql))%nat in
  stop = pos (pre ++ 36 :: decimal 20 n) /\
  (let? digits := str_slice sql (S (pos pre)) stop in Ok (parse_usize 10 digits)) = @Ok _ SqlTextError (Some n).
Proof.
  intros E Hn Hpost. cbv zeta. set (ds := decimal 20 n) in *.
  assert (utf8 ds = ds) as Eascii.
  { apply utf8_ascii. eapply Forall_impl; [apply decimal_ascii_digits; lia|]. intros c Hc.
    pose proof (digit_nonneg _ Hc). apply digit_ascii in Hc. lia. }
  assert (s = (pre ++ [36]) ++ ds ++ post) as E1 by by rewrite <- app_assoc.
  assert (S (pos pre) = pos (pre ++ [36])) as -> by (rewrite pos_snoc; cbn; lia).
  assert (drop (pos (pre ++ [36])) sql = ds ++ utf8 post) as ->.
  { rewrite E1, (utf8_app (pre ++ [36])), drop_app_length, utf8_app. by rewrite Eascii. }
  assert (Forall scalar post) as Hsc.
  { rewrite E1 in Hs. apply Forall_app in Hs as [_ H]. by apply Forall_app in H as [_ H]. }
  rewrite span_app; [|apply decimal_ascii_digits; lia|].
  2:{ pose proof (head_test _ _ digit_ascii digit_nonneg Hsc) as H. rewrite Hpost in H. by destruct (utf8 post). }
  assert ((pos (pre ++ [36%Z]) + length ds)%nat = pos ((pre ++ [36]) ++ ds)) as -> by (rewrite (pos_app (pre ++ [36])), Eascii; lia).
  split; [by rewrite <- app_assoc|].
  rewrite (str_slice_bnd s Hs); [|by eapply bnd_pos| |rewrite (pos_app (pre ++ [36])); lia].
  2:{ eapply (bnd_pos s _ post). by rewrite <- !app_assoc. }
  fold (between s (pos (pre ++ [36])) (pos ((pre ++ [36]) ++ ds))). rewrite (between_app s _ _ _ E1), Eascii.
  cbn [result_bind]. subst ds. by rewrite parse_usize_decimal by lia.
Qed.

Lemma positional_dollar pre post p out : s = pre ++ 36 :: decimal 20 (Z.of_nat (placed p) + 1) ++ post ->
  opt_is is_ascii_digit (head post) = false -> saw_question p = false -> (placed p <= pos pre)%nat ->
  round_to sql (positional_round sql backend) (mk_scanner (pos pre) None, (p, out))
    (mk_scanner (pos (pre ++ 36 :: decimal 20 (Z.of_nat (placed p) + 1))) None,
     (mk_positional (S (placed p)) (saw_question p) true, out ++ sql_placeholder backend (placed p))).
Proof.
  intros E Hpost Hq Hk. pose proof (pos_lt s Hs _ _ _ E) as Hlt. split; [done|].
  destruct (decimal_head 19 (Z.of_nat (placed p) + 1) ltac:(lia)) as (d & ds & Ed & Hd).
  destruct (dollar_number _ _ _ E ltac:(unfold MAX_SQL_BYTES, usize_max in *; lia) Hpost) as [Hstop Hnum].
  assert (is_ascii_digit d = true) as Hdig by (apply in_range_true; lia).
  unfold positional_round. rewrite (not_opaque s Hs backend "SQL" _ _ _ E); [|done..|].
  2:{ intros _. by rewrite Ed. }
  cbn [result_bind from_option id]. unfold consume_positional_placeholder, current_byte, next_byte. cbn [index].
  assert (sql !! S (pos pre) = Some d) as ->.
  { rewrite <- Nat.add_1_r, (lookup_bnd s _ _ _ E), utf8_cons, Ed. cbn [app]. rewrite utf8_cons, (ascii_width d) by lia. done. }
  rewrite (lookup_bnd_0 s _ _ E), utf8_cons. change (utf8_char 36) with [36]. cbn [app].
  change ((36 :: _) !! 0%nat) with (Some 36). cbn beta iota. cbn [Z.eqb Pos.eqb andb]. rewrite Hdig, Hq.
  rewrite Hstop in *. destruct (str_slice _ _ _) as [digits|e]; [|done]. cbn [result_bind] in *. injection Hnum as ->.
  rewrite (proj2 (Z.eqb_neq _ 0)), Z.eqb_refl by lia. done.
Qed.

Lemma positional_question pre post p out : s = pre ++ 63 :: post -> saw_dollar p = false ->
  round_to sql (positional_round sql backend) (mk_scanner (pos pre) None, (p, out))
    (mk_scanner (pos (pre ++ [63])) None,
     (mk_positional (S (placed p)) true (saw_dollar p), out ++ sql_placeholder backend (placed p))).
Proof.
  intros E Hf. split; [by eapply pos_lt|]. unfold positional_round.
  rewrite (not_opaque s Hs backend "SQL" _ _ _ E) by done. cbn [result_bind from_option id].
  unfold consume_positional_placeholder, current_byte. cbn [index].
  rewrite (lookup_bnd_0 s _ _ E), utf8_cons. change (utf8_char 63) with [63]. cbn [app lookup list_lookup Z.eqb Pos.eqb].
  rewrite Hf. cbn [result_bind]. by rewrite pos_snoc.
Qed.

Lemma positional_hole pre name post p out : s = pre ++ spell_positional (placed p) name ++ post ->
  positional_side pre (Hole name) post = true -> flags p -> (placed p <= pos pre)%nat ->
  exists p', round_to sql (positional_round sql backend) (mk_scanner (pos pre) None, (p, out))
    (mk_scanner (pos (pre ++ spell_positional (placed p) name)) None, (p', out ++ sql_placeholder backend (placed p))) /\
    placed p' = S (placed p) /\ flags p'.
Proof.
  unfold spell_positional, positional_side, flags. intros E Hside [Hf Hseen] Hk. destruct dollar.
  - apply negb_true_iff in Hside. eexists. split; [by eapply positional_dollar|].
    split_and!; [done|done|]. intros _. apply orb_true_r.
  - eexists. split; [by eapply positional_question|]. done.
Qed.

Lemma positional_run ps : forall k pre p out, s = pre ++ render spell_positional k ps ->
  well_formed backend positional_side spell_positional k pre ps = true -> placed p = k -> flags p -> (k <= pos pre)%nat ->
  exists p', rounds (mk_scanner (pos pre) None, (p, out))
    (mk_scanner (length sql) None, (p', out ++ utf8 (render (placeholder backend) k ps))) /\
    placed p' = (k + length (holes ps))%nat /\ flags p'.
Proof.
  induction ps as [|q ps IH]; intros k pre p out E Hw Hk Hf Hle.
  { exists p. rewrite E. cbn [render utf8 flat_map holes length]. rewrite !app_nil_r. split; [done|]. split; [lia|done]. }
  cbn [well_formed] in Hw. rewrite !andb_true_iff in Hw. destruct Hw as ((Hp & Hside) & Hw).
  rewrite render_app_pre in E.
  assert (s = pre ++ spelled spell_positional k q ++ render spell_positional (k + holes_of q) ps) as E1
    by by rewrite E, <- app_assoc.
  assert (forall p1, rounds (mk_scanner (pos pre) None, (p, out))
      (mk_scanner (pos (pre ++ spelled spell_positional k q)) None, (p1, out ++ utf8 (spelled (placeholder backend) k q))) ->
    placed p1 = (k + holes_of q)%nat -> flags p1 ->
    exists p', rounds (mk_scanner (pos pre) None, (p, out))
      (mk_scanner (length sql) None, (p', out ++ utf8 (render (placeholder backend) k (q :: ps)))) /\
    placed p' = (k + length (holes (q :: ps)))%nat /\ flags p') as Hgo.
  { intros p1 H1 Hp1 Hf1. destruct (IH _ _ p1 (out ++ utf8 (spelled (placeholder backend) k q)) E Hw Hp1 Hf1)
      as (p' & H2 & Hp' & Hf').
    - rewrite pos_app. destruct q; cbn [holes_of spelled]; try lia. unfold spell_positional.
      destruct dollar; rewrite utf8_cons, length_app; cbn [utf8_char Z.ltb Z.compare Pos.compare Pos.compare_cont length]; lia.
    - exists p'. split_and!; [|destruct q; cbn [holes holes_of length] in *; lia|done].
      cbn [render]. rewrite utf8_app, app_assoc. by etransitivity. }
  destruct (is_opaque q) eqn:Eo.
  - apply (Hgo p); [|destruct q; cbn [holes_of]; done || lia|done].
    assert (forall f, spelled f k q = opaque_text q) as Hsp by by destruct q.
    rewrite !Hsp in *.
    exact (lift_piece s Hs backend "SQL" (or_introl eq_refl) (positional_round sql backend) append_out
      ltac:(intros []; unfold append_out; by rewrite app_nil_r)
      ltac:(intros []; unfold append_out; cbn; by intros; rewrite app_assoc)
      positional_crosses pre q _ (p, out) E1 Eo Hp).
  - destruct q as [c| | | | |name]; try done; cbn [spelled opaque_text holes_of positional_side] in *.
    + rewrite Nat.add_0_r in *. apply (Hgo p); [|done..]. bool_to_prop. cbn [utf8 flat_map]. rewrite app_nil_r.
      by apply rtc_once, positional_code with (post := render spell_positional k ps).
    + subst k. destruct (positional_hole pre name _ p out E1 Hside Hf ltac:(lia)) as (p1 & H1 & Hp1 & Hf1).
      apply (Hgo p1); [|lia|done]. unfold placeholder. rewrite (utf8_ascii _ (placeholder_ascii _ _)).
      by apply rtc_once.
Qed.

End Positional.

Lemma piece_scalars backend pre p r : piece_ok backend pre p r = true -> Forall scalar (opaque_text p).
Proof.
  destruct p as [c|q body|body|body|tag body|name]; cbn [piece_ok opaque_text]; rewrite ?andb_true_iff, ?scalars_forallb; intros H.
  - repeat constructor. by destruct H as (((? & _) & _) & _).
  - destruct H as (((Hq & Hb) & _) & _). rewrite existsb_quote, !orb_true_iff, !Z.eqb_eq in Hq.
    assert (scalar q) by (unfold scalar, is_scalar; apply orb_true_iff; left; apply in_range_true; lia).
    constructor; [done|]. apply Forall_app. by repeat constructor.
  - destruct H as ((Hb & _) & _). by repeat constructor.
  - destruct H as (Hb & _). repeat constructor. apply Forall_app. by repeat constructor.
  - destruct H as ((Ht & Hb) & _).
    assert (Forall scalar (delimiter tag)) as Hd.
    { eapply Forall_impl; [by apply delimiter_ascii|]. intros c Hc. cbn in Hc. unfold scalar, is_scalar.
      apply orb_true_iff. left. apply in_range_true. lia. }
    rewrite !Forall_app. done.
  - constructor.
Qed.

Lemma ascii_scalar c : 0 <= c < 128 -> scalar c.
Proof. intros Hc. unfold scalar, is_scalar. apply orb_true_iff. left. apply in_range_true. lia. Qed.

Lemma render_scalars backend side spell ps : (forall k name, Hole name ∈ ps -> Forall scalar (spell k name)) ->
  forall k pre, well_formed backend side spell k pre ps = true -> Forall scalar (render spell k ps).
Proof.
  induction ps as [|p ps IH]; intros Hsp k pre; cbn [well_formed render]; [constructor|].
  rewrite !andb_true_iff. intros ((Hp & _) & Hw). apply Forall_app. split.
  - apply piece_scalars in Hp. destruct p; try done. cbn [spelled]. apply Hsp. apply list_elem_of_here.
  - eapply IH; [|done]. intros. apply Hsp. by apply list_elem_of_further.
Qed.

(** Rewriting positional placeholders.  For a statement assembled from code,
    literals, comments, dollar-quoted bodies and placeholders, spelled either way, the
    rewritten statement is the same pieces with the placeholders spelled the provider's
    way and numbered in order, and nothing inside an opaque piece changed; when the
    number of parameters differs from the number of placeholders the error says so. *)
Lemma sql_positional_rewrite backend dollar ps expected :
  well_formed backend (positional_side dollar) (spell_positional dollar) 0 [] ps = true ->
  nlen (utf8 (render (spell_positional dollar) 0 ps)) <= MAX_SQL_BYTES ->
  rewrite_positional_sql (utf8 (render (spell_positional dollar) 0 ps)) backend expected =
    Some (if (length (holes ps) =? expected)%nat then Ok (utf8 (render (placeholder backend) 0 ps))
          else Err (Expects (nlen (holes ps)) (Z.of_nat expected))).
Proof.
  intros Hw Hsize. set (s := render (spell_positional dollar) 0 ps) in *.
  assert (Forall scalar s) as Hs.
  { eapply render_scalars; [|exact Hw]. intros k name _. unfold spell_positional. destruct dollar.
    - constructor; [by apply ascii_scalar|]. eapply Forall_impl; [apply decimal_ascii_digits; lia|].
      intros c. unfold is_ascii_digit. rewrite in_range_true. intros. apply ascii_scalar. lia.
    - by repeat constructor. }
  unfold rewrite_positional_sql, validate_sql_size. rewrite (proj2 (Z.ltb_ge _ _)) by done.
  destruct (positional_run s Hs backend dollar Hsize ps 0 [] (mk_positional 0 false false) [] eq_refl Hw eq_refl)
    as (p' & Hr & Hp' & Hf & Hseen).
  { split; [by destruct dollar|]. cbn. lia. }
  { lia. }
  rewrite (scan_loop_rounds (utf8 s) _ (fun st => at_rest s st.1) (positional_safe s Hs backend)
    (scanner_new, (mk_positional 0 false false, [])) _ (length (utf8 s)) (start_at_rest s) Hr)
    by first [by apply Nat.leb_le | cbn; lia].
  unfold positional_answer, ensure_no_open_quote. cbn [quote result_bind]. rewrite Hp'. cbn [Nat.add].
  destruct (length (holes ps) =? expected)%nat eqn:Ee; cbn [negb]; [|done].
  apply Nat.eqb_eq in Ee. destruct (decide (expected = 0%nat)) as [->|Hne]; [by rewrite andb_false_r|].
  rewrite <- negb_orb, Hseen by lia. done.
Qed.

(** [SELECT 'é?', /* ? */ $a$?$a$ WHERE x = ? -- ?] *)
Definition sample_pieces : list piece :=
  [Code 83; Code 32; Literal 39 [233; 63]; Code 44; Code 32; Block (txt " ? "); Code 32; Dollar (txt "a") (txt "?");
   Code 32; Hole []; Code 44; Hole []; Code 32; Line (txt " ?")].
