(* ===== verification/SqlRewrite.v ===== *)
(** * Named placeholders and batches

    The other two loops of the scanner over statements assembled from pieces, and the
    literals whose closing quote the scanner misreads. *)

From S2P Require Import Prelude AssocList Value Str Utf8 Http HttpProps SqlText SqlPieces SqlTextProps.

(** ** Named placeholders *)

Definition spell_named (_ : nat) (name : text) : text := 58 :: name.

Definition named_side (pre : text) (p : piece) (r : text) : bool :=
  match p with
  | Code c => negb (c =? 63) && negb ((c =? 58) && opt_is is_name_start (head r) && negb (opt_is (Z.eqb 58) (last pre)))
  | Hole name =>
      match name with a :: t => is_name_start a && forallb is_name_byte t | [] => false end &&
      negb (opt_is (Z.eqb 58) (last pre)) && negb (opt_is is_name_byte (head r))
  | _ => true
  end.

Lemma name_start_nonneg b : is_name_start b = true -> 0 <= b.
Proof. unfold is_name_start, is_ascii_alphabetic. rewrite !orb_true_iff, !in_range_true, Z.eqb_eq. lia. Qed.
Lemma name_byte_nonneg b : is_name_byte b = true -> 0 <= b.
Proof.
  unfold is_name_byte, is_ascii_alphanumeric, is_ascii_alphabetic, is_ascii_digit.
  rewrite !orb_true_iff, !in_range_true, Z.eqb_eq. lia.
Qed.

Definition name_ok (name : text) : bool :=
  match name with a :: t => is_name_start a && forallb is_name_byte t | [] => false end.

Lemma name_ok_ascii name : name_ok name = true -> Forall (fun c => 0 <= c < 128) name.
Proof.
  destruct name as [|a t]; [done|]. cbn [name_ok]. rewrite andb_true_iff, forallb_forall. intros [Ha Ht]. constructor.
  - pose proof (name_start_nonneg _ Ha). apply name_start_ascii in Ha. lia.
  - apply Forall_forall. intros b Hb%list_elem_of_In. apply Ht in Hb. pose proof (name_byte_nonneg _ Hb).
    apply name_byte_ascii in Hb. lia.
Qed.

Section Named.
Context (s : text) (Hs : Forall scalar s) (backend : SqlBackend) (named : Named).

Abbreviation sql := (utf8 s).
Abbreviation pos pre := (length (utf8 pre)).
Abbreviation rounds := (rtc (round_to sql (named_round sql backend named))).

Definition append_named (a : naming * list Z) (x : list Z) : naming * list Z := (a.1, a.2 ++ x).

Lemma named_crosses sc sc' a : crosses s backend "SQL" sc sc' ->
  named_round sql backend named (sc, a) = Ok (sc', append_named a (between s (index sc) (index sc'))).
Proof. intros (_ & _ & H). destruct a as [p out]. unfold named_round. rewrite H. done. Qed.

(** The test for a second colon before a name. *)
Lemma colon_before pre post : s = pre ++ post ->
  (pos pre =? 0)%nat || negb (bool_decide (sql !! (pos pre - 1)%nat = Some 58)) = negb (opt_is (Z.eqb 58) (last pre)).
Proof.
  intros E. pose proof (byte_before s Hs pre post 58 E ltac:(lia)) as H.
  assert (opt_is (fun c => c =? 58) (last pre) = opt_is (Z.eqb 58) (last pre)) as Ho.
  { destruct (last pre); cbn [opt_is]; [apply Z.eqb_sym|done]. }
  rewrite Ho in H. rewrite <- H. destruct (pos pre) as [|n]; cbn [Nat.ltb Nat.leb Nat.eqb orb andb].
  - by destruct (sql !! _).
  - destruct (sql !! _) as [b|] eqn:Eb; [|done]. f_equal.
    destruct (b =? 58) eqn:E58; bool_to_prop; [subst; by apply bool_decide_eq_true|].
    apply bool_decide_eq_false. congruence.
Qed.

Lemma next_octet pre c post : s = pre ++ c :: post -> 0 <= c < 128 ->
  next_byte sql (mk_scanner (pos pre) None) = utf8 post !! 0%nat.
Proof.
  intros E Hc. unfold next_byte. cbn [index]. rewrite <- Nat.add_1_r, (lookup_bnd s _ _ _ E), utf8_cons, ascii_width by done.
  done.
Qed.

Lemma named_code pre c post n out : s = pre ++ c :: post -> piece_ok backend pre (Code c) post = true ->
  named_side pre (Code c) post = true ->
  round_to sql (named_round sql backend named) (mk_scanner (pos pre) None, (n, out))
    (mk_scanner (pos (pre ++ [c])) None, (n, out ++ utf8_char c)).
Proof.
  intros E (Hc & Hq & H36 & H45 & H47)%code_ok Hside. cbn [named_side] in Hside. apply andb_true_iff in Hside as [H63 Hside].
  destruct (scalars_at s Hs _ _ _ E) as (_ & _ & Hpost). bool_to_prop.
  split; [by eapply pos_lt|]. unfold named_round.
  rewrite (not_opaque s Hs backend "SQL" _ _ _ E) by done. cbn [result_bind from_option id].
  unfold consume_named_placeholder, current_byte. cbn [index].
  destruct (byte_at s Hs _ _ _ E) as (b & Hb & Hcmp). rewrite Hb, !Hcmp by lia.
  rewrite (proj2 (Z.eqb_neq c 63)), (proj2 (Z.eqb_neq c 36)) by done. cbn [andb orb].
  rewrite (colon_before _ _ E).
  assert ((c =? 58) && match next_byte sql (mk_scanner (pos pre) None) with Some b0 => is_name_start b0 | None => false end &&
    negb (opt_is (Z.eqb 58) (last pre)) = false) as ->.
  { destruct (c =? 58) eqn:E58; [|done]. bool_to_prop. subst c. rewrite (next_octet _ _ _ E) by lia.
    by rewrite (head_test _ _ name_start_ascii name_start_nonneg Hpost). }
  cbn [result_bind]. unfold copy_current_char, copy_sql_char. cbn [index]. rewrite (sql_char_at_bnd s Hs _ _ _ E). cbn [result_bind].
  by rewrite pos_snoc.
Qed.

Lemma named_hole pre name post n out v : s = pre ++ (58 :: name) ++ post ->
  named_side pre (Hole name) post = true -> named !! name = Some v ->
  round_to sql (named_round sql backend named) (mk_scanner (pos pre) None, (n, out))
    (mk_scanner (pos (pre ++ 58 :: name)) None,
     (mk_naming ({[name]} ∪ used_names n) (bound n ++ [v]), out ++ sql_placeholder backend (length (bound n)))).
Proof.
  intros E Hside Hv. cbn [named_side] in Hside. fold (name_ok name) in Hside.
  rewrite !andb_true_iff in Hside. destruct Hside as ((Hname & Hcolon) & Hnext%negb_true_iff).
  pose proof (utf8_ascii _ (name_ok_ascii name Hname)) as Eascii. destruct name as [|a t]; [done|].
  cbn [name_ok] in Hname. apply andb_true_iff in Hname as [Ha Ht]. cbn [app] in E.
  destruct (scalars_at s Hs _ _ _ E) as (_ & _ & Hsc). assert (Forall scalar post) as Hpost.
  { inversion_clear Hsc as [|? ? _ H]. by apply Forall_app in H as [_ H]. }
  split; [by eapply pos_lt|]. unfold named_round.
  rewrite (not_opaque s Hs backend "SQL" _ _ _ E) by done. cbn [result_bind from_option id].
  unfold consume_named_placeholder, current_byte. rewrite (next_octet _ _ _ E) by lia. cbn [index].
  rewrite (lookup_bnd_0 s _ _ E), (utf8_cons 58). change (utf8_char 58) with [58]. cbn [app].
  change ((58 :: utf8 (a :: t ++ post)) !! 0%nat) with (Some 58). cbn beta iota. cbn [Z.eqb Pos.eqb andb orb].
  rewrite (head_test _ _ name_start_ascii name_start_nonneg Hsc), (colon_before _ _ E), Hcolon. cbn [head opt_is]. rewrite Ha. cbn [andb].
  assert (s = (pre ++ [58; a]) ++ t ++ post) as E2 by by rewrite <- app_assoc.
  assert (s = (pre ++ [58]) ++ (a :: t) ++ post) as E1 by by rewrite <- app_assoc.
  assert (utf8 t = t /\ 0 <= a < 128) as [Et Har].
  { pose proof (name_ok_ascii (a :: t) ltac:(cbn; by rewrite Ha)) as H. inversion_clear H. split; [by apply utf8_ascii|done]. }
  assert (S (S (pos pre)) = pos (pre ++ [58; a])) as ->.
  { rewrite pos_app, !utf8_cons, (ascii_width a) by done. cbn. lia. }
  assert (S (pos pre) = pos (pre ++ [58])) as -> by (rewrite pos_snoc; cbn; lia).
  assert (drop (pos (pre ++ [58; a])) sql = t ++ utf8 post) as ->.
  { rewrite E2, (utf8_app (pre ++ [58; a])), drop_app_length, utf8_app. by rewrite Et. }
  rewrite span_app; [|by rewrite forallb_forall in Ht; apply Forall_forall; intros b Hb%list_elem_of_In; apply Ht|].
  2:{ pose proof (head_test _ _ name_byte_ascii name_byte_nonneg Hpost) as H. rewrite Hnext in H. by destruct (utf8 post). }
  assert ((pos (pre ++ [58%Z; a]) + length t)%nat = pos ((pre ++ [58]) ++ a :: t)) as ->.
  { rewrite !pos_app, !utf8_cons, (ascii_width a), !length_app, Et by done. cbn. lia. }
  rewrite (str_slice_bnd s Hs); [|by eapply bnd_pos| |rewrite (pos_app (pre ++ [58])); lia].
  2:{ eapply (bnd_pos s _ post). by rewrite <- !app_assoc. }
  fold (between s (pos (pre ++ [58])) (pos ((pre ++ [58]) ++ a :: t))). rewrite (between_app s _ _ _ E1), Eascii.
  cbn [result_bind]. rewrite Hv. cbn [result_bind]. by rewrite <- app_assoc.
Qed.

Lemma named_run ps : forall k pre n out vs, s = pre ++ render spell_named k ps ->
  well_formed backend named_side spell_named k pre ps = true -> length (bound n) = k ->
  mapM (fun name => named !! name) (holes ps) = Some vs ->
  exists n', rounds (mk_scanner (pos pre) None, (n, out))
    (mk_scanner (length sql) None, (n', out ++ utf8 (render (placeholder backend) k ps))) /\
    bound n' = bound n ++ vs /\ forall x, x ∈ used_names n' <-> x ∈ used_names n \/ x ∈ holes ps.
Proof.
  induction ps as [|q ps IH]; intros k pre n out vs E Hw Hk Hv.
  { injection Hv as <-. exists n. rewrite E. cbn [render utf8 flat_map holes]. rewrite !app_nil_r. split; [done|].
    split; [done|]. set_solver. }
  cbn [well_formed] in Hw. rewrite !andb_true_iff in Hw. destruct Hw as ((Hp & Hside) & Hw).
  rewrite render_app_pre in E.
  assert (s = pre ++ spelled spell_named k q ++ render spell_named (k + holes_of q) ps) as E1 by by rewrite E, <- app_assoc.
  destruct (is_opaque q) eqn:Eo.
  - assert (forall f, spelled f k q = opaque_text q) as Hsp by by destruct q.
    assert (holes_of q = 0%nat /\ holes (q :: ps) = holes ps) as [H0 Hh] by by destruct q.
    rewrite Hsp in *. rewrite H0, Nat.add_0_r, Hh in *.
    destruct (IH _ _ n (out ++ utf8 (opaque_text q)) vs E Hw Hk Hv) as (n' & H2 & Hb & Hu).
    exists n'. split_and!; [|done|done]. cbn [render]. rewrite Hsp, utf8_app, app_assoc, H0, Nat.add_0_r.
    etransitivity; [|exact H2].
    exact (lift_piece s Hs backend "SQL" (or_introl eq_refl) (named_round sql backend named) append_named
      ltac:(intros []; unfold append_named; by rewrite app_nil_r)
      ltac:(intros []; unfold append_named; cbn; by intros; rewrite app_assoc)
      named_crosses pre q _ (n, out) E1 Eo Hp).
  - destruct q as [c| | | | |name]; try done; cbn [spelled opaque_text holes_of render holes] in *.
    + rewrite Nat.add_0_r in *.
      destruct (IH _ _ n (out ++ utf8_char c) vs E Hw Hk Hv) as (n' & H2 & Hb & Hu). exists n'. split_and!; [|done|done].
      cbn [app]. rewrite utf8_cons, app_assoc. eapply rtc_l; [|exact H2]. by eapply named_code.
    + cbn [mapM mapM] in Hv. unfold mapM in Hv. cbn in Hv. apply bind_Some in Hv as (v & Hv1 & Hv).
      apply bind_Some in Hv as (vs' & Hv2 & [= <-]).
      destruct (IH _ _ (mk_naming ({[name]} ∪ used_names n) (bound n ++ [v])) (out ++ sql_placeholder backend k) vs' E Hw)
        as (n' & H2 & Hb & Hu); [cbn [bound]; rewrite length_app, Hk; done|done|].
      exists n'. split_and!; [|rewrite Hb; cbn [bound]; by rewrite <- app_assoc|intros x; rewrite Hu; cbn [used_names]; set_solver].
      unfold placeholder at 1. rewrite utf8_app, (utf8_ascii _ (placeholder_ascii _ _)), app_assoc.
      eapply rtc_l; [|exact H2]. subst k. by eapply named_hole.
Qed.

End Named.

Lemma named_scalars backend ps : forall k pre, well_formed backend named_side spell_named k pre ps = true ->
  Forall scalar (render spell_named k ps).
Proof.
  induction ps as [|p ps IH]; intros k pre; cbn [well_formed render]; [constructor|].
  rewrite !andb_true_iff. intros ((Hp & Hside) & Hw). apply Forall_app. split; [|by eapply IH].
  apply piece_scalars in Hp. destruct p as [| | | | |name]; try done. cbn [spelled spell_named named_side] in *.
  fold (name_ok name) in Hside. rewrite !andb_true_iff in Hside. destruct Hside as ((Hn & _) & _).
  constructor; [by apply ascii_scalar|]. eapply Forall_impl; [by apply name_ok_ascii|]. apply ascii_scalar.
Qed.

(** Rewriting named placeholders.  When every name of the statement is bound, the
    result is the statement with its placeholders numbered in the provider's spelling and
    the list of the values in that order, a name used twice contributing its value twice;
    it is rejected exactly when some parameter is not used. *)
Lemma sql_named_rewrite backend ps named vs :
  well_formed backend named_side spell_named 0 [] ps = true ->
  nlen (utf8 (render spell_named 0 ps)) <= MAX_SQL_BYTES ->
  mapM (fun name => named !! name) (holes ps) = Some vs ->
  ((forall key, key ∈ dom named -> key ∈ holes ps) ->
    rewrite_named_sql (utf8 (render spell_named 0 ps)) backend named =
      Some (Ok (utf8 (render (placeholder backend) 0 ps), vs))) /\
  ((exists key, key ∈ dom named /\ key ∉ holes ps) ->
    exists e, rewrite_named_sql (utf8 (render spell_named 0 ps)) backend named = Some (Err e)).
Proof.
  intros Hw Hsize Hv. set (s := render spell_named 0 ps) in *. pose proof (named_scalars _ _ _ _ Hw) as Hs. fold s in Hs.
  destruct (named_run s Hs backend named ps 0 [] (mk_naming ∅ []) [] vs eq_refl Hw eq_refl Hv) as (n' & Hr & Hb & Hu).
  unfold rewrite_named_sql, validate_sql_size. rewrite (proj2 (Z.ltb_ge _ _)) by done.
  rewrite (scan_loop_rounds (utf8 s) _ (fun st => at_rest s st.1) (named_safe s Hs backend named)
    (scanner_new, (mk_naming ∅ [], [])) _ (length (utf8 s)) (start_at_rest s) Hr)
    by first [by apply Nat.leb_le | cbn; lia].
  unfold named_answer, ensure_no_open_quote. cbn [quote result_bind app]. cbn [bound app] in Hb. rewrite Hb.
  cbn [used_names] in Hu. split.
  - intros Hall. assert (dom named ∖ used_names n' = ∅) as ->.
    { apply set_eq. intros x. rewrite elem_of_difference, Hu. set_solver. }
    assert (match vs with [] => true | _ => false end && negb (bool_decide (named = ∅)) = false) as ->.
    { destruct vs as [|v vs]; [|done]. apply mapM_Some in Hv. inversion Hv as [E|]. cbn [andb]. apply negb_false_iff.
      apply bool_decide_eq_true, dom_empty_iff_L, set_eq. intros x. split; [|set_solver]. intros Hx%Hall.
      rewrite <- E in Hx. by apply elem_of_nil in Hx. }
    rewrite elements_empty. done.
  - intros (key & Hk & Hn). destruct (_ && _); [by eexists|].
    assert (key ∈ merge_sort octets_le (elements (dom named ∖ used_names n'))) as Hin.
    { rewrite merge_sort_Permutation. apply elem_of_elements. rewrite elem_of_difference, Hu. set_solver. }
    destruct (merge_sort _ _); [by apply elem_of_nil in Hin|]. by eexists.
Qed.

(** ** Batches *)

Definition batch_side (_ : text) (p : piece) (_ : text) : bool := match p with Hole _ => false | _ => true end.
Definition no_spelling (_ : nat) (_ : text) : text := [].

(** The statements between the semicolons of the code. *)
Fixpoint statements_of (ps : list piece) (current : text) : list text :=
  match ps with
  | [] => [current]
  | p :: ps =>
      if decide (opaque_text p = [59]) then current :: statements_of ps []
      else statements_of ps (current ++ opaque_text p)
  end.

(** Statements without code are dropped, and at most 1024 are accepted. *)
Fixpoint accept (statements : list text) (kept : list (list Z)) : result (list (list Z)) SqlTextError :=
  match statements with
  | [] => Ok kept
  | st :: rest => let? kept := push_statement (str_trim (utf8 st)) kept in accept rest kept
  end.

Section Batch.
Context (s : text) (Hs : Forall scalar s) (backend : SqlBackend).

Abbreviation sql := (utf8 s).
Abbreviation pos pre := (length (utf8 pre)).
Abbreviation round := (batch_round sql backend).

Definition keep_state (a : nat * list (list Z)) (_ : list Z) : nat * list (list Z) := a.

Lemma batch_crosses sc sc' a : crosses s backend "SQL batch" sc sc' ->
  round (sc, a) = Ok (sc', keep_state a (between s (index sc) (index sc'))).
Proof. intros (_ & _ & H). destruct a as [start l]. unfold batch_round. by rewrite H. Qed.

Lemma batch_high i b a : sql !! i = Some b -> 128 <= b -> round (mk_scanner i None, a) = Ok (mk_scanner (i + 1) None, a).
Proof.
  intros Hb Hhi. destruct a as [start l]. unfold batch_round, consume_opaque. cbn [quote index]. rewrite Hb.
  rewrite (proj2 (Z.eqb_neq b 39)), (proj2 (Z.eqb_neq b 34)), (proj2 (Z.eqb_neq b 96)), (proj2 (Z.eqb_neq b 45)),
    (proj2 (Z.eqb_neq b 47)), (proj2 (Z.eqb_neq b 36)) by lia.
  cbn [orb andb result_bind]. unfold current_byte. cbn [index]. rewrite Hb, decide_False by (intros [=]; lia). done.
Qed.

Lemma batch_code pre c post a : s = pre ++ c :: post -> piece_ok backend pre (Code c) post = true -> c <> 59 ->
  rtc (round_to sql round) (mk_scanner (pos pre) None, a) (mk_scanner (pos (pre ++ [c])) None, a).
Proof.
  intros E Hp H59. destruct (scalars_at s Hs _ _ _ E) as (_ & Hc & _). pose proof (scalar_range _ Hc).
  rewrite pos_snoc. destruct (decide (c < 128)) as [Hlt|Hge].
  - apply code_ok in Hp as (_ & Hq & H36 & H45 & H47). rewrite ascii_width by lia. apply rtc_once.
    split; [by eapply pos_lt|]. destruct a as [start l]. unfold batch_round.
    rewrite (not_opaque s Hs backend "SQL batch" _ _ _ E) by done. cbn [result_bind].
    unfold current_byte. cbn [index]. destruct (byte_at s Hs _ _ _ E) as (b & Hb & Hcmp). rewrite Hb.
    rewrite decide_False; [done|]. intros [= ->]. pose proof (Hcmp 59 ltac:(lia)) as Hx. cbn in Hx. symmetry in Hx. by bool_to_prop.
  - assert (forall k x, utf8_char c !! k = Some x -> 128 <= x) as Hhi.
    { destruct (utf8_char_first c Hc) as (b & t & -> & _ & Ht & _ & _ & Hb). intros [|k] x Hx.
      - injection Hx as <-. apply Hb. lia.
      - rewrite Forall_lookup in Ht. apply Ht in Hx. unfold cont in Hx. lia. }
    assert (forall n, (n <= length (utf8_char c))%nat ->
      rtc (round_to sql round) (mk_scanner (pos pre) None, a) (mk_scanner (pos pre + n) None, a)) as H'; [|by apply H'].
    induction n as [|n IH]; intros Hn; [by rewrite Nat.add_0_r|]. eapply rtc_r; [apply IH; lia|].
    destruct (lookup_lt_is_Some_2 (utf8_char c) n ltac:(lia)) as [x Hx].
    assert (sql !! (pos pre + n)%nat = Some x) as Hsql.
    { rewrite (lookup_bnd s _ _ _ E), utf8_cons. by apply lookup_app_l_Some. }
    split; [by eapply lookup_lt_Some|]. replace (pos pre + S n)%nat with (pos pre + n + 1)%nat by lia.
    apply (batch_high _ x); [done|by eapply Hhi].
Qed.

(** What the loop leaves, finished. *)
Definition finish (r : result (scanner * (nat * list (list Z))) SqlTextError) : result (list (list Z)) SqlTextError :=
  match r with
  | Ok (sc, (start, kept)) => batch_answer sql sc start kept
  | Err e => Err e
  end.

(** From a position the loop answers, for every sufficient fuel, what [accept] does. *)
Definition answers (st : scanner * (nat * list (list Z))) (expected : result (list (list Z)) SqlTextError) : Prop :=
  exists r, finish r = expected /\
    forall fuel, (length sql - index st.1 <= fuel)%nat -> scan_loop sql round fuel st = Some r.

(** The current statement is the text since the last semicolon. *)
Definition at_text (before current : text) (kept : list (list Z)) : scanner * (nat * list (list Z)) :=
  (mk_scanner (pos (before ++ current)) None, (pos before, kept)).

Lemma batch_end before current kept : s = before ++ current ->
  answers (at_text before current kept) (accept [current] kept).
Proof.
  intros E. assert (is_done sql (mk_scanner (pos (before ++ current)) None) = true) as Hd.
  { unfold is_done. cbn [index]. rewrite E. by apply Nat.leb_le. }
  exists (Ok (at_text before current kept)). split.
  - unfold finish, at_text, batch_answer, ensure_no_open_quote. cbn [quote result_bind accept].
    rewrite (str_slice_bnd s Hs); [|by eapply bnd_pos|apply bnd_end|rewrite E, pos_app; lia]. cbn [result_bind].
    replace (take _ _) with (utf8 current); [by destruct (push_statement _ _)|].
    rewrite E at 2. rewrite utf8_app, drop_app_length, firstn_all2; [done|]. rewrite E, pos_app. lia.
  - intros fuel _. unfold at_text. destruct fuel; cbn [scan_loop fst]; by rewrite Hd.
Qed.

Lemma batch_semicolon before current kept post expected : s = before ++ current ++ 59 :: post ->
  (forall kept', push_statement (str_trim (utf8 current)) kept = Ok kept' ->
    answers (at_text (before ++ current ++ [59]) [] kept') (expected kept')) ->
  answers (at_text before current kept) (let? kept := push_statement (str_trim (utf8 current)) kept in expected kept).
Proof.
  intros E Hgo. assert (s = (before ++ current) ++ 59 :: post) as E1 by by rewrite <- app_assoc.
  pose proof (pos_lt s Hs _ _ _ E1) as Hlt.
  assert (round (at_text before current kept) =
    let? kept := push_statement (str_trim (utf8 current)) kept in Ok (at_text (before ++ current ++ [59]) [] kept)) as Hr.
  { unfold at_text, batch_round.
    rewrite (not_opaque s Hs backend "SQL batch" _ _ _ E1) by done. cbn [result_bind].
    unfold current_byte. cbn [index]. rewrite (lookup_bnd_0 s _ _ E1), utf8_cons. rewrite decide_True by done.
    rewrite (str_slice_bnd s Hs); [|by eapply bnd_pos|by eapply bnd_pos|rewrite pos_app; lia].
    fold (between s (pos before) (pos (before ++ current))). rewrite (between_app s _ _ _ E). cbn [result_bind].
    destruct (push_statement _ _) as [kept'|e]; [|done]. cbn [result_bind]. unfold at_index. cbn [quote].
    assert (pos (before ++ current ++ [59]) = (pos (before ++ current) + 1)%nat) as Hn by by rewrite app_assoc, pos_snoc.
    rewrite app_nil_r, Hn. do 4 f_equal. lia. }
  destruct (push_statement _ _) as [kept'|e]; cbn [result_bind] in *.
  - destruct (Hgo kept' eq_refl) as (r & Hfin & Hloop). exists r. split; [done|]. intros fuel Hf.
    destruct fuel as [|fuel]; [cbn in Hf; lia|]. cbn [scan_loop].
    rewrite (proj2 (is_done_false sql (at_text before current kept).1) Hlt), Hr. apply Hloop.
    cbn [at_text fst index] in *. rewrite app_nil_r, app_assoc, pos_snoc. cbn. lia.
  - exists (Err e). split; [done|]. intros fuel Hf. destruct fuel as [|fuel]; [cbn in Hf; lia|]. cbn [scan_loop].
    by rewrite (proj2 (is_done_false sql (at_text before current kept).1) Hlt), Hr.
Qed.

Lemma semicolon_piece q : opaque_text q = [59] -> q = Code 59.
Proof.
  destruct q as [c|c body|body|body|tag body|]; cbn [opaque_text delimiter]; try done; [congruence|].
  intros H. injection H as _ H. by destruct body.
Qed.

Lemma batch_run ps : forall before current kept, s = before ++ current ++ render no_spelling 0 ps ->
  well_formed backend batch_side no_spelling 0 (before ++ current) ps = true ->
  answers (at_text before current kept) (accept (statements_of ps current) kept).
Proof.
  induction ps as [|q ps IH]; intros before current kept E Hw.
  { cbn [render] in E. rewrite app_nil_r in E. by apply batch_end. }
  cbn [well_formed] in Hw. rewrite !andb_true_iff in Hw. destruct Hw as ((Hp & Hside) & Hw).
  assert (holes_of q = 0%nat /\ forall f k, spelled f k q = opaque_text q) as [H0 Hsp] by by destruct q.
  cbn [render] in E. rewrite !Hsp, H0 in *. cbn [Nat.add] in *. cbn [statements_of]. case_decide as H59.
  - rewrite H59 in E, Hw. cbn [accept]. eapply batch_semicolon; [exact E|]. intros kept' _. apply IH.
    + by rewrite E, <- !app_assoc.
    + by rewrite app_nil_r, app_assoc.
  - assert (s = (before ++ current) ++ opaque_text q ++ render no_spelling 0 ps) as E1 by by rewrite E, <- !app_assoc.
    destruct (IH before (current ++ opaque_text q) kept) as (r & Hfin & Hloop); [by rewrite E, <- !app_assoc|by rewrite app_assoc|].
    exists r. split; [done|]. intros fuel Hf.
    refine (scan_loop_reach sql round (batch_at s) (batch_safe s Hs backend) _ _ _ fuel _ _ Hf Hloop).
    { split_and!; [done|by eapply bnd_pos|cbn; rewrite pos_app; lia]. }
    unfold at_text. rewrite app_assoc. destruct (is_opaque q) eqn:Eo.
    + exact (lift_piece s Hs backend "SQL batch" (or_intror eq_refl) round keep_state ltac:(done) ltac:(done)
        batch_crosses _ q _ (pos before, kept) E1 Eo Hp).
    + destruct q as [c| | | | |]; try done. cbn [opaque_text] in *. eapply batch_code; [exact E1|done|congruence].
Qed.

End Batch.

(** Splitting a script.  The statements of a script are the texts between the
    semicolons of its code, trimmed, those without code left out; a semicolon inside a
    literal, a comment or a dollar-quoted body separates nothing.  More than 1024
    statements are an error. *)
Lemma sql_batch_split backend ps :
  well_formed backend batch_side no_spelling 0 [] ps = true ->
  nlen (utf8 (render no_spelling 0 ps)) <= MAX_SQL_BYTES ->
  let kept := List.filter sql_statement_has_code (fmap (fun st => str_trim (utf8 st)) (statements_of ps [])) in
  split_sql_batch (utf8 (render no_spelling 0 ps)) backend =
    Some (if MAX_STATEMENTS <? nlen kept then Err (Message "SQL batch contains more than 1024 statements") else Ok kept).
Proof.
  intros Hw Hsize. cbv zeta. set (s := render no_spelling 0 ps) in *.
  assert (Forall scalar s) as Hs by (eapply render_scalars; [by constructor|exact Hw]).
  destruct (batch_run s Hs backend ps [] [] [] eq_refl Hw) as (r & Hfin & Hloop).
  unfold split_sql_batch, validate_sql_size. rewrite (proj2 (Z.ltb_ge _ _)) by done.
  change (scanner_new, (0%nat, [])) with (at_text [] [] []). rewrite Hloop by (cbn; lia).
  assert (forall sts kept, nlen kept <= MAX_STATEMENTS -> accept sts kept =
    let all := kept ++ List.filter sql_statement_has_code (fmap (fun st => str_trim (utf8 st)) sts) in
    if MAX_STATEMENTS <? nlen all then Err (Message "SQL batch contains more than 1024 statements") else Ok all) as Hacc.
  { clear. induction sts as [|st sts IH]; intros kept Hk; cbv zeta; cbn [accept fmap list_fmap List.filter].
    - rewrite app_nil_r. by rewrite (proj2 (Z.ltb_ge _ _)).
    - unfold push_statement. destruct (sql_statement_has_code _).
      + destruct (MAX_STATEMENTS <? nlen (kept ++ [_])) eqn:El; cbn [result_bind].
        * assert ((MAX_STATEMENTS <? nlen (kept ++ str_trim (utf8 st) ::
            List.filter sql_statement_has_code ((fun st0 => str_trim (utf8 st0)) <$> sts))) = true) as ->; [|done].
          bool_to_prop. apply Z.ltb_lt. unfold nlen in *. rewrite length_app in *. cbn [length] in *. lia.
        * bool_to_prop. rewrite IH by done. cbv zeta. by rewrite <- app_assoc.
      + rewrite (proj2 (Z.ltb_ge _ _)) by done. cbn [result_bind]. by rewrite IH. }
  rewrite Hacc in Hfin by (vm_compute; done). cbv zeta in Hfin. cbn [app] in Hfin. rewrite <- Hfin.
  by destruct r as [[sc [start kept]]|e].
Qed.

(** [ SELECT ';é'; -- ;\n ; x ] *)
Definition batch_pieces : list piece :=
  [Code 32; Code 83; Literal 39 [59; 233]; Code 59; Code 32; Line (txt " ;"); Code 10; Code 59; Code 32; Code 120; Code 32].

(** ** Literals behind a one-character separator *)

(** The scanner looks for a doubled quote one character too far.  Behind the closing
    quote of a literal it skips the next character when the one after that is a quote, so
    a list of literals without spaces is misread: a question mark inside the second
    literal is rewritten as a placeholder, a semicolon inside it splits the statement,
    and a plain list of two strings is rejected as unterminated, although the same lists
    with spaces behind the commas are read correctly. *)
Lemma sql_adjacent_literals :
  rewrite_positional_sql (octets "VALUES ('a','b?','c')") Postgres 1 = Some (Ok (octets "VALUES ('a','b$1','c')")) /\
  rewrite_positional_sql (octets "VALUES ('a', 'b?', 'c')") Postgres 0 = Some (Ok (octets "VALUES ('a', 'b?', 'c')")) /\
  split_sql_batch (octets "SELECT 'a','b;','c'") Sqlite = Some (Ok [octets "SELECT 'a','b"; octets "','c'"]) /\
  split_sql_batch (octets "SELECT 'a', 'b;', 'c'") Sqlite = Some (Ok [octets "SELECT 'a', 'b;', 'c'"]) /\
  rewrite_positional_sql (octets "VALUES ('a','bc')") Sqlite 0 =
    Some (Err (Message "SQL contains an unterminated quoted string")).
Proof. repeat split; vm_compute; reflexivity. Qed.
