(* ===== verification/SqlPool.v ===== *)
(** * The SQL connection pool (src/src/sql.rs)

    [PoolInner] behind a mutex and one condition variable.  A step is a critical section:
    the head of the acquisition loop, the return from the connection attempt that runs
    without the lock, a release, a close.  A label resolves the scheduler, the clock,
    whether connecting succeeded, and whom [notify_one] wakes; wake-ups may be spurious.
    A client is one acquisition and the lease it returns, so that a thread that holds
    several result sets is several clients. *)

From S2P Require Import Prelude Lts.

(** A connection has an identity; the flag is [SqlServerConnection::poisoned], false for
    the other providers. *)
Record connection : Type := mk_connection { conn : nat; poisoned : bool }.

Definition pool_connection_is_reusable (c : connection) : bool := negb (poisoned c).

(** The fields of [PoolInner] that change, and its bounds; [timed] tells whether there is
    an [acquire_timeout]. *)
Record PoolInner : Type := mk_pool {
  max_connections : Z;
  timed : bool;
  idle : list connection;
  total : Z;
  in_use : Z;
  waiters : Z;
  closed : bool;
}.

Definition saturating_dec (n : Z) : Z := Z.max 0 (n - 1).

Definition with_idle (l : list connection) (p : PoolInner) : PoolInner :=
  mk_pool (max_connections p) (timed p) l (total p) (in_use p) (waiters p) (closed p).
Definition with_counts (t u : Z) (p : PoolInner) : PoolInner :=
  mk_pool (max_connections p) (timed p) (idle p) t u (waiters p) (closed p).
Definition with_waiters (w : Z) (p : PoolInner) : PoolInner :=
  mk_pool (max_connections p) (timed p) (idle p) (total p) (in_use p) w (closed p).

(** Where a client is: outside, connecting without the lock, asleep in [wait] or
    [wait_timeout], woken (the flag is [timed_out]), or holding a lease with its
    [discard] flag. *)
Inductive client : Type :=
| Outside
| Connecting
| Asleep
| Woken (timed_out : bool)
| Leased (c : connection) (discard : bool).

Record config : Type := mk_config {
  inner : PoolInner;
  clients : gmap tid client;
  fresh : nat;                       (* the identity of the next connection *)
}.

Definition set_client (t : tid) (p : client) (c : config) : config :=
  mk_config (inner c) (<[t := p]> (clients c)) (fresh c).
Definition set_inner (p : PoolInner) (c : config) : config := mk_config p (clients c) (fresh c).

(** [Vec::pop]. *)
Definition pop (l : list connection) : option (connection * list connection) :=
  match rev l with [] => None | x :: r => Some (x, rev r) end.

(** The head of the loop in [acquire_pool_connection], with the lock held; [expired]
    tells whether the timeout has elapsed since the start. *)
Definition attempt (t : tid) (expired : bool) (c : config) : config :=
  let p := inner c in
  if closed p then set_client t Outside c
  else
    match pop (idle p) with
    | Some (x, rest) => set_client t (Leased x false) (set_inner (with_counts (total p) (in_use p + 1) (with_idle rest p)) c)
    | None =>
        if total p <? max_connections p then
          set_client t Connecting (set_inner (with_counts (total p + 1) (in_use p + 1) p) c)
        else if timed p && expired then set_client t Outside c
        else set_client t Asleep (set_inner (with_waiters (waiters p + 1) p) c)
    end.

Definition is_asleep (p : client) : bool := match p with Asleep => true | _ => false end.
Definition wake_up (p : client) : client := match p with Asleep => Woken false | _ => p end.

Definition notify_one (w : option tid) (m : gmap tid client) : option (gmap tid client) :=
  match w with
  | Some t => match m !! t with Some Asleep => Some (<[t := Woken false]> m) | _ => None end
  | None => if count is_asleep m =? 0 then Some m else None
  end.
Definition notify_all (m : gmap tid client) : gmap tid client := wake_up <$> m.

(** [guard.total] and [guard.in_use] after a connection was given up. *)
Definition forget_connection (p : PoolInner) : PoolInner :=
  with_counts (saturating_dec (total p)) (saturating_dec (in_use p)) p.

(** The lock is taken again behind [route_connect_failure]; [ok] tells whether it
    connected. *)
Definition connected (t : tid) (ok : bool) (w : option tid) (c : config) : option config :=
  if ok then
    if negb (closed (inner c)) then
      Some (mk_config (inner c) (<[t := Leased (mk_connection (fresh c) false) false]> (clients c)) (S (fresh c)))
    else Some (mk_config (forget_connection (inner c)) (notify_all (<[t := Outside]> (clients c))) (S (fresh c)))
  else
    match notify_one w (<[t := Outside]> (clients c)) with
    | Some m => Some (mk_config (forget_connection (inner c)) m (fresh c))
    | None => None
    end.

(** [PoolLease::release]. *)
Definition release (x : connection) (discard : bool) (p : PoolInner) : PoolInner :=
  let p := with_counts (total p) (saturating_dec (in_use p)) p in
  if closed p || discard || negb (pool_connection_is_reusable x)
  then with_counts (saturating_dec (total p)) (in_use p) p
  else with_idle (idle p ++ [x]) p.

(** [close_pool_state]. *)
Definition close_pool_state (c : config) : config :=
  let p := inner c in
  mk_config (mk_pool (max_connections p) (timed p) [] (in_use p) (in_use p) (waiters p) true)
    (notify_all (clients c)) (fresh c).

Inductive label : Type :=
| Acquire (t : tid) (expired : bool)
| Connect (t : tid) (ok : bool) (wakes : option tid)
| Wake (t : tid) (timed_out : bool)
| Recheck (t : tid) (expired : bool)
| Poison (t : tid)
| Discard (t : tid)
| Release (t : tid) (wakes : option tid)
| Close.

Definition step (l : label) (c : config) : option config :=
  match l with
  | Acquire t e => match clients c !! t with Some Outside => Some (attempt t e c) | _ => None end
  | Connect t ok w => match clients c !! t with Some Connecting => connected t ok w c | _ => None end
  | Wake t late =>
      match clients c !! t with
      | Some Asleep => if late && negb (timed (inner c)) then None else Some (set_client t (Woken late) c)
      | _ => None
      end
  | Recheck t e =>
      match clients c !! t with
      | Some (Woken late) =>
          let c := set_inner (with_waiters (saturating_dec (waiters (inner c))) (inner c)) c in
          if late then Some (set_client t Outside c) else Some (attempt t e c)
      | _ => None
      end
  | Poison t =>
      match clients c !! t with
      | Some (Leased x d) => Some (set_client t (Leased (mk_connection (conn x) true) d) c)
      | _ => None
      end
  | Discard t => match clients c !! t with Some (Leased x _) => Some (set_client t (Leased x true) c) | _ => None end
  | Release t w =>
      match clients c !! t with
      | Some (Leased x d) =>
          match notify_one w (<[t := Outside]> (clients c)) with
          | Some m => Some (mk_config (release x d (inner c)) m (fresh c))
          | None => None
          end
      | _ => None
      end
  | Close => Some (close_pool_state c)
  end.

(** ** Creation, handles and metrics *)

Section Config.
Context {uri : Type} (uri_is_empty : uri -> bool).
(** [sql_uri_error_kind] and the connector of the provider. *)
Context (uri_error : uri -> option string) (route_connect : uri -> result unit string).

(** [mux_sql_pool_from_config]: the checks in the order of the source, then the first
    connection. *)
Definition mux_sql_pool_from_config (u : uri) (max acquire_timeout_ms : Z) : result PoolInner string :=
  if uri_is_empty u then Err "sql pool URI must not be empty"
  else
    match uri_error u with
    | Some detail => Err detail
    | None =>
        if max <? 0 then Err "sql pool max_connections must be positive"
        else if negb (in_range 1 64 max) then Err "sql pool max_connections must be between 1 and 64"
        else if acquire_timeout_ms <? -1 then Err "sql pool acquire timeout must be -1 or non-negative"
        else
          let timed := negb (acquire_timeout_ms =? -1) in
          match route_connect u with
          | Err e => Err e
          | Ok _ => Ok (mk_pool max timed [mk_connection 0 false] 1 0 0 false)
          end
    end.
End Config.

(** The entries of [mux_sql_pool_metrics], in order. *)
Definition mux_sql_pool_metrics (p : PoolInner) : list (string * Z) :=
  [("capacity", max_connections p); ("total", total p); ("idle", Z.of_nat (length (idle p)));
   ("in_use", in_use p); ("waiters", waiters p); ("closed", Z.b2z (closed p))]%string.

(** The clients of a pool that has just been created. *)
Definition init (p : PoolInner) (ts : list tid) : config :=
  mk_config p (list_to_map ((fun t => (t, Outside)) <$> ts)) 1.

(** * Properties of the SQL connection pool

    Accounting, exclusive leases and wake-ups in every configuration a pool reaches,
    whatever the interleaving of clients, failures and closing. *)

Definition is_out (p : client) : bool := match p with Connecting | Leased _ _ => true | _ => false end.
Definition is_waiting (p : client) : bool := match p with Asleep | Woken _ => true | _ => false end.
Definition is_coming (p : client) : bool := match p with Woken false => true | _ => false end.

(** ** Accounting *)

(** The counters agree with the clients; connections never exceed the capacity; a closed
    pool keeps nothing and nobody sleeps on it; otherwise, while somebody sleeps, every
    free place has a woken client on its way. *)
Record counts (c : config) : Prop := {
  c_use : in_use (inner c) = count is_out (clients c);
  c_total : total (inner c) = in_use (inner c) + Z.of_nat (length (idle (inner c)));
  c_max : total (inner c) <= max_connections (inner c);
  c_wait : waiters (inner c) = count is_waiting (clients c);
  c_closed : closed (inner c) = true -> idle (inner c) = [] /\ count is_asleep (clients c) = 0;
  c_wake : closed (inner c) = false -> 0 < count is_asleep (clients c) ->
    max_connections (inner c) - in_use (inner c) <= count is_coming (clients c);
}.

Lemma pop_spec l x rest : pop l = Some (x, rest) -> l = rest ++ [x].
Proof.
  unfold pop. destruct (rev l) as [|y r] eqn:E; [done|]. intros [= <- <-].
  by rewrite <- (rev_involutive l), E.
Qed.

Lemma pop_none l : pop l = None -> l = [].
Proof. unfold pop. destruct (rev l) eqn:E; [|done]. intros _. by rewrite <- (rev_involutive l), E. Qed.

(** Waking one client. *)
Lemma notify_one_inv w m m' : notify_one w m = Some m' ->
  (m' = m /\ count is_asleep m = 0) \/ (exists t, m !! t = Some Asleep /\ m' = <[t := Woken false]> m).
Proof.
  unfold notify_one. intros H. step_inv H.
  - right. eexists. done.
  - bool_to_prop. by left.
Qed.

Lemma notify_one_counts w m m' : notify_one w m = Some m' ->
  count is_out m' = count is_out m /\ count is_waiting m' = count is_waiting m /\
  ((count is_asleep m' = 0 /\ count is_coming m' = count is_coming m) \/
   (count is_asleep m' = count is_asleep m - 1 /\ count is_coming m' = count is_coming m + 1)).
Proof.
  intros [[-> H0]|(t & Ht & ->)]%notify_one_inv; [by split_and!; [..|left]|].
  rewrite !(count_insert _ _ _ _ _ Ht). cbn. lia.
Qed.

Lemma notify_all_counts m : count is_out (notify_all m) = count is_out m /\
  count is_waiting (notify_all m) = count is_waiting m /\ count is_asleep (notify_all m) = 0.
Proof.
  unfold notify_all. rewrite !count_fmap. split_and!; [by apply count_ext; intros []..|].
  apply count_zero. by intros t [].
Qed.

(** The head of the loop, for a client [t] that is not asleep and holds no place. *)
Lemma attempt_counts t e old c : clients c !! t = Some old -> is_out old = false -> is_asleep old = false ->
  in_use (inner c) = count is_out (clients c) ->
  total (inner c) = in_use (inner c) + Z.of_nat (length (idle (inner c))) ->
  total (inner c) <= max_connections (inner c) ->
  waiters (inner c) = count is_waiting (clients c) - Z.b2z (is_waiting old) ->
  (closed (inner c) = true -> idle (inner c) = [] /\ count is_asleep (clients c) = 0) ->
  (closed (inner c) = false -> 0 < count is_asleep (clients c) ->
    max_connections (inner c) - in_use (inner c) <= count is_coming (clients c)) ->
  counts (attempt t e c).
Proof.
  intros Ht Ho Ha Huse Htot Hmax Hwait Hcl Hwk. unfold attempt.
  pose proof (count_nonneg is_coming (<[t := Outside]> (clients c))) as Hn.
  rewrite (count_insert _ _ _ _ _ Ht) in Hn. cbn [is_coming Z.b2z] in Hn.
  assert (Z.b2z (is_coming old) <= 1) by (destruct (is_coming old); cbn; lia).
  destruct (closed (inner c)) eqn:Ec.
  { destruct (Hcl eq_refl) as [Hi Hs]. split; cbn; rewrite ?(count_insert _ _ _ _ _ Ht), ?Ho, ?Ha; cbn; try done; try lia.
    intros _. split; [done|lia]. }
  clear Hcl. specialize (Hwk eq_refl).
  destruct (pop (idle (inner c))) as [[x rest]|] eqn:Ep.
  { apply pop_spec in Ep. rewrite Ep, length_app in Htot. cbn [length] in Htot.
    split; cbn; rewrite ?(count_insert _ _ _ _ _ Ht), ?Ho, ?Ha, ?Ec; cbn; try done; lia. }
  apply pop_none in Ep. rewrite Ep in Htot. cbn [length] in Htot.
  destruct (_ <? _) eqn:El; bool_to_prop.
  { split; cbn; rewrite ?(count_insert _ _ _ _ _ Ht), ?Ho, ?Ha, ?Ep, ?Ec; cbn; try done; lia. }
  destruct (timed _ && e).
  { split; cbn; rewrite ?(count_insert _ _ _ _ _ Ht), ?Ho, ?Ha, ?Ep, ?Ec; cbn; try done; lia. }
  split; cbn; rewrite ?(count_insert _ _ _ _ _ Ht), ?Ho, ?Ha, ?Ep, ?Ec; cbn; try done; lia.
Qed.

(** A client that moves on without taking or giving back a place. *)
Lemma counts_move t old new c : clients c !! t = Some old -> counts c -> is_out new = is_out old ->
  is_waiting new = is_waiting old -> Z.b2z (is_asleep new) <= Z.b2z (is_asleep old) ->
  Z.b2z (is_coming old) <= Z.b2z (is_coming new) -> counts (set_client t new c).
Proof.
  intros Ht [Huse Htot Hmax Hwait Hcl Hwk] Ho Hw Ha Hn.
  pose proof (count_nonneg is_asleep (<[t := new]> (clients c))) as Hnn. rewrite (count_insert _ _ _ _ _ Ht) in Hnn.
  split; cbn [inner clients set_client]; rewrite ?(count_insert _ _ _ _ _ Ht), ?Ho, ?Hw; try done; try lia.
  - intros Ec. destruct (Hcl Ec) as [Hi Hs]. split; [done|lia].
  - intros Ec Hs. specialize (Hwk Ec). lia.
Qed.

(** A client [t] that held a place gives it back, and the pool keeps its connection
    ([kept] is 1) or not; one sleeper is woken. *)
Lemma counts_return t old w m p' kept c : counts c -> clients c !! t = Some old -> is_out old = true ->
  notify_one w (<[t := Outside]> (clients c)) = Some m ->
  in_use p' = saturating_dec (in_use (inner c)) -> total p' = total (inner c) - 1 + kept ->
  Z.of_nat (length (idle p')) = Z.of_nat (length (idle (inner c))) + kept -> 0 <= kept <= 1 ->
  max_connections p' = max_connections (inner c) -> waiters p' = waiters (inner c) ->
  closed p' = closed (inner c) -> (closed (inner c) = true -> kept = 0) -> counts (mk_config p' m (fresh c)).
Proof.
  intros [Huse Htot Hmax Hwait Hcl Hwk] Ht Ho En Hu Hto Hid Hk Hm Hw Hc Hck.
  assert (0 < count is_out (clients c)) as Hpos by (apply count_pos; by exists t, old).
  destruct (notify_one_counts _ _ _ En) as (K1 & K2 & K3).
  rewrite (count_insert is_out _ _ _ _ Ht) in K1. rewrite (count_insert is_waiting _ _ _ _ Ht) in K2.
  rewrite (count_insert is_asleep _ _ _ _ Ht), (count_insert is_coming _ _ _ _ Ht) in K3.
  pose proof (count_nonneg is_asleep m). assert (is_waiting old = false /\ is_asleep old = false /\ is_coming old = false)
    as (E1 & E2 & E3) by by destruct old.
  rewrite Ho, ?E1, ?E2, ?E3 in *. cbn in K1, K2, K3. unfold saturating_dec in *.
  split; cbn [inner clients]; rewrite ?Hm, ?Hw, ?Hc, ?Hu, ?K1, ?K2; try lia.
  - intros Ec. destruct (Hcl Ec) as [Hi Hs]. rewrite Hi, (Hck Ec) in Hid. cbn in Hid.
    split; [destruct (idle p'); [done|cbn in Hid; lia]|lia].
  - intros Ec Hs. specialize (Hwk Ec). lia.
Qed.

Lemma connected_counts t ok w c c' : counts c -> clients c !! t = Some Connecting -> connected t ok w c = Some c' -> counts c'.
Proof.
  intros Hc Ht H. destruct Hc as [Huse Htot Hmax Hwait Hcl Hwk] eqn:EHc. clear EHc.
  assert (0 < count is_out (clients c)) as Hpos by (apply count_pos; by exists t, Connecting).
  unfold connected in H. destruct ok; [destruct (closed (inner c)) eqn:Ec; injection H as <-|].
  - destruct (notify_all_counts (<[t := Outside]> (clients c))) as (K1 & K2 & K3). destruct (Hcl eq_refl) as [Hi Hs].
    split; cbn; rewrite ?K1, ?K2, ?K3, ?(count_insert _ _ _ _ _ Ht), ?Hi; unfold saturating_dec; cbn; try done; try lia.
    rewrite Hi in Htot. cbn in Htot. lia.
  - destruct (counts_move t Connecting (Leased (mk_connection (fresh c) false) false) c Ht Hc) as [A1 A2 A3 A4 A5 A6]; try done.
  - destruct (notify_one _ _) as [m|] eqn:En; [|done]. injection H as <-.
    eapply (counts_return t Connecting w m _ 0); try done; cbn; unfold saturating_dec; lia.
Qed.

Lemma step_counts l c c' : counts c -> step l c = Some c' -> counts c'.
Proof.
  intros Hc H. destruct l as [t e|t ok w|t late|t e|t|t|t w|]; cbn [step] in H.
  - step_inv H. destruct Hc. eapply attempt_counts; try done. cbn. lia.
  - step_inv H. by eapply connected_counts.
  - step_inv H. by eapply counts_move; [done..| |]; destruct late.
  - destruct Hc as [Huse Htot Hmax Hwait Hcl Hwk]. destruct (clients c !! t) as [[| | |late|]|] eqn:Ht; try done.
    assert (0 < count is_waiting (clients c)) as Hpos by (apply count_pos; by exists t, (Woken late)).
    destruct late; injection H as <-; [|eapply attempt_counts; cbn; try done; unfold saturating_dec; cbn; lia].
    split; cbn; rewrite ?(count_insert _ _ _ _ _ Ht); cbn; unfold saturating_dec; try done; try lia.
    + intros Ec. destruct (Hcl Ec) as [Hi Hs]. split; [done|lia].
    + intros Ec Hs. specialize (Hwk Ec). lia.
  - step_inv H. by eapply counts_move.
  - step_inv H. by eapply counts_move.
  - destruct (clients c !! t) as [[| | | |x d]|] eqn:Ht; try done.
    destruct (notify_one _ _) as [m|] eqn:En; [|done]. injection H as <-. unfold release. cbn.
    pose proof (c_use c Hc). pose proof (c_total c Hc).
    assert (0 < count is_out (clients c)) as Hpos by (apply count_pos; by exists t, (Leased x d)).
    destruct (closed (inner c) || d || negb (pool_connection_is_reusable x)) eqn:Er.
    + eapply (counts_return t (Leased x d) w m _ 0); try done; cbn; unfold saturating_dec; lia.
    + apply orb_false_iff in Er as [Er _]. apply orb_false_iff in Er as [Er _].
      eapply (counts_return t (Leased x d) w m _ 1); try done; cbn; rewrite ?length_app, ?Er; cbn; try done; lia.
  - injection H as <-. destruct Hc as [Huse Htot Hmax Hwait Hcl Hwk]. destruct (notify_all_counts (clients c)) as (H1 & H2 & H3).
    split; cbn; rewrite ?H1, ?H2, ?H3; try done; lia.
Qed.

(** ** Who holds which connection *)

(** Every connection below [n] belongs to the idle list, to one client, or to nobody. *)
Record owned (ids : list nat) (lease : tid -> option nat) (n : nat) : Prop := {
  o_nodup : NoDup ids;
  o_idle i : i ∈ ids -> (i < n)%nat;
  o_lease t i : lease t = Some i -> (i < n)%nat /\ i ∉ ids;
  o_one t1 t2 i : lease t1 = Some i -> lease t2 = Some i -> t1 = t2;
}.

Definition update (lease : tid -> option nat) (t : tid) (o : option nat) (t' : tid) : option nat :=
  if decide (t' = t) then o else lease t'.

Lemma owned_ext ids l1 l2 n : (forall t, l2 t = l1 t) -> owned ids l1 n -> owned ids l2 n.
Proof.
  intros He [H1 H2 H3 H4]. split; [done|done|..].
  - intros t i. rewrite He. apply H3.
  - intros t1 t2 i. rewrite !He. apply H4.
Qed.

Lemma owned_take ids i lease n t : owned (ids ++ [i]) lease n -> lease t = None -> owned ids (update lease t (Some i)) n.
Proof.
  intros [H1 H2 H3 H4] Ht. apply NoDup_app in H1 as (Hn & Hd & _).
  assert (i ∉ ids) as Hi by (intros Hin; apply (Hd i Hin); set_solver).
  unfold update. split; [done|set_solver|..].
  - intros t' j. case_decide; [intros [= <-]; split; [set_solver|done]|]. intros [? ?]%H3. split; [done|set_solver].
  - intros t1 t2 j. repeat case_decide; intros E1 E2; simplify_eq; try done.
    + by apply H3 in E2 as [_ []]; set_solver.
    + by apply H3 in E1 as [_ []]; set_solver.
    + by eapply H4.
Qed.

Lemma owned_drop ids lease n t : owned ids lease n -> owned ids (update lease t None) n.
Proof.
  intros [H1 H2 H3 H4]. unfold update. split; [done|done|..].
  - intros t' j. case_decide; [done|]. apply H3.
  - intros t1 t2 j. repeat case_decide; try done. apply H4.
Qed.

Lemma owned_give ids i lease n t : owned ids lease n -> lease t = Some i -> owned (ids ++ [i]) (update lease t None) n.
Proof.
  intros [H1 H2 H3 H4] Ht. destruct (H3 _ _ Ht) as [Hlt Hni]. unfold update. split.
  - apply NoDup_app. split; [done|]. split; [set_solver|apply NoDup_singleton].
  - intros j [Hj|Hj]%elem_of_app; [by apply H2|]. apply list_elem_of_singleton in Hj as ->. done.
  - intros t' j. case_decide; [done|]. intros Hj. destruct (H3 _ _ Hj). split; [done|].
    intros [|Hij%list_elem_of_singleton]%elem_of_app; [done|]. subst j. by pose proof (H4 _ _ _ Ht Hj).
  - intros t1 t2 j. repeat case_decide; try done. apply H4.
Qed.

Lemma owned_fresh ids lease n t : owned ids lease n -> lease t = None -> owned ids (update lease t (Some n)) (S n).
Proof.
  intros [H1 H2 H3 H4] Ht. unfold update. split; [done|..].
  - intros j Hj%H2. lia.
  - intros t' j. case_decide; [intros [= <-]; split; [lia|]; intros Hj%H2; lia|]. intros [? ?]%H3. split; [lia|done].
  - intros t1 t2 j. repeat case_decide; intros E1 E2; simplify_eq; try done.
    + apply H3 in E2 as [? _]. lia.
    + apply H3 in E1 as [? _]. lia.
    + by eapply H4.
Qed.

Lemma owned_later ids lease n : owned ids lease n -> owned ids lease (S n).
Proof.
  intros [H1 H2 H3 H4]. split; [done|..|done].
  - intros j Hj%H2. lia.
  - intros t j [? ?]%H3. split; [lia|done].
Qed.

Lemma owned_clear ids lease n : owned ids lease n -> owned [] lease n.
Proof. intros [H1 H2 H3 H4]. split; [constructor|set_solver|intros t i [? _]%H3; set_solver|done]. Qed.

Definition lease_of (m : gmap tid client) (t : tid) : option nat :=
  match m !! t with Some (Leased x _) => Some (conn x) | _ => None end.
Definition held_by (p : client) : option nat := match p with Leased x _ => Some (conn x) | _ => None end.

Lemma lease_insert m t p t' : lease_of (<[t := p]> m) t' = update (lease_of m) t (held_by p) t'.
Proof.
  unfold lease_of, update. case_decide as E; [subst; by rewrite lookup_insert_eq|]. by rewrite lookup_insert_ne by congruence.
Qed.

Lemma lease_notify_one w m m' t : notify_one w m = Some m' -> lease_of m' t = lease_of m t.
Proof.
  intros [[-> _]|(t' & Ht & ->)]%notify_one_inv; [done|]. rewrite lease_insert. unfold update.
  case_decide; [subst; unfold lease_of; by rewrite Ht|done].
Qed.

Lemma lease_notify_all m t : lease_of (notify_all m) t = lease_of m t.
Proof. unfold lease_of, notify_all. rewrite lookup_fmap. by destruct (m !! t) as [[]|]. Qed.

Definition holds (c : config) : Prop := owned (conn <$> idle (inner c)) (lease_of (clients c)) (fresh c).

(** A client that held nothing and takes nothing. *)
Lemma holds_move t old new c : clients c !! t = Some old -> held_by new = held_by old -> holds c -> holds (set_client t new c).
Proof.
  intros Ht He H. unfold holds. cbn [inner clients fresh set_client]. eapply owned_ext; [|exact H]. intros t'.
  rewrite lease_insert. unfold update. case_decide; [|done]. subst. unfold lease_of. rewrite Ht, He. by destruct old.
Qed.

Lemma attempt_holds t e old c : clients c !! t = Some old -> held_by old = None -> holds c -> holds (attempt t e c).
Proof.
  intros Ht Ho H. unfold attempt. destruct (closed (inner c)); [by eapply holds_move; [|rewrite Ho|]|].
  assert (lease_of (clients c) t = None) as Hl by (unfold lease_of; rewrite Ht; by destruct old).
  destruct (pop _) as [[x rest]|] eqn:Ep.
  - apply pop_spec in Ep. unfold holds in *. cbn. rewrite Ep, fmap_app in H. cbn in H.
    eapply owned_ext; [|by apply (owned_take _ _ _ _ t H Hl)]. intros t'. by rewrite lease_insert.
  - assert (forall p new, idle p = idle (inner c) -> held_by new = None ->
      holds (set_client t new (set_inner p c))) as Hgo.
    { intros p new Hi Hn. eapply (holds_move t old); [done|by rewrite Ho, Hn|]. unfold holds. cbn. by rewrite Hi. }
    destruct (_ <? _); [by apply Hgo|]. destruct (_ && _); [by eapply holds_move; [|rewrite Ho|]|]. by apply Hgo.
Qed.

Lemma step_holds l c c' : holds c -> step l c = Some c' -> holds c'.
Proof.
  intros Hc H. destruct l as [t e|t ok w|t late|t e|t|t|t w|]; cbn [step] in H.
  - step_inv H. by eapply attempt_holds.
  - step_inv H. assert (lease_of (clients c) t = None) as Hl by (unfold lease_of; by rewrite Heqo).
    unfold connected in H. step_inv H; unfold holds in *; cbn.
    + eapply owned_ext; [|by apply (owned_fresh _ _ _ t Hc Hl)]. intros t'. by rewrite lease_insert.
    + eapply owned_ext; [|by apply owned_later, (owned_drop _ _ _ t Hc)]. intros t'. by rewrite lease_notify_all, lease_insert.
    + eapply owned_ext; [|by apply (owned_drop _ _ _ t Hc)]. intros t'.
      by rewrite (lease_notify_one _ _ _ _ ltac:(eassumption)), lease_insert.
  - step_inv H. by eapply holds_move.
  - step_inv H; [by eapply holds_move|]. by eapply attempt_holds.
  - step_inv H. by eapply holds_move.
  - step_inv H. by eapply holds_move.
  - destruct (clients c !! t) as [[| | | |x d]|] eqn:Ht; try done.
    destruct (notify_one _ _) as [g|] eqn:En; [|done]. injection H as <-.
    assert (lease_of (clients c) t = Some (conn x)) as Hl by (unfold lease_of; by rewrite Ht).
    assert (forall t', lease_of g t' = update (lease_of (clients c)) t None t') as Hg.
    { intros t'. by rewrite (lease_notify_one _ _ _ _ En), lease_insert. }
    unfold holds, release in *. cbn. destruct (_ || _); cbn.
    + eapply owned_ext; [exact Hg|]. by apply owned_drop.
    + rewrite fmap_app. eapply owned_ext; [exact Hg|]. by apply owned_give.
  - injection H as <-. unfold holds in *. cbn. eapply owned_ext; [apply lease_notify_all|]. by eapply owned_clear.
Qed.

(** ** The properties *)

Section Reach.
Context {uri : Type} (uri_is_empty : uri -> bool) (uri_error : uri -> option string) (route_connect : uri -> result unit string).

(** What creation yields. *)
Lemma created u max ms p : mux_sql_pool_from_config uri_is_empty uri_error route_connect u max ms = Ok p ->
  p = mk_pool max (negb (ms =? -1)) [mk_connection 0 false] 1 0 0 false /\ 1 <= max <= 64.
Proof.
  unfold mux_sql_pool_from_config. intros H. step_inv H. bool_to_prop. split; [done|]. by apply in_range_true.
Qed.

Lemma created_inv u max ms p ts : mux_sql_pool_from_config uri_is_empty uri_error route_connect u max ms = Ok p ->
  counts (init p ts) /\ holds (init p ts).
Proof.
  intros [-> Hm]%created. split.
  - split; cbn; rewrite ?(count_replicate _ ts Outside) by done; try done; lia.
  - split; cbn.
    + apply NoDup_singleton.
    + intros i Hi%list_elem_of_singleton. lia.
    + intros t i. unfold lease_of. destruct (_ !! t) as [x|] eqn:E; [|done]. apply elem_of_list_to_map_2 in E.
      apply list_elem_of_fmap in E as (? & [= -> ->] & _). done.
    + intros t1 t2 i. unfold lease_of. destruct (_ !! t1) as [x|] eqn:E; [|done]. apply elem_of_list_to_map_2 in E.
      apply list_elem_of_fmap in E as (? & [= -> ->] & _). done.
Qed.

(** C19: The connection pool accounts for every connection.  Whatever the interleaving of
    acquisitions, failed connections, time-outs, releases and closing: the connections
    counted are those idle and those out, never more than the capacity; no connection is
    held by two clients or idle while held; the metrics are the numbers of clients in each
    state; and a closed pool keeps no idle connection, so that it holds none at all once
    the last lease is returned. *)
Theorem sql_pool_accounts u max ms p ts c :
  mux_sql_pool_from_config uri_is_empty uri_error route_connect u max ms = Ok p -> reachable step (init p ts) c ->
  mux_sql_pool_metrics (inner c) =
    [("capacity", max_connections (inner c)); ("total", count is_out (clients c) + Z.of_nat (length (idle (inner c))));
     ("idle", Z.of_nat (length (idle (inner c)))); ("in_use", count is_out (clients c));
     ("waiters", count is_waiting (clients c)); ("closed", Z.b2z (closed (inner c)))]%string /\
  count is_out (clients c) + Z.of_nat (length (idle (inner c))) <= max_connections (inner c) /\
  (forall t1 t2 x1 x2 d1 d2, clients c !! t1 = Some (Leased x1 d1) -> clients c !! t2 = Some (Leased x2 d2) ->
     conn x1 = conn x2 -> t1 = t2) /\
  (forall t x d y, clients c !! t = Some (Leased x d) -> y ∈ idle (inner c) -> conn y <> conn x) /\
  (closed (inner c) = true -> count is_out (clients c) = 0 -> total (inner c) = 0 /\ idle (inner c) = []).
Proof.
  intros Hp Hr. destruct (created_inv u max ms p ts Hp) as [Hc0 Hh0].
  assert (counts c /\ holds c) as [[Huse Htot Hmax Hwait Hcl Hwk] [Hh1 Hh2 Hh3 Hh4]].
  { split; [by apply (reachable_inv step counts _ Hc0 step_counts)|by apply (reachable_inv step holds _ Hh0 step_holds)]. }
  assert (forall t x d, clients c !! t = Some (Leased x d) -> lease_of (clients c) t = Some (conn x)) as Hl.
  { intros t x d E. unfold lease_of. by rewrite E. }
  split_and!.
  - unfold mux_sql_pool_metrics. by rewrite Htot, Huse, Hwait.
  - lia.
  - intros t1 t2 x1 x2 d1 d2 H1%Hl H2%Hl E. rewrite E in H1. by eapply Hh4.
  - intros t x d y H1%Hl Hy E. destruct (Hh3 _ _ H1) as [_ Hn]. apply Hn. rewrite <- E. by apply list_elem_of_fmap_2.
  - intros Ec H0. destruct (Hcl Ec) as [Hi _]. rewrite Hi in Htot. cbn in Htot. split; [lia|done].
Qed.

(** C20: No wake-up is lost.  In every reachable configuration nobody sleeps on a closed
    pool, and when somebody sleeps on an open one although a connection is idle or could
    be opened, a woken client is on its way that takes it: its next step leaves it with a
    lease or connecting. *)
Theorem sql_pool_no_lost_wakeup u max ms p ts c t :
  mux_sql_pool_from_config uri_is_empty uri_error route_connect u max ms = Ok p -> reachable step (init p ts) c ->
  clients c !! t = Some Asleep ->
  closed (inner c) = false /\
  (idle (inner c) <> [] \/ total (inner c) < max_connections (inner c) ->
   exists t', clients c !! t' = Some (Woken false) /\
     forall e, exists c' p', step (Recheck t' e) c = Some c' /\ clients c' !! t' = Some p' /\ is_out p' = true).
Proof.
  intros Hp Hr Ht. destruct (created_inv u max ms p ts Hp) as [Hc0 _].
  destruct (reachable_inv step counts _ Hc0 step_counts c Hr) as [Huse Htot Hmax Hwait Hcl Hwk].
  assert (0 < count is_asleep (clients c)) as Hs by (apply count_pos; by exists t, Asleep).
  assert (closed (inner c) = false) as Ec by (destruct (closed (inner c)) eqn:E; [destruct (Hcl eq_refl); lia|done]).
  split; [done|]. intros Hfree. specialize (Hwk Ec Hs).
  assert (0 < count is_coming (clients c)) as Hcom.
  { destruct Hfree as [Hne|]; [|lia]. destruct (idle (inner c)); [done|]. cbn in Htot. lia. }
  apply count_pos in Hcom as (t' & [| | |[]|] & Ht' & Hb); try done. exists t'. split; [done|]. intros e.
  cbn [step]. rewrite Ht'. unfold attempt. cbn. rewrite Ec. destruct (pop (idle (inner c))) as [[x rest]|] eqn:Ep.
  - do 2 eexists. split; [reflexivity|]. cbn. by rewrite lookup_insert_eq.
  - apply pop_none in Ep. destruct Hfree as [|Hlt]; [done|]. rewrite (proj2 (Z.ltb_lt _ _) Hlt).
    do 2 eexists. split; [reflexivity|]. cbn. by rewrite lookup_insert_eq.
Qed.

End Reach.

(** A pool of one connection: a lease, two sleepers, and the release that wakes one. *)
Definition demo_pool : PoolInner := mk_pool 1 false [mk_connection 0 false] 1 0 0 false.
Definition demo_run : list label :=
  [Acquire 1%nat false; Acquire 2%nat false; Acquire 3%nat false; Release 1%nat (Some 3%nat)].
Definition demo_end : config :=
  match run step demo_run (init demo_pool [1; 2; 3]%nat) with Some c => c | None => init demo_pool [] end.

Lemma demo_reachable : reachable step (init demo_pool [1; 2; 3]%nat) demo_end.
Proof. apply (run_reachable step demo_run). reflexivity. Qed.

Definition any_uri (_ : unit) : result unit string := Ok tt.

Lemma sql_pool_accounts_witness :
  mux_sql_pool_metrics (inner demo_end) =
    [("capacity", 1); ("total", 1); ("idle", 1); ("in_use", 0); ("waiters", 2); ("closed", 0)]%string /\
  count is_waiting (clients demo_end) = 2.
Proof.
  destruct (sql_pool_accounts (fun _ => false) (fun _ => None) any_uri tt 1 (-1) demo_pool [1; 2; 3]%nat demo_end
    eq_refl demo_reachable) as (H & _). split; [reflexivity|].
  exact (eq_sym (f_equal (fun l : list (string * Z) => match l !! 4%nat with Some e => e.2 | None => 0 end) H)).
Defined.

Lemma sql_pool_no_lost_wakeup_witness :
  clients demo_end !! 2%nat = Some Asleep /\ exists t', clients demo_end !! t' = Some (Woken false).
Proof.
  split; [reflexivity|].
  destruct (sql_pool_no_lost_wakeup (fun _ => false) (fun _ => None) any_uri tt 1 (-1) demo_pool [1; 2; 3]%nat demo_end
    2%nat eq_refl demo_reachable eq_refl) as (_ & H). destruct H as (t' & Ht' & _); [by left|]. by exists t'.
Defined.
