(* ===== verification/SqlSession.v ===== *)
(** * SQL sessions ([src/src/sql.rs])

    Connections, transactions, result sets, rows and prepared statements are entries of tables
    of the thread, named by numbers in objects.  A result set that is still open leases its
    connection or transaction: while the lease lasts other operations on it answer that it is
    busy, and closing it is put off.  An object keeps its owner alive through its reference
    count, so dropping one can drop another ([rc_dec]).

    The drivers, the pool ([SqlPool]) and the allocator are the class [SqlOs].  A text of the
    scanner of [SqlText] is kept as its error ([Scan]). *)

From S2P Require Import Prelude AssocList Value Str Utf8 Cli SqlText.

(** ** Failures and diagnostics *)

Inductive SqlErrorKind : Type := Constraint | Timeout | Unsupported | Invalid | Database | Cancelled.

#[export] Instance SqlErrorKind_eq_dec : EqDecision SqlErrorKind.
Proof. solve_decision. Defined.

Definition kind_number (k : SqlErrorKind) : Z :=
  match k with Constraint => 0 | Timeout => 1 | Unsupported => 2 | Invalid => 3 | Database => 4 | Cancelled => 5 end.

Definition as_str (k : SqlErrorKind) : string :=
  match k with
  | Constraint => "constraint" | Timeout => "timeout" | Unsupported => "unsupported"
  | Invalid => "invalid" | Database => "database" | Cancelled => "cancelled"
  end.

Inductive Detail : Type := Text (t : list Z) | Scan (e : SqlTextError).

Record ProviderDiagnostic : Type := mk_diagnostic { code : list Z; sqlstate : list Z; vendor_code : list Z; constraint : list Z }.

Definition no_diagnostic : ProviderDiagnostic := mk_diagnostic [] [] [] [].

(** [str::parse] of an integer in the given range. *)
Definition parse_in (low high : Z) (s : list Z) : option Z :=
  match from_str_radix 10 s with
  | Some v => match s with 45 :: _ => if 0 <=? low then None else if in_range low high v then Some v else None
                         | _ => if in_range low high v then Some v else None end
  | None => None
  end.

Definition member (v : option Z) (l : list Z) : bool := match v with Some v => bool_decide (v ∈ l) | None => false end.

(** [ProviderDiagnostic::kind]. *)
Definition diagnostic_kind (d : ProviderDiagnostic) : option SqlErrorKind :=
  if is_prefix (octets "23") (sqlstate d) then Some Constraint
  else if match parse_in (-2147483648) 2147483647 (vendor_code d) with Some v => Z.land v 255 =? 19 | None => false end then Some Constraint
  else if member (parse_in 0 65535 (vendor_code d)) [1022; 1048; 1062; 1169; 1216; 1217; 1451; 1452; 1557; 1577; 1644; 3819] then Some Constraint
  else if member (parse_in 0 4294967295 (vendor_code d)) [2601; 2627; 547; 515; 544; 8114; 8115] then Some Constraint
  else None.

Record SqlFailure : Type := mk_failure { detail : Detail; diagnostic : ProviderDiagnostic; failure_kind : option SqlErrorKind }.

Definition plain (m : string) : SqlFailure := mk_failure (Text (octets m)) no_diagnostic None.
Definition plain_text (t : list Z) : SqlFailure := mk_failure (Text t) no_diagnostic None.
Definition scan_failure (e : SqlTextError) : SqlFailure := mk_failure (Scan e) no_diagnostic None.
Definition unsupported (m : string) : SqlFailure := mk_failure (Text (octets m)) no_diagnostic (Some Unsupported).
Definition invalid (m : string) : SqlFailure := mk_failure (Text (octets m)) no_diagnostic (Some Invalid).
Definition timeout (f : SqlFailure) : SqlFailure := mk_failure (detail f) (diagnostic f) (Some Timeout).
Definition cancelled (f : SqlFailure) : SqlFailure := mk_failure (detail f) (diagnostic f) (Some Cancelled).

Record SqlErrorEntry : Type := mk_error {
  e_kind : SqlErrorKind; e_detail : Detail; e_provider : string; e_code : list Z; e_constraint : list Z; e_operation : string }.

Definition sql_interrupt_capabilities (provider : string) : bool * bool :=
  if bool_decide (provider ∈ ["sqlite"; "postgres"; "mysql"; "sqlserver"]%string) then (true, true) else (false, false).

Definition sql_capabilities_value (provider : string) : list (string * (string + bool)) :=
  let '(t, c) := sql_interrupt_capabilities provider in
  [("provider", inl provider); ("query_timeout", inr t); ("query_cancellation", inr c)]%string.

Definition provider_name (b : SqlBackend) : string :=
  match b with Sqlite => "sqlite" | Postgres => "postgres" | MySql => "mysql" | SqlServer => "sqlserver" end.

(** ** The state *)

(** [SqlConnection]: the provider and the driver's connection. *)
Record Conn : Type := mk_conn { provider_of : SqlBackend; number : Z }.

Record PoolLease : Type := mk_lease { lease_pool : Z; lease_connection : Conn; lease_discard : bool }.

Record SqlTransaction : Type := mk_transaction {
  tx_connection_handle : Z; tx_provider : string; tx_connection : option Conn; active : bool;
  tx_parent : option (Z * list Z); owner : Z }.

(** At most one of the four cursors of the source is present: [cursor] has its provider. *)
Record SqlResultSet : Type := mk_resultset {
  ordered_rows : list Z; columns : list (list Z); next_ordered_index : nat; rs_closed : bool;
  cursor : option (SqlBackend * Z);
  connection_lease : option Z; transaction_lease : option Z; pool_lease : option PoolLease }.

Record SqlRow : Type := mk_row { row_provider_name : string; row_columns : list (list Z); row_values : list value }.
Record SqlPrepared : Type := mk_prepared { prepared_connection : Z; prepared_sql : list Z }.

Inductive class : Type := ConnectionClass | TransactionClass | ResultSetClass | RowClass | PreparedClass | PoolClass | ErrorClass.

#[export] Instance class_eq_dec : EqDecision class.
Proof. solve_decision. Defined.

(** An object: its class, the number in its buffer, its references. *)
Record object : Type := mk_object { o_class : class; o_handle : Z; o_refs : Z }.

Inductive allocation : Type := Allocated | NoObject | NoBuffer.

(** How a query may be interrupted. *)
Inductive interrupt : Type := Uninterrupted | Limited (ms : Z) | Cancellable (token : Z).

(** What opening a query gives: columns, the rows that were read at once, a cursor for others. *)
Record opened : Type := mk_opened { op_columns : list (list Z); op_rows : list (list value); op_cursor : option Z }.

Class SqlOs (W : Type) := {
  allocate : W -> allocation * W;
  run_statement : Conn -> list Z -> list SqlParam -> W -> result Z SqlFailure * W;
  run_script : Conn -> list Z -> W -> result unit SqlFailure * W;
  run_many : Conn -> list Z -> list (list SqlParam) -> W -> result Z SqlFailure * W;
  open_query : Conn -> list Z -> list SqlParam -> interrupt -> W -> result opened SqlFailure * W;
  fetch : Z -> list (list Z) -> W -> result (option (list value)) SqlFailure * list (list Z) * W;
  drop_cursor : Z -> W -> W;
  drop_connection : Conn -> W -> W;
  pool_acquire : Z -> W -> result Conn SqlFailure * W;
  pool_release : PoolLease -> W -> W;
  pool_uri_provider : Z -> W -> string;
  cancellation_entry : value -> W -> result Z (list Z);
}.

(** A pointer: null, to an object, or to another value. *)
Inductive sql_arg : Type := NullArg | ObjectArg (o : Z) | OtherArg.

(** What an operation gives; an object by its number. *)
Inductive sql_value : Type :=
| OfUnit
| OfInt (i : Z)
| OfObject (o : Z)
| OfObjects (os : list Z)
| OfOptional (o : option Z)
| OfValue (v : value)
| OfCapabilities (m : list (string * (string + bool))).

(** An error is an object of the error class, or its text when that cannot be allocated. *)
Inductive sql_error : Type := ErrorObject (o : Z) | ErrorText (d : Detail).

Definition answer : Type := result sql_value sql_error.

Section Session.
Context {W : Type} `{SqlOs W}.

Record session : Type := mk_session {
  connections : gmap Z Conn;
  transactions : gmap Z SqlTransaction;
  resultsets : gmap Z SqlResultSet;
  rows : gmap Z SqlRow;
  prepared : gmap Z SqlPrepared;
  errors : gmap Z SqlErrorEntry;
  connection_leases : gmap Z Z;
  transaction_leases : gmap Z Z;
  connection_close_pending : gset Z;
  transaction_close_pending : gset Z;
  objects : gmap Z object;
  next_object : Z;
  next : Z;
  world : W;
}.

Definition set_connections (m : gmap Z Conn) (s : session) : session :=
  mk_session m (transactions s) (resultsets s) (rows s) (prepared s) (errors s) (connection_leases s) (transaction_leases s)
    (connection_close_pending s) (transaction_close_pending s) (objects s) (next_object s) (next s) (world s).
Definition set_transactions (m : gmap Z SqlTransaction) (s : session) : session :=
  mk_session (connections s) m (resultsets s) (rows s) (prepared s) (errors s) (connection_leases s) (transaction_leases s)
    (connection_close_pending s) (transaction_close_pending s) (objects s) (next_object s) (next s) (world s).
Definition set_resultsets (m : gmap Z SqlResultSet) (s : session) : session :=
  mk_session (connections s) (transactions s) m (rows s) (prepared s) (errors s) (connection_leases s) (transaction_leases s)
    (connection_close_pending s) (transaction_close_pending s) (objects s) (next_object s) (next s) (world s).
Definition set_rows (m : gmap Z SqlRow) (s : session) : session :=
  mk_session (connections s) (transactions s) (resultsets s) m (prepared s) (errors s) (connection_leases s) (transaction_leases s)
    (connection_close_pending s) (transaction_close_pending s) (objects s) (next_object s) (next s) (world s).
Definition set_prepared (m : gmap Z SqlPrepared) (s : session) : session :=
  mk_session (connections s) (transactions s) (resultsets s) (rows s) m (errors s) (connection_leases s) (transaction_leases s)
    (connection_close_pending s) (transaction_close_pending s) (objects s) (next_object s) (next s) (world s).
Definition set_errors (m : gmap Z SqlErrorEntry) (s : session) : session :=
  mk_session (connections s) (transactions s) (resultsets s) (rows s) (prepared s) m (connection_leases s) (transaction_leases s)
    (connection_close_pending s) (transaction_close_pending s) (objects s) (next_object s) (next s) (world s).
Definition set_leases (c t : gmap Z Z) (s : session) : session :=
  mk_session (connections s) (transactions s) (resultsets s) (rows s) (prepared s) (errors s) c t
    (connection_close_pending s) (transaction_close_pending s) (objects s) (next_object s) (next s) (world s).
Definition set_pending (c t : gset Z) (s : session) : session :=
  mk_session (connections s) (transactions s) (resultsets s) (rows s) (prepared s) (errors s) (connection_leases s) (transaction_leases s)
    c t (objects s) (next_object s) (next s) (world s).
Definition set_objects (m : gmap Z object) (s : session) : session :=
  mk_session (connections s) (transactions s) (resultsets s) (rows s) (prepared s) (errors s) (connection_leases s) (transaction_leases s)
    (connection_close_pending s) (transaction_close_pending s) m (next_object s) (next s) (world s).
Definition set_next (n : Z) (s : session) : session :=
  mk_session (connections s) (transactions s) (resultsets s) (rows s) (prepared s) (errors s) (connection_leases s) (transaction_leases s)
    (connection_close_pending s) (transaction_close_pending s) (objects s) (next_object s) n (world s).
Definition set_world (w : W) (s : session) : session :=
  mk_session (connections s) (transactions s) (resultsets s) (rows s) (prepared s) (errors s) (connection_leases s) (transaction_leases s)
    (connection_close_pending s) (transaction_close_pending s) (objects s) (next_object s) (next s) w.

(** [next] counts without bound; the 64 bits of the atomic counter are [as_i64 (next s)].  Numbers
    that are not positive are skipped, one [fetch_add] each, until 1 is answered. *)
Definition next_handle (s : session) : Z * session :=
  let h := as_i64 (next s) in
  if 0 <? h then (h, set_next (next s + 1) s) else (1, set_next (next s - h + 2) s).

(** ** Objects *)

Definition create_handle_value (handle : Z) (c : class) (s : session) : result Z (list Z) * session :=
  let '(a, w) := allocate (world s) in
  let s := set_world w s in
  match a with
  | NoObject => (Err (octets "could not allocate SQL handle"), s)
  | NoBuffer => (Err (octets "could not initialize SQL handle"), s)
  | Allocated =>
      let o := next_object s in
      (Ok o, mk_session (connections s) (transactions s) (resultsets s) (rows s) (prepared s) (errors s) (connection_leases s) (transaction_leases s)
         (connection_close_pending s) (transaction_close_pending s) (<[o := mk_object c handle 1]> (objects s)) (o + 1) (next s) (world s))
  end.

Definition mux_rc_inc (o : Z) (s : session) : session :=
  match objects s !! o with Some x => set_objects (<[o := mk_object (o_class x) (o_handle x) (o_refs x + 1)]> (objects s)) s | None => s end.

Definition write_handle (v : sql_arg) (h : Z) (s : session) : session :=
  match v with
  | ObjectArg o => match objects s !! o with Some x => set_objects (<[o := mk_object (o_class x) h (o_refs x)]> (objects s)) s | None => s end
  | _ => s
  end.

Definition require_handle (v : sql_arg) (c : class) (label : string) (s : session) : result Z (list Z) :=
  let refused := Err (octets "invalid " ++ octets label) in
  match v with
  | ObjectArg o =>
      match objects s !! o with
      | Some x => if negb (bool_decide (o_class x = c)) then refused else if o_handle x =? 0 then refused else Ok (o_handle x)
      | None => refused
      end
  | _ => refused
  end.

Definition connection_handle (v : sql_arg) : session -> result Z (list Z) := require_handle v ConnectionClass "sql connection".
Definition transaction_handle (v : sql_arg) : session -> result Z (list Z) := require_handle v TransactionClass "sql transaction".
Definition resultset_handle (v : sql_arg) : session -> result Z (list Z) := require_handle v ResultSetClass "sql result set".
Definition row_handle (v : sql_arg) : session -> result Z (list Z) := require_handle v RowClass "sql row".
Definition pool_handle (v : sql_arg) : session -> result Z (list Z) := require_handle v PoolClass "sql pool".
Definition prepared_handle (v : sql_arg) : session -> result Z (list Z) := require_handle v PreparedClass "sql prepared statement".

(** ** Errors as objects *)

Definition sql_error_value_with_diagnostic (k : SqlErrorKind) (provider operation : string) (f : SqlFailure) (s : session)
    : result Z (list Z) * session :=
  let d := diagnostic f in
  let c := match code d with [] => match sqlstate d with [] => vendor_code d | x => x end | x => x end in
  let '(h, s) := next_handle s in
  let s := set_errors (<[h := mk_error k (detail f) provider c (constraint d) operation]> (errors s)) s in
  create_handle_value h ErrorClass s.

Definition sql_error_value_with_operation (k : SqlErrorKind) (provider : string) (cons : list Z) (operation : string) (m : Detail)
    : session -> result Z (list Z) * session :=
  sql_error_value_with_diagnostic k provider operation (mk_failure m (mk_diagnostic [] [] [] cons) None).

Definition sql_error_value (k : SqlErrorKind) (provider : string) (cons : list Z) (m : Detail) : session -> result Z (list Z) * session :=
  sql_error_value_with_operation k provider cons "" m.

(** [unwrap_or(Value::String(message))]. *)
Definition or_text (r : result Z (list Z) * session) (m : Detail) : answer * session :=
  (Err (match r.1 with Ok o => ErrorObject o | Err _ => ErrorText m end), r.2).

Definition sql_result_err_kind (k : SqlErrorKind) (m : Detail) (s : session) : answer * session :=
  or_text (sql_error_value k "unknown" [] m s) m.
Definition sql_result_err (m : Detail) : session -> answer * session := sql_result_err_kind Database m.
Definition sql_result_invalid (m : Detail) : session -> answer * session := sql_result_err_kind Invalid m.
Definition sql_result_err_context (k : SqlErrorKind) (provider operation : string) (m : Detail) (s : session) : answer * session :=
  or_text (sql_error_value_with_operation k provider [] operation m s) m.
Definition sql_result_err_failure (k : SqlErrorKind) (provider operation : string) (f : SqlFailure) (s : session) : answer * session :=
  let k := match failure_kind f with Some k => k | None => match diagnostic_kind (diagnostic f) with Some k => k | None => k end end in
  or_text (sql_error_value_with_diagnostic k provider operation f s) (detail f).

(** [sql_result_i64_failure_context] and its siblings. *)
Definition failure_context (r : result sql_value SqlFailure * session) (provider : session -> string) (operation : string) : answer * session :=
  match r with
  | (Ok v, s) => (Ok v, s)
  | (Err f, s) => sql_result_err_failure Database (provider s) operation f s
  end.

Definition sql_result_handle (h : Z) (c : class) (s : session) : answer * session :=
  match create_handle_value h c s with
  | (Ok o, s) => (Ok (OfObject o), s)
  | (Err m, s) => sql_result_err (Text m) s
  end.

(** ** Providers *)

Definition connection_provider (h : Z) (s : session) : string :=
  match connections s !! h with Some c => provider_name (provider_of c) | None => "unknown" end.
Definition transaction_provider (h : Z) (s : session) : string :=
  match transactions s !! h with Some t => tx_provider t | None => "unknown" end.
Definition row_provider (h : Z) (s : session) : string :=
  match rows s !! h with Some r => row_provider_name r | None => "unknown" end.
Definition prepared_provider (h : Z) (s : session) : string :=
  match prepared s !! h with Some p => connection_provider (prepared_connection p) s | None => "unknown" end.
Definition pool_provider (h : Z) (s : session) : string := pool_uri_provider h (world s).
Definition resultset_provider (r : SqlResultSet) (s : session) : string :=
  match cursor r with
  | Some (b, _) => provider_name b
  | None =>
      match connection_lease r with
      | Some c => connection_provider c s
      | None =>
          match transaction_lease r with
          | Some t => transaction_provider t s
          | None => match pool_lease r with Some l => pool_provider (lease_pool l) s | None => "unknown" end
          end
      end
  end.

(** ** The tables *)

(** Removing a connection drops it. *)
Definition remove_connection (h : Z) (s : session) : session :=
  match connections s !! h with
  | Some c => set_world (drop_connection c (world s)) (set_connections (delete h (connections s)) s)
  | None => s
  end.

Definition remove_prepared_for_connection (h : Z) (s : session) : session :=
  set_prepared (filter (fun kv => prepared_connection kv.2 <> h) (prepared s)) s.

Definition take_connection (h : Z) (s : session) : result Conn (list Z) * session :=
  match connections s !! h with
  | Some c => (Ok c, set_connections (delete h (connections s)) s)
  | None => (Err (octets "connection handle not found"), s)
  end.

Definition connection_has_active_transaction (h : Z) (s : session) : bool :=
  existsb (fun kv : Z * SqlTransaction => active kv.2 && (tx_connection_handle kv.2 =? h)) (map_to_list (transactions s)).

(** [insert]: an entry that was there is dropped. *)
Definition return_connection (h : Z) (c : Conn) (s : session) : session :=
  let s := remove_connection h s in set_connections (<[h := c]> (connections s)) s.

Definition connection_has_resultset_lease (h : Z) (s : session) : bool :=
  0 <? match connection_leases s !! h with Some n => n | None => 0 end.
Definition transaction_has_resultset_lease (h : Z) (s : session) : bool :=
  0 <? match transaction_leases s !! h with Some n => n | None => 0 end.

(** ** Statements that begin and end transactions *)

Definition commit_connection (c : Conn) (s : session) : result unit SqlFailure * session :=
  let '(r, w) := run_script c (octets match provider_of c with SqlServer => "COMMIT TRANSACTION" | _ => "COMMIT" end) (world s) in (r, set_world w s).
Definition rollback_connection (c : Conn) (s : session) : result unit SqlFailure * session :=
  let '(r, w) := run_script c (octets match provider_of c with SqlServer => "ROLLBACK TRANSACTION" | _ => "ROLLBACK" end) (world s) in (r, set_world w s).

(** [execute_batch_on_connection]: the statements of the script in turn.  The scanner always ends,
    so the last case of the match does not occur. *)
Fixpoint run_statements (c : Conn) (l : list (list Z)) (s : session) : result unit SqlFailure * session :=
  match l with
  | [] => (Ok tt, s)
  | sql :: l =>
      match run_script c sql (world s) with
      | (Ok _, w) => run_statements c l (set_world w s)
      | (Err f, w) => (Err f, set_world w s)
      end
  end.

Definition execute_batch_on_connection (c : Conn) (sql : list Z) (s : session) : result unit SqlFailure * session :=
  match split_sql_batch sql (provider_of c) with
  | Some (Ok l) => run_statements c l s
  | Some (Err e) => (Err (scan_failure e), s)
  | None => (Err (plain "SQL scan did not end"), s)
  end.

Definition finish_transaction_backend (c : Conn) (parent : option (Z * list Z)) (commit : bool) (s : session) : result unit SqlFailure * session :=
  match parent with
  | Some (_, name) =>
      match provider_of c with
      | SqlServer =>
          if commit then (Ok tt, s)
          else let '(r, w) := run_script c (octets "ROLLBACK TRANSACTION " ++ name) (world s) in (r, set_world w s)
      | _ =>
          let release s := execute_batch_on_connection c (octets "RELEASE SAVEPOINT " ++ name) s in
          if commit then release s
          else
            match execute_batch_on_connection c (octets "ROLLBACK TO SAVEPOINT " ++ name) s with
            | (Ok _, s) => release s
            | (Err f, s) => (Err f, s)
            end
      end
  | None => if commit then commit_connection c s else rollback_connection c s
  end.

Definition with_tx_connection (c : option Conn) (t : SqlTransaction) : SqlTransaction :=
  mk_transaction (tx_connection_handle t) (tx_provider t) c (active t) (tx_parent t) (owner t).

(** A connection whose parent is gone is dropped. *)
Definition restore_transaction_connection (t : SqlTransaction) (c : Conn) (s : session) : session :=
  match tx_parent t with
  | Some (p, _) =>
      match transactions s !! p with
      | Some parent => set_transactions (<[p := with_tx_connection (Some c) parent]> (transactions s)) s
      | None => set_world (drop_connection c (world s)) s
      end
  | None => return_connection (tx_connection_handle t) c s
  end.

(** ** Rows that are dropped *)

Definition remove_row (h : Z) (s : session) : session := set_rows (delete h (rows s)) s.
Definition drop_row_handle (h : Z) (s : session) : session := if h =? 0 then s else remove_row h s.

(** The values of a result set are rows: the last reference to one runs [drop_row_handle]. *)
Definition drop_row (o : Z) (s : session) : session :=
  match objects s !! o with
  | None => s
  | Some x =>
      if o_refs x =? 1 then drop_row_handle (o_handle x) (set_objects (delete o (objects s)) s)
      else set_objects (<[o := mk_object (o_class x) (o_handle x) (o_refs x - 1)]> (objects s)) s
  end.
Definition drop_rows (os : list Z) (s : session) : session := foldl (fun s o => drop_row o s) s os.

(** ** Dropping, which can go on to owners: [dec] drops a reference *)

Section Dropping.
Context (dec : Z -> session -> session).

Definition leased_transactions (s : session) : list Z := (filter (fun kv : Z * Z => 0 < kv.2) (map_to_list (transaction_leases s))).*1.

Definition roll_back_and_drop (t : SqlTransaction) (s : session) : session :=
  match tx_connection t with
  | Some c => let s := (rollback_connection c s).2 in set_world (drop_connection c (world s)) s
  | None => s
  end.

Definition remove_transaction_for_connection (h : Z) (s : session) : session :=
  let leased := leased_transactions s in
  let of_connection := filter (fun kv : Z * SqlTransaction => tx_connection_handle kv.2 = h) (map_to_list (transactions s)) in
  let deferred := (filter (fun kv : Z * SqlTransaction => kv.1 ∈ leased) of_connection).*1 in
  let s := set_pending (connection_close_pending s) (transaction_close_pending s ∪ list_to_set deferred) s in
  let removed := filter (fun kv : Z * SqlTransaction => kv.1 ∉ leased) of_connection in
  let s := set_transactions (foldr (fun kv m => delete kv.1 m) (transactions s) removed) s in
  foldl (fun s kv => dec (owner kv.2) (roll_back_and_drop kv.2 s)) s removed.

(** The end of [finish_deferred_transaction] and of [drop_transaction_handle]. *)
Definition end_transaction (t : SqlTransaction) (s : session) : session :=
  let s :=
    match tx_connection t with
    | Some c =>
        match finish_transaction_backend c (tx_parent t) false s with
        | (Ok _, s) => restore_transaction_connection t c s
        | (Err _, s) =>
            let s := (rollback_connection c s).2 in
            let s := remove_transaction_for_connection (tx_connection_handle t) s in
            set_world (drop_connection c (world s)) s
        end
    | None => s
    end in
  dec (owner t) s.

Definition take_transaction (h : Z) (s : session) : option SqlTransaction * session :=
  (transactions s !! h, set_transactions (delete h (transactions s)) s).

Definition finish_deferred_transaction (h : Z) (s : session) : session :=
  if bool_decide (h ∈ transaction_close_pending s) then
    let s := set_pending (connection_close_pending s) (transaction_close_pending s ∖ {[h]}) s in
    match take_transaction h s with
    | (Some t, s) => end_transaction t s
    | (None, s) => s
    end
  else s.

Definition drop_transaction_handle (h : Z) (s : session) : session :=
  if h =? 0 then s
  else if transaction_has_resultset_lease h s then set_pending (connection_close_pending s) ({[h]} ∪ transaction_close_pending s) s
  else
    let s := finish_deferred_transaction h s in
    match take_transaction h s with
    | (Some t, s) => end_transaction t s
    | (None, s) => s
    end.

(** [get_mut] and [remove] on a table of leases: whether the last one went. *)
Definition release_lease (h : Z) (m : gmap Z Z) : bool * gmap Z Z :=
  match m !! h with
  | Some n => if Z.max 0 (n - 1) =? 0 then (true, delete h m) else (false, <[h := Z.max 0 (n - 1)]> m)
  | None => (false, m)
  end.

Definition release_connection_lease (h : Z) (s : session) : session :=
  let '(released, m) := release_lease h (connection_leases s) in
  let s := set_leases m (transaction_leases s) s in
  if released then
    if bool_decide (h ∈ connection_close_pending s) then
      let s := set_pending (connection_close_pending s ∖ {[h]}) (transaction_close_pending s) s in
      remove_connection h (remove_prepared_for_connection h s)
    else s
  else s.

Definition release_transaction_lease (h : Z) (s : session) : session :=
  let '(released, m) := release_lease h (transaction_leases s) in
  let s := set_leases (connection_leases s) m s in
  if released then finish_deferred_transaction h s else s.

Definition release_resultset_leases (c t : option Z) (p : option PoolLease) (s : session) : session :=
  let s := match c with Some c => release_connection_lease c s | None => s end in
  let s := match t with Some t => release_transaction_lease t s | None => s end in
  match p with Some l => set_world (pool_release l (world s)) s | None => s end.

(** A cursor of PostgreSQL or SQL Server that is still open makes the pool drop the
    connection. *)
Definition discarded (r : SqlResultSet) : option PoolLease :=
  match cursor r with
  | Some (Postgres, _) | Some (SqlServer, _) =>
      match pool_lease r with Some l => Some (mk_lease (lease_pool l) (lease_connection l) true) | None => None end
  | _ => pool_lease r
  end.

Definition drop_cursor_of (r : SqlResultSet) (s : session) : session :=
  match cursor r with Some (_, c) => set_world (drop_cursor c (world s)) s | None => s end.

(** The rows and the cursor go with the entry, then the leases. *)
Definition remove_resultset (h : Z) (s : session) : session :=
  match resultsets s !! h with
  | Some r =>
      let s := drop_cursor_of r (drop_rows (ordered_rows r) (set_resultsets (delete h (resultsets s)) s)) in
      release_resultset_leases (connection_lease r) (transaction_lease r) (discarded r) s
  | None => s
  end.

Definition drop_connection_handle (h : Z) (s : session) : session :=
  if h =? 0 then s
  else if connection_has_resultset_lease h s then set_pending ({[h]} ∪ connection_close_pending s) (transaction_close_pending s) s
  else remove_connection h (remove_prepared_for_connection h s).

Definition drop_resultset_handle (h : Z) (s : session) : session := if h =? 0 then s else remove_resultset h s.
Definition drop_prepared_handle (h : Z) (s : session) : session := if h =? 0 then s else set_prepared (delete h (prepared s)) s.
Definition drop_sql_error (h : Z) (s : session) : session := if h =? 0 then s else set_errors (delete h (errors s)) s.

Definition destroy (x : object) (s : session) : session :=
  match o_class x with
  | ConnectionClass => drop_connection_handle (o_handle x) s
  | TransactionClass => drop_transaction_handle (o_handle x) s
  | ResultSetClass => drop_resultset_handle (o_handle x) s
  | RowClass => drop_row_handle (o_handle x) s
  | PreparedClass => drop_prepared_handle (o_handle x) s
  | PoolClass => s
  | ErrorClass => drop_sql_error (o_handle x) s
  end.

End Dropping.

(** [mux_rc_dec]: the last reference runs the destructor, which may drop owners in turn.  Every
    round removes an object, so their number bounds the depth. *)
Fixpoint rc_dec_at (depth : nat) (o : Z) (s : session) : session :=
  match objects s !! o with
  | None => s
  | Some x =>
      if o_refs x =? 1 then
        match depth with
        | O => s
        | S depth => destroy (rc_dec_at depth) x (set_objects (delete o (objects s)) s)
        end
      else set_objects (<[o := mk_object (o_class x) (o_handle x) (o_refs x - 1)]> (objects s)) s
  end.

Definition rc_dec (o : Z) (s : session) : session := rc_dec_at (size (objects s)) o s.

(** ** Storing *)

Definition store_connection (c : Conn) (s : session) : Z * session :=
  let '(h, s) := next_handle s in (h, set_connections (<[h := c]> (connections s)) s).
Definition store_transaction (t : SqlTransaction) (s : session) : Z * session :=
  let '(h, s) := next_handle s in (h, set_transactions (<[h := t]> (transactions s)) s).
Definition store_resultset (r : SqlResultSet) (s : session) : Z * session :=
  let '(h, s) := next_handle s in (h, set_resultsets (<[h := r]> (resultsets s)) s).
Definition store_prepared (p : SqlPrepared) (s : session) : Z * session :=
  let '(h, s) := next_handle s in (h, set_prepared (<[h := p]> (prepared s)) s).

Definition with_leases (c t : option Z) (p : option PoolLease) (r : SqlResultSet) : SqlResultSet :=
  mk_resultset (ordered_rows r) (columns r) (next_ordered_index r) (rs_closed r) (cursor r) c t p.

Definition add_lease (h : Z) (m : gmap Z Z) : gmap Z Z :=
  <[h := match m !! h with Some n => Z.min u64_max (n + 1) | None => 1 end]> m.

Definition store_connection_resultset (r : SqlResultSet) (c : Z) (s : session) : Z * session :=
  let '(h, s) := store_resultset (with_leases (Some c) (transaction_lease r) (pool_lease r) r) s in
  (h, set_leases (add_lease c (connection_leases s)) (transaction_leases s) s).
Definition store_transaction_resultset (r : SqlResultSet) (t : Z) (s : session) : Z * session :=
  let '(h, s) := store_resultset (with_leases (connection_lease r) (Some t) (pool_lease r) r) s in
  (h, set_leases (connection_leases s) (add_lease t (transaction_leases s)) s).
Definition store_pool_resultset (r : SqlResultSet) (l : PoolLease) (s : session) : Z * session :=
  store_resultset (with_leases (connection_lease r) (transaction_lease r) (Some l) r) s.

Definition create_resultset_value (h : Z) (s : session) : result sql_value SqlFailure * session :=
  match create_handle_value h ResultSetClass s with
  | (Ok o, s) => (Ok (OfObject o), s)
  | (Err m, s) => (Err (plain_text m), remove_resultset rc_dec h s)
  end.

Definition store_row (r : SqlRow) (s : session) : result Z SqlFailure * session :=
  let '(h, s) := next_handle s in
  let s := set_rows (<[h := r]> (rows s)) s in
  match create_handle_value h RowClass s with
  | (Ok o, s) => (Ok o, s)
  | (Err m, s) => (Err (plain_text m), remove_row h s)
  end.

Definition materialize_row (provider : string) (cols : list (list Z)) (vs : list value) (s : session) : result Z SqlFailure * session :=
  if negb (length vs =? length cols)%nat then (Err (plain "SQL row value count does not match column count"), s)
  else store_row (mk_row provider cols vs) s.

(** ** Running statements *)

(** What the scanner answers; it always ends, so the last case does not occur. *)
Definition scanned {A} (r : option (result A SqlTextError)) : result A SqlFailure :=
  match r with Some (Ok a) => Ok a | Some (Err e) => Err (scan_failure e) | None => Err (plain "SQL scan did not end") end.

Definition on_world {A} (op : W -> result A SqlFailure * W) (s : session) : result A SqlFailure * session :=
  let '(r, w) := op (world s) in (r, set_world w s).

Definition bind {A B} (r : result A SqlFailure * session) (f : A -> session -> result B SqlFailure * session) : result B SqlFailure * session :=
  match r with (Ok a, s) => f a s | (Err e, s) => (Err e, s) end.

Definition as_value (f : Z -> sql_value) (r : result Z SqlFailure * session) : result sql_value SqlFailure * session :=
  bind r (fun i s => (Ok (f i), s)).
Definition as_unit (r : result unit SqlFailure * session) : result sql_value SqlFailure * session := bind r (fun _ s => (Ok OfUnit, s)).

Definition execute_on_connection (sql : list Z) (params : list SqlParam) (c : Conn) (s : session) : result Z SqlFailure * session :=
  bind (scanned (rewrite_positional_sql sql (provider_of c) (length params)), s) (fun sql s => on_world (run_statement c sql params) s).

Definition execute_named_on_connection (sql : list Z) (named : Named) (c : Conn) (s : session) : result Z SqlFailure * session :=
  bind (scanned (rewrite_named_sql sql (provider_of c) named), s) (fun '(sql, params) s => on_world (run_statement c sql params) s).

Fixpoint check_row_lengths (row_index : nat) (expected : nat) (params : list (list SqlParam)) : result unit SqlFailure :=
  match params with
  | [] => Ok tt
  | p :: params =>
      if (length p =? expected)%nat then check_row_lengths (S row_index) expected params
      else Err (plain_text (octets "SQL execute_many row " ++ decimal 20 (Z.of_nat row_index) ++ octets " has " ++ decimal 20 (Z.of_nat (length p)) ++
             octets " parameter(s), expected " ++ decimal 20 (Z.of_nat expected)))
  end.

Definition execute_many_on_connection (sql : list Z) (params : list (list SqlParam)) (c : Conn) (s : session) : result Z SqlFailure * session :=
  bind (scanned (split_sql_batch sql (provider_of c)), s) (fun statements s =>
  match statements with
  | [statement] =>
      let expected := match params with p :: _ => length p | [] => O end in
      bind (check_row_lengths 0 expected params, s) (fun _ s =>
      bind (scanned (rewrite_positional_sql statement (provider_of c) expected), s) (fun sql s =>
      on_world (run_many c sql params) s))
  | _ => (Err (plain "SQL execute_many requires exactly one statement"), s)
  end).

(** The rows that the driver read at once become row objects. *)
Fixpoint materialize_rows (provider : string) (cols : list (list Z)) (rs : list (list value)) (acc : list Z) (s : session)
    : result (list Z) SqlFailure * session :=
  match rs with
  | [] => (Ok (rev acc), s)
  | vs :: rs =>
      match materialize_row provider cols vs s with
      | (Ok o, s) => materialize_rows provider cols rs (o :: acc) s
      | (Err f, s) => (Err f, drop_rows (rev acc) s)
      end
  end.

Definition open_resultset (c : Conn) (sql : list Z) (params : list SqlParam) (i : interrupt) (s : session) : result SqlResultSet SqlFailure * session :=
  bind (on_world (open_query c sql params i) s) (fun q s =>
  bind (materialize_rows (provider_name (provider_of c)) (op_columns q) (op_rows q) [] s) (fun os s =>
  (Ok (mk_resultset os (op_columns q) 0 false (pair (provider_of c) <$> op_cursor q) None None None), s))).

(** The streaming queries. *)
Definition query_positional (sql : list Z) (params : list SqlParam) (c : Conn) (s : session) : result SqlResultSet SqlFailure * session :=
  bind (scanned (rewrite_positional_sql sql (provider_of c) (length params)), s) (fun sql s => open_resultset c sql params Uninterrupted s).
Definition query_named (sql : list Z) (named : Named) (c : Conn) (s : session) : result SqlResultSet SqlFailure * session :=
  bind (scanned (rewrite_named_sql sql (provider_of c) named), s) (fun '(sql, params) s => open_resultset c sql params Uninterrupted s).

(** Placeholders are rewritten for SQLite and PostgreSQL only. *)
Definition rewrite_interruptible (sql : list Z) (params : list SqlParam) (c : Conn) : result (list Z) SqlFailure :=
  match provider_of c with
  | Sqlite | Postgres => scanned (rewrite_positional_sql sql (provider_of c) (length params))
  | MySql | SqlServer => Ok sql
  end.

Definition query_on_connection_with_timeout (sql : list Z) (params : list SqlParam) (ms : Z) (c : Conn) (s : session) : result SqlResultSet SqlFailure * session :=
  if ms <? 0 then (Err (plain "SQL query timeout must be non-negative"), s)
  else bind (rewrite_interruptible sql params c, s) (fun sql s => open_resultset c sql params (Limited ms) s).
Definition query_on_rewritten_connection_with_timeout (sql : list Z) (params : list SqlParam) (ms : Z) (c : Conn) (s : session)
    : result SqlResultSet SqlFailure * session :=
  if ms <? 0 then (Err (plain "SQL query timeout must be non-negative"), s) else open_resultset c sql params (Limited ms) s.
Definition query_on_connection_with_cancellation (sql : list Z) (params : list SqlParam) (token : Z) (c : Conn) (s : session)
    : result SqlResultSet SqlFailure * session :=
  bind (rewrite_interruptible sql params c, s) (fun sql s => open_resultset c sql params (Cancellable token) s).
Definition query_on_rewritten_connection_with_cancellation (sql : list Z) (params : list SqlParam) (token : Z) (c : Conn) (s : session)
    : result SqlResultSet SqlFailure * session := open_resultset c sql params (Cancellable token) s.

Definition named_with_timeout (sql : list Z) (named : Named) (ms : Z) (c : Conn) (s : session) : result SqlResultSet SqlFailure * session :=
  bind (scanned (rewrite_named_sql sql (provider_of c) named), s) (fun '(sql, ps) s => query_on_rewritten_connection_with_timeout sql ps ms c s).
Definition named_with_cancellation (sql : list Z) (named : Named) (token : Z) (c : Conn) (s : session) : result SqlResultSet SqlFailure * session :=
  bind (scanned (rewrite_named_sql sql (provider_of c) named), s) (fun '(sql, ps) s => query_on_rewritten_connection_with_cancellation sql ps token c s).

(** ** Access to the tables *)

Definition with_connection {R} (h : Z) (op : Conn -> session -> result R SqlFailure * session) (s : session) : result R SqlFailure * session :=
  if connection_has_resultset_lease h s then (Err (plain "sql connection is busy while a result set is open"), s)
  else
    match connections s !! h with
    | None => (Err (plain "invalid sql connection handle"), s)
    | Some c => op c s
    end.

Definition with_transaction {R} (h : Z) (op : SqlTransaction -> session -> result R SqlFailure * session) (s : session) : result R SqlFailure * session :=
  if transaction_has_resultset_lease h s then (Err (plain "sql transaction is busy while a result set is open"), s)
  else
    match transactions s !! h with
    | None => (Err (plain "invalid sql transaction handle"), s)
    | Some t => op t s
    end.

(** The guards of every statement in a transaction. *)
Definition in_transaction {R} (h : Z) (op : Conn -> session -> result R SqlFailure * session) : session -> result R SqlFailure * session :=
  with_transaction h (fun t s =>
    if negb (active t) then (Err (plain "transaction is no longer active"), s)
    else match tx_connection t with None => (Err (plain "transaction connection missing"), s) | Some c => op c s end).

Definition with_prepared {R} (h : Z) (op : SqlPrepared -> session -> result R SqlFailure * session) (s : session) : result R SqlFailure * session :=
  match prepared s !! h with None => (Err (plain "invalid sql prepared statement handle"), s) | Some p => op p s end.

(** A lease goes back to the pool when the operation ends. *)
Definition with_pool_connection {R} (h : Z) (op : Conn -> session -> result R SqlFailure * session) (s : session) : result R SqlFailure * session :=
  bind (on_world (pool_acquire h) s) (fun c s =>
  let '(r, s) := op c s in (r, set_world (pool_release (mk_lease h c false) (world s)) s)).

Definition connection_query (h : Z) (op : Conn -> session -> result SqlResultSet SqlFailure * session) (s : session) : result sql_value SqlFailure * session :=
  bind (with_connection h op s) (fun r s => let '(rs, s) := store_connection_resultset r h s in create_resultset_value rs s).
Definition transaction_query (h : Z) (op : Conn -> session -> result SqlResultSet SqlFailure * session) : session -> result sql_value SqlFailure * session :=
  in_transaction h (fun c s => bind (op c s) (fun r s => let '(rs, s) := store_transaction_resultset r h s in create_resultset_value rs s)).
Definition store_pool_query_result (h : Z) (op : Conn -> session -> result SqlResultSet SqlFailure * session) (s : session) : result sql_value SqlFailure * session :=
  bind (on_world (pool_acquire h) s) (fun c s =>
  match op c s with
  | (Ok r, s) => let '(rs, s) := store_pool_resultset r (mk_lease h c false) s in create_resultset_value rs s
  | (Err f, s) => (Err f, set_world (pool_release (mk_lease h c true) (world s)) s)
  end).

Definition connection_execute_with_params (h : Z) (sql : list Z) (ps : list SqlParam) : session -> result Z SqlFailure * session :=
  with_connection h (execute_on_connection sql ps).
Definition connection_execute_batch (h : Z) (sql : list Z) : session -> result unit SqlFailure * session :=
  with_connection h (fun c => execute_batch_on_connection c sql).
Definition connection_execute_many (h : Z) (sql : list Z) (rs : list (list SqlParam)) : session -> result Z SqlFailure * session :=
  with_connection h (execute_many_on_connection sql rs).
Definition connection_execute_named (h : Z) (sql : list Z) (named : Named) : session -> result Z SqlFailure * session :=
  with_connection h (execute_named_on_connection sql named).
Definition connection_query_with_params (h : Z) (sql : list Z) (ps : list SqlParam) : session -> result sql_value SqlFailure * session :=
  connection_query h (query_positional sql ps).
Definition connection_query_named (h : Z) (sql : list Z) (named : Named) : session -> result sql_value SqlFailure * session :=
  connection_query h (query_named sql named).
Definition connection_query_with_timeout (h : Z) (sql : list Z) (ps : list SqlParam) (ms : Z) : session -> result sql_value SqlFailure * session :=
  connection_query h (query_on_connection_with_timeout sql ps ms).

(** [cancellation_entry(token).map_err(SqlFailure::plain)?]. *)
Definition with_token (token : value) (f : Z -> session -> result sql_value SqlFailure * session) (s : session) : result sql_value SqlFailure * session :=
  match cancellation_entry token (world s) with Ok t => f t s | Err m => (Err (plain_text m), s) end.

Definition connection_query_with_cancellation (h : Z) (sql : list Z) (ps : list SqlParam) (token : value) : session -> result sql_value SqlFailure * session :=
  with_token token (fun t => connection_query h (query_on_connection_with_cancellation sql ps t)).
Definition connection_query_named_with_cancellation (h : Z) (sql : list Z) (named : Named) (token : value) : session -> result sql_value SqlFailure * session :=
  with_token token (fun t => connection_query h (named_with_cancellation sql named t)).

Definition transaction_execute_with_params (h : Z) (sql : list Z) (ps : list SqlParam) : session -> result Z SqlFailure * session :=
  in_transaction h (execute_on_connection sql ps).
Definition transaction_execute_batch (h : Z) (sql : list Z) : session -> result unit SqlFailure * session :=
  in_transaction h (fun c => execute_batch_on_connection c sql).
Definition transaction_execute_many (h : Z) (sql : list Z) (rs : list (list SqlParam)) : session -> result Z SqlFailure * session :=
  in_transaction h (execute_many_on_connection sql rs).
Definition transaction_query_with_params (h : Z) (sql : list Z) (ps : list SqlParam) : session -> result sql_value SqlFailure * session :=
  transaction_query h (query_positional sql ps).
Definition transaction_query_with_timeout (h : Z) (sql : list Z) (ps : list SqlParam) (ms : Z) : session -> result sql_value SqlFailure * session :=
  transaction_query h (query_on_connection_with_timeout sql ps ms).
Definition transaction_query_named_with_timeout (h : Z) (sql : list Z) (named : Named) (ms : Z) : session -> result sql_value SqlFailure * session :=
  transaction_query h (named_with_timeout sql named ms).
Definition transaction_query_with_cancellation (h : Z) (sql : list Z) (ps : list SqlParam) (token : value) : session -> result sql_value SqlFailure * session :=
  with_token token (fun t => transaction_query h (query_on_connection_with_cancellation sql ps t)).
Definition transaction_query_named_with_cancellation (h : Z) (sql : list Z) (named : Named) (token : value) : session -> result sql_value SqlFailure * session :=
  with_token token (fun t => transaction_query h (named_with_cancellation sql named t)).

Definition pool_execute_with_params (h : Z) (sql : list Z) (ps : list SqlParam) : session -> result Z SqlFailure * session :=
  with_pool_connection h (execute_on_connection sql ps).
Definition pool_execute_batch (h : Z) (sql : list Z) : session -> result unit SqlFailure * session :=
  with_pool_connection h (fun c => execute_batch_on_connection c sql).
Definition pool_execute_many (h : Z) (sql : list Z) (rs : list (list SqlParam)) : session -> result Z SqlFailure * session :=
  with_pool_connection h (execute_many_on_connection sql rs).
Definition pool_execute_named (h : Z) (sql : list Z) (named : Named) : session -> result Z SqlFailure * session :=
  with_pool_connection h (execute_named_on_connection sql named).
Definition pool_query_with_params (h : Z) (sql : list Z) (ps : list SqlParam) : session -> result sql_value SqlFailure * session :=
  store_pool_query_result h (query_positional sql ps).
Definition pool_query_named (h : Z) (sql : list Z) (named : Named) : session -> result sql_value SqlFailure * session :=
  store_pool_query_result h (query_named sql named).
Definition pool_query_with_timeout (h : Z) (sql : list Z) (ps : list SqlParam) (ms : Z) : session -> result sql_value SqlFailure * session :=
  store_pool_query_result h (query_on_connection_with_timeout sql ps ms).
Definition pool_query_named_with_timeout (h : Z) (sql : list Z) (named : Named) (ms : Z) : session -> result sql_value SqlFailure * session :=
  store_pool_query_result h (named_with_timeout sql named ms).
Definition pool_query_with_cancellation (h : Z) (sql : list Z) (ps : list SqlParam) (token : value) : session -> result sql_value SqlFailure * session :=
  with_token token (fun t => store_pool_query_result h (query_on_connection_with_cancellation sql ps t)).
Definition pool_query_named_with_cancellation (h : Z) (sql : list Z) (named : Named) (token : value) : session -> result sql_value SqlFailure * session :=
  with_token token (fun t => store_pool_query_result h (named_with_cancellation sql named t)).

(** ** Transactions *)

Definition normalize_isolation (v : list Z) : result string SqlFailure :=
  if bool_decide (v = octets "default") then Ok "default"
  else if bool_decide (v = octets "read_uncommitted") then Ok "read uncommitted"
  else if bool_decide (v = octets "read_committed") then Ok "read committed"
  else if bool_decide (v = octets "repeatable_read") then Ok "repeatable read"
  else if bool_decide (v = octets "serializable") then Ok "serializable"
  else Err (plain_text (octets "unsupported transaction isolation '" ++ v ++
         octets "'; use default, read_uncommitted, read_committed, repeatable_read, or serializable")).

(** [str::to_uppercase] of these ASCII texts. *)
Definition to_uppercase (s : list Z) : list Z := (fun c => if in_range 97 122 c then c - 32 else c) <$> s.

Definition begin_transaction_on_connection_with_options (c : Conn) (isolation : list Z) (read_only deferrable : bool) (s : session)
    : result unit SqlFailure * session :=
  bind (normalize_isolation isolation, s) (fun isolation s =>
  let named := negb (bool_decide (isolation = "default"%string)) in
  match provider_of c with
  | Sqlite =>
      if named || read_only || deferrable
      then (Err (plain "SQLite transaction options support only default isolation and read-write, non-deferrable transactions"), s)
      else on_world (run_script c (octets "BEGIN TRANSACTION")) s
  | Postgres =>
      if deferrable && negb (bool_decide (isolation = "serializable"%string) && read_only)
      then (Err (plain "PostgreSQL deferrable transactions must be serializable and read-only"), s)
      else
        on_world (run_script c (octets "BEGIN" ++ (if named then octets " ISOLATION LEVEL " ++ octets isolation else []) ++
          (if read_only then octets " READ ONLY" else []) ++ (if deferrable then octets " DEFERRABLE" else []))) s
  | MySql =>
      if deferrable then (Err (plain "MySQL does not support deferrable transactions"), s)
      else
        bind (if named then on_world (run_script c (octets "SET TRANSACTION ISOLATION LEVEL " ++ to_uppercase (octets isolation))) s else (Ok tt, s))
        (fun _ s => on_world (run_script c (octets (if read_only then "START TRANSACTION READ ONLY" else "START TRANSACTION"))) s)
  | SqlServer =>
      if read_only || deferrable then (Err (unsupported "SQL Server does not support read-only or deferrable transaction options"), s)
      else
        on_world (run_script c ((if named then octets "SET TRANSACTION ISOLATION LEVEL " ++ to_uppercase (octets isolation) ++ octets ";" else []) ++
          octets "BEGIN TRANSACTION")) s
  end).

Definition begin_transaction_on_connection (c : Conn) : session -> result unit SqlFailure * session :=
  begin_transaction_on_connection_with_options c (octets "default") false false.

Definition finish_transaction (h : Z) (commit : bool) (s : session) : result unit SqlFailure * session :=
  if transaction_has_resultset_lease h s then (Err (plain "sql transaction is busy while a result set is open"), s)
  else
    match take_transaction h s with
    | (None, s) => (Err (plain "invalid sql transaction handle"), s)
    | (Some t, s) =>
        match tx_connection t with
        | None => (Err (plain "transaction has an active nested transaction"), set_transactions (<[h := t]> (transactions s)) s)
        | Some c =>
            match finish_transaction_backend c (tx_parent t) commit s with
            | (Err f, s) => (Err f, set_transactions (<[h := t]> (transactions s)) s)
            | (Ok _, s) => (Ok tt, rc_dec (owner t) (restore_transaction_connection t c s))
            end
        end
    end.

(** The common end of the two functions that begin a transaction. *)
Definition begin_with (v : sql_arg) (h : Z) (provider operation : string) (start : Conn -> session -> result unit SqlFailure * session) (s : session)
    : answer * session :=
  match take_connection h s with
  | (Err _, s) => sql_result_err_context Invalid provider operation (Text (octets "invalid sql connection handle")) s
  | (Ok c, s) =>
      match start c s with
      | (Err f, s) => sql_result_err_failure Database provider operation f (return_connection h c s)
      | (Ok _, s) =>
          let o := match v with ObjectArg o => o | _ => 0 end in
          let '(t, s) := store_transaction (mk_transaction h provider (Some c) true None o) s in
          sql_result_handle t TransactionClass (mux_rc_inc o s)
      end
  end.

Definition mux_sql_connection_begin_transaction (v : sql_arg) (s : session) : answer * session :=
  match connection_handle v s with
  | Err m => sql_result_err (Text m) s
  | Ok h =>
      let provider := connection_provider h s in
      if connection_has_active_transaction h s
      then sql_result_err_context Invalid provider "begin_transaction" (Text (octets "connection already has an active transaction")) s
      else begin_with v h provider "begin_transaction" begin_transaction_on_connection s
  end.

Definition value_to_string (v : option value) : result (list Z) (list Z) :=
  match v with
  | None => Err (octets "string pointer is null")
  | Some (VString t) => Ok (octets t)
  | Some _ => Err (octets "expected string")
  end.

Definition mux_sql_connection_begin_transaction_with_options (v : sql_arg) (isolation read_only deferrable : option value) (s : session) : answer * session :=
  match connection_handle v s with
  | Err m => sql_result_err (Text m) s
  | Ok h =>
      let provider := connection_provider h s in
      let operation := "begin_transaction_with_options"%string in
      let refuse m := sql_result_err_context Invalid provider operation (Text m) s in
      if connection_has_active_transaction h s then refuse (octets "connection already has an active transaction")
      else
        match value_to_string isolation with
        | Err m => refuse m
        | Ok isolation =>
            match read_only with
            | Some (VBool read_only) =>
                match deferrable with
                | Some (VBool deferrable) =>
                    begin_with v h provider operation (fun c => begin_transaction_on_connection_with_options c isolation read_only deferrable) s
                | _ => refuse (octets "deferrable must be a bool")
                end
            | _ => refuse (octets "read_only must be a bool")
            end
        end
  end.

(** A child takes the connection of its parent, which waits for it. *)
Definition begin_nested (o : Z) (provider : string) (parent : Z) (s : session) : result SqlTransaction SqlFailure * session :=
  with_transaction parent (fun t s =>
    match tx_connection t with
    | None => (Err (plain "transaction has an active nested transaction"), s)
    | Some c =>
        let name := octets "mux_nested_" ++ mux_int_to_string (as_i64 (next s)) in
        let s := set_next (next s + 1) s in
        bind (match provider_of c with
              | SqlServer => on_world (run_script c (octets "SAVE TRANSACTION " ++ name)) s
              | _ => execute_batch_on_connection c (octets "SAVEPOINT " ++ name) s
              end) (fun _ s =>
        let s := mux_rc_inc o s in
        let s := set_transactions (<[parent := with_tx_connection None t]> (transactions s)) s in
        (Ok (mk_transaction (tx_connection_handle t) provider (Some c) true (Some (parent, name)) o), s))
    end) s.

Definition mux_sql_transaction_begin_transaction (v : sql_arg) (s : session) : answer * session :=
  let provider := match transaction_handle v s with Ok h => transaction_provider h s | Err _ => "unknown"%string end in
  let o := match v with ObjectArg o => o | _ => 0 end in
  match match transaction_handle v s with Ok parent => begin_nested o provider parent s | Err m => (Err (plain_text m), s) end with
  | (Ok t, s) => let '(h, s) := store_transaction t s in sql_result_handle h TransactionClass s
  | (Err f, s) => sql_result_err_context Database provider "begin_transaction" (detail f) s
  end.

Definition call_transaction (v : sql_arg) (operation : string) (f : Z -> session -> result sql_value SqlFailure * session) (s : session) : answer * session :=
  match transaction_handle v s with
  | Err m => sql_result_err (Text m) s
  | Ok h => failure_context (f h s) (transaction_provider h) operation
  end.

Definition mux_sql_transaction_commit (v : sql_arg) : session -> answer * session := call_transaction v "commit" (fun h s => as_unit (finish_transaction h true s)).
Definition mux_sql_transaction_rollback (v : sql_arg) : session -> answer * session := call_transaction v "rollback" (fun h s => as_unit (finish_transaction h false s)).

Definition savepoint_name (v : option value) : result (list Z) (list Z) :=
  let? name := value_to_string v in
  match name with
  | [] => Err (octets "savepoint name must be between 1 and 128 bytes")
  | first :: rest =>
      if (128 <? length name)%nat then Err (octets "savepoint name must be between 1 and 128 bytes")
      else if negb (is_name_start first) || negb (forallb is_name_byte rest)
      then Err (octets "savepoint name must contain only ASCII letters, digits, and underscores")
      else Ok name
  end.

Definition transaction_savepoint_command (v : sql_arg) (name : option value) (command operation : string) (s : session) : answer * session :=
  match transaction_handle v s with
  | Err m => sql_result_err (Text m) s
  | Ok h =>
      match savepoint_name name with
      | Err m => sql_result_err (Text m) s
      | Ok name =>
          failure_context (as_unit (in_transaction h (fun c s =>
            match provider_of c with
            | SqlServer =>
                if bool_decide (operation = "savepoint"%string) then on_world (run_script c (octets "SAVE TRANSACTION " ++ name)) s
                else if bool_decide (operation = "rollback_to"%string) then on_world (run_script c (octets "ROLLBACK TRANSACTION " ++ name)) s
                else if bool_decide (operation = "release_savepoint"%string) then (Err (unsupported "SQL Server does not support releasing a savepoint"), s)
                else on_world (run_script c (octets command ++ octets " " ++ name)) s
            | _ => on_world (run_script c (octets command ++ octets " " ++ name)) s
            end) s)) (transaction_provider h) operation
      end
  end.

Definition mux_sql_transaction_savepoint (v : sql_arg) (name : option value) : session -> answer * session :=
  transaction_savepoint_command v name "SAVEPOINT" "savepoint".
Definition mux_sql_transaction_rollback_to (v : sql_arg) (name : option value) : session -> answer * session :=
  transaction_savepoint_command v name "ROLLBACK TO SAVEPOINT" "rollback_to".
Definition mux_sql_transaction_release_savepoint (v : sql_arg) (name : option value) : session -> answer * session :=
  transaction_savepoint_command v name "RELEASE SAVEPOINT" "release_savepoint".

(** ** Closing *)

Definition mux_sql_connection_close (v : sql_arg) (s : session) : session :=
  match connection_handle v s with
  | Err _ => s
  | Ok h =>
      if connection_has_resultset_lease h s
      then write_handle v 0 (set_pending ({[h]} ∪ connection_close_pending s) (transaction_close_pending s) s)
      else
        let s := if connection_has_active_transaction h s then remove_transaction_for_connection rc_dec h s else s in
        write_handle v 0 (remove_connection h (remove_prepared_for_connection h s))
  end.

Definition mux_sql_prepared_close (v : sql_arg) (s : session) : session :=
  match prepared_handle v s with
  | Ok h => write_handle v 0 (set_prepared (delete h (prepared s)) s)
  | Err _ => s
  end.

(** ** Result sets *)

Definition with_resultset {R} (h : Z) (op : SqlResultSet -> session -> R * SqlResultSet * session) (s : session) : result R SqlFailure * session :=
  match resultsets s !! h with
  | None => (Err (plain "invalid sql result set handle"), s)
  | Some r => let '(x, r, s) := op r s in (Ok x, set_resultsets (<[h := r]> (resultsets s)) s)
  end.

Definition leases : Type := option Z * option Z * option PoolLease.
Definition no_leases : leases := (None, None, None).

Definition finish_resultset (r : SqlResultSet) (discard_pool : bool) (s : session) : leases * SqlResultSet * session :=
  let p := if discard_pool then discarded r else pool_lease r in
  ((connection_lease r, transaction_lease r, p),
   mk_resultset (ordered_rows r) (columns r) (length (ordered_rows r)) true None None None None,
   drop_cursor_of r s).

(** The next row as an object. *)
Definition resultset_next_row (r : SqlResultSet) (s : session) : result (option Z) SqlFailure * SqlResultSet * session :=
  match cursor r with
  | Some (b, c) =>
      let '(x, cols, w) := fetch c (columns r) (world s) in
      let r := mk_resultset (ordered_rows r) cols (next_ordered_index r) (rs_closed r) (cursor r) (connection_lease r) (transaction_lease r) (pool_lease r) in
      let s := set_world w s in
      match x with
      | Ok (Some vs) =>
          let '(o, s) := materialize_row (provider_name b) cols vs s in
          ((match o with Ok o => Ok (Some o) | Err f => Err f end), r, s)
      | Ok None => (Ok None, r, s)
      | Err f => (Err f, r, s)
      end
  | None =>
      match ordered_rows r !! next_ordered_index r with
      | Some o =>
          (Ok (Some o), mk_resultset (ordered_rows r) (columns r) (S (next_ordered_index r)) (rs_closed r) (cursor r)
             (connection_lease r) (transaction_lease r) (pool_lease r), mux_rc_inc o s)
      | None => (Ok None, r, s)
      end
  end.

Definition resultset_has_active_cursor (r : SqlResultSet) : bool := match cursor r with Some _ => true | None => false end.

(** What the closures of the readers answer: a value and the leases to give back, or a failure with
    its provider. *)
Definition read_answer : Type := result (sql_value * leases) (SqlFailure * string * leases).

Definition fail_reading (f : SqlFailure) (r : SqlResultSet) (s : session) : read_answer * SqlResultSet * session :=
  let provider := resultset_provider r s in
  let '(l, r, s) := finish_resultset r true s in (Err (f, provider, l), r, s).

Definition read_resultset (v : sql_arg) (operation : string) (read : SqlResultSet -> session -> read_answer * SqlResultSet * session) (s : session)
    : answer * session :=
  match resultset_handle v s with
  | Err m => sql_result_err_failure Invalid "unknown" operation (plain_text m) s
  | Ok h =>
      match with_resultset h read s with
      | (Ok (Ok (x, (c, t, p))), s) => (Ok x, release_resultset_leases rc_dec c t p s)
      | (Ok (Err (f, provider, (c, t, p))), s) => sql_result_err_failure Database provider operation f (release_resultset_leases rc_dec c t p s)
      | (Err f, s) => sql_result_err_failure Invalid "unknown" operation f s
      end
  end.

Definition mux_sql_resultset_close (v : sql_arg) (s : session) : answer * session :=
  match resultset_handle v s with
  | Err m => failure_context (Err (plain_text m), s) (fun _ => "unknown"%string) "resultset_close"
  | Ok h =>
      match with_resultset h (fun r s => finish_resultset r true s) s with
      | (Ok (c, t, p), s) => (Ok OfUnit, release_resultset_leases rc_dec c t p s)
      | (Err f, s) => failure_context (Err f, s) (fun _ => "unknown"%string) "resultset_close"
      end
  end.

Definition next_closure (r : SqlResultSet) (s : session) : read_answer * SqlResultSet * session :=
  if rs_closed r then (Ok (OfOptional None, no_leases), r, s)
  else
    match resultset_next_row r s with
    | (Err f, r, s) => fail_reading f r s
    | (Ok x, r, s) =>
        let '(r, s) :=
          match x with
          | Some _ => (r, s)
          | None => (mk_resultset (ordered_rows r) (columns r) (next_ordered_index r) (rs_closed r) None
                       (connection_lease r) (transaction_lease r) (pool_lease r), drop_cursor_of r s)
          end in
        if negb (resultset_has_active_cursor r) && (next_ordered_index r =? length (ordered_rows r))%nat
        then let '(l, r, s) := finish_resultset r false s in (Ok (OfOptional x, l), r, s)
        else (Ok (OfOptional x, no_leases), r, s)
    end.

Definition mux_sql_resultset_next (v : sql_arg) : session -> answer * session := read_resultset v "resultset_next" next_closure.

(** The loops of the readers: rows until the end, an error, or as many as asked for ([None] for
    all).  The answer of the last round says whether the end was met. *)
Fixpoint read_rows (fuel : nat) (limit : option Z) (acc : list Z) (r : SqlResultSet) (s : session)
    : option (result (list Z * bool) SqlFailure * SqlResultSet * session) :=
  match fuel with
  | O => None
  | S fuel =>
      if match limit with Some n => n <=? Z.of_nat (length acc) | None => false end then Some (Ok (rev acc, false), r, s)
      else
        match resultset_next_row r s with
        | (Ok (Some o), r, s) => read_rows fuel limit (o :: acc) r s
        | (Ok None, r, s) => Some (Ok (rev acc, true), r, s)
        | (Err f, r, s) => Some (Err f, r, drop_rows (rev acc) s)
        end
  end.

(** [None] when the loop has not ended: the driver still has rows. *)
Definition rows_closure (fuel : nat) (limit : option Z) (r : SqlResultSet) (s : session) : option (read_answer * SqlResultSet * session) :=
  if rs_closed r then Some (Ok (OfObjects [], no_leases), r, s)
  else if match limit with Some n => n <=? 0 | None => false end then Some (Ok (OfObjects [], no_leases), r, s)
  else
    match read_rows fuel limit [] r s with
    | None => None
    | Some (Err f, r, s) => Some (fail_reading f r s)
    | Some (Ok (os, at_eof), r, s) =>
        if at_eof then let '(l, r, s) := finish_resultset r false s in Some (Ok (OfObjects os, l), r, s)
        else Some (Ok (OfObjects os, no_leases), r, s)
    end.

Definition read_many (v : sql_arg) (operation : string) (fuel : nat) (limit : option Z) (s : session) : option (answer * session) :=
  match resultset_handle v s with
  | Err m => Some (sql_result_err_failure Invalid "unknown" operation (plain_text m) s)
  | Ok h =>
      match resultsets s !! h with
      | None => Some (sql_result_err_failure Invalid "unknown" operation (plain "invalid sql result set handle") s)
      | Some r =>
          match rows_closure fuel limit r s with
          | None => None
          | Some x => Some (read_resultset v operation (fun _ _ => x) s)
          end
      end
  end.

Definition mux_sql_resultset_rows (v : sql_arg) (fuel : nat) : session -> option (answer * session) := read_many v "resultset_rows" fuel None.
Definition mux_sql_resultset_next_batch (v : sql_arg) (limit : Z) (fuel : nat) : session -> option (answer * session) :=
  read_many v "resultset_next_batch" fuel (Some limit).

(** An invalid handle has no columns. *)
Definition mux_sql_resultset_columns (v : sql_arg) (s : session) : list (list Z) :=
  match resultset_handle v s with
  | Ok h => match resultsets s !! h with Some r => columns r | None => [] end
  | Err _ => []
  end.

(** ** Rows *)

Definition mux_sql_row_columns (v : sql_arg) (s : session) : list (list Z) :=
  match row_handle v s with Ok h => match rows s !! h with Some r => row_columns r | None => [] end | Err _ => [] end.
Definition mux_sql_row_values (v : sql_arg) (s : session) : list value :=
  match row_handle v s with Ok h => match rows s !! h with Some r => row_values r | None => [] end | Err _ => [] end.

Definition row_answer (v : sql_arg) (operation : string) (r : result value (list Z)) (s : session) : answer * session :=
  match r with
  | Ok x => (Ok (OfValue x), s)
  | Err m => sql_result_err_context Invalid (match row_handle v s with Ok h => row_provider h s | Err _ => "unknown"%string end) operation (Text m) s
  end.

Definition sql_row (v : sql_arg) (s : session) : result SqlRow (list Z) :=
  let? h := row_handle v s in match rows s !! h with Some r => Ok r | None => Err (octets "invalid sql row handle") end.

Definition mux_sql_row_at (v : sql_arg) (index : Z) (s : session) : answer * session :=
  row_answer v "row_at"
    (let? _ := row_handle v s in
     if index <? 0 then Err (octets "row index must be non-negative")
     else
       let? r := sql_row v s in
       match row_values r !! Z.to_nat index with Some x => Ok x | None => Err (octets "row index is out of bounds") end) s.

Definition mux_sql_row_get (v : sql_arg) (name : option value) (s : session) : answer * session :=
  row_answer v "row_get"
    match name with
    | Some (VString n) =>
        let? r := sql_row v s in
        match filter (fun cv : list Z * value => cv.1 = octets n) (zip (row_columns r) (row_values r)) with
        | [] => Err (octets "unknown SQL column: " ++ octets n)
        | [cv] => Ok cv.2
        | _ => Err (octets "ambiguous SQL column name: " ++ octets n)
        end
    | _ => Err (octets "row column name must be a string")
    end s.

(** ** Errors *)

Definition error_entry (v : sql_arg) (s : session) : result SqlErrorEntry (list Z) :=
  let? h := require_handle v ErrorClass "sql error" s in
  match errors s !! h with Some e => Ok e | None => Err (octets "invalid sql error handle") end.

Definition sql_error_field_value (v : sql_arg) (get : SqlErrorEntry -> Detail) (s : session) : Detail :=
  match error_entry v s with Ok e => get e | Err m => Text m end.
Definition mux_sql_error_detail (v : sql_arg) : session -> Detail := sql_error_field_value v e_detail.
Definition mux_sql_error_provider (v : sql_arg) : session -> Detail := sql_error_field_value v (fun e => Text (octets (e_provider e))).
Definition mux_sql_error_code (v : sql_arg) : session -> Detail := sql_error_field_value v (fun e => Text (e_code e)).
Definition mux_sql_error_constraint (v : sql_arg) : session -> Detail := sql_error_field_value v (fun e => Text (e_constraint e)).
Definition mux_sql_error_operation (v : sql_arg) : session -> Detail := sql_error_field_value v (fun e => Text (octets (e_operation e))).

(** The category in front of the detail when [decorated]. *)
Definition sql_error_text (v : sql_arg) (decorated : bool) (s : session) : list Z * Detail :=
  match error_entry v s with
  | Ok e => (if decorated then octets (as_str (e_kind e)) ++ octets ": " else [], e_detail e)
  | Err _ => ([], Text (octets "invalid sql error handle"))
  end.
Definition mux_sql_error_message (v : sql_arg) : session -> list Z * Detail := sql_error_text v false.
Definition mux_sql_error_to_string (v : sql_arg) : session -> list Z * Detail := sql_error_text v true.
Definition mux_sql_error_kind (v : sql_arg) (s : session) : Z :=
  kind_number (match error_entry v s with Ok e => e_kind e | Err _ => Invalid end).

Definition mux_sql_error_from_message (m : option value) (s : session) : sql_error * session :=
  let d := match value_to_string m with Ok t => t | Err _ => octets "invalid SQL error detail" end in
  match sql_error_value Database "unknown" [] (Text d) s with
  | (Ok o, s) => (ErrorObject o, s)
  | (Err _, s) => (ErrorText (Text (octets "could not allocate SQL error")), s)
  end.

(** ** Calls on connections, transactions, statements and pools *)

Definition call_connection (v : sql_arg) (operation : string) (f : Z -> session -> result sql_value SqlFailure * session) (s : session) : answer * session :=
  match connection_handle v s with
  | Err m => sql_result_err (Text m) s
  | Ok h => failure_context (f h s) (connection_provider h) operation
  end.
Definition call_prepared (v : sql_arg) (operation : string) (f : Z -> session -> result sql_value SqlFailure * session) (s : session) : answer * session :=
  match prepared_handle v s with
  | Err m => sql_result_err (Text m) s
  | Ok h => failure_context (f h s) (prepared_provider h) operation
  end.

(** Arguments as the calls read them. *)
Definition text_of (v : option value) : result (list Z) SqlFailure := match value_to_string v with Ok t => Ok t | Err m => Err (plain_text m) end.
Definition scan_result {A} (r : result A SqlTextError) : result A SqlFailure := match r with Ok a => Ok a | Err e => Err (scan_failure e) end.
Definition params_of (v : option value) : result (list SqlParam) SqlFailure := scan_result (value_list_to_sql_params v).
Definition named_of (v : option value) : result Named SqlFailure := scan_result (value_map_to_named_params v).
Definition rows_of (v : option value) : result (list (list SqlParam)) SqlFailure := scan_result (value_list_to_sql_param_rows v).
Definition both {A B} (a : result A SqlFailure) (b : result B SqlFailure) : result (A * B) SqlFailure := let? x := a in let? y := b in Ok (x, y).
Definition given {A R} (a : result A SqlFailure) (f : A -> session -> result R SqlFailure * session) (s : session) : result R SqlFailure * session :=
  bind (a, s) f.

Definition mux_sql_connection_capabilities (v : sql_arg) (s : session) : answer * session :=
  match connection_handle v s with
  | Err m => sql_result_err_kind Invalid (Text m) s
  | Ok h => (Ok (OfCapabilities (sql_capabilities_value (connection_provider h s))), s)
  end.

Definition mux_sql_connection_prepare (v : sql_arg) (sql : option value) (s : session) : answer * session :=
  match connection_handle v s with
  | Err m => sql_result_err (Text m) s
  | Ok h =>
      let refuse d s := sql_result_err_context Invalid (connection_provider h s) "prepare" d s in
      if connection_has_resultset_lease h s then refuse (Text (octets "sql connection is busy while a result set is open")) s
      else
        match value_to_string sql with
        | Err m => refuse (Text m) s
        | Ok statement =>
            match str_trim statement with
            | [] => refuse (Text (octets "SQL statement must not be empty")) s
            | _ =>
                match validate_sql_size statement with
                | Err e => refuse (Scan e) s
                | Ok _ =>
                    let '(p, s) := store_prepared (mk_prepared h statement) s in
                    match create_handle_value p PreparedClass s with
                    | (Ok o, s) => (Ok (OfObject o), s)
                    | (Err m, s) => refuse (Text m) s
                    end
                end
            end
        end
  end.

Definition mux_sql_connection_execute (v : sql_arg) (sql : option value) : session -> answer * session :=
  call_connection v "execute" (fun h => given (text_of sql) (fun t s => as_value OfInt (connection_execute_with_params h t [] s))).
Definition mux_sql_connection_execute_batch (v : sql_arg) (sql : option value) : session -> answer * session :=
  call_connection v "execute_batch" (fun h => given (text_of sql) (fun t s => as_unit (connection_execute_batch h t s))).
Definition mux_sql_connection_execute_many (v : sql_arg) (sql ps : option value) : session -> answer * session :=
  call_connection v "execute_many" (fun h => given (both (text_of sql) (rows_of ps)) (fun '(t, ps) s => as_value OfInt (connection_execute_many h t ps s))).
Definition mux_sql_connection_execute_params (v : sql_arg) (sql ps : option value) : session -> answer * session :=
  call_connection v "execute_params" (fun h => given (both (text_of sql) (params_of ps)) (fun '(t, ps) s => as_value OfInt (connection_execute_with_params h t ps s))).
Definition mux_sql_connection_execute_named (v : sql_arg) (sql ps : option value) : session -> answer * session :=
  call_connection v "execute_named" (fun h => given (both (text_of sql) (named_of ps)) (fun '(t, ps) s => as_value OfInt (connection_execute_named h t ps s))).
Definition mux_sql_connection_query (v : sql_arg) (sql : option value) : session -> answer * session :=
  call_connection v "query" (fun h => given (text_of sql) (fun t => connection_query_with_params h t [])).
Definition mux_sql_connection_query_params (v : sql_arg) (sql ps : option value) : session -> answer * session :=
  call_connection v "query_params" (fun h => given (both (text_of sql) (params_of ps)) (fun '(t, ps) => connection_query_with_params h t ps)).
Definition mux_sql_connection_query_named (v : sql_arg) (sql ps : option value) : session -> answer * session :=
  call_connection v "query_named" (fun h => given (both (text_of sql) (named_of ps)) (fun '(t, ps) => connection_query_named h t ps)).
Definition mux_sql_connection_query_with_timeout (v : sql_arg) (sql : option value) (ms : Z) : session -> answer * session :=
  call_connection v "query_with_timeout" (fun h => given (text_of sql) (fun t => connection_query_with_timeout h t [] ms)).
Definition mux_sql_connection_query_params_with_timeout (v : sql_arg) (sql ps : option value) (ms : Z) : session -> answer * session :=
  call_connection v "query_params_with_timeout" (fun h => given (both (text_of sql) (params_of ps)) (fun '(t, ps) => connection_query_with_timeout h t ps ms)).

(** The text is rewritten for the names first and then as positional again. *)
Definition mux_sql_connection_query_named_with_timeout (v : sql_arg) (sql ps : option value) (ms : Z) : session -> answer * session :=
  call_connection v "query_named_with_timeout" (fun h => given (both (text_of sql) (named_of ps)) (fun '(t, named) s =>
    bind (with_connection h (fun c s => (scanned (rewrite_named_sql t (provider_of c) named), s)) s)
      (fun '(t, ps) s => connection_query_with_timeout h t ps ms s))).
Definition mux_sql_connection_query_with_cancellation (v : sql_arg) (sql : option value) (token : value) : session -> answer * session :=
  call_connection v "query_with_cancellation" (fun h => given (text_of sql) (fun t => connection_query_with_cancellation h t [] token)).
Definition mux_sql_connection_query_params_with_cancellation (v : sql_arg) (sql ps : option value) (token : value) : session -> answer * session :=
  call_connection v "query_params_with_cancellation" (fun h => given (both (text_of sql) (params_of ps)) (fun '(t, ps) => connection_query_with_cancellation h t ps token)).
Definition mux_sql_connection_query_named_with_cancellation (v : sql_arg) (sql ps : option value) (token : value) : session -> answer * session :=
  call_connection v "query_named_with_cancellation" (fun h => given (both (text_of sql) (named_of ps)) (fun '(t, ps) => connection_query_named_with_cancellation h t ps token)).

Definition mux_sql_transaction_execute (v : sql_arg) (sql : option value) : session -> answer * session :=
  call_transaction v "execute" (fun h => given (text_of sql) (fun t s => as_value OfInt (transaction_execute_with_params h t [] s))).
Definition mux_sql_transaction_execute_batch (v : sql_arg) (sql : option value) : session -> answer * session :=
  call_transaction v "execute_batch" (fun h => given (text_of sql) (fun t s => as_unit (transaction_execute_batch h t s))).
Definition mux_sql_transaction_execute_many (v : sql_arg) (sql ps : option value) : session -> answer * session :=
  call_transaction v "execute_many" (fun h => given (both (text_of sql) (rows_of ps)) (fun '(t, ps) s => as_value OfInt (transaction_execute_many h t ps s))).
Definition mux_sql_transaction_execute_params (v : sql_arg) (sql ps : option value) : session -> answer * session :=
  call_transaction v "execute_params" (fun h => given (both (text_of sql) (params_of ps)) (fun '(t, ps) s => as_value OfInt (transaction_execute_with_params h t ps s))).
Definition mux_sql_transaction_execute_named (v : sql_arg) (sql ps : option value) : session -> answer * session :=
  call_transaction v "execute_named" (fun h => given (both (text_of sql) (named_of ps)) (fun '(t, named) s => as_value OfInt (in_transaction h (execute_named_on_connection t named) s))).
Definition mux_sql_transaction_query (v : sql_arg) (sql : option value) : session -> answer * session :=
  call_transaction v "query" (fun h => given (text_of sql) (fun t => transaction_query_with_params h t [])).
Definition mux_sql_transaction_query_params (v : sql_arg) (sql ps : option value) : session -> answer * session :=
  call_transaction v "query_params" (fun h => given (both (text_of sql) (params_of ps)) (fun '(t, ps) => transaction_query_with_params h t ps)).
Definition mux_sql_transaction_query_named (v : sql_arg) (sql ps : option value) : session -> answer * session :=
  call_transaction v "query_named" (fun h => given (both (text_of sql) (named_of ps)) (fun '(t, named) => transaction_query h (query_named t named))).
Definition mux_sql_transaction_query_with_timeout (v : sql_arg) (sql : option value) (ms : Z) : session -> answer * session :=
  call_transaction v "query_with_timeout" (fun h => given (text_of sql) (fun t => transaction_query_with_timeout h t [] ms)).
Definition mux_sql_transaction_query_params_with_timeout (v : sql_arg) (sql ps : option value) (ms : Z) : session -> answer * session :=
  call_transaction v "query_params_with_timeout" (fun h => given (both (text_of sql) (params_of ps)) (fun '(t, ps) => transaction_query_with_timeout h t ps ms)).
Definition mux_sql_transaction_query_named_with_timeout (v : sql_arg) (sql ps : option value) (ms : Z) : session -> answer * session :=
  call_transaction v "query_named_with_timeout" (fun h => given (both (text_of sql) (named_of ps)) (fun '(t, ps) => transaction_query_named_with_timeout h t ps ms)).
Definition mux_sql_transaction_query_with_cancellation (v : sql_arg) (sql : option value) (token : value) : session -> answer * session :=
  call_transaction v "query_with_cancellation" (fun h => given (text_of sql) (fun t => transaction_query_with_cancellation h t [] token)).
Definition mux_sql_transaction_query_params_with_cancellation (v : sql_arg) (sql ps : option value) (token : value) : session -> answer * session :=
  call_transaction v "query_params_with_cancellation" (fun h => given (both (text_of sql) (params_of ps)) (fun '(t, ps) => transaction_query_with_cancellation h t ps token)).
Definition mux_sql_transaction_query_named_with_cancellation (v : sql_arg) (sql ps : option value) (token : value) : session -> answer * session :=
  call_transaction v "query_named_with_cancellation" (fun h => given (both (text_of sql) (named_of ps)) (fun '(t, ps) => transaction_query_named_with_cancellation h t ps token)).

Definition mux_sql_prepared_execute (v : sql_arg) (ps : option value) : session -> answer * session :=
  call_prepared v "prepared_execute" (fun h => given (params_of ps) (fun ps => with_prepared h (fun p s => as_value OfInt (connection_execute_with_params (prepared_connection p) (prepared_sql p) ps s)))).
Definition mux_sql_prepared_execute_named (v : sql_arg) (ps : option value) : session -> answer * session :=
  call_prepared v "prepared_execute_named" (fun h => given (named_of ps) (fun ps => with_prepared h (fun p s => as_value OfInt (connection_execute_named (prepared_connection p) (prepared_sql p) ps s)))).
Definition mux_sql_prepared_query (v : sql_arg) (ps : option value) : session -> answer * session :=
  call_prepared v "prepared_query" (fun h => given (params_of ps) (fun ps => with_prepared h (fun p => connection_query_with_params (prepared_connection p) (prepared_sql p) ps))).
Definition mux_sql_prepared_query_named (v : sql_arg) (ps : option value) : session -> answer * session :=
  call_prepared v "prepared_query_named" (fun h => given (named_of ps) (fun ps => with_prepared h (fun p => connection_query_named (prepared_connection p) (prepared_sql p) ps))).
Definition mux_sql_prepared_query_with_timeout (v : sql_arg) (ps : option value) (ms : Z) : session -> answer * session :=
  call_prepared v "prepared_query_with_timeout" (fun h => given (params_of ps) (fun ps => with_prepared h (fun p => connection_query_with_timeout (prepared_connection p) (prepared_sql p) ps ms))).
Definition mux_sql_prepared_query_named_with_timeout (v : sql_arg) (ps : option value) (ms : Z) : session -> answer * session :=
  call_prepared v "prepared_query_named_with_timeout" (fun h => given (named_of ps) (fun named => with_prepared h (fun p s =>
    bind (with_connection (prepared_connection p) (fun c s => (scanned (rewrite_named_sql (prepared_sql p) (provider_of c) named), s)) s)
      (fun '(t, ps) s => connection_query (prepared_connection p) (query_on_rewritten_connection_with_timeout t ps ms) s)))).
Definition mux_sql_prepared_query_with_cancellation (v : sql_arg) (ps : option value) (token : value) : session -> answer * session :=
  call_prepared v "prepared_query_with_cancellation" (fun h => given (params_of ps) (fun ps => with_prepared h (fun p => connection_query_with_cancellation (prepared_connection p) (prepared_sql p) ps token))).
Definition mux_sql_prepared_query_named_with_cancellation (v : sql_arg) (ps : option value) (token : value) : session -> answer * session :=
  call_prepared v "prepared_query_named_with_cancellation" (fun h => given (named_of ps) (fun ps => with_prepared h (fun p => connection_query_named_with_cancellation (prepared_connection p) (prepared_sql p) ps token))).

(** An argument of a pool call that cannot be read is an error without a provider. *)
Definition call_pool {A} (v : sql_arg) (operation : string) (args : result A SqlFailure) (f : Z -> A -> session -> result sql_value SqlFailure * session)
    (s : session) : answer * session :=
  match pool_handle v s with
  | Err m => sql_result_err (Text m) s
  | Ok h =>
      match args with
      | Err e => sql_result_err (detail e) s
      | Ok a => failure_context (f h a s) (pool_provider h) operation
      end
  end.

Definition mux_sql_pool_capabilities (v : sql_arg) (s : session) : answer * session :=
  match pool_handle v s with
  | Err m => sql_result_err_kind Invalid (Text m) s
  | Ok h => (Ok (OfCapabilities (sql_capabilities_value (pool_provider h s))), s)
  end.
Definition mux_sql_pool_execute (v : sql_arg) (sql : option value) : session -> answer * session :=
  call_pool v "execute" (text_of sql) (fun h t s => as_value OfInt (pool_execute_with_params h t [] s)).
Definition mux_sql_pool_execute_batch (v : sql_arg) (sql : option value) : session -> answer * session :=
  call_pool v "execute_batch" (text_of sql) (fun h t s => as_unit (pool_execute_batch h t s)).
Definition mux_sql_pool_execute_many (v : sql_arg) (sql ps : option value) : session -> answer * session :=
  call_pool v "execute_many" (both (text_of sql) (rows_of ps)) (fun h '(t, ps) s => as_value OfInt (pool_execute_many h t ps s)).
Definition mux_sql_pool_execute_params (v : sql_arg) (sql ps : option value) : session -> answer * session :=
  call_pool v "execute_params" (both (text_of sql) (params_of ps)) (fun h '(t, ps) s => as_value OfInt (pool_execute_with_params h t ps s)).
Definition mux_sql_pool_execute_named (v : sql_arg) (sql ps : option value) : session -> answer * session :=
  call_pool v "execute_named" (both (text_of sql) (named_of ps)) (fun h '(t, ps) s => as_value OfInt (pool_execute_named h t ps s)).
Definition mux_sql_pool_query (v : sql_arg) (sql : option value) : session -> answer * session :=
  call_pool v "query" (text_of sql) (fun h t => pool_query_with_params h t []).
Definition mux_sql_pool_query_params (v : sql_arg) (sql ps : option value) : session -> answer * session :=
  call_pool v "query_params" (both (text_of sql) (params_of ps)) (fun h '(t, ps) => pool_query_with_params h t ps).
Definition mux_sql_pool_query_named (v : sql_arg) (sql ps : option value) : session -> answer * session :=
  call_pool v "query_named" (both (text_of sql) (named_of ps)) (fun h '(t, ps) => pool_query_named h t ps).
Definition mux_sql_pool_query_with_timeout (v : sql_arg) (sql : option value) (ms : Z) : session -> answer * session :=
  call_pool v "query_with_timeout" (text_of sql) (fun h t => pool_query_with_timeout h t [] ms).
Definition mux_sql_pool_query_params_with_timeout (v : sql_arg) (sql ps : option value) (ms : Z) : session -> answer * session :=
  call_pool v "query_params_with_timeout" (both (text_of sql) (params_of ps)) (fun h '(t, ps) => pool_query_with_timeout h t ps ms).
Definition mux_sql_pool_query_named_with_timeout (v : sql_arg) (sql ps : option value) (ms : Z) : session -> answer * session :=
  call_pool v "query_named_with_timeout" (both (text_of sql) (named_of ps)) (fun h '(t, ps) => pool_query_named_with_timeout h t ps ms).
Definition mux_sql_pool_query_with_cancellation (v : sql_arg) (sql : option value) (token : value) : session -> answer * session :=
  call_pool v "query_with_cancellation" (text_of sql) (fun h t => pool_query_with_cancellation h t [] token).
Definition mux_sql_pool_query_params_with_cancellation (v : sql_arg) (sql ps : option value) (token : value) : session -> answer * session :=
  call_pool v "query_params_with_cancellation" (both (text_of sql) (params_of ps)) (fun h '(t, ps) => pool_query_with_cancellation h t ps token).
Definition mux_sql_pool_query_named_with_cancellation (v : sql_arg) (sql ps : option value) (token : value) : session -> answer * session :=
  call_pool v "query_named_with_cancellation" (both (text_of sql) (named_of ps)) (fun h '(t, ps) => pool_query_named_with_cancellation h t ps token).

End Session.
