(* ===== verification/SqlConnect.v ===== *)
(** * Connecting, and the values of rows ([src/src/sql.rs])

    The URIs a connection can be asked for, the options of SQL Server's, the choice of the
    driver, and the conversions of the values that rows hold.  Parsing a URL is [UrlCrate]'s,
    opening a connection the class [SqlDrivers]. *)

From S2P Require Import Prelude AssocList Value Str Utf8 Http Float64 Url Cli CliProps SqlText SqlSession.

(** ** URIs *)

Record SqlServerUri : Type := mk_sqlserver_uri {
  srv_host : text; srv_port : Z; srv_database : list Z; srv_username : option (list Z); srv_password : option (list Z);
  encrypt_tls : bool; verify_tls : bool }.

Definition invalid_text (t : list Z) : SqlFailure := mk_failure (Text t) no_diagnostic (Some Invalid).

Definition hex (b : Z) : option Z :=
  if in_range 48 57 b then Some (b - 48) else if in_range 97 102 b then Some (b - 97 + 10) else if in_range 65 70 b then Some (b - 65 + 10) else None.

(** [None] for an escape that is cut short, [Some None] for one that is not hexadecimal. *)
Fixpoint percent_decoded (bytes : list Z) : option (option (list Z)) :=
  match bytes with
  | [] => Some (Some [])
  | b :: rest =>
      if b =? 37 then
        match rest with
        | high :: low :: rest =>
            match hex high, hex low with
            | Some high, Some low =>
                match percent_decoded rest with Some (Some l) => Some (Some (Z.lor (Z.shiftl high 4) low :: l)) | other => other end
            | _, _ => Some None
            end
        | _ => None
        end
      else match percent_decoded rest with Some (Some l) => Some (Some (b :: l)) | other => other end
  end.

(** The source stops at the first escape it cannot read; so does this, which reads from the left. *)
Definition decode_sqlserver_component (v : text) (field : string) : result (list Z) SqlFailure :=
  match percent_decoded (utf8 v) with
  | None => Err (invalid_text (octets "sqlserver " ++ octets field ++ octets " contains an incomplete percent escape"))
  | Some None => Err (invalid_text (octets "sqlserver " ++ octets field ++ octets " contains an invalid percent escape"))
  | Some (Some l) =>
      if is_utf8 l then Ok l else Err (invalid_text (octets "sqlserver " ++ octets field ++ octets " percent-decoding produced invalid UTF-8"))
  end.

Definition one_of (l : list string) (t : text) : bool := existsb (fun s => text_eqb t (txt s)) l.

Definition parse_sqlserver_bool (v : text) (field : string) : result bool SqlFailure :=
  let v := lower v in
  if one_of ["true"; "yes"; "1"] v then Ok true
  else if one_of ["false"; "no"; "0"] v then Ok false
  else Err (invalid_text (octets "sqlserver " ++ octets field ++ octets " must be true or false")).

(** What the options have said so far. *)
Record tls_options : Type := mk_tls { tls_verify : bool; tls_encrypt : bool; saw_encrypt : bool; saw_trust_server_certificate : bool }.

Fixpoint read_options (pairs : list (text * text)) (o : tls_options) : result tls_options SqlFailure :=
  match pairs with
  | [] => Ok o
  | (key, v) :: pairs =>
      let key := lower key in
      let? o :=
        if one_of ["encrypt"] key then
          if saw_encrypt o then Err (invalid "sqlserver URI must not repeat the encrypt option")
          else let? b := parse_sqlserver_bool v "encrypt" in Ok (mk_tls (tls_verify o) b true (saw_trust_server_certificate o))
        else if one_of ["trustservercertificate"; "trust_server_certificate"] key then
          if saw_trust_server_certificate o then Err (invalid "sqlserver URI must not repeat trustServerCertificate")
          else let? b := parse_sqlserver_bool v "trustServerCertificate" in Ok (mk_tls (tls_verify o && negb b) (tls_encrypt o) (saw_encrypt o) true)
        else if one_of ["insecure"] key then
          let? b := parse_sqlserver_bool v "insecure" in
          Ok (mk_tls (tls_verify o && negb b) (tls_encrypt o) (saw_encrypt o) (saw_trust_server_certificate o))
        else Ok o in
      read_options pairs o
  end.

(** [strip_prefix('[').and_then(strip_suffix(']')).unwrap_or(host)]. *)
Definition without_brackets (host : text) : text :=
  match host with
  | 91 :: rest => match rev rest with 93 :: back => rev back | _ => host end
  | _ => host
  end.

(** [uri.split_once("://")]: what stands before. *)
Fixpoint before_scheme_mark (s : text) : option text :=
  match s with
  | [] => None
  | c :: rest =>
      if starts "://" s then Some [] else match before_scheme_mark rest with Some t => Some (c :: t) | None => None end
  end.

Definition is_sqlserver_uri (uri : text) : bool :=
  match before_scheme_mark uri with
  | Some scheme => eq_ignore_ascii_case scheme (txt "sqlserver") || eq_ignore_ascii_case scheme (txt "mssql")
  | None => false
  end.

(** [uri.get(..n)] counts octets: [None] when the text is shorter or a character is cut. *)
Definition get_prefix (n : nat) (uri : text) : option (list Z) :=
  if (length (utf8 uri) <? n)%nat then None else if is_utf8 (take n (utf8 uri)) then Some (take n (utf8 uri)) else None.

Definition provider_for_uri (uri : text) : string :=
  let has n word := match get_prefix n uri with Some p => text_eqb (lower p) (txt word) | None => false end in
  if starts "sqlite:" uri then "sqlite"
  else if starts "postgres" uri then "postgres"
  else if starts "mysql:" uri || starts "mariadb:" uri then "mysql"
  else if is_sqlserver_uri uri || has 11%nat "sqlserver:"%string || has 7%nat "mssql:"%string then "sqlserver"
  else "unknown".

Section Connect.
Context {W : Type} `{SqlOs W} `{UrlCrate}.

Definition parse_sqlserver_uri (uri : text) : result SqlServerUri SqlFailure :=
  let? parsed := match url_parse uri with Ok u => Ok u | Err m => Err (invalid_text (octets "sqlserver URL parse failed: " ++ utf8 m)) end in
  if negb (one_of ["sqlserver"; "mssql"] (scheme parsed)) then Err (invalid "SQL Server URI must use sqlserver:// or mssql://")
  else
    let? host := match host_str parsed with Some h => Ok h | None => Err (invalid "sqlserver URI must include a host") end in
    match host with
    | [] => Err (invalid "sqlserver URI host must not be empty")
    | _ =>
        let path := match url_path parsed with 47 :: rest => rest | p => p end in
        if match path with [] => true | _ => existsb (Z.eqb 47) path end
        then Err (invalid "sqlserver URI must contain exactly one database path segment")
        else
          let? database := decode_sqlserver_component path "database" in
          match database with
          | [] => Err (invalid "sqlserver database name must not be empty")
          | _ =>
              let? user :=
                match username parsed, password parsed with
                | [], None => Ok None
                | u, _ => let? u := decode_sqlserver_component u "username" in Ok (Some u)
                end in
              let? pass := match password parsed with Some p => let? p := decode_sqlserver_component p "password" in Ok (Some p) | None => Ok None end in
              let? o := read_options (query_pairs parsed) (mk_tls true true false false) in
              Ok (mk_sqlserver_uri (without_brackets host) (match port parsed with Some p => p | None => 1433 end) database user pass
                    (tls_encrypt o) (tls_verify o))
          end
    end.

Definition sql_uri_error_kind (uri : text) : option SqlErrorKind :=
  if is_sqlserver_uri uri then match parse_sqlserver_uri uri with Ok _ => None | Err _ => Some Invalid end
  else if (starts "sqlite://" uri && negb (text_eqb uri (txt "sqlite://:memory:"))) || starts "postgres://" uri || starts "postgresql://" uri
          || starts "mysql://" uri || starts "mariadb://" uri then None
  else Some Unsupported.

(** The drivers' ways in. *)
Class SqlDrivers := {
  sqlite_open : list Z -> W -> result Conn SqlFailure * W;
  sqlite_open_in_memory : W -> result Conn SqlFailure * W;
  postgres_connect : text -> W -> result Conn SqlFailure * W;
  mysql_opts_refused : text -> option (list Z);
  mysql_connect : text -> W -> result Conn SqlFailure * W;
  sqlserver_connect : SqlServerUri -> W -> result Conn SqlFailure * W;
}.

Context `{SqlDrivers}.

Definition route_connect_failure (uri : text) (s : session) : result Conn SqlFailure * session :=
  if text_eqb uri (txt "sqlite::memory:") || text_eqb uri (txt "sqlite://:memory:")
  then (Err (unsupported "in-memory SQLite connections require sql.sqlite_memory()"), s)
  else if starts "sqlite://" uri then on_world (sqlite_open (utf8 (drop 9 uri))) s
  else if starts "postgres://" uri || starts "postgresql://" uri then on_world (postgres_connect uri) s
  else if starts "mysql://" uri || starts "mariadb://" uri then
    match mysql_opts_refused uri with
    | Some m => (Err (invalid_text (octets "mysql url parse failed: " ++ m)), s)
    | None => on_world (mysql_connect uri) s
    end
  else if is_sqlserver_uri uri then
    match parse_sqlserver_uri uri with Ok c => on_world (sqlserver_connect c) s | Err f => (Err f, s) end
  else (Err (mk_failure (Text (octets "unsupported or unrecognised sql uri scheme: " ++ utf8 uri)) no_diagnostic (Some Unsupported)), s).

Definition store_connected (provider : string) (r : result Conn SqlFailure * session) : answer * session :=
  match r with
  | (Ok c, s) => let '(h, s) := store_connection c s in sql_result_handle h ConnectionClass s
  | (Err f, s) => sql_result_err_failure Database provider "connect" f s
  end.

(** [None] for a null pointer.  A kind of [Invalid] is an error of [parse_sqlserver_uri], so the
    [expect_err] of the source does not fail: the last detail below does not occur. *)
Definition mux_sql_connect (uri : option text) (s : session) : answer * session :=
  match uri with
  | None => sql_result_err_context Invalid "unknown" "connect" (Text (octets "sql uri pointer is null")) s
  | Some uri =>
      match sql_uri_error_kind uri with
      | Some k =>
          let d :=
            if bool_decide (k = Invalid) && is_sqlserver_uri uri
            then match parse_sqlserver_uri uri with Err f => detail f | Ok _ => Text [] end
            else Text (octets "unsupported or unrecognised sql URI scheme: " ++ utf8 uri) in
          sql_result_err_context k (provider_for_uri uri) "connect" d s
      | None => store_connected (provider_for_uri uri) (route_connect_failure uri s)
      end
  end.

Definition mux_sql_sqlite_memory (s : session) : answer * session := store_connected "sqlite" (on_world sqlite_open_in_memory s).

(** ** Values *)

(** The whole number a float is, if it is finite and has no fraction. *)
Definition whole (f : f64) : option Z :=
  match of_bits f with
  | SpecFloat.S754_zero _ => Some 0
  | SpecFloat.S754_finite s m e =>
      let m := if s then Z.neg m else Z.pos m in
      if 0 <=? e then Some (Z.shiftl m e) else if (m mod 2 ^ (- e)) =? 0 then Some (m / 2 ^ (- e)) else None
  | _ => None
  end.

Definition sql_value_to_int (v : value) : result Z (list Z) :=
  match v with
  | VInt i => Ok i
  | VBool b => Ok (if b then 1 else 0)
  | VFloat f =>
      if negb (is_finite f) then Err (octets "cannot convert non-finite float to int")
      else
        match whole f with
        | None => Err (octets "cannot convert non-integer float to int")
        | Some i => if (- 2 ^ 63 <=? i) && (i <? 2 ^ 63) then Ok i else Err (octets "cannot convert out-of-range float to int")
        end
  | VString s => match from_str_radix 10 (txt s) with Some i => Ok i | None => Err (octets "cannot parse sql value as int") end
  | VUnit => Err (octets "cannot convert null sql value to int")
  | _ => Err (octets "cannot convert sql value to int")
  end.

Definition sql_value_to_bool (v : value) : result bool (list Z) :=
  match v with
  | VBool b => Ok b
  | VInt i => Ok (negb (i =? 0))
  | VFloat f => Ok (negb (feqb f fzero))
  | VString s =>
      let t := lower (str_trim (octets s)) in
      if one_of ["true"; "t"; "1"; "yes"; "y"] t then Ok true
      else if one_of ["false"; "f"; "0"; "no"; "n"] t then Ok false
      else Err (octets "cannot parse sql value as bool")
  | VUnit => Err (octets "cannot convert null sql value to bool")
  | _ => Err (octets "cannot convert sql value to bool")
  end.

(** [parse_f64] is [str::parse::<f64>]. *)
Definition sql_value_to_float (parse_f64 : list Z -> option f64) (v : value) : result f64 (list Z) :=
  match v with
  | VFloat f => Ok f
  | VInt i => Ok (f64_of_int i)
  | VString s => match parse_f64 (octets s) with Some f => Ok f | None => Err (octets "cannot parse sql value as float") end
  | VBool b => Ok (if b then one else fzero)
  | VUnit => Err (octets "cannot convert null sql value to float")
  | _ => Err (octets "cannot convert sql value to float")
  end.

Definition sql_value_to_bytes (v : value) : result (list Z) (list Z) :=
  match v with
  | VBytes l => Ok l
  | VUnit => Err (octets "cannot convert null sql value to bytes")
  | _ => Err (octets "sql value is not bytes")
  end.

Definition sql_value_to_strict_string (v : value) : result string (list Z) :=
  match v with
  | VString s => Ok s
  | VUnit => Err (octets "cannot convert null sql value to string")
  | _ => Err (octets "sql value is not a string")
  end.

Definition sql_accessor (r : result value (list Z)) (s : session) : answer * session :=
  match r with Ok v => (Ok (OfValue v), s) | Err m => sql_result_invalid (Text m) s end.

Definition access {A} (missing : string) (convert : value -> result A (list Z)) (wrap : A -> value) (v : option value) (s : session) : answer * session :=
  match v with
  | None => sql_result_invalid (Text (octets missing)) s
  | Some v => sql_accessor (match convert v with Ok a => Ok (wrap a) | Err m => Err m end) s
  end.

Definition mux_sql_value_as_int : option value -> session -> answer * session := access "expected an int, found nothing" sql_value_to_int VInt.
Definition mux_sql_value_as_bool : option value -> session -> answer * session := access "expected a bool, found nothing" sql_value_to_bool VBool.
Definition mux_sql_value_as_float (parse_f64 : list Z -> option f64) : option value -> session -> answer * session :=
  access "expected a float, found nothing" (sql_value_to_float parse_f64) VFloat.
Definition mux_sql_value_as_string : option value -> session -> answer * session := access "expected a string, found nothing" sql_value_to_strict_string VString.
Definition mux_sql_value_as_bytes : option value -> session -> answer * session := access "expected bytes, found nothing" sql_value_to_bytes VBytes.

Definition mux_sql_value_is_null (v : option value) : bool := match v with None | Some VUnit => true | _ => false end.
Definition mux_sql_value_bytes (v : option value) : value := match v with Some (VBytes l) => VBytes l | _ => VBytes [] end.

End Connect.

(** ** The options of a SQL Server URI *)

(** Certificates are verified unless an option says otherwise. *)
Lemma read_options_verify pairs o o' : read_options pairs o = Ok o' -> tls_verify o' = true -> tls_verify o = true.
Proof.
  revert o. induction pairs as [|[key v] pairs IH]; intros o; cbn [read_options]; [by intros [= <-]|].
  set (x := if one_of ["encrypt"] (lower key) then _ else _).
  assert (Hx : forall o1, x = Ok o1 -> tls_verify o1 = true -> tls_verify o = true).
  { subst x. intros o1. repeat case_match; try done; try (destruct (parse_sqlserver_bool _ _) as [b|e]; [|done]); cbn; intros [= <-]; cbn; [done| | |done];
      by intros [? _]%andb_true_iff. }
  destruct x as [o1|e]; [|done]. cbn [result_bind]. intros Hr Hv. by apply (Hx o1), (IH o1).
Qed.

(** A prefix of [n] octets is never a text of another length. *)
Lemma get_prefix_never n (word : string) uri : length (txt word) <> n -> match get_prefix n uri with Some p => text_eqb (lower p) (txt word) | None => false end = false.
Proof.
  intros Hn. unfold get_prefix. destruct (Nat.ltb_spec (length (utf8 uri)) n); [done|]. destruct (is_utf8 (take n (utf8 uri))); [|done].
  apply not_true_iff_false. intros He. apply Hn. apply text_eqb_spec in He. rewrite <- He. unfold lower. rewrite length_fmap, length_take. lia.
Qed.

(** Without [://] a URI never belongs to SQL Server: the prefixes [sqlserver:] and [mssql:] are
    compared with one octet too many. *)
Lemma provider_for_uri_sqlserver uri : provider_for_uri uri = "sqlserver"%string -> is_sqlserver_uri uri = true.
Proof.
  unfold provider_for_uri. rewrite !(get_prefix_never _ _ uri) by (vm_compute; discriminate). rewrite !orb_false_r. repeat case_match; done.
Qed.
