(* ===== verification/SqlSessionProps.v ===== *)
(** * Leases of SQL sessions

    [sql_leases_exact]: in every state that calls and drops can lead to, the tables of leases
    count exactly the result sets that are open on each connection and transaction.  So a
    connection or a transaction is busy exactly while one of its result sets is open, and
    nothing is left busy for ever by an error on the way.

    [frame] relates states between which no result set and no lease changed, [ext] a state and
    what may follow it: the counter of handles grows, and the count is exact again.  A result
    set that is being taken away is a debt, which the release of its leases settles
    ([settle]). *)

From S2P Require Import Prelude AssocList Value Str Utf8 Float64 Url Cli SqlText SqlSession SqlConnect.

Section Leases.
Context {W : Type} `{SqlOs W}.
#[local] Abbreviation state := (@session W).
Implicit Types s : state.

(** ** The invariant *)

Definition leased_by (lease : SqlResultSet -> option Z) (k : Z) (m : gmap Z SqlResultSet) : Z :=
  Z.of_nat (size (filter (fun kv : Z * SqlResultSet => lease kv.2 = Some k) m)).

(** No entry stands for zero; [debt] is a lease that is still to be given back. *)
Definition counts (lease : SqlResultSet -> option Z) (debt : option Z) (m : gmap Z SqlResultSet) (leases : gmap Z Z) : Prop :=
  forall k, let n := leased_by lease k m + (if bool_decide (debt = Some k) then 1 else 0) in
  leases !! k = if n =? 0 then None else Some n.

Record good_owing (c t : option Z) (s : state) : Prop := mk_good {
  good_next : 0 < next s;
  good_fresh : forall h r, resultsets s !! h = Some r -> h < next s;
  good_closed : forall h r, resultsets s !! h = Some r -> rs_closed r = true -> connection_lease r = None /\ transaction_lease r = None;
  good_size : Z.of_nat (size (resultsets s)) < next s;
  good_connections : counts connection_lease c (resultsets s) (connection_leases s);
  good_transactions : counts transaction_lease t (resultsets s) (transaction_leases s) }.

Definition good : state -> Prop := good_owing None None.

Definition frame s s' : Prop :=
  resultsets s' = resultsets s /\ connection_leases s' = connection_leases s /\ transaction_leases s' = transaction_leases s /\ next s <= next s'.

Definition ext s s' : Prop := next s <= next s' /\ (next s' <= i64_max -> good s -> good s').

#[export] Instance frame_preorder : PreOrder frame.
Proof. split; [intros s; repeat split; lia|]. intros a b c (?&?&?&?) (?&?&?&?). repeat split; [congruence..|lia]. Qed.

#[export] Instance ext_preorder : PreOrder ext.
Proof.
  split; [by intros s; split; [lia|]|]. intros a b c [? H1] [? H2]. split; [lia|].
  intros Hb Hg. apply H2; [done|]. apply H1; [lia|done].
Qed.

Lemma frame_good c t s s' : frame s s' -> good_owing c t s -> good_owing c t s'.
Proof.
  intros (Er & Ec & Et & Hn) [G1 G2 G6 G3 G4 G5]. split; rewrite ?Er, ?Ec, ?Et; try done; try lia.
  intros h r Hr. specialize (G2 h r Hr). lia.
Qed.

Lemma frame_ext s s' : frame s s' -> ext s s'.
Proof. intros Hf. split; [apply Hf|]. intros _. by apply frame_good. Qed.

(** ** Setters *)

Lemma frame_connections m s : frame s (set_connections m s). Proof. done. Qed.
Lemma frame_transactions m s : frame s (set_transactions m s). Proof. done. Qed.
Lemma frame_rows m s : frame s (set_rows m s). Proof. done. Qed.
Lemma frame_prepared m s : frame s (set_prepared m s). Proof. done. Qed.
Lemma frame_errors m s : frame s (set_errors m s). Proof. done. Qed.
Lemma frame_pending c t s : frame s (set_pending c t s). Proof. done. Qed.
Lemma frame_objects m s : frame s (set_objects m s). Proof. done. Qed.
Lemma frame_world w s : frame s (set_world w s). Proof. done. Qed.

(** [frames] follows the states through a definition: what is known of a call that answers a
    pair is learnt from the hint database, and the ends are joined. *)
Lemma frame_step (R : relation state) `{!PreOrder R} a b c : R b c -> R a b -> R a c.
Proof. intros H1 H2. by transitivity b. Qed.

End Leases.

Create HintDb sql.
#[export] Hint Resolve frame_connections frame_transactions frame_rows frame_prepared frame_errors frame_pending frame_objects frame_world : sql.

Ltac open_matches :=
  repeat match goal with
  | |- context [match ?x with _ => _ end] => let E := fresh "E" in destruct x eqn:E; cbn [fst snd]
  end.

Ltac learn :=
  match goal with
  | E : ?t = (_, ?s') |- ?R _ _ =>
      let Hl := fresh "Hl" in
      assert (Hl : R _ (snd t)) by (solve [eauto 2 with sql nocore]); rewrite E in Hl; cbn [fst snd] in Hl; clear E
  end.

Ltac chain :=
  lazymatch goal with
  | |- ?R ?a ?a => reflexivity
  | Hc : ?R ?b ?c |- ?R ?a ?c => apply (frame_step _ a b c Hc); clear Hc; chain
  | |- ?R ?a ?c => eapply (frame_step R a _ c); [solve [eauto 2 with sql nocore]|]; chain
  end.

Ltac frames := intros; cbn zeta; open_matches; cbn [fst snd]; repeat learn; chain.

Section Frames.
Context {W : Type} `{SqlOs W}.
Implicit Types s : @session W.

Lemma frame_next_handle s : frame s (next_handle s).2.
Proof.
  unfold next_handle. cbn zeta. pose proof (as_i64_range (next s)). case_match eqn:E; (split; [done|]); cbn; [repeat split; lia|].
  apply Z.ltb_ge in E. repeat split; lia.
Qed.
Hint Resolve frame_next_handle : sql.

Lemma frame_create_handle_value h c s : frame s (create_handle_value h c s).2.
Proof. unfold create_handle_value. destruct (allocate (world s)) as [[] w]; done. Qed.
Hint Resolve frame_create_handle_value : sql.

Lemma frame_mux_rc_inc o s : frame s (mux_rc_inc o s).
Proof. unfold mux_rc_inc. frames. Qed.
Lemma frame_write_handle v h s : frame s (write_handle v h s).
Proof. unfold write_handle. frames. Qed.
Lemma frame_error k p o f s : frame s (sql_error_value_with_diagnostic k p o f s).2.
Proof. unfold sql_error_value_with_diagnostic. frames. Qed.
Hint Resolve frame_mux_rc_inc frame_write_handle frame_error : sql.

Lemma frame_err_kind k m s : frame s (sql_result_err_kind k m s).2.
Proof. unfold sql_result_err_kind, or_text, sql_error_value, sql_error_value_with_operation. frames. Qed.
Lemma frame_err m s : frame s (sql_result_err m s).2.
Proof. apply frame_err_kind. Qed.
Lemma frame_err_context k p o m s : frame s (sql_result_err_context k p o m s).2.
Proof. unfold sql_result_err_context, or_text, sql_error_value_with_operation. frames. Qed.
Lemma frame_err_failure k p o f s : frame s (sql_result_err_failure k p o f s).2.
Proof. unfold sql_result_err_failure, or_text. frames. Qed.
Hint Resolve frame_err_kind frame_err frame_err_context frame_err_failure : sql.
Lemma frame_handle h c s : frame s (sql_result_handle h c s).2.
Proof. unfold sql_result_handle. frames. Qed.
Hint Resolve frame_handle : sql.

Lemma frame_remove_connection h s : frame s (remove_connection h s).
Proof. unfold remove_connection. frames. Qed.
Lemma frame_remove_prepared h s : frame s (remove_prepared_for_connection h s).
Proof. unfold remove_prepared_for_connection. frames. Qed.
Lemma frame_take_connection h s : frame s (take_connection h s).2.
Proof. unfold take_connection. frames. Qed.
Hint Resolve frame_remove_connection frame_remove_prepared frame_take_connection : sql.
Lemma frame_return_connection h c s : frame s (return_connection h c s).
Proof. unfold return_connection. frames. Qed.
Hint Resolve frame_return_connection : sql.

Lemma frame_commit c s : frame s (commit_connection c s).2.
Proof. unfold commit_connection. by destruct (run_script _ _ _). Qed.
Lemma frame_rollback c s : frame s (rollback_connection c s).2.
Proof. unfold rollback_connection. by destruct (run_script _ _ _). Qed.
Lemma frame_run_statements c l s : frame s (run_statements c l s).2.
Proof.
  revert s. induction l as [|sql l IH]; intros s; [done|]. cbn [run_statements].
  destruct (run_script c sql (world s)) as [[u|f] w]; [|done]. etrans; [|apply IH]. done.
Qed.
Hint Resolve frame_commit frame_rollback frame_run_statements : sql.
Lemma frame_execute_batch c sql s : frame s (execute_batch_on_connection c sql s).2.
Proof. unfold execute_batch_on_connection. frames. Qed.
Hint Resolve frame_execute_batch : sql.
Lemma frame_finish_backend c p b s : frame s (finish_transaction_backend c p b s).2.
Proof.
  unfold finish_transaction_backend. destruct p as [[p name]|]; [|destruct b; eauto with sql].
  destruct (provider_of c), b; cbn zeta; frames.
Qed.
Lemma frame_restore t c s : frame s (restore_transaction_connection t c s).
Proof. unfold restore_transaction_connection. frames. Qed.
Hint Resolve frame_finish_backend frame_restore : sql.

Lemma frame_drop_row o s : frame s (drop_row o s).
Proof. unfold drop_row, drop_row_handle, remove_row. frames. Qed.
Hint Resolve frame_drop_row : sql.
Lemma frame_drop_rows os s : frame s (drop_rows os s).
Proof. revert s. induction os as [|o os IH]; intros s; [done|]. etrans; [apply frame_drop_row|apply IH]. Qed.
Lemma frame_drop_cursor_of r s : frame s (drop_cursor_of r s).
Proof. unfold drop_cursor_of. frames. Qed.
Hint Resolve frame_drop_rows frame_drop_cursor_of : sql.
Lemma frame_take_transaction h s : frame s (take_transaction h s).2.
Proof. done. Qed.
Lemma frame_roll_back_and_drop t s : frame s (roll_back_and_drop t s).
Proof. unfold roll_back_and_drop. frames. Qed.
Hint Resolve frame_take_transaction frame_roll_back_and_drop : sql.

Lemma frame_store_connection c s : frame s (store_connection c s).2.
Proof. unfold store_connection. frames. Qed.
Lemma frame_store_transaction t s : frame s (store_transaction t s).2.
Proof. unfold store_transaction. frames. Qed.
Lemma frame_store_prepared q s : frame s (store_prepared q s).2.
Proof. unfold store_prepared. frames. Qed.
Lemma frame_store_row r s : frame s (store_row r s).2.
Proof. unfold store_row, remove_row. frames. Qed.
Hint Resolve frame_store_connection frame_store_transaction frame_store_prepared frame_store_row : sql.
Lemma frame_materialize_row p cols vs s : frame s (materialize_row p cols vs s).2.
Proof. unfold materialize_row. frames. Qed.
Hint Resolve frame_materialize_row : sql.
Lemma frame_materialize_rows p cols rs acc s : frame s (materialize_rows p cols rs acc s).2.
Proof.
  revert acc s. induction rs as [|vs rs IH]; intros acc s; [done|]. cbn [materialize_rows].
  destruct (materialize_row p cols vs s) as [[o|f] s1] eqn:E; learn; [etrans; [|apply IH]; done|]. chain.
Qed.
Hint Resolve frame_materialize_rows : sql.

(** Composed calls. *)
Section Composed.
Context {A B : Type}.
Implicit Types (r : result A SqlFailure * @session W).

Lemma frame_on_world (op : W -> result A SqlFailure * W) s : frame s (on_world op s).2.
Proof. unfold on_world. frames. Qed.

Lemma frame_bind r (f : A -> @session W -> result B SqlFailure * @session W) s : frame s r.2 -> (forall a s, frame s (f a s).2) -> frame s (bind r f).2.
Proof. destruct r as [[a|e] s1]; cbn; intros H1 H2; [|done]. etrans; [done|apply H2]. Qed.

Lemma ext_bind r (f : A -> @session W -> result B SqlFailure * @session W) s : ext s r.2 -> (forall a s, ext s (f a s).2) -> ext s (bind r f).2.
Proof. destruct r as [[a|e] s1]; cbn; intros H1 H2; [|done]. etrans; [done|apply H2]. Qed.

End Composed.
Hint Resolve frame_on_world : sql.

Lemma frame_execute sql ps c s : frame s (execute_on_connection sql ps c s).2.
Proof. apply frame_bind; [done|]. eauto with sql. Qed.
Lemma frame_execute_named sql ps c s : frame s (execute_named_on_connection sql ps c s).2.
Proof. apply frame_bind; [done|]. intros [sql' ps'] s'. eauto with sql. Qed.
Lemma frame_execute_many sql ps c s : frame s (execute_many_on_connection sql ps c s).2.
Proof.
  apply frame_bind; [done|]. intros [|statement [|]] s1; [done| |done]. apply frame_bind; [done|]. intros _ s2.
  apply frame_bind; [done|]. eauto with sql.
Qed.
Lemma frame_open c sql ps i s : frame s (open_resultset c sql ps i s).2.
Proof. apply frame_bind; [eauto with sql|]. intros q s1. apply frame_bind; [eauto with sql|]. done. Qed.
Hint Resolve frame_execute frame_execute_named frame_execute_many frame_open : sql.

(** What a query opens has no leases yet. *)
Definition unleased (x : result SqlResultSet SqlFailure * @session W) : Prop :=
  match x.1 with Ok r => rs_closed r = false /\ connection_lease r = None /\ transaction_lease r = None | Err _ => True end.

Lemma unleased_bind {A} (x : result A SqlFailure * @session W) f : (forall a s, unleased (f a s)) -> unleased (bind x f).
Proof. destruct x as [[a|e] s]; [intros Hf; apply Hf|done]. Qed.

Lemma unleased_open c sql ps i s : unleased (open_resultset c sql ps i s).
Proof. apply unleased_bind. intros q s1. apply unleased_bind. done. Qed.

Definition query (q : Conn -> @session W -> result SqlResultSet SqlFailure * @session W) : Prop :=
  forall c s, frame s (q c s).2 /\ unleased (q c s).

Lemma query_open sql ps i : query (fun c s => open_resultset c sql ps i s).
Proof. intros c s. split; [apply frame_open|apply unleased_open]. Qed.
Hint Resolve query_open : sql.

Lemma query_positional_query sql ps : query (query_positional sql ps).
Proof. intros c s. unfold query_positional. destruct (scanned _) as [sql'|e]; [apply query_open|done]. Qed.
Lemma query_named_query sql ps : query (query_named sql ps).
Proof. intros c s. unfold query_named. destruct (scanned _) as [[sql' ps']|e]; [apply query_open|done]. Qed.
Lemma query_rewritten_timeout sql ps ms : query (query_on_rewritten_connection_with_timeout sql ps ms).
Proof. intros c s. unfold query_on_rewritten_connection_with_timeout. case_match; [done|apply query_open]. Qed.
Lemma query_timeout sql ps ms : query (query_on_connection_with_timeout sql ps ms).
Proof.
  intros c s. unfold query_on_connection_with_timeout. case_match; [done|].
  destruct (rewrite_interruptible sql ps c); [apply query_open|done].
Qed.
Lemma query_cancellation sql ps k : query (query_on_connection_with_cancellation sql ps k).
Proof. intros c s. unfold query_on_connection_with_cancellation. destruct (rewrite_interruptible sql ps c); [apply query_open|done]. Qed.
Lemma query_named_timeout sql ps ms : query (named_with_timeout sql ps ms).
Proof. intros c s. unfold named_with_timeout. destruct (scanned _) as [[sql' ps']|e]; [apply query_rewritten_timeout|done]. Qed.
Lemma query_named_cancellation sql ps k : query (named_with_cancellation sql ps k).
Proof. intros c s. unfold named_with_cancellation. destruct (scanned _) as [[sql' ps']|e]; [apply query_open|done]. Qed.

End Frames.

#[export] Hint Resolve frame_next_handle frame_create_handle_value frame_mux_rc_inc frame_write_handle frame_error frame_err_kind frame_err frame_err_context
  frame_err_failure frame_handle frame_remove_connection frame_remove_prepared frame_take_connection frame_return_connection frame_commit frame_rollback
  frame_run_statements frame_execute_batch frame_finish_backend frame_restore frame_drop_row frame_drop_rows frame_drop_cursor_of frame_take_transaction
  frame_roll_back_and_drop frame_store_connection frame_store_transaction frame_store_prepared frame_store_row frame_materialize_row frame_materialize_rows
  frame_on_world frame_execute frame_execute_named frame_execute_many frame_open : sql.
#[export] Hint Resolve query_positional_query query_named_query query_rewritten_timeout query_timeout query_cancellation query_named_timeout
  query_named_cancellation : sql.
#[export] Hint Extern 3 (ext _ _) => (apply frame_ext) : sql.

(** ** Counting *)

Section Counting.
Context (lease : SqlResultSet -> option Z).
Implicit Types (m : gmap Z SqlResultSet) (l : gmap Z Z).

Definition one (o : option Z) (k : Z) : Z := if bool_decide (o = Some k) then 1 else 0.

Lemma leased_insert h r k m : m !! h = None -> leased_by lease k (<[h := r]> m) = one (lease r) k + leased_by lease k m.
Proof.
  intros Hh. unfold leased_by, one. case_bool_decide as E.
  - rewrite map_filter_insert_True by done. rewrite map_size_insert_None; [lia|]. apply map_lookup_filter_None. by left.
  - rewrite map_filter_insert_False by done. rewrite delete_id by done. lia.
Qed.

Lemma leased_delete h r k m : m !! h = Some r -> leased_by lease k m = one (lease r) k + leased_by lease k (delete h m).
Proof. intros Hh. rewrite <- (insert_delete_id m h r Hh) at 1. by rewrite leased_insert by apply lookup_delete_eq. Qed.

Lemma leased_replace h r r' k m : m !! h = Some r -> one (lease r) k + leased_by lease k (<[h := r']> m) = one (lease r') k + leased_by lease k m.
Proof.
  intros Hh. rewrite <- insert_delete_eq. rewrite leased_insert by apply lookup_delete_eq. rewrite (leased_delete h r k m Hh). lia.
Qed.

Lemma leased_bounds k m : 0 <= leased_by lease k m <= Z.of_nat (size m).
Proof. unfold leased_by. split; [lia|]. apply inj_le. apply map_subseteq_size, map_filter_subseteq. Qed.

(** [counts] only depends on the number it names. *)
Lemma counts_same d d' m m' l :
  (forall k, one d k + leased_by lease k m = one d' k + leased_by lease k m') -> counts lease d m l -> counts lease d' m' l.
Proof.
  intros He Hc k. specialize (Hc k). specialize (He k). unfold counts in *. cbn zeta in *.
  fold (one d k) in Hc. fold (one d' k). replace (leased_by lease k m' + one d' k) with (leased_by lease k m + one d k) by lia. done.
Qed.

Lemma counts_delete h r m l : m !! h = Some r -> counts lease None m l -> counts lease (lease r) (delete h m) l.
Proof. intros Hh. apply counts_same. intros k. rewrite (leased_delete h r k m Hh). done. Qed.

Lemma counts_keep h r r' m l : m !! h = Some r -> lease r' = lease r -> counts lease None m l -> counts lease None (<[h := r']> m) l.
Proof. intros Hh He. apply counts_same. intros k. pose proof (leased_replace h r r' k m Hh). rewrite He in *. lia. Qed.

Lemma counts_finish h r r' m l : m !! h = Some r -> lease r' = None -> counts lease None m l -> counts lease (lease r) (<[h := r']> m) l.
Proof. intros Hh He. apply counts_same. intros k. pose proof (leased_replace h r r' k m Hh). rewrite He in *. done. Qed.

Lemma counts_insert_none h r m l : m !! h = None -> lease r = None -> counts lease None m l -> counts lease None (<[h := r]> m) l.
Proof. intros Hh He. apply counts_same. intros k. rewrite leased_insert by done. by rewrite He. Qed.

Lemma counts_insert h r c m l :
  m !! h = None -> lease r = Some c -> Z.of_nat (size m) < u64_max -> counts lease None m l -> counts lease None (<[h := r]> m) (add_lease c l).
Proof.
  intros Hh He Hs Hc k. cbn zeta. rewrite leased_insert by done. pose proof (leased_bounds k m) as Hb. unfold one, add_lease. rewrite He.
  specialize (Hc k) as Hk. cbn zeta in Hk. rewrite Z.add_0_r in *.
  destruct (decide (c = k)) as [->|Hne].
  - rewrite lookup_insert_eq. rewrite bool_decide_true by done. rewrite Hk. rewrite (proj2 (Z.eqb_neq (1 + _) 0)) by lia.
    destruct (leased_by lease k m =? 0) eqn:E; f_equal; [apply Z.eqb_eq in E|]; lia.
  - rewrite lookup_insert_ne by done. rewrite bool_decide_false by congruence. done.
Qed.

Lemma counts_release c m l : counts lease (Some c) m l -> counts lease None m (release_lease c l).2.
Proof.
  intros Hc k. specialize (Hc k) as Hk. specialize (Hc c) as Hcc. cbn zeta in *. pose proof (leased_bounds c m) as Hb. rewrite bool_decide_true in Hcc by done.
  rewrite (proj2 (Z.eqb_neq (_ + 1) 0)) in Hcc by lia. unfold release_lease. rewrite Hcc.
  replace (Z.max 0 (leased_by lease c m + 1 - 1)) with (leased_by lease c m) by lia. change (bool_decide (None = Some k)) with false. cbn iota.
  destruct (decide (c = k)) as [->|Hne].
  - rewrite Z.add_0_r. destruct (leased_by lease k m =? 0); cbn [snd]; [apply lookup_delete_eq|apply lookup_insert_eq].
  - rewrite bool_decide_false in Hk by congruence. rewrite <- Hk.
    destruct (leased_by lease c m =? 0); cbn [snd]; [by apply lookup_delete_ne|by apply lookup_insert_ne].
Qed.

End Counting.

(** ** Debts *)

Section Settling.
Context {W : Type} `{SqlOs W}.
Implicit Types s : @session W.

Definition settles c t s s' : Prop := next s <= next s' /\ (next s' <= i64_max -> good_owing c t s -> good s').

Lemma settles_ext s s' : settles None None s s' <-> ext s s'.
Proof. done. Qed.

Lemma settles_frame c t a b d : frame a b -> settles c t b d -> settles c t a d.
Proof. intros Hf [Hn Hs]. pose proof (frame_good c t a b Hf). destruct Hf as (_ & _ & _ & Hn'). split; [lia|eauto]. Qed.

Lemma settles_then c t a b d : settles c t a b -> ext b d -> settles c t a d.
Proof. intros [H1 H2] [H3 H4]. split; [lia|]. intros Hm Hg. apply H4; [done|]. apply H2; [lia|done]. Qed.

Lemma good_release_connection c t s : good_owing (Some c) t s -> good_owing None t (set_leases (release_lease c (connection_leases s)).2 (transaction_leases s) s).
Proof. intros [G1 G2 G6 G3 G4 G5]. split; try done. by apply counts_release. Qed.
Lemma good_release_transaction c t s : good_owing c (Some t) s -> good_owing c None (set_leases (connection_leases s) (release_lease t (transaction_leases s)).2 s).
Proof. intros [G1 G2 G6 G3 G4 G5]. split; try done. by apply counts_release. Qed.

Lemma good_delete h r s :
  resultsets s !! h = Some r -> good s -> good_owing (connection_lease r) (transaction_lease r) (set_resultsets (delete h (resultsets s)) s).
Proof.
  intros Hr [G1 G2 G6 G3 G4 G5]. split; cbn; try done.
  - intros k x Hx. apply lookup_delete_Some in Hx as [_ Hx]. eauto.
  - intros k x Hx. apply lookup_delete_Some in Hx as [_ Hx]. eauto.
  - rewrite map_size_delete, Hr. lia.
  - by apply counts_delete.
  - by apply counts_delete.
Qed.

Lemma good_keep h r r' s :
  resultsets s !! h = Some r -> connection_lease r' = connection_lease r -> transaction_lease r' = transaction_lease r -> rs_closed r' = rs_closed r ->
  good s -> good (set_resultsets (<[h := r']> (resultsets s)) s).
Proof.
  intros Hr Ec Et El [G1 G2 G6 G3 G4 G5]. split; cbn; try done.
  - intros k x Hx. apply lookup_insert_Some in Hx as [[<- _]|[_ Hx]]; eauto.
  - intros k x Hx. apply lookup_insert_Some in Hx as [[_ <-]|[_ Hx]]; [rewrite Ec, Et, El|]; eauto.
  - by rewrite map_size_insert_Some by eauto.
  - by apply counts_keep with r.
  - by apply counts_keep with r.
Qed.

Lemma good_finish h r r' s :
  resultsets s !! h = Some r -> connection_lease r' = None -> transaction_lease r' = None -> good s ->
  good_owing (connection_lease r) (transaction_lease r) (set_resultsets (<[h := r']> (resultsets s)) s).
Proof.
  intros Hr Ec Et [G1 G2 G6 G3 G4 G5]. split; cbn; try done.
  - intros k x Hx. apply lookup_insert_Some in Hx as [[<- _]|[_ Hx]]; eauto.
  - intros k x Hx. apply lookup_insert_Some in Hx as [[_ <-]|[_ Hx]]; eauto.
  - by rewrite map_size_insert_Some by eauto.
  - by apply counts_finish.
  - by apply counts_finish.
Qed.

Lemma next_handle_good c t s : good_owing c t s -> (next_handle s).2.(next) <= i64_max -> next_handle s = (next s, set_next (next s + 1) s).
Proof.
  intros [G1 _ _ _ _ _]. unfold next_handle. cbn zeta. pose proof (as_i64_range (next s)). case_match eqn:E; cbn; intros Hm.
  - rewrite (as_i64_small (next s)) by width. done.
  - apply Z.ltb_ge in E. rewrite (as_i64_small (next s)) in E by width. lia.
Qed.

Lemma fresh_handle c t s : good_owing c t s -> resultsets s !! next s = None.
Proof. intros [G1 G2 _ _ _ _]. destruct (resultsets s !! next s) as [r|] eqn:E; [|done]. specialize (G2 _ _ E). lia. Qed.

Lemma store_good s r lc lt :
  good s -> next s < i64_max -> rs_closed r = false ->
  counts connection_lease None (<[next s := r]> (resultsets s)) lc -> counts transaction_lease None (<[next s := r]> (resultsets s)) lt ->
  good (set_leases lc lt (set_resultsets (<[next s := r]> (resultsets s)) (set_next (next s + 1) s))).
Proof.
  intros Hg Hm Hl Hc Ht. pose proof (fresh_handle _ _ s Hg) as Hf. destruct Hg as [G1 G2 G6 G3 G4 G5]. split; cbn; try done; try lia.
  - intros k x Hx. apply lookup_insert_Some in Hx as [[<- _]|[_ Hx]]; [lia|]. specialize (G2 _ _ Hx). lia.
  - intros k x Hx. apply lookup_insert_Some in Hx as [[_ <-]|[_ Hx]]; [congruence|eauto].
  - rewrite map_size_insert_None by done. lia.
Qed.

(** A result set that is stored, with what becomes of the two tables of leases. *)
Lemma ext_store r (lc lt : gmap Z Z -> gmap Z Z) s s1 :
  s1 = (store_resultset r s).2 -> rs_closed r = false ->
  (Z.of_nat (size (resultsets s)) < u64_max -> resultsets s !! next s = None -> good s ->
   counts connection_lease None (<[next s := r]> (resultsets s)) (lc (connection_leases s)) /\
   counts transaction_lease None (<[next s := r]> (resultsets s)) (lt (transaction_leases s))) ->
  ext s (set_leases (lc (connection_leases s1)) (lt (transaction_leases s1)) s1).
Proof.
  intros -> Hl Hcounts. unfold store_resultset. pose proof (frame_next_handle s) as Hf. pose proof (next_handle_good None None s) as En.
  destruct (next_handle s) as [h s1]. cbn in *. split; [apply Hf|]. intros Hm Hg. specialize (En Hg Hm). injection En as -> ->. cbn in *.
  destruct (Hcounts ltac:(destruct Hg; width) (fresh_handle _ _ s Hg) Hg). apply store_good; [done|lia|done..].
Qed.

Lemma set_leases_same s : set_leases (connection_leases s) (transaction_leases s) s = s.
Proof. by destruct s. Qed.

Lemma ext_store_connection r c s : rs_closed r = false /\ connection_lease r = None /\ transaction_lease r = None -> ext s (store_connection_resultset r c s).2.
Proof.
  intros (Hl & Hc & Ht). unfold store_connection_resultset. rewrite (surjective_pairing (store_resultset _ s)).
  apply (ext_store (with_leases (Some c) (transaction_lease r) (pool_lease r) r) (add_lease c) (fun l => l)); [done..|]. intros Hs Hf [G1 G2 G6 G3 G4 G5].
  split; [by apply counts_insert|by apply counts_insert_none].
Qed.

Lemma ext_store_transaction r t s : rs_closed r = false /\ connection_lease r = None /\ transaction_lease r = None -> ext s (store_transaction_resultset r t s).2.
Proof.
  intros (Hl & Hc & Ht). unfold store_transaction_resultset. rewrite (surjective_pairing (store_resultset _ s)).
  apply (ext_store (with_leases (connection_lease r) (Some t) (pool_lease r) r) (fun l => l) (add_lease t)); [done..|]. intros Hs Hf [G1 G2 G6 G3 G4 G5].
  split; [by apply counts_insert_none|by apply counts_insert].
Qed.

Lemma ext_store_pool r l s : rs_closed r = false /\ connection_lease r = None /\ transaction_lease r = None -> ext s (store_pool_resultset r l s).2.
Proof.
  intros (Hl & Hc & Ht). rewrite <- (set_leases_same (store_pool_resultset r l s).2).
  apply (ext_store (with_leases (connection_lease r) (transaction_lease r) (Some l) r) (fun l => l) (fun l => l)); [done..|].
  intros Hs Hf [G1 G2 G6 G3 G4 G5]. split; by apply counts_insert_none.
Qed.

End Settling.

#[export] Hint Resolve ext_store_connection ext_store_transaction ext_store_pool : sql.

(** ** Dropping *)

Section Dropping.
Context {W : Type} `{SqlOs W}.
Implicit Types s : @session W.

Section Dec.
Context (dec : Z -> @session W -> @session W) (Hdec : forall o s, ext s (dec o s)).

Lemma ext_roll_back_all (l : list (Z * SqlTransaction)) s : ext s (foldl (fun s kv => dec (owner kv.2) (roll_back_and_drop kv.2 s)) s l).
Proof.
  revert s. induction l as [|kv l IH]; intros s; [reflexivity|]. cbn [foldl].
  etrans; [|apply IH]. etrans; [|apply Hdec]. apply frame_ext, frame_roll_back_and_drop.
Qed.

Lemma ext_remove_transactions h s : ext s (remove_transaction_for_connection dec h s).
Proof. unfold remove_transaction_for_connection. cbn zeta. etrans; [|apply ext_roll_back_all]. apply frame_ext. done. Qed.
Hint Resolve ext_remove_transactions Hdec : sql.

Lemma ext_end_transaction t s : ext s (end_transaction dec t s).
Proof.
  unfold end_transaction. cbn zeta. etrans; [|apply Hdec]. destruct (tx_connection t) as [c|]; [|reflexivity].
  pose proof (frame_finish_backend c (tx_parent t) false s) as Hf. destruct (finish_transaction_backend c (tx_parent t) false s) as [[u|f] s1]; cbn in Hf.
  - apply frame_ext. etrans; [done|apply frame_restore].
  - etrans; [apply frame_ext, Hf|]. etrans; [apply frame_ext, (frame_rollback c)|]. etrans; [apply (ext_remove_transactions (tx_connection_handle t))|].
    apply frame_ext, frame_world.
Qed.

Lemma ext_finish_deferred h s : ext s (finish_deferred_transaction dec h s).
Proof.
  unfold finish_deferred_transaction. case_bool_decide; [|reflexivity]. cbn zeta. destruct (take_transaction h _) as [[t|] s1] eqn:E; injection E as _ <-.
  - etrans; [|apply ext_end_transaction]. apply frame_ext. etrans; [apply frame_pending|apply frame_transactions].
  - apply frame_ext. etrans; [apply frame_pending|apply frame_transactions].
Qed.

Lemma ext_drop_transaction h s : ext s (drop_transaction_handle dec h s).
Proof.
  unfold drop_transaction_handle. case_match; [reflexivity|]. case_match; [apply frame_ext, frame_pending|]. cbn zeta.
  etrans; [apply (ext_finish_deferred h)|]. destruct (take_transaction h _) as [[t|] s1] eqn:E; injection E as _ <-.
  - etrans; [|apply ext_end_transaction]. apply frame_ext, frame_transactions.
  - apply frame_ext, frame_transactions.
Qed.

Lemma frame_release_connection c s :
  frame (set_leases (release_lease c (connection_leases s)).2 (transaction_leases s) s) (release_connection_lease c s).
Proof.
  unfold release_connection_lease. destruct (release_lease c (connection_leases s)) as [b m]. cbn [snd]. cbn zeta. frames.
Qed.

Lemma settles_transaction t s : settles None (Some t) s (release_transaction_lease dec t s).
Proof.
  unfold release_transaction_lease. pose proof (good_release_transaction None t s) as Hg.
  destruct (release_lease t (transaction_leases s)) as [b m]. cbn [snd] in Hg. cbn zeta.
  set (s1 := set_leases (connection_leases s) m s) in *.
  assert (He : ext s1 (if b then finish_deferred_transaction dec t s1 else s1)) by (destruct b; [apply ext_finish_deferred|reflexivity]).
  destruct He as [H1 H2]. split; [done|]. intros Hm Ho. apply H2; [done|]. by apply Hg.
Qed.

Lemma settle c t l s : settles c t s (release_resultset_leases dec c t l s).
Proof.
  unfold release_resultset_leases. cbn zeta. set (s1 := match c with Some c => _ | None => s end).
  assert (H1 : next s <= next s1 /\ (good_owing c t s -> good_owing None t s1)).
  { subst s1. destruct c as [c|]; [|done]. pose proof (frame_release_connection c s) as Hf. split; [by apply Hf|].
    intros Hg. eapply frame_good; [done|]. by apply good_release_connection. }
  assert (H2 : settles None t s1 (match t with Some t => release_transaction_lease dec t s1 | None => s1 end)).
  { destruct t; [apply settles_transaction|done]. }
  eapply settles_then; [|apply frame_ext; destruct l; [apply frame_world|done]].
  destruct H1 as [H1 H1'], H2 as [H2 H2']. split; [lia|]. intros Hm Hg. apply H2'; [done|]. by apply H1'.
Qed.

Lemma ext_remove_resultset h s : ext s (remove_resultset dec h s).
Proof.
  unfold remove_resultset. destruct (resultsets s !! h) as [r|] eqn:E; [|reflexivity]. cbn zeta.
  set (s1 := set_resultsets (delete h (resultsets s)) s).
  assert (Hs : settles (connection_lease r) (transaction_lease r) s1
    (release_resultset_leases dec (connection_lease r) (transaction_lease r) (discarded r) (drop_cursor_of r (drop_rows (ordered_rows r) s1)))).
  { eapply settles_frame; [|apply settle]. etrans; [apply frame_drop_rows|apply frame_drop_cursor_of]. }
  destruct Hs as [H1 H2]. split; [done|]. intros Hm Hg. apply H2; [done|]. by apply good_delete.
Qed.

Lemma ext_destroy x s : ext s (destroy dec x s).
Proof.
  unfold destroy. destruct (o_class x).
  - unfold drop_connection_handle. apply frame_ext. frames.
  - apply ext_drop_transaction.
  - unfold drop_resultset_handle. case_match; [reflexivity|apply ext_remove_resultset].
  - unfold drop_row_handle, remove_row. apply frame_ext. frames.
  - unfold drop_prepared_handle. apply frame_ext. frames.
  - reflexivity.
  - unfold drop_sql_error. apply frame_ext. frames.
Qed.

End Dec.

Lemma ext_rc_dec_at depth o s : ext s (rc_dec_at depth o s).
Proof.
  revert o s. induction depth as [|depth IH]; intros o s; cbn [rc_dec_at]; repeat case_match; try reflexivity; try (apply frame_ext, frame_objects).
  etrans; [apply frame_ext, frame_objects|]. by apply ext_destroy.
Qed.

Lemma ext_rc_dec o s : ext s (rc_dec o s).
Proof. apply ext_rc_dec_at. Qed.

End Dropping.

#[export] Hint Resolve ext_rc_dec : sql.
#[export] Hint Extern 0 (ext ?a ?a) => reflexivity : sql.

(** ** Reading *)

Section Reading.
Context {W : Type} `{SqlOs W}.
Implicit Types s : @session W.

(** A read either keeps the leases of the result set or hands them all out. *)
Definition reads r s (c t : option Z) r' s' : Prop :=
  frame s s' /\
  (c = None /\ t = None /\ connection_lease r' = connection_lease r /\ transaction_lease r' = transaction_lease r /\ rs_closed r' = rs_closed r \/
   c = connection_lease r /\ t = transaction_lease r /\ connection_lease r' = None /\ transaction_lease r' = None).

Lemma reads_settle h r s c t l r' s' :
  resultsets s !! h = Some r -> reads r s c t r' s' ->
  ext s (release_resultset_leases rc_dec c t l (set_resultsets (<[h := r']> (resultsets s')) s')).
Proof.
  intros Hr [Hf Hl]. set (s1 := set_resultsets (<[h := r']> (resultsets s')) s').
  destruct (settle rc_dec ext_rc_dec c t l s1) as [H1 H2]. pose proof Hf as (Er & _ & _ & Hn). split; [cbn in H1; lia|].
  intros Hm Hg. apply H2; [done|]. assert (Hr' : resultsets s' !! h = Some r) by (by rewrite Er). pose proof (frame_good _ _ _ _ Hf Hg) as Hg'.
  destruct Hl as [(-> & -> & Ec & Et & El)|(-> & -> & Ec & Et)]; [by apply good_keep with r|by apply good_finish].
Qed.

Lemma reads_finish r b s : let '(l, r', s') := finish_resultset r b s in reads r s l.1.1 l.1.2 r' s'.
Proof. cbn. split; [apply frame_drop_cursor_of|]. by right. Qed.

Definition kept r r' : Prop := connection_lease r' = connection_lease r /\ transaction_lease r' = transaction_lease r /\ rs_closed r' = rs_closed r.

Lemma next_row_keeps r s : let '(x, r', s') := resultset_next_row r s in frame s s' /\ kept r r'.
Proof.
  unfold resultset_next_row. destruct (cursor r) as [[b c]|].
  - destruct (fetch c (columns r) (world s)) as [[x cols] w]. destruct x as [[vs|]|f]; [|done..].
    pose proof (frame_materialize_row (provider_name b) cols vs (set_world w s)) as Hf. destruct (materialize_row _ _ _ _) as [o s1].
    split; [|done]. etrans; [apply frame_world|exact Hf].
  - destruct (ordered_rows r !! next_ordered_index r); [|done]. split; [apply frame_mux_rc_inc|done].
Qed.

Lemma reads_after r s c t r1 s1 r' s' : frame s s1 -> kept r r1 -> reads r1 s1 c t r' s' -> reads r s c t r' s'.
Proof. intros Hf (Ec & Et & El) [Hf' Hl]. split; [by etrans|]. rewrite <- Ec, <- Et, <- El. done. Qed.

(** What a closure of the readers hands out. *)
Definition handed (x : read_answer) : leases := match x with Ok (_, l) => l | Err (_, _, l) => l end.
Definition reads_answer r s (x : read_answer * SqlResultSet * @session W) : Prop :=
  let '(a, r', s') := x in reads r s (handed a).1.1 (handed a).1.2 r' s'.

Lemma reads_nothing r s (x : sql_value) : reads_answer r s (Ok (x, no_leases), r, s).
Proof. split; [done|]. by left. Qed.

Lemma reads_kept r s r' s' (x : sql_value) : frame s s' -> kept r r' -> reads_answer r s (Ok (x, no_leases), r', s').
Proof. intros Hf (Hc & Ht & Hl). split; [done|]. by left. Qed.

Lemma reads_failure r s r1 s1 f : frame s s1 -> kept r r1 -> reads_answer r s (fail_reading f r1 s1).
Proof.
  intros Hf Hk. unfold fail_reading. pose proof (reads_finish r1 true s1) as Hr. destruct (finish_resultset r1 true s1) as [[l r'] s'].
  by apply (reads_after r s _ _ r1 s1).
Qed.

Lemma reads_next r s : reads_answer r s (next_closure r s).
Proof.
  unfold next_closure. case_match; [apply reads_nothing|]. pose proof (next_row_keeps r s) as Hn.
  destruct (resultset_next_row r s) as [[[x|f] r1] s1]; destruct Hn as [Hf Hk]; [|by apply reads_failure].
  set (y := match x with Some _ => _ | None => _ end). assert (Hy : frame s1 y.2 /\ kept r1 y.1) by (subst y; destruct x; cbn; split; try done; apply frame_drop_cursor_of).
  destruct y as [r2 s2]. cbn in Hy. destruct Hy as [Hf2 Hk2].
  assert (kept r r2) by (unfold kept in *; intuition congruence). assert (Hf' : frame s s2) by by etrans. case_match; [|by apply reads_kept].
  pose proof (reads_finish r2 false s2) as Hr. destruct (finish_resultset r2 false s2) as [[l r'] s']. by apply (reads_after r s _ _ r2 s2).
Qed.

Lemma read_rows_keeps fuel limit acc r s x r' s' : read_rows fuel limit acc r s = Some (x, r', s') -> frame s s' /\ kept r r'.
Proof.
  revert acc r s. induction fuel as [|fuel IH]; intros acc r s; cbn [read_rows]; [done|]. case_match; [by intros [= <- <- <-]|].
  pose proof (next_row_keeps r s) as Hn. destruct (resultset_next_row r s) as [[[[o|]|f] r1] s1]; destruct Hn as [Hf Hk].
  - intros [Hf' Hk']%IH. split; [by etrans|]. unfold kept in *. intuition congruence.
  - by intros [= <- <- <-].
  - intros [= <- <- <-]. split; [|done]. etrans; [done|apply frame_drop_rows].
Qed.

Lemma reads_rows fuel limit r s x : rows_closure fuel limit r s = Some x -> reads_answer r s x.
Proof.
  unfold rows_closure. case_match; [intros [= <-]; apply reads_nothing|]. case_match; [intros [= <-]; apply reads_nothing|].
  destruct (read_rows fuel limit [] r s) as [[[[[os e]|f] r1] s1]|] eqn:E; [| |done]; apply read_rows_keeps in E as [Hf Hk].
  - destruct e; [|intros [= <-]; by apply reads_kept].
    pose proof (reads_finish r1 false s1) as Hr. destruct (finish_resultset r1 false s1) as [[l r'] s']. intros [= <-]. by apply (reads_after r s _ _ r1 s1).
  - intros [= <-]. by apply reads_failure.
Qed.

Lemma ext_read v op read s :
  (forall h r, resultset_handle v s = Ok h -> resultsets s !! h = Some r -> reads_answer r s (read r s)) -> ext s (read_resultset v op read s).2.
Proof.
  intros Hread. unfold read_resultset. destruct (resultset_handle v s) as [h|m]; [|auto with sql]. unfold with_resultset.
  destruct (resultsets s !! h) as [r|] eqn:Er; [|auto with sql]. specialize (Hread h r eq_refl Er).
  destruct (read r s) as [[[[x [[c t] l]]|[[f pr] [[c t] l]]] r'] s']; pose proof (reads_settle h r s c t l r' s' Er Hread) as He; [done|].
  etrans; [exact He|]. auto with sql.
Qed.

Lemma ext_next v s : ext s (mux_sql_resultset_next v s).2.
Proof. apply ext_read. intros h r _ _. apply reads_next. Qed.

Lemma ext_read_many v op fuel limit s x : read_many v op fuel limit s = Some x -> ext s x.2.
Proof.
  unfold read_many. destruct (resultset_handle v s) as [h|m] eqn:Eh; [|intros [= <-]; auto with sql].
  destruct (resultsets s !! h) as [r|] eqn:Er; [|intros [= <-]; auto with sql].
  destruct (rows_closure fuel limit r s) as [y|] eqn:Ey; [|done]. intros [= <-]. apply ext_read. intros h' r' Eh' Er'.
  assert (h' = h) as -> by congruence. assert (r' = r) as -> by congruence. by apply reads_rows in Ey.
Qed.

Lemma ext_resultset_close v s : ext s (mux_sql_resultset_close v s).2.
Proof.
  unfold mux_sql_resultset_close, failure_context. destruct (resultset_handle v s) as [h|m]; [|auto with sql]. unfold with_resultset.
  destruct (resultsets s !! h) as [r|] eqn:Er; [|auto with sql]. pose proof (reads_finish r true s) as Hr.
  destruct (finish_resultset r true s) as [[[[c t] l] r'] s']. exact (reads_settle h r s c t l r' s' Er Hr).
Qed.

(** ** Calls *)

Lemma ext_create_resultset h s : ext s (create_resultset_value h s).2.
Proof.
  unfold create_resultset_value. pose proof (frame_create_handle_value h ResultSetClass s) as Hf. destruct (create_handle_value h ResultSetClass s) as [[o|m] s1].
  - by apply frame_ext.
  - etrans; [apply frame_ext, Hf|]. apply ext_remove_resultset, ext_rc_dec.
Qed.

Lemma ext_failure_context r p o s : ext s r.2 -> ext s (failure_context r p o).2.
Proof. destruct r as [[v|f] s1]; cbn; [done|]. intros He. etrans; [exact He|]. auto with sql. Qed.

(** A query on a connection, in a transaction, on a lease of a pool. *)
Lemma frame_with_connection {R} h op s : (forall c s, frame s (op c s).2) -> frame s (with_connection (R := R) h op s).2.
Proof. intros Hop. unfold with_connection. repeat case_match; done || apply Hop. Qed.

Lemma frame_in_transaction {R} h op s : (forall c s, frame s (op c s).2) -> frame s (in_transaction (R := R) h op s).2.
Proof. intros Hop. unfold in_transaction, with_transaction. repeat case_match; done || apply Hop. Qed.

Lemma frame_with_pool {R} h op s : (forall c s, frame s (op c s).2) -> frame s (with_pool_connection (R := R) h op s).2.
Proof.
  intros Hop. unfold with_pool_connection. apply frame_bind; [apply frame_on_world|]. intros c s1. specialize (Hop c s1).
  destruct (op c s1) as [r s2]. etrans; [exact Hop|apply frame_world].
Qed.

Lemma ext_connection_query h q s : query q -> ext s (connection_query h q s).2.
Proof.
  intros Hq. unfold connection_query. assert (Hu : unleased (with_connection h q s)) by (unfold with_connection; repeat case_match; done || apply Hq).
  pose proof (frame_with_connection h q s (fun c s => proj1 (Hq c s))) as Hf. destruct (with_connection h q s) as [[r|f] s1]; cbn in *; [|by apply frame_ext].
  etrans; [apply frame_ext, Hf|]. pose proof (ext_store_connection r h s1 Hu) as He. destruct (store_connection_resultset r h s1) as [rs s2].
  etrans; [exact He|apply ext_create_resultset].
Qed.

Lemma ext_transaction_query h q s : query q -> ext s (transaction_query h q s).2.
Proof.
  intros Hq. unfold transaction_query, in_transaction, with_transaction. repeat case_match; try reflexivity.
  match goal with |- context [q ?c s] => destruct (Hq c s) as [Hf Hu]; destruct (q c s) as [[r|f] s1] end; cbn in *; [|by apply frame_ext].
  etrans; [apply frame_ext, Hf|]. pose proof (ext_store_transaction r h s1 Hu) as He. destruct (store_transaction_resultset r h s1) as [rs s2].
  etrans; [exact He|apply ext_create_resultset].
Qed.

Lemma ext_pool_query h q s : query q -> ext s (store_pool_query_result h q s).2.
Proof.
  intros Hq. unfold store_pool_query_result. apply ext_bind; [apply frame_ext, frame_on_world|]. intros c s0.
  destruct (Hq c s0) as [Hf Hu]; destruct (q c s0) as [[r|f] s1]; cbn in *.
  - etrans; [apply frame_ext, Hf|]. pose proof (ext_store_pool r (mk_lease h c false) s1 Hu) as He.
    destruct (store_pool_resultset r (mk_lease h c false) s1) as [rs s2]. etrans; [exact He|apply ext_create_resultset].
  - apply frame_ext. etrans; [exact Hf|apply frame_world].
Qed.

Lemma ext_with_token token f s : (forall t s, ext s (f t s).2) -> ext s (with_token token f s).2.
Proof. intros Hf. unfold with_token. case_match; [apply Hf|reflexivity]. Qed.

Lemma ext_given {A R} (a : result A SqlFailure) (f : A -> @session W -> result R SqlFailure * @session W) s :
  (forall x s, ext s (f x s).2) -> ext s (given a f s).2.
Proof. intros Hf. apply ext_bind; [reflexivity|done]. Qed.

Lemma ext_as_value f r s : frame s r.2 -> ext s (as_value (W := W) f r).2.
Proof. intros Hf. apply ext_bind; [by apply frame_ext|]. intros ??. reflexivity. Qed.
Lemma ext_as_unit r s : ext s r.2 -> ext s (as_unit (W := W) r).2.
Proof. intros Hf. apply ext_bind; [done|]. intros ??. reflexivity. Qed.

Lemma ext_call_connection v o f s : (forall h s, ext s (f h s).2) -> ext s (call_connection v o f s).2.
Proof. intros Hf. unfold call_connection. case_match; [apply ext_failure_context, Hf|auto with sql]. Qed.
Lemma ext_call_transaction v o f s : (forall h s, ext s (f h s).2) -> ext s (call_transaction v o f s).2.
Proof. intros Hf. unfold call_transaction. case_match; [apply ext_failure_context, Hf|auto with sql]. Qed.
Lemma ext_call_prepared v o f s : (forall h s, ext s (f h s).2) -> ext s (call_prepared v o f s).2.
Proof. intros Hf. unfold call_prepared. case_match; [apply ext_failure_context, Hf|auto with sql]. Qed.

End Reading.

#[export] Hint Resolve ext_next ext_resultset_close ext_create_resultset : sql.

(** ** Transactions *)

Section Transactions.
Context {W : Type} `{SqlOs W}.
Implicit Types s : @session W.

Lemma frame_counter s : frame s (set_next (next s + 1) s).
Proof. repeat split. cbn. lia. Qed.

Lemma frame_begin_options c iso ro d s : frame s (begin_transaction_on_connection_with_options c iso ro d s).2.
Proof.
  unfold begin_transaction_on_connection_with_options. apply frame_bind; [done|]. intros i s1. cbn zeta.
  destruct (provider_of c); repeat case_match; try done; try apply frame_on_world; apply frame_bind; auto with sql; by intros [].
Qed.
Hint Resolve frame_begin_options : sql.

Lemma ext_finish_transaction h b s : ext s (finish_transaction h b s).2.
Proof.
  unfold finish_transaction. case_match; [reflexivity|]. destruct (take_transaction h s) as [[t|] s1] eqn:E; injection E as _ <-; [|by apply frame_ext].
  set (s1 := set_transactions _ s). assert (Hs : frame s s1) by done. clearbody s1.
  destruct (tx_connection t) as [c|]; [|by apply frame_ext]. pose proof (frame_finish_backend c (tx_parent t) b s1) as Hf.
  destruct (finish_transaction_backend c (tx_parent t) b s1) as [[u|f] s2]; cbn in Hf.
  - etrans; [|apply ext_rc_dec]. apply frame_ext. etrans; [exact Hs|]. etrans; [exact Hf|apply frame_restore].
  - apply frame_ext. etrans; [exact Hs|]. exact Hf.
Qed.

Lemma frame_begin_with v h pr o start s : (forall c s, frame s (start c s).2) -> frame s (begin_with v h pr o start s).2.
Proof.
  intros Hs. unfold begin_with. destruct (take_connection h s) as [[c|m] s1] eqn:E; learn; [|chain].
  specialize (Hs c s1). destruct (start c s1) as [[u|f] s2]; cbn in Hs; [|chain]. cbn zeta.
  match goal with |- context [store_transaction ?t s2] => destruct (store_transaction t s2) as [k s3] eqn:E end. learn. chain.
Qed.

Lemma frame_begin v s : frame s (mux_sql_connection_begin_transaction v s).2.
Proof.
  unfold mux_sql_connection_begin_transaction, begin_transaction_on_connection. repeat case_match; auto with sql. apply frame_begin_with. auto with sql.
Qed.

Lemma frame_begin_with_options v i ro d s : frame s (mux_sql_connection_begin_transaction_with_options v i ro d s).2.
Proof. unfold mux_sql_connection_begin_transaction_with_options. cbn zeta. repeat case_match; auto with sql; apply frame_begin_with; auto with sql. Qed.

Lemma frame_begin_nested v s : frame s (mux_sql_transaction_begin_transaction v s).2.
Proof.
  unfold mux_sql_transaction_begin_transaction. cbn zeta. set (pr := match transaction_handle v s with Ok h => transaction_provider h s | Err _ => _ end). clearbody pr.
  assert (Hn : forall o h, frame s (begin_nested o pr h s).2).
  { intros o h. unfold begin_nested, with_transaction. do 3 (case_match; try done). cbn zeta. apply frame_bind.
    - etrans; [apply frame_counter|]. case_match; auto with sql.
    - intros _ s1. etrans; [apply frame_mux_rc_inc|apply frame_transactions]. }
  destruct (transaction_handle v s) as [h|m]; [|auto with sql]. specialize (Hn (match v with ObjectArg o => o | _ => 0 end) h).
  destruct (begin_nested _ pr h s) as [[t|f] s1]; cbn in Hn; [|chain]. destruct (store_transaction t s1) as [k s2] eqn:E. learn. chain.
Qed.

Lemma ext_connection_close v s : ext s (mux_sql_connection_close v s).
Proof.
  unfold mux_sql_connection_close. case_match; [|reflexivity]. case_match; [apply frame_ext; frames|]. cbn zeta.
  etrans; [|apply frame_ext; etrans; [apply frame_remove_prepared|]; etrans; [apply frame_remove_connection|apply frame_write_handle]].
  case_match; [apply ext_remove_transactions, ext_rc_dec|reflexivity].
Qed.

Lemma ext_savepoint v n c o s : ext s (transaction_savepoint_command v n c o s).2.
Proof.
  unfold transaction_savepoint_command. destruct (transaction_handle v s); [|auto with sql]. destruct (savepoint_name n); [|auto with sql].
  apply ext_failure_context, ext_as_unit, frame_ext, frame_in_transaction.
  intros conn s1. repeat case_match; done || apply frame_on_world.
Qed.

Lemma frame_prepare v sql s : frame s (mux_sql_connection_prepare v sql s).2.
Proof.
  unfold mux_sql_connection_prepare. destruct (connection_handle v s) as [h|m]; [|auto with sql]. cbn zeta. case_match; [auto with sql|].
  destruct (value_to_string sql) as [x|m]; [|auto with sql]. destruct (str_trim x) as [|b t]; [auto with sql|]. destruct (validate_sql_size x); [|auto with sql].
  destruct (store_prepared (mk_prepared h x) s) as [k s1] eqn:E1. learn.
  destruct (create_handle_value k PreparedClass s1) as [[y|m] s2] eqn:E1; learn; chain.
Qed.

Lemma frame_row_answer v o r s : frame s (row_answer v o r s).2.
Proof. unfold row_answer. case_match; auto with sql. reflexivity. Qed.

Lemma frame_error_from_message m s : frame s (mux_sql_error_from_message m s).2.
Proof.
  unfold mux_sql_error_from_message, sql_error_value, sql_error_value_with_operation. cbn zeta.
  match goal with |- context [sql_error_value_with_diagnostic ?a ?b ?c ?d s] =>
    pose proof (frame_error a b c d s) as Hf; destruct (sql_error_value_with_diagnostic a b c d s) as [[x|e] s1] end; done.
Qed.

Lemma ext_call_pool {A} v o (a : result A SqlFailure) f s : (forall h x s, ext s (f h x s).2) -> ext s (call_pool v o a f s).2.
Proof. intros Hf. unfold call_pool. repeat case_match; auto with sql. apply ext_failure_context, Hf. Qed.

Lemma ext_with_prepared {R} h op s : (forall q s, ext s (op q s).2) -> ext s (with_prepared (R := R) h op s).2.
Proof. intros Hop. unfold with_prepared. case_match; [apply Hop|reflexivity]. Qed.

End Transactions.

Ltac head_of t := lazymatch t with ?f _ => head_of f | _ => t end.

(** ** Every call *)

Section Steps.
Context {W : Type} `{SqlOs W} `{UrlCrate} `{!SqlDrivers (W := W)}.
Implicit Types s : @session W.

(** The calls of a program, the references it drops and copies, pools it opens, and whatever the
    databases do by themselves. *)
Inductive step : @session W -> @session W -> Prop :=
| step_world (w : W) s : step s (set_world w s)
| step_drop (o : Z) s : step s (rc_dec o s)
| step_copy (o : Z) s : step s (mux_rc_inc o s)
| step_pool (h : Z) s : step s (create_handle_value h PoolClass s).2
| step_connect (uri : option text) s : step s (mux_sql_connect uri s).2
| step_sqlite_memory s : step s (mux_sql_sqlite_memory s).2
| step_value_as_int (v : option value) s : step s (mux_sql_value_as_int v s).2
| step_value_as_bool (v : option value) s : step s (mux_sql_value_as_bool v s).2
| step_value_as_float parse_f64 (v : option value) s : step s (mux_sql_value_as_float parse_f64 v s).2
| step_value_as_string (v : option value) s : step s (mux_sql_value_as_string v s).2
| step_value_as_bytes (v : option value) s : step s (mux_sql_value_as_bytes v s).2
| step_connection_begin_transaction (v : sql_arg) s : step s (mux_sql_connection_begin_transaction v s).2
| step_connection_begin_transaction_with_options (v : sql_arg) (isolation read_only deferrable : option value) s : step s (mux_sql_connection_begin_transaction_with_options v isolation read_only deferrable s).2
| step_transaction_begin_transaction (v : sql_arg) s : step s (mux_sql_transaction_begin_transaction v s).2
| step_transaction_commit (v : sql_arg) s : step s (mux_sql_transaction_commit v s).2
| step_transaction_rollback (v : sql_arg) s : step s (mux_sql_transaction_rollback v s).2
| step_transaction_savepoint (v : sql_arg) (name : option value) s : step s (mux_sql_transaction_savepoint v name s).2
| step_transaction_rollback_to (v : sql_arg) (name : option value) s : step s (mux_sql_transaction_rollback_to v name s).2
| step_transaction_release_savepoint (v : sql_arg) (name : option value) s : step s (mux_sql_transaction_release_savepoint v name s).2
| step_connection_close (v : sql_arg) s : step s (mux_sql_connection_close v s)
| step_prepared_close (v : sql_arg) s : step s (mux_sql_prepared_close v s)
| step_resultset_close (v : sql_arg) s : step s (mux_sql_resultset_close v s).2
| step_resultset_next (v : sql_arg) s : step s (mux_sql_resultset_next v s).2
| step_resultset_rows (v : sql_arg) (fuel : nat) s x : mux_sql_resultset_rows v fuel s = Some x -> step s x.2
| step_resultset_next_batch (v : sql_arg) (limit : Z) (fuel : nat) s x : mux_sql_resultset_next_batch v limit fuel s = Some x -> step s x.2
| step_row_at (v : sql_arg) (index : Z) s : step s (mux_sql_row_at v index s).2
| step_row_get (v : sql_arg) (name : option value) s : step s (mux_sql_row_get v name s).2
| step_error_from_message (m : option value) s : step s (mux_sql_error_from_message m s).2
| step_connection_capabilities (v : sql_arg) s : step s (mux_sql_connection_capabilities v s).2
| step_connection_prepare (v : sql_arg) (sql : option value) s : step s (mux_sql_connection_prepare v sql s).2
| step_connection_execute (v : sql_arg) (sql : option value) s : step s (mux_sql_connection_execute v sql s).2
| step_connection_execute_batch (v : sql_arg) (sql : option value) s : step s (mux_sql_connection_execute_batch v sql s).2
| step_connection_execute_many (v : sql_arg) (sql ps : option value) s : step s (mux_sql_connection_execute_many v sql ps s).2
| step_connection_execute_params (v : sql_arg) (sql ps : option value) s : step s (mux_sql_connection_execute_params v sql ps s).2
| step_connection_execute_named (v : sql_arg) (sql ps : option value) s : step s (mux_sql_connection_execute_named v sql ps s).2
| step_connection_query (v : sql_arg) (sql : option value) s : step s (mux_sql_connection_query v sql s).2
| step_connection_query_params (v : sql_arg) (sql ps : option value) s : step s (mux_sql_connection_query_params v sql ps s).2
| step_connection_query_named (v : sql_arg) (sql ps : option value) s : step s (mux_sql_connection_query_named v sql ps s).2
| step_connection_query_with_timeout (v : sql_arg) (sql : option value) (ms : Z) s : step s (mux_sql_connection_query_with_timeout v sql ms s).2
| step_connection_query_params_with_timeout (v : sql_arg) (sql ps : option value) (ms : Z) s : step s (mux_sql_connection_query_params_with_timeout v sql ps ms s).2
| step_connection_query_named_with_timeout (v : sql_arg) (sql ps : option value) (ms : Z) s : step s (mux_sql_connection_query_named_with_timeout v sql ps ms s).2
| step_connection_query_with_cancellation (v : sql_arg) (sql : option value) (token : value) s : step s (mux_sql_connection_query_with_cancellation v sql token s).2
| step_connection_query_params_with_cancellation (v : sql_arg) (sql ps : option value) (token : value) s : step s (mux_sql_connection_query_params_with_cancellation v sql ps token s).2
| step_connection_query_named_with_cancellation (v : sql_arg) (sql ps : option value) (token : value) s : step s (mux_sql_connection_query_named_with_cancellation v sql ps token s).2
| step_transaction_execute (v : sql_arg) (sql : option value) s : step s (mux_sql_transaction_execute v sql s).2
| step_transaction_execute_batch (v : sql_arg) (sql : option value) s : step s (mux_sql_transaction_execute_batch v sql s).2
| step_transaction_execute_many (v : sql_arg) (sql ps : option value) s : step s (mux_sql_transaction_execute_many v sql ps s).2
| step_transaction_execute_params (v : sql_arg) (sql ps : option value) s : step s (mux_sql_transaction_execute_params v sql ps s).2
| step_transaction_execute_named (v : sql_arg) (sql ps : option value) s : step s (mux_sql_transaction_execute_named v sql ps s).2
| step_transaction_query (v : sql_arg) (sql : option value) s : step s (mux_sql_transaction_query v sql s).2
| step_transaction_query_params (v : sql_arg) (sql ps : option value) s : step s (mux_sql_transaction_query_params v sql ps s).2
| step_transaction_query_named (v : sql_arg) (sql ps : option value) s : step s (mux_sql_transaction_query_named v sql ps s).2
| step_transaction_query_with_timeout (v : sql_arg) (sql : option value) (ms : Z) s : step s (mux_sql_transaction_query_with_timeout v sql ms s).2
| step_transaction_query_params_with_timeout (v : sql_arg) (sql ps : option value) (ms : Z) s : step s (mux_sql_transaction_query_params_with_timeout v sql ps ms s).2
| step_transaction_query_named_with_timeout (v : sql_arg) (sql ps : option value) (ms : Z) s : step s (mux_sql_transaction_query_named_with_timeout v sql ps ms s).2
| step_transaction_query_with_cancellation (v : sql_arg) (sql : option value) (token : value) s : step s (mux_sql_transaction_query_with_cancellation v sql token s).2
| step_transaction_query_params_with_cancellation (v : sql_arg) (sql ps : option value) (token : value) s : step s (mux_sql_transaction_query_params_with_cancellation v sql ps token s).2
| step_transaction_query_named_with_cancellation (v : sql_arg) (sql ps : option value) (token : value) s : step s (mux_sql_transaction_query_named_with_cancellation v sql ps token s).2
| step_prepared_execute (v : sql_arg) (ps : option value) s : step s (mux_sql_prepared_execute v ps s).2
| step_prepared_execute_named (v : sql_arg) (ps : option value) s : step s (mux_sql_prepared_execute_named v ps s).2
| step_prepared_query (v : sql_arg) (ps : option value) s : step s (mux_sql_prepared_query v ps s).2
| step_prepared_query_named (v : sql_arg) (ps : option value) s : step s (mux_sql_prepared_query_named v ps s).2
| step_prepared_query_with_timeout (v : sql_arg) (ps : option value) (ms : Z) s : step s (mux_sql_prepared_query_with_timeout v ps ms s).2
| step_prepared_query_named_with_timeout (v : sql_arg) (ps : option value) (ms : Z) s : step s (mux_sql_prepared_query_named_with_timeout v ps ms s).2
| step_prepared_query_with_cancellation (v : sql_arg) (ps : option value) (token : value) s : step s (mux_sql_prepared_query_with_cancellation v ps token s).2
| step_prepared_query_named_with_cancellation (v : sql_arg) (ps : option value) (token : value) s : step s (mux_sql_prepared_query_named_with_cancellation v ps token s).2
| step_pool_capabilities (v : sql_arg) s : step s (mux_sql_pool_capabilities v s).2
| step_pool_execute (v : sql_arg) (sql : option value) s : step s (mux_sql_pool_execute v sql s).2
| step_pool_execute_batch (v : sql_arg) (sql : option value) s : step s (mux_sql_pool_execute_batch v sql s).2
| step_pool_execute_many (v : sql_arg) (sql ps : option value) s : step s (mux_sql_pool_execute_many v sql ps s).2
| step_pool_execute_params (v : sql_arg) (sql ps : option value) s : step s (mux_sql_pool_execute_params v sql ps s).2
| step_pool_execute_named (v : sql_arg) (sql ps : option value) s : step s (mux_sql_pool_execute_named v sql ps s).2
| step_pool_query (v : sql_arg) (sql : option value) s : step s (mux_sql_pool_query v sql s).2
| step_pool_query_params (v : sql_arg) (sql ps : option value) s : step s (mux_sql_pool_query_params v sql ps s).2
| step_pool_query_named (v : sql_arg) (sql ps : option value) s : step s (mux_sql_pool_query_named v sql ps s).2
| step_pool_query_with_timeout (v : sql_arg) (sql : option value) (ms : Z) s : step s (mux_sql_pool_query_with_timeout v sql ms s).2
| step_pool_query_params_with_timeout (v : sql_arg) (sql ps : option value) (ms : Z) s : step s (mux_sql_pool_query_params_with_timeout v sql ps ms s).2
| step_pool_query_named_with_timeout (v : sql_arg) (sql ps : option value) (ms : Z) s : step s (mux_sql_pool_query_named_with_timeout v sql ps ms s).2
| step_pool_query_with_cancellation (v : sql_arg) (sql : option value) (token : value) s : step s (mux_sql_pool_query_with_cancellation v sql token s).2
| step_pool_query_params_with_cancellation (v : sql_arg) (sql ps : option value) (token : value) s : step s (mux_sql_pool_query_params_with_cancellation v sql ps token s).2
| step_pool_query_named_with_cancellation (v : sql_arg) (sql ps : option value) (token : value) s : step s (mux_sql_pool_query_named_with_cancellation v sql ps token s).2.

Lemma frame_store_connected pr (r : result Conn SqlFailure * @session W) s : frame s r.2 -> frame s (store_connected pr r).2.
Proof.
  destruct r as [[c|f] s1]; cbn; intros Hf; [|chain]. destruct (store_connection c s1) as [h s2] eqn:E. learn. chain.
Qed.

Lemma frame_connect uri s : frame s (mux_sql_connect uri s).2.
Proof.
  unfold mux_sql_connect. case_match; [|auto with sql]. case_match; [auto with sql|]. apply frame_store_connected. unfold route_connect_failure.
  repeat case_match; done || apply frame_on_world.
Qed.

Lemma frame_access {A} m (f : value -> result A (list Z)) g v s : frame s (access m f g v s).2.
Proof. unfold access, sql_accessor. repeat case_match; auto with sql; try apply frame_err_kind; done. Qed.

Lemma frame_sqlite_memory s : frame s (mux_sql_sqlite_memory s).2.
Proof. apply frame_store_connected, frame_on_world. Qed.

Lemma frame_capabilities v s : frame s (mux_sql_connection_capabilities v s).2 /\ frame s (mux_sql_pool_capabilities v s).2.
Proof. unfold mux_sql_connection_capabilities, mux_sql_pool_capabilities. split; case_match; auto with sql; reflexivity. Qed.

Lemma frame_prepared_close v s : frame s (mux_sql_prepared_close v s).
Proof. unfold mux_sql_prepared_close. frames. Qed.

Hint Resolve frame_connect frame_sqlite_memory frame_begin frame_begin_with_options frame_begin_nested ext_connection_close
  frame_prepared_close frame_error_from_message frame_prepare : sql.
Hint Extern 2 (frame _ (mux_sql_connection_capabilities _ _).2) => (apply frame_capabilities) : sql.
Hint Extern 2 (frame _ (mux_sql_pool_capabilities _ _).2) => (apply frame_capabilities) : sql.

(** The calls that rewrite names before they query. *)
Lemma ext_rewritten h t named (f : list Z -> list SqlParam -> @session W -> result sql_value SqlFailure * @session W) s :
  (forall t l s, ext s (f t l s).2) ->
  ext s (bind (with_connection h (fun c s => (scanned (rewrite_named_sql t (provider_of c) named), s)) s) (fun '(t, l) s => f t l s)).2.
Proof. intros Hf. apply ext_bind; [by apply frame_ext, frame_with_connection|]. intros [t' l] s1. apply Hf. Qed.

(** The calls that take the common way through [call_connection] and its siblings. *)
Ltac call :=
  match goal with |- ext _ (?t).2 => let f := head_of t in unfold f end;
  repeat first
    [ apply ext_call_connection; intros ? ?
    | apply ext_call_transaction; intros ? ?
    | apply ext_call_prepared; intros ? ?
    | apply ext_call_pool; intros ? ? ?
    | apply ext_given; intros ? ?
    | match goal with x : (_ * _)%type |- _ => destruct x end
    | apply ext_with_prepared; intros ? ?
    | apply ext_with_token; intros ? ?
    | apply ext_finish_transaction
    | apply ext_connection_query; solve [auto with sql]
    | apply ext_transaction_query; solve [auto with sql]
    | apply ext_pool_query; solve [auto with sql]
    | apply ext_as_value | apply ext_as_unit | apply frame_ext
    | apply frame_with_connection; intros ? ? | apply frame_in_transaction; intros ? ? | apply frame_with_pool; intros ? ?
    | apply frame_execute | apply frame_execute_named | apply frame_execute_many | apply frame_execute_batch
    | reflexivity ].

Lemma step_ext s s' : step s s' -> ext s s'.
Proof.
  destruct 1; try solve [call]; auto with sql; try apply ext_savepoint; try (apply frame_ext; solve [apply frame_access | apply frame_row_answer]).
  - by apply (ext_read_many v "resultset_rows" fuel None).
  - by apply (ext_read_many v "resultset_next_batch" fuel (Some limit)).
  - apply ext_call_connection. intros h s1. apply ext_given. intros [t named] s2. apply ext_rewritten. intros t' l s3. by apply ext_connection_query, query_timeout.
  - apply ext_call_prepared. intros h s1. apply ext_given. intros named s2. apply ext_with_prepared. intros q s3. apply ext_rewritten.
    intros t' l s4. apply ext_connection_query, query_rewritten_timeout.
Qed.

Definition initial (w : W) : @session W := mk_session ∅ ∅ ∅ ∅ ∅ ∅ ∅ ∅ ∅ ∅ ∅ 1 1 w.

Lemma initial_good w : good (initial w).
Proof. split; done. Qed.

Lemma reachable_good w s : rtc step (initial w) s -> next s <= i64_max -> good s.
Proof.
  intros Hr Hm. assert (He : ext (initial w) s) by (induction Hr as [|a b c Hs _ IH]; [reflexivity|]; etrans; [by apply step_ext|auto]).
  apply He; [done|apply initial_good].
Qed.

Lemma counts_number lease m l k : counts lease None m l -> match l !! k with Some n => n | None => 0 end = leased_by lease k m.
Proof. intros Hc. rewrite (Hc k). cbn. rewrite Z.add_0_r. destruct (leased_by lease k m =? 0) eqn:E; [|done]. by apply Z.eqb_eq in E. Qed.

Lemma leased_by_open lease k m : 0 < leased_by lease k m <-> exists h r, m !! h = Some r /\ lease r = Some k.
Proof.
  unfold leased_by. split.
  - intros Hp. destruct (map_choose (filter (fun kv : Z * SqlResultSet => lease kv.2 = Some k) m)) as (h & r & Hr).
    + intros E. rewrite E, map_size_empty in Hp. lia.
    + apply map_lookup_filter_Some in Hr as [??]. eauto.
  - intros (h & r & Hr & Hl). assert (Hf : filter (fun kv : Z * SqlResultSet => lease kv.2 = Some k) m !! h = Some r) by by apply map_lookup_filter_Some.
    apply elem_of_map_to_list in Hf as Hin. enough (size (filter (fun kv : Z * SqlResultSet => lease kv.2 = Some k) m) <> 0%nat) by lia.
    intros E. apply map_size_empty_inv in E. rewrite E in Hf. done.
Qed.

(** C21: in every state that calls, drops and the databases can lead to, as long as the counter of
    handles has not wrapped around, the tables of leases count exactly the result sets on each
    connection and transaction, none of them closed; so one is reported busy exactly while it
    has an open result set. *)
Theorem sql_leases_exact w s :
  rtc step (initial w) s -> next s <= i64_max -> forall k,
  match connection_leases s !! k with Some n => n | None => 0 end = leased_by connection_lease k (resultsets s) /\
  match transaction_leases s !! k with Some n => n | None => 0 end = leased_by transaction_lease k (resultsets s) /\
  (connection_has_resultset_lease k s = true <-> exists h r, resultsets s !! h = Some r /\ connection_lease r = Some k /\ rs_closed r = false) /\
  (transaction_has_resultset_lease k s = true <-> exists h r, resultsets s !! h = Some r /\ transaction_lease r = Some k /\ rs_closed r = false).
Proof.
  intros Hr Hm k. destruct (reachable_good w s Hr Hm) as [G1 G2 G6 G3 G4 G5].
  assert (Ho : forall h r, resultsets s !! h = Some r -> connection_lease r = Some k \/ transaction_lease r = Some k -> rs_closed r = false).
  { intros h r Hl Hk. destruct (rs_closed r) eqn:E; [|done]. destruct (G6 h r Hl E). intuition congruence. }
  unfold connection_has_resultset_lease, transaction_has_resultset_lease. rewrite !(counts_number _ _ _ k G4), !(counts_number _ _ _ k G5), !Z.ltb_lt, !leased_by_open.
  split; [done|]. split; [done|]. split; split; intros (h & r & Hl & Hk); exists h, r; destruct_and?; eauto 6.
Qed.

End Steps.

(** ** A driver to run *)

(** Every statement succeeds, a query opens cursor 7 over no rows read at once. *)
Definition demo_os : SqlOs unit := {|
  allocate := fun w => (Allocated, w);
  run_statement := fun _ _ _ w => (Ok 0, w);
  run_script := fun _ _ w => (Ok tt, w);
  run_many := fun _ _ _ w => (Ok 0, w);
  open_query := fun _ _ _ _ w => (Ok (mk_opened [[97]] [] (Some 7)), w);
  fetch := fun _ cols w => (Ok None, cols, w);
  drop_cursor := fun _ w => w;
  drop_connection := fun _ w => w;
  pool_acquire := fun _ w => (Ok (mk_conn Sqlite 9), w);
  pool_release := fun _ w => w;
  pool_uri_provider := fun _ _ => "sqlite"%string;
  cancellation_entry := fun _ _ => Ok 1 |}.

Definition demo_url : UrlCrate := {|
  RustUrl := text;
  url_parse := fun t => Ok t;
  url_to_string := fun u => u;
  from_file_path := fun _ => None;
  to_file_path := fun _ => None;
  url_join := fun _ t => Ok t;
  scheme := fun _ => [];
  username := fun _ => [];
  password := fun _ => None;
  host := fun _ => None;
  host_str := fun _ => None;
  port := fun _ => None;
  url_path := fun u => u;
  Url.query := fun _ => None;
  fragment := fun _ => None;
  origin_serialization := fun u => u;
  set_path := fun p _ => p;
  set_query := fun _ u => u;
  set_fragment := fun _ u => u;
  set_host := fun _ _ => None;
  set_port := fun _ _ => None;
  set_scheme := fun _ _ => None;
  set_username := fun _ _ => None;
  set_password := fun _ _ => None;
  form_parse := fun _ => [];
  form_append := fun t _ => t;
  domain_to_ascii := fun t => Ok t;
  domain_to_unicode := fun t => (t, None) |}.

Definition demo_drivers : SqlDrivers (W := unit) := {|
  sqlite_open := fun _ w => (Ok (mk_conn Sqlite 1), w);
  sqlite_open_in_memory := fun w => (Ok (mk_conn Sqlite 1), w);
  postgres_connect := fun _ w => (Ok (mk_conn Postgres 1), w);
  mysql_opts_refused := fun _ => None;
  mysql_connect := fun _ w => (Ok (mk_conn MySql 1), w);
  sqlserver_connect := fun _ w => (Ok (mk_conn SqlServer 1), w) |}.

#[local] Existing Instance demo_os.
#[local] Existing Instance demo_url.
#[local] Existing Instance demo_drivers.

(** A connection is object 1 and entry 1; a query on it is object 2 and entry 2. *)
Definition demo_query : @session unit :=
  (mux_sql_connection_query (ObjectArg 1) (Some (VString "select 1")) (mux_sql_sqlite_memory (initial tt)).2).2.

Lemma demo_query_reachable : rtc step (initial tt) demo_query.
Proof. eapply rtc_l; [apply step_sqlite_memory|]. eapply rtc_once. apply step_connection_query. Defined.

Lemma sql_leases_exact_witness :
  connection_leases demo_query = {[1 := 1]} /\
  (connection_has_resultset_lease 1 demo_query = true <->
   exists h r, resultsets demo_query !! h = Some r /\ connection_lease r = Some 1 /\ rs_closed r = false).
Proof.
  split; [vm_compute; reflexivity|].
  exact (proj1 (proj2 (proj2 (sql_leases_exact tt demo_query demo_query_reachable ltac:(vm_compute; discriminate) 1)))).
Defined.

(** A transaction can begin on a connection whose result set is open, although every other
    operation answers that it is busy: the connection leaves the table under the cursor. *)
Definition demo_begin : answer * @session unit := mux_sql_connection_begin_transaction (ObjectArg 1) demo_query.

Lemma begin_ignores_lease :
  connection_has_resultset_lease 1 demo_query = true /\ demo_begin.1 = Ok (OfObject 3) /\ connections demo_begin.2 !! 1 = None /\
  (mux_sql_connection_execute (ObjectArg 1) (Some (VString "select 1")) demo_query).1 = Err (ErrorObject 3).
Proof. vm_compute. auto. Qed.

(** A connection that is closed while a transaction on it has an open result set comes back under
    its number when the result set is closed, with no object left to close it. *)
Definition demo_closed : @session unit :=
  let s := (mux_sql_sqlite_memory (initial tt)).2 in
  let s := (mux_sql_connection_begin_transaction (ObjectArg 1) s).2 in
  let s := (mux_sql_transaction_query (ObjectArg 2) (Some (VString "select 1")) s).2 in
  let s := mux_sql_connection_close (ObjectArg 1) s in
  (mux_sql_resultset_close (ObjectArg 3) s).2.

Lemma closed_connection_returns : connections demo_closed !! 1 = Some (mk_conn Sqlite 1) /\ connection_handle (ObjectArg 1) demo_closed = Err (octets "invalid sql connection").
Proof. vm_compute. auto. Qed.
