(* ===== verification/SqlMigrate.v ===== *)
(** * Schema migrations (src/src/sql.rs)

    Definitions of migrations, their validation and loading from files, and the migrator:
    it keeps a metadata table in the database, and moves between versions inside one
    transaction.  The provider behind a connection is not part of the repository; it is
    the interface [Driver].  What is built from the runtime's own code, the rewriting of
    placeholders and the splitting of scripts, is used as it is modelled in [SqlText]. *)

From S2P Require Import Prelude AssocList Value Str Utf8 Http SqlText.

(** ** Definitions of migrations *)

Record MigrationDefinition : Type := mk_migration {
  version : Z;
  name : string;
  up : list Z;
  down : list Z;
  checksum : string;
}.

(** Error texts with the version or file name spliced into them. *)
Inductive MigrationError : Type :=
| Plain (m : string)
| About (m : string) (v : Z)
| AboutFile (m : string) (file : list Z)
| TextError (e : SqlTextError)
| Provider (m : string).

Definition MAX_MIGRATIONS : Z := 4096.
Definition MAX_MIGRATION_SQL_BYTES : Z := 16 * 1024 * 1024.
Definition MAX_MIGRATION_TOTAL_BYTES : Z := 64 * 1024 * 1024.
Definition DEFAULT_MIGRATION_TABLE : string := "mux_schema_migrations".

Definition valid_migration_name (n : list Z) : bool :=
  match n with [] => false | _ => true end && (nlen n <=? 128) &&
  forallb (fun b => is_ascii_alphanumeric b || (b =? 95) || (b =? 45)) n.

Section Checksum.
(** [Sha256::digest] of the octets. *)
Context (sha256 : list Z -> list Z).

Definition hex_digit (d : Z) : Ascii.ascii := Ascii.ascii_of_nat (Z.to_nat (if d <? 10 then 48 + d else 87 + d)).
Definition hex_octets (bs : list Z) : string :=
  String.string_of_list_ascii (flat_map (fun b => [hex_digit (b / 16); hex_digit (b mod 16)]) bs).

Definition migration_checksum (up down : list Z) : string :=
  hex_octets (sha256 (octets "mux-migration-v1" ++ [0] ++ up ++ [0] ++ down)).

Definition migration_definition (version : Z) (name : string) (up down : list Z) : result MigrationDefinition MigrationError :=
  if version <=? 0 then Err (Plain "migration version must be positive")
  else if negb (valid_migration_name (octets name)) then
    Err (Plain "migration name must be 1-128 ASCII letters, digits, underscores, or hyphens")
  else if match str_trim up with [] => true | _ => false end || match str_trim down with [] => true | _ => false end
  then Err (Plain "migration up and down SQL must not be empty")
  else if (MAX_MIGRATION_SQL_BYTES <? nlen up) || (MAX_MIGRATION_SQL_BYTES <? nlen down)
  then Err (Plain "migration SQL exceeds the 16 MiB limit")
  else Ok (mk_migration version name up down (migration_checksum up down)).

End Checksum.

(** The aggregate size; an addition that overflows or passes the limit is an error. *)
Fixpoint migration_total (ms : list MigrationDefinition) (total_bytes : Z) : result Z MigrationError :=
  match ms with
  | [] => Ok total_bytes
  | m :: ms =>
      match checked_add total_bytes (nlen (up m)) with
      | None => Err (Plain "migration set size overflowed")
      | Some t =>
          match checked_add t (nlen (down m)) with
          | None => Err (Plain "migration set size overflowed")
          | Some t =>
              if MAX_MIGRATION_TOTAL_BYTES <? t then Err (Plain "migration set exceeds the 64 MiB limit")
              else migration_total ms t
          end
      end
  end.

Fixpoint check_duplicates (ms : list MigrationDefinition) (versions : gset Z) : result unit MigrationError :=
  match ms with
  | [] => Ok tt
  | m :: ms =>
      if decide (version m ∈ versions) then Err (About "duplicate migration version {}" (version m))
      else check_duplicates ms ({[version m]} ∪ versions)
  end.

(** [sort_unstable_by_key]. *)
Definition version_le (a b : MigrationDefinition) : Prop := version a <= version b.
#[export] Instance version_le_dec : RelDecision version_le.
Proof. intros a b. unfold version_le. apply _. Defined.

Definition validate_migration_set (ms : list MigrationDefinition) : result (list MigrationDefinition) MigrationError :=
  match ms with
  | [] => Err (Plain "at least one migration is required")
  | _ =>
      if MAX_MIGRATIONS <? nlen ms then Err (Plain "at most {MAX_MIGRATIONS} migrations are supported")
      else
        let? _ := migration_total ms 0 in
        let ms := merge_sort version_le ms in
        let? _ := check_duplicates ms ∅ in
        Ok ms
  end.

(** ** The connection

    A provider runs a statement with parameters, a script, and a query; each may change
    the database even when it fails. *)

Class Driver (DB : Type) : Type := {
  backend : SqlBackend;
  run_statement : list Z -> list SqlParam -> DB -> result Z string * DB;
  run_script : list Z -> DB -> result unit string * DB;
  run_query : list Z -> list SqlParam -> DB -> result (list (list value)) string * DB;
}.

(** Operations on a connection: the outcome and the database they leave. *)
Definition Op (DB A : Type) : Type := DB -> result A MigrationError * DB.
Definition op_ret {DB A} (a : A) : Op DB A := fun d => (Ok a, d).
Definition op_fail {DB A} (e : MigrationError) : Op DB A := fun d => (Err e, d).
Definition op_bind {DB A B} (m : Op DB A) (f : A -> Op DB B) : Op DB B :=
  fun d => match m d with (Ok a, d) => f a d | (Err e, d) => (Err e, d) end.
Definition op_result {DB A} (r : result A MigrationError) : Op DB A := fun d => (r, d).
Definition op_provider {DB A} (m : DB -> result A string * DB) : Op DB A :=
  fun d => match m d with (Ok a, d) => (Ok a, d) | (Err e, d) => (Err (Provider e), d) end.

Notation "'do' x <- m ; k" := (op_bind m (fun x => k)) (at level 80, x pattern, m at level 70, k at level 80) : mux_scope.

(** The answer of a scan; its fuel is enough ([sql_scan_total]). *)
Definition scan_answer {DB A} (r : option (result A SqlTextError)) : Op DB A :=
  match r with
  | Some (Ok a) => op_ret a
  | Some (Err e) => op_fail (TextError e)
  | None => op_fail (TextError Panics)
  end.

(** [HashMap<i64, AppliedMigration>]: the name and the checksum of a version. *)
Abbreviation Applied := (gmap Z (string * string)).

Definition later_first (a b : Z) : Prop := b <= a.
#[export] Instance later_first_dec : RelDecision later_first.
Proof. intros a b. unfold later_first. apply _. Defined.

Section Migrator.
Context {DB : Type} {driver : Driver DB}.

Fixpoint each_statement (run : list Z -> Op DB unit) (statements : list (list Z)) : Op DB unit :=
  match statements with
  | [] => op_ret tt
  | st :: rest => do _ <- run st; each_statement run rest
  end.

(** SQLite and MySQL run the statements one by one, PostgreSQL and SQL Server get the
    whole script, which has been scanned all the same. *)
Definition execute_batch_on_connection (sql : list Z) : Op DB unit :=
  do statements <- scan_answer (split_sql_batch sql backend);
  match statements with
  | [] => op_ret tt
  | _ =>
      match backend with
      | Sqlite => each_statement (fun st => do _ <- op_provider (run_statement st []); op_ret tt) statements
      | MySql => each_statement (fun st => op_provider (run_script st)) statements
      | Postgres | SqlServer => op_provider (run_script sql)
      end
  end.

Definition execute_on_connection (sql : list Z) (params : list SqlParam) : Op DB Z :=
  do sql <- scan_answer (rewrite_positional_sql sql backend (length params));
  op_provider (run_statement sql params).

Definition query_on_connection_params (sql : list Z) (params : list SqlParam) : Op DB (list (list value)) :=
  op_provider (run_query sql params).
Definition query_on_connection (sql : list Z) : Op DB (list (list value)) := query_on_connection_params sql [].

(** ** The metadata table *)

Definition migration_table_sql (b : SqlBackend) (table : string) : list Z :=
  octets match b with
  | SqlServer => "IF OBJECT_ID(N'" ++ table ++ "', N'U') IS NULL BEGIN CREATE TABLE " ++ table ++ " (version BIGINT PRIMARY KEY, name NVARCHAR(128) NOT NULL, checksum NVARCHAR(64) NOT NULL) END"
  | Sqlite => "CREATE TABLE IF NOT EXISTS " ++ table ++ " (version INTEGER PRIMARY KEY, name TEXT NOT NULL, checksum TEXT NOT NULL)"
  | Postgres => "CREATE TABLE IF NOT EXISTS " ++ table ++ " (version BIGINT PRIMARY KEY, name TEXT NOT NULL, checksum TEXT NOT NULL)"
  | MySql => "CREATE TABLE IF NOT EXISTS " ++ table ++ " (version BIGINT PRIMARY KEY, name VARCHAR(128) NOT NULL, checksum VARCHAR(64) NOT NULL)"
  end%string.

Definition lock_row_sql (b : SqlBackend) (table : string) : list Z :=
  octets match b with
  | Sqlite => "INSERT OR IGNORE INTO " ++ table ++ " (version, name, checksum) VALUES (0, '__lock__', 'lock')"
  | Postgres => "INSERT INTO " ++ table ++ " (version, name, checksum) VALUES (0, '__lock__', 'lock') ON CONFLICT (version) DO NOTHING"
  | MySql => "INSERT IGNORE INTO " ++ table ++ " (version, name, checksum) VALUES (0, '__lock__', 'lock')"
  | SqlServer => "IF NOT EXISTS (SELECT 1 FROM " ++ table ++ " WHERE version = 0) INSERT INTO " ++ table ++ " (version, name, checksum) VALUES (0, N'__lock__', N'lock')"
  end%string.

Definition ensure_migration_table (table : string) : Op DB unit :=
  do _ <- execute_batch_on_connection (migration_table_sql backend table);
  execute_batch_on_connection (lock_row_sql backend table).

Definition begin_sql (b : SqlBackend) : list Z :=
  octets match b with
  | Sqlite => "BEGIN IMMEDIATE" | Postgres => "BEGIN" | MySql => "START TRANSACTION" | SqlServer => "BEGIN TRANSACTION"
  end%string.
Definition lock_sql (b : SqlBackend) (table : string) : list Z :=
  octets match b with
  | SqlServer => "SELECT version FROM " ++ table ++ " WITH (UPDLOCK, HOLDLOCK) WHERE version = 0"
  | _ => "SELECT version FROM " ++ table ++ " WHERE version = 0 FOR UPDATE"
  end%string.

(** SQLite locks with its [BEGIN]; the others lock the row of version 0. *)
Definition begin_migration_transaction (table : string) : Op DB unit :=
  match backend with
  | Sqlite => op_provider (run_script (begin_sql backend))
  | Postgres | MySql | SqlServer =>
      do _ <- op_provider (run_script (begin_sql backend));
      op_provider (run_script (lock_sql backend table))
  end.

Definition commit_sql (b : SqlBackend) : list Z := octets (match b with SqlServer => "COMMIT TRANSACTION" | _ => "COMMIT" end)%string.
Definition rollback_sql (b : SqlBackend) : list Z := octets (match b with SqlServer => "ROLLBACK TRANSACTION" | _ => "ROLLBACK" end)%string.
Definition migration_commit_connection : Op DB unit := op_provider (run_script (commit_sql backend)).
Definition migration_rollback_connection : Op DB unit := op_provider (run_script (rollback_sql backend)).

Definition migration_insert_sql (table : string) : list Z :=
  octets ("INSERT INTO " ++ table ++ " (version, name, checksum) VALUES (?, ?, ?)").
Definition migration_delete_sql (table : string) : list Z := octets ("DELETE FROM " ++ table ++ " WHERE version = ?").
Definition applied_sql (table : string) : list Z :=
  octets ("SELECT version, name, checksum FROM " ++ table ++ " ORDER BY version").

Fixpoint read_applied (rows : list (list value)) (applied : Applied) : result Applied MigrationError :=
  match rows with
  | [] => Ok applied
  | [VInt v; VString n; VString c] :: rows =>
      if 0 <? v then
        match applied !! v with
        | Some _ => Err (About "duplicate applied migration version {version}" v)
        | None => read_applied rows (<[v := (n, c)]> applied)
        end
      else read_applied rows applied
  | [VInt _; VString _; _] :: _ => Err (Plain "migration metadata checksum is not a string")
  | [VInt _; _; _] :: _ => Err (Plain "migration metadata name is not a string")
  | [_; _; _] :: _ => Err (Plain "migration metadata version is not an integer")
  | _ :: _ => Err (Plain "migration metadata table has an invalid row shape")
  end.

Definition applied_migrations (table : string) : Op DB Applied :=
  do rows <- query_on_connection (applied_sql table);
  op_result (read_applied rows ∅).

Definition table_exists_sql (b : SqlBackend) : list Z :=
  octets match b with
  | Sqlite => "SELECT 1 FROM sqlite_master WHERE type = 'table' AND name = ? LIMIT 1"
  | Postgres => "SELECT 1 FROM information_schema.tables WHERE table_schema = current_schema() AND table_name = $1 LIMIT 1"
  | MySql => "SELECT 1 FROM information_schema.tables WHERE table_schema = DATABASE() AND table_name = ? LIMIT 1"
  | SqlServer => "SELECT 1 FROM sys.tables WHERE name = @P1"
  end%string.

Definition migration_table_exists (table : string) : Op DB bool :=
  do rows <- query_on_connection_params (table_exists_sql backend) [PString table];
  op_ret match rows with [] => false | _ => true end.

Definition applied_migrations_if_present (table : string) : Op DB Applied :=
  do found <- migration_table_exists table;
  if (found : bool) then applied_migrations table else op_ret ∅.

(** The greatest applied version, 0 when there is none. *)
Definition current_version (applied : Applied) : Z := map_fold (fun v _ acc => Z.max v acc) 0 applied.

(** The definition with a version; versions are unique in a validated set. *)
Definition local (ms : list MigrationDefinition) (v : Z) : option MigrationDefinition :=
  List.find (fun m => version m =? v) ms.

Fixpoint check_records (records : list (Z * (string * string))) (ms : list MigrationDefinition) : result unit MigrationError :=
  match records with
  | [] => Ok tt
  | (v, (n, c)) :: records =>
      match local ms v with
      | None => Err (About "database contains migration {version}, but it is absent locally" v)
      | Some m =>
          if negb (String.eqb n (name m)) || negb (String.eqb c (checksum m))
          then Err (About "migration {version} changed after it was applied" v)
          else check_records records ms
      end
  end.

Fixpoint check_gaps (ms : list MigrationDefinition) (highest : Z) (applied : Applied) : result unit MigrationError :=
  match ms with
  | [] => Ok tt
  | m :: ms =>
      if (version m <=? highest) && bool_decide (applied !! version m = None)
      then Err (About "migration history is missing locally defined version {}" (version m))
      else check_gaps ms highest applied
  end.

Definition validate_applied_migrations (applied : Applied) (ms : list MigrationDefinition) : result unit MigrationError :=
  let? _ := check_records (map_to_list applied) ms in
  if decide (applied = ∅) then Ok tt else check_gaps ms (current_version applied) applied.

(** ** Moving between versions *)

Fixpoint migrate_up (table : string) (ms : list MigrationDefinition) (count : Z) : Op DB Z :=
  match ms with
  | [] => op_ret count
  | m :: ms =>
      do _ <- execute_batch_on_connection (up m);
      do _ <- execute_on_connection (migration_insert_sql table) [PInt (version m); PString (name m); PString (checksum m)];
      migrate_up table ms (count + 1)
  end.

Fixpoint migrate_down (table : string) (ms : list MigrationDefinition) (versions : list Z) (count : Z) : Op DB Z :=
  match versions with
  | [] => op_ret count
  | v :: versions =>
      match local ms v with
      | None => op_fail (About "migration {version} is absent locally" v)
      | Some m =>
          do _ <- execute_batch_on_connection (down m);
          do _ <- execute_on_connection (migration_delete_sql table) [PInt v];
          migrate_down table ms versions (count + 1)
      end
  end.

(** The versions above [target], greatest first. *)
Definition undone (applied : Applied) (target : Z) : list Z :=
  List.filter (fun v => target <? v) (merge_sort later_first (map_to_list applied).*1).

Definition migrate_body (table : string) (ms : list MigrationDefinition) (target : Z) : Op DB Z :=
  do applied <- applied_migrations table;
  do _ <- op_result (validate_applied_migrations applied ms);
  let current := current_version applied in
  if target =? current then op_ret 0
  else if current <? target then
    migrate_up table (List.filter (fun m => (current <? version m) && (version m <=? target)) ms) 0
  else migrate_down table ms (undone applied target) 0.

Definition migrate_to (table : string) (ms : list MigrationDefinition) (target : Z) : Op DB Z :=
  do _ <- ensure_migration_table table;
  do _ <- begin_migration_transaction table;
  fun d =>
    match migrate_body table ms target d with
    | (Ok count, d) => (do _ <- migration_commit_connection; op_ret count) d
    | (Err e, d) => (Err e, (migration_rollback_connection d).2)
    end.

(** [migration_down_one] behind the lookup of its migrator. *)
Definition migration_down_one (table : string) (ms : list MigrationDefinition) : Op DB Z :=
  do _ <- ensure_migration_table table;
  do applied <- applied_migrations_if_present table;
  let current := current_version applied in
  let target := fold_right Z.max 0 (version <$> List.filter (fun m => (version m <? current) && bool_decide (is_Some (applied !! version m))) ms) in
  migrate_to table ms target.

(** The state a status line reports. *)
Definition migration_state (m : MigrationDefinition) (record : option (string * string)) : string :=
  match record with
  | Some (n, c) => if String.eqb c (checksum m) && String.eqb n (name m) then "applied" else "modified"
  | None => "pending"
  end.

Definition migration_status (table : string) (ms : list MigrationDefinition) : Op DB (list (Z * string)) :=
  do applied <- applied_migrations_if_present table;
  op_ret ((fun m => (version m, migration_state m (applied !! version m))) <$> ms).

Definition migration_dry_run (table : string) (ms : list MigrationDefinition) : Op DB (list (list Z)) :=
  do applied <- applied_migrations_if_present table;
  do _ <- op_result (validate_applied_migrations applied ms);
  op_ret (up <$> List.filter (fun m => current_version applied <? version m) ms).

End Migrator.

(** * Properties of schema migrations

    The migrator against a provider that behaves as SQL documents it: transactions are
    atomic, the metadata table has its rows.  [DriverLaws] states that for the texts the
    migrator sends, after the runtime's own rewriting. *)

(** ** Validated sets *)

Lemma check_duplicates_ok ms seen : check_duplicates ms seen = Ok tt ->
  NoDup (version <$> ms) /\ forall m, m ∈ ms -> version m ∉ seen.
Proof.
  revert seen. induction ms as [|m ms IH]; intros seen; cbn [check_duplicates fmap list_fmap].
  { intros _. split; [constructor|set_solver]. }
  case_decide as Hin; [done|]. intros [Hn Hs]%IH. split.
  - constructor; [|done]. intros (m' & E & Hm')%list_elem_of_fmap. apply Hs in Hm'. rewrite <- E in Hm'. set_solver.
  - intros m' [->|Hm']%elem_of_cons; [done|]. apply Hs in Hm'. set_solver.
Qed.

#[export] Instance version_le_trans : Transitive version_le.
Proof. intros a b c. unfold version_le. lia. Qed.
#[export] Instance version_le_total : Total version_le.
Proof. intros a b. unfold version_le. lia. Qed.

(** A validated set of migrations is the given one in order of strictly increasing
    versions; a set with two migrations of one version, an empty one and one over the
    limits are rejected. *)
Lemma migration_set_sorted ms :
  match validate_migration_set ms with
  | Ok sorted => sorted ≡ₚ ms /\ StronglySorted (fun a b => version a < version b) sorted /\
      ms <> [] /\ nlen ms <= MAX_MIGRATIONS
  | Err e => ms = [] \/ MAX_MIGRATIONS < nlen ms \/ (exists e', migration_total ms 0 = Err e') \/ ~ NoDup (version <$> ms)
  end.
Proof.
  unfold validate_migration_set. destruct ms as [|m ms]; [by left|]. set (l := m :: ms).
  destruct (MAX_MIGRATIONS <? nlen l) eqn:El; bool_to_prop; [by right; left|].
  destruct (migration_total l 0) as [t|e] eqn:Et; [|right; right; left; eauto]. cbn [result_bind].
  pose proof (merge_sort_Permutation version_le l) as Hp.
  assert (check_duplicates (merge_sort version_le l) ∅ = Ok tt <-> NoDup (version <$> l)) as Hdup.
  { assert (NoDup (version <$> merge_sort version_le l) <-> NoDup (version <$> l)) as <- by (by rewrite Hp).
    split; [by intros [? _]%check_duplicates_ok|].
    assert (forall l' seen, NoDup (version <$> l') -> (forall m, m ∈ l' -> version m ∉ seen) ->
      check_duplicates l' seen = Ok tt) as Hc; [|intros; apply Hc; [done|set_solver]].
    induction l' as [|m' l' IH]; intros seen Hn Hs; [done|]. cbn [check_duplicates fmap list_fmap] in *.
    apply NoDup_cons in Hn as [Hnin Hn]. rewrite decide_False by (apply Hs, list_elem_of_here). apply IH; [done|].
    intros m2 Hm2 [E%elem_of_singleton|Hin]%elem_of_union.
    - apply Hnin. rewrite <- E. by apply list_elem_of_fmap_2.
    - eapply Hs; [by apply list_elem_of_further|done]. }
  destruct (check_duplicates _ _) as [[]|e] eqn:Ec; cbn [result_bind].
  - split_and!; [done| |done|done].
    pose proof (proj1 Hdup eq_refl) as Hn0.
    assert (NoDup (version <$> merge_sort version_le l)) as Hn by (by rewrite Hp). clear Hn0.
    pose proof (StronglySorted_merge_sort version_le l) as Hs. revert Hs Hn. generalize (merge_sort version_le l). clear.
    induction l as [|a l IH]; intros Hs Hn; [constructor|]. inversion_clear Hs as [|? ? Hs' Ha].
    cbn [fmap list_fmap] in Hn. apply NoDup_cons in Hn as [Hna Hn]. constructor; [by apply IH|].
    rewrite Forall_forall in *. intros b Hb. pose proof (Ha b Hb) as H. unfold version_le in H.
    assert (version a <> version b); [|lia]. intros E. apply Hna. rewrite E. by apply list_elem_of_fmap_2.
  - right. right. right. intros Hn%Hdup. congruence.
Qed.

(** ** The behaviour of a provider *)

(** The rows of the metadata table, as a query lists them. *)
Definition row (r : Z * (string * string)) : list value := [VInt r.1; VString r.2.1; VString r.2.2].

Definition insert_text (b : SqlBackend) : list Z :=
  octets match b with
  | Sqlite | MySql => "INSERT INTO mux_schema_migrations (version, name, checksum) VALUES (?, ?, ?)"
  | Postgres => "INSERT INTO mux_schema_migrations (version, name, checksum) VALUES ($1, $2, $3)"
  | SqlServer => "INSERT INTO mux_schema_migrations (version, name, checksum) VALUES (@P1, @P2, @P3)"
  end.
Definition delete_text (b : SqlBackend) : list Z :=
  octets match b with
  | Sqlite | MySql => "DELETE FROM mux_schema_migrations WHERE version = ?"
  | Postgres => "DELETE FROM mux_schema_migrations WHERE version = $1"
  | SqlServer => "DELETE FROM mux_schema_migrations WHERE version = @P1"
  end.

Abbreviation table := DEFAULT_MIGRATION_TABLE.

(** The content of a database, the metadata table in it, and the content a rollback
    returns to while a transaction is open. *)
Class DriverView (DB : Type) : Type := {
  content : Type;
  contents : DB -> content;
  history : content -> gmap Z (string * string);
  snapshot : DB -> option content;
}.

Section Laws.
Context {DB : Type} {driver : Driver DB} {view : DriverView DB}.

Abbreviation rows d := (history (contents d)).

(** An operation that leaves the transaction and the recorded versions alone. *)
Definition keeps_at {A} (o : DB -> result A string * DB) (d : DB) : Prop :=
  snapshot (o d).2 = snapshot d /\ forall v, 0 < v -> rows (o d).2 !! v = rows d !! v.

(** The same outside of a transaction, where the metadata table is created: inside one,
    MySQL would commit before it creates a table. *)
Definition keeps_outside {A} (o : DB -> result A string * DB) : Prop := forall d, snapshot d = None -> keeps_at o d.

Class DriverLaws : Prop := {
  law_create_statement : keeps_outside (run_statement (migration_table_sql backend table) []);
  law_create_script : keeps_outside (run_script (migration_table_sql backend table));
  law_lock_row_statement : keeps_outside (run_statement (lock_row_sql backend table) []);
  law_lock_row_script : keeps_outside (run_script (lock_row_sql backend table));
  law_lock d : keeps_at (run_script (lock_sql backend table)) d;
  law_begin d d' : run_script (begin_sql backend) d = (Ok tt, d') -> snapshot d' = Some (contents d) /\ contents d' = contents d;
  law_begin_fails d d' e : run_script (begin_sql backend) d = (Err e, d') -> snapshot d' = snapshot d /\ contents d' = contents d;
  law_commit d d' : run_script (commit_sql backend) d = (Ok tt, d') -> snapshot d' = None /\ contents d' = contents d;
  law_rollback d d' before : run_script (rollback_sql backend) d = (Ok tt, d') -> snapshot d = Some before ->
    snapshot d' = None /\ contents d' = before;
  law_insert d v n c :
    let '(r, d') := run_statement (insert_text backend) [PInt v; PString n; PString c] d in
    snapshot d' = snapshot d /\ forall k, r = Ok k -> rows d' = <[v := (n, c)]> (rows d);
  law_delete d v :
    let '(r, d') := run_statement (delete_text backend) [PInt v] d in
    snapshot d' = snapshot d /\ forall k, r = Ok k -> rows d' = delete v (rows d);
  law_select d :
    let '(r, d') := run_query (applied_sql table) [] d in
    snapshot d' = snapshot d /\ forall rs, r = Ok rs ->
      contents d' = contents d /\ exists l, l ≡ₚ map_to_list (rows d) /\ rs = row <$> l;
}.

(** What is asked of a migration's own script: it does not commit and does not write the
    metadata table. *)
Definition well_behaved (sql : list Z) : Prop :=
  forall d, let '(r, d') := execute_batch_on_connection sql d in
    snapshot d' = snapshot d /\ forall v, 0 < v -> rows d' !! v = rows d !! v.

End Laws.
Arguments DriverLaws DB {driver view}.

(** ** Reading the metadata table *)

Definition positive (h : gmap Z (string * string)) : Applied := filter (fun r : Z * (string * string) => 0 < r.1) h.

Lemma positive_lookup h v : positive h !! v = if decide (0 < v) then h !! v else None.
Proof.
  unfold positive. case_decide as Hv.
  - destruct (h !! v) as [r|] eqn:E; [by apply map_lookup_filter_Some|]. apply map_lookup_filter_None. by left.
  - apply map_lookup_filter_None. right. intros r _. done.
Qed.

Lemma read_rows l acc : NoDup l.*1 -> (forall v, v ∈ l.*1 -> acc !! v = None) ->
  exists a, read_applied (row <$> l) acc = Ok a /\
    forall v, a !! v = if decide (0 < v) then match (list_to_map l : Applied) !! v with Some r => Some r | None => acc !! v end else acc !! v.
Proof.
  revert acc. induction l as [|[v [n c]] l IH]; intros acc Hn Hd.
  { exists acc. split; [done|]. intros v. cbn. rewrite lookup_empty. by case_decide. }
  rewrite fmap_cons in Hn, Hd. cbn [fst] in Hn, Hd. rewrite fmap_cons. cbn [row fst snd read_applied].
  apply NoDup_cons in Hn as [Hnin Hn].
  assert ((list_to_map l : Applied) !! v = None) as Hv by by apply not_elem_of_list_to_map_1.
  destruct (0 <? v) eqn:E0; bool_to_prop.
  - rewrite (Hd v) by apply list_elem_of_here. destruct (IH (<[v := (n, c)]> acc) Hn) as (a & Ha & Hl).
    { intros w Hw. rewrite lookup_insert_ne by (intros ->; done). apply Hd. by apply list_elem_of_further. }
    exists a. split; [done|]. intros w. rewrite Hl, list_to_map_cons. case_decide as Hw.
    + destruct (decide (w = v)) as [->|Hne]; [by rewrite Hv, !lookup_insert_eq|]. by rewrite !lookup_insert_ne by done.
    + rewrite lookup_insert_ne by lia. done.
  - destruct (IH acc Hn) as (a & Ha & Hl); [intros w Hw; apply Hd; by apply list_elem_of_further|].
    exists a. split; [done|]. intros w. rewrite Hl, list_to_map_cons. case_decide; [|done].
    by rewrite lookup_insert_ne by lia.
Qed.

Lemma read_history l h : l ≡ₚ map_to_list h -> read_applied (row <$> l) ∅ = Ok (positive h).
Proof.
  intros Hp. assert (NoDup l.*1) as Hn by (rewrite Hp; apply NoDup_fst_map_to_list).
  destruct (read_rows l ∅ Hn) as (a & -> & Ha); [intros; apply lookup_empty|]. f_equal. apply map_eq. intros v.
  rewrite Ha, positive_lookup, lookup_empty. case_decide; [|done].
  rewrite (list_to_map_proper l (map_to_list h)), list_to_map_to_list by done. by destruct (h !! v).
Qed.

(** ** The current version *)

Lemma current_spec (a : Applied) :
  (forall v, is_Some (a !! v) -> v <= current_version a) /\
  0 <= current_version a /\ (current_version a = 0 \/ is_Some (a !! current_version a)).
Proof.
  unfold current_version. apply (map_fold_weak_ind (fun m a => (forall v, is_Some (a !! v) -> v <= m) /\ 0 <= m /\ (m = 0 \/ is_Some (a !! m)))).
  - split; [intros v; rewrite lookup_empty; by intros []|]. split; [lia|by left].
  - intros k x a' r Hk (H1 & H2 & H3). split_and!.
    + intros v. destruct (decide (v = k)) as [->|Hne]; [lia|]. rewrite lookup_insert_ne by done. intros Hv%H1. lia.
    + lia.
    + destruct (decide (k <= r)) as [Hle|Hgt].
      * rewrite Z.max_r by lia. destruct H3 as [->|H3]; [by left|]. right.
        rewrite lookup_insert_ne; [done|]. intros ->. rewrite Hk in H3. by destruct H3.
      * rewrite Z.max_l by lia. right. by rewrite lookup_insert_eq.
Qed.

(** ** The history a validation accepts *)

Definition entry (m : MigrationDefinition) : string * string := (name m, checksum m).

Lemma local_some ms v m : local ms v = Some m -> m ∈ ms /\ version m = v.
Proof. unfold local. intros H. apply List.find_some in H as [H1 H2]. bool_to_prop. by rewrite list_elem_of_In. Qed.

Lemma local_in ms m : NoDup (version <$> ms) -> m ∈ ms -> local ms (version m) = Some m.
Proof.
  unfold local. induction ms as [|m' ms IH]; intros Hn Hin; [by apply elem_of_nil in Hin|]. cbn [fmap list_fmap List.find] in *.
  apply NoDup_cons in Hn as [Hn0 Hn]. apply elem_of_cons in Hin as [->|Hin]; [by rewrite Z.eqb_refl|].
  rewrite (proj2 (Z.eqb_neq (version m') (version m))); [by apply IH|]. intros E. apply Hn0. rewrite E. by apply list_elem_of_fmap_2.
Qed.

Lemma check_records_ok ms records : check_records records ms = Ok tt ->
  forall v r, (v, r) ∈ records -> exists m, local ms v = Some m /\ r = entry m.
Proof.
  induction records as [|[v [n c]] records IH]; intros H v' r Hin; [by apply elem_of_nil in Hin|]. cbn [check_records] in H.
  destruct (local ms v) as [m|] eqn:El; [|done]. destruct (_ || _) eqn:Eq; [done|].
  apply orb_false_iff in Eq as [E1%negb_false_iff%String.eqb_eq E2%negb_false_iff%String.eqb_eq].
  apply elem_of_cons in Hin as [[= -> ->]|Hin]; [|by apply IH]. exists m. by subst.
Qed.

Lemma check_gaps_ok ms highest applied : check_gaps ms highest applied = Ok tt ->
  forall m, m ∈ ms -> version m <= highest -> is_Some (applied !! version m).
Proof.
  induction ms as [|m' ms IH]; intros H m Hin Hle; [by apply elem_of_nil in Hin|]. cbn [check_gaps] in H.
  destruct (_ && _) eqn:E; [done|]. apply elem_of_cons in Hin as [->|Hin]; [|by apply IH].
  apply andb_false_iff in E as [E|E%bool_decide_eq_false]; [bool_to_prop; lia|].
  by destruct (applied !! version m').
Qed.

(** An accepted history is the local migrations up to its current version. *)
Lemma validated_history ms a : NoDup (version <$> ms) -> (forall m, m ∈ ms -> 0 < version m) ->
  (forall v, is_Some (a !! v) -> 0 < v) -> validate_applied_migrations a ms = Ok tt ->
  forall v, a !! v = if decide (v <= current_version a) then entry <$> local ms v else None.
Proof.
  intros Hn Hpos Hapos H v. unfold validate_applied_migrations in H.
  destruct (check_records (map_to_list a) ms) as [[]|] eqn:Er; [|done]. cbn [result_bind] in H.
  destruct (current_spec a) as (Hb & H0 & Hcur). pose proof (check_records_ok _ _ Er) as Hrec.
  destruct (a !! v) as [r|] eqn:Ev.
  - destruct (Hrec v r) as (m & Hm & ->); [by apply elem_of_map_to_list|].
    rewrite decide_True by (apply Hb; eauto). by rewrite Hm.
  - destruct (decide (v <= current_version a)) as [Hle|]; [|done]. destruct (local ms v) as [m|] eqn:El; [|done]. exfalso.
    apply local_some in El as [Hin <-]. case_decide as He.
    + destruct Hcur as [Hc|[? Hc]].
      * rewrite Hc in Hle. apply Hpos in Hin. lia.
      * rewrite He, lookup_empty in Hc. done.
    + pose proof (check_gaps_ok _ _ _ H m Hin Hle) as [? Hs]. congruence.
Qed.

(** ** The texts the provider receives *)

Lemma insert_rewritten b : rewrite_positional_sql (migration_insert_sql table) b 3 = Some (Ok (insert_text b)).
Proof. destruct b; vm_compute; reflexivity. Qed.
Lemma delete_rewritten b : rewrite_positional_sql (migration_delete_sql table) b 1 = Some (Ok (delete_text b)).
Proof. destruct b; vm_compute; reflexivity. Qed.
Lemma create_split b : split_sql_batch (migration_table_sql b table) b = Some (Ok [migration_table_sql b table]).
Proof. destruct b; vm_compute; reflexivity. Qed.
Lemma lock_row_split b : split_sql_batch (lock_row_sql b table) b = Some (Ok [lock_row_sql b table]).
Proof. destruct b; vm_compute; reflexivity. Qed.

Section Run.
Context {DB : Type} {driver : Driver DB} {view : DriverView DB} {laws : DriverLaws DB}.
Context (ms : list MigrationDefinition).

Abbreviation rows d := (history (contents d)).

(** Nothing the migrator cares about changed. *)
Definition same (d d' : DB) : Prop := snapshot d' = snapshot d /\ forall v, 0 < v -> rows d' !! v = rows d !! v.

Lemma same_refl d : same d d.
Proof. done. Qed.

Lemma same_trans d1 d2 d3 : same d1 d2 -> same d2 d3 -> same d1 d3.
Proof. intros [H1 H2] [H3 H4]. split; [congruence|]. intros v Hv. by rewrite H4, H2. Qed.

Lemma batch_single sql d : split_sql_batch sql backend = Some (Ok [sql]) -> snapshot d = None ->
  keeps_outside (run_statement sql []) -> keeps_outside (run_script sql) -> same d (execute_batch_on_connection sql d).2.
Proof.
  intros Es Hd H1 H2. unfold execute_batch_on_connection. rewrite Es. cbn [scan_answer]. unfold op_bind at 1. cbn [op_ret].
  destruct (H1 d Hd) as [A1 A2], (H2 d Hd) as [B1 B2].
  destruct backend; cbn [each_statement]; unfold op_bind, op_provider, op_ret;
    [destruct (run_statement sql [] d) as [[] d'] eqn:E|destruct (run_script sql d) as [[] d'] eqn:E..]; by split.
Qed.

Lemma ensure_keeps d : snapshot d = None -> same d (ensure_migration_table table d).2.
Proof.
  intros Hd. unfold ensure_migration_table, op_bind.
  pose proof (batch_single _ d (create_split backend) Hd law_create_statement law_create_script) as H1.
  destruct (execute_batch_on_connection _ d) as [[[]|e] d1]; [|done]. cbn [snd] in H1.
  eapply same_trans; [done|]. destruct H1 as [H1 _].
  by apply batch_single; [apply lock_row_split|rewrite H1|apply law_lock_row_statement|apply law_lock_row_script].
Qed.

(** ** What a run does to the database

    The reference: for each migration in turn its script, sent as a batch, and then the
    statement that records or forgets its version. *)

Definition script (forward : bool) (m : MigrationDefinition) : list Z := if forward then up m else down m.
Definition record (forward : bool) (m : MigrationDefinition) : DB -> result Z string * DB :=
  if forward then run_statement (insert_text backend) [PInt (version m); PString (name m); PString (checksum m)]
  else run_statement (delete_text backend) [PInt (version m)].

Inductive performs (forward : bool) : list MigrationDefinition -> DB -> DB -> Prop :=
| performs_nil d : performs forward [] d d
| performs_cons m l d d1 k d2 d' :
    execute_batch_on_connection (script forward m) d = (Ok tt, d1) -> record forward m d1 = (Ok k, d2) ->
    performs forward l d2 d' -> performs forward (m :: l) d d'.

(** Stopping at the first script or record the provider refuses. *)
Inductive fails (forward : bool) : list MigrationDefinition -> DB -> MigrationError -> DB -> Prop :=
| fails_script m l d e d' : execute_batch_on_connection (script forward m) d = (Err e, d') -> fails forward (m :: l) d e d'
| fails_record m l d d1 e d' :
    execute_batch_on_connection (script forward m) d = (Ok tt, d1) -> record forward m d1 = (Err e, d') ->
    fails forward (m :: l) d (Provider e) d'
| fails_later m l d d1 k d2 e d' :
    execute_batch_on_connection (script forward m) d = (Ok tt, d1) -> record forward m d1 = (Ok k, d2) ->
    fails forward l d2 e d' -> fails forward (m :: l) d e d'.

(** Applying and undoing are that reference. *)
Lemma up_performs l : forall count d,
  match migrate_up table l count d with
  | (Ok n, d') => n = count + nlen l /\ performs true l d d'
  | (Err e, d') => fails true l d e d'
  end.
Proof.
  induction l as [|m l IH]; intros count d; cbn [migrate_up].
  { split; [unfold nlen; cbn; lia|constructor]. }
  unfold op_bind. destruct (execute_batch_on_connection (up m) d) as [[[]|e] d1] eqn:E1; [|by apply fails_script].
  unfold execute_on_connection, op_bind. cbn [length]. rewrite insert_rewritten. cbn [scan_answer op_ret]. unfold op_provider.
  destruct (run_statement _ _ d1) as [[k|e] d2] eqn:E2; [|by eapply fails_record].
  specialize (IH (count + 1) d2). destruct (migrate_up table l (count + 1) d2) as [[n|e] d'].
  - destruct IH as [-> H]. split; [unfold nlen; cbn [length]; lia|]. by eapply performs_cons.
  - by eapply fails_later.
Qed.

Lemma down_performs l : forall count d, (forall m, m ∈ l -> local ms (version m) = Some m) ->
  match migrate_down table ms (version <$> l) count d with
  | (Ok n, d') => n = count + nlen l /\ performs false l d d'
  | (Err e, d') => fails false l d e d'
  end.
Proof.
  induction l as [|m l IH]; intros count d Hl; [split; [unfold nlen; cbn; lia|constructor]|].
  rewrite fmap_cons. cbn [migrate_down]. rewrite (Hl m) by apply list_elem_of_here.
  unfold op_bind. destruct (execute_batch_on_connection (down m) d) as [[[]|e] d1] eqn:E1; [|by apply fails_script].
  unfold execute_on_connection, op_bind. cbn [length]. rewrite delete_rewritten. cbn [scan_answer op_ret]. unfold op_provider.
  destruct (run_statement _ _ d1) as [[k|e] d2] eqn:E2; [|by eapply fails_record].
  specialize (IH (count + 1) d2 (fun m' H => Hl m' (list_elem_of_further _ _ _ H))).
  destruct (migrate_down table ms (version <$> l) (count + 1) d2) as [[n|e] d'].
  - destruct IH as [-> H]. split; [unfold nlen; cbn [length]; lia|]. by eapply performs_cons.
  - by eapply fails_later.
Qed.

(** A record changes one row, and no step ends the transaction. *)
Lemma record_rows forward m d :
  let '(r, d') := record forward m d in
  snapshot d' = snapshot d /\ forall k, r = Ok k ->
    rows d' = if forward then <[version m := entry m]> (rows d) else delete (version m) (rows d).
Proof. destruct forward; [apply law_insert|apply law_delete]. Qed.

Lemma script_keeps forward m d r d' : well_behaved (script forward m) ->
  execute_batch_on_connection (script forward m) d = (r, d') -> same d d'.
Proof. intros H E. specialize (H d). by rewrite E in H. Qed.

Lemma record_keeps forward m d r d' : record forward m d = (r, d') -> snapshot d' = snapshot d.
Proof. intros E. pose proof (record_rows forward m d) as H. rewrite E in H. by destruct H. Qed.

Lemma performs_rows forward l d d' : (forall m, m ∈ l -> well_behaved (script forward m)) -> NoDup (version <$> l) ->
  performs forward l d d' -> snapshot d' = snapshot d /\
    forall v, 0 < v -> rows d' !! v =
      match local l v with Some m => if forward then Some (entry m) else None | None => rows d !! v end.
Proof.
  intros Hw Hn H. induction H as [d|m l d d1 k d2 d' E1 E2 H IH]; [done|].
  rewrite fmap_cons in Hn. apply NoDup_cons in Hn as [Hm Hn].
  destruct IH as [S3 R3]; [intros m' H'; apply Hw; by apply list_elem_of_further|done|].
  destruct (script_keeps _ _ _ _ _ (Hw m (list_elem_of_here _ _)) E1) as [S1 R1].
  pose proof (record_rows forward m d1) as H2. rewrite E2 in H2. destruct H2 as [S2 R2]. specialize (R2 k eq_refl).
  split; [congruence|]. intros v Hv. rewrite (R3 v Hv). unfold local. cbn [List.find].
  destruct (version m =? v) eqn:E; bool_to_prop.
  - subst v. destruct (List.find _ l) as [m'|] eqn:Ef.
    + apply local_some in Ef as [Hin E]. exfalso. apply Hm. rewrite <- E. by apply list_elem_of_fmap_2.
    + rewrite R2. destruct forward; [apply lookup_insert_eq|apply lookup_delete_eq].
  - destruct (List.find _ l); [done|]. rewrite R2, <- R1 by done.
    destruct forward; [by apply lookup_insert_ne|by apply lookup_delete_ne].
Qed.

Lemma fails_snapshot forward l d e d' : (forall m, m ∈ l -> well_behaved (script forward m)) ->
  fails forward l d e d' -> snapshot d' = snapshot d.
Proof.
  intros Hw H. induction H as [m l d e d' E1|m l d d1 e d' E1 E2|m l d d1 k d2 e d' E1 E2 H IH];
    destruct (script_keeps _ _ _ _ _ (Hw m (list_elem_of_here _ _)) E1) as [S1 _]; [done| |];
    apply record_keeps in E2; [congruence|].
  rewrite IH; [congruence|]. intros m' H'. apply Hw. by apply list_elem_of_further.
Qed.

Context (Hsorted : StronglySorted (fun a b => version a < version b) ms) (Hpos : forall m, m ∈ ms -> 0 < version m).
Context (Hup : forall m, m ∈ ms -> well_behaved (up m)) (Hdown : forall m, m ∈ ms -> well_behaved (down m)).

Lemma Hnodup : NoDup (version <$> ms).
Proof.
  revert Hsorted. clear. induction 1 as [|m l Hs IH Hm]; [constructor|]. rewrite fmap_cons. constructor; [|done].
  intros (m' & E & Hin)%list_elem_of_fmap. rewrite Forall_forall in Hm. apply Hm in Hin. lia.
Qed.

(** The migrations between two versions, and the order in which they are run: upwards to
    a later version, downwards to an earlier one. *)
Definition between_versions (a b : Z) : list MigrationDefinition :=
  List.filter (fun m => (Z.min a b <? version m) && (version m <=? Z.max a b)) ms.
Definition moves (a b : Z) : list MigrationDefinition :=
  if a <? b then between_versions a b else rev (between_versions a b).

Lemma filter_elem (p : MigrationDefinition -> bool) m : m ∈ List.filter p ms -> m ∈ ms.
Proof. rewrite !list_elem_of_In, List.filter_In. tauto. Qed.

Lemma local_filter (p : MigrationDefinition -> bool) v :
  local (List.filter p ms) v = match local ms v with Some m => if p m then Some m else None | None => None end.
Proof.
  pose proof Hnodup as Hn0; revert Hn0; clear. unfold local. induction ms as [|m l IH]; intros Hn; [done|]. rewrite fmap_cons in Hn.
  apply NoDup_cons in Hn as [Hm Hn]. cbn [List.filter List.find]. destruct (p m) eqn:Ep; cbn [List.find].
  - destruct (version m =? v); [by rewrite Ep|by apply IH].
  - destruct (version m =? v) eqn:E; [|by apply IH]. rewrite Ep, IH by done. bool_to_prop. subst v.
    destruct (List.find _ l) as [m'|] eqn:Ef; [|done]. apply local_some in Ef as [Hin E]. exfalso. apply Hm. rewrite <- E.
    by apply list_elem_of_fmap_2.
Qed.

Lemma filter_nodup (p : MigrationDefinition -> bool) : NoDup (version <$> List.filter p ms).
Proof.
  pose proof Hnodup as Hn0; revert Hn0; clear. induction ms as [|m l IH]; intros Hn; [constructor|]. rewrite fmap_cons in Hn.
  apply NoDup_cons in Hn as [Hm Hn]. cbn [List.filter]. destruct (p m); [|by apply IH]. rewrite fmap_cons. constructor; [|by apply IH].
  intros (m' & E & Hin)%list_elem_of_fmap. apply Hm. rewrite E. apply list_elem_of_fmap_2.
  rewrite list_elem_of_In, List.filter_In in Hin. apply list_elem_of_In. tauto.
Qed.

Lemma undone_elem (a : Applied) target v : v ∈ undone a target <-> is_Some (a !! v) /\ target < v.
Proof.
  unfold undone. rewrite list_elem_of_In, List.filter_In, <- list_elem_of_In, merge_sort_Permutation, Z.ltb_lt.
  assert (v ∈ (map_to_list a).*1 <-> is_Some (a !! v)) as ->; [|done]. rewrite list_elem_of_fmap. split.
  - intros ([v' x] & -> & Hin%elem_of_map_to_list). eauto.
  - intros [x Hx]. exists (v, x). split; [done|]. by apply elem_of_map_to_list.
Qed.

(** A filtered list keeps its order, a reversed one turns it round. *)
Lemma filter_sorted {A} (R : A -> A -> Prop) (p : A -> bool) l : StronglySorted R l -> StronglySorted R (List.filter p l).
Proof.
  induction 1 as [|x l H IH Hx]; [constructor|]. cbn [List.filter]. destruct (p x); [|done]. constructor; [done|].
  rewrite Forall_forall in *. intros y Hy. apply Hx. rewrite list_elem_of_In, List.filter_In in Hy. destruct Hy. by apply list_elem_of_In.
Qed.

Lemma rev_sorted {A} (R : A -> A -> Prop) l : StronglySorted R l -> StronglySorted (flip R) (rev l).
Proof.
  induction 1 as [|x l H IH Hx]; [constructor|]. cbn [rev]. apply StronglySorted_app. split_and!; [|done|by repeat constructor].
  intros a b Ha ->%list_elem_of_singleton. rewrite Forall_forall in Hx. apply Hx.
  rewrite list_elem_of_In, <- in_rev in Ha. by apply list_elem_of_In.
Qed.

#[local] Instance later_first_trans : Transitive later_first.
Proof. intros a b c. unfold later_first. lia. Qed.
#[local] Instance later_first_total : Total later_first.
Proof. intros a b. unfold later_first. lia. Qed.
#[local] Instance later_first_antisym : AntiSymm (=) later_first.
Proof. intros a b. unfold later_first. lia. Qed.

(** The history the migrator accepts: the local migrations up to its current version. *)
Definition consistent (a : Applied) : Prop :=
  forall v, a !! v = if decide (v <= current_version a) then entry <$> local ms v else None.

(** Below an accepted history, the versions undone are those of the definitions, latest first. *)
Lemma undone_moves (a : Applied) target : target <= current_version a -> consistent a ->
  undone a target = version <$> moves (current_version a) target.
Proof.
  intros Hle Ha. unfold moves. rewrite (proj2 (Z.ltb_ge _ _)) by done. apply (StronglySorted_unique later_first).
  - apply filter_sorted. apply StronglySorted_merge_sort; apply _.
  - apply (StronglySorted_fmap _ (flip (fun a b => version a < version b))); [unfold later_first, flip; lia|].
    by apply rev_sorted, filter_sorted.
  - rewrite <- Permutation_rev. apply NoDup_Permutation.
    + unfold undone. apply NoDup_ListNoDup, List.NoDup_filter, NoDup_ListNoDup. rewrite merge_sort_Permutation.
      apply NoDup_fst_map_to_list.
    + apply filter_nodup.
    + intros v. unfold between_versions. rewrite Z.min_r, Z.max_l, undone_elem, list_elem_of_fmap by done. split.
      * intros [Hs Hv]. rewrite Ha in Hs. destruct (decide (v <= current_version a)) as [Hc|]; [|by destruct Hs].
        destruct (local ms v) as [m|] eqn:El; [|by destruct Hs]. apply local_some in El as [Hin <-].
        exists m. split; [done|]. rewrite list_elem_of_In, List.filter_In, <- list_elem_of_In. split; [done|].
        apply andb_true_iff. rewrite Z.ltb_lt, Z.leb_le. lia.
      * intros (m & -> & Hin). rewrite list_elem_of_In, List.filter_In, <- list_elem_of_In in Hin.
        destruct Hin as [Hin [Hlt%Z.ltb_lt Hc%Z.leb_le]%andb_true_iff]. rewrite Ha, decide_True by done.
        rewrite (local_in ms m Hnodup Hin). split; [by eexists|done].
Qed.

(** What the metadata table holds when the database is at a version. *)
Definition at_version (d : DB) (v0 : Z) : Prop :=
  forall v, 0 < v -> rows d !! v = if decide (v <= v0) then entry <$> local ms v else None.

(** Every list of moves is run by definitions of the set, each once. *)
Lemma moves_local a b : NoDup (version <$> moves a b) /\ forall m, m ∈ moves a b -> m ∈ ms.
Proof.
  unfold moves, between_versions. destruct (a <? b).
  - split; [apply filter_nodup|apply filter_elem].
  - split; [rewrite <- Permutation_rev; apply filter_nodup|]. intros m. rewrite <- Permutation_rev. apply filter_elem.
Qed.

Lemma moves_find a b v : local (moves a b) v =
  match local ms v with Some m => if (Z.min a b <? v) && (v <=? Z.max a b) then Some m else None | None => None end.
Proof.
  assert (local (moves a b) v = local (between_versions a b) v) as ->.
  { unfold moves. destruct (a <? b); [done|]. assert (NoDup (version <$> rev (between_versions a b))) as Hn.
    { rewrite <- Permutation_rev. apply filter_nodup. }
    destruct (local (between_versions a b) v) as [m|] eqn:E.
    - apply local_some in E as [Hin <-]. apply local_in; [done|]. by rewrite <- Permutation_rev.
    - destruct (local (rev _) v) as [m|] eqn:E'; [|done]. apply local_some in E' as [Hin <-].
      rewrite <- Permutation_rev in Hin. rewrite local_in in E; [done|apply filter_nodup|done]. }
  unfold between_versions. rewrite local_filter. destruct (local ms v) as [m|] eqn:El; [|done].
  apply local_some in El as [_ <-]. done.
Qed.

(** Running the moves arrives at the target. *)
Lemma moves_arrive cur target d d' : at_version d cur -> performs (cur <? target) (moves cur target) d d' ->
  snapshot d' = snapshot d /\ at_version d' target.
Proof.
  intros Hat H. destruct (moves_local cur target) as [Hn Hin]. apply performs_rows in H as [Hs Hr].
  - split; [done|]. intros v Hv. rewrite (Hr v Hv), moves_find, (Hat v Hv). destruct (local ms v) as [m|]; [|by repeat case_decide].
    destruct (cur <? target) eqn:E; destruct (_ <? v) eqn:E1, (v <=? _) eqn:E2; bool_to_prop; cbn [andb];
      repeat case_decide; try done; lia.
  - intros m Hm. unfold script. destruct (cur <? target); [apply Hup|apply Hdown]; by apply Hin.
  - done.
Qed.

Lemma moves_stop cur target d e d' : fails (cur <? target) (moves cur target) d e d' -> snapshot d' = snapshot d.
Proof.
  apply fails_snapshot. intros m Hm. apply moves_local in Hm. unfold script. destruct (cur <? target); [by apply Hup|by apply Hdown].
Qed.

(** A refused history is not one the migrations could have left. *)
Lemma refused_history a e : validate_applied_migrations a ms = Err e -> ~ consistent a.
Proof.
  intros H Ha. unfold validate_applied_migrations in H.
  assert (forall l, (forall v r, (v, r) ∈ l -> exists m, local ms v = Some m /\ r = entry m) -> check_records l ms = Ok tt) as Hr.
  { induction l as [|[v [n c]] l IH]; intros Hl; [done|]. cbn [check_records].
    destruct (Hl v (n, c)) as (m & -> & [= -> ->]); [apply list_elem_of_here|]. rewrite !String.eqb_refl. cbn.
    apply IH. intros. apply Hl. by apply list_elem_of_further. }
  rewrite Hr in H; cbn [result_bind] in H.
  2: { intros v r E%elem_of_map_to_list. rewrite Ha in E. case_decide; [|done]. destruct (local ms v) as [m|]; [|done].
       injection E as <-. by exists m. }
  case_decide; [done|].
  assert (forall l, (forall m, m ∈ l -> m ∈ ms) -> check_gaps l (current_version a) a = Ok tt) as Hg; [|by rewrite Hg in H].
  induction l as [|m l IH]; intros Hl; [done|]. cbn [check_gaps].
  destruct (version m <=? current_version a) eqn:E; cbn [andb]; [|apply IH; intros; apply Hl; by apply list_elem_of_further].
  bool_to_prop. rewrite Ha, decide_True, local_in by (done || apply Hnodup || apply Hl, list_elem_of_here).
  rewrite bool_decide_eq_false_2 by done. apply IH. intros. apply Hl. by apply list_elem_of_further.
Qed.

(** How the work inside the transaction ends early: the history cannot be read, is not
    one of these migrations, or a script or record of the moves is refused. *)
Inductive stops (target : Z) (d : DB) : MigrationError -> DB -> Prop :=
| stops_unread e d' : run_query (applied_sql table) [] d = (Err e, d') -> stops target d (Provider e) d'
| stops_refused rs e d' : run_query (applied_sql table) [] d = (Ok rs, d') -> ~ consistent (positive (rows d)) ->
    validate_applied_migrations (positive (rows d)) ms = Err e -> stops target d e d'
| stops_inside rs d1 e d' : run_query (applied_sql table) [] d = (Ok rs, d1) -> consistent (positive (rows d)) ->
    let cur := current_version (positive (rows d)) in
    fails (cur <? target) (moves cur target) d1 e d' -> stops target d e d'.

Lemma body_runs target d :
  let cur := current_version (positive (rows d)) in
  match migrate_body table ms target d with
  | (Ok n, d') => n = nlen (moves cur target) /\ exists rs d1, run_query (applied_sql table) [] d = (Ok rs, d1) /\
      performs (cur <? target) (moves cur target) d1 d' /\ snapshot d' = snapshot d /\ at_version d' target
  | (Err e, d') => stops target d e d' /\ snapshot d' = snapshot d
  end.
Proof.
  intros cur. subst cur. unfold migrate_body, applied_migrations, query_on_connection, query_on_connection_params, op_bind, op_provider.
  pose proof (law_select d) as H1. destruct (run_query _ _ d) as [[rs|e] d1] eqn:E1; destruct H1 as [S1 R1]; [|by split; [constructor|]].
  destruct (R1 rs eq_refl) as (Hc & l & Hl & ->). rewrite (read_history l _ Hl). cbn [op_result].
  set (a := positive (rows d)). assert (forall v, is_Some (a !! v) -> 0 < v) as Hapos.
  { intros v. subst a. rewrite positive_lookup. case_decide; [done|]. by intros []. }
  destruct (validate_applied_migrations a ms) as [[]|e] eqn:Ev.
  2: { cbn [op_result]. split; [|done]. eapply stops_refused; [done| |done]. by eapply refused_history. }
  pose proof (validated_history ms a Hnodup Hpos Hapos Ev : consistent a) as Ha. cbn [op_result].
  assert (at_version d1 (current_version a)) as Hat.
  { intros v Hv. rewrite Hc, <- Ha. subst a. rewrite positive_lookup. by rewrite decide_True. }
  assert (forall X : result Z MigrationError * DB,
    match X with
    | (Ok n, d') => n = 0 + nlen (moves (current_version a) target) /\ performs (current_version a <? target) (moves (current_version a) target) d1 d'
    | (Err e, d') => fails (current_version a <? target) (moves (current_version a) target) d1 e d'
    end -> match X with
    | (Ok n, d') => n = nlen (moves (current_version a) target) /\ exists rs d2, (Ok (row <$> l) : result (list (list value)) string, d1) = (Ok rs, d2) /\
        performs (current_version a <? target) (moves (current_version a) target) d2 d' /\ snapshot d' = snapshot d /\ at_version d' target
    | (Err e, d') => stops target d e d' /\ snapshot d' = snapshot d
    end) as Hend.
  { intros [[n|e] d'].
    - intros [-> H]. split; [done|]. eexists _, _. destruct (moves_arrive _ _ _ _ Hat H) as [-> ?]. by rewrite S1.
    - intros H. split; [by eapply stops_inside|]. apply moves_stop in H. congruence. }
  destruct (target =? current_version a) eqn:E2; bool_to_prop.
  { subst target. apply (Hend (Ok 0, d1)). unfold moves, between_versions. rewrite Z.ltb_irrefl, Z.min_id, Z.max_id.
    assert (List.filter (fun m => (current_version a <? version m) && (version m <=? current_version a)) ms = []) as ->; [|by split; [|constructor]].
    clear. induction ms as [|m l IH]; [done|]. cbn [List.filter]. destruct (_ && _) eqn:E; [bool_to_prop; lia|]. done. }
  apply Hend. destruct (current_version a <? target) eqn:E3; bool_to_prop.
  - unfold moves, between_versions. rewrite (proj2 (Z.ltb_lt _ _)), Z.min_l, Z.max_r by lia. apply up_performs.
  - rewrite undone_moves by (done || lia). apply down_performs. intros m Hm. apply local_in; [apply Hnodup|]. by eapply moves_local.
Qed.

(** Beginning: the transaction is open, or the first statement failed and nothing
    changed, or, except on SQLite, the second one failed and the transaction is open. *)
Lemma begin_ends d : snapshot d = None ->
  match begin_migration_transaction table d with
  | (Ok _, d') => snapshot d' = Some (contents d) /\ forall v, 0 < v -> rows d' !! v = rows d !! v
  | (Err e, d') => exists s, e = Provider s /\
      (run_script (begin_sql backend) d = (Err s, d') /\ snapshot d' = None /\ contents d' = contents d \/
       exists d1, backend <> Sqlite /\ run_script (begin_sql backend) d = (Ok tt, d1) /\
         run_script (lock_sql backend table) d1 = (Err s, d') /\ snapshot d' = Some (contents d))
  end.
Proof.
  intros Hd. unfold begin_migration_transaction, op_bind, op_provider.
  pose proof (law_begin d) as Hb. pose proof (law_begin_fails d) as Hf.
  destruct (run_script (begin_sql backend) d) as [[[]|e] d1] eqn:E.
  - destruct (Hb d1 eq_refl) as [B1 B2]. destruct (law_lock d1) as [L1 L2]. clear Hf.
    destruct backend; rewrite ?E; [by rewrite B2|..];
      destruct (run_script (lock_sql _ _) d1) as [[[]|s] d2] eqn:E2; cbn [snd] in L1, L2;
      try (split; [congruence|intros v Hv; by rewrite L2, B2]); exists s; split; [done| |done| |done|];
      right; exists d1; split_and!; congruence.
  - destruct (Hf d1 e eq_refl) as [F1 F2]. destruct backend; rewrite ?E; exists e; (split; [done|left; split_and!; congruence]).
Qed.

(** Every way a migration can end, and what it leaves.

    - [Migrated]: from the version recorded before, exactly the moves to the target have
      been run, in order, each script and then its record, and committed;
    - [Unprepared]: the metadata table could not be made;
    - [Unbegun]: no transaction was begun, and nothing was run in it;
    - [Unlocked]: the transaction was begun and not locked, and is left open;
    - [RolledBack]: the content is the one the transaction began with;
    - [RollbackFailed], [CommitFailed]: the provider refused to end the transaction. *)
Inductive outcome (target : Z) (d : DB) : result Z MigrationError -> DB -> Prop :=
| Migrated d1 d2 rs d3 d4 d' :
    let cur := current_version (positive (rows d)) in
    ensure_migration_table table d = (Ok tt, d1) -> same d d1 -> begin_migration_transaction table d1 = (Ok tt, d2) ->
    run_query (applied_sql table) [] d2 = (Ok rs, d3) -> performs (cur <? target) (moves cur target) d3 d4 ->
    run_script (commit_sql backend) d4 = (Ok tt, d') -> snapshot d' = None -> contents d' = contents d4 ->
    at_version d' target -> outcome target d (Ok (nlen (moves cur target))) d'
| Unprepared e d' : ensure_migration_table table d = (Err e, d') -> same d d' -> outcome target d (Err e) d'
| Unbegun d1 e d' : ensure_migration_table table d = (Ok tt, d1) -> same d d1 ->
    run_script (begin_sql backend) d1 = (Err e, d') -> snapshot d' = None -> contents d' = contents d1 ->
    outcome target d (Err (Provider e)) d'
| Unlocked d1 d2 e d' : backend <> Sqlite -> ensure_migration_table table d = (Ok tt, d1) -> same d d1 ->
    run_script (begin_sql backend) d1 = (Ok tt, d2) -> run_script (lock_sql backend table) d2 = (Err e, d') ->
    snapshot d' = Some (contents d1) -> outcome target d (Err (Provider e)) d'
| RolledBack d1 d2 d3 e d' : ensure_migration_table table d = (Ok tt, d1) -> same d d1 ->
    begin_migration_transaction table d1 = (Ok tt, d2) -> stops target d2 e d3 ->
    run_script (rollback_sql backend) d3 = (Ok tt, d') -> snapshot d' = None -> contents d' = contents d1 ->
    outcome target d (Err e) d'
| RollbackFailed d1 d2 d3 e s d' : ensure_migration_table table d = (Ok tt, d1) -> same d d1 ->
    begin_migration_transaction table d1 = (Ok tt, d2) -> stops target d2 e d3 -> snapshot d3 = Some (contents d1) ->
    run_script (rollback_sql backend) d3 = (Err s, d') -> outcome target d (Err e) d'
| CommitFailed d1 d2 rs d3 d4 s d' :
    let cur := current_version (positive (rows d)) in
    ensure_migration_table table d = (Ok tt, d1) -> same d d1 -> begin_migration_transaction table d1 = (Ok tt, d2) ->
    run_query (applied_sql table) [] d2 = (Ok rs, d3) -> performs (cur <? target) (moves cur target) d3 d4 ->
    snapshot d4 = Some (contents d1) -> run_script (commit_sql backend) d4 = (Err s, d') ->
    outcome target d (Err (Provider s)) d'.


(** A failed lock leaves the transaction open.  Except on SQLite the transaction is
    begun before the lock row is selected, and an error of that second statement is
    returned at once: no rollback is sent, and the connection goes back to its owner
    inside the transaction. *)
Lemma migration_lock_failure target d d1 d2 d3 e :
  backend <> Sqlite -> ensure_migration_table table d = (Ok tt, d1) ->
  run_script (begin_sql backend) d1 = (Ok tt, d2) -> run_script (lock_sql backend table) d2 = (Err e, d3) ->
  migrate_to table ms target d = (Err (Provider e), d3) /\ snapshot d3 = Some (contents d1).
Proof.
  intros Hb E1 E2 E3. assert (snapshot d3 = Some (contents d1)) as Hs.
  { destruct (law_lock d2) as [H _]. rewrite E3 in H. cbn in H. rewrite H. by apply law_begin in E2 as [? _]. }
  split; [|done]. unfold migrate_to, op_bind. rewrite E1. unfold begin_migration_transaction, op_bind, op_provider.
  destruct backend; [done|by rewrite E2, E3..].
Qed.

End Run.

(** ** A provider that behaves so *)

(** The metadata table and the log of everything else that was run. *)
Record demo_db : Type := mk_demo {
  demo_content : gmap Z (string * string) * list (list Z);
  demo_saved : option (gmap Z (string * string) * list (list Z));
  demo_lock_fails : bool;
}.

Definition demo_log (sql : list Z) (d : demo_db) : demo_db :=
  mk_demo ((demo_content d).1, (demo_content d).2 ++ [sql]) (demo_saved d) (demo_lock_fails d).
Definition demo_rows (h : gmap Z (string * string)) (d : demo_db) : demo_db :=
  mk_demo (h, (demo_content d).2) (demo_saved d) (demo_lock_fails d).

Definition demo_statement (sql : list Z) (ps : list SqlParam) (d : demo_db) : result Z string * demo_db :=
  if decide (sql = insert_text Postgres) then
    match ps with
    | [PInt v; PString n; PString c] => (Ok 1, demo_rows (<[v := (n, c)]> (demo_content d).1) d)
    | _ => (Err "parameters", d)
    end
  else if decide (sql = delete_text Postgres) then
    match ps with
    | [PInt v] => (Ok 1, demo_rows (delete v (demo_content d).1) d)
    | _ => (Err "parameters", d)
    end
  else (Ok 0, demo_log sql d).

Definition demo_script (sql : list Z) (d : demo_db) : result unit string * demo_db :=
  if decide (sql = begin_sql Postgres) then (Ok tt, mk_demo (demo_content d) (Some (demo_content d)) (demo_lock_fails d))
  else if decide (sql = commit_sql Postgres) then (Ok tt, mk_demo (demo_content d) None (demo_lock_fails d))
  else if decide (sql = rollback_sql Postgres) then
    (Ok tt, mk_demo (default (demo_content d) (demo_saved d)) None (demo_lock_fails d))
  else if decide (sql = lock_sql Postgres table) then (if demo_lock_fails d then Err "lock timeout" else Ok tt, d)
  else if decide (sql = octets "FAIL") then (Err "syntax error", d)
  else (Ok tt, demo_log sql d).

#[export] Instance demo_driver : Driver demo_db := {|
  backend := Postgres;
  run_statement := demo_statement;
  run_script := demo_script;
  run_query sql ps d := (Ok (row <$> map_to_list (demo_content d).1), d);
|}.

#[export] Instance demo_view : DriverView demo_db := {|
  contents := demo_content;
  history := fst;
  snapshot := demo_saved;
|}.

(** Texts that are none of the transaction commands. *)
Lemma demo_script_plain sql : sql <> begin_sql Postgres -> sql <> commit_sql Postgres -> sql <> rollback_sql Postgres ->
  forall d, keeps_at (demo_script sql) d.
Proof. intros H1 H2 H3 d. unfold keeps_at, demo_script. rewrite !(decide_False (P := sql = _)) by done. by repeat case_decide; destruct (demo_lock_fails d). Qed.

Lemma demo_statement_plain sql : sql <> insert_text Postgres -> sql <> delete_text Postgres ->
  forall d, keeps_at (demo_statement sql []) d.
Proof. intros H1 H2 d. unfold keeps_at, demo_statement. by rewrite !decide_False. Qed.

#[export] Instance demo_laws : DriverLaws demo_db.
Proof.
  split.
  - intros d _. by apply demo_statement_plain.
  - intros d _. by apply demo_script_plain.
  - intros d _. by apply demo_statement_plain.
  - intros d _. by apply demo_script_plain.
  - intros d. by apply demo_script_plain.
  - intros d d' [= <-]. done.
  - intros d d' e [=].
  - intros d d' [= <-]. done.
  - intros d d' before [= <-] E. cbn in *. by rewrite E.
  - intros d v n c. split; [done|]. done.
  - intros d v. split; [done|]. done.
  - intros d. split; [done|]. intros rs [= <-]. split; [done|]. by eexists.
Qed.

Definition demo_migrations : list MigrationDefinition :=
  [mk_migration 1 "users" (octets "CREATE TABLE u; CREATE INDEX i") (octets "DROP TABLE u") "aa";
   mk_migration 3 "posts" (octets "CREATE TABLE p") (octets "DROP TABLE p") "bb"].

Lemma demo_well_behaved sql : sql <> begin_sql Postgres -> sql <> commit_sql Postgres -> sql <> rollback_sql Postgres ->
  well_behaved (driver := demo_driver) sql.
Proof.
  intros H1 H2 H3 d. unfold execute_batch_on_connection, op_bind, scan_answer. cbn [backend demo_driver].
  destruct (split_sql_batch sql Postgres) as [[[|st sts]|e]|]; [done| |done|done]. unfold op_ret, op_provider.
  destruct (demo_script_plain sql H1 H2 H3 d) as [A1 A2]. cbn [run_script demo_driver].
  destruct (demo_script sql d) as [[[]|e] d'] eqn:E; done.
Qed.

Lemma demo_hypotheses : StronglySorted (fun a b => version a < version b) demo_migrations /\ (forall m, m ∈ demo_migrations -> 0 < version m) /\
  (forall m, m ∈ demo_migrations -> well_behaved (driver := demo_driver) (up m)) /\
  (forall m, m ∈ demo_migrations -> well_behaved (driver := demo_driver) (down m)).
Proof.
  unfold demo_migrations. split_and!.
  - by repeat constructor.
  - intros m. rewrite !elem_of_cons, elem_of_nil. by intros [-> | [-> | []]].
  - intros m. rewrite !elem_of_cons, elem_of_nil. by intros [-> | [-> | []]]; apply demo_well_behaved.
  - intros m. rewrite !elem_of_cons, elem_of_nil. by intros [-> | [-> | []]]; apply demo_well_behaved.
Qed.

Definition demo_start (lock_fails : bool) : demo_db := mk_demo (∅, []) None lock_fails.

